(* ===== verification/_CoqProject ===== *)
-Q . S2P
Prelude.v
Types.v
Block.v
JournalEntry.v
Bloom.v
Memtable.v
Merge.v
Streams.v
TableMeta.v
TableWriter.v
TableReader.v
Version.v
Leveled.v
Paths.v
Wal.v
GroupCommit.v
Budget.v
Worker.v
Manifest.v
Tree.v
TreeReads.v
TreeSteps.v
TreeCompact.v
TreeOpen.v
TreeMajor.v
TreeRun.v
TreeTheorems.v
Engine.v
EngineRun.v
EngineTheorems.v
ByteOrder.v
BTree.v
Value.v
SortEncoding.v
FieldDict.v
Lid.v
Record.v
FieldRegistry.v
SpatialKey.v
SpatialScan.v
Filters.v
Aggregate.v
GroupKey.v
Rollup.v
Ghost.v
GhostInv.v
GhostRun.v
GhostTheorems.v
GhostReads.v
GhostEngine.v
GhostSample.v
Gravity.v
FilterEq.v
Router.v
Scan.v
ScanPages.v
ScanRoutes.v
ScanAll.v
ScanTree.v
ScanSample.v
Registries.v
Db.v
Mutations.v
DbInv.v
DbEngine.v
DbReads.v
DbDelete.v
DbChange.v
DbPut.v
DbSet.v
DbSample.v
Nom.v
Parser.v
Tokens.v
ExprReads.v
StatementReads.v
ParseReads.v
Segments.v
ParseTheorems.v
ParseSample.v
