(* ===== verification/Prelude.v ===== *)
(** * xyzDB: a verification development (root file)

    xyzDB is a database in Rust. Its storage engine, [crates/turba-engine], is an
    LSM tree per keyspace behind one write-ahead log; [crates/core] defines
    values, records, identifiers and the keys records are stored under;
    [crates/engine] builds lobes, ghosts (materialised orders and roll-ups) and
    queries on top of them; [crates/xytalk-parser] parses the statements. This
    library models the storage engine as a whole, the core data model, the
    parser, and the parts of the database engine on which the correctness of
    stored bytes depends. Paths below are relative to the
    [crates/] directory of the sources.

    ** How the program's parts interact, and where they are modelled

    Bytes and files of the storage engine ([turba-engine/src]):
    - [Types] (types.rs): internal keys, entries, their order, prefix ranges.
    - [Block] (block.rs, compression.rs): the data block format and point reads.
    - [JournalEntry] (journal/entry.rs): the bytes of a batch in the log.
    - [Bloom] (bloom.rs): filters and the floating-point sizing of them.
    - [TableMeta], [TableWriter], [TableReader] (table/): a table's metadata,
      its writer and every way of reading it.
    - [Manifest] (manifest.rs), [Paths]: the list of live tables, file names.

    In memory:
    - [Memtable] (memtable.rs), [Merge] (merge.rs), [Streams] (merge_op.rs,
      mvcc.rs, compaction/stream.rs): the write buffer, the k-way merge, what a
      reader sees of a merged run and what a compaction keeps of it.
    - [Version] (tree/version.rs), [Leveled] (compaction/leveled.rs), [Worker]
      (compaction/worker.rs): levels, the choice and the execution of a
      compaction.
    - [Budget] (memory_budget.rs): the sizes derived from the memory budget.

    The tree and the engine:
    - [Tree] (tree/mod.rs) has the methods of one keyspace as functions on its
      state; [TreeReads], [TreeSteps], [TreeCompact], [TreeOpen], [TreeMajor]
      prove what each does to the layers of the tree; [TreeRun] is the transition
      system of writers, flushes, compactions, pruning and crashes in any order,
      with its invariant; [TreeTheorems] states what holds of every run.
    - [Wal] (journal/writer.rs, recovery.rs) has the log's segments and what a
      crash may leave of them; [GroupCommit] the writers and the sync thread of
      engine.rs at the grain of single atomic accesses and lock operations.
    - [Engine] (engine.rs, config.rs) has the five trees with the log: commit,
      open with replay, pruning, rotation, checkpoint, major compaction;
      [EngineRun] is the transition system of the whole, [EngineTheorems] its
      theorems.

    Above the storage engine:
    - [ByteOrder], [BTree]: big-endian fields under the order of bytes, IEEE bits
      and their order, ordered maps.
    - [Value], [Record] (core/src/value.rs, record.rs): values, filters, the
      three on-disk forms of a record and the column of its search vector.
    - [FieldDict] (core/src/field_dict.rs), [FieldRegistry]
      (engine/src/field_registry.rs): the numbering of field names, and that it
      is committed with the records that use it.
    - [Lid] (core/src/lid.rs, error.rs): identifiers.
    - [SpatialKey] (core/src/key.rs, zorder.rs), [SpatialScan] (the range
      resolution of engine/src/ops/scan.rs): keys of the spatial keyspace, and
      that the ranges computed from them select exactly a gravity bucket.
    - [SortEncoding] (engine/src/sort_encoding.rs, ghost/metric_order.rs,
      ghost/read.rs, the comparisons of ops/scan.rs): keys of ghosts, whose byte
      order is the order of the values, and the window of keys a read scans.
    - [Filters] (xytalk-parser/src/ast.rs, engine/src/ops/mod.rs): filter
      expressions, the conversion of literals, and their evaluation.
    - [Aggregate] (engine/src/aggregate_state.rs): the state of an aggregate,
      adding and subtracting records, signed deltas and their folding;
      [GroupKey] (the same file, ghost/mod.rs): keys of groups and of roll-ups;
      [Rollup] (rollup_merge.rs): deltas as bytes, and the merge operator that
      folds them, which meets the interface the storage engine asks for.
    - [Ghost] (engine/src/ghost/mod.rs, notify.rs, read.rs): a ghost's metadata,
      its index and aggregates, the post-write hook [notify_write], spilling to
      disk and the reads of precomputed aggregates, over trees known by the
      interface [TreeApi]; [GhostInv], [GhostRun], [GhostTheorems], [GhostReads]
      prove them against the laws of that interface, and [GhostEngine] shows that
      the keyspaces of the storage engine have the laws; [GhostSample] runs
      concrete ghosts over such keyspaces.
    - [Gravity] (engine/src/gravity_spec.rs, satellite_spec.rs,
      engine/satellites.rs, the placement of ops/put.rs): which bucket and which
      satellite a record goes to, and which a query pins.
    - [FilterEq], [Router] (engine/src/ghost_router.rs, registration in
      engine/ghosts.rs): equality of filters, the ghosts a router knows and the
      source it chooses for a query.
    - [Scan] (engine/src/ops/scan.rs, cursor.rs, ghost/read.rs): the SCAN
      statement on every route, with limits, ORDER BY, cursors and the budget of a
      nearest-neighbour search, over trees known by the interface [Reads];
      [ScanPages], [ScanRoutes], [ScanAll] prove it against the laws of that
      interface, [ScanTree] shows that the tree of the storage engine has them
      and [ScanSample] runs it on a small lobe.
    - [Registries] (core/src/lobe.rs, engine/src/anchor.rs, vector_spec.rs,
      record_cache.rs): the registries of lobes, anchors and vector fields, and
      the cache of records.
    - [Db] (engine/src/engine/mod.rs, gravity.rs, vectors.rs, verbs.rs,
      ops/find.rs): the state of the database, LOBE, ANCHOR and GRAVITY, and FIND,
      over trees known by the interfaces [Reads], [TreeApi] and [Commit];
      [Mutations] (ops/put.rs, set.rs, delete.rs, link.rs): PUT, PUT BATCH, the
      bulk path, SET, DELETE, PURGE and LINK, each with its commits, the ghosts'
      hook and the cache in the order of the code.
    - [DbInv] states the laws of commits ([CommitLaws]), the map from identifiers
      to records that a database holds and the invariant [db_inv]; [DbEngine] shows
      that the commits of the storage engine are as the laws say; [DbReads],
      [DbDelete], [DbChange], [DbPut], [DbSet] prove the statements against it;
      [DbSample] shows that sorted lists have the laws and runs the statements,
      also where they go wrong.
    - [Nom], [Parser] (xytalk-parser/src/ast.rs, parser.rs): characters and the
      combinators, the syntax tree, and every parser of the language up to [parse]
      and [parse_multi]. [Tokens] has the tokens of a statement and their layouts;
      [ExprReads], [StatementReads], [ParseReads] show that each parser reads every
      layout of its tokens; [Segments] treats comments, pipelines and scripts,
      [ParseTheorems] whole texts, and [ParseSample] runs the parser on texts, also
      on those it misreads.

    ** Conventions

    Integers are [Z] with the wrap-around of their width written out ([wrap64]
    and its siblings); bytes are a list of [Z]; a string is its UTF-8 bytes. A
    fallible function returns [Result] with the source's error constructors, and
    [Panic] where the code would panic; a method on interior-mutable state is a
    state monad over it ([ST]). Definitions carry the names of the source. All of
    them evaluate, and the witnesses run them on concrete inputs.

    ** What the theorems show

    - The engine ([engine_crash], [open_recovers], [commit_is_a_run],
      [log_cuts_are_runs], [commit_errors], [acked_is_durable],
      [wal_recovers]): a commit that returned survives a crash at any point, no
      batch is split, opening recovers what the log and the tables hold, pruning
      drops only what is in a table, and failures are reported. They are about
      runs with one commit at a time, through a synchronous log that is not
      paused, and about keys no merge operator owns; all writes are commits, and
      the pruner does not drop the batch of the commit in progress. Outside of
      these the code can lose a batch: [prune_window], [paused_commit_skips_log],
      [direct_writes_unpin_log], [poison_race], [wal_roll_overwrites].
    - A keyspace ([run_refines_map], [crash_recovers], [run_reads],
      [run_keeps_tables], [maintenance_keeps_reads], [scans_exact]; lemmas
      [get_at_newest], [get_at_view]): in every run a keyspace is the map of the
      acknowledged writes, and reads, scans and snapshots agree with it. A run has
      one writer; its flushes do not overlap (nothing in the code ensures that),
      its outputs fit the table format and, with a merge operator, no compaction
      output above the last level ends between two versions of a key and no crash
      comes when a merge-owned write is both in the log and in a table; [get] does
      not fold merge-owned keys, scans do.
    - Compaction ([compaction_preserves_reads], [choose_compaction_sound],
      [compaction_keeps_levels], [compaction_writes_stream],
      [major_compact_terminates], [major_compact_drains]).
    - Formats ([decode_encode], [decode_detects_corruption],
      [sstable_roundtrip],
      [manifest_roundtrip], [write_manifest_atomic],
      [bloom_no_false_negatives],
      [budget_bounds]).
    - The data model ([record_roundtrip], [registry_durable], [sort_key_order],
      [seek_window_complete], [bucket_scans_exact],
      [spatial_keys_well_formed], [lids_unique]).
    - Ghosts ([precomputed_exact], [notify_write_keeps_ghosts],
      [covering_index_exact], [rollup_fold_exact], [group_keys_exact]): whatever
      is written, a ghost's index is the sorted list of the matching records and
      its aggregates are their summaries, over the whole and by group, in memory,
      during a spill and on disk. The theorems are about records whose values the
      aggregates are exact on (integers within 64 bits for sums, values of one
      class for extremes); the lemmas [minimum_reset], [average_counts_text],
      [fold_order_matters] show what happens otherwise.
    - Scans ([scan_any_route], [cursors_see_the_lobe_once], [plan_scan_sound],
      [bucket_scan_is_full_scan], [ordered_scan_first]): a query has one answer,
      the matching records of the lobe, whichever ghost, bucket or page it is
      read from, if records are where their gravity places them, ghosts' indexes
      are exact and values compare alike in keys and filters; pages joined by
      cursors give each record once; the router sends a query only to ready
      ghosts that can answer it.  [disjunction_unfiltered],
      [limit_zero_fails], [late_gravity_hides_records] and
      [zeros_in_two_buckets] show where the side conditions matter.
    - Statements ([put_refines], [set_exact], [delete_exact], [find_exact]): on
      the map from identifiers to records, PUT adds one record or is refused or
      updates the record that has the anchor value, SET overwrites the fields of
      the selected records and nothing else, DELETE removes exactly the selected
      ones, and FIND returns the matching ones, through the cache, the anchor
      index or the rows of a lobe; each keeps the trees, the anchor index, the
      buckets and the cache in line.  They are about databases without ghosts,
      counters that do not wrap and are ahead of all stored keys (the key counter
      is not, after a restart), statements without a LINK clause, lobes with at
      most one anchor under ON CONFLICT, and filters that compare anchors with
      plain literals and do not pin the gravity; the lemmas of [DbSample] show
      what happens otherwise.
    - The query language ([parse_complete], [script_complete], [print_parse]):
      every statement, pipeline and script in the range of the grammar is parsed
      from every text that spells its tokens, whatever the case of keywords, the
      white space and the comments; what is printed is parsed back.  The texts
      excepted, with line feeds, semicolons or escaped quotation marks that the
      scanners for lines, scripts and pipelines misread, are shown in
      [ParseSample].

    Beside them stand lemmas that prove where the code does not do what it says:
    for instance [TableReader]'s read of a key that spans blocks,
    [SortEncoding.seek_window_drops_floats], [FieldRegistry.registry_race],
    [FieldDict.dict_overflow]. They show that the side conditions of the theorems
    are needed.

    ** Parameters

    Code that is not part of the repository is a class with its documented
    behaviour and an instance that meets it: the hash functions ([Xxh3]), the
    compressors ([Codecs]: decompression inverts compression), the skip list
    ([SkipMap]), the binary heap ([BinaryHeap]: pop returns a maximum), the
    serialisers of records, of lists of names, of deltas, of single values, of
    specifications and of cursors ([Postcard], [NamesCodec], [RollupPostcard],
    [ValuePostcard], [SpecPostcard], [CursorText]: decoding inverts encoding), the
    text of floats and of compound values and lower case ([ValueText],
    [GravityText], [LiteralText]), the files of registries ([RegistryCodec]), the
    size of a record in memory ([RecordSize]), the heap of ORDER BY ([SortHeap]).
    Scans see trees through the class [Reads], whose laws the tree of the storage
    engine has; statements commit through [Commit], whose laws [CommitLaws] say
    that a batch is applied as a whole, or not at all when the commit fails, and
    that later reads see it; [DbEngine] proves this of the [commit] of the storage
    engine, for well-formed batches of different keys. The parser is built from the combinators
    of the nom package, a class [Nom] with the laws [NomLaws] of its documentation,
    and the tables of letters and upper case beyond ASCII are the class [Unicode]. A
    merge operator is a value of the interface [MergeOperator]; the theorems about
    folded keys assume [MergeOperatorLaws], which [RollupMergeOperator] has.
    The norm of a vector ([norm_sq]) is a floating-point sum whose value no
    theorem depends on.

    ** Fuel and bounds

    A recursion that is not structural has fuel that the theorems show to be
    enough: a decoder's loop is given the length of its input, which every round
    shortens; a [u64] varint has at most ten bytes and a [u128] LEB128 at most
    nineteen, as the loops of the source have it; a binary search has the length
    of the list; major compaction is shown to return with a fuel computed from
    the number of tables and the amplification bound, which the code's guard
    enforces; the loops of the parser have the length of the text, of which every
    round takes a part. A run of a transition system has any length.

    ** Not modelled

    The block and metadata caches (they return what the immutable file holds),
    page-cache advice, host probes, the I/O scheduler, snapshots as copies of
    directories, thread wake-ups other than those of group commit, and statistics.
    File-system calls succeed except where an error is explicit in a definition,
    and a crash loses no directory entry.
    Of ghosts: the persistence of their metadata, refresh, life cycle and
    telemetry, with the ephemeral ghosts that scans may create from it. Of the
    database engine: aggregating and streaming scans; the anchor shards, since
    statements run one after another in the model; health counters; opening and
    migrating a database; the verbs that report or maintain (SHOW, STATS, CACHE,
    EXPORT and the like); NEAREST, PULL, FOLLOW and FETCH; pipelines and dispatch.
    The server, the MCP bridge, the command line and the launcher.
*)

From stdpp Require Export prelude list sorting gmap strings.
From Stdlib Require Export ZArith Lia.
From Stdlib Require Import Orders OrdersTac.

#[global] Open Scope Z_scope.

(** ** Bytes, slices and lengths *)

(** A [Vec<u8>] or [&[u8]]. The elements are integers; [is_bytes] says that
    they are really bytes, where a statement depends on it. *)
Abbreviation bytes := (list Z).

Definition is_bytes (b : bytes) : Prop := Forall (fun x => 0 <= x < 256) b.

(** [slice.len()], as an integer. *)
Definition blen {A} (l : list A) : Z := Z.of_nat (length l).

(** [data[pos]]: [None] is the out-of-bounds case. *)
Definition byte_at (data : bytes) (pos : Z) : option Z :=
  if pos <? 0 then None else data !! Z.to_nat pos.

(** [data[a..b]] when [a <= b <= data.len()]. *)
Definition slice {A} (data : list A) (a b : Z) : list A :=
  take (Z.to_nat (b - a)) (drop (Z.to_nat a) data).

(** The bytes of an ASCII string. *)
Definition str (s : string) : bytes :=
  map (fun c => Z.of_N (Ascii.N_of_ascii c)) (String.list_ascii_of_string s).

(** ** Results

    A Rust [Result<T, Error>] with the panicking outcome made explicit. The
    error constructors are those of [turba-engine/src/error.rs]; a message keeps
    the fixed part of its text. *)
Inductive Error :=
  | Io
  | ChecksumMismatch
  | InvalidMagic
  | InvalidHeader
  | Decompress (msg : string)
  | InvalidEntry (msg : string)
  | Corruption (msg : string)
  | IncompatibleFormat (found expected : Z)
  | Overloaded
  | SnapshotExists (name : string)
  | SnapshotNotFound (name : string)
  | InvalidSnapshotName (name : string)
  | SnapshotCrossFilesystem (src dst : string)
  | Config (msg : string)
  | CompactionStalled (msg : string)
  | WalRotatePrecondition (msg : string).

#[export] Instance Error_eq_dec : EqDecision Error.
Proof. solve_decision. Defined.

Inductive Result (A : Type) :=
  | Ok (a : A)
  | Err (e : Error)
  | Panic.
Arguments Ok {A} _.
Arguments Err {A} _.
Arguments Panic {A}.

#[export] Instance Result_ret : MRet Result := fun _ a => Ok a.
#[export] Instance Result_bind : MBind Result := fun _ _ f m =>
  match m with Ok a => f a | Err e => Err e | Panic => Panic end.
#[export] Instance Result_fmap : FMap Result := fun _ _ f m =>
  match m with Ok a => Ok (f a) | Err e => Err e | Panic => Panic end.

(** [opt.ok_or(e)]. *)
Definition ok_or {A} (o : option A) (e : Error) : Result A :=
  match o with Some a => Ok a | None => Err e end.

(** [data[a..b]] with Rust's bounds check. *)
Definition slice_or_panic (data : bytes) (a b : Z) : Result bytes :=
  if (0 <=? a) && (a <=? b) && (b <=? blen data) then Ok (slice data a b) else Panic.

(** ** Stateful computations that may fail

    A method with [&self] over interior-mutable state: the state it leaves
    behind, and its [Result]. An error keeps the state reached so far. *)
Definition ST (S A : Type) : Type := S -> S * Result A.

#[export] Instance ST_ret {S} : MRet (ST S) := fun _ a s => (s, Ok a).
#[export] Instance ST_bind {S} : MBind (ST S) := fun _ _ f m s =>
  match m s with
  | (s', Ok a) => f a s'
  | (s', Err e) => (s', Err e)
  | (s', Panic) => (s', Panic)
  end.

(** A result that does not touch the state, and the two state accesses. *)
Definition lift {S A} (r : Result A) : ST S A := fun s => (s, r).
Definition gets {S A} (f : S -> A) : ST S A := fun s => (s, Ok (f s)).
Definition modify {S} (f : S -> S) : ST S unit := fun s => (f s, Ok tt).

(** ** Machine integers *)

Definition wrap (w z : Z) : Z := z mod 2 ^ w.
Abbreviation wrap8 := (wrap 8).
Abbreviation wrap16 := (wrap 16).
Abbreviation wrap32 := (wrap 32).
Abbreviation wrap64 := (wrap 64).

Definition U64_MAX : Z := 2 ^ 64 - 1.

Definition is_uint (w z : Z) : Prop := 0 <= z < 2 ^ w.
#[export] Instance is_uint_dec w z : Decision (is_uint w z).
Proof. unfold is_uint. apply _. Defined.

(** [uN::to_le_bytes] and [uN::from_le_bytes] ([n] bytes), also what
    [write_uN::<LittleEndian>] appends and [read_uN::<LittleEndian>] reads. *)
Fixpoint to_le_bytes (n : nat) (z : Z) : bytes :=
  match n with
  | O => []
  | S n' => z mod 256 :: to_le_bytes n' (z / 256)
  end.

Fixpoint from_le_bytes (b : bytes) : Z :=
  match b with
  | [] => 0
  | x :: b' => x + 256 * from_le_bytes b'
  end.

(** [uN::to_be_bytes] and [uN::from_be_bytes]. *)
Definition to_be_bytes (n : nat) (z : Z) : bytes := reverse (to_le_bytes n z).
Definition from_be_bytes (b : bytes) : Z := from_le_bytes (reverse b).

(** ** The order of byte strings ([Ord for [u8]]: lexicographic) *)

Fixpoint bcmp (a b : bytes) : comparison :=
  match a, b with
  | [], [] => Eq
  | [], _ :: _ => Lt
  | _ :: _, [] => Gt
  | x :: a', y :: b' => match x ?= y with Eq => bcmp a' b' | c => c end
  end.

Definition beqb (a b : bytes) : bool := match bcmp a b with Eq => true | _ => false end.
Definition bltb (a b : bytes) : bool := match bcmp a b with Lt => true | _ => false end.
Definition bleb (a b : bytes) : bool := match bcmp a b with Gt => false | _ => true end.

Definition blt (a b : bytes) : Prop := bcmp a b = Lt.
Definition ble (a b : bytes) : Prop := bcmp a b <> Gt.

Declare Scope bytes_scope.
Delimit Scope bytes_scope with bytes.
Infix "<" := blt : bytes_scope.
Infix "<=" := ble : bytes_scope.

(** [slice::starts_with]. *)
Fixpoint starts_with (k p : bytes) {struct p} : bool :=
  match p, k with
  | [], _ => true
  | _ :: _, [] => false
  | y :: p', x :: k' => (x =? y) && starts_with k' p'
  end.

(** ** Stable sorting ([slice::sort_by])

    [leb] compares by the sort key; equal elements keep their order. *)
Fixpoint insert_sorted {A} (leb : A -> A -> bool) (x : A) (l : list A) : list A :=
  match l with
  | [] => [x]
  | y :: l' => if leb x y then x :: y :: l' else y :: insert_sorted leb x l'
  end.

Definition stable_sort {A} (leb : A -> A -> bool) (l : list A) : list A :=
  foldr (insert_sorted leb) [] l.

(** ** Binary search ([slice::binary_search_by], [slice::partition_point])

    The standard library's loop: [base] moves right on anything but [Greater],
    [size] is halved, and a last comparison decides. *)
Inductive SearchResult := Found (i : nat) | NotFound (i : nat).

Fixpoint bsearch_loop {A} (fuel : nat) (f : A -> comparison) (l : list A) (base size : nat) : nat :=
  match fuel with
  | O => base
  | S fuel' =>
    if Nat.leb size 1 then base
    else
      let half := Nat.div2 size in
      let mid := (base + half)%nat in
      let base' :=
        match l !! mid with
        | Some x => match f x with Gt => base | _ => mid end
        | None => base
        end in
      bsearch_loop fuel' f l base' (size - half)
  end.

Definition binary_search_by {A} (f : A -> comparison) (l : list A) : SearchResult :=
  let size := length l in
  let base := bsearch_loop size f l 0 size in
  match l !! base with
  | None => NotFound 0
  | Some x => match f x with
              | Eq => Found base
              | Lt => NotFound (base + 1)
              | Gt => NotFound base
              end
  end.

Definition search_index (r : SearchResult) : nat :=
  match r with Found i => i | NotFound i => i end.

Definition partition_point {A} (pred : A -> bool) (l : list A) : nat :=
  search_index (binary_search_by (fun x => if pred x then Lt else Gt) l).

(** * Shared lemmas and automation *)

Create HintDb xyz.
Create Rewrite HintDb blen.

Lemma Ok_inj {A} (a b : A) : Ok a = Ok b -> a = b.
Proof. congruence. Qed.

Lemma Result_bind_Ok {A B} (f : A -> Result B) a : (Ok a ≫= f) = f a.
Proof. done. Qed.

(** ** Lengths and positions *)

Lemma blen_nonneg {A} (l : list A) : 0 <= blen l.
Proof. unfold blen; lia. Qed.

Lemma blen_app {A} (l1 l2 : list A) : blen (l1 ++ l2) = blen l1 + blen l2.
Proof. unfold blen. rewrite length_app. lia. Qed.

Lemma blen_cons {A} (x : A) l : blen (x :: l) = 1 + blen l.
Proof. unfold blen. simpl length. lia. Qed.

Lemma blen_nil {A} : blen (@nil A) = 0.
Proof. reflexivity. Qed.

Hint Rewrite @blen_app @blen_cons @blen_nil @length_app @length_cons @length_nil : blen.

(** Normalises lengths of appends and closes the linear goal that remains. *)
Ltac len :=
  autorewrite with blen in *;
  repeat match goal with
  | |- context [blen ?l] => lazymatch goal with
                            | H : 0 <= blen l |- _ => fail
                            | _ => pose proof (blen_nonneg l)
                            end
  end; try lia.

Lemma blen_to_nat {A} (l : list A) : Z.to_nat (blen l) = length l.
Proof. unfold blen. lia. Qed.

(** [pos] is the position reached after [pre]: what is read there is the head
    of the rest. *)
Lemma byte_at_app (pre post : bytes) x :
  byte_at (pre ++ x :: post) (blen pre) = Some x.
Proof.
  unfold byte_at. rewrite (proj2 (Z.ltb_ge _ _)) by apply blen_nonneg.
  rewrite blen_to_nat, lookup_app_r by lia.
  by rewrite Nat.sub_diag.
Qed.

Lemma byte_at_app_1 (pre : bytes) x y post :
  byte_at (pre ++ x :: y :: post) (blen pre + 1) = Some y.
Proof.
  change (x :: y :: post) with ([x] ++ y :: post). rewrite app_assoc.
  replace (blen pre + 1) with (blen (pre ++ [x])) by len.
  apply byte_at_app.
Qed.

Lemma byte_at_end (data : bytes) pos : blen data <= pos -> byte_at data pos = None.
Proof.
  intros. unfold byte_at. case_match; [done|]. apply lookup_ge_None.
  unfold blen in *. lia.
Qed.

Lemma byte_at_lt (data : bytes) pos x : byte_at data pos = Some x -> 0 <= pos < blen data.
Proof.
  unfold byte_at. case_match eqn:E; [done|]. intros H%lookup_lt_Some.
  apply Z.ltb_ge in E. unfold blen. lia.
Qed.

Lemma slice_app {A} (pre x post : list A) a b :
  a = blen pre -> b = blen pre + blen x -> slice (pre ++ x ++ post) a b = x.
Proof.
  intros -> ->. unfold slice.
  replace (blen pre + blen x - blen pre) with (blen x) by lia.
  rewrite !blen_to_nat, drop_app_length, take_app_length. done.
Qed.

Lemma slice_or_panic_app (pre x post : bytes) a b :
  a = blen pre -> b = blen pre + blen x ->
  slice_or_panic (pre ++ x ++ post) a b = Ok x.
Proof.
  intros Ha Hb. unfold slice_or_panic. rewrite (slice_app pre x post) by done.
  pose proof (blen_nonneg pre). pose proof (blen_nonneg x). pose proof (blen_nonneg post).
  rewrite !blen_app. subst.
  destruct (0 <=? _) eqn:E1, (blen pre <=? _) eqn:E2, (_ <=? blen pre + (blen x + blen post)) eqn:E3;
    simpl; try done; lia.
Qed.

Lemma blen_slice {A} (data : list A) a b :
  0 <= a <= b -> b <= blen data -> blen (slice data a b) = b - a.
Proof.
  intros. unfold slice, blen in *. rewrite length_take, length_drop. lia.
Qed.

(** ** Little- and big-endian integers *)

Lemma length_to_le_bytes n z : length (to_le_bytes n z) = n.
Proof. revert z; induction n; simpl; auto. Qed.

Lemma blen_to_le_bytes n z : blen (to_le_bytes n z) = Z.of_nat n.
Proof. unfold blen. by rewrite length_to_le_bytes. Qed.

Lemma from_to_le_bytes n z : from_le_bytes (to_le_bytes n z) = z mod 2 ^ (8 * Z.of_nat n).
Proof.
  revert z; induction n as [|n IH]; intros z; cbn [to_le_bytes from_le_bytes].
  - by rewrite Z.mod_1_r.
  - rewrite IH. replace (8 * Z.of_nat (S n)) with (8 + 8 * Z.of_nat n) by lia.
    rewrite Z.pow_add_r by lia. change (2 ^ 8) with 256.
    rewrite (Z.rem_mul_r z 256) by lia. lia.
Qed.

Lemma from_to_le_bytes_id n w z :
  is_uint w z -> w = 8 * Z.of_nat n -> from_le_bytes (to_le_bytes n z) = z.
Proof. intros [??] ->. rewrite from_to_le_bytes. by apply Z.mod_small. Qed.

Lemma to_le_bytes_is_bytes n z : is_bytes (to_le_bytes n z).
Proof.
  revert z; induction n; intros; simpl; constructor; [|apply IHn].
  apply Z.mod_pos_bound. lia.
Qed.

Lemma length_to_be_bytes n z : length (to_be_bytes n z) = n.
Proof. unfold to_be_bytes. by rewrite length_reverse, length_to_le_bytes. Qed.

Lemma from_to_be_bytes_id n w z :
  is_uint w z -> w = 8 * Z.of_nat n -> from_be_bytes (to_be_bytes n z) = z.
Proof.
  intros. unfold from_be_bytes, to_be_bytes. rewrite reverse_involutive.
  by eapply from_to_le_bytes_id.
Qed.

Lemma to_be_bytes_S n z : to_be_bytes (S n) z = to_be_bytes n (z / 256) ++ [z mod 256].
Proof. unfold to_be_bytes. simpl. by rewrite reverse_cons. Qed.

Lemma to_from_le_bytes b : is_bytes b -> to_le_bytes (length b) (from_le_bytes b) = b.
Proof.
  induction 1 as [|x b Hx Hb IH]; [done|]. cbn [length to_le_bytes from_le_bytes].
  rewrite (Z.mul_comm 256), Z.mod_add, Z.div_add, (Z.mod_small x), (Z.div_small x) by lia.
  rewrite Z.add_0_l. by f_equal.
Qed.

Lemma from_le_bytes_range b : is_bytes b -> is_uint (8 * blen b) (from_le_bytes b).
Proof.
  induction 1 as [|x b Hx Hb IH]; [split; unfold blen; simpl; lia|].
  rewrite blen_cons, Z.mul_add_distr_l. unfold is_uint in *.
  rewrite Z.pow_add_r by (unfold blen; lia). cbn [from_le_bytes]. change (2 ^ (8 * 1)) with 256. lia.
Qed.

#[global] Arguments to_le_bytes : simpl never.
#[global] Arguments from_le_bytes : simpl never.
#[global] Arguments slice : simpl never.
#[global] Arguments blen : simpl never.
#[global] Arguments wrap : simpl never.

(** ** The order of byte strings *)

Lemma bcmp_refl a : bcmp a a = Eq.
Proof. induction a; simpl; [done|]. by rewrite Z.compare_refl. Qed.

Lemma bcmp_eq a b : bcmp a b = Eq <-> a = b.
Proof.
  split; [|intros ->; apply bcmp_refl].
  revert b; induction a as [|x a IH]; intros [|y b]; simpl; try done.
  destruct (x ?= y) eqn:E; try done. intros H%IH. apply Z.compare_eq in E. congruence.
Qed.

Lemma bcmp_opp a b : bcmp b a = CompOpp (bcmp a b).
Proof.
  revert b; induction a as [|x a IH]; intros [|y b]; simpl; try done.
  rewrite (Z.compare_antisym x y). destruct (x ?= y); simpl; auto.
Qed.

Lemma bcmp_trans a b c : bcmp a b = Lt -> bcmp b c = Lt -> bcmp a c = Lt.
Proof.
  revert b c; induction a as [|x a IH]; intros [|y b] [|z c]; simpl; try done.
  destruct (Z.compare_spec x y), (Z.compare_spec y z), (Z.compare_spec x z);
    subst; try lia; try done; eauto.
Qed.

Lemma beqb_eq a b : beqb a b = true <-> a = b.
Proof. unfold beqb. rewrite <- bcmp_eq. by destruct (bcmp a b). Qed.
Lemma beqb_neq a b : beqb a b = false <-> a <> b.
Proof. rewrite <- beqb_eq. by destruct (beqb a b). Qed.
Lemma bltb_lt a b : bltb a b = true <-> (a < b)%bytes.
Proof. unfold bltb, blt. by destruct (bcmp a b). Qed.
Lemma bleb_le a b : bleb a b = true <-> (a <= b)%bytes.
Proof. unfold bleb, ble. by destruct (bcmp a b). Qed.
Lemma bltb_ge a b : bltb a b = false <-> (b <= a)%bytes.
Proof. unfold bltb, ble. rewrite (bcmp_opp a b). by destruct (bcmp a b). Qed.
Lemma bleb_gt a b : bleb a b = false <-> (b < a)%bytes.
Proof. unfold bleb, blt. rewrite (bcmp_opp a b). by destruct (bcmp a b). Qed.
Lemma beqb_refl a : beqb a a = true.
Proof. by apply beqb_eq. Qed.

(** The total order of byte strings, for the standard library's [order]
    decision procedure. *)
Module BytesOrder <: TotalOrder.
Definition t := bytes.
Definition eq := @Logic.eq bytes.
Definition lt := blt.
Definition le := ble.
#[global] Instance eq_equiv : Equivalence eq.
Proof. apply eq_equivalence. Qed.
#[global] Instance lt_strorder : StrictOrder lt.
Proof.
  split; [|intros ???; apply bcmp_trans].
  intros x. unfold complement, lt, blt. by rewrite bcmp_refl.
Qed.
#[global] Instance lt_compat : Proper (eq ==> eq ==> iff) lt.
Proof. intros ?? -> ?? ->. done. Qed.
Lemma le_lteq x y : le x y <-> lt x y \/ eq x y.
Proof.
  unfold le, ble, lt, blt, eq. rewrite <- bcmp_eq.
  destruct (bcmp x y); intuition congruence.
Qed.
Lemma lt_total x y : lt x y \/ eq x y \/ lt y x.
Proof.
  unfold lt, blt, eq. rewrite (bcmp_opp x y), <- bcmp_eq.
  destruct (bcmp x y); naive_solver.
Qed.
End BytesOrder.

Module BytesTac := MakeOrderTac BytesOrder BytesOrder.

(** Decides goals about [=], [<] and [<=] of byte strings. *)
Ltac border :=
  repeat match goal with
  | H : bltb _ _ = true |- _ => apply bltb_lt in H
  | H : bltb _ _ = false |- _ => apply bltb_ge in H
  | H : bleb _ _ = true |- _ => apply bleb_le in H
  | H : bleb _ _ = false |- _ => apply bleb_gt in H
  | H : beqb _ _ = true |- _ => apply beqb_eq in H
  | H : beqb _ _ = false |- _ => apply beqb_neq in H
  | H : bcmp _ _ = Lt |- _ => change (blt _ _) in H
  end;
  repeat match goal with
  | |- bltb _ _ = true => apply bltb_lt
  | |- bltb _ _ = false => apply bltb_ge
  | |- bleb _ _ = true => apply bleb_le
  | |- bleb _ _ = false => apply bleb_gt
  | |- beqb _ _ = true => apply beqb_eq
  | |- beqb _ _ = false => apply beqb_neq
  end;
  try match goal with |- ~ _ => intro end;
  change blt with BytesOrder.lt in *;
  change ble with BytesOrder.le in *;
  change (@Logic.eq bytes) with BytesOrder.eq in *;
  BytesTac.order.

(** ** Binary search *)

(** The comparator splits the slice into a [Less] run, an [Equal] run and a
    [Greater] run: what [binary_search_by] requires of its argument. *)
Definition partitioned {A} (f : A -> comparison) (l : list A) : Prop :=
  forall (i j : nat) x y, (i < j)%nat -> l !! i = Some x -> l !! j = Some y ->
    (f x = Gt -> f y = Gt) /\ (f y = Lt -> f x = Lt).

Section bsearch.
Context {A : Type} (f : A -> comparison) (l : list A) (Hp : partitioned f l).

Lemma bsearch_loop_spec fuel base size :
  (1 <= size)%nat -> (size <= fuel)%nat -> (base + size <= length l)%nat ->
  (base = 0%nat \/ exists x, l !! base = Some x /\ f x <> Gt) ->
  (forall (j : nat) y, (base + size <= j)%nat -> l !! j = Some y -> f y = Gt) ->
  let b := bsearch_loop fuel f l base size in
  (b < length l)%nat /\
  (b = 0%nat \/ exists x, l !! b = Some x /\ f x <> Gt) /\
  (forall (j : nat) y, (b < j)%nat -> l !! j = Some y -> f y = Gt).
Proof.
  revert base size; induction fuel as [|fuel IH]; intros base size Hs Hf Hl Hb Hg; [lia|].
  cbn [bsearch_loop]. destruct (Nat.leb_spec size 1).
  - split; [lia|]. split; [done|]. intros j y Hj. apply Hg. lia.
  - pose proof (Nat.div2_decr size (size - 1) ltac:(lia)).
    assert (1 <= Nat.div2 size)%nat
      by (pose proof (Nat.div2_odd size); destruct (Nat.odd size); simpl in *; lia).
    set (half := Nat.div2 size) in *.
    assert (half + half <= size)%nat by (unfold half; pose proof (Nat.div2_odd size); destruct (Nat.odd size); simpl in *; lia).
    destruct (l !! (base + half)%nat) as [x|] eqn:Ex; [|apply lookup_ge_None in Ex; lia].
    destruct (f x) eqn:Ef; apply IH; try lia; try done; eauto 10;
      try (right; exists x; split; [done|congruence]).
    all: intros j y Hj Hy; try (apply (Hg j y); [lia|done]).
    destruct (decide (j = (base + half)%nat)) as [->|]; [congruence|].
    destruct (Hp (base + half)%nat j x y) as [H' _]; [lia|done|done|auto].
Qed.

(** The contract of [binary_search_by]: a hit is the last [Equal] element, a
    miss is the insertion point. *)
Lemma binary_search_by_spec :
  match binary_search_by f l with
  | Found i => (exists x, l !! i = Some x /\ f x = Eq) /\
               (forall (j : nat) y, (i < j)%nat -> l !! j = Some y -> f y = Gt)
  | NotFound i => (i <= length l)%nat /\
                  (forall (j : nat) y, (j < i)%nat -> l !! j = Some y -> f y = Lt) /\
                  (forall (j : nat) y, (i <= j)%nat -> l !! j = Some y -> f y = Gt)
  end.
Proof.
  unfold binary_search_by.
  destruct (decide (length l = 0%nat)) as [E|].
  { apply length_zero_iff_nil in E. rewrite E. simpl. split; [lia|].
    split; intros ?? _; by rewrite lookup_nil. }
  pose proof (bsearch_loop_spec (length l) 0%nat (length l)) as H.
  destruct H as (Hb & H0 & Hg); [lia|lia|lia|by left| |].
  { intros j y Hj Hy. apply lookup_lt_Some in Hy. lia. }
  set (b := bsearch_loop (length l) f l 0 (length l)) in *.
  destruct (lookup_lt_is_Some_2 l b Hb) as [x Ex]. rewrite Ex.
  destruct (f x) eqn:Ef.
  - split; [by exists x|]. done.
  - split; [lia|]. split; intros j y Hj Hy; [|apply (Hg j y); [lia|done]].
    destruct (decide (j = b)) as [->|]; [congruence|].
    destruct (Hp j b y x) as [_ H']; [lia|done|done|auto].
  - split; [lia|]. destruct H0 as [->|(x' & ? & ?)]; [|simplify_eq].
    split; intros j y Hj Hy; [lia|].
    destruct (decide (j = 0%nat)) as [->|]; [congruence|]. apply (Hg j y); [lia|done].
Qed.

End bsearch.

Lemma partition_point_spec {A} (pred : A -> bool) (l : list A) :
  (forall (i j : nat) x y, (i < j)%nat -> l !! i = Some x -> l !! j = Some y ->
     pred y = true -> pred x = true) ->
  let p := partition_point pred l in
  (p <= length l)%nat /\
  (forall (j : nat) y, (j < p)%nat -> l !! j = Some y -> pred y = true) /\
  (forall (j : nat) y, (p <= j)%nat -> l !! j = Some y -> pred y = false).
Proof.
  intros Hm. unfold partition_point.
  pose proof (binary_search_by_spec (fun x => if pred x then Lt else Gt) l) as H.
  destruct (binary_search_by _ l) as [i|i]; simpl in *.
  - destruct H as [(x & Hx & E) _]; [|by destruct (pred x)].
    intros i' j x y Hij Hx Hy. specialize (Hm i' j x y Hij Hx Hy).
    destruct (pred x), (pred y); naive_solver.
  - destruct H as (H1 & H2 & H3).
    { intros i' j x y Hij Hx Hy. specialize (Hm i' j x y Hij Hx Hy).
      destruct (pred x), (pred y); naive_solver. }
    split; [done|]. split; intros j y Hj Hy.
    + specialize (H2 j y Hj Hy). by destruct (pred y).
    + specialize (H3 j y Hj Hy). by destruct (pred y).
Qed.

Lemma filter_none {A} (P : A -> Prop) `{!forall x, Decision (P x)} (l : list A) :
  (forall x, x ∈ l -> ~ P x) -> filter P l = [].
Proof.
  induction l as [|a l IH]; intros Hall; [done|]. rewrite filter_cons_False by (apply Hall; by left).
  apply IH. intros x Hx. apply Hall. by right.
Qed.

Lemma filter_all {A} (P : A -> Prop) `{!forall x, Decision (P x)} (l : list A) :
  (forall x, x ∈ l -> P x) -> filter P l = l.
Proof.
  induction l as [|a l IH]; intros Hall; [done|]. rewrite filter_cons_True by (apply Hall; by left).
  f_equal. apply IH. intros x Hx. apply Hall. by right.
Qed.

(** A statement about all pairs of two concrete lists. *)
Lemma Forall_Forall_elem {A B} (P : A -> B -> Prop) l1 l2 :
  Forall (fun a => Forall (P a) l2) l1 -> forall a b, a ∈ l1 -> b ∈ l2 -> P a b.
Proof.
  intros H a b Ha Hb. rewrite Forall_forall in H. specialize (H a Ha). rewrite Forall_forall in H. auto.
Qed.

(** Membership in appended lists, from the hypotheses. *)
Ltac inapp := rewrite ?elem_of_app in *; tauto.

Lemma elem_of_concat {A} (x : A) (ls : list (list A)) : x ∈ concat ls <-> exists l, x ∈ l /\ l ∈ ls.
Proof.
  rewrite list_elem_of_In, in_concat. setoid_rewrite list_elem_of_In. naive_solver.
Qed.

Lemma concat_nil_all {A} (ls : list (list A)) : (forall l, l ∈ ls -> l = []) -> concat ls = [].
Proof.
  induction ls as [|l ls IH]; intros H; simpl; [done|].
  rewrite (H l), IH; [done| |by left]. intros l' Hl'. apply H. by right.
Qed.

Lemma StronglySorted_lookup {A} (R : relation A) l (i j : nat) x y :
  StronglySorted R l -> (i < j)%nat -> l !! i = Some x -> l !! j = Some y -> R x y.
Proof.
  intros Hs. revert i j; induction Hs as [|a l Hs IH Ha]; intros [|i] [|j] Hij; simpl; try done; try lia.
  - intros [= ->] Hy%list_elem_of_lookup_2. rewrite Forall_forall in Ha. auto.
  - intros. eapply (IH i j); eauto. lia.
Qed.

(** ** Reading at a position

    [at_pos data pos rest]: the reader stands at [pos] and [rest] is what is
    left. The cursors of the decoders move along such triples. *)
Definition at_pos (data : bytes) (pos : Z) (rest : bytes) : Prop :=
  exists pre, data = pre ++ rest /\ pos = blen pre.

Lemma at_pos_0 data : at_pos data 0 data.
Proof. by exists []. Qed.

Lemma at_pos_bound data pos rest : at_pos data pos rest -> 0 <= pos /\ pos + blen rest = blen data.
Proof. intros (pre & -> & ->). pose proof (blen_nonneg pre). len. Qed.

Lemma at_pos_byte data pos x rest :
  at_pos data pos (x :: rest) -> byte_at data pos = Some x /\ at_pos data (pos + 1) rest.
Proof.
  intros (pre & -> & ->). split; [apply byte_at_app|].
  exists (pre ++ [x]). split; [by rewrite <- app_assoc|len].
Qed.

Lemma at_pos_app data pos x rest :
  at_pos data pos (x ++ rest) ->
  slice data pos (pos + blen x) = x /\ slice_or_panic data pos (pos + blen x) = Ok x /\
  at_pos data (pos + blen x) rest.
Proof.
  intros (pre & -> & ->). split; [by apply slice_app|]. split; [by apply slice_or_panic_app|].
  exists (pre ++ x). split; [by rewrite <- app_assoc|len].
Qed.

Lemma at_pos_suffix data pos rest : at_pos data pos rest -> slice data pos (blen data) = rest.
Proof.
  intros H. pose proof (at_pos_bound _ _ _ H) as [? <-].
  rewrite <- (app_nil_r rest) in H. by apply at_pos_app in H as [? _].
Qed.

(** Reading [n] bytes at a cursor that has them. *)
Lemma at_pos_read data pos rest n :
  at_pos data pos rest -> 0 <= n -> pos + n <= blen data ->
  exists rest', at_pos data pos (slice data pos (pos + n) ++ rest') /\
    blen (slice data pos (pos + n)) = n /\ at_pos data (pos + n) rest'.
Proof.
  intros Hat Hn Hb. pose proof (at_pos_bound _ _ _ Hat) as [? ?].
  rewrite <- (take_drop (Z.to_nat n) rest) in Hat.
  assert (blen (take (Z.to_nat n) rest) = n) as Hl
    by (unfold blen in *; rewrite length_take; lia).
  pose proof (at_pos_app _ _ _ _ Hat) as (Hs & _ & Hat'). rewrite Hl in *.
  exists (drop (Z.to_nat n) rest). rewrite Hs. done.
Qed.

Lemma at_pos_byte_inv data pos rest x :
  at_pos data pos rest -> byte_at data pos = Some x ->
  exists rest', rest = x :: rest' /\ at_pos data (pos + 1) rest'.
Proof.
  intros Hat Hb. destruct rest as [|y rest].
  - apply at_pos_bound in Hat as [_ Hl]. apply byte_at_lt in Hb. rewrite blen_nil in Hl. lia.
  - apply at_pos_byte in Hat as [Hy Hat]. exists rest. by simplify_eq.
Qed.

Lemma at_pos_inj data pos rest1 rest2 : at_pos data pos rest1 -> at_pos data pos rest2 -> rest1 = rest2.
Proof. intros H1%at_pos_suffix H2%at_pos_suffix. congruence. Qed.

Lemma at_pos_is_bytes data pos rest : is_bytes data -> at_pos data pos rest -> is_bytes rest.
Proof. intros Hd (pre & -> & _). by apply Forall_app in Hd as [_ ?]. Qed.

(** A fixed-width little-endian field at the cursor. *)
Lemma at_pos_le n data pos v rest :
  is_uint (8 * Z.of_nat n) v -> at_pos data pos (to_le_bytes n v ++ rest) ->
  from_le_bytes (slice data pos (pos + Z.of_nat n)) = v /\
  at_pos data (pos + Z.of_nat n) rest.
Proof.
  intros Hv Hat. apply at_pos_app in Hat as (Hs & _ & Hat). rewrite blen_to_le_bytes in *.
  rewrite Hs. split; [by eapply from_to_le_bytes_id|done].
Qed.

(** The same field read back from arbitrary bytes is the field's encoding. *)
Lemma at_pos_le_read n data pos rest :
  is_bytes data -> at_pos data pos rest -> pos + Z.of_nat n <= blen data ->
  let v := from_le_bytes (slice data pos (pos + Z.of_nat n)) in
  exists rest', rest = to_le_bytes n v ++ rest' /\ at_pos data (pos + Z.of_nat n) rest' /\
    is_uint (8 * Z.of_nat n) v.
Proof.
  intros Hd Hat Hb. destruct (at_pos_read _ _ _ (Z.of_nat n) Hat) as (rest' & Hat' & Hl & Hr); [lia|done|].
  rewrite (at_pos_inj _ _ _ _ Hat Hat'). exists rest'.
  assert (is_bytes (slice data pos (pos + Z.of_nat n))) as Hbs
    by (apply (at_pos_is_bytes _ _ _ Hd) in Hat'; by apply Forall_app in Hat' as [? _]).
  split; [|split; [done|]].
  - f_equal. rewrite <- (to_from_le_bytes _ Hbs) at 1. f_equal. unfold blen in Hl. lia.
  - pose proof (from_le_bytes_range _ Hbs) as H. by rewrite Hl in H.
Qed.

(** Computes the sums of integer literals in the hypotheses (the positions of
    the fields of a fixed layout). *)
Ltac is_zlit t :=
  lazymatch t with
  | Z0 => idtac
  | Zpos ?p => is_poslit p
  | Zneg ?p => is_poslit p
  end
with is_poslit p :=
  lazymatch p with xH => idtac | xO ?q => is_poslit q | xI ?q => is_poslit q end.

Ltac zlit :=
  repeat match goal with
  | H : context [Z.of_nat ?n] |- _ =>
    let v := eval cbv in (Z.of_nat n) in is_zlit v; progress change (Z.of_nat n) with v in *
  | H : context [?a + ?b] |- _ =>
    is_zlit a; is_zlit b; let v := eval cbv in (a + b) in change (a + b) with v in *
  end.

(** ** Bits *)

Lemma testbit_small a n m : 0 <= a < 2 ^ n -> n <= m -> Z.testbit a m = false.
Proof.
  intros Ha Hm. destruct (Z.le_gt_cases 0 n); [|rewrite Z.pow_neg_r in Ha by lia; lia].
  rewrite Z.testbit_eqb by lia. rewrite Z.div_small; [done|].
  split; [apply Ha|]. eapply Z.lt_le_trans; [apply Ha|]. apply Z.pow_le_mono_r; lia.
Qed.

(** Or-ing in a value shifted past the bits already set is an addition. *)
Lemma lor_shiftl_add r b s : 0 <= s -> 0 <= r < 2 ^ s -> Z.lor r (Z.shiftl b s) = r + b * 2 ^ s.
Proof.
  intros Hs Hr. rewrite <- Z.shiftl_mul_pow2 by lia.
  assert (Z.land r (Z.shiftl b s) = 0) as Hz.
  { apply Z.bits_inj'. intros n Hn. rewrite Z.land_spec, Z.bits_0, Z.shiftl_spec by lia.
    destruct (Z.le_gt_cases s n).
    - by rewrite (testbit_small r s n).
    - rewrite (Z.testbit_neg_r b) by lia. apply andb_false_r. }
  by rewrite Z.add_nocarry_lxor, Z.lxor_lor by done.
Qed.

Lemma wrap_small w z : is_uint w z -> wrap w z = z.
Proof. apply Z.mod_small. Qed.

(** ** Stateful computations *)

Lemma ST_bind_Ok {S A B} (m : ST S A) (f : A -> ST S B) s s' a :
  m s = (s', Ok a) -> (m ≫= f) s = f a s'.
Proof. unfold mbind, ST_bind. by intros ->. Qed.

Lemma ST_bind_inv {S A B} (m : ST S A) (f : A -> ST S B) s s' b :
  (m ≫= f) s = (s', Ok b) -> exists s1 a, m s = (s1, Ok a) /\ f a s1 = (s', Ok b).
Proof. unfold mbind, ST_bind. destruct (m s) as [s1 [a| |]]; [eauto|done|done]. Qed.

(** ** Stable sorting *)

Lemma insert_sorted_perm {A} (leb : A -> A -> bool) x l : insert_sorted leb x l ≡ₚ x :: l.
Proof. induction l as [|y l IH]; simpl; [done|]. case_match; [done|]. rewrite IH. apply Permutation_swap. Qed.

Lemma stable_sort_perm {A} (leb : A -> A -> bool) l : stable_sort leb l ≡ₚ l.
Proof. induction l as [|x l IH]; simpl; [done|]. by rewrite insert_sorted_perm, IH. Qed.

Lemma stable_sort_sorted {A} (leb : A -> A -> bool) l :
  (forall x y, leb x y = false -> leb y x = true) ->
  (forall x y z, leb x y = true -> leb y z = true -> leb x z = true) ->
  StronglySorted (fun x y => leb x y = true) (stable_sort leb l).
Proof.
  intros Htot Htr. induction l as [|x l IH]; simpl; [constructor|].
  induction IH as [|y l' Hs IH Hy]; simpl; [repeat constructor|]. destruct (leb x y) eqn:E.
  - constructor; [by constructor|]. constructor; [done|].
    eapply Forall_impl; [exact Hy|]. intros z. by apply Htr.
  - constructor; [done|]. rewrite insert_sorted_perm. constructor; [by apply Htot|done].
Qed.

Lemma stable_sort_id {A} (leb : A -> A -> bool) l :
  StronglySorted (fun x y => leb x y = true) l -> stable_sort leb l = l.
Proof.
  induction 1 as [|x l _ IH Hx]; simpl; [done|]. rewrite IH. destruct l as [|y l]; [done|]. simpl.
  apply Forall_cons in Hx as [-> _]. done.
Qed.

Lemma concat_fmap2 {A B} (f : A -> B) (ls : list (list A)) : concat ((fun l : list A => f <$> l) <$> ls) = f <$> concat ls.
Proof. induction ls as [|l ls IH]; [done|]. cbn [fmap list_fmap concat]. rewrite IH. by rewrite fmap_app. Qed.
