(* ===== verification/Types.v ===== *)
(** * Keys, entries and prefix ranges (turba-engine/src/types.rs)

    [ValueType], [InternalKey] with its order (user key ascending, sequence
    number descending), [Entry] and [prefix_to_range]; then the vocabulary the
    other files share: sorted runs of entries and the newest visible version of
    a key. *)

From S2P Require Import Prelude.

Abbreviation SeqNo := Z.

(** [SeqNo::MAX] *)
Definition SeqNo_MAX : SeqNo := U64_MAX.

Inductive ValueType := Value | Tombstone.

#[export] Instance ValueType_eq_dec : EqDecision ValueType.
Proof. solve_decision. Defined.

(** [value_type as u8] *)
Definition ValueType_to_u8 (v : ValueType) : Z :=
  match v with Value => 0 | Tombstone => 1 end.

(** [ValueType::from_u8] *)
Definition ValueType_from_u8 (b : Z) : option ValueType :=
  if b =? 0 then Some Value
  else if b =? 1 then Some Tombstone
  else None.

Record InternalKey := mkInternalKey {
  user_key : bytes;
  ik_seqno : SeqNo;
  ik_value_type : ValueType;
}.

(** [Ord for InternalKey]: the value type is not compared. *)
Definition InternalKey_cmp (a b : InternalKey) : comparison :=
  match bcmp (user_key a) (user_key b) with
  | Eq => ik_seqno b ?= ik_seqno a
  | c => c
  end.

Record Entry := mkEntry {
  key : bytes;
  value : bytes;
  seqno : SeqNo;
  value_type : ValueType;
}.

#[export] Instance Entry_eq_dec : EqDecision Entry.
Proof. solve_decision. Defined.

Definition internal_key (e : Entry) : InternalKey :=
  mkInternalKey (key e) (seqno e) (value_type e).

(** The loop of [prefix_to_range] on [upper], last byte first: bump the last
    byte that is not [0xFF], dropping the [0xFF]s after it. *)
Fixpoint bump_last (rev_upper : bytes) : option bytes :=
  match rev_upper with
  | [] => None
  | last :: rest => if last <? 255 then Some (last + 1 :: rest) else bump_last rest
  end.

Definition prefix_to_range (prefix : bytes) : bytes * option bytes :=
  (prefix, reverse <$> bump_last (reverse prefix)).

(** [e.value_type == ValueType::Value] *)
Definition is_value (e : Entry) : bool :=
  match value_type e with Value => true | Tombstone => false end.

(** What the Rust types already guarantee: a [u64] sequence number, bytes, and
    vectors no longer than [isize::MAX]. *)
Definition Entry_wf (e : Entry) : Prop :=
  is_uint 64 (seqno e) /\ is_bytes (key e) /\ is_bytes (value e) /\
  blen (key e) < 2 ^ 63 /\ blen (value e) < 2 ^ 63.

#[export] Instance Entry_wf_dec e : Decision (Entry_wf e).
Proof. unfold Entry_wf, is_bytes. apply _. Defined.

(** ** Runs of entries *)

Definition entry_cmp (a b : Entry) : comparison :=
  InternalKey_cmp (internal_key a) (internal_key b).

Definition entry_le (a b : Entry) : Prop := entry_cmp a b <> Gt.
Definition entry_lt (a b : Entry) : Prop := entry_cmp a b = Lt.

(** A run in internal-key order; [ssorted] has no repeated (key, seqno). *)
Abbreviation sorted := (StronglySorted entry_le).
Abbreviation ssorted := (StronglySorted entry_lt).

(** ** The newest visible version *)

(** Among the versions of [k] in [es] that a reader at [s] may see, [o] is one
    with the highest sequence number ([None]: there is none). *)
Definition newest (s : SeqNo) (k : bytes) (es : list Entry) (o : option Entry) : Prop :=
  match o with
  | Some e => e ∈ es /\ key e = k /\ seqno e <= s /\
      (forall e', e' ∈ es -> key e' = k -> seqno e' <= s -> seqno e' <= seqno e)
  | None => forall e', e' ∈ es -> key e' = k -> s < seqno e'
  end.

(** The first entry of [k] that a reader at [s] may see. *)
Fixpoint first_visible (es : list Entry) (k : bytes) (s : SeqNo) : option Entry :=
  match es with
  | [] => None
  | e :: es' => if beqb (key e) k && (seqno e <=? s) then Some e else first_visible es' k s
  end.

(** What a lookup makes of the version it finds: a tombstone is an absence. *)
Definition live (o : option Entry) : option bytes :=
  match o with
  | Some e => match value_type e with Value => Some (value e) | Tombstone => None end
  | None => None
  end.

(** * Lemmas *)

Lemma ValueType_roundtrip v : ValueType_from_u8 (ValueType_to_u8 v) = Some v.
Proof. by destruct v. Qed.

(** ** The order of entries *)

Lemma entry_cmp_unfold a b :
  entry_cmp a b = match bcmp (key a) (key b) with Eq => seqno b ?= seqno a | c => c end.
Proof. done. Qed.

Lemma entry_lt_iff a b :
  entry_lt a b <-> (key a < key b)%bytes \/ (key a = key b /\ seqno b < seqno a).
Proof.
  unfold entry_lt, blt. rewrite entry_cmp_unfold, <- bcmp_eq.
  destruct (bcmp (key a) (key b)) eqn:E; rewrite <- ?Z.compare_lt_iff; intuition congruence.
Qed.

Lemma entry_le_iff a b :
  entry_le a b <-> (key a < key b)%bytes \/ (key a = key b /\ seqno b <= seqno a).
Proof.
  unfold entry_le, blt. rewrite entry_cmp_unfold, <- bcmp_eq.
  destruct (bcmp (key a) (key b)) eqn:E; rewrite <- ?Z.compare_le_iff; intuition congruence.
Qed.

Lemma entry_lt_le a b : entry_lt a b -> entry_le a b.
Proof. rewrite entry_lt_iff, entry_le_iff. intuition lia. Qed.

#[export] Instance entry_le_trans : Transitive entry_le.
Proof.
  intros a b c. rewrite !entry_le_iff.
  intros [?|[??]] [?|[??]]; first [left; border | right; split; [congruence|lia]].
Qed.

#[export] Instance entry_lt_trans : Transitive entry_lt.
Proof.
  intros a b c. rewrite !entry_lt_iff.
  intros [?|[??]] [?|[??]]; first [left; border | right; split; [congruence|lia]].
Qed.

#[export] Instance entry_le_refl : Reflexive entry_le.
Proof. intros a. rewrite entry_le_iff. right. split; [done|lia]. Qed.

Lemma entry_le_total a b : entry_le a b \/ entry_le b a.
Proof.
  rewrite !entry_le_iff.
  destruct (BytesOrder.lt_total (key a) (key b)) as [H|[H|H]]; [by left; left| |by right; left].
  unfold BytesOrder.eq in H. rewrite H. destruct (Z.le_ge_cases (seqno a) (seqno b)).
  - right. right. done.
  - left. right. done.
Qed.

Lemma entry_cmp_gt_lt a b : entry_cmp a b = Gt <-> entry_lt b a.
Proof.
  unfold entry_lt. rewrite !entry_cmp_unfold, (bcmp_opp (key a) (key b)).
  destruct (bcmp (key a) (key b)); simpl; rewrite ?Z.compare_gt_iff, ?Z.compare_lt_iff;
    intuition congruence.
Qed.

Lemma ssorted_sorted es : ssorted es -> sorted es.
Proof. induction 1; constructor; eauto. eapply Forall_impl; [done|]. apply entry_lt_le. Qed.

Lemma entry_le_key a b : entry_le a b -> (key a <= key b)%bytes.
Proof. rewrite entry_le_iff. intros [?|[??]]; border. Qed.

Lemma entry_le_key_seqno a b : entry_le a b -> key a = key b -> seqno b <= seqno a.
Proof. rewrite entry_le_iff. intros [?|[??]] ?; [border|done]. Qed.

#[export] Hint Resolve ssorted_sorted entry_lt_le : xyz.

(** ** First visible and newest *)

Lemma first_visible_Some es k s e :
  first_visible es k s = Some e -> e ∈ es /\ key e = k /\ seqno e <= s.
Proof.
  induction es as [|a es IH]; simpl; [done|].
  destruct (beqb (key a) k) eqn:E, (seqno a <=? s) eqn:E'; simpl;
    intros H; simplify_eq; try (destruct (IH H) as (?&?&?); split; [by right|done]).
  split; [by left|]. apply beqb_eq in E. split; [done|lia].
Qed.

Lemma first_visible_None es k s :
  first_visible es k s = None <-> (forall e, e ∈ es -> key e = k -> s < seqno e).
Proof.
  induction es as [|a es IH]; simpl.
  - split; [|done]. intros _ e H. by apply elem_of_nil in H.
  - destruct (beqb (key a) k) eqn:E, (seqno a <=? s) eqn:E'; simpl.
    { split; [done|]. intros H. apply beqb_eq in E. specialize (H a ltac:(by left) E). lia. }
    all: rewrite IH; split;
      [intros H e [->|He]%elem_of_cons Hk; [|by apply H]|intros H e He; apply H; by right].
    all: first [lia | apply beqb_neq in E; congruence].
Qed.

(** In a sorted run the first visible version is the newest one. *)
Lemma first_visible_newest es k s : sorted es -> newest s k es (first_visible es k s).
Proof.
  intros Hs. destruct (first_visible es k s) as [e|] eqn:E; simpl; [|by apply first_visible_None].
  destruct (first_visible_Some _ _ _ _ E) as (Hin & Hk & Hv). do 3 (split; [done|]).
  induction Hs as [|a es Hs IH Ha]; [by apply elem_of_nil in Hin|].
  simpl in E. destruct (beqb (key a) k && (seqno a <=? s)) eqn:Ea.
  - simplify_eq. intros e' [->|He']%elem_of_cons Hk' ?; [lia|].
    rewrite Forall_forall in Ha. apply (entry_le_key_seqno e); [by apply Ha|congruence].
  - assert (e ∈ es) as Hin' by (by destruct (first_visible_Some _ _ _ _ E)).
    intros e' [->|He']%elem_of_cons Hk' Hs'; [|by apply IH].
    apply andb_false_iff in Ea as [Ea|Ea]; [apply beqb_neq in Ea; congruence|lia].
Qed.

Lemma newest_live_unique s k es o1 o2 :
  (forall a b, a ∈ es -> b ∈ es -> key a = key b -> seqno a = seqno b -> a = b) ->
  newest s k es o1 -> newest s k es o2 -> o1 = o2.
Proof.
  intros Hu. destruct o1 as [a|], o2 as [b|]; simpl; [| | |done].
  - intros (?&?&?&Ha) (?&?&?&Hb). f_equal. apply Hu; [done|done|congruence|].
    specialize (Ha b). specialize (Hb a). apply Z.le_antisymm; [apply Hb|apply Ha]; done.
  - intros (?&?&?&?) Hb. specialize (Hb a ltac:(done) ltac:(done)). lia.
  - intros Ha (?&?&?&?). specialize (Ha b ltac:(done) ltac:(done)). lia.
Qed.

Lemma newest_seteq s k es es' o :
  (forall e, key e = k -> e ∈ es <-> e ∈ es') -> newest s k es o -> newest s k es' o.
Proof.
  intros Heq. destruct o as [e|]; simpl.
  - intros (?&?&?&Hm). split; [by apply Heq|]. do 2 (split; [done|]).
    intros e' He' Hk'. apply Hm; [by apply Heq|done].
  - intros Hm e' He' Hk'. apply Hm; [by apply Heq|done].
Qed.

(** The newest version over two layers of which the first is the newer: it is
    the first layer's, if it has one. *)
Lemma newest_app s k es1 es2 o1 o2 :
  (forall a b, a ∈ es1 -> b ∈ es2 -> key a = k -> key b = k -> seqno b <= seqno a) ->
  newest s k es1 o1 -> newest s k es2 o2 ->
  newest s k (es1 ++ es2) (match o1 with Some e => Some e | None => o2 end).
Proof.
  intros Hlay H1 H2. destruct o1 as [a|]; simpl in *.
  - destruct H1 as (Ha & Hk & Hv & Hm). split; [set_solver|]. do 2 (split; [done|]).
    intros e' [He'|He']%elem_of_app Hk' Hv'; [by apply Hm|by apply Hlay].
  - destruct o2 as [b|]; simpl in *.
    + destruct H2 as (Hb & Hk & Hv & Hm). split; [set_solver|]. do 2 (split; [done|]).
      intros e' [He'|He']%elem_of_app Hk' Hv'; [|by apply Hm].
      specialize (H1 e' He' Hk'). lia.
    + intros e' [He'|He']%elem_of_app; auto.
Qed.

(** ** Prefix ranges *)

Lemma starts_with_iff k p : starts_with k p = true <-> exists r, k = p ++ r.
Proof.
  revert k; induction p as [|y p IH]; intros k; simpl; [split; [eauto|done]|].
  destruct k as [|x k]; [split; [done|by intros [? ?]]|]. rewrite andb_true_iff, IH, Z.eqb_eq.
  split; [intros [-> [r ->]]; by exists r|intros [r ?]; simplify_eq; eauto].
Qed.

Lemma bcmp_app_same p a b : bcmp (p ++ a) (p ++ b) = bcmp a b.
Proof. induction p; simpl; [done|]. by rewrite Z.compare_refl. Qed.

Lemma ble_app p r : (p <= p ++ r)%bytes.
Proof. unfold ble. rewrite <- (app_nil_r p) at 1. rewrite bcmp_app_same. by destruct r. Qed.

Lemma prefix_sandwich q x k :
  (q ++ [x] <= k)%bytes -> (k < q ++ [x + 1])%bytes -> exists r, k = q ++ x :: r.
Proof.
  unfold ble, blt. revert k; induction q as [|y q IH]; intros [|z k]; simpl; try done.
  - destruct (Z.compare_spec x z), (Z.compare_spec z (x + 1)); subst; try lia; try done; eauto.
    by destruct k.
  - destruct (Z.compare_spec y z), (Z.compare_spec z y); subst; try lia; try done.
    intros H1 H2. destruct (IH k H1 H2) as [r ->]. eauto.
Qed.

Lemma prefix_to_range_snoc q x :
  snd (prefix_to_range (q ++ [x])) =
  if x <? 255 then Some (q ++ [x + 1]) else snd (prefix_to_range q).
Proof.
  unfold prefix_to_range. simpl. rewrite reverse_app. simpl. case_match; [|done].
  simpl. by rewrite reverse_cons, reverse_involutive.
Qed.

Lemma prefix_range p k :
  is_bytes p -> is_bytes k ->
  starts_with k p = true <->
  (fst (prefix_to_range p) <= k)%bytes /\
  (match snd (prefix_to_range p) with Some u => (k < u)%bytes | None => True end).
Proof.
  intros Hp Hk. simpl fst. rewrite starts_with_iff.
  induction p as [|x q IH] using rev_ind.
  { simpl. split; [|eauto]. intros _. split; [|done]. apply (ble_app []). }
  apply Forall_app in Hp as [Hq Hx]. apply Forall_singleton in Hx.
  rewrite prefix_to_range_snoc. destruct (Z.ltb_spec x 255).
  - split.
    + intros [r ->]. rewrite <- app_assoc. simpl. unfold ble, blt. rewrite !bcmp_app_same. simpl.
      rewrite Z.compare_refl, (proj2 (Z.compare_lt_iff x (x + 1))) by lia. by destruct r.
    + intros [H1 H2]. destruct (prefix_sandwich _ _ _ H1 H2) as [r ->].
      exists r. by rewrite <- app_assoc.
  - specialize (IH Hq). split.
    + intros [r ->]. rewrite <- app_assoc in *. split; [rewrite app_assoc; apply ble_app|].
      apply IH. eauto.
    + intros [H1 H2]. assert (exists r, k = q ++ r) as [r ->].
      { apply IH. split; [|done]. pose proof (ble_app q [x]). border. }
      unfold ble in H1. rewrite bcmp_app_same in H1.
      apply Forall_app in Hk as [_ Hr]. destruct r as [|y r]; [done|].
      apply Forall_cons in Hr as [Hy _]. simpl in H1.
      assert (x = y) as <- by (destruct (Z.compare_spec x y); subst; try lia; done).
      exists r. by rewrite <- app_assoc.
Qed.

(** [prefix_to_range] is exact. A byte string starts with the prefix if
    and only if it is at or above the lower bound and, when there is an upper
    bound, strictly below it. *)
Theorem prefix_to_range_exact p k :
  is_bytes p -> is_bytes k ->
  starts_with k p = true <->
  (fst (prefix_to_range p) <= k)%bytes /\
  (match snd (prefix_to_range p) with Some u => (k < u)%bytes | None => True end).
Proof. apply prefix_range. Qed.

Lemma prefix_to_range_exact_witness :
  is_bytes [1; 255] /\ is_bytes [1; 255; 7] /\
  (starts_with [1; 255; 7] [1; 255] = true <->
   (fst (prefix_to_range [1; 255]) <= [1; 255; 7])%bytes /\
   match snd (prefix_to_range [1; 255]) with Some u => ([1; 255; 7] < u)%bytes | None => True end).
Proof.
  assert (is_bytes [1; 255]) by (repeat constructor; lia).
  assert (is_bytes [1; 255; 7]) by (repeat constructor; lia).
  split; [done|]. split; [done|]. by apply prefix_to_range_exact.
Defined.
