(* ===== verification/Block.v ===== *)
(** * The block format (turba-engine/src/block.rs, compression.rs)

    Varints, the prefix-truncated entry encoding with its restart section, the
    34-byte checksummed header, [encode]/[decode]/[validate_checksum], and the
    in-block point read. The hash functions ([xxhash_rust]) and the compressors
    ([lz4_flex], [zstd]) are parameters. *)

From S2P Require Import Prelude Types.

(** ** Third-party code: hashing and compression *)

(** [xxhash_rust::xxh3]: two hash functions of the given widths. *)
Class Xxh3 := {
  xxh3_128 : bytes -> Z;
  xxh3_64 : bytes -> Z;
  xxh3_128_range b : is_uint 128 (xxh3_128 b);
  xxh3_64_range b : is_uint 64 (xxh3_64 b);
}.

Inductive CompressionType :=
  | CNone
  | Lz4
  | Zstd (level : Z)
  | ZstdDict (level : Z).

(** [CompressionType::to_u8] *)
Definition CompressionType_to_u8 (c : CompressionType) : Z :=
  match c with CNone => 0 | Lz4 => 1 | Zstd _ => 2 | ZstdDict _ => 3 end.

(** [CompressionType::from_u8] *)
Definition CompressionType_from_u8 (b : Z) : option CompressionType :=
  if b =? 0 then Some CNone
  else if b =? 1 then Some Lz4
  else if b =? 2 then Some (Zstd 3)
  else if b =? 3 then Some (ZstdDict 3)
  else None.

(** The codecs: [lz4_flex::compress_prepend_size] with its inverse, and
    [zstd::bulk::compress] (at a level) with [zstd::bulk::decompress] (given the
    capacity of the output). Their documented contract is the round trip. *)
Class Codecs := {
  lz4_compress : bytes -> bytes;
  lz4_decompress : bytes -> option bytes;
  zstd_compress : Z -> bytes -> bytes;
  zstd_decompress : bytes -> Z -> option bytes;
  lz4_roundtrip d : lz4_decompress (lz4_compress d) = Some d;
  zstd_roundtrip l d : zstd_decompress (zstd_compress l d) (blen d) = Some d;
}.

Section block.
Context {XH : Xxh3} {CD : Codecs}.

(** [compression::compress] with [dict = None], as [block.rs] calls it: the
    dictionary codec panics without its dictionary. *)
Definition compress (data : bytes) (ct : CompressionType) : Result bytes :=
  match ct with
  | CNone => Ok data
  | Lz4 => Ok (lz4_compress data)
  | Zstd level => Ok (zstd_compress level data)
  | ZstdDict _ => Panic
  end.

(** [compression::decompress] with [dict = None]. *)
Definition decompress (data : bytes) (ct : CompressionType) (uncompressed_len : Z) : Result bytes :=
  match ct with
  | CNone => Ok data
  | Lz4 => ok_or (lz4_decompress data) (Decompress "LZ4")
  | Zstd _ => ok_or (zstd_decompress data uncompressed_len) (Decompress "Zstd")
  | ZstdDict _ => Err (Decompress "ZstdDict requires dictionary")
  end.

Definition BLOCK_MAGIC : bytes := [88; 89; 90; 66]. (* "XYZB" *)
Definition HEADER_SIZE : Z := 34.
Definition DEFAULT_RESTART_INTERVAL : Z := 16.

Inductive BlockType := Data | Index.

(** [block_type as u8] and [BlockType::from_u8] *)
Definition BlockType_to_u8 (t : BlockType) : Z := match t with Data => 0 | Index => 1 end.
Definition BlockType_from_u8 (b : Z) : option BlockType :=
  if b =? 0 then Some Data else if b =? 1 then Some Index else None.

(** ** Varints *)

(** The body of [encode_varint]; a [u64] takes at most ten rounds. *)
Fixpoint encode_varint_loop (fuel : nat) (val : Z) : bytes :=
  match fuel with
  | O => []
  | S fuel' =>
    let byte := Z.land val 127 in
    let val := Z.shiftr val 7 in
    if val =? 0 then [byte] else Z.lor byte 128 :: encode_varint_loop fuel' val
  end.

(** What [encode_varint] appends to its buffer. *)
Definition encode_varint (val : Z) : bytes := encode_varint_loop 10 val.

(** The loop of [decode_varint]: the value and the next position. The shift
    drops the bits that leave the [u64]. *)
Fixpoint decode_varint_loop (fuel : nat) (data : bytes) (pos result shift : Z)
    : Result (Z * Z) :=
  match fuel with
  | O => Err (InvalidEntry "varint too large")
  | S fuel' =>
    match byte_at data pos with
    | None => Err (InvalidEntry "unexpected end of varint")
    | Some byte =>
      let pos := pos + 1 in
      let result := Z.lor result (wrap64 (Z.shiftl (Z.land byte 127) shift)) in
      if Z.land byte 128 =? 0 then Ok (result, pos)
      else
        let shift := shift + 7 in
        if 64 <=? shift then Err (InvalidEntry "varint too large")
        else decode_varint_loop fuel' data pos result shift
    end
  end.

Definition decode_varint (data : bytes) (pos : Z) : Result (Z * Z) :=
  decode_varint_loop 10 data pos 0 0.

(** ** Entries *)

(** [common_prefix_len] *)
Fixpoint common_prefix_len (a b : bytes) : nat :=
  match a, b with
  | x :: a', y :: b' => if x =? y then S (common_prefix_len a' b') else O
  | _, _ => O
  end.

(** One iteration of [encode_entries]: the bytes of an entry given the shared
    prefix length. *)
Definition encode_entry (shared : nat) (entry : Entry) : bytes :=
  let suffix := drop shared (key entry) in
  encode_varint (Z.of_nat shared) ++
  encode_varint (blen suffix) ++
  suffix ++
  [ValueType_to_u8 (value_type entry)] ++
  encode_varint (seqno entry) ++
  match value_type entry with
  | Value => encode_varint (blen (value entry)) ++ value entry
  | Tombstone => encode_varint 0
  end.

(** The loop of [encode_entries] over [entries.iter().enumerate()]: the
    buffer, the restart offsets and the previous key are the loop's state. *)
Fixpoint encode_entries_loop (i restart_interval : Z) (buf : bytes)
    (restart_offsets : list Z) (prev_key : bytes) (entries : list Entry)
    : bytes * list Z :=
  match entries with
  | [] => (buf, restart_offsets)
  | entry :: rest =>
    let is_restart := i mod restart_interval =? 0 in
    let restart_offsets :=
      if is_restart then restart_offsets ++ [wrap32 (blen buf)] else restart_offsets in
    let shared := if is_restart then O else common_prefix_len prev_key (key entry) in
    encode_entries_loop (i + 1) restart_interval (buf ++ encode_entry shared entry)
      restart_offsets (key entry) rest
  end.

(** The entries and the restart section. *)
Definition entries_bytes (entries : list Entry) (restart_interval : Z) : bytes :=
  let '(buf, restart_offsets) := encode_entries_loop 0 restart_interval [] [] [] entries in
  buf ++ (restart_offsets ≫= to_le_bytes 4) ++ to_le_bytes 4 (wrap32 (blen restart_offsets)).

(** [i % restart_interval] panics in the first round if the interval is 0. *)
Definition encode_entries (entries : list Entry) (restart_interval : Z) : Result bytes :=
  match entries with
  | _ :: _ => if restart_interval =? 0 then Panic else Ok (entries_bytes entries restart_interval)
  | [] => Ok (entries_bytes entries restart_interval)
  end.

(** One iteration of the [while pos < entries_end] loop of [decode_entries]:
    the entry and the next position. [usize] additions wrap, and a slice whose
    bounds are out of order panics, as does the reservation of a key of more than
    [isize::MAX] bytes. *)
Definition decode_entry (data : bytes) (entries_end pos : Z) (prev_key : bytes)
    : Result (Entry * Z) :=
  '(shared, pos) ← decode_varint data pos;
  '(suffix_len, pos) ← decode_varint data pos;
  if entries_end <? wrap64 (pos + suffix_len)
  then Err (InvalidEntry "suffix extends past entries section") else
  suffix ← slice_or_panic data pos (wrap64 (pos + suffix_len));
  let pos := wrap64 (pos + suffix_len) in
  if 2 ^ 63 <=? wrap64 (shared + suffix_len) then Panic else
  if blen prev_key <? shared
  then Err (InvalidEntry "shared prefix exceeds previous key") else
  let k := take (Z.to_nat shared) prev_key ++ suffix in
  if entries_end <=? pos
  then Err (InvalidEntry "unexpected end reading value_type") else
  vtype_byte ← match byte_at data pos with Some b => Ok b | None => Panic end;
  let pos := pos + 1 in
  vt ← ok_or (ValueType_from_u8 vtype_byte) (InvalidEntry "unknown value_type");
  '(sq, pos) ← decode_varint data pos;
  '(value_len, pos) ← decode_varint data pos;
  match vt with
  | Value =>
    if entries_end <? wrap64 (pos + value_len)
    then Err (InvalidEntry "value extends past entries section") else
    v ← slice_or_panic data pos (wrap64 (pos + value_len));
    Ok (mkEntry k v sq vt, wrap64 (pos + value_len))
  | Tombstone => Ok (mkEntry k [] sq vt, pos)
  end.

(** The [while] loop; [fuel] bounds the number of rounds, and a round consumes
    at least one byte ([decode_entry_progress]). *)
Fixpoint decode_entries_loop (fuel : nat) (data : bytes) (entries_end pos : Z)
    (prev_key : bytes) : Result (list Entry) :=
  if entries_end <=? pos then Ok []
  else
    match fuel with
    | O => Panic
    | S fuel' =>
      '(entry, pos) ← decode_entry data entries_end pos prev_key;
      entries ← decode_entries_loop fuel' data entries_end pos (key entry);
      Ok (entry :: entries)
    end.

Definition decode_entries (data : bytes) : Result (list Entry) :=
  if blen data <? 4 then Err (InvalidEntry "block too small for restart count") else
  let restart_count := from_le_bytes (slice data (blen data - 4) (blen data)) in
  let restart_section_size := restart_count * 4 + 4 in
  if blen data <? restart_section_size
  then Err (InvalidEntry "block too small for restart section") else
  let entries_end := blen data - restart_section_size in
  decode_entries_loop (length data) data entries_end 0 [].

(** ** Header *)

(** [xxh3_32]: the low half of the 64-bit hash. *)
Definition xxh3_32 (data : bytes) : Z := wrap32 (xxh3_64 data).

(** The first 30 bytes of [encode_header]. *)
Definition encode_header_body (bt : BlockType) (c : CompressionType) (compressed_data : bytes)
    (uncompressed_len : Z) : bytes :=
  BLOCK_MAGIC ++ [BlockType_to_u8 bt] ++ [CompressionType_to_u8 c] ++
  to_le_bytes 16 (xxh3_128 compressed_data) ++
  to_le_bytes 4 (wrap32 (blen compressed_data)) ++
  to_le_bytes 4 (wrap32 uncompressed_len).

Definition encode_header (bt : BlockType) (c : CompressionType) (compressed_data : bytes)
    (uncompressed_len : Z) : bytes :=
  let header := encode_header_body bt c compressed_data uncompressed_len in
  header ++ to_le_bytes 4 (xxh3_32 header).

Record DecodedHeader := mkDecodedHeader {
  dh_block_type : BlockType;
  dh_compression : CompressionType;
  dh_data_checksum : Z;
  dh_data_length : Z;
  dh_uncompressed_length : Z;
}.

Definition decode_header (raw : bytes) : Result DecodedHeader :=
  if blen raw <? HEADER_SIZE then Err InvalidHeader else
  if negb (beqb (slice raw 0 4) BLOCK_MAGIC) then Err InvalidMagic else
  let stored_hdr_checksum := from_le_bytes (slice raw 30 34) in
  let computed_hdr_checksum := xxh3_32 (slice raw 0 30) in
  if negb (stored_hdr_checksum =? computed_hdr_checksum) then Err ChecksumMismatch else
  block_type ← ok_or (byte_at raw 4 ≫= BlockType_from_u8) InvalidHeader;
  compression ← ok_or (byte_at raw 5 ≫= CompressionType_from_u8) InvalidHeader;
  Ok (mkDecodedHeader block_type compression
        (from_le_bytes (slice raw 6 22))
        (from_le_bytes (slice raw 22 26))
        (from_le_bytes (slice raw 26 30))).

(** ** Public interface *)

Definition encode_with_restart_interval (entries : list Entry) (c : CompressionType)
    (bt : BlockType) (restart_interval : Z) : Result bytes :=
  raw ← encode_entries entries restart_interval;
  compressed ← compress raw c;
  Ok (encode_header bt c compressed (blen raw) ++ compressed).

Definition encode (entries : list Entry) (c : CompressionType) (bt : BlockType) : Result bytes :=
  encode_with_restart_interval entries c bt DEFAULT_RESTART_INTERVAL.

Definition validate_checksum (raw : bytes) : Result unit :=
  hdr ← decode_header raw;
  let data_start := HEADER_SIZE in
  let data_end := data_start + dh_data_length hdr in
  if blen raw <? data_end then Err (Corruption "block truncated") else
  let actual := xxh3_128 (slice raw data_start data_end) in
  if negb (actual =? dh_data_checksum hdr) then Err ChecksumMismatch else Ok tt.

Definition decode (raw : bytes) : Result (list Entry) :=
  hdr ← decode_header raw;
  let data_start := HEADER_SIZE in
  let data_end := data_start + dh_data_length hdr in
  if blen raw <? data_end then Err (Corruption "block truncated") else
  let compressed_data := slice raw data_start data_end in
  let actual := xxh3_128 compressed_data in
  if negb (actual =? dh_data_checksum hdr) then Err ChecksumMismatch else
  decompressed ← decompress compressed_data (dh_compression hdr) (dh_uncompressed_length hdr);
  if negb (blen decompressed =? dh_uncompressed_length hdr)
  then Err (Corruption "decompressed length != header uncompressed_length") else
  decode_entries decompressed.

(** The scan of [point_read] from the first entry of the key. *)
Fixpoint point_read_scan (entries : list Entry) (user_key : bytes) (visible_seqno : SeqNo)
    : option Entry :=
  match entries with
  | [] => None
  | entry :: rest =>
    if negb (beqb (key entry) user_key) then None
    else if seqno entry <=? visible_seqno then Some entry
    else point_read_scan rest user_key visible_seqno
  end.

Definition point_read (entries : list Entry) (user_key : bytes) (visible_seqno : SeqNo)
    : option Entry :=
  let idx := partition_point (fun e => bltb (key e) user_key) entries in
  point_read_scan (drop idx entries) user_key visible_seqno.

End block.

(** * Lemmas *)

(** ** Varints *)

(** The continuation bit, checked on all 128 payloads. *)
Lemma continuation_bit b : 0 <= b < 128 ->
  Z.lor b 128 = b + 128 /\ Z.land b 127 = b /\ Z.land b 128 = 0 /\
  Z.land (b + 128) 127 = b /\ Z.land (b + 128) 128 = 128.
Proof.
  intros Hb.
  assert (Forall (fun b => Z.lor b 128 = b + 128 /\ Z.land b 127 = b /\ Z.land b 128 = 0 /\
    Z.land (b + 128) 127 = b /\ Z.land (b + 128) 128 = 128) (seqZ 0 128)) as Hall.
  { apply (bool_decide_unpack _). vm_compute. done. }
  rewrite Forall_forall in Hall. apply Hall. apply elem_of_seqZ. lia.
Qed.

Lemma encode_varint_loop_S fuel v :
  0 <= v ->
  encode_varint_loop (S fuel) v =
  if v / 128 =? 0 then [v mod 128] else (v mod 128 + 128) :: encode_varint_loop fuel (v / 128).
Proof.
  intros. cbn [encode_varint_loop]. change 127 with (Z.ones 7).
  rewrite Z.land_ones, Z.shiftr_div_pow2 by lia. change (2 ^ 7) with 128.
  destruct (v / 128 =? 0); [done|]. f_equal.
  apply continuation_bit. apply Z.mod_pos_bound. lia.
Qed.

Lemma decode_varint_loop_S fuel data pos result shift byte :
  byte_at data pos = Some byte ->
  decode_varint_loop (S fuel) data pos result shift =
  (let result := Z.lor result (wrap64 (Z.shiftl (Z.land byte 127) shift)) in
   if Z.land byte 128 =? 0 then Ok (result, pos + 1)
   else if 64 <=? shift + 7 then Err (InvalidEntry "varint too large")
   else decode_varint_loop fuel data (pos + 1) result (shift + 7)).
Proof. intros H. cbn [decode_varint_loop]. by rewrite H. Qed.

Lemma decode_varint_loop_spec n data pos rest r v :
  (n <= 9)%nat ->
  0 <= v < 2 ^ (7 * Z.of_nat n + 1) ->
  0 <= r < 2 ^ (7 * (9 - Z.of_nat n)) ->
  at_pos data pos (encode_varint_loop (S n) v ++ rest) ->
  decode_varint_loop (S n) data pos r (7 * (9 - Z.of_nat n)) =
    Ok (r + v * 2 ^ (7 * (9 - Z.of_nat n)), pos + blen (encode_varint_loop (S n) v)).
Proof.
  revert pos r v; induction n as [|n IH]; intros pos r v Hn Hv Hr Hat;
    rewrite encode_varint_loop_S in * by lia.
  - assert (v / 128 = 0) as E by (apply Z.div_small; simpl in Hv; lia). rewrite E in *.
    rewrite Z.mod_small in * by (simpl in Hv; lia). simpl app in Hat.
    apply at_pos_byte in Hat as [Hb _]. rewrite (decode_varint_loop_S _ _ _ _ _ _ Hb).
    destruct (continuation_bit v) as (_ & -> & -> & _); [simpl in Hv; lia|]. simpl.
    rewrite wrap_small, lor_shiftl_add; [done|lia|done|].
    rewrite Z.shiftl_mul_pow2 by lia. split; [lia|]. simpl in Hv. nia.
  - pose proof (Z.mod_pos_bound v 128 ltac:(lia)) as Hm.
    assert (2 ^ (7 * (9 - Z.of_nat n)) = 2 ^ (7 * (9 - Z.of_nat (S n))) * 128) as Hpow.
    { change 128 with (2 ^ 7). rewrite <- Z.pow_add_r by lia. f_equal. lia. }
    assert (2 ^ (7 * Z.of_nat (S n) + 1) * 2 ^ (7 * (9 - Z.of_nat (S n))) = 2 ^ 64) as H64.
    { rewrite <- Z.pow_add_r by lia. f_equal. lia. }
    assert (is_uint 64 (Z.shiftl (v mod 128) (7 * (9 - Z.of_nat (S n))))) as Hsh.
    { rewrite Z.shiftl_mul_pow2 by lia. pose proof (Z.mod_le v 128 ltac:(lia) ltac:(lia)).
      unfold is_uint. rewrite <- H64. split; [nia|]. apply Z.mul_lt_mono_pos_r; lia. }
    destruct (Z.eqb_spec (v / 128) 0) as [E|E].
    + simpl app in Hat. apply at_pos_byte in Hat as [Hb _].
      rewrite (decode_varint_loop_S _ _ _ _ _ _ Hb). cbv zeta.
      destruct (continuation_bit (v mod 128) Hm) as (_ & -> & -> & _). simpl Z.eqb. cbv iota.
      rewrite wrap_small, lor_shiftl_add by (done || lia).
      f_equal. f_equal. rewrite Z.mod_eq, E by lia. lia.
    + rewrite <- app_comm_cons in Hat. apply at_pos_byte in Hat as [Hb Hat].
      rewrite (decode_varint_loop_S _ _ _ _ _ _ Hb). cbv zeta.
      destruct (continuation_bit (v mod 128) Hm) as (_ & _ & _ & -> & ->).
      change (128 =? 0) with false. cbv iota.
      destruct (Z.leb_spec 64 (7 * (9 - Z.of_nat (S n)) + 7)); [lia|].
      rewrite wrap_small, lor_shiftl_add by (done || lia).
      replace (7 * (9 - Z.of_nat (S n)) + 7) with (7 * (9 - Z.of_nat n)) by lia.
      rewrite (IH _ _ (v / 128)); [|lia| | |done].
      * rewrite Hpow. f_equal. f_equal; [|len].
        rewrite (Z.div_mod v 128) at 3 by lia. lia.
      * split; [apply Z.div_pos; lia|]. apply Z.div_lt_upper_bound; [lia|].
        replace (128 * _) with (2 ^ (7 * Z.of_nat (S n) + 1)); [lia|].
        change 128 with (2 ^ 7). rewrite <- Z.pow_add_r by lia. f_equal. lia.
      * rewrite Hpow. nia.
Qed.

(** The reader at an encoded varint gets the value and moves past it. *)
Lemma decode_varint_at data pos v rest :
  is_uint 64 v -> at_pos data pos (encode_varint v ++ rest) ->
  decode_varint data pos = Ok (v, pos + blen (encode_varint v)) /\
  at_pos data (pos + blen (encode_varint v)) rest.
Proof.
  intros Hv Hat. split; [|by apply at_pos_app in Hat as (_ & _ & ?)].
  pose proof (decode_varint_loop_spec 9 data pos rest 0 v) as Hl. unfold decode_varint.
  change (7 * (9 - Z.of_nat 9)) with 0 in Hl. rewrite Hl; [|lia|done|lia|done].
  f_equal. f_equal. lia.
Qed.

Lemma decode_varint_progress data pos v pos' :
  decode_varint data pos = Ok (v, pos') -> 0 <= pos < pos' /\ pos' <= blen data.
Proof.
  unfold decode_varint. generalize 10%nat, 0 at 1, 0 at 1. intros fuel r sh.
  revert pos r sh; induction fuel as [|fuel IH]; intros pos r sh; [done|].
  cbn [decode_varint_loop]. destruct (byte_at data pos) as [b|] eqn:Hb; [|done].
  apply byte_at_lt in Hb. case_match; [intros; simplify_eq; lia|]. case_match; [done|].
  intros ?%IH. lia.
Qed.

(** ** Entries *)

(** What the format keeps of an entry: a tombstone has no value. *)
Definition norm_entry (e : Entry) : Entry :=
  match value_type e with
  | Value => e
  | Tombstone => mkEntry (key e) [] (seqno e) Tombstone
  end.

Lemma common_prefix_len_spec a b :
  (common_prefix_len a b <= length a)%nat /\
  take (common_prefix_len a b) a = take (common_prefix_len a b) b.
Proof.
  revert b; induction a as [|x a IH]; intros [|y b]; simpl; try (split; [lia|done]).
  destruct (Z.eqb_spec x y); simpl; [|split; [lia|done]].
  destruct (IH b). split; [lia|]. congruence.
Qed.

(** An entry is written as at least five bytes. *)
Lemma encode_varint_nonempty v : 0 < blen (encode_varint v).
Proof.
  unfold encode_varint. cbn [encode_varint_loop]. case_match; len.
Qed.

(** The bytes the loop of [encode_entries] appends. *)
Fixpoint entries_body (i r : Z) (prev_key : bytes) (es : list Entry) : bytes :=
  match es with
  | [] => []
  | e :: es' =>
    let shared := if i mod r =? 0 then O else common_prefix_len prev_key (key e) in
    encode_entry shared e ++ entries_body (i + 1) r (key e) es'
  end.

Lemma encode_entries_loop_body i r buf offs prev es :
  exists offs', encode_entries_loop i r buf offs prev es =
    (buf ++ entries_body i r prev es, offs ++ offs').
Proof.
  revert i buf offs prev; induction es as [|e es IH]; intros; cbn [encode_entries_loop entries_body].
  - exists []. by rewrite !app_nil_r.
  - cbv zeta. destruct (i mod r =? 0).
    + destruct (IH (i + 1) (buf ++ encode_entry 0 e) (offs ++ [wrap32 (blen buf)]) (key e)) as [o ->].
      rewrite <- !app_assoc. eauto.
    + destruct (IH (i + 1) (buf ++ encode_entry (common_prefix_len prev (key e)) e) offs (key e)) as [o ->].
      rewrite <- !app_assoc. eauto.
Qed.

Lemma encode_entry_nonempty n e : 0 < blen (encode_entry n e).
Proof.
  unfold encode_entry. pose proof (encode_varint_nonempty (Z.of_nat n)). rewrite blen_app.
  match goal with |- _ < _ + blen ?l => pose proof (blen_nonneg l) end. lia.
Qed.

Lemma length_entries_body i r prev es : (length es <= length (entries_body i r prev es))%nat.
Proof.
  revert i prev; induction es as [|e es IH]; intros; cbn [entries_body]; [simpl; lia|].
  cbv zeta. rewrite length_app. specialize (IH (i + 1) (key e)). simpl.
  match goal with |- context [encode_entry ?n e] => pose proof (encode_entry_nonempty n e) end.
  unfold blen in *. lia.
Qed.

Lemma blen_offsets (offs : list Z) : blen (offs ≫= to_le_bytes 4) = 4 * blen offs.
Proof.
  induction offs as [|o offs IH]; [done|]. cbn [mbind list_bind]. rewrite blen_app.
  change (blen (to_le_bytes 4 o)) with 4. rewrite IH. len.
Qed.

Section entries.
Context (data : bytes) (Hdata : blen data < 2 ^ 64).

Lemma decode_entry_at entries_end pos prev_key shared e rest :
  at_pos data pos (encode_entry shared e ++ rest) ->
  pos + blen (encode_entry shared e) <= entries_end -> entries_end <= blen data ->
  (shared <= length prev_key)%nat -> take shared prev_key = take shared (key e) ->
  Entry_wf e ->
  decode_entry data entries_end pos prev_key =
    Ok (norm_entry e, pos + blen (encode_entry shared e)).
Proof.
  intros Hat Hend Hle Hsh Hpre (Hsq & _ & _ & Hkl & Hvl).
  assert (shared <= length (key e))%nat as Hsk.
  { apply (f_equal length) in Hpre. rewrite !length_take in Hpre. lia. }
  unfold encode_entry in *. cbv zeta in *. rewrite <- !app_assoc in Hat.
  set (suffix := drop shared (key e)) in *.
  assert (blen suffix < 2 ^ 63) as Hsl by (unfold suffix, blen in *; rewrite length_drop; lia).
  unfold decode_entry.
  apply decode_varint_at in Hat as [-> Hat]; [|split; unfold blen in Hkl; lia]. cbn [mbind Result_bind].
  apply decode_varint_at in Hat as [-> Hat]; [|split; [apply blen_nonneg|lia]]. cbn [mbind Result_bind].
  rewrite !blen_app in *.
  set (p2 := pos + _ + _) in *.
  pose proof (at_pos_bound _ _ _ Hat) as [Hp2 Hb2].
  apply at_pos_app in Hat as (_ & Hsl2 & Hat).
  pose proof (at_pos_bound _ _ _ Hat) as [Hp3 Hb3].
  pose proof (encode_varint_nonempty (seqno e)) as Hne.
  assert (0 <= blen rest) by apply blen_nonneg.
  set (tail := match value_type e with Value => _ | Tombstone => _ end) in *.
  assert (0 <= blen tail) by apply blen_nonneg.
  autorewrite with blen in Hb3, Hend.
  rewrite (wrap_small 64 (p2 + blen suffix)) by (split; lia).
  destruct (Z.ltb_spec entries_end (p2 + blen suffix)); [lia|].
  rewrite Hsl2. cbn [mbind Result_bind].
  rewrite (wrap_small 64 (Z.of_nat shared + blen suffix)) by (split; unfold suffix, blen in *; rewrite ?length_drop; lia).
  destruct (Z.leb_spec (2 ^ 63) (Z.of_nat shared + blen suffix)); [unfold suffix, blen in *; rewrite length_drop in *; lia|].
  destruct (Z.ltb_spec (blen prev_key) (Z.of_nat shared)); [unfold blen in *; lia|].
  destruct (Z.leb_spec entries_end (p2 + blen suffix)); [lia|].
  apply at_pos_byte in Hat as [-> Hat]. cbn [mbind Result_bind].
  rewrite ValueType_roundtrip. cbn [ok_or mbind Result_bind].
  apply decode_varint_at in Hat as [-> Hat]; [|done]. cbn [mbind Result_bind].
  rewrite Nat2Z.id, Hpre. unfold suffix at 1 2. rewrite take_drop.
  unfold norm_entry. subst tail. destruct (value_type e) eqn:Hvt.
  - rewrite <- app_assoc in Hat.
    apply decode_varint_at in Hat as [-> Hat]; [|split; [apply blen_nonneg|lia]].
    cbn [mbind Result_bind]. pose proof (at_pos_bound _ _ _ Hat) as [Hp4 Hb4].
    apply at_pos_app in Hat as (_ & Hv & _). autorewrite with blen in *.
    rewrite wrap_small by (split; lia).
    match goal with |- context [entries_end <? ?x] => destruct (Z.ltb_spec entries_end x) end; [lia|].
    rewrite Hv. cbn [mbind Result_bind]. f_equal. f_equal; [|lia].
    destruct e; simpl in *; congruence.
  - apply decode_varint_at in Hat as [-> Hat]; [|done]. cbn [mbind Result_bind].
    f_equal. f_equal. autorewrite with blen. lia.
Qed.

Lemma decode_entries_loop_at fuel i r prev es pos rest :
  at_pos data pos (entries_body i r prev es ++ rest) ->
  Forall Entry_wf es -> (length es <= fuel)%nat ->
  decode_entries_loop fuel data (pos + blen (entries_body i r prev es)) pos prev =
    Ok (norm_entry <$> es).
Proof.
  revert fuel i prev pos; induction es as [|e es IH]; intros fuel i prev pos Hat Hwf Hf.
  { destruct fuel; cbn; rewrite Z.add_0_r, Z.leb_refl; done. }
  apply Forall_cons in Hwf as [He Hes]. destruct fuel as [|fuel]; [simpl in Hf; lia|].
  cbn [entries_body] in *. cbv zeta in *.
  set (shared := if i mod r =? 0 then O else _) in *.
  assert ((shared <= length prev)%nat /\ take shared prev = take shared (key e)) as [Hs1 Hs2].
  { unfold shared. case_match; [split; [lia|done]|]. apply common_prefix_len_spec. }
  rewrite <- app_assoc in Hat. pose proof (at_pos_bound _ _ _ Hat) as [_ Hb].
  rewrite !blen_app in *. pose proof (encode_entry_nonempty shared e).
  pose proof (blen_nonneg (entries_body (i + 1) r (key e) es)). pose proof (blen_nonneg rest).
  cbn [decode_entries_loop]. destruct (Z.leb_spec (pos + (blen (encode_entry shared e) +
    blen (entries_body (i + 1) r (key e) es))) pos); [lia|].
  rewrite (decode_entry_at _ _ _ shared e _ Hat) by (done || lia).
  apply at_pos_app in Hat as (_ & _ & Hat). cbn [mbind Result_bind].
  replace (key (norm_entry e)) with (key e) by (unfold norm_entry; by case_match).
  rewrite Z.add_assoc, IH by (done || simpl in Hf; lia). done.
Qed.

End entries.

Lemma decode_encode_entries es r :
  Forall Entry_wf es -> blen (entries_bytes es r) < 2 ^ 32 ->
  decode_entries (entries_bytes es r) = Ok (norm_entry <$> es).
Proof.
  intros Hwf Hlen. unfold entries_bytes in *.
  destruct (encode_entries_loop_body 0 r [] [] [] es) as [offs Heq]. rewrite Heq in *. clear Heq.
  rewrite !app_nil_l in *. set (body := entries_body 0 r [] es) in *.
  set (data := body ++ _) in *.
  assert (blen data = blen body + 4 * blen offs + 4) as Hd.
  { unfold data. rewrite !blen_app, blen_offsets, blen_to_le_bytes. lia. }
  pose proof (blen_nonneg body). pose proof (blen_nonneg offs).
  assert (at_pos data (blen data - 4) (to_le_bytes 4 (wrap32 (blen offs)))) as Hat.
  { exists (body ++ (offs ≫= to_le_bytes 4)). unfold data at 1. rewrite <- app_assoc.
    split; [done|]. rewrite blen_app, blen_offsets. lia. }
  unfold decode_entries. rewrite (at_pos_suffix _ _ _ Hat).
  rewrite wrap_small by (split; lia).
  rewrite (from_to_le_bytes_id 4 32) by (done || split; lia).
  destruct (Z.ltb_spec (blen data) 4); [lia|].
  destruct (Z.ltb_spec (blen data) (blen offs * 4 + 4)); [lia|].
  replace (blen data - (blen offs * 4 + 4)) with (0 + blen body) by lia.
  unfold body. eapply decode_entries_loop_at; [lia|apply at_pos_0|done|].
  pose proof (length_entries_body 0 r [] es). unfold data, body. rewrite length_app. lia.
Qed.

(** ** Termination of the entry decoder *)

Lemma slice_or_panic_Ok data a b x :
  slice_or_panic data a b = Ok x -> 0 <= a <= b /\ b <= blen data /\ x = slice data a b.
Proof.
  unfold slice_or_panic. case_match eqn:E; [|done]. intros; simplify_eq.
  rewrite !andb_true_iff, !Z.leb_le in E. split; [lia|]. split; [lia|done].
Qed.

(** A round of the loop moves the position forward, inside the block. *)
Lemma decode_entry_progress data entries_end pos prev e pos' :
  decode_entry data entries_end pos prev = Ok (e, pos') -> 0 <= pos < pos' /\ pos' <= blen data.
Proof.
  unfold decode_entry. intros H.
  repeat first
    [ match type of H with
      | (decode_varint ?d ?p ≫= _) = _ =>
        let E := fresh "E" in
        destruct (decode_varint d p) as [[??]| |] eqn:E; cbn [mbind Result_bind] in H;
        [apply decode_varint_progress in E|discriminate..]
      | (slice_or_panic ?d ?p ?q ≫= _) = _ =>
        let E := fresh "E" in
        destruct (slice_or_panic d p q) eqn:E; cbn [mbind Result_bind] in H;
        [apply slice_or_panic_Ok in E|discriminate..]
      | ((match byte_at ?d ?p with _ => _ end) ≫= _) = _ =>
        destruct (byte_at d p); cbn [mbind Result_bind] in H; [|discriminate]
      | (ok_or ?o _ ≫= _) = _ => destruct o; cbn [ok_or mbind Result_bind] in H; [|discriminate]
      end
    | progress (case_match; [discriminate|])
    | progress (destruct v) ].
  all: simplify_eq; try lia.
Qed.

(** The entry decoder terminates on every input. Any amount of fuel beyond
    the bytes that are left gives the outcome of the loop that
    [decode_entries] runs, so its bound is never what ends the loop. *)
Theorem decode_entries_loop_terminates data entries_end pos prev fuel1 fuel2 :
  entries_end <= blen data -> 0 <= pos ->
  blen data - pos <= Z.of_nat fuel1 -> blen data - pos <= Z.of_nat fuel2 ->
  decode_entries_loop fuel1 data entries_end pos prev =
  decode_entries_loop fuel2 data entries_end pos prev.
Proof.
  intros Hend. revert pos prev fuel2; induction fuel1 as [|fuel1 IH]; intros pos prev fuel2 H0 H1 H2.
  - destruct fuel2; [done|]. cbn [decode_entries_loop]. destruct (Z.leb_spec entries_end pos); [done|lia].
  - destruct fuel2 as [|fuel2]; cbn [decode_entries_loop];
      (destruct (Z.leb_spec entries_end pos); [done|]); [lia|].
    destruct (decode_entry data entries_end pos prev) as [[e pos']| |] eqn:E; cbn [mbind Result_bind]; [|done..].
    apply decode_entry_progress in E. rewrite (IH pos' (key e) fuel2) by lia. done.
Qed.

Lemma decode_entries_loop_terminates_witness :
  decode_entries_loop 8 [0;1;65;0;7;1;66] 7 0 [] = decode_entries_loop 100 [0;1;65;0;7;1;66] 7 0 [] /\
  decode_entries_loop 8 [0;1;65;0;7;1;66] 7 0 [] = Ok [mkEntry [65] [66] 7 Value].
Proof.
  split; [|vm_compute; reflexivity].
  apply (decode_entries_loop_terminates [0;1;65;0;7;1;66] 7 0 [] 8 100); vm_compute; congruence.
Defined.

(** A length that makes [pos + suffix_len] wrap passes the range check and
    panics in the slice: the decoder is not total on unchecked bytes. *)
Lemma decode_entries_wrap_panics :
  decode_entries ([0; 255; 255; 255; 255; 255; 255; 255; 255; 255; 1; 0; 0; 0; 0] ++ [0; 0; 0; 0]) = Panic.
Proof. vm_compute. reflexivity. Qed.

(** ** Header and whole blocks *)

Section blocks.
Context {XH : Xxh3} {CD : Codecs}.

Lemma compression_byte c :
  exists c', CompressionType_from_u8 (CompressionType_to_u8 c) = Some c' /\
    forall data n, decompress data c' n = decompress data c n.
Proof. destruct c; eexists; (split; [reflexivity|]); done. Qed.

Lemma decompress_compress data c comp :
  compress data c = Ok comp -> decompress comp c (blen data) = Ok data.
Proof.
  destruct c; simpl; intros; simplify_eq; try done.
  - by rewrite lz4_roundtrip.
  - by rewrite zstd_roundtrip.
Qed.

Lemma blen_header_body bt c comp n : blen (encode_header_body bt c comp n) = 30.
Proof. unfold encode_header_body. rewrite !blen_app, !blen_to_le_bytes. reflexivity. Qed.

Lemma xxh3_32_range b : is_uint 32 (xxh3_32 b).
Proof. apply Z.mod_pos_bound. lia. Qed.

(** The header fields read back, whatever follows the header. *)
Lemma decode_header_encode bt c comp n rest :
  is_uint 32 (blen comp) -> is_uint 32 n ->
  exists c', CompressionType_from_u8 (CompressionType_to_u8 c) = Some c' /\
  decode_header (encode_header bt c comp n ++ rest) =
    Ok (mkDecodedHeader bt c' (xxh3_128 comp) (blen comp) n).
Proof.
  intros Hl Hn. destruct (compression_byte c) as (c' & Hc & _). exists c'. split; [done|].
  unfold encode_header. cbv zeta. set (body := encode_header_body bt c comp n) in *.
  pose proof (blen_header_body bt c comp n) as Hb. fold body in Hb.
  rewrite <- app_assoc.
  pose proof (at_pos_0 (body ++ to_le_bytes 4 (xxh3_32 body) ++ rest)) as Hat.
  set (raw := body ++ _) in Hat at 1 |- *.
  assert (blen raw = 34 + blen rest) as Hraw.
  { unfold raw. rewrite !blen_app, blen_to_le_bytes. lia. }
  pose proof (at_pos_app _ _ _ _ Hat) as (Hs0 & _ & Hat30). rewrite Hb in Hs0, Hat30.
  apply (at_pos_le 4) in Hat30 as [Hs30 _]; [|apply xxh3_32_range].
  unfold body at 1, encode_header_body in Hat. rewrite <- !app_assoc in Hat.
  apply at_pos_app in Hat as (Hm & _ & Hat). change (0 + blen BLOCK_MAGIC) with 4 in *.
  apply at_pos_byte in Hat as [Ht Hat]. apply at_pos_byte in Hat as [Hct Hat].
  cbn [app] in Hat.
  apply (at_pos_le 16) in Hat as [Hx Hat]; [|apply xxh3_128_range].
  apply (at_pos_le 4) in Hat as [Hdl Hat]; [|rewrite wrap_small; done].
  apply (at_pos_le 4) in Hat as [Hul _]; [|rewrite wrap_small; done].
  rewrite !wrap_small in * by done. zlit.
  pose proof (blen_nonneg rest). unfold decode_header, HEADER_SIZE.
  destruct (Z.ltb_spec (blen raw) 34); [lia|].
  rewrite Hm, Hs0, Hs30, Z.eqb_refl, beqb_refl. simpl negb. cbv iota zeta.
  rewrite Ht, Hct. cbn [mbind option_bind]. rewrite Hc.
  replace (BlockType_from_u8 (BlockType_to_u8 bt)) with (Some bt) by (by destruct bt).
  cbn [ok_or mbind Result_bind option_bind]. by rewrite Hx, Hdl, Hul.
Qed.

Lemma blen_header bt c comp n : blen (encode_header bt c comp n) = HEADER_SIZE.
Proof. unfold encode_header. cbv zeta. rewrite blen_app, blen_header_body, blen_to_le_bytes. done. Qed.

(** What [decode] and [validate_checksum] do with a well-formed header. *)
Lemma decode_payload bt c comp n data rest :
  is_uint 32 (blen comp) -> is_uint 32 n ->
  blen data = blen comp ->
  decode (encode_header bt c comp n ++ data ++ rest) =
    (if xxh3_128 data =? xxh3_128 comp then
      decompressed ← decompress data c n;
      if blen decompressed =? n then decode_entries decompressed
      else Err (Corruption "decompressed length != header uncompressed_length")
    else Err ChecksumMismatch) /\
  validate_checksum (encode_header bt c comp n ++ data ++ rest) =
    (if xxh3_128 data =? xxh3_128 comp then Ok tt else Err ChecksumMismatch).
Proof.
  intros Hl Hn Hd. unfold decode, validate_checksum.
  destruct (compression_byte c) as (c1 & Hc1 & Hdec).
  destruct (decode_header_encode bt c comp n (data ++ rest) Hl Hn) as (c' & Hc & ->).
  assert (c1 = c') as -> by congruence.
  cbn [mbind Result_bind dh_data_length dh_data_checksum dh_compression dh_uncompressed_length].
  cbv zeta. rewrite <- (blen_header bt c comp n), <- Hd.
  rewrite slice_app by (rewrite ?Hd; done).
  rewrite !blen_app. pose proof (blen_nonneg rest).
  destruct (Z.ltb_spec (blen (encode_header bt c comp n) + (blen data + blen rest))
    (blen (encode_header bt c comp n) + blen data)); [lia|].
  destruct (xxh3_128 data =? xxh3_128 comp); simpl; [|done].
  split; [|done]. rewrite Hdec. destruct (decompress data c n); simpl; [|done..].
  by destruct (_ =? n).
Qed.

Lemma encode_entries_Ok es r : es = [] \/ 0 < r -> encode_entries es r = Ok (entries_bytes es r).
Proof. unfold encode_entries. destruct es; [done|]. intros [|]; [done|]. destruct (Z.eqb_spec r 0); [lia|done]. Qed.

Lemma encode_entries_inv es r raw : encode_entries es r = Ok raw -> raw = entries_bytes es r.
Proof. unfold encode_entries. destruct es; [by intros [= <-]|]. case_match; [done|]. by intros [= <-]. Qed.

(** A block is a header and the compressed entries. *)
Lemma encode_block_inv es c bt r raw :
  encode_with_restart_interval es c bt r = Ok raw ->
  exists comp, compress (entries_bytes es r) c = Ok comp /\ raw = encode_header bt c comp (blen (entries_bytes es r)) ++ comp.
Proof.
  unfold encode_with_restart_interval. destruct (encode_entries es r) as [b| |] eqn:Eb; cbn [mbind Result_bind]; try done.
  apply encode_entries_inv in Eb as ->. destruct (compress (entries_bytes es r) c) as [comp| |] eqn:Hc; cbn [mbind Result_bind]; try done.
  intros <-%Ok_inj. eauto.
Qed.

Lemma decode_encoded_block es c bt r raw rest :
  Forall Entry_wf es -> blen (entries_bytes es r) < 2 ^ 32 -> blen raw < 2 ^ 32 ->
  encode_with_restart_interval es c bt r = Ok raw ->
  decode (raw ++ rest) = Ok (norm_entry <$> es) /\ validate_checksum (raw ++ rest) = Ok tt.
Proof.
  intros Hwf Hl Hr (comp & Hc & ->)%encode_block_inv. rewrite blen_app, blen_header in Hr. rewrite <- app_assoc.
  pose proof (blen_nonneg comp). pose proof (blen_nonneg (entries_bytes es r)).
  destruct (decode_payload bt c comp (blen (entries_bytes es r)) comp rest) as [-> ->];
    [unfold HEADER_SIZE in *; split; lia|done|done|].
  rewrite Z.eqb_refl, (decompress_compress _ _ _ Hc). simpl. rewrite Z.eqb_refl.
  by rewrite decode_encode_entries.
Qed.

(** C24: decoding inverts encoding. For every codec but the dictionary one
    (which panics) and every positive restart interval (0 panics on a block with
    entries) encoding succeeds, and a block of any entries, if it fits the 32-bit
    lengths of the header, read back gives the entries, a tombstone losing the value
    it cannot carry, and its checksum validates, whatever bytes follow it in the
    file. *)
Theorem decode_encode es c bt r rest :
  Forall Entry_wf es -> (forall level, c <> ZstdDict level) -> es = [] \/ 0 < r ->
  exists raw, encode_with_restart_interval es c bt r = Ok raw /\
    (blen (entries_bytes es r) < 2 ^ 32 -> blen raw < 2 ^ 32 ->
     decode (raw ++ rest) = Ok (norm_entry <$> es) /\ validate_checksum (raw ++ rest) = Ok tt).
Proof.
  intros Hwf Hc Hr.
  assert (exists raw, encode_with_restart_interval es c bt r = Ok raw) as [raw Hraw].
  { unfold encode_with_restart_interval. rewrite encode_entries_Ok by done. destruct c; simpl; eauto. by destruct (Hc level). }
  exists raw. split; [done|]. intros. by eapply decode_encoded_block.
Qed.

(** A header whose checksum is right and whose fields are those of [body]. *)
Lemma header_same body raw :
  blen body = 30 -> is_bytes raw -> 34 <= blen raw -> slice raw 0 30 = body -> from_le_bytes (slice raw 30 34) = xxh3_32 body ->
  raw = (body ++ to_le_bytes 4 (xxh3_32 body)) ++ drop 34 raw.
Proof.
  intros Hb Hraw Hl <- Hx. rewrite <- Hx. assert (length (slice raw 30 34) = 4%nat) as Hs.
  { unfold slice, blen in *. rewrite length_take, length_drop. lia. }
  assert (is_bytes (slice raw 30 34)) as Hsb by (apply Forall_take, Forall_drop; exact Hraw).
  rewrite <- Hs at 1. rewrite to_from_le_bytes by done. unfold slice. change (Z.to_nat (30 - 0)) with 30%nat. change (Z.to_nat 0) with 0%nat.
  change (Z.to_nat (34 - 30)) with 4%nat. change (Z.to_nat 30) with 30%nat. rewrite drop_0, <- app_assoc.
  rewrite <- (take_drop 30 raw) at 1. f_equal. rewrite <- (take_drop 4 (drop 30 raw)) at 1. f_equal. by rewrite drop_drop.
Qed.

(** C25: an altered block is detected. Change any bytes of an encoded block, header,
    checksums or data, keeping its length: [decode] and [validate_checksum] both answer
    an error, unless the change meets a hash value: the other first 30 bytes of the
    header have the 32-bit hash that is stored after them, or the header is as it was
    and the other data has the 128-bit hash of the data it replaces. *)
Theorem decode_detects_corruption es c bt r raw raw' :
  encode_with_restart_interval es c bt r = Ok raw -> blen (entries_bytes es r) < 2 ^ 32 -> blen raw < 2 ^ 32 ->
  is_bytes raw' -> blen raw' = blen raw -> raw' <> raw ->
  (exists e e', decode raw' = Err e /\ validate_checksum raw' = Err e') \/
  (slice raw' 0 30 <> slice raw 0 30 /\ xxh3_32 (slice raw' 0 30) = from_le_bytes (slice raw' 30 34)) \/
  (exists data, raw' = take 34 raw ++ data /\ data <> drop 34 raw /\ xxh3_128 data = xxh3_128 (drop 34 raw)).
Proof.
  intros (comp & Hc & ->)%encode_block_inv Hl Hr Hbytes Hlen Hne. pose proof (blen_nonneg comp). pose proof (blen_nonneg (entries_bytes es r)).
  rewrite blen_app, blen_header in Hr, Hlen. unfold HEADER_SIZE in *. set (n := blen (entries_bytes es r)) in *. set (body := encode_header_body bt c comp n).
  pose proof (blen_header_body bt c comp n) as Hb. fold body in Hb. change (encode_header bt c comp n) with (body ++ to_le_bytes 4 (xxh3_32 body)) in *.
  assert (slice ((body ++ to_le_bytes 4 (xxh3_32 body)) ++ comp) 0 30 = body) as Hbody.
  { rewrite <- app_assoc. apply (slice_app [] body); rewrite ?Hb; done. }
  rewrite Hbody. destruct (Z.eq_dec (from_le_bytes (slice raw' 30 34)) (xxh3_32 (slice raw' 0 30))) as [Hx | Hx].
  2:{ left. unfold decode, validate_checksum, decode_header, HEADER_SIZE. destruct (Z.ltb_spec (blen raw') 34); [lia|].
      destruct (negb (beqb _ _)); [by eexists _, _|]. rewrite (proj2 (Z.eqb_neq _ _)) by done. by eexists _, _. }
  destruct (decide (slice raw' 0 30 = body)) as [Eb | Eb]; [|right; left; by split]. rewrite Eb in Hx.
  pose proof (header_same body raw' Hb Hbytes ltac:(lia) Eb Hx) as Eraw. set (data := drop 34 raw') in *.
  assert (length (body ++ to_le_bytes 4 (xxh3_32 body)) = 34%nat) as Hh by (rewrite length_app, length_to_le_bytes; unfold blen in Hb; lia).
  assert (data <> comp) as Hd by (intros E; apply Hne; by rewrite Eraw, E).
  assert (blen data = blen comp) as Hdl by (rewrite Eraw in Hlen; rewrite blen_app in Hlen; unfold blen in *; lia).
  destruct (decode_payload bt c comp n data []) as [Hdec Hval]; [split; lia|split; lia|done|]. rewrite app_nil_r in Hdec, Hval.
  change (encode_header bt c comp n) with (body ++ to_le_bytes 4 (xxh3_32 body)) in Hdec, Hval. rewrite <- Eraw in Hdec, Hval.
  destruct (Z.eqb_spec (xxh3_128 data) (xxh3_128 comp)) as [E | E]; [|left; by eexists _, _].
  right. right. exists data. rewrite <- Hh, take_app_length, drop_app_length. by split.
Qed.

End blocks.

(** Concrete hash functions and codecs, for the witnesses. *)
Definition sample_xxh3 : Xxh3.
Proof.
  refine {| xxh3_128 b := from_le_bytes b mod 2 ^ 128; xxh3_64 b := from_le_bytes b mod 2 ^ 64 |};
    intros; apply Z.mod_pos_bound; lia.
Defined.

Definition sample_codecs : Codecs.
Proof.
  refine {| lz4_compress d := 7 :: d;
            lz4_decompress d := match d with 7 :: d' => Some d' | _ => None end;
            zstd_compress l d := l :: rev d;
            zstd_decompress d n := match d with _ :: d' => Some (rev d') | _ => None end |};
    intros; [done|by rewrite rev_involutive].
Defined.

Definition sample_entries : list Entry :=
  [mkEntry [97; 98] [1; 2] 9 Value; mkEntry [97; 98] [3] 4 Value;
   mkEntry [97; 99] [] 7 Tombstone; mkEntry [98] [5] 2 Value].

Lemma sample_entries_wf : Forall Entry_wf sample_entries.
Proof.
  unfold sample_entries.
  repeat constructor; simpl; unfold is_uint; try lia; repeat constructor; lia.
Qed.

Lemma decode_encode_witness :
  exists raw, encode_with_restart_interval (XH := sample_xxh3) (CD := sample_codecs)
    sample_entries (Zstd 3) Data 2 = Ok raw /\
  decode (XH := sample_xxh3) (CD := sample_codecs) (raw ++ [1; 2; 3]) = Ok sample_entries.
Proof.
  destruct (decode_encode (XH := sample_xxh3) (CD := sample_codecs)
    sample_entries (Zstd 3) Data 2 [1; 2; 3] sample_entries_wf) as (raw & Hraw & H); [discriminate|right; lia|].
  exists raw. split; [exact Hraw|]. refine (proj1 (H _ _)); [vm_compute; reflexivity|].
  vm_compute in Hraw. injection Hraw as <-. vm_compute. reflexivity.
Defined.

(** Another checksum of the header, and other data. *)
Lemma decode_detects_corruption_witness :
  exists raw, encode_with_restart_interval (XH := sample_xxh3) (CD := sample_codecs) sample_entries Lz4 Data 2 = Ok raw /\
    (exists e, decode (XH := sample_xxh3) (CD := sample_codecs) (<[30%nat := 0]> raw) = Err e) /\
    (exists e, decode (XH := sample_xxh3) (CD := sample_codecs) (<[36%nat := 9]> raw) = Err e).
Proof.
  eexists. split; [vm_compute; reflexivity|]. split.
  - match goal with |- exists e, decode ?r = _ =>
      destruct (decode_detects_corruption (XH := sample_xxh3) (CD := sample_codecs) sample_entries Lz4 Data 2 _ r eq_refl) as [(e & e' & He & _) | [[H _] | (data & E & _ & H)]] end;
      [vm_compute; reflexivity|vm_compute; reflexivity|apply (bool_decide_unpack _); vm_compute; exact I|vm_compute; reflexivity|vm_compute; discriminate|by exists e| |].
    + exfalso. apply H. vm_compute. reflexivity.
    + exfalso. vm_compute in E. discriminate E.
  - match goal with |- exists e, decode ?r = _ =>
      destruct (decode_detects_corruption (XH := sample_xxh3) (CD := sample_codecs) sample_entries Lz4 Data 2 _ r eq_refl) as [(e & e' & He & _) | [[H _] | (data & E & _ & H)]] end;
      [vm_compute; reflexivity|vm_compute; reflexivity|apply (bool_decide_unpack _); vm_compute; exact I|vm_compute; reflexivity|vm_compute; discriminate|by exists e| |].
    + exfalso. apply H. vm_compute. reflexivity.
    + exfalso. vm_compute in E. injection E as <-. vm_compute in H. discriminate H.
Defined.

(** ** Point reads *)

Lemma point_read_scan_first_visible es k s :
  sorted es -> (forall e, e ∈ es -> (k <= key e)%bytes) ->
  point_read_scan es k s = first_visible es k s.
Proof.
  intros Hs. induction Hs as [|a es Hs IH Ha]; intros Hk; [done|]. simpl.
  destruct (beqb (key a) k) eqn:E; simpl.
  - case_match; [done|]. apply IH. intros e He. apply Hk. by right.
  - symmetry. apply first_visible_None. intros e He Hke.
    rewrite Forall_forall in Ha. specialize (Ha e He). apply entry_le_key in Ha.
    specialize (Hk a ltac:(by left)). border.
Qed.

Lemma first_visible_app es1 es2 k s :
  first_visible (es1 ++ es2) k s =
  match first_visible es1 k s with Some e => Some e | None => first_visible es2 k s end.
Proof. induction es1 as [|a es1 IH]; simpl; [done|]. by destruct (beqb (key a) k && (seqno a <=? s)). Qed.

Lemma sorted_lookup es (i j : nat) a b :
  sorted es -> (i < j)%nat -> es !! i = Some a -> es !! j = Some b -> entry_le a b.
Proof. intros. by eapply (StronglySorted_lookup entry_le es i j). Qed.

Lemma sorted_drop n es : sorted es -> sorted (drop n es).
Proof.
  intros Hs. rewrite <- (take_drop n es) in Hs. by apply StronglySorted_app_1_r in Hs.
Qed.

Lemma point_read_first_visible es k s : sorted es -> point_read es k s = first_visible es k s.
Proof.
  intros Hs. unfold point_read.
  destruct (partition_point_spec (fun e => bltb (key e) k) es) as (Hp & Hlt & Hge).
  { intros i j x y Hij Hx Hy Hb. pose proof (sorted_lookup _ _ _ _ _ Hs Hij Hx Hy) as Hle.
    apply entry_le_key in Hle. border. }
  set (p := partition_point _ es) in *. rewrite point_read_scan_first_visible.
  - rewrite <- (take_drop p es) at 2. rewrite first_visible_app.
    replace (first_visible (take p es) k s) with (@None Entry); [done|].
    symmetry. apply first_visible_None. intros e [i Hi]%list_elem_of_lookup Hk.
    apply lookup_take_Some in Hi as [Hi Hip]. specialize (Hlt i e Hip Hi). border.
  - by apply sorted_drop.
  - intros e [i Hi]%list_elem_of_lookup. rewrite lookup_drop in Hi.
    specialize (Hge (p + i)%nat e ltac:(lia) Hi). border.
Qed.

(** The in-block point read returns the newest version the snapshot may
    see: on a block in internal-key order its binary search and scan find what
    a search of the whole block would. *)
Theorem point_read_newest es k s :
  sorted es ->
  point_read es k s = first_visible es k s /\ newest s k es (point_read es k s).
Proof.
  intros Hs. rewrite point_read_first_visible by done. split; [done|]. by apply first_visible_newest.
Qed.

Lemma sample_entries_sorted : sorted sample_entries.
Proof. unfold sample_entries. repeat constructor; vm_compute; discriminate. Qed.

Lemma point_read_newest_witness :
  point_read sample_entries [97; 98] 5 = first_visible sample_entries [97; 98] 5 /\
  point_read sample_entries [97; 98] 5 = Some (mkEntry [97; 98] [3] 4 Value).
Proof.
  split; [|vm_compute; reflexivity].
  exact (proj1 (point_read_newest sample_entries [97; 98] 5 sample_entries_sorted)).
Defined.
