(* ===== verification/JournalEntry.v ===== *)
(** * WAL batches (turba-engine/src/journal/entry.rs)

    The byte format of a journal batch (Start, Items, End with checksum), its
    parser, and the loop that decodes a segment up to its first invalid
    batch. *)

From S2P Require Import Prelude Types Block.

Definition TAG_START : Z := 1.
Definition TAG_ITEM : Z := 2.
Definition TAG_END : Z := 3.

Record BatchItem := mkBatchItem {
  bi_keyspace_id : Z;
  bi_key : bytes;
  bi_value : bytes;
  bi_value_type : ValueType;
}.

Record RecoveredBatch := mkBatch {
  rb_seqno : SeqNo;
  rb_items : list BatchItem;
}.

Section journal.
Context {XH : Xxh3}.

(** The bytes one round of the item loop of [encode_batch] appends. *)
Definition encode_item (item : BatchItem) : bytes :=
  [TAG_ITEM; bi_keyspace_id item] ++
  to_le_bytes 4 (wrap32 (blen (bi_key item))) ++ bi_key item ++
  to_le_bytes 4 (wrap32 (blen (bi_value item))) ++ bi_value item ++
  [ValueType_to_u8 (bi_value_type item)].

(** The buffer of [encode_batch] before the End record. *)
Definition encode_payload (seqno : SeqNo) (items : list BatchItem) : bytes :=
  [TAG_START] ++ to_le_bytes 4 (wrap32 (blen items)) ++ to_le_bytes 8 seqno ++
  (items ≫= encode_item).

Definition encode_batch (seqno : SeqNo) (items : list BatchItem) : bytes :=
  let buf := encode_payload seqno items in
  let checksum := xxh3_128 buf in
  buf ++ [TAG_END] ++ to_le_bytes 16 checksum.

(** [data[pos] == tag], with the [pos >= data.len()] test before it. *)
Definition has_tag (data : bytes) (pos tag : Z) : bool :=
  match byte_at data pos with Some b => b =? tag | None => false end.

(** One round of the item loop of [parse_one_batch]. *)
Definition parse_item (data : bytes) (pos : Z) : option (BatchItem * Z) :=
  if negb (has_tag data pos TAG_ITEM) then None else
  let pos := pos + 1 in
  keyspace_id ← byte_at data pos;
  let pos := pos + 1 in
  if blen data <? pos + 4 then None else
  let key_len := from_le_bytes (slice data pos (pos + 4)) in
  let pos := pos + 4 in
  if blen data <? pos + key_len then None else
  let k := slice data pos (pos + key_len) in
  let pos := pos + key_len in
  if blen data <? pos + 4 then None else
  let value_len := from_le_bytes (slice data pos (pos + 4)) in
  let pos := pos + 4 in
  if blen data <? pos + value_len then None else
  let v := slice data pos (pos + value_len) in
  let pos := pos + value_len in
  vt_byte ← byte_at data pos;
  vt ← ValueType_from_u8 vt_byte;
  Some (mkBatchItem keyspace_id k v vt, pos + 1).

(** [for _ in 0..item_count] *)
Fixpoint parse_items (item_count : nat) (data : bytes) (pos : Z) : option (list BatchItem * Z) :=
  match item_count with
  | O => Some ([], pos)
  | S n =>
    '(item, pos) ← parse_item data pos;
    '(items, pos) ← parse_items n data pos;
    Some (item :: items, pos)
  end.

(** The batch at [pos] and the position after it. *)
Definition parse_one_batch (data : bytes) (pos : Z) : option (RecoveredBatch * Z) :=
  let start_pos := pos in
  if negb (has_tag data pos TAG_START) then None else
  let pos := pos + 1 in
  if blen data <? pos + 12 then None else
  let item_count := from_le_bytes (slice data pos (pos + 4)) in
  let pos := pos + 4 in
  let sq := from_le_bytes (slice data pos (pos + 8)) in
  let pos := pos + 8 in
  '(items, pos) ← parse_items (Z.to_nat item_count) data pos;
  if negb (has_tag data pos TAG_END) then None else
  let pos := pos + 1 in
  if blen data <? pos + 16 then None else
  let stored_checksum := from_le_bytes (slice data pos (pos + 16)) in
  let pos := pos + 16 in
  let payload := slice data start_pos (pos - 17) in
  let computed := xxh3_128 payload in
  if negb (stored_checksum =? computed) then None else
  Some (mkBatch sq items, pos).

(** The [while pos < data.len()] loop of [decode_batches]; every round moves
    the position forward. *)
Fixpoint decode_batches_loop (fuel : nat) (data : bytes) (pos : Z) : list RecoveredBatch :=
  match fuel with
  | O => []
  | S fuel' =>
    if blen data <=? pos then []
    else match parse_one_batch data pos with
         | Some (batch, pos) => batch :: decode_batches_loop fuel' data pos
         | None => []
         end
  end.

Definition decode_batches (data : bytes) : list RecoveredBatch :=
  decode_batches_loop (length data) data 0.

End journal.

(** * Lemmas *)

(** What the Rust types and the [u32] length fields allow. *)
Definition item_ok (it : BatchItem) : Prop :=
  is_uint 8 (bi_keyspace_id it) /\ is_uint 32 (blen (bi_key it)) /\ is_uint 32 (blen (bi_value it)) /\
  is_bytes (bi_key it) /\ is_bytes (bi_value it).

Definition batch_ok (b : RecoveredBatch) : Prop :=
  is_uint 64 (rb_seqno b) /\ is_uint 32 (blen (rb_items b)) /\ Forall item_ok (rb_items b).

Section journal_lemmas.
Context {XH : Xxh3}.

Abbreviation enc b := (encode_batch (rb_seqno b) (rb_items b)).

Lemma has_tag_at data pos tag rest : at_pos data pos (tag :: rest) -> has_tag data pos tag = true.
Proof. intros [H _]%at_pos_byte. unfold has_tag. rewrite H. apply Z.eqb_refl. Qed.

(** ** The parser reads what was written *)

Lemma parse_item_at data pos it rest :
  item_ok it -> at_pos data pos (encode_item it ++ rest) ->
  parse_item data pos = Some (it, pos + blen (encode_item it)) /\
  at_pos data (pos + blen (encode_item it)) rest.
Proof.
  intros (Hk & Hkl & Hvl & _) Hat. split; [|by apply at_pos_app in Hat as (_ & _ & ?)].
  unfold encode_item in *. rewrite !wrap_small in * by done. rewrite <- !app_assoc in Hat.
  unfold parse_item. rewrite (has_tag_at _ _ _ _ Hat). simpl negb. cbv iota zeta.
  apply at_pos_byte in Hat as [_ Hat]. apply at_pos_byte in Hat as [-> Hat]. cbn [mbind option_bind app] in *.
  pose proof (at_pos_bound _ _ _ Hat) as [_ Hb]. rewrite !blen_app, !blen_to_le_bytes in Hb.
  repeat match type of Hb with context [blen ?l] => lazymatch goal with
    | H : 0 <= blen l |- _ => fail | _ => pose proof (blen_nonneg l) end end.
  apply (at_pos_le 4) in Hat as [Hl1 Hat]; [|done]. zlit.
  rewrite Hl1. apply at_pos_app in Hat as (Hk1 & _ & Hat).
  apply (at_pos_le 4) in Hat as [Hl2 Hat]; [|done]. zlit.
  rewrite Hk1, Hl2. apply at_pos_app in Hat as (Hv1 & _ & Hat). rewrite Hv1.
  apply at_pos_byte in Hat as [-> Hat]. cbn [mbind option_bind]. rewrite ValueType_roundtrip. cbn [mbind option_bind].
  repeat (match goal with |- context [?a <? ?b] => destruct (Z.ltb_spec a b) end; [lia|]).
  f_equal. f_equal; [by destruct it|].
  autorewrite with blen. rewrite !blen_to_le_bytes. lia.
Qed.

Lemma parse_items_at data pos its rest :
  Forall item_ok its -> at_pos data pos ((its ≫= encode_item) ++ rest) ->
  parse_items (length its) data pos = Some (its, pos + blen (its ≫= encode_item)) /\
  at_pos data (pos + blen (its ≫= encode_item)) rest.
Proof.
  intros Hok. revert pos; induction Hok as [|it its Hit _ IH]; intros pos Hat; cbn [mbind list_bind length parse_items] in *.
  - rewrite blen_nil, Z.add_0_r. done.
  - rewrite <- app_assoc in Hat. apply parse_item_at in Hat as [-> Hat]; [|done]. cbn [mbind option_bind].
    apply IH in Hat as [-> Hat]. cbn [mbind option_bind]. rewrite blen_app, Z.add_assoc. done.
Qed.

Lemma blen_payload sq its : 13 <= blen (encode_payload sq its).
Proof.
  unfold encode_payload. rewrite !blen_app, !blen_to_le_bytes.
  pose proof (blen_nonneg (its ≫= encode_item)). change (blen [TAG_START]) with 1. lia.
Qed.

Lemma blen_encode_batch sq its : blen (encode_batch sq its) = blen (encode_payload sq its) + 17.
Proof. unfold encode_batch. cbv zeta. rewrite !blen_app, blen_to_le_bytes. change (blen [TAG_END]) with 1. lia. Qed.

Lemma parse_one_batch_at data pos b rest :
  batch_ok b -> at_pos data pos (enc b ++ rest) ->
  parse_one_batch data pos = Some (b, pos + blen (enc b)) /\ at_pos data (pos + blen (enc b)) rest.
Proof.
  intros (Hs & Hn & Hits) Hat. split; [|by apply at_pos_app in Hat as (_ & _ & ?)].
  rewrite blen_encode_batch. unfold encode_batch in Hat. cbv zeta in Hat. rewrite <- !app_assoc in Hat.
  pose proof (at_pos_bound _ _ _ Hat) as [Hp0 Hb]. rewrite !blen_app, blen_to_le_bytes in Hb.
  pose proof (blen_payload (rb_seqno b) (rb_items b)). pose proof (blen_nonneg rest).
  change (blen [TAG_END]) with 1 in Hb.
  pose proof (at_pos_app _ _ _ _ Hat) as (Hpay & _ & _).
  set (payload := encode_payload _ _) in *.
  unfold payload at 1, encode_payload in Hat. rewrite wrap_small in Hat by done. rewrite <- !app_assoc in Hat.
  assert (blen payload = 13 + blen (rb_items b ≫= encode_item)) as Hpl.
  { unfold payload, encode_payload. rewrite !blen_app, !blen_to_le_bytes. change (blen [TAG_START]) with 1. lia. }
  unfold parse_one_batch. rewrite (has_tag_at _ _ _ _ Hat). simpl negb. cbv iota zeta.
  apply at_pos_byte in Hat as [_ Hat]. cbn [app] in Hat.
  apply (at_pos_le 4) in Hat as [Hl1 Hat]; [|done]. zlit.
  apply (at_pos_le 8) in Hat as [Hl2 Hat]; [|done]. zlit.
  rewrite Hl1, Hl2, blen_to_nat.
  apply parse_items_at in Hat as [-> Hat]; [|done]. cbn [mbind option_bind].
  rewrite (has_tag_at _ _ _ _ Hat). simpl negb. cbv iota.
  apply at_pos_byte in Hat as [_ Hat].
  apply (at_pos_le 16) in Hat as [Hl3 Hat]; [|apply xxh3_128_range]. zlit. rewrite Hl3.
  repeat (match goal with |- context [?a <? ?b] => destruct (Z.ltb_spec a b) end; [lia|]).
  match goal with |- context [slice data pos ?q] => replace q with (pos + blen payload) by lia end.
  rewrite Hpay, Z.eqb_refl. simpl negb. cbv iota. f_equal. f_equal; [by destruct b|lia].
Qed.

(** ** What the parser accepts was written by the encoder *)

Lemma has_tag_inv data pos tag rest :
  at_pos data pos rest -> has_tag data pos tag = true ->
  exists rest', rest = tag :: rest' /\ at_pos data (pos + 1) rest'.
Proof.
  intros Hat. unfold has_tag. destruct (byte_at data pos) eqn:E; [|done]. intros <-%Z.eqb_eq.
  by eapply at_pos_byte_inv.
Qed.

Lemma parse_item_inv data pos rest it pos' :
  is_bytes data -> at_pos data pos rest -> parse_item data pos = Some (it, pos') ->
  item_ok it /\ exists rest', rest = encode_item it ++ rest' /\ at_pos data pos' rest'.
Proof.
  intros Hd Hat H. unfold parse_item in H.
  destruct (has_tag data pos TAG_ITEM) eqn:Et; simpl negb in H; [|done]. cbv iota zeta in H.
  destruct (has_tag_inv _ _ _ _ Hat Et) as (r1 & -> & Hat1).
  destruct (byte_at data (pos + 1)) as [ks|] eqn:Ek; [|done]. cbn [mbind option_bind] in H.
  destruct (at_pos_byte_inv _ _ _ _ Hat1 Ek) as (r2 & -> & Hat2).
  destruct (Z.ltb_spec (blen data) (pos + 1 + 1 + 4)); [done|].
  destruct (at_pos_le_read 4 _ _ _ Hd Hat2) as (r3 & -> & Hat3 & Hkl); [lia|].
  zlit. set (kl := from_le_bytes (slice data (pos + 1 + 1) (pos + 1 + 1 + 4))) in *.
  destruct (Z.ltb_spec (blen data) (pos + 1 + 1 + 4 + kl)); [done|].
  destruct (at_pos_read _ _ _ kl Hat3) as (r4 & Hat3' & Hkb & Hat4); [apply Hkl|lia|].
  apply (at_pos_inj _ _ _ _ Hat3) in Hat3'. subst r3.
  set (k := slice data _ (pos + 1 + 1 + 4 + kl)) in *.
  destruct (Z.ltb_spec (blen data) (pos + 1 + 1 + 4 + kl + 4)); [done|].
  destruct (at_pos_le_read 4 _ _ _ Hd Hat4) as (r5 & -> & Hat5 & Hvl); [lia|].
  zlit. set (vl := from_le_bytes (slice data (pos + 1 + 1 + 4 + kl) _)) in *.
  destruct (Z.ltb_spec (blen data) (pos + 1 + 1 + 4 + kl + 4 + vl)); [done|].
  destruct (at_pos_read _ _ _ vl Hat5) as (r6 & Hat5' & Hvb & Hat6); [apply Hvl|lia|].
  apply (at_pos_inj _ _ _ _ Hat5) in Hat5'. subst r5.
  set (v := slice data _ (pos + 1 + 1 + 4 + kl + 4 + vl)) in *.
  destruct (byte_at data (pos + 1 + 1 + 4 + kl + 4 + vl)) as [tb|] eqn:Etb; [|done]. cbn [mbind option_bind] in H.
  destruct (at_pos_byte_inv _ _ _ _ Hat6 Etb) as (r7 & -> & Hat7).
  destruct (ValueType_from_u8 tb) as [vt|] eqn:Evt; [|done]. cbn [mbind option_bind] in H.
  assert (is_uint 8 ks) as Hks.
  { apply (at_pos_is_bytes _ _ _ Hd) in Hat1. apply Forall_cons in Hat1 as [? _]. done. }
  assert (tb = ValueType_to_u8 vt) as ->.
  { revert Evt. unfold ValueType_from_u8. destruct (Z.eqb_spec tb 0), (Z.eqb_spec tb 1); intros; by simplify_eq. }
  injection H as <- <-. split.
  - apply (at_pos_is_bytes _ _ _ Hd) in Hat3, Hat5. apply Forall_app in Hat3 as [? _], Hat5 as [? _].
    unfold item_ok; cbn. by rewrite Hkb, Hvb.
  - exists r7. split; [|done]. unfold encode_item; cbn [bi_key bi_value bi_keyspace_id bi_value_type].
    rewrite Hkb, Hvb, !wrap_small by done. cbn [app]. by rewrite <- !app_assoc.
Qed.

Lemma parse_items_inv n data pos rest its pos' :
  is_bytes data -> at_pos data pos rest -> parse_items n data pos = Some (its, pos') ->
  length its = n /\ Forall item_ok its /\
  exists rest', rest = (its ≫= encode_item) ++ rest' /\ at_pos data pos' rest'.
Proof.
  intros Hd. revert pos rest its; induction n as [|n IH]; intros pos rest its Hat; cbn [parse_items].
  - intros [= <- <-]. split; [done|]. split; [done|]. eauto.
  - destruct (parse_item data pos) as [[it p1]|] eqn:E1; [|done]. cbn [mbind option_bind].
    destruct (parse_items n data p1) as [[its' p2]|] eqn:E2; [|done]. cbn [mbind option_bind].
    intros [= <- <-]. destruct (parse_item_inv _ _ _ _ _ Hd Hat E1) as (Hit & r1 & -> & Hat1).
    destruct (IH _ _ _ Hat1 E2) as (<- & Hits & r2 & -> & Hat2).
    split; [done|]. split; [by constructor|]. exists r2. cbn [mbind list_bind]. by rewrite <- app_assoc.
Qed.

Lemma parse_one_batch_inv data pos rest b pos' :
  is_bytes data -> at_pos data pos rest -> parse_one_batch data pos = Some (b, pos') ->
  batch_ok b /\ exists rest', rest = enc b ++ rest' /\ at_pos data pos' rest' /\ pos < pos'.
Proof.
  intros Hd Hat H. unfold parse_one_batch in H.
  destruct (has_tag data pos TAG_START) eqn:Et; simpl negb in H; [|done]. cbv iota zeta in H.
  destruct (has_tag_inv _ _ _ _ Hat Et) as (r1 & -> & Hat1).
  destruct (Z.ltb_spec (blen data) (pos + 1 + 12)); [done|].
  destruct (at_pos_le_read 4 _ _ _ Hd Hat1) as (r2 & -> & Hat2 & Hn); [lia|]. zlit.
  destruct (at_pos_le_read 8 _ _ _ Hd Hat2) as (r3 & -> & Hat3 & Hs); [lia|]. zlit.
  set (n := from_le_bytes (slice data (pos + 1) (pos + 1 + 4))) in *.
  set (sq := from_le_bytes (slice data (pos + 1 + 4) _)) in *.
  destruct (parse_items (Z.to_nat n) data (pos + 1 + 4 + 8)) as [[its p1]|] eqn:E1; [|done].
  cbn [mbind option_bind] in H.
  destruct (parse_items_inv _ _ _ _ _ _ Hd Hat3 E1) as (Hlen & Hits & r4 & -> & Hat4).
  destruct (has_tag data p1 TAG_END) eqn:Ee; simpl negb in H; [|done]. cbv iota in H.
  destruct (has_tag_inv _ _ _ _ Hat4 Ee) as (r5 & -> & Hat5).
  destruct (Z.ltb_spec (blen data) (p1 + 1 + 16)); [done|].
  destruct (at_pos_le_read 16 _ _ _ Hd Hat5) as (r6 & -> & Hat6 & Hc); [lia|]. zlit.
  destruct (Z.eqb_spec (from_le_bytes (slice data (p1 + 1) (p1 + 1 + 16)))
    (xxh3_128 (slice data pos (p1 + 1 + 16 - 17)))) as [Hx|]; simpl negb in H; [|done].
  injection H as <- <-.
  assert (blen its = n) as Hbl by (unfold blen; destruct Hn; lia).
  assert (TAG_START :: to_le_bytes 4 n ++ to_le_bytes 8 sq ++ (its ≫= encode_item) ++
    TAG_END :: to_le_bytes 16 (from_le_bytes (slice data (p1 + 1) (p1 + 1 + 16))) ++ r6 =
    encode_payload sq its ++ TAG_END :: to_le_bytes 16 (from_le_bytes (slice data (p1 + 1) (p1 + 1 + 16))) ++ r6) as Heq.
  { unfold encode_payload. rewrite Hbl, wrap_small by done. cbn [app]. by rewrite <- !app_assoc. }
  rewrite Heq in *.
  assert (slice data pos (p1 + 1 + 16 - 17) = encode_payload sq its) as Hpay.
  { pose proof (at_pos_app _ _ _ _ Hat) as (Hp & _ & Hat').
    apply at_pos_bound in Hat' as [_ Hq]. apply at_pos_bound in Hat4 as [_ Hq'].
    etransitivity; [|exact Hp]. f_equal. lia. }
  rewrite Hpay in Hx. split.
  - unfold batch_ok. cbn. by rewrite Hbl.
  - exists r6. cbn [rb_seqno rb_items]. unfold encode_batch. cbv zeta. rewrite <- Hx, <- !app_assoc.
    split; [done|]. split; [done|]. apply at_pos_bound in Hat as [_ Hq]. apply at_pos_bound in Hat6 as [_ Hq'].
    rewrite !blen_app, blen_cons, !blen_app, blen_to_le_bytes in Hq. pose proof (blen_payload sq its). lia.
Qed.

(** ** Segments *)

Lemma encode_item_is_bytes it : item_ok it -> is_bytes (encode_item it).
Proof.
  intros (Hk & _ & _ & ? & ?). unfold encode_item, is_bytes.
  rewrite !Forall_app, Forall_cons, !Forall_singleton. unfold TAG_ITEM.
  repeat (split; try (lia || done || apply to_le_bytes_is_bytes)); destruct (bi_value_type it); simpl; try lia.
Qed.

Lemma encode_batch_is_bytes b : batch_ok b -> is_bytes (enc b).
Proof.
  intros (_ & _ & Hits). unfold encode_batch, encode_payload, is_bytes. cbv zeta.
  rewrite !Forall_app, !Forall_singleton. unfold TAG_START, TAG_END.
  repeat (split; try (lia || apply to_le_bytes_is_bytes)).
  apply Forall_bind. eapply Forall_impl; [done|]. apply encode_item_is_bytes.
Qed.

Lemma enc_inj b b' r r' : batch_ok b -> batch_ok b' -> enc b ++ r = enc b' ++ r' -> b = b' /\ r = r'.
Proof.
  intros Hb Hb' Heq. pose proof (at_pos_0 (enc b ++ r)) as H. pose proof (at_pos_0 (enc b' ++ r')) as H'.
  rewrite <- Heq in H' at 1. apply parse_one_batch_at in H as [E H], H' as [E' H']; [|done..].
  rewrite E in E'. injection E' as -> E'. split; [done|]. by eapply at_pos_inj.
Qed.

(** The loop, from a cursor: it returns the batches of the longest run of
    valid batches there. *)
Lemma decode_batches_loop_spec fuel data pos rest :
  is_bytes data -> at_pos data pos rest -> (length rest <= fuel)%nat ->
  let bs := decode_batches_loop fuel data pos in
  Forall batch_ok bs /\ exists tail, rest = (bs ≫= (fun b => enc b)) ++ tail /\
    (forall b r, batch_ok b -> tail <> enc b ++ r).
Proof.
  intros Hd. revert pos rest; induction fuel as [|fuel IH]; intros pos rest Hat Hf; cbn [decode_batches_loop].
  - destruct rest; [|simpl in Hf; lia]. split; [done|]. exists []. split; [done|].
    intros b r _ H. apply (f_equal blen) in H. rewrite blen_app, blen_encode_batch in H.
    pose proof (blen_payload (rb_seqno b) (rb_items b)). pose proof (blen_nonneg r). rewrite blen_nil in H. lia.
  - pose proof (at_pos_bound _ _ _ Hat) as [_ Hl]. destruct (Z.leb_spec (blen data) pos).
    { split; [done|]. exists rest. split; [done|]. intros b r _ ->. rewrite blen_app, blen_encode_batch in Hl.
      pose proof (blen_payload (rb_seqno b) (rb_items b)). pose proof (blen_nonneg r). lia. }
    destruct (parse_one_batch data pos) as [[b pos']|] eqn:E.
    + destruct (parse_one_batch_inv _ _ _ _ _ Hd Hat E) as (Hb & r & -> & Hat' & Hlt).
      destruct (IH pos' r Hat') as (Hbs & tail & -> & Ht).
      { rewrite length_app in Hf. pose proof (blen_encode_batch (rb_seqno b) (rb_items b)).
        pose proof (blen_payload (rb_seqno b) (rb_items b)). unfold blen in *. lia. }
      split; [by constructor|]. exists tail. cbn [mbind list_bind]. by rewrite <- app_assoc.
    + split; [done|]. exists rest. split; [done|]. intros b r Hb ->.
      apply parse_one_batch_at in Hat as [? _]; [congruence|done].
Qed.

(** A stream of batches followed by something that starts no valid batch
    decomposes in one way. *)
Lemma stream_unique bs bs' t t' :
  Forall batch_ok bs -> Forall batch_ok bs' ->
  (forall b r, batch_ok b -> t <> enc b ++ r) -> (forall b r, batch_ok b -> t' <> enc b ++ r) ->
  (bs ≫= (fun b => enc b)) ++ t = (bs' ≫= (fun b => enc b)) ++ t' -> bs = bs' /\ t = t'.
Proof.
  intros Hbs. revert bs'; induction Hbs as [|b bs Hb _ IH]; intros bs' Hbs' Ht Ht' Heq;
    destruct Hbs' as [|b' bs' Hb' Hbs']; cbn [mbind list_bind] in Heq; rewrite <- ?app_assoc in Heq.
  - done.
  - by destruct (Ht b' ((bs' ≫= (fun b => enc b)) ++ t') Hb').
  - by destruct (Ht' b ((bs ≫= (fun b => enc b)) ++ t) Hb).
  - apply enc_inj in Heq as [-> Heq]; [|done..]. by destruct (IH bs' Hbs' Ht Ht' Heq) as [-> ->].
Qed.

(** Decoding a segment is exact, on any bytes. What [decode_batches]
    returns is a run of well-formed batches whose encodings are a prefix of the
    segment, and what follows that prefix does not start with the encoding of
    any batch: nothing is invented and no valid batch at the front is lost. *)
Theorem decode_batches_exact data :
  is_bytes data ->
  Forall batch_ok (decode_batches data) /\
  exists tail, data = (decode_batches data ≫= (fun b => enc b)) ++ tail /\
    (forall b r, batch_ok b -> tail <> enc b ++ r).
Proof. intros Hd. apply decode_batches_loop_spec; [done|apply at_pos_0|done]. Qed.

Lemma decode_batches_stream bs t :
  Forall batch_ok bs -> is_bytes t -> (forall b r, batch_ok b -> t <> enc b ++ r) ->
  decode_batches ((bs ≫= (fun b => enc b)) ++ t) = bs.
Proof.
  intros Hbs Htb Ht. set (data := _ ++ t).
  assert (is_bytes data) as Hd.
  { apply Forall_app. split; [|done]. apply Forall_bind. eapply Forall_impl; [done|]. apply encode_batch_is_bytes. }
  destruct (decode_batches_loop_spec (length data) data 0 data Hd (at_pos_0 _)) as (H1 & tail & H2 & H3); [lia|].
  symmetry. eapply (stream_unique bs _ t tail); done.
Qed.

Lemma torn_tail bs b t u :
  Forall batch_ok bs -> batch_ok b -> enc b = t ++ u -> u <> [] ->
  decode_batches ((bs ≫= (fun b => enc b)) ++ t) = bs.
Proof.
  intros Hbs Hb Heq Hu. apply decode_batches_stream; [done| |].
  - pose proof (encode_batch_is_bytes b Hb) as H. rewrite Heq in H. by apply Forall_app in H as [? _].
  - intros b' r Hb' ->. rewrite <- app_assoc, <- (app_nil_r (enc b)) in Heq.
    apply enc_inj in Heq as [_ Heq]; [|done..]. symmetry in Heq. by apply app_eq_nil in Heq as [_ ?].
Qed.

(** A torn tail loses only the batch it belongs to. After any run of
    complete batches, a strict prefix of one more batch (a write cut short by a
    crash, the empty prefix included) decodes to exactly the complete batches. *)
Theorem decode_batches_torn_tail bs b t u :
  Forall batch_ok bs -> batch_ok b -> enc b = t ++ u -> u <> [] ->
  decode_batches ((bs ≫= (fun b => enc b)) ++ t) = bs.
Proof. apply torn_tail. Qed.

End journal_lemmas.

Definition sample_batch1 := mkBatch 3 [mkBatchItem 0 [97] [1; 2] Value; mkBatchItem 1 [98; 99] [] Tombstone].
Definition sample_batch2 := mkBatch 4 [mkBatchItem 2 [] [255] Value].

Lemma sample_batches_ok : batch_ok sample_batch1 /\ batch_ok sample_batch2.
Proof.
  unfold batch_ok, item_ok, is_uint, is_bytes, blen. simpl.
  repeat first [lia | split | constructor]; cbn; lia.
Qed.

Lemma decode_batches_exact_witness :
  let data := encode_batch (XH := sample_xxh3) 3 (rb_items sample_batch1) ++ [1; 0; 0] in
  decode_batches (XH := sample_xxh3) data = [sample_batch1] /\
  exists tail, data = (decode_batches (XH := sample_xxh3) data ≫=
      (fun b => encode_batch (XH := sample_xxh3) (rb_seqno b) (rb_items b))) ++ tail.
Proof.
  intros data. split; [vm_compute; reflexivity|].
  destruct (decode_batches_exact (XH := sample_xxh3) data) as (_ & tail & H & _).
  { apply (bool_decide_unpack _). vm_compute. exact I. }
  exists tail. exact H.
Defined.

Lemma decode_batches_torn_tail_witness :
  decode_batches (XH := sample_xxh3)
    (([sample_batch1] ≫= (fun b => encode_batch (XH := sample_xxh3) (rb_seqno b) (rb_items b))) ++
      take 20 (encode_batch (XH := sample_xxh3) 4 (rb_items sample_batch2))) = [sample_batch1].
Proof.
  apply (decode_batches_torn_tail (XH := sample_xxh3) [sample_batch1] sample_batch2 _
    (drop 20 (encode_batch (XH := sample_xxh3) 4 (rb_items sample_batch2)))).
  - constructor; [apply sample_batches_ok|constructor].
  - apply sample_batches_ok.
  - symmetry. apply take_drop.
  - vm_compute. discriminate.
Defined.
