(* ===== verification/Bloom.v ===== *)
(** * Bloom filters and their sizing

    The [f64] operations the engine uses, and the filters of the tables
    (turba-engine/src/bloom.rs), whose size is computed with them. *)

From Corelib Require Import SpecFloat.
From S2P Require Import Prelude Block.

(** * The [f64] operations the engine uses

    IEEE 754 binary64 values and arithmetic are those of the standard library's
    [SpecFloat]; the casts are Rust's ([as] saturates and sends NaN to 0). *)

Abbreviation f64 := spec_float.

(** [n as f64] for an unsigned integer: rounded to nearest, ties to even. *)
Definition f64_of_uint (n : Z) : f64 := binary_normalize 53 1024 n 0 false.

(** The literal [m * 2^e]. *)
Definition f64_lit (m e : Z) : f64 := binary_normalize 53 1024 m e false.

(** [x * y] *)
Definition f64_mul (x y : f64) : f64 := SFmul 53 1024 x y.

(** [x / y] *)
Definition f64_div (x y : f64) : f64 := SFdiv 53 1024 x y.

(** [x >= y] *)
Definition f64_geb (x y : f64) : bool :=
  match SFcompare x y with Some Gt | Some Eq => true | _ => false end.

(** [x > y] *)
Definition f64_gtb (x y : f64) : bool :=
  match SFcompare x y with Some Gt => true | _ => false end.

Definition f64_zero : f64 := S754_zero false.

(** [x.max(y)]: a NaN gives way to the other operand. *)
Definition f64_max (x y : f64) : f64 :=
  match SFcompare x y with
  | Some Lt => y
  | Some _ => x
  | None => match x with S754_nan => y | _ => x end
  end.

Definition clampZ (lo hi z : Z) : Z := Z.max lo (Z.min hi z).

(** [m * 2^e] rounded down or up to an integer. *)
Definition floor_scaled (m e : Z) : Z := if 0 <=? e then m * 2 ^ e else m / 2 ^ (- e).
Definition ceil_scaled (m e : Z) : Z := if 0 <=? e then m * 2 ^ e else - ((- m) / 2 ^ (- e)).

(** [x as uW]: truncation toward zero, saturating, NaN to zero. *)
Definition f64_as_uint (w : Z) (x : f64) : Z :=
  match x with
  | S754_nan | S754_zero _ => 0
  | S754_infinity s => if s then 0 else 2 ^ w - 1
  | S754_finite s m e => if s then 0 else clampZ 0 (2 ^ w - 1) (floor_scaled (Zpos m) e)
  end.

(** [x.ceil() as uW] *)
Definition f64_ceil_as_uint (w : Z) (x : f64) : Z :=
  match x with
  | S754_nan | S754_zero _ => 0
  | S754_infinity s => if s then 0 else 2 ^ w - 1
  | S754_finite s m e => if s then 0 else clampZ 0 (2 ^ w - 1) (ceil_scaled (Zpos m) e)
  end.

(** * Lemmas *)

Lemma clampZ_range lo hi z : lo <= hi -> lo <= clampZ lo hi z <= hi.
Proof. unfold clampZ. lia. Qed.

Lemma f64_as_uint_range w x : 0 <= w -> is_uint w (f64_as_uint w x).
Proof.
  intros Hw. pose proof (Z.pow_pos_nonneg 2 w ltac:(lia) Hw). unfold f64_as_uint, is_uint.
  repeat case_match; try lia.
  match goal with |- context [clampZ ?a ?b ?c] => pose proof (clampZ_range a b c) end. lia.
Qed.

Lemma f64_ceil_as_uint_range w x : 0 <= w -> is_uint w (f64_ceil_as_uint w x).
Proof.
  intros Hw. pose proof (Z.pow_pos_nonneg 2 w ltac:(lia) Hw). unfold f64_ceil_as_uint, is_uint.
  repeat case_match; try lia.
  match goal with |- context [clampZ ?a ?b ?c] => pose proof (clampZ_range a b c) end. lia.
Qed.

(** * Bloom filters (turba-engine/src/bloom.rs)

    The builder, the on-disk form and the membership test, with double hashing
    over a [u64] key hash. *)

Section key_hash.
Context {XH : Xxh3}.

(** [key_hash]: the low half of XXH3-128. *)
Definition key_hash (key : bytes) : Z := wrap64 (xxh3_128 key).

End key_hash.

Record BloomBuilder := mkBloomBuilder {
  bb_bits_per_key : f64;
  bb_hashes : list Z;
}.

Definition BloomBuilder_new (bits_per_key : f64) : BloomBuilder := mkBloomBuilder bits_per_key [].

Definition BloomBuilder_insert (b : BloomBuilder) (hash : Z) : BloomBuilder :=
  mkBloomBuilder (bb_bits_per_key b) (bb_hashes b ++ [hash]).

(** [u64::rotate_left(32)] *)
Definition rotate_left_32 (h : Z) : Z := Z.lor (wrap64 (Z.shiftl h 32)) (Z.shiftr h 32).

(** The position of probe [i]. *)
Definition bit_pos (h num_bits i : Z) : Z :=
  wrap64 (h + wrap64 (i * rotate_left_32 h)) mod num_bits.

(** [bits[pos / 8] |= 1 << (pos % 8)] *)
Definition set_bit (bits : bytes) (pos : Z) : bytes :=
  alter (fun b => Z.lor b (Z.shiftl 1 (pos mod 8))) (Z.to_nat (pos / 8)) bits.

(** The inner loop of [finish]: probes [i .. i + n]. *)
Fixpoint set_probes (n : nat) (i h num_bits : Z) (bits : bytes) : bytes :=
  match n with
  | O => bits
  | S n' => set_probes n' (i + 1) h num_bits (set_bit bits (bit_pos h num_bits i))
  end.

(** [num_bits.div_ceil(8)] *)
Definition div_ceil8 (n : Z) : Z := (n + 7) / 8.

(** The probe count of [finish]; [0.693] is the binary64 literal. *)
Definition bloom_k (bits_per_key : f64) : Z :=
  clampZ 1 30 (f64_as_uint 8 (f64_mul bits_per_key (f64_lit 6241989083535507 (-53)))).

(** The bit count of [finish], before and after rounding to bytes. The cast of
    [num_bytes * 8] back to [u32] wraps. *)
Definition bloom_requested_bits (bits_per_key : f64) (n : Z) : Z :=
  Z.max (f64_ceil_as_uint 32 (f64_mul (f64_of_uint n) bits_per_key)) 64.

(** [finish]; a zero [num_bits] makes the [%] panic. *)
Definition BloomBuilder_finish (b : BloomBuilder) : Result bytes :=
  match bb_hashes b with
  | [] => Ok ([0] ++ to_le_bytes 4 0)
  | _ =>
    let num_bits := bloom_requested_bits (bb_bits_per_key b) (blen (bb_hashes b)) in
    let num_bytes := div_ceil8 num_bits in
    let num_bits := wrap32 (num_bytes * 8) in
    let k := bloom_k (bb_bits_per_key b) in
    if num_bits =? 0 then Panic else
    let bits := replicate (Z.to_nat num_bytes) 0 in
    let bits := fold_left (fun bits h => set_probes (Z.to_nat k) 0 h num_bits bits) (bb_hashes b) bits in
    Ok (bits ++ [k] ++ to_le_bytes 4 num_bits)
  end.

Record BloomFilter := mkBloomFilter {
  bf_bits : bytes;
  bf_k : Z;
  bf_num_bits : Z;
}.

Definition BloomFilter_from_bytes (data : bytes) : option BloomFilter :=
  if blen data <? 5 then None else
  let footer_start := blen data - 5 in
  k ← byte_at data footer_start;
  let num_bits := from_le_bytes (slice data (footer_start + 1) (blen data)) in
  if (num_bits =? 0) && (k =? 0) then Some (mkBloomFilter [] 0 0) else
  let expected_bytes := div_ceil8 num_bits in
  if negb (footer_start =? expected_bytes) then None else
  Some (mkBloomFilter (slice data 0 footer_start) k num_bits).

(** The probe loop of [maybe_contains], from probe [i]. *)
Fixpoint probes_set (n : nat) (i h num_bits : Z) (bits : bytes) : Result bool :=
  match n with
  | O => Ok true
  | S n' =>
    let p := bit_pos h num_bits i in
    match byte_at bits (p / 8) with
    | None => Panic
    | Some b => if Z.land b (Z.shiftl 1 (p mod 8)) =? 0 then Ok false
                else probes_set n' (i + 1) h num_bits bits
    end
  end.

Definition maybe_contains (f : BloomFilter) (hash : Z) : Result bool :=
  if bf_num_bits f =? 0 then Ok true
  else probes_set (Z.to_nat (bf_k f)) 0 hash (bf_num_bits f) (bf_bits f).

(** * Lemmas *)

Lemma bit_pos_range h nb i : 0 < nb -> 0 <= bit_pos h nb i < nb.
Proof. intros. apply Z.mod_pos_bound. lia. Qed.

(** The bit [p] of the array. *)
Definition bit_on (bits : bytes) (p : Z) : Prop :=
  exists b, byte_at bits (p / 8) = Some b /\ Z.testbit b (p mod 8) = true.

Lemma land_bit b n : 0 <= n -> (Z.land b (Z.shiftl 1 n) =? 0) = negb (Z.testbit b n).
Proof.
  intros Hn. rewrite Z.shiftl_1_l. destruct (Z.testbit b n) eqn:E; simpl.
  - apply Z.eqb_neq. intros H. apply (f_equal (fun z => Z.testbit z n)) in H.
    rewrite Z.land_spec, E, Z.pow2_bits_true, Z.bits_0 in H by lia. done.
  - apply Z.eqb_eq. apply Z.bits_inj'. intros m Hm. rewrite Z.land_spec, Z.bits_0, Z.pow2_bits_eqb by lia.
    destruct (Z.eqb_spec n m); [subst; by rewrite E|]. apply andb_false_r.
Qed.

Lemma length_set_bit bits p : length (set_bit bits p) = length bits.
Proof. apply length_alter. Qed.

Lemma byte_at_lookup bits p : 0 <= p -> byte_at bits p = bits !! Z.to_nat p.
Proof. intros. unfold byte_at. by rewrite (proj2 (Z.ltb_ge p 0)). Qed.

Lemma set_bit_on bits p : 0 <= p < 8 * blen bits -> bit_on (set_bit bits p) p.
Proof.
  intros Hp. unfold bit_on, set_bit. rewrite byte_at_lookup by (apply Z.div_pos; lia).
  destruct (lookup_lt_is_Some_2 bits (Z.to_nat (p / 8))) as [b Hb].
  { unfold blen in Hp. pose proof (Z.div_lt_upper_bound p 8 (Z.of_nat (length bits)) ltac:(lia) ltac:(lia)).
    pose proof (Z.div_pos p 8 ltac:(lia) ltac:(lia)). lia. }
  rewrite list_lookup_alter, decide_True, Hb by done. eexists. split; [done|].
  rewrite Z.lor_spec, Z.shiftl_1_l, Z.pow2_bits_true by (apply Z.mod_pos_bound; lia).
  apply orb_true_r.
Qed.

Lemma set_bit_mono bits p q : 0 <= p -> 0 <= q -> bit_on bits q -> bit_on (set_bit bits p) q.
Proof.
  intros Hp Hq (b & Hb & Ht). unfold bit_on, set_bit.
  rewrite byte_at_lookup in * by (apply Z.div_pos; lia).
  rewrite list_lookup_alter. case_decide.
  - rewrite H, Hb. eexists. split; [done|]. by rewrite Z.lor_spec, Ht.
  - eauto.
Qed.

Lemma length_set_probes n i h nb bits : length (set_probes n i h nb bits) = length bits.
Proof. revert i bits; induction n; intros; simpl; [done|]. by rewrite IHn, length_set_bit. Qed.

Lemma set_probes_mono n i h nb bits q :
  0 < nb -> 0 <= q -> bit_on bits q -> bit_on (set_probes n i h nb bits) q.
Proof.
  intros Hnb Hq. revert i bits; induction n; intros i bits Hb; simpl; [done|].
  apply IHn. apply set_bit_mono; [by apply bit_pos_range|done|done].
Qed.

Lemma set_probes_on n i h nb bits j :
  0 < nb -> nb <= 8 * blen bits -> i <= j < i + Z.of_nat n ->
  bit_on (set_probes n i h nb bits) (bit_pos h nb j).
Proof.
  intros Hnb. revert i bits; induction n as [|n IH]; intros i bits Hl Hj; [lia|]. simpl.
  pose proof (bit_pos_range h nb j Hnb).
  destruct (decide (j = i)) as [->|].
  - apply set_probes_mono; [done|lia|]. apply set_bit_on. lia.
  - apply IH; [|lia]. unfold blen in *. by rewrite length_set_bit.
Qed.

Lemma length_set_all k nb hs bits :
  length (fold_left (fun bits h => set_probes k 0 h nb bits) hs bits) = length bits.
Proof. revert bits; induction hs; intros; simpl; [done|]. by rewrite IHhs, length_set_probes. Qed.

Lemma set_all_on k nb hs bits h j :
  0 < nb -> nb <= 8 * blen bits -> 0 <= j < Z.of_nat k ->
  h ∈ hs \/ bit_on bits (bit_pos h nb j) ->
  bit_on (fold_left (fun bits h => set_probes k 0 h nb bits) hs bits) (bit_pos h nb j).
Proof.
  intros Hnb Hl Hj. pose proof (bit_pos_range h nb j Hnb).
  revert bits Hl; induction hs as [|h' hs IH]; intros bits Hl Hin; simpl.
  - destruct Hin as [Hin|]; [by apply elem_of_nil in Hin|done].
  - apply IH; [by unfold blen in *; rewrite length_set_probes|].
    destruct Hin as [[->|Hin]%elem_of_cons|Hin]; [|by left|].
    + right. apply set_probes_on; [done|done|lia].
    + right. apply set_probes_mono; [done|lia|done].
Qed.

Lemma probes_set_true n i h nb bits :
  0 < nb -> (forall j, i <= j < i + Z.of_nat n -> bit_on bits (bit_pos h nb j)) ->
  probes_set n i h nb bits = Ok true.
Proof.
  intros Hnb. revert i; induction n as [|n IH]; intros i Hall; simpl; [done|].
  destruct (Hall i) as (b & -> & Ht); [lia|].
  rewrite land_bit, Ht by (apply Z.mod_pos_bound; lia). simpl. apply IH. intros. apply Hall. lia.
Qed.

Lemma div_ceil8_bounds n : 0 <= n -> n <= div_ceil8 n * 8 < n + 8.
Proof.
  intros. unfold div_ceil8. pose proof (Z.div_mod (n + 7) 8 ltac:(lia)).
  pose proof (Z.mod_pos_bound (n + 7) 8 ltac:(lia)). lia.
Qed.

Lemma bloom_requested_bits_range bpk n : 64 <= bloom_requested_bits bpk n < 2 ^ 32.
Proof.
  unfold bloom_requested_bits.
  pose proof (f64_ceil_as_uint_range 32 (f64_mul (f64_of_uint n) bpk) ltac:(lia)) as [??]. lia.
Qed.

Lemma bloom_k_range bpk : 1 <= bloom_k bpk <= 30.
Proof. apply clampZ_range. lia. Qed.

(** The serialised filter reads back. *)
Lemma from_bytes_footer bits k nb :
  is_uint 32 nb -> 0 < nb -> blen bits = div_ceil8 nb ->
  BloomFilter_from_bytes (bits ++ [k] ++ to_le_bytes 4 nb) = Some (mkBloomFilter bits k nb).
Proof.
  intros Hu Hnb Hl. pose proof (at_pos_0 (bits ++ [k] ++ to_le_bytes 4 nb)) as Hat.
  set (data := bits ++ _) in Hat at 1 |- *.
  assert (blen data = blen bits + 5) as Hd
    by (unfold data; rewrite !blen_app, blen_to_le_bytes; change (blen [k]) with 1; lia).
  pose proof (blen_nonneg bits).
  apply at_pos_app in Hat as (Hb & _ & Hat). rewrite Z.add_0_l in *.
  apply at_pos_byte in Hat as [Hk Hat]. cbn [app] in Hat. apply at_pos_suffix in Hat.
  unfold BloomFilter_from_bytes. destruct (Z.ltb_spec (blen data) 5); [lia|]. cbv zeta.
  replace (blen data - 5) with (blen bits) by lia. rewrite Hk. cbn [mbind option_bind].
  rewrite Hat, (from_to_le_bytes_id 4 32) by done.
  destruct (Z.eqb_spec nb 0); [lia|]. rewrite andb_false_l, <- Hl, Z.eqb_refl. simpl. by rewrite Hb.
Qed.

Lemma probes_set_total h nb bits n i :
  0 < nb -> nb <= 8 * blen bits -> exists r, probes_set n i h nb bits = Ok r.
Proof.
  intros Hnb Hl. revert i. induction n as [|n IH]; intros i; simpl; [eauto|].
  pose proof (bit_pos_range h nb i Hnb).
  destruct (byte_at bits (bit_pos h nb i / 8)) eqn:E; [case_match; eauto|].
  exfalso. unfold byte_at in E. destruct (Z.ltb_spec (bit_pos h nb i / 8) 0).
  - pose proof (Z.div_pos (bit_pos h nb i) 8). lia.
  - apply lookup_ge_None in E. unfold blen in *.
    pose proof (Z.div_lt_upper_bound (bit_pos h nb i) 8 (Z.of_nat (length bits))). lia.
Qed.

(** What building gives: a filter that loads, has the hashes, and can be asked
    about any hash. *)
Lemma bloom_finish_filter b :
  bloom_requested_bits (bb_bits_per_key b) (blen (bb_hashes b)) <= 2 ^ 32 - 8 ->
  exists data f, BloomBuilder_finish b = Ok data /\ BloomFilter_from_bytes data = Some f /\
    (forall h, h ∈ bb_hashes b \/ bb_hashes b = [] -> maybe_contains f h = Ok true) /\
    (forall h, exists r, maybe_contains f h = Ok r).
Proof.
  intros Hbits. unfold BloomBuilder_finish.
  pose proof (bloom_requested_bits_range (bb_bits_per_key b) (blen (bb_hashes b))) as Hr.
  pose proof (bloom_k_range (bb_bits_per_key b)).
  destruct (bb_hashes b) as [|h0 hs0] eqn:Eh.
  { eexists _, (mkBloomFilter [] 0 0). split; [done|]. split; [vm_compute; reflexivity|].
    split; intros h; [done|eexists; reflexivity]. }
  rewrite <- Eh in *. cbv zeta.
  set (req := bloom_requested_bits _ _) in *. set (k := bloom_k _) in *.
  pose proof (div_ceil8_bounds req ltac:(lia)).
  assert (div_ceil8 req * 8 < 2 ^ 32).
  { assert (div_ceil8 req <= (2 ^ 32 - 1) / 8); [|change ((2 ^ 32 - 1) / 8) with 536870911 in *; lia].
    apply Z.div_le_mono; lia. }
  rewrite wrap_small by (split; lia). set (nb := div_ceil8 req * 8) in *.
  destruct (Z.eqb_spec nb 0); [lia|]. set (bits := fold_left _ _ _).
  assert (blen bits = div_ceil8 req) as Hl.
  { unfold blen, bits. rewrite length_set_all, length_replicate. lia. }
  assert (div_ceil8 nb = div_ceil8 req) as Hnb.
  { unfold div_ceil8 at 1. unfold nb. rewrite Z.div_add_l by lia. change (7 / 8) with 0. lia. }
  eexists _, (mkBloomFilter bits k nb). split; [done|].
  split; [apply from_bytes_footer; [split; lia|lia|lia]|].
  unfold maybe_contains. cbn [bf_num_bits bf_k bf_bits]. destruct (Z.eqb_spec nb 0); [lia|]. split; intros h.
  - intros [Hin|Hnil]; [|congruence]. apply probes_set_true; [lia|]. intros j Hj. apply set_all_on; [lia| |lia|by left].
    unfold blen. rewrite length_replicate. lia.
  - apply probes_set_total; lia.
Qed.

(** A bloom filter has no false negatives. For any bits-per-key setting and
    any set of key hashes below the [u32] limit of the bit count, building
    succeeds, the bytes load back as a filter, and the filter answers [true],
    without an out-of-range access, for every hash that was inserted. *)
Theorem bloom_no_false_negatives b h :
  bloom_requested_bits (bb_bits_per_key b) (blen (bb_hashes b)) <= 2 ^ 32 - 8 ->
  h ∈ bb_hashes b ->
  exists data f, BloomBuilder_finish b = Ok data /\ BloomFilter_from_bytes data = Some f /\
    maybe_contains f h = Ok true.
Proof.
  intros Hbits Hin. destruct (bloom_finish_filter b Hbits) as (data & f & H1 & H2 & H3 & _).
  exists data, f. auto.
Qed.

Lemma bloom_no_false_negatives_witness :
  exists data f, BloomBuilder_finish (mkBloomBuilder (f64_of_uint 10) [11; 5 * 2 ^ 40; 77]) = Ok data /\
    BloomFilter_from_bytes data = Some f /\ maybe_contains f 77 = Ok true.
Proof.
  apply (bloom_no_false_negatives (mkBloomBuilder (f64_of_uint 10) [11; 5 * 2 ^ 40; 77]) 77).
  - vm_compute. discriminate.
  - do 2 apply list_elem_of_further. apply list_elem_of_here.
Defined.
