(* ===== verification/Memtable.v ===== *)
(** * The memtable (turba-engine/src/memtable.rs)

    The write buffer: a concurrent ordered map from internal keys to values
    ([crossbeam_skiplist::SkipMap], a parameter with its documented contract),
    an approximate size and the highest sequence number. *)

From S2P Require Import Prelude Types.

(** ** Third-party code: the skip list

    [insert] replaces an entry whose key compares equal, iteration is in key
    order, [range(lower..)] is the part of the iteration at or above [lower]. *)
Class SkipMap := {
  skipmap : Type;
  skm_new : skipmap;
  skm_insert : InternalKey -> bytes -> skipmap -> skipmap;
  skm_iter : skipmap -> list (InternalKey * bytes);
  skm_range_from : InternalKey -> skipmap -> list (InternalKey * bytes);
  skm_is_empty : skipmap -> bool;
  skm_len : skipmap -> Z;
  skm_iter_new : skm_iter skm_new = [];
  skm_iter_sorted m :
    StronglySorted (fun a b => InternalKey_cmp a.1 b.1 = Lt) (skm_iter m);
  skm_iter_insert k v m x :
    x ∈ skm_iter (skm_insert k v m) <->
    x = (k, v) \/ (InternalKey_cmp x.1 k <> Eq /\ x ∈ skm_iter m);
  skm_range_iter lower m :
    skm_range_from lower m = filter (fun x => InternalKey_cmp lower x.1 <> Gt) (skm_iter m);
  skm_is_empty_iter m : skm_is_empty m = true <-> skm_iter m = [];
  skm_len_iter m : skm_len m = blen (skm_iter m);
}.

Section memtable.
Context {SM : SkipMap}.

Record Memtable := mkMemtable {
  mt_map : skipmap;
  mt_approximate_size : Z;
  mt_highest_seqno : SeqNo;
}.

Definition Memtable_new : Memtable := mkMemtable skm_new 0 0.

(** [insert]: the new memtable and the new approximate size; [fetch_add] wraps. *)
Definition Memtable_insert (m : Memtable) (user_key value : bytes) (seqno : SeqNo)
    (vtype : ValueType) : Memtable * Z :=
  let ikey := mkInternalKey user_key seqno vtype in
  let entry_size := blen user_key + blen value + 32 in
  let map := skm_insert ikey value (mt_map m) in
  let new_size := wrap64 (mt_approximate_size m + entry_size) in
  (mkMemtable map new_size (Z.max (mt_highest_seqno m) seqno), new_size).

(** The loop of [get] over the range. *)
Fixpoint Memtable_get_scan (range : list (InternalKey * bytes)) (uk : bytes)
    (visible_seqno : SeqNo) : option (ValueType * bytes) :=
  match range with
  | [] => None
  | (ikey, value) :: rest =>
    if negb (beqb (user_key ikey) uk) then None
    else if ik_seqno ikey <=? visible_seqno then Some (ik_value_type ikey, value)
    else Memtable_get_scan rest uk visible_seqno
  end.

Definition Memtable_get (m : Memtable) (user_key : bytes) (visible_seqno : SeqNo)
    : option (ValueType * bytes) :=
  let lower := mkInternalKey user_key SeqNo_MAX Value in
  Memtable_get_scan (skm_range_from lower (mt_map m)) user_key visible_seqno.

Definition entry_of (x : InternalKey * bytes) : Entry :=
  mkEntry (user_key x.1) x.2 (ik_seqno x.1) (ik_value_type x.1).

Definition Memtable_iter (m : Memtable) : list Entry := entry_of <$> skm_iter (mt_map m).

Definition approximate_size (m : Memtable) : Z := mt_approximate_size m.
Definition highest_seqno (m : Memtable) : SeqNo := mt_highest_seqno m.
Definition Memtable_is_empty (m : Memtable) : bool := skm_is_empty (mt_map m).
Definition Memtable_len (m : Memtable) : Z := skm_len (mt_map m).

(** * Lemmas *)

(** The invariant: sequence numbers are [u64]s bounded by [highest_seqno]. *)
Definition Memtable_ok (m : Memtable) : Prop :=
  is_uint 64 (mt_highest_seqno m) /\
  forall e, e ∈ Memtable_iter m -> 0 <= seqno e <= mt_highest_seqno m.

Lemma Memtable_new_ok : Memtable_ok Memtable_new.
Proof.
  split; [done|]. intros e. unfold Memtable_iter. cbn. rewrite skm_iter_new. by intros ?%elem_of_nil.
Qed.

Lemma Memtable_iter_sorted m : ssorted (Memtable_iter m).
Proof. unfold Memtable_iter. eapply StronglySorted_fmap; [|apply skm_iter_sorted]. done. Qed.

(** Inserting adds the entry and replaces only an entry with the same user key
    and sequence number. *)
Lemma Memtable_iter_insert m k v s t e :
  e ∈ Memtable_iter (fst (Memtable_insert m k v s t)) <->
  e = mkEntry k v s t \/ (~ (key e = k /\ seqno e = s) /\ e ∈ Memtable_iter m).
Proof.
  unfold Memtable_iter. cbn. rewrite !list_elem_of_fmap.
  assert (forall x : InternalKey * bytes, InternalKey_cmp x.1 (mkInternalKey k s t) <> Eq <->
    ~ (key (entry_of x) = k /\ seqno (entry_of x) = s)) as Hcmp.
  { intros [[uk sq vt] w]. unfold InternalKey_cmp. cbn. rewrite <- bcmp_eq.
    destruct (bcmp uk k); rewrite ?Z.compare_eq_iff; intuition congruence. }
  split.
  - intros (x & -> & [->|[Hx Hin]]%skm_iter_insert); [by left|]. right. split; [by apply Hcmp|eauto].
  - intros [->|[Hne (x & -> & Hin)]].
    + exists (mkInternalKey k s t, v). split; [done|]. apply skm_iter_insert. by left.
    + exists x. split; [done|]. apply skm_iter_insert. right. split; [by apply Hcmp|done].
Qed.

Lemma Memtable_insert_ok m k v s t :
  Memtable_ok m -> is_uint 64 s -> Memtable_ok (fst (Memtable_insert m k v s t)).
Proof.
  intros [[Hlo Hhi] Hm] [??]. split; [unfold is_uint; cbn; lia|].
  intros e [->|[_ He]]%Memtable_iter_insert; cbn; [lia|]. specialize (Hm e He). lia.
Qed.

(** The scan of [get] is the search of the whole memtable. *)
Lemma Memtable_get_first_visible m k s :
  Memtable_ok m ->
  Memtable_get m k s =
  (fun e => (value_type e, value e)) <$> first_visible (Memtable_iter m) k s.
Proof.
  intros [Hh Hm]. unfold Memtable_get. cbv zeta. rewrite skm_range_iter.
  unfold Memtable_iter in *. pose proof (skm_iter_sorted (mt_map m)) as Hs. revert Hm Hs.
  generalize (skm_iter (mt_map m)) as l. induction l as [|x l IH]; intros Hm Hs; [done|].
  apply StronglySorted_inv in Hs as [Hs Hx].
  assert (forall e, e ∈ entry_of <$> l -> 0 <= seqno e <= mt_highest_seqno m) as Hm'
    by (intros; apply Hm; by right).
  specialize (IH Hm' Hs). specialize (Hm (entry_of x) ltac:(by left)). destruct Hh as [_ Hh].
  rewrite filter_cons. destruct x as [[uk sq vt] v]. cbn in Hm.
  cbn [fmap list_fmap first_visible entry_of key seqno fst snd user_key ik_seqno ik_value_type].
  assert (k = uk -> beqb uk k = true) as Heq by (intros ->; apply beqb_refl).
  assert (bcmp k uk <> Eq -> beqb uk k = false) as Hneq.
  { rewrite bcmp_eq. intros ?. apply beqb_neq. congruence. }
  case_decide as Hd; unfold InternalKey_cmp in Hd; cbn in Hd; destruct (bcmp k uk) eqn:Ec; try done.
  - apply bcmp_eq in Ec. cbn. rewrite Heq by done. simpl. destruct (sq <=? s); [done|]. apply IH.
  - cbn. rewrite Hneq by done. simpl.
    symmetry. apply fmap_None, first_visible_None. intros e (y & -> & Hy)%list_elem_of_fmap Hk.
    rewrite Forall_forall in Hx. specialize (Hx y Hy). unfold InternalKey_cmp in Hx. cbn in Hx, Hk.
    rewrite Hk, (bcmp_opp k uk), Ec in Hx. done.
  - rewrite Z.compare_gt_iff in Hd. unfold SeqNo_MAX, U64_MAX in Hd. lia.
  - rewrite Hneq by done. apply IH.
Qed.

(** A memtable lookup returns the newest version its snapshot may see. On
    any memtable reached by inserts, [get] answers with the type and value of
    the entry that has the highest sequence number at or below the snapshot. *)
Theorem Memtable_get_newest m k s :
  Memtable_ok m ->
  exists o, newest s k (Memtable_iter m) o /\
    Memtable_get m k s = (fun e => (value_type e, value e)) <$> o.
Proof.
  intros Hm. exists (first_visible (Memtable_iter m) k s). split; [|by apply Memtable_get_first_visible].
  apply first_visible_newest, ssorted_sorted, Memtable_iter_sorted.
Qed.

End memtable.

(** ** A skip list

    A sorted association list meets the contract, so the theorems about
    memtables are about something. *)

Fixpoint slist_insert (k : InternalKey) (v : bytes) (l : list (InternalKey * bytes))
    : list (InternalKey * bytes) :=
  match l with
  | [] => [(k, v)]
  | x :: l' => match InternalKey_cmp k x.1 with
               | Lt => (k, v) :: x :: l'
               | Eq => (k, v) :: l'
               | Gt => x :: slist_insert k v l'
               end
  end.

Lemma InternalKey_cmp_opp a b : InternalKey_cmp b a = CompOpp (InternalKey_cmp a b).
Proof.
  unfold InternalKey_cmp. rewrite (bcmp_opp (user_key a) (user_key b)).
  destruct (bcmp (user_key a) (user_key b)); simpl; [|done..]. apply Z.compare_antisym.
Qed.

Lemma InternalKey_cmp_trans a b c :
  InternalKey_cmp a b <> Gt -> InternalKey_cmp b c = Lt -> InternalKey_cmp a c = Lt.
Proof.
  pose proof (entry_lt_iff (mkEntry (user_key a) [] (ik_seqno a) Value) (mkEntry (user_key c) [] (ik_seqno c) Value)) as H1.
  pose proof (entry_lt_iff (mkEntry (user_key b) [] (ik_seqno b) Value) (mkEntry (user_key c) [] (ik_seqno c) Value)) as H2.
  pose proof (entry_le_iff (mkEntry (user_key a) [] (ik_seqno a) Value) (mkEntry (user_key b) [] (ik_seqno b) Value)) as H3.
  unfold entry_lt, entry_le, entry_cmp, internal_key in *. cbn in *.
  change (InternalKey_cmp (mkInternalKey (user_key ?x) (ik_seqno ?x) Value) (mkInternalKey (user_key ?y) (ik_seqno ?y) Value))
    with (InternalKey_cmp x y) in *.
  intros ?%H3 ?%H2. apply H1.
  destruct H as [?|[??]], H0 as [?|[??]]; first [left; border | right; split; [congruence|lia]].
Qed.

Abbreviation slist_sorted := (StronglySorted (fun a b : InternalKey * bytes => InternalKey_cmp a.1 b.1 = Lt)).

Lemma elem_of_slist_insert k v l x :
  slist_sorted l ->
  x ∈ slist_insert k v l <-> x = (k, v) \/ (InternalKey_cmp x.1 k <> Eq /\ x ∈ l).
Proof.
  induction 1 as [|y l Hs IH Hy]; simpl.
  { rewrite list_elem_of_singleton, elem_of_nil. intuition. }
  rewrite Forall_forall in Hy.
  assert (InternalKey_cmp k y.1 <> Gt -> forall z, z ∈ l -> InternalKey_cmp z.1 k <> Eq) as Hlt.
  { intros Hk z Hz. rewrite InternalKey_cmp_opp, (InternalKey_cmp_trans k y.1 z.1 Hk (Hy z Hz)). done. }
  assert (InternalKey_cmp y.1 k = CompOpp (InternalKey_cmp k y.1)) as Hyk by apply InternalKey_cmp_opp.
  destruct (InternalKey_cmp k y.1) eqn:E; rewrite !elem_of_cons; simpl in Hyk.
  - split; [intros [->|Hx]; auto|intros [->|[Hne [->|Hx]]]; auto; congruence].
  - split; [|tauto]. intros [->|[->|Hx]]; [by left| |]; right; (split; [|by auto]); [congruence|by apply Hlt].
  - rewrite IH. split; [|tauto]. intros [->|[->|[??]]]; [|by left|]; right; (split; [congruence|by auto]).
Qed.

Lemma slist_insert_sorted k v l : slist_sorted l -> slist_sorted (slist_insert k v l).
Proof.
  induction 1 as [|y l Hs IH Hy]; simpl; [by repeat constructor|].
  destruct (InternalKey_cmp k y.1) eqn:E.
  - constructor; [done|]. eapply Forall_impl; [done|]. intros z. apply InternalKey_cmp_trans. simpl. congruence.
  - constructor; [by constructor|]. constructor; [done|].
    eapply Forall_impl; [done|]. intros z. apply InternalKey_cmp_trans. simpl. congruence.
  - constructor; [done|]. apply Forall_forall. intros z [->|[_ Hz]]%elem_of_slist_insert; [| |done].
    2:{ rewrite Forall_forall in Hy. by apply Hy. }
    simpl. by rewrite InternalKey_cmp_opp, E.
Qed.

Definition slist_skipmap : SkipMap.
Proof.
  refine {|
    skipmap := { l | slist_sorted l };
    skm_new := exist _ [] (SSorted_nil _);
    skm_insert k v m := exist _ (slist_insert k v (proj1_sig m)) (slist_insert_sorted k v _ (proj2_sig m));
    skm_iter m := proj1_sig m;
    skm_range_from lower m := filter (fun x => InternalKey_cmp lower x.1 <> Gt) (proj1_sig m);
    skm_is_empty m := match proj1_sig m with [] => true | _ => false end;
    skm_len m := blen (proj1_sig m);
  |}.
  all: try done.
  - intros m. apply (proj2_sig m).
  - intros k v m x. apply elem_of_slist_insert, (proj2_sig m).
  - intros [[|??] ?]; done.
Defined.

(** Three writes of two keys, the second write a later version of the first
    key. *)
Definition sample_memtable : @Memtable slist_skipmap :=
  let m := fst (Memtable_insert (SM := slist_skipmap) (Memtable_new (SM := slist_skipmap)) [97] [1] 5 Value) in
  let m := fst (Memtable_insert (SM := slist_skipmap) m [97] [] 8 Tombstone) in
  fst (Memtable_insert (SM := slist_skipmap) m [98] [3] 9 Value).

Lemma sample_memtable_ok : Memtable_ok (SM := slist_skipmap) sample_memtable.
Proof. unfold sample_memtable. do 3 (apply Memtable_insert_ok; [|done]). apply Memtable_new_ok. Qed.

Lemma Memtable_get_newest_witness :
  (exists o, newest 7 [97] (Memtable_iter (SM := slist_skipmap) sample_memtable) o /\
    Memtable_get (SM := slist_skipmap) sample_memtable [97] 7 = (fun e => (value_type e, value e)) <$> o) /\
  Memtable_get (SM := slist_skipmap) sample_memtable [97] 7 = Some (Value, [1]) /\
  Memtable_get (SM := slist_skipmap) sample_memtable [97] 8 = Some (Tombstone, []).
Proof.
  split; [|split; vm_compute; reflexivity].
  exact (Memtable_get_newest (SM := slist_skipmap) sample_memtable [97] 7 sample_memtable_ok).
Defined.
