(* ===== verification/Merge.v ===== *)
(** * The k-way merge (turba-engine/src/merge.rs)

    [MergeIterator] over a binary heap of the heads of its sources. The heap is
    [std::collections::BinaryHeap]: what the merge uses of it is stated as a
    class and met by a list (the order in which equal elements are popped is
    left open by the library, and by the class). *)

From S2P Require Import Prelude Types.

Record HeapItem := mkHeapItem {
  hi_entry : Entry;
  hi_source_idx : nat;
}.

(** [Ord for HeapItem]: the reverse of the order of internal keys, since the
    heap is a max-heap. *)
Definition HeapItem_cmp (a b : HeapItem) : comparison :=
  let key_cmp :=
    match bcmp (key (hi_entry a)) (key (hi_entry b)) with
    | Eq => seqno (hi_entry b) ?= seqno (hi_entry a)
    | c => c
    end in
  CompOpp key_cmp.

(** [BinaryHeap<HeapItem>]: [push] adds an element, [pop] removes a greatest
    one. *)
Class BinaryHeap := {
  heap : Type;
  heap_new : heap;
  heap_push : HeapItem -> heap -> heap;
  heap_pop : heap -> option (HeapItem * heap);
  heap_elems : heap -> list HeapItem;
  heap_elems_new : heap_elems heap_new = [];
  heap_elems_push x h : heap_elems (heap_push x h) ≡ₚ x :: heap_elems h;
  heap_pop_None h : heap_pop h = None -> heap_elems h = [];
  heap_pop_Some h x h' : heap_pop h = Some (x, h') ->
    heap_elems h ≡ₚ x :: heap_elems h' /\
    forall y, y ∈ heap_elems h' -> HeapItem_cmp y x <> Gt;
}.

Section merge.
Context {BH : BinaryHeap}.

Record MergeIterator := mkMergeIterator {
  mi_heap : heap;
  mi_sources : list (list Entry);
}.

(** The loop of [MergeIterator::new]: an iterator is the list of what it still
    yields. *)
Fixpoint MergeIterator_new_loop (idx : nat) (h : heap) (stored : list (list Entry))
    (sources : list (list Entry)) : MergeIterator :=
  match sources with
  | [] => mkMergeIterator h stored
  | source :: rest =>
    match source with
    | entry :: source' =>
      MergeIterator_new_loop (idx + 1) (heap_push (mkHeapItem entry idx) h) (stored ++ [source']) rest
    | [] => MergeIterator_new_loop (idx + 1) h (stored ++ [[]]) rest
    end
  end.

Definition MergeIterator_new (sources : list (list Entry)) : MergeIterator :=
  MergeIterator_new_loop 0 heap_new [] sources.

(** [Iterator::next]; the indexing panics out of range. *)
Definition MergeIterator_next (it : MergeIterator) : Result (option (Entry * MergeIterator)) :=
  match heap_pop (mi_heap it) with
  | None => Ok None
  | Some (item, h) =>
    let source_idx := hi_source_idx item in
    match mi_sources it !! source_idx with
    | None => Panic
    | Some [] => Ok (Some (hi_entry item, mkMergeIterator h (mi_sources it)))
    | Some (next_entry :: source') =>
      Ok (Some (hi_entry item,
        mkMergeIterator (heap_push (mkHeapItem next_entry source_idx) h)
          (<[source_idx := source']> (mi_sources it))))
    end
  end.

(** Running the iterator to its end; [fuel] bounds the number of entries. *)
Fixpoint MergeIterator_collect (fuel : nat) (it : MergeIterator) : Result (list Entry) :=
  match fuel with
  | O => Panic
  | S fuel' =>
    o ← MergeIterator_next it;
    match o with
    | None => Ok []
    | Some (e, it') => es ← MergeIterator_collect fuel' it'; Ok (e :: es)
    end
  end.

(** The merged stream of the sources. *)
Definition merge_sources (sources : list (list Entry)) : Result (list Entry) :=
  MergeIterator_collect (S (length (concat sources))) (MergeIterator_new sources).

(** * Lemmas *)

(** What is still to come: the heads in the heap and the rests of the sources. *)
Definition pending (it : MergeIterator) : list Entry :=
  (hi_entry <$> heap_elems (mi_heap it)) ++ concat (mi_sources it).

(** The invariant of the merge: every source with entries left has its head in
    the heap, at or before all of them. *)
Definition MergeIterator_ok (it : MergeIterator) : Prop :=
  Forall sorted (mi_sources it) /\
  (forall x, x ∈ heap_elems (mi_heap it) -> (hi_source_idx x < length (mi_sources it))%nat) /\
  (forall (i : nat) src, mi_sources it !! i = Some src -> src <> [] ->
     exists x, x ∈ heap_elems (mi_heap it) /\ hi_source_idx x = i) /\
  (forall x src, x ∈ heap_elems (mi_heap it) -> mi_sources it !! hi_source_idx x = Some src ->
     Forall (entry_le (hi_entry x)) src).

Lemma HeapItem_cmp_le a b : HeapItem_cmp b a <> Gt <-> entry_le (hi_entry a) (hi_entry b).
Proof.
  unfold HeapItem_cmp, entry_le. cbv zeta.
  change (match bcmp _ _ with Eq => _ | c => c end) with (entry_cmp (hi_entry b) (hi_entry a)).
  split; intros H1 H2; apply H1.
  - apply entry_cmp_gt_lt in H2. unfold entry_lt in H2. by rewrite H2.
  - destruct (entry_cmp (hi_entry b) (hi_entry a)) eqn:E; try done. by apply entry_cmp_gt_lt.
Qed.

Lemma MergeIterator_new_loop_ok idx h stored sources :
  length stored = idx -> MergeIterator_ok (mkMergeIterator h stored) -> Forall sorted sources ->
  MergeIterator_ok (MergeIterator_new_loop idx h stored sources) /\
  pending (MergeIterator_new_loop idx h stored sources) ≡ₚ pending (mkMergeIterator h stored) ++ concat sources.
Proof.
  intros Hidx Hok Hs. revert idx h stored Hidx Hok. induction Hs as [|src sources Hsrc Hs IH]; intros idx h stored Hidx Hok.
  { cbn. by rewrite app_nil_r. }
  destruct Hok as (H1 & H2 & H3 & H4). cbn [mi_sources mi_heap] in *.
  destruct src as [|e src]; cbn [MergeIterator_new_loop].
  - destruct (IH (idx + 1)%nat h (stored ++ [[]])) as [Hok' Hp].
    + rewrite length_app. simpl. lia.
    + split; [cbn; apply Forall_app; by repeat constructor|]. cbn [mi_sources mi_heap].
      split; [intros x Hx; rewrite length_app; specialize (H2 x Hx); lia|]. split.
      * intros i s [Hi|[? Hi]]%lookup_app_Some Hne; [eauto|].
        apply list_lookup_singleton_Some in Hi as [_ <-]. done.
      * intros x s Hx Hs'. rewrite lookup_app_l in Hs' by auto. eauto.
    + split; [done|]. rewrite Hp. unfold pending. cbn. rewrite concat_app. cbn. by rewrite !app_nil_r.
  - apply StronglySorted_inv in Hsrc as [Hsrc He].
    destruct (IH (idx + 1)%nat (heap_push (mkHeapItem e idx) h) (stored ++ [src])) as [Hok' Hp].
    + rewrite length_app. simpl. lia.
    + split; [cbn; apply Forall_app; by repeat constructor|]. cbn [mi_sources mi_heap].
      assert (forall x, x ∈ heap_elems (heap_push (mkHeapItem e idx) h) <-> x = mkHeapItem e idx \/ x ∈ heap_elems h) as Hel.
      { intros x. rewrite (heap_elems_push (mkHeapItem e idx) h). apply elem_of_cons. }
      split; [intros x [->|Hx]%Hel; rewrite length_app; simpl; [lia|specialize (H2 x Hx); lia]|]. split.
      * intros i s [Hi|[? Hi]]%lookup_app_Some Hne.
        { destruct (H3 i s Hi Hne) as (x & Hx & <-). exists x. split; [|done]. apply Hel. by right. }
        exists (mkHeapItem e idx). split; [apply Hel; by left|]. cbn.
        apply list_lookup_singleton_Some in Hi as [? _]. lia.
      * intros x s [->|Hx]%Hel Hs'; cbn in *.
        { rewrite lookup_app_r, Hidx, Nat.sub_diag in Hs' by lia. by injection Hs' as <-. }
        rewrite lookup_app_l in Hs' by auto. eauto.
    + split; [done|]. rewrite Hp. unfold pending. cbn. rewrite heap_elems_push. cbn.
      rewrite concat_app. cbn. rewrite app_nil_r. solve_Permutation.
Qed.

(** The popped head is at or before everything that is left. *)
Lemma MergeIterator_head_min it x h :
  MergeIterator_ok it -> heap_pop (mi_heap it) = Some (x, h) ->
  forall y, y ∈ pending it -> entry_le (hi_entry x) y.
Proof.
  intros (H1 & H2 & H3 & H4) Hpop y Hy. destruct (heap_pop_Some _ _ _ Hpop) as [Hp Hmin].
  assert (forall z, z ∈ heap_elems (mi_heap it) -> entry_le (hi_entry x) (hi_entry z)) as Hx.
  { intros z. rewrite Hp, elem_of_cons. intros [->|Hz]; [done|]. by apply HeapItem_cmp_le, Hmin. }
  apply elem_of_app in Hy as [(z & -> & Hz)%list_elem_of_fmap|(src & Hy & Hsrc)%elem_of_concat]; [by apply Hx|].
  apply list_elem_of_lookup in Hsrc as [i Hi].
  destruct (H3 i src Hi) as (z & Hz & <-); [by intros ->; apply elem_of_nil in Hy|].
  specialize (H4 z src Hz Hi). rewrite Forall_forall in H4. etransitivity; [by apply Hx|by apply H4].
Qed.

Lemma concat_insert_tail (ls : list (list Entry)) i e src :
  ls !! i = Some (e :: src) -> concat ls ≡ₚ e :: concat (<[i:=src]> ls).
Proof.
  intros Hi. rewrite <- (take_drop_middle ls i _ Hi) at 1.
  rewrite insert_take_drop by (by eapply lookup_lt_Some).
  rewrite !concat_app. cbn. solve_Permutation.
Qed.

Lemma MergeIterator_next_ok it :
  MergeIterator_ok it ->
  match MergeIterator_next it with
  | Ok None => pending it = []
  | Ok (Some (e, it')) => MergeIterator_ok it' /\ pending it ≡ₚ e :: pending it' /\
      Forall (entry_le e) (pending it')
  | _ => False
  end.
Proof.
  intros Hok. pose proof Hok as (H1 & H2 & H3 & H4). unfold MergeIterator_next.
  destruct (heap_pop (mi_heap it)) as [[x h]|] eqn:Hpop.
  2:{ apply heap_pop_None in Hpop. unfold pending. rewrite Hpop. simpl.
      apply concat_nil_all. intros src [i Hi]%list_elem_of_lookup.
      destruct src as [|e src]; [done|]. destruct (H3 i _ Hi) as (x & Hx & _); [done|].
      rewrite Hpop in Hx. by apply elem_of_nil in Hx. }
  pose proof (MergeIterator_head_min it x h Hok Hpop) as Hmin.
  destruct (heap_pop_Some _ _ _ Hpop) as [Hp _].
  assert (forall z, z ∈ heap_elems (mi_heap it) <-> z = x \/ z ∈ heap_elems h) as Hel
    by (intros; rewrite Hp; apply elem_of_cons).
  destruct (lookup_lt_is_Some_2 (mi_sources it) (hi_source_idx x)) as [src Hsrc].
  { apply H2, Hel. by left. }
  cbv zeta. rewrite Hsrc. pose proof (H4 x src ltac:(apply Hel; by left) Hsrc) as Hxsrc.
  assert (Forall (entry_le (hi_entry x)) (pending it)) as Hall by (by apply Forall_forall).
  destruct src as [|e src].
  - split; [|split].
    + split; [done|]. cbn [mi_sources mi_heap].
      split; [intros z Hz; apply H2, Hel; by right|]. split.
      * intros i s Hi Hne. destruct (H3 i s Hi Hne) as (z & [->|Hz]%Hel & <-); [congruence|eauto].
      * intros z s Hz. apply H4, Hel. by right.
    + unfold pending. cbn. rewrite Hp. done.
    + unfold pending in *. cbn. rewrite Hp in Hall. cbn in Hall. by apply Forall_cons in Hall as [_ ?].
  - pose proof (concat_insert_tail _ _ _ _ Hsrc) as Hcat.
    assert (sorted (e :: src)) as Hss by (rewrite Forall_lookup in H1; by eapply H1).
    apply StronglySorted_inv in Hss as [Hss He].
    assert (forall z, z ∈ heap_elems (heap_push (mkHeapItem e (hi_source_idx x)) h) <->
      z = mkHeapItem e (hi_source_idx x) \/ z ∈ heap_elems h) as Hel'
      by (intros; rewrite heap_elems_push; apply elem_of_cons).
    assert (pending it ≡ₚ hi_entry x :: pending (mkMergeIterator
      (heap_push (mkHeapItem e (hi_source_idx x)) h) (<[hi_source_idx x:=src]> (mi_sources it)))) as Hpend.
    { unfold pending. cbn. rewrite Hp, heap_elems_push, Hcat. cbn. solve_Permutation. }
    split; [|split; [done|by rewrite Hpend in Hall; apply Forall_cons in Hall as [_ ?]]].
    split; [by apply Forall_insert|]. cbn [mi_sources mi_heap]. rewrite length_insert. split; [|split].
    + intros z [->|Hz]%Hel'; [cbn; by eapply lookup_lt_Some|]. apply H2, Hel. by right.
    + intros i s Hi Hne. destruct (decide (i = hi_source_idx x)) as [->|Hi'].
      { exists (mkHeapItem e (hi_source_idx x)). split; [apply Hel'; by left|done]. }
      rewrite list_lookup_insert_ne in Hi by done.
      destruct (H3 i s Hi Hne) as (z & [->|Hz]%Hel & <-); [done|]. exists z. split; [apply Hel'; by right|done].
    + intros z s Hz Hs. destruct (decide (hi_source_idx z = hi_source_idx x)) as [Hi|Hi].
      * rewrite Hi, list_lookup_insert_eq in Hs by (by eapply lookup_lt_Some). injection Hs as <-.
        apply Hel' in Hz as [->|Hz]; [done|].
        assert (Forall (entry_le (hi_entry z)) (e :: src)) as Hz'.
        { apply (H4 z); [apply Hel; by right|congruence]. }
        by apply Forall_cons in Hz' as [_ ?].
      * rewrite list_lookup_insert_ne in Hs by done. apply Hel' in Hz as [->|Hz]; [done|].
        apply (H4 z); [apply Hel; by right|done].
Qed.

Lemma MergeIterator_collect_ok fuel it :
  MergeIterator_ok it -> (length (pending it) < fuel)%nat ->
  exists out, MergeIterator_collect fuel it = Ok out /\ sorted out /\ out ≡ₚ pending it.
Proof.
  revert it; induction fuel as [|fuel IH]; intros it Hok Hf; [lia|]. cbn [MergeIterator_collect].
  pose proof (MergeIterator_next_ok it Hok) as H.
  destruct (MergeIterator_next it) as [[[e it']|]| |]; cbn [mbind Result_bind]; try done.
  - destruct H as (Hok' & Hp & Hmin).
    destruct (IH it' Hok') as (out & -> & Hs & Hp').
    { apply Permutation_length in Hp. simpl in Hp. lia. }
    exists (e :: out). split; [done|]. split; [|by rewrite Hp, Hp'].
    constructor; [done|]. by rewrite Hp'.
  - exists []. rewrite H. split; [done|]. split; [constructor|done].
Qed.

Lemma merge_sources_ok sources :
  Forall sorted sources ->
  exists out, merge_sources sources = Ok out /\ sorted out /\ out ≡ₚ concat sources.
Proof.
  intros Hs. unfold merge_sources, MergeIterator_new.
  destruct (MergeIterator_new_loop_ok 0 heap_new [] sources) as [Hok Hp]; [done| |done|].
  - unfold MergeIterator_ok. cbn. rewrite heap_elems_new. split; [done|].
    split; [by intros ? ?%elem_of_nil|]. split; [done|]. by intros ?? ?%elem_of_nil.
  - assert (pending (mkMergeIterator heap_new []) = []) as E
      by (unfold pending; cbn; by rewrite heap_elems_new).
    rewrite E in Hp. simpl in Hp.
    destruct (MergeIterator_collect_ok (S (length (concat sources))) _ Hok) as (out & -> & Ho & Hpo).
    { rewrite Hp. lia. }
    exists out. split; [done|]. split; [done|]. by rewrite Hpo, Hp.
Qed.

(** The merge of sorted sources is their sorted union. For any sources in
    internal-key order the iterator runs to its end without an out-of-range
    source, and what it yields is in internal-key order and is a permutation of
    the entries of all sources: no version is lost or duplicated. *)
Theorem merge_sources_sorted_permutation sources :
  Forall sorted sources ->
  exists out, merge_sources sources = Ok out /\ sorted out /\ out ≡ₚ concat sources.
Proof. apply merge_sources_ok. Qed.

End merge.

(** ** A heap: a list whose greatest element is searched for. *)

Fixpoint list_pop (l : list HeapItem) : option (HeapItem * list HeapItem) :=
  match l with
  | [] => None
  | x :: l' =>
    match list_pop l' with
    | None => Some (x, [])
    | Some (y, r) => match HeapItem_cmp y x with
                     | Gt => Some (y, x :: r)
                     | _ => Some (x, l')
                     end
    end
  end.

Lemma list_pop_spec l x r :
  list_pop l = Some (x, r) -> l ≡ₚ x :: r /\ forall y, y ∈ r -> HeapItem_cmp y x <> Gt.
Proof.
  revert x r; induction l as [|a l IH]; intros x r; simpl; [done|].
  destruct (list_pop l) as [[y r']|] eqn:E.
  - destruct (IH y r' eq_refl) as [Hp Hm].
    assert (HeapItem_cmp y a <> Gt \/ HeapItem_cmp a y <> Gt) as Htot.
    { rewrite !HeapItem_cmp_le. destruct (entry_le_total (hi_entry a) (hi_entry y)); auto. }
    destruct (HeapItem_cmp y a) eqn:Ec; intros [= <- <-].
    1,2: split; [done|]; intros z; rewrite Hp, elem_of_cons; intros [->|Hz]; [congruence|];
      rewrite HeapItem_cmp_le; etransitivity; [by apply HeapItem_cmp_le; rewrite Ec|by apply HeapItem_cmp_le, Hm].
    split; [rewrite Hp; solve_Permutation|]. intros z [->|Hz]%elem_of_cons; [|by apply Hm].
    destruct Htot; done.
  - intros [= <- <-]. split; [|by intros ? ?%elem_of_nil].
    destruct l as [|b l]; [done|]. simpl in E. by repeat case_match.
Qed.

Definition list_heap : BinaryHeap.
Proof.
  refine {| heap := list HeapItem; heap_new := []; heap_push := cons; heap_pop := list_pop;
            heap_elems := fun l => l |}.
  - done.
  - done.
  - intros [|x l]; [done|]. simpl. by repeat case_match.
  - intros l x l'. apply list_pop_spec.
Defined.

Definition sample_sources : list (list Entry) :=
  [[mkEntry [97] [1] 5 Value; mkEntry [98] [2] 6 Value]; [];
   [mkEntry [97] [] 7 Tombstone; mkEntry [97] [3] 2 Value]].

Lemma sample_sources_sorted : Forall sorted sample_sources.
Proof. unfold sample_sources. repeat constructor; vm_compute; discriminate. Qed.

Lemma merge_sources_sorted_permutation_witness :
  (exists out, merge_sources (BH := list_heap) sample_sources = Ok out /\ sorted out /\
    out ≡ₚ concat sample_sources) /\
  merge_sources (BH := list_heap) sample_sources =
    Ok [mkEntry [97] [] 7 Tombstone; mkEntry [97] [1] 5 Value; mkEntry [97] [3] 2 Value; mkEntry [98] [2] 6 Value].
Proof.
  split; [|vm_compute; reflexivity].
  exact (merge_sources_sorted_permutation (BH := list_heap) sample_sources sample_sources_sorted).
Defined.
