(* ===== verification/Streams.v ===== *)
(** * MVCC and compaction streams
    (turba-engine/src/merge_op.rs, mvcc.rs, compaction/stream.rs)

    Both streams consume a run of entries in internal-key order, one user key at
    a time: [MvccStream] shows a reader the visible version of each key (or the
    fold of its versions, for a key a merge operator owns), [CompactionStream]
    drops what no current reader needs. The main theorem is that a compaction
    does not change what readers see. An iterator is the list of what it still
    yields. *)

From S2P Require Import Prelude Types Block Merge.

(** [trait MergeOperator]; [operand] is not in the code: it says which values of a
    key the operator is meant for. *)
Class MergeOperator := {
  owns : bytes -> bool;
  merge : bytes -> list bytes -> bytes;
  operand : bytes -> bytes -> Prop;
}.

(** The contract of the trait ("the combine MUST be associative and
    commutative"), as far as the storage engine uses it: folding a stretch of a
    key's operands first does not change the fold of all of them. *)
Class MergeOperatorLaws (op : MergeOperator) : Prop := {
  merge_operand k vs : vs <> [] -> Forall (operand k) vs -> operand k (merge k vs);
  merge_assoc k pre mid post : mid <> [] -> Forall (operand k) (pre ++ mid ++ post) ->
    merge k (pre ++ [merge k mid] ++ post) = merge k (pre ++ mid ++ post);
}.

Section streams.
Context (merge_operator : option MergeOperator).

(** [merge_operator.as_ref().is_some_and(|op| op.owns(key))] *)
Definition owned (k : bytes) : bool :=
  match merge_operator with Some op => owns k | None => false end.

(** [op.merge(..)], called on owned keys only. *)
Definition merge_values (k : bytes) (vs : list bytes) : bytes :=
  match merge_operator with Some op => merge k vs | None => [] end.

(** [drain_same_key]: the run of entries of the key, and the rest. *)
Fixpoint drain_same_key (k : bytes) (inner : list Entry) : list Entry * list Entry :=
  match inner with
  | [] => ([], [])
  | peeked :: rest =>
    if beqb (key peeked) k
    then let '(run, rest) := drain_same_key k rest in (peeked :: run, rest)
    else ([], inner)
  end.

(** ** MvccStream *)

Section mvcc.
Context (visible_seqno : SeqNo).

(** The [for e in &run] loop over an owned key's versions: the live values and
    their newest sequence number, and the newest visible tombstone. *)
Fixpoint fold_loop (run : list Entry) (live : list bytes) (newest_live_seqno : SeqNo)
    (newest_visible_tombstone : option Entry) (last_seqno : option SeqNo)
    : list bytes * SeqNo * option Entry :=
  match run with
  | [] => (live, newest_live_seqno, newest_visible_tombstone)
  | e :: rest =>
    if visible_seqno <? seqno e
    then fold_loop rest live newest_live_seqno newest_visible_tombstone last_seqno
    else if bool_decide (last_seqno = Some (seqno e))
    then fold_loop rest live newest_live_seqno newest_visible_tombstone last_seqno
    else match value_type e with
    | Tombstone =>
      (live, newest_live_seqno,
       match live with [] => Some e | _ => newest_visible_tombstone end)
    | Value =>
      fold_loop rest (live ++ [value e])
        (match live with [] => seqno e | _ => newest_live_seqno end)
        newest_visible_tombstone (Some (seqno e))
    end
  end.

(** What [next] yields for the run of an owned key ([None]: nothing visible). *)
Definition fold_run (k : bytes) (run : list Entry) : option Entry :=
  let '(live, newest_live_seqno, newest_visible_tombstone) := fold_loop run [] 0 None None in
  match live with
  | [] => newest_visible_tombstone
  | _ => Some (mkEntry k (merge_values k live) newest_live_seqno Value)
  end.

(** The inner loop that looks for a visible version of the key, and the skip of
    the versions after it. *)
Fixpoint find_visible (k : bytes) (inner : list Entry) : option Entry * list Entry :=
  match inner with
  | [] => (None, [])
  | next :: rest =>
    if beqb (key next) k then
      if seqno next <=? visible_seqno then (Some next, snd (drain_same_key k rest))
      else find_visible k rest
    else (None, inner)
  end.

(** [Iterator::next]: the entry and the rest of the stream; each round of its
    loop consumes an entry. *)
Fixpoint MvccStream_next (fuel : nat) (inner : list Entry) : option (Entry * list Entry) :=
  match fuel, inner with
  | O, _ => None
  | _, [] => None
  | S fuel', entry :: inner =>
    let current_key := key entry in
    if owned current_key then
      let '(run, inner) := drain_same_key current_key inner in
      match fold_run current_key (entry :: run) with
      | Some e => Some (e, inner)
      | None => MvccStream_next fuel' inner
      end
    else if seqno entry <=? visible_seqno then
      Some (entry, snd (drain_same_key current_key inner))
    else
      let '(found, inner) := find_visible current_key inner in
      match found with
      | Some next => Some (next, inner)
      | None => MvccStream_next fuel' inner
      end
  end.

Fixpoint MvccStream_loop (fuel : nat) (inner : list Entry) : list Entry :=
  match fuel with
  | O => []
  | S fuel' => match MvccStream_next fuel inner with
               | None => []
               | Some (e, inner') => e :: MvccStream_loop fuel' inner'
               end
  end.

(** The whole stream. *)
Definition MvccStream (inner : list Entry) : list Entry := MvccStream_loop (S (length inner)) inner.

End mvcc.

(** ** CompactionStream *)

Section compaction.
Context (is_last_level : bool).

(** [run.iter().position(|e| e.value_type == Tombstone)] *)
Fixpoint tomb_position (run : list Entry) : option nat :=
  match run with
  | [] => None
  | e :: rest => match value_type e with
                 | Tombstone => Some O
                 | Value => S <$> tomb_position rest
                 end
  end.

(** The loop that folds each distinct sequence number once. *)
Fixpoint distinct_vals (last_seqno : option SeqNo) (run : list Entry) : list bytes :=
  match run with
  | [] => []
  | e :: rest =>
    if bool_decide (last_seqno = Some (seqno e)) then distinct_vals last_seqno rest
    else value e :: distinct_vals (Some (seqno e)) rest
  end.

(** The entries [next] queues for the run of an owned key. *)
Definition compact_run (k : bytes) (run : list Entry) : list Entry :=
  let tomb := tomb_position run in
  let live_end := default (length run) tomb in
  let out :=
    if Nat.ltb 0 live_end then
      let vals := distinct_vals None (take live_end run) in
      match run with
      | first :: _ => [mkEntry k (merge_values k vals) (seqno first) Value]
      | [] => []
      end
    else [] in
  match tomb with
  | Some ti => if is_last_level then out
               else out ++ match run !! ti with Some t => [t] | None => [] end
  | None => out
  end.

(** [Iterator::next] on the pair of the input and the queue [pending]. *)
Fixpoint CompactionStream_next (fuel : nat) (inner pending : list Entry)
    : option (Entry * (list Entry * list Entry)) :=
  match pending with
  | e :: pending => Some (e, (inner, pending))
  | [] =>
    match fuel, inner with
    | O, _ => None
    | _, [] => None
    | S fuel', entry :: inner =>
      let k := key entry in
      let '(run, inner) := drain_same_key k inner in
      if owned k then
        match compact_run k (entry :: run) with
        | first :: out => Some (first, (inner, out))
        | [] => CompactionStream_next fuel' inner []
        end
      else
        if is_last_level && negb (is_value entry) then CompactionStream_next fuel' inner []
        else Some (entry, (inner, []))
    end
  end.

Fixpoint CompactionStream_loop (fuel : nat) (inner pending : list Entry) : list Entry :=
  match fuel with
  | O => []
  | S fuel' => match CompactionStream_next (S (length inner)) inner pending with
               | None => []
               | Some (e, (inner', pending')) => e :: CompactionStream_loop fuel' inner' pending'
               end
  end.

(** The whole stream: a key yields at most two entries. *)
Definition CompactionStream (inner : list Entry) : list Entry :=
  CompactionStream_loop (S (2 * length inner)) inner [].

End compaction.
End streams.

(** * Lemmas *)

(** The versions of a key. *)
Abbreviation versions k := (filter (fun e => key e = k)).

(** ** Runs of a key *)

Lemma drain_same_key_spec k es run rest :
  drain_same_key k es = (run, rest) ->
  es = run ++ rest /\ Forall (fun e => key e = k) run /\
  match rest with [] => True | e :: _ => key e <> k end.
Proof.
  revert run rest; induction es as [|e es IH]; intros run rest; simpl; [by intros [= <- <-]|].
  destruct (beqb (key e) k) eqn:E.
  - destruct (drain_same_key k es) as [r1 r2]. intros [= <- <-].
    destruct (IH r1 r2 eq_refl) as (-> & ? & ?). split; [done|]. split; [|done].
    constructor; [by apply beqb_eq|done].
  - intros [= <- <-]. split; [done|]. split; [done|]. by apply beqb_neq.
Qed.

(** In a sorted stream the run is all there is of the key. *)
Lemma drain_sorted e es run rest :
  sorted (e :: es) -> drain_same_key (key e) es = (run, rest) ->
  sorted rest /\ Forall (fun x => (key e < key x)%bytes) rest /\ (length rest <= length es)%nat.
Proof.
  intros Hs Hd. apply drain_same_key_spec in Hd as (-> & Hrun & Hrest).
  apply StronglySorted_inv in Hs as [Hs He].
  apply StronglySorted_app_1_r in Hs. split; [done|]. split; [|rewrite length_app; lia].
  apply Forall_app in He as [_ He].
  destruct rest as [|x rest]; [done|]. apply StronglySorted_inv in Hs as [_ Hx].
  apply Forall_cons in He as [Hex _].
  assert (key e < key x)%bytes as Hlt by (apply entry_le_key in Hex; border).
  constructor; [done|]. eapply Forall_impl; [exact Hx|]. intros y Hy%entry_le_key. simpl in *. border.
Qed.

Lemma versions_run k run : Forall (fun e => key e = k) run -> versions k run = run.
Proof. intros H. rewrite Forall_forall in H. by apply filter_all. Qed.

Lemma versions_none k es : Forall (fun e => key e <> k) es -> versions k es = [].
Proof. intros H. rewrite Forall_forall in H. by apply filter_none. Qed.

(** The stream that treats each run of a key with [f]. *)
Fixpoint by_runs (f : list Entry -> list Entry) (fuel : nat) (es : list Entry) : list Entry :=
  match fuel, es with
  | O, _ => []
  | _, [] => []
  | S fuel', e :: es =>
    let '(run, rest) := drain_same_key (key e) es in
    f (e :: run) ++ by_runs f fuel' rest
  end.

(** A treatment of runs that keeps to the key of the run. *)
Definition keyed (f : list Entry -> list Entry) : Prop :=
  f [] = [] /\ forall k run, Forall (fun e => key e = k) run -> Forall (fun e => key e = k) (f run).

Lemma keyed_elem f e run x :
  keyed f -> Forall (fun y => key y = key e) run -> x ∈ f (e :: run) -> key x = key e.
Proof.
  intros [_ Hf] Hrun Hx. specialize (Hf (key e) (e :: run) ltac:(by constructor)).
  rewrite Forall_forall in Hf. by apply Hf.
Qed.

Lemma by_runs_keys f fuel es :
  keyed f -> forall x, x ∈ by_runs f fuel es -> exists y, y ∈ es /\ key y = key x.
Proof.
  intros Hf. revert es; induction fuel as [|fuel IH]; intros es x; [by intros ?%elem_of_nil|].
  destruct es as [|e es]; [by intros ?%elem_of_nil|]. simpl.
  destruct (drain_same_key (key e) es) as [run rest] eqn:Ed.
  apply drain_same_key_spec in Ed as (-> & Hrun & _). intros [Hx|Hx]%elem_of_app.
  - exists e. split; [by left|]. symmetry. by eapply keyed_elem.
  - destruct (IH rest x Hx) as (y & Hy & ?). exists y. split; [|done]. right. apply elem_of_app. by right.
Qed.

(** Key by key, such a stream is the treatment of the key's versions. *)
Lemma versions_by_runs f fuel es k :
  keyed f -> sorted es -> (length es <= fuel)%nat ->
  versions k (by_runs f fuel es) = f (versions k es).
Proof.
  intros Hf. pose proof Hf as [Hnil Hk]. revert es; induction fuel as [|fuel IH]; intros es Hs Hlen.
  { destruct es; [done|simpl in Hlen; lia]. }
  destruct es as [|e es]; [done|]. simpl.
  destruct (drain_same_key (key e) es) as [run rest] eqn:Ed.
  pose proof (drain_sorted _ _ _ _ Hs Ed) as (Hsr & Hlt & Hl).
  apply drain_same_key_spec in Ed as (-> & Hrun & _).
  assert (Forall (fun x => key x = key e) (e :: run)) as Hrun' by (by constructor).
  rewrite filter_app, IH by (done || simpl in Hlen; lia).
  change (e :: run ++ rest) with ((e :: run) ++ rest). rewrite (filter_app _ (e :: run) rest).
  destruct (decide (key e = k)) as [<-|Hne].
  - rewrite (versions_run _ _ Hrun'), (versions_none _ rest), app_nil_r, Hnil, app_nil_r.
    + by apply versions_run, Hk.
    + eapply Forall_impl; [exact Hlt|]. intros x ? ?. simpl in *. border.
  - rewrite (versions_none k (e :: run)), (versions_none k (f (e :: run))); [done| |].
    + eapply Forall_impl; [by apply Hk|]. intros x Hx. simpl in *. congruence.
    + eapply Forall_impl; [exact Hrun'|]. intros x Hx. simpl in *. congruence.
Qed.

(** If the treatment of a sorted run is sorted, so is the stream. *)
Lemma by_runs_sorted f fuel es (R : relation Entry) :
  keyed f -> sorted es -> (forall a b, (key a < key b)%bytes -> R a b) ->
  (forall run, sorted run -> StronglySorted R (f run)) ->
  StronglySorted R (by_runs f fuel es).
Proof.
  intros Hf Hs HR Hrunf. revert es Hs; induction fuel as [|fuel IH]; intros es Hs; [constructor|].
  destruct es as [|e es]; [constructor|]. simpl.
  destruct (drain_same_key (key e) es) as [run rest] eqn:Ed.
  pose proof (drain_sorted _ _ _ _ Hs Ed) as (Hsr & Hlt & Hl).
  apply drain_same_key_spec in Ed as (-> & Hrun & _).
  apply StronglySorted_app. split; [|split; [|by apply IH]].
  - intros x y Hx Hy. apply HR.
    destruct (by_runs_keys _ _ _ Hf _ Hy) as (z & Hz & <-).
    rewrite (keyed_elem _ _ _ _ Hf Hrun Hx). rewrite Forall_forall in Hlt. by apply Hlt.
  - apply Hrunf. change (e :: run ++ rest) with ((e :: run) ++ rest) in Hs.
    by apply StronglySorted_app_1_l in Hs.
Qed.

Lemma drain_length k es run rest : drain_same_key k es = (run, rest) -> (length rest <= length es)%nat.
Proof. intros (-> & _ & _)%drain_same_key_spec. rewrite length_app. lia. Qed.

Lemma by_runs_fuel f n m es :
  (length es <= n)%nat -> (length es <= m)%nat -> by_runs f n es = by_runs f m es.
Proof.
  revert m es; induction n as [|n IH]; intros m es Hn Hm.
  { destruct es; [by destruct m|simpl in Hn; lia]. }
  destruct es as [|e es]; [by destruct m|]. destruct m as [|m]; [simpl in Hm; lia|]. simpl in *.
  destruct (drain_same_key (key e) es) as [run rest] eqn:Ed. apply drain_length in Ed.
  f_equal. apply IH; lia.
Qed.

Section stream_runs.
Context (mo : option MergeOperator).

(** ** The MVCC stream, run by run *)

Definition mvcc_run (s : SeqNo) (run : list Entry) : list Entry :=
  match run with
  | [] => []
  | e :: _ => option_list (if owned mo (key e) then fold_run mo s (key e) run
                           else first_visible run (key e) s)
  end.

Lemma find_visible_spec s k es run rest :
  drain_same_key k es = (run, rest) -> find_visible s k es = (first_visible run k s, rest).
Proof.
  revert run rest; induction es as [|e es IH]; intros run rest; simpl; [by intros [= <- <-]|].
  destruct (beqb (key e) k) eqn:E; [|by intros [= <- <-]].
  destruct (drain_same_key k es) as [r1 r2]. intros [= <- <-]. simpl. rewrite E. simpl.
  case_match; [done|]. by apply IH.
Qed.

Lemma MvccStream_next_spec s fuel es n :
  (length es < fuel)%nat -> (length es <= n)%nat ->
  match MvccStream_next mo s fuel es with
  | None => by_runs (mvcc_run s) n es = []
  | Some (e, es') => (length es' < length es)%nat /\ by_runs (mvcc_run s) n es = e :: by_runs (mvcc_run s) n es'
  end.
Proof.
  revert n es; induction fuel as [|fuel IH]; intros n es Hf Hn; [lia|].
  destruct es as [|e es]; [by destruct n|]. destruct n as [|n]; [simpl in Hn; lia|].
  cbn [MvccStream_next by_runs]. cbv zeta. simpl in Hf, Hn.
  destruct (drain_same_key (key e) es) as [run rest] eqn:Ed. pose proof (drain_length _ _ _ _ Ed) as Hl.
  assert (by_runs (mvcc_run s) n rest = by_runs (mvcc_run s) (S n) rest) as Hfu by (apply by_runs_fuel; lia).
  specialize (IH (S n) rest ltac:(lia) ltac:(lia)).
  rewrite Hfu. change (mvcc_run s (e :: run)) with
    (option_list (if owned mo (key e) then fold_run mo s (key e) (e :: run) else first_visible (e :: run) (key e) s)).
  destruct (owned mo (key e)).
  - destruct (fold_run mo s (key e) (e :: run)) as [x|]; simpl option_list; cbn [app].
    + split; [simpl; lia|done].
    + revert IH. destruct (MvccStream_next mo s fuel rest) as [[x es']|]; [|done]. intros [? ?]. simpl. split; [lia|done].
  - cbn [first_visible]. rewrite beqb_refl. simpl andb.
    destruct (seqno e <=? s); [simpl; split; [lia|done]|].
    rewrite (find_visible_spec _ _ _ _ _ Ed).
    destruct (first_visible run (key e) s) as [x|]; simpl option_list; cbn [app].
    + simpl. split; [lia|done].
    + revert IH. destruct (MvccStream_next mo s fuel rest) as [[x es']|]; [|done]. intros [? ?]. simpl. split; [lia|done].
Qed.

Lemma MvccStream_by_runs s es : MvccStream mo s es = by_runs (mvcc_run s) (length es) es.
Proof.
  unfold MvccStream.
  assert (forall fuel n es, (length es < fuel)%nat -> (length es <= n)%nat ->
    MvccStream_loop mo s fuel es = by_runs (mvcc_run s) n es) as H; [|apply H; lia].
  clear es. induction fuel as [|fuel IH]; intros n es Hf Hn; [lia|]. cbn [MvccStream_loop].
  pose proof (MvccStream_next_spec s (S fuel) es n Hf Hn) as H.
  destruct (MvccStream_next mo s (S fuel) es) as [[e es']|]; [|done].
  destruct H as [Hl ->]. f_equal. apply IH; lia.
Qed.

Lemma fold_loop_tombstone s run l n t ls live n' e :
  fold_loop s run l n t ls = (live, n', Some e) -> Some e = t \/ e ∈ run.
Proof.
  revert l n ls; induction run as [|x run IH]; intros l n ls; simpl; [intros; simplify_eq; by left|].
  assert (forall l n ls, fold_loop s run l n t ls = (live, n', Some e) -> Some e = t \/ e ∈ x :: run) as IH'.
  { intros l0 n0 ls0 H. destruct (IH _ _ _ H); [by left|]. right. by right. }
  repeat case_match; eauto; intros; simplify_eq; eauto. right. by left.
Qed.

Lemma keyed_mvcc_run s : keyed (mvcc_run s).
Proof.
  split; [done|]. intros k run Hrun. unfold mvcc_run. destruct run as [|e run]; [done|].
  pose proof Hrun as Hrun'. apply Forall_cons in Hrun' as [<- _]. case_match.
  - unfold fold_run. destruct (fold_loop s (e :: run) [] 0 None None) as [[live n] t] eqn:E.
    destruct live; [|simpl; by repeat constructor]. destruct t as [x|]; [|constructor].
    apply fold_loop_tombstone in E as [?|Hx]; [done|]. simpl. constructor; [|constructor].
    rewrite Forall_forall in Hrun. by apply Hrun.
  - destruct (first_visible (e :: run) (key e) s) as [x|] eqn:E; [|constructor].
    apply first_visible_Some in E as (_ & ? & _). by repeat constructor.
Qed.

Lemma versions_MvccStream s k es :
  sorted es -> versions k (MvccStream mo s es) = mvcc_run s (versions k es).
Proof. intros. rewrite MvccStream_by_runs. apply versions_by_runs; [apply keyed_mvcc_run|done|done]. Qed.

(** ** The compaction stream, run by run *)

Definition compaction_run (last : bool) (run : list Entry) : list Entry :=
  match run with
  | [] => []
  | e :: _ => if owned mo (key e) then compact_run mo last (key e) run
              else if last && negb (is_value e) then [] else [e]
  end.

Lemma compact_run_length last k run : (length (compact_run mo last k run) <= 2)%nat.
Proof. unfold compact_run. repeat case_match; simpl; lia. Qed.

Lemma CompactionStream_next_spec last fuel es n :
  (length es < fuel)%nat -> (length es <= n)%nat ->
  match CompactionStream_next mo last fuel es [] with
  | None => by_runs (compaction_run last) n es = []
  | Some (e, (es', pend)) => (length es' < length es)%nat /\ (length pend <= 1)%nat /\
      by_runs (compaction_run last) n es = e :: pend ++ by_runs (compaction_run last) n es'
  end.
Proof.
  revert n es; induction fuel as [|fuel IH]; intros n es Hf Hn; [lia|].
  destruct es as [|e es]; [by destruct n|]. destruct n as [|n]; [simpl in Hn; lia|].
  cbn [CompactionStream_next by_runs]. cbv zeta. simpl in Hf, Hn.
  destruct (drain_same_key (key e) es) as [run rest] eqn:Ed. pose proof (drain_length _ _ _ _ Ed) as Hl.
  assert (by_runs (compaction_run last) n rest = by_runs (compaction_run last) (S n) rest) as Hfu
    by (apply by_runs_fuel; lia).
  specialize (IH (S n) rest ltac:(lia) ltac:(lia)).
  rewrite Hfu. change (compaction_run last (e :: run)) with
    (if owned mo (key e) then compact_run mo last (key e) (e :: run)
     else if last && negb (is_value e) then [] else [e]).
  destruct (owned mo (key e)).
  - pose proof (compact_run_length last (key e) (e :: run)) as Hc.
    destruct (compact_run mo last (key e) (e :: run)) as [|x out]; cbn [app] in *.
    + revert IH. destruct (CompactionStream_next mo last fuel rest []) as [[x [es' p]]|]; [|done].
      simpl. intros (? & ? & ?). split; [lia|]. split; [lia|done].
    + simpl in *. split; [lia|]. split; [lia|done].
  - destruct (last && negb (is_value e)); cbn [app].
    + revert IH. destruct (CompactionStream_next mo last fuel rest []) as [[x [es' p]]|]; [|done].
      simpl. intros (? & ? & ?). split; [lia|]. split; [lia|done].
    + simpl. split; [lia|]. split; [lia|done].
Qed.

Lemma CompactionStream_by_runs last es :
  CompactionStream mo last es = by_runs (compaction_run last) (length es) es.
Proof.
  unfold CompactionStream.
  assert (forall fuel n es pend, (2 * length es + length pend < fuel)%nat -> (length es <= n)%nat ->
    CompactionStream_loop mo last fuel es pend = pend ++ by_runs (compaction_run last) n es) as H.
  2:{ rewrite (H _ (length es)) by (simpl; lia). done. }
  clear es. induction fuel as [|fuel IH]; intros n es pend Hf Hn; [lia|]. cbn [CompactionStream_loop].
  destruct pend as [|p pend]; simpl in Hf.
  - pose proof (CompactionStream_next_spec last (S (length es)) es n ltac:(lia) Hn) as H.
    destruct (CompactionStream_next mo last (S (length es)) es []) as [[e [es' pend]]|]; [|by rewrite H].
    destruct H as (Hl & Hp & Heq). simpl app. rewrite Heq. f_equal. apply IH; simpl; lia.
  - cbn [CompactionStream_next app]. f_equal. apply IH; lia.
Qed.

Lemma keyed_compaction_run last : keyed (compaction_run last).
Proof.
  split; [done|]. intros k run Hrun. unfold compaction_run. destruct run as [|e run]; [done|].
  pose proof Hrun as Hrun'. apply Forall_cons in Hrun' as [<- _]. case_match.
  - unfold compact_run. cbv zeta. destruct (tomb_position (e :: run)) as [ti|]; [|repeat case_match; by repeat constructor].
    assert (Forall (fun x => key x = key e)
      match (e :: run) !! ti with Some t => [t] | None => [] end) as Ht.
    { destruct ((e :: run) !! ti) eqn:Et; [|constructor]. rewrite Forall_lookup in Hrun.
      constructor; [by eapply Hrun|constructor]. }
    repeat case_match; rewrite ?Forall_app; try (split; [|done]); by repeat constructor.
  - case_match; by repeat constructor.
Qed.

Lemma versions_CompactionStream last k es :
  sorted es -> versions k (CompactionStream mo last es) = compaction_run last (versions k es).
Proof. intros. rewrite CompactionStream_by_runs. apply versions_by_runs; [apply keyed_compaction_run|done|done]. Qed.

End stream_runs.

(** ** What a reader sees *)

(** The value a scan at [s] shows for [k] over the stream [es]. *)
Definition scan_value (mo : option MergeOperator) (s : SeqNo) (k : bytes) (es : list Entry) : option bytes :=
  live (head (versions k (MvccStream mo s es))).

Lemma first_visible_versions es k s : first_visible (versions k es) k s = first_visible es k s.
Proof.
  induction es as [|e es IH]; [done|]. rewrite filter_cons. simpl. case_decide as Hk.
  - simpl. by rewrite IH.
  - rewrite (proj2 (beqb_neq (key e) k)) by done. done.
Qed.

Lemma sorted_versions k es : sorted es -> sorted (versions k es).
Proof.
  induction 1 as [|e es Hs IH He]; [constructor|]. rewrite filter_cons. case_decide; [|done].
  constructor; [done|]. rewrite Forall_forall in *. intros x [_ Hx]%list_elem_of_filter. auto.
Qed.

(** The MVCC stream over a sorted stream has at most one entry per key, in
    key order, and for each key it is the newest version the snapshot may see
    (none if there is none), tombstones included. *)
Theorem MvccStream_newest s es :
  sorted es ->
  StronglySorted (fun a b => (key a < key b)%bytes) (MvccStream None s es) /\
  forall k, exists o, newest s k es o /\ versions k (MvccStream None s es) = option_list o.
Proof.
  intros Hs. split.
  - rewrite MvccStream_by_runs. apply by_runs_sorted; [apply keyed_mvcc_run|done|done|].
    intros [|e run] _; [constructor|]. unfold mvcc_run.
    destruct (if owned None (key e) then _ else _); repeat constructor.
  - intros k. exists (first_visible es k s). split; [by apply first_visible_newest|].
    rewrite versions_MvccStream, <- (first_visible_versions es k s) by done.
    destruct (versions k es) as [|e run] eqn:E; [done|].
    assert (key e = k) as <- by (assert (e ∈ versions k es) as [? _]%list_elem_of_filter by (rewrite E; by left); done).
    done.
Qed.

(** The values the fold of an owned key combines. *)
Fixpoint live_vals (s : SeqNo) (last : option SeqNo) (run : list Entry) : list bytes :=
  match run with
  | [] => []
  | e :: rest =>
    if s <? seqno e then live_vals s last rest
    else if bool_decide (last = Some (seqno e)) then live_vals s last rest
    else match value_type e with
         | Tombstone => []
         | Value => value e :: live_vals s (Some (seqno e)) rest
         end
  end.

Lemma fold_loop_live s run l n t ls :
  exists n' t', fold_loop s run l n t ls = (l ++ live_vals s ls run, n', t') /\
    (live t = None -> live t' = None).
Proof.
  revert l n ls; induction run as [|e run IH]; intros l n ls; simpl.
  { rewrite app_nil_r. eauto. }
  destruct (s <? seqno e); [apply IH|]. destruct (bool_decide _); [apply IH|].
  destruct (value_type e) eqn:Et.
  - destruct (IH (l ++ [value e]) (match l with [] => seqno e | _ => n end) (Some (seqno e))) as (n' & t' & -> & Ht).
    rewrite <- app_assoc. eauto.
  - rewrite app_nil_r. eexists _, _. split; [done|]. destruct l; [|done]. intros _. simpl. by rewrite Et.
Qed.

Definition fold_values (mo : option MergeOperator) (k : bytes) (vs : list bytes) : option bytes :=
  match vs with [] => None | _ => Some (merge_values mo k vs) end.

Lemma live_fold_run mo s k run :
  live (fold_run mo s k run) =
  fold_values mo k (live_vals s None run).
Proof.
  unfold fold_run. destruct (fold_loop_live s run [] 0 None None) as (n & t & -> & Ht). simpl.
  destruct (live_vals s None run); [by apply Ht|done].
Qed.

Lemma scan_value_run mo s k es :
  sorted es ->
  scan_value mo s k es =
  if owned mo k then
    fold_values mo k (live_vals s None (versions k es))
  else live (first_visible (versions k es) k s).
Proof.
  intros Hs. unfold scan_value. rewrite versions_MvccStream by done.
  destruct (versions k es) as [|e run] eqn:E; [simpl; by case_match|].
  assert (key e = k) as <- by (assert (e ∈ versions k es) as [? _]%list_elem_of_filter by (rewrite E; by left); done).
  unfold mvcc_run. destruct (owned mo (key e)).
  - rewrite <- live_fold_run. by destruct (fold_run mo s (key e) (e :: run)).
  - by destruct (first_visible (e :: run) (key e) s).
Qed.

(** Does the fold of the run meet a visible tombstone? *)
Definition resets (s : SeqNo) (run : list Entry) : bool :=
  existsb (fun e => negb (is_value e) && (seqno e <=? s)) run.

(** Entries all above, resp. below, a sequence number do not meet the
    duplicate test across them. *)
Lemma live_vals_last s l run :
  (forall e, e ∈ run -> l <> Some (seqno e)) -> live_vals s l run = live_vals s None run.
Proof.
  induction run as [|e run IH]; intros Hl; [done|]. simpl.
  rewrite (bool_decide_eq_false_2 (l = Some (seqno e))) by (apply Hl; by left).
  case_match; [|done]. apply IH. intros x Hx. apply Hl. by right.
Qed.

(** An upper stretch whose duplicates are equal entries, over a lower one. *)
Lemma live_vals_app s l u r :
  (forall a b, a ∈ u -> b ∈ u -> key a = key b -> seqno a = seqno b -> a = b) ->
  (forall a b, a ∈ u -> b ∈ u -> key a = key b) ->
  (forall a b, a ∈ u -> b ∈ r -> seqno b < seqno a) ->
  (forall b, b ∈ r -> l <> Some (seqno b)) ->
  (forall a, a ∈ u -> l = Some (seqno a) -> is_value a = true) ->
  live_vals s l (u ++ r) =
  live_vals s l u ++ (if resets s u then [] else live_vals s None r).
Proof.
  intros Hu Hk Hlt. revert l; induction u as [|e u IH]; intros l Hl Hlu; simpl.
  { by apply live_vals_last. }
  assert (forall l, (forall b, b ∈ r -> l <> Some (seqno b)) ->
    (forall a, a ∈ u -> l = Some (seqno a) -> is_value a = true) ->
    live_vals s l (u ++ r) = live_vals s l u ++ (if resets s u then [] else live_vals s None r)) as IH'.
  { intros l' ??. apply IH; try done; intros; try (apply Hu || apply Hk || apply Hlt); try done; by right. }
  unfold resets in *. simpl. rewrite (Z.leb_antisym s (seqno e)).
  destruct (s <? seqno e) eqn:Es; simpl.
  { rewrite andb_false_r. simpl. apply IH'; [done|]. intros a Ha. apply Hlu. by right. }
  rewrite andb_true_r.
  destruct (bool_decide (l = Some (seqno e))) eqn:Ed.
  - apply bool_decide_eq_true in Ed. rewrite (Hlu e) by (done || by left). simpl.
    apply IH'; [done|]. intros a Ha. apply Hlu. by right.
  - unfold is_value. destruct (value_type e) eqn:Et; simpl; [|done]. f_equal. apply IH'.
    + intros b Hb [= Heq]. specialize (Hlt e b ltac:(by left) Hb). lia.
    + intros a Ha [= Heq]. rewrite <- (Hu e a); [unfold is_value; by rewrite Et|by left|by right| |done].
      apply Hk; [by left|by right].
Qed.

(** ** Compaction of one key's versions *)

(** The versions of one key, equal sequence numbers meaning equal entries. *)
Definition one_key (k : bytes) (run : list Entry) : Prop :=
  Forall (fun e => key e = k) run /\
  forall a b, a ∈ run -> b ∈ run -> seqno a = seqno b -> a = b.

Lemma one_key_cons k e run : one_key k (e :: run) -> key e = k /\ one_key k run.
Proof.
  intros [Hk Hu]. apply Forall_cons in Hk as [? ?]. split; [done|]. split; [done|].
  intros a b ??. apply Hu; by right.
Qed.

Lemma live_vals_distinct k s l c :
  one_key k c -> (forall e, e ∈ c -> seqno e <= s) ->
  (forall a, a ∈ c -> l = Some (seqno a) -> is_value a = true) ->
  live_vals s l c = distinct_vals l (take (default (length c) (tomb_position c)) c).
Proof.
  revert l; induction c as [|e c IH]; intros l Hok Hs Hl; [done|]. simpl.
  pose proof (one_key_cons _ _ _ Hok) as [_ Hok']. destruct Hok as [_ Hu].
  destruct (Z.ltb_spec s (seqno e)); [specialize (Hs e ltac:(by left)); lia|].
  assert (forall l, (forall a, a ∈ c -> l = Some (seqno a) -> is_value a = true) ->
    live_vals s l c = distinct_vals l (take (default (length c) (tomb_position c)) c)) as IH'.
  { intros l' Hl'. apply IH; [done| |done]. intros x Hx. apply Hs. by right. }
  assert (default (S (length c)) (S <$> tomb_position c) = S (default (length c) (tomb_position c))) as Hd
    by (by destruct (tomb_position c)).
  destruct (value_type e) eqn:Et; simpl.
  - rewrite Hd. simpl. destruct (bool_decide (l = Some (seqno e))).
    + apply IH'. intros a Ha. apply Hl. by right.
    + f_equal. apply IH'. intros a Ha [= Heq]. rewrite <- (Hu e a); [unfold is_value; by rewrite Et|by left|by right|done].
  - destruct (bool_decide (l = Some (seqno e))) eqn:Eb; [|done]. apply bool_decide_eq_true in Eb.
    specialize (Hl e ltac:(by left) Eb). unfold is_value in Hl. by rewrite Et in Hl.
Qed.

Lemma resets_tomb s c :
  (forall e, e ∈ c -> seqno e <= s) -> resets s c = match tomb_position c with Some _ => true | None => false end.
Proof.
  induction c as [|e c IH]; intros Hs; [done|]. unfold resets in *. simpl.
  rewrite IH by (intros x Hx; apply Hs; by right).
  rewrite (proj2 (Z.leb_le _ _)) by (apply Hs; by left). unfold is_value.
  destruct (value_type e); simpl; by destruct (tomb_position c).
Qed.

Lemma tomb_position_Some c ti :
  tomb_position c = Some ti -> exists t, c !! ti = Some t /\ value_type t = Tombstone.
Proof.
  revert ti; induction c as [|e c IH]; intros ti; simpl; [done|].
  destruct (value_type e) eqn:Et; [|intros [= <-]; eauto].
  destruct (tomb_position c) as [n|]; [|done]. intros [= <-]. by apply IH.
Qed.

(** The stretch of operands, folded. *)
Definition folded (mo : option MergeOperator) (k : bytes) (vals : list bytes) : list bytes :=
  match vals with [] => [] | _ => [merge_values mo k vals] end.

Lemma live_vals_compact_run mo k s last c l :
  one_key k c -> c <> [] -> (forall e, e ∈ c -> seqno e <= s) ->
  (forall a b, a ∈ c -> b ∈ l -> seqno b < seqno a) -> (last = true -> l = []) ->
  live_vals s None (compact_run mo last k c ++ l) =
  folded mo k (distinct_vals None (take (default (length c) (tomb_position c)) c)) ++
  (if tomb_position c is Some _ then [] else live_vals s None l).
Proof.
  intros Hok Hne Hs Hlt Hlast. destruct c as [|e c]; [done|].
  assert ((s <? seqno e) = false) as Hse by (apply Z.ltb_ge, Hs; by left).
  unfold compact_run. cbv zeta.
  destruct (value_type e) eqn:Et.
  2:{ assert (tomb_position (e :: c) = Some 0%nat) as -> by (simpl; by rewrite Et). simpl.
      destruct last; simpl; [by rewrite Hlast|]. by rewrite Hse, Et. }
  set (tp := tomb_position (e :: c)).
  assert (exists n, default (length (e :: c)) tp = S n /\ forall ti, tp = Some ti -> ti = S n) as (n & Hn & Hti).
  { unfold tp. simpl. rewrite Et. destruct (tomb_position c) as [m|]; simpl; [exists m; split; [done|by intros ? [= <-]]|].
    exists (length c). split; [done|by intros]. }
  rewrite Hn. change (0 <? S n)%nat with true. cbv iota.
  set (vals := distinct_vals None (take (S n) (e :: c))).
  assert (folded mo k vals = [merge_values mo k vals]) as -> by (unfold vals; simpl; done).
  assert (forall rest, live_vals s None (mkEntry k (merge_values mo k vals) (seqno e) Value :: rest) =
    merge_values mo k vals :: live_vals s (Some (seqno e)) rest) as Hhd.
  { intros rest. cbn [live_vals seqno value_type value]. rewrite Hse. done. }
  destruct tp as [ti|] eqn:Etp.
  - destruct (tomb_position_Some _ _ Etp) as (t & Ht & Htt). rewrite Ht.
    destruct last; [rewrite Hlast by done|]; cbn [app]; rewrite Hhd; [done|]. simpl.
    assert (t ∈ e :: c) as Htin by (by eapply list_elem_of_lookup_2).
    rewrite (proj2 (Z.ltb_ge s (seqno t))) by (by apply Hs). destruct Hok as [_ Hu].
    rewrite bool_decide_eq_false_2; [by rewrite Htt|]. intros [= Heq].
    rewrite (Hu e t) in Et; [congruence|by left|done|done].
  - cbn [app]. rewrite Hhd. f_equal. apply live_vals_last. intros b Hb [= Heq].
    specialize (Hlt e b ltac:(by left) Hb). lia.
Qed.

(** What a compaction queues for a run: versions of the run, or a fold with the
    newest one's sequence number. *)
Lemma compaction_run_elem mo last c b :
  b ∈ compaction_run mo last c ->
  exists a, a ∈ c /\ seqno a = seqno b /\ (b = a \/ value_type b = Value).
Proof.
  destruct c as [|e c]; [by intros ?%elem_of_nil|]. unfold compaction_run, compact_run. cbv zeta.
  assert (forall o : option nat, b ∈ (if o is Some ti then if (e :: c) !! ti is Some t then [t] else [] else []) ->
    exists a, a ∈ e :: c /\ seqno a = seqno b /\ (b = a \/ value_type b = Value)) as Ht.
  { intros [ti|]; [|by intros ?%elem_of_nil]. destruct ((e :: c) !! ti) eqn:E; [|by intros ?%elem_of_nil].
    intros ->%list_elem_of_singleton. apply list_elem_of_lookup_2 in E. eauto. }
  assert (forall v, b = mkEntry (key e) v (seqno e) Value ->
    exists a, a ∈ e :: c /\ seqno a = seqno b /\ (b = a \/ value_type b = Value)) as Hm.
  { intros v ->. exists e. split; [by left|]. split; [done|by right]. }
  destruct (owned mo (key e)).
  - intros H. destruct (tomb_position (e :: c)) as [ti|] eqn:Et.
    + destruct last; [|apply elem_of_app in H as [H|H]; [|by apply (Ht (Some ti))]];
        (case_match; [apply list_elem_of_singleton in H; by eapply Hm|by apply elem_of_nil in H]).
    + case_match; [apply list_elem_of_singleton in H; by eapply Hm|by apply elem_of_nil in H].
  - case_match; [by intros ?%elem_of_nil|]. intros ->%list_elem_of_singleton. exists e. split; [by left|]. split; [done|by left].
Qed.

Lemma compaction_run_seqno mo last c b :
  b ∈ compaction_run mo last c -> exists a, a ∈ c /\ seqno a = seqno b.
Proof. intros (a & Ha & Hs & _)%compaction_run_elem. eauto. Qed.

(** The values of owned keys are operands. *)
Definition entry_valid (mo : option MergeOperator) (e : Entry) : Prop :=
  match mo with Some op => owns (key e) = true -> value_type e = Value -> operand (key e) (value e) | None => True end.

Lemma valid_versions mo k es : Forall (entry_valid mo) es -> Forall (entry_valid mo) (versions k es).
Proof. rewrite !Forall_forall. intros H e [_ ?]%list_elem_of_filter. auto. Qed.

Lemma live_vals_valid op k s l run :
  owns k = true -> Forall (fun e => key e = k) run -> Forall (entry_valid (Some op)) run -> Forall (operand k) (live_vals s l run).
Proof.
  intros Ho Hk Hv. revert l. induction run as [|e run IH]; intros l; [constructor|].
  apply Forall_cons in Hk as [Hke Hk], Hv as [Hve Hv]. specialize (IH Hk Hv). simpl.
  destruct (s <? seqno e); [done|]. case_bool_decide; [done|]. destruct (value_type e) eqn:Et; constructor; [|done].
  rewrite <- Hke. apply Hve; congruence.
Qed.

Lemma distinct_vals_valid op k l run :
  owns k = true -> Forall (fun e => key e = k) run -> Forall (fun e => value_type e = Value) run ->
  Forall (entry_valid (Some op)) run -> Forall (operand k) (distinct_vals l run).
Proof.
  intros Ho Hk Ht Hv. revert l. induction run as [|e run IH]; intros l; [constructor|].
  apply Forall_cons in Hk as [Hke Hk], Hv as [Hve Hv], Ht as [Hte Ht]. specialize (IH Hk Ht Hv). simpl.
  case_bool_decide; [done|]. constructor; [|done]. rewrite <- Hke. apply Hve; congruence.
Qed.

(** The entries before the first tombstone. *)
Lemma tomb_position_values c : Forall (fun e => value_type e = Value) (take (default (length c) (tomb_position c)) c).
Proof.
  induction c as [|e c IH]; [constructor|]. simpl. destruct (value_type e) eqn:Et; [|constructor].
  assert (default (S (length c)) (S <$> tomb_position c) = S (default (length c) (tomb_position c))) as -> by (by destruct (tomb_position c)).
  by constructor.
Qed.

(** Folding a stretch of the operands does not change the fold. *)
Lemma merge_folded op k A V B :
  MergeOperatorLaws op -> Forall (operand k) (A ++ V ++ B) ->
  fold_values (Some op) k (A ++ V ++ B) = fold_values (Some op) k (A ++ folded (Some op) k V ++ B).
Proof.
  intros Hop Hv. destruct (decide (V = [])) as [->|HV]; [done|].
  assert (folded (Some op) k V = [merge k V]) as -> by (by destruct V).
  assert (forall vs : list bytes, vs <> [] ->
    fold_values (Some op) k vs = Some (merge k vs)) as H by (by intros []).
  rewrite !H; [by rewrite merge_assoc|by destruct A|]. destruct A, V; done.
Qed.

(** One key, seen through the layers above and below the compacted one. *)
Lemma compaction_run_live mo k s last u c l :
  (forall op, mo = Some op -> MergeOperatorLaws op) ->
  one_key k u -> one_key k c -> Forall (fun e => key e = k) l -> Forall (entry_valid mo) (u ++ c ++ l) ->
  (forall e, e ∈ c -> seqno e <= s) ->
  (forall a b, a ∈ u -> b ∈ c ++ l -> seqno b < seqno a) ->
  (forall a b, a ∈ c -> b ∈ l -> seqno b < seqno a) -> (last = true -> c <> [] -> l = []) ->
  (if owned mo k then
    fold_values mo k (live_vals s None (u ++ c ++ l))
  else live (first_visible (u ++ c ++ l) k s)) =
  (if owned mo k then
    fold_values mo k (live_vals s None (u ++ compaction_run mo last c ++ l))
  else live (first_visible (u ++ compaction_run mo last c ++ l) k s)).
Proof.
  intros Hlaw Hu Hc Hkl Hval Hs Huc Hcl Hlast. destruct (decide (c = [])) as [->|Hne]; [done|].
  specialize (fun H => Hlast H Hne).
  assert (forall e, e ∈ c -> key e = k) as Hck by (apply Forall_forall, Hc).
  unfold compaction_run. destruct c as [|e c]; [done|]. rewrite (Hck e) by (by left).
  destruct (owned mo k) eqn:Ho.
  - destruct mo as [op|]; [|done]. pose proof (Hlaw op eq_refl) as Hop.
    assert (forall X, (forall a b, a ∈ u -> b ∈ X -> seqno b < seqno a) ->
      live_vals s None (u ++ X) = live_vals s None u ++ (if resets s u then [] else live_vals s None X)) as Happ.
    { intros X HX. destruct Hu as [Huk Huu]. rewrite Forall_forall in Huk.
      apply live_vals_app; [by intros; apply Huu| |done..]. intros a b Ha Hb. by rewrite (Huk a Ha), (Huk b Hb). }
    assert (forall a b, a ∈ u -> b ∈ compact_run (Some op) last k (e :: c) ++ l -> seqno b < seqno a) as Hucc.
    { intros a b Ha [Hb|Hb]%elem_of_app; [|apply Huc; [done|apply elem_of_app; by right]].
      destruct (compaction_run_seqno (Some op) last (e :: c) b) as (b' & Hb' & <-).
      - unfold compaction_run. by rewrite (Hck e), Ho by (by left).
      - apply Huc; [done|apply elem_of_app; by left]. }
    rewrite (Happ _ Huc), (Happ _ Hucc).
    rewrite live_vals_compact_run by (done || auto).
    rewrite (live_vals_app s None (e :: c) l); [|by intros a b ?? _; apply Hc| |done..].
    2:{ intros a b Ha Hb. by rewrite (Hck a Ha), (Hck b Hb). }
    rewrite (live_vals_distinct k s None (e :: c)), (resets_tomb s (e :: c)) by done.
    apply Forall_app in Hval as [Hvu [Hvc Hvl]%Forall_app].
    destruct (resets s u); [done|].
    assert (Forall (operand k) (live_vals s None u)) as Vu by (apply (live_vals_valid op); [done|apply Hu|done]).
    assert (Forall (operand k) (live_vals s None l)) as Vl by (by apply (live_vals_valid op)).
    assert (Forall (operand k) (distinct_vals None (take (default (length (e :: c)) (tomb_position (e :: c))) (e :: c)))) as Vc.
    { apply (distinct_vals_valid op); [done|apply Forall_take, Hc|apply tomb_position_values|by apply Forall_take]. }
    destruct (tomb_position (e :: c)); apply (merge_folded op k); try done; by rewrite !Forall_app.
  - assert (seqno e <= s) as He by (apply Hs; by left).
    rewrite !first_visible_app. destruct (first_visible u k s); [done|]. cbn [first_visible].
    rewrite (Hck e), beqb_refl, (proj2 (Z.leb_le _ _) He) by (by left). simpl.
    destruct (last && negb (is_value e)) eqn:El; simpl.
    + apply andb_true_iff in El as [-> El]. rewrite Hlast by done. simpl. unfold is_value in El. by destruct (value_type e).
    + by rewrite (Hck e), beqb_refl, (proj2 (Z.leb_le _ _) He) by (by left).
Qed.

#[export] Instance entry_le_dec : RelDecision entry_le.
Proof. intros a b. unfold entry_le. apply _. Defined.
#[export] Instance entry_le_Total : Total entry_le.
Proof. intros a b. apply entry_le_total. Qed.

(** A sorted stream of one key's versions, taken from three layers, is the
    layers in order. *)
Lemma stratify k F X C Y :
  sorted F -> F ≡ₚ X ++ C ++ Y -> sorted C -> Forall (fun e => key e = k) F ->
  (forall a b, a ∈ F -> b ∈ F -> seqno a = seqno b -> a = b) ->
  (forall a b, a ∈ X -> b ∈ C ++ Y -> seqno b < seqno a) ->
  (forall a b, a ∈ C -> b ∈ Y -> seqno b < seqno a) ->
  F = merge_sort entry_le X ++ C ++ merge_sort entry_le Y.
Proof.
  intros HF Hp HC Hk Hu HX HY. rewrite Forall_forall in Hk.
  assert (forall a, a ∈ X ++ C ++ Y -> a ∈ F) as Hin by (intros a; by rewrite Hp).
  assert (forall a b, a ∈ F -> b ∈ F -> seqno b <= seqno a -> entry_le a b) as Hle.
  { intros a b Ha Hb ?. rewrite entry_le_iff. right. split; [by rewrite (Hk a Ha), (Hk b Hb)|done]. }
  apply (StronglySorted_unique_strong entry_le); [|done| |by rewrite !merge_sort_Permutation].
  - intros a b Ha Hb Hab Hba.
    assert (b ∈ F) by (apply Hin; by rewrite !merge_sort_Permutation in Hb). apply Hu; [done|done|].
    assert (key a = key b) by (rewrite (Hk a), (Hk b); done).
    apply Z.le_antisymm; [apply (entry_le_key_seqno b a)|apply (entry_le_key_seqno a b)]; congruence.
  - apply StronglySorted_app_2; [|apply StronglySorted_merge_sort; apply _|].
    + intros a b Ha Hb. rewrite merge_sort_Permutation in Ha.
      assert (b ∈ C ++ Y) as Hb' by (by rewrite merge_sort_Permutation in Hb). clear Hb.
      specialize (HX a b Ha Hb'). apply Hle; [| |lia]; apply Hin; rewrite !elem_of_app in *; tauto.
    + apply StronglySorted_app_2; [|done|apply StronglySorted_merge_sort; apply _].
      intros a b Ha Hb. rewrite merge_sort_Permutation in Hb.
      specialize (HY a b Ha Hb). apply Hle; [| |lia]; apply Hin; rewrite !elem_of_app in *; tauto.
Qed.

Lemma compaction_run_uniq mo last k c a b :
  one_key k c -> a ∈ compaction_run mo last c -> b ∈ compaction_run mo last c -> seqno a = seqno b -> a = b.
Proof.
  intros [_ Hu]. destruct c as [|e c]; [by intros ?%elem_of_nil|]. unfold compaction_run.
  assert (forall x y : Entry, x ∈ [y] -> x = y) as H1 by (intros x y ?; by apply list_elem_of_singleton).
  destruct (owned mo (key e)).
  2:{ case_match; [by intros ?%elem_of_nil|]. by intros ->%H1 ->%H1. }
  unfold compact_run. cbv zeta. destruct (tomb_position (e :: c)) as [ti|] eqn:Et.
  2:{ case_match; [|by intros ?%elem_of_nil]. by intros ->%H1 ->%H1. }
  destruct (tomb_position_Some _ _ Et) as (t & Ht & Htt). rewrite Ht. simpl default.
  destruct ti as [|ti]; [change (0 <? 0)%nat with false|change (0 <? S ti)%nat with true]; cbv iota.
  { destruct last; [by intros ?%elem_of_nil|]. by intros ->%H1 ->%H1. }
  destruct last; [by intros ->%H1 ->%H1|].
  assert (seqno e <> seqno t) as Hne.
  { intros Heq. rewrite (Hu e t) in Et; [|by left|by eapply list_elem_of_lookup_2|done]. simpl in Et. by rewrite Htt in Et. }
  cbn [app]. rewrite !elem_of_cons. intros [->|[->|?%elem_of_nil]] [->|[->|?%elem_of_nil]]; try done; simpl; congruence.
Qed.

Lemma compaction_run_sorted mo last c : sorted c -> sorted (compaction_run mo last c).
Proof.
  intros Hs. destruct c as [|e c]; [constructor|]. unfold compaction_run.
  destruct (owned mo (key e)); [|case_match; repeat constructor].
  unfold compact_run. cbv zeta. destruct (tomb_position (e :: c)) as [ti|] eqn:Et.
  2:{ case_match; repeat constructor. }
  destruct last; [case_match; repeat constructor|].
  destruct ((e :: c) !! ti) as [t|] eqn:Ht; [|rewrite app_nil_r; case_match; repeat constructor].
  case_match; [|repeat constructor]. cbn [app]. constructor; [repeat constructor|]. constructor; [|constructor].
  assert (entry_le e t) as Hle.
  { destruct ti as [|ti]; [simpl in Ht; by injection Ht as <-|]. by eapply (sorted_lookup (e :: c) 0 (S ti)); [|lia|..]. }
  rewrite entry_le_iff in *. done.
Qed.

Lemma CompactionStream_sorted mo last es : sorted es -> sorted (CompactionStream mo last es).
Proof.
  intros Hs. rewrite CompactionStream_by_runs. apply by_runs_sorted; [apply keyed_compaction_run|done| |].
  - intros a b ?. rewrite entry_le_iff. by left.
  - intros run. apply compaction_run_sorted.
Qed.

(** A compaction writes operands again. *)
Lemma compaction_run_valid mo last k c :
  (forall op, mo = Some op -> MergeOperatorLaws op) ->
  Forall (fun e => key e = k) c -> Forall (entry_valid mo) c -> Forall (entry_valid mo) (compaction_run mo last c).
Proof.
  intros Hlaw Hk Hv. destruct c as [|e c]; [constructor|]. pose proof Hk as [Hke _]%Forall_cons. pose proof Hv as [Hve _]%Forall_cons.
  unfold compaction_run. destruct (owned mo (key e)) eqn:Ho; [|case_match; by repeat constructor].
  destruct mo as [op|]; [|done]. rewrite Forall_forall. intros b Hb. unfold compact_run in Hb. cbv zeta in Hb.
  assert (forall o : option nat, b ∈ (if o is Some ti then if (e :: c) !! ti is Some t then [t] else [] else []) -> entry_valid (Some op) b) as Ht.
  { intros [ti|]; [|by intros ?%elem_of_nil]. destruct ((e :: c) !! ti) eqn:E; [|by intros ?%elem_of_nil].
    intros ->%list_elem_of_singleton. apply list_elem_of_lookup_2 in E. rewrite Forall_forall in Hv. auto. }
  set (n := default (length (e :: c)) (tomb_position (e :: c))) in *.
  assert (Nat.ltb 0 n = true -> entry_valid (Some op) (mkEntry (key e) (merge_values (Some op) (key e) (distinct_vals None (take n (e :: c)))) (seqno e) Value)) as Hm.
  { intros Hn%Nat.ltb_lt _ _. cbn [key value merge_values]. apply (merge_operand (MergeOperatorLaws := Hlaw op eq_refl)); [by destruct n; [lia|]|].
    apply (distinct_vals_valid op); [done|apply Forall_take; by rewrite Hke|apply tomb_position_values|by apply Forall_take]. }
  destruct (tomb_position (e :: c)) as [ti|] eqn:Et.
  - destruct last, (Nat.ltb 0 n) eqn:En; [apply list_elem_of_singleton in Hb as ->; auto|by apply elem_of_nil in Hb|
      apply elem_of_app in Hb as [->%list_elem_of_singleton|Hb]; [auto|by apply (Ht (Some ti))]|by apply (Ht (Some ti))].
  - destruct (Nat.ltb 0 n) eqn:En; [apply list_elem_of_singleton in Hb as ->; auto|by apply elem_of_nil in Hb].
Qed.

Lemma CompactionStream_valid mo last es :
  (forall op, mo = Some op -> MergeOperatorLaws op) -> sorted es ->
  Forall (entry_valid mo) es -> Forall (entry_valid mo) (CompactionStream mo last es).
Proof.
  intros Hlaw Hs Hv. apply Forall_forall. intros b Hb.
  assert (b ∈ versions (key b) (CompactionStream mo last es)) as Hb' by (by apply list_elem_of_filter).
  rewrite versions_CompactionStream in Hb' by done.
  assert (Forall (entry_valid mo) (compaction_run mo last (versions (key b) es))) as HF.
  { apply (compaction_run_valid mo last (key b)); [done| |by apply valid_versions]. apply Forall_forall. by intros e [? _]%list_elem_of_filter. }
  rewrite Forall_forall in HF. auto.
Qed.

Lemma CompactionStream_seqno mo last es b :
  sorted es -> b ∈ CompactionStream mo last es -> exists a, a ∈ es /\ key a = key b /\ seqno a = seqno b.
Proof.
  intros Hs Hb. assert (b ∈ versions (key b) (CompactionStream mo last es)) as Hv by (by apply list_elem_of_filter).
  rewrite versions_CompactionStream in Hv by done.
  apply compaction_run_seqno in Hv as (a & [Hk Ha]%list_elem_of_filter & ?). eauto.
Qed.

(** Without a merge operator, or at the last level, every key comes once. *)
Lemma CompactionStream_keys mo last es :
  sorted es -> mo = None \/ last = true ->
  StronglySorted (fun a b => (key a < key b)%bytes) (CompactionStream mo last es).
Proof.
  intros Hs Hm. rewrite CompactionStream_by_runs.
  apply by_runs_sorted; [apply keyed_compaction_run|done|done|].
  intros [|e run] _; [constructor|]. unfold compaction_run.
  destruct (owned mo (key e)) eqn:Eo; [|case_match; repeat constructor].
  destruct Hm as [->| ->]; [done|]. unfold compact_run. cbv zeta. repeat case_match; repeat constructor.
Qed.

(** With one write per key and sequence number, so does the stream. *)
Lemma compaction_run_NoDup mo last k c : one_key k c -> NoDup (compaction_run mo last c).
Proof.
  intros [_ Hu]. assert (forall x : Entry, NoDup [x]) as H1 by (intros; apply NoDup_singleton).
  destruct c as [|e c]; [constructor|]. unfold compaction_run.
  destruct (owned mo (key e)); [|case_match; [constructor|done]].
  unfold compact_run. cbv zeta. destruct (tomb_position (e :: c)) as [ti|] eqn:Et; [|case_match; [done|constructor]].
  destruct (tomb_position_Some _ _ Et) as (t & Ht & Htt). rewrite Ht. simpl default.
  destruct last; [case_match; [done|constructor]|]. destruct (0 <? ti)%nat eqn:Ei; [|apply H1]. cbn [app].
  constructor; [|apply H1]. intros Heq%list_elem_of_singleton. rewrite <- Heq in Htt. done.
Qed.

Lemma NoDup_versions es : (forall k, NoDup (versions k es)) -> NoDup es.
Proof.
  induction es as [|e es IH]; intros H; constructor.
  - intros He. specialize (H (key e)). rewrite filter_cons, decide_True in H by done.
    apply NoDup_cons in H as [H _]. apply H. by apply list_elem_of_filter.
  - apply IH. intros k. specialize (H k). rewrite filter_cons in H. case_decide; [by apply NoDup_cons in H as [_ ?]|done].
Qed.

Section stream_uniq.
Context (mo : option MergeOperator) (last : bool) (es : list Entry).
Hypothesis Hs : sorted es.
Hypothesis Hu : forall a b, a ∈ es -> b ∈ es -> key a = key b -> seqno a = seqno b -> a = b.

Lemma one_key_versions k : one_key k (versions k es).
Proof.
  split; [apply Forall_forall; by intros e [? _]%list_elem_of_filter|].
  intros a b [? Ha]%list_elem_of_filter [? Hb]%list_elem_of_filter. apply Hu; [done|done|congruence].
Qed.

Lemma CompactionStream_uniq a b :
  a ∈ CompactionStream mo last es -> b ∈ CompactionStream mo last es -> key a = key b -> seqno a = seqno b -> a = b.
Proof.
  intros Ha Hb Hk. apply (compaction_run_uniq mo last (key a) (versions (key a) es)); [apply one_key_versions|..];
    rewrite <- versions_CompactionStream by done; by apply list_elem_of_filter.
Qed.

Lemma CompactionStream_NoDup : NoDup (CompactionStream mo last es).
Proof.
  apply NoDup_versions. intros k. rewrite versions_CompactionStream by done. eapply compaction_run_NoDup, one_key_versions.
Qed.

End stream_uniq.

(** A plain key keeps its newest version, or nothing. *)
Lemma CompactionStream_plain mo last es b :
  sorted es -> owned mo (key b) = false -> b ∈ CompactionStream mo last es ->
  b ∈ es /\ forall e, e ∈ es -> key e = key b -> seqno e <= seqno b.
Proof.
  intros Hs Ho Hb. assert (b ∈ versions (key b) (CompactionStream mo last es)) as Hv by (by apply list_elem_of_filter).
  rewrite versions_CompactionStream in Hv by done. pose proof (sorted_versions (key b) es Hs) as Hsv.
  destruct (versions (key b) es) as [|x c] eqn:E; [by apply elem_of_nil in Hv|].
  assert (x ∈ versions (key b) es) as [Hkx Hx]%list_elem_of_filter by (rewrite E; by left).
  unfold compaction_run in Hv. rewrite Hkx, Ho in Hv. case_match; [by apply elem_of_nil in Hv|].
  apply list_elem_of_singleton in Hv as ->. split; [done|]. intros e He Hk.
  assert (e ∈ versions (key x) es) as He' by (by apply list_elem_of_filter). rewrite E in He'.
  apply StronglySorted_inv in Hsv as [_ Hsv]. rewrite Forall_forall in Hsv. apply elem_of_cons in He' as [->|He']; [lia|].
  apply (entry_le_key_seqno x e); [by apply Hsv|done].
Qed.

(** The newest version of a plain key survives, unless it is a tombstone that
    reached the last level. *)
Lemma CompactionStream_keeps mo last es e :
  sorted es -> owned mo (key e) = false -> e ∈ es ->
  (forall e', e' ∈ es -> key e' = key e -> seqno e' <= seqno e) ->
  (forall e', e' ∈ es -> key e' = key e -> seqno e' = seqno e -> e' = e) ->
  e ∈ CompactionStream mo last es \/ (last = true /\ value_type e = Tombstone /\ versions (key e) (CompactionStream mo last es) = []).
Proof.
  intros Hs Ho He Hm Hu. pose proof (versions_CompactionStream mo last (key e) es Hs) as Hv.
  pose proof (sorted_versions (key e) es Hs) as Hsv.
  assert (e ∈ versions (key e) es) as He' by (by apply list_elem_of_filter).
  destruct (versions (key e) es) as [|x c] eqn:E; [by apply elem_of_nil in He'|].
  assert (x ∈ versions (key e) es) as [Hkx Hx]%list_elem_of_filter by (rewrite E; by left).
  assert (x = e) as ->.
  { apply Hu; [done|done|]. apply Z.le_antisymm; [by apply Hm|].
    apply elem_of_cons in He' as [->|He']; [lia|]. apply StronglySorted_inv in Hsv as [_ Hsv].
    rewrite Forall_forall in Hsv. apply (entry_le_key_seqno x e); [by apply Hsv|done]. }
  unfold compaction_run in Hv. rewrite Ho in Hv. destruct (last && negb (is_value e)) eqn:El.
  - right. apply andb_true_iff in El as [-> Hv']. unfold is_value in Hv'. by destruct (value_type e).
  - left. assert (e ∈ versions (key e) (CompactionStream mo last es)) as [_ ?]%list_elem_of_filter; [|done].
    rewrite Hv. by left.
Qed.

(** ** The layers around a compaction *)

Section layers.
Context (mo : option MergeOperator) (last : bool) (upper inputs lower full full' : list Entry) (k : bytes).
Hypothesis Hsi : sorted inputs.
Hypothesis Hsf : sorted full.
Hypothesis Hpf : full ≡ₚ upper ++ inputs ++ lower.
Hypothesis Hsf' : sorted full'.
Hypothesis Hpf' : full' ≡ₚ upper ++ CompactionStream mo last inputs ++ lower.
Hypothesis Huniq : forall a b, a ∈ full -> b ∈ full -> key a = key b -> seqno a = seqno b -> a = b.
Hypothesis Hul : forall a b, a ∈ upper -> b ∈ inputs ++ lower -> key a = key b -> seqno b < seqno a.
Hypothesis Hil : forall a b, a ∈ inputs -> b ∈ lower -> key a = key b -> seqno b < seqno a.

Let u := versions k upper.
Let c := versions k inputs.
Let l := versions k lower.

Lemma elem_of_versions (es : list Entry) e : e ∈ versions k es <-> key e = k /\ e ∈ es.
Proof. by rewrite list_elem_of_filter. Qed.

Lemma versions_keys (es : list Entry) : Forall (fun e => key e = k) (versions k es).
Proof. apply Forall_forall. intros e. rewrite elem_of_versions. tauto. Qed.

Lemma versions_uniq a b : a ∈ u ++ c ++ l -> b ∈ u ++ c ++ l -> seqno a = seqno b -> a = b.
Proof.
  unfold u, c, l. rewrite !elem_of_app, !elem_of_versions. intros Ha Hb.
  apply Huniq; [rewrite Hpf; inapp|rewrite Hpf; inapp|]. intuition congruence.
Qed.

Lemma layer_above a b : a ∈ u -> b ∈ c ++ l -> seqno b < seqno a.
Proof.
  unfold u, c, l. rewrite elem_of_app, !elem_of_versions. intros [Hak Ha] Hb.
  apply Hul; [done|inapp|]. intuition congruence.
Qed.

Lemma layer_below a b : a ∈ c -> b ∈ l -> seqno b < seqno a.
Proof. unfold c, l. rewrite !elem_of_versions. intros [Hak Ha] [Hbk Hb]. apply Hil; congruence. Qed.

Lemma versions_before : versions k full = merge_sort entry_le u ++ c ++ merge_sort entry_le l.
Proof.
  assert (versions k full ≡ₚ u ++ c ++ l) as Hp by (rewrite Hpf; unfold u, c, l; by rewrite !filter_app).
  apply (stratify k); [by apply sorted_versions|done|by apply sorted_versions|apply versions_keys| | |].
  - intros a b. rewrite Hp. apply versions_uniq.
  - apply layer_above.
  - apply layer_below.
Qed.

Lemma versions_after :
  versions k full' = merge_sort entry_le u ++ compaction_run mo last c ++ merge_sort entry_le l.
Proof.
  assert (versions k full' ≡ₚ u ++ compaction_run mo last c ++ l) as Hp.
  { rewrite Hpf', !filter_app, versions_CompactionStream by done. done. }
  assert (forall a b, a ∈ u -> b ∈ compaction_run mo last c ++ l -> seqno b < seqno a) as Hux.
  { intros a b Ha [(b' & Hb' & <-)%compaction_run_seqno|Hb]%elem_of_app; apply layer_above; inapp. }
  assert (forall a b, a ∈ compaction_run mo last c -> b ∈ l -> seqno b < seqno a) as Hcx.
  { intros a b (a' & Ha' & <-)%compaction_run_seqno Hb. by apply layer_below. }
  apply (stratify k); [by apply sorted_versions|done|by apply compaction_run_sorted, sorted_versions|apply versions_keys| |done|done].
  intros a b. rewrite Hp, !elem_of_app. intros Ha Hb Heq.
  assert (one_key k c) as Hc.
  { split; [apply versions_keys|]. intros ????. apply versions_uniq; inapp. }
  destruct Ha as [Ha|[Ha|Ha]], Hb as [Hb|[Hb|Hb]];
    first [ apply versions_uniq; inapp
          | by eapply compaction_run_uniq
          | exfalso; first [ specialize (Hux a b Ha ltac:(inapp)) | specialize (Hux b a Hb ltac:(inapp))
                           | specialize (Hcx a b Ha Hb) | specialize (Hcx b a Hb Ha) ]; lia ].
Qed.

End layers.

Lemma compaction_reads mo last s upper inputs lower full full' k :
  (forall op, mo = Some op -> MergeOperatorLaws op) ->
  sorted inputs -> sorted full -> full ≡ₚ upper ++ inputs ++ lower ->
  sorted full' -> full' ≡ₚ upper ++ CompactionStream mo last inputs ++ lower ->
  (forall a b, a ∈ full -> b ∈ full -> key a = key b -> seqno a = seqno b -> a = b) ->
  (forall a b, a ∈ upper -> b ∈ inputs ++ lower -> key a = key b -> seqno b < seqno a) ->
  (forall a b, a ∈ inputs -> b ∈ lower -> key a = key b -> seqno b < seqno a) ->
  (last = true -> forall a b, a ∈ inputs -> b ∈ lower -> key a <> key b) ->
  (forall e, e ∈ inputs -> seqno e <= s) -> Forall (entry_valid mo) full ->
  scan_value mo s k full = scan_value mo s k full'.
Proof.
  intros Hlaw Hsi Hsf Hpf Hsf' Hpf' Hu Hul Hil Hlast Hs Hval. rewrite !scan_value_run by done.
  rewrite (versions_before upper inputs lower full), (versions_after mo last upper inputs lower full full') by done.
  assert (forall X, merge_sort entry_le X ≡ₚ X) as Hms by (intros; apply merge_sort_Permutation).
  apply (compaction_run_live mo k s last); [done|..].
  - split; [rewrite Hms; apply versions_keys|]. intros a b. rewrite Hms. intros Ha Hb.
    eapply (versions_uniq upper inputs lower full k); inapp || done.
  - split; [apply versions_keys|]. intros a b Ha Hb.
    eapply (versions_uniq upper inputs lower full k); inapp || done.
  - rewrite Hms. apply versions_keys.
  - rewrite !Hms, <- !filter_app, <- Hpf. by apply valid_versions.
  - intros e. rewrite elem_of_versions. intros [_ He]. by apply Hs.
  - intros a b. rewrite !elem_of_app, !Hms. intros. eapply (layer_above upper inputs lower k); inapp || done.
  - intros a b. rewrite Hms. by apply (layer_below inputs lower k).
  - intros Hl Hne. apply Permutation_nil_r. rewrite Hms. 
    destruct (versions k lower) as [|b l] eqn:El; [done|]. destruct (versions k inputs) as [|a c] eqn:Ec; [done|].
    assert (a ∈ versions k inputs) as [? Ha]%elem_of_versions by (rewrite Ec; by left).
    assert (b ∈ versions k lower) as [? Hb]%elem_of_versions by (rewrite El; by left).
    destruct (Hlast Hl a b Ha Hb). congruence.
Qed.

(** The same for one key: what the other keys of the layers do does not matter. *)
Lemma compaction_reads_key mo last s upper inputs lower full full' k :
  (forall op, mo = Some op -> MergeOperatorLaws op) ->
  sorted inputs -> sorted full -> full ≡ₚ upper ++ inputs ++ lower ->
  sorted full' -> full' ≡ₚ upper ++ CompactionStream mo last inputs ++ lower ->
  (forall a b, a ∈ full -> b ∈ full -> key a = k -> key b = k -> seqno a = seqno b -> a = b) ->
  (forall a b, a ∈ upper -> b ∈ inputs ++ lower -> key a = k -> key b = k -> seqno b < seqno a) ->
  (forall a b, a ∈ inputs -> b ∈ lower -> key a = k -> key b = k -> seqno b < seqno a) ->
  (last = true -> forall a b, a ∈ inputs -> b ∈ lower -> key a = k -> key b <> k) ->
  (forall e, e ∈ inputs -> seqno e <= s) -> Forall (entry_valid mo) full ->
  scan_value mo s k full = scan_value mo s k full'.
Proof.
  intros Hlaw Hsi Hsf Hpf Hsf' Hpf' Hu Hul Hil Hlast Hs Hval.
  assert (forall es : list Entry, versions k (versions k es) = versions k es) as Hvv.
  { intros es. rewrite list_filter_filter. apply list_filter_iff. tauto. }
  assert (forall es, sorted es -> scan_value mo s k (versions k es) = scan_value mo s k es) as Hsv.
  { intros es He. rewrite !scan_value_run by eauto using sorted_versions. by rewrite Hvv. }
  assert (CompactionStream mo last (versions k inputs) = versions k (CompactionStream mo last inputs)) as Hcs.
  { rewrite versions_CompactionStream by done. rewrite <- (Hvv inputs), <- versions_CompactionStream, Hvv by (by apply sorted_versions).
    symmetry. apply versions_run, Forall_forall. intros b Hb.
    apply CompactionStream_seqno in Hb as (a & [<- _]%list_elem_of_filter & ? & _); [done|by apply sorted_versions]. }
  rewrite <- (Hsv full), <- (Hsv full') by done.
  apply (compaction_reads mo last s (versions k upper) (versions k inputs) (versions k lower));
    [done|by apply sorted_versions|by apply sorted_versions| |by apply sorted_versions| |..].
  - by rewrite Hpf, !filter_app.
  - by rewrite Hpf', Hcs, !filter_app.
  - intros a b [??]%list_elem_of_filter [??]%list_elem_of_filter _. by apply Hu.
  - intros a b [??]%list_elem_of_filter Hb _. rewrite <- filter_app in Hb. apply list_elem_of_filter in Hb as [??]. by apply Hul.
  - intros a b [??]%list_elem_of_filter [??]%list_elem_of_filter _. by apply Hil.
  - intros Hl a b [??]%list_elem_of_filter [??]%list_elem_of_filter _. by destruct (Hlast Hl a b).
  - intros e [_ He]%list_elem_of_filter. auto.
  - by apply valid_versions.
Qed.

(** C26: compaction does not change what readers see. Let the store be three
    layers, the compacted inputs between what is newer and what is older, with
    one write per key and sequence number; when the output is at the last level
    nothing below has a key of the inputs. Then, for every key and every reader
    whose snapshot covers the inputs, the merged and MVCC-filtered stream shows
    the same value before and after the inputs are replaced by the compaction
    stream's output: versions dropped were shadowed, tombstones dropped hid
    nothing, and the partial folds of a merge-owned key add up. *)
Theorem compaction_preserves_reads mo last s upper inputs lower full full' k :
  (forall op, mo = Some op -> MergeOperatorLaws op) ->
  sorted inputs -> sorted full -> full ≡ₚ upper ++ inputs ++ lower ->
  sorted full' -> full' ≡ₚ upper ++ CompactionStream mo last inputs ++ lower ->
  (forall a b, a ∈ full -> b ∈ full -> key a = key b -> seqno a = seqno b -> a = b) ->
  (forall a b, a ∈ upper -> b ∈ inputs ++ lower -> key a = key b -> seqno b < seqno a) ->
  (forall a b, a ∈ inputs -> b ∈ lower -> key a = key b -> seqno b < seqno a) ->
  (last = true -> forall a b, a ∈ inputs -> b ∈ lower -> key a <> key b) ->
  (forall e, e ∈ inputs -> seqno e <= s) -> Forall (entry_valid mo) full ->
  scan_value mo s k full = scan_value mo s k full'.
Proof. apply compaction_reads. Qed.

(** ** Witnesses *)

(** A counter: the values of a key are added up. *)
Definition sum_values (vs : list bytes) : Z := foldr (fun v n => hd 0 v + n) 0 vs.

Definition counter_op : MergeOperator :=
  {| owns k := starts_with k [99]; merge _ vs := [sum_values vs]; operand _ _ := True |}.

Lemma sum_values_app a b : sum_values (a ++ b) = sum_values a + sum_values b.
Proof. induction a as [|v a IH]; simpl; [done|]. rewrite IH. lia. Qed.

#[export] Instance counter_laws : MergeOperatorLaws counter_op.
Proof.
  constructor; [done|]. intros k pre mid post _ _. cbn [merge counter_op]. rewrite !sum_values_app. simpl. f_equal. lia.
Qed.

Definition sample_upper : list Entry := [mkEntry [99] [10] 9 Value; mkEntry [97] [] 8 Tombstone].
Definition sample_inputs : list Entry :=
  [mkEntry [97] [1] 5 Value; mkEntry [98] [] 7 Tombstone; mkEntry [98] [2] 4 Value;
   mkEntry [99] [3] 6 Value; mkEntry [99] [4] 3 Value].
Definition sample_lower : list Entry := [mkEntry [98] [7] 1 Value; mkEntry [99] [5] 2 Value].
Definition sample_full : list Entry :=
  [mkEntry [97] [] 8 Tombstone; mkEntry [97] [1] 5 Value; mkEntry [98] [] 7 Tombstone; mkEntry [98] [2] 4 Value;
   mkEntry [98] [7] 1 Value; mkEntry [99] [10] 9 Value; mkEntry [99] [3] 6 Value; mkEntry [99] [4] 3 Value;
   mkEntry [99] [5] 2 Value].

Lemma MvccStream_newest_witness :
  (StronglySorted (fun a b => (key a < key b)%bytes) (MvccStream None 6 sample_full) /\
   forall k, exists o, newest 6 k sample_full o /\ versions k (MvccStream None 6 sample_full) = option_list o) /\
  MvccStream None 6 sample_full = [mkEntry [97] [1] 5 Value; mkEntry [98] [2] 4 Value; mkEntry [99] [3] 6 Value].
Proof.
  split; [|vm_compute; reflexivity]. apply (MvccStream_newest 6 sample_full).
  unfold sample_full. repeat constructor; vm_compute; discriminate.
Defined.

Lemma compaction_preserves_reads_witness :
  (forall k, scan_value (Some counter_op) 20 k sample_full =
    scan_value (Some counter_op) 20 k (merge_sort entry_le
      (sample_upper ++ CompactionStream (Some counter_op) false sample_inputs ++ sample_lower))) /\
  scan_value (Some counter_op) 20 [99] sample_full = Some [22] /\
  length (CompactionStream (Some counter_op) false sample_inputs) = 3%nat.
Proof.
  split; [|split; vm_compute; reflexivity]. intros k.
  apply (compaction_preserves_reads (Some counter_op) false 20 sample_upper sample_inputs sample_lower).
  - intros op [= <-]. apply _.
  - unfold sample_inputs. repeat constructor; vm_compute; discriminate.
  - unfold sample_full. repeat constructor; vm_compute; discriminate.
  - apply (bool_decide_unpack _). vm_compute. exact I.
  - apply StronglySorted_merge_sort; apply _.
  - apply merge_sort_Permutation.
  - refine (Forall_Forall_elem (fun a b => key a = key b -> seqno a = seqno b -> a = b) _ _ _).
    unfold sample_full. repeat constructor; intros; simpl in *; congruence.
  - refine (Forall_Forall_elem (fun a b => key a = key b -> seqno b < seqno a) _ _ _).
    unfold sample_upper, sample_inputs, sample_lower. repeat constructor; simpl; intros; first [lia|congruence].
  - refine (Forall_Forall_elem (fun a b => key a = key b -> seqno b < seqno a) _ _ _).
    unfold sample_inputs, sample_lower. repeat constructor; simpl; intros; first [lia|congruence].
  - done.
  - apply Forall_forall. unfold sample_inputs. repeat constructor; simpl; lia.
  - unfold sample_full. repeat constructor.
Defined.
