(* ===== verification/TableMeta.v ===== *)
(** * SSTable metadata (turba-engine/src/table/meta.rs, the index and zone-map
    codecs of table/writer.rs and table/reader.rs)

    The footer with its checksum and its legacy form, the tagged fields of the
    meta block, the block index, and the per-block zone-map blob. *)

From S2P Require Import Prelude Types Block.

(** ** Zone maps *)

(** [encode_zone_maps] (writer.rs) *)
Definition encode_zone_maps (block_zone_maps : list bytes) : bytes :=
  match block_zone_maps with
  | [] => []
  | _ => to_le_bytes 4 (wrap32 (blen block_zone_maps)) ++
         (block_zone_maps ≫= fun zm => to_le_bytes 2 (wrap16 (blen zm)) ++ zm)
  end.

(** The loop of [decode_zone_maps]. *)
Fixpoint decode_zone_maps_loop (count : nat) (data : bytes) (pos : Z) : list bytes :=
  match count with
  | O => []
  | S n =>
    if blen data <? pos + 2 then [] else
    let len := from_le_bytes (slice data pos (pos + 2)) in
    let pos := pos + 2 in
    if blen data <? pos + len then [] else
    slice data pos (pos + len) :: decode_zone_maps_loop n data (pos + len)
  end.

Definition decode_zone_maps (data : bytes) : list bytes :=
  if blen data <? 4 then [] else
  let count := from_le_bytes (slice data 0 4) in
  decode_zone_maps_loop (Z.to_nat count) data 4.

(** ** Footer *)

Definition FOOTER_MAGIC : bytes := [88; 89; 90; 84]. (* "XYZT" *)
Definition FOOTER_SIZE : Z := 28.
Definition FORMAT_VERSION : Z := 1.
Definition FOOTER_MAGIC_V2 : bytes := [88; 90; 84; 50]. (* "XZT2" *)
Definition FOOTER_SIZE_V2 : Z := 36.

Record Footer := mkFooter {
  ft_index_offset : Z;
  ft_bloom_offset : Z;
  ft_meta_offset : Z;
}.

Section footer.
Context {XH : Xxh3}.

(** The 28-byte head of the footer. *)
Definition footer_head (magic : bytes) (f : Footer) : bytes :=
  magic ++ to_le_bytes 8 (ft_index_offset f) ++ to_le_bytes 8 (ft_bloom_offset f) ++
  to_le_bytes 8 (ft_meta_offset f).

Definition Footer_encode (f : Footer) : bytes :=
  let payload := footer_head FOOTER_MAGIC_V2 f in
  payload ++ to_le_bytes 8 (xxh3_64 payload).

(** The three offsets at position 4 of a footer window. *)
Definition read_offsets (w : bytes) : Footer :=
  mkFooter (from_le_bytes (slice w 4 12)) (from_le_bytes (slice w 12 20)) (from_le_bytes (slice w 20 28)).

(** The legacy branch of [Footer::decode]. *)
Definition Footer_decode_v1 (tail : bytes) : Result (Footer * Z) :=
  if FOOTER_SIZE <=? blen tail then
    let w := slice tail (blen tail - FOOTER_SIZE) (blen tail) in
    if beqb (slice w 0 4) FOOTER_MAGIC then Ok (read_offsets w, FOOTER_SIZE) else Err InvalidMagic
  else Err InvalidMagic.

Definition Footer_decode (tail : bytes) : Result (Footer * Z) :=
  if FOOTER_SIZE_V2 <=? blen tail then
    let w := slice tail (blen tail - FOOTER_SIZE_V2) (blen tail) in
    if beqb (slice w 0 4) FOOTER_MAGIC_V2 then
      let stored := from_le_bytes (slice w 28 36) in
      let computed := xxh3_64 (slice w 0 28) in
      if negb (stored =? computed) then Err ChecksumMismatch
      else Ok (read_offsets w, FOOTER_SIZE_V2)
    else Footer_decode_v1 tail
  else Footer_decode_v1 tail.

End footer.

(** ** The meta block *)

Record SSTableMeta := mkSSTableMeta {
  sm_table_id : Z;
  sm_block_count : Z;
  sm_item_count : Z;
  sm_key_min : bytes;
  sm_key_max : bytes;
  sm_seqno_min : Z;
  sm_seqno_max : Z;
  sm_compression : Z;
  sm_format_version : Z;
  sm_file_size : Z;
  sm_tombstone_count : Z;
  sm_zone_maps : bytes;
}.

Definition write_u16_field (tag : Z) (data : bytes) : bytes :=
  [tag] ++ to_le_bytes 2 (wrap16 (blen data)) ++ data.

Definition write_u32_field (tag : Z) (data : bytes) : bytes :=
  [tag] ++ to_le_bytes 4 (wrap32 (blen data)) ++ data.

Definition SSTableMeta_encode (m : SSTableMeta) : bytes :=
  write_u16_field 1 (to_le_bytes 8 (sm_table_id m)) ++
  write_u16_field 2 (to_le_bytes 4 (sm_block_count m)) ++
  write_u16_field 3 (to_le_bytes 8 (sm_item_count m)) ++
  write_u32_field 4 (sm_key_min m) ++
  write_u32_field 5 (sm_key_max m) ++
  write_u16_field 6 (to_le_bytes 8 (sm_seqno_min m)) ++
  write_u16_field 7 (to_le_bytes 8 (sm_seqno_max m)) ++
  write_u16_field 8 [sm_compression m] ++
  write_u16_field 9 [sm_format_version m] ++
  write_u16_field 10 (to_le_bytes 8 (sm_file_size m)) ++
  write_u16_field 11 (to_le_bytes 8 (sm_tombstone_count m)) ++
  match sm_zone_maps m with [] => [] | zm => write_u32_field 12 zm end.

(** [uN::from_le_bytes(field.try_into().map_err(..)?)] *)
Definition fixed_field (n : Z) (field : bytes) (msg : string) : Result Z :=
  if blen field =? n then Ok (from_le_bytes field) else Err (Corruption msg).

(** [field[0]] *)
Definition first_byte (field : bytes) : Result Z :=
  match field with b :: _ => Ok b | [] => Panic end.

(** The [match tag] of [decode]. *)
Definition set_field (m : SSTableMeta) (tag : Z) (field : bytes) : Result SSTableMeta :=
  let '(mkSSTableMeta id bc ic kmin kmax smin smax comp fv fs tc zm) := m in
  if tag =? 1 then
    v ← fixed_field 8 field "bad table_id"; Ok (mkSSTableMeta v bc ic kmin kmax smin smax comp fv fs tc zm)
  else if tag =? 2 then
    v ← fixed_field 4 field "bad block_count"; Ok (mkSSTableMeta id v ic kmin kmax smin smax comp fv fs tc zm)
  else if tag =? 3 then
    v ← fixed_field 8 field "bad item_count"; Ok (mkSSTableMeta id bc v kmin kmax smin smax comp fv fs tc zm)
  else if tag =? 4 then Ok (mkSSTableMeta id bc ic field kmax smin smax comp fv fs tc zm)
  else if tag =? 5 then Ok (mkSSTableMeta id bc ic kmin field smin smax comp fv fs tc zm)
  else if tag =? 6 then
    v ← fixed_field 8 field "bad seqno_min"; Ok (mkSSTableMeta id bc ic kmin kmax v smax comp fv fs tc zm)
  else if tag =? 7 then
    v ← fixed_field 8 field "bad seqno_max"; Ok (mkSSTableMeta id bc ic kmin kmax smin v comp fv fs tc zm)
  else if tag =? 8 then
    v ← first_byte field; Ok (mkSSTableMeta id bc ic kmin kmax smin smax v fv fs tc zm)
  else if tag =? 9 then
    v ← first_byte field; Ok (mkSSTableMeta id bc ic kmin kmax smin smax comp v fs tc zm)
  else if tag =? 10 then
    v ← fixed_field 8 field "bad file_size"; Ok (mkSSTableMeta id bc ic kmin kmax smin smax comp fv v tc zm)
  else if tag =? 11 then
    v ← fixed_field 8 field "bad tombstone_count"; Ok (mkSSTableMeta id bc ic kmin kmax smin smax comp fv fs v zm)
  else if tag =? 12 then Ok (mkSSTableMeta id bc ic kmin kmax smin smax comp fv fs tc field)
  else Ok m.

(** The width of the length field of a tag. *)
Definition len_width (tag : Z) : Z :=
  if (tag =? 4) || (tag =? 5) || (tag =? 12) then 4 else 2.

(** The [while pos < data.len()] loop of [decode]; a round consumes the tag. *)
Fixpoint SSTableMeta_decode_loop (fuel : nat) (data : bytes) (pos : Z) (m : SSTableMeta)
    : Result SSTableMeta :=
  match fuel with
  | O => Ok m
  | S fuel' =>
    match byte_at data pos with
    | None => Ok m
    | Some tag =>
      let pos := pos + 1 in
      let w := len_width tag in
      if blen data <? pos + w then Ok m else
      let len := from_le_bytes (slice data pos (pos + w)) in
      let pos := pos + w in
      if blen data <? pos + len then Err (Corruption "meta field extends past data") else
      let field := slice data pos (pos + len) in
      m ← set_field m tag field;
      SSTableMeta_decode_loop fuel' data (pos + len) m
    end
  end.

Definition empty_meta : SSTableMeta := mkSSTableMeta 0 0 0 [] [] 0 0 0 0 0 0 [].

Definition SSTableMeta_decode (data : bytes) : Result SSTableMeta :=
  SSTableMeta_decode_loop (length data) data 0 empty_meta.

(** ** The block index *)

Record IndexEntry := mkIndexEntry {
  ie_last_key : bytes;
  ie_last_seqno : Z;
  ie_offset : Z;
  ie_size : Z;
}.

Definition encode_index_entry (e : IndexEntry) : bytes :=
  to_le_bytes 4 (wrap32 (blen (ie_last_key e))) ++ ie_last_key e ++
  to_le_bytes 8 (ie_last_seqno e) ++ to_le_bytes 8 (ie_offset e) ++ to_le_bytes 4 (ie_size e).

(** [encode_index] (writer.rs) *)
Definition encode_index (index_entries : list IndexEntry) : bytes :=
  to_le_bytes 4 (wrap32 (blen index_entries)) ++ (index_entries ≫= encode_index_entry).

(** [cursor.read_exact] of [n] bytes: the bytes and the new position. *)
Definition read_exact (data : bytes) (pos n : Z) : Result (bytes * Z) :=
  if blen data <? pos + n then Err Io else Ok (slice data pos (pos + n), pos + n).

(** [cursor.read_uN::<LittleEndian>()] *)
Definition read_le (n : nat) (data : bytes) (pos : Z) : Result (Z * Z) :=
  '(b, pos) ← read_exact data pos (Z.of_nat n);
  Ok (from_le_bytes b, pos).

(** The loop of [decode_index] (reader.rs). *)
Fixpoint decode_index_loop (count : nat) (data : bytes) (pos : Z) : Result (list IndexEntry) :=
  match count with
  | O => Ok []
  | S n =>
    '(key_len, pos) ← read_le 4 data pos;
    '(k, pos) ← read_exact data pos key_len;
    '(sq, pos) ← read_le 8 data pos;
    '(offset, pos) ← read_le 8 data pos;
    '(size, pos) ← read_le 4 data pos;
    entries ← decode_index_loop n data pos;
    Ok (mkIndexEntry k sq offset size :: entries)
  end.

Definition decode_index (data : bytes) : Result (list IndexEntry) :=
  '(count, pos) ← read_le 4 data 0;
  decode_index_loop (Z.to_nat count) data pos.

(** * Lemmas *)

Lemma read_exact_at data pos x rest :
  at_pos data pos (x ++ rest) ->
  read_exact data pos (blen x) = Ok (x, pos + blen x) /\ at_pos data (pos + blen x) rest.
Proof.
  intros Hat. pose proof (at_pos_bound _ _ _ Hat) as [_ Hb]. rewrite blen_app in Hb.
  pose proof (blen_nonneg rest). apply at_pos_app in Hat as (Hs & _ & Hat).
  unfold read_exact. rewrite Hs. destruct (Z.ltb_spec (blen data) (pos + blen x)); [lia|done].
Qed.

Lemma read_le_at n data pos v rest :
  is_uint (8 * Z.of_nat n) v -> at_pos data pos (to_le_bytes n v ++ rest) ->
  read_le n data pos = Ok (v, pos + Z.of_nat n) /\ at_pos data (pos + Z.of_nat n) rest.
Proof.
  intros Hv Hat. apply read_exact_at in Hat as [H1 H2]. rewrite blen_to_le_bytes in *.
  unfold read_le. rewrite H1. simpl. split; [|done]. f_equal. f_equal. by eapply from_to_le_bytes_id.
Qed.

(** ** Index *)

Definition IndexEntry_ok (e : IndexEntry) : Prop :=
  is_uint 32 (blen (ie_last_key e)) /\ is_uint 64 (ie_last_seqno e) /\
  is_uint 64 (ie_offset e) /\ is_uint 32 (ie_size e).

Lemma decode_index_loop_at data pos es rest :
  Forall IndexEntry_ok es -> at_pos data pos ((es ≫= encode_index_entry) ++ rest) ->
  decode_index_loop (length es) data pos = Ok es.
Proof.
  intros Hok. revert pos; induction Hok as [|e es (Hk & Hs & Ho & Hz) _ IH]; intros pos Hat; [done|].
  cbn [mbind list_bind length decode_index_loop] in *. unfold encode_index_entry at 1 in Hat.
  rewrite wrap_small in Hat by done. rewrite <- !app_assoc in Hat.
  apply read_le_at in Hat as [-> Hat]; [|done]. cbn [mbind Result_bind].
  apply read_exact_at in Hat as [-> Hat]. cbn [mbind Result_bind].
  do 3 (apply read_le_at in Hat as [-> Hat]; [|done]; cbn [mbind Result_bind]).
  rewrite (IH _ Hat). simpl. by destruct e.
Qed.

Lemma decode_encode_index es :
  Forall IndexEntry_ok es -> is_uint 32 (blen es) -> decode_index (encode_index es) = Ok es.
Proof.
  intros Hok Hn. unfold decode_index. pose proof (at_pos_0 (encode_index es)) as Hat.
  unfold encode_index in Hat at 2. rewrite wrap_small in Hat by done.
  apply read_le_at in Hat as [-> Hat]; [|done]. cbn [mbind Result_bind]. rewrite blen_to_nat.
  apply (decode_index_loop_at _ _ _ []); [done|]. by rewrite app_nil_r.
Qed.

(** ** Footer *)

Section footer_lemmas.
Context {XH : Xxh3}.

Definition Footer_ok (f : Footer) : Prop :=
  is_uint 64 (ft_index_offset f) /\ is_uint 64 (ft_bloom_offset f) /\ is_uint 64 (ft_meta_offset f).

Lemma blen_Footer_encode f : blen (Footer_encode f) = FOOTER_SIZE_V2.
Proof. unfold Footer_encode, footer_head. rewrite !blen_app, !blen_to_le_bytes. done. Qed.

Lemma slice_end {A} (pre x : list A) : slice (pre ++ x) (blen (pre ++ x) - blen x) (blen (pre ++ x)) = x.
Proof. rewrite <- (app_nil_r x) at 1. apply slice_app; rewrite blen_app; lia. Qed.

Lemma Footer_decode_encode pre f :
  Footer_ok f -> Footer_decode (pre ++ Footer_encode f) = Ok (f, FOOTER_SIZE_V2).
Proof.
  intros (H1 & H2 & H3). unfold Footer_decode. pose proof (blen_nonneg pre).
  rewrite <- (blen_Footer_encode f), slice_end, blen_app.
  destruct (Z.leb_spec (blen (Footer_encode f)) (blen pre + blen (Footer_encode f))); [|lia].
  pose proof (at_pos_0 (Footer_encode f)) as Hat. set (w := Footer_encode f) in Hat at 1 |- *.
  unfold Footer_encode, footer_head in Hat. cbv zeta in Hat.
  assert (slice w 0 28 = footer_head FOOTER_MAGIC_V2 f) as Hhead.
  { unfold w, Footer_encode. cbv zeta. rewrite <- (app_nil_l (_ ++ _)). apply slice_app; done. }
  rewrite <- !app_assoc in Hat. apply at_pos_app in Hat as (Hm & _ & Hat).
  change (0 + blen FOOTER_MAGIC_V2) with 4 in *.
  apply (at_pos_le 8) in Hat as [Ho1 Hat]; [|done]. apply (at_pos_le 8) in Hat as [Ho2 Hat]; [|done].
  apply (at_pos_le 8) in Hat as [Ho3 Hat]; [|done]. rewrite <- (app_nil_r (to_le_bytes _ _)) in Hat.
  apply (at_pos_le 8) in Hat as [Hc _]; [|apply xxh3_64_range]. zlit.
  cbv zeta. rewrite Hm, beqb_refl, Hhead, Hc. fold (footer_head FOOTER_MAGIC_V2 f). rewrite Z.eqb_refl. simpl negb. cbv iota.
  unfold read_offsets. rewrite Ho1, Ho2, Ho3. by destruct f.
Qed.

End footer_lemmas.

(** ** Meta fields *)

(** One round of the decoder at an encoded field. *)
Lemma decode_field_at n fuel data pos m m' tag field rest :
  len_width tag = Z.of_nat n -> is_uint (8 * Z.of_nat n) (blen field) ->
  at_pos data pos (([tag] ++ to_le_bytes n (blen field) ++ field) ++ rest) ->
  set_field m tag field = Ok m' ->
  exists pos', SSTableMeta_decode_loop (S fuel) data pos m = SSTableMeta_decode_loop fuel data pos' m' /\
    at_pos data pos' rest.
Proof.
  intros Hw Hu Hat Hset. cbn [SSTableMeta_decode_loop]. rewrite <- !app_assoc in Hat.
  apply at_pos_byte in Hat as [-> Hat]. cbn [app] in Hat. pose proof (at_pos_bound _ _ _ Hat) as [_ Hb].
  rewrite !blen_app, blen_to_le_bytes in Hb.
  apply (at_pos_le _) in Hat as [Hl Hat]; [|done].
  pose proof (blen_nonneg field). pose proof (blen_nonneg rest). cbv zeta. rewrite Hw, Hl.
  apply at_pos_app in Hat as (Hf & _ & Hat). rewrite Hf, Hset.
  repeat (match goal with |- context [?a <? ?b] => destruct (Z.ltb_spec a b) end; [lia|]).
  eauto.
Qed.

Definition SSTableMeta_ok (m : SSTableMeta) : Prop :=
  is_uint 64 (sm_table_id m) /\ is_uint 32 (sm_block_count m) /\ is_uint 64 (sm_item_count m) /\
  is_uint 32 (blen (sm_key_min m)) /\ is_uint 32 (blen (sm_key_max m)) /\
  is_uint 64 (sm_seqno_min m) /\ is_uint 64 (sm_seqno_max m) /\
  is_uint 64 (sm_file_size m) /\ is_uint 64 (sm_tombstone_count m) /\ is_uint 32 (blen (sm_zone_maps m)).

Lemma fixed_field_le n w v msg :
  is_uint w v -> w = 8 * Z.of_nat n -> fixed_field (Z.of_nat n) (to_le_bytes n v) msg = Ok v.
Proof.
  intros Hv ->. unfold fixed_field. rewrite blen_to_le_bytes, Z.eqb_refl. f_equal. by eapply from_to_le_bytes_id.
Qed.

(** The end of the data ends the decoder. *)
Lemma decode_loop_end fuel data pos m :
  at_pos data pos [] -> SSTableMeta_decode_loop fuel data pos m = Ok m.
Proof.
  intros Hat. apply at_pos_bound in Hat as [_ Hb]. destruct fuel; [done|]. cbn.
  rewrite byte_at_end; [done|]. rewrite blen_nil in Hb. lia.
Qed.

Lemma SSTableMeta_encode_length m : (11 <= length (SSTableMeta_encode m))%nat.
Proof.
  unfold SSTableMeta_encode, write_u16_field, write_u32_field. rewrite !length_app. simpl. lia.
Qed.

(** Reads the field at the cursor. *)
Ltac meta_field n w :=
  match goal with
  | Hat : at_pos _ _ _ |- _ =>
    eapply (decode_field_at n) in Hat as (? & -> & Hat);
    [|done|rewrite ?blen_to_le_bytes; done
     |cbn [set_field Z.eqb Pos.eqb];
      first [rewrite (fixed_field_le w (8 * Z.of_nat w)) by done; reflexivity | reflexivity]]
  end.

(** The meta block reads back. *)
Lemma SSTableMeta_decode_encode m :
  SSTableMeta_ok m -> SSTableMeta_decode (SSTableMeta_encode m) = Ok m.
Proof.
  destruct m as [id bc ic kmin kmax smin smax comp fv fs tc zm].
  intros (H1 & H2 & H3 & H4 & H5 & H6 & H7 & H10 & H11 & H12). cbn in H1, H2, H3, H4, H5, H6, H7, H10, H11, H12.
  unfold SSTableMeta_decode, empty_meta.
  set (m := mkSSTableMeta id bc ic kmin kmax smin smax comp fv fs tc zm).
  assert (12 <= length (SSTableMeta_encode m))%nat as Hlen.
  { unfold SSTableMeta_encode, write_u16_field, write_u32_field. rewrite !length_app. simpl. lia. }
  pose proof (at_pos_0 (SSTableMeta_encode m)) as Hat.
  set (data := SSTableMeta_encode m) in *. unfold data in Hat at 2.
  unfold SSTableMeta_encode, m in Hat. cbn [sm_table_id sm_block_count sm_item_count sm_key_min sm_key_max
    sm_seqno_min sm_seqno_max sm_compression sm_format_version sm_file_size sm_tombstone_count sm_zone_maps] in Hat.
  unfold write_u16_field, write_u32_field in Hat.
  rewrite !wrap_small in Hat by (rewrite ?blen_to_le_bytes; done).
  destruct (length data) as [|[|[|[|[|[|[|[|[|[|[|[|f]]]]]]]]]]]]; try lia. clear Hlen.
  meta_field 2%nat 8%nat. meta_field 2%nat 4%nat. meta_field 2%nat 8%nat.
  meta_field 4%nat 8%nat. meta_field 4%nat 8%nat.
  meta_field 2%nat 8%nat. meta_field 2%nat 8%nat. meta_field 2%nat 8%nat. meta_field 2%nat 8%nat.
  meta_field 2%nat 8%nat. meta_field 2%nat 8%nat.
  destruct zm as [|z zm]; [by apply decode_loop_end|].
  rewrite wrap_small in Hat by done. rewrite <- (app_nil_r (_ ++ _ ++ _)) in Hat.
  meta_field 4%nat 8%nat. by apply decode_loop_end.
Qed.

(** ** Zone maps *)

Lemma decode_zone_maps_loop_at data pos zms rest :
  Forall (fun zm => is_uint 16 (blen zm)) zms ->
  at_pos data pos ((zms ≫= fun zm => to_le_bytes 2 (wrap16 (blen zm)) ++ zm) ++ rest) ->
  decode_zone_maps_loop (length zms) data pos = zms.
Proof.
  intros Hok. revert pos; induction Hok as [|zm zms Hz _ IH]; intros pos Hat; [done|].
  cbn [mbind list_bind length decode_zone_maps_loop] in *. rewrite wrap_small in Hat by done.
  rewrite <- !app_assoc in Hat. pose proof (at_pos_bound _ _ _ Hat) as [_ Hb].
  rewrite !blen_app, blen_to_le_bytes in Hb. pose proof (blen_nonneg zm). pose proof (blen_nonneg rest).
  match type of Hb with context [blen ?l + blen rest] => pose proof (blen_nonneg l) end.
  apply (at_pos_le 2) in Hat as [Hl Hat]; [|done]. zlit. cbv zeta. rewrite Hl.
  apply at_pos_app in Hat as (Hs & _ & Hat). rewrite Hs, (IH _ Hat).
  repeat (match goal with |- context [?a <? ?b] => destruct (Z.ltb_spec a b) end; [lia|]). done.
Qed.

Lemma decode_encode_zone_maps zms :
  Forall (fun zm => is_uint 16 (blen zm)) zms -> is_uint 32 (blen zms) ->
  decode_zone_maps (encode_zone_maps zms) = zms.
Proof.
  intros Hok Hn. destruct (decide (zms = [])) as [->|Hne]; [done|].
  unfold decode_zone_maps. pose proof (at_pos_0 (encode_zone_maps zms)) as Hat.
  assert (encode_zone_maps zms = to_le_bytes 4 (wrap32 (blen zms)) ++
    (zms ≫= fun zm => to_le_bytes 2 (wrap16 (blen zm)) ++ zm)) as Heq by (by destruct zms).
  rewrite Heq in Hat at 2. rewrite wrap_small in Hat by done.
  pose proof (at_pos_bound _ _ _ Hat) as [_ Hb]. rewrite blen_app, blen_to_le_bytes in Hb.
  match type of Hb with context [_ + (_ + blen ?l)] => pose proof (blen_nonneg l) end.
  destruct (Z.ltb_spec (blen (encode_zone_maps zms)) 4); [lia|].
  apply (at_pos_le 4) in Hat as [Hl Hat]; [|done]. zlit. cbv zeta. rewrite Hl, blen_to_nat.
  apply (decode_zone_maps_loop_at _ _ _ []); [done|]. by rewrite app_nil_r.
Qed.
