(* ===== verification/TableWriter.v ===== *)
(** * Writing an SSTable (turba-engine/src/table/writer.rs, flush.rs)

    The writer accumulates entries into data blocks and appends index, bloom
    filter, meta block and footer. The file is the list of the bytes written;
    it is published under its final name only by a [finish] that returns
    metadata. The I/O scheduler calls around each write only record timings. *)

From S2P Require Import Prelude Types Block Bloom Memtable TableMeta.

Record SSTableConfig := mkSSTableConfig {
  sc_data_block_size : Z;
  sc_compression : CompressionType;
  sc_bloom_bits_per_key : f64;
  sc_restart_interval : Z;
}.

(** [SSTableConfig::default] *)
Definition SSTableConfig_default : SSTableConfig :=
  mkSSTableConfig (32 * 1024) Lz4 (f64_of_uint 10) 16.

(** [trait ZoneMapBuilder]: opaque bytes per block. *)
Abbreviation ZoneMapBuilder := (list Entry -> bytes).

Section writer.
Context {XH : Xxh3} {CD : Codecs}.

Record SSTableWriter := mkSSTableWriter {
  sw_file : bytes;
  sw_config : SSTableConfig;
  sw_table_id : Z;
  sw_current_block : list Entry;
  sw_current_block_size : Z;
  sw_index_entries : list IndexEntry;
  sw_bloom_builder : BloomBuilder;
  sw_zone_map_builder : option ZoneMapBuilder;
  sw_block_zone_maps : list bytes;
  sw_item_count : Z;
  sw_tombstone_count : Z;
  sw_key_min : option bytes;
  sw_key_max : option bytes;
  sw_seqno_min : Z;
  sw_seqno_max : Z;
  sw_block_count : Z;
  sw_bytes_written : Z;
}.

(** [with_zone_map_builder] *)
Definition SSTableWriter_new (table_id : Z) (config : SSTableConfig)
    (zone_map_builder : option ZoneMapBuilder) : SSTableWriter :=
  {| sw_file := []; sw_config := config; sw_table_id := table_id;
     sw_current_block := []; sw_current_block_size := 0; sw_index_entries := [];
     sw_bloom_builder := BloomBuilder_new (sc_bloom_bits_per_key config);
     sw_zone_map_builder := zone_map_builder; sw_block_zone_maps := [];
     sw_item_count := 0; sw_tombstone_count := 0; sw_key_min := None; sw_key_max := None;
     sw_seqno_min := U64_MAX; sw_seqno_max := 0; sw_block_count := 0; sw_bytes_written := 0 |}.

Definition flush_data_block (w : SSTableWriter) : Result SSTableWriter :=
  match last (sw_current_block w) with
  | None => Ok w
  | Some last_entry =>
    let entries := sw_current_block w in
    let block_zone_maps :=
      match sw_zone_map_builder w with
      | Some builder => sw_block_zone_maps w ++ [builder entries]
      | None => sw_block_zone_maps w
      end in
    encoded ← encode_with_restart_interval entries (sc_compression (sw_config w)) Data
                (sc_restart_interval (sw_config w));
    Ok {| sw_file := sw_file w ++ encoded; sw_config := sw_config w; sw_table_id := sw_table_id w;
          sw_current_block := []; sw_current_block_size := 0;
          sw_index_entries := sw_index_entries w ++
            [mkIndexEntry (key last_entry) (seqno last_entry) (sw_bytes_written w) (wrap32 (blen encoded))];
          sw_bloom_builder := sw_bloom_builder w;
          sw_zone_map_builder := sw_zone_map_builder w; sw_block_zone_maps := block_zone_maps;
          sw_item_count := sw_item_count w; sw_tombstone_count := sw_tombstone_count w;
          sw_key_min := sw_key_min w; sw_key_max := sw_key_max w;
          sw_seqno_min := sw_seqno_min w; sw_seqno_max := sw_seqno_max w;
          sw_block_count := wrap32 (sw_block_count w + 1);
          sw_bytes_written := sw_bytes_written w + blen encoded |}
  end.

(** The bookkeeping of [add], before the block is flushed. *)
Definition SSTableWriter_push (w : SSTableWriter) (entry : Entry) : SSTableWriter :=
  {| sw_file := sw_file w; sw_config := sw_config w; sw_table_id := sw_table_id w;
     sw_current_block := sw_current_block w ++ [entry];
     sw_current_block_size := sw_current_block_size w + (blen (key entry) + blen (value entry) + 20);
     sw_index_entries := sw_index_entries w;
     sw_bloom_builder :=
       if f64_gtb (sc_bloom_bits_per_key (sw_config w)) f64_zero
       then BloomBuilder_insert (sw_bloom_builder w) (key_hash (key entry))
       else sw_bloom_builder w;
     sw_zone_map_builder := sw_zone_map_builder w; sw_block_zone_maps := sw_block_zone_maps w;
     sw_item_count := sw_item_count w + 1;
     sw_tombstone_count :=
       if is_value entry then sw_tombstone_count w else sw_tombstone_count w + 1;
     sw_key_min := match sw_key_min w with None => Some (key entry) | Some k => Some k end;
     sw_key_max := Some (key entry);
     sw_seqno_min := Z.min (sw_seqno_min w) (seqno entry);
     sw_seqno_max := Z.max (sw_seqno_max w) (seqno entry);
     sw_block_count := sw_block_count w; sw_bytes_written := sw_bytes_written w |}.

Definition SSTableWriter_add (w : SSTableWriter) (entry : Entry) : Result SSTableWriter :=
  let w := SSTableWriter_push w entry in
  if sc_data_block_size (sw_config w) <=? sw_current_block_size w then flush_data_block w else Ok w.

(** [finish]: the metadata and the file, if there are entries. *)
Definition SSTableWriter_finish (w : SSTableWriter) : Result (option (SSTableMeta * bytes)) :=
  w ← flush_data_block w;
  if sw_item_count w =? 0 then Ok None else
  let index_offset := sw_bytes_written w in
  let index_data := encode_index (sw_index_entries w) in
  let bloom_offset := index_offset + blen index_data in
  bloom_data ← BloomBuilder_finish (sw_bloom_builder w);
  let meta_offset := bloom_offset + blen bloom_data in
  let meta := {|
    sm_table_id := sw_table_id w;
    sm_block_count := sw_block_count w;
    sm_item_count := sw_item_count w;
    sm_key_min := default [] (sw_key_min w);
    sm_key_max := default [] (sw_key_max w);
    sm_seqno_min := sw_seqno_min w;
    sm_seqno_max := sw_seqno_max w;
    sm_compression := CompressionType_to_u8 (sc_compression (sw_config w));
    sm_format_version := FORMAT_VERSION;
    sm_file_size := 0;
    sm_tombstone_count := sw_tombstone_count w;
    sm_zone_maps := encode_zone_maps (sw_block_zone_maps w) |} in
  let meta_data := SSTableMeta_encode meta in
  let footer := mkFooter index_offset bloom_offset meta_offset in
  let file := sw_file w ++ index_data ++ bloom_data ++ meta_data ++ Footer_encode footer in
  let final_meta := {|
    sm_table_id := sm_table_id meta; sm_block_count := sm_block_count meta;
    sm_item_count := sm_item_count meta; sm_key_min := sm_key_min meta; sm_key_max := sm_key_max meta;
    sm_seqno_min := sm_seqno_min meta; sm_seqno_max := sm_seqno_max meta;
    sm_compression := sm_compression meta; sm_format_version := sm_format_version meta;
    sm_file_size := meta_offset + blen meta_data + FOOTER_SIZE_V2;
    sm_tombstone_count := sm_tombstone_count meta; sm_zone_maps := sm_zone_maps meta |} in
  Ok (Some (final_meta, file)).

(** [for entry in entries { writer.add(entry)?; }] *)
Fixpoint add_all (w : SSTableWriter) (entries : list Entry) : Result SSTableWriter :=
  match entries with
  | [] => Ok w
  | e :: rest => w ← SSTableWriter_add w e; add_all w rest
  end.

(** A whole table. *)
Definition write_table (config : SSTableConfig) (zmb : option ZoneMapBuilder) (table_id : Z)
    (entries : list Entry) : Result (option (SSTableMeta * bytes)) :=
  w ← add_all (SSTableWriter_new table_id config zmb) entries;
  SSTableWriter_finish w.

(** [flush_memtable_with_scheduler] (flush.rs) *)
Definition flush_memtable {SM : SkipMap} (memtable : Memtable) (table_id : Z) (config : SSTableConfig)
    : Result (option (SSTableMeta * bytes)) :=
  if Memtable_is_empty memtable then Ok None
  else write_table config None table_id (Memtable_iter memtable).

(** * Lemmas *)

(** The data blocks an entry list is cut into: a block ends with the entry that
    reaches the target size. *)
Fixpoint split_blocks (limit : Z) (cur : list Entry) (size : Z) (es : list Entry) : list (list Entry) :=
  match es with
  | [] => match cur with [] => [] | _ => [cur] end
  | e :: es' =>
    let cur := cur ++ [e] in
    let size := size + (blen (key e) + blen (value e) + 20) in
    if limit <=? size then cur :: split_blocks limit [] 0 es' else split_blocks limit cur size es'
  end.

Lemma split_blocks_concat limit cur size es : concat (split_blocks limit cur size es) = cur ++ es.
Proof.
  revert cur size; induction es as [|e es IH]; intros cur size; simpl.
  { rewrite app_nil_r. destruct cur; simpl; [done|by rewrite app_nil_r]. }
  case_match; simpl; rewrite IH; by rewrite <- app_assoc.
Qed.

Lemma split_blocks_nonempty limit cur size es : Forall (fun b => b <> []) (split_blocks limit cur size es).
Proof.
  revert cur size; induction es as [|e es IH]; intros cur size; simpl; [destruct cur; by repeat constructor|].
  case_match; [|done]. constructor; [by destruct cur|done].
Qed.

(** The index of a sequence of blocks from an offset. *)
Fixpoint block_index (off : Z) (bs : list (list Entry)) (encs : list bytes) : list IndexEntry :=
  match bs, encs with
  | b :: bs', enc :: encs' =>
    mkIndexEntry (default [] (key <$> last b)) (default 0 (seqno <$> last b)) off (wrap32 (blen enc))
      :: block_index (off + blen enc) bs' encs'
  | _, _ => []
  end.

Lemma block_index_app off bs1 encs1 b enc :
  length bs1 = length encs1 ->
  block_index off (bs1 ++ [b]) (encs1 ++ [enc]) =
  block_index off bs1 encs1 ++
  [mkIndexEntry (default [] (key <$> last b)) (default 0 (seqno <$> last b)) (off + blen (concat encs1)) (wrap32 (blen enc))].
Proof.
  revert off encs1; induction bs1 as [|x bs1 IH]; intros off [|y encs1]; simpl; try done.
  { by rewrite Z.add_0_r. }
  intros [= Hl]. f_equal. rewrite IH by done. rewrite blen_app, Z.add_assoc. done.
Qed.

Definition max_seqno (es : list Entry) : Z := fold_left (fun a e => Z.max a (seqno e)) es 0.
Definition min_seqno (es : list Entry) : Z := fold_left (fun a e => Z.min a (seqno e)) es U64_MAX.

(** The writer that has written the blocks [bs], encoded as [encs], and holds
    the current block, after the entries [es]. *)
Record writer_inv (cfg : SSTableConfig) (zmb : option ZoneMapBuilder) (id : Z)
    (bs : list (list Entry)) (encs : list bytes) (es : list Entry) (w : SSTableWriter) : Prop := {
  wi_config : sw_config w = cfg;
  wi_id : sw_table_id w = id;
  wi_zmb : sw_zone_map_builder w = zmb;
  wi_entries : concat bs ++ sw_current_block w = es;
  wi_encs : Forall2 (fun b enc => encode_with_restart_interval b (sc_compression cfg) Data
                                    (sc_restart_interval cfg) = Ok enc) bs encs;
  wi_file : sw_file w = concat encs;
  wi_bytes : sw_bytes_written w = blen (concat encs);
  wi_index : sw_index_entries w = block_index 0 bs encs;
  wi_count : sw_item_count w = blen es;
  wi_kmin : sw_key_min w = key <$> head es;
  wi_kmax : sw_key_max w = key <$> last es;
  wi_tombs : sw_tombstone_count w = blen (filter (fun e => is_value e = false) es);
  wi_smax : sw_seqno_max w = max_seqno es;
  wi_smin : sw_seqno_min w = min_seqno es;
  wi_bloom : sw_bloom_builder w = mkBloomBuilder (sc_bloom_bits_per_key cfg)
    (if f64_gtb (sc_bloom_bits_per_key cfg) f64_zero then (fun e => key_hash (key e)) <$> es else []);
  wi_zms : sw_block_zone_maps w = match zmb with Some f => f <$> bs | None => [] end;
  wi_blocks : sw_block_count w = wrap32 (blen bs);
}.

Lemma writer_inv_new cfg zmb id : writer_inv cfg zmb id [] [] [] (SSTableWriter_new id cfg zmb).
Proof. split; try done; simpl; by repeat case_match. Qed.

Lemma head_snoc {A} (l : list A) x : head (l ++ [x]) = match head l with None => Some x | o => o end.
Proof. by destruct l. Qed.

Lemma writer_inv_push cfg zmb id bs encs es w e :
  writer_inv cfg zmb id bs encs es w -> writer_inv cfg zmb id bs encs (es ++ [e]) (SSTableWriter_push w e).
Proof.
  intros []. split; simpl; try done.
  - by rewrite <- wi_entries0, app_assoc.
  - rewrite wi_count0. len.
  - rewrite wi_kmin0, head_snoc. by destruct es.
  - by rewrite last_snoc.
  - rewrite wi_tombs0, filter_app, filter_cons, filter_nil. destruct (is_value e); simpl; len.
  - rewrite wi_smax0. unfold max_seqno. by rewrite fold_left_app.
  - rewrite wi_smin0. unfold min_seqno. by rewrite fold_left_app.
  - rewrite wi_config0, wi_bloom0. destruct (f64_gtb _ _); [|done]. unfold BloomBuilder_insert. simpl. by rewrite fmap_app.
Qed.

Lemma wrap32_succ z : wrap32 (wrap32 z + 1) = wrap32 (z + 1).
Proof. unfold wrap. by rewrite Zplus_mod_idemp_l. Qed.

(** Flushing the current block. *)
Lemma writer_inv_flush cfg zmb id bs encs es w :
  writer_inv cfg zmb id bs encs es w -> sw_current_block w <> [] ->
  match encode_with_restart_interval (sw_current_block w) (sc_compression cfg) Data (sc_restart_interval cfg) with
  | Ok enc => exists w', flush_data_block w = Ok w' /\ sw_current_block w' = [] /\ sw_current_block_size w' = 0 /\
      writer_inv cfg zmb id (bs ++ [sw_current_block w]) (encs ++ [enc]) es w'
  | Err er => flush_data_block w = Err er
  | Panic => flush_data_block w = Panic
  end.
Proof.
  intros Hi Hne. pose proof Hi as []. unfold flush_data_block.
  destruct (last (sw_current_block w)) as [le|] eqn:El; [|by apply last_None in El].
  rewrite wi_config0. cbv zeta.
  destruct (encode_with_restart_interval (sw_current_block w) (sc_compression cfg) Data (sc_restart_interval cfg))
    as [enc| |] eqn:Ee; cbn [mbind Result_bind]; [|done..].
  eexists. split; [done|]. split; [done|]. split; [done|]. split; simpl; try done.
  - rewrite concat_app. simpl. by rewrite !app_nil_r.
  - apply Forall2_app; [done|]. by repeat constructor.
  - rewrite wi_file0, concat_app. simpl. by rewrite app_nil_r.
  - rewrite wi_bytes0, concat_app, blen_app. simpl. by rewrite app_nil_r.
  - rewrite wi_index0, block_index_app, El, wi_bytes0 by (by eapply Forall2_length). done.
  - rewrite wi_zmb0, wi_zms0. destruct zmb; [by rewrite fmap_app|done].
  - rewrite wi_blocks0, wrap32_succ. f_equal. len.
Qed.

(** Adding all entries and flushing cuts them into blocks. *)
Lemma add_all_inv cfg zmb id bs encs es w rest bs' encs' :
  writer_inv cfg zmb id bs encs es w ->
  split_blocks (sc_data_block_size cfg) (sw_current_block w) (sw_current_block_size w) rest = bs' ->
  Forall2 (fun b enc => encode_with_restart_interval b (sc_compression cfg) Data
                          (sc_restart_interval cfg) = Ok enc) bs' encs' ->
  exists w' w'', add_all w rest = Ok w' /\ flush_data_block w' = Ok w'' /\
    writer_inv cfg zmb id (bs ++ bs') (encs ++ encs') (es ++ rest) w''.
Proof.
  intros Hi <- Henc. revert bs encs es w encs' Hi Henc.
  induction rest as [|e rest IH]; intros bs encs es w encs' Hi Henc; simpl in Henc.
  - exists w. rewrite app_nil_r. destruct (decide (sw_current_block w = [])) as [E|Hne].
    + rewrite E in *. inversion Henc; subst. exists w. split; [done|]. rewrite !app_nil_r.
      split; [|done]. unfold flush_data_block. by rewrite E.
    + destruct (sw_current_block w) as [|e es'] eqn:E; [done|]. rewrite <- E in *.
      inversion Henc as [|? enc ? ? Hb Hnil]; subst. inversion Hnil; subst.
      pose proof (writer_inv_flush _ _ _ _ _ _ _ Hi) as Hfl. rewrite E in Hfl at 1.
      specialize (Hfl ltac:(done)). rewrite Hb in Hfl. destruct Hfl as (w' & Hw' & _ & _ & Hi').
      exists w'. split; [done|]. split; [done|].
      replace (split_blocks _ _ _ []) with [sw_current_block w] by (simpl; by rewrite E). done.
  - cbn [add_all split_blocks] in *. unfold SSTableWriter_add. cbv zeta in *.
    pose proof (writer_inv_push _ _ _ _ _ _ _ e Hi) as Hp.
    change (sw_config (SSTableWriter_push w e)) with (sw_config w). rewrite (wi_config _ _ _ _ _ _ _ Hi).
    change (sw_current_block_size (SSTableWriter_push w e)) with
      (sw_current_block_size w + (blen (key e) + blen (value e) + 20)).
    destruct (sc_data_block_size cfg <=? _).
    + inversion Henc as [|? enc ? encs2 Hb Hrest]; subst.
      pose proof (writer_inv_flush _ _ _ _ _ _ _ Hp) as Hfl.
      change (sw_current_block (SSTableWriter_push w e)) with (sw_current_block w ++ [e]) in Hfl.
      rewrite Hb in Hfl. destruct Hfl as (w1 & -> & Hc & Hz & Hi1); [by destruct (sw_current_block w)|].
      cbn [mbind Result_bind]. rewrite <- Hc, <- Hz in Hrest.
      destruct (IH _ _ _ _ _ Hi1 Hrest) as (w' & w'' & H1 & H2 & H3).
      exists w', w''. split; [done|]. split; [done|].
      rewrite <- !app_assoc in H3. rewrite Hc, Hz in H3. done.
    + cbn [mbind Result_bind]. destruct (IH _ _ _ _ _ Hp Henc) as (w' & w'' & H1 & H2 & H3).
      exists w', w''. split; [done|]. split; [done|]. by rewrite <- app_assoc in H3.
Qed.

(** The metadata and the file of a whole table. *)
Definition table_meta (cfg : SSTableConfig) (zmb : option ZoneMapBuilder) (id : Z) (es : list Entry)
    (bs : list (list Entry)) (file_size : Z) : SSTableMeta :=
  {| sm_table_id := id; sm_block_count := wrap32 (blen bs); sm_item_count := blen es;
     sm_key_min := default [] (key <$> head es); sm_key_max := default [] (key <$> last es);
     sm_seqno_min := min_seqno es; sm_seqno_max := max_seqno es;
     sm_compression := CompressionType_to_u8 (sc_compression cfg); sm_format_version := FORMAT_VERSION;
     sm_file_size := file_size;
     sm_tombstone_count := blen (filter (fun e => is_value e = false) es);
     sm_zone_maps := encode_zone_maps (match zmb with Some f => f <$> bs | None => [] end) |}.

Definition table_footer (data index bloom : bytes) : Footer :=
  mkFooter (blen data) (blen data + blen index) (blen data + blen index + blen bloom).

Definition table_bloom (cfg : SSTableConfig) (es : list Entry) : BloomBuilder :=
  mkBloomBuilder (sc_bloom_bits_per_key cfg)
    (if f64_gtb (sc_bloom_bits_per_key cfg) f64_zero then (fun e => key_hash (key e)) <$> es else []).

(** The bytes of the table after its data blocks are encoded. *)
Definition table_file (cfg : SSTableConfig) (zmb : option ZoneMapBuilder) (id : Z) (es : list Entry)
    (bs : list (list Entry)) (encs : list bytes) (bloom : bytes) : bytes :=
  let index := encode_index (block_index 0 bs encs) in
  concat encs ++ index ++ bloom ++ SSTableMeta_encode (table_meta cfg zmb id es bs 0) ++
  Footer_encode (table_footer (concat encs) index bloom).

Lemma write_table_spec cfg zmb id es encs :
  es <> [] ->
  let bs := split_blocks (sc_data_block_size cfg) [] 0 es in
  Forall2 (fun b enc => encode_with_restart_interval b (sc_compression cfg) Data
                          (sc_restart_interval cfg) = Ok enc) bs encs ->
  write_table cfg zmb id es =
    (bloom ← BloomBuilder_finish (table_bloom cfg es);
     let file := table_file cfg zmb id es bs encs bloom in
     Ok (Some (table_meta cfg zmb id es bs (blen file), file))).
Proof.
  intros Hne bs Henc. unfold write_table.
  destruct (add_all_inv cfg zmb id [] [] [] _ es bs encs (writer_inv_new cfg zmb id) eq_refl Henc)
    as (w1 & w2 & -> & Hfl & Hi).
  cbn [mbind Result_bind]. unfold SSTableWriter_finish. rewrite Hfl. cbn [mbind Result_bind]. cbn [app] in Hi.
  destruct Hi. rewrite wi_count0.
  destruct (Z.eqb_spec (blen es) 0) as [E|_]; [by destruct es|].
  change (mkBloomBuilder _ _) with (table_bloom cfg es) in wi_bloom0. rewrite wi_bloom0.
  destruct (BloomBuilder_finish (table_bloom cfg es)) as [bloom| |]; cbn [mbind Result_bind]; [|done..]. cbv zeta.
  rewrite wi_index0, wi_bytes0, wi_file0, wi_id0, wi_blocks0, wi_kmin0, wi_kmax0, wi_smin0, wi_smax0,
    wi_config0, wi_tombs0, wi_zms0.
  f_equal. f_equal. f_equal. unfold table_meta at 1. f_equal.
  unfold table_file. cbv zeta. rewrite !blen_app, blen_Footer_encode. unfold table_meta. lia.
Qed.

End writer.
