(* ===== verification/TableReader.v ===== *)
(** * Reading an SSTable (turba-engine/src/table/reader.rs)

    Opening a file, point reads through bloom filter and index, full, range and
    prefix scans, the streaming block iterator and the checksum sweep. The block
    and metadata caches return what the immutable file holds, so a read goes to
    the file; a [pread] past the end of the file is an I/O error. *)

From S2P Require Import Prelude Types Block Bloom Memtable TableMeta TableWriter.

Record SSTableReader := mkSSTableReader {
  rd_file : bytes;
  rd_meta : SSTableMeta;
  rd_index_loc : Z * Z;
  rd_bloom_loc : Z * Z;
  rd_meta_loc : Z * Z;
  rd_table_id : Z;
}.

Section reader.
Context {XH : Xxh3} {CD : Codecs}.

(** [meta.zone_maps = Vec::new()] *)
Definition clear_zone_maps (m : SSTableMeta) : SSTableMeta :=
  mkSSTableMeta (sm_table_id m) (sm_block_count m) (sm_item_count m) (sm_key_min m) (sm_key_max m)
    (sm_seqno_min m) (sm_seqno_max m) (sm_compression m) (sm_format_version m) (sm_file_size m)
    (sm_tombstone_count m) [].

(** [open_with_tree_id]; the differences of offsets wrap. *)
Definition SSTableReader_open (file : bytes) : Result SSTableReader :=
  let file_len := blen file in
  if file_len <? FOOTER_SIZE then Err (Corruption "file too small for footer") else
  let read_len := Z.min file_len FOOTER_SIZE_V2 in
  let footer_buf := slice file (file_len - read_len) file_len in
  '(footer, footer_size) ← Footer_decode footer_buf;
  let index_len := wrap64 (ft_bloom_offset footer - ft_index_offset footer) in
  let index_loc := (ft_index_offset footer, index_len) in
  let bloom_len := wrap64 (ft_meta_offset footer - ft_bloom_offset footer) in
  let bloom_loc := (ft_bloom_offset footer, bloom_len) in
  let meta_len := wrap64 (file_len - footer_size - ft_meta_offset footer) in
  '(meta_data, _) ← read_exact file (ft_meta_offset footer) meta_len;
  meta ← SSTableMeta_decode meta_data;
  let meta := clear_zone_maps meta in
  Ok (mkSSTableReader file meta index_loc bloom_loc (ft_meta_offset footer, meta_len) (sm_table_id meta)).

(** [read_at] *)
Definition read_at (r : SSTableReader) (offset len : Z) : Result bytes :=
  '(b, _) ← read_exact (rd_file r) offset len; Ok b.

Definition index_section (r : SSTableReader) : Result (list IndexEntry) :=
  data ← read_at r (fst (rd_index_loc r)) (snd (rd_index_loc r));
  decode_index data.

(** [zone_maps]: the blob of the meta block. *)
Definition reader_zone_maps (r : SSTableReader) : Result bytes :=
  meta_data ← read_at r (fst (rd_meta_loc r)) (snd (rd_meta_loc r));
  sm_zone_maps <$> SSTableMeta_decode meta_data.

Definition bloom_maybe_contains (r : SSTableReader) (hash : Z) : Result bool :=
  data ← read_at r (fst (rd_bloom_loc r)) (snd (rd_bloom_loc r));
  bf ← ok_or (BloomFilter_from_bytes data) (Corruption "invalid bloom filter");
  maybe_contains bf hash.

Definition load_block (r : SSTableReader) (idx_entry : IndexEntry) : Result (list Entry) :=
  raw ← read_at r (ie_offset idx_entry) (ie_size idx_entry);
  decode raw.

(** The block a point read looks in. *)
Definition find_block (index : list IndexEntry) (user_key : bytes) : nat :=
  search_index (binary_search_by (fun idx_entry => bcmp (ie_last_key idx_entry) user_key) index).

Definition get_no_bloom (r : SSTableReader) (user_key : bytes) (visible_seqno : SeqNo)
    : Result (option Entry) :=
  index ← index_section r;
  match index !! find_block index user_key with
  | None => Ok None
  | Some idx_entry =>
    entries ← load_block r idx_entry;
    Ok (point_read entries user_key visible_seqno)
  end.

Definition SSTableReader_get (r : SSTableReader) (user_key : bytes) (visible_seqno : SeqNo)
    : Result (option Entry) :=
  contains ← bloom_maybe_contains r (key_hash user_key);
  if negb contains then Ok None else get_no_bloom r user_key visible_seqno.

(** The loop of [scan]. *)
Fixpoint scan_loop (r : SSTableReader) (index : list IndexEntry) : Result (list Entry) :=
  match index with
  | [] => Ok []
  | idx_entry :: rest =>
    entries ← load_block r idx_entry;
    all_entries ← scan_loop r rest;
    Ok (entries ++ all_entries)
  end.

Definition SSTableReader_scan (r : SSTableReader) : Result (list Entry) :=
  index ← index_section r; scan_loop r index.

(** The inner loop of [scan_range]: the entries kept, and whether the end of
    the range was reached. *)
Fixpoint scan_range_block (start end_ : bytes) (entries : list Entry) : list Entry * bool :=
  match entries with
  | [] => ([], false)
  | e :: rest =>
    if bleb end_ (key e) then ([], true)
    else let '(kept, stop) := scan_range_block start end_ rest in
         ((if bleb start (key e) then e :: kept else kept), stop)
  end.

Fixpoint scan_range_loop (r : SSTableReader) (start end_ : bytes) (index : list IndexEntry)
    : Result (list Entry) :=
  match index with
  | [] => Ok []
  | idx_entry :: rest =>
    if bltb (ie_last_key idx_entry) start then scan_range_loop r start end_ rest else
    entries ← load_block r idx_entry;
    let '(kept, stop) := scan_range_block start end_ entries in
    if stop : bool then Ok kept else
    more ← scan_range_loop r start end_ rest;
    Ok (kept ++ more)
  end.

Definition SSTableReader_scan_range (r : SSTableReader) (start end_ : bytes) : Result (list Entry) :=
  index ← index_section r; scan_range_loop r start end_ index.

(** The inner loop of [scan_prefix]; [results] is what was collected before. *)
Fixpoint scan_prefix_block (prefix : bytes) (results : list Entry) (entries : list Entry)
    : list Entry * bool :=
  match entries with
  | [] => (results, false)
  | e :: rest =>
    if starts_with (key e) prefix then scan_prefix_block prefix (results ++ [e]) rest
    else if bltb prefix (key e) && negb (starts_with (key e) prefix) && negb (bool_decide (results = []))
    then (results, true)
    else scan_prefix_block prefix results rest
  end.

Fixpoint scan_prefix_loop (r : SSTableReader) (prefix : bytes) (results : list Entry)
    (index : list IndexEntry) : Result (list Entry) :=
  match index with
  | [] => Ok results
  | idx_entry :: rest =>
    if (blen prefix <=? blen (ie_last_key idx_entry)) &&
       bltb (slice (ie_last_key idx_entry) 0 (blen prefix)) prefix
    then scan_prefix_loop r prefix results rest else
    entries ← load_block r idx_entry;
    let '(results, stop) := scan_prefix_block prefix results entries in
    if stop : bool then Ok results else scan_prefix_loop r prefix results rest
  end.

Definition SSTableReader_scan_prefix (r : SSTableReader) (prefix : bytes) : Result (list Entry) :=
  index ← index_section r; scan_prefix_loop r prefix [] index.

(** [verify_blocks]: the numbers of the blocks whose bytes do not check. *)
Definition block_ok (r : SSTableReader) (entry : IndexEntry) : bool :=
  match read_at r (ie_offset entry) (ie_size entry) with
  | Ok buf => match validate_checksum buf with Ok _ => true | _ => false end
  | _ => false
  end.

Definition verify_blocks (r : SSTableReader) : list nat :=
  match index_section r with
  | Ok index => (fun '(i, _) => i) <$> filter (fun '(_, e) => block_ok r e = false) (imap (fun i e => (i, e)) index)
  | _ => seq 0 (Z.to_nat (sm_block_count (rd_meta r)))
  end.

(** ** SSTableBlockIter *)

Record SSTableBlockIter := mkBlockIter {
  it_reader : SSTableReader;
  it_index : list IndexEntry;
  it_block_idx : nat;
  it_end_block_idx : nat;
  it_current : list Entry;
  it_block_filter : option (nat -> bool);
}.

Definition BlockIter_new (r : SSTableReader) : Result SSTableBlockIter :=
  index ← index_section r;
  Ok (mkBlockIter r index 0 (length index) [] None).

Definition BlockIter_new_with_range (r : SSTableReader) (start : bytes) (end_ : option bytes)
    : Result SSTableBlockIter :=
  index ← index_section r;
  let first := partition_point (fun idx => bltb (ie_last_key idx) start) index in
  let last :=
    match end_ with
    | Some end_key =>
      Nat.min (partition_point (fun idx => bltb (ie_last_key idx) end_key) index + 1) (length index)
    | None => length index
    end in
  Ok (mkBlockIter r index first last [] None).

Definition with_block_filter (it : SSTableBlockIter) (filter : nat -> bool) : SSTableBlockIter :=
  mkBlockIter (it_reader it) (it_index it) (it_block_idx it) (it_end_block_idx it) (it_current it) (Some filter).

(** [Iterator::next]: a block that cannot be read ends the stream. Each round
    of the loop moves to the next block. *)
Fixpoint BlockIter_next (fuel : nat) (it : SSTableBlockIter) : Result (option (Entry * SSTableBlockIter)) :=
  match it_current it with
  | e :: current =>
    Ok (Some (e, mkBlockIter (it_reader it) (it_index it) (it_block_idx it) (it_end_block_idx it)
                   current (it_block_filter it)))
  | [] =>
    match fuel with
    | O => Ok None
    | S fuel' =>
      if Nat.leb (it_end_block_idx it) (it_block_idx it) then Ok None else
      let skip := match it_block_filter it with Some f => negb (f (it_block_idx it)) | None => false end in
      if skip : bool then
        BlockIter_next fuel' (mkBlockIter (it_reader it) (it_index it) (it_block_idx it + 1)
          (it_end_block_idx it) [] (it_block_filter it))
      else
        match it_index it !! it_block_idx it with
        | None => Ok None
        | Some idx_entry =>
          match load_block (it_reader it) idx_entry with
          | Ok entries =>
            BlockIter_next fuel' (mkBlockIter (it_reader it) (it_index it) (it_block_idx it + 1)
              (it_end_block_idx it) entries (it_block_filter it))
          | Err _ => Ok None
          | Panic => Panic
          end
        end
    end
  end.

(** The stream, at most [fuel] entries of it. *)
Fixpoint BlockIter_collect (fuel : nat) (it : SSTableBlockIter) : Result (list Entry) :=
  match fuel with
  | O => Ok []
  | S fuel' =>
    o ← BlockIter_next (S (it_end_block_idx it - it_block_idx it)) it;
    match o with
    | None => Ok []
    | Some (e, it') => es ← BlockIter_collect fuel' it'; Ok (e :: es)
    end
  end.

(** The entries of the blocks still ahead: a bound on the length of the stream. *)
Definition BlockIter_ahead (it : SSTableBlockIter) : nat :=
  length (it_current it) +
  sum_list (map (fun ie => match load_block (it_reader it) ie with Ok es => length es | _ => 0%nat end)
    (take (it_end_block_idx it - it_block_idx it) (drop (it_block_idx it) (it_index it)))).

(** The whole stream. *)
Definition BlockIter_drain (it : SSTableBlockIter) : Result (list Entry) :=
  BlockIter_collect (S (BlockIter_ahead it)) it.

(** * Lemmas *)

(** A reader over the blocks [bs]: the index lists them with their last keys,
    each loads, and the bloom filter has every key. *)
Record readable (r : SSTableReader) (index : list IndexEntry) (bs : list (list Entry)) : Prop := {
  rb_index : index_section r = Ok index;
  rb_blocks : Forall2 (fun ie b => load_block r ie = Ok (norm_entry <$> b) /\
                                   last b <> None /\ ie_last_key ie = default [] (key <$> last b)) index bs;
  rb_bloom : forall e, e ∈ concat bs -> bloom_maybe_contains r (key_hash (key e)) = Ok true;
  rb_bloom_total : forall h, exists b, bloom_maybe_contains r h = Ok b;
}.

Lemma scan_loop_readable r index bs :
  Forall2 (fun ie b => load_block r ie = Ok (norm_entry <$> b) /\ last b <> None /\
                       ie_last_key ie = default [] (key <$> last b)) index bs ->
  scan_loop r index = Ok (norm_entry <$> concat bs).
Proof.
  induction 1 as [|ie b index bs (Hl & _) _ IH]; simpl; [done|].
  rewrite Hl. cbn [mbind Result_bind]. rewrite IH. simpl. by rewrite fmap_app.
Qed.

Lemma scan_readable r index bs : readable r index bs -> SSTableReader_scan r = Ok (norm_entry <$> concat bs).
Proof. intros []. unfold SSTableReader_scan. rewrite rb_index0. by apply scan_loop_readable. Qed.

(** ** Streaming *)

(** From a position, the iterator yields the rest of the current block and the
    blocks up to its end. *)
Lemma BlockIter_collect_readable r index bs cur i j fuel :
  Forall2 (fun ie b => load_block r ie = Ok (norm_entry <$> b) /\ last b <> None /\
                       ie_last_key ie = default [] (key <$> last b)) index bs ->
  (j <= length index)%nat ->
  (length cur + length (concat (take (j - i) (drop i bs))) < fuel)%nat ->
  BlockIter_collect fuel (mkBlockIter r index i j cur None) =
    Ok (cur ++ (norm_entry <$> concat (take (j - i) (drop i bs)))).
Proof.
  intros Hbs Hj. revert i cur; induction fuel as [|fuel IH]; intros i cur Hf; [lia|].
  cbn [BlockIter_collect it_end_block_idx it_block_idx].
  destruct cur as [|e cur].
  2:{ cbn [BlockIter_next it_current mbind Result_bind it_reader it_index it_block_idx it_end_block_idx it_block_filter].
      rewrite IH by (simpl in Hf; lia). done. }
  cbn [BlockIter_next it_current it_reader it_index it_block_idx it_end_block_idx it_block_filter]. cbv zeta.
  destruct (Nat.leb_spec j i).
  { replace (j - i)%nat with 0%nat by lia. done. }
  destruct (lookup_lt_is_Some_2 index i ltac:(lia)) as [ie Hie]. rewrite Hie.
  destruct (Forall2_lookup_l _ _ _ _ _ Hbs Hie) as (b & Hb & Hl & Hne & _). rewrite Hl.
  assert (take (j - i) (drop i bs) = b :: take (j - S i) (drop (S i) bs)) as Htk.
  { rewrite (drop_S _ _ _ Hb). replace (j - i)%nat with (S (j - S i)) by lia. done. }
  rewrite Htk in *. simpl concat in *.
  destruct b as [|e b]; [done|]. replace (i + 1)%nat with (S i) by lia.
  destruct (j - i)%nat as [|n] eqn:Eji; [lia|].
  cbn [BlockIter_next it_current fmap list_fmap mbind Result_bind it_reader it_index it_block_idx it_end_block_idx it_block_filter].
  rewrite IH; [by rewrite fmap_app|]. rewrite length_fmap. rewrite length_app in Hf. simpl in Hf |- *. lia.
Qed.

Lemma BlockIter_new_readable r index bs :
  readable r index bs ->
  exists it, BlockIter_new r = Ok it /\
    BlockIter_collect (S (length (concat bs))) it = Ok (norm_entry <$> concat bs).
Proof.
  intros []. eexists. unfold BlockIter_new. rewrite rb_index0. split; [done|].
  pose proof (Forall2_length _ _ _ rb_blocks0) as Hlen.
  rewrite (BlockIter_collect_readable r index bs) by
    (done || (rewrite drop_0, Nat.sub_0_r, Hlen, firstn_all; simpl; lia)).
  rewrite drop_0, Nat.sub_0_r, Hlen, firstn_all. done.
Qed.

Lemma BlockIter_ahead_readable r index bs cur (i j : nat) :
  Forall2 (fun ie b => load_block r ie = Ok (norm_entry <$> b) /\ last b <> None /\
                       ie_last_key ie = default [] (key <$> last b)) index bs ->
  BlockIter_ahead (mkBlockIter r index i j cur None) =
    (length cur + length (concat (take (j - i) (drop i bs))))%nat.
Proof.
  intros Hbs. unfold BlockIter_ahead. cbn [it_current it_reader it_end_block_idx it_block_idx it_index]. f_equal.
  apply (Forall2_drop _ _ _ i), (Forall2_take _ _ _ (j - i)) in Hbs.
  induction Hbs as [|ie b ies bs' (Hl & _) _ IH]; simpl; [done|].
  by rewrite Hl, length_fmap, length_app, IH.
Qed.

Lemma BlockIter_drain_readable r index bs cur (i j : nat) :
  Forall2 (fun ie b => load_block r ie = Ok (norm_entry <$> b) /\ last b <> None /\
                       ie_last_key ie = default [] (key <$> last b)) index bs ->
  (j <= length index)%nat ->
  BlockIter_drain (mkBlockIter r index i j cur None) =
    Ok (cur ++ (norm_entry <$> concat (take (j - i) (drop i bs)))).
Proof.
  intros Hbs Hj. unfold BlockIter_drain. rewrite (BlockIter_ahead_readable _ _ bs) by done.
  apply BlockIter_collect_readable; [done|done|lia].
Qed.

(** ** Point reads *)

(** No user key has versions in two blocks. *)
Definition no_split (bs : list (list Entry)) : Prop :=
  forall (i j : nat) bi bj a b, (i < j)%nat -> bs !! i = Some bi -> bs !! j = Some bj ->
    a ∈ bi -> b ∈ bj -> key a <> key b.

Lemma first_visible_norm es k s : first_visible (norm_entry <$> es) k s = norm_entry <$> first_visible es k s.
Proof.
  induction es as [|e es IH]; [done|]. cbn [fmap list_fmap first_visible].
  replace (key (norm_entry e)) with (key e) by (unfold norm_entry; by case_match).
  replace (seqno (norm_entry e)) with (seqno e) by (unfold norm_entry; by case_match).
  destruct (beqb (key e) k && (seqno e <=? s)); [done|]. apply IH.
Qed.

Lemma sorted_norm es : sorted es -> sorted (norm_entry <$> es).
Proof.
  apply StronglySorted_fmap. intros a b. rewrite !entry_le_iff. unfold norm_entry. by repeat case_match.
Qed.

Lemma sorted_blocks_lookup bs (i j : nat) bi bj a b :
  sorted (concat bs) -> (i < j)%nat -> bs !! i = Some bi -> bs !! j = Some bj -> a ∈ bi -> b ∈ bj -> entry_le a b.
Proof.
  intros Hs Hij Hi Hj Ha Hb. rewrite <- (take_drop_middle bs i bi Hi), concat_app in Hs. simpl in Hs.
  apply StronglySorted_app_1_r in Hs.
  refine (StronglySorted_app_1_elem_of _ _ _ _ _ Hs Ha _).
  apply elem_of_concat. exists bj. split; [done|]. apply list_elem_of_lookup.
  exists (j - S i)%nat. rewrite lookup_drop. by replace (S i + (j - S i))%nat with j by lia.
Qed.

Lemma sorted_block_last bs (i : nat) b e x :
  sorted (concat bs) -> bs !! i = Some b -> last b = Some x -> e ∈ b -> entry_le e x.
Proof.
  intros Hs Hi Hl He. rewrite <- (take_drop_middle bs i b Hi), concat_app in Hs. simpl in Hs.
  apply StronglySorted_app_1_r, StronglySorted_app_1_l in Hs.
  apply last_Some in Hl as [l' ->]. apply elem_of_app in He as [He| ->%list_elem_of_singleton]; [|done].
  refine (StronglySorted_app_1_elem_of _ _ _ _ _ Hs He _). by apply list_elem_of_singleton.
Qed.

Lemma last_elem {A} (l : list A) x : last l = Some x -> x ∈ l.
Proof. intros [l' ->]%last_Some. apply elem_of_app. right. by apply list_elem_of_singleton. Qed.

(** The index of a table, as [readable] has it. *)
Abbreviation indexes r := (Forall2 (fun ie b => load_block r ie = Ok (norm_entry <$> b) /\ last b <> None /\
                                                ie_last_key ie = default [] (key <$> last b))).

Lemma index_entry_block r index bs (i : nat) ie :
  indexes r index bs -> index !! i = Some ie ->
  exists b x, bs !! i = Some b /\ last b = Some x /\ ie_last_key ie = key x.
Proof.
  intros Hbs Hi. destruct (Forall2_lookup_l _ _ _ _ _ Hbs Hi) as (bi & Hbi & _ & Hne & ->).
  destruct (last bi) as [x|] eqn:Ex; [|done]. by exists bi, x.
Qed.

Lemma index_ascending r index bs (i j : nat) x y :
  indexes r index bs -> sorted (concat bs) -> (i < j)%nat -> index !! i = Some x -> index !! j = Some y ->
  (ie_last_key x <= ie_last_key y)%bytes.
Proof.
  intros Hbs Hs Hij Hi Hj.
  destruct (index_entry_block _ _ _ _ _ Hbs Hi) as (bi & a & Hbi & Ha & ->).
  destruct (index_entry_block _ _ _ _ _ Hbs Hj) as (bj & b & Hbj & Hb & ->).
  eapply entry_le_key, sorted_blocks_lookup; eauto using last_elem.
Qed.

(** Blocks before the one with a version of [k] end before [k], blocks after it
    end after [k]. *)
Lemma index_around r index bs k (n i : nat) b e ie :
  indexes r index bs -> sorted (concat bs) -> no_split bs ->
  bs !! n = Some b -> e ∈ b -> key e = k -> index !! i = Some ie ->
  ((i < n)%nat -> (ie_last_key ie < k)%bytes) /\ ((n <= i)%nat -> (k <= ie_last_key ie)%bytes) /\
  ((n < i)%nat -> (k < ie_last_key ie)%bytes).
Proof.
  intros Hbs Hs Hns Hn He <- Hi. destruct (index_entry_block _ _ _ _ _ Hbs Hi) as (bi & x & Hbi & Hx & ->).
  pose proof (last_elem _ _ Hx) as Hxin.
  assert ((n < i)%nat -> (key e < key x)%bytes) as Hafter.
  { intros Hlt. pose proof (entry_le_key _ _ (sorted_blocks_lookup _ _ _ _ _ _ _ Hs Hlt Hn Hbi He Hxin)).
    pose proof (Hns _ _ _ _ _ _ Hlt Hn Hbi He Hxin). border. }
  split; [|split; [|done]].
  - intros Hlt. pose proof (entry_le_key _ _ (sorted_blocks_lookup _ _ _ _ _ _ _ Hs Hlt Hbi Hn Hxin He)).
    pose proof (Hns _ _ _ _ _ _ Hlt Hbi Hn Hxin He). border.
  - intros Hle. destruct (decide (i = n)) as [->|].
    + simplify_eq. eapply entry_le_key, sorted_block_last; done.
    + specialize (Hafter ltac:(lia)). border.
Qed.

(** The versions of a key are all in the block the index search picks. *)
Lemma find_block_spec r index bs k (n : nat) b e :
  indexes r index bs -> sorted (concat bs) -> no_split bs ->
  bs !! n = Some b -> e ∈ b -> key e = k -> find_block index k = n.
Proof.
  intros Hbs Hs Hns Hn He Hk. unfold find_block.
  pose proof (fun i ie => index_around r index bs k n i b e ie Hbs Hs Hns Hn He Hk) as Hcmp.
  assert (n < length index)%nat as Hlen.
  { rewrite (Forall2_length _ _ _ Hbs). by eapply lookup_lt_Some. }
  destruct (lookup_lt_is_Some_2 index n Hlen) as [ien Hien].
  pose proof (binary_search_by_spec (fun ie => bcmp (ie_last_key ie) k) index) as Hspec.
  assert (partitioned (fun ie => bcmp (ie_last_key ie) k) index) as Hpart.
  { intros i j x y Hij Hi Hj. pose proof (index_ascending _ _ _ _ _ _ _ Hbs Hs Hij Hi Hj).
    split; intros Hc; [rewrite bcmp_opp in Hc |- *|].
    - assert (k < ie_last_key x)%bytes as Hx by (unfold blt; by destruct (bcmp k (ie_last_key x))).
      assert (k < ie_last_key y)%bytes as Hy by border. unfold blt in Hy. by rewrite Hy.
    - change (ie_last_key y < k)%bytes in Hc. change (ie_last_key x < k)%bytes. border. }
  destruct (binary_search_by _ index) as [i|i]; simpl; specialize (Hspec Hpart).
  - destruct Hspec as [(ie & Hi & Heq%bcmp_eq) Hgt]. destruct (Hcmp i ie Hi) as (H1 & H2 & H3).
    destruct (Nat.lt_trichotomy i n) as [Hlt|[?|Hgt']]; [|done|]; [specialize (H1 Hlt)|specialize (H3 Hgt')]; border.
  - destruct Hspec as (Hi & Hlt & Hgt).
    destruct (Nat.lt_trichotomy i n) as [Hlt'|[?|Hgt']]; [|done|].
    + destruct (lookup_lt_is_Some_2 index i ltac:(lia)) as [ie Hie]. destruct (Hcmp i ie Hie) as (H1 & _).
      specialize (Hgt i ie ltac:(lia) Hie). specialize (H1 Hlt'). unfold blt in H1. simpl in Hgt. congruence.
    + specialize (Hlt n ien Hgt' Hien). destruct (Hcmp n ien Hien) as (_ & H2 & _). specialize (H2 ltac:(lia)).
      change (ie_last_key ien < k)%bytes in Hlt. border.
Qed.

Lemma first_visible_block bs (n : nat) b k s :
  bs !! n = Some b ->
  (forall (i : nat) bi e, bs !! i = Some bi -> e ∈ bi -> key e = k -> i = n) ->
  first_visible (concat bs) k s = first_visible b k s.
Proof.
  intros Hn Honly. rewrite <- (take_drop_middle bs n b Hn), concat_app. simpl. rewrite !first_visible_app.
  assert (first_visible (concat (take n bs)) k s = None) as ->.
  { apply first_visible_None. intros e (bi & He & [i Hi]%list_elem_of_lookup)%elem_of_concat Hk.
    apply lookup_take_Some in Hi as [Hi Hlt]. specialize (Honly i bi e Hi He Hk). lia. }
  destruct (first_visible b k s); [done|]. apply first_visible_None.
  intros e (bi & He & [i Hi]%list_elem_of_lookup)%elem_of_concat Hk. rewrite lookup_drop in Hi.
  specialize (Honly _ bi e Hi He Hk). lia.
Qed.

Lemma get_no_bloom_readable r index bs k s :
  readable r index bs -> sorted (concat bs) -> no_split bs ->
  get_no_bloom r k s = Ok (norm_entry <$> first_visible (concat bs) k s).
Proof.
  intros [] Hs Hns. unfold get_no_bloom. rewrite rb_index0. cbn [mbind Result_bind].
  assert (forall (i : nat) bi e, bs !! i = Some bi -> e ∈ bi -> key e = k -> i = find_block index k) as Honly.
  { intros i bi e Hi He Hk. symmetry. by eapply find_block_spec. }
  destruct (index !! find_block index k) as [ie|] eqn:Ei.
  - destruct (Forall2_lookup_l _ _ _ _ _ rb_blocks0 Ei) as (b & Hb & -> & _). cbn [mbind Result_bind].
    rewrite (first_visible_block bs _ b) by done. f_equal.
    rewrite point_read_first_visible, first_visible_norm; [done|]. apply sorted_norm.
    rewrite <- (take_drop_middle bs _ b Hb), concat_app in Hs. simpl in Hs.
    by apply StronglySorted_app_1_r, StronglySorted_app_1_l in Hs.
  - assert (first_visible (concat bs) k s = None) as ->; [|done]. apply first_visible_None.
    intros e (bi & He & [i Hi]%list_elem_of_lookup)%elem_of_concat Hk.
    rewrite <- (Honly i bi e Hi He Hk) in Ei. apply lookup_ge_None in Ei.
    apply lookup_lt_Some in Hi. rewrite (Forall2_length _ _ _ rb_blocks0) in Ei. lia.
Qed.

Lemma get_readable r index bs k s :
  readable r index bs -> sorted (concat bs) -> no_split bs ->
  SSTableReader_get r k s = Ok (norm_entry <$> first_visible (concat bs) k s).
Proof.
  intros Hr Hs Hns. unfold SSTableReader_get. pose proof (rb_bloom_total _ _ _ Hr (key_hash k)) as [c Hc].
  rewrite Hc. cbn [mbind Result_bind]. destruct c; [by eapply get_no_bloom_readable|]. simpl.
  assert (first_visible (concat bs) k s = None) as ->; [|done]. apply first_visible_None.
  intros e He Hk. pose proof (rb_bloom _ _ _ Hr e He) as Hb. rewrite Hk in Hb. congruence.
Qed.

(** ** Range iteration *)

Lemma iter_readable r index bs :
  readable r index bs -> exists it, BlockIter_new r = Ok it /\ BlockIter_drain it = Ok (norm_entry <$> concat bs).
Proof.
  intros []. eexists. unfold BlockIter_new. rewrite rb_index0. split; [done|].
  rewrite (BlockIter_drain_readable r index bs) by done. pose proof (Forall2_length _ _ _ rb_blocks0) as Hlen.
  by rewrite drop_0, Nat.sub_0_r, Hlen, firstn_all.
Qed.

(** Blocks whose last key is below a bound hold keys below it, the block after
    one whose last key reaches the bound holds keys at or above it. *)
Lemma block_below r index bs (j : nat) u :
  indexes r index bs -> sorted (concat bs) -> (j <= length index)%nat ->
  (forall (i : nat) ie, (i < j)%nat -> index !! i = Some ie -> bltb (ie_last_key ie) u = true) ->
  forall e, e ∈ concat (take j bs) -> (key e < u)%bytes.
Proof.
  intros Hbs Hs Hj Hlt e (b & He & [i Hi]%list_elem_of_lookup)%elem_of_concat.
  apply lookup_take_Some in Hi as [Hi Hij].
  destruct (lookup_lt_is_Some_2 index i ltac:(lia)) as [ie Hie]. specialize (Hlt i ie Hij Hie).
  destruct (index_entry_block _ _ _ _ _ Hbs Hie) as (b' & x & Hb' & Hx & Hlk). simplify_eq.
  pose proof (entry_le_key _ _ (sorted_block_last _ _ _ _ _ Hs Hi Hx He)).
  rewrite Hlk in Hlt. apply bltb_lt in Hlt. border.
Qed.

Lemma block_above r index bs (q : nat) u :
  indexes r index bs -> sorted (concat bs) -> (q < length index)%nat ->
  (forall ie, index !! q = Some ie -> bltb (ie_last_key ie) u = false) ->
  forall e, e ∈ concat (drop (q + 1) bs) -> (u <= key e)%bytes /\ (no_split bs -> (u < key e)%bytes).
Proof.
  intros Hbs Hs Hq Hge e (b & He & [i Hi]%list_elem_of_lookup)%elem_of_concat. rewrite lookup_drop in Hi.
  destruct (lookup_lt_is_Some_2 index q Hq) as [ie Hie]. specialize (Hge ie Hie).
  destruct (index_entry_block _ _ _ _ _ Hbs Hie) as (b' & x & Hb' & Hx & Hlk). rewrite Hlk in Hge.
  apply bltb_ge in Hge. pose proof (last_elem _ _ Hx) as Hxin.
  pose proof (entry_le_key _ _ (sorted_blocks_lookup _ q (q + 1 + i) _ _ _ _ Hs ltac:(lia) Hb' Hi Hxin He)).
  split; [border|]. intros Hns. pose proof (Hns q (q + 1 + i)%nat _ _ _ _ ltac:(lia) Hb' Hi Hxin He). border.
Qed.

Lemma partition_index r index bs u :
  indexes r index bs -> sorted (concat bs) ->
  let p := partition_point (fun idx => bltb (ie_last_key idx) u) index in
  (p <= length index)%nat /\
  (forall (j : nat) y, (j < p)%nat -> index !! j = Some y -> bltb (ie_last_key y) u = true) /\
  (forall (j : nat) y, (p <= j)%nat -> index !! j = Some y -> bltb (ie_last_key y) u = false).
Proof.
  intros Hbs Hs. apply partition_point_spec. intros i j x y Hij Hi Hj. rewrite !bltb_lt.
  pose proof (index_ascending _ _ _ _ _ _ _ Hbs Hs Hij Hi Hj). border.
Qed.

(** The range iterator skips only entries outside the range: those below
    [start], and those at or above [end_] (above it, if no key is split over
    blocks). *)
Lemma range_iter_readable r index bs start end_ :
  readable r index bs -> sorted (concat bs) ->
  exists it pre mid post, BlockIter_new_with_range r start end_ = Ok it /\
    BlockIter_drain it = Ok (norm_entry <$> mid) /\ concat bs = pre ++ mid ++ post /\
    (forall e, e ∈ pre -> (key e < start)%bytes) /\
    (forall e, e ∈ post -> exists u, end_ = Some u /\ (u <= key e)%bytes /\ (no_split bs -> (u < key e)%bytes)).
Proof.
  intros [] Hs. unfold BlockIter_new_with_range. rewrite rb_index0, Result_bind_Ok. cbv zeta.
  destruct (partition_index r index bs start rb_blocks0 Hs) as (Hp & Hpl & _).
  pose proof (Forall2_length _ _ _ rb_blocks0) as Hlen.
  set (p := partition_point _ index) in *.
  set (last := match end_ with Some _ => _ | None => _ end).
  assert (last <= length index)%nat as Hl by (unfold last; destruct end_; lia).
  assert (forall e, e ∈ concat (drop last bs) -> exists u, end_ = Some u /\ (u <= key e)%bytes /\ (no_split bs -> (u < key e)%bytes)) as Hpost.
  { unfold last. destruct end_ as [u|].
    - destruct (partition_index r index bs u rb_blocks0 Hs) as (Hq & _ & Hqr).
      set (q := partition_point (fun idx => bltb (ie_last_key idx) u) index) in *. intros e He. exists u. split; [done|].
      destruct (decide (q < length index)%nat).
      + rewrite Nat.min_l in He by lia. eapply block_above; eauto.
      + rewrite Nat.min_r in He by lia. rewrite drop_ge in He by lia. by apply elem_of_nil in He.
    - intros e He. rewrite Hlen, drop_all in He. by apply elem_of_nil in He. }
  eexists _, (concat (take p bs)), (concat (take (last - p) (drop p bs))), (concat (drop (last - p) (drop p bs))).
  split; [done|]. split; [by rewrite (BlockIter_drain_readable r index bs)|].
  split; [by rewrite <- !concat_app, !take_drop|].
  split; [by eapply block_below|]. rewrite drop_drop. intros e He.
  destruct (decide (p <= last)%nat).
  - apply Hpost. by replace last with (p + (last - p))%nat by lia.
  - replace (last - p)%nat with 0%nat in He by lia. rewrite Nat.add_0_r in He.
    apply Hpost. rewrite <- (take_drop (p - last) (drop last bs)), concat_app, drop_drop.
    replace (last + (p - last))%nat with p by lia. apply elem_of_app. by right.
Qed.

(** ** Opening what was written *)

Lemma load_block_at r data b enc c ri off rest :
  at_pos data off (enc ++ rest) -> rd_file r = data ->
  Forall Entry_wf b -> blen (entries_bytes b ri) < 2 ^ 32 -> blen enc < 2 ^ 32 ->
  encode_with_restart_interval b c Data ri = Ok enc ->
  forall ie, ie_offset ie = off -> ie_size ie = blen enc ->
  load_block r ie = Ok (norm_entry <$> b).
Proof.
  intros Hat Hf Hwf Hraw Hl Henc ie Ho Hz. unfold load_block, read_at. rewrite Ho, Hz, Hf.
  apply read_exact_at in Hat as [-> _]. cbn [mbind Result_bind].
  rewrite <- (app_nil_r enc). by eapply decode_encoded_block.
Qed.

Lemma indexes_written r data cfg bs encs off rest :
  rd_file r = data -> at_pos data off (concat encs ++ rest) ->
  Forall (fun b => b <> []) bs -> Forall (Forall Entry_wf) bs ->
  Forall (fun b => blen (entries_bytes b (sc_restart_interval cfg)) < 2 ^ 32) bs ->
  blen (concat encs) < 2 ^ 32 ->
  Forall2 (fun b enc => encode_with_restart_interval b (sc_compression cfg) Data
                          (sc_restart_interval cfg) = Ok enc) bs encs ->
  indexes r (block_index off bs encs) bs.
Proof.
  intros Hf Hat Hne Hwf Hraw Hlen Henc. revert off Hat Hne Hwf Hraw Hlen.
  induction Henc as [|b enc bs encs Hb _ IH]; intros off Hat Hne Hwf Hraw Hlen; [constructor|].
  apply Forall_cons in Hne as [? ?], Hwf as [? ?], Hraw as [? ?]. simpl in Hat, Hlen. rewrite <- app_assoc in Hat.
  rewrite blen_app in Hlen. pose proof (blen_nonneg enc). pose proof (blen_nonneg (concat encs)).
  cbn [block_index]. constructor.
  - split; [|split; [|done]].
    + eapply load_block_at; try done; [lia|]. simpl. apply wrap_small. split; lia.
    + intros Hl. by apply last_None in Hl.
  - apply at_pos_app in Hat as (_ & _ & Hat). apply IH; try done. lia.
Qed.

(** What a table's entries have to fit: the codec is not the dictionary one,
    the raw size of each block is a [u32], and the bloom filter's bit count is
    below its [u32] limit. *)
Record table_input (cfg : SSTableConfig) (id : Z) (es : list Entry) : Prop := {
  ti_nonempty : es <> [];
  ti_wf : Forall Entry_wf es;
  ti_len : blen es < 2 ^ 63;
  ti_codec : forall level, sc_compression cfg <> ZstdDict level;
  ti_id : is_uint 64 id;
  ti_blocks : Forall (fun b => exists raw, encode_entries b (sc_restart_interval cfg) = Ok raw /\ blen raw < 2 ^ 32)
                (split_blocks (sc_data_block_size cfg) [] 0 es);
  ti_bloom : bloom_requested_bits (sc_bloom_bits_per_key cfg) (blen (bb_hashes (table_bloom cfg es))) <= 2 ^ 32 - 8;
}.

Lemma blocks_encode cfg (bs : list (list Entry)) :
  (forall level, sc_compression cfg <> ZstdDict level) ->
  Forall (fun b => exists raw, encode_entries b (sc_restart_interval cfg) = Ok raw /\ blen raw < 2 ^ 32) bs ->
  exists encs, Forall2 (fun b enc => encode_with_restart_interval b (sc_compression cfg) Data
                          (sc_restart_interval cfg) = Ok enc) bs encs.
Proof.
  intros Hc Hb. induction Hb as [|b bs (raw & Hraw & _) _ [encs IH]]; [exists []; constructor|].
  assert (exists enc, encode_with_restart_interval b (sc_compression cfg) Data (sc_restart_interval cfg) = Ok enc) as [enc He].
  { unfold encode_with_restart_interval. rewrite Hraw. destruct (sc_compression cfg); simpl; eauto. by destruct (Hc level). }
  exists (enc :: encs). by constructor.
Qed.

Lemma blocks_fit (bs : list (list Entry)) ri :
  Forall (fun b => exists raw, encode_entries b ri = Ok raw /\ blen raw < 2 ^ 32) bs -> Forall (fun b => blen (entries_bytes b ri) < 2 ^ 32) bs.
Proof. intros H. eapply Forall_impl; [exact H|]. by intros b (raw & ->%encode_entries_inv & ?). Qed.

Lemma max_seqno_range es : Forall Entry_wf es -> is_uint 64 (max_seqno es) /\ is_uint 64 (min_seqno es).
Proof.
  intros Hwf. unfold max_seqno, min_seqno.
  assert (is_uint 64 0) as H0 by done. assert (is_uint 64 U64_MAX) as H1 by done. revert H0 H1.
  generalize 0 as a, U64_MAX as b. induction Hwf as [|e es [[? ?] _] _ IH]; intros a b [? ?] [? ?]; simpl; [done|].
  apply IH; split; lia.
Qed.

(** The parts of a table file, each at its offset. *)
Section layout.
Context (data index bloom : bytes) (m : SSTableMeta).
Let f := table_footer data index bloom.
Let file := data ++ index ++ bloom ++ SSTableMeta_encode m ++ Footer_encode f.

Lemma layout_at :
  at_pos file 0 (data ++ index ++ bloom ++ SSTableMeta_encode m ++ Footer_encode f) /\
  at_pos file (ft_index_offset f) (index ++ bloom ++ SSTableMeta_encode m ++ Footer_encode f) /\
  at_pos file (ft_bloom_offset f) (bloom ++ SSTableMeta_encode m ++ Footer_encode f) /\
  at_pos file (ft_meta_offset f) (SSTableMeta_encode m ++ Footer_encode f) /\
  at_pos file (ft_meta_offset f + blen (SSTableMeta_encode m)) (Footer_encode f).
Proof.
  pose proof (at_pos_0 file) as H0. split; [done|]. unfold file in H0 at 2.
  apply at_pos_app in H0 as (_ & _ & H0). rewrite Z.add_0_l in H0. split; [done|].
  apply at_pos_app in H0 as (_ & _ & H0). split; [done|].
  apply at_pos_app in H0 as (_ & _ & H0). split; [done|]. by apply at_pos_app in H0 as (_ & _ & H0).
Qed.

Lemma layout_bounds :
  ft_index_offset f = blen data /\ ft_bloom_offset f = ft_index_offset f + blen index /\
  ft_meta_offset f = ft_bloom_offset f + blen bloom /\
  blen file = ft_meta_offset f + blen (SSTableMeta_encode m) + 36.
Proof.
  unfold f, table_footer. cbn [ft_index_offset ft_bloom_offset ft_meta_offset].
  do 3 (split; [done|]). unfold file. rewrite !blen_app, blen_Footer_encode. unfold FOOTER_SIZE_V2. lia.
Qed.

Lemma open_layout :
  blen file < 2 ^ 32 -> SSTableMeta_ok m ->
  SSTableReader_open file =
    Ok (mkSSTableReader file (clear_zone_maps m) (ft_index_offset f, blen index) (ft_bloom_offset f, blen bloom)
          (ft_meta_offset f, blen (SSTableMeta_encode m)) (sm_table_id m)).
Proof.
  intros Hlen Hm. destruct layout_at as (_ & _ & _ & H3 & H4). destruct layout_bounds as (Hi & Hb & Hmo & Hfl).
  pose proof (blen_nonneg data). pose proof (blen_nonneg index). pose proof (blen_nonneg bloom).
  pose proof (blen_nonneg (SSTableMeta_encode m)).
  apply read_exact_at in H3 as [H3 _]. apply at_pos_suffix in H4.
  pose proof (SSTableMeta_decode_encode m Hm) as Hdec. clearbody file. clearbody f.
  remember (SSTableMeta_encode m) as mb eqn:Emb. clear Emb.
  unfold SSTableReader_open. cbv zeta. unfold FOOTER_SIZE, FOOTER_SIZE_V2.
  destruct (Z.ltb_spec (blen file) 28); [lia|]. rewrite Z.min_r by lia.
  replace (blen file - 36) with (ft_meta_offset f + blen mb) by lia.
  rewrite H4, <- (app_nil_l (Footer_encode f)).
  rewrite Footer_decode_encode by (split; [|split]; split; lia). cbn [mbind Result_bind].
  replace (ft_bloom_offset f - ft_index_offset f) with (blen index) by lia.
  replace (ft_meta_offset f - ft_bloom_offset f) with (blen bloom) by lia.
  unfold FOOTER_SIZE_V2. replace (blen file - 36 - ft_meta_offset f) with (blen mb) by lia.
  rewrite !wrap_small by (split; lia).
  rewrite H3, Result_bind_Ok, Hdec, Result_bind_Ok. done.
Qed.

End layout.

Lemma block_index_ok bs encs off :
  Forall (Forall Entry_wf) bs -> 0 <= off -> off + blen (concat encs) < 2 ^ 32 ->
  blen (encode_index (block_index off bs encs)) < 2 ^ 32 ->
  Forall IndexEntry_ok (block_index off bs encs).
Proof.
  intros Hwf Ho Hlen Hi.
  assert (blen (block_index off bs encs ≫= encode_index_entry) < 2 ^ 32) as Hi'.
  { unfold encode_index in Hi. rewrite blen_app, blen_to_le_bytes in Hi. lia. }
  clear Hi. revert off encs Ho Hlen Hi'. induction Hwf as [|b bs Hb _ IH]; intros off [|enc encs] Ho Hlen Hi; try constructor.
  - cbn [block_index mbind list_bind] in Hi. unfold encode_index_entry at 1 in Hi.
    rewrite !blen_app, !blen_to_le_bytes in Hi. simpl concat in Hlen. rewrite blen_app in Hlen.
    repeat match type of Hi with context [blen ?l] => lazymatch goal with
      | H : 0 <= blen l |- _ => fail | _ => pose proof (blen_nonneg l) end end.
    pose proof (blen_nonneg enc). pose proof (blen_nonneg (concat encs)). simpl in Hi.
    split; [split; [apply blen_nonneg|simpl; lia]|]. split; [|split; [split; simpl; lia|apply Z.mod_pos_bound; lia]].
    simpl. destruct (last b) as [x|] eqn:Ex; [|done]. apply last_elem in Ex. rewrite Forall_forall in Hb. by apply Hb.
  - cbn [block_index mbind list_bind] in Hi. rewrite blen_app in Hi. simpl concat in Hlen. rewrite blen_app in Hlen.
    pose proof (blen_nonneg enc). match type of Hi with blen ?l + _ < _ => pose proof (blen_nonneg l) end.
    apply IH; lia.
Qed.

Lemma table_meta_ok cfg zmb id es bs :
  is_uint 64 id -> Forall Entry_wf es -> blen es < 2 ^ 63 ->
  blen (SSTableMeta_encode (table_meta cfg zmb id es bs 0)) < 2 ^ 32 ->
  SSTableMeta_ok (table_meta cfg zmb id es bs 0).
Proof.
  intros Hid Hwf Hlen Hb. unfold SSTableMeta_encode, write_u16_field, write_u32_field in Hb.
  set (m := table_meta cfg zmb id es bs 0) in *.
  rewrite !blen_app, !blen_to_le_bytes in Hb.
  assert (blen (sm_zone_maps m) <= blen (match sm_zone_maps m with
    | [] => [] | z :: l => [12] ++ to_le_bytes 4 (wrap32 (blen (z :: l))) ++ z :: l end)) as Hz.
  { destruct (sm_zone_maps m); [done|]. rewrite !blen_app.
    pose proof (blen_nonneg [12]). pose proof (blen_nonneg (to_le_bytes 4 (wrap32 (blen (z :: l))))). lia. }
  repeat match type of Hb with context [blen ?l] => lazymatch goal with
    | H : 0 <= blen l |- _ => fail | _ => pose proof (blen_nonneg l) end end.
  pose proof (blen_nonneg (sm_zone_maps m)).
  destruct (max_seqno_range es Hwf) as [Hmax Hmin].
  assert (0 <= blen (filter (fun e => is_value e = false) es) <= blen es) as Ht.
  { split; [apply blen_nonneg|]. unfold blen. pose proof (length_filter (fun e => is_value e = false) es). lia. }
  unfold SSTableMeta_ok. subst m. cbn [sm_table_id sm_block_count sm_item_count sm_key_min sm_key_max
    sm_seqno_min sm_seqno_max sm_compression sm_format_version sm_file_size sm_tombstone_count sm_zone_maps table_meta] in *.
  pose proof (blen_nonneg es). pose proof (Z.mod_pos_bound (blen bs) (2 ^ 32) ltac:(lia)).
  unfold is_uint in *. unfold wrap. repeat (split; try lia).
Qed.

Lemma blen_index_le l : blen l <= blen (encode_index l).
Proof.
  unfold encode_index. rewrite blen_app. pose proof (blen_nonneg (to_le_bytes 4 (wrap32 (blen l)))).
  assert (blen l <= blen (l ≫= encode_index_entry)); [|lia].
  induction l as [|e l IH]; [done|]. rewrite bind_cons, blen_app, blen_cons.
  unfold encode_index_entry at 1. rewrite !blen_app, !blen_to_le_bytes.
  pose proof (blen_nonneg (ie_last_key e)). specialize (IH (blen_nonneg _)). lia.
Qed.

(** A written table opens and is readable. *)
Lemma open_written cfg zmb id es m file :
  table_input cfg id es -> write_table cfg zmb id es = Ok (Some (m, file)) -> blen file < 2 ^ 32 ->
  let bs := split_blocks (sc_data_block_size cfg) [] 0 es in
  m = table_meta cfg zmb id es bs (blen file) /\
  exists r index, SSTableReader_open file = Ok r /\ readable r index bs /\
    rd_meta r = clear_zone_maps (table_meta cfg zmb id es bs 0).
Proof.
  intros [] Hw Hlen bs. destruct (blocks_encode cfg bs ti_codec0 ti_blocks0) as [encs Hencs]. apply blocks_fit in ti_blocks0.
  rewrite (write_table_spec cfg zmb id es encs ti_nonempty0 Hencs) in Hw. fold bs in Hw.
  destruct (bloom_finish_filter (table_bloom cfg es) ti_bloom0) as (bloom & bf & Hbl & Hbf & Hin & Htot).
  rewrite Hbl, Result_bind_Ok in Hw. cbv zeta in Hw. apply Ok_inj in Hw.
  injection Hw as Hm Hfile. rewrite Hfile in Hm. split; [by rewrite Hm|].
  set (index := encode_index (block_index 0 bs encs)) in *.
  set (meta := table_meta cfg zmb id es bs 0) in *.
  change (concat encs ++ index ++ bloom ++ SSTableMeta_encode meta ++
    Footer_encode (table_footer (concat encs) index bloom) = file) in Hfile.
  destruct (layout_at (concat encs) index bloom meta) as (H0 & H1 & H2 & _).
  destruct (layout_bounds (concat encs) index bloom meta) as (B1 & B2 & B3 & B4).
  pose proof (open_layout (concat encs) index bloom meta) as Hopen.
  rewrite Hfile in *. set (f := table_footer (concat encs) index bloom) in *.
  pose proof (blen_nonneg (concat encs)). pose proof (blen_nonneg index). pose proof (blen_nonneg bloom).
  pose proof (blen_nonneg (SSTableMeta_encode meta)).
  eexists _, (block_index 0 bs encs). split; [apply Hopen; [done|]|split; [|done]].
  { apply table_meta_ok; try done. change (blen (SSTableMeta_encode meta) < 2 ^ 32). lia. }
  assert (Forall (Forall Entry_wf) bs) as Hbwf.
  { apply Forall_forall. intros b Hb. apply Forall_forall. intros e He. rewrite Forall_forall in ti_wf0. apply ti_wf0.
    rewrite <- (app_nil_l es), <- (split_blocks_concat (sc_data_block_size cfg) [] 0 es). apply elem_of_concat. eauto. }
  split.
  - unfold index_section, read_at. cbn [rd_index_loc rd_file fst snd].
    apply read_exact_at in H1 as [-> _]. rewrite !Result_bind_Ok. apply decode_encode_index.
    + apply block_index_ok; [done|lia|lia|]. fold index. lia.
    + split; [apply blen_nonneg|]. pose proof (blen_index_le (block_index 0 bs encs)) as Hli. fold index in Hli. lia.
  - rewrite <- Hfile in H0 at 2. eapply (indexes_written _ file cfg bs encs 0); try done; [apply split_blocks_nonempty|lia].
  - intros e He. unfold bloom_maybe_contains, read_at. cbn [rd_bloom_loc rd_file fst snd].
    apply read_exact_at in H2 as [-> _]. rewrite !Result_bind_Ok, Hbf. cbn [ok_or]. rewrite Result_bind_Ok.
    apply Hin. unfold table_bloom. cbn [bb_hashes]. destruct (f64_gtb _ _); [left|by right].
    apply list_elem_of_fmap. exists e. split; [done|].
    unfold bs in He. by rewrite split_blocks_concat, app_nil_l in He.
  - intros h. unfold bloom_maybe_contains, read_at. cbn [rd_bloom_loc rd_file fst snd].
    apply read_exact_at in H2 as [-> _]. rewrite !Result_bind_Ok, Hbf. cbn [ok_or]. rewrite Result_bind_Ok. apply Htot.
Qed.

Lemma open_file file r : SSTableReader_open file = Ok r -> rd_file r = file.
Proof.
  unfold SSTableReader_open. cbv zeta. case_match; [done|].
  destruct (Footer_decode _) as [[f n]| |]; [|done..]. rewrite Result_bind_Ok.
  destruct (read_exact _ _ _) as [[d ?]| |]; [|done..]. rewrite Result_bind_Ok.
  destruct (SSTableMeta_decode d) as [m| |]; [|done..]. rewrite Result_bind_Ok. intros Hr. apply Ok_inj in Hr. by rewrite <- Hr.
Qed.

Lemma decode_validates raw es : decode raw = Ok es -> validate_checksum raw = Ok tt.
Proof.
  unfold decode, validate_checksum. destruct (decode_header raw) as [hdr| |]; cbn [mbind Result_bind]; [|done..].
  cbv zeta. case_match; [done|]. case_match; done.
Qed.

Lemma verify_blocks_readable r index bs : readable r index bs -> verify_blocks r = [].
Proof.
  intros []. unfold verify_blocks. rewrite rb_index0.
  enough (filter (fun '(_, e) => block_ok r e = false) (imap (fun i e => (i, e)) index) = []) as -> by done.
  apply filter_none. intros [i ie] Hin.
  apply elem_of_lookup_imap in Hin as (j & y & [= -> ->] & Hy). simpl.
  destruct (Forall2_lookup_l _ _ _ _ _ rb_blocks0 Hy) as (b & _ & Hl & _).
  unfold block_ok. unfold load_block in Hl. destruct (read_at r (ie_offset y) (ie_size y)); [|done..].
  rewrite Result_bind_Ok in Hl. by rewrite (decode_validates _ _ Hl).
Qed.

(** C27: an SSTable reads back. Entries written as a table give a file that
    opens; its scan and its block iterator return exactly the entries (a
    tombstone without a value), every block checks, and the metadata of the
    opened table has the entry count, the first and the last key and the range
    of sequence numbers. *)
Theorem sstable_roundtrip cfg zmb id es m file :
  table_input cfg id es -> write_table cfg zmb id es = Ok (Some (m, file)) -> blen file < 2 ^ 32 ->
  exists r, SSTableReader_open file = Ok r /\
    SSTableReader_scan r = Ok (norm_entry <$> es) /\
    (exists it, BlockIter_new r = Ok it /\ BlockIter_collect (S (length es)) it = Ok (norm_entry <$> es)) /\
    verify_blocks r = [] /\
    sm_item_count (rd_meta r) = blen es /\ sm_key_min (rd_meta r) = default [] (key <$> head es) /\
    sm_key_max (rd_meta r) = default [] (key <$> last es) /\
    sm_seqno_min (rd_meta r) = min_seqno es /\ sm_seqno_max (rd_meta r) = max_seqno es.
Proof.
  intros Hin Hw Hlen. destruct (open_written cfg zmb id es m file Hin Hw Hlen) as (_ & r & index & Ho & Hr & Hm).
  exists r. split; [done|]. pose proof (scan_readable _ _ _ Hr) as Hs.
  destruct (BlockIter_new_readable _ _ _ Hr) as (it & Hit & Hc).
  rewrite split_blocks_concat, app_nil_l in Hs, Hc. split; [done|]. split; [eauto|].
  split; [by eapply verify_blocks_readable|]. by rewrite Hm.
Qed.

(** A point read of an SSTable returns the newest version its snapshot may
    see, through the bloom filter or not, when the table is in internal-key
    order and no key's versions are cut across two blocks. *)
Theorem sstable_get_newest cfg zmb id es m file k s :
  table_input cfg id es -> write_table cfg zmb id es = Ok (Some (m, file)) -> blen file < 2 ^ 32 ->
  sorted es -> no_split (split_blocks (sc_data_block_size cfg) [] 0 es) ->
  exists r o, SSTableReader_open file = Ok r /\ newest s k es o /\
    SSTableReader_get r k s = Ok (norm_entry <$> o) /\ get_no_bloom r k s = Ok (norm_entry <$> o).
Proof.
  intros Hin Hw Hlen Hs Hns. destruct (open_written cfg zmb id es m file Hin Hw Hlen) as (_ & r & index & Ho & Hr & Hm).
  exists r, (first_visible es k s). split; [done|]. split; [by apply first_visible_newest|].
  assert (concat (split_blocks (sc_data_block_size cfg) [] 0 es) = es) as Hc
    by (by rewrite split_blocks_concat, app_nil_l).
  pose proof (get_readable r index _ k s Hr) as H1. pose proof (get_no_bloom_readable r index _ k s Hr) as H2.
  rewrite Hc in H1, H2. auto.
Qed.

End reader.

(** ** Witnesses and counterexamples *)

#[local] Existing Instances sample_xxh3 sample_codecs.

Definition sample_config : SSTableConfig := mkSSTableConfig 60 (Zstd 3) (f64_of_uint 10) 2.

Definition sample_table : list Entry :=
  [mkEntry [97] [1; 2] 9 Value; mkEntry [97] [3] 4 Value; mkEntry [98] [5] 2 Value;
   mkEntry [99] [] 7 Tombstone; mkEntry [100] [6] 3 Value].

Lemma sample_table_input : table_input sample_config 1 sample_table.
Proof.
  split.
  - discriminate.
  - unfold sample_table. repeat constructor; simpl; unfold is_uint; try lia; repeat constructor; lia.
  - vm_compute. reflexivity.
  - discriminate.
  - unfold is_uint. lia.
  - match goal with |- Forall _ ?l => let l' := eval vm_compute in l in change l with l' end.
    repeat (constructor; [eexists; split; [vm_compute; reflexivity|vm_compute; reflexivity]|]). constructor.
  - vm_compute. discriminate.
Qed.

Definition sample_file : bytes :=
  match write_table sample_config None 1 sample_table with Ok (Some (_, file)) => file | _ => [] end.
Definition sample_meta : SSTableMeta :=
  match write_table sample_config None 1 sample_table with Ok (Some (m, _)) => m | _ => empty_meta end.

Lemma sample_table_written : write_table sample_config None 1 sample_table = Ok (Some (sample_meta, sample_file)).
Proof. vm_compute. reflexivity. Qed.

Lemma sstable_roundtrip_witness :
  exists r, SSTableReader_open sample_file = Ok r /\ SSTableReader_scan r = Ok sample_table.
Proof.
  destruct (sstable_roundtrip sample_config None 1 sample_table sample_meta sample_file
    sample_table_input sample_table_written) as (r & H1 & H2 & _); [vm_compute; reflexivity|].
  exists r. split; [exact H1|exact H2].
Defined.

Lemma sstable_get_newest_witness :
  length (split_blocks 60 [] 0 sample_table) = 2%nat /\
  exists r o, SSTableReader_open sample_file = Ok r /\ newest 5 [97] sample_table o /\
    SSTableReader_get r [97] 5 = Ok (norm_entry <$> o).
Proof.
  split; [vm_compute; reflexivity|].
  destruct (sstable_get_newest sample_config None 1 sample_table sample_meta sample_file [97] 5
    sample_table_input sample_table_written) as (r & o & H1 & H2 & H3 & _).
  - vm_compute. reflexivity.
  - unfold sample_table. repeat constructor; vm_compute; discriminate.
  - intros i j bi bj a b Hij Hi Hj Ha Hb.
    assert (Forall (fun a => Forall (fun b => key a <> key b) [mkEntry [99] [] 7 Tombstone; mkEntry [100] [6] 3 Value])
      [mkEntry [97] [1; 2] 9 Value; mkEntry [97] [3] 4 Value; mkEntry [98] [5] 2 Value]) as Hall
      by (repeat constructor; discriminate).
    vm_compute in Hi, Hj. destruct i as [|[|i]], j as [|[|j]]; try lia; try discriminate.
    injection Hi as <-. injection Hj as <-. exact (Forall_Forall_elem _ _ _ Hall a b Ha Hb).
  - exists r, o. split; [exact H1|]. split; [exact H2|exact H3].
Defined.

(** A key whose versions fill two blocks that both end with it: the index
    search picks the last of them, and a point read at the newest snapshot
    returns the oldest version, while a scan shows the newest first. *)
Definition hot_key_table : list Entry :=
  [mkEntry [97] [1] 9 Value; mkEntry [97] [2] 4 Value; mkEntry [98] [5] 2 Value].
Definition one_entry_blocks : SSTableConfig := mkSSTableConfig 1 (Zstd 3) (f64_of_uint 10) 2.

Lemma sstable_get_stale_across_blocks :
  exists m file r, write_table one_entry_blocks None 1 hot_key_table = Ok (Some (m, file)) /\
    SSTableReader_open file = Ok r /\
    SSTableReader_get r [97] SeqNo_MAX = Ok (Some (mkEntry [97] [2] 4 Value)) /\
    SSTableReader_scan r = Ok hot_key_table.
Proof.
  eexists _, _, _. split; [vm_compute; reflexivity|]. split; [vm_compute; reflexivity|].
  split; vm_compute; reflexivity.
Qed.

(** A damaged block ends the block iterator silently: the scan of the same
    table reports the error, the stream that feeds scans and compactions is cut
    short without one. *)
Lemma block_iter_hides_damage :
  exists m file r it, write_table one_entry_blocks None 1 sample_table = Ok (Some (m, file)) /\
    let damaged := alter (fun b => (b + 1) mod 256) 90%nat file in
    SSTableReader_open damaged = Ok r /\
    SSTableReader_scan r = Err ChecksumMismatch /\ verify_blocks r = [1%nat] /\
    BlockIter_new r = Ok it /\
    BlockIter_collect 100 it = Ok [mkEntry [97] [1; 2] 9 Value].
Proof.
  eexists _, _, _, _. split; [vm_compute; reflexivity|]. cbv zeta. split; [vm_compute; reflexivity|].
  split; [vm_compute; reflexivity|]. split; [vm_compute; reflexivity|]. split; [vm_compute; reflexivity|].
  vm_compute. reflexivity.
Qed.
