(* ===== verification/Version.v ===== *)
(** * Versions of the table hierarchy (turba-engine/src/tree/version.rs)

    A version is the list of the tables of each level; flushes and compactions
    make new ones. Level 0 may have overlapping tables and is searched linearly,
    every other level is a run of tables with disjoint key ranges, sorted, and
    is searched by bisection. *)

From S2P Require Import Prelude Types Block Bloom Memtable TableMeta TableWriter TableReader.

Definition MAX_LEVELS : nat := 7.

(** A table on disk: its path (UTF-8 text, so [to_string_lossy] is the text
    itself) and its reader. *)
Record TableHandle := mkTableHandle {
  th_reader : SSTableReader;
  th_path : bytes;
}.

(** [TableHandle::meta] *)
Definition meta (t : TableHandle) : SSTableMeta := rd_meta (th_reader t).

Definition table_id (t : TableHandle) : Z := sm_table_id (meta t).
Definition key_min (t : TableHandle) : bytes := sm_key_min (meta t).
Definition key_max (t : TableHandle) : bytes := sm_key_max (meta t).

(** ** The overlap guard *)

(** The process-wide counters behind [level_overlap_violations] and
    [level_overlap_by_keyspace]. *)
Record OverlapStats := mkOverlapStats {
  level_overlap_violations : Z;
  level_overlap_by_keyspace : gmap bytes Z;
}.

(** The components of a path: text between separators, without the empty ones
    and the [.] ones. *)
Fixpoint path_components (cur p : bytes) : list bytes :=
  let emit := if bool_decide (cur = [] \/ cur = str ".") then [] else [cur] in
  match p with
  | [] => emit
  | c :: p' => if c =? 47 then emit ++ path_components [] p' else path_components (cur ++ [c]) p'
  end.

(** [path.parent().and_then(|p| p.file_name())] or ["unknown"]. *)
Definition keyspace_of (t : TableHandle) : bytes :=
  match reverse (path_components [] (th_path t)) with
  | _ :: d :: _ => if bool_decide (d = str "..") then str "unknown" else d
  | _ => str "unknown"
  end.

(** [(1..bounds.len()).find(|&i| bounds[i - 1].1 >= bounds[i].0)], from index [i]. *)
Fixpoint first_overlapping_from (i : nat) (prev_max : bytes) (bounds : list (bytes * bytes)) : option nat :=
  match bounds with
  | [] => None
  | (this_min, this_max) :: rest =>
    if bleb this_min prev_max then Some i else first_overlapping_from (S i) this_max rest
  end.

Definition first_overlapping_index (bounds : list (bytes * bytes)) : option nat :=
  match bounds with
  | [] => None
  | (_, max0) :: rest => first_overlapping_from 1 max0 rest
  end.

(** [check_level_non_overlapping], in a build without debug assertions: the
    counters are bumped and a log line is written. *)
Definition check_level_non_overlapping (stats : OverlapStats) (level : list TableHandle) : OverlapStats :=
  let bounds := map (fun t => (key_min t, key_max t)) level in
  match first_overlapping_index bounds with
  | None => stats
  | Some _ =>
    let keyspace := match level with t :: _ => keyspace_of t | [] => str "unknown" end in
    mkOverlapStats (wrap64 (level_overlap_violations stats + 1))
      (<[keyspace := wrap64 (default 0 (level_overlap_by_keyspace stats !! keyspace) + 1)]>
        (level_overlap_by_keyspace stats))
  end.

(** ** Versions *)

Record Version := mkVersion { levels : list (list TableHandle) }.

Definition Version_new : Version := mkVersion (replicate MAX_LEVELS []).

(** A level; [levels] always has [MAX_LEVELS] of them. *)
Definition level (v : Version) (i : nat) : list TableHandle := default [] (levels v !! i).

Definition with_new_l0_tables (v : Version) (tables : list TableHandle) : Version :=
  mkVersion (alter (fun l => l ++ tables) 0%nat (levels v)).

(** [sort_by(|a, b| a.meta().key_min.cmp(&b.meta().key_min))] *)
Definition sort_by_key_min (l : list TableHandle) : list TableHandle :=
  stable_sort (fun a b => bleb (key_min a) (key_min b)) l.

(** [level.retain(|t| !old_ids.contains(&t.meta().table_id))] *)
Definition retain_except (old_ids : list Z) (l : list TableHandle) : list TableHandle :=
  filter (fun t => table_id t ∉ old_ids) l.

Definition with_compaction_applied (stats : OverlapStats) (v : Version) (old_ids : list Z)
    (new_tables : list TableHandle) (target_level : nat) : OverlapStats * Version :=
  let ls := retain_except old_ids <$> levels v in
  match ls !! target_level with
  | None => (stats, mkVersion ls)
  | Some l =>
    let l := l ++ new_tables in
    if (1 <=? target_level)%nat then
      let l := sort_by_key_min l in
      (check_level_non_overlapping stats l, mkVersion (<[target_level := l]> ls))
    else (stats, mkVersion (<[target_level := l]> ls))
  end.

Definition l0_table_count (v : Version) : nat := length (level v 0).
Definition total_table_count (v : Version) : nat := sum_list (map length (levels v)).
Definition disk_space (v : Version) : Z :=
  foldr (fun t n => wrap64 (sm_file_size (meta t) + n)) 0 (concat (levels v)).

(** [open_table] and [open_table_eager]: the reader over the file's bytes. *)
Definition open_table {XH : Xxh3} {CD : Codecs} (path file : bytes) : Result TableHandle :=
  reader ← SSTableReader_open file; Ok (mkTableHandle reader path).

(** ** The complete read state *)

Record SuperVersion {SM : SkipMap} := mkSuperVersion {
  sv_active : Memtable;
  sv_sealed : list Memtable;
  sv_version : Version;
}.

(** * Lemmas *)

(** ** What a table promises to the tree *)

Section tables.
Context {XH : Xxh3} {CD : Codecs}.

(** The entries of a table. *)
Definition table_entries (t : TableHandle) : list Entry :=
  match SSTableReader_scan (th_reader t) with Ok es => es | _ => [] end.

(** A healthy table: it holds a sorted, non-empty run of normal entries, every
    way to read it returns what the run has, and its metadata bounds it. *)
Record table_ok (t : TableHandle) : Prop := {
  tk_nonempty : table_entries t <> [];
  tk_sorted : sorted (table_entries t);
  tk_wf : Forall Entry_wf (table_entries t);
  tk_normal : Forall (fun e => norm_entry e = e) (table_entries t);
  tk_get k s : SSTableReader_get (th_reader t) k s = Ok (first_visible (table_entries t) k s);
  tk_get_no_bloom k s : get_no_bloom (th_reader t) k s = Ok (first_visible (table_entries t) k s);
  tk_iter : exists it, BlockIter_new (th_reader t) = Ok it /\ BlockIter_drain it = Ok (table_entries t);
  tk_range start end_ : exists it pre mid post,
    BlockIter_new_with_range (th_reader t) start end_ = Ok it /\ BlockIter_drain it = Ok mid /\
    table_entries t = pre ++ mid ++ post /\ (forall e, e ∈ pre -> (key e < start)%bytes) /\
    (forall e, e ∈ post -> exists u, end_ = Some u /\ (u < key e)%bytes);
  tk_verify : verify_blocks (th_reader t) = [];
  tk_key_min : Some (key_min t) = key <$> head (table_entries t);
  tk_key_max : Some (key_max t) = key <$> last (table_entries t);
  tk_seqno_max e : e ∈ table_entries t -> seqno e <= sm_seqno_max (meta t);
  tk_open : open_table (th_path t) (rd_file (th_reader t)) = Ok t;
}.

Lemma table_bounds t e : table_ok t -> e ∈ table_entries t -> (key_min t <= key e)%bytes /\ (key e <= key_max t)%bytes.
Proof.
  intros [] He. destruct (table_entries t) as [|a es] eqn:E; [done|].
  injection tk_key_min0 as ->. rewrite <- E in *.
  destruct (last (table_entries t)) as [z|] eqn:Ez; [|by rewrite E in Ez; apply last_None in Ez].
  injection tk_key_max0 as ->. apply last_Some in Ez as [es' Ez]. split.
  - rewrite E in tk_sorted0, He. apply StronglySorted_inv in tk_sorted0 as [_ Ha]. rewrite Forall_forall in Ha.
    apply elem_of_cons in He as [->|He]; [border|]. by apply entry_le_key, Ha.
  - rewrite Ez in tk_sorted0, He. apply elem_of_app in He as [He| ->%list_elem_of_singleton]; [|border].
    apply entry_le_key. refine (StronglySorted_app_1_elem_of _ _ _ _ _ tk_sorted0 He _). by apply list_elem_of_singleton.
Qed.

Lemma table_bounded t : table_ok t -> (key_min t <= key_max t)%bytes.
Proof.
  intros Ht. destruct (table_entries t) as [|e es] eqn:E; [by destruct (tk_nonempty t Ht)|].
  destruct (table_bounds t e Ht) as [??]; [rewrite E; by left|]. border.
Qed.

Lemma max_seqno_ge es e : e ∈ es -> seqno e <= max_seqno es.
Proof.
  unfold max_seqno. assert (forall es a, a <= fold_left (fun a e => Z.max a (seqno e)) es a) as Hmono.
  { induction es0 as [|x es0 IH]; intros a; simpl; [lia|]. etransitivity; [|apply IH]. lia. }
  generalize 0 as a. induction es as [|x es IH]; intros a; [by intros ?%elem_of_nil|].
  simpl. intros [->|He]%elem_of_cons; [|by apply IH]. etransitivity; [|apply Hmono]. lia.
Qed.

(** What can be written as a healthy table: limits of the format's fields, and
    no key whose versions fill more than one block. *)
Record writable (cfg : SSTableConfig) (zmb : option ZoneMapBuilder) (id : Z) (es : list Entry) : Prop := {
  wr_input : table_input cfg id es;
  wr_sorted : sorted es;
  wr_no_split : no_split (split_blocks (sc_data_block_size cfg) [] 0 es);
  wr_size m file : write_table cfg zmb id es = Ok (Some (m, file)) -> blen file < 2 ^ 32;
}.

Lemma norm_entry_key e : key (norm_entry e) = key e.
Proof. unfold norm_entry. by case_match. Qed.

Lemma norm_entry_seqno e : seqno (norm_entry e) = seqno e.
Proof. unfold norm_entry. by case_match. Qed.

Lemma norm_entry_type e : value_type (norm_entry e) = value_type e.
Proof. unfold norm_entry. by case_match. Qed.

Lemma norm_entry_idemp e : norm_entry (norm_entry e) = norm_entry e.
Proof. unfold norm_entry. destruct (value_type e) eqn:E; simpl; by rewrite ?E. Qed.

Lemma norm_entry_wf e : Entry_wf e -> Entry_wf (norm_entry e).
Proof.
  intros (? & ? & ? & ? & ?). unfold norm_entry. destruct (value_type e); [done|].
  split; [done|]. split; [done|]. split; [constructor|]. split; [done|]. done.
Qed.

(** A written file opens as a healthy table with the entries that were added. *)
Lemma written_table_ok cfg zmb id es path :
  writable cfg zmb id es ->
  exists m file t, write_table cfg zmb id es = Ok (Some (m, file)) /\ open_table path file = Ok t /\
    table_ok t /\ table_entries t = norm_entry <$> es /\ table_id t = id /\ th_path t = path /\
    rd_file (th_reader t) = file.
Proof.
  intros [Hin Hs Hns Hsz]. pose proof Hin as [Hne Hwf _ Hc _ Hbs Hb].
  destruct (blocks_encode cfg (split_blocks (sc_data_block_size cfg) [] 0 es) Hc Hbs) as [encs Henc].
  pose proof (write_table_spec cfg zmb id es encs Hne Henc) as Hw.
  destruct (bloom_finish_filter (table_bloom cfg es) Hb) as (bloom & bf & Hbl & _). rewrite Hbl, Result_bind_Ok in Hw.
  cbv zeta in Hw. set (file := table_file cfg zmb id es _ encs bloom) in Hw.
  specialize (Hsz _ _ Hw). destruct (open_written cfg zmb id es _ file Hin Hw Hsz) as (_ & r & index & Ho & Hr & Hm).
  assert (concat (split_blocks (sc_data_block_size cfg) [] 0 es) = es) as Hcat
    by (by rewrite split_blocks_concat, app_nil_l).
  eexists _, _, (mkTableHandle r path). split; [exact Hw|]. split; [unfold open_table; by rewrite Ho|].
  assert (table_entries (mkTableHandle r path) = norm_entry <$> es) as Hte.
  { unfold table_entries. cbn [th_reader]. by rewrite (scan_readable _ _ _ Hr), Hcat. }
  assert (rd_file r = file) as Hf by (by eapply open_file).
  split; [|split; [done|]; split; [unfold table_id, meta; cbn [th_reader]; by rewrite Hm|done]].
  assert (rd_meta r = clear_zone_maps (table_meta cfg zmb id es (split_blocks (sc_data_block_size cfg) [] 0 es) 0)) as Hm' by done.
  split; rewrite ?Hte; unfold key_min, key_max, meta; cbn [th_reader]; rewrite ?Hm'; clear Hm Hm'.
  - by destruct es.
  - by apply sorted_norm.
  - rewrite Forall_fmap. eapply Forall_impl; [exact Hwf|]. intros e. apply norm_entry_wf.
  - rewrite Forall_fmap. apply Forall_forall. intros e _. apply norm_entry_idemp.
  - intros k s. rewrite (get_readable _ _ _ k s Hr), Hcat, first_visible_norm by (by rewrite ?Hcat). done.
  - intros k s. rewrite (get_no_bloom_readable _ _ _ k s Hr), Hcat, first_visible_norm by (by rewrite ?Hcat). done.
  - destruct (iter_readable _ _ _ Hr) as (it & H1 & H2). rewrite Hcat in H2. eauto.
  - intros start end_. destruct (range_iter_readable _ _ _ start end_ Hr) as (it & pre & mid & post & H1 & H2 & H3 & H4 & H5);
      [by rewrite Hcat|].
    exists it, (norm_entry <$> pre), (norm_entry <$> mid), (norm_entry <$> post).
    rewrite Hcat in H3. split; [done|]. split; [done|]. split; [by rewrite H3, !fmap_app|]. split.
    + intros e (x & -> & Hx)%list_elem_of_fmap. rewrite norm_entry_key. by apply H4.
    + intros e (x & -> & Hx)%list_elem_of_fmap. rewrite norm_entry_key. destruct (H5 x Hx) as (u & ? & _ & ?). eauto.
  - by eapply verify_blocks_readable.
  - destruct es as [|e es]; [done|]. simpl. by rewrite norm_entry_key.
  - rewrite fmap_last. destruct (last es) as [e|] eqn:El; [|by apply last_None in El].
    simpl. rewrite El. simpl. by rewrite norm_entry_key.
  - intros e (x & -> & Hx)%list_elem_of_fmap. rewrite norm_entry_seqno. simpl. by apply max_seqno_ge.
  - cbn [th_path]. unfold open_table. by rewrite Hf, Ho.
Qed.

Lemma no_split_keys cs : StronglySorted (fun a b => (key a < key b)%bytes) (concat cs) -> no_split cs.
Proof.
  intros Hs i j bi bj a b Hij Hi Hj Ha Hb E.
  rewrite <- (take_drop_middle cs i bi Hi), concat_app in Hs. simpl in Hs. apply StronglySorted_app_1_r in Hs.
  assert (b ∈ concat (drop (S i) cs)) as Hb'.
  { apply elem_of_concat. exists bj. split; [done|]. apply list_elem_of_lookup. exists (j - S i)%nat.
    rewrite lookup_drop. by replace (S i + (j - S i))%nat with j by lia. }
  pose proof (StronglySorted_app_1_elem_of _ _ _ _ _ Hs Ha Hb'). simpl in *. border.
Qed.

(** An executable sufficient condition for [writable]: ascending keys and the
    limits of the fields. *)
Fixpoint keys_ascending (es : list Entry) : bool :=
  match es with
  | a :: ((b :: _) as es') => bltb (key a) (key b) && keys_ascending es'
  | _ => true
  end.

Definition writable_check (cfg : SSTableConfig) (zmb : option ZoneMapBuilder) (id : Z) (es : list Entry) : bool :=
  bool_decide (es <> []) && bool_decide (Forall Entry_wf es) && keys_ascending es && (blen es <? 2 ^ 63) &&
  (match sc_compression cfg with ZstdDict _ => false | _ => true end) && bool_decide (is_uint 64 id) &&
  forallb (fun b => match encode_entries b (sc_restart_interval cfg) with Ok raw => blen raw <? 2 ^ 32 | _ => false end)
    (split_blocks (sc_data_block_size cfg) [] 0 es) &&
  (bloom_requested_bits (sc_bloom_bits_per_key cfg) (blen (bb_hashes (table_bloom cfg es))) <=? 2 ^ 32 - 8) &&
  (match write_table cfg zmb id es with Ok (Some (_, file)) => blen file <? 2 ^ 32 | _ => false end).

Lemma keys_ascending_spec es :
  keys_ascending es = true -> StronglySorted (fun a b => (key a < key b)%bytes) es.
Proof.
  induction es as [|a es IH]; [constructor|]. destruct es as [|b es]; [repeat constructor|].
  cbn [keys_ascending]. intros [Hab H]%andb_true_iff. specialize (IH H). constructor; [done|].
  apply bltb_lt in Hab. constructor; [done|]. apply StronglySorted_inv in IH as [_ Hb].
  eapply Forall_impl; [exact Hb|]. intros c Hc. simpl in Hc. border.
Qed.

Lemma keys_sorted es : StronglySorted (fun a b => (key a < key b)%bytes) es -> sorted es.
Proof.
  induction 1 as [|a es _ IH Ha]; constructor; [done|]. eapply Forall_impl; [exact Ha|].
  intros b Hb. rewrite entry_le_iff. by left.
Qed.

Lemma writable_check_ok cfg zmb id es : writable_check cfg zmb id es = true -> writable cfg zmb id es.
Proof.
  unfold writable_check. rewrite !andb_true_iff, !bool_decide_eq_true.
  intros [[[[[[[[H1 H2] H3] H4] H5] H6] H7] H8] H9]. apply keys_ascending_spec in H3. split.
  - split; [done|done|lia| |done| |lia].
    + intros level E. by rewrite E in H5.
    + rewrite forallb_forall in H7. apply Forall_forall. intros b Hb. apply list_elem_of_In in Hb. specialize (H7 b Hb). destruct (encode_entries _ _) as [raw| |]; try done. exists raw. split; [done|lia].
  - by apply keys_sorted.
  - apply no_split_keys. by rewrite split_blocks_concat.
  - intros m file E. rewrite E in H9. lia.
Qed.

End tables.

(** ** Runs of disjoint tables *)

Definition bounded (t : TableHandle) : Prop := (key_min t <= key_max t)%bytes.

(** The ranges of two tables have no key in common. *)
Definition apart (a b : TableHandle) : Prop := (key_max a < key_min b)%bytes \/ (key_max b < key_min a)%bytes.

#[export] Instance apart_sym : Symmetric apart.
Proof. intros a b [?|?]; [by right|by left]. Qed.

(** What a level above 0 must be. *)
Abbreviation disjoint_run := (StronglySorted (fun a b => (key_max a < key_min b)%bytes)).
(** The same, in any order. *)
Abbreviation pairwise_apart := (StronglySorted apart).

Lemma pairwise_perm {A} (R : A -> A -> Prop) l l' :
  Symmetric R -> l ≡ₚ l' -> StronglySorted R l -> StronglySorted R l'.
Proof.
  intros HR. induction 1 as [|x l l' Hp IH|x y l|l1 l2 l3 _ IH1 _ IH2]; intros Hs; [done| | |auto].
  - apply StronglySorted_inv in Hs as [Hs Hx]. constructor; [auto|]. by rewrite <- Hp.
  - apply StronglySorted_inv in Hs as [Hs Hy]. apply StronglySorted_inv in Hs as [Hs Hx].
    apply Forall_cons in Hy as [? ?]. constructor; [by constructor|]. constructor; [by symmetry|done].
Qed.

Lemma disjoint_run_apart l : disjoint_run l -> pairwise_apart l.
Proof.
  induction 1 as [|t l _ IH Ht]; constructor; [done|]. eapply Forall_impl; [exact Ht|]. intros u ?. by left.
Qed.

(** Sorting tables that are apart gives a run. *)
Lemma sort_disjoint_run l :
  Forall bounded l -> pairwise_apart l -> disjoint_run (sort_by_key_min l).
Proof.
  intros Hb Hap. unfold sort_by_key_min. set (leb := fun a b => bleb (key_min a) (key_min b)).
  assert (StronglySorted (fun a b => leb a b = true) (stable_sort leb l)) as Hs.
  { apply stable_sort_sorted; unfold leb; intros.
    - destruct (BytesOrder.lt_total (key_min x) (key_min y)) as [H0|[H0|H0]]; unfold BytesOrder.eq in *; border.
    - border. }
  apply (pairwise_perm apart _ (stable_sort leb l)) in Hap; [|apply _|by rewrite stable_sort_perm].
  rewrite <- (stable_sort_perm leb) in Hb. revert Hs Hap Hb. generalize (stable_sort leb l) as m.
  induction m as [|t m IH]; intros Hs Hap Hb; [constructor|].
  apply StronglySorted_inv in Hs as [Hs Ht], Hap as [Hap Ht']. apply Forall_cons in Hb as [Hbt Hb].
  constructor; [auto|]. apply Forall_forall. intros u Hu. rewrite Forall_forall in Ht, Ht', Hb.
  specialize (Ht u Hu). specialize (Ht' u Hu). specialize (Hb u Hu). unfold bounded, leb in *.
  destruct Ht' as [?|?]; border.
Qed.

(** The guard's search is exact: no index is reported just when the bounds,
    each with its minimum at or below its maximum, are a disjoint run. *)
Lemma first_overlapping_from_None i t l :
  Forall bounded (t :: l) ->
  first_overlapping_from i (key_max t) (map (fun t => (key_min t, key_max t)) l) = None <-> disjoint_run (t :: l).
Proof.
  revert i t; induction l as [|u l IH]; intros i t Hb; simpl; [split; [by repeat constructor|done]|].
  apply Forall_cons in Hb as [Ht Hb]. destruct (bleb (key_min u) (key_max t)) eqn:E.
  - split; [done|]. intros Hs. apply StronglySorted_inv in Hs as [_ Hs]. apply Forall_cons in Hs as [? _]. border.
  - rewrite IH by done. split.
    + intros Hs. constructor; [done|]. apply StronglySorted_inv in Hs as [_ Hs].
      apply Forall_cons in Hb as [Hu _]. unfold bounded in Hu.
      constructor; [border|]. eapply Forall_impl; [exact Hs|]. intros v Hv. simpl in Hv. border.
    + intros Hs. by apply StronglySorted_inv in Hs as [? _].
Qed.

Lemma first_overlapping_index_None l :
  Forall bounded l ->
  first_overlapping_index (map (fun t => (key_min t, key_max t)) l) = None <-> disjoint_run l.
Proof. destruct l as [|t l]; simpl; [by repeat constructor|]. apply first_overlapping_from_None. Qed.

Lemma check_level_ok stats l :
  Forall bounded l -> disjoint_run l -> check_level_non_overlapping stats l = stats.
Proof. intros Hb Hd. unfold check_level_non_overlapping. by rewrite (proj2 (first_overlapping_index_None l Hb)). Qed.

Lemma check_level_violation stats l :
  Forall bounded l -> ~ disjoint_run l ->
  level_overlap_violations (check_level_non_overlapping stats l) = wrap64 (level_overlap_violations stats + 1).
Proof.
  intros Hb Hd. unfold check_level_non_overlapping. destruct (first_overlapping_index _) eqn:E; [done|].
  by apply first_overlapping_index_None in E.
Qed.

(** ** The invariant of a version *)

Record Version_shape (v : Version) : Prop := {
  vs_length : length (levels v) = MAX_LEVELS;
  vs_bounded : Forall bounded (concat (levels v));
  vs_runs i : (1 <= i)%nat -> disjoint_run (level v i);
  vs_ids : NoDup (table_id <$> concat (levels v));
}.

Lemma elem_of_level v i t : t ∈ level v i -> t ∈ concat (levels v).
Proof.
  unfold level. destruct (levels v !! i) as [l|] eqn:E; simpl; [|by intros ?%elem_of_nil].
  intros Ht. apply elem_of_concat. exists l. split; [done|]. by eapply list_elem_of_lookup_2.
Qed.

Lemma elem_of_levels v t : t ∈ concat (levels v) <-> exists i, t ∈ level v i.
Proof.
  split; [|intros [i Hi]; by eapply elem_of_level].
  intros (l & Ht & [i Hi]%list_elem_of_lookup)%elem_of_concat. exists i. unfold level. by rewrite Hi.
Qed.

Lemma level_lookup v i : (i < length (levels v))%nat -> levels v !! i = Some (level v i).
Proof. intros Hi. unfold level. by destruct (lookup_lt_is_Some_2 _ _ Hi) as [l ->]. Qed.

Lemma level_out v i : (length (levels v) <= i)%nat -> level v i = [].
Proof. intros Hi. unfold level. by rewrite lookup_ge_None_2. Qed.

Lemma level_bounded v i : Version_shape v -> Forall bounded (level v i).
Proof. intros []. rewrite Forall_forall in *. intros t Ht. eapply vs_bounded0, elem_of_level, Ht. Qed.

Lemma Version_new_shape : Version_shape Version_new.
Proof.
  split; [done|constructor| |constructor]. intros i _. unfold level, Version_new. cbn [levels].
  destruct (replicate MAX_LEVELS [] !! i) as [l|] eqn:E; [|constructor].
  apply lookup_replicate in E as [-> _]. constructor.
Qed.

Lemma level_with_new_l0 v ts i :
  Version_shape v -> level (with_new_l0_tables v ts) i = if (i =? 0)%nat then level v 0 ++ ts else level v i.
Proof.
  intros []. unfold level, with_new_l0_tables. cbn [levels]. destruct (Nat.eqb_spec i 0) as [->|].
  - rewrite list_lookup_alter_eq. destruct (lookup_lt_is_Some_2 (levels v) 0) as [l ->]; [rewrite vs_length0; unfold MAX_LEVELS; lia|done].
  - by rewrite list_lookup_alter_ne.
Qed.

Lemma concat_with_new_l0 v ts :
  Version_shape v -> concat (levels (with_new_l0_tables v ts)) ≡ₚ ts ++ concat (levels v).
Proof.
  intros []. unfold with_new_l0_tables. cbn [levels]. destruct (levels v) as [|l ls]; [done|]. cbn.
  rewrite <- app_assoc. solve_Permutation.
Qed.

Lemma with_new_l0_shape v ts :
  Version_shape v -> Forall bounded ts -> NoDup (table_id <$> ts) ->
  (forall t u, t ∈ ts -> u ∈ concat (levels v) -> table_id t <> table_id u) ->
  Version_shape (with_new_l0_tables v ts).
Proof.
  intros Hv Hb Hnd Hids. pose proof Hv as [Hl Hbv Hr Hn]. split.
  - unfold with_new_l0_tables. cbn [levels]. by rewrite length_alter.
  - rewrite concat_with_new_l0 by done. by apply Forall_app.
  - intros i Hi. rewrite level_with_new_l0 by done. destruct (Nat.eqb_spec i 0); [lia|auto].
  - rewrite concat_with_new_l0, fmap_app, NoDup_app by done. split; [done|]. split; [|done].
    intros x (t & -> & Ht)%list_elem_of_fmap (u & He & Hu)%list_elem_of_fmap. by destruct (Hids t u).
Qed.

Lemma elem_of_retain ids l t : t ∈ retain_except ids l <-> t ∈ l /\ table_id t ∉ ids.
Proof. unfold retain_except. rewrite list_elem_of_filter. tauto. Qed.

Lemma concat_retain ids ls : concat (retain_except ids <$> ls) = retain_except ids (concat ls).
Proof.
  induction ls as [|l ls IH]; [done|]. cbn [fmap list_fmap concat]. rewrite IH. unfold retain_except. by rewrite filter_app.
Qed.

Lemma disjoint_run_retain ids l : disjoint_run l -> disjoint_run (retain_except ids l).
Proof.
  induction 1 as [|t l _ IH Ht]; [constructor|]. unfold retain_except in *. rewrite filter_cons. case_decide; [|done].
  constructor; [done|]. rewrite Forall_forall in *. intros u [_ Hu]%list_elem_of_filter. auto.
Qed.

Lemma concat_insert {A} (ls : list (list A)) i l l' :
  ls !! i = Some l -> concat (<[i := l']> ls) ++ l ≡ₚ concat ls ++ l'.
Proof.
  intros Hi. rewrite insert_take_drop by (by eapply lookup_lt_Some).
  rewrite <- (take_drop_middle ls i l Hi) at 3. rewrite !concat_app. simpl. solve_Permutation.
Qed.

Section applied.
Context (stats : OverlapStats) (v : Version) (old_ids : list Z) (new : list TableHandle) (target : nat).
Hypothesis Hv : Version_shape v.
Hypothesis Htarget : (1 <= target < MAX_LEVELS)%nat.
Hypothesis Hnew : Forall bounded new.
Hypothesis Hrun : pairwise_apart new.
Hypothesis Hapart : forall t n, t ∈ level v target -> table_id t ∉ old_ids -> n ∈ new -> apart t n.
Hypothesis Hnd : NoDup (table_id <$> new).
Hypothesis Hids : forall t n, t ∈ concat (levels v) -> table_id t ∉ old_ids -> n ∈ new -> table_id t <> table_id n.

Let res := with_compaction_applied stats v old_ids new target.

Lemma applied_level i :
  level (snd res) i =
  if (i =? target)%nat then sort_by_key_min (retain_except old_ids (level v target) ++ new)
  else retain_except old_ids (level v i).
Proof.
  unfold res, with_compaction_applied. rewrite list_lookup_fmap, level_lookup by (rewrite vs_length; [lia|done]).
  cbn [fmap option_fmap option_map]. rewrite (proj2 (Nat.leb_le 1 target)) by lia. unfold level at 1. cbn [snd levels].
  destruct (Nat.eqb_spec i target) as [->|].
  - rewrite list_lookup_insert_eq; [done|]. rewrite length_fmap, vs_length; [lia|done].
  - rewrite list_lookup_insert_ne by done. rewrite list_lookup_fmap. unfold level. by destruct (levels v !! i).
Qed.

Lemma applied_tables : concat (levels (snd res)) ≡ₚ retain_except old_ids (concat (levels v)) ++ new.
Proof.
  unfold res, with_compaction_applied.
  assert ((retain_except old_ids <$> levels v) !! target = Some (retain_except old_ids (level v target))) as Hl
    by (rewrite list_lookup_fmap, level_lookup; [done|rewrite vs_length; [lia|done]]).
  rewrite Hl, (proj2 (Nat.leb_le 1 target)) by lia. cbn [snd levels].
  pose proof (concat_insert _ _ _ (sort_by_key_min (retain_except old_ids (level v target) ++ new)) Hl) as Hp.
  rewrite concat_retain in Hp. unfold sort_by_key_min in Hp at 2. rewrite stable_sort_perm in Hp.
  apply (Permutation_app_inv_r (retain_except old_ids (level v target))). rewrite Hp. solve_Permutation.
Qed.

Lemma applied_bounded : Forall bounded (retain_except old_ids (level v target) ++ new).
Proof.
  apply Forall_app. split; [|done]. apply Forall_forall. intros t [Ht _]%elem_of_retain.
  pose proof (level_bounded v target Hv) as Hb. rewrite Forall_forall in Hb. auto.
Qed.

Lemma applied_run : disjoint_run (sort_by_key_min (retain_except old_ids (level v target) ++ new)).
Proof.
  apply sort_disjoint_run; [apply applied_bounded|]. apply StronglySorted_app_2; [|by apply disjoint_run_apart, disjoint_run_retain, vs_runs; [|lia]|done].
  intros t n [Ht Hid]%elem_of_retain Hn. by apply Hapart.
Qed.

(** A compaction whose outputs stay apart from what remains at the target level
    keeps the shape, and the guard does not fire. *)
Lemma applied_shape : fst res = stats /\ Version_shape (snd res).
Proof.
  split.
  - unfold res, with_compaction_applied. rewrite list_lookup_fmap, level_lookup by (rewrite vs_length; [lia|done]).
    cbn [fmap option_fmap option_map]. rewrite (proj2 (Nat.leb_le 1 target)) by lia. cbn [fst].
    apply check_level_ok; [|apply applied_run]. unfold sort_by_key_min. rewrite stable_sort_perm. apply applied_bounded.
  - pose proof Hv as [Hl Hb Hr Hn]. split.
    + unfold res, with_compaction_applied. rewrite list_lookup_fmap, level_lookup by (rewrite Hl; lia).
      cbn [fmap option_fmap option_map]. rewrite (proj2 (Nat.leb_le 1 target)) by lia. cbn [snd levels].
      by rewrite length_insert, length_fmap.
    + rewrite applied_tables. apply Forall_app. split; [|done]. rewrite Forall_forall in *.
      intros t [Ht _]%elem_of_retain. auto.
    + intros i Hi. rewrite applied_level. destruct (Nat.eqb_spec i target); [apply applied_run|].
      by apply disjoint_run_retain, Hr.
    + rewrite applied_tables, fmap_app, NoDup_app. split; [|split; [|done]].
      * eapply sublist_NoDup; [exact Hn|]. apply fmap_sublist, sublist_filter.
      * intros x (t & -> & [Ht Hid]%elem_of_retain)%list_elem_of_fmap (n & He & Hin)%list_elem_of_fmap. by destruct (Hids t n).
Qed.

End applied.
