(* ===== verification/Leveled.v ===== *)
(** * Leveled compaction: the choice of inputs (turba-engine/src/compaction/leveled.rs)

    Which tables a compaction takes: the level that is furthest over its target,
    all (or a batch) of level 0 or one table of a deeper level, with the tables
    of the next level whose range overlaps. *)

From Corelib Require Import SpecFloat.
From S2P Require Import Prelude Types Bloom TableMeta TableReader Version.

(** [config::StorageProfile] *)
Inductive StorageProfile := Ssd | Hdd.

Record LeveledConfig := mkLeveledConfig {
  max_l0_tables : Z;
  base_size_bytes : Z;
  size_ratio : Z;
  target_table_size : Z;
  max_tables_per_level : Z;
  enable_trivial_move : bool;
  l0_compact_batch_size : Z;
  max_compaction_amplification : Z;
}.

Definition LeveledConfig_default : LeveledConfig :=
  {| max_l0_tables := 4; base_size_bytes := 64 * 1024 * 1024; size_ratio := 10;
     target_table_size := 64 * 1024 * 1024; max_tables_per_level := 20; enable_trivial_move := true;
     l0_compact_batch_size := 50; max_compaction_amplification := 64 |}.

Definition for_storage_profile (profile : StorageProfile) : LeveledConfig :=
  let l0_batch := match profile with Ssd => 50 | Hdd => 50 end in
  let d := LeveledConfig_default in
  mkLeveledConfig (max_l0_tables d) (base_size_bytes d) (size_ratio d) (target_table_size d)
    (max_tables_per_level d) (enable_trivial_move d) l0_batch (max_compaction_amplification d).

Record CompactionTask := mkCompactionTask {
  input_tables : list TableHandle;
  input_ids : list Z;
  source_level : nat;
  target_level : nat;
  is_last_level : bool;
}.

Definition L0_EMERGENCY_RATIO : f64 := f64_lit 3 0.

Definition saturating_mul64 (a b : Z) : Z := Z.min U64_MAX (a * b).
Definition saturating_pow64 (a n : Z) : Z := Z.min U64_MAX (a ^ n).

(** [iter().map(..).sum::<u64>()] *)
Definition sum_u64 (l : list Z) : Z := foldr (fun x n => wrap64 (x + n)) 0 l.

Definition overlaps (a_min a_max b_min b_max : bytes) : bool := bleb a_min b_max && bleb b_min a_max.

(** The tables of a level that overlap a range. *)
Definition overlapping (l : list TableHandle) (lo hi : bytes) : list TableHandle :=
  filter (fun t => overlaps (key_min t) (key_max t) lo hi = true) l.

(** [.min()] and [.max()] of the bounds, [&[]] of no tables. *)
Definition bytes_min (l : list bytes) : bytes :=
  match l with [] => [] | k :: ks => fold_left (fun m k => if bltb k m then k else m) ks k end.
Definition bytes_max (l : list bytes) : bytes :=
  match l with [] => [] | k :: ks => fold_left (fun m k => if bltb m k then k else m) ks k end.

Definition l0_key_range (tables : list TableHandle) : bytes * bytes :=
  (bytes_min (map key_min tables), bytes_max (map key_max tables)).

(** [version.levels[n..].iter().all(|l| l.is_empty())] *)
Definition all_empty_from (v : Version) (n : nat) : bool :=
  forallb (fun l => match l with [] => true | _ => false end) (drop n (levels v)).

(** The L0 task over a batch of level 0. *)
Definition l0_task (v : Version) (batch : list TableHandle) : CompactionTask :=
  let '(range_min, range_max) := l0_key_range batch in
  let input_tables := batch ++ overlapping (level v 1) range_min range_max in
  mkCompactionTask input_tables (map table_id input_tables) 0 1 (all_empty_from v 2).

Definition build_l0_compaction_batched (v : Version) (batch_size : Z) : CompactionTask :=
  l0_task v (take (Z.to_nat batch_size) (level v 0)).

Definition build_l0_compaction (v : Version) : CompactionTask := l0_task v (level v 0).

Definition build_l0_task (v : Version) : CompactionTask := build_l0_compaction v.
Definition build_l0_task_batched (v : Version) (batch_size : Z) : CompactionTask :=
  build_l0_compaction_batched v batch_size.

(** [.iter().max_by_key(|t| t.meta().file_size)]: the last of the greatest. *)
Definition max_by_file_size (l : list TableHandle) : option TableHandle :=
  match l with
  | [] => None
  | t :: ts => Some (fold_left (fun m t => if sm_file_size (meta t) <? sm_file_size (meta m) then m else t) ts t)
  end.

(** [build_level_compaction]; an empty source level panics. *)
Definition build_level_compaction (v : Version) (source : nat) : Result CompactionTask :=
  let target := S source in
  match max_by_file_size (level v source) with
  | None => Panic
  | Some picked =>
    let input_tables := picked :: (if (target <? length (levels v))%nat
      then overlapping (level v target) (key_min picked) (key_max picked) else []) in
    let is_last := (MAX_LEVELS - 1 <=? target)%nat || all_empty_from v (target + 1) in
    Ok (mkCompactionTask input_tables (map table_id input_tables) source target is_last)
  end.

(** The overflow ratio of a level above 0: the greater of the byte ratio and the
    table-count ratio. *)
Definition level_ratio (cfg : LeveledConfig) (v : Version) (level_idx : nat) : f64 :=
  let level_tables := level v level_idx in
  let level_count := blen level_tables in
  let level_size := sum_u64 (map (fun t => sm_file_size (meta t)) level_tables) in
  let bytes_target := saturating_mul64 (base_size_bytes cfg) (saturating_pow64 (size_ratio cfg) (Z.of_nat level_idx - 1)) in
  let natural_tables :=
    if 0 <? target_table_size cfg then Z.max (bytes_target / target_table_size cfg) 1 else max_tables_per_level cfg in
  let count_target := Z.max (max_tables_per_level cfg) natural_tables in
  let bytes_ratio := if 0 <? bytes_target then f64_div (f64_of_uint level_size) (f64_of_uint bytes_target) else f64_zero in
  let count_ratio := if 0 <? count_target then f64_div (f64_of_uint level_count) (f64_of_uint count_target) else f64_zero in
  f64_max bytes_ratio count_ratio.

(** One round of the search for the level most over its target. *)
Definition better (cfg : LeveledConfig) (v : Version) (best : option (f64 * nat)) (level_idx : nat) : option (f64 * nat) :=
  let ratio := level_ratio cfg v level_idx in
  if f64_gtb ratio (f64_lit 1 0) && (match best with None => true | Some (r, _) => f64_gtb ratio r end)
  then Some (ratio, level_idx) else best.

Definition choose_compaction (v : Version) (cfg : LeveledConfig) : Result (option CompactionTask) :=
  let l0_ratio :=
    if max_l0_tables cfg =? 0 then f64_zero
    else f64_div (f64_of_uint (blen (level v 0))) (f64_of_uint (max_l0_tables cfg)) in
  if f64_geb l0_ratio L0_EMERGENCY_RATIO then Ok (Some (build_l0_compaction v)) else
  let best := if f64_geb l0_ratio (f64_lit 1 0) then Some (l0_ratio, 0%nat) else None in
  match fold_left (better cfg v) (seq 1 (MAX_LEVELS - 2)) best with
  | Some (_, O) => Ok (Some (build_l0_compaction v))
  | Some (_, lvl) => Some <$> build_level_compaction v lvl
  | None => Ok None
  end.

Definition is_trivial_move_candidate (task : CompactionTask) (v : Version) (cfg : LeveledConfig) : bool :=
  if negb (enable_trivial_move cfg) then false else
  match input_tables task with
  | [input] =>
    let tp1 := S (target_level task) in
    if (tp1 <? MAX_LEVELS)%nat then
      let overlap_bytes := sum_u64 (map (fun t => sm_file_size (meta t))
        (overlapping (level v tp1) (key_min input) (key_max input))) in
      let max_overlap := saturating_mul64 (target_table_size cfg) 25 in
      negb (max_overlap <? overlap_bytes)
    else true
  | _ => false
  end.

(** * Lemmas *)

Lemma f64_of_zero : f64_of_uint 0 = f64_zero.
Proof. reflexivity. Qed.

(** A zero divided by anything is not above a positive number. *)
Lemma f64_div_zero x : f64_div f64_zero x = S754_nan \/ exists s, f64_div f64_zero x = S754_zero s.
Proof. destruct x; [by left|right; eexists; reflexivity|by left|right; eexists; reflexivity]. Qed.


(** The outcomes of a division whose dividend is zero. *)
Definition zeroish (x : f64) : Prop := x = S754_nan \/ exists s, x = S754_zero s.

Lemma zeroish_max x y : zeroish x -> zeroish y -> zeroish (f64_max x y).
Proof.
  intros [->|[s ->]] [->|[s' ->]]; unfold f64_max, zeroish; simpl; eauto.
Qed.

Lemma zeroish_below x : zeroish x ->
  f64_geb x (f64_lit 1 0) = false /\ f64_gtb x (f64_lit 1 0) = false /\ f64_geb x L0_EMERGENCY_RATIO = false.
Proof. intros [->|[s ->]]; [done|]. by destruct s. Qed.

Lemma level_ratio_empty cfg v i : level v i = [] -> zeroish (level_ratio cfg v i).
Proof.
  intros E. unfold level_ratio. cbv zeta. rewrite E. cbn [map sum_u64 foldr]. change (blen []) with 0.
  rewrite f64_of_zero. apply zeroish_max; (case_match; [apply f64_div_zero|right; by eexists]).
Qed.

(** The level the search settles on has tables. *)
Lemma better_nonempty cfg v idxs best r lvl :
  (forall r i, best = Some (r, i) -> level v i <> []) ->
  fold_left (better cfg v) idxs best = Some (r, lvl) -> level v lvl <> [] /\ (best = Some (r, lvl) \/ lvl ∈ idxs).
Proof.
  revert best; induction idxs as [|i idxs IH]; intros best Hb; simpl.
  { intros ->. split; [by eapply Hb|by left]. }
  intros H. apply IH in H as [Hne Hin].
  - split; [done|]. destruct Hin as [Hin|Hin]; [|right; by right]. unfold better in Hin. cbv zeta in Hin.
    case_match; [|by left]. injection Hin as _ <-. right. by left.
  - intros r' i' Hbt E. unfold better in Hbt. cbv zeta in Hbt.
    destruct (f64_gtb (level_ratio cfg v i) (f64_lit 1 0)) eqn:Eg; simpl in Hbt; [|by eapply Hb].
    destruct (match best with None => true | Some (r0, _) => _ end); [|by eapply Hb].
    injection Hbt as _ <-. apply (level_ratio_empty cfg) in E.
    destruct (zeroish_below _ E) as (_ & E' & _). congruence.
Qed.

(** ** The tasks that are built *)

Inductive task_of (v : Version) : CompactionTask -> Prop :=
  | task_l0 batch rest :
      level v 0 = batch ++ rest -> task_of v (l0_task v batch)
  | task_level lvl task :
      (1 <= lvl)%nat -> (lvl < MAX_LEVELS - 1)%nat -> build_level_compaction v lvl = Ok task -> task_of v task.

Lemma max_by_file_size_elem l t : max_by_file_size l = Some t -> t ∈ l.
Proof.
  destruct l as [|x l]; [done|]. simpl. intros [= <-]. revert x. induction l as [|y l IH]; intros x; simpl; [by left|].
  case_match; [|right; apply IH]. specialize (IH x). apply elem_of_cons in IH as [->|?]; [by left|right; by right].
Qed.

Lemma build_level_total v lvl : level v lvl <> [] -> exists task, build_level_compaction v lvl = Ok task.
Proof. unfold build_level_compaction. cbv zeta. destruct (level v lvl); [done|]. simpl. eauto. Qed.

(** The choice never panics, and what it chooses is one of the tasks. *)
Lemma choose_compaction_task v cfg :
  exists o, choose_compaction v cfg = Ok o /\
    forall task, o = Some task -> task_of v task /\ input_tables task <> [].
Proof.
  unfold choose_compaction. cbv zeta. set (l0_ratio := if _ =? 0 then _ else _).
  assert (task_of v (build_l0_compaction v)) as Hl0 by (apply (task_l0 v _ []); by rewrite app_nil_r).
  assert (f64_geb l0_ratio (f64_lit 1 0) = true \/ f64_geb l0_ratio L0_EMERGENCY_RATIO = true -> level v 0 <> []) as Hne.
  { intros Hg E. assert (zeroish l0_ratio) as Hz.
    { unfold l0_ratio. rewrite E. case_match; [right; by eexists|]. apply f64_div_zero. }
    apply zeroish_below in Hz as (H1 & _ & H2). intuition congruence. }
  assert (level v 0 <> [] -> input_tables (build_l0_compaction v) <> []) as Hin.
  { unfold build_l0_compaction, l0_task. destruct (l0_key_range _). cbn. by destruct (level v 0). }
  case_match eqn:E0; [eexists; split; [done|]; intros task [= <-]; auto|].
  set (best := if f64_geb l0_ratio (f64_lit 1 0) then _ else None).
  assert (forall r i, best = Some (r, i) -> level v i <> []) as Hb.
  { unfold best. intros r i. case_match eqn:E1; [|done]. intros [= _ <-]. auto. }
  destruct (fold_left _ _ best) as [[r lvl]|] eqn:Ef; [|eexists; split; [done|]; done].
  apply (better_nonempty cfg v _ best r lvl Hb) in Ef as [Hl Hlvl]. destruct lvl as [|lvl].
  - eexists. split; [done|]. intros task [= <-]. auto.
  - destruct (build_level_total v (S lvl) Hl) as [task Ht]. rewrite Ht. eexists. split; [done|].
    intros task' [= <-]. split.
    + apply (task_level v (S lvl)); [lia| |done]. destruct Hlvl as [Hlvl|Hlvl].
      * unfold best in Hlvl. by case_match.
      * apply elem_of_seq in Hlvl. unfold MAX_LEVELS in *. lia.
    + unfold build_level_compaction in Ht. cbv zeta in Ht. case_match; [|done]. apply Ok_inj in Ht. by rewrite <- Ht.
Qed.

(** ** Why the outputs fit into the target level *)

Lemma bytes_min_le l k : k ∈ l -> (bytes_min l <= k)%bytes.
Proof.
  assert (forall ks m, (fold_left (fun m k => if bltb k m then k else m) ks m <= m)%bytes) as Hm.
  { induction ks as [|x ks IH]; intros m; simpl; [border|]. case_match; [specialize (IH x)|specialize (IH m)]; border. }
  destruct l as [|x l]; [by intros ?%elem_of_nil|]. simpl. revert x.
  induction l as [|y l IH]; intros x [->|Hk]%elem_of_cons; simpl; [border|by apply elem_of_nil in Hk| |].
  - case_match; [specialize (Hm l y)|specialize (Hm l x)]; border.
  - apply elem_of_cons in Hk as [->|Hk].
    + case_match; [specialize (Hm l y)|specialize (Hm l x)]; border.
    + case_match; apply IH; by right.
Qed.

Lemma bytes_max_ge l k : k ∈ l -> (k <= bytes_max l)%bytes.
Proof.
  assert (forall ks m, (m <= fold_left (fun m k => if bltb m k then k else m) ks m)%bytes) as Hm.
  { induction ks as [|x ks IH]; intros m; simpl; [border|]. case_match; [specialize (IH x)|specialize (IH m)]; border. }
  destruct l as [|x l]; [by intros ?%elem_of_nil|]. simpl. revert x.
  induction l as [|y l IH]; intros x [->|Hk]%elem_of_cons; simpl; [border|by apply elem_of_nil in Hk| |].
  - case_match; [specialize (Hm l y)|specialize (Hm l x)]; border.
  - apply elem_of_cons in Hk as [->|Hk].
    + case_match; [specialize (Hm l y)|specialize (Hm l x)]; border.
    + case_match; apply IH; by right.
Qed.

Lemma bytes_min_max l l' :
  Forall2 (fun a b => (a <= b)%bytes) l l' -> (bytes_min l <= bytes_max l')%bytes.
Proof.
  intros H. destruct H as [|a b l l' Hab H]; [done|].
  pose proof (bytes_min_le (a :: l) a ltac:(by left)). pose proof (bytes_max_ge (b :: l') b ltac:(by left)). border.
Qed.

Lemma overlaps_apart a lo hi : overlaps (key_min a) (key_max a) lo hi = false ->
  (hi < key_min a)%bytes \/ (key_max a < lo)%bytes.
Proof. unfold overlaps. rewrite andb_false_iff. intros [?|?]; [left|right]; border. Qed.

(** The tables of a run that overlap a range, and those that do not, are on
    one side of each other. *)
Lemma overlapping_side l lo hi t :
  disjoint_run l -> Forall bounded l -> (lo <= hi)%bytes -> t ∈ l -> t ∉ overlapping l lo hi ->
  ((key_max t < lo)%bytes /\ forall a, a ∈ overlapping l lo hi -> (key_max t < key_min a)%bytes) \/
  ((hi < key_min t)%bytes /\ forall a, a ∈ overlapping l lo hi -> (key_max a < key_min t)%bytes).
Proof.
  intros Hd Hb Hlh Ht Hno. rewrite Forall_forall in Hb.
  assert (overlaps (key_min t) (key_max t) lo hi = false) as Ho.
  { destruct (overlaps _ _ _ _) eqn:E; [|done]. destruct Hno. by apply list_elem_of_filter. }
  assert (forall a, a ∈ overlapping l lo hi ->
    apart t a /\ (key_min a <= hi)%bytes /\ (lo <= key_max a)%bytes /\ bounded a) as Hov.
  { intros a [Ha Hal]%list_elem_of_filter. split; [|unfold overlaps in Ha; apply andb_true_iff in Ha as [??];
      split; [border|split; [border|by apply Hb]]].
    assert (t <> a) as Hne by (intros ->; congruence).
    apply list_elem_of_lookup in Ht as [i Hi], Hal as [j Hj].
    pose proof (disjoint_run_apart l Hd) as Hap.
    destruct (Nat.lt_trichotomy i j) as [?|[->|?]]; [|congruence|symmetry];
      [eapply (StronglySorted_lookup apart l i j)|eapply (StronglySorted_lookup apart l j i)]; eauto. }
  specialize (Hb t Ht). unfold bounded in *. apply overlaps_apart in Ho as [Ho|Ho]; [right|left]; (split; [done|]);
    intros a (Hap & H1 & H2 & H3)%Hov; destruct Hap as [?|?]; border.
Qed.

(** What every task guarantees. *)
Record task_ok (v : Version) (task : CompactionTask) : Prop := {
  tk_levels : target_level task = S (source_level task) /\ (1 <= target_level task < MAX_LEVELS)%nat;
  tk_ids : input_ids task = map table_id (input_tables task);
  tk_inputs a : a ∈ input_tables task -> a ∈ level v (source_level task) \/ a ∈ level v (target_level task);
  tk_nodup : NoDup (map table_id (input_tables task));
  tk_side t : t ∈ level v (target_level task) -> t ∉ input_tables task ->
    (forall a, a ∈ input_tables task -> (key_max t < key_min a)%bytes) \/
    (forall a, a ∈ input_tables task -> (key_max a < key_min t)%bytes);
  tk_last : is_last_level task = true -> forall i, (target_level task < i)%nat -> level v i = [];
}.

Lemma all_empty_spec v n i : all_empty_from v n = true -> (n <= i)%nat -> level v i = [].
Proof.
  unfold all_empty_from, level. rewrite forallb_forall. intros H Hi.
  destruct (levels v !! i) as [l|] eqn:E; [|done]. simpl.
  assert (In l (drop n (levels v))) as Hin.
  { apply list_elem_of_In, list_elem_of_lookup. exists (i - n)%nat. rewrite lookup_drop. by replace (n + (i - n))%nat with i by lia. }
  specialize (H l Hin). by destruct l.
Qed.

Lemma levels_nodup v i j : Version_shape v -> i <> j -> (i < MAX_LEVELS)%nat -> (j < MAX_LEVELS)%nat ->
  NoDup (table_id <$> level v i) /\ forall a b, a ∈ level v i -> b ∈ level v j -> table_id a <> table_id b.
Proof.
  intros [Hl _ _ Hn] Hij Hi Hj.
  assert (forall i j (ls : list (list TableHandle)) li lj, (i < j)%nat -> ls !! i = Some li -> ls !! j = Some lj ->
    NoDup (table_id <$> concat ls) -> NoDup (table_id <$> li) /\ NoDup (table_id <$> lj) /\
    forall a b, a ∈ li -> b ∈ lj -> table_id a <> table_id b) as H.
  { clear. intros i j ls li lj Hij Hi Hj. rewrite <- (take_drop_middle ls i li Hi), concat_app. simpl.
    rewrite !fmap_app, !NoDup_app. intros (_ & _ & Hli & Hd & Hr). split; [done|].
    assert (lj ∈ drop (S i) ls) as Hin.
    { apply list_elem_of_lookup. exists (j - S i)%nat. rewrite lookup_drop. by replace (S i + (j - S i))%nat with j by lia. }
    split.
    - apply list_elem_of_split in Hin as (l1 & l2 & E). rewrite E, concat_app in Hr. simpl in Hr.
      rewrite !fmap_app, !NoDup_app in Hr. tauto.
    - intros a b Ha Hb E. apply (Hd (table_id a)); [by apply list_elem_of_fmap_2|]. rewrite E.
      apply list_elem_of_fmap_2, elem_of_concat. eauto. }
  pose proof (level_lookup v i ltac:(lia)) as Ei. pose proof (level_lookup v j ltac:(lia)) as Ej.
  destruct (Nat.lt_total i j) as [Hlt|[?|Hlt]]; [|done|].
  - destruct (H i j _ _ _ Hlt Ei Ej Hn) as (? & ? & ?). done.
  - destruct (H j i _ _ _ Hlt Ej Ei Hn) as (? & ? & Hd). split; [done|]. intros a b Ha Hb E. by apply (Hd b a).
Qed.

(** The inputs of a range over two adjacent levels. *)
Lemma range_task_ok v src rest (s : nat) lo hi b :
  Version_shape v -> (S s < MAX_LEVELS)%nat -> level v s ≡ₚ src ++ rest -> (lo <= hi)%bytes ->
  (forall a, a ∈ src -> (lo <= key_min a)%bytes /\ (key_max a <= hi)%bytes) ->
  (b = true -> forall i, (S s < i)%nat -> level v i = []) ->
  let inputs := src ++ overlapping (level v (S s)) lo hi in
  task_ok v (mkCompactionTask inputs (map table_id inputs) s (S s) b).
Proof.
  intros Hv Hs Hsrc Hlh Hin Hb inputs.
  destruct (levels_nodup v s (S s) Hv ltac:(lia) ltac:(lia) Hs) as [Hn1 Hx].
  destruct (levels_nodup v (S s) s Hv ltac:(lia) Hs ltac:(lia)) as [Hn2 _].
  assert (forall a, a ∈ src -> a ∈ level v s) as Hsub by (intros a Ha; rewrite Hsrc; apply elem_of_app; by left).
  split; cbn [target_level source_level input_ids input_tables is_last_level]; [split; [done|lia]|done| | | |done].
  - intros a [Ha|[_ Ha]%list_elem_of_filter]%elem_of_app; [left; auto|by right].
  - unfold inputs. change (NoDup (table_id <$> (src ++ overlapping (level v (S s)) lo hi))).
    rewrite fmap_app, NoDup_app. split; [|split].
    + rewrite Hsrc, fmap_app, NoDup_app in Hn1. tauto.
    + intros x (a & -> & Ha)%list_elem_of_fmap (c & E & [_ Hc]%list_elem_of_filter)%list_elem_of_fmap.
      by destruct (Hx a c (Hsub a Ha) Hc).
    + eapply sublist_NoDup; [exact Hn2|]. apply fmap_sublist, sublist_filter.
  - intros t Ht Hno.
    destruct (overlapping_side (level v (S s)) lo hi t) as [[H1 H2]|[H1 H2]]; [apply vs_runs; [done|lia]|by apply level_bounded|done|done| | |].
    + intros ?. apply Hno, elem_of_app. by right.
    + left. intros a [Ha|Ha]%elem_of_app; [|auto]. destruct (Hin a Ha). border.
    + right. intros a [Ha|Ha]%elem_of_app; [|auto]. destruct (Hin a Ha). border.
Qed.

Lemma task_of_ok v task : Version_shape v -> task_of v task -> task_ok v task.
Proof.
  intros Hv [batch rest Hl0|lvl task' H1 H2 Hb].
  - unfold l0_task. destruct (l0_key_range batch) as [lo hi] eqn:E. injection E as <- <-.
    assert (Forall bounded batch) as Hbd.
    { pose proof (level_bounded v 0 Hv) as Hbd. rewrite Hl0 in Hbd. by apply Forall_app in Hbd as [? _]. }
    apply (range_task_ok v batch rest 0); [done|unfold MAX_LEVELS; lia|by rewrite Hl0| | |].
    + apply bytes_min_max. clear -Hbd. induction Hbd; simpl; constructor; auto.
    + intros a Ha. split; [apply bytes_min_le|apply bytes_max_ge]; by apply list_elem_of_In, in_map, list_elem_of_In.
    + intros Hb i Hi. eapply all_empty_spec; [exact Hb|lia].
  - unfold build_level_compaction in Hb. cbv zeta in Hb.
    destruct (max_by_file_size (level v lvl)) as [picked|] eqn:Ep; [|done]. apply Ok_inj in Hb. subst task'.
    apply max_by_file_size_elem in Ep. pose proof (level_bounded v lvl Hv) as Hbd. rewrite Forall_forall in Hbd.
    specialize (Hbd picked Ep). unfold bounded in Hbd.
    rewrite (vs_length v Hv), (proj2 (Nat.ltb_lt (S lvl) MAX_LEVELS)) by lia.
    apply list_elem_of_split in Ep as (l1 & l2 & El).
    apply (range_task_ok v [picked] (l1 ++ l2) lvl); [done|lia| |done| |].
    + rewrite El. solve_Permutation.
    + intros a ->%list_elem_of_singleton. split; border.
    + intros Hb i Hi. rewrite orb_true_iff in Hb. destruct Hb as [Hb%Nat.leb_le|Hb].
      * apply level_out. rewrite (vs_length v Hv). lia.
      * eapply all_empty_spec; [exact Hb|lia].
Qed.

(** Outputs made of the inputs' keys: their bounds are keys of the inputs. *)
Definition within (inputs : list TableHandle) (n : TableHandle) : Prop :=
  (exists a, a ∈ inputs /\ (key_min a <= key_min n)%bytes) /\
  (exists b, b ∈ inputs /\ (key_max n <= key_max b)%bytes).

Lemma task_removed v task t :
  Version_shape v -> task_ok v task -> t ∈ concat (levels v) -> table_id t ∈ input_ids task <-> t ∈ input_tables task.
Proof.
  intros Hv Ht Hin. rewrite (tk_ids v task Ht). split.
  - intros (a & E & Ha)%list_elem_of_In%in_map_iff. apply list_elem_of_In in Ha.
    assert (a ∈ concat (levels v)) as Hac.
    { destruct (tk_inputs v task Ht a Ha); by eapply elem_of_level. }
    pose proof (vs_ids v Hv) as Hn. apply list_elem_of_lookup in Hin as [i Hi], Hac as [j Hj].
    assert (i = j) as <-; [|congruence].
    eapply (NoDup_lookup (table_id <$> concat (levels v))); [done|rewrite list_lookup_fmap, Hi; done|].
    rewrite list_lookup_fmap, Hj. simpl. by rewrite E.
  - intros Ha. apply list_elem_of_In, in_map, list_elem_of_In, Ha.
Qed.

Lemma apply_task_shape stats v task new :
  Version_shape v -> task_ok v task ->
  Forall bounded new -> pairwise_apart new -> Forall (within (input_tables task)) new ->
  NoDup (table_id <$> new) ->
  (forall n, n ∈ new -> table_id n ∈ input_ids task \/ forall t, t ∈ concat (levels v) -> table_id t <> table_id n) ->
  fst (with_compaction_applied stats v (input_ids task) new (target_level task)) = stats /\
  Version_shape (snd (with_compaction_applied stats v (input_ids task) new (target_level task))).
Proof.
  intros Hv Ht Hb Hap Hw Hnd Hids. rewrite Forall_forall in Hw.
  apply applied_shape; [done|apply (tk_levels v task Ht)|done|done| |done|].
  - intros t n Htl Hnot Hn. destruct (Hw n Hn) as [(a & Ha & Hle) (b & Hbi & Hge)].
    rewrite task_removed in Hnot by (done || by eapply elem_of_level).
    destruct (tk_side v task Ht t Htl Hnot) as [H|H]; [left; specialize (H a Ha)|right; specialize (H b Hbi)]; border.
  - intros t n Htc Hnot Hn E. destruct (Hids n Hn) as [?|Hf]; [congruence|]. by apply (Hf t).
Qed.

(** C28: the choice of a compaction is total and sound. For any version and any
    configuration [choose_compaction] returns: the [expect] on the picked level
    is never reached with an empty level. What it returns is nothing, or a task
    with at least one input, from one level to the next, that holds the inputs
    and their ids without repetition, and that claims the last level only when
    nothing lies below its target. *)
Theorem choose_compaction_sound v cfg :
  Version_shape v ->
  exists o, choose_compaction v cfg = Ok o /\
    forall task, o = Some task ->
      input_tables task <> [] /\ target_level task = S (source_level task) /\ (target_level task < MAX_LEVELS)%nat /\
      input_ids task = map table_id (input_tables task) /\ NoDup (input_ids task) /\
      (forall a, a ∈ input_tables task -> a ∈ level v (source_level task) \/ a ∈ level v (target_level task)) /\
      (is_last_level task = true -> forall i, (target_level task < i)%nat -> level v i = []).
Proof.
  intros Hv. destruct (choose_compaction_task v cfg) as (o & Ho & Hs). exists o. split; [done|].
  intros task Ht. destruct (Hs task Ht) as [Hof Hne]. destruct (task_of_ok v task Hv Hof) as [[H1 H2] H3 H4 H5 _ H7].
  split; [done|]. split; [done|]. split; [lia|]. split; [done|]. split; [by rewrite H3|]. done.
Qed.

(** A compaction leaves every level above 0 a sorted run of tables with
    disjoint ranges. Take any task the planner builds (the whole of level 0, a
    batch of its oldest tables, or one table of a deeper level) and outputs that
    are disjoint, made of keys of the inputs, and numbered freshly (or, for a
    moved table, as before). Installing them for the inputs keeps the invariant
    of the version, and the overlap guard does not fire. *)
Theorem compaction_keeps_levels stats v task new :
  Version_shape v -> task_of v task ->
  Forall bounded new -> pairwise_apart new -> Forall (within (input_tables task)) new ->
  NoDup (table_id <$> new) ->
  (forall n, n ∈ new -> table_id n ∈ input_ids task \/ forall t, t ∈ concat (levels v) -> table_id t <> table_id n) ->
  let '(stats', v') := with_compaction_applied stats v (input_ids task) new (target_level task) in
  stats' = stats /\ Version_shape v'.
Proof.
  intros Hv Ht Hb Hap Hw Hnd Hids. rewrite (surjective_pairing (with_compaction_applied _ _ _ _ _)).
  apply apply_task_shape; auto using task_of_ok.
Qed.

(** ** Witnesses *)

Definition sample_handle (id : Z) (lo hi : bytes) (size : Z) : TableHandle :=
  mkTableHandle (mkSSTableReader [] (mkSSTableMeta id 1 2 lo hi 0 9 0 1 size 0 []) (0, 0) (0, 0) (0, 0) id)
    (str "data/spatial/000001.sst").

Definition sample_version : Version :=
  mkVersion [[sample_handle 5 [10] [30] 0; sample_handle 6 [20] [50] 0; sample_handle 7 [12] [14] 0; sample_handle 8 [1] [2] 0];
             [sample_handle 1 [0] [0] 0; sample_handle 2 [25] [60] 0; sample_handle 3 [70] [80] 0];
             [sample_handle 4 [5] [90] 0]; []; []; []; []].

Lemma sample_version_shape : Version_shape sample_version.
Proof.
  split; [done| | |].
  - repeat constructor; vm_compute; discriminate.
  - intros [|[|[|[|[|[|[|i]]]]]]]; unfold level; cbn; [lia|..]; intros _; repeat constructor.
  - apply (bool_decide_unpack _). vm_compute. exact I.
Qed.

Lemma choose_compaction_sound_witness :
  exists task, choose_compaction sample_version LeveledConfig_default = Ok (Some task) /\
    input_ids task = [5; 6; 7; 8; 2] /\ is_last_level task = false /\ target_level task = S (source_level task).
Proof.
  destruct (choose_compaction_sound sample_version LeveledConfig_default sample_version_shape) as (o & Ho & Hs).
  destruct o as [task|]; [|vm_compute in Ho; discriminate].
  exists task. split; [exact Ho|]. destruct (Hs task eq_refl) as (_ & Ht & _).
  vm_compute in Ho. injection Ho as <-. split; [reflexivity|]. split; [reflexivity|exact Ht].
Defined.

Lemma compaction_keeps_levels_witness :
  let '(stats, v) := with_compaction_applied (mkOverlapStats 0 ∅) sample_version
    (input_ids (build_l0_compaction sample_version)) [sample_handle 10 [40] [60] 0; sample_handle 9 [1] [30] 0] 1 in
  stats = mkOverlapStats 0 ∅ /\ Version_shape v /\ map table_id (level v 1) = [1; 9; 10; 3].
Proof.
  pose proof (compaction_keeps_levels (mkOverlapStats 0 ∅) sample_version (build_l0_compaction sample_version)
    [sample_handle 10 [40] [60] 0; sample_handle 9 [1] [30] 0]) as H.
  change (target_level (build_l0_compaction sample_version)) with 1%nat in H.
  destruct (with_compaction_applied _ _ _ _ _) as [stats v] eqn:E. destruct H as [H1 H2].
  - exact sample_version_shape.
  - apply (task_l0 sample_version _ []). reflexivity.
  - repeat constructor; vm_compute; discriminate.
  - constructor; [repeat constructor|]. constructor; [right; reflexivity|constructor].
  - apply Forall_cons; split; [|apply Forall_cons; split; [|constructor]]; split; eexists;
      (split; [apply (list_elem_of_lookup_2 _ 4); reflexivity|vm_compute; discriminate]) ||
      (split; [apply (list_elem_of_lookup_2 _ 3); reflexivity|vm_compute; discriminate]).
  - apply (bool_decide_unpack _). vm_compute. exact I.
  - intros n Hn. right. apply Forall_forall. revert n Hn. apply Forall_forall.
    apply (bool_decide_unpack _). vm_compute. exact I.
  - split; [exact H1|]. split; [exact H2|]. vm_compute in E. injection E as _ <-. reflexivity.
Defined.
