(* ===== verification/Paths.v ===== *)
(** * File names of tables

    [Path::join], [format!("{id:06}.sst")], [str::parse::<u64>] and the suffix
    tests, as tree/mod.rs uses them on the names in a tree's directory. *)

From S2P Require Import Prelude.

(** [dir.join(name)] of a relative name. *)
Definition path_join (dir name : bytes) : bytes :=
  match last dir with
  | None => name
  | Some c => if c =? 47 then dir ++ name else dir ++ [47] ++ name
  end.

(** Decimal digits, least significant first; [fuel] bounds their number. *)
Fixpoint digits_rev (fuel : nat) (n : Z) : bytes :=
  match fuel with
  | O => []
  | S fuel' => 48 + n mod 10 :: (if n <? 10 then [] else digits_rev fuel' (n / 10))
  end.

(** [format!("{n}")] of a [u64] (20 digits at most). *)
Definition format_u64 (n : Z) : bytes := reverse (digits_rev 20 n).

(** [format!("{n:0w$}")]: zeros in front, up to the width. *)
Definition format_0 (w : nat) (n : Z) : bytes :=
  let d := format_u64 n in replicate (w - length d) 48 ++ d.

(** [s.parse::<u64>()]: an optional plus sign, digits, no overflow. *)
Fixpoint parse_digits (acc : Z) (s : bytes) : option Z :=
  match s with
  | [] => Some acc
  | c :: s' =>
    if (48 <=? c) && (c <=? 57) then
      let acc := acc * 10 + (c - 48) in
      if acc <=? U64_MAX then parse_digits acc s' else None
    else None
  end.

Definition parse_u64 (s : bytes) : option Z :=
  match s with
  | [] => None
  | c :: s' => if c =? 43 then match s' with [] => None | _ => parse_digits 0 s' end else parse_digits 0 s
  end.

(** [s.strip_prefix(prefix)] *)
Definition strip_prefix (s prefix : bytes) : option bytes :=
  if starts_with s prefix then Some (drop (length prefix) s) else None.

(** [s.strip_suffix(suffix)] *)
Definition strip_suffix (s suffix : bytes) : option bytes :=
  if starts_with (reverse s) (reverse suffix) then Some (take (length s - length suffix) s) else None.

Definition sst_name (table_id : Z) : bytes := format_0 6 table_id ++ str ".sst".

(** [Tree::sst_path] *)
Definition sst_path (dir : bytes) (table_id : Z) : bytes := path_join dir (sst_name table_id).

(** [name.strip_suffix(".sst")?.parse::<u64>().ok()] *)
Definition sst_id (name : bytes) : option Z :=
  match strip_suffix name (str ".sst") with Some s => parse_u64 s | None => None end.

(** * Lemmas *)

Lemma parse_digits_app acc a b : parse_digits acc (a ++ b) = parse_digits acc a ≫= fun x => parse_digits x b.
Proof.
  revert acc; induction a as [|c a IH]; intros acc; simpl; [done|]. repeat case_match; simpl; auto.
Qed.

Lemma digits_rev_parse fuel n :
  0 <= n < 10 ^ Z.of_nat fuel -> n <= U64_MAX -> parse_digits 0 (reverse (digits_rev fuel n)) = Some n.
Proof.
  revert n; induction fuel as [|fuel IH]; intros n Hn Hm.
  { simpl in Hn. assert (n = 0) as -> by lia. done. }
  cbn [digits_rev]. rewrite reverse_cons, parse_digits_app.
  rewrite Nat2Z.inj_succ, Z.pow_succ_r in Hn by lia.
  assert (0 <= n mod 10 < 10) by (apply Z.mod_pos_bound; lia).
  destruct (Z.ltb_spec n 10).
  - cbn [reverse mbind option_bind parse_digits]. change (reverse []) with (@nil Z). simpl.
    rewrite (Z.mod_small n 10) by lia. unfold U64_MAX in *.
    destruct (Z.leb_spec 48 (48 + n)), (Z.leb_spec (48 + n) 57); try lia. simpl.
    replace (0 * 10 + (48 + n - 48)) with n by lia. destruct (Z.leb_spec n (2 ^ 64 - 1)); [done|lia].
  - rewrite IH; [|split; [apply Z.div_pos; lia|apply Z.div_lt_upper_bound; lia]|].
    + cbn [mbind option_bind parse_digits].
      destruct (Z.leb_spec 48 (48 + n mod 10)), (Z.leb_spec (48 + n mod 10) 57); try lia. simpl andb. cbv zeta.
      replace (n / 10 * 10 + (48 + n mod 10 - 48)) with n by (pose proof (Z.div_mod n 10); lia).
      destruct (Z.leb_spec n U64_MAX); [done|lia].
    + etransitivity; [|exact Hm]. apply Z.div_le_upper_bound; lia.
Qed.

Lemma parse_zeros n s : parse_digits 0 (replicate n 48 ++ s) = parse_digits 0 s.
Proof. induction n as [|n IH]; simpl; done. Qed.

Lemma digits_rev_ne fuel n c : c ∈ digits_rev fuel n -> 48 <= c.
Proof.
  revert n; induction fuel as [|fuel IH]; intros n; simpl; [by intros ?%elem_of_nil|].
  intros [->|Hc]%elem_of_cons; [pose proof (Z.mod_pos_bound n 10); lia|].
  case_match; [by apply elem_of_nil in Hc|eauto].
Qed.

(** A formatted id parses back. *)
Lemma parse_format_0 w n : is_uint 64 n -> parse_u64 (format_0 w n) = Some n.
Proof.
  intros [Hn Hm]. assert (parse_digits 0 (format_0 w n) = Some n) as H.
  { unfold format_0, format_u64. cbv zeta. rewrite parse_zeros. apply digits_rev_parse; unfold U64_MAX; lia. }
  assert (Forall (fun c => 48 <= c) (format_0 w n)) as Hd.
  { unfold format_0, format_u64. cbv zeta. apply Forall_app. split.
    - apply Forall_replicate. lia.
    - apply Forall_reverse, Forall_forall. intros c. apply digits_rev_ne. }
  unfold parse_u64. destruct (format_0 w n) as [|c s] eqn:E.
  - unfold format_0, format_u64 in E. cbv zeta in E. apply app_eq_nil in E as [_ E].
    by apply (f_equal length) in E; rewrite length_reverse in E.
  - apply Forall_cons in Hd as [Hc _]. destruct (Z.eqb_spec c 43); [lia|done].
Qed.

Lemma starts_with_app p s : starts_with (p ++ s) p = true.
Proof. induction p as [|a p IH]; [by destruct s|]. simpl. by rewrite Z.eqb_refl, IH. Qed.

Lemma strip_suffix_app s suffix : strip_suffix (s ++ suffix) suffix = Some s.
Proof. unfold strip_suffix. by rewrite reverse_app, starts_with_app, length_app, Nat.add_sub, take_app_length. Qed.

Lemma strip_prefix_app s prefix : strip_prefix (prefix ++ s) prefix = Some s.
Proof. unfold strip_prefix. by rewrite starts_with_app, drop_app_length. Qed.

Lemma sst_id_name n : is_uint 64 n -> sst_id (sst_name n) = Some n.
Proof. intros Hn. unfold sst_id, sst_name. rewrite strip_suffix_app. by apply parse_format_0. Qed.

Lemma sst_name_inj m n : is_uint 64 m -> is_uint 64 n -> sst_name m = sst_name n -> m = n.
Proof. intros Hm Hn E. apply (f_equal sst_id) in E. rewrite !sst_id_name in E by done. congruence. Qed.

Lemma sst_path_inj dir m n : is_uint 64 m -> is_uint 64 n -> sst_path dir m = sst_path dir n -> m = n.
Proof.
  intros Hm Hn. unfold sst_path, path_join. intros E. apply sst_name_inj; [done|done|].
  repeat case_match; simplify_eq; try done; by simplify_list_eq.
Qed.
