(* ===== verification/Wal.v ===== *)
(** * The write-ahead log (turba-engine/src/journal/writer.rs, recovery.rs)

    The active segment behind its [BufWriter], the archived segments with the
    highest sequence number in their names, rolling, pruning, rotation, and the
    recovery that reads the segments in the order of their names.

    A file is what was written to it and how much of that an fsync has covered. A
    crash keeps the names and cuts every file anywhere at or after the synced
    length. System calls succeed, except that a missing file cannot be removed or
    renamed. *)

From S2P Require Import Prelude Types Block JournalEntry Paths.

Record WalFile := mkWalFile { wf_data : bytes; wf_synced : Z }.

(** The files of the log's directory, by name. *)
Abbreviation WalDir := (gmap bytes WalFile).

Inductive PersistMode := Buffer | SyncData.

#[export] Instance PersistMode_eq_dec : EqDecision PersistMode.
Proof. solve_decision. Defined.

Definition DEFAULT_SEGMENT_MAX_BYTES : Z := 64 * 1024 * 1024.

Record JournalWriter := mkJournalWriter {
  jw_buffer : bytes;
  jw_name : bytes;
  jw_persist_mode : PersistMode;
  jw_segment_max_bytes : Z;
  jw_active_bytes : Z;
  jw_active_max_seqno : SeqNo;
  jw_segments : list (bytes * SeqNo);
}.

Record Wal := mkWal { w_dir : WalDir; w_writer : JournalWriter }.

(** [name.strip_prefix("journal.")?.strip_suffix(".wal")?.parse::<u64>().ok()] *)
Definition segment_id (name : bytes) : option SeqNo :=
  match strip_prefix name (str "journal.") with
  | Some s => match strip_suffix s (str ".wal") with Some n => parse_u64 n | None => None end
  | None => None
  end.

(** [format!("journal.{:020}.wal", max_seqno)] *)
Definition segment_name (max_seqno : SeqNo) : bytes := str "journal." ++ format_0 20 max_seqno ++ str ".wal".

Definition remove_archived_segments (d : WalDir) : WalDir :=
  filter (fun x => segment_id x.1 = None) d.

(** [JournalWriter::create] *)
Definition wal_create (name : bytes) (mode : PersistMode) (segment_max_bytes : Z) (d : WalDir) : Wal :=
  mkWal (<[name := mkWalFile [] 0]> (remove_archived_segments d)) (mkJournalWriter [] name mode segment_max_bytes 0 0 []).

Definition open_append (name : bytes) (mode : PersistMode) (segment_max_bytes : Z) (d : WalDir) : Wal :=
  let f := default (mkWalFile [] 0) (d !! name) in
  mkWal (<[name := f]> d) (mkJournalWriter [] name mode segment_max_bytes (blen (wf_data f)) 0 []).

(** ** The buffered file *)

Definition BUF_CAPACITY : Z := 8 * 1024.

Definition append_file (b : bytes) (w : Wal) : Wal :=
  mkWal (alter (fun f => mkWalFile (wf_data f ++ b) (wf_synced f)) (jw_name (w_writer w)) (w_dir w)) (w_writer w).

Definition set_buffer (b : bytes) (w : Wal) : Wal :=
  let j := w_writer w in
  mkWal (w_dir w) (mkJournalWriter b (jw_name j) (jw_persist_mode j) (jw_segment_max_bytes j) (jw_active_bytes j)
    (jw_active_max_seqno j) (jw_segments j)).

(** [BufWriter::flush] *)
Definition wal_flush (w : Wal) : Wal := set_buffer [] (append_file (jw_buffer (w_writer w)) w).

(** [BufWriter::write_all]: what does not fit empties the buffer first, what is
    not smaller than the buffer goes straight to the file. *)
Definition buf_write_all (b : bytes) (w : Wal) : Wal :=
  let spare := BUF_CAPACITY - blen (jw_buffer (w_writer w)) in
  if blen b <? spare then set_buffer (jw_buffer (w_writer w) ++ b) w
  else
    let w := if spare <? blen b then wal_flush w else w in
    if BUF_CAPACITY <=? blen b then append_file b w else set_buffer (jw_buffer (w_writer w) ++ b) w.

(** [sync_data] *)
Definition sync_data (w : Wal) : Wal :=
  mkWal (alter (fun f => mkWalFile (wf_data f) (blen (wf_data f))) (jw_name (w_writer w)) (w_dir w)) (w_writer w).

(** ** The operations *)

Definition count_batch (len : Z) (seqno : SeqNo) (w : Wal) : Wal :=
  let j := w_writer w in
  mkWal (w_dir w) (mkJournalWriter (jw_buffer j) (jw_name j) (jw_persist_mode j) (jw_segment_max_bytes j)
    (wrap64 (jw_active_bytes j + len)) (Z.max (jw_active_max_seqno j) seqno) (jw_segments j)).

(** [maybe_roll]: the active file becomes an archived segment named by the
    highest number written so far, which stays as it is. *)
Definition maybe_roll : ST Wal unit := fun w =>
  let j := w_writer w in
  if (jw_active_bytes j <? jw_segment_max_bytes j) || (jw_active_max_seqno j =? 0) then (w, Ok tt) else
  let archived := segment_name (jw_active_max_seqno j) in
  match w_dir w !! jw_name j with
  | None => (w, Err Io)
  | Some f =>
    let d := <[archived := f]> (delete (jw_name j) (w_dir w)) in
    (mkWal (<[jw_name j := mkWalFile [] 0]> d)
       (mkJournalWriter [] (jw_name j) (jw_persist_mode j) (jw_segment_max_bytes j) 0 (jw_active_max_seqno j)
          (jw_segments j ++ [(archived, jw_active_max_seqno j)])), Ok tt)
  end.

(** [sync] *)
Definition wal_sync : ST Wal unit :=
  _ ← modify wal_flush; _ ← modify sync_data; maybe_roll.

Section batches.
Context {XH : Xxh3}.

Definition write_batch_buffered (seqno : SeqNo) (items : list BatchItem) : ST Wal unit :=
  let encoded := encode_batch seqno items in
  _ ← modify (buf_write_all encoded); modify (count_batch (blen encoded) seqno).

Definition write_batch (seqno : SeqNo) (items : list BatchItem) : ST Wal unit :=
  _ ← write_batch_buffered seqno items;
  mode ← gets (fun w => jw_persist_mode (w_writer w));
  match mode with SyncData => wal_sync | Buffer => mret tt end.

End batches.

Definition set_segments (segs : list (bytes * SeqNo)) (w : Wal) : Wal :=
  let j := w_writer w in
  mkWal (w_dir w) (mkJournalWriter (jw_buffer j) (jw_name j) (jw_persist_mode j) (jw_segment_max_bytes j)
    (jw_active_bytes j) (jw_active_max_seqno j) segs).

(** The loop of [prune]: the segments kept and the bytes freed. *)
Fixpoint prune_loop (watermark : SeqNo) (segs : list (bytes * SeqNo)) : ST WalDir (list (bytes * SeqNo) * Z) :=
  match segs with
  | [] => mret ([], 0)
  | (path, max_seqno) :: rest =>
    if max_seqno <=? watermark then fun d =>
      match d !! path with
      | None => (d, Err Io)
      | Some f =>
        let '(d, r) := prune_loop watermark rest (delete path d) in
        (d, '(kept, freed) ← r; Ok (kept, wrap64 (blen (wf_data f) + freed)))
      end
    else
      '(kept, freed) ← prune_loop watermark rest;
      mret ((path, max_seqno) :: kept, freed)
  end.

(** [prune]: the list of segments is taken out first, and stays empty after an
    error. *)
Definition prune (watermark : SeqNo) : ST Wal Z := fun w =>
  let segs := jw_segments (w_writer w) in
  let '(d, r) := prune_loop watermark segs (w_dir w) in
  match r with
  | Ok (kept, freed) => (set_segments kept (mkWal d (w_writer w)), Ok freed)
  | Err e => (set_segments [] (mkWal d (w_writer w)), Err e)
  | Panic => (set_segments [] (mkWal d (w_writer w)), Panic)
  end.

(** [rotate] *)
Definition rotate (w : Wal) : Wal :=
  let w := sync_data (wal_flush w) in
  let j := w_writer w in
  let d := foldr (fun s d => delete s.1 d) (<[jw_name j := mkWalFile [] 0]> (w_dir w)) (jw_segments j) in
  mkWal d (mkJournalWriter [] (jw_name j) (jw_persist_mode j) (jw_segment_max_bytes j) 0 (jw_active_max_seqno j) []).

Definition total_bytes (w : Wal) : Z :=
  let j := w_writer w in
  wrap64 (jw_active_bytes j +
    foldr (fun s n => match w_dir w !! s.1 with Some f => wrap64 (blen (wf_data f) + n) | None => n end) 0 (jw_segments j)).

(** ** Recovery *)

Section recovery.
Context {XH : Xxh3}.

(** The archived segments in the order of their numbers. *)
Definition archived_segments (d : WalDir) : list (SeqNo * WalFile) :=
  stable_sort (fun a b => a.1 <=? b.1) (omap (fun x => (fun n => (n, x.2)) <$> segment_id x.1) (map_to_list d)).

Definition decode_segment (data : bytes) : list RecoveredBatch :=
  match data with [] => [] | _ => decode_batches data end.

Definition recover_journal (d : WalDir) (name : bytes) : list RecoveredBatch :=
  (archived_segments d ≫= fun x => decode_segment (wf_data x.2)) ++
  match d !! name with Some f => decode_segment (wf_data f) | None => [] end.

End recovery.

(** * Lemmas *)

Lemma segment_id_name n : is_uint 64 n -> segment_id (segment_name n) = Some n.
Proof. intros Hn. unfold segment_id, segment_name. rewrite strip_prefix_app, strip_suffix_app. by apply parse_format_0. Qed.

Lemma segment_name_inj m n : is_uint 64 m -> is_uint 64 n -> segment_name m = segment_name n -> m = n.
Proof. intros Hm Hn E. apply (f_equal segment_id) in E. rewrite !segment_id_name in E by done. congruence. Qed.

Section wal_lemmas.
Context {XH : Xxh3}.

(** The bytes of a run of batches. *)
Definition encs (bs : list RecoveredBatch) : bytes := bs ≫= fun b => encode_batch (rb_seqno b) (rb_items b).

Lemma encs_app a b : encs (a ++ b) = encs a ++ encs b.
Proof. apply bind_app. Qed.

Lemma enc_nonempty sq its : encode_batch sq its <> [].
Proof. unfold encode_batch. cbv zeta. by destruct (encode_payload sq its). Qed.

(** ** What the operations keep *)

(** The settings of a writer. *)
Definition fixed (j : JournalWriter) : bytes * PersistMode := (jw_name j, jw_persist_mode j).

Definition seg_holds (d : WalDir) (s : bytes * SeqNo) (bs : list RecoveredBatch) : Prop :=
  s.1 = segment_name s.2 /\ is_uint 64 s.2 /\ d !! s.1 = Some (mkWalFile (encs bs) (blen (encs bs))) /\
  Forall (fun b => rb_seqno b <= s.2) bs.

(** The log holds the batches of the archived segments and those of the active
    one, of which the first [k] are synced. *)
Record wal_inv (w : Wal) (segs : list (list RecoveredBatch)) (act : list RecoveredBatch) (k : nat) : Prop := {
  wi_name : segment_id (jw_name (w_writer w)) = None;
  wi_limit : 0 < jw_segment_max_bytes (w_writer w);
  wi_segs : Forall2 (seg_holds (w_dir w)) (jw_segments (w_writer w)) segs;
  wi_order : StronglySorted Z.lt (snd <$> jw_segments (w_writer w));
  wi_only name : is_Some (segment_id name) -> is_Some (w_dir w !! name) -> name ∈ fst <$> jw_segments (w_writer w);
  wi_active : exists data, w_dir w !! jw_name (w_writer w) = Some (mkWalFile data (blen (encs (take k act)))) /\
    data ++ jw_buffer (w_writer w) = encs act /\ blen (encs (take k act)) <= blen data;
  wi_bytes : jw_active_bytes (w_writer w) = wrap64 (blen (encs act));
  wi_seqnos : Forall (fun b => rb_seqno b <= jw_active_max_seqno (w_writer w)) act;
  wi_above m : m ∈ snd <$> jw_segments (w_writer w) -> m <= jw_active_max_seqno (w_writer w) /\
    (act <> [] -> m < jw_active_max_seqno (w_writer w));
  wi_max : is_uint 64 (jw_active_max_seqno (w_writer w));
  wi_batches : Forall batch_ok (concat segs ++ act);
}.

Lemma wal_inv_create name mode limit d :
  segment_id name = None -> 0 < limit -> wal_inv (wal_create name mode limit d) [] [] 0.
Proof.
  intros Hn Hl. split; cbn; try done.
  - constructor.
  - intros name' [n Hid] [f Hf]. exfalso. rewrite lookup_insert_Some in Hf. destruct Hf as [[-> _]|[_ Hf]]; [congruence|].
    unfold remove_archived_segments in Hf. apply map_lookup_filter_Some in Hf as [_ Hf]. cbn in Hf. congruence.
  - exists []. rewrite lookup_insert_eq. done.
  - by intros m ?%elem_of_nil.
Qed.

(** Bytes that move between the buffer and the file. *)
Lemma wal_inv_moved w segs act k data buf :
  wal_inv w segs act k -> data ++ buf = encs act -> blen (encs (take k act)) <= blen data ->
  wal_inv (set_buffer buf (mkWal (<[jw_name (w_writer w) := mkWalFile data (blen (encs (take k act)))]> (w_dir w)) (w_writer w))) segs act k.
Proof.
  intros [] Hd Hk. split; cbn; try done.
  - eapply Forall2_impl; [done|]. intros s bs (H1 & H2 & H3 & H4). split; [done|]. split; [done|]. split; [|done].
    rewrite lookup_insert_ne; [done|]. intros E. rewrite H1 in E. rewrite E, segment_id_name in wi_name0; done.
  - intros name Hid [f Hf]. apply wi_only0; [done|]. rewrite lookup_insert_Some in Hf. destruct Hf as [[<- _]|[_ Hf]]; [|eauto].
    destruct Hid. congruence.
  - exists data. by rewrite lookup_insert_eq.
Qed.

Lemma alter_is_insert (f : WalFile -> WalFile) (d : WalDir) name x : d !! name = Some x -> alter f name d = <[name := f x]> d.
Proof.
  intros Hx. apply map_eq. intros i. destruct (decide (i = name)) as [->|Hi].
  - by rewrite lookup_alter_eq, lookup_insert_eq, Hx.
  - by rewrite lookup_alter_ne, lookup_insert_ne by done.
Qed.

(** A state in which the active file and the buffer have changed. *)
Definition moved (w : Wal) (data buf : bytes) (synced : Z) : Wal :=
  set_buffer buf (mkWal (<[jw_name (w_writer w) := mkWalFile data synced]> (w_dir w)) (w_writer w)).

Lemma moved_id w data synced :
  w_dir w !! jw_name (w_writer w) = Some (mkWalFile data synced) -> moved w data (jw_buffer (w_writer w)) synced = w.
Proof. intros H. unfold moved, set_buffer. cbn. rewrite insert_id by done. by destruct w as [d []]. Qed.

Lemma set_buffer_moved w data synced buf :
  w_dir w !! jw_name (w_writer w) = Some (mkWalFile data synced) -> set_buffer buf w = moved w data buf synced.
Proof. intros H. unfold moved, set_buffer. cbn. by rewrite insert_id. Qed.

Lemma append_file_moved w data synced b :
  w_dir w !! jw_name (w_writer w) = Some (mkWalFile data synced) ->
  append_file b w = moved w (data ++ b) (jw_buffer (w_writer w)) synced.
Proof. intros H. unfold append_file. rewrite (alter_is_insert _ _ _ _ H). unfold moved, set_buffer. cbn. by destruct w as [d []]. Qed.

Lemma moved_lookup w data buf synced :
  w_dir (moved w data buf synced) !! jw_name (w_writer (moved w data buf synced)) = Some (mkWalFile data synced).
Proof. cbn. by rewrite lookup_insert_eq. Qed.

Lemma moved_moved w data buf s data' buf' s' : moved (moved w data buf s) data' buf' s' = moved w data' buf' s'.
Proof. unfold moved, set_buffer. cbn. by rewrite insert_insert_eq. Qed.

Lemma wal_flush_moved w data synced :
  w_dir w !! jw_name (w_writer w) = Some (mkWalFile data synced) ->
  wal_flush w = moved w (data ++ jw_buffer (w_writer w)) [] synced.
Proof.
  intros H. unfold wal_flush. rewrite (append_file_moved _ _ _ _ H).
  rewrite (set_buffer_moved _ _ _ _ (moved_lookup _ _ _ _)). apply moved_moved.
Qed.

Lemma buf_write_all_moved w data synced b :
  w_dir w !! jw_name (w_writer w) = Some (mkWalFile data synced) ->
  exists data' buf, buf_write_all b w = moved w data' buf synced /\ data' ++ buf = data ++ jw_buffer (w_writer w) ++ b /\
    blen data <= blen data'.
Proof.
  intros H. unfold buf_write_all. cbv zeta. case_match.
  { eexists _, _. split; [by apply set_buffer_moved|]. split; [done|lia]. }
  set (w' := if _ <? _ then wal_flush w else w).
  assert (exists data1 buf1, w' = moved w data1 buf1 synced /\ data1 ++ buf1 = data ++ jw_buffer (w_writer w) /\ blen data <= blen data1 /\
    (BUF_CAPACITY <= blen b -> buf1 = [])) as (data1 & buf1 & -> & Hd & Hl & Hb).
  { unfold w'. case_match eqn:E.
    - eexists _, _. split; [by apply wal_flush_moved|]. rewrite app_nil_r. split; [done|]. rewrite blen_app. pose proof (blen_nonneg (jw_buffer (w_writer w))).
      split; [lia|done].
    - exists data, (jw_buffer (w_writer w)). split; [by rewrite moved_id|]. split; [done|]. split; [lia|]. intros Hc.
      pose proof (blen_nonneg (jw_buffer (w_writer w))). destruct (jw_buffer (w_writer w)) as [|x l]; [done|].
      rewrite blen_cons in *. pose proof (blen_nonneg l). lia. }
  case_match eqn:E.
  - rewrite (append_file_moved _ _ _ _ (moved_lookup _ _ _ _)), moved_moved. cbn. rewrite Hb in * by lia. rewrite app_nil_r in Hd. subst data1.
    eexists _, _. split; [done|]. rewrite app_nil_r, app_assoc. split; [done|]. rewrite !blen_app in *. pose proof (blen_nonneg b). lia.
  - rewrite (set_buffer_moved _ _ _ _ (moved_lookup _ _ _ _)), moved_moved. cbn. eexists _, _. split; [done|].
    by rewrite app_assoc, Hd, <- app_assoc.
Qed.

(** A batch appended. *)
Lemma write_batch_inv w segs act k b :
  wal_inv w segs act k -> (k <= length act)%nat -> batch_ok b -> jw_active_max_seqno (w_writer w) < rb_seqno b ->
  exists w', write_batch_buffered (rb_seqno b) (rb_items b) w = (w', Ok tt) /\ wal_inv w' segs (act ++ [b]) k /\
    fixed (w_writer w') = fixed (w_writer w) /\ jw_active_max_seqno (w_writer w') = rb_seqno b.
Proof.
  intros Hi Hk Hb Hm. pose proof Hi as []. destruct wi_active0 as (data & Hf & Hd & Hs).
  destruct (buf_write_all_moved _ _ _ (encode_batch (rb_seqno b) (rb_items b)) Hf) as (data' & buf & Hw & Hd' & Hl).
  eexists. split; [unfold write_batch_buffered; erewrite ST_bind_Ok by reflexivity; rewrite Hw; reflexivity|].
  assert (encs (act ++ [b]) = encs act ++ encode_batch (rb_seqno b) (rb_items b)) as Ee.
  { rewrite encs_app. f_equal. unfold encs. cbn. by rewrite app_nil_r. }
  pose proof Hb as [Hseq _]. split; [|split; [done|cbn; lia]].
  split; cbn; try done.
  - eapply Forall2_impl; [done|]. intros s bs (H1 & H2 & H3 & H4). split; [done|]. split; [done|]. split; [|done].
    rewrite lookup_insert_ne; [done|]. intros E. rewrite H1 in E. rewrite E, segment_id_name in wi_name0; done.
  - intros name Hid [f Hf']. apply wi_only0; [done|]. rewrite lookup_insert_Some in Hf'. destruct Hf' as [[<- _]|[_ Hf']]; [|eauto].
    destruct Hid. congruence.
  - exists data'. rewrite lookup_insert_eq, take_app_le by done. split; [done|]. rewrite Ee, <- Hd, <- app_assoc. split; [done|lia].
  - rewrite wi_bytes0, Ee, blen_app. unfold wrap. apply Zplus_mod_idemp_l.
  - apply Forall_app. split; [eapply Forall_impl; [done|]; cbn; intros; lia|]. constructor; [lia|constructor].
  - intros m Hm'. destruct (wi_above0 m Hm'). split; [lia|]. intros _. lia.
  - rewrite Z.max_r by lia. apply Hseq.
  - rewrite app_assoc. apply Forall_app. split; [done|]. by apply Forall_singleton.
Qed.

Lemma Forall2_impl_in {A B} (P Q : A -> B -> Prop) l m :
  Forall2 P l m -> (forall x y, x ∈ l -> P x y -> Q x y) -> Forall2 Q l m.
Proof.
  induction 1 as [|x y l m Hxy _ IH]; intros H; [done|]. constructor; [apply H; [by left|done]|]. apply IH. intros. apply H; [by right|done].
Qed.

(** A sync, and the roll after it. *)
Lemma flush_sync_inv w segs act k :
  wal_inv w segs act k ->
  let w' := sync_data (wal_flush w) in
  wal_inv w' segs act (length act) /\ jw_buffer (w_writer w') = [] /\ fixed (w_writer w') = fixed (w_writer w) /\
  jw_active_max_seqno (w_writer w') = jw_active_max_seqno (w_writer w).
Proof.
  intros Hi. pose proof Hi as []. destruct wi_active0 as (data & Hf & Hd & Hs). cbv zeta.
  rewrite (wal_flush_moved _ _ _ Hf), Hd. unfold sync_data. rewrite (alter_is_insert _ _ _ _ (moved_lookup _ _ _ _)). cbn.
  rewrite insert_insert_eq. split; [|done].
  split; cbn; try done.
  - eapply Forall2_impl; [done|]. intros s bs (H1 & H2 & H3 & H4). split; [done|]. split; [done|]. split; [|done].
    rewrite lookup_insert_ne; [done|]. intros E. rewrite H1 in E. rewrite E, segment_id_name in wi_name0; done.
  - intros name Hid [f Hf']. apply wi_only0; [done|]. rewrite lookup_insert_Some in Hf'. destruct Hf' as [[<- _]|[_ Hf']]; [|eauto].
    destruct Hid. congruence.
  - exists (encs act). rewrite lookup_insert_eq, firstn_all, app_nil_r. done.
Qed.

Lemma maybe_roll_inv w segs act :
  wal_inv w segs act (length act) -> jw_buffer (w_writer w) = [] ->
  exists w' segs' act', maybe_roll w = (w', Ok tt) /\ wal_inv w' segs' act' (length act') /\ concat segs' ++ act' = concat segs ++ act /\
    fixed (w_writer w') = fixed (w_writer w) /\ jw_active_max_seqno (w_writer w') = jw_active_max_seqno (w_writer w).
Proof.
  intros Hi Hb. pose proof Hi as []. unfold maybe_roll. cbv zeta. destruct (_ || _) eqn:E; [by eexists _, segs, act|].
  apply orb_false_iff in E as [E1 E2]. destruct wi_active0 as (data & Hf & Hd & _). rewrite Hf. rewrite Hb, app_nil_r in Hd. subst data.
  rewrite firstn_all in Hf.
  assert (act <> []) as Hne by (intros ->; change (wrap64 (blen (encs []))) with 0 in wi_bytes0; lia).
  set (j := w_writer w) in *. set (nm := segment_name (jw_active_max_seqno j)).
  assert (segment_id nm = Some (jw_active_max_seqno j)) as Hid by by apply segment_id_name.
  assert (nm <> jw_name j) as Hnm by (intros E; congruence).
  eexists _, (segs ++ [act]), []. split; [done|]. rewrite app_nil_r, concat_app. cbn [concat]. rewrite app_nil_r.
  split; [|done]. split; cbn; try done.
  - apply Forall2_app; [|apply Forall2_cons; split; [|done]].
    + eapply Forall2_impl_in; [done|]. intros s bs Hin (H1 & H2 & H3 & H4). split; [done|]. split; [done|]. split; [|done].
      rewrite lookup_insert_ne by (intros E; rewrite H1 in E; rewrite E, segment_id_name in wi_name0; done).
      rewrite lookup_insert_ne; [rewrite lookup_delete_ne; [done|intros E; rewrite H1 in E; rewrite E, segment_id_name in wi_name0; done]|].
      intros E. rewrite H1 in E. apply segment_name_inj in E; [|done|done].
      destruct (wi_above0 s.2) as [_ Hlt]; [by apply list_elem_of_fmap_2|]. specialize (Hlt Hne). lia.
    + split; [done|]. split; [done|]. cbn. rewrite lookup_insert_ne by done. by rewrite lookup_insert_eq, ?firstn_all.
  - rewrite fmap_app. apply StronglySorted_app_2; [|done|repeat constructor]. intros a b Ha ->%list_elem_of_singleton. cbn.
    by apply wi_above0.
  - intros name Hs [f Hf']. rewrite fmap_app, elem_of_app. rewrite lookup_insert_Some in Hf'. destruct Hf' as [[<- _]|[_ Hf']]; [destruct Hs; congruence|].
    rewrite lookup_insert_Some in Hf'. destruct Hf' as [[<- _]|[_ Hf']]; [right; cbn; by left|]. left. apply wi_only0; [done|].
    apply lookup_delete_Some in Hf' as [_ Hf']. eauto.
  - exists []. by rewrite lookup_insert_eq.
  - intros m. rewrite fmap_app, elem_of_app. intros [Hm| ->%list_elem_of_singleton]; [|done]. split; [by apply wi_above0|done].
  - by rewrite concat_app, app_nil_r; cbn; rewrite app_nil_r.
Qed.

(** ** Pruning *)

Lemma prune_loop_none wm segs d :
  Forall (fun s : bytes * SeqNo => wm < s.2) segs -> prune_loop wm segs d = (d, Ok (segs, 0)).
Proof.
  induction 1 as [|[path m] segs Hm _ IH]; [done|]. cbn [prune_loop]. cbn in Hm. destruct (Z.leb_spec m wm); [lia|].
  by rewrite (ST_bind_Ok _ _ _ _ _ IH).
Qed.

Lemma seg_holds_delete d s s' bs :
  seg_holds d s' bs -> is_uint 64 s.2 -> s.1 = segment_name s.2 -> s.2 <> s'.2 -> seg_holds (delete s.1 d) s' bs.
Proof.
  intros (H1 & H2 & H3 & H4) Hu Hn Hne. split; [done|]. split; [done|]. split; [|done]. rewrite lookup_delete_ne; [done|].
  rewrite H1, Hn. intros E. apply segment_name_inj in E; [congruence|done|done].
Qed.

Lemma prune_loop_spec wm segs bss d :
  Forall2 (seg_holds d) segs bss -> StronglySorted Z.lt (snd <$> segs) ->
  exists i d' freed, prune_loop wm segs d = (d', Ok (drop i segs, freed)) /\ Forall (fun s => s.2 <= wm) (take i segs) /\
    Forall2 (seg_holds d') (drop i segs) (drop i bss) /\
    (forall name, d' !! name = if decide (name ∈ fst <$> take i segs) then None else d !! name).
Proof.
  intros Hs. revert d Hs. revert bss. induction segs as [|[path m] segs IH]; intros bss d Hs Ho.
  { inversion Hs; subst. exists 0%nat, d, 0. split; [done|]. split; [done|]. split; [done|]. intros name. by rewrite decide_False by apply not_elem_of_nil. }
  apply Forall2_cons_inv_l in Hs as (bs & bss' & Hh & Hs & ->). rewrite fmap_cons in Ho. apply StronglySorted_inv in Ho as [Ho Hlt].
  cbn [snd] in Hlt. destruct (Z.leb_spec m wm) as [Hm|Hm].
  - pose proof Hh as (Hn & Hu & Hd & _). cbn [fst snd] in *.
    assert (Forall2 (seg_holds (delete path d)) segs bss') as Hs'.
    { eapply Forall2_impl_in; [done|]. intros s' bs' Hin Hx. apply (seg_holds_delete d (path, m)); [done|done|done|]. cbn.
      rewrite Forall_forall in Hlt. specialize (Hlt s'.2 ltac:(by apply list_elem_of_fmap_2)). lia. }
    destruct (IH _ _ Hs' Ho) as (i & d' & freed & Hp & Hle & Hk & Hl). exists (S i), d'. eexists. cbn [prune_loop].
    destruct (Z.leb_spec m wm); [|lia]. rewrite Hd, Hp. split; [done|]. split; [by constructor|]. split; [done|].
    intros name. rewrite Hl. cbn [take]. rewrite fmap_cons. cbn [fst]. destruct (decide (name = path)) as [->|Hne].
    + rewrite (decide_True (P := path ∈ path :: _)) by by left. rewrite lookup_delete_eq. by case_decide.
    + rewrite lookup_delete_ne by done. apply decide_ext. rewrite elem_of_cons. tauto.
  - exists 0%nat, d, 0. split; [|split; [constructor|split; [by constructor|intros name; by rewrite decide_False by apply not_elem_of_nil]]].
    rewrite (prune_loop_none wm ((path, m) :: segs)); [done|]. constructor; [done|]. apply Forall_forall. intros s Hin.
    rewrite Forall_forall in Hlt. specialize (Hlt s.2 ltac:(by apply list_elem_of_fmap_2)). lia.
Qed.

Lemma seg_name_ids d segs bss : Forall2 (seg_holds d) segs bss -> Forall (fun s => s.1 = segment_name s.2 /\ is_uint 64 s.2) segs.
Proof. induction 1 as [|s bs segs bss (H1 & H2 & _) _ IH]; by constructor. Qed.

Lemma wal_prune_inv w segs act k wm :
  wal_inv w segs act k ->
  exists w' i n, prune wm w = (w', Ok n) /\ wal_inv w' (drop i segs) act k /\
    Forall (fun b => rb_seqno b <= wm) (concat (take i segs)) /\ w_writer w' = w_writer (set_segments (drop i (jw_segments (w_writer w))) w).
Proof.
  intros Hi. pose proof Hi as []. destruct (prune_loop_spec wm _ _ _ wi_segs0 wi_order0) as (i & d' & freed & Hp & Hle & Hk & Hl).
  unfold prune. cbv zeta. rewrite Hp. eexists _, i, freed. split; [done|].
  pose proof (seg_name_ids _ _ _ wi_segs0) as Hids. split; [|split; [|done]].
  - split; cbn; try done.
    + rewrite <- (take_drop i (jw_segments (w_writer w))), fmap_app in wi_order0. by apply StronglySorted_app_1_r in wi_order0.
    + intros name Hs [f Hf]. rewrite Hl in Hf. case_decide as Hin; [done|]. specialize (wi_only0 name Hs (mk_is_Some _ _ Hf)).
      rewrite <- (take_drop i (jw_segments (w_writer w))), fmap_app, elem_of_app in wi_only0. tauto.
    + destruct wi_active0 as (data & Hf & Hd & Hs). exists data. rewrite Hl, decide_False; [done|].
      rewrite list_elem_of_fmap. intros (s & E & Hin). rewrite Forall_forall in Hids.
      destruct (Hids s) as [Hn Hu]; [by apply (subseteq_take i)|]. rewrite E, Hn, segment_id_name in wi_name0; done.
    + intros m Hm. apply wi_above0. rewrite list_elem_of_fmap in *. destruct Hm as (s & -> & Hin). exists s. split; [done|].
      rewrite <- (take_drop i (jw_segments (w_writer w))), elem_of_app. by right.
    + rewrite <- (take_drop i segs), concat_app, <- app_assoc in wi_batches0. by apply Forall_app in wi_batches0 as [_ ?].
  - pose proof (Forall2_take _ _ _ i wi_segs0) as Ht. clear -Ht Hle. revert Hle. induction Ht as [|s bs l l' (_ & _ & _ & Hb) _ IH]; intros Hle; [done|].
    cbn [concat]. apply Forall_cons in Hle as [Hs Hle]. apply Forall_app. split; [|auto]. eapply Forall_impl; [exact Hb|]. cbn. lia.
Qed.

(** ** Rotation *)

Lemma foldr_delete_lookup (segs : list (bytes * SeqNo)) (d : WalDir) name :
  foldr (fun s d => delete s.1 d) d segs !! name = if decide (name ∈ fst <$> segs) then None else d !! name.
Proof.
  induction segs as [|s segs IH]; [done|]. cbn [foldr fmap list_fmap]. destruct (decide (name = s.1)) as [->|Hne].
  - rewrite lookup_delete_eq, decide_True; [done|by left].
  - rewrite lookup_delete_ne, IH by done. repeat case_decide; try done; exfalso; set_solver.
Qed.

Lemma rotate_inv w segs act k :
  wal_inv w segs act k -> wal_inv (rotate w) [] [] 0 /\ fixed (w_writer (rotate w)) = fixed (w_writer w) /\
    jw_active_max_seqno (w_writer (rotate w)) = jw_active_max_seqno (w_writer w) /\
    jw_segment_max_bytes (w_writer (rotate w)) = jw_segment_max_bytes (w_writer w).
Proof.
  intros Hi. destruct (flush_sync_inv _ _ _ _ Hi) as (Hi' & _ & Hf & Hm). pose proof Hi' as []. split; [|done]. split; cbn; try done.
  - constructor.
  - intros name Hs [f Hl]. rewrite foldr_delete_lookup in Hl. case_decide as Hin; [done|]. exfalso. apply Hin, wi_only0; [done|].
    rewrite lookup_insert_Some in Hl. destruct Hl as [[<- _]|[_ Hl]]; [|by eexists]. cbn in wi_name0. rewrite wi_name0 in Hs. by destruct Hs.
  - exists []. rewrite foldr_delete_lookup, decide_False, lookup_insert_eq; [done|]. rewrite list_elem_of_fmap. intros (s & E & Hin).
    apply seg_name_ids in wi_segs0. rewrite Forall_forall in wi_segs0. destruct (wi_segs0 s Hin) as [Hn Hu].
    cbn in wi_name0. rewrite E, Hn, segment_id_name in wi_name0; done.
  - by intros m ?%elem_of_nil.
Qed.

(** ** Recovery *)

(** What a crash leaves: every file is cut at or after its synced length. *)
Definition crash_file (o o' : option WalFile) : Prop :=
  match o with
  | Some f => exists n, (0 <= n /\ wf_synced f <= n <= blen (wf_data f)) /\ o' = Some (mkWalFile (take (Z.to_nat n) (wf_data f)) n)
  | None => o' = None
  end.

Definition crash_dir (d d' : WalDir) : Prop := forall name, crash_file (d !! name) (d' !! name).

(** A cut stream of batches: whole batches and a part of the next one. *)
Lemma encs_cut bs (n : nat) :
  exists i t, take n (encs bs) = encs (take i bs) ++ t /\
    (t = [] /\ i = length bs \/ exists b u, bs !! i = Some b /\ encode_batch (rb_seqno b) (rb_items b) = t ++ u /\ u <> []).
Proof.
  revert n; induction bs as [|b bs IH]; intros n; [exists 0%nat, []; rewrite firstn_nil; by split; [|left]|].
  change (encs (b :: bs)) with (encode_batch (rb_seqno b) (rb_items b) ++ encs bs). set (e := encode_batch _ _).
  destruct (le_lt_dec (length e) n) as [Hn|Hn].
  - rewrite take_app_ge by done. destruct (IH (n - length e)%nat) as (i & t & -> & Ht). exists (S i), t. cbn [take].
    change (encs (b :: take i bs)) with (e ++ encs (take i bs)). rewrite <- app_assoc. split; [done|].
    destruct Ht as [[-> ->]|Ht]; [by left|by right].
  - exists 0%nat, (take n e). rewrite take_app_le by lia. split; [done|]. right. exists b, (drop n e). split; [done|].
    split; [by rewrite take_drop|]. intros E. apply (f_equal length) in E. rewrite length_drop, length_nil in E. lia.
Qed.

(** The synced batches survive the cut. *)
Lemma encs_cut_synced bs (n k : nat) :
  (k <= length bs)%nat -> (n <= length (encs bs))%nat -> (length (encs (take k bs)) <= n)%nat ->
  exists i t, (k <= i)%nat /\ take n (encs bs) = encs (take i bs) ++ t /\
    (t = [] \/ exists b u, b ∈ bs /\ encode_batch (rb_seqno b) (rb_items b) = t ++ u /\ u <> []).
Proof.
  intros Hk Hn Hs. destruct (encs_cut bs n) as (i & t & E & Ht). exists i, t. split.
  - destruct Ht as [[_ ->]|(b & u & Hb & He & Hu)]; [done|]. apply not_lt. intros Hlt.
    apply (f_equal length) in E. rewrite length_take, length_app in E.
    assert (take k bs = take i bs ++ b :: drop (S i) (take k bs)) as Ek.
    { replace (take i bs) with (take i (take k bs)) by (rewrite take_take; f_equal; lia). symmetry. apply take_drop_middle. by rewrite lookup_take_lt. }
    rewrite Ek, encs_app, length_app in Hs. change (encs (b :: ?x)) with (encode_batch (rb_seqno b) (rb_items b) ++ encs x) in Hs.
    rewrite He, !length_app in Hs. destruct u; [done|]. cbn in Hs. lia.
  - split; [done|]. destruct Ht as [[-> _]|(b & u & Hb & He)]; [by left|right]. exists b, u. split; [by eapply list_elem_of_lookup_2|done].
Qed.

Lemma decode_segment_encs bs t :
  Forall batch_ok bs -> (t = [] \/ exists b u, batch_ok b /\ encode_batch (rb_seqno b) (rb_items b) = t ++ u /\ u <> []) ->
  decode_segment (encs bs ++ t) = bs.
Proof.
  intros Hbs Ht. assert (decode_batches (encs bs ++ t) = bs) as H.
  { destruct Ht as [->|(b & u & Hb & He & Hu)]; [|by apply (torn_tail bs b t u)].
    apply decode_batches_stream; [done|constructor|]. intros b r _ E. symmetry in E. apply app_eq_nil in E as [E _]. by apply enc_nonempty in E. }
  unfold decode_segment. destruct (encs bs ++ t) eqn:E; [|done]. apply app_eq_nil in E as [E _].
  destruct bs as [|b bs]; [done|]. change (encs (b :: bs)) with (encode_batch (rb_seqno b) (rb_items b) ++ encs bs) in E.
  apply app_eq_nil in E as [E _]. by apply enc_nonempty in E.
Qed.

Lemma map_to_list_filter_perm (P : bytes * WalFile -> Prop) `{!forall x, Decision (P x)} (d : WalDir) :
  map_to_list (filter P d) ≡ₚ filter P (map_to_list d).
Proof.
  rewrite map_filter_alt. apply map_to_list_to_map. eapply sublist_NoDup; [apply (NoDup_fst_map_to_list d)|apply fmap_sublist, sublist_filter].
Qed.

Lemma omap_filter_some {A B} (g : A -> option B) (l : list A) : omap g l = omap g (filter (fun x => is_Some (g x)) l).
Proof.
  induction l as [|x l IH]; [done|]. rewrite filter_cons. cbn [omap list_omap]. case_decide as Hs.
  - cbn [omap list_omap]. by rewrite IH.
  - apply eq_None_not_Some in Hs. by rewrite Hs.
Qed.

Definition file_of (bs : list RecoveredBatch) : WalFile := mkWalFile (encs bs) (blen (encs bs)).

(** The archived segments, by name and by number. *)
Definition named (segs : list (bytes * SeqNo)) (bss : list (list RecoveredBatch)) : list (bytes * WalFile) :=
  zip_with (fun s bs => (s.1, file_of bs)) segs bss.
Definition numbered (segs : list (bytes * SeqNo)) (bss : list (list RecoveredBatch)) : list (SeqNo * WalFile) :=
  zip_with (fun s bs => (s.2, file_of bs)) segs bss.

Lemma named_names d segs bss : Forall2 (seg_holds d) segs bss -> (named segs bss).*1 = segs.*1.
Proof. induction 1 as [|s bs segs bss _ _ IH]; [done|]. unfold named in *. cbn. by rewrite IH. Qed.

Lemma numbered_numbers d segs bss : Forall2 (seg_holds d) segs bss -> (numbered segs bss).*1 = segs.*2.
Proof. induction 1 as [|s bs segs bss _ _ IH]; [done|]. unfold numbered in *. cbn. by rewrite IH. Qed.

Lemma omap_named d segs bss : Forall2 (seg_holds d) segs bss ->
  omap (fun x : bytes * WalFile => (fun n => (n, x.2)) <$> segment_id x.1) (named segs bss) = numbered segs bss.
Proof.
  induction 1 as [|s bs segs bss (H1 & H2 & _) _ IH]; [done|]. unfold named, numbered in *. cbn. rewrite H1, segment_id_name by done. cbn.
  by rewrite IH.
Qed.

Lemma NoDup_strict (l : list Z) : StronglySorted Z.lt l -> NoDup l.
Proof.
  induction 1 as [|x l _ IH Hx]; constructor; [|done]. intros Hin. rewrite Forall_forall in Hx. specialize (Hx x Hin). lia.
Qed.

Lemma NoDup_names d segs bss :
  Forall2 (seg_holds d) segs bss -> StronglySorted Z.lt (snd <$> segs) -> NoDup (fst <$> segs).
Proof.
  intros Hs Ho. apply seg_name_ids in Hs. apply NoDup_strict in Ho. induction segs as [|s segs IH]; [constructor|].
  rewrite !fmap_cons in *. apply NoDup_cons in Ho as [Hne Ho]. apply Forall_cons in Hs as [[Hn Hu] Hs].
  constructor; [|auto]. rewrite list_elem_of_fmap. intros (s' & E & Hin). apply Hne. rewrite Forall_forall in Hs.
  destruct (Hs s' Hin) as [Hn' Hu']. rewrite Hn, Hn' in E. apply segment_name_inj in E; [|done|done]. rewrite E. by apply list_elem_of_fmap_2.
Qed.

Lemma named_lookup d segs bss name f :
  Forall2 (seg_holds d) segs bss -> (name, f) ∈ named segs bss -> d !! name = Some f.
Proof.
  induction 1 as [|s bs segs bss (_ & _ & Hd & _) _ IH]; [by intros ?%elem_of_nil|]. unfold named. cbn. intros [[= -> ->]|Hin]%elem_of_cons; auto.
Qed.

Lemma archived_named d segs bss :
  Forall2 (seg_holds d) segs bss -> StronglySorted Z.lt (snd <$> segs) ->
  (forall name, is_Some (segment_id name) -> is_Some (d !! name) -> name ∈ fst <$> segs) ->
  archived_segments d = numbered segs bss.
Proof.
  intros Hs Ho Honly. unfold archived_segments. set (g := fun x : bytes * WalFile => _).
  assert (filter (fun x => is_Some (g x)) d = list_to_map (named segs bss)) as Ef.
  { apply map_eq. intros name. apply option_eq. intros f. rewrite map_lookup_filter_Some, <- elem_of_list_to_map.
    2:{ rewrite (named_names _ _ _ Hs). by eapply NoDup_names. }
    split; [|intros Hin; split; [by eapply named_lookup|]].
    - intros [Hf Hg]. assert (is_Some (segment_id name)) as Hid by (unfold g in Hg; cbn in Hg; by apply fmap_is_Some in Hg).
      specialize (Honly name Hid (mk_is_Some _ _ Hf)). rewrite <- (named_names _ _ _ Hs), list_elem_of_fmap in Honly.
      destruct Honly as ([name' f'] & -> & Hin). cbn in *. pose proof (named_lookup _ _ _ _ _ Hs Hin). congruence.
    - pose proof (list_elem_of_fmap_2 fst _ _ Hin) as Hn. rewrite (named_names _ _ _ Hs), list_elem_of_fmap in Hn. destruct Hn as (s & E & Hin').
      cbn in E. apply seg_name_ids in Hs. rewrite Forall_forall in Hs. destruct (Hs s Hin') as [Hn Hu]. unfold g. cbn. rewrite E, Hn, segment_id_name by done. eauto. }
  assert (omap g (map_to_list d) ≡ₚ numbered segs bss) as Hp.
  { rewrite omap_filter_some, <- map_to_list_filter_perm, Ef, map_to_list_to_map.
    - by rewrite <- (omap_named _ _ _ Hs).
    - rewrite (named_names _ _ _ Hs). by eapply NoDup_names. }
  assert (StronglySorted (fun a b : SeqNo * WalFile => (a.1 <=? b.1) = true) (numbered segs bss)) as Hsort.
  { rewrite <- (numbered_numbers _ _ _ Hs) in Ho. clear -Ho. induction (numbered segs bss) as [|x l IH]; [constructor|].
    rewrite fmap_cons in Ho. apply StronglySorted_inv in Ho as [Ho Hx]. constructor; [auto|].
    apply Forall_forall. intros y Hy. rewrite Forall_forall in Hx. specialize (Hx y.1 ltac:(by apply list_elem_of_fmap_2)). cbn in Hx. lia. }
  assert (NoDup (numbered segs bss).*1) as Hnd by (rewrite (numbered_numbers _ _ _ Hs); by apply NoDup_strict).
  eapply StronglySorted_unique_strong; [|apply stable_sort_sorted; lia|exact Hsort|by rewrite stable_sort_perm].
  intros x y Hx Hy H1 H2. rewrite stable_sort_perm, Hp in Hx. apply Z.leb_le in H1, H2. assert (x.1 = y.1) as E by lia.
  clear -Hnd Hx Hy E. induction (numbered segs bss) as [|z l IH]; [by apply elem_of_nil in Hx|]. rewrite fmap_cons in Hnd. apply NoDup_cons in Hnd as [Hz Hnd].
  apply elem_of_cons in Hx as [->|Hx], Hy as [->|Hy]; [done| | |auto]; exfalso; apply Hz; [rewrite E|rewrite <- E]; by apply list_elem_of_fmap_2.
Qed.

Lemma crash_seg_holds d d' s bs : crash_file (d !! s.1) (d' !! s.1) -> seg_holds d s bs -> seg_holds d' s bs.
Proof.
  intros Hc (H1 & H2 & H3 & H4). split; [done|]. split; [done|]. split; [|done]. rewrite H3 in Hc.
  destruct Hc as (n & Hn & ->). cbn in *. assert (n = blen (encs bs)) as -> by lia. unfold blen. by rewrite Nat2Z.id, firstn_all.
Qed.

Lemma decode_numbered d segs bss :
  Forall2 (seg_holds d) segs bss -> Forall batch_ok (concat bss) ->
  (numbered segs bss ≫= fun x => decode_segment (wf_data x.2)) = concat bss.
Proof.
  induction 1 as [|s bs segs bss _ _ IH]; intros Hb; [done|]. cbn [concat] in *. apply Forall_app in Hb as [Hb Hbs].
  unfold numbered in *. cbn. rewrite IH by done. f_equal. rewrite <- (app_nil_r (encs bs)). apply decode_segment_encs; [done|by left].
Qed.

(** Only the segments and the active file matter. *)
Lemma recover_files w segs act k d' :
  wal_inv w segs act k -> (k <= length act)%nat ->
  (forall name, is_Some (segment_id name) \/ name = jw_name (w_writer w) -> crash_file (w_dir w !! name) (d' !! name)) ->
  exists i, (k <= i)%nat /\ recover_journal d' (jw_name (w_writer w)) = concat segs ++ take i act.
Proof.
  intros Hi Hk Hc. pose proof Hi as []. apply Forall_app in wi_batches0 as [Hb1 Hb2].
  assert (Forall2 (seg_holds d') (jw_segments (w_writer w)) segs) as Hs.
  { eapply Forall2_impl; [done|]. intros s bs Hsb. eapply crash_seg_holds; [|done]. apply Hc. left.
    destruct Hsb as (-> & Hu & _). rewrite segment_id_name by done. eauto. }
  assert (archived_segments d' = numbered (jw_segments (w_writer w)) segs) as Ea.
  { apply archived_named; [done|done|]. intros name Hid Hin. apply wi_only0; [done|]. specialize (Hc name (or_introl Hid)).
    destruct (w_dir w !! name); [eauto|]. cbn in Hc. rewrite Hc in Hin. by destruct Hin. }
  destruct wi_active0 as (data & Hf & Hd & Hl). specialize (Hc (jw_name (w_writer w)) (or_intror eq_refl)). rewrite Hf in Hc. destruct Hc as (n & Hn & Hf').
  cbn [wf_synced wf_data] in *. unfold recover_journal. rewrite Ea, (decode_numbered _ _ _ Hs Hb1), Hf'. cbn [wf_data].
  assert (take (Z.to_nat n) data = take (Z.to_nat n) (encs act)) as ->.
  { rewrite <- Hd, take_app_le; [done|]. unfold blen in *. lia. }
  destruct (encs_cut_synced act (Z.to_nat n) k) as (i & t & Hki & -> & Ht); [done| |unfold blen in *; lia|].
  { rewrite <- Hd, length_app. unfold blen in *. lia. }
  exists i. split; [done|]. f_equal. apply decode_segment_encs; [by apply Forall_take|].
  destruct Ht as [->|(b & u & Hb & He & Hu)]; [by left|right]. exists b, u. split; [|done]. rewrite Forall_forall in Hb2. auto.
Qed.

Lemma recover_inv w segs act k d' :
  wal_inv w segs act k -> (k <= length act)%nat -> crash_dir (w_dir w) d' ->
  exists i, (k <= i)%nat /\ recover_journal d' (jw_name (w_writer w)) = concat segs ++ take i act.
Proof. intros Hi Hk Hc. by apply recover_files. Qed.

(** A log that is synced as a whole. *)
Lemma recover_synced w segs act :
  wal_inv w segs act (length act) -> jw_buffer (w_writer w) = [] -> recover_journal (w_dir w) (jw_name (w_writer w)) = concat segs ++ act.
Proof.
  intros Hi Hb. destruct (recover_files w segs act (length act) (w_dir w) Hi) as (i & Hle & ->); [done| |by rewrite take_ge].
  assert (forall f, wf_synced f = blen (wf_data f) -> crash_file (Some f) (Some f)) as Hf.
  { intros f E. exists (wf_synced f). pose proof (blen_nonneg (wf_data f)). split; [lia|]. destruct f; cbn in *. subst. by rewrite blen_to_nat, firstn_all. }
  intros name [Hs| ->].
  - destruct (w_dir w !! name) as [f|] eqn:E; [|done]. apply Hf. pose proof (wi_only _ _ _ _ Hi name Hs ltac:(eauto)) as Hin.
    apply list_elem_of_fmap in Hin as (s & -> & Hin). pose proof (wi_segs _ _ _ _ Hi) as Hss. apply list_elem_of_lookup in Hin as [j Hj].
    destruct (Forall2_lookup_l _ _ _ _ _ Hss Hj) as (bs & _ & (_ & _ & E' & _)). rewrite E' in E. by injection E as <-.
  - destruct (wi_active _ _ _ _ Hi) as (data & E & Hd & _). rewrite E. apply Hf. cbn. rewrite firstn_all. rewrite Hb, app_nil_r in Hd. by rewrite Hd.
Qed.

(** ** Runs of the writer *)

Inductive WalOp :=
  | WalWrite (b : RecoveredBatch)
  | WalWriteBuffered (b : RecoveredBatch)
  | WalSync
  | WalPrune (watermark : SeqNo).

Definition wal_op (op : WalOp) : ST Wal unit :=
  match op with
  | WalWrite b => write_batch (rb_seqno b) (rb_items b)
  | WalWriteBuffered b => write_batch_buffered (rb_seqno b) (rb_items b)
  | WalSync => wal_sync
  | WalPrune wm => _ ← prune wm; mret tt
  end.

Fixpoint wal_run (ops : list WalOp) : ST Wal unit :=
  match ops with
  | [] => mret tt
  | op :: ops => _ ← wal_op op; wal_run ops
  end.

Definition written (ops : list WalOp) : list RecoveredBatch :=
  omap (fun op => match op with WalWrite b | WalWriteBuffered b => Some b | _ => None end) ops.

(** The operations that end with an fsync. *)
Definition syncs (mode : PersistMode) (op : WalOp) : bool :=
  match op with WalSync => true | WalWrite _ => bool_decide (mode = SyncData) | _ => false end.

Lemma wal_run_snoc ops op w : wal_run (ops ++ [op]) w = (_ ← wal_run ops; wal_op op) w.
Proof.
  revert w; induction ops as [|o ops IH]; intros w; cbn [app wal_run].
  - unfold mbind, ST_bind, mret, ST_ret. by destruct (wal_op op w) as [w' [[]| |]].
  - unfold mbind, ST_bind in *. destruct (wal_op o w) as [w' [[]| |]]; auto.
Qed.

Lemma written_app a b : written (a ++ b) = written a ++ written b.
Proof. apply omap_app. Qed.

Lemma sync_inv w segs act k :
  wal_inv w segs act k ->
  exists w' segs' act', wal_sync w = (w', Ok tt) /\ wal_inv w' segs' act' (length act') /\ concat segs' ++ act' = concat segs ++ act /\
    fixed (w_writer w') = fixed (w_writer w) /\ jw_active_max_seqno (w_writer w') = jw_active_max_seqno (w_writer w).
Proof.
  intros Hi. destruct (flush_sync_inv _ _ _ _ Hi) as (Hi' & Hb & Hm & Hq).
  destruct (maybe_roll_inv _ _ _ Hi' Hb) as (w' & segs' & act' & Hr & ? & ? & ? & ?). exists w', segs', act'. split; [exact Hr|].
  split; [done|]. split; [done|]. split; congruence.
Qed.

(** Every synced batch is in the safe part [s]. *)
Definition synced_in (mode : PersistMode) (ops : list WalOp) (s : list RecoveredBatch) : Prop :=
  forall ops1 op ops2, ops = ops1 ++ op :: ops2 -> syncs mode op = true -> written (ops1 ++ [op]) `prefix_of` s.

Lemma synced_in_snoc mode ops op s s' :
  synced_in mode ops s -> s `prefix_of` s' -> (syncs mode op = true -> s' = written (ops ++ [op])) -> synced_in mode (ops ++ [op]) s'.
Proof.
  intros Hs Hp Hop ops1 o ops2 E Ho. destruct ops2 as [|x ops2] using rev_ind.
  - apply app_inj_tail in E as [-> ->]. by rewrite Hop.
  - clear IHops2. rewrite app_comm_cons, app_assoc in E. apply app_inj_tail in E as [-> ->]. etransitivity; [|exact Hp]. by eapply Hs.
Qed.

(** The state after a run: what was dropped, what is in the log, how much of it is
    synced. *)
Record ran (name : bytes) (mode : PersistMode) (ops : list WalOp) (w : Wal) (dropped : list RecoveredBatch)
    (segs : list (list RecoveredBatch)) (act : list RecoveredBatch) (k : nat) : Prop := {
  rn_inv : wal_inv w segs act k;
  rn_k : (k <= length act)%nat;
  rn_fixed : fixed (w_writer w) = (name, mode);
  rn_written : written ops = dropped ++ concat segs ++ act;
  rn_max : jw_active_max_seqno (w_writer w) = default 0 (last (rb_seqno <$> written ops));
  rn_dropped b : b ∈ dropped -> exists wm, WalPrune wm ∈ ops /\ rb_seqno b <= wm;
  rn_synced : synced_in mode ops (dropped ++ concat segs ++ take k act);
}.

(** The next batch is well formed and its number is above the last one. *)
Definition next_ok (ops : list WalOp) (op : WalOp) : Prop :=
  match op with
  | WalWrite b | WalWriteBuffered b => batch_ok b /\ default 0 (last (rb_seqno <$> written ops)) < rb_seqno b
  | _ => True
  end.

Lemma dropped_snoc (dropped : list RecoveredBatch) ops op :
  (forall b, b ∈ dropped -> exists wm, WalPrune wm ∈ ops /\ rb_seqno b <= wm) ->
  forall b, b ∈ dropped -> exists wm, WalPrune wm ∈ ops ++ [op] /\ rb_seqno b <= wm.
Proof. intros H b Hb. destruct (H b Hb) as (wm & ? & ?). exists wm. split; [apply elem_of_app; by left|done]. Qed.

Lemma ran_write name mode ops w dropped segs act k b op :
  ran name mode ops w dropped segs act k -> next_ok ops (WalWriteBuffered b) -> written [op] = [b] ->
  exists w', write_batch_buffered (rb_seqno b) (rb_items b) w = (w', Ok tt) /\ fixed (w_writer w') = (name, mode) /\
    (syncs mode op = false -> ran name mode (ops ++ [op]) w' dropped segs (act ++ [b]) k) /\
    exists w'' segs' act', wal_sync w' = (w'', Ok tt) /\ ran name mode (ops ++ [op]) w'' dropped segs' act' (length act').
Proof.
  intros [] [Hb Hlt] Hop. rewrite <- rn_max0 in Hlt. destruct (write_batch_inv _ _ _ _ b rn_inv0 rn_k0 Hb Hlt) as (w' & Hw & Hi & Hm & Hq).
  assert (written (ops ++ [op]) = dropped ++ concat segs ++ (act ++ [b])) as Ew.
  { by rewrite written_app, rn_written0, Hop, <- !app_assoc. }
  assert (rb_seqno b = default 0 (last (rb_seqno <$> written (ops ++ [op])))) as El.
  { by rewrite written_app, fmap_app, last_app, Hop. }
  exists w'. split; [done|]. split; [congruence|]. split.
  - intros Hs. split; [done|rewrite length_app; lia|congruence|done|congruence|by apply dropped_snoc|].
    apply synced_in_snoc with (s := dropped ++ concat segs ++ take k act); [done| |congruence]. by rewrite take_app_le.
  - destruct (sync_inv _ _ _ _ Hi) as (w'' & segs' & act' & Hs & Hi' & He & Hm' & Hq'). exists w'', segs', act'. split; [done|].
    split; [done|done|congruence|by rewrite Ew, He|congruence|by apply dropped_snoc|].
    rewrite firstn_all, He, <- Ew. eapply synced_in_snoc; [done| |done]. rewrite Ew.
    apply prefix_app, prefix_app, prefix_app_r, prefix_take.
Qed.

Lemma ran_sync name mode ops w dropped segs act k op :
  ran name mode ops w dropped segs act k -> written [op] = [] ->
  exists w' segs' act', wal_sync w = (w', Ok tt) /\ ran name mode (ops ++ [op]) w' dropped segs' act' (length act').
Proof.
  intros [] Hop. destruct (sync_inv _ _ _ _ rn_inv0) as (w' & segs' & act' & Hs & Hi & He & Hm & Hq). exists w', segs', act'. split; [done|].
  assert (written (ops ++ [op]) = written ops) as Ew by (by rewrite written_app, Hop, app_nil_r).
  split; [done|done|congruence|by rewrite Ew, He|by rewrite Ew, Hq| |].
  - by apply dropped_snoc.
  - rewrite firstn_all, He, <- rn_written0. eapply synced_in_snoc; [done| |by rewrite Ew]. rewrite rn_written0.
    apply prefix_app, prefix_app, prefix_take.
Qed.


Lemma ran_op name mode ops w dropped segs act k op :
  ran name mode ops w dropped segs act k -> next_ok ops op ->
  exists w' dropped' segs' act' k', wal_op op w = (w', Ok tt) /\ ran name mode (ops ++ [op]) w' dropped' segs' act' k'.
Proof.
  intros Hr Hn. destruct op as [b|b| |wm]; cbn [wal_op].
  - destruct (ran_write _ _ _ _ _ _ _ _ b (WalWrite b) Hr Hn eq_refl) as (w' & Hw & Hfx & H1 & w'' & segs' & act' & Hs & H2).
    unfold write_batch. rewrite (ST_bind_Ok _ _ _ _ _ Hw). erewrite ST_bind_Ok by reflexivity.
    injection Hfx as _ ->.
    destruct mode; [exists w', dropped, segs, (act ++ [b]), k; split; [done|by apply H1]|]. by exists w'', dropped, segs', act', (length act').
  - destruct (ran_write _ _ _ _ _ _ _ _ b (WalWriteBuffered b) Hr Hn eq_refl) as (w' & Hw & _ & H1 & _).
    exists w', dropped, segs, (act ++ [b]), k. split; [done|by apply H1].
  - destruct (ran_sync _ _ _ _ _ _ _ _ WalSync Hr eq_refl) as (w' & segs' & act' & Hs & H). by exists w', dropped, segs', act', (length act').
  - destruct Hr. destruct (wal_prune_inv _ _ _ _ wm rn_inv0) as (w' & i & n & Hp & Hi & Hle & Ew).
    exists w', (dropped ++ concat (take i segs)), (drop i segs), act, k. split; [by rewrite (ST_bind_Ok _ _ _ _ _ Hp)|].
    assert (written (ops ++ [WalPrune wm]) = written ops) as Ewr by (by rewrite written_app, app_nil_r).
    assert (forall x, (dropped ++ concat (take i segs)) ++ concat (drop i segs) ++ x = dropped ++ concat segs ++ x) as Ec.
    { intros x. rewrite <- (take_drop i segs) at 3. by rewrite concat_app, <- !app_assoc. }
    split; [done|done|by rewrite Ew|by rewrite Ewr, Ec|by rewrite Ew, Ewr| |].
    + intros b. rewrite elem_of_app. intros [Hb|Hb]; [by apply dropped_snoc with dropped|]. exists wm. split; [apply elem_of_app; right; by left|].
      rewrite Forall_forall in Hle. auto.
    + rewrite Ec. by eapply synced_in_snoc.
Qed.

(** The batches are written in the order of their numbers. *)
Definition in_order (ops : list WalOp) : Prop :=
  Forall batch_ok (written ops) /\ StronglySorted Z.lt (0 :: (rb_seqno <$> written ops)).

Lemma in_order_next ops op : in_order (ops ++ [op]) -> in_order ops /\ next_ok ops op.
Proof.
  intros [Hb Ho]. rewrite written_app in *. apply Forall_app in Hb as [Hb Hb']. rewrite fmap_app, app_comm_cons in Ho.
  split; [split; [done|by apply StronglySorted_app_1_l in Ho]|].
  assert (forall b, written [op] = [b] -> batch_ok b /\ default 0 (last (rb_seqno <$> written ops)) < rb_seqno b) as H.
  { intros b E. rewrite E in *. split; [by inversion Hb'|].
    eapply (StronglySorted_app_1_elem_of _ _ _ _ _ Ho); [|by left].
    destruct (last (rb_seqno <$> written ops)) as [x|] eqn:El; [right; by apply last_Some_elem_of|by left]. }
  destruct op; cbn; auto.
Qed.

Lemma ran_all name mode limit d ops :
  segment_id name = None -> 0 < limit -> in_order ops ->
  exists w dropped segs act k, wal_run ops (wal_create name mode limit d) = (w, Ok tt) /\ ran name mode ops w dropped segs act k.
Proof.
  intros Hn Hl. induction ops as [|op ops IH] using rev_ind; intros Ho.
  - eexists _, [], [], [], 0%nat. split; [done|]. split; [by apply wal_inv_create|done|done|done|done|by intros ? ?%elem_of_nil|].
    intros ops1 o ops2 E. by destruct ops1.
  - apply in_order_next in Ho as [Ho Hop]. destruct (IH Ho) as (w & dropped & segs & act & k & Hw & Hr).
    destruct (ran_op _ _ _ _ _ _ _ _ op Hr Hop) as (w' & dropped' & segs' & act' & k' & Hw' & Hr').
    exists w', dropped', segs', act', k'. split; [|done]. rewrite wal_run_snoc. by rewrite (ST_bind_Ok _ _ _ _ _ Hw).
Qed.

(** C33: the log keeps what was synced. Batches written in the order of their
    numbers, through any sequence of buffered writes, synced writes, syncs (which
    roll the active segment) and prunes, never fail to reach the log; and when the
    process dies at any point, leaving each file cut anywhere after its last
    fsync, recovery returns, in order and without a gap, batches that were
    written: all of them from the first one not pruned up to some point at or
    after the last fsync. What is missing in front was below the watermark of a
    prune. *)
Theorem wal_recovers name mode limit d ops :
  segment_id name = None -> 0 < limit -> in_order ops ->
  exists w, wal_run ops (wal_create name mode limit d) = (w, Ok tt) /\
    forall d', crash_dir (w_dir w) d' ->
    exists dropped lost, written ops = dropped ++ recover_journal d' name ++ lost /\
      (forall b, b ∈ dropped -> exists wm, WalPrune wm ∈ ops /\ rb_seqno b <= wm) /\
      synced_in mode ops (dropped ++ recover_journal d' name).
Proof.
  intros Hn Hl Ho. destruct (ran_all name mode limit d ops Hn Hl Ho) as (w & dropped & segs & act & k & Hw & Hr). exists w. split; [done|].
  intros d' Hc. destruct Hr. destruct (recover_inv _ _ _ _ _ rn_inv0 rn_k0 Hc) as (i & Hki & E). injection rn_fixed0 as Enm _.
  rewrite Enm in E. exists dropped, (drop i act). rewrite E, <- !app_assoc, take_drop. split; [done|]. split; [done|].
  intros ops1 op ops2 Eo Hs. etransitivity; [by apply (rn_synced0 _ _ _ Eo Hs)|]. apply prefix_app, prefix_app.
  replace (take k act) with (take k (take i act)) by (rewrite take_take; f_equal; lia). apply prefix_take.
Qed.

End wal_lemmas.

(** ** Witnesses *)

#[local] Existing Instance sample_xxh3.

Definition wal_ops : list WalOp :=
  [WalWriteBuffered sample_batch1; WalSync; WalWriteBuffered sample_batch2; WalSync; WalPrune 3; WalWrite (mkBatch 5 [])].

Lemma wal_ops_in_order : in_order wal_ops.
Proof.
  split; [apply Forall_cons; split; [apply sample_batches_ok|]; apply Forall_cons; split; [apply sample_batches_ok|]|].
  - apply Forall_singleton. split; [done|]. split; [done|constructor].
  - repeat constructor.
Qed.

(** Segments of 40 bytes: the first one is rolled and pruned, the second one kept,
    and the batch in the buffer is lost. *)
Lemma wal_recovers_witness :
  exists w, wal_run wal_ops (wal_create (str "journal.wal") Buffer 40 ∅) = (w, Ok tt) /\
    exists dropped lost, written wal_ops = dropped ++ recover_journal (w_dir w) (str "journal.wal") ++ lost /\
      recover_journal (w_dir w) (str "journal.wal") = [sample_batch2] /\
      synced_in Buffer wal_ops (dropped ++ recover_journal (w_dir w) (str "journal.wal")).
Proof.
  destruct (wal_recovers (str "journal.wal") Buffer 40 ∅ wal_ops) as (w & Hw & H); [reflexivity|lia|apply wal_ops_in_order|].
  exists w. split; [exact Hw|].
  assert (w_dir w = w_dir (fst (wal_run wal_ops (wal_create (str "journal.wal") Buffer 40 ∅)))) as Ed by (rewrite Hw; reflexivity).
  assert (recover_journal (w_dir w) (str "journal.wal") = [sample_batch2]) as Er by (rewrite Ed; vm_compute; reflexivity).
  set (cut := fmap (fun f => mkWalFile (wf_data f) (blen (wf_data f))) (w_dir w) : WalDir).
  destruct (H cut) as (dropped & lost & H1 & _ & H3).
  { intros name. unfold cut. rewrite lookup_fmap. destruct (w_dir w !! name) as [f|] eqn:E; [|reflexivity]. cbn.
    exists (blen (wf_data f)). split; [|by rewrite blen_to_nat, firstn_all].
    assert (bool_decide (map_Forall (fun _ f => wf_synced f <= blen (wf_data f)) (w_dir w)) = true) as Hf by (rewrite Ed; vm_compute; reflexivity).
    apply bool_decide_eq_true in Hf. specialize (Hf name f E). cbn in Hf. pose proof (blen_nonneg (wf_data f)). lia. }
  assert (recover_journal cut (str "journal.wal") = recover_journal (w_dir w) (str "journal.wal")) as Ec.
  { unfold cut. rewrite Ed. vm_compute. reflexivity. }
  rewrite Ec in *. exists dropped, lost. auto.
Defined.

(** Out of order the names of two segments collide: a batch with a lower number
    that fills the next segment rolls it over the previous one, and the synced
    batch in that one is gone. *)
Lemma wal_roll_overwrites :
  let b2 := mkBatch 2 [mkBatchItem 0 [97] [1] Value] in let b1 := mkBatch 1 [mkBatchItem 0 [98] [2] Value] in
  exists w, wal_run [WalWriteBuffered b2; WalSync; WalWriteBuffered b1; WalSync] (wal_create (str "journal.wal") SyncData 8 ∅) = (w, Ok tt) /\
    recover_journal (w_dir w) (str "journal.wal") = [b1].
Proof. eexists. split; [vm_compute; reflexivity|]. vm_compute. reflexivity. Qed.
