(* ===== verification/GroupCommit.v ===== *)
(** * Group commit (turba-engine/src/engine.rs, [WriteBatch::commit] and the sync thread)

    Writers append to the log's buffer under the journal lock, enroll in the
    pending epoch and wait on a condition variable until the sync thread has
    raised the synced epoch to theirs. Every atomic access, lock operation, wait
    and notification is a step of its own; writers, the sync thread and [persist]
    interleave in any order. A failed fsync poisons the log, and what was in the
    buffer is lost: a later fsync may succeed without it.

    Batches are of any type; the log is the list of the batches on disk and the
    list of those in the buffer. *)

From S2P Require Import Prelude.

Section group_commit.
Context {Batch : Type}.

(** Whether [persist] may meet a failing fsync. *)
Variable persist_may_fail : bool.

(** Where a call of [commit] stands. *)
Inductive Writer :=
  | WCalled (b : Batch)
  | WAdmitted (b : Batch)
  | WWrote (b : Batch)
  | WEnrolled (b : Batch) (epoch : Z)
  | WLooping (b : Batch) (epoch : Z)
  | WUnsynced (b : Batch) (epoch : Z)
  | WWaiting (b : Batch) (epoch : Z)
  | WParked (b : Batch) (epoch : Z)
  | WReturned (b : Batch) (ok : bool).

(** Where the sync thread stands in its loop. *)
Inductive SyncThread :=
  | SLoop
  | SPending (pending : Z)
  | SLocked (pending : Z)
  | SSynced (pending : Z)
  | SStored
  | SFailed.

Record GroupSync := mkGroupSync {
  synced_epoch : Z;
  pending_epoch : Z;
  poisoned : bool;
  gs_lock : bool;
  journal_lock : bool;
  disk : list Batch;
  buffer : list Batch;
  thread : SyncThread;
  writers : gmap nat Writer;
}.

Definition set_writer (w : nat) (s : Writer) (g : GroupSync) : GroupSync :=
  mkGroupSync (synced_epoch g) (pending_epoch g) (poisoned g) (gs_lock g) (journal_lock g) (disk g) (buffer g) (thread g)
    (<[w := s]> (writers g)).
Definition set_thread (s : SyncThread) (g : GroupSync) : GroupSync :=
  mkGroupSync (synced_epoch g) (pending_epoch g) (poisoned g) (gs_lock g) (journal_lock g) (disk g) (buffer g) s (writers g).
Definition set_gs_lock (l : bool) (g : GroupSync) : GroupSync :=
  mkGroupSync (synced_epoch g) (pending_epoch g) (poisoned g) l (journal_lock g) (disk g) (buffer g) (thread g) (writers g).
Definition set_journal (l : bool) (d b : list Batch) (g : GroupSync) : GroupSync :=
  mkGroupSync (synced_epoch g) (pending_epoch g) (poisoned g) (gs_lock g) l d b (thread g) (writers g).
Definition set_epochs (synced pending : Z) (g : GroupSync) : GroupSync :=
  mkGroupSync synced pending (poisoned g) (gs_lock g) (journal_lock g) (disk g) (buffer g) (thread g) (writers g).
Definition set_poisoned (g : GroupSync) : GroupSync :=
  mkGroupSync (synced_epoch g) (pending_epoch g) true (gs_lock g) (journal_lock g) (disk g) (buffer g) (thread g) (writers g).

(** [notify_all]: the parked writers go back to the top of their loop, once they
    get the lock. *)
Definition wake (s : Writer) : Writer := match s with WParked b e => WEnrolled b e | s => s end.
Definition notify_all (g : GroupSync) : GroupSync :=
  mkGroupSync (synced_epoch g) (pending_epoch g) (poisoned g) (gs_lock g) (journal_lock g) (disk g) (buffer g) (thread g)
    (wake <$> writers g).

Inductive gstep : GroupSync -> GroupSync -> Prop :=
  (** [commit]: the poison check, the write and the enrolment under the journal
      lock, the loop under [gs.lock]. *)
  | g_call g w b : writers g !! w = None -> gstep g (set_writer w (WCalled b) g)
  | g_refuse g w b : writers g !! w = Some (WCalled b) -> poisoned g = true -> gstep g (set_writer w (WReturned b false) g)
  | g_admit g w b : writers g !! w = Some (WCalled b) -> poisoned g = false -> gstep g (set_writer w (WAdmitted b) g)
  | g_write g w b :
      writers g !! w = Some (WAdmitted b) -> journal_lock g = false ->
      gstep g (set_writer w (WWrote b) (set_journal true (disk g) (buffer g ++ [b]) g))
  | g_enroll g w b :
      writers g !! w = Some (WWrote b) ->
      gstep g (set_writer w (WEnrolled b (pending_epoch g + 1))
        (set_journal false (disk g) (buffer g) (set_epochs (synced_epoch g) (pending_epoch g + 1) g)))
  | g_lock g w b e :
      writers g !! w = Some (WEnrolled b e) -> gs_lock g = false -> gstep g (set_writer w (WLooping b e) (set_gs_lock true g))
  | g_done g w b e :
      writers g !! w = Some (WLooping b e) -> e <= synced_epoch g -> gstep g (set_writer w (WReturned b true) (set_gs_lock false g))
  | g_unsynced g w b e :
      writers g !! w = Some (WLooping b e) -> synced_epoch g < e -> gstep g (set_writer w (WUnsynced b e) g)
  | g_fail g w b e :
      writers g !! w = Some (WUnsynced b e) -> poisoned g = true -> gstep g (set_writer w (WReturned b false) (set_gs_lock false g))
  | g_wait g w b e :
      writers g !! w = Some (WUnsynced b e) -> poisoned g = false -> gstep g (set_writer w (WWaiting b e) g)
  | g_park g w b e :
      writers g !! w = Some (WWaiting b e) -> gstep g (set_writer w (WParked b e) (set_gs_lock false g))
  (** The sync thread: it reads the pending epoch, takes the journal lock if it is
      free, syncs, publishes the epoch it has read and wakes the writers. *)
  | g_read g : thread g = SLoop -> poisoned g = false -> gstep g (set_thread (SPending (pending_epoch g)) g)
  | g_skip g p : thread g = SPending p -> p <= synced_epoch g \/ journal_lock g = true -> gstep g (set_thread SLoop g)
  | g_take g p :
      thread g = SPending p -> synced_epoch g < p -> journal_lock g = false ->
      gstep g (set_thread (SLocked p) (set_journal true (disk g) (buffer g) g))
  | g_fsync g p :
      thread g = SLocked p -> gstep g (set_thread (SSynced p) (set_journal true (disk g ++ buffer g) [] g))
  | g_publish g p : thread g = SSynced p -> gstep g (set_thread SStored (set_epochs p (pending_epoch g) g))
  | g_notify g :
      thread g = SStored -> gstep g (set_thread SLoop (set_journal false (disk g) (buffer g) (notify_all g)))
  | g_fsync_error g p : thread g = SLocked p -> gstep g (set_thread SFailed (set_poisoned (set_journal true (disk g) [] g)))
  | g_notify_error g :
      thread g = SFailed -> gs_lock g = false -> gstep g (set_thread SLoop (set_journal false (disk g) (buffer g) (notify_all g)))
  (** [persist], as one step: the sync under the journal lock, or the poison and
      the notification. *)
  | g_persist g : journal_lock g = false -> gstep g (set_journal false (disk g ++ buffer g) [] g)
  | g_persist_error g :
      persist_may_fail = true -> journal_lock g = false -> gs_lock g = false ->
      gstep g (notify_all (set_poisoned (set_journal false (disk g) [] g))).

Definition group_start : GroupSync := mkGroupSync 0 0 false false false [] [] SLoop ∅.

Inductive greachable : GroupSync -> Prop :=
  | gr_start : greachable group_start
  | gr_step g g' : greachable g -> gstep g g' -> greachable g'.

(** ** Safety *)

(** A writer with its epoch. *)
Definition enrolled (s : Writer) : option (Batch * Z) :=
  match s with
  | WEnrolled b e | WLooping b e | WUnsynced b e | WWaiting b e | WParked b e => Some (b, e)
  | _ => None
  end.

Record group_inv (g : GroupSync) : Prop := {
  (** Who has enrolled has written, and its epoch is at most the pending one. *)
  gi_enrolled w s b e : writers g !! w = Some s -> enrolled s = Some (b, e) ->
    e <= pending_epoch g /\ (poisoned g = false -> b ∈ disk g ++ buffer g) /\ (e <= synced_epoch g -> b ∈ disk g) /\
    match thread g with SSynced p => e <= p -> b ∈ disk g | _ => True end;
  gi_wrote w b : writers g !! w = Some (WWrote b) -> journal_lock g = true /\ b ∈ disk g ++ buffer g;
  gi_one w w' b b' : writers g !! w = Some (WWrote b) -> writers g !! w' = Some (WWrote b') -> w = w';
  gi_pending : match thread g with SPending p | SLocked p | SSynced p => p <= pending_epoch g | _ => True end;
  gi_locked : match thread g with
    | SLocked _ | SSynced _ | SStored | SFailed => journal_lock g = true /\ forall w b, writers g !! w <> Some (WWrote b)
    | _ => True end;
  gi_poisoned : poisoned g = true -> match thread g with SPending _ | SLocked _ | SSynced _ => False | _ => True end;
  gi_epochs : synced_epoch g <= pending_epoch g;
  gi_returned w b : writers g !! w = Some (WReturned b true) -> b ∈ disk g;
}.

(** A writer is looked up after one has moved. *)
Lemma lookup_moved (m : gmap nat Writer) w s w' s' :
  <[w := s]> m !! w' = Some s' -> w' = w /\ s' = s \/ w' <> w /\ m !! w' = Some s'.
Proof. rewrite lookup_insert_Some. naive_solver. Qed.

Lemma lookup_woken (m : gmap nat Writer) w s :
  wake <$> m !! w = Some s -> exists s0, m !! w = Some s0 /\ s = wake s0.
Proof. intros H. apply fmap_Some in H as (s0 & ? & ->). eauto. Qed.

Lemma enrolled_wake s : enrolled (wake s) = enrolled s.
Proof. by destruct s. Qed.

(** The writers of [g'] are those of [g], but for one, which has moved within its
    loop. *)
Lemma writer_step g w s s' l :
  group_inv g -> writers g !! w = Some s -> enrolled s' = enrolled s \/ enrolled s' = None ->
  (forall b, s' <> WWrote b) -> (forall b, s' <> WReturned b true) ->
  group_inv (set_writer w s' (set_gs_lock l g)).
Proof.
  intros [] Hw He Hn1 Hn2. split; cbn; try done.
  - intros w' s0 b e [[-> ->]|[? Hl]]%lookup_moved E; [|by eapply gi_enrolled0]. destruct He as [He|He]; rewrite He in E; [by eapply gi_enrolled0|done].
  - intros w' b [[-> E]|[? Hl]]%lookup_moved; [by destruct (Hn1 b)|by eapply gi_wrote0].
  - intros w1 w2 b1 b2 [[-> E]|[? H1]]%lookup_moved [[-> E']|[? H2]]%lookup_moved; [by destruct (Hn1 b1)..|by destruct (Hn1 b2)|by eapply gi_one0].
  - destruct (thread g); try done; (destruct gi_locked0 as [? Hnw]; split; [done|]);
      intros w' b [[-> E]|[? Hl]]%lookup_moved; (by destruct (Hn1 b)) || by eapply Hnw.
  - intros w' b [[-> E]|[? Hl]]%lookup_moved; [by destruct (Hn2 b)|by eapply gi_returned0].
Qed.

Lemma set_gs_lock_same g : set_gs_lock (gs_lock g) g = g.
Proof. by destruct g. Qed.

Lemma writer_step' g w s s' :
  group_inv g -> writers g !! w = Some s -> enrolled s' = enrolled s \/ enrolled s' = None ->
  (forall b, s' <> WWrote b) -> (forall b, s' <> WReturned b true) -> group_inv (set_writer w s' g).
Proof. intros. rewrite <- (set_gs_lock_same g) at 1. by eapply writer_step. Qed.

Lemma returned_step g w b e s :
  group_inv g -> writers g !! w = Some s -> enrolled s = Some (b, e) -> e <= synced_epoch g ->
  group_inv (set_writer w (WReturned b true) (set_gs_lock false g)).
Proof.
  intros [] Hw He Hle. split; cbn; try done.
  - intros w' s0 b' e' [[-> ->]|[? Hl]]%lookup_moved E; [done|by eapply gi_enrolled0].
  - intros w' b' [[-> E]|[? Hl]]%lookup_moved; [done|by eapply gi_wrote0].
  - intros w1 w2 b1 b2 [[-> E]|[? H1]]%lookup_moved [[-> E']|[? H2]]%lookup_moved; [done..|by eapply gi_one0].
  - destruct (thread g); try done; (destruct gi_locked0 as [? Hnw]; split; [done|]); intros w' b' [[-> E]|[? Hl]]%lookup_moved; done || by eapply Hnw.
  - intros w' b' [[-> E]|[? Hl]]%lookup_moved; [|by eapply gi_returned0]. injection E as ->. by apply (gi_enrolled0 w s b e Hw He).
Qed.

Lemma wake_inv g :
  group_inv g -> (forall w b, writers g !! w <> Some (WWrote b)) ->
  group_inv (set_thread SLoop (set_journal false (disk g) (buffer g) (notify_all g))).
Proof.
  intros [] Hnw. split; cbn; try done.
  - intros w s b e Hl E. rewrite lookup_fmap in Hl. apply lookup_woken in Hl as (s0 & Hl & ->). rewrite enrolled_wake in E.
    destruct (gi_enrolled0 w s0 b e Hl E) as (H1 & H2 & H3 & _). done.
  - intros w b Hl. rewrite lookup_fmap in Hl. apply lookup_woken in Hl as (s0 & Hl & E). destruct s0; cbn in E; try done. by destruct (Hnw w b0).
  - intros w1 w2 b1 b2 Hl. rewrite lookup_fmap in Hl. apply lookup_woken in Hl as (s0 & Hl & E). destruct s0; cbn in E; try done. by destruct (Hnw w1 b).
  - intros w b Hl. rewrite lookup_fmap in Hl. apply lookup_woken in Hl as (s0 & Hl & E). destruct s0; cbn in E; try done. simplify_eq. eauto.
Qed.

Lemma group_step_inv g g' : persist_may_fail = false -> gstep g g' -> group_inv g -> group_inv g'.
Proof.
  intros Hpf Hs Hi. destruct Hs as [g w b Hw|g w b Hw Hp|g w b Hw Hp|g w b Hw Hj|g w b Hw|g w b e Hw Hl|g w b e Hw Hle|g w b e Hw Hlt
    |g w b e Hw Hp|g w b e Hw Hp|g w b e Hw|g Ht Hp|g p Ht _|g p Ht Hlt Hj|g p Ht|g p Ht|g Ht|g p Ht|g Ht Hl|g Hj|g Hp].
  - destruct Hi. split; cbn; try done.
    + intros w' s0 b' e' [[-> ->]|[? Hl]]%lookup_moved E; [done|by eapply gi_enrolled0].
    + intros w' b' [[-> E]|[? Hl]]%lookup_moved; [done|by eapply gi_wrote0].
    + intros w1 w2 b1 b2 [[-> E]|[? H1]]%lookup_moved [[-> E']|[? H2]]%lookup_moved; [done..|by eapply gi_one0].
    + destruct (thread g); try done; (destruct gi_locked0 as [? Hnw]; split; [done|]); intros w' b' [[-> E]|[? Hl]]%lookup_moved; done || by eapply Hnw.
    + intros w' b' [[-> E]|[? Hl]]%lookup_moved; [done|by eapply gi_returned0].
  - eapply writer_step'; [done|done|by auto|done|done].
  - eapply writer_step'; [done|done|by auto|done|done].
  - pose proof Hi as []. assert (thread g = SLoop \/ exists p, thread g = SPending p) as Ht.
    { destruct (thread g); eauto; destruct gi_locked0; congruence. }
    split; cbn; try done.
    + intros w' s0 b' e' [[-> ->]|[? Hl]]%lookup_moved E; [done|]. destruct (gi_enrolled0 _ _ _ _ Hl E) as (H1 & H2 & H3 & H4).
      split; [done|]. split; [|done]. intros Hp. specialize (H2 Hp). rewrite app_assoc, elem_of_app. by left.
    + intros w' b' [[-> [= ->]]|[? Hl]]%lookup_moved; (split; [done|]); [rewrite !elem_of_app; right; right; by left|].
      destruct (gi_wrote0 _ _ Hl) as [_ ?]. rewrite app_assoc, elem_of_app. by left.
    + intros w1 w2 b1 b2 [[-> E]|[? H1]]%lookup_moved [[-> E']|[? H2]]%lookup_moved; [done|..]; exfalso;
        [apply gi_wrote0 in H2 as [? _]|apply gi_wrote0 in H1 as [? _]..]; congruence.
    + by destruct Ht as [->|[p ->]].
    + intros w' b' [[-> E]|[? Hl]]%lookup_moved; [done|by eapply gi_returned0].
  - pose proof Hi as []. destruct (gi_wrote0 _ _ Hw) as [Hj Hb].
    assert (thread g = SLoop \/ exists p, thread g = SPending p) as Ht.
    { destruct (thread g); eauto; destruct gi_locked0 as [_ Hn]; by destruct (Hn w b). }
    split; cbn; try done.
    + intros w' s0 b' e' [[-> ->]|[? Hl]]%lookup_moved E.
      * injection E as <- <-. split; [lia|]. split; [done|]. split; [lia|]. by destruct Ht as [->|[p ->]].
      * destruct (gi_enrolled0 _ _ _ _ Hl E) as (H1 & H2 & H3 & H4). split; [lia|done].
    + intros w' b' [[-> E]|[? Hl]]%lookup_moved; [done|]. by pose proof (gi_one0 _ _ _ _ Hl Hw).
    + intros w1 w2 b1 b2 [[-> E]|[? H1]]%lookup_moved [[-> E']|[? H2]]%lookup_moved; [done..|by eapply gi_one0].
    + destruct Ht as [->|[p Ep]]; [done|]. rewrite Ep in *. lia.
    + by destruct Ht as [->|[p ->]].
    + lia.
    + intros w' b' [[-> E]|[? Hl]]%lookup_moved; [done|by eapply gi_returned0].
  - eapply writer_step; [done|done|by auto|done|done].
  - by eapply returned_step.
  - eapply writer_step'; [done|done|by auto|done|done].
  - eapply writer_step; [done|done|by auto|done|done].
  - eapply writer_step'; [done|done|by auto|done|done].
  - eapply writer_step; [done|done|by auto|done|done].
  - destruct Hi. split; cbn; try done; [|congruence]. intros w' s0 b e Hl E. destruct (gi_enrolled0 _ _ _ _ Hl E) as (H1 & H2 & H3 & _). done.
  - destruct Hi. split; cbn; try done. intros w' s0 b e Hl E. destruct (gi_enrolled0 _ _ _ _ Hl E) as (H1 & H2 & H3 & _). done.
  - destruct Hi. rewrite Ht in *. split; cbn; try done.
    + intros w' b Hl. destruct (gi_wrote0 _ _ Hl). congruence.
    + split; [done|]. intros w' b Hl. destruct (gi_wrote0 _ _ Hl). congruence.
  - destruct Hi. rewrite Ht in *. assert (poisoned g = false) as Hp by (destruct (poisoned g); [by destruct (gi_poisoned0 eq_refl)|done]).
    split; cbn; try done.
    + intros w' s0 b e Hl E. destruct (gi_enrolled0 _ _ _ _ Hl E) as (H1 & H2 & H3 & _). rewrite app_nil_r. split; [done|]. split; [done|].
      split; [|auto]. intros He. rewrite elem_of_app. left. auto.
    + intros w' b Hl. destruct gi_locked0 as [_ Hn]. by destruct (Hn w' b).
    + by destruct gi_locked0.
    + intros w' b Hl. rewrite elem_of_app. left. eauto.
  - destruct Hi. rewrite Ht in *. split; cbn; try done.
    intros w' s0 b e Hl E. destruct (gi_enrolled0 _ _ _ _ Hl E) as (H1 & H2 & H3 & H4). done.
  - apply wake_inv; [done|]. destruct Hi. rewrite Ht in *. by destruct gi_locked0.
  - destruct Hi. rewrite Ht in *. destruct gi_locked0 as [Hj Hn]. split; cbn; try done.
    + intros w' s0 b e Hl E. destruct (gi_enrolled0 _ _ _ _ Hl E) as (H1 & H2 & H3 & _). done.
    + intros w' b Hl. by destruct (Hn w' b).
  - apply wake_inv; [done|]. destruct Hi. rewrite Ht in *. by destruct gi_locked0.
  - pose proof Hi as []. split; cbn; try done.
    + intros w' s0 b e Hl E. destruct (gi_enrolled0 _ _ _ _ Hl E) as (H1 & H2 & H3 & H4). rewrite app_nil_r. split; [done|]. split; [done|].
      split; [intros He; rewrite elem_of_app; left; auto|]. destruct (thread g); try done. intros He. rewrite elem_of_app. left. auto.
    + intros w' b Hl. destruct (gi_wrote0 _ _ Hl). congruence.
    + destruct (thread g); try done; destruct gi_locked0; congruence.
    + intros w' b Hl. rewrite elem_of_app. left. eauto.
  - congruence.
Qed.

Lemma group_start_inv : group_inv group_start.
Proof. by split. Qed.

Lemma greachable_inv g : persist_may_fail = false -> greachable g -> group_inv g.
Proof. intros Hp. induction 1 as [|g g' _ IH Hs]; [apply group_start_inv|by eapply group_step_inv]. Qed.

(** C34: an acknowledged commit is on disk. In every interleaving of writers, the
    sync thread and successful [persist] calls, with fsyncs of the sync thread
    failing at any time and losing the buffer, a commit that has returned
    success has its batch in the synced part of the log. *)
Theorem acked_is_durable g w b :
  persist_may_fail = false -> greachable g -> writers g !! w = Some (WReturned b true) -> b ∈ disk g.
Proof. intros Hp Hr. by apply (gi_returned _ (greachable_inv _ Hp Hr)). Qed.

End group_commit.

(** ** Concrete runs *)

(** Who moves next. *)
Inductive Move :=
  | Call (w : nat) (b : nat)
  | Advance (w : nat)
  | Sync
  | PersistFails.

Definition advance (w : nat) (g : GroupSync (Batch := nat)) : option GroupSync :=
  match writers g !! w with
  | Some (WCalled b) => Some (set_writer w (if poisoned g then WReturned b false else WAdmitted b) g)
  | Some (WAdmitted b) => if journal_lock g then None else Some (set_writer w (WWrote b) (set_journal true (disk g) (buffer g ++ [b]) g))
  | Some (WWrote b) => Some (set_writer w (WEnrolled b (pending_epoch g + 1))
      (set_journal false (disk g) (buffer g) (set_epochs (synced_epoch g) (pending_epoch g + 1) g)))
  | Some (WEnrolled b e) => if gs_lock g then None else Some (set_writer w (WLooping b e) (set_gs_lock true g))
  | Some (WLooping b e) =>
    Some (if e <=? synced_epoch g then set_writer w (WReturned b true) (set_gs_lock false g) else set_writer w (WUnsynced b e) g)
  | Some (WUnsynced b e) =>
    Some (if poisoned g then set_writer w (WReturned b false) (set_gs_lock false g) else set_writer w (WWaiting b e) g)
  | Some (WWaiting b e) => Some (set_writer w (WParked b e) (set_gs_lock false g))
  | _ => None
  end.

Definition move (m : Move) (g : GroupSync (Batch := nat)) : option GroupSync :=
  match m with
  | Call w b => match writers g !! w with None => Some (set_writer w (WCalled b) g) | _ => None end
  | Advance w => advance w g
  | Sync =>
    match thread g with
    | SLoop => if poisoned g then None else Some (set_thread (SPending (pending_epoch g)) g)
    | SPending p => if (p <=? synced_epoch g) || journal_lock g then Some (set_thread SLoop g)
                    else Some (set_thread (SLocked p) (set_journal true (disk g) (buffer g) g))
    | SLocked p => Some (set_thread (SSynced p) (set_journal true (disk g ++ buffer g) [] g))
    | SSynced p => Some (set_thread SStored (set_epochs p (pending_epoch g) g))
    | SStored => Some (set_thread SLoop (set_journal false (disk g) (buffer g) (notify_all g)))
    | SFailed => None
    end
  | PersistFails => if journal_lock g || gs_lock g then None else Some (notify_all (set_poisoned (set_journal false (disk g) [] g)))
  end.

Definition moves (ms : list Move) (g : GroupSync) : option GroupSync := foldl (fun o m => o ≫= move m) (Some g) ms.

Lemma move_step pf m g g' : (m = PersistFails -> pf = true) -> move m g = Some g' -> gstep pf g g'.
Proof.
  intros Hp H. destruct m as [w b|w| |]; cbn [move] in H.
  - destruct (writers g !! w) eqn:E; simplify_eq. by apply g_call.
  - unfold advance in H. destruct (writers g !! w) as [[]|] eqn:E; try done.
    + destruct (poisoned g) eqn:Ep; simplify_eq; [by apply g_refuse|by apply g_admit].
    + destruct (journal_lock g) eqn:Ej; simplify_eq. by apply g_write.
    + simplify_eq. by apply g_enroll.
    + destruct (gs_lock g) eqn:Ej; simplify_eq. by apply g_lock.
    + destruct (Z.leb_spec epoch (synced_epoch g)); simplify_eq; [by eapply g_done|by apply g_unsynced].
    + destruct (poisoned g) eqn:Ep; simplify_eq; [by eapply g_fail|by apply g_wait].
    + simplify_eq. by apply g_park.
  - destruct (thread g) eqn:E; try done; simplify_eq.
    + destruct (poisoned g) eqn:Ep; simplify_eq. by apply g_read.
    + destruct (Z.leb_spec pending (synced_epoch g)); cbn in H; [simplify_eq; eapply g_skip; eauto|].
      destruct (journal_lock g) eqn:Ej; simplify_eq; [eapply g_skip; eauto|by apply g_take].
    + by apply g_fsync.
    + by apply g_publish.
    + by apply g_notify.
  - destruct (journal_lock g) eqn:Ej, (gs_lock g) eqn:Eg; cbn in H; simplify_eq. apply g_persist_error; auto.
Qed.

Lemma moves_reachable pf ms g g' :
  (PersistFails ∈ ms -> pf = true) -> greachable pf g -> moves ms g = Some g' -> greachable pf g'.
Proof.
  unfold moves. revert g; induction ms as [|m ms IH]; intros g Hp Hg; cbn; [by intros [= <-]|].
  destruct (move m g) as [g1|] eqn:E.
  - apply IH; [intros; apply Hp; by right|]. eapply gr_step; [done|]. eapply move_step; [|done]. intros ->. apply Hp. by left.
  - intros H. exfalso. clear -H. induction ms as [|m ms IH]; cbn in H; [done|auto].
Qed.

(** A writer commits a batch; the sync thread writes it; the writer returns. *)
Definition commit_moves : list Move :=
  [Call 0 7; Advance 0; Advance 0; Advance 0; Sync; Sync; Sync; Sync; Sync; Advance 0; Advance 0].

Lemma acked_is_durable_witness :
  exists g, moves commit_moves group_start = Some g /\ writers g !! 0%nat = Some (WReturned 7%nat true) /\ 7%nat ∈ disk g.
Proof.
  destruct (moves commit_moves group_start) as [g|] eqn:E; [|vm_compute in E; discriminate]. exists g. split; [reflexivity|].
  assert (writers g !! 0%nat = Some (WReturned 7%nat true)) as Hw by (vm_compute in E; injection E as <-; reflexivity).
  split; [exact Hw|]. apply (acked_is_durable false g 0 7%nat eq_refl); [|exact Hw].
  apply (moves_reachable false commit_moves group_start); [|apply gr_start|exact E].
  intros H. unfold commit_moves in H. repeat (apply elem_of_cons in H as [H|H]; [discriminate H|]). apply elem_of_nil in H. destruct H.
Defined.

(** The notification after a successful sync is sent without the lock the waiting
    writers check their condition under: it can fall between the check and the
    wait. The writer then sleeps although its batch is synced, and unless another
    commit comes along nobody ever wakes it. *)
Definition sleeping (g : GroupSync (Batch := nat)) : Prop :=
  writers g = {[0%nat := WParked 7%nat 1]} /\ synced_epoch g = 1 /\ pending_epoch g = 1 /\ (thread g = SLoop \/ thread g = SPending 1).

Lemma lost_wakeup :
  (exists g, greachable false g /\ sleeping g /\ 7%nat ∈ disk g) /\
  forall g g', sleeping g -> gstep false g g' -> sleeping g' \/ exists w b, writers g' = <[w := WCalled b]> (writers g).
Proof.
  split.
  - destruct (moves ([Call 0 7] ++ replicate 6 (Advance 0) ++ replicate 5 Sync ++ [Advance 0]) group_start) as [g|] eqn:E;
      [|vm_compute in E; discriminate].
    exists g. split; [|vm_compute in E; injection E as <-; repeat split; by (left + apply (bool_decide_unpack _))].
    eapply moves_reachable; [|apply gr_start|exact E]. intros H. repeat (apply elem_of_cons in H as [H|H]; [discriminate H|]).
    by apply elem_of_nil in H.
  - intros g g' (Hw & Hs & Hp & Ht) Hst.
    assert (forall w s, writers g !! w = Some s -> s = WParked 7%nat 1) as Hwr.
    { intros w s. rewrite Hw, lookup_singleton_Some. by intros [_ <-]. }
    destruct Hst; try (match goal with H : writers _ !! _ = Some _ |- _ => apply Hwr in H; done end).
    + right. eauto.
    + left. split; [done|]. cbn. rewrite Hp. auto.
    + left. by split; [|cbn; auto].
    + destruct Ht as [Ht|Ht]; rewrite Ht in *; simplify_eq; lia.
    + destruct Ht as [Ht|Ht]; rewrite Ht in *; simplify_eq.
    + destruct Ht as [Ht|Ht]; rewrite Ht in *; simplify_eq.
    + destruct Ht as [Ht|Ht]; rewrite Ht in *; simplify_eq.
    + destruct Ht as [Ht|Ht]; rewrite Ht in *; simplify_eq.
    + destruct Ht as [Ht|Ht]; rewrite Ht in *; simplify_eq.
    + left. by split.
    + done.
Qed.

(** A [persist] that fails after the sync thread has passed its poison check: the
    thread's own fsync succeeds without the lost bytes, and the commit is
    acknowledged. *)
Lemma poison_race :
  exists g, greachable true g /\ writers g !! 0%nat = Some (WReturned 7%nat true) /\ 7%nat ∉ disk g.
Proof.
  destruct (moves [Call 0 7; Advance 0; Advance 0; Advance 0; Sync; PersistFails; Sync; Sync; Sync; Sync; Advance 0; Advance 0] group_start)
    as [g|] eqn:E; [|vm_compute in E; discriminate].
  exists g. split; [by eapply moves_reachable; [|apply gr_start|exact E]|]. vm_compute in E. injection E as <-. split; [done|].
  cbn. apply not_elem_of_nil.
Qed.
