(* ===== verification/Budget.v ===== *)
(** * The memory budget (turba-engine/src/memory_budget.rs)

    One number from which the cache, the memtable ceiling and the seal sizes are
    derived. The two cgroup files are their contents, in ASCII; the arithmetic
    wraps as in a release build. *)

From S2P Require Import Prelude Bloom Paths.

Definition DEFAULT_BUDGET_BYTES : Z := 1024 * 1024 * 1024.
Definition CACHE_CEILING_BYTES : Z := 2 * 1024 * 1024 * 1024.
Definition MEMTABLE_BUDGET_PCT : Z := 35.
Definition MEMTABLE_CEILING_CAP : Z := 264 * 1024 * 1024.
Definition MEMTABLE_CEILING_FLOOR : Z := 24 * 1024 * 1024.
Definition MIN_SEAL_BYTES : Z := 2 * 1024 * 1024.
Definition CGROUP_V1_UNLIMITED_THRESHOLD : Z := 0x7000000000000000.

Inductive BudgetSource := Explicit | CgroupV2 | CgroupV1 | DefaultBudget.

Record ResolvedBudget := mkResolvedBudget { rb_bytes : Z; rb_source : BudgetSource }.

Definition ResolvedBudget_default : ResolvedBudget := mkResolvedBudget DEFAULT_BUDGET_BYTES DefaultBudget.

(** [str::trim], on ASCII. *)
Definition is_space (c : Z) : bool := ((9 <=? c) && (c <=? 13)) || (c =? 32).
Fixpoint trim_start (s : bytes) : bytes :=
  match s with c :: s' => if is_space c then trim_start s' else s | [] => [] end.
Definition trim (s : bytes) : bytes := reverse (trim_start (reverse (trim_start s))).

Definition read_cgroup_v2 (file : option bytes) : option Z :=
  contents ← file;
  let trimmed := trim contents in
  if beqb trimmed (str "max") then None else parse_u64 trimmed.

Definition read_cgroup_v1 (file : option bytes) : option Z :=
  contents ← file;
  value ← parse_u64 (trim contents);
  if CGROUP_V1_UNLIMITED_THRESHOLD <=? value then None else Some value.

Definition read_cgroup_limit_from (v2 v1 : option bytes) : option (Z * BudgetSource) :=
  match read_cgroup_v2 v2 with
  | Some bytes => Some (bytes, CgroupV2)
  | None => (fun bytes => (bytes, CgroupV1)) <$> read_cgroup_v1 v1
  end.

(** [resolve_memory_budget], given the two files. *)
Definition resolve_memory_budget (explicit_mb : option Z) (v2 v1 : option bytes) : ResolvedBudget :=
  match explicit_mb with
  | Some mb => mkResolvedBudget (wrap64 (wrap64 (mb * 1024) * 1024)) Explicit
  | None => match read_cgroup_limit_from v2 v1 with
            | Some (bytes, source) => mkResolvedBudget bytes source
            | None => ResolvedBudget_default
            end
  end.

Definition cache_bytes_from_budget (budget : Z) : Z := clampZ (32 * 1024 * 1024) CACHE_CEILING_BYTES (budget / 4).

Definition memtable_ceiling_from_budget (budget : Z) : Z :=
  clampZ MEMTABLE_CEILING_FLOOR MEMTABLE_CEILING_CAP (wrap64 (budget * MEMTABLE_BUDGET_PCT) / 100).

Definition memtable_scale_factor (budget : Z) : f64 :=
  f64_div (f64_of_uint (memtable_ceiling_from_budget budget)) (f64_of_uint MEMTABLE_CEILING_CAP).

Definition scale_seal_size (prod_seal_bytes budget : Z) : Z :=
  Z.max (f64_as_uint 64 (f64_mul (f64_of_uint prod_seal_bytes) (memtable_scale_factor budget))) MIN_SEAL_BYTES.

(** [wal_reclaim_threshold_from_limit] (engine.rs) *)
Definition wal_reclaim_threshold_from_limit (cgroup_limit : option Z) : Z :=
  match cgroup_limit with
  | Some limit => clampZ (16 * 1024 * 1024) (512 * 1024 * 1024) (limit / 4)
  | None => 512 * 1024 * 1024
  end.

(** * Lemmas *)

Lemma f64_one_factor : f64_div (f64_of_uint MEMTABLE_CEILING_CAP) (f64_of_uint MEMTABLE_CEILING_CAP) = f64_lit 1 0.
Proof. vm_compute. reflexivity. Qed.

(** From 755 MiB on the ceiling is its cap. *)
Lemma ceiling_saturates budget :
  755 * 1024 * 1024 <= budget -> budget * MEMTABLE_BUDGET_PCT < 2 ^ 64 -> memtable_ceiling_from_budget budget = MEMTABLE_CEILING_CAP.
Proof.
  intros H1 H2. unfold memtable_ceiling_from_budget, clampZ, MEMTABLE_BUDGET_PCT, MEMTABLE_CEILING_CAP, MEMTABLE_CEILING_FLOOR in *.
  rewrite wrap_small by (unfold is_uint; lia).
  assert (276824064 <= budget * 35 / 100) by (apply Z.div_le_lower_bound; lia). lia.
Qed.

(** what the budget derives stays within its bounds. For every budget the block
    cache is between 32 MiB and 2 GiB, the memtable ceiling between 24 and 264
    MiB, a scaled seal size at least 2 MiB and a [u64], the log's reclaim
    threshold between 16 and 512 MiB; and from 755 MiB on (up to where the
    percentage overflows) the seal sizes of the keyspaces are the tuned ones. *)
Theorem budget_bounds budget :
  32 * 1024 * 1024 <= cache_bytes_from_budget budget <= 2 * 1024 * 1024 * 1024 /\
  24 * 1024 * 1024 <= memtable_ceiling_from_budget budget <= 264 * 1024 * 1024 /\
  (forall prod, MIN_SEAL_BYTES <= scale_seal_size prod budget < 2 ^ 64) /\
  (forall limit, 16 * 1024 * 1024 <= wal_reclaim_threshold_from_limit limit <= 512 * 1024 * 1024) /\
  (755 * 1024 * 1024 <= budget -> budget * MEMTABLE_BUDGET_PCT < 2 ^ 64 ->
   forall prod, prod ∈ [32 * 1024 * 1024; 16 * 1024 * 1024; 8 * 1024 * 1024] -> scale_seal_size prod budget = prod).
Proof.
  split; [apply clampZ_range; unfold CACHE_CEILING_BYTES; lia|]. split; [apply clampZ_range; unfold MEMTABLE_CEILING_FLOOR, MEMTABLE_CEILING_CAP; lia|].
  split; [|split].
  - intros prod. unfold scale_seal_size, MIN_SEAL_BYTES. pose proof (f64_as_uint_range 64 (f64_mul (f64_of_uint prod) (memtable_scale_factor budget))).
    unfold is_uint in *. lia.
  - intros [limit|]; [apply clampZ_range; lia|cbn; lia].
  - intros H1 H2 prod Hp. unfold scale_seal_size, memtable_scale_factor. rewrite ceiling_saturates, f64_one_factor by done.
    repeat (apply elem_of_cons in Hp as [->|Hp]; [vm_compute; reflexivity|]). by apply elem_of_nil in Hp.
Qed.

Lemma budget_bounds_witness :
  755 * 1024 * 1024 <= 1024 * 1024 * 1024 /\ scale_seal_size (32 * 1024 * 1024) (1024 * 1024 * 1024) = 32 * 1024 * 1024 /\
  scale_seal_size (8 * 1024 * 1024) (128 * 1024 * 1024) = 2 * 1024 * 1024.
Proof.
  split; [lia|]. split; [|vm_compute; reflexivity].
  destruct (budget_bounds (1024 * 1024 * 1024)) as (_ & _ & _ & _ & H). apply H; [lia|reflexivity|left].
Defined.

(** An explicit budget of 2^44 MB and more wraps around. *)
Lemma explicit_budget_wraps : rb_bytes (resolve_memory_budget (Some (2 ^ 44)) None None) = 0.
Proof. vm_compute. reflexivity. Qed.
