(* ===== verification/Worker.v ===== *)
(** * Executing a compaction (turba-engine/src/compaction/worker.rs)

    The inputs are streamed, merged and cleaned, and the result is written as
    tables that are rotated when they reach the target size. The rate limiter
    and the page-cache advice only affect timing. *)

From S2P Require Import Prelude Types Block Bloom Memtable Merge Streams TableMeta TableWriter.
From S2P Require Import TableReader Version Leveled Paths.

(** What the writers of a tree share: the files of its directory by path, and
    the table id counter. *)
Record Disk := mkDisk {
  dk_files : gmap bytes bytes;
  dk_next_table_id : Z;
}.

(** [next_table_id.fetch_add(1, ..)] *)
Definition alloc_table_id : ST Disk Z := fun d =>
  (mkDisk (dk_files d) (wrap64 (dk_next_table_id d + 1)), Ok (dk_next_table_id d)).

(** The file that [SSTableWriter::finish] renames into place. *)
Definition put_file (path file : bytes) : ST Disk unit :=
  modify (fun d => mkDisk (<[path := file]> (dk_files d)) (dk_next_table_id d)).

Record CompactionResult := mkCompactionResult {
  cr_new_tables : list TableHandle;
  cr_old_ids : list Z;
  cr_target_level : nat;
  cr_observed : list (bytes * bytes);
}.

Section worker.
Context {XH : Xxh3} {CD : Codecs} {BH : BinaryHeap}.
Context (tables_dir : bytes) (config : SSTableConfig) (zone_map_builder : option ZoneMapBuilder).

(** [writer.finish()?], and [open_table_eager] if there was anything to write. *)
Definition finish_table (writer : SSTableWriter) (path : bytes) : ST Disk (list TableHandle) :=
  o ← lift (SSTableWriter_finish writer);
  match o with
  | Some (_, file) =>
    _ ← put_file path file;
    handle ← lift (open_table path file);
    mret [handle]
  | None => mret []
  end.

(** [key.len() + value.len() + 20] *)
Definition entry_size (e : Entry) : Z := blen (key e) + blen (value e) + 20.

(** The loop that writes a stream of entries as tables, with the finish of the
    last one: shared by compaction and by [Tree::ingest_sorted]. *)
Fixpoint write_tables (target_size : Z) (stream : list Entry) (new_tables : list TableHandle)
    (current_writer : option (SSTableWriter * bytes)) (current_size : Z) : ST Disk (list TableHandle) :=
  match stream with
  | [] =>
    match current_writer with
    | Some (writer, path) => t ← finish_table writer path; mret (new_tables ++ t)
    | None => mret new_tables
    end
  | entry :: rest =>
    match current_writer with
    | Some (writer, path) =>
      if target_size <=? current_size then
        t ← finish_table writer path;
        table_id ← alloc_table_id;
        let path := sst_path tables_dir table_id in
        writer ← lift (SSTableWriter_add (SSTableWriter_new table_id config zone_map_builder) entry);
        write_tables target_size rest (new_tables ++ t) (Some (writer, path)) (wrap64 (entry_size entry))
      else
        writer ← lift (SSTableWriter_add writer entry);
        write_tables target_size rest new_tables (Some (writer, path)) (wrap64 (current_size + entry_size entry))
    | None =>
      table_id ← alloc_table_id;
      let path := sst_path tables_dir table_id in
      writer ← lift (SSTableWriter_add (SSTableWriter_new table_id config zone_map_builder) entry);
      write_tables target_size rest new_tables (Some (writer, path)) (wrap64 (entry_size entry))
    end
  end.

(** The stream of an input: [SSTableBlockIter::new], drained. *)
Definition table_stream (t : TableHandle) : Result (list Entry) :=
  it ← BlockIter_new (th_reader t); BlockIter_drain it.

Fixpoint table_streams (ts : list TableHandle) : Result (list (list Entry)) :=
  match ts with
  | [] => Ok []
  | t :: ts' => s ← table_stream t; ss ← table_streams ts'; Ok (s :: ss)
  end.

(** What an observer is shown: the surviving values. *)
Definition observed (stream : list Entry) : list (bytes * bytes) :=
  (fun e => (key e, value e)) <$> filter (fun e => is_value e = true) stream.

Definition execute_with_observer (task : CompactionTask) (target_table_size : Z) (observer : bool)
    (merge_operator : option MergeOperator) : ST Disk CompactionResult :=
  sources ← lift (table_streams (input_tables task));
  merged ← lift (merge_sources sources);
  let compaction_stream := CompactionStream merge_operator (is_last_level task) merged in
  new_tables ← write_tables target_table_size compaction_stream [] None 0;
  mret (mkCompactionResult new_tables (input_ids task) (target_level task)
    (if observer then observed compaction_stream else [])).

(** * Lemmas *)

(** How the stream is cut into tables: a table ends before the entry that comes
    after its size has reached the target. *)
Fixpoint chunks (limit : Z) (cur : list Entry) (size : Z) (es : list Entry) : list (list Entry) :=
  match es with
  | [] => match cur with [] => [] | _ => [cur] end
  | e :: es' =>
    match cur with
    | [] => chunks limit [e] (wrap64 (entry_size e)) es'
    | _ => if limit <=? size then cur :: chunks limit [e] (wrap64 (entry_size e)) es'
           else chunks limit (cur ++ [e]) (wrap64 (size + entry_size e)) es'
    end
  end.

Lemma chunks_concat limit cur size es : concat (chunks limit cur size es) = cur ++ es.
Proof.
  revert cur size; induction es as [|e es IH]; intros cur size; simpl.
  { rewrite app_nil_r. destruct cur; simpl; [done|by rewrite app_nil_r]. }
  destruct cur as [|c cur]; [by rewrite IH|]. case_match; simpl; rewrite IH; simpl; [done|by rewrite <- app_assoc].
Qed.

Lemma chunks_nonempty limit cur size es : Forall (fun c => c <> []) (chunks limit cur size es).
Proof.
  revert cur size; induction es as [|e es IH]; intros cur size; simpl; [destruct cur; by repeat constructor|].
  destruct cur as [|c cur]; [done|]. case_match; [|done]. by constructor.
Qed.

Lemma add_all_app w es e : add_all w (es ++ [e]) = w' ← add_all w es; SSTableWriter_add w' e.
Proof.
  revert w; induction es as [|x es IH]; intros w; simpl.
  - destruct (SSTableWriter_add w e); done.
  - destruct (SSTableWriter_add w x); [|done..]. rewrite !Result_bind_Ok. apply IH.
Qed.

Lemma add_all_prefix w a b r : add_all w (a ++ b) = Ok r -> exists w', add_all w a = Ok w'.
Proof.
  revert w; induction a as [|e a IH]; intros w; simpl; [eauto|].
  destruct (SSTableWriter_add w e); [|done..]. rewrite !Result_bind_Ok. apply IH.
Qed.

Lemma writable_prefix id a b :
  writable config zone_map_builder id (a ++ b) ->
  exists w, add_all (SSTableWriter_new id config zone_map_builder) a = Ok w.
Proof.
  intros (m & file & t & Hw & _)%(written_table_ok _ _ _ _ []). unfold write_table in Hw.
  destruct (add_all _ (a ++ b)) as [w| |] eqn:E; [|done..]. by eapply add_all_prefix.
Qed.

Lemma chunks_head limit c cur size es :
  exists x cs, chunks limit (c :: cur) size es = ((c :: cur) ++ x) :: cs.
Proof.
  revert cur size; induction es as [|e es IH]; intros cur size; cbn [chunks].
  { exists [], []. by rewrite app_nil_r. }
  case_match; [exists []; eexists; by rewrite app_nil_r|].
  destruct (IH (cur ++ [e]) (wrap64 (size + entry_size e))) as (x & cs & E). cbn [app] in *. rewrite E.
  exists (e :: x), cs. by rewrite <- app_assoc.
Qed.

(** Tables written for consecutive chunks, with consecutive ids. *)
Inductive tables_for : Z -> list (list Entry) -> list TableHandle -> Prop :=
  | tables_nil id : tables_for id [] []
  | tables_cons id c cs t ts :
      table_ok t -> table_entries t = norm_entry <$> c -> table_id t = id -> th_path t = sst_path tables_dir id ->
      tables_for (id + 1) cs ts -> tables_for id (c :: cs) (t :: ts).

(** The files of those tables, added to the directory. *)
Definition add_files (ts : list TableHandle) (files : gmap bytes bytes) : gmap bytes bytes :=
  fold_left (fun fs t => <[th_path t := rd_file (th_reader t)]> fs) ts files.

Definition all_writable (id : Z) (cs : list (list Entry)) : Prop :=
  forall (i : nat) c, cs !! i = Some c -> writable config zone_map_builder (id + Z.of_nat i) c.

Lemma all_writable_cons id c cs :
  all_writable id (c :: cs) -> writable config zone_map_builder id c /\ all_writable (id + 1) cs.
Proof.
  intros H. split; [rewrite <- (Z.add_0_r id); by apply (H 0%nat)|].
  intros i x Hi. replace (id + 1 + Z.of_nat i) with (id + Z.of_nat (S i)) by lia. by apply H.
Qed.

Lemma finish_table_spec id c w d :
  writable config zone_map_builder id c -> add_all (SSTableWriter_new id config zone_map_builder) c = Ok w ->
  exists t, finish_table w (sst_path tables_dir id) d =
      (mkDisk (<[th_path t := rd_file (th_reader t)]> (dk_files d)) (dk_next_table_id d), Ok [t]) /\
    table_ok t /\ table_entries t = norm_entry <$> c /\ table_id t = id /\ th_path t = sst_path tables_dir id.
Proof.
  intros Hw Hadd. destruct (written_table_ok _ _ _ _ (sst_path tables_dir id) Hw)
    as (m & file & t & Hwr & Ho & Hok & He & Hid & Hp & Hf).
  exists t. split; [|done]. unfold write_table in Hwr. rewrite Hadd, Result_bind_Ok in Hwr.
  unfold finish_table. rewrite (ST_bind_Ok _ _ d d _ (f_equal (pair d) Hwr)).
  erewrite ST_bind_Ok by reflexivity. erewrite (ST_bind_Ok _ _ _ _ t) by (unfold lift; rewrite Ho; reflexivity).
  by rewrite Hp, Hf.
Qed.

Lemma write_tables_spec limit es new cur c w size id d :
  add_all (SSTableWriter_new id config zone_map_builder) (c :: cur) = Ok w ->
  dk_next_table_id d = id + 1 -> 0 <= id ->
  let cs := chunks limit (c :: cur) size es in
  all_writable id cs -> id + blen cs < 2 ^ 64 ->
  exists ts, write_tables limit es new (Some (w, sst_path tables_dir id)) size d =
      (mkDisk (add_files ts (dk_files d)) (id + blen cs), Ok (new ++ ts)) /\ tables_for id cs ts.
Proof.
  revert new cur c w size id d; induction es as [|e es IH]; intros new cur c w size id d Hw Hn Hid cs Hall Hlen.
  { cbn [chunks] in cs. subst cs. apply all_writable_cons in Hall as [Hwr _].
    destruct (finish_table_spec id (c :: cur) w d Hwr Hw) as (t & Hf & H1 & H2 & H3 & H4).
    exists [t]. split; [|constructor; [done..|constructor]]. cbn [write_tables].
    rewrite (ST_bind_Ok _ _ _ _ _ Hf). unfold mret, ST_ret. by rewrite Hn. }
  cbn [chunks] in cs. cbn [write_tables]. destruct (limit <=? size).
  - subst cs. rewrite blen_cons in Hlen. apply all_writable_cons in Hall as [Hwr Hall].
    destruct (finish_table_spec id (c :: cur) w d Hwr Hw) as (t & Hf & H1 & H2 & H3 & H4).
    rewrite (ST_bind_Ok _ _ _ _ _ Hf). erewrite ST_bind_Ok by reflexivity. cbv zeta. cbn [dk_files dk_next_table_id].
    pose proof (blen_nonneg (chunks limit [e] (wrap64 (entry_size e)) es)) as Hnn.
    rewrite Hn. destruct (chunks_head limit e [] (wrap64 (entry_size e)) es) as (x & cs' & Ecs).
    assert (exists w', SSTableWriter_add (SSTableWriter_new (id + 1) config zone_map_builder) e = Ok w') as [w' Hw'].
    { rewrite Ecs in Hall. apply all_writable_cons in Hall as [Hall _].
      apply (writable_prefix _ [e]) in Hall as [w' Hall]. exists w'. simpl in Hall.
      destruct (SSTableWriter_add _ e); done. }
    erewrite ST_bind_Ok by (unfold lift; rewrite Hw'; reflexivity).
    destruct (IH (new ++ [t]) [] e w' (wrap64 (entry_size e)) (id + 1)
      (mkDisk (<[th_path t := rd_file (th_reader t)]> (dk_files d)) (wrap64 (id + 1 + 1)))) as (ts & Hts & Hfor); [| |lia|exact Hall|lia|].
    + simpl. by rewrite Hw'.
    + cbn [dk_next_table_id]. rewrite Ecs, blen_cons in Hlen, Hnn. pose proof (blen_nonneg cs').
      unfold wrap64. apply wrap_small. unfold is_uint. lia.
    + exists (t :: ts). rewrite Hts. cbn [dk_files add_files fold_left]. rewrite blen_cons. split; [|by constructor].
      f_equal; [f_equal; lia|]. by rewrite <- app_assoc.
  - destruct (chunks_head limit c (cur ++ [e]) (wrap64 (size + entry_size e)) es) as (x & cs' & Ecs).
    assert (exists w', add_all (SSTableWriter_new id config zone_map_builder) (c :: cur ++ [e]) = Ok w') as [w' Hw'].
    { unfold cs in Hall. cbn [app] in Hall. rewrite Ecs in Hall. apply all_writable_cons in Hall as [Hall _].
      by apply writable_prefix in Hall. }
    assert (SSTableWriter_add w e = Ok w') as Ha.
    { change (c :: cur ++ [e]) with ((c :: cur) ++ [e]) in Hw'. rewrite add_all_app, Hw, Result_bind_Ok in Hw'. done. }
    erewrite ST_bind_Ok by (unfold lift; rewrite Ha; reflexivity). cbn [app] in cs.
    by apply (IH new (cur ++ [e]) c w').
Qed.

(** The tables a stream is written as: one per chunk. *)
Lemma write_tables_ok limit es d :
  let cs := chunks limit [] 0 es in
  0 <= dk_next_table_id d -> all_writable (dk_next_table_id d) cs -> dk_next_table_id d + blen cs < 2 ^ 64 ->
  exists ts, write_tables limit es [] None 0 d =
      (mkDisk (add_files ts (dk_files d)) (dk_next_table_id d + blen cs), Ok ts) /\
    tables_for (dk_next_table_id d) cs ts.
Proof.
  intros cs. destruct es as [|e es]; intros Hid Hall Hlen.
  { exists []. split; [|constructor]. destruct d as [fs n]. unfold mret, ST_ret. cbn. by rewrite Z.add_0_r. }
  destruct (chunks_head limit e [] (wrap64 (entry_size e)) es) as (x & cs' & Ecs).
  assert (exists w', SSTableWriter_add (SSTableWriter_new (dk_next_table_id d) config zone_map_builder) e = Ok w') as [w' Hw'].
  { unfold cs in Hall. cbn [chunks] in Hall. rewrite Ecs in Hall. apply all_writable_cons in Hall as [Hall _].
    apply (writable_prefix _ [e]) in Hall as [w' Hall]. exists w'. simpl in Hall. destruct (SSTableWriter_add _ e); done. }
  cbn [write_tables]. erewrite ST_bind_Ok by reflexivity. cbv zeta. erewrite ST_bind_Ok by (unfold lift; rewrite Hw'; reflexivity).
  destruct (write_tables_spec limit es [] [] e w' (wrap64 (entry_size e)) (dk_next_table_id d)
    (mkDisk (dk_files d) (wrap64 (dk_next_table_id d + 1)))) as (ts & Hts & Hfor);
    [simpl; by rewrite Hw'| |done|exact Hall|done|].
  2:{ exists ts. rewrite Hts. done. }
  cbn [dk_next_table_id]. unfold cs in Hlen. cbn [chunks] in Hlen. rewrite Ecs, blen_cons in Hlen. pose proof (blen_nonneg cs').
  unfold wrap64. apply wrap_small. unfold is_uint. lia.
Qed.

Lemma table_streams_ok ts : Forall table_ok ts -> table_streams ts = Ok (table_entries <$> ts).
Proof.
  induction 1 as [|t ts Ht _ IH]; [done|]. cbn [table_streams fmap list_fmap].
  destruct (tk_iter t Ht) as (it & H1 & H2). unfold table_stream. rewrite H1, Result_bind_Ok, H2, Result_bind_Ok.
  rewrite IH, Result_bind_Ok. done.
Qed.

Lemma tables_for_ok id cs ts :
  tables_for id cs ts ->
  Forall table_ok ts /\ table_entries <$> ts = (fmap norm_entry) <$> cs /\ map table_id ts = seqZ id (blen cs).
Proof.
  induction 1 as [id|id c cs t ts H1 H2 H3 H4 _ (IH1 & IH2 & IH3)]; [done|].
  split; [by constructor|]. split; [cbn [fmap list_fmap]; by rewrite H2, IH2|].
  rewrite blen_cons, seqZ_cons by (pose proof (blen_nonneg cs); lia). cbn [map]. rewrite H3, IH3. do 2 f_equal; lia.
Qed.

(** Chunks that share no key become a run of disjoint tables. *)
Lemma tables_for_run id cs ts :
  tables_for id cs ts -> sorted (concat cs) -> no_split cs -> disjoint_run ts.
Proof.
  induction 1 as [id|id c cs t ts H1 H2 H3 H4 Hts IH]; intros Hs Hns; [constructor|]. simpl in Hs.
  assert (disjoint_run ts) as Hr.
  { apply IH; [by apply StronglySorted_app_1_r in Hs|]. intros i j bi bj a b ? Hi Hj. apply (Hns (S i) (S j)); [lia|done|done]. }
  constructor; [done|]. destruct (tables_for_ok _ _ _ Hts) as (Hok & Hes & _).
  apply Forall_forall. intros u Hu. rewrite Forall_forall in Hok. specialize (Hok u Hu).
  apply list_elem_of_lookup in Hu as [j Hj]. pose proof (f_equal (lookup j) Hes) as Ej.
  rewrite !list_lookup_fmap, Hj in Ej. destruct (cs !! j) as [cj|] eqn:Ecj; [|done]. injection Ej as Ej.
  pose proof (tk_key_max t H1) as Hmax. pose proof (tk_key_min u Hok) as Hmin. rewrite H2 in Hmax. rewrite Ej in Hmin.
  rewrite fmap_last in Hmax. destruct (last c) as [a|] eqn:Ea; [|done].
  destruct cj as [|b cj]; [done|]. injection Hmax as ->. injection Hmin as ->. rewrite !norm_entry_key.
  assert (b ∈ concat cs) as Hb by (apply elem_of_concat; exists (b :: cj); split; [by left|by eapply list_elem_of_lookup_2]).
  pose proof (last_elem _ _ Ea) as Hac.
  pose proof (entry_le_key _ _ (StronglySorted_app_1_elem_of _ _ _ _ _ Hs Hac Hb)).
  pose proof (Hns 0%nat (S j) c (b :: cj) a b ltac:(lia) eq_refl Ecj Hac ltac:(by left)). border.
Qed.

(** The compaction stream keeps entries normal. *)
Lemma compaction_stream_normal mo last es :
  sorted es -> Forall (fun e => norm_entry e = e) es ->
  Forall (fun e => norm_entry e = e) (CompactionStream mo last es).
Proof.
  intros Hs Hn. rewrite Forall_forall in *. intros b Hb.
  assert (b ∈ versions (key b) (CompactionStream mo last es)) as Hv by (by apply list_elem_of_filter).
  rewrite versions_CompactionStream in Hv by done.
  apply compaction_run_elem in Hv as (a & [_ Ha]%list_elem_of_filter & _ & [->|Hb']); [auto|].
  unfold norm_entry. by rewrite Hb'.
Qed.

(** What one compaction does: the merged inputs, their compaction stream, and
    the tables it is written as. *)
Section execute.
Context (task : CompactionTask) (limit : Z) (observer : bool) (mo : option MergeOperator) (d : Disk) (merged : list Entry).
Hypothesis Hin : Forall table_ok (input_tables task).
Hypothesis Hmerged : merge_sources (table_entries <$> input_tables task) = Ok merged.
Let stream := CompactionStream mo (is_last_level task) merged.
Let cs := chunks limit [] 0 stream.
Hypothesis Hid : 0 <= dk_next_table_id d.
Hypothesis Hwr : all_writable (dk_next_table_id d) cs.
Hypothesis Hlen : dk_next_table_id d + blen cs < 2 ^ 64.

Lemma merged_spec : sorted merged /\ merged ≡ₚ concat (table_entries <$> input_tables task).
Proof.
  destruct (merge_sources_ok (table_entries <$> input_tables task)) as (out & Ho & Hs & Hp).
  - rewrite Forall_fmap. eapply Forall_impl; [exact Hin|]. intros t Ht. apply (tk_sorted t Ht).
  - rewrite Hmerged in Ho. by apply Ok_inj in Ho as <-.
Qed.

Lemma stream_key e : e ∈ stream -> exists t a, t ∈ input_tables task /\ a ∈ table_entries t /\ key a = key e /\ seqno a = seqno e.
Proof.
  destruct merged_spec as [Hs Hp]. intros (a & Ha & Hk & Hq)%CompactionStream_seqno; [|done].
  rewrite Hp in Ha. apply elem_of_concat in Ha as (l & Ha & (t & -> & Ht)%list_elem_of_fmap). eauto 10.
Qed.

Lemma execute_ok :
  exists ts, execute_with_observer task limit observer mo d =
      (mkDisk (add_files ts (dk_files d)) (dk_next_table_id d + blen cs),
       Ok (mkCompactionResult ts (input_ids task) (target_level task) (if observer then observed stream else []))) /\
    tables_for (dk_next_table_id d) cs ts /\ concat (table_entries <$> ts) = stream.
Proof.
  destruct merged_spec as [Hs Hp].
  destruct (write_tables_ok limit stream d Hid Hwr Hlen) as (ts & Hts & Hfor). exists ts.
  split; [|split; [done|]].
  - unfold execute_with_observer. erewrite ST_bind_Ok by (unfold lift; rewrite table_streams_ok by done; reflexivity).
    erewrite ST_bind_Ok by (unfold lift; rewrite Hmerged; reflexivity). cbv zeta. by erewrite ST_bind_Ok by exact Hts.
  - destruct (tables_for_ok _ _ _ Hfor) as (_ & Hes & _). rewrite Hes, concat_fmap2. unfold cs. rewrite chunks_concat, app_nil_l.
    assert (Forall (fun e => norm_entry e = e) stream) as Hn.
    { apply compaction_stream_normal; [done|]. rewrite Hp. apply Forall_concat, Forall_fmap.
      eapply Forall_impl; [exact Hin|]. intros t Ht. apply (tk_normal t Ht). }
    clear -Hn. induction Hn as [|e es He _ IH]; [done|]. cbn [fmap list_fmap]. rewrite He. f_equal. exact IH.
Qed.

Lemma outputs_within ts :
  tables_for (dk_next_table_id d) cs ts -> Forall (within (input_tables task)) ts.
Proof.
  intros Hfor. destruct (tables_for_ok _ _ _ Hfor) as (Hok & Hes & _). apply Forall_forall. intros t Ht.
  pose proof Hin as Hin'. rewrite Forall_forall in Hok, Hin'. specialize (Hok t Ht).
  assert (forall e, e ∈ table_entries t -> exists u, u ∈ input_tables task /\
    (key_min u <= key e)%bytes /\ (key e <= key_max u)%bytes) as Hcov.
  { intros e He. assert (exists x, x ∈ stream /\ key x = key e) as (x & Hx & Hk).
    { apply list_elem_of_lookup in Ht as [j Hj]. pose proof (f_equal (lookup j) Hes) as Ej.
      rewrite !list_lookup_fmap, Hj in Ej. destruct (cs !! j) as [cj|] eqn:Ecj; [|done]. injection Ej as Ej.
      rewrite Ej in He. apply list_elem_of_fmap in He as (x & -> & Hx). exists x. rewrite norm_entry_key. split; [|done].
      rewrite <- (app_nil_l stream), <- (chunks_concat limit [] 0 stream). apply elem_of_concat.
      exists cj. split; [done|]. by eapply list_elem_of_lookup_2. }
    destruct (stream_key x Hx) as (u & a & Hu & Ha & Hka & _). exists u. split; [done|].
    rewrite <- Hk, <- Hka. apply table_bounds; auto. }
  pose proof (tk_key_min t Hok) as Hmin. pose proof (tk_key_max t Hok) as Hmax.
  destruct (head (table_entries t)) as [a|] eqn:Ea; [|done]. destruct (last (table_entries t)) as [b|] eqn:Eb; [|done].
  injection Hmin as Hmin. injection Hmax as Hmax. split.
  - destruct (Hcov a) as (u & Hu & ? & ?); [apply head_Some in Ea as [? ->]; by left|]. exists u. split; [done|]. by rewrite Hmin.
  - destruct (Hcov b) as (u & Hu & ? & ?); [by apply last_elem|]. exists u. split; [done|]. by rewrite Hmax.
Qed.

Lemma outputs_run ts : tables_for (dk_next_table_id d) cs ts -> no_split cs -> disjoint_run ts.
Proof.
  intros Hfor Hns. destruct merged_spec as [Hs _]. eapply tables_for_run; [exact Hfor| |done].
  unfold cs. rewrite chunks_concat. by apply CompactionStream_sorted.
Qed.

Lemma outputs_no_split : mo = None \/ is_last_level task = true -> no_split cs.
Proof.
  intros Hm. destruct merged_spec as [Hs _]. apply no_split_keys. unfold cs. rewrite chunks_concat.
  by apply CompactionStream_keys.
Qed.

End execute.

End worker.

(** C29: a compaction writes exactly its compaction stream. Given healthy inputs
    and room for the format's fields, the worker returns tables, numbered from
    the id counter on, that are healthy, whose entries in order are the stream of
    the merged inputs, whose bounds are keys of the inputs, and which are files
    of the directory; they are a disjoint run when no merge operator is in play
    or the output is at the last level. An observer is shown every live value. *)
Theorem compaction_writes_stream {XH : Xxh3} {CD : Codecs} {BH : BinaryHeap}
    dir cfg zmb task limit observer mo d merged :
  Forall table_ok (input_tables task) ->
  merge_sources (table_entries <$> input_tables task) = Ok merged ->
  let stream := CompactionStream mo (is_last_level task) merged in
  let cs := chunks limit [] 0 stream in
  0 <= dk_next_table_id d -> all_writable cfg zmb (dk_next_table_id d) cs -> dk_next_table_id d + blen cs < 2 ^ 64 ->
  exists r d', execute_with_observer dir cfg zmb task limit observer mo d = (d', Ok r) /\
    Forall table_ok (cr_new_tables r) /\ concat (table_entries <$> cr_new_tables r) = stream /\
    map table_id (cr_new_tables r) = seqZ (dk_next_table_id d) (blen cs) /\
    Forall (within (input_tables task)) (cr_new_tables r) /\
    (mo = None \/ is_last_level task = true -> disjoint_run (cr_new_tables r)) /\
    dk_next_table_id d' = dk_next_table_id d + blen cs /\
    dk_files d' = add_files (cr_new_tables r) (dk_files d) /\
    cr_observed r = (if observer then observed stream else []).
Proof.
  intros Hin Hm stream cs Hid Hwr Hlen.
  destruct (execute_ok dir cfg zmb task limit observer mo d merged Hin Hm Hid Hwr Hlen) as (ts & He & Hfor & Hes).
  eexists _, _. split; [exact He|]. cbn [cr_new_tables cr_observed dk_next_table_id dk_files].
  destruct (tables_for_ok _ _ _ _ Hfor) as (Hok & _ & Hids).
  split; [done|]. split; [done|]. split; [done|].
  split; [by eapply outputs_within|]. split; [|done].
  intros Hno. eapply outputs_run; eauto using outputs_no_split.
Qed.

(** ** Witness *)

#[local] Existing Instances sample_xxh3 sample_codecs list_heap.

(** A table of the sample directory. *)
Definition sample_dir : bytes := str "data/spatial".

Definition sample_open (cfg : SSTableConfig) (id : Z) (es : list Entry) : option TableHandle :=
  match write_table cfg None id es with
  | Ok (Some (_, file)) => match open_table (sst_path sample_dir id) file with Ok t => Some t | _ => None end
  | _ => None
  end.

Lemma sample_open_ok cfg id es t :
  writable_check cfg None id es = true -> sample_open cfg id es = Some t ->
  table_ok t /\ table_entries t = norm_entry <$> es.
Proof.
  intros (m & file & t' & Hw & Ho & H1 & H2 & _)%writable_check_ok%(written_table_ok _ _ _ _ (sst_path sample_dir id)).
  unfold sample_open. rewrite Hw, Ho. by intros [= <-].
Qed.

Definition newer_entries : list Entry :=
  [mkEntry [97] [1] 5 Value; mkEntry [98] [] 6 Tombstone; mkEntry [100] [9; 9] 7 Value].
Definition older_entries : list Entry :=
  [mkEntry [97] [2] 2 Value; mkEntry [98] [3] 1 Value; mkEntry [99] [4] 3 Value].

Definition sample_task : CompactionTask :=
  let ts := option_list (sample_open sample_config 4 newer_entries) ++ option_list (sample_open sample_config 2 older_entries) in
  mkCompactionTask ts (map table_id ts) 0 1 false.

Definition sample_stream : list Entry :=
  [mkEntry [97] [1] 5 Value; mkEntry [98] [] 6 Tombstone; mkEntry [99] [4] 3 Value; mkEntry [100] [9; 9] 7 Value].

Lemma sample_task_inputs : Forall table_ok (input_tables sample_task).
Proof.
  unfold sample_task. cbv zeta. cbn [input_tables].
  destruct (sample_open sample_config 4 newer_entries) as [t1|] eqn:E1; [|vm_compute in E1; discriminate].
  destruct (sample_open sample_config 2 older_entries) as [t2|] eqn:E2; [|vm_compute in E2; discriminate].
  apply sample_open_ok in E1 as [? _]; [|vm_compute; reflexivity].
  apply sample_open_ok in E2 as [? _]; [|vm_compute; reflexivity]. constructor; [done|]. constructor; [done|constructor].
Qed.

Lemma compaction_writes_stream_witness :
  exists r d', execute_with_observer sample_dir sample_config None sample_task 30 true None (mkDisk ∅ 7) = (d', Ok r) /\
    concat (table_entries <$> cr_new_tables r) = sample_stream /\
    map table_id (cr_new_tables r) = [7; 8] /\ disjoint_run (cr_new_tables r) /\
    cr_observed r = [([97], [1]); ([99], [4]); ([100], [9; 9])].
Proof.
  destruct (compaction_writes_stream sample_dir sample_config None sample_task 30 true None (mkDisk ∅ 7)
    (merge_sort entry_le (newer_entries ++ older_entries)) sample_task_inputs) as (r & d' & H1 & H2 & H3 & H4 & H5 & H6 & H7 & H8 & H9).
  - vm_compute. reflexivity.
  - cbn. lia.
  - intros i c Hi. apply writable_check_ok. vm_compute in Hi.
    destruct i as [|[|i]]; [injection Hi as <-; vm_compute; reflexivity..|discriminate].
  - vm_compute. reflexivity.
  - exists r, d'. split; [exact H1|]. split; [rewrite H3; vm_compute; reflexivity|].
    split; [rewrite H4; vm_compute; reflexivity|]. split; [apply H6; left; reflexivity|]. rewrite H9. vm_compute. reflexivity.
Defined.
