(* ===== verification/Manifest.v ===== *)
(** * The manifest (turba-engine/src/manifest.rs)

    The list of live tables with the id and sequence counters, as one
    checksummed file that is replaced by writing a temporary file, syncing it,
    renaming it over the old one and syncing the directory. *)

From S2P Require Import Prelude Types Block Bloom Memtable TableMeta TableReader Version Leveled.

Definition MANIFEST_MAGIC : bytes := str "XYZM".
Definition MANIFEST_VERSION : Z := 5.
Definition MANIFEST_FILE : bytes := str "MANIFEST".
Definition MANIFEST_TMP : bytes := str "MANIFEST.tmp".
#[global] Arguments MANIFEST_FILE : simpl never.
#[global] Arguments MANIFEST_TMP : simpl never.

Record ManifestTableEntry := mkManifestTableEntry {
  me_table_id : Z;
  me_path : bytes;
  me_key_min : bytes;
  me_key_max : bytes;
  me_seqno_min : Z;
  me_seqno_max : Z;
  me_item_count : Z;
  me_file_size : Z;
}.

Record ManifestData := mkManifestData {
  md_next_table_id : Z;
  md_next_seqno : Z;
  md_levels : list (list ManifestTableEntry);
}.

(** [s.len() as u16], then the bytes. *)
Definition write_str16 (s : bytes) : bytes := to_le_bytes 2 (wrap16 (blen s)) ++ s.

(** The record of one table. *)
Definition encode_manifest_table (t : TableHandle) : bytes :=
  to_le_bytes 8 (table_id t) ++ write_str16 (th_path t) ++ write_str16 (key_min t) ++ write_str16 (key_max t) ++
  to_le_bytes 8 (sm_seqno_min (meta t)) ++ to_le_bytes 8 (sm_seqno_max (meta t)) ++
  to_le_bytes 8 (sm_item_count (meta t)) ++ to_le_bytes 8 (sm_file_size (meta t)).

Definition encode_manifest_level (l : list TableHandle) : bytes :=
  to_le_bytes 4 (wrap32 (blen l)) ++ (l ≫= encode_manifest_table).

Definition encode_manifest (v : Version) (next_table_id next_seqno : Z) : bytes :=
  MANIFEST_MAGIC ++ [MANIFEST_VERSION] ++ [wrap8 (blen (levels v))] ++
  to_le_bytes 8 next_table_id ++ to_le_bytes 8 next_seqno ++ (levels v ≫= encode_manifest_level).

(** [String::from_utf8]: is the text well-formed UTF-8? *)
Definition in_range (lo hi b : Z) : bool := (lo <=? b) && (b <=? hi).

Fixpoint utf8_valid (s : bytes) : bool :=
  match s with
  | [] => true
  | b0 :: s1 =>
    if in_range 0 127 b0 then utf8_valid s1 else
    match s1 with
    | [] => false
    | b1 :: s2 =>
      if in_range 194 223 b0 then in_range 128 191 b1 && utf8_valid s2 else
      match s2 with
      | [] => false
      | b2 :: s3 =>
        if in_range 224 239 b0 then
          in_range (if b0 =? 224 then 160 else 128) (if b0 =? 237 then 159 else 191) b1 &&
          in_range 128 191 b2 && utf8_valid s3
        else
        match s3 with
        | [] => false
        | b3 :: s4 =>
          in_range 240 244 b0 &&
          in_range (if b0 =? 240 then 144 else 128) (if b0 =? 244 then 143 else 191) b1 &&
          in_range 128 191 b2 && in_range 128 191 b3 && utf8_valid s4
        end
      end
    end
  end.

Definition read_str16 (data : bytes) (pos : Z) : Result (bytes * Z) :=
  '(len, pos) ← read_le 2 data pos; read_exact data pos len.

Definition decode_manifest_table (data : bytes) (pos : Z) : Result (ManifestTableEntry * Z) :=
  '(table_id, pos) ← read_le 8 data pos;
  '(path, pos) ← read_str16 data pos;
  if negb (utf8_valid path) then Err (Corruption "invalid path in manifest") else
  '(key_min, pos) ← read_str16 data pos;
  '(key_max, pos) ← read_str16 data pos;
  '(seqno_min, pos) ← read_le 8 data pos;
  '(seqno_max, pos) ← read_le 8 data pos;
  '(item_count, pos) ← read_le 8 data pos;
  '(file_size, pos) ← read_le 8 data pos;
  Ok (mkManifestTableEntry table_id path key_min key_max seqno_min seqno_max item_count file_size, pos).

Fixpoint decode_manifest_tables (count : nat) (data : bytes) (pos : Z) : Result (list ManifestTableEntry * Z) :=
  match count with
  | O => Ok ([], pos)
  | S n =>
    '(t, pos) ← decode_manifest_table data pos;
    '(ts, pos) ← decode_manifest_tables n data pos;
    Ok (t :: ts, pos)
  end.

Fixpoint decode_manifest_levels (count : nat) (data : bytes) (pos : Z) : Result (list (list ManifestTableEntry) * Z) :=
  match count with
  | O => Ok ([], pos)
  | S n =>
    '(table_count, pos) ← read_le 4 data pos;
    '(tables, pos) ← decode_manifest_tables (Z.to_nat table_count) data pos;
    '(rest, pos) ← decode_manifest_levels n data pos;
    Ok (tables :: rest, pos)
  end.

Definition decode_manifest (data : bytes) : Result (option ManifestData) :=
  '(magic, pos) ← read_exact data 0 4;
  if negb (beqb magic MANIFEST_MAGIC) then Err InvalidMagic else
  '(version, pos) ← read_le 1 data pos;
  if negb (version =? MANIFEST_VERSION) then Err (IncompatibleFormat version MANIFEST_VERSION) else
  '(level_count, pos) ← read_le 1 data pos;
  '(next_table_id, pos) ← read_le 8 data pos;
  '(next_seqno, pos) ← read_le 8 data pos;
  '(levels, _) ← decode_manifest_levels (Z.to_nat level_count) data pos;
  Ok (Some (mkManifestData next_table_id next_seqno levels)).

Section manifest.
Context {XH : Xxh3}.

(** The file: the payload and its checksum. *)
Definition manifest_checksum (data : bytes) : bytes := to_le_bytes 16 (xxh3_128 data).

Definition manifest_file (v : Version) (next_table_id next_seqno : Z) : bytes :=
  let data := encode_manifest v next_table_id next_seqno in data ++ manifest_checksum data.

(** [read_manifest], of the bytes of the file if it exists. *)
Definition read_manifest (file : option bytes) : Result (option ManifestData) :=
  match file with
  | None => Ok None
  | Some raw =>
    if blen raw <? 4 + 1 + 1 + 8 + 8 + 16 then Err (Corruption "manifest too small") else
    let payload := slice raw 0 (blen raw - 16) in
    let stored_checksum := from_le_bytes (slice raw (blen raw - 16) (blen raw)) in
    if negb (stored_checksum =? xxh3_128 payload) then Err ChecksumMismatch else
    decode_manifest payload
  end.

End manifest.

(** ** The file system calls of [write_manifest]

    Names are bound to inodes. Both the bindings and the contents have a durable
    side, reached by the two syncs; a crash keeps what is durable and may keep or
    lose the rest. *)

Inductive fs_op :=
  | OpCreate (p : bytes)
  | OpWrite (p data : bytes)
  | OpSync (p : bytes)
  | OpRename (p q : bytes)
  | OpSyncDir.

Record Fs := mkFs {
  fs_names : gmap bytes nat;
  fs_data : gmap nat bytes;
  fs_durable_names : gmap bytes nat;
  fs_durable_data : gmap nat bytes;
  fs_next : nat;
}.

Definition fs_step (o : fs_op) (fs : Fs) : Fs :=
  let '(mkFs names data dnames ddata next) := fs in
  match o with
  | OpCreate p =>
    match names !! p with
    | Some i => mkFs names (<[i := []]> data) dnames ddata next
    | None => mkFs (<[p := next]> names) (<[next := []]> data) dnames ddata (S next)
    end
  | OpWrite p b =>
    match names !! p with
    | Some i => mkFs names (<[i := default [] (data !! i) ++ b]> data) dnames ddata next
    | None => fs
    end
  | OpSync p =>
    match names !! p with
    | Some i => mkFs names data dnames (<[i := default [] (data !! i)]> ddata) next
    | None => fs
    end
  | OpRename p q =>
    match names !! p with
    | Some i => mkFs (<[q := i]> (delete p names)) data dnames ddata next
    | None => fs
    end
  | OpSyncDir => mkFs names data names ddata next
  end.

Definition fs_run (ops : list fs_op) (fs : Fs) : Fs := fold_left (fun fs o => fs_step o fs) ops fs.

(** The bytes a name leads to. *)
Definition fs_read (fs : Fs) (p : bytes) : option bytes := fs_names fs !! p ≫= fun i => fs_data fs !! i.

(** [write_manifest] *)
Definition write_manifest {XH : Xxh3} (v : Version) (next_table_id next_seqno : Z) : list fs_op :=
  let data := encode_manifest v next_table_id next_seqno in
  [OpCreate MANIFEST_TMP; OpWrite MANIFEST_TMP data; OpWrite MANIFEST_TMP (manifest_checksum data);
   OpSync MANIFEST_TMP; OpRename MANIFEST_TMP MANIFEST_FILE; OpSyncDir].

(** What a crash may leave: each name is bound as in the volatile or as in the
    durable directory, and a file whose content is not synced holds anything. *)
Definition crash (fs fs' : Fs) : Prop :=
  (forall p, fs_names fs' !! p = fs_names fs !! p \/ fs_names fs' !! p = fs_durable_names fs !! p) /\
  (forall i b, fs_data fs !! i = Some b -> fs_durable_data fs !! i = Some b -> fs_data fs' !! i = Some b).

(** * Lemmas *)

(** ** Round trip *)

(** What the record's fields have room for. *)
Record table_fits (t : TableHandle) : Prop := {
  tf_id : is_uint 64 (table_id t);
  tf_path : blen (th_path t) < 2 ^ 16;
  tf_utf8 : utf8_valid (th_path t) = true;
  tf_key_min : blen (key_min t) < 2 ^ 16;
  tf_key_max : blen (key_max t) < 2 ^ 16;
  tf_seqno_min : is_uint 64 (sm_seqno_min (meta t));
  tf_seqno_max : is_uint 64 (sm_seqno_max (meta t));
  tf_item_count : is_uint 64 (sm_item_count (meta t));
  tf_file_size : is_uint 64 (sm_file_size (meta t));
}.

Definition entry_of_table (t : TableHandle) : ManifestTableEntry :=
  mkManifestTableEntry (table_id t) (th_path t) (key_min t) (key_max t) (sm_seqno_min (meta t)) (sm_seqno_max (meta t))
    (sm_item_count (meta t)) (sm_file_size (meta t)).

Lemma read_str16_at data pos s rest :
  blen s < 2 ^ 16 -> at_pos data pos (write_str16 s ++ rest) ->
  read_str16 data pos = Ok (s, pos + 2 + blen s) /\ at_pos data (pos + 2 + blen s) rest.
Proof.
  intros Hs Hat. unfold write_str16 in Hat. rewrite <- app_assoc in Hat.
  pose proof (blen_nonneg s). rewrite wrap_small in Hat by (unfold is_uint; lia).
  apply read_le_at in Hat as [H1 Hat]; [|unfold is_uint; lia]. apply read_exact_at in Hat as [H2 Hat].
  unfold read_str16. rewrite H1, Result_bind_Ok, H2. done.
Qed.

Lemma decode_manifest_table_at data pos t rest :
  table_fits t -> at_pos data pos (encode_manifest_table t ++ rest) ->
  exists pos', decode_manifest_table data pos = Ok (entry_of_table t, pos') /\ at_pos data pos' rest.
Proof.
  intros [? ? Hutf] Hat. unfold encode_manifest_table in Hat. rewrite <- !app_assoc in Hat.
  apply read_le_at in Hat as [H1 Hat]; [|done].
  apply read_str16_at in Hat as [H2 Hat]; [|done].
  apply read_str16_at in Hat as [H3 Hat]; [|done].
  apply read_str16_at in Hat as [H4 Hat]; [|done].
  apply read_le_at in Hat as [H5 Hat]; [|done].
  apply read_le_at in Hat as [H6 Hat]; [|done].
  apply read_le_at in Hat as [H7 Hat]; [|done].
  apply read_le_at in Hat as [H8 Hat]; [|done].
  eexists. split; [|exact Hat]. unfold decode_manifest_table.
  rewrite H1, Result_bind_Ok, H2, Result_bind_Ok, Hutf. cbn [negb].
  rewrite H3, Result_bind_Ok, H4, Result_bind_Ok, H5, Result_bind_Ok, H6, Result_bind_Ok, H7, Result_bind_Ok, H8.
  done.
Qed.

Lemma decode_manifest_tables_at data pos ts rest :
  Forall table_fits ts -> at_pos data pos ((ts ≫= encode_manifest_table) ++ rest) ->
  exists pos', decode_manifest_tables (length ts) data pos = Ok (map entry_of_table ts, pos') /\ at_pos data pos' rest.
Proof.
  intros Hf. revert pos. induction Hf as [|t ts Ht _ IH]; intros pos Hat; [by eexists|].
  rewrite bind_cons, <- app_assoc in Hat.
  destruct (decode_manifest_table_at _ _ _ _ Ht Hat) as (p1 & H1 & Hat1).
  destruct (IH p1 Hat1) as (p2 & H2 & Hat2). exists p2. split; [|done].
  cbn [length decode_manifest_tables map]. by rewrite H1, Result_bind_Ok, H2.
Qed.

Lemma decode_manifest_levels_at data pos ls rest :
  Forall (Forall table_fits) ls -> Forall (fun l => blen l < 2 ^ 32) ls ->
  at_pos data pos ((ls ≫= encode_manifest_level) ++ rest) ->
  exists pos', decode_manifest_levels (length ls) data pos = Ok (map (map entry_of_table) ls, pos') /\ at_pos data pos' rest.
Proof.
  intros Hf. revert pos. induction Hf as [|l ls Hl _ IH]; intros pos Hlen Hat; [by eexists|].
  apply Forall_cons in Hlen as [Hn Hlen]. rewrite bind_cons, <- app_assoc in Hat.
  unfold encode_manifest_level at 1 in Hat. rewrite <- app_assoc in Hat. pose proof (blen_nonneg l).
  rewrite wrap_small in Hat by (unfold is_uint; lia).
  apply read_le_at in Hat as [H1 Hat]; [|unfold is_uint; lia].
  destruct (decode_manifest_tables_at _ _ _ _ Hl Hat) as (p1 & H2 & Hat1).
  destruct (IH p1 Hlen Hat1) as (p2 & H3 & Hat2). exists p2. split; [|done].
  cbn [length decode_manifest_levels map]. rewrite H1, Result_bind_Ok. unfold blen. rewrite Nat2Z.id.
  by rewrite H2, Result_bind_Ok, H3.
Qed.

(** A version the format can record. *)
Definition version_fits (v : Version) : Prop :=
  blen (levels v) < 256 /\ Forall (Forall table_fits) (levels v) /\ Forall (fun l => blen l < 2 ^ 32) (levels v).

Lemma decode_encode_manifest v ntid nseq :
  version_fits v -> is_uint 64 ntid -> is_uint 64 nseq ->
  decode_manifest (encode_manifest v ntid nseq) =
    Ok (Some (mkManifestData ntid nseq (map (map entry_of_table) (levels v)))).
Proof.
  intros (Hl & Hf & Hc) Hn Hs. pose proof (at_pos_0 (encode_manifest v ntid nseq)) as Hat.
  remember (encode_manifest v ntid nseq) as data eqn:Ed. rewrite Ed in Hat at 2. clear Ed.
  unfold encode_manifest in Hat. pose proof (blen_nonneg (levels v)).
  rewrite wrap_small in Hat by (unfold is_uint; lia).
  rewrite <- (app_nil_r (levels v ≫= encode_manifest_level)) in Hat.
  apply read_exact_at in Hat as [H1 Hat]. change (blen MANIFEST_MAGIC) with 4 in *.
  change [MANIFEST_VERSION] with (to_le_bytes 1 MANIFEST_VERSION) in Hat.
  apply read_le_at in Hat as [H2 Hat]; [|done].
  assert ([blen (levels v)] = to_le_bytes 1 (blen (levels v))) as Eb.
  { change (to_le_bytes 1 (blen (levels v))) with [blen (levels v) mod 256]. by rewrite Z.mod_small by lia. }
  rewrite Eb in Hat. apply read_le_at in Hat as [H3 Hat]; [|unfold is_uint; lia].
  apply read_le_at in Hat as [H4 Hat]; [|done]. apply read_le_at in Hat as [H5 Hat]; [|done].
  destruct (decode_manifest_levels_at _ _ _ _ Hf Hc Hat) as (p & H6 & _).
  unfold decode_manifest. rewrite H1, Result_bind_Ok, beqb_refl. cbn [negb].
  rewrite H2, Result_bind_Ok, Z.eqb_refl. cbn [negb].
  rewrite H3, Result_bind_Ok, H4, Result_bind_Ok, H5, Result_bind_Ok.
  unfold blen at 1. rewrite Nat2Z.id, H6. done.
Qed.

Section roundtrip.
Context {XH : Xxh3}.

Lemma read_written v ntid nseq :
  version_fits v -> is_uint 64 ntid -> is_uint 64 nseq ->
  read_manifest (Some (manifest_file v ntid nseq)) =
    Ok (Some (mkManifestData ntid nseq (map (map entry_of_table) (levels v)))).
Proof.
  intros Hv Hn Hs. unfold read_manifest, manifest_file. cbv zeta.
  pose proof (decode_encode_manifest v ntid nseq Hv Hn Hs) as Hd.
  assert (22 <= blen (encode_manifest v ntid nseq)) as Hlen.
  { unfold encode_manifest. rewrite !blen_app, !blen_to_le_bytes.
    pose proof (blen_nonneg (levels v ≫= encode_manifest_level)).
    change (blen MANIFEST_MAGIC) with 4. change (blen [MANIFEST_VERSION]) with 1. change (blen [wrap8 (blen (levels v))]) with 1. lia. }
  set (data := encode_manifest v ntid nseq) in *. unfold manifest_checksum.
  rewrite blen_app, blen_to_le_bytes. change (Z.of_nat 16) with 16.
  destruct (Z.ltb_spec (blen data + 16) (4 + 1 + 1 + 8 + 8 + 16)); [lia|].
  replace (blen data + 16 - 16) with (blen data) by lia.
  pose proof (at_pos_0 (data ++ to_le_bytes 16 (xxh3_128 data))) as Hat.
  apply at_pos_app in Hat as (Hsl & _ & Hat). rewrite Z.add_0_l in *. rewrite Hsl.
  apply at_pos_suffix in Hat. rewrite blen_app, blen_to_le_bytes in Hat. change (Z.of_nat 16) with 16 in Hat.
  rewrite Hat, (from_to_le_bytes_id 16 128) by (done || apply xxh3_128_range). by rewrite Z.eqb_refl.
Qed.

End roundtrip.

(** ** Atomic replacement *)

(** A directory at rest: its names are durable and so is the content of the
    manifest; inode numbers below [fs_next] are taken, and no two names share
    the manifest's inode. *)
Record fs_rest (fs : Fs) : Prop := {
  fr_names : fs_durable_names fs = fs_names fs;
  fr_fresh p i : fs_names fs !! p = Some i -> (i < fs_next fs)%nat;
  fr_alias p i : fs_names fs !! MANIFEST_FILE = Some i -> fs_names fs !! p = Some i -> p = MANIFEST_FILE;
  fr_manifest i : fs_names fs !! MANIFEST_FILE = Some i ->
    exists b, fs_data fs !! i = Some b /\ fs_durable_data fs !! i = Some b;
}.

Lemma fs_run_cons o ops fs : fs_run (o :: ops) fs = fs_run ops (fs_step o fs).
Proof. done. Qed.

Lemma manifest_names : MANIFEST_FILE <> MANIFEST_TMP.
Proof. done. Qed.

(** As long as the manifest's name and inode are untouched, a crash keeps it. *)
Lemma crash_keeps fs fs1 fs' :
  fs_rest fs -> crash fs1 fs' ->
  fs_names fs1 !! MANIFEST_FILE = fs_names fs !! MANIFEST_FILE ->
  fs_durable_names fs1 !! MANIFEST_FILE = fs_names fs !! MANIFEST_FILE ->
  (forall i, fs_names fs !! MANIFEST_FILE = Some i ->
     fs_data fs1 !! i = fs_data fs !! i /\ fs_durable_data fs1 !! i = fs_durable_data fs !! i) ->
  fs_read fs' MANIFEST_FILE = fs_read fs MANIFEST_FILE.
Proof.
  intros Hr [Hn Hd] H1 H2 H3. unfold fs_read.
  assert (fs_names fs' !! MANIFEST_FILE = fs_names fs !! MANIFEST_FILE) as -> by (destruct (Hn MANIFEST_FILE); congruence).
  destruct (fs_names fs !! MANIFEST_FILE) as [i|] eqn:Ei; [|done]. cbn [mbind option_bind].
  destruct (H3 i eq_refl) as [Ha Hb]. destruct (fr_manifest fs Hr i Ei) as (b & Eb & Edb).
  rewrite Eb. apply Hd; congruence.
Qed.

(** The directory after [OpCreate MANIFEST_TMP]: the temporary name leads to an
    inode [i] that is not the manifest's. *)
Lemma create_tmp fs :
  fs_rest fs ->
  exists names i next, fs_step (OpCreate MANIFEST_TMP) fs =
      mkFs names (<[i := []]> (fs_data fs)) (fs_names fs) (fs_durable_data fs) next /\
    names !! MANIFEST_TMP = Some i /\ names !! MANIFEST_FILE = fs_names fs !! MANIFEST_FILE /\
    fs_names fs !! MANIFEST_FILE <> Some i.
Proof.
  intros [Hn Hf Ha _]. destruct fs as [names data dn dd next]. cbn in *. subst dn.
  destruct (names !! MANIFEST_TMP) as [i|] eqn:Ei.
  - exists names, i, next. split; [done|]. split; [done|]. split; [done|].
    intros E. by specialize (Ha _ _ E Ei).
  - exists (<[MANIFEST_TMP := next]> names), next, (S next). split; [done|].
    split; [by rewrite lookup_insert_eq|]. split; [by rewrite lookup_insert_ne|].
    intros E. specialize (Hf _ _ E). lia.
Qed.

Section atomic.
Context {XH : Xxh3}.

Lemma write_manifest_crash v ntid nseq fs n fs' :
  fs_rest fs -> crash (fs_run (take n (write_manifest v ntid nseq)) fs) fs' ->
  fs_read fs' MANIFEST_FILE = fs_read fs MANIFEST_FILE /\ (n < 6)%nat \/
  fs_read fs' MANIFEST_FILE = Some (manifest_file v ntid nseq) /\ (5 <= n)%nat.
Proof.
  intros Hr Hc. unfold write_manifest in Hc. cbv zeta in Hc. unfold manifest_file. cbv zeta.
  set (data := encode_manifest v ntid nseq) in *. set (sum := manifest_checksum data) in *.
  assert (forall fs1, crash fs1 fs' -> fs_names fs1 !! MANIFEST_FILE = fs_names fs !! MANIFEST_FILE ->
    fs_durable_names fs1 = fs_names fs ->
    (forall i, fs_names fs !! MANIFEST_FILE = Some i ->
       fs_data fs1 !! i = fs_data fs !! i /\ fs_durable_data fs1 !! i = fs_durable_data fs !! i) ->
    fs_read fs' MANIFEST_FILE = fs_read fs MANIFEST_FILE) as Hold.
  { intros fs1 H1 H2 H3 H4. apply (crash_keeps fs fs1 fs' Hr H1 H2); [by rewrite H3|done]. }
  destruct n as [|n]. { left. split; [|lia]. apply (Hold fs); [done|done|apply (fr_names fs Hr)|done]. }
  destruct (create_tmp fs Hr) as (names & i & next & E1 & Ht & Hm & Hi). cbn [take] in Hc. rewrite fs_run_cons, E1 in Hc.
  assert (forall j b, fs_names fs !! MANIFEST_FILE = Some j -> <[i := b]> (fs_data fs) !! j = fs_data fs !! j) as Hne.
  { intros j b Hj. apply lookup_insert_ne. congruence. }
  assert (forall j b, fs_names fs !! MANIFEST_FILE = Some j ->
    <[i := b]> (fs_durable_data fs) !! j = fs_durable_data fs !! j) as Hdne.
  { intros j b Hj. apply lookup_insert_ne. congruence. }
  destruct n as [|n]. { left. split; [|lia]. apply (Hold _ Hc); [done|done|]. intros j Hj. split; [by apply Hne|done]. }
  cbn [take] in Hc. rewrite fs_run_cons in Hc. cbn [fs_step] in Hc. rewrite Ht, lookup_insert_eq, insert_insert_eq in Hc.
  destruct n as [|n]. { left. split; [|lia]. apply (Hold _ Hc); [done|done|]. intros j Hj. split; [by apply Hne|done]. }
  cbn [take] in Hc. rewrite fs_run_cons in Hc. cbn [fs_step] in Hc. rewrite Ht, lookup_insert_eq, insert_insert_eq in Hc.
  cbn [default] in Hc. rewrite app_nil_l in Hc.
  destruct n as [|n]. { left. split; [|lia]. apply (Hold _ Hc); [done|done|]. intros j Hj. split; [by apply Hne|done]. }
  cbn [take] in Hc. rewrite fs_run_cons in Hc. cbn [fs_step] in Hc. rewrite Ht, lookup_insert_eq in Hc. cbn [default] in Hc.
  destruct n as [|n]. { left. split; [|lia]. eapply (Hold _ Hc); [done|done|]. intros j Hj. split; [by apply Hne|by apply Hdne]. }
  cbn [take] in Hc. rewrite fs_run_cons in Hc. cbn [fs_step] in Hc. rewrite Ht in Hc.
  assert (forall fs2, crash fs2 fs' -> fs_names fs' !! MANIFEST_FILE = Some i ->
    fs_data fs2 !! i = Some (data ++ sum) -> fs_durable_data fs2 !! i = Some (data ++ sum) ->
    fs_read fs' MANIFEST_FILE = Some (data ++ sum)) as Hnew.
  { intros fs2 [_ Hd] Hn2 Ha Hb. unfold fs_read. rewrite Hn2. cbn [mbind option_bind]. by apply Hd. }
  destruct n as [|n].
  - pose proof Hc as [Hn Hd]. destruct (Hn MANIFEST_FILE) as [E|E]; cbn in E.
    + rewrite lookup_insert_eq in E. right. split; [|lia]. eapply (Hnew _ Hc); [done|..]; cbn; by rewrite lookup_insert_eq.
    + left. split; [|lia]. unfold fs_read. rewrite E. destruct (fs_names fs !! MANIFEST_FILE) as [j|] eqn:Ej; [|done].
      cbn [mbind option_bind]. destruct (fr_manifest fs Hr j Ej) as (b & Eb & Edb). rewrite Eb.
      apply Hd; cbn; [rewrite Hne by done|rewrite Hdne by done]; congruence.
  - right. split; [|lia]. destruct n; cbn [take] in Hc; rewrite fs_run_cons in Hc; cbn [fs_step fs_run fold_left] in Hc;
      pose proof Hc as [Hn _]; destruct (Hn MANIFEST_FILE) as [E|E]; cbn in E; rewrite lookup_insert_eq in E;
      (eapply (Hnew _ Hc); [done|..]); cbn; by rewrite lookup_insert_eq.
Qed.

(** The manifest reads back. Whatever version, table id and sequence
    counter fit its fields, the file [write_manifest] writes is read as the same
    counters and, level by level and in order, the same tables; a manifest of
    another format version, checksum intact, is refused as incompatible and not
    as corrupt. *)
Theorem manifest_roundtrip v ntid nseq :
  version_fits v -> is_uint 64 ntid -> is_uint 64 nseq ->
  read_manifest (Some (manifest_file v ntid nseq)) =
    Ok (Some (mkManifestData ntid nseq (map (map entry_of_table) (levels v)))) /\
  forall ver rest, is_uint 8 ver -> ver <> MANIFEST_VERSION -> 17 <= blen rest ->
    let data := MANIFEST_MAGIC ++ [ver] ++ rest in
    read_manifest (Some (data ++ manifest_checksum data)) = Err (IncompatibleFormat ver MANIFEST_VERSION).
Proof.
  intros Hv Hn Hs. split; [by apply read_written|]. intros ver rest Hver Hne Hlen data.
  unfold read_manifest, manifest_checksum. rewrite blen_app, blen_to_le_bytes. change (Z.of_nat 16) with 16.
  assert (blen data = 5 + blen rest) as Hd by (unfold data; rewrite !blen_app; change (blen MANIFEST_MAGIC) with 4;
    change (blen [ver]) with 1; lia).
  destruct (Z.ltb_spec (blen data + 16) (4 + 1 + 1 + 8 + 8 + 16)); [lia|]. cbv zeta.
  replace (blen data + 16 - 16) with (blen data) by lia.
  pose proof (at_pos_0 (data ++ to_le_bytes 16 (xxh3_128 data))) as Hat.
  apply at_pos_app in Hat as (Hsl & _ & Hat). rewrite Z.add_0_l in *. rewrite Hsl.
  apply at_pos_suffix in Hat. rewrite blen_app, blen_to_le_bytes in Hat. change (Z.of_nat 16) with 16 in Hat.
  rewrite Hat, (from_to_le_bytes_id 16 128), Z.eqb_refl by (done || apply xxh3_128_range). cbn [negb].
  pose proof (at_pos_0 data) as Hat0. unfold data in Hat0 at 2.
  apply read_exact_at in Hat0 as [H1 Hat0]. change (blen MANIFEST_MAGIC) with 4 in *.
  assert ([ver] = to_le_bytes 1 ver) as Ev.
  { change (to_le_bytes 1 ver) with [ver mod 256]. rewrite Z.mod_small; [done|exact Hver]. }
  rewrite Ev in Hat0. apply read_le_at in Hat0 as [H2 _]; [|done].
  unfold decode_manifest. rewrite H1, Result_bind_Ok, beqb_refl. cbn [negb]. rewrite H2, Result_bind_Ok.
  by rewrite (proj2 (Z.eqb_neq ver MANIFEST_VERSION)).
Qed.

(** C30: replacing the manifest is atomic. Stop [write_manifest] after any
    number of its file system calls and crash: the manifest then reads as the
    old one or as the complete new one, never as a mixture or a torn file; once
    the last call is done it is the new one. *)
Theorem write_manifest_atomic v ntid nseq fs n fs' :
  fs_rest fs -> crash (fs_run (take n (write_manifest v ntid nseq)) fs) fs' ->
  (fs_read fs' MANIFEST_FILE = fs_read fs MANIFEST_FILE \/
   fs_read fs' MANIFEST_FILE = Some (manifest_file v ntid nseq)) /\
  ((6 <= n)%nat -> fs_read fs' MANIFEST_FILE = Some (manifest_file v ntid nseq)).
Proof.
  intros Hr Hc. destruct (write_manifest_crash _ _ _ _ _ _ Hr Hc) as [[H ?]|[H ?]]; (split; [tauto|]); [lia|done].
Qed.

End atomic.

(** ** Witnesses *)

#[local] Existing Instances sample_xxh3.

#[export] Instance table_fits_dec t : Decision (table_fits t).
Proof.
  refine (cast_if (decide (is_uint 64 (table_id t) /\ blen (th_path t) < 2 ^ 16 /\ utf8_valid (th_path t) = true /\
    blen (key_min t) < 2 ^ 16 /\ blen (key_max t) < 2 ^ 16 /\ is_uint 64 (sm_seqno_min (meta t)) /\
    is_uint 64 (sm_seqno_max (meta t)) /\ is_uint 64 (sm_item_count (meta t)) /\ is_uint 64 (sm_file_size (meta t)))));
    [by destruct_and!; split|intros []; tauto].
Defined.

Lemma sample_version_fits : version_fits sample_version.
Proof.
  split; [done|]. split; apply (bool_decide_unpack _); vm_compute; exact I.
Qed.

Lemma manifest_roundtrip_witness :
  read_manifest (Some (manifest_file sample_version 9 77)) =
    Ok (Some (mkManifestData 9 77 (map (map entry_of_table) (levels sample_version)))) /\
  read_manifest (Some ((MANIFEST_MAGIC ++ [3] ++ repeat 0 17) ++ manifest_checksum (MANIFEST_MAGIC ++ [3] ++ repeat 0 17))) =
    Err (IncompatibleFormat 3 5).
Proof.
  destruct (manifest_roundtrip sample_version 9 77 sample_version_fits) as [H1 H2]; [split; lia|split; lia|].
  split; [exact H1|]. apply (H2 3 (repeat 0 17)); [split; lia|discriminate|vm_compute; discriminate].
Defined.

(** A directory with a manifest and the debris of an interrupted update. *)
Definition sample_fs : Fs :=
  mkFs {[MANIFEST_FILE := 0%nat; MANIFEST_TMP := 1%nat]} {[0%nat := [1; 2]; 1%nat := [3]]}
    {[MANIFEST_FILE := 0%nat; MANIFEST_TMP := 1%nat]} {[0%nat := [1; 2]]} 2.

Lemma sample_fs_rest : fs_rest sample_fs.
Proof.
  assert (forall p i, fs_names sample_fs !! p = Some i ->
    (p = MANIFEST_FILE /\ i = 0%nat) \/ (p = MANIFEST_TMP /\ i = 1%nat)) as H.
  { intros p i. cbn [fs_names sample_fs]. rewrite lookup_insert_Some, lookup_singleton_Some. naive_solver. }
  split; [done| | |].
  - intros p i [[_ ->]|[_ ->]]%H; cbn; lia.
  - intros p i [[_ ->]|[? _]]%H; [|done]. intros [[-> _]|[_ ?]]%H; done.
  - intros i [[_ ->]|[? _]]%H; [|done]. by exists [1; 2].
Qed.

(** The update run to its end over the debris of an earlier one. *)
Lemma write_manifest_atomic_witness :
  exists fs', crash (fs_run (take 6 (write_manifest sample_version 9 77)) sample_fs) fs' /\
    fs_read fs' MANIFEST_FILE = Some (manifest_file sample_version 9 77).
Proof.
  exists (fs_run (take 6 (write_manifest sample_version 9 77)) sample_fs).
  assert (crash (fs_run (take 6 (write_manifest sample_version 9 77)) sample_fs)
            (fs_run (take 6 (write_manifest sample_version 9 77)) sample_fs)) as Hc.
  { split; [intros p; left; reflexivity|intros i b H _; exact H]. }
  split; [exact Hc|].
  apply (write_manifest_atomic sample_version 9 77 sample_fs 6 _ sample_fs_rest Hc). lia.
Defined.
