(* ===== verification/Tree.v ===== *)
(** * The LSM tree (turba-engine/src/tree/mod.rs)

    One keyspace: an active memtable, sealed memtables, a version of tables, the
    counters and the directory. A method is a function on this state; where a
    method gives up its locks between two steps (a flush or a compaction captures
    its inputs, works, and installs the outcome) the steps are separate
    functions, and the method is their composition. *)

From S2P Require Import Prelude Types Block Bloom Memtable Merge Streams TableMeta TableWriter.
From S2P Require Import TableReader Version Leveled Paths Worker Manifest.

Record TreeConfig := mkTreeConfig {
  tc_sstable : SSTableConfig;
  tc_max_memtable_size : Z;
  tc_compaction : LeveledConfig;
  tc_level_compressions : option (list CompressionType);
}.

Definition TreeConfig_default : TreeConfig :=
  mkTreeConfig SSTableConfig_default (16 * 1024 * 1024) LeveledConfig_default None.

Definition compression_for_level (c : TreeConfig) (lvl : nat) : CompressionType :=
  match tc_level_compressions c with
  | Some lc => match last lc with
               | Some l => default l (lc !! lvl)
               | None => sc_compression (tc_sstable c)
               end
  | None => sc_compression (tc_sstable c)
  end.

(** [self.config.sstable.clone()] with the compression of a level. *)
Definition config_for_level (c : TreeConfig) (lvl : nat) : SSTableConfig :=
  mkSSTableConfig (sc_data_block_size (tc_sstable c)) (compression_for_level c lvl)
    (sc_bloom_bits_per_key (tc_sstable c)) (sc_restart_interval (tc_sstable c)).

(** [config.bloom_bits_per_key = 0.0] *)
Definition without_bloom (c : SSTableConfig) : SSTableConfig :=
  mkSSTableConfig (sc_data_block_size c) (sc_compression c) f64_zero (sc_restart_interval c).

Record Tree {SM : SkipMap} := mkTree {
  t_dir : bytes;
  t_config : TreeConfig;
  t_zone_map_builder : option ZoneMapBuilder;
  t_merge_operator : option MergeOperator;
  t_current : SuperVersion;
  t_disk : Disk;
  t_manifest : option bytes;
  t_seqno : SeqNo;
  t_flushed_seqno : SeqNo;
  t_manifest_durable_seqno : SeqNo;
  t_compaction_enabled : bool;
  t_flushing_ids : gset Z;
  t_stats : OverlapStats;
  t_trivial_move_count : Z;
  t_major_compact_success_count : Z;
}.

Section tree.
Context {XH : Xxh3} {CD : Codecs} {SM : SkipMap} {BH : BinaryHeap}.

(** The stores a method makes into the shared state. *)
Definition set_current (f : SuperVersion -> SuperVersion) (t : Tree) : Tree :=
  mkTree SM (t_dir t) (t_config t) (t_zone_map_builder t) (t_merge_operator t) (f (t_current t)) (t_disk t)
    (t_manifest t) (t_seqno t) (t_flushed_seqno t) (t_manifest_durable_seqno t) (t_compaction_enabled t)
    (t_flushing_ids t) (t_stats t) (t_trivial_move_count t) (t_major_compact_success_count t).
Definition set_disk (d : Disk) (t : Tree) : Tree :=
  mkTree SM (t_dir t) (t_config t) (t_zone_map_builder t) (t_merge_operator t) (t_current t) d
    (t_manifest t) (t_seqno t) (t_flushed_seqno t) (t_manifest_durable_seqno t) (t_compaction_enabled t)
    (t_flushing_ids t) (t_stats t) (t_trivial_move_count t) (t_major_compact_success_count t).
Definition set_manifest (m : option bytes) (t : Tree) : Tree :=
  mkTree SM (t_dir t) (t_config t) (t_zone_map_builder t) (t_merge_operator t) (t_current t) (t_disk t)
    m (t_seqno t) (t_flushed_seqno t) (t_manifest_durable_seqno t) (t_compaction_enabled t)
    (t_flushing_ids t) (t_stats t) (t_trivial_move_count t) (t_major_compact_success_count t).
Definition set_seqnos (seqno flushed durable : SeqNo) (t : Tree) : Tree :=
  mkTree SM (t_dir t) (t_config t) (t_zone_map_builder t) (t_merge_operator t) (t_current t) (t_disk t)
    (t_manifest t) seqno flushed durable (t_compaction_enabled t)
    (t_flushing_ids t) (t_stats t) (t_trivial_move_count t) (t_major_compact_success_count t).
Definition set_compaction_enabled (enabled : bool) (t : Tree) : Tree :=
  mkTree SM (t_dir t) (t_config t) (t_zone_map_builder t) (t_merge_operator t) (t_current t) (t_disk t)
    (t_manifest t) (t_seqno t) (t_flushed_seqno t) (t_manifest_durable_seqno t) enabled
    (t_flushing_ids t) (t_stats t) (t_trivial_move_count t) (t_major_compact_success_count t).
Definition set_flushing_ids (ids : gset Z) (t : Tree) : Tree :=
  mkTree SM (t_dir t) (t_config t) (t_zone_map_builder t) (t_merge_operator t) (t_current t) (t_disk t)
    (t_manifest t) (t_seqno t) (t_flushed_seqno t) (t_manifest_durable_seqno t) (t_compaction_enabled t)
    ids (t_stats t) (t_trivial_move_count t) (t_major_compact_success_count t).
Definition set_stats (stats : OverlapStats) (moves majors : Z) (t : Tree) : Tree :=
  mkTree SM (t_dir t) (t_config t) (t_zone_map_builder t) (t_merge_operator t) (t_current t) (t_disk t)
    (t_manifest t) (t_seqno t) (t_flushed_seqno t) (t_manifest_durable_seqno t) (t_compaction_enabled t)
    (t_flushing_ids t) stats moves majors.

Definition set_active (m : Memtable) : Tree -> Tree :=
  set_current (fun sv => mkSuperVersion SM m (sv_sealed sv) (sv_version sv)).
Definition set_version (v : Version) : Tree -> Tree :=
  set_current (fun sv => mkSuperVersion SM (sv_active sv) (sv_sealed sv) v).

(** A computation on the directory and the table id counter. *)
Definition on_disk {A} (m : ST Disk A) : ST Tree A := fun t =>
  let '(d, r) := m (t_disk t) in (set_disk d t, r).

(** ** Writes *)

(** [insert]: [fetch_add(1) + 1], then the active memtable. *)
Definition insert (user_key value : bytes) : ST Tree SeqNo := fun t =>
  let seqno := wrap64 (t_seqno t + 1) in
  let t := set_seqnos seqno (t_flushed_seqno t) (t_manifest_durable_seqno t) t in
  let '(m, _) := Memtable_insert (sv_active (t_current t)) user_key value seqno Value in
  (set_active m t, Ok seqno).

Definition remove (user_key : bytes) : ST Tree SeqNo := fun t =>
  let seqno := wrap64 (t_seqno t + 1) in
  let t := set_seqnos seqno (t_flushed_seqno t) (t_manifest_durable_seqno t) t in
  let '(m, _) := Memtable_insert (sv_active (t_current t)) user_key [] seqno Tombstone in
  (set_active m t, Ok seqno).

(** [insert_with_seqno]: [fetch_max], then the active memtable. *)
Definition insert_with_seqno (user_key value : bytes) (seqno : SeqNo) (vtype : ValueType) (t : Tree) : Tree :=
  let t := set_seqnos (Z.max (t_seqno t) seqno) (t_flushed_seqno t) (t_manifest_durable_seqno t) t in
  let '(m, _) := Memtable_insert (sv_active (t_current t)) user_key value seqno vtype in
  set_active m t.

(** ** Point reads *)

Inductive LookupGate :=
  | ActiveMemtable (tombstone : bool)
  | SealedMemtable (tombstone : bool)
  | InTable (lvl : nat) (table_id : Z) (tombstone : bool)
  | NotFoundGate.

Record LookupTrace := mkLookupTrace {
  decided_by : option LookupGate;
  positional_misses_with_covering_table : list nat;
  bloom_false_negatives : list (nat * Z);
}.

Definition LookupTrace_default : LookupTrace := mkLookupTrace None [] [].

Definition is_clean (tr : LookupTrace) : bool :=
  match positional_misses_with_covering_table tr, bloom_false_negatives tr with [], [] => true | _, _ => false end.

Section lookup.
Context (user_key : bytes) (visible_seqno : SeqNo) (traced : bool).

Definition is_tombstone (v : ValueType) : bool := match v with Tombstone => true | Value => false end.

(** [if let Some(t) = trace.as_deref_mut() { t.decided_by = Some(gate) }] *)
Definition note_gate (gate : LookupGate) : ST LookupTrace unit :=
  modify (fun tr => if traced
    then mkLookupTrace (Some gate) (positional_misses_with_covering_table tr) (bloom_false_negatives tr) else tr).

(** [note_absent_table], when tracing. *)
Definition note_absent_table (lvl : nat) (table : TableHandle) : ST LookupTrace unit :=
  if traced then
    o ← lift (get_no_bloom (th_reader table) user_key visible_seqno);
    match o with
    | Some _ => modify (fun tr => mkLookupTrace (decided_by tr) (positional_misses_with_covering_table tr)
                                    (bloom_false_negatives tr ++ [(lvl, table_id table)]))
    | None => mret tt
    end
  else mret tt.

(** A table that may have the key: its answer, if it has one. *)
Definition search_table (read : SSTableReader -> bytes -> SeqNo -> Result (option Entry)) (lvl : nat) (table : TableHandle)
    : ST LookupTrace (option (option bytes)) :=
  o ← lift (read (th_reader table) user_key visible_seqno);
  match o with
  | Some entry =>
    _ ← note_gate (InTable lvl (table_id table) (is_tombstone (value_type entry)));
    mret (Some (live (Some entry)))
  | None => _ ← note_absent_table lvl table; mret None
  end.

(** Level 0: all tables, newest first. *)
Fixpoint search_l0 (read : SSTableReader -> bytes -> SeqNo -> Result (option Entry)) (tables : list TableHandle)
    : ST LookupTrace (option (option bytes)) :=
  match tables with
  | [] => mret None
  | table :: rest =>
    if bltb user_key (key_min table) || bltb (key_max table) user_key then search_l0 read rest
    else
      o ← search_table read 0 table;
      match o with Some answer => mret (Some answer) | None => search_l0 read rest end
  end.

Definition range_cmp (t : TableHandle) : comparison :=
  if bltb (key_max t) user_key then Lt else if bltb user_key (key_min t) then Gt else Eq.

(** A level above 0: the table whose range has the key, by bisection. *)
Definition search_run (read : SSTableReader -> bytes -> SeqNo -> Result (option Entry)) (lvl : nat) (tables : list TableHandle)
    : ST LookupTrace (option (option bytes)) :=
  match binary_search_by range_cmp tables with
  | Found idx => match tables !! idx with
                 | Some table => search_table read lvl table
                 | None => lift Panic
                 end
  | NotFound _ =>
    _ ← modify (fun tr =>
      if traced && existsb (fun t => bleb (key_min t) user_key && bleb user_key (key_max t)) tables
      then mkLookupTrace (decided_by tr) (positional_misses_with_covering_table tr ++ [lvl]) (bloom_false_negatives tr)
      else tr);
    mret None
  end.

Fixpoint search_levels (read : SSTableReader -> bytes -> SeqNo -> Result (option Entry)) (lvl : nat)
    (ls : list (list TableHandle)) : ST LookupTrace (option (option bytes)) :=
  match ls with
  | [] => mret None
  | l :: rest =>
    o ← (if (lvl =? 0)%nat then search_l0 read (reverse l) else search_run read lvl l);
    match o with Some answer => mret (Some answer) | None => search_levels read (S lvl) rest end
  end.

Fixpoint search_sealed (memtables : list Memtable) : ST LookupTrace (option (option bytes)) :=
  match memtables with
  | [] => mret None
  | m :: rest =>
    match Memtable_get m user_key visible_seqno with
    | Some (vtype, value) =>
      _ ← note_gate (SealedMemtable (is_tombstone vtype));
      mret (Some (if is_tombstone vtype then None else Some value))
    | None => search_sealed rest
    end
  end.

(** The layers from the newest to the oldest. *)
Definition lookup_in (read : SSTableReader -> bytes -> SeqNo -> Result (option Entry)) (sv : SuperVersion)
    : ST LookupTrace (option bytes) :=
  match Memtable_get (sv_active sv) user_key visible_seqno with
  | Some (vtype, value) =>
    _ ← note_gate (ActiveMemtable (is_tombstone vtype));
    mret (if is_tombstone vtype then None else Some value)
  | None =>
    o ← search_sealed (reverse (sv_sealed sv));
    match o with
    | Some answer => mret answer
    | None =>
      o ← search_levels read 0 (levels (sv_version sv));
      match o with
      | Some answer => mret answer
      | None => _ ← note_gate NotFoundGate; mret None
      end
    end
  end.

End lookup.

Definition get_at_inner (t : Tree) (user_key : bytes) (visible_seqno : SeqNo) (traced : bool)
    : ST LookupTrace (option bytes) :=
  lookup_in user_key visible_seqno traced SSTableReader_get (t_current t).

Definition get_at (t : Tree) (user_key : bytes) (visible_seqno : SeqNo) : Result (option bytes) :=
  snd (get_at_inner t user_key visible_seqno false LookupTrace_default).

Definition get (t : Tree) (user_key : bytes) : Result (option bytes) := get_at t user_key (t_seqno t).

Definition get_at_traced (t : Tree) (user_key : bytes) (visible_seqno : SeqNo) : Result (option bytes * LookupTrace) :=
  let '(trace, out) := get_at_inner t user_key visible_seqno true LookupTrace_default in
  out ← out; Ok (out, trace).

(** [Tree::get_no_bloom] *)
Definition tree_get_no_bloom (t : Tree) (user_key : bytes) : Result (option bytes) :=
  snd (lookup_in user_key (t_seqno t) false get_no_bloom (t_current t) LookupTrace_default).

(** ** Scans *)

(** The sources of a scan: the memtables' entries with a key in the range, and
    the streams of the tables that are not skipped. *)
Definition mem_source (pred : bytes -> bool) (m : Memtable) : list (list Entry) :=
  match filter (fun e => pred (key e) = true) (Memtable_iter m) with [] => [] | es => [es] end.

Fixpoint table_sources (pred : bytes -> bool) (skip : TableHandle -> bool)
    (iter : TableHandle -> Result SSTableBlockIter) (tables : list TableHandle) : Result (list (list Entry)) :=
  match tables with
  | [] => Ok []
  | t :: rest =>
    if skip t then table_sources pred skip iter rest
    else
      it ← iter t;
      es ← BlockIter_drain it;
      sources ← table_sources pred skip iter rest;
      Ok (filter (fun e => pred (key e) = true) es :: sources)
  end.

Definition scan_with (t : Tree) (visible_seqno : SeqNo) (pred : bytes -> bool) (skip : TableHandle -> bool)
    (iter : TableHandle -> Result SSTableBlockIter) : Result (list Entry) :=
  let sv := t_current t in
  let mem := mem_source pred (sv_active sv) ++ (sv_sealed sv ≫= mem_source pred) in
  tables ← table_sources pred skip iter (concat (levels (sv_version sv)));
  merged ← merge_sources (mem ++ tables);
  Ok (filter (fun e => is_value e = true) (MvccStream (t_merge_operator t) visible_seqno merged)).

(** The tables that cannot overlap [lower ..upper). *)
Definition skip_outside (lower : bytes) (upper : option bytes) (t : TableHandle) : bool :=
  (match upper with Some u => bleb u (key_min t) | None => false end) || bltb (key_max t) lower.

Definition prefix_at (t : Tree) (prefix : bytes) (visible_seqno : SeqNo) : Result (list Entry) :=
  let '(lower, upper) := prefix_to_range prefix in
  scan_with t visible_seqno (fun k => starts_with k prefix) (skip_outside lower upper)
    (fun table => BlockIter_new_with_range (th_reader table) lower upper).

(** [Tree::prefix] *)
Definition tree_prefix (t : Tree) (prefix : bytes) : Result (list Entry) := prefix_at t prefix (t_seqno t).

(** The block filter of a table: zone maps that cannot be loaded, or are
    missing for a block, do not prune. *)
Definition filtered_iter (lower : bytes) (upper : option bytes) (block_filter : option (bytes -> nat -> bool))
    (table : TableHandle) : Result SSTableBlockIter :=
  it ← BlockIter_new_with_range (th_reader table) lower upper;
  match block_filter with
  | None => Ok it
  | Some bf =>
    let zone_bytes := match reader_zone_maps (th_reader table) with Ok z => z | _ => [] end in
    match zone_bytes with
    | [] => Ok it
    | _ => let zone_maps := decode_zone_maps zone_bytes in
           Ok (with_block_filter it (fun block_idx =>
             match zone_maps !! block_idx with Some zm => bf zm block_idx | None => true end))
    end
  end.

Definition prefix_iter_filtered (t : Tree) (prefix : bytes) (block_filter : option (bytes -> nat -> bool))
    : Result (list Entry) :=
  let '(lower, upper) := prefix_to_range prefix in
  scan_with t (t_seqno t) (fun k => starts_with k prefix) (skip_outside lower upper) (filtered_iter lower upper block_filter).

Definition prefix_iter (t : Tree) (prefix : bytes) : Result (list Entry) := prefix_iter_filtered t prefix None.

(** The half-open range. *)
Definition in_half_open (start : bytes) (end_ : option bytes) (k : bytes) : bool :=
  bleb start k && (match end_ with Some e => bltb k e | None => true end).

Definition range_iter (t : Tree) (start : bytes) (end_ : option bytes) : Result (list Entry) :=
  scan_with t (t_seqno t) (in_half_open start end_) (skip_outside start end_)
    (fun table => BlockIter_new_with_range (th_reader table) start end_).

(** The closed range. *)
Definition in_closed (start end_ k : bytes) : bool := bleb start k && bleb k end_.

Definition range_stream (t : Tree) (start end_ : bytes) : Result (list Entry) :=
  scan_with t (t_seqno t) (in_closed start end_)
    (fun table => bltb (key_max table) start || bltb end_ (key_min table))
    (fun table => BlockIter_new_with_range (th_reader table) start (Some end_)).

(** [Tree::range] *)
Definition tree_range (t : Tree) (start end_ : bytes) : Result (list Entry) := range_stream t start end_.

Definition scan_all (t : Tree) : Result (list Entry) :=
  scan_with t (t_seqno t) (fun _ => true) (fun _ => false) (fun table => BlockIter_new (th_reader table)).

(** ** Sealing and flushing *)

Definition seal_active (t : Tree) : Tree * bool :=
  let sv := t_current t in
  if Memtable_is_empty (sv_active sv) then (t, false)
  else (set_current (fun sv => mkSuperVersion SM Memtable_new (sv_sealed sv ++ [sv_active sv]) (sv_version sv)) t, true).

Definition persist_manifest (t : Tree) : Tree :=
  set_manifest (Some (manifest_file (sv_version (t_current t)) (dk_next_table_id (t_disk t)) (t_seqno t))) t.

(** A flush that has captured the sealed memtables and written their tables. *)
Record FlushJob := mkFlushJob {
  fj_sealed : list Memtable;
  fj_tables : list TableHandle;
  fj_ids : list Z;
}.

Definition fj_max_flushed (j : FlushJob) : SeqNo :=
  fold_left (fun a m => Z.max a (highest_seqno m)) (fj_sealed j) 0.

(** The loop over the captured memtables: the tables, and the ids taken. *)
Fixpoint flush_memtables (dir : bytes) (cfg : SSTableConfig) (ms : list Memtable)
    : ST Disk (list TableHandle * list Z) :=
  match ms with
  | [] => mret ([], [])
  | m :: rest =>
    table_id ← alloc_table_id;
    let path := sst_path dir table_id in
    o ← lift (flush_memtable m table_id cfg);
    match o with
    | Some (_, file) =>
      _ ← put_file path file;
      handle ← lift (open_table path file);
      '(tables, ids) ← flush_memtables dir cfg rest;
      mret (handle :: tables, table_id :: ids)
    | None =>
      '(tables, ids) ← flush_memtables dir cfg rest;
      mret (tables, table_id :: ids)
    end
  end.

Definition flush_config (t : Tree) : SSTableConfig :=
  let c := config_for_level (t_config t) 0 in
  if t_compaction_enabled t then c else without_bloom c.

(** The first half of [flush_sealed]: nothing to do, or the tables written and
    their ids protected from the orphan sweep. *)
Definition flush_begin : ST Tree (option FlushJob) := fun t =>
  match sv_sealed (t_current t) with
  | [] => (t, Ok None)
  | sealed =>
    match flush_memtables (t_dir t) (flush_config t) sealed (t_disk t) with
    | (d, Ok (tables, ids)) =>
      (set_flushing_ids (t_flushing_ids t ∪ list_to_set ids) (set_disk d t), Ok (Some (mkFlushJob sealed tables ids)))
    | (d, Err e) => (set_disk d t, Err e)
    | (d, Panic) => (set_disk d t, Panic)
    end
  end.

(** The installation, under the version lock: the new tables at the end of
    level 0, as many sealed memtables dropped as were captured. *)
Definition flush_install (j : FlushJob) (t : Tree) : Tree :=
  let sv := t_current t in
  let version := match fj_tables j with [] => sv_version sv | ts => with_new_l0_tables (sv_version sv) ts end in
  let drop_count := Nat.min (length (fj_sealed j)) (length (sv_sealed sv)) in
  set_current (fun sv => mkSuperVersion SM (sv_active sv) (drop drop_count (sv_sealed sv)) version) t.

(** The rest: the manifest, the watermarks, the release of the ids. *)
Definition flush_finish (j : FlushJob) (t : Tree) : Tree :=
  let persisted := t_compaction_enabled t in
  let t := if persisted then persist_manifest t else t in
  let m := fj_max_flushed j in
  let t := if 0 <? m then
      set_seqnos (t_seqno t) (Z.max (t_flushed_seqno t) m)
        (if persisted then Z.max (t_manifest_durable_seqno t) m else t_manifest_durable_seqno t) t
    else t in
  set_flushing_ids (t_flushing_ids t ∖ list_to_set (fj_ids j)) t.

Definition flush_sealed : ST Tree Z :=
  o ← flush_begin;
  match o with
  | None => mret 0
  | Some j => _ ← modify (fun t => flush_finish j (flush_install j t)); mret (blen (fj_tables j))
  end.

(** ** Compaction *)

Definition delete_compacted_inputs (ids : list Z) (t : Tree) : Tree :=
  let d := t_disk t in
  set_disk (mkDisk (foldr (fun id fs => delete (sst_path (t_dir t) id) fs) (dk_files d) ids) (dk_next_table_id d)) t.

(** The installation of a compaction's outcome, under the version lock. *)
Definition compaction_install (old_ids : list Z) (new_tables : list TableHandle) (target : nat) (t : Tree) : Tree :=
  let '(stats, v) := with_compaction_applied (t_stats t) (sv_version (t_current t)) old_ids new_tables target in
  set_version v (set_stats stats (t_trivial_move_count t) (t_major_compact_success_count t) t).

(** [apply_trivial_move]; the bytes saved are a metric. *)
Definition apply_trivial_move (task : CompactionTask) (t : Tree) : Tree :=
  let t := compaction_install (input_ids task) (take 1 (input_tables task)) (target_level task) t in
  let t := persist_manifest t in
  set_stats (t_stats t) (wrap64 (t_trivial_move_count t + 1)) (t_major_compact_success_count t) t.

(** The work of a compaction between the choice of the task and the
    installation. *)
Definition run_compaction (task : CompactionTask) (observer : bool) (zmb : option ZoneMapBuilder)
    : ST Tree CompactionResult := fun t =>
  on_disk (execute_with_observer (t_dir t) (config_for_level (t_config t) (target_level task)) zmb task
    (target_table_size (tc_compaction (t_config t))) observer (t_merge_operator t)) t.

Definition finish_compaction (r : CompactionResult) (t : Tree) : Tree :=
  delete_compacted_inputs (cr_old_ids r) (persist_manifest (compaction_install (cr_old_ids r) (cr_new_tables r) (cr_target_level r) t)).

(** [maybe_compact] with the compaction lock held. *)
Definition maybe_compact : ST Tree bool :=
  o ← (fun t => (t, choose_compaction (sv_version (t_current t)) (tc_compaction (t_config t))));
  match o with
  | None => mret false
  | Some task =>
    trivial ← gets (fun t => is_trivial_move_candidate task (sv_version (t_current t)) (tc_compaction (t_config t)));
    if trivial : bool then _ ← modify (apply_trivial_move task); mret true
    else
      zmb ← gets t_zone_map_builder;
      r ← run_compaction task false zmb;
      _ ← modify (finish_compaction r);
      mret true
  end.

(** [checkpoint_flush]: the flush does not persist the manifest while
    compaction is disabled, so it is persisted here. *)
Definition checkpoint_flush : ST Tree unit := fun t =>
  let was_enabled := t_compaction_enabled t in
  let t := set_compaction_enabled false t in
  let '(t, _) := seal_active t in
  let '(t, flush_res) := flush_sealed t in
  let t := persist_manifest t in
  let t := match flush_res with
           | Ok _ => set_seqnos (t_seqno t) (t_flushed_seqno t) (Z.max (t_manifest_durable_seqno t) (t_flushed_seqno t)) t
           | _ => t
           end in
  let t := set_compaction_enabled was_enabled t in
  (t, match flush_res with Ok _ => Ok tt | Err e => Err e | Panic => Panic end).

(** The loop of [major_compact_with_observer]: one round, with the counter of
    consumed inputs; [None] is the end of the loop. *)
Definition major_round (observer : bool) (max_amp amp_baseline inputs_consumed : Z) : ST Tree (option Z) :=
  if (0 <? max_amp) && (0 <? amp_baseline) && (saturating_mul64 amp_baseline max_amp <? inputs_consumed)
  then lift (Err (CompactionStalled "the level structure is not draining")) else
  force_l0 ← gets (fun t => let v := sv_version (t_current t) in
    if (0 <? l0_table_count v)%nat
    then Some (build_l0_task_batched v (l0_compact_batch_size (tc_compaction (t_config t)))) else None);
  choice ← (match force_l0 with
            | Some task => mret (Some (task, negb observer))
            | None => fun t =>
                (t, o ← choose_compaction (sv_version (t_current t)) (tc_compaction (t_config t));
                    Ok ((fun task => (task, negb observer || (2 <=? target_level task)%nat)) <$> (o : option CompactionTask)))
            end : ST Tree (option (CompactionTask * bool)));
  match choice with
  | None => mret None
  | Some (task, observer_allows) =>
    trivial ← gets (fun t => observer_allows &&
      is_trivial_move_candidate task (sv_version (t_current t)) (tc_compaction (t_config t)));
    if trivial : bool then _ ← modify (apply_trivial_move task); mret (Some (inputs_consumed + 1))
    else
      r ← run_compaction task observer None;
      _ ← modify (finish_compaction r);
      mret (Some (inputs_consumed + blen (cr_old_ids r)))
  end.

Fixpoint major_loop (fuel : nat) (observer : bool) (max_amp amp_baseline inputs_consumed : Z) : ST Tree bool :=
  match fuel with
  | O => mret false
  | S fuel' =>
    o ← major_round observer max_amp amp_baseline inputs_consumed;
    match o with
    | None => mret true
    | Some consumed => major_loop fuel' observer max_amp amp_baseline consumed
    end
  end.

Definition amp_baseline (t : Tree) : Z :=
  let tables := concat (levels (sv_version (t_current t))) in
  let initial_inputs := blen tables in
  let total_blocks := sum_u64 (map (fun h => sm_block_count (meta h)) tables) in
  let block_sz := Z.max (sc_data_block_size (tc_sstable (t_config t))) 1 in
  let tgt := Z.max (target_table_size (tc_compaction (t_config t))) 1 in
  let blocks_per_target := Z.max (tgt / block_sz) 1 in
  Z.max initial_inputs (total_blocks / blocks_per_target).

(** The names of the files in a directory. *)
Definition name_in (dir path : bytes) : option bytes :=
  let root := path_join dir [] in
  if starts_with path root && forallb (fun c => negb (c =? 47)) (drop (length root) path)
  then Some (drop (length root) path) else None.

(** [name.trim_end_matches(".sst").parse::<u64>()] of a name that ends so. *)
Fixpoint trim_sst (fuel : nat) (name : bytes) : bytes :=
  match fuel, strip_suffix name (str ".sst") with
  | S fuel', Some n => trim_sst fuel' n
  | _, _ => name
  end.

Definition orphan_name_id (name : bytes) : option Z :=
  match strip_suffix name (str ".sst") with
  | Some _ => parse_u64 (trim_sst (length name) name)
  | None => None
  end.

Definition orphan_is_deletable (id : Z) (referenced : list Z) (max_referenced : Z) (in_flight : gset Z) : bool :=
  negb (bool_decide (id ∈ referenced)) && (id <=? max_referenced) && negb (bool_decide (id ∈ in_flight)).

Definition cleanup_orphan_ssts (t : Tree) : Tree :=
  let referenced := map table_id (concat (levels (sv_version (t_current t)))) in
  let max_referenced := fold_left Z.max referenced 0 in
  let keep (p : bytes) :=
    match name_in (t_dir t) p with
    | Some name => match orphan_name_id name with
                   | Some id => negb (orphan_is_deletable id referenced max_referenced (t_flushing_ids t))
                   | None => true
                   end
    | None => true
    end in
  let d := t_disk t in
  set_disk (mkDisk (filter (fun x => keep x.1 = true) (dk_files d)) (dk_next_table_id d)) t.

(** [major_compact_with_observer]; the pre-warming of the page cache and the
    progress log are not part of the state. [fuel] bounds the rounds; [false] is
    a run that has used it up. An error of the flush or of a round's work leaves
    compaction disabled, a stall restores it. *)
Definition major_compact_with_observer (fuel : nat) (observer : bool) : ST Tree bool := fun t =>
  let was_enabled := t_compaction_enabled t in
  let t := set_compaction_enabled false t in
  match flush_sealed t with
  | (t, Ok _) =>
    match major_loop fuel observer (max_compaction_amplification (tc_compaction (t_config t))) (amp_baseline t) 0 t with
    | (t, Ok false) => (t, Ok false)
    | (t, Ok true) =>
      let t := cleanup_orphan_ssts t in
      let t := if was_enabled then set_compaction_enabled true t else t in
      let t := set_seqnos (t_seqno t) (t_flushed_seqno t) (Z.max (t_manifest_durable_seqno t) (t_flushed_seqno t)) t in
      (set_stats (t_stats t) (t_trivial_move_count t) (wrap64 (t_major_compact_success_count t + 1)) t, Ok true)
    | (t, Err (CompactionStalled m)) =>
      (if was_enabled then set_compaction_enabled true t else t, Err (CompactionStalled m))
    | (t, Err e) => (t, Err e)
    | (t, Panic) => (t, Panic)
    end
  | (t, Err e) => (t, Err e)
  | (t, Panic) => (t, Panic)
  end.

(** ** Ingestion of sorted entries *)

Definition ingest_sorted (entries : list Entry) : ST Tree Z := fun t =>
  let config := without_bloom (config_for_level (t_config t) 0) in
  match on_disk (write_tables (t_dir t) config None (tc_max_memtable_size (t_config t)) entries [] None 0) t with
  | (t, Ok new_tables) =>
    let max_seqno := fold_left (fun a e => if a <? seqno e then seqno e else a) entries 0 in
    let t := if 0 <? max_seqno
             then set_seqnos (Z.max (t_seqno t) max_seqno) (t_flushed_seqno t) (t_manifest_durable_seqno t) t else t in
    let t := match new_tables with
             | [] => t
             | _ => set_version (with_new_l0_tables (sv_version (t_current t)) new_tables) t
             end in
    (persist_manifest t, Ok (blen entries))
  | (t, Err e) => (t, Err e)
  | (t, Panic) => (t, Panic)
  end.

(** ** Opening *)

(** The tables of one manifest level whose file exists. *)
Fixpoint open_level (files : gmap bytes bytes) (entries : list ManifestTableEntry) : Result (list TableHandle) :=
  match entries with
  | [] => Ok []
  | e :: rest =>
    match files !! me_path e with
    | None => open_level files rest
    | Some file =>
      handle ← open_table (me_path e) file;
      handles ← open_level files rest;
      Ok (handle :: handles)
    end
  end.

(** [version.levels[level_idx].push(..)]: a table past the last level panics. *)
Fixpoint open_levels (files : gmap bytes bytes) (n : nat) (ls : list (list ManifestTableEntry)) : Result (list (list TableHandle)) :=
  match ls with
  | [] => Ok (replicate n [])
  | l :: rest =>
    handles ← open_level files l;
    match n with
    | O => match handles with [] => open_levels files O rest | _ => Panic end
    | S n' => rest ← open_levels files n' rest; Ok (handles :: rest)
    end
  end.

(** The sort of the levels above 0 on load, with the guard. *)
Definition sort_levels (stats : OverlapStats) (ls : list (list TableHandle)) : OverlapStats * list (list TableHandle) :=
  match ls with
  | [] => (stats, [])
  | l0 :: rest =>
    let rest := map sort_by_key_min rest in
    (fold_left check_level_non_overlapping rest stats, l0 :: rest)
  end.

Definition max_on_disk_table_id (dir : bytes) (files : gmap bytes bytes) : Z :=
  foldr Z.max 0 (omap (fun x => name_in dir x.1 ≫= sst_id) (map_to_list files)).

(** [.sst.tmp] debris is removed on open. *)
Definition is_tmp_debris (dir path : bytes) : bool :=
  match name_in dir path with
  | Some name => match strip_suffix name (str ".sst.tmp") with Some _ => true | None => false end
  | None => false
  end.

Definition Tree_open (dir : bytes) (config : TreeConfig) (files : gmap bytes bytes) (manifest : option bytes)
    (stats : OverlapStats) : Result Tree :=
  let files := filter (fun x => is_tmp_debris dir x.1 = false) files in
  o ← read_manifest manifest;
  '(stats, v, next_table_id, next_seqno) ←
    (match o with
     | Some m =>
       ls ← open_levels files MAX_LEVELS (md_levels m);
       let '(stats, ls) := sort_levels stats ls in
       Ok (stats, mkVersion ls, md_next_table_id m, md_next_seqno m)
     | None => Ok (stats, Version_new, 1, 0)
     end);
  let next_table_id := Z.max next_table_id (wrap64 (max_on_disk_table_id dir files + 1)) in
  Ok (mkTree SM dir config None None (mkSuperVersion SM Memtable_new [] v) (mkDisk files next_table_id) manifest
        next_seqno next_seqno next_seqno true ∅ stats 0 0).

(** ** Scrubbing *)

Record TreeScrubReport := mkTreeScrubReport {
  ssts_scanned : nat;
  blocks_scanned : Z;
  corrupt_ssts : list (bytes * Z * list nat);
  manifest_ok : bool;
}.

Definition scrub (t : Tree) : TreeScrubReport :=
  let tables := concat (levels (sv_version (t_current t))) in
  mkTreeScrubReport (length tables)
    (foldr (fun h n => sm_block_count (meta h) + n) 0 tables)
    (omap (fun h => match verify_blocks (th_reader h) with
                    | [] => None
                    | bad => Some (th_path h, rd_table_id (th_reader h), bad)
                    end) tables)
    (match read_manifest (t_manifest t) with Ok _ => true | _ => false end).

End tree.
