(* ===== verification/TreeReads.v ===== *)
(** * Reads of the tree

    What point reads and scans return, in terms of the contents of the tree: the
    entries of its layers from the newest to the oldest. *)

From S2P Require Import Prelude Types Block Bloom Memtable Merge Streams TableMeta TableWriter.
From S2P Require Import TableReader Version Leveled Paths Worker Manifest Tree.

(** ** Layers *)

(** One entry per key and sequence number. *)
Definition uniq (es : list Entry) : Prop :=
  forall a b, a ∈ es -> b ∈ es -> key a = key b -> seqno a = seqno b -> a = b.

(** A layer over an older one: its versions of a key are newer. The replay of
    the log may bring back, in the upper layer, versions of a plain key that the
    lower one has too; then it brings back every newer one. *)
Definition above (mo : option MergeOperator) (A B : list Entry) : Prop :=
  forall a b, a ∈ A -> b ∈ B -> key a = key b -> seqno b < seqno a \/ (owned mo (key b) = false /\ b ∈ A).

Record stacked (mo : option MergeOperator) (ls : list (list Entry)) : Prop := {
  st_sorted : Forall ssorted ls;
  st_above : StronglySorted (above mo) ls;
}.

Lemma ssorted_uniq es : ssorted es -> uniq es.
Proof.
  intros Hs a b Ha Hb Hk Hq. apply list_elem_of_lookup in Ha as [i Hi], Hb as [j Hj].
  destruct (Nat.lt_trichotomy i j) as [Hlt|[->|Hlt]]; [|congruence|].
  - pose proof (StronglySorted_lookup _ _ _ _ _ _ Hs Hlt Hi Hj) as H. rewrite entry_lt_iff in H.
    destruct H as [?|[? ?]]; [rewrite Hk in *; border|lia].
  - pose proof (StronglySorted_lookup _ _ _ _ _ _ Hs Hlt Hj Hi) as H. rewrite entry_lt_iff in H.
    destruct H as [?|[? ?]]; [rewrite Hk in *; border|lia].
Qed.

Lemma sorted_uniq_ssorted es : sorted es -> NoDup es -> uniq es -> ssorted es.
Proof.
  induction 1 as [|e es Hs IH He]; intros Hn Hu; constructor; apply NoDup_cons in Hn as [Hne Hn].
  { apply IH; [done|]. intros a b Ha Hb. apply Hu; by right. }
  rewrite Forall_forall in *. intros b Hb. specialize (He b Hb). rewrite entry_le_iff in He. rewrite entry_lt_iff.
  destruct He as [?|[Hk Hq]]; [by left|right]. split; [done|]. apply Z.le_neq. split; [done|]. intros Heq.
  rewrite (Hu e b) in Hne; [done|by left|by right|done|done].
Qed.

Lemma stacked_cons mo l ls :
  stacked mo (l :: ls) <-> ssorted l /\ stacked mo ls /\ above mo l (concat ls).
Proof.
  split.
  - intros [H1 H2]. apply Forall_cons in H1 as [? ?]. apply StronglySorted_inv in H2 as [? H2].
    split; [done|]. split; [by split|]. intros a b Ha (l' & Hb & Hl)%elem_of_concat.
    rewrite Forall_forall in H2. by apply (H2 l' Hl).
  - intros (H1 & [H2 H3] & H4). split; [by constructor|]. constructor; [done|]. apply Forall_forall. intros l' Hl a b Ha Hb.
    apply H4; [done|]. apply elem_of_concat. eauto.
Qed.

Lemma stacked_app mo A B :
  stacked mo (A ++ B) <-> stacked mo A /\ stacked mo B /\ forall a b, a ∈ A -> b ∈ B -> above mo a b.
Proof.
  split.
  - intros [H1 H2]. apply Forall_app in H1 as [? ?]. split; [split; [done|by eapply StronglySorted_app_1_l]|].
    split; [split; [done|by eapply StronglySorted_app_1_r]|]. intros a b. by apply StronglySorted_app_1_elem_of.
  - intros ([H1 H2] & [H3 H4] & H). split; [by apply Forall_app|]. by apply StronglySorted_app_2.
Qed.

Lemma above_sub mo A B B' : above mo A B -> (forall b, b ∈ B' -> b ∈ B) -> above mo A B'.
Proof. intros H Hs a b Ha Hb. apply H; auto. Qed.

Lemma stacked_uniq mo ls : stacked mo ls -> uniq (concat ls).
Proof.
  induction ls as [|l ls IH]; [by intros _ a b ?%elem_of_nil|]. intros (Hl & Hls & Hab)%stacked_cons. simpl.
  assert (forall a b, a ∈ l -> b ∈ concat ls -> key a = key b -> seqno a = seqno b -> a = b) as Hx.
  { intros a b Ha Hb Hk Hq. destruct (Hab a b Ha Hb Hk) as [?|[_ Hb']]; [lia|]. by apply (ssorted_uniq l). }
  intros a b [Ha|Ha]%elem_of_app [Hb|Hb]%elem_of_app Hk Hq; [by apply (ssorted_uniq l)|by apply Hx| |by apply IH].
  symmetry. by apply Hx.
Qed.

(** In a stack the first visible version is the newest one. *)
Lemma first_visible_stacked mo ls k s : stacked mo ls -> newest s k (concat ls) (first_visible (concat ls) k s).
Proof.
  induction ls as [|l ls IH]; [by intros _ ? ?%elem_of_nil|]. intros (Hl & Hls & Hab)%stacked_cons. simpl.
  rewrite first_visible_app. pose proof (first_visible_newest l k s (ssorted_sorted l Hl)) as Hn. specialize (IH Hls).
  destruct (first_visible l k s) as [x|]; simpl in Hn.
  - destruct Hn as (Hx & Hk & Hq & Hm). split; [apply elem_of_app; by left|]. do 2 (split; [done|]).
    intros e [He|He]%elem_of_app Hke Hqe; [auto|]. destruct (Hab x e Hx He) as [?|[_ He']]; [congruence|lia|auto].
  - destruct (first_visible (concat ls) k s) as [x|]; simpl in *.
    + destruct IH as (Hx & Hk & Hq & Hm). split; [apply elem_of_app; by right|]. do 2 (split; [done|]).
      intros e [He|He]%elem_of_app Hke Hqe; [|auto]. specialize (Hn e He Hke). lia.
    + intros e [He|He]%elem_of_app Hke; auto.
Qed.

Section reads.
Context {XH : Xxh3} {CD : Codecs} {SM : SkipMap} {BH : BinaryHeap}.

(** ** The contents of a tree *)

(** The memtables from the newest to the oldest. *)
Definition memtables (sv : SuperVersion) : list Memtable := sv_active sv :: reverse (sv_sealed sv).

Definition mem_contents (sv : SuperVersion) : list Entry := concat (Memtable_iter <$> memtables sv).

(** The entries of the tables of a level; level 0 from the newest table on. *)
Definition entries_of (ts : list TableHandle) : list Entry := concat (table_entries <$> ts).
Definition level_entries (v : Version) (i : nat) : list Entry :=
  entries_of (if (i =? 0)%nat then reverse (level v 0) else level v i).

Definition table_contents (v : Version) : list Entry := concat (level_entries v <$> seq 0 MAX_LEVELS).

Definition contents (sv : SuperVersion) : list Entry := mem_contents sv ++ table_contents (sv_version sv).

(** What a reader at [s] sees for [k]. *)
Definition view (mo : option MergeOperator) (s : SeqNo) (k : bytes) (es : list Entry) : option bytes :=
  scan_value mo s k (merge_sort entry_le es).

(** The invariant. *)
Definition mem_ok (m : Memtable) : Prop :=
  Memtable_ok m /\ Forall (fun e => norm_entry e = e) (Memtable_iter m).

Record Version_ok (v : Version) : Prop := {
  vo_shape : Version_shape v;
  vo_tables : Forall table_ok (concat (levels v));
}.

(** The layers of the tables: the tables of level 0 from the newest on, then one
    layer per level. *)
Definition table_layers (v : Version) : list (list Entry) :=
  (table_entries <$> reverse (level v 0)) ++ ((fun i => entries_of (level v i)) <$> seq 1 (MAX_LEVELS - 1)).

Definition layers (sv : SuperVersion) : list (list Entry) :=
  (Memtable_iter <$> memtables sv) ++ table_layers (sv_version sv).

Record sv_ok (mo : option MergeOperator) (sv : SuperVersion) : Prop := {
  so_mem : Forall mem_ok (memtables sv);
  so_version : Version_ok (sv_version sv);
  so_stacked : stacked mo (layers sv);
}.

Lemma concat_table_layers v : concat (table_layers v) = table_contents v.
Proof.
  unfold table_layers, table_contents. rewrite concat_app. change (seq 0 MAX_LEVELS) with (0%nat :: seq 1 (MAX_LEVELS - 1)).
  cbn [fmap list_fmap concat]. f_equal.
Qed.

Lemma concat_layers sv : concat (layers sv) = contents sv.
Proof. unfold layers, contents. by rewrite concat_app, concat_table_layers. Qed.

Lemma contents_uniq mo sv : sv_ok mo sv -> uniq (contents sv).
Proof. intros []. rewrite <- concat_layers. by eapply stacked_uniq. Qed.

Lemma first_visible_contents mo sv k s : sv_ok mo sv -> newest s k (contents sv) (first_visible (contents sv) k s).
Proof. intros []. rewrite <- concat_layers. by eapply first_visible_stacked. Qed.

Lemma level_ok v i : Version_ok v -> Forall table_ok (level v i).
Proof. intros []. rewrite Forall_forall in *. intros t Ht. eapply vo_tables0, elem_of_level, Ht. Qed.

(** ** Point reads *)

Section lookup.
Context (k : bytes) (s : SeqNo) (traced : bool).

(** An answer found in a layer. *)
Abbreviation answer es := ((fun e => live (Some e)) <$> first_visible es k s).

(** A search that finds what the layers have, and notes no anomaly. *)
Definition finds (m : ST LookupTrace (option (option bytes))) (es : list Entry) : Prop :=
  forall tr, is_clean tr = true -> exists tr', m tr = (tr', Ok (answer es)) /\ is_clean tr' = true.

Lemma finds_app m1 m2 A B :
  finds m1 A -> finds m2 B ->
  finds (o ← m1; match o with Some a => mret (Some a) | None => m2 end) (A ++ B).
Proof.
  intros H1 H2 tr Hc. destruct (H1 tr Hc) as (tr1 & E1 & Hc1). rewrite (ST_bind_Ok _ _ _ _ _ E1), first_visible_app.
  destruct (first_visible A k s); cbn [fmap option_fmap option_map]; [eauto|by apply H2].
Qed.

Lemma note_gate_clean gate tr :
  is_clean tr = true -> exists tr', note_gate traced gate tr = (tr', Ok tt) /\ is_clean tr' = true.
Proof. intros Hc. unfold note_gate, modify. eexists. split; [done|]. by destruct traced. Qed.

Lemma search_table_finds read lvl t :
  table_ok t -> (forall k s, read (th_reader t) k s = Ok (first_visible (table_entries t) k s)) ->
  finds (search_table k s traced read lvl t) (table_entries t).
Proof.
  intros Ht Hr tr Hc. unfold search_table. erewrite ST_bind_Ok by (unfold lift; rewrite Hr; reflexivity).
  destruct (first_visible (table_entries t) k s) as [e|] eqn:E; cbn [fmap option_fmap option_map].
  - destruct (note_gate_clean (InTable lvl (table_id t) (is_tombstone (value_type e))) tr Hc) as (tr' & E' & Hc').
    rewrite (ST_bind_Ok _ _ _ _ _ E'). eauto.
  - unfold note_absent_table. destruct traced; [|eauto].
    erewrite ST_bind_Ok; [eauto|]. by erewrite ST_bind_Ok by (unfold lift; rewrite (tk_get_no_bloom t Ht), E; reflexivity).
Qed.

Lemma table_without t : table_ok t -> (k < key_min t)%bytes \/ (key_max t < k)%bytes ->
  first_visible (table_entries t) k s = None.
Proof.
  intros Ht Hout. apply first_visible_None. intros e He Hk. destruct (table_bounds t e Ht He). subst k.
  destruct Hout; border.
Qed.

Lemma search_l0_finds read ts :
  Forall table_ok ts -> (forall t, t ∈ ts -> forall k s, read (th_reader t) k s = Ok (first_visible (table_entries t) k s)) ->
  finds (search_l0 k s traced read ts) (entries_of ts).
Proof.
  induction 1 as [|t ts Ht _ IH]; intros Hr; [by intros tr Hc; eexists|].
  cbn [search_l0]. unfold entries_of. cbn [fmap list_fmap concat].
  specialize (IH ltac:(intros; apply Hr; by right)).
  destruct (bltb k (key_min t) || bltb (key_max t) k) eqn:E.
  - intros tr Hc. rewrite first_visible_app, (table_without t Ht); [by apply IH|].
    apply orb_true_iff in E as [?|?]; [left|right]; border.
  - apply finds_app; [|done]. apply search_table_finds; [done|]. apply Hr. by left.
Qed.

Lemma search_run_finds read lvl ts :
  disjoint_run ts -> Forall table_ok ts ->
  (forall t, t ∈ ts -> forall k s, read (th_reader t) k s = Ok (first_visible (table_entries t) k s)) ->
  finds (search_run k s traced read lvl ts) (entries_of ts).
Proof.
  intros Hd Ht Hr. rewrite Forall_forall in Ht.
  assert (partitioned (range_cmp k) ts) as Hp.
  { intros i j a b Hij Hi Hj. pose proof (StronglySorted_lookup _ _ _ _ _ _ Hd Hij Hi Hj) as Hab. simpl in Hab.
    pose proof (table_bounded a (Ht a (list_elem_of_lookup_2 _ _ _ Hi))).
    pose proof (table_bounded b (Ht b (list_elem_of_lookup_2 _ _ _ Hj))).
    unfold range_cmp. split; intros H'; revert H'; repeat case_match; try done; intros _; exfalso; border. }
  pose proof (binary_search_by_spec _ _ Hp) as Hs. unfold search_run.
  destruct (binary_search_by (range_cmp k) ts) as [i|i].
  - destruct Hs as [(t & Hi & Heq) _]. rewrite Hi.
    assert (first_visible (entries_of ts) k s = first_visible (table_entries t) k s) as E.
    { apply (first_visible_block (table_entries <$> ts) i); [by rewrite list_lookup_fmap, Hi|].
      intros j es e Hj He Hk. rewrite list_lookup_fmap in Hj. destruct (ts !! j) as [u|] eqn:Eu; [|done]. injection Hj as <-.
      destruct (table_bounds u e (Ht u (list_elem_of_lookup_2 _ _ _ Eu)) He) as [Hb1 Hb2]. subst k.
      unfold range_cmp in Heq. destruct (bltb (key_max t) (key e)) eqn:E1, (bltb (key e) (key_min t)) eqn:E2; try done.
      destruct (Nat.lt_trichotomy j i) as [Hlt|[?|Hlt]]; [|done|].
      - pose proof (StronglySorted_lookup _ _ _ _ _ _ Hd Hlt Eu Hi). simpl in *. exfalso. border.
      - pose proof (StronglySorted_lookup _ _ _ _ _ _ Hd Hlt Hi Eu). simpl in *. exfalso. border. }
    intros tr Hc. rewrite E. apply list_elem_of_lookup_2 in Hi. apply search_table_finds; [by apply Ht|by apply Hr|done].
  - destruct Hs as (Hi & Hlt & Hge).
    assert (forall t, t ∈ ts -> (k < key_min t)%bytes \/ (key_max t < k)%bytes) as Hout.
    { intros t [j Hj]%list_elem_of_lookup. destruct (decide (j < i)%nat) as [Hji|Hji].
      - specialize (Hlt j t Hji Hj). unfold range_cmp in Hlt. repeat case_match; try done. right. border.
      - specialize (Hge j t ltac:(lia) Hj). unfold range_cmp in Hge. repeat case_match; try done. left. border. }
    assert (first_visible (entries_of ts) k s = None) as E.
    { apply first_visible_None. intros e (es & He & (t & -> & Htt)%list_elem_of_fmap)%elem_of_concat Hk.
      destruct (table_bounds t e (Ht t Htt) He). subst k. destruct (Hout t Htt); border. }
    intros tr Hc. rewrite E. erewrite ST_bind_Ok by reflexivity.
    destruct (existsb _ ts) eqn:Ex; [|rewrite andb_false_r; eauto].
    apply existsb_exists in Ex as (t & Htt & Hin). apply list_elem_of_In in Htt.
    apply andb_true_iff in Hin as [??]. destruct (Hout t Htt); border.
Qed.

(** A way to read tables that is right for the tables of a version. *)
Definition reads_right (read : SSTableReader -> bytes -> SeqNo -> Result (option Entry)) (v : Version) : Prop :=
  forall t, t ∈ concat (levels v) -> forall k s, read (th_reader t) k s = Ok (first_visible (table_entries t) k s).

Lemma search_levels_finds read v n lvl :
  Version_ok v -> reads_right read v -> (lvl + n = MAX_LEVELS)%nat ->
  finds (search_levels k s traced read lvl (drop lvl (levels v))) (concat (level_entries v <$> seq lvl n)).
Proof.
  intros Hv Hr. pose proof (vo_shape v Hv) as Hsh. revert lvl; induction n as [|n IH]; intros lvl Hn.
  - rewrite drop_ge by (rewrite (vs_length v Hsh); lia). intros tr Hc. by eexists.
  - rewrite (drop_S (levels v) (level v lvl) lvl) by (apply level_lookup; rewrite (vs_length v Hsh); lia).
    cbn [seq fmap list_fmap concat search_levels].
    pose proof (level_ok v lvl Hv) as Hok.
    assert (forall t, t ∈ level v lvl -> forall k s, read (th_reader t) k s = Ok (first_visible (table_entries t) k s)) as Hrl.
    { intros t Ht. apply Hr. by eapply elem_of_level. }
    apply finds_app; [|apply IH; lia]. unfold level_entries. destruct (Nat.eqb_spec lvl 0) as [->|].
    + apply search_l0_finds; [by apply Forall_reverse|]. intros t Ht%elem_of_reverse. rewrite reverse_involutive in Ht. auto.
    + apply search_run_finds; [apply (vs_runs v Hsh); lia|done|done].
Qed.

Lemma memtable_answer m :
  mem_ok m ->
  Memtable_get m k s = (fun e => (value_type e, value e)) <$> first_visible (Memtable_iter m) k s.
Proof. intros [Hm _]. by apply Memtable_get_first_visible. Qed.

Lemma live_tombstone e :
  (if is_tombstone (value_type e) then None else Some (value e)) = live (Some e).
Proof. simpl. by destruct (value_type e). Qed.

Lemma search_sealed_finds ms :
  Forall mem_ok ms -> finds (search_sealed k s traced ms) (concat (Memtable_iter <$> ms)).
Proof.
  induction 1 as [|m ms Hm _ IH]; [by intros tr Hc; eexists|]. cbn [search_sealed fmap list_fmap concat].
  rewrite (memtable_answer m Hm). intros tr Hc. rewrite first_visible_app.
  destruct (first_visible (Memtable_iter m) k s) as [e|]; cbn [fmap option_fmap option_map]; [|by apply IH].
  destruct (note_gate_clean (SealedMemtable (is_tombstone (value_type e))) tr Hc) as (tr' & E' & Hc').
  rewrite (ST_bind_Ok _ _ _ _ _ E'). rewrite live_tombstone. eauto.
Qed.

(** The lookup answers with the first visible version of the layers. *)
Lemma lookup_in_spec read sv tr :
  Forall mem_ok (memtables sv) -> Version_ok (sv_version sv) -> reads_right read (sv_version sv) -> is_clean tr = true ->
  exists tr', lookup_in k s traced read sv tr = (tr', Ok (live (first_visible (contents sv) k s))) /\ is_clean tr' = true.
Proof.
  intros Hm Hv Hr Hc. unfold memtables in Hm. apply Forall_cons in Hm as [Ha Hs].
  unfold lookup_in, contents, mem_contents, memtables. cbn [fmap list_fmap concat]. rewrite <- app_assoc, first_visible_app.
  rewrite (memtable_answer _ Ha). destruct (first_visible (Memtable_iter (sv_active sv)) k s) as [e|];
    cbn [fmap option_fmap option_map].
  { destruct (note_gate_clean (ActiveMemtable (is_tombstone (value_type e))) tr Hc) as (tr' & E' & Hc').
    rewrite (ST_bind_Ok _ _ _ _ _ E'), live_tombstone. eauto. }
  destruct (search_sealed_finds _ Hs tr Hc) as (tr1 & E1 & Hc1). rewrite (ST_bind_Ok _ _ _ _ _ E1), first_visible_app.
  destruct (first_visible (concat _) k s) as [e|] eqn:Ee; cbn [fmap option_fmap option_map]; [eauto|].
  destruct (search_levels_finds read _ MAX_LEVELS 0 Hv Hr eq_refl tr1 Hc1) as (tr2 & E2 & Hc2). rewrite drop_0 in E2.
  rewrite (ST_bind_Ok _ _ _ _ _ E2). unfold table_contents.
  destruct (first_visible (concat (level_entries _ <$> seq 0 MAX_LEVELS)) k s) as [e|]; cbn [fmap option_fmap option_map]; [eauto|].
  destruct (note_gate_clean NotFoundGate tr2 Hc2) as (tr3 & E3 & Hc3). rewrite (ST_bind_Ok _ _ _ _ _ E3). eauto.
Qed.

End lookup.

Lemma reads_right_get v : Version_ok v -> reads_right SSTableReader_get v /\ reads_right get_no_bloom v.
Proof.
  intros []. rewrite Forall_forall in vo_tables0. split; intros t Ht k s.
  - by apply tk_get, vo_tables0.
  - by apply tk_get_no_bloom, vo_tables0.
Qed.

Lemma get_at_spec t k s :
  sv_ok (t_merge_operator t) (t_current t) -> get_at t k s = Ok (live (first_visible (contents (t_current t)) k s)).
Proof.
  intros [Hm Hv _]. destruct (reads_right_get _ Hv) as [Hr _]. unfold get_at, get_at_inner.
  by destruct (lookup_in_spec k s false _ (t_current t) LookupTrace_default Hm Hv Hr eq_refl) as (tr & -> & _).
Qed.

(** A point read returns the newest visible version. In any tree that
    satisfies the invariant, [get_at] finds, over the active memtable, the sealed
    ones and every level of tables, the version of the key with the highest
    sequence number at or below the snapshot, and answers with its value, or
    with nothing if that version is a tombstone or there is none; the read that
    bypasses the bloom filters agrees, and the traced read reports no bloom false
    negative and no table the bisection of a level has missed. *)
Theorem get_at_newest t k s :
  sv_ok (t_merge_operator t) (t_current t) ->
  exists o, newest s k (contents (t_current t)) o /\
    get_at t k s = Ok (live o) /\
    (s = t_seqno t -> tree_get_no_bloom t k = Ok (live o)) /\
    exists tr, get_at_traced t k s = Ok (live o, tr) /\ is_clean tr = true.
Proof.
  intros Hok. pose proof Hok as [Hm Hv Hrk]. destruct (reads_right_get _ Hv) as [Hr Hr'].
  exists (first_visible (contents (t_current t)) k s). split; [by eapply first_visible_contents|].
  split; [by apply get_at_spec|]. split.
  - intros ->. unfold tree_get_no_bloom.
    by destruct (lookup_in_spec k (t_seqno t) false _ (t_current t) LookupTrace_default Hm Hv Hr' eq_refl) as (tr & -> & _).
  - unfold get_at_traced, get_at_inner.
    destruct (lookup_in_spec k s true _ (t_current t) LookupTrace_default Hm Hv Hr eq_refl) as (tr & -> & Hc).
    rewrite Result_bind_Ok. eauto.
Qed.

(** ** Scans *)

Lemma entries_of_app a b : entries_of (a ++ b) = entries_of a ++ entries_of b.
Proof. unfold entries_of. by rewrite fmap_app, concat_app. Qed.

Lemma entries_of_perm a b : a ≡ₚ b -> entries_of a ≡ₚ entries_of b.
Proof.
  unfold entries_of. induction 1 as [|t a b _ IH|t u a|a b c _ IH1 _ IH2]; cbn [fmap list_fmap concat].
  - done.
  - by rewrite IH.
  - rewrite !app_assoc. apply Permutation_app_tail, Permutation_app_comm.
  - by rewrite IH1, IH2.
Qed.

Lemma elem_of_entries_of ts e : e ∈ entries_of ts <-> exists t, t ∈ ts /\ e ∈ table_entries t.
Proof.
  unfold entries_of. rewrite elem_of_concat. split.
  - intros (es & He & (t & -> & Ht)%list_elem_of_fmap). eauto.
  - intros (t & Ht & He). exists (table_entries t). split; [done|]. by apply list_elem_of_fmap_2.
Qed.

Lemma level_entries_perm v i : level_entries v i ≡ₚ entries_of (level v i).
Proof. unfold level_entries. destruct (Nat.eqb_spec i 0) as [->|]; [|done]. apply entries_of_perm, reverse_Permutation. Qed.

Lemma levels_seq v : Version_shape v -> levels v = level v <$> seq 0 MAX_LEVELS.
Proof.
  intros Hv. apply list_eq. intros i. rewrite list_lookup_fmap. destruct (decide (i < MAX_LEVELS)%nat).
  - rewrite lookup_seq_lt by done. cbn. apply level_lookup. by rewrite (vs_length v Hv).
  - rewrite lookup_seq_ge by lia. apply lookup_ge_None_2. rewrite (vs_length v Hv). lia.
Qed.

Lemma table_contents_perm v : Version_shape v -> table_contents v ≡ₚ entries_of (concat (levels v)).
Proof.
  intros Hv. rewrite (levels_seq v Hv). unfold table_contents. induction (seq 0 MAX_LEVELS) as [|i l IH]; [done|].
  cbn [fmap list_fmap concat]. rewrite entries_of_app, IH, level_entries_perm. done.
Qed.

Lemma elem_of_table_contents v e :
  Version_shape v -> e ∈ table_contents v <-> exists i t, t ∈ level v i /\ e ∈ table_entries t.
Proof.
  intros Hv. rewrite table_contents_perm, elem_of_entries_of by done. split.
  - intros (t & [i Ht]%elem_of_levels & He). eauto.
  - intros (i & t & Ht & He). exists t. split; [by eapply elem_of_level|done].
Qed.

Section scan.
Context (pred : bytes -> bool) (skip : TableHandle -> bool) (iter : TableHandle -> Result SSTableBlockIter).

Abbreviation pick := (filter (fun e => pred (key e) = true)).

(** A scan may skip a table, or a part of one, only if no key of it is asked for. *)
Definition scan_covers (t : TableHandle) : Prop :=
  if skip t then forall e, e ∈ table_entries t -> pred (key e) = false
  else exists it pre mid post, iter t = Ok it /\ BlockIter_drain it = Ok mid /\ table_entries t = pre ++ mid ++ post /\
    (forall e, e ∈ pre ++ post -> pred (key e) = false).

Lemma pick_none es : (forall e, e ∈ es -> pred (key e) = false) -> pick es = [].
Proof. intros H. apply filter_none. intros e He. rewrite (H e He). done. Qed.

Lemma sorted_pick es : sorted es -> sorted (pick es).
Proof.
  induction 1 as [|e es _ IH He]; [constructor|]. rewrite filter_cons. case_decide; [|done]. constructor; [done|].
  rewrite Forall_forall in *. intros x [_ Hx]%list_elem_of_filter. auto.
Qed.

Lemma table_sources_spec ts :
  Forall table_ok ts -> Forall scan_covers ts ->
  exists sources, table_sources pred skip iter ts = Ok sources /\ Forall sorted sources /\
    concat sources = pick (entries_of ts).
Proof.
  induction 1 as [|t ts Ht _ IH]; intros Hc; [by exists []|]. apply Forall_cons in Hc as [Hct Hc].
  destruct (IH Hc) as (sources & Hs & Hsort & Hcat). cbn [table_sources]. unfold entries_of in *. cbn [fmap list_fmap concat].
  rewrite filter_app. unfold scan_covers in Hct. destruct (skip t).
  - exists sources. split; [done|]. split; [done|]. by rewrite (pick_none (table_entries t)).
  - destruct Hct as (it & pre & mid & post & Hit & Hdr & Hes & Hout).
    rewrite Hit, Result_bind_Ok, Hdr, Result_bind_Ok, Hs, Result_bind_Ok.
    exists (pick mid :: sources). split; [done|].
    assert (pick (table_entries t) = pick mid) as Hp.
    { rewrite Hes, !filter_app, (pick_none pre), (pick_none post), app_nil_r; [done|..];
        intros e He; apply Hout, elem_of_app; tauto. }
    split; [|cbn [concat]; by rewrite Hp, Hcat]. constructor; [|done]. rewrite <- Hp. apply sorted_pick, (tk_sorted t Ht).
Qed.

Lemma mem_source_spec m :
  concat (mem_source pred m) = pick (Memtable_iter m) /\ Forall sorted (mem_source pred m).
Proof.
  unfold mem_source. pose proof (sorted_pick _ (ssorted_sorted _ (Memtable_iter_sorted m))) as Hs.
  destruct (pick (Memtable_iter m)) as [|e es]; [by split; [|constructor]|].
  cbn [concat]. rewrite app_nil_r. split; [done|]. constructor; [done|constructor].
Qed.

Lemma mem_sources_spec ms :
  concat (ms ≫= mem_source pred) = pick (concat (Memtable_iter <$> ms)) /\ Forall sorted (ms ≫= mem_source pred).
Proof.
  induction ms as [|m ms [IH1 IH2]]; [done|]. rewrite bind_cons, concat_app. cbn [fmap list_fmap concat].
  destruct (mem_source_spec m) as [H1 H2]. rewrite filter_app, H1, IH1. split; [done|]. by apply Forall_app.
Qed.

Lemma pick_perm (a b : list Entry) : a ≡ₚ b -> pick a ≡ₚ pick b.
Proof. intros H. by rewrite H. Qed.

(** The merged stream of a scan: the asked-for part of the contents, sorted. *)
Lemma scan_with_merged t s :
  sv_ok (t_merge_operator t) (t_current t) -> Forall scan_covers (concat (levels (sv_version (t_current t)))) ->
  exists merged, scan_with t s pred skip iter =
      Ok (filter (fun e => is_value e = true) (MvccStream (t_merge_operator t) s merged)) /\
    sorted merged /\ merged ≡ₚ pick (contents (t_current t)).
Proof.
  intros [Hm Hv Hr] Hc. unfold scan_with. cbv zeta.
  destruct (table_sources_spec _ (vo_tables _ Hv) Hc) as (sources & Hs & Hsort & Hcat).
  rewrite Hs, Result_bind_Ok.
  destruct (mem_source_spec (sv_active (t_current t))) as [Ha1 Ha2].
  destruct (mem_sources_spec (sv_sealed (t_current t))) as [Hs1 Hs2].
  edestruct (merge_sources_ok ((mem_source pred (sv_active (t_current t)) ++ (sv_sealed (t_current t) ≫= mem_source pred)) ++ sources))
    as (merged & Hmg & Hsm & Hp). { rewrite !Forall_app. done. }
  rewrite Hmg, Result_bind_Ok. exists merged. split; [done|]. split; [done|].
  rewrite Hp, !concat_app, Ha1, Hs1, Hcat, <- !filter_app. apply pick_perm.
  unfold contents, mem_contents, memtables. cbn [fmap list_fmap concat].
  rewrite (table_contents_perm _ (vo_shape _ Hv)). apply Permutation_app_tail, Permutation_app_head.
  generalize (sv_sealed (t_current t)). intros l. induction l as [|m l IH] using rev_ind; [done|].
  rewrite reverse_snoc, fmap_app, concat_app. cbn [fmap list_fmap concat]. rewrite app_nil_r, <- IH. apply Permutation_app_comm.
Qed.

End scan.

(** Two sorted arrangements of the same ranked versions are equal. *)
Lemma versions_unique k (a b : list Entry) :
  sorted a -> sorted b -> versions k a ≡ₚ versions k b ->
  (forall x y, x ∈ versions k a -> y ∈ versions k a -> seqno x = seqno y -> x = y) -> versions k a = versions k b.
Proof.
  intros Ha Hb Hp Hu. apply (StronglySorted_unique_strong entry_le); [|by apply sorted_versions|by apply sorted_versions|done].
  intros x y Hx Hy Hxy Hyx. assert (y ∈ versions k a) as Hy' by (by rewrite Hp).
  apply Hu; [done|done|]. apply list_elem_of_filter in Hx as [Hkx _], Hy as [Hky _].
  apply Z.le_antisymm; [apply (entry_le_key_seqno y x)|apply (entry_le_key_seqno x y)]; congruence.
Qed.

Lemma sorted_merge_sort es : sorted (merge_sort entry_le es).
Proof. apply StronglySorted_merge_sort; apply _. Qed.

(** What a reader sees depends on the versions of the key only. *)
Lemma view_versions mo s k es a :
  uniq es -> sorted a -> versions k a ≡ₚ versions k es -> scan_value mo s k a = view mo s k es.
Proof.
  intros Hr Ha Hp. unfold view. rewrite !scan_value_run by (done || apply sorted_merge_sort).
  assert (versions k a = versions k (merge_sort entry_le es)) as ->; [|done].
  apply versions_unique; [done|apply sorted_merge_sort|by rewrite merge_sort_Permutation|].
  intros x y Hx Hy Hs. rewrite Hp in Hx, Hy. apply list_elem_of_filter in Hx as [? Hx], Hy as [? Hy].
  apply Hr; congruence.
Qed.

Lemma mvcc_keys mo s es :
  sorted es -> StronglySorted (fun a b => (key a < key b)%bytes) (MvccStream mo s es).
Proof.
  intros Hs. rewrite MvccStream_by_runs. apply by_runs_sorted; [apply keyed_mvcc_run|done|done|].
  intros [|e run] _; [constructor|]. unfold mvcc_run. destruct (if owned mo (key e) then _ else _); repeat constructor.
Qed.

(** The live entries of the MVCC stream are the values readers see. *)
Lemma mvcc_values mo s es k v :
  sorted es ->
  (exists e, e ∈ filter (fun e => is_value e = true) (MvccStream mo s es) /\ key e = k /\ value e = v) <->
  scan_value mo s k es = Some v.
Proof.
  intros Hs. unfold scan_value. pose proof (mvcc_keys mo s es Hs) as Hk.
  assert (forall e, e ∈ MvccStream mo s es -> key e = k -> head (versions k (MvccStream mo s es)) = Some e) as Hhead.
  { revert Hk. generalize (MvccStream mo s es). induction 1 as [|a l Hl IH Ha]; [by intros ? ?%elem_of_nil|].
    intros e [->|He]%elem_of_cons Hke; rewrite filter_cons; [by rewrite decide_True|].
    rewrite decide_False; [by apply IH|]. rewrite Forall_forall in Ha. specialize (Ha e He). intros Hka. simpl in Ha.
    rewrite Hka, Hke in Ha. border. }
  split.
  - intros (e & [Hv He]%list_elem_of_filter & Hke & Hve). rewrite (Hhead e He Hke). simpl. unfold is_value in Hv.
    destruct (value_type e); [by rewrite Hve|done].
  - destruct (versions k (MvccStream mo s es)) as [|e l] eqn:E; [done|]. simpl.
    assert (e ∈ versions k (MvccStream mo s es)) as [Hke He]%list_elem_of_filter by (rewrite E; by left).
    destruct (value_type e) eqn:Et; [|done]. intros [= <-]. exists e. split; [|done]. apply list_elem_of_filter.
    unfold is_value. by rewrite Et.
Qed.

(** The result of a scan: every key at most once, in order, each with the value
    a reader sees for it. *)
Definition scan_result (mo : option MergeOperator) (s : SeqNo) (es : list Entry) (pred : bytes -> bool) (res : list Entry) : Prop :=
  StronglySorted (fun a b => (key a < key b)%bytes) res /\
  forall k v, (exists e, e ∈ res /\ key e = k /\ value e = v) <-> pred k = true /\ view mo s k es = Some v.

Lemma StronglySorted_filter {A} (R : A -> A -> Prop) (P : A -> Prop) `{!forall x, Decision (P x)} l :
  StronglySorted R l -> StronglySorted R (filter P l).
Proof.
  induction 1 as [|x l _ IH Hx]; [constructor|]. rewrite filter_cons. case_decide; [|done]. constructor; [done|].
  rewrite Forall_forall in *. intros y [_ Hy]%list_elem_of_filter. auto.
Qed.

Lemma scan_with_spec t s pred skip iter :
  sv_ok (t_merge_operator t) (t_current t) -> Forall (scan_covers pred skip iter) (concat (levels (sv_version (t_current t)))) ->
  exists res, scan_with t s pred skip iter = Ok res /\
    scan_result (t_merge_operator t) s (contents (t_current t)) pred res.
Proof.
  intros Hok Hc. destruct (scan_with_merged pred skip iter t s Hok Hc) as (merged & -> & Hs & Hp).
  eexists. split; [done|]. split; [by apply StronglySorted_filter, mvcc_keys|].
  intros k v. rewrite mvcc_values by done. destruct (pred k) eqn:Ek.
  - rewrite (view_versions _ _ _ (contents (t_current t))); [tauto|by eapply contents_uniq|done|].
    rewrite Hp, list_filter_filter. erewrite list_filter_iff; [done|]. intros e. split; [tauto|].
    intros <-. done.
  - split; [|by intros [? _]]. intros Hv. exfalso.
    assert (versions k merged = []) as E.
    { apply filter_none. intros e He. rewrite Hp in He. apply list_elem_of_filter in He as [He _]. congruence. }
    rewrite scan_value_run in Hv by done. rewrite E in Hv. simpl in Hv. by case_match.
Qed.

(** ** The scans of the tree *)

Lemma range_covers t pred start end_ skip :
  table_ok t ->
  (forall k, is_bytes k -> pred k = true -> (start <= k)%bytes /\ match end_ with Some u => (k <= u)%bytes | None => True end) ->
  (skip t = true -> forall e, e ∈ table_entries t -> pred (key e) = false) ->
  scan_covers pred skip (fun t => BlockIter_new_with_range (th_reader t) start end_) t.
Proof.
  intros Ht Hp Hs. unfold scan_covers. destruct (skip t); [auto|].
  destruct (tk_range t Ht start end_) as (it & pre & mid & post & H1 & H2 & H3 & H4 & H5).
  exists it, pre, mid, post. split; [done|]. split; [done|]. split; [done|]. intros e He.
  destruct (pred (key e)) eqn:E; [|done]. apply Hp in E as [E1 E2].
  - apply elem_of_app in He as [He|He]; [specialize (H4 e He); border|].
    destruct (H5 e He) as (u & -> & ?). border.
  - pose proof (tk_wf t Ht) as Hwf. rewrite Forall_forall in Hwf.
    destruct (Hwf e) as (_ & ? & _); [|done]. rewrite H3, !elem_of_app. rewrite elem_of_app in He. tauto.
Qed.

Lemma skip_outside_spec t lower upper e :
  table_ok t -> skip_outside lower upper t = true -> e ∈ table_entries t ->
  (key e < lower)%bytes \/ exists u, upper = Some u /\ (u <= key e)%bytes.
Proof.
  intros Ht Hs He. destruct (table_bounds t e Ht He). unfold skip_outside in Hs. apply orb_true_iff in Hs as [Hs|Hs].
  - destruct upper as [u|]; [|done]. right. exists u. split; [done|]. border.
  - left. border.
Qed.

Lemma prefix_covers p t :
  is_bytes p -> table_ok t ->
  scan_covers (fun k => starts_with k p) (skip_outside (fst (prefix_to_range p)) (snd (prefix_to_range p)))
    (fun t => BlockIter_new_with_range (th_reader t) (fst (prefix_to_range p)) (snd (prefix_to_range p))) t.
Proof.
  intros Hp Ht. apply range_covers; [done| |].
  - intros k Hk Hpk. apply prefix_range in Hpk as [H1 H2]; [|done|done]. split; [done|]. case_match; [border|done].
  - intros Hs e He. destruct (starts_with (key e) p) eqn:E; [|done].
    pose proof (tk_wf t Ht) as Hwf. rewrite Forall_forall in Hwf. destruct (Hwf e He) as (_ & Hb & _).
    apply prefix_range in E as [H1 H2]; [|done|done].
    destruct (skip_outside_spec _ _ _ _ Ht Hs He) as [?|(u & Hu & ?)]; [border|]. rewrite Hu in H2. border.
Qed.

Lemma half_open_covers start end_ t :
  table_ok t ->
  scan_covers (in_half_open start end_) (skip_outside start end_)
    (fun t => BlockIter_new_with_range (th_reader t) start end_) t.
Proof.
  intros Ht. apply range_covers; [done| |].
  - intros k _ [H1 H2]%andb_true_iff. split; [border|]. case_match; [border|done].
  - intros Hs e He. destruct (in_half_open start end_ (key e)) eqn:E; [|done]. apply andb_true_iff in E as [H1 H2].
    destruct (skip_outside_spec _ _ _ _ Ht Hs He) as [?|(u & -> & ?)]; border.
Qed.

Lemma closed_covers start end_ t :
  table_ok t ->
  scan_covers (in_closed start end_) (fun t => bltb (key_max t) start || bltb end_ (key_min t))
    (fun t => BlockIter_new_with_range (th_reader t) start (Some end_)) t.
Proof.
  intros Ht. apply range_covers; [done| |].
  - intros k _ [H1 H2]%andb_true_iff. split; border.
  - intros Hs e He. destruct (in_closed start end_ (key e)) eqn:E; [|done]. apply andb_true_iff in E as [H1 H2].
    destruct (table_bounds t e Ht He). apply orb_true_iff in Hs as [?|?]; border.
Qed.

Lemma all_covers t :
  table_ok t -> scan_covers (fun _ => true) (fun _ => false) (fun t => BlockIter_new (th_reader t)) t.
Proof.
  intros Ht. destruct (tk_iter t Ht) as (it & H1 & H2). exists it, [], (table_entries t), [].
  rewrite app_nil_r. split; [done|]. split; [done|]. split; [done|]. by intros e ?%elem_of_nil.
Qed.

Lemma covers_tables t (P : TableHandle -> Prop) :
  sv_ok (t_merge_operator t) (t_current t) -> (forall h, table_ok h -> P h) -> Forall P (concat (levels (sv_version (t_current t)))).
Proof. intros Hok HP. eapply Forall_impl; [apply (vo_tables _ (so_version _ _ Hok))|]. exact HP. Qed.

Lemma scan_all_spec t :
  sv_ok (t_merge_operator t) (t_current t) ->
  exists res, scan_all t = Ok res /\ scan_result (t_merge_operator t) (t_seqno t) (contents (t_current t)) (fun _ => true) res.
Proof. intros Hok. apply scan_with_spec; [done|]. apply covers_tables; [done|]. apply all_covers. Qed.

Lemma range_stream_spec t lo hi :
  sv_ok (t_merge_operator t) (t_current t) ->
  exists res, range_stream t lo hi = Ok res /\
    scan_result (t_merge_operator t) (t_seqno t) (contents (t_current t)) (in_closed lo hi) res.
Proof. intros Hok. apply scan_with_spec; [done|]. apply covers_tables; [done|]. apply closed_covers. Qed.

Lemma prefix_iter_spec t p :
  sv_ok (t_merge_operator t) (t_current t) -> is_bytes p ->
  exists res, prefix_iter t p = Ok res /\
    scan_result (t_merge_operator t) (t_seqno t) (contents (t_current t)) (fun k => starts_with k p) res.
Proof.
  intros Hok Hp. unfold prefix_iter, prefix_iter_filtered. rewrite (surjective_pairing (prefix_to_range p)).
  apply scan_with_spec; [done|]. apply covers_tables; [done|]. intros h Hh.
  pose proof (prefix_covers p h Hp Hh) as Hc. unfold scan_covers in *. case_match; [done|].
  destruct Hc as (it & pre & mid & post & H1 & H2). exists it, pre, mid, post. split; [|done].
  unfold filtered_iter. by rewrite H1.
Qed.

Lemma range_iter_spec t lo hi :
  sv_ok (t_merge_operator t) (t_current t) ->
  exists res, range_iter t lo hi = Ok res /\
    scan_result (t_merge_operator t) (t_seqno t) (contents (t_current t)) (in_half_open lo hi) res.
Proof. intros Hok. apply scan_with_spec; [done|]. apply covers_tables; [done|]. apply half_open_covers. Qed.

(** Scans return exactly what a reader sees. In any tree that satisfies the
    invariant the prefix scan, the half-open and the closed range scan and the
    full scan return, in key order and without repetition, the keys of the range
    for which a reader at the snapshot sees a value, each with that value (for a
    merge-owned key the fold of its live versions); block and table pruning lose
    nothing. *)
Theorem scans_exact t :
  sv_ok (t_merge_operator t) (t_current t) ->
  let sees := scan_result (t_merge_operator t) in
  let es := contents (t_current t) in
  (forall p s, is_bytes p -> exists res, prefix_at t p s = Ok res /\ sees s es (fun k => starts_with k p) res) /\
  (forall p, is_bytes p -> exists res, prefix_iter t p = Ok res /\ sees (t_seqno t) es (fun k => starts_with k p) res) /\
  (forall lo hi, exists res, range_iter t lo hi = Ok res /\ sees (t_seqno t) es (in_half_open lo hi) res) /\
  (forall lo hi, exists res, range_stream t lo hi = Ok res /\ sees (t_seqno t) es (in_closed lo hi) res) /\
  (exists res, scan_all t = Ok res /\ sees (t_seqno t) es (fun _ => true) res).
Proof.
  intros Hok. cbv zeta. split; [|split; [|split; [|split]]].
  - intros p s Hp. unfold prefix_at. rewrite (surjective_pairing (prefix_to_range p)).
    apply scan_with_spec; [done|]. apply covers_tables; [done|]. intros h Hh. by apply prefix_covers.
  - intros p Hp. by apply prefix_iter_spec.
  - intros lo hi. by apply range_iter_spec.
  - intros lo hi. by apply range_stream_spec.
  - by apply scan_all_spec.
Qed.

Lemma view_newest mo s k es o :
  uniq es -> owned mo k = false -> newest s k es o -> view mo s k es = live o.
Proof.
  intros Hr Ho Hn. unfold view. rewrite scan_value_run, Ho by apply sorted_merge_sort. rewrite first_visible_versions.
  f_equal. apply (newest_live_unique s k es); [|eapply newest_seteq; [|apply first_visible_newest, sorted_merge_sort]|done].
  - intros a b Ha Hb. by apply Hr.
  - intros e _. by rewrite merge_sort_Permutation.
Qed.

(** Point reads and scans agree. For a key the merge operator does not own,
    [get_at] returns the value that every scan shows for the key at the same
    snapshot. *)
Lemma get_at_view t k s :
  sv_ok (t_merge_operator t) (t_current t) -> owned (t_merge_operator t) k = false ->
  get_at t k s = Ok (view (t_merge_operator t) s k (contents (t_current t))).
Proof.
  intros Hok Ho. erewrite view_newest by eauto using contents_uniq, first_visible_contents. by apply get_at_spec.
Qed.

End reads.
