(* ===== verification/TreeSteps.v ===== *)
(** * The effect of writes, seals and flushes on the layers of a tree

    A write adds one entry on top; a seal and the installation of a flush move
    entries from one layer to the next without changing them. *)

From S2P Require Import Prelude Types Block Bloom Memtable Merge Streams TableMeta TableWriter.
From S2P Require Import TableReader Version Leveled Paths Worker Manifest Tree TreeReads.

(** The effect of a write on the map a tree stands for: a value replaces the old
    one, or is combined with it if the merge operator owns the key; a removal
    clears. *)
Definition map_insert (mo : option MergeOperator) (k v : bytes) (a : bytes -> option bytes) (k' : bytes) : option bytes :=
  if beqb k' k then
    Some (if owned mo k then merge_values mo k (v :: option_list (a k)) else v)
  else a k'.

Definition map_remove (k : bytes) (a : bytes -> option bytes) (k' : bytes) : option bytes :=
  if beqb k' k then None else a k'.

Definition map_write (mo : option MergeOperator) (e : Entry) (a : bytes -> option bytes) : bytes -> option bytes :=
  match value_type e with
  | Value => map_insert mo (key e) (value e) a
  | Tombstone => map_remove (key e) a
  end.

(** The keys of a list of entries. *)
Definition has_key (k : bytes) (es : list Entry) : Prop := exists e, e ∈ es /\ key e = k.

(** * Lemmas *)

Lemma map_write_spec mo e a k :
  map_write mo e a k =
  if beqb k (key e) then
    match value_type e with
    | Value => Some (if owned mo (key e) then merge_values mo (key e) (value e :: option_list (a (key e))) else value e)
    | Tombstone => None
    end
  else a k.
Proof. unfold map_write, map_insert, map_remove. destruct (value_type e), (beqb k (key e)); done. Qed.

(** ** What a reader sees of two stacks *)

Lemma uniq_app_l A B : uniq (A ++ B) -> uniq A.
Proof. intros H a b Ha Hb. apply H; apply elem_of_app; by left. Qed.

Lemma uniq_app_r A B : uniq (A ++ B) -> uniq B.
Proof. intros H a b Ha Hb. apply H; apply elem_of_app; by right. Qed.

Lemma uniq_perm A B : A ≡ₚ B -> uniq A -> uniq B.
Proof. intros Hp Hu a b. rewrite <- Hp. apply Hu. Qed.

#[export] Instance uniq_Proper : Proper (Permutation ==> iff) uniq.
Proof. intros A B Hp. split; by apply uniq_perm. Qed.

Section views.
Context (mo : option MergeOperator).

Lemma view_agree s k es es' : uniq es -> versions k es' ≡ₚ versions k es -> view mo s k es' = view mo s k es.
Proof.
  intros Hu Hp. apply view_versions; [done|apply sorted_merge_sort|]. by rewrite merge_sort_Permutation.
Qed.

Lemma view_perm s k es es' : uniq es -> es' ≡ₚ es -> view mo s k es' = view mo s k es.
Proof. intros Hu Hp. apply view_agree; [done|]. by rewrite Hp. Qed.

Lemma live_vals_high s s' l run :
  (forall e, e ∈ run -> seqno e <= s) -> s <= s' -> live_vals s' l run = live_vals s l run.
Proof.
  revert l; induction run as [|e run IH]; intros l Hs Hle; [done|]. simpl.
  pose proof (Hs e ltac:(by left)). rewrite !(proj2 (Z.ltb_ge _ _)) by lia.
  assert (forall l, live_vals s' l run = live_vals s l run) as IH' by (intros; apply IH; [intros x Hx; apply Hs; by right|done]).
  by rewrite !IH'.
Qed.

(** A reader at or after the last write sees the same as any later one. *)
Lemma view_later s s' k es : (forall e, e ∈ es -> seqno e <= s) -> s <= s' -> view mo s' k es = view mo s k es.
Proof.
  intros Hle' Hss. assert (forall e, e ∈ versions k (merge_sort entry_le es) -> seqno e <= s) as Hle.
  { intros e [_ He]%list_elem_of_filter. rewrite merge_sort_Permutation in He. auto. }
  unfold view. rewrite !scan_value_run by apply sorted_merge_sort. destruct (owned mo k).
  - by rewrite (live_vals_high s s').
  - f_equal. revert Hle. generalize (versions k (merge_sort entry_le es)) as l.
    induction l as [|e l IH]; intros Hle; [done|]. simpl. pose proof (Hle e ltac:(by left)).
    rewrite !(proj2 (Z.leb_le _ _)) by lia. destruct (beqb (key e) k); [done|]. apply IH. intros x Hx. apply Hle. by right.
Qed.

Lemma view_no_key s k A es : uniq es -> ~ has_key k A -> view mo s k (A ++ es) = view mo s k es.
Proof.
  intros Hu Hn. apply view_agree; [done|]. rewrite filter_app.
  rewrite (filter_none _ A); [done|]. intros e He Hk. apply Hn. by exists e.
Qed.

(** The values of a merge-owned key in a layer over an older one. *)
Lemma live_vals_layers s k A T :
  uniq (A ++ T) -> owned mo k = true -> above mo A T ->
  live_vals s None (versions k (merge_sort entry_le (A ++ T))) =
  live_vals s None (merge_sort entry_le (versions k A)) ++
    (if resets s (merge_sort entry_le (versions k A)) then [] else live_vals s None (versions k (merge_sort entry_le T))).
Proof.
  intros Hu Ho Hab.
  assert (forall a b, a ∈ versions k A -> b ∈ versions k T -> seqno b < seqno a) as Hlt.
  { intros a b [Hka Ha]%list_elem_of_filter [Hkb Hb]%list_elem_of_filter.
    destruct (Hab a b Ha Hb) as [?|[Hf _]]; [congruence|done|]. rewrite Hkb in Hf. congruence. }
  rewrite (stratify k (versions k (merge_sort entry_le (A ++ T))) (versions k A) [] (versions k T)).
  - rewrite app_nil_l. rewrite live_vals_app.
    + f_equal. case_match; [done|]. f_equal. symmetry. apply (StronglySorted_unique_strong entry_le).
      * intros a b [Hka Ha]%list_elem_of_filter Hb Hab1 Hab2. rewrite merge_sort_Permutation in Ha, Hb.
        apply list_elem_of_filter in Hb as [Hkb Hb].
        apply (uniq_app_r A T Hu); [done|done|congruence|].
        apply Z.le_antisymm; [apply (entry_le_key_seqno b a)|apply (entry_le_key_seqno a b)]; congruence.
      * apply sorted_versions, sorted_merge_sort.
      * apply sorted_merge_sort.
      * by rewrite !merge_sort_Permutation.
    + intros a b. rewrite !merge_sort_Permutation. intros [_ Ha]%list_elem_of_filter [_ Hb]%list_elem_of_filter.
      by apply (uniq_app_l A T Hu).
    + intros a b. rewrite !merge_sort_Permutation. intros [? _]%list_elem_of_filter [? _]%list_elem_of_filter. congruence.
    + intros a b. rewrite !merge_sort_Permutation. auto.
    + done.
    + done.
  - apply sorted_versions, sorted_merge_sort.
  - by rewrite merge_sort_Permutation, filter_app.
  - constructor.
  - apply Forall_forall. by intros e [? _]%list_elem_of_filter.
  - intros a b [Hka Ha]%list_elem_of_filter [Hkb Hb]%list_elem_of_filter. rewrite merge_sort_Permutation in Ha, Hb.
    apply Hu; [done|done|congruence].
  - done.
  - intros a b ?%elem_of_nil. done.
Qed.

(** What lies under a layer counts only through what a reader sees of it. *)
Lemma view_under s k A T F :
  (forall op, mo = Some op -> MergeOperatorLaws op) ->
  uniq (A ++ T) -> uniq (A ++ F) -> above mo A T -> above mo A F ->
  Forall (entry_valid mo) A -> Forall (entry_valid mo) T -> Forall (entry_valid mo) F ->
  (forall e, e ∈ A -> seqno e <= s) ->
  (owned mo k = true \/ ~ has_key k A -> view mo s k T = view mo s k F) ->
  view mo s k (A ++ T) = view mo s k (A ++ F).
Proof.
  intros Hlaw HuT HuF HaT HaF VA VT VF Hs Hv. destruct (owned mo k) eqn:Ho.
  - specialize (Hv (or_introl eq_refl)). revert Hv. unfold view. rewrite !scan_value_run, Ho by apply sorted_merge_sort.
    rewrite !live_vals_layers by done. case_match; [by rewrite !app_nil_r|].
    destruct mo as [op|]; [|done]. specialize (Hlaw op eq_refl).
    assert (forall X, Forall (entry_valid (Some op)) X -> Forall (operand k) (live_vals s None (versions k (merge_sort entry_le X)))) as Hval.
    { intros X HX. apply (live_vals_valid op); [done|apply versions_keys|]. apply valid_versions. by rewrite merge_sort_Permutation. }
    assert (Forall (operand k) (live_vals s None (merge_sort entry_le (versions k A)))) as HvA.
    { apply (live_vals_valid op); [done|rewrite merge_sort_Permutation; apply versions_keys|]. rewrite merge_sort_Permutation. by apply valid_versions. }
    set (V := live_vals s None (versions k (merge_sort entry_le T))).
    set (V' := live_vals s None (versions k (merge_sort entry_le F))). intros Hf.
    pose proof (merge_folded op k (live_vals s None (merge_sort entry_le (versions k A))) V [] Hlaw ltac:(rewrite app_nil_r; apply Forall_app; split; [done|by apply Hval])) as H1.
    pose proof (merge_folded op k (live_vals s None (merge_sort entry_le (versions k A))) V' [] Hlaw ltac:(rewrite app_nil_r; apply Forall_app; split; [done|by apply Hval])) as H2.
    rewrite !app_nil_r in H1, H2. rewrite H1, H2. do 2 f_equal. destruct V, V'; try done. simpl in *. congruence.
  - pose proof (first_visible_newest _ k s (sorted_merge_sort A)) as Hn.
    destruct (first_visible (merge_sort entry_le A) k s) as [x|]; simpl in Hn.
    + destruct Hn as (Hx & Hk & Hq & Hm). rewrite merge_sort_Permutation in Hx.
      assert (forall B, above mo A B -> newest s k (A ++ B) (Some x)) as Hnew.
      { intros B HB. split; [apply elem_of_app; by left|]. do 2 (split; [done|]).
        intros e [He|He]%elem_of_app Hke Hqe; [apply Hm; [by rewrite merge_sort_Permutation|done..]|].
        destruct (HB x e Hx He) as [?|[_ He']]; [congruence|lia|]. apply Hm; [by rewrite merge_sort_Permutation|done..]. }
      rewrite (view_newest mo s k (A ++ T) (Some x)), (view_newest mo s k (A ++ F) (Some x)) by auto. done.
    + assert (~ has_key k A) as HA.
      { intros (e & He & Hk). specialize (Hn e ltac:(by rewrite merge_sort_Permutation) Hk). specialize (Hs e He). lia. }
      rewrite !view_no_key by eauto using uniq_app_r. auto.
Qed.

End views.

(** ** One write *)

Section write.
Context (mo : option MergeOperator) (es es' : list Entry) (e : Entry) (s' : SeqNo).
Hypothesis Hlaws : forall op, mo = Some op -> MergeOperatorLaws op.
Hypothesis Hu' : uniq es'.
Hypothesis Hes' : es' ≡ₚ e :: es.
Hypothesis Hval : Forall (entry_valid mo) es'.
Hypothesis Hnew : forall x, x ∈ es -> key x = key e -> seqno x < seqno e.
Hypothesis Hold : forall x, x ∈ es -> seqno x <= s'.
Hypothesis Hss : s' <= seqno e.

Let Hu : uniq es.
Proof. apply (uniq_app_r [e]), (uniq_perm es'); [exact Hes'|exact Hu']. Qed.

Lemma versions_new :
  versions (key e) (merge_sort entry_le es') = e :: versions (key e) (merge_sort entry_le es).
Proof.
  assert (sorted (e :: versions (key e) (merge_sort entry_le es))) as Hs.
  { constructor; [apply sorted_versions, sorted_merge_sort|]. apply Forall_forall. intros x [Hk Hx]%list_elem_of_filter.
    rewrite merge_sort_Permutation in Hx. rewrite entry_le_iff. right. split; [done|]. simpl. specialize (Hnew x Hx Hk). lia. }
  assert (versions (key e) (e :: versions (key e) (merge_sort entry_le es)) =
          e :: versions (key e) (merge_sort entry_le es)) as E.
  { rewrite filter_cons, decide_True by done. f_equal. rewrite list_filter_filter. apply list_filter_iff. tauto. }
  rewrite <- E. apply versions_unique; [apply sorted_merge_sort|done| |].
  - rewrite E, merge_sort_Permutation, Hes', filter_cons, decide_True, merge_sort_Permutation by done. done.
  - intros x y Hx Hy. rewrite merge_sort_Permutation in Hx, Hy. apply list_elem_of_filter in Hx as [? Hx], Hy as [? Hy].
    intros. apply Hu'; congruence.
Qed.

(** The write is what readers see next; other keys are not affected. *)
Lemma view_written k : view mo (seqno e) k es' = map_write mo e (fun k => view mo s' k es) k.
Proof.
  rewrite map_write_spec. destruct (beqb k (key e)) eqn:Ek.
  2:{ apply beqb_neq in Ek. rewrite <- (view_later mo s' (seqno e)) by done. apply view_agree; [exact Hu|].
      rewrite Hes', filter_cons, decide_False by done. done. }
  apply beqb_eq in Ek as ->.
  unfold view at 1. rewrite scan_value_run, versions_new by apply sorted_merge_sort. destruct (owned mo (key e)) eqn:Ho.
  - cbn [live_vals]. rewrite Z.ltb_irrefl. rewrite bool_decide_eq_false_2 by done.
    destruct (value_type e) eqn:Et; [|done].
    rewrite (live_vals_last (seqno e) (Some (seqno e))).
    2:{ intros x [Hk Hx]%list_elem_of_filter [= Hs]. rewrite merge_sort_Permutation in Hx. specialize (Hnew x Hx Hk). lia. }
    rewrite <- (view_later mo s' (seqno e)) by done. unfold view. rewrite scan_value_run, Ho by apply sorted_merge_sort.
    destruct mo as [op|] eqn:Emo; [|done]. pose proof (Hlaws op eq_refl) as Hl.
    pose proof Hval as [Hve Hves]%(Permutation_Forall Hes')%Forall_cons.
    assert (Forall (operand (key e)) (live_vals (seqno e) None (versions (key e) (merge_sort entry_le es)))) as HV.
    { apply (live_vals_valid op); [done|apply versions_keys|]. apply valid_versions. by rewrite merge_sort_Permutation. }
    destruct (live_vals (seqno e) None (versions (key e) (merge_sort entry_le es))) as [|x xs]; [done|].
    cbn [fold_values option_list merge_values]. f_equal.
    pose proof (merge_assoc (key e) [value e] (x :: xs) [] ltac:(done) ltac:(rewrite app_nil_r; constructor; [by apply Hve|done])) as Ha. rewrite !app_nil_r in Ha. symmetry. exact Ha.
  - cbn [first_visible]. rewrite beqb_refl, Z.leb_refl. simpl. by destruct (value_type e).
Qed.

End write.

Section steps.
Context {XH : Xxh3} {CD : Codecs} {SM : SkipMap} {BH : BinaryHeap}.

(** ** Memtables *)

Lemma ssorted_NoDup es : ssorted es -> NoDup es.
Proof.
  induction 1 as [|e es _ IH He]; constructor; [|done]. intros Hin. rewrite Forall_forall in He.
  specialize (He e Hin). rewrite entry_lt_iff in He. destruct He as [?|[? ?]]; [border|lia].
Qed.

Lemma Memtable_insert_perm m k v s vt :
  (forall e, e ∈ Memtable_iter m -> ~ (key e = k /\ seqno e = s)) ->
  Memtable_iter (fst (Memtable_insert m k v s vt)) ≡ₚ mkEntry k v s vt :: Memtable_iter m.
Proof.
  intros Hf. apply NoDup_Permutation.
  - apply ssorted_NoDup, Memtable_iter_sorted.
  - constructor; [|apply ssorted_NoDup, Memtable_iter_sorted]. intros He. by destruct (Hf _ He).
  - intros e. rewrite Memtable_iter_insert, elem_of_cons. split; [tauto|]. intros [?|He]; [by left|right; auto].
Qed.

(** An entry whose tombstone carries no value, with a [u64] number. *)
Definition entry_ok (e : Entry) : Prop := norm_entry e = e /\ is_uint 64 (seqno e).

Lemma mem_ok_insert m e :
  mem_ok m -> entry_ok e -> mem_ok (fst (Memtable_insert m (key e) (value e) (seqno e) (value_type e))).
Proof.
  intros [Hm Hn] [He Hs]. split; [by apply Memtable_insert_ok|]. rewrite Forall_forall in *.
  intros x [->|[_ Hx]]%Memtable_iter_insert; [by destruct e|auto].
Qed.

Lemma mem_ok_new : mem_ok Memtable_new.
Proof.
  split; [apply Memtable_new_ok|]. unfold Memtable_iter, Memtable_new. cbn [mt_map]. rewrite skm_iter_new. constructor.
Qed.

Lemma Memtable_iter_new : Memtable_iter Memtable_new = [].
Proof. unfold Memtable_iter, Memtable_new. cbn [mt_map]. by rewrite skm_iter_new. Qed.

(** ** Stacks *)

Lemma stacked_sublist mo A B : A `sublist_of` B -> stacked mo B -> stacked mo A.
Proof.
  induction 1 as [|l A B Hs IH|l A B Hs IH]; [done| |]; intros (Hl & HB & Hab)%stacked_cons; [|auto].
  apply stacked_cons. split; [done|]. split; [auto|]. eapply above_sub; [exact Hab|].
  intros b (x & Hb & Hx)%elem_of_concat. apply elem_of_concat. exists x. split; [done|]. by eapply elem_of_sublist.
Qed.

Lemma stacked_nil_layer mo A B : stacked mo (A ++ B) -> stacked mo (A ++ [] :: B).
Proof.
  rewrite !stacked_app, stacked_cons. intros (HA & HB & Hab). split; [done|]. split; [split; [constructor|]; split; [done|]|].
  - by intros a b ?%elem_of_nil.
  - intros a b Ha [->|Hb]%elem_of_cons; [by intros x y _ ?%elem_of_nil|auto].
Qed.

(** The layers under the active memtable. *)
Definition lower_layers (sv : SuperVersion) : list (list Entry) :=
  (Memtable_iter <$> reverse (sv_sealed sv)) ++ table_layers (sv_version sv).

Lemma layers_active sv : layers sv = Memtable_iter (sv_active sv) :: lower_layers sv.
Proof. done. Qed.

(** ** A write *)

Definition write_entry (e : Entry) (t : Tree) : Tree :=
  insert_with_seqno (key e) (value e) (seqno e) (value_type e) t.

Lemma write_entry_fields e t :
  let t' := write_entry e t in
  t_current t' = mkSuperVersion SM (fst (Memtable_insert (sv_active (t_current t)) (key e) (value e) (seqno e) (value_type e)))
    (sv_sealed (t_current t)) (sv_version (t_current t)) /\
  t_seqno t' = Z.max (t_seqno t) (seqno e) /\ t_disk t' = t_disk t /\ t_manifest t' = t_manifest t /\
  t_dir t' = t_dir t /\ t_merge_operator t' = t_merge_operator t /\ t_flushed_seqno t' = t_flushed_seqno t /\
  t_manifest_durable_seqno t' = t_manifest_durable_seqno t /\ t_compaction_enabled t' = t_compaction_enabled t /\
  t_config t' = t_config t /\ t_flushing_ids t' = t_flushing_ids t.
Proof. cbv zeta. unfold write_entry, insert_with_seqno. done. Qed.

(** [insert] and [remove] write with the next number. *)
Lemma insert_is_write k v t :
  is_uint 64 (t_seqno t + 1) ->
  insert k v t = (write_entry (mkEntry k v (t_seqno t + 1) Value) t, Ok (t_seqno t + 1)).
Proof.
  intros Hs. assert (wrap64 (t_seqno t + 1) = t_seqno t + 1) as E by (by apply wrap_small).
  unfold insert, write_entry, insert_with_seqno. cbv zeta. rewrite E, Z.max_r by (cbn; lia). done.
Qed.

Lemma remove_is_write k t :
  is_uint 64 (t_seqno t + 1) ->
  remove k t = (write_entry (mkEntry k [] (t_seqno t + 1) Tombstone) t, Ok (t_seqno t + 1)).
Proof.
  intros Hs. assert (wrap64 (t_seqno t + 1) = t_seqno t + 1) as E by (by apply wrap_small).
  unfold remove, write_entry, insert_with_seqno. cbv zeta. rewrite E, Z.max_r by (cbn; lia). done.
Qed.

Lemma write_sv_ok mo sv e :
  sv_ok mo sv -> entry_ok e -> (forall x, x ∈ contents sv -> key x = key e -> seqno x < seqno e) ->
  let sv' := mkSuperVersion SM (fst (Memtable_insert (sv_active sv) (key e) (value e) (seqno e) (value_type e)))
    (sv_sealed sv) (sv_version sv) in
  sv_ok mo sv' /\ contents sv' ≡ₚ e :: contents sv.
Proof.
  intros Hok He Hnew. pose proof Hok as [Hm Hv Hst]. cbv zeta. set (sv' := mkSuperVersion _ _ _ _).
  pose proof (concat_layers sv) as Hc. rewrite layers_active in Hst, Hc. apply stacked_cons in Hst as (Hs1 & Hs2 & Hs3).
  assert (Memtable_iter (sv_active sv') ≡ₚ e :: Memtable_iter (sv_active sv)) as Hp.
  { assert (e = mkEntry (key e) (value e) (seqno e) (value_type e)) as E by (by destruct e).
    rewrite E at 1. apply Memtable_insert_perm.
    intros x Hx [Hk Hq]. specialize (Hnew x). rewrite <- Hc in Hnew. simpl in Hnew. rewrite elem_of_app in Hnew.
    specialize (Hnew (or_introl Hx) Hk). lia. }
  split; [split|].
  - unfold memtables in *. apply Forall_cons in Hm as [Ha Hs]. constructor; [by apply mem_ok_insert|done].
  - done.
  - rewrite layers_active. apply stacked_cons. split; [apply Memtable_iter_sorted|]. split; [done|].
    intros a b Ha Hb Hk. rewrite Hp in Ha. apply elem_of_cons in Ha as [->|Ha].
    + left. apply Hnew; [|done]. rewrite <- Hc. apply elem_of_app. by right.
    + destruct (Hs3 a b Ha Hb Hk) as [?|[??]]; [by left|right]. split; [done|]. rewrite Hp. by right.
  - rewrite <- (concat_layers sv'), layers_active, <- Hc. cbn [concat].
    change (lower_layers sv') with (lower_layers sv). by rewrite Hp.
Qed.

(** ** Sealing *)

Lemma Memtable_is_empty_iter m : Memtable_is_empty m = true <-> Memtable_iter m = [].
Proof.
  unfold Memtable_is_empty, Memtable_iter. rewrite skm_is_empty_iter. split; [by intros ->|].
  by destruct (skm_iter (mt_map m)).
Qed.

Lemma seal_sv_ok mo sv :
  sv_ok mo sv ->
  let sv' := mkSuperVersion SM Memtable_new (sv_sealed sv ++ [sv_active sv]) (sv_version sv) in
  sv_ok mo sv' /\ contents sv' = contents sv.
Proof.
  intros [Hm Hv Hst]. cbv zeta. set (sv' := mkSuperVersion _ _ _ _).
  assert (layers sv' = [] :: layers sv) as Hl.
  { unfold layers, memtables, sv'. cbn [sv_active sv_sealed sv_version]. rewrite reverse_snoc.
    cbn [fmap list_fmap app]. by rewrite Memtable_iter_new. }
  split; [split|].
  - unfold memtables in *. cbn [sv' sv_active sv_sealed]. rewrite reverse_snoc. constructor; [apply mem_ok_new|done].
  - done.
  - rewrite Hl. by apply (stacked_nil_layer mo []).
  - by rewrite <- !concat_layers, Hl.
Qed.

(** ** Flushing *)

(** Tables that hold the memtables' entries, the empty ones left out. *)
Inductive flushed_as (dir : bytes) : Z -> list Memtable -> list TableHandle -> Prop :=
  | flushed_nil id : flushed_as dir id [] []
  | flushed_empty id m ms ts :
      Memtable_iter m = [] -> flushed_as dir (id + 1) ms ts -> flushed_as dir id (m :: ms) ts
  | flushed_table id m ms t ts :
      table_ok t -> table_entries t = Memtable_iter m -> table_id t = id -> th_path t = sst_path dir id ->
      flushed_as dir (id + 1) ms ts -> flushed_as dir id (m :: ms) (t :: ts).

(** The memtables can be written, numbered from [id] on. *)
Definition flushable (cfg : SSTableConfig) (id : Z) (ms : list Memtable) : Prop :=
  forall (i : nat) m, ms !! i = Some m -> Memtable_iter m <> [] -> writable cfg None (id + Z.of_nat i) (Memtable_iter m).

Lemma flushable_cons cfg id m ms :
  flushable cfg id (m :: ms) -> (Memtable_iter m <> [] -> writable cfg None id (Memtable_iter m)) /\ flushable cfg (id + 1) ms.
Proof.
  intros H. split; [rewrite <- (Z.add_0_r id); by apply (H 0%nat)|].
  intros i x Hi. replace (id + 1 + Z.of_nat i) with (id + Z.of_nat (S i)) by lia. by apply H.
Qed.

Lemma normal_id es : Forall (fun e => norm_entry e = e) es -> norm_entry <$> es = es.
Proof. induction 1 as [|e es He _ IH]; [done|]. cbn [fmap list_fmap]. by rewrite He, IH. Qed.

Lemma flush_memtables_ok dir cfg ms d :
  Forall mem_ok ms -> 0 <= dk_next_table_id d -> dk_next_table_id d + blen ms < 2 ^ 64 ->
  flushable cfg (dk_next_table_id d) ms ->
  exists ts, flush_memtables dir cfg ms d =
      (mkDisk (add_files ts (dk_files d)) (dk_next_table_id d + blen ms), Ok (ts, seqZ (dk_next_table_id d) (blen ms))) /\
    flushed_as dir (dk_next_table_id d) ms ts.
Proof.
  revert d; induction ms as [|m ms IH]; intros d Hms Hid Hlen Hf.
  { exists []. split; [|constructor]. destruct d. unfold blen. cbn. by rewrite Z.add_0_r. }
  apply Forall_cons in Hms as [Hm Hms]. apply flushable_cons in Hf as [Hw Hf]. rewrite blen_cons in *.
  pose proof (blen_nonneg ms). cbn [flush_memtables]. erewrite ST_bind_Ok by reflexivity. cbv zeta.
  assert (wrap64 (dk_next_table_id d + 1) = dk_next_table_id d + 1) as E by (apply wrap_small; unfold is_uint; lia).
  rewrite E. unfold flush_memtable. destruct (Memtable_is_empty m) eqn:Em.
  - apply Memtable_is_empty_iter in Em. erewrite ST_bind_Ok by reflexivity.
    destruct (IH (mkDisk (dk_files d) (dk_next_table_id d + 1))) as (ts & Hts & Hfa); cbn [dk_next_table_id]; [done|lia|lia|done|].
    exists ts. rewrite (ST_bind_Ok _ _ _ _ _ Hts). cbn [dk_files dk_next_table_id]. split; [|by apply flushed_empty].
    rewrite (seqZ_cons (dk_next_table_id d)) by lia. unfold mret, ST_ret.
    replace (Z.pred (1 + blen ms)) with (blen ms) by lia. by rewrite Z.add_assoc.
  - assert (Memtable_iter m <> []) as Hne by (intros Hn%Memtable_is_empty_iter; congruence).
    destruct (written_table_ok _ _ _ _ (sst_path dir (dk_next_table_id d)) (Hw Hne))
      as (mm & file & t & Hwr & Ho & Hok & He & Hti & Hp & Hfl).
    rewrite (normal_id _ (proj2 Hm)) in He.
    erewrite (ST_bind_Ok _ _ _ _ (Some (mm, file))) by (unfold lift; rewrite Hwr; reflexivity).
    erewrite ST_bind_Ok by reflexivity. erewrite (ST_bind_Ok _ _ _ _ t) by (unfold lift; rewrite Ho; reflexivity).
    cbn [dk_files dk_next_table_id].
    destruct (IH (mkDisk (<[sst_path dir (dk_next_table_id d) := file]> (dk_files d)) (dk_next_table_id d + 1)))
      as (ts & Hts & Hfa); cbn [dk_next_table_id]; [done|lia|lia|done|].
    exists (t :: ts). rewrite (ST_bind_Ok _ _ _ _ _ Hts). cbn [dk_files dk_next_table_id add_files fold_left].
    rewrite Hp, Hfl. split; [|by apply flushed_table].
    rewrite (seqZ_cons (dk_next_table_id d)) by lia. unfold mret, ST_ret.
    replace (Z.pred (1 + blen ms)) with (blen ms) by lia. by rewrite Z.add_assoc.
Qed.

Lemma flushed_as_spec dir id ms ts :
  flushed_as dir id ms ts ->
  Forall table_ok ts /\ NoDup (table_id <$> ts) /\
  Forall (fun t => id <= table_id t < id + blen ms /\ th_path t = sst_path dir (table_id t)) ts /\
  (table_entries <$> ts) `sublist_of` (Memtable_iter <$> ms) /\
  concat (table_entries <$> ts) = concat (Memtable_iter <$> ms).
Proof.
  induction 1 as [id|id m ms ts He _ (H1 & H2 & H3 & H4 & H5)|id m ms t ts Hok He Hid Hp _ (H1 & H2 & H3 & H4 & H5)].
  - repeat split; constructor.
  - split; [done|]. split; [done|]. split; [|split].
    + eapply Forall_impl; [exact H3|]. intros t. rewrite blen_cons. cbn beta. intros [??]. split; [lia|done].
    + cbn [fmap list_fmap]. by constructor.
    + cbn [fmap list_fmap concat]. by rewrite He.
  - rewrite Forall_forall in H3. pose proof (blen_nonneg ms). split; [by constructor|]. split; [|split; [|split]].
    + cbn [fmap list_fmap]. constructor; [|done]. intros (u & E & Hu)%list_elem_of_fmap. destruct (H3 u Hu). lia.
    + rewrite blen_cons. constructor; [split; [lia|congruence]|]. apply Forall_forall. intros u Hu. destruct (H3 u Hu). split; [lia|done].
    + cbn [fmap list_fmap]. rewrite He. by constructor.
    + cbn [fmap list_fmap concat]. by rewrite He, H5.
Qed.

Lemma sublist_reverse {A} (l l' : list A) : l `sublist_of` l' -> reverse l `sublist_of` reverse l'.
Proof.
  induction 1; [done| |]; rewrite !reverse_cons.
  - by apply sublist_app.
  - by apply sublist_inserts_r.
Qed.

(** The entries the tables hold are those of the memtables, newest first. *)
Lemma flushed_layers dir id ms ts :
  flushed_as dir id ms ts ->
  (table_entries <$> reverse ts) `sublist_of` (Memtable_iter <$> reverse ms) /\
  concat (table_entries <$> reverse ts) = concat (Memtable_iter <$> reverse ms).
Proof.
  intros H. destruct (flushed_as_spec _ _ _ _ H) as (_ & _ & _ & Hs & _). rewrite !fmap_reverse. split; [by apply sublist_reverse|].
  clear Hs. induction H as [id|id m ms ts He _ IH|id m ms t ts Hok He Hid Hp _ IH]; [done| |]; cbn [fmap list_fmap];
    rewrite !reverse_cons, !concat_app; cbn [concat].
  - by rewrite IH, He, !app_nil_r.
  - by rewrite IH, He.
Qed.

(** The version a flush installs. *)
Definition flush_version (j : FlushJob) (v : Version) : Version :=
  match fj_tables j with [] => v | ts => with_new_l0_tables v ts end.

Lemma table_layers_flush j v :
  Version_shape v -> table_layers (flush_version j v) = (table_entries <$> reverse (fj_tables j)) ++ table_layers v.
Proof.
  intros Hv. unfold flush_version. destruct (fj_tables j) as [|t ts]; [done|]. unfold table_layers.
  rewrite (level_with_new_l0 v _ 0) by done. cbn [Nat.eqb]. rewrite reverse_app, fmap_app, <- app_assoc. do 2 f_equal.
  apply list_fmap_ext. intros i x Hx. apply lookup_seq in Hx as [-> _].
  rewrite level_with_new_l0 by done. done.
Qed.

Lemma flush_version_tables j v :
  Version_shape v -> concat (levels (flush_version j v)) ≡ₚ fj_tables j ++ concat (levels v).
Proof. intros Hv. unfold flush_version. destruct (fj_tables j); [done|]. by apply concat_with_new_l0. Qed.

Lemma flush_version_shape j v :
  Version_shape v -> Forall table_ok (fj_tables j) -> NoDup (table_id <$> (fj_tables j ++ concat (levels v))) ->
  Version_shape (flush_version j v).
Proof.
  intros Hv Hok Hn. unfold flush_version. destruct (fj_tables j) as [|t ts]; [done|]. rewrite fmap_app, NoDup_app in Hn.
  destruct Hn as (Hn & Hd & _). apply with_new_l0_shape; [done| |done|].
  - eapply Forall_impl; [exact Hok|]. apply table_bounded.
  - intros a b Ha Hb E. apply (Hd (table_id a)); [by apply list_elem_of_fmap_2|]. rewrite E. by apply list_elem_of_fmap_2.
Qed.

(** The installation of a flush keeps the contents, entry by entry. *)
Lemma flush_sv_ok mo sv j dir id later :
  sv_ok mo sv -> sv_sealed sv = fj_sealed j ++ later -> flushed_as dir id (fj_sealed j) (fj_tables j) ->
  NoDup (table_id <$> (fj_tables j ++ concat (levels (sv_version sv)))) ->
  let sv' := mkSuperVersion SM (sv_active sv) later (flush_version j (sv_version sv)) in
  sv_ok mo sv' /\ contents sv' = contents sv.
Proof.
  intros [Hm [Hsh Hts] Hst] Hs Hf Hn. cbv zeta. set (sv' := mkSuperVersion _ _ _ _).
  destruct (flushed_as_spec _ _ _ _ Hf) as (Hok & _). destruct (flushed_layers _ _ _ _ Hf) as [Hsub Hcat].
  assert (layers sv' = (Memtable_iter <$> sv_active sv :: reverse later) ++ (table_entries <$> reverse (fj_tables j)) ++
    table_layers (sv_version sv)) as Hl.
  { unfold layers, memtables, sv'. cbn [sv_active sv_sealed sv_version]. by rewrite table_layers_flush. }
  assert (layers sv = (Memtable_iter <$> sv_active sv :: reverse later) ++ (Memtable_iter <$> reverse (fj_sealed j)) ++
    table_layers (sv_version sv)) as Hl0.
  { unfold layers, memtables. rewrite Hs, reverse_app, app_comm_cons, fmap_app. by rewrite <- app_assoc. }
  split; [split|].
  - unfold memtables in *. rewrite Hs, reverse_app, app_comm_cons in Hm. by apply Forall_app in Hm as [? _].
  - split; [by apply flush_version_shape|]. cbn [sv' sv_version]. rewrite flush_version_tables by done. by apply Forall_app.
  - rewrite Hl. rewrite Hl0 in Hst. eapply stacked_sublist; [|exact Hst]. apply sublist_app; [done|]. by apply sublist_app.
  - rewrite <- !concat_layers, Hl, Hl0, !concat_app. by rewrite Hcat.
Qed.

End steps.
