(* ===== verification/TreeCompact.v ===== *)
(** * The effect of a compaction on the layers of a tree

    A compaction takes some of the source level's tables and the tables of the
    target level they overlap, and replaces them by tables at the target level.
    The layers stay a stack, and readers see what they saw. *)

From S2P Require Import Prelude Types Block Bloom Memtable Merge Streams TableMeta TableWriter.
From S2P Require Import TableReader Version Leveled Paths Worker Manifest Tree TreeReads TreeSteps.

(** ** Replacing a part of two layers *)

Section replace.
Context (mo : option MergeOperator) (last : bool).
(** The layers: [A] above; of [x] the part [xi] is taken and [xr] stays; [Xs]
    are taken as they are; of [y] the part [yi] is taken and [yr] stays; [B]
    below. *)
Context (A Xs B : list (list Entry)) (x xi xr y yi yr y' merged stream : list Entry).
(** What the inputs become: their compaction stream, or, when a table is moved,
    themselves. *)
Hypothesis Hkind : stream = CompactionStream mo last merged \/ stream = merged.
Hypothesis Hst : stacked mo (A ++ x :: Xs ++ y :: B).
Hypothesis Hx : x ≡ₚ xi ++ xr.
Hypothesis Hxr : ssorted xr.
Hypothesis Hxd : forall a b, a ∈ xi -> b ∈ xr -> key a <> key b.
Hypothesis Hy : y ≡ₚ yi ++ yr.
Hypothesis Hsm : sorted merged.
Hypothesis Hpm : merged ≡ₚ xi ++ concat Xs ++ yi.
Hypothesis Hyd : forall a b, a ∈ merged -> b ∈ yr -> key a <> key b.
Hypothesis Hsy' : ssorted y'.
Hypothesis Hy' : y' ≡ₚ yr ++ stream.
Hypothesis Hlast : last = true -> concat B = [].

(** What lies over the inputs, and under them. *)
Let U := concat A ++ xr ++ yr.
Let L := concat B.

Lemma full_perm : concat (A ++ x :: Xs ++ y :: B) ≡ₚ U ++ merged ++ L.
Proof.
  unfold U, L. rewrite concat_app. cbn [concat]. rewrite concat_app. cbn [concat]. rewrite Hx, Hy, Hpm. solve_Permutation.
Qed.

Lemma full_perm' : concat (A ++ xr :: y' :: B) ≡ₚ U ++ stream ++ L.
Proof. unfold U, L. rewrite concat_app. cbn [concat]. rewrite Hy'. solve_Permutation. Qed.

Lemma full_uniq a b : a ∈ U ++ merged ++ L -> b ∈ U ++ merged ++ L -> key a = key b -> seqno a = seqno b -> a = b.
Proof. rewrite <- full_perm. apply (stacked_uniq mo), Hst. Qed.

Lemma merged_uniq a b : a ∈ merged -> b ∈ merged -> key a = key b -> seqno a = seqno b -> a = b.
Proof. intros Ha Hb. apply full_uniq; rewrite !elem_of_app; tauto. Qed.

(** The layer an input comes from, cut in two. *)
Definition taken (l i r : list Entry) : Prop :=
  l ∈ x :: Xs ++ [y] /\ l ≡ₚ i ++ r /\ (forall a, a ∈ i -> a ∈ merged) /\ (forall a b, a ∈ i -> b ∈ r -> key a <> key b).

Lemma input_layer m : m ∈ merged -> exists l i r, taken l i r /\ m ∈ i.
Proof.
  assert (forall a, a ∈ yi -> a ∈ merged) as Hyi by (intros a Ha; rewrite Hpm, !elem_of_app; tauto).
  rewrite Hpm, !elem_of_app. intros [Hm|[(l & Hm & Hl)%elem_of_concat|Hm]].
  - exists x, xi, xr. split; [|done]. split; [by left|]. split; [done|]. split; [|done].
    intros a Ha. rewrite Hpm, !elem_of_app. tauto.
  - exists l, l, []. split; [|done]. split; [right; apply elem_of_app; by left|]. split; [by rewrite app_nil_r|].
    split; [|by intros a b _ ?%elem_of_nil]. intros a Ha. rewrite Hpm, !elem_of_app. right. left. apply elem_of_concat. eauto.
  - exists y, yi, yr. split; [|done]. split; [right; apply elem_of_app; right; by left|]. split; [done|]. split; [done|].
    intros a b Ha. apply Hyd. auto.
Qed.

(** In its layer, an input is with all the versions of its key. *)
Lemma taken_closed l i r a b : taken l i r -> a ∈ i -> b ∈ l -> key a = key b -> b ∈ merged.
Proof. intros (_ & Hp & Hi & Hd) Ha Hb Hk. rewrite Hp in Hb. apply elem_of_app in Hb as [Hb|Hb]; [auto|]. by destruct (Hd a b). Qed.

Lemma stack_layers :
  (forall a l, a ∈ A -> l ∈ x :: Xs ++ [y] -> above mo a l) /\
  (forall a b, a ∈ A -> b ∈ B -> above mo a b) /\
  (forall l b, l ∈ x :: Xs ++ [y] -> b ∈ B -> above mo l b) /\
  (forall l, l ∈ Xs ++ [y] -> above mo x l).
Proof.
  assert (A ++ x :: Xs ++ y :: B = A ++ (x :: Xs ++ [y]) ++ B) as E by (cbn [app]; by rewrite <- app_assoc).
  pose proof Hst as Hs. rewrite E, !stacked_app in Hs. destruct Hs as (_ & (HX & _ & HXB) & HA).
  apply stacked_cons in HX as (_ & _ & Hxx).
  split; [intros a l Ha Hl; apply HA; [done|apply elem_of_app; by left]|].
  split; [intros a b Ha Hb; apply HA; [done|apply elem_of_app; by right]|]. split; [done|].
  intros l Hl. eapply above_sub; [exact Hxx|]. intros b Hb. apply elem_of_concat. eauto.
Qed.

Lemma stream_preimage n : n ∈ stream -> exists m, m ∈ merged /\ key m = key n /\ seqno m = seqno n /\
  (owned mo (key n) = false -> m = n /\ forall e, e ∈ merged -> key e = key n -> seqno n <= seqno e -> e ∈ stream).
Proof.
  destruct Hkind as [E|E]; [|rewrite E; intros Hn; exists n; done]. rewrite E. intros Hn. destruct (owned mo (key n)) eqn:Ho.
  - apply CompactionStream_seqno in Hn as (m & ? & ? & ?); [|done]. exists m. done.
  - pose proof Hn as [Hm Hmax]%CompactionStream_plain; [|done|done]. exists n. do 3 (split; [done|]). intros _. split; [done|].
    intros e He Hk Hle. rewrite (merged_uniq e n); [done|done|done|done|]. specialize (Hmax e He Hk). lia.
Qed.

(** A layer over the inputs is over what becomes of them. *)
Lemma above_stream a : (forall m, m ∈ merged -> above mo a [m]) -> above mo a stream.
Proof.
  intros H e n He Hn Hk. destruct (stream_preimage n Hn) as (m & Hm & Hkm & Hsm' & Hp).
  destruct (H m Hm e m He) as [?|[Ho Hin]]; [by left|congruence|left; lia|].
  right. rewrite Hkm in Ho. destruct (Hp Ho) as [-> _]. done.
Qed.

Lemma above_y' a : (forall m, m ∈ merged -> above mo a [m]) -> above mo a yr -> above mo a y'.
Proof.
  intros H1 H2 e n He Hn. rewrite Hy' in Hn. apply elem_of_app in Hn as [Hn|Hn]; [by apply H2|]. by apply (above_stream a H1).
Qed.

Lemma yr_in_y b : b ∈ yr -> b ∈ y.
Proof. rewrite Hy, elem_of_app. by right. Qed.

Lemma above_xr l : above mo x l -> (forall a b, a ∈ xr -> b ∈ l -> key a = key b -> b ∈ xi -> False) -> above mo xr l.
Proof.
  intros H Hd a b Ha Hb Hk. destruct (H a b) as [?|[Ho Hin]]; [rewrite Hx, elem_of_app; by right|done|done|by left|].
  right. split; [done|]. rewrite Hx in Hin. apply elem_of_app in Hin as [Hin|Hin]; [|done]. by destruct (Hd a b).
Qed.

Lemma xr_merged m : m ∈ merged -> above mo xr [m].
Proof.
  destruct stack_layers as (_ & _ & _ & Hxl). rewrite Hpm, elem_of_app. intros [Hm|Hm].
  - intros a b Ha ->%list_elem_of_singleton Hk. by destruct (Hxd m a).
  - assert (exists l, l ∈ Xs ++ [y] /\ m ∈ l) as (l & Hl & Hml).
    { apply elem_of_app in Hm as [(l & ? & ?)%elem_of_concat|Hm]; [exists l|exists y]; rewrite elem_of_app, ?list_elem_of_singleton;
        [tauto|]. split; [by right|]. rewrite Hy, elem_of_app. by left. }
    apply above_xr.
    + eapply above_sub; [by apply Hxl|]. by intros b ->%list_elem_of_singleton.
    + intros a b Ha ->%list_elem_of_singleton Hk Hb. by destruct (Hxd m a).
Qed.

(** The new target layer is over what lies below. *)
Lemma above_below b : b ∈ B -> above mo y' b.
Proof.
  intros Hb n e Hn He Hk. destruct stack_layers as (_ & _ & Hlb & _). rewrite Hy' in Hn.
  assert (forall e, e ∈ yr \/ e ∈ stream -> e ∈ y') as Hin by (intros z; by rewrite Hy', elem_of_app).
  apply elem_of_app in Hn as [Hn|Hn].
  - destruct (Hlb y b) with (a := n) (b := e) as [?|[Ho He']]; [set_solver|done|by apply yr_in_y|done|done|by left|].
    right. split; [done|]. apply Hin. rewrite Hy in He'. apply elem_of_app in He' as [He'|?]; [|by left].
    destruct (Hyd e n); [|done|done]. rewrite Hpm, !elem_of_app. tauto.
  - destruct (stream_preimage n Hn) as (m & Hm & Hkm & Hq & Hp).
    destruct (input_layer m Hm) as (l & i & r & Ht & Hmi). pose proof Ht as (Hl & Hlp & _).
    destruct (Hlb l b Hl Hb m e) as [?|[Ho He']]; [rewrite Hlp, elem_of_app; by left|done|congruence|left; lia|].
    destruct (Hp ltac:(congruence)) as [-> Hmax]. assert (e ∈ merged) as Hem by (eapply taken_closed; eauto).
    destruct (decide (seqno e < seqno n)) as [?|Hge]; [by left|]. right. split; [done|]. apply Hin. right.
    apply Hmax; [done|done|lia].
Qed.

Lemma replaced_stacked : stacked mo (A ++ xr :: y' :: B).
Proof.
  destruct stack_layers as (HAl & HAB & HlB & Hxl). pose proof Hst as Hs. rewrite stacked_app in Hs.
  destruct Hs as (HA & Hs & _). apply stacked_cons in Hs as (_ & Hs & _). rewrite stacked_app in Hs. destruct Hs as (_ & Hs & _).
  apply stacked_cons in Hs as (_ & HB & _).
  assert (above mo xr y') as Hxy.
  { apply above_y'; [apply xr_merged|]. eapply above_sub; [apply (above_xr y)|apply yr_in_y].
    - apply Hxl. set_solver.
    - intros a b Ha _ Hk Hb. by destruct (Hxd b a). }
  rewrite stacked_app. split; [done|]. split.
  - apply stacked_cons. split; [done|]. split.
    + apply stacked_cons. split; [done|]. split; [done|]. intros a b Ha (l & Hb & Hl)%elem_of_concat. by apply (above_below l).
    + cbn [concat]. intros a b Ha [Hb|(l & Hb & Hl)%elem_of_concat]%elem_of_app; [by apply Hxy|].
      apply (above_xr l); [apply HlB; [by left|done]| |done|done]. intros a' b' Ha' _ Hk Hb'. by destruct (Hxd b' a').
  - intros a l Ha Hl. rewrite !elem_of_cons in Hl. destruct Hl as [->|[->|Hl]]; [| |by apply HAB].
    + eapply above_sub; [apply (HAl a x Ha); by left|]. intros b Hb. rewrite Hx, elem_of_app. by right.
    + apply above_y'.
      * intros m Hm. destruct (input_layer m Hm) as (l & i & r & (Hl & Hlp & _) & Hmi).
        eapply above_sub; [by apply (HAl a l)|]. intros b ->%list_elem_of_singleton. rewrite Hlp, elem_of_app. by left.
      * eapply above_sub; [apply (HAl a y Ha); set_solver|apply yr_in_y].
Qed.

(** ** What readers see *)

Context (s : SeqNo).
Hypothesis Hlaws : forall op, mo = Some op -> MergeOperatorLaws op.
Hypothesis Hs : forall e, e ∈ merged -> seqno e <= s.
Hypothesis Hval : Forall (entry_valid mo) (concat (A ++ x :: Xs ++ y :: B)).

(** A version over the inputs is newer than they are, or they are over it too. *)
Lemma upper_above u m : u ∈ U -> m ∈ merged ++ L -> key u = key m ->
  seqno m < seqno u \/ (owned mo (key m) = false /\ m ∈ U).
Proof.
  destruct stack_layers as (HAl & HAB & HlB & Hxl). unfold U, L. rewrite !elem_of_app.
  intros [(a & Hua & Ha)%elem_of_concat|[Hu|Hu]] Hm Hk.
  - assert (forall l, m ∈ l -> l ∈ x :: Xs ++ [y] \/ l ∈ B -> seqno m < seqno u \/
      (owned mo (key m) = false /\ (m ∈ concat A \/ m ∈ xr \/ m ∈ yr))) as H.
    { intros l Hml Hl. assert (above mo a l) as Hal by (destruct Hl; auto).
      destruct (Hal u m) as [?|[??]]; [done|done|done|by left|]. right. split; [done|]. left. apply elem_of_concat. eauto. }
    destruct Hm as [Hm|(l & Hml & Hl)%elem_of_concat]; [|by apply (H l); [|right]].
    destruct (input_layer m Hm) as (l & i & r & (Hl & Hlp & _) & Hmi). apply (H l); [rewrite Hlp, elem_of_app; by left|by left].
  - assert (above mo xr [m]) as Hab.
    { destruct Hm as [Hm|(l & Hml & Hl)%elem_of_concat]; [by apply xr_merged|]. apply above_xr.
      - eapply above_sub; [apply (HlB x l); [by left|done]|]. by intros b ->%list_elem_of_singleton.
      - intros a b Ha _ Hk' Hb. by destruct (Hxd b a). }
    destruct (Hab u m Hu) as [?|[??]]; [by left|done|by left|right; tauto].
  - destruct Hm as [Hm|(l & Hml & Hl)%elem_of_concat]; [by destruct (Hyd m u)|].
    destruct (HlB y l ltac:(set_solver) Hl u m) as [?|[Ho Hin]]; [by apply yr_in_y|done|done|by left|].
    right. split; [done|]. rewrite Hy in Hin. apply elem_of_app in Hin as [Hin|?]; [|tauto].
    destruct (Hyd m u); [|done|done]. rewrite Hpm, !elem_of_app. tauto.
Qed.

Lemma merged_above m l : m ∈ merged -> l ∈ L -> key m = key l -> seqno l < seqno m \/ owned mo (key l) = false.
Proof.
  destruct stack_layers as (_ & _ & HlB & _). intros Hm (b & Hl & Hb)%elem_of_concat Hk.
  destruct (input_layer m Hm) as (x' & i & r & (Hx' & Hlp & _) & Hmi).
  destruct (HlB x' b Hx' Hb m l) as [?|[??]]; [rewrite Hlp, elem_of_app; by left|done|done|by left|by right].
Qed.

Lemma replaced_view_owned k :
  stream = CompactionStream mo last merged -> owned mo k = true -> view mo s k (U ++ merged ++ L) = view mo s k (U ++ stream ++ L).
Proof.
  intros E Ho. unfold view. rewrite E.
  apply (compaction_reads_key mo last s U merged L); [done|done|apply sorted_merge_sort|apply merge_sort_Permutation|
    apply sorted_merge_sort|apply merge_sort_Permutation| | | | |done|].
  - intros a b. rewrite !merge_sort_Permutation. intros Ha Hb ??. apply full_uniq; [done|done|congruence].
  - intros a b Ha Hb Hka Hkb. destruct (upper_above a b Ha Hb) as [?|[??]]; [congruence|done|congruence].
  - intros a b Ha Hb Hka Hkb. destruct (merged_above a b Ha Hb) as [?|?]; [congruence|done|congruence].
  - intros Hl a b _ Hb. unfold L in Hb. rewrite (Hlast Hl) in Hb. by apply elem_of_nil in Hb.
  - by rewrite merge_sort_Permutation, <- full_perm.
Qed.

Lemma stream_full' : uniq (U ++ stream ++ L).
Proof. rewrite <- full_perm'. apply (stacked_uniq mo), replaced_stacked. Qed.

Lemma replaced_view_plain k :
  stream = CompactionStream mo last merged -> owned mo k = false -> view mo s k (U ++ merged ++ L) = view mo s k (U ++ stream ++ L).
Proof.
  intros E Ho. pose proof (first_visible_newest _ k s (sorted_merge_sort (U ++ merged ++ L))) as Hn.
  eapply newest_seteq in Hn; [|intros e _; by rewrite merge_sort_Permutation].
  rewrite (view_newest _ _ _ _ _ full_uniq Ho Hn).
  assert (forall e, e ∈ U ++ stream ++ L -> key e = k -> e ∈ U ++ merged ++ L) as Hsub.
  { intros e He Hk. rewrite !elem_of_app in *. destruct He as [?|[He|?]]; [tauto| |tauto].
    destruct (stream_preimage e He) as (m & Hm & _ & _ & Hp). destruct (Hp ltac:(congruence)) as [-> _]. tauto. }
  destruct (first_visible _ k s) as [m|]; simpl in Hn.
  2:{ symmetry. apply (view_newest mo s k _ None); [apply stream_full'|done|]. intros e He Hk. by apply Hn; [apply Hsub|]. }
  destruct Hn as (Hm & Hk & Hq & Hmax).
  assert (m ∈ U ++ stream ++ L -> live (Some m) = view mo s k (U ++ stream ++ L)) as Hkeep.
  { intros Hin. symmetry. apply view_newest; [apply stream_full'|done|]. split; [done|]. do 2 (split; [done|]).
    intros e He Hke. apply Hmax; [by apply Hsub|done]. }
  destruct (decide (m ∈ U ++ stream ++ L)) as [Hin|Hout]; [auto|].
  assert (m ∈ merged) as Hmm by (rewrite !elem_of_app in *; tauto).
  destruct (CompactionStream_keeps mo last merged m) as [Hin|(Hl & Ht & Hnone)]; [done|congruence|done| | |
    destruct Hout; rewrite !elem_of_app, E; right; by left|].
  - intros e He Hke. apply Hmax; [rewrite !elem_of_app; tauto|congruence|auto].
  - intros e He Hke Hqe. by apply merged_uniq.
  - symmetry. simpl. rewrite Ht. apply (view_newest mo s k _ None); [apply stream_full'|done|].
    intros e He Hke. rewrite !elem_of_app in He. destruct He as [He|[He|He]].
    + destruct (decide (s < seqno e)) as [?|Hle]; [done|]. exfalso.
      destruct (upper_above e m He) as [Hlt|[_ HmU]]; [rewrite elem_of_app; by left|congruence| |].
      * specialize (Hmax e ltac:(rewrite !elem_of_app; tauto) Hke ltac:(lia)). lia.
      * apply Hout. rewrite elem_of_app. by left.
    + assert (e ∈ versions (key m) stream) as Hv by (apply list_elem_of_filter; split; [congruence|done]).
      rewrite E, Hnone in Hv. by apply elem_of_nil in Hv.
    + unfold L in He. rewrite (Hlast Hl) in He. by apply elem_of_nil in He.
Qed.

Lemma replaced_view k :
  view mo s k (concat (A ++ xr :: y' :: B)) = view mo s k (concat (A ++ x :: Xs ++ y :: B)).
Proof.
  rewrite (view_perm mo s k (U ++ stream ++ L) (concat (A ++ xr :: y' :: B))) by apply stream_full' || apply full_perm'.
  rewrite (view_perm mo s k (U ++ merged ++ L) (concat (A ++ x :: Xs ++ y :: B))) by (exact full_uniq || exact full_perm).
  destruct Hkind as [E|E]; [|by rewrite E].
  destruct (owned mo k) eqn:Ho; symmetry; [by apply replaced_view_owned|by apply replaced_view_plain].
Qed.

End replace.

(** ** Runs of tables *)

Lemma ssorted_sublist (a b : list Entry) : a `sublist_of` b -> ssorted b -> ssorted a.
Proof.
  induction 1 as [|e a b Hs IH|e a b Hs IH]; [done| |]; intros Hb; apply StronglySorted_inv in Hb as [Hb He]; [|auto].
  constructor; [auto|]. rewrite Forall_forall in *. intros x Hx. apply He. by eapply elem_of_sublist.
Qed.

Section runs.
Context {XH : Xxh3} {CD : Codecs}.

Lemma entries_of_sublist a b : a `sublist_of` b -> entries_of a `sublist_of` entries_of b.
Proof.
  unfold entries_of. induction 1 as [|t a b _ IH|t a b _ IH]; cbn [fmap list_fmap concat]; [done| |].
  - by apply sublist_app.
  - by apply sublist_inserts_l.
Qed.

Lemma table_in_run ts t : t ∈ ts -> table_entries t `sublist_of` entries_of ts.
Proof.
  intros Ht. assert ([t] `sublist_of` ts) as Hs by (by apply singleton_sublist_l).
  apply entries_of_sublist in Hs. unfold entries_of in Hs at 1. cbn [fmap list_fmap concat] in Hs. by rewrite app_nil_r in Hs.
Qed.

(** In a run of disjoint tables, a key is in one table only. *)
Lemma run_keys ts t u a b :
  disjoint_run ts -> Forall table_ok ts -> t ∈ ts -> u ∈ ts -> a ∈ table_entries t -> b ∈ table_entries u ->
  key a = key b -> t = u.
Proof.
  intros Hd Hok Ht Hu Ha Hb Hk. rewrite Forall_forall in Hok.
  destruct (table_bounds t a (Hok t Ht) Ha). destruct (table_bounds u b (Hok u Hu) Hb).
  apply list_elem_of_lookup in Ht as [i Hi], Hu as [j Hj]. rewrite Hk in *.
  destruct (Nat.lt_trichotomy i j) as [Hlt|[->|Hlt]]; [|congruence|].
  - pose proof (StronglySorted_lookup _ _ _ _ _ _ Hd Hlt Hi Hj). simpl in *. exfalso. border.
  - pose proof (StronglySorted_lookup _ _ _ _ _ _ Hd Hlt Hj Hi). simpl in *. exfalso. border.
Qed.

Lemma run_ssorted ts :
  disjoint_run ts -> Forall table_ok ts -> (forall t, t ∈ ts -> ssorted (table_entries t)) -> ssorted (entries_of ts).
Proof.
  unfold entries_of. induction 1 as [|t ts _ IH Ht]; intros Hok Hs; [constructor|]. apply Forall_cons in Hok as [Hokt Hok].
  cbn [fmap list_fmap concat]. apply StronglySorted_app_2; [|apply Hs; by left|].
  - intros a b Ha (l & Hb & (u & -> & Hu)%list_elem_of_fmap)%elem_of_concat. rewrite Forall_forall in Ht, Hok.
    specialize (Ht u Hu). destruct (table_bounds t a Hokt Ha). destruct (table_bounds u b (Hok u Hu) Hb).
    rewrite entry_lt_iff. left. simpl in Ht. border.
  - apply IH; [done|]. intros u Hu. apply Hs. by right.
Qed.

End runs.

(** ** Installing a compaction *)

Lemma task_cases v task :
  task_of v task -> (1 <= source_level task)%nat \/ exists batch rest, level v 0 = batch ++ rest /\ task = l0_task v batch.
Proof.
  intros [batch rest H0|lvl task' Hl1 Hl2 Hb]; [right; eauto|left]. unfold build_level_compaction in Hb. cbv zeta in Hb.
  case_match; [|done]. apply Ok_inj in Hb. by rewrite <- Hb.
Qed.

Section install.
Context {XH : Xxh3} {CD : Codecs}.
Context (mo : option MergeOperator) (Ms : list (list Entry)) (v : Version) (task : CompactionTask)
  (new : list TableHandle) (merged stream : list Entry) (stats : OverlapStats) (s : SeqNo).
Hypothesis Hv : Version_ok v.
Hypothesis Hst : stacked mo (Ms ++ table_layers v).
Hypothesis Htask : task_of v task.
Hypothesis Hsm : sorted merged.
Hypothesis Hpm : merged ≡ₚ entries_of (input_tables task).
Hypothesis Hnew : Forall table_ok new.
Hypothesis Hkind : stream = CompactionStream mo (is_last_level task) merged \/ stream = merged.
Hypothesis Hss : ssorted stream.
Hypothesis Hent : entries_of new = stream.
Hypothesis Hrun : disjoint_run new.
Hypothesis Hwithin : Forall (within (input_tables task)) new.
Hypothesis Hids : NoDup (table_id <$> new).
Hypothesis Hfresh : forall n, n ∈ new ->
  table_id n ∈ input_ids task \/ forall t, t ∈ concat (levels v) -> table_id t <> table_id n.
Hypothesis Hlaws : forall op, mo = Some op -> MergeOperatorLaws op.
Hypothesis Hs : forall e, e ∈ merged -> seqno e <= s.
Hypothesis Hval : Forall (entry_valid mo) (concat (Ms ++ table_layers v)).

Let Hsh : Version_shape v := vo_shape v Hv.
Let Hok : task_ok v task := task_of_ok v task Hsh Htask.
Let ids := input_ids task.
Let src := source_level task.
Let tgt := target_level task.
Let v' := snd (with_compaction_applied stats v ids new tgt).

(** The tables of a level that are taken, and those that stay. *)
Let tin (i : nat) := filter (fun t => table_id t ∈ ids) (level v i).
Let tr (i : nat) := retain_except ids (level v i).

Lemma target_src : tgt = S src /\ (S src < MAX_LEVELS)%nat.
Proof. unfold tgt, src. destruct (tk_levels v task Hok) as [-> ?]. split; [done|lia]. Qed.

Lemma level_cut i : level v i ≡ₚ tin i ++ tr i.
Proof.
  unfold tin, tr, retain_except. clear. induction (level v i) as [|t l IH]; [done|]. rewrite !filter_cons.
  destruct (decide (table_id t ∈ ids)); [rewrite decide_False by tauto|rewrite decide_True by done].
  - cbn [app]. by rewrite <- IH.
  - by rewrite <- Permutation_middle, <- IH.
Qed.

Lemma elem_tin i t : t ∈ tin i <-> t ∈ level v i /\ t ∈ input_tables task.
Proof.
  unfold tin. rewrite list_elem_of_filter. split.
  - intros [Hi Hl]. split; [done|]. apply (task_removed v task); [done|done|by eapply elem_of_level|done].
  - intros [Hl Hi]. split; [|done]. apply (task_removed v task); [done|done|by eapply elem_of_level|done].
Qed.

Lemma elem_tr i t : t ∈ tr i <-> t ∈ level v i /\ t ∉ input_tables task.
Proof.
  unfold tr. rewrite elem_of_retain. split; intros [Hl Hi]; (split; [done|]).
  - intros Ht. apply Hi. apply (task_removed v task); [done|done|by eapply elem_of_level|done].
  - intros Ht. apply Hi. apply (task_removed v task) in Ht; [done|done|done|by eapply elem_of_level].
Qed.

Lemma NoDup_level i : NoDup (level v i).
Proof.
  destruct (decide (i < MAX_LEVELS)%nat) as [Hi|Hi].
  - destruct (levels_nodup v i (if decide (i = 0%nat) then 1%nat else 0%nat) Hsh) as [Hn _];
      [case_decide; lia|done|unfold MAX_LEVELS; case_decide; lia|]. by eapply NoDup_fmap_1.
  - rewrite level_out by (rewrite (vs_length v Hsh); lia). constructor.
Qed.

Lemma other_level i : i <> src -> i <> tgt -> tr i = level v i.
Proof.
  intros H1 H2. unfold tr, retain_except. destruct (decide (i < MAX_LEVELS)%nat) as [Hi|Hi].
  2:{ rewrite level_out by (rewrite (vs_length v Hsh); lia). done. }
  apply filter_all. intros t Ht Hid. destruct target_src as [Et ?].
  apply (task_removed v task) in Hid; [|done|done|by eapply elem_of_level].
  destruct (tk_inputs v task Hok t Hid) as [Ht'|Ht'].
  - destruct (levels_nodup v i src Hsh ltac:(lia) Hi ltac:(lia)) as [_ Hx]. by apply (Hx t t).
  - destruct (levels_nodup v i tgt Hsh ltac:(lia) Hi ltac:(lia)) as [_ Hx]. by apply (Hx t t).
Qed.

Lemma inputs_perm : input_tables task ≡ₚ tin src ++ tin tgt.
Proof.
  destruct target_src as [Et ?]. apply NoDup_Permutation.
  - eapply (NoDup_fmap_1 table_id), (tk_nodup v task Hok).
  - apply NoDup_app. split; [apply NoDup_filter, NoDup_level|]. split; [|apply NoDup_filter, NoDup_level].
    intros t [Ht _]%elem_tin [Ht' _]%elem_tin.
    destruct (levels_nodup v src tgt Hsh ltac:(lia) ltac:(lia) ltac:(lia)) as [_ Hx]. by apply (Hx t t).
  - intros t. rewrite elem_of_app, !elem_tin. split; [|tauto]. intros Ht. destruct (tk_inputs v task Hok t Ht); tauto.
Qed.

Lemma merged_perm : merged ≡ₚ entries_of (tin src) ++ entries_of (tin tgt).
Proof. by rewrite Hpm, <- entries_of_app, (entries_of_perm _ _ inputs_perm). Qed.

(** A key of the inputs is not in a table that stays at the target level. *)
Lemma inputs_apart a b : a ∈ merged -> b ∈ entries_of (tr tgt) -> key a <> key b.
Proof.
  rewrite Hpm, !elem_of_entries_of. intros (t & Ht & Ha) (u & [Hu Hno]%elem_tr & Hb) Hk.
  pose proof (vo_tables v Hv) as Hts. rewrite Forall_forall in Hts.
  assert (table_ok t) as Hokt.
  { apply Hts. destruct (tk_inputs v task Hok t Ht); by eapply elem_of_level. }
  assert (table_ok u) as Hoku by (by eapply Hts, elem_of_level).
  destruct (table_bounds t a Hokt Ha), (table_bounds u b Hoku Hb). rewrite Hk in *.
  destruct (tk_side v task Hok u Hu Hno) as [Hsd|Hsd]; specialize (Hsd t Ht); border.
Qed.

(** The new target level. *)
Let tgt' := sort_by_key_min (tr tgt ++ new).
Let y' := entries_of tgt'.

Lemma applied_facts :
  Version_ok v' /\ fst (with_compaction_applied stats v ids new tgt) = stats /\
  level v' tgt = tgt' /\ forall i, i <> tgt -> level v' i = tr i.
Proof.
  destruct target_src as [Et Hlt]. pose proof (vo_tables v Hv) as Hts.
  destruct (apply_task_shape stats v task new) as [H1 H2]; [done|done| | |done|done|done|].
  - eapply Forall_impl; [exact Hnew|]. apply table_bounded.
  - by apply disjoint_run_apart.
  - split; [split; [done|]|split; [done|]].
    + unfold v'. rewrite (applied_tables stats v ids new tgt Hsh) by (unfold tgt in *; lia).
      apply Forall_app. split; [|done]. rewrite Forall_forall in *. intros t [Ht _]%elem_of_retain. auto.
    + split.
      * unfold v'. rewrite (applied_level stats v ids new tgt Hsh) by (unfold tgt in *; lia). by rewrite Nat.eqb_refl.
      * intros i Hi. unfold v'. rewrite (applied_level stats v ids new tgt Hsh) by (unfold tgt in *; lia).
        destruct (Nat.eqb_spec i tgt); [done|]. done.
Qed.

Lemma layer_ssorted l : l ∈ table_layers v -> ssorted l.
Proof.
  intros Hl. apply stacked_app in Hst as (_ & [Hsl _] & _). rewrite Forall_forall in Hsl. by apply Hsl.
Qed.

Lemma level_ssorted i : (1 <= i < MAX_LEVELS)%nat -> ssorted (entries_of (level v i)).
Proof.
  intros Hi. apply layer_ssorted. unfold table_layers. apply elem_of_app. right. apply list_elem_of_fmap. exists i. split; [done|].
  apply elem_of_seq. unfold MAX_LEVELS in *. lia.
Qed.

Lemma target_ssorted : ssorted y'.
Proof.
  destruct target_src as [Et Hlt]. destruct applied_facts as ([Hsh' Hts'] & _ & Hl & _).
  pose proof (vs_runs v' Hsh' tgt ltac:(lia)) as Hr. rewrite Hl in Hr. apply run_ssorted; [done| |].
  - pose proof (level_ok v' tgt (Build_Version_ok v' Hsh' Hts')) as Ho. by rewrite Hl in Ho.
  - intros t Ht. unfold tgt', sort_by_key_min in Ht. rewrite stable_sort_perm in Ht. apply elem_of_app in Ht as [Ht|Ht].
    + eapply ssorted_sublist; [|apply (level_ssorted tgt); lia]. apply table_in_run. by apply elem_tr in Ht as [? _].
    + eapply ssorted_sublist; [by apply table_in_run|]. by rewrite Hent.
Qed.

Lemma target_entries : y' ≡ₚ entries_of (tr tgt) ++ stream.
Proof. unfold y', tgt', sort_by_key_min. by rewrite (entries_of_perm _ _ (stable_sort_perm _ _)), entries_of_app, Hent. Qed.

Lemma level_entries_cut i : entries_of (level v i) ≡ₚ entries_of (tin i) ++ entries_of (tr i).
Proof. by rewrite <- entries_of_app, (entries_of_perm _ _ (level_cut i)). Qed.

(** The layers of the levels from [i] on. *)
Let lvls (w : Version) (i n : nat) := (fun i => entries_of (level w i)) <$> seq i n.

Lemma lvls_same i n : (forall j, (i <= j < i + n)%nat -> j <> src /\ j <> tgt) -> lvls v' i n = lvls v i n.
Proof.
  intros H. unfold lvls. destruct applied_facts as (_ & _ & _ & Hl).
  apply list_fmap_ext. intros p j Hp. apply lookup_seq in Hp as [-> ?]. destruct (H (i + p)%nat ltac:(lia)) as [H1 H2].
  by rewrite (Hl _ H2), other_level.
Qed.

Lemma last_empty n : is_last_level task = true -> concat (lvls v (S tgt) n) = [].
Proof.
  intros Hl. unfold lvls. assert (forall i, (tgt < i)%nat -> level v i = []) as He by (by apply (tk_last v task Hok)).
  assert (forall l, (forall i, i ∈ l -> (tgt < i)%nat) -> concat ((fun i => entries_of (level v i)) <$> l) = []) as H.
  { induction l as [|i l IH]; intros Hi; [done|]. cbn [fmap list_fmap concat]. rewrite He by (apply Hi; by left).
    rewrite IH; [done|]. intros j Hj. apply Hi. by right. }
  apply H. intros i Hi%elem_of_seq. lia.
Qed.

Lemma table_layers_split w i n m :
  (1 <= i)%nat -> (i + S (S n) + m = MAX_LEVELS)%nat ->
  forall j, j = i -> S (S n) = 2%nat ->
  table_layers w = (table_entries <$> reverse (level w 0)) ++ lvls w 1 (i - 1) ++
    entries_of (level w j) :: entries_of (level w (S j)) :: lvls w (S (S j)) m.
Proof.
  intros Hi Hm j -> Hn. unfold table_layers, lvls. f_equal.
  replace (MAX_LEVELS - 1)%nat with ((i - 1) + (2 + m))%nat by lia. rewrite seq_app, fmap_app. f_equal.
  replace (1 + (i - 1))%nat with i by lia. done.
Qed.

Lemma concat_nil_layer (a b : list (list Entry)) : concat (a ++ [] :: b) = concat (a ++ b).
Proof. by rewrite !concat_app. Qed.

(** The outcome of an installation. *)
Let installed : Prop :=
  stacked mo (Ms ++ table_layers v') /\
  forall k, view mo s k (concat (Ms ++ table_layers v')) = view mo s k (concat (Ms ++ table_layers v)).

(** One table of a level above 0. *)
Lemma install_level : (1 <= src)%nat -> installed.
Proof.
  intros H1. destruct target_src as [Et Hlt]. destruct applied_facts as (_ & _ & Hl & Hl').
  set (m := (MAX_LEVELS - (src + 2))%nat).
  assert (table_layers v = ((table_entries <$> reverse (level v 0)) ++ lvls v 1 (src - 1)) ++
    entries_of (level v src) :: [] ++ entries_of (level v tgt) :: lvls v (S tgt) m) as E.
  { rewrite (table_layers_split v src 0 m) with (j := src) by (unfold m; lia). by rewrite <- app_assoc, Et. }
  assert (table_layers v' = ((table_entries <$> reverse (level v 0)) ++ lvls v 1 (src - 1)) ++
    entries_of (tr src) :: y' :: lvls v (S tgt) m) as E'.
  { rewrite (table_layers_split v' src 0 m) with (j := src) by (unfold m; lia).
    rewrite <- Et, Hl, !Hl', other_level, !lvls_same, <- app_assoc by lia. done. }
  revert E E'. generalize ((table_entries <$> reverse (level v 0)) ++ lvls v 1 (src - 1)). intros top E E'.
  unfold installed. rewrite E, E', !(app_assoc Ms top). pose proof Hst as Hst2. pose proof Hval as Hval2. rewrite E, (app_assoc Ms top) in Hst2, Hval2.
  assert (forall a b, a ∈ entries_of (tin src) -> b ∈ entries_of (tr src) -> key a <> key b) as Hd.
  { intros a b (t & [Ht Hti]%elem_tin & Ha)%elem_of_entries_of (u & [Hu Hui]%elem_tr & Hb)%elem_of_entries_of Hk.
    assert (t = u) as ->; [|done]. eapply run_keys; [apply (vs_runs v Hsh src); lia|by apply level_ok|done..]. }
  assert (ssorted (entries_of (tr src))) as Hxr.
  { eapply ssorted_sublist; [|apply (level_ssorted src); lia]. apply entries_of_sublist, sublist_filter. }
  split.
  - eapply replaced_stacked; [exact Hkind|exact Hst2|apply level_entries_cut|exact Hxr|exact Hd|apply level_entries_cut|exact Hsm|
      apply merged_perm|exact inputs_apart|apply target_ssorted|apply target_entries|apply last_empty].
  - intros k. eapply replaced_view; [exact Hkind|exact Hst2|apply level_entries_cut|exact Hxr|exact Hd|apply level_entries_cut|exact Hsm|
      apply merged_perm|exact inputs_apart|apply target_ssorted|apply target_entries|apply last_empty|exact Hlaws|exact Hs|exact Hval2].
Qed.

(** A batch of the oldest tables of level 0. *)
Lemma install_l0 batch rest :
  level v 0 = batch ++ rest -> src = 0%nat -> tr 0 = rest -> entries_of (tin 0) ≡ₚ concat (table_entries <$> reverse batch) ->
  installed.
Proof.
  intros H0 H1 Hrest Hbatch. destruct target_src as [Et Hlt]. destruct applied_facts as (_ & _ & Hl & Hl').
  set (m := (MAX_LEVELS - 2)%nat).
  assert (table_layers v = (table_entries <$> reverse rest) ++ (table_entries <$> reverse batch) ++
    entries_of (level v tgt) :: lvls v (S tgt) m) as E.
  { unfold table_layers, lvls. rewrite H0, reverse_app, fmap_app, <- app_assoc, Et, H1. done. }
  assert (table_layers v' = (table_entries <$> reverse rest) ++ y' :: lvls v (S tgt) m) as E'.
  { unfold table_layers. rewrite Hl', Hrest by lia. f_equal.
    change (seq 1 (MAX_LEVELS - 1)) with (1%nat :: seq 2 m). cbn [fmap list_fmap].
    replace 1%nat with tgt by lia. rewrite Hl. f_equal. rewrite <- lvls_same by lia. unfold lvls. by rewrite Et, H1. }
  unfold installed. rewrite E, E'. pose proof Hst as Hst2. pose proof Hval as Hval2. rewrite E, app_assoc in Hst2, Hval2. apply stacked_nil_layer in Hst2.
  rewrite <- concat_nil_layer in Hval2.
  assert (merged ≡ₚ [] ++ concat (table_entries <$> reverse batch) ++ entries_of (tin tgt)) as Hp.
  { rewrite merged_perm, H1, Hbatch. done. }
  assert (stacked mo ((Ms ++ (table_entries <$> reverse rest)) ++ [] :: y' :: lvls v (S tgt) m)) as Hst'.
  { eapply replaced_stacked; [exact Hkind|exact Hst2|by rewrite app_nil_r|constructor|by intros a b ?%elem_of_nil|apply level_entries_cut|exact Hsm|
      exact Hp|exact inputs_apart|apply target_ssorted|apply target_entries|apply last_empty]. }
  split.
  - rewrite app_assoc. eapply stacked_sublist; [|exact Hst']. apply sublist_app; [done|]. by constructor.
  - intros k. rewrite !(app_assoc Ms), <- (concat_nil_layer _ (y' :: _)), <- (concat_nil_layer _ ((_ <$> reverse batch) ++ _)).
    eapply replaced_view; [exact Hkind|exact Hst2|by rewrite app_nil_r|constructor|by intros a b ?%elem_of_nil|apply level_entries_cut|exact Hsm|
      exact Hp|exact inputs_apart|apply target_ssorted|apply target_entries|apply last_empty|exact Hlaws|exact Hs|exact Hval2].
Qed.

(** Installing the outcome of any task keeps the stack and what readers see. *)
Lemma install_ok : installed.
Proof.
  destruct (task_cases v task Htask) as [Hsrc|(batch & rest & H0 & Ht)]; [by apply install_level|].
  assert (src = 0%nat /\ input_tables task = batch ++ overlapping (level v 1) (l0_key_range batch).1 (l0_key_range batch).2) as [Hsrc Hi].
  { unfold src. rewrite Ht. unfold l0_task. by destruct (l0_key_range batch). }
  assert (forall t, t ∈ level v 0 -> table_id t ∈ ids <-> t ∈ input_tables task) as Hid.
  { intros t Ht0. apply (task_removed v task t Hsh Hok). by eapply elem_of_level. }
  assert (forall t, t ∈ batch -> table_id t ∈ ids) as Hin.
  { intros t Htb. apply Hid; [rewrite H0|rewrite Hi]; rewrite elem_of_app; by left. }
  assert (forall t, t ∈ rest -> table_id t ∉ ids) as Hout.
  { intros t Htr Hti. pose proof (NoDup_level 0) as Hn. rewrite H0, NoDup_app in Hn. destruct Hn as (_ & Hd & _).
    assert (t ∈ level v 0) as Ht0 by (rewrite H0, elem_of_app; by right).
    apply Hid in Hti; [|done]. rewrite Hi in Hti. apply elem_of_app in Hti as [Hb|[_ Hb]%list_elem_of_filter]; [by apply (Hd t)|].
    destruct (levels_nodup v 0 1 Hsh) as [_ Hx]; [lia|unfold MAX_LEVELS; lia..|]. by apply (Hx t t). }
  apply (install_l0 batch rest); [done|done| |].
  - unfold tr, retain_except. rewrite H0, filter_app, filter_none, filter_all; [done|auto|]. intros t Htb. auto.
  - unfold tin. rewrite H0, filter_app, filter_all, filter_none, app_nil_r by auto.
    apply entries_of_perm. symmetry. apply reverse_Permutation.
Qed.

End install.
