(* ===== verification/TreeOpen.v ===== *)
(** * Opening a tree again

    Opening a directory whose manifest was persisted gives back the version that
    was recorded; the sweep of orphans spares the files of tables in use. *)

From S2P Require Import Prelude Types Block Bloom Memtable Merge Streams TableMeta TableWriter.
From S2P Require Import TableReader Version Leveled Paths Worker Manifest Tree TreeReads.

(** ** Names in the directory *)

Lemma path_join_root dir name : path_join dir name = path_join dir [] ++ name.
Proof.
  unfold path_join. destruct (last dir); [|done]. case_match; [by rewrite app_nil_r|]. by rewrite <- app_assoc.
Qed.

Lemma sst_name_chars n c : c ∈ sst_name n -> c <> 47.
Proof.
  unfold sst_name, format_0, format_u64. cbv zeta. rewrite !elem_of_app. intros [[Hc|Hc]|Hc].
  - apply elem_of_replicate in Hc as [-> _]. lia.
  - rewrite elem_of_reverse in Hc. apply digits_rev_ne in Hc. lia.
  - vm_compute in Hc. set_unfold in Hc. lia.
Qed.

Lemma name_in_sst dir n : name_in dir (sst_path dir n) = Some (sst_name n).
Proof.
  unfold name_in, sst_path. cbv zeta. rewrite (path_join_root dir (sst_name n)), drop_app_length.
  rewrite starts_with_app.
  assert (forallb (fun c => negb (c =? 47)) (sst_name n) = true) as ->; [|done].
  apply forallb_forall. intros c Hc%list_elem_of_In%sst_name_chars. by apply negb_true_iff, Z.eqb_neq.
Qed.

Lemma strip_sst n : strip_suffix (sst_name n) (str ".sst") = Some (format_0 6 n).
Proof. apply strip_suffix_app. Qed.

Lemma sst_not_tmp dir n : is_tmp_debris dir (sst_path dir n) = false.
Proof.
  unfold is_tmp_debris. rewrite name_in_sst. unfold strip_suffix, sst_name. rewrite reverse_app.
  change (reverse (str ".sst.tmp")) with [112; 109; 116; 46; 116; 115; 115; 46].
  change (reverse (str ".sst")) with [116; 115; 115; 46]. done.
Qed.

Lemma trim_sst_name fuel n : (0 < fuel)%nat -> trim_sst fuel (sst_name n) = format_0 6 n.
Proof.
  intros Hf. destruct fuel as [|fuel]; [lia|]. cbn [trim_sst]. rewrite strip_sst.
  assert (strip_suffix (format_0 6 n) (str ".sst") = None) as E.
  { unfold strip_suffix. destruct (starts_with _ _) eqn:E; [|done]. exfalso.
    change (reverse (str ".sst")) with [116; 115; 115; 46] in E.
    assert (exists x, reverse (format_0 6 n) = 116 :: x) as [x Ex].
    { destruct (reverse (format_0 6 n)) as [|a x]; [done|]. simpl in E. apply andb_true_iff in E as [E _]. exists x. f_equal. lia. }
    assert (116 ∈ format_0 6 n) as Hin by (rewrite <- elem_of_reverse, Ex; by left).
    revert Hin. unfold format_0, format_u64. cbv zeta. rewrite elem_of_app, elem_of_reverse, elem_of_replicate.
    intros [[? _]|Hin]; [lia|]. revert Hin. clear. generalize 20%nat as f. intros f. revert n. induction f as [|f IH]; intros n; simpl.
    { by intros ?%elem_of_nil. }
    intros [Hc|Hc]%elem_of_cons; [pose proof (Z.mod_pos_bound n 10); lia|]. case_match; [by apply elem_of_nil in Hc|by eapply IH]. }
  destruct fuel; [done|]. cbn [trim_sst]. by rewrite E.
Qed.

Lemma orphan_name_sst n : is_uint 64 n -> orphan_name_id (sst_name n) = Some n.
Proof.
  intros Hn. unfold orphan_name_id. rewrite strip_sst, trim_sst_name; [by apply parse_format_0|].
  unfold sst_name. rewrite length_app. simpl. lia.
Qed.

Section open.
Context {XH : Xxh3} {CD : Codecs} {SM : SkipMap} {BH : BinaryHeap}.

(** A table that is a file of the directory. *)
Definition on_file (dir : bytes) (files : gmap bytes bytes) (t : TableHandle) : Prop :=
  th_path t = sst_path dir (table_id t) /\ files !! th_path t = Some (rd_file (th_reader t)).

(** ** Reading the levels back *)

Lemma open_level_ok dir files ts :
  Forall table_ok ts -> Forall (on_file dir files) ts -> open_level files (map entry_of_table ts) = Ok ts.
Proof.
  induction 1 as [|t ts Ht _ IH]; intros Hf; [done|]. apply Forall_cons in Hf as [[Hp Hft] Hf]. cbn [map open_level].
  change (me_path (entry_of_table t)) with (th_path t). rewrite Hft, (tk_open t Ht), Result_bind_Ok, IH, Result_bind_Ok by done. done.
Qed.

Lemma open_levels_ok dir files n ls :
  length ls = n -> Forall table_ok (concat ls) -> Forall (on_file dir files) (concat ls) ->
  open_levels files n (map (map entry_of_table) ls) = Ok ls.
Proof.
  revert n; induction ls as [|l ls IH]; intros n <- Hok Hf; [done|]. cbn [concat] in *. apply Forall_app in Hok as [? ?], Hf as [? ?].
  cbn [map open_levels length]. rewrite (open_level_ok dir), Result_bind_Ok, IH, Result_bind_Ok by done. done.
Qed.

Lemma sort_run l : disjoint_run l -> Forall bounded l -> sort_by_key_min l = l.
Proof.
  intros Hd Hb. apply stable_sort_id. revert Hb. induction Hd as [|t l _ IH Ht]; intros Hb; [constructor|].
  apply Forall_cons in Hb as [Hbt Hb]. constructor; [auto|]. rewrite Forall_forall in *. intros u Hu. specialize (Ht u Hu).
  unfold bounded in Hbt. simpl in Ht. border.
Qed.

Lemma sort_levels_ok stats v : Version_shape v -> sort_levels stats (levels v) = (stats, levels v).
Proof.
  intros Hv. destruct (levels v) as [|l0 rest] eqn:E; [done|]. cbn [sort_levels].
  assert (forall l, l ∈ rest -> disjoint_run l /\ Forall bounded l) as Hl.
  { intros l [i Hi]%list_elem_of_lookup. assert (level v (S i) = l) as <- by (unfold level; by rewrite E; simpl; rewrite Hi).
    split; [apply (vs_runs v Hv); lia|by apply level_bounded]. }
  clear E. revert stats. induction rest as [|l rest IH]; intros stats; [done|].
  destruct (Hl l ltac:(by left)) as [Hd Hb]. cbn [map fold_left]. rewrite (sort_run l Hd Hb), (check_level_ok _ _ Hb Hd).
  specialize (IH ltac:(intros; apply Hl; by right) stats). injection IH as H1 H2. by rewrite H1, H2.
Qed.

(** ** The tree that is opened *)

(** What a persisted manifest stands for. *)
Record persisted (dir : bytes) (files : gmap bytes bytes) (manifest : option bytes) (v : Version) (next_id : Z) (next_seqno : SeqNo) : Prop := {
  ps_version : Version_ok v;
  ps_files : Forall (on_file dir files) (concat (levels v));
  ps_manifest : match manifest with
                | Some m => m = manifest_file v next_id next_seqno /\ version_fits v
                | None => v = Version_new /\ next_id = 1 /\ next_seqno = 0
                end;
  ps_next_id : is_uint 64 next_id;
  ps_next_seqno : is_uint 64 next_seqno;
}.

Lemma Tree_open_persisted dir cfg files manifest stats v next_id next_seqno :
  persisted dir files manifest v next_id next_seqno ->
  let files' := filter (fun x => is_tmp_debris dir x.1 = false) files in
  let id := Z.max next_id (wrap64 (max_on_disk_table_id dir files' + 1)) in
  Tree_open dir cfg files manifest stats =
    Ok (mkTree SM dir cfg None None (mkSuperVersion SM Memtable_new [] v) (mkDisk files' id) manifest
          next_seqno next_seqno next_seqno true ∅ stats 0 0) /\
  Forall (on_file dir files') (concat (levels v)).
Proof.
  intros [[Hsh Hok] Hf Hm Hn Hs]. cbv zeta. set (files' := filter _ files).
  assert (Forall (on_file dir files') (concat (levels v))) as Hf'.
  { eapply Forall_impl; [exact Hf|]. intros t [Hp Hft]. split; [done|]. unfold files'. apply map_lookup_filter_Some. split; [done|].
    simpl. rewrite Hp. apply sst_not_tmp. }
  split; [|done]. unfold Tree_open. cbv zeta. fold files'. destruct manifest as [m|].
  - destruct Hm as [-> Hfit]. rewrite read_written, Result_bind_Ok by done. cbn [md_levels md_next_table_id md_next_seqno].
    rewrite (open_levels_ok dir) by (done || apply (vs_length v Hsh)). rewrite Result_bind_Ok, sort_levels_ok by done.
    rewrite Result_bind_Ok. by destruct v.
  - destruct Hm as (-> & -> & ->). done.
Qed.

(** ** The sweep of orphans *)

(** A referenced table, or one a flush is writing, keeps its file. *)
Lemma sweep_spares t h :
  is_uint 64 (table_id h) -> on_file (t_dir t) (dk_files (t_disk t)) h ->
  h ∈ concat (levels (sv_version (t_current t))) \/ table_id h ∈ t_flushing_ids t ->
  on_file (t_dir t) (dk_files (t_disk (cleanup_orphan_ssts t))) h.
Proof.
  intros Hid [Hp Hf] Hin. split; [done|]. unfold cleanup_orphan_ssts. cbv zeta. cbn [t_disk set_disk dk_files].
  apply map_lookup_filter_Some. split; [done|]. cbn [fst]. rewrite Hp, name_in_sst, orphan_name_sst by done.
  unfold orphan_is_deletable. apply negb_true_iff.
  destruct Hin as [Hin|Hin].
  - rewrite (bool_decide_eq_true_2 (table_id h ∈ _)); [done|]. by apply list_elem_of_In, in_map, list_elem_of_In.
  - rewrite (bool_decide_eq_true_2 (table_id h ∈ t_flushing_ids t)) by done. by rewrite andb_false_r.
Qed.

End open.
