(* ===== verification/TreeMajor.v ===== *)
(** * Major compaction (turba-engine/src/tree/mod.rs, [major_compact_with_observer])

    The loop compacts level 0 in batches and then whatever level is over its
    target. It ends: every round consumes an input, and the write-amplification
    guard stops it once the inputs consumed exceed a multiple of the data. *)

From S2P Require Import Prelude Types Block Bloom Memtable Merge Streams TableMeta TableWriter.
From S2P Require Import TableReader Version Leveled Paths Worker Manifest Tree.

Section major.
Context {XH : Xxh3} {CD : Codecs} {SM : SkipMap} {BH : BinaryHeap}.

Abbreviation version_of t := (sv_version (t_current t)).
Abbreviation compaction_of t := (tc_compaction (t_config t)).

(** What a compaction does not touch. *)
Definition settings (t : Tree) : TreeConfig * bool := (t_config t, t_compaction_enabled t).

Lemma settings_config t t' : settings t' = settings t -> t_config t' = t_config t.
Proof. by intros [= ?]. Qed.

Lemma task_ids v task : task_of v task -> length (input_ids task) = length (input_tables task).
Proof.
  intros [batch rest _|lvl task' _ _ Hb].
  - unfold l0_task. destruct (l0_key_range batch). cbn. apply length_map.
  - unfold build_level_compaction in Hb. cbv zeta in Hb. case_match; [|done]. apply Ok_inj in Hb. rewrite <- Hb. cbn. by rewrite length_map.
Qed.

Lemma l0_batch_task v n : task_of v (build_l0_task_batched v n).
Proof. apply (task_l0 v _ (drop (Z.to_nat n) (level v 0))). by rewrite take_drop. Qed.

Lemma l0_batch_nonempty v n : 0 < n -> level v 0 <> [] -> input_tables (build_l0_task_batched v n) <> [].
Proof.
  intros Hn Hl. unfold build_l0_task_batched, build_l0_compaction_batched, l0_task. destruct (l0_key_range _) as [lo hi]. cbn [input_tables].
  destruct (level v 0) as [|h l]; [done|]. destruct (Z.to_nat n) eqn:E; [lia|]. done.
Qed.

Lemma run_compaction_ids task observer zmb t t' r :
  run_compaction task observer zmb t = (t', Ok r) -> cr_old_ids r = input_ids task /\ settings t' = settings t.
Proof.
  unfold run_compaction, on_disk. destruct (execute_with_observer _ _ _ _ _ _ _ _) as [d [r'| |]] eqn:E; [|done|done].
  intros [= <- <-]. split; [|done]. unfold execute_with_observer in E.
  repeat (apply ST_bind_inv in E as (? & ? & _ & E)). unfold mret, ST_ret in E. by simplify_eq.
Qed.

Lemma trivial_move_config task t : settings (apply_trivial_move task t) = settings t.
Proof. unfold apply_trivial_move, compaction_install. by case_match. Qed.

Lemma finish_compaction_config r t : settings (finish_compaction r t) = settings t.
Proof. unfold finish_compaction, compaction_install. by case_match. Qed.

(** The work of a round: the configuration stays, an input at least is consumed. *)
Definition round_work (observer : bool) (consumed : Z) (task : CompactionTask) (allows : bool) : ST Tree (option Z) :=
  trivial ← gets (fun t => allows && is_trivial_move_candidate task (version_of t) (compaction_of t));
  if trivial : bool then _ ← modify (apply_trivial_move task); mret (Some (consumed + 1))
  else
    r ← run_compaction task observer None;
    _ ← modify (finish_compaction r);
    mret (Some (consumed + blen (cr_old_ids r))).

Lemma round_work_spec observer consumed task allows t t' o :
  task_of (version_of t) task -> input_tables task <> [] ->
  round_work observer consumed task allows t = (t', Ok o) ->
  exists c, o = Some c /\ consumed + 1 <= c /\ settings t' = settings t.
Proof.
  intros Ht Hne H. unfold round_work in H. apply ST_bind_inv in H as (t1 & triv & Hg & H). unfold gets in Hg. simplify_eq.
  destruct (allows && _).
  - apply ST_bind_inv in H as (t2 & [] & Hm & H). unfold modify, mret, ST_ret in *. simplify_eq. eexists. split; [done|].
    split; [lia|]. apply trivial_move_config.
  - apply ST_bind_inv in H as (t2 & r & Hr & H). apply ST_bind_inv in H as (t3 & [] & Hm & H). unfold modify, mret, ST_ret in *. simplify_eq.
    apply run_compaction_ids in Hr as [Hi Hc]. eexists. split; [done|]. rewrite Hi, finish_compaction_config, Hc. split; [|done].
    unfold blen. rewrite (task_ids _ _ Ht). destruct (input_tables task); [done|cbn; lia].
Qed.

Lemma major_round_spec observer max_amp base consumed t t' o :
  0 < l0_compact_batch_size (compaction_of t) ->
  major_round observer max_amp base consumed t = (t', Ok o) ->
  match o with
  | None => t' = t /\ level (version_of t) 0 = [] /\ choose_compaction (version_of t) (compaction_of t) = Ok None
  | Some c => consumed + 1 <= c /\ settings t' = settings t /\
      (0 < max_amp -> 0 < base -> consumed <= saturating_mul64 base max_amp) /\ concat (levels (version_of t)) <> []
  end.
Proof.
  intros Hb H. unfold major_round in H. destruct ((0 <? max_amp) && _ && _) eqn:Eg; [done|].
  assert (0 < max_amp -> 0 < base -> consumed <= saturating_mul64 base max_amp) as Hg.
  { intros H1 H2. apply Z.ltb_lt in H1, H2. rewrite H1, H2 in Eg. cbn in Eg. lia. }
  apply ST_bind_inv in H as (t1 & fl0 & Hf & H). unfold gets in Hf. injection Hf as <- <-.
  assert (forall task allows, task_of (version_of t) task -> input_tables task <> [] ->
    round_work observer consumed task allows t = (t', Ok o) ->
    match o with None => False | Some c => consumed + 1 <= c /\ settings t' = settings t /\
      (0 < max_amp -> 0 < base -> consumed <= saturating_mul64 base max_amp) /\ concat (levels (version_of t)) <> [] end) as Hw.
  { intros task allows Ht Hne Hr. destruct (round_work_spec _ _ _ _ _ _ _ Ht Hne Hr) as (c & -> & ? & ?). split; [done|]. split; [done|].
    split; [done|]. intros E. assert (forall i, level (version_of t) i = []) as El.
    { intros i. destruct (level (version_of t) i) as [|h l] eqn:Ei; [done|].
      assert (h ∈ concat (levels (version_of t))) as Hin by (eapply elem_of_level; rewrite Ei; by left). rewrite E in Hin. by apply elem_of_nil in Hin. }
    destruct Ht as [batch rest Hl|lvl task' _ _ Hbl].
    - rewrite El in Hl. symmetry in Hl. apply app_eq_nil in Hl as [-> _]. apply Hne. unfold l0_task. destruct (l0_key_range _) as [lo hi].
      cbn [input_tables]. by rewrite El.
    - unfold build_level_compaction in Hbl. cbv zeta in Hbl. by rewrite El in Hbl. }
  destruct (0 <? l0_table_count (version_of t))%nat eqn:E0.
  - apply ST_bind_inv in H as (t1 & choice & Hc & H). unfold mret, ST_ret in Hc. injection Hc as <- <-.
    assert (level (version_of t) 0 <> []) as Hne by (unfold l0_table_count in E0; intros E; by rewrite E in E0).
    specialize (Hw _ (negb observer) (l0_batch_task _ _) (l0_batch_nonempty _ _ Hb Hne) H). by destruct o.
  - assert (level (version_of t) 0 = []) as Hl0 by (unfold l0_table_count in E0; destruct (level _ 0); [done|by cbn in E0]).
    destruct (choose_compaction_task (version_of t) (compaction_of t)) as (co & Hco & Hct).
    apply ST_bind_inv in H as (t1 & choice & Hc & H). rewrite Hco, Result_bind_Ok in Hc. injection Hc as <- <-.
    destruct co as [task|]; cbn [fmap option_fmap option_map] in H.
    + destruct (Hct task eq_refl) as [Ht Hne]. specialize (Hw _ _ Ht Hne H). by destruct o.
    + unfold mret, ST_ret in H. by simplify_eq.
Qed.

(** ** The loop *)

Lemma major_loop_more fuel k observer max_amp base consumed t t' r :
  major_loop fuel observer max_amp base consumed t = (t', r) -> r <> Ok false ->
  major_loop (fuel + k) observer max_amp base consumed t = (t', r).
Proof.
  revert consumed t; induction fuel as [|fuel IH]; intros consumed t H Hr.
  { cbn in H. unfold mret, ST_ret in H. congruence. }
  cbn [major_loop Nat.add] in *. unfold mbind, ST_bind in *. destruct (major_round _ _ _ _ t) as [t1 [[c|]| |]]; auto.
Qed.

Lemma saturating_mul_nonneg a b : 0 <= a -> 0 <= b -> 0 <= saturating_mul64 a b.
Proof. intros. unfold saturating_mul64, U64_MAX. nia. Qed.

Lemma major_loop_ends fuel observer max_amp base consumed t :
  0 < max_amp -> 0 < base -> 0 <= consumed -> 0 < l0_compact_batch_size (compaction_of t) ->
  Z.max 0 (saturating_mul64 base max_amp - consumed + 1) < Z.of_nat fuel ->
  snd (major_loop fuel observer max_amp base consumed t) <> Ok false.
Proof.
  intros Ha Hb. revert consumed t; induction fuel as [|fuel IH]; intros consumed t Hc Hn Hf; [lia|].
  cbn [major_loop]. unfold mbind, ST_bind. destruct (major_round observer max_amp base consumed t) as [t1 [o| |]] eqn:E; [|done|done].
  pose proof (major_round_spec _ _ _ _ _ _ _ Hn E) as Hs. destruct o as [c|]; [|done].
  destruct Hs as (H1 & H2 & H3 & _). specialize (H3 Ha Hb). apply IH; [lia|by rewrite (settings_config _ _ H2)|lia].
Qed.

(** What the loop leaves when it ends by itself. *)
Definition drained (t : Tree) : Prop :=
  level (version_of t) 0 = [] /\ choose_compaction (version_of t) (compaction_of t) = Ok None.

Lemma major_loop_drained fuel observer max_amp base consumed t t' :
  0 < l0_compact_batch_size (compaction_of t) ->
  major_loop fuel observer max_amp base consumed t = (t', Ok true) -> drained t'.
Proof.
  revert consumed t; induction fuel as [|fuel IH]; intros consumed t Hn H; [done|].
  cbn [major_loop] in H. apply ST_bind_inv in H as (t1 & o & Hr & H). pose proof (major_round_spec _ _ _ _ _ _ _ Hn Hr) as Hs.
  destruct o as [c|]; [destruct Hs as (_ & Hc & _); apply (IH c t1); [by rewrite (settings_config _ _ Hc)|done]|].
  destruct Hs as (-> & ? & ?). unfold mret, ST_ret in H. injection H as <-. done.
Qed.

(** With no data at all the first round ends the loop. *)
Lemma major_loop_empty fuel observer max_amp base t :
  0 < l0_compact_batch_size (compaction_of t) -> concat (levels (version_of t)) = [] -> (1 < fuel)%nat ->
  snd (major_loop fuel observer max_amp base 0 t) <> Ok false.
Proof.
  intros Hn He Hf. destruct fuel as [|fuel]; [lia|]. cbn [major_loop]. unfold mbind, ST_bind.
  destruct (major_round observer max_amp base 0 t) as [t1 [o| |]] eqn:E; [|done|done].
  pose proof (major_round_spec _ _ _ _ _ _ _ Hn E) as Hs. destruct o as [c|]; [|done]. by destruct Hs as (_ & _ & _ & ?).
Qed.

Lemma amp_baseline_zero t : amp_baseline t <= 0 -> concat (levels (version_of t)) = [].
Proof.
  intros H. unfold amp_baseline in H. cbv zeta in H. destruct (concat (levels (version_of t))) as [|h l]; [done|].
  rewrite blen_cons in H. pose proof (blen_nonneg l). lia.
Qed.

Lemma major_loop_settings fuel observer max_amp base consumed t t' b :
  0 < l0_compact_batch_size (compaction_of t) ->
  major_loop fuel observer max_amp base consumed t = (t', Ok b) -> settings t' = settings t.
Proof.
  revert consumed t; induction fuel as [|fuel IH]; intros consumed t Hn H; [by injection H as <- _|].
  cbn [major_loop] in H. apply ST_bind_inv in H as (t1 & o & Hr & H). pose proof (major_round_spec _ _ _ _ _ _ _ Hn Hr) as Hs.
  destruct o as [c|]; [|destruct Hs as (-> & _); by injection H as <- _].
  destruct Hs as (_ & Hc & _). rewrite <- Hc. apply (IH c); [by rewrite (settings_config _ _ Hc)|done].
Qed.

Lemma flush_sealed_settings t t' r : flush_sealed t = (t', r) -> settings t' = settings t.
Proof.
  intros H. unfold flush_sealed, mbind, ST_bind in H.
  assert (forall t1 o, flush_begin t = (t1, o) -> settings t1 = settings t) as Hb.
  { intros t1 o. unfold flush_begin. repeat case_match; intros; by simplify_eq. }
  destruct (flush_begin t) as [t1 o] eqn:E. rewrite <- (Hb t1 o eq_refl). destruct o as [[j|]| |]; try (by injection H as <- _).
  unfold modify, mret, ST_ret in H. injection H as <- _. unfold flush_finish. by repeat case_match.
Qed.

(** C23: major compaction terminates. With a positive batch size and a positive
    amplification limit, whatever the tables are and whatever errors the reads
    return, there is a number of rounds after which the run has ended, with
    success, with a stall or with an error of a round, and more fuel changes
    nothing. *)
Theorem major_compact_terminates observer t :
  0 < l0_compact_batch_size (compaction_of t) -> 0 < max_compaction_amplification (compaction_of t) ->
  exists fuel t' r, r <> Ok false /\ forall k, major_compact_with_observer (fuel + k) observer t = (t', r).
Proof.
  intros Hb Ha. unfold major_compact_with_observer. cbv zeta.
  destruct (flush_sealed (set_compaction_enabled false t)) as [t1 fr] eqn:Ef.
  apply flush_sealed_settings, settings_config in Ef as Ec. cbn in Ec. destruct fr as [n|e|]; [|exists 0%nat; do 2 eexists; split; [|reflexivity]; done..].
  rewrite <- Ec in Hb, Ha.
  assert (exists fuel, snd (major_loop fuel observer (max_compaction_amplification (compaction_of t1)) (amp_baseline t1) 0 t1) <> Ok false)
    as [fuel Hfuel].
  { destruct (Z.le_gt_cases (amp_baseline t1) 0) as [Hz|Hz].
    - exists 2%nat. apply major_loop_empty; [done|by apply amp_baseline_zero|lia].
    - eexists. apply major_loop_ends; [done|done|lia|done|].
      apply (Z.lt_le_trans _ (Z.of_nat (S (Z.to_nat (Z.max 0 (saturating_mul64 (amp_baseline t1) (max_compaction_amplification (compaction_of t1)) - 0 + 1))))));
        [lia|]. done. }
  destruct (major_loop fuel _ _ _ _ _) as [t2 r] eqn:E. cbn [snd] in Hfuel. exists fuel.
  destruct r as [[]|e|]; [|done|destruct e|]; do 2 eexists; (split; [|intros k; rewrite (major_loop_more _ k _ _ _ _ _ _ _ E Hfuel); reflexivity]); done.
Qed.

(** What a successful major compaction has done. When it returns, level 0 is
    empty and no level is over its target, background compaction is enabled as it
    was before, and the durable watermark has caught up with what was flushed; a
    run stopped by the amplification guard also restores background compaction. *)
Theorem major_compact_drains fuel observer t t' r :
  0 < l0_compact_batch_size (compaction_of t) ->
  major_compact_with_observer fuel observer t = (t', r) ->
  (r = Ok true -> drained t' /\ settings t' = settings t /\ t_flushed_seqno t' <= t_manifest_durable_seqno t') /\
  (forall n m, snd (flush_sealed (set_compaction_enabled false t)) = Ok n -> r = Err (CompactionStalled m) ->
     t_compaction_enabled t = true -> t_compaction_enabled t' = true).
Proof.
  intros Hb H. unfold major_compact_with_observer in H. cbv zeta in H.
  destruct (flush_sealed (set_compaction_enabled false t)) as [t1 fr] eqn:Ef. apply flush_sealed_settings in Ef as Es.
  assert (t_config t1 = t_config t) as Ec by by apply settings_config in Es. rewrite <- Ec in Hb.
  destruct fr as [n|e|]; [|by injection H as <- <-..].
  destruct (major_loop fuel _ _ _ _ _) as [t2 lr] eqn:E. destruct lr as [[]|e|]; [|by injection H as <- <-| |by injection H as <- <-].
  - injection H as <- <-. split; [|done]. intros _. pose proof (major_loop_drained _ _ _ _ _ _ _ Hb E) as Hd.
    apply major_loop_settings in E as E2; [|done]. rewrite Es in E2. unfold settings in E2. cbn in E2. injection E2 as E3 E4.
    split; [destruct (t_compaction_enabled t); exact Hd|]. unfold settings, cleanup_orphan_ssts.
    destruct (t_compaction_enabled t) eqn:Ee; cbn; rewrite ?E3, ?E4; (split; [done|lia]).
  - split; [by destruct e; injection H as _ <-|]. intros n' m _ -> Hen. rewrite Hen in H. destruct e; injection H as <- ?; done.
Qed.

End major.
