(* ===== verification/TreeRun.v ===== *)
(** * A keyspace at run time

    One tree with its share of the write-ahead log, and the steps that writers,
    the flush thread, the compaction thread, the log pruner and crashes take on
    it, interleaved in any order. A flush and a compaction are split where the
    code gives up its locks; writers are taken one at a time, and so are flushes
    and compactions (the code holds the compaction lock over a compaction).

    The log is the list of the writes it holds, oldest first. *)

From S2P Require Import Prelude Types Block Bloom Memtable Merge Streams TableMeta TableWriter.
From S2P Require Import TableReader Version Leveled Paths Worker Manifest Tree TreeReads TreeSteps.
From S2P Require Import TreeCompact TreeOpen.

Section run.
Context {XH : Xxh3} {CD : Codecs} {SM : SkipMap} {BH : BinaryHeap}.

(** A flush that has written its tables, or has installed them. *)
Inductive FlushPhase :=
  | Captured (j : FlushJob)
  | FlushInstalled (j : FlushJob).

(** A compaction that has written its tables or has chosen a table to move, has
    installed the new version, or has persisted it; the ids are those of the
    inputs still to be deleted. *)
Inductive CompactPhase :=
  | Running (task : CompactionTask) (r : CompactionResult)
  | Moving (task : CompactionTask)
  | Installed (old_ids : list Z)
  | Persisted (old_ids : list Z).

Record Keyspace := mkKeyspace {
  ks_tree : Tree;
  ks_flush : option FlushPhase;
  ks_compact : option CompactPhase;
  ks_wal : list Entry;
  ks_recovering : bool;
}.

Abbreviation ks_version ks := (sv_version (t_current (ks_tree ks))).

Definition on_tree (f : Tree -> Tree) (ks : Keyspace) : Keyspace :=
  mkKeyspace (f (ks_tree ks)) (ks_flush ks) (ks_compact ks) (ks_wal ks) (ks_recovering ks).

(** The tasks the engine runs: the planner's choice, or a batch of level 0. *)
Definition picked (ks : Keyspace) (task : CompactionTask) : Prop :=
  choose_compaction (ks_version ks) (tc_compaction (t_config (ks_tree ks))) = Ok (Some task) \/
  exists n, task = build_l0_task_batched (ks_version ks) n.

(** The outputs of a task fit the table format; and where deltas of a merge operator
    stay unfolded (above the last level) no output ends between two of a key. *)
Definition fits_task (t : Tree) (zmb : option ZoneMapBuilder) (task : CompactionTask) : Prop :=
  exists merged, merge_sources (table_entries <$> input_tables task) = Ok merged /\
    let cs := chunks (target_table_size (tc_compaction (t_config t))) [] 0
                (CompactionStream (t_merge_operator t) (is_last_level task) merged) in
    all_writable (config_for_level (t_config t) (target_level task)) zmb (dk_next_table_id (t_disk t)) cs /\
    dk_next_table_id (t_disk t) + blen cs < 2 ^ 64 /\
    (t_merge_operator t = None \/ is_last_level task = true \/ no_split cs).

(** [wal_prune_watermark], for one tree. *)
Definition prune_watermark (t : Tree) : SeqNo :=
  if t_seqno t <=? t_manifest_durable_seqno t then U64_MAX else t_manifest_durable_seqno t.

(** Opening after a crash, in a process with the counters [stats]: the directory as
    it is on disk, the merge operator and the zone maps set again, the log
    replayed. *)
Definition reopen (stats : OverlapStats) (t : Tree) (wal : list Entry) : Result Tree :=
  t' ← Tree_open (t_dir t) (t_config t) (dk_files (t_disk t)) (t_manifest t) stats;
  let t' := mkTree SM (t_dir t') (t_config t') (t_zone_map_builder t) (t_merge_operator t) (t_current t') (t_disk t')
    (t_manifest t') (t_seqno t') (t_flushed_seqno t') (t_manifest_durable_seqno t') (t_compaction_enabled t')
    (t_flushing_ids t') (t_stats t') (t_trivial_move_count t') (t_major_compact_success_count t') in
  Ok (fold_left (fun t e => write_entry e t) wal t').

(** The next write of the keyspace: it has a new number, or it is one more item of
    the batch that is being inserted, for a key the batch has not written, with no
    seal since the first item. *)
Definition follows (t : Tree) (e : Entry) : Prop :=
  t_seqno t < seqno e \/
  (seqno e = t_seqno t /\ (exists x, x ∈ Memtable_iter (sv_active (t_current t)) /\ seqno x = seqno e) /\
   forall x, x ∈ Memtable_iter (sv_active (t_current t)) -> seqno x = seqno e -> key x <> key e).

(** A step, with the writes it acknowledges. There is one writer, and one flush of the
    tree at a time: the code does not ensure the latter, and two flushes that capture
    the same memtable drop one that is in no table. *)
Inductive step : Keyspace -> list Entry -> Keyspace -> Prop :=
  (** A write: the log first, then the active memtable. A write that skips the log
      (bulk loading) promises nothing and is not a step. *)
  | step_write ks e :
      ks_recovering ks = false -> entry_ok e -> entry_valid (t_merge_operator (ks_tree ks)) e -> follows (ks_tree ks) e ->
      step ks [e] (mkKeyspace (write_entry e (ks_tree ks)) (ks_flush ks) (ks_compact ks) (ks_wal ks ++ [e]) false)
  | step_seal ks :
      step ks [] (on_tree (fun t => fst (seal_active t)) ks)
  (** [flush_sealed], in three steps. *)
  | step_flush_begin ks t' j :
      ks_flush ks = None ->
      flushable (flush_config (ks_tree ks)) (dk_next_table_id (t_disk (ks_tree ks))) (sv_sealed (t_current (ks_tree ks))) ->
      dk_next_table_id (t_disk (ks_tree ks)) + blen (sv_sealed (t_current (ks_tree ks))) < 2 ^ 64 ->
      flush_begin (ks_tree ks) = (t', Ok (Some j)) ->
      step ks [] (mkKeyspace t' (Some (Captured j)) (ks_compact ks) (ks_wal ks) (ks_recovering ks))
  | step_flush_install ks j :
      ks_flush ks = Some (Captured j) ->
      step ks [] (mkKeyspace (flush_install j (ks_tree ks)) (Some (FlushInstalled j)) (ks_compact ks) (ks_wal ks) (ks_recovering ks))
  | step_flush_finish ks j :
      ks_flush ks = Some (FlushInstalled j) -> version_fits (ks_version ks) ->
      step ks [] (mkKeyspace (flush_finish j (ks_tree ks)) None (ks_compact ks) (ks_wal ks) (ks_recovering ks))
  | step_compact_begin ks task observer zmb t' r :
      ks_recovering ks = false -> ks_compact ks = None -> picked ks task -> fits_task (ks_tree ks) zmb task ->
      run_compaction task observer zmb (ks_tree ks) = (t', Ok r) ->
      step ks [] (mkKeyspace t' (ks_flush ks) (Some (Running task r)) (ks_wal ks) false)
  | step_move_begin ks task :
      ks_recovering ks = false -> ks_compact ks = None -> picked ks task ->
      is_trivial_move_candidate task (ks_version ks) (tc_compaction (t_config (ks_tree ks))) = true ->
      step ks [] (mkKeyspace (ks_tree ks) (ks_flush ks) (Some (Moving task)) (ks_wal ks) false)
  | step_compact_install ks task r :
      ks_compact ks = Some (Running task r) ->
      step ks [] (mkKeyspace (compaction_install (cr_old_ids r) (cr_new_tables r) (cr_target_level r) (ks_tree ks))
        (ks_flush ks) (Some (Installed (cr_old_ids r))) (ks_wal ks) (ks_recovering ks))
  | step_move_install ks task :
      ks_compact ks = Some (Moving task) ->
      step ks [] (mkKeyspace (compaction_install (input_ids task) (take 1 (input_tables task)) (target_level task) (ks_tree ks))
        (ks_flush ks) (Some (Installed [])) (ks_wal ks) (ks_recovering ks))
  | step_compact_persist ks old :
      ks_compact ks = Some (Installed old) -> version_fits (ks_version ks) ->
      step ks [] (mkKeyspace (persist_manifest (ks_tree ks)) (ks_flush ks) (Some (Persisted old)) (ks_wal ks) (ks_recovering ks))
  | step_compact_delete ks old :
      ks_compact ks = Some (Persisted old) ->
      step ks [] (mkKeyspace (delete_compacted_inputs old (ks_tree ks)) (ks_flush ks) None (ks_wal ks) (ks_recovering ks))
  (** The end of a checkpoint: the manifest, and the watermark up to what was
      flushed. *)
  | step_checkpoint ks :
      version_fits (ks_version ks) ->
      step ks [] (on_tree (fun t => let t := persist_manifest t in
        set_seqnos (t_seqno t) (t_flushed_seqno t) (Z.max (t_manifest_durable_seqno t) (t_flushed_seqno t)) t) ks)
  | step_enable ks b :
      ks_recovering ks = false -> step ks [] (on_tree (set_compaction_enabled b) ks)
  | step_metrics ks stats moves majors :
      step ks [] (on_tree (set_stats stats moves majors) ks)
  | step_sweep ks :
      ks_compact ks = None -> step ks [] (on_tree cleanup_orphan_ssts ks)
  (** The pruner drops the oldest part of the log, up to the watermark; the
      writes of one batch are in one segment. *)
  | step_prune ks dropped kept :
      ks_recovering ks = false -> ks_wal ks = dropped ++ kept ->
      Forall (fun e => seqno e <= prune_watermark (ks_tree ks)) dropped ->
      (forall x y, x ∈ dropped -> y ∈ kept -> seqno x < seqno y) ->
      step ks [] (mkKeyspace (ks_tree ks) (ks_flush ks) (ks_compact ks) kept false)
  (** A crash at any time: memory is lost, the files, the manifest and the log
      stay. Replay is not idempotent on merge-owned keys, so their writes in the
      log must not have reached a table. *)
  | step_crash ks stats t' :
      (forall e, e ∈ ks_wal ks -> owned (t_merge_operator (ks_tree ks)) (key e) = true ->
         e ∈ mem_contents (t_current (ks_tree ks))) ->
      reopen stats (ks_tree ks) (ks_wal ks) = Ok t' ->
      step ks [] (mkKeyspace t' None None (ks_wal ks) true)
  (** The end of recovery: everything replayed is flushed, a fresh log starts. *)
  | step_recovered ks :
      ks_recovering ks = true -> ks_flush ks = None ->
      Memtable_iter (sv_active (t_current (ks_tree ks))) = [] -> sv_sealed (t_current (ks_tree ks)) = [] ->
      step ks [] (mkKeyspace (ks_tree ks) None (ks_compact ks) [] false).

(** The runs, with all the writes acknowledged so far. *)
Inductive reachable (start : Keyspace) : list Entry -> Keyspace -> Prop :=
  | reach_start : reachable start [] start
  | reach_step hist ks w ks' : reachable start hist ks -> step ks w ks' -> reachable start (hist ++ w) ks'.

(** A tree in an empty directory. *)
Definition fresh_keyspace (dir : bytes) (config : TreeConfig) (zmb : option ZoneMapBuilder) (mo : option MergeOperator)
    (stats : OverlapStats) : Keyspace :=
  mkKeyspace (mkTree SM dir config zmb mo (mkSuperVersion SM Memtable_new [] Version_new) (mkDisk ∅ 1) None
    0 0 0 true ∅ stats 0 0) None None [] false.

(** The abstract state: the map the acknowledged writes build. *)
Definition map_of (mo : option MergeOperator) (hist : list Entry) : bytes -> option bytes :=
  fold_left (fun a e => map_write mo e a) hist (fun _ => None).

(** What a reader of the keyspace sees now. *)
Definition abs (ks : Keyspace) (k : bytes) : option bytes :=
  view (t_merge_operator (ks_tree ks)) (t_seqno (ks_tree ks)) k (contents (t_current (ks_tree ks))).

(** ** The invariant *)

(** What every reader sees in the end. *)
Definition final (mo : option MergeOperator) (k : bytes) (es : list Entry) : option bytes := view mo SeqNo_MAX k es.

(** The tables of a version hold the writes [F], the first ones of [hist]; a
    plain key that was written again later may be ahead. *)
Record covers (mo : option MergeOperator) (hist F : list Entry) (v : Version) : Prop := {
  cv_stack : stacked mo (table_layers v);
  cv_prefix : F `prefix_of` hist;
  cv_plain e : e ∈ table_contents v -> owned mo (key e) = false -> e ∈ hist;
  cv_owned e : e ∈ table_contents v -> owned mo (key e) = true -> exists f, f ∈ F /\ key f = key e /\ seqno f = seqno e;
  cv_view k : owned mo k = true \/ ~ has_key k (drop (length F) hist) -> final mo k (table_contents v) = final mo k F;
  cv_valid e : e ∈ hist \/ e ∈ table_contents v -> entry_valid mo e;
}.

(** A memtable and the stretch of the history it holds. *)
Definition holds (m : Memtable) (p : list Entry) : Prop := Memtable_iter m ≡ₚ p /\ highest_seqno m = max_seqno p.

(** A table in use. *)
Record in_use (dir : bytes) (d : Disk) (h : TableHandle) : Prop := {
  iu_ok : table_ok h;
  iu_id : 0 <= table_id h < dk_next_table_id d;
  iu_file : on_file dir (dk_files d) h;
}.

Definition flush_tables (fl : option FlushPhase) : list TableHandle :=
  match fl with Some (Captured j) => fj_tables j | _ => [] end.
Definition compact_tables (cp : option CompactPhase) : list TableHandle :=
  match cp with Some (Running _ r) => cr_new_tables r | _ => [] end.
Definition old_tables (cp : option CompactPhase) : list Z :=
  match cp with Some (Installed old) | Some (Persisted old) => old | _ => [] end.

(** The history variables: the writes in tables, those in persisted tables, those
    dropped from the log, the stretches the memtables hold, and the version the
    manifest records. *)
Record Ghost := mkGhost {
  g_flushed : list Entry;
  g_persisted : list Entry;
  g_pruned : list Entry;
  g_parts : list (list Entry);
  g_version : Version;
  g_next_id : Z;
  g_next_seqno : SeqNo;
}.

Definition flush_inv (dir : bytes) (t : Tree) (parts : list (list Entry)) (fl : option FlushPhase) : Prop :=
  match fl with
  | None => True
  | Some (Captured j) =>
    (exists later id, sv_sealed (t_current t) = fj_sealed j ++ later /\ flushed_as dir id (fj_sealed j) (fj_tables j)) /\
    (forall h, h ∈ fj_tables j -> table_id h ∈ t_flushing_ids t)
  | Some (FlushInstalled j) =>
    fj_max_flushed j <= t_seqno t /\ forall e, e ∈ concat parts -> fj_max_flushed j < seqno e
  end.

Definition compact_inv (mo : option MergeOperator) (v vP : Version) (cp : option CompactPhase) : Prop :=
  match cp with
  | None => True
  | Some (Running task r) =>
    task_of v task /\ cr_old_ids r = input_ids task /\ cr_target_level r = target_level task /\
    Forall (within (input_tables task)) (cr_new_tables r) /\ disjoint_run (cr_new_tables r) /\
    exists merged, sorted merged /\ merged ≡ₚ entries_of (input_tables task) /\
      entries_of (cr_new_tables r) = CompactionStream mo (is_last_level task) merged
  | Some (Moving task) => task_of v task /\ exists h, input_tables task = [h]
  | Some (Installed old) => True
  | Some (Persisted old) => forall h, h ∈ concat (levels vP) -> table_id h ∉ old
  end.

(** The order of the history: numbers do not go down, and go up for each key. *)
Definition before (a b : Entry) : Prop := seqno a <= seqno b /\ (key a = key b -> seqno a < seqno b).

(** A cut between two batches. *)
Definition cut (a b : list Entry) : Prop := forall x y, x ∈ a -> y ∈ b -> seqno x < seqno y.

(** The history, its numbers, and the memtables that hold its end. *)
Record hist_inv (t : Tree) (hist : list Entry) (g : Ghost) : Prop := {
  hi_order : StronglySorted before hist;
  hi_cuts : StronglySorted cut (g_flushed g :: g_parts g);
  hi_entries e : e ∈ hist -> entry_ok e /\ 0 < seqno e <= t_seqno t;
  hi_seqno : is_uint 64 (t_seqno t);
  hi_laws op : t_merge_operator t = Some op -> MergeOperatorLaws op;
  hi_parts : Forall2 holds (sv_sealed (t_current t) ++ [sv_active (t_current t)]) (g_parts g);
  hi_hist : hist = g_flushed g ++ concat (g_parts g);
  hi_sv : sv_ok (t_merge_operator t) (t_current t);
  hi_covers : covers (t_merge_operator t) hist (g_flushed g) (sv_version (t_current t));
}.

(** The tables in use are files with ids of their own. *)
Record disk_inv (t : Tree) (fl : option FlushPhase) (cp : option CompactPhase) : Prop := {
  di_next : is_uint 64 (dk_next_table_id (t_disk t)) /\ 0 < dk_next_table_id (t_disk t);
  di_tables : Forall (in_use (t_dir t) (t_disk t)) (concat (levels (sv_version (t_current t))) ++ flush_tables fl ++ compact_tables cp);
  di_ids : NoDup (table_id <$> (concat (levels (sv_version (t_current t))) ++ flush_tables fl ++ compact_tables cp));
  di_old id : id ∈ old_tables cp -> 0 <= id < dk_next_table_id (t_disk t) /\
    forall h, h ∈ concat (levels (sv_version (t_current t))) ++ flush_tables fl -> table_id h <> id;
}.

(** What is on disk, and the log, hold every write. *)
Record log_inv (t : Tree) (cp : option CompactPhase) (wal hist : list Entry) (g : Ghost) : Prop := {
  li_covers : covers (t_merge_operator t) hist (g_persisted g) (g_version g);
  li_prefix : g_persisted g `prefix_of` g_flushed g;
  li_pruned : g_pruned g `prefix_of` g_persisted g;
  li_wal : hist = g_pruned g ++ wal;
  li_cut : cut (g_pruned g) wal;
  li_persisted : persisted (t_dir t) (dk_files (t_disk t)) (t_manifest t) (g_version g) (g_next_id g) (g_next_seqno g);
  li_next_id : g_next_id g <= dk_next_table_id (t_disk t) /\ 0 < g_next_id g /\
    forall h, h ∈ concat (levels (g_version g)) -> 0 <= table_id h < g_next_id g;
  li_next_seqno : g_next_seqno g <= t_seqno t /\ forall e, e ∈ g_persisted g -> seqno e <= g_next_seqno g;
  li_subset : match cp with
              | Some (Installed _) => True
              | _ => forall h, h ∈ concat (levels (g_version g)) -> h ∈ concat (levels (sv_version (t_current t)))
              end;
}.

(** The watermarks: what is not flushed, or not persisted, is above them. During
    recovery they are not to be relied on, and nothing relies on them. *)
Record marks_inv (t : Tree) (recovering : bool) (fl : option FlushPhase) (hist : list Entry) (g : Ghost) : Prop := {
  mi_bounds : 0 <= t_flushed_seqno t <= t_seqno t /\ 0 <= t_manifest_durable_seqno t <= t_seqno t;
  mi_running : recovering = false ->
    (forall e, e ∈ concat (g_parts g) -> t_flushed_seqno t < seqno e) /\
    (forall e, e ∈ drop (length (g_persisted g)) hist -> t_manifest_durable_seqno t < seqno e);
  mi_recovering : recovering = true ->
    t_compaction_enabled t = true /\ (match fl with Some (FlushInstalled _) => True | _ => g_persisted g = g_flushed g end);
}.

Record ks_inv (ks : Keyspace) (hist : list Entry) (g : Ghost) : Prop := {
  ki_hist : hist_inv (ks_tree ks) hist g;
  ki_disk : disk_inv (ks_tree ks) (ks_flush ks) (ks_compact ks);
  ki_log : log_inv (ks_tree ks) (ks_compact ks) (ks_wal ks) hist g;
  ki_marks : marks_inv (ks_tree ks) (ks_recovering ks) (ks_flush ks) hist g;
  ki_flush : flush_inv (t_dir (ks_tree ks)) (ks_tree ks) (g_parts g) (ks_flush ks);
  ki_compact : compact_inv (t_merge_operator (ks_tree ks)) (sv_version (t_current (ks_tree ks))) (g_version g) (ks_compact ks);
}.

(** * Lemmas *)

(** ** Histories *)

Lemma concat_perm {A} (a b : list (list A)) : a ≡ₚ b -> concat a ≡ₚ concat b.
Proof.
  induction 1 as [|l a b _ IH|l l' a|a b c _ IH1 _ IH2]; cbn [concat]; [done|by rewrite IH| |by rewrite IH1].
  rewrite !app_assoc. apply Permutation_app_tail, Permutation_app_comm.
Qed.

Lemma order_app a b :
  StronglySorted before (a ++ b) ->
  forall x y, x ∈ a -> y ∈ b -> before x y.
Proof. intros H x y Hx Hy. exact (StronglySorted_app_1_elem_of _ _ _ _ _ H Hx Hy). Qed.

Lemma order_uniq hist : StronglySorted before hist -> uniq hist.
Proof.
  intros Ho a b Ha Hb Hk Hq. apply list_elem_of_lookup in Ha as [i Hi], Hb as [j Hj].
  destruct (Nat.lt_trichotomy i j) as [Hlt|[->|Hlt]]; [|congruence|].
  - destruct (StronglySorted_lookup _ _ _ _ _ _ Ho Hlt Hi Hj) as [_ H]. specialize (H Hk). lia.
  - destruct (StronglySorted_lookup _ _ _ _ _ _ Ho Hlt Hj Hi) as [_ H]. specialize (H (eq_sym Hk)). lia.
Qed.

Lemma cut_concat a bs : StronglySorted cut (a :: bs) -> cut a (concat bs).
Proof.
  intros [_ H]%StronglySorted_inv x y Hx (b & Hy & Hb)%elem_of_concat. rewrite Forall_forall in H. exact (H b Hb x y Hx Hy).
Qed.

Lemma cut_merge a bs cs : StronglySorted cut (a :: bs ++ cs) -> StronglySorted cut ((a ++ concat bs) :: cs).
Proof.
  intros H. change (a :: bs ++ cs) with ((a :: bs) ++ cs) in H. constructor; [by apply StronglySorted_app_1_r in H|].
  apply Forall_forall. intros c Hc x y Hx Hy. apply elem_of_app in Hx as [Hx|(b & Hx & Hb)%elem_of_concat].
  - exact (StronglySorted_app_1_elem_of _ _ _ _ _ H (list_elem_of_here _ _) Hc x y Hx Hy).
  - exact (StronglySorted_app_1_elem_of _ _ _ _ _ H (list_elem_of_further _ _ _ Hb) Hc x y Hx Hy).
Qed.

Lemma cut_last a p e : StronglySorted cut (a ++ [p]) -> (forall l x, l ∈ a -> x ∈ l -> seqno x < seqno e) -> StronglySorted cut (a ++ [p ++ [e]]).
Proof.
  intros H He. apply StronglySorted_app_2; [|by apply StronglySorted_app_1_l in H|repeat constructor].
  intros l l' Hl ->%list_elem_of_singleton x y Hx [Hy| ->%list_elem_of_singleton]%elem_of_app; [|by apply (He l)].
  exact (StronglySorted_app_1_elem_of _ _ _ _ _ H Hl (list_elem_of_here _ _) x y Hx Hy).
Qed.

Lemma final_hist mo hist k :
  (forall op, mo = Some op -> MergeOperatorLaws op) ->
  StronglySorted before hist -> (forall e, e ∈ hist -> seqno e <= SeqNo_MAX) -> (forall e, e ∈ hist -> entry_valid mo e) ->
  final mo k hist = map_of mo hist k.
Proof.
  intros Hlaw. revert k. induction hist as [|e hist IH] using rev_ind; intros k Ho Hs Hv.
  { unfold final, view. rewrite scan_value_run by apply sorted_merge_sort. by case_match. }
  assert (forall x, x ∈ hist -> before x e) as Hlt by (intros x Hx; apply (order_app _ _ Ho x e Hx); by left).
  assert (seqno e <= SeqNo_MAX) by (apply Hs, elem_of_app; right; by left).
  pose proof (order_uniq _ Ho) as Hu.
  unfold map_of. rewrite fold_left_app. cbn [fold_left]. fold (map_of mo hist).
  unfold final. rewrite (view_later mo (seqno e) SeqNo_MAX).
  2:{ intros x [Hx| ->%list_elem_of_singleton]%elem_of_app; [by destruct (Hlt x Hx)|done]. }
  2:{ done. }
  rewrite (view_written mo hist (hist ++ [e]) e (seqno e)); [|done|done|by rewrite Permutation_app_comm|by apply Forall_forall|intros x Hx; by apply Hlt|intros x Hx; by destruct (Hlt x Hx)|done].
  rewrite !map_write_spec.
  assert (forall k, view mo (seqno e) k hist = map_of mo hist k) as IH'.
  { intros k'. rewrite <- IH; [|by apply StronglySorted_app_1_l in Ho|intros x Hx; apply Hs, elem_of_app; by left|intros x Hx; apply Hv, elem_of_app; by left].
    symmetry. apply view_later; [|done]. intros x Hx. by destruct (Hlt x Hx). }
  by rewrite !IH'.
Qed.

Lemma has_key_perm k a b : a ≡ₚ b -> has_key k a -> has_key k b.
Proof. intros Hp (e & He & Hk). exists e. by rewrite <- Hp. Qed.

Lemma drop_prefix {A} (F M : list A) : drop (length F) (F ++ M) = M.
Proof. apply drop_app_length. Qed.

Lemma covers_extend mo hist F v w : covers mo hist F v -> Forall (entry_valid mo) w -> covers mo (hist ++ w) F v.
Proof.
  intros [H1 H2 H3 H4 H5 H6] Hw. rewrite Forall_forall in Hw. split; [done|by apply prefix_app_r| |done| |].
  - intros e He Ho. apply elem_of_app. left. auto.
  - intros k [Hk|Hk]; apply H5; [by left|right]. intros (e & He & Hke). apply Hk. exists e. split; [|done].
    destruct H2 as [M ->]. rewrite <- app_assoc. rewrite drop_prefix in *. apply elem_of_app. by left.
  - intros e [[?|?]%elem_of_app|?]; auto.
Qed.

Lemma Version_new_contents : table_contents Version_new = [].
Proof. done. Qed.

Lemma covers_new mo : covers mo [] [] Version_new.
Proof.
  split.
  - change (table_layers Version_new) with (replicate 6 (@nil Entry)). generalize 6%nat as n.
    induction n as [|n IH]; [repeat constructor|]. cbn [replicate]. apply stacked_cons. split; [constructor|]. split; [done|].
    by intros a b ?%elem_of_nil.
  - apply prefix_nil.
  - intros e He. by apply elem_of_nil in He.
  - intros e He. by apply elem_of_nil in He.
  - done.
  - by intros e [?%elem_of_nil|?%elem_of_nil].
Qed.

(** ** What the invariant says of reads *)

Section inv.
Context (t : Tree) (hist : list Entry) (g : Ghost).
Hypothesis Hi : hist_inv t hist g.
Let mo := t_merge_operator t.
Let sv := t_current t.

Lemma parts_perm : mem_contents sv ≡ₚ concat (g_parts g).
Proof.
  pose proof (hi_parts _ _ _ Hi) as Hp. fold sv in Hp. unfold mem_contents, memtables.
  assert (forall ms ps, Forall2 holds ms ps -> concat (Memtable_iter <$> ms) ≡ₚ concat ps) as H.
  { induction 1 as [|m p ms ps [Hm _] _ IH]; [done|]. cbn [fmap list_fmap concat]. by rewrite Hm, IH. }
  rewrite <- (H _ _ Hp), fmap_app, concat_app. cbn [fmap list_fmap concat]. rewrite app_nil_r, Permutation_app_comm.
  apply Permutation_app_tail. rewrite fmap_reverse. apply concat_perm, reverse_Permutation.
Qed.

Lemma contents_split : contents sv = mem_contents sv ++ table_contents (sv_version sv).
Proof. done. Qed.

Lemma mem_in_hist e : e ∈ mem_contents sv -> e ∈ hist.
Proof. rewrite parts_perm, (hi_hist _ _ _ Hi), elem_of_app. by right. Qed.

Lemma contents_origin e : e ∈ contents sv -> exists h, h ∈ hist /\ key h = key e /\ seqno h = seqno e.
Proof.
  rewrite contents_split, elem_of_app. intros [He|He].
  - exists e. by split; [apply mem_in_hist|].
  - destruct (owned mo (key e)) eqn:Ho.
    + destruct (cv_owned _ _ _ _ (hi_covers _ _ _ Hi) e He Ho) as (f & Hf & ? & ?). exists f. split; [|done].
      rewrite (hi_hist _ _ _ Hi), elem_of_app. by left.
    + exists e. split; [|done]. by apply (cv_plain _ _ _ _ (hi_covers _ _ _ Hi)).
Qed.

Lemma contents_seqno e : e ∈ contents sv -> 0 < seqno e <= t_seqno t.
Proof. intros (h & Hh & _ & <-)%contents_origin. by apply (hi_entries _ _ _ Hi). Qed.

Lemma hist_max e : e ∈ hist -> seqno e <= SeqNo_MAX.
Proof.
  intros He. destruct (hi_entries _ _ _ Hi e He) as [_ [_ ?]]. pose proof (hi_seqno _ _ _ Hi) as [_ ?].
  unfold SeqNo_MAX, U64_MAX. lia.
Qed.

(** The memory layers over the tables. *)
Lemma mem_above : above mo (mem_contents sv) (table_contents (sv_version sv)).
Proof.
  pose proof (so_stacked _ _ (hi_sv _ _ _ Hi)) as Hst. fold sv mo in Hst. unfold layers in Hst. rewrite stacked_app in Hst.
  destruct Hst as (_ & _ & Hab). rewrite <- concat_table_layers. unfold mem_contents.
  intros a b (l & Ha & Hl)%elem_of_concat (l' & Hb & Hl')%elem_of_concat Hk.
  destruct (Hab l l' Hl Hl' a b Ha Hb Hk) as [?|[? Hin]]; [by left|right]. split; [done|]. apply elem_of_concat. eauto.
Qed.

(** The values of owned keys are operands. *)
Lemma hist_valid e : e ∈ hist -> entry_valid mo e.
Proof. intros He. apply (cv_valid _ _ _ _ (hi_covers _ _ _ Hi)). by left. Qed.

Lemma tables_valid : Forall (entry_valid mo) (table_contents (sv_version sv)).
Proof. apply Forall_forall. intros e He. apply (cv_valid _ _ _ _ (hi_covers _ _ _ Hi)). by right. Qed.

Lemma mem_valid : Forall (entry_valid mo) (mem_contents sv).
Proof. apply Forall_forall. intros e He. by apply hist_valid, mem_in_hist. Qed.

(** Readers see the map of the history. *)
Lemma final_contents k : final mo k (contents sv) = map_of mo hist k.
Proof.
  rewrite <- final_hist; [|apply (hi_laws _ _ _ Hi)|apply (hi_order _ _ _ Hi)|apply hist_max|apply hist_valid].
  pose proof (hi_hist _ _ _ Hi) as Hh. pose proof (hi_order _ _ _ Hi) as Ho.
  pose proof (order_uniq _ Ho) as Hu.
  assert (mem_contents sv ++ g_flushed g ≡ₚ hist) as Hp by (rewrite parts_perm, Hh; apply Permutation_app_comm).
  unfold final. rewrite <- (view_perm mo SeqNo_MAX k hist _ Hu Hp), contents_split.
  apply view_under; [apply (hi_laws _ _ _ Hi)|exact (contents_uniq _ _ (hi_sv _ _ _ Hi))|by rewrite Hp|apply mem_above| |apply mem_valid|apply tables_valid| | |].
  - intros a b Ha Hb Hab. left. rewrite parts_perm in Ha. rewrite Hh in Ho. by apply (order_app _ _ Ho b a).
  - apply Forall_forall. intros e He. apply hist_valid. rewrite Hh, elem_of_app. by left.
  - intros e He. apply hist_max. by apply mem_in_hist.
  - intros Hk. apply (cv_view _ _ _ _ (hi_covers _ _ _ Hi)). destruct Hk as [Hk|Hk]; [by left|right].
    rewrite Hh, drop_prefix. intros Hk'. apply Hk. by eapply has_key_perm; [symmetry; apply parts_perm|].
Qed.

Lemma view_contents k : view mo (t_seqno t) k (contents sv) = map_of mo hist k.
Proof.
  rewrite <- final_contents. symmetry. apply view_later.
  - intros e He. by apply contents_seqno.
  - pose proof (hi_seqno _ _ _ Hi) as [_ ?]. unfold SeqNo_MAX, U64_MAX. lia.
Qed.

End inv.

(** ** Writes *)

Lemma max_seqno_snoc p e : max_seqno (p ++ [e]) = Z.max (max_seqno p) (seqno e).
Proof. unfold max_seqno. by rewrite fold_left_app. Qed.

Lemma holds_write m p e :
  holds m p -> (forall x, x ∈ p -> before x e) ->
  holds (fst (Memtable_insert m (key e) (value e) (seqno e) (value_type e))) (p ++ [e]).
Proof.
  intros [Hp Hh] Hn. split.
  - assert (e = mkEntry (key e) (value e) (seqno e) (value_type e)) as E by (by destruct e). rewrite E at 5.
    rewrite Memtable_insert_perm, Hp; [by rewrite Permutation_app_comm|]. intros x Hx [Hk Hq]. rewrite Hp in Hx. destruct (Hn x Hx) as [_ H]. specialize (H Hk). lia.
  - rewrite max_seqno_snoc, <- Hh. done.
Qed.

(** The parts after one more write. *)
Lemma parts_last t hist g :
  hist_inv t hist g -> exists ps p, g_parts g = ps ++ [p] /\ Forall2 holds (sv_sealed (t_current t)) ps /\ holds (sv_active (t_current t)) p.
Proof.
  intros Hi. pose proof (hi_parts _ _ _ Hi) as Hp. apply Forall2_app_inv_l in Hp as (ps & l & Hp1 & Hp2 & E).
  inversion Hp2 as [|m p ms' ps' Hp3 Hp4]; subst. inversion Hp4; subst. eauto.
Qed.

Definition with_parts (g : Ghost) (parts : list (list Entry)) : Ghost :=
  mkGhost (g_flushed g) (g_persisted g) (g_pruned g) parts (g_version g) (g_next_id g) (g_next_seqno g).

(** What is left in memory is above the watermarks. *)
Lemma unflushed t hist g : hist_inv t hist g -> g_persisted g `prefix_of` g_flushed g ->
  drop (length (g_flushed g)) hist = concat (g_parts g) /\
  forall e, e ∈ concat (g_parts g) -> e ∈ drop (length (g_persisted g)) hist.
Proof.
  intros Hh [M HM]. rewrite (hi_hist _ _ _ Hh), drop_prefix. split; [done|]. intros e He.
  rewrite HM, <- app_assoc, drop_prefix, elem_of_app. by right.
Qed.

(** What the next write is after. *)
Lemma follows_spec t hist g ps p e :
  hist_inv t hist g -> g_parts g = ps ++ [p] -> holds (sv_active (t_current t)) p -> follows t e ->
  t_seqno t <= seqno e /\ (forall x, x ∈ hist -> before x e) /\
  (forall l x, l ∈ g_flushed g :: ps -> x ∈ l -> seqno x < seqno e) /\
  (forall b, b <= t_seqno t -> (forall x, x ∈ concat (g_parts g) -> b < seqno x) -> b < seqno e).
Proof.
  intros Hi Eg [Hp _] Hf. pose proof (hi_cuts _ _ _ Hi) as Hc. rewrite Eg, app_comm_cons in Hc.
  assert (forall x, x ∈ hist -> seqno x <= t_seqno t) as Hle by (intros x Hx; by destruct (hi_entries _ _ _ Hi x Hx) as [_ [_ ?]]).
  assert (hist = concat ((g_flushed g :: ps) ++ [p])) as Eh by (by rewrite (hi_hist _ _ _ Hi), Eg).
  destruct Hf as [Hlt|(Heq & (y & Hy & Eq) & Hnew)].
  - split; [lia|]. split; [intros x Hx; specialize (Hle x Hx); split; lia|]. split; [|intros; lia].
    intros l x Hl Hx. assert (x ∈ hist) as H; [|specialize (Hle x H); lia]. rewrite Eh, concat_app, elem_of_app. left. apply elem_of_concat. eauto.
  - rewrite Hp in Hy. setoid_rewrite Hp in Hnew.
    assert (forall l x, l ∈ g_flushed g :: ps -> x ∈ l -> seqno x < seqno e) as Hcut.
    { intros l x Hl Hx. rewrite <- Eq. exact (StronglySorted_app_1_elem_of _ _ _ _ _ Hc Hl (list_elem_of_here _ _) x y Hx Hy). }
    split; [lia|]. split; [|split; [done|]].
    + intros x Hx. split; [specialize (Hle x Hx); lia|]. intros Hk. rewrite Eh, concat_app, elem_of_app in Hx.
      destruct Hx as [(l & Hx & Hl)%elem_of_concat|Hx]; [eauto|]. cbn [concat] in Hx. rewrite app_nil_r in Hx.
      specialize (Hle x). rewrite Eh, concat_app, elem_of_app in Hle. cbn [concat] in Hle. rewrite app_nil_r in Hle. specialize (Hle (or_intror Hx)).
      destruct (Z.eq_dec (seqno x) (seqno e)) as [E|]; [by destruct (Hnew x Hx E)|lia].
    + intros b _ Hb. rewrite <- Eq. apply Hb. rewrite Eg, concat_app, elem_of_app. right. cbn [concat]. by rewrite app_nil_r.
Qed.

Lemma write_hist_inv t hist g ps p e :
  hist_inv t hist g -> g_parts g = ps ++ [p] -> Forall2 holds (sv_sealed (t_current t)) ps -> holds (sv_active (t_current t)) p ->
  entry_ok e -> entry_valid (t_merge_operator t) e -> follows t e ->
  hist_inv (write_entry e t) (hist ++ [e]) (with_parts g (ps ++ [p ++ [e]])).
Proof.
  intros Hi Eg Hps Hp He Hev Hs. pose proof Hi as [H1 H1' H2 H3 H4 H5 H6 H7 H8].
  destruct (follows_spec _ _ _ _ _ _ Hi Eg Hp Hs) as (Hle & Hlt & Hcut & Hab).
  assert (0 < seqno e) as Hpos.
  { apply Hab; [apply H3|]. intros x Hx. apply H2. rewrite H6, elem_of_app. by right. }
  destruct (write_entry_fields e t) as (Ec & Es & _ & _ & _ & Em & _). pose proof He as [_ [??]]. pose proof H3 as [??].
  assert (t_seqno (write_entry e t) = seqno e) as Es' by (rewrite Es; lia).
  assert (hist = g_flushed g ++ concat ps ++ p) as Eh.
  { rewrite H6, Eg, concat_app. cbn [concat]. by rewrite app_nil_r. }
  assert (forall x, x ∈ p -> x ∈ hist) as Hsub by (intros x Hx; rewrite Eh, !elem_of_app; tauto).
  split; rewrite ?Em, ?Es', ?Ec; cbn [sv_sealed sv_active g_parts with_parts g_flushed sv_version].
  - apply StronglySorted_app_2; [|done|repeat constructor]. intros a b Ha ->%list_elem_of_singleton. auto.
  - rewrite Eg, app_comm_cons in H1'. rewrite app_comm_cons. by apply cut_last.
  - intros x [Hx| ->%list_elem_of_singleton]%elem_of_app; [|split; [done|lia]].
    destruct (H2 x Hx) as [? ?]. split; [done|]. lia.
  - done.
  - done.
  - apply Forall2_app; [done|]. constructor; [|constructor]. apply holds_write; [done|].
    intros x Hx. by apply Hlt, Hsub.
  - rewrite Eh, concat_app. cbn [concat]. by rewrite app_nil_r, <- !app_assoc.
  - apply write_sv_ok; [done|done|]. intros x Hx Hk. destruct (contents_origin t hist g Hi x Hx) as (h & Hh & Hhk & <-).
    apply Hlt; [done|]. congruence.
  - by apply covers_extend; [|apply Forall_singleton].
Qed.

Lemma drop_snoc {A} (F hist : list A) e : F `prefix_of` hist -> drop (length F) (hist ++ [e]) = drop (length F) hist ++ [e].
Proof. intros [M ->]. rewrite <- app_assoc. by rewrite !drop_prefix. Qed.

Lemma write_inv ks hist g e :
  ks_inv ks hist g -> ks_recovering ks = false -> entry_ok e -> entry_valid (t_merge_operator (ks_tree ks)) e -> follows (ks_tree ks) e ->
  exists g', ks_inv (mkKeyspace (write_entry e (ks_tree ks)) (ks_flush ks) (ks_compact ks) (ks_wal ks ++ [e]) false) (hist ++ [e]) g'.
Proof.
  intros [Hh Hd Hl Hm Hf Hc] Hr He Hev Hs. destruct (parts_last _ _ _ Hh) as (ps & p & Eg & Hps & Hp).
  exists (with_parts g (ps ++ [p ++ [e]])). set (t := ks_tree ks) in *.
  destruct (write_entry_fields e t) as (Ec & Es & Edisk & Eman & Edir & Emo & Efl & Edur & Een & Ecfg & Eids).
  pose proof (write_hist_inv _ _ _ _ _ _ Hh Eg Hps Hp He Hev Hs) as Hh'. set (t' := write_entry e t) in *.
  destruct (follows_spec _ _ _ _ _ _ Hh Eg Hp Hs) as (Hle & Hlt & Hcut & Hab).
  destruct (unflushed _ _ _ Hh (li_prefix _ _ _ _ _ Hl)) as [_ Hun].
  assert (t_seqno t' = seqno e) as Es' by (rewrite Es; lia).
  assert (forall x, x ∈ concat (ps ++ [p ++ [e]]) -> x ∈ concat (g_parts g) \/ x = e) as Hparts.
  { intros x. rewrite Eg, !concat_app. cbn [concat]. rewrite !app_nil_r, !elem_of_app, list_elem_of_singleton. tauto. }
  split; cbn [ks_tree ks_flush ks_compact ks_wal ks_recovering].
  - done.
  - destruct Hd as [Hd1 Hd2 Hd3 Hd4]. split; rewrite ?Edisk, ?Ec, ?Edir; done.
  - destruct Hl as [Hl1 Hl2 Hl3 Hl4 Hl4' Hl5 Hl6 Hl7 Hl8].
    split; cbn [g_persisted g_version g_flushed g_pruned g_next_id g_next_seqno with_parts];
      rewrite ?Edisk, ?Ec, ?Edir, ?Eman, ?Emo, ?Es'; try done.
    + by apply covers_extend; [|apply Forall_singleton].
    + by rewrite Hl4, <- app_assoc.
    + intros x y Hx [Hy| ->%list_elem_of_singleton]%elem_of_app; [by apply Hl4'|]. apply (Hcut (g_flushed g)); [by left|].
      destruct Hl2 as [? ->], Hl3 as [? ->]. rewrite !elem_of_app. tauto.
    + destruct Hl7 as [? ?]. split; [lia|done].
  - destruct Hm as [[Hm1 Hm1'] Hm2 Hm3]. destruct (Hm2 Hr) as [Ha Hb].
    split; cbn [g_parts g_persisted with_parts]; rewrite ?Efl, ?Edur, ?Es'; [lia| |done].
    intros _. split; [intros x [Hx| ->]%Hparts; [auto|apply Hab; [lia|done]]|]. rewrite drop_snoc by apply (cv_prefix _ _ _ _ (li_covers _ _ _ _ _ Hl)).
    intros x [Hx| ->%list_elem_of_singleton]%elem_of_app; [auto|]. apply Hab; [lia|auto].
  - cbn [g_parts with_parts]. unfold flush_inv in *. destruct (ks_flush ks) as [[j|j]|]; [| |done].
    + rewrite Edir, Ec, Eids. done.
    + destruct Hf as [Hf1 Hf2]. rewrite Es'. split; [lia|]. intros x [Hx| ->]%Hparts; [auto|apply Hab; [lia|done]].
  - cbn [g_version with_parts]. rewrite Emo, Ec. done.
Qed.

(** ** Seals *)

Lemma seal_inv ks hist g :
  ks_inv ks hist g -> exists g', ks_inv (on_tree (fun t => fst (seal_active t)) ks) hist g'.
Proof.
  intros [Hh Hd Hl Hm Hf Hc]. unfold on_tree, seal_active.
  destruct (Memtable_is_empty (sv_active (t_current (ks_tree ks)))) eqn:Em; cbv zeta; [by exists g|].
  exists (with_parts g (g_parts g ++ [[]])). cbn [fst]. set (t := ks_tree ks) in *.
  assert (concat (g_parts g ++ [[]]) = concat (g_parts g)) as Econcat by (rewrite concat_app; cbn; by rewrite app_nil_r).
  destruct (seal_sv_ok _ _ (hi_sv _ _ _ Hh)) as [Hok _].
  split; cbn [ks_tree ks_flush ks_compact ks_wal ks_recovering].
  - destruct Hh as [H1 H1' H2 H3 H4 H5 H6 H7 H8]. split; try done; cbn [g_parts with_parts g_flushed].
    + rewrite app_comm_cons. apply StronglySorted_app_2; [|done|repeat constructor]. by intros l l' _ ->%list_elem_of_singleton x y _ ?%elem_of_nil.
    + cbn [t_current set_current sv_sealed sv_active]. apply Forall2_app; [done|]. constructor; [|constructor].
      split; [by rewrite Memtable_iter_new|done].
    + by rewrite Econcat.
  - destruct Hd as [Hd1 Hd2 Hd3 Hd4]. by split.
  - destruct Hl as [Hl1 Hl2 Hl3 Hl4 Hl4c Hl5 Hl6 Hl7 Hl8]. by split.
  - destruct Hm as [Hm1 Hm2 Hm3]. split; [done| |done]. cbn [g_parts with_parts]. by rewrite Econcat.
  - unfold flush_inv in *. cbn [g_parts with_parts]. destruct (ks_flush ks) as [[j|j]|]; [|by rewrite Econcat|done].
    destruct Hf as [(later & id & Hs & Hfa) Hids]. split; [|done]. exists (later ++ [sv_active (t_current t)]), id.
    cbn [t_current set_current sv_sealed]. by rewrite Hs, <- app_assoc.
  - done.
Qed.

(** ** New tables *)

Lemma add_files_other ts files p : (forall u, u ∈ ts -> th_path u <> p) -> add_files ts files !! p = files !! p.
Proof.
  unfold add_files. revert files; induction ts as [|u ts IH]; intros files Hp; [done|]. cbn [fold_left].
  rewrite IH by (intros; apply Hp; by right). apply lookup_insert_ne, Hp. by left.
Qed.

Lemma add_files_new ts files t :
  NoDup (th_path <$> ts) -> t ∈ ts -> add_files ts files !! th_path t = Some (rd_file (th_reader t)).
Proof.
  revert files; induction ts as [|u ts IH]; intros files Hn Ht; [by apply elem_of_nil in Ht|].
  cbn [fmap list_fmap] in Hn. apply NoDup_cons in Hn as [Hu Hn]. unfold add_files. cbn [fold_left].
  apply elem_of_cons in Ht as [->|Ht]; [|by apply IH].
  change (add_files ts (<[th_path u := rd_file (th_reader u)]> files) !! th_path u = Some (rd_file (th_reader u))).
  rewrite add_files_other; [apply lookup_insert_eq|]. intros w Hw E. apply Hu. rewrite <- E. by apply list_elem_of_fmap_2.
Qed.

(** Tables written with fresh ids. *)
Record fresh_tables (dir : bytes) (d : Disk) (next : Z) (ts : list TableHandle) : Prop := {
  ft_ok : Forall table_ok ts;
  ft_ids : Forall (fun h => dk_next_table_id d <= table_id h < next /\ th_path h = sst_path dir (table_id h)) ts;
  ft_nodup : NoDup (table_id <$> ts);
  ft_next : 0 <= dk_next_table_id d <= next /\ is_uint 64 next;
}.

Lemma fresh_paths dir d next ts : fresh_tables dir d next ts -> NoDup (th_path <$> ts).
Proof.
  intros [_ Hids Hn [? [? ?]]].
  induction Hids as [|h ts [Hid Hp] Hids IH]; [constructor|]. cbn [fmap list_fmap] in *. apply NoDup_cons in Hn as [Hh Hn].
  constructor; [|auto]. intros (u & Eu & Hu)%list_elem_of_fmap. rewrite Forall_forall in Hids. destruct (Hids u Hu) as [Hidu Hpu].
  apply Hh. rewrite Hp, Hpu in Eu. apply sst_path_inj in Eu; [rewrite Eu; by apply list_elem_of_fmap_2|unfold is_uint; lia..].
Qed.

Lemma fresh_on_file dir d next ts h :
  fresh_tables dir d next ts -> 0 <= table_id h < dk_next_table_id d -> on_file dir (dk_files d) h ->
  on_file dir (add_files ts (dk_files d)) h.
Proof.
  intros [_ Hids _ [? [? ?]]] Hid [Hp Hf]. split; [done|]. rewrite add_files_other; [done|]. intros u Hu E.
  rewrite Forall_forall in Hids. destruct (Hids u Hu) as [Hidu Hpu]. rewrite Hp, Hpu in E.
  apply sst_path_inj in E; [lia|unfold is_uint; lia..].
Qed.

Lemma fresh_in_use dir d next olds ts :
  fresh_tables dir d next ts -> Forall (in_use dir d) olds ->
  Forall (in_use dir (mkDisk (add_files ts (dk_files d)) next)) (olds ++ ts).
Proof.
  intros Hf Ho. pose proof (fresh_paths _ _ _ _ Hf) as Hnp. pose proof Hf as [H1 H2 H3 [H4 ?]]. apply Forall_app. split.
  - eapply Forall_impl; [exact Ho|]. intros h [Ha Hb Hc]. split; cbn [dk_next_table_id dk_files]; [done|lia|].
    by eapply fresh_on_file.
  - rewrite Forall_forall in H1, H2 |- *. intros h Hh. destruct (H2 h Hh) as [??]. split; cbn [dk_next_table_id dk_files]; [auto|lia|].
    split; [done|]. by apply add_files_new.
Qed.

Lemma fresh_nodup dir d next olds ts :
  fresh_tables dir d next ts -> Forall (in_use dir d) olds -> NoDup (table_id <$> olds) -> NoDup (table_id <$> (olds ++ ts)).
Proof.
  intros [_ H2 H3 _] Ho Hn. rewrite fmap_app, NoDup_app. split; [done|]. split; [|done].
  intros x (a & -> & Ha)%list_elem_of_fmap (b & E & Hb)%list_elem_of_fmap. rewrite Forall_forall in Ho, H2.
  destruct (iu_id _ _ _ (Ho a Ha)). destruct (H2 b Hb) as [? _]. lia.
Qed.

Lemma persisted_files dir files files' m v n q :
  persisted dir files m v n q -> (forall h, h ∈ concat (levels v) -> on_file dir files h -> on_file dir files' h) ->
  persisted dir files' m v n q.
Proof.
  intros [H1 H2 H3 H4 H5] Hf. split; try done. rewrite Forall_forall in *. auto.
Qed.

Lemma log_inv_disk t t' cp wal hist g :
  log_inv t cp wal hist g ->
  t_merge_operator t' = t_merge_operator t -> t_dir t' = t_dir t -> t_manifest t' = t_manifest t -> t_seqno t' = t_seqno t ->
  t_current t' = t_current t -> dk_next_table_id (t_disk t) <= dk_next_table_id (t_disk t') ->
  (forall h, h ∈ concat (levels (g_version g)) -> on_file (t_dir t) (dk_files (t_disk t)) h -> on_file (t_dir t) (dk_files (t_disk t')) h) ->
  log_inv t' cp wal hist g.
Proof.
  intros [Hl1 Hl2 Hl3 Hl4 Hl4c Hl5 Hl6 Hl7 Hl8] E1 E2 E3 E4 E5 E6 Hf.
  split; rewrite ?E1, ?E2, ?E3, ?E4, ?E5; try done.
  - by eapply persisted_files.
  - destruct Hl6 as (? & ? & ?). split; [lia|done].
Qed.

(** ** Flushes *)

Lemma flush_begin_spec t hist g t' j :
  hist_inv t hist g -> 0 <= dk_next_table_id (t_disk t) ->
  flushable (flush_config t) (dk_next_table_id (t_disk t)) (sv_sealed (t_current t)) ->
  dk_next_table_id (t_disk t) + blen (sv_sealed (t_current t)) < 2 ^ 64 ->
  flush_begin t = (t', Ok (Some j)) ->
  let next := dk_next_table_id (t_disk t) + blen (sv_sealed (t_current t)) in
  fj_sealed j = sv_sealed (t_current t) /\
  flushed_as (t_dir t) (dk_next_table_id (t_disk t)) (fj_sealed j) (fj_tables j) /\
  fresh_tables (t_dir t) (t_disk t) next (fj_tables j) /\
  t' = set_flushing_ids (t_flushing_ids t ∪ list_to_set (fj_ids j)) (set_disk (mkDisk (add_files (fj_tables j) (dk_files (t_disk t))) next) t) /\
  forall h, h ∈ fj_tables j -> table_id h ∈ fj_ids j.
Proof.
  intros Hi Hn Hf Hlen Hb. pose proof (so_mem _ _ (hi_sv _ _ _ Hi)) as Hm. unfold memtables in Hm. apply Forall_cons in Hm as [_ Hm].
  apply Forall_reverse in Hm. rewrite reverse_involutive in Hm.
  destruct (flush_memtables_ok (t_dir t) (flush_config t) _ (t_disk t) Hm Hn Hlen Hf) as (ts & Hts & Hfa).
  unfold flush_begin in Hb. destruct (sv_sealed (t_current t)) as [|m ms] eqn:Es; [done|]. rewrite Hts in Hb.
  injection Hb as <- <-. cbn [fj_sealed fj_tables fj_ids]. cbv zeta. split; [done|]. split; [done|].
  destruct (flushed_as_spec _ _ _ _ Hfa) as (Hok & Hnd & Hids & _). pose proof (blen_nonneg (m :: ms)).
  split; [split; [done|done|done|unfold is_uint; lia]|]. split; [done|]. intros h Hh. rewrite Forall_forall in Hids.
  apply elem_of_seqZ. destruct (Hids h Hh). lia.
Qed.

Lemma flush_begin_inv ks hist g t' j :
  ks_inv ks hist g -> ks_flush ks = None ->
  flushable (flush_config (ks_tree ks)) (dk_next_table_id (t_disk (ks_tree ks))) (sv_sealed (t_current (ks_tree ks))) ->
  dk_next_table_id (t_disk (ks_tree ks)) + blen (sv_sealed (t_current (ks_tree ks))) < 2 ^ 64 ->
  flush_begin (ks_tree ks) = (t', Ok (Some j)) ->
  ks_inv (mkKeyspace t' (Some (Captured j)) (ks_compact ks) (ks_wal ks) (ks_recovering ks)) hist g.
Proof.
  intros [Hh Hd Hl Hm Hf Hc] Efl Hfl Hlen Hb. rewrite Efl in *. set (t := ks_tree ks) in *.
  destruct Hd as [[Hn Hpos] Hd2 Hd3 Hd4]. pose proof Hn as [Hn0 _].
  destruct (flush_begin_spec t hist g t' j Hh Hn0 Hfl Hlen Hb) as (Es & Hfa & Hfr & -> & Hids).
  cbn [flush_tables app] in Hd2, Hd3.
  assert (concat (levels (sv_version (t_current t))) ++ fj_tables j ++ compact_tables (ks_compact ks) ≡ₚ
    (concat (levels (sv_version (t_current t))) ++ compact_tables (ks_compact ks)) ++ fj_tables j) as Hp.
  { rewrite <- app_assoc. apply Permutation_app_head, Permutation_app_comm. }
  pose proof (ft_next _ _ _ _ Hfr) as [Hnx Hnx']. pose proof (ft_ids _ _ _ _ Hfr) as Hfi. rewrite Forall_forall in Hfi.
  split; cbn [ks_tree ks_flush ks_compact ks_wal ks_recovering].
  - destruct Hh as [H1 H1c H2 H3 H4 H5 H6 H7 H8]. by split.
  - split; cbn [flush_tables t_current set_flushing_ids set_disk t_disk t_dir dk_next_table_id]; [split; [done|lia]| | |].
    + rewrite Hp. by apply fresh_in_use.
    + rewrite Hp. by eapply fresh_nodup.
    + intros id Hid. destruct (Hd4 id Hid) as [Hid1 Hid2]. split; [lia|]. cbn [flush_tables] in Hid2. rewrite app_nil_r in Hid2.
      intros h [Hh'|Hh']%elem_of_app; [auto|]. destruct (Hfi h Hh'). lia.
  - eapply log_inv_disk; [exact Hl|done..| |]; cbn [t_disk set_flushing_ids set_disk dk_next_table_id dk_files]; [lia|].
    intros h Hh' Hon. eapply fresh_on_file; [done| |done]. destruct (li_next_id _ _ _ _ _ Hl) as (? & _ & Hx). specialize (Hx h Hh'). lia.
  - destruct Hm as [Hm1 Hm2 Hm3]. by split.
  - split; [exists [], (dk_next_table_id (t_disk t)); by rewrite app_nil_r|]. intros h Hh'. cbn [t_flushing_ids set_flushing_ids].
    apply elem_of_union_r, elem_of_list_to_set. auto.
  - done.
Qed.

Lemma task_of_flush j v task : Version_shape v -> task_of v task -> task_of (flush_version j v) task.
Proof.
  intros Hv Ht. unfold flush_version. destruct (fj_tables j) as [|t ts] eqn:Ej; [done|]. rewrite <- Ej.
  assert (forall i, (1 <= i)%nat -> level (with_new_l0_tables v (fj_tables j)) i = level v i) as Hl.
  { intros i Hi. rewrite level_with_new_l0 by done. destruct (Nat.eqb_spec i 0); [lia|done]. }
  assert (length (levels (with_new_l0_tables v (fj_tables j))) = length (levels v)) as Hlen.
  { unfold with_new_l0_tables. cbn [levels]. apply length_alter. }
  assert (forall n, (1 <= n)%nat -> all_empty_from (with_new_l0_tables v (fj_tables j)) n = all_empty_from v n) as He.
  { intros n Hn. unfold all_empty_from, with_new_l0_tables. cbn [levels]. destruct (levels v) as [|l ls]; [done|].
    destruct n; [lia|]. done. }
  destruct Ht as [batch rest H0|lvl task' H1 H2 Hb].
  - assert (l0_task v batch = l0_task (with_new_l0_tables v (fj_tables j)) batch) as ->.
    { unfold l0_task. destruct (l0_key_range batch). by rewrite Hl, He by lia. }
    apply (task_l0 _ batch (rest ++ fj_tables j)). rewrite level_with_new_l0 by done. cbn [Nat.eqb]. by rewrite H0, app_assoc.
  - apply (task_level _ lvl); [done|done|]. rewrite <- Hb. unfold build_level_compaction. cbv zeta.
    by rewrite !Hl, Hlen, He by lia.
Qed.

Lemma concat_parts_flush sealed active parts ms later :
  Forall2 holds (sealed ++ [active]) parts -> sealed = ms ++ later ->
  exists p1 p2, parts = p1 ++ p2 /\ Forall2 holds ms p1 /\ Forall2 holds (later ++ [active]) p2.
Proof.
  intros Hp ->. rewrite <- app_assoc in Hp. apply Forall2_app_inv_l in Hp as (p1 & p2 & ? & ? & ->). eauto.
Qed.

Lemma parts_max ms ps b :
  Forall2 holds ms ps -> 0 < b -> (forall e, e ∈ concat ps -> seqno e < b) ->
  forall a, a < b -> fold_left (fun a m => Z.max a (highest_seqno m)) ms a < b.
Proof.
  induction 1 as [|m p ms ps [_ Hh] _ IH]; intros Hb Hlt a Ha; [done|]. cbn [fold_left]. apply IH; [done| |].
  - intros e He. apply Hlt. cbn [concat]. apply elem_of_app. by right.
  - assert (max_seqno p < b) as Hm; [|lia]. assert (forall e, e ∈ p -> seqno e < b) as Hp by (intros e He; apply Hlt; cbn [concat]; apply elem_of_app; by left).
    clear -Hp Hb. unfold max_seqno. assert (forall a, a < b -> fold_left (fun a e => Z.max a (seqno e)) p a < b) as H; [|by apply H].
    induction p as [|e p IH]; intros a Ha; [done|]. cbn [fold_left]. apply IH; [intros; apply Hp; by right|].
    specialize (Hp e ltac:(by left)). lia.
Qed.

Definition with_flushed (g : Ghost) (F : list Entry) (parts : list (list Entry)) : Ghost :=
  mkGhost F (g_persisted g) (g_pruned g) parts (g_version g) (g_next_id g) (g_next_seqno g).

Lemma flush_covers t hist g j dir id later p1 p2 :
  hist_inv t hist g -> g_parts g = p1 ++ p2 -> Forall2 holds (fj_sealed j) p1 ->
  sv_sealed (t_current t) = fj_sealed j ++ later -> flushed_as dir id (fj_sealed j) (fj_tables j) ->
  stacked (t_merge_operator t) (table_layers (flush_version j (sv_version (t_current t)))) ->
  covers (t_merge_operator t) hist (g_flushed g ++ concat p1) (flush_version j (sv_version (t_current t))).
Proof.
  intros Hi Eg Hp1 Hs Hfa Hst. pose proof (hi_hist _ _ _ Hi) as Hh. pose proof (hi_order _ _ _ Hi) as Ho.
  pose proof (hi_covers _ _ _ Hi) as [_ _ Hc3 Hc4 Hc5 Hc6]. set (v := sv_version (t_current t)) in *. set (mo := t_merge_operator t) in *.
  rewrite Eg, concat_app, app_assoc in Hh.
  set (A := concat (table_entries <$> reverse (fj_tables j))).
  assert (A ≡ₚ concat p1) as HA.
  { unfold A. destruct (flushed_layers _ _ _ _ Hfa) as [_ ->]. rewrite fmap_reverse, (concat_perm _ _ (reverse_Permutation _)).
    clear -Hp1. induction Hp1 as [|m p ms ps [Hm _] _ IH]; [done|]. cbn [fmap list_fmap concat]. by rewrite Hm, IH. }
  assert (table_contents (flush_version j v) = A ++ table_contents v) as Et.
  { rewrite <- !concat_table_layers, table_layers_flush by apply (so_version _ _ (hi_sv _ _ _ Hi)). by rewrite concat_app. }
  assert (forall e, e ∈ A -> e ∈ hist) as Hsub by (intros e; rewrite HA, Hh, !elem_of_app; tauto).
  assert (StronglySorted before (g_flushed g ++ concat p1)) as Ho1.
  { rewrite Hh in Ho. by apply StronglySorted_app_1_l in Ho. }
  assert (A ++ g_flushed g ≡ₚ g_flushed g ++ concat p1) as HAF by (rewrite HA; apply Permutation_app_comm).
  pose proof (order_uniq _ Ho1) as HuF.
  split; [done|by eexists|..]; rewrite ?Et.
  - intros e [He|He]%elem_of_app Hp; auto.
  - intros e [He|He]%elem_of_app Hp; [rewrite HA in He; exists e; rewrite elem_of_app; auto|].
    destruct (Hc4 e He Hp) as (f & Hf & ?). exists f. rewrite elem_of_app. auto.
  - intros k Hk. unfold final. rewrite <- (view_perm mo SeqNo_MAX k _ _ HuF HAF). rewrite Hh, drop_prefix in Hk.
    apply view_under; [apply (hi_laws _ _ _ Hi)| |by rewrite HAF| | | | | | |].
    + rewrite <- Et, <- concat_table_layers. by apply (stacked_uniq mo).
    + rewrite table_layers_flush, stacked_app in Hst by apply (so_version _ _ (hi_sv _ _ _ Hi)). destruct Hst as (_ & _ & Hab).
      intros a b (l & Ha & Hl)%elem_of_concat Hb Hab'. rewrite <- concat_table_layers in Hb. apply elem_of_concat in Hb as (l' & Hb & Hl').
      destruct (Hab l l' Hl Hl' a b Ha Hb Hab') as [?|[? Hin]]; [by left|right]. split; [done|]. apply elem_of_concat. eauto.
    + intros a b Ha Hb Hab. left. rewrite HA in Ha. by apply (order_app _ _ Ho1 b a).
    + apply Forall_forall. intros e He. apply Hc6. left. auto.
    + apply Forall_forall. intros e He. apply Hc6. by right.
    + apply Forall_forall. intros e He. apply Hc6. left. rewrite Hh, !elem_of_app. auto.
    + intros e He. by apply (hist_max t hist g Hi), Hsub.
    + intros Hk'. apply Hc5. destruct Hk as [Hk|Hk]; [by left|]. destruct Hk' as [Hk'|Hk']; [by left|right].
      rewrite Hh, <- app_assoc, drop_prefix. intros (e & [He|He]%elem_of_app & Hke); [apply Hk'|apply Hk]; exists e; [by rewrite HA|done].
  - intros e [He|[He|He]%elem_of_app]; apply Hc6; auto.
Qed.

Lemma flush_install_current j t later :
  sv_sealed (t_current t) = fj_sealed j ++ later ->
  t_current (flush_install j t) = mkSuperVersion SM (sv_active (t_current t)) later (flush_version j (sv_version (t_current t))).
Proof.
  intros Hs. unfold flush_install. cbv zeta. cbn [t_current set_current]. rewrite Hs, length_app, Nat.min_l, drop_app_length by lia. done.
Qed.

Lemma flush_install_inv ks hist g j :
  ks_inv ks hist g -> ks_flush ks = Some (Captured j) ->
  exists g', ks_inv (mkKeyspace (flush_install j (ks_tree ks)) (Some (FlushInstalled j)) (ks_compact ks) (ks_wal ks) (ks_recovering ks)) hist g'.
Proof.
  intros [Hh Hd Hl Hm Hf Hc] Efl. rewrite Efl in *. set (t := ks_tree ks) in *. destruct Hf as [(later & id & Hs & Hfa) Hids].
  destruct (concat_parts_flush _ _ _ _ _ (hi_parts _ _ _ Hh) Hs) as (p1 & p2 & Eg & Hp1 & Hp2).
  pose proof (hi_sv _ _ _ Hh) as Hsv. pose proof (vo_shape _ (so_version _ _ Hsv)) as Hsh.
  pose proof (flush_version_tables j _ Hsh) as Hft. pose proof Hd as [Hd1 Hd2 Hd3 Hd4]. cbn [flush_tables] in *.
  assert (NoDup (table_id <$> (fj_tables j ++ concat (levels (sv_version (t_current t)))))) as Hnd.
  { rewrite Permutation_app_comm. rewrite app_assoc, fmap_app, NoDup_app in Hd3. tauto. }
  destruct (flush_sv_ok _ _ j _ _ later Hsv Hs Hfa Hnd) as [Hsv' _].
  assert (stacked (t_merge_operator t) (table_layers (flush_version j (sv_version (t_current t))))) as Hst'.
  { pose proof (so_stacked _ _ Hsv') as Hst'. unfold layers in Hst'. rewrite stacked_app in Hst'. tauto. }
  pose proof (flush_covers t hist g j _ _ later p1 p2 Hh Eg Hp1 Hs Hfa Hst') as Hcov.
  pose proof (flush_install_current j t later Hs) as Ecur.
  assert (hist = (g_flushed g ++ concat p1) ++ concat p2) as Eh by (rewrite (hi_hist _ _ _ Hh), Eg, concat_app; by rewrite app_assoc).
  assert (forall e, e ∈ concat p2 -> e ∈ concat (g_parts g)) as Hsub by (intros e He; rewrite Eg, concat_app, elem_of_app; by right).
  assert (StronglySorted cut ((g_flushed g ++ concat p1) :: p2)) as Hcuts by (apply cut_merge; rewrite <- Eg; apply (hi_cuts _ _ _ Hh)).
  exists (with_flushed g (g_flushed g ++ concat p1) p2).
  split; cbn [ks_tree ks_flush ks_compact ks_wal ks_recovering].
  - destruct Hh as [H1 H1' H2 H3 H4 H5 H6 H7 H8]. by split; rewrite ?Ecur.
  - split; rewrite ?Ecur; cbn [flush_tables sv_version app]; [done| | |].
    + rewrite Hft, (Permutation_app_comm (fj_tables j)), <- app_assoc. done.
    + rewrite Hft, (Permutation_app_comm (fj_tables j)), <- app_assoc. done.
    + intros x Hx. destruct (Hd4 x Hx) as [? Hd5]. split; [done|]. intros h. rewrite app_nil_r, Hft, Permutation_app_comm. auto.
  - destruct Hl as [Hl1 Hl2 Hl3 Hl4 Hl4c Hl5 Hl6 Hl7 Hl8]. split; try done; cbn [g_persisted g_version g_flushed g_pruned with_flushed].
    + by apply prefix_app_r.
    + rewrite Ecur. cbn [sv_version]. destruct (ks_compact ks) as [[]|]; try done; intros h Hh'; rewrite Hft; apply elem_of_app; right; auto.
  - destruct Hm as [Hm1 Hm2 Hm3]. split; [done| |]; cbn [g_parts g_persisted with_flushed].
    + intros Hr. destruct (Hm2 Hr) as [Ha Hb]. split; [|done]. intros e He. apply Ha, Hsub, He.
    + intros Hr. by destruct (Hm3 Hr).
  - cbn [flush_inv g_parts with_flushed]. pose proof (cut_concat _ _ Hcuts) as Ho.
    assert (forall b, 0 < b -> (forall e, e ∈ concat p1 -> seqno e < b) -> fj_max_flushed j < b) as Hmax.
    { intros b Hb Hlt. by apply (parts_max _ _ b Hp1 Hb Hlt). }
    assert (forall e, e ∈ hist -> 0 < seqno e <= t_seqno t) as Hq by (intros e He; by apply (hi_entries _ _ _ Hh)). rewrite Eh in Hq.
    split.
    + change (t_seqno (flush_install j t)) with (t_seqno t). pose proof (hi_seqno _ _ _ Hh) as [??].
      assert (fj_max_flushed j < t_seqno t + 1) as H'; [|lia]. apply Hmax; [lia|]. intros e He. specialize (Hq e). rewrite !elem_of_app in Hq.
      specialize (Hq (or_introl (or_intror He))). lia.
    + intros e He. apply Hmax; [apply Hq; rewrite elem_of_app; by right|]. intros x Hx. apply Ho; [|done]. rewrite elem_of_app. by right.
  - cbn [g_version with_flushed]. rewrite Ecur. cbn [sv_version]. unfold compact_inv in *.
    destruct (ks_compact ks) as [[task r|task|old|old]|]; try done.
    + destruct Hc as (Ht & Hc). split; [|exact Hc]. by apply task_of_flush.
    + destruct Hc as (Ht & Hc). split; [|exact Hc]. by apply task_of_flush.
Qed.

(** ** Persisting the manifest *)

Definition persist_ghost (t : Tree) (g : Ghost) : Ghost :=
  mkGhost (g_flushed g) (g_flushed g) (g_pruned g) (g_parts g) (sv_version (t_current t)) (dk_next_table_id (t_disk t)) (t_seqno t).

Lemma persist_log t fl cp cp' wal hist g :
  hist_inv t hist g -> disk_inv t fl cp -> log_inv t cp wal hist g -> version_fits (sv_version (t_current t)) ->
  log_inv (persist_manifest t) cp' wal hist (persist_ghost t g).
Proof.
  intros Hh [[Hd1 Hd1'] Hd2 Hd3 Hd4] [Hl1 Hl2 Hl3 Hl4 Hl4c Hl5 Hl6 Hl7 Hl8] Hfit. apply Forall_app in Hd2 as [Hd2 _].
  split; cbn [g_persisted g_version g_flushed g_pruned g_next_id g_next_seqno persist_ghost].
  - apply (hi_covers _ _ _ Hh).
  - done.
  - by etransitivity.
  - done.
  - exact Hl4c.
  - split; try done; [apply (so_version _ _ (hi_sv _ _ _ Hh))| |apply (hi_seqno _ _ _ Hh)].
    eapply Forall_impl; [exact Hd2|]. by intros h [].
  - split; [done|]. split; [done|]. rewrite Forall_forall in Hd2. intros h Hh'. apply (iu_id _ _ _ (Hd2 h Hh')).
  - split; [done|]. intros e He. apply (hi_entries _ _ _ Hh). rewrite (hi_hist _ _ _ Hh), elem_of_app. by left.
  - by destruct cp' as [[]|].
Qed.

Lemma persist_hist t hist g : hist_inv t hist g -> hist_inv (persist_manifest t) hist (persist_ghost t g).
Proof. intros [H1 H1c H2 H3 H4 H5 H6 H7 H8]. by split. Qed.

Lemma persist_compact t fl cp g :
  disk_inv t fl cp -> compact_inv (t_merge_operator t) (sv_version (t_current t)) (g_version g) cp ->
  compact_inv (t_merge_operator t) (sv_version (t_current t)) (g_version (persist_ghost t g)) cp.
Proof.
  intros Hd Hc. destruct cp as [[]|]; try done. cbn [compact_inv g_version persist_ghost] in *. intros h Hh Hid.
  destruct (di_old _ _ _ Hd (table_id h) Hid) as [_ Hx]. apply (Hx h); [|done]. rewrite elem_of_app. by left.
Qed.

(** The end of a flush: the manifest may have been persisted, and the watermarks
    move up to the newest write of the flushed memtables. *)
Section settle.
Context (ks : Keyspace) (hist : list Entry) (g : Ghost) (j : FlushJob).
Let t := ks_tree ks.
Hypothesis Hk : ks_inv ks hist g.
Hypothesis Efl : ks_flush ks = Some (FlushInstalled j).
Hypothesis Hfit : version_fits (ks_version ks).
Context (t0 : Tree) (g0 : Ghost) (f d : SeqNo).
Hypothesis H0 : t0 = t /\ g0 = g \/ t0 = persist_manifest t /\ g0 = persist_ghost t g.
Hypothesis Hen : t_compaction_enabled t = true -> g0 = persist_ghost t g.
Hypothesis Hfd : f = t_flushed_seqno t \/ f = Z.max (t_flushed_seqno t) (fj_max_flushed j).
Hypothesis Hdd : d = t_manifest_durable_seqno t \/
  (t_compaction_enabled t = true /\ d = Z.max (t_manifest_durable_seqno t) (fj_max_flushed j)).

Lemma settle_same :
  g_parts g0 = g_parts g /\ t_seqno t0 = t_seqno t /\ t_current t0 = t_current t /\ t_disk t0 = t_disk t /\ t_dir t0 = t_dir t /\
  t_compaction_enabled t0 = t_compaction_enabled t.
Proof. by destruct H0 as [[-> ->]|[-> ->]]. Qed.

Lemma settle_parts :
  hist_inv t0 hist g0 /\ log_inv t0 (ks_compact ks) (ks_wal ks) hist g0 /\
  compact_inv (t_merge_operator t0) (sv_version (t_current t0)) (g_version g0) (ks_compact ks).
Proof.
  destruct Hk as [Hh Hd Hl Hm Hf Hc]. destruct H0 as [[-> ->]|[-> ->]]; [done|].
  split; [by apply persist_hist|]. split; [by eapply persist_log|exact (persist_compact _ _ _ _ Hd Hc)].
Qed.

Lemma settle_marks :
  marks_inv (set_seqnos (t_seqno t0) f d t0) (ks_recovering ks) None hist g0.
Proof.
  destruct Hk as [Hh Hd Hl Hm Hf Hc]. rewrite Efl in Hf, Hm. destruct Hf as [Hf1 Hf2]. destruct Hm as [[Hm1 Hm1'] Hm2 Hm3].
  destruct (unflushed _ _ _ Hh (li_prefix _ _ _ _ _ Hl)) as [Hun1 Hun2].
  destruct settle_same as (E3 & E4 & E5 & E6 & E7 & E8). fold t in Hf1, Hf2, Hm1, Hm1', Hm2, Hm3.
  split; cbn [t_flushed_seqno t_manifest_durable_seqno t_seqno set_seqnos t_compaction_enabled]; rewrite ?E3, ?E4, ?E8.
  - destruct Hfd as [->| ->], Hdd as [->|[_ ->]]; lia.
  - intros Hr. destruct (Hm2 Hr) as [Ha Hb]. split.
    + intros e He. specialize (Ha e He). specialize (Hf2 e He). destruct Hfd as [->| ->]; lia.
    + assert (g0 = g /\ d = t_manifest_durable_seqno t \/ g0 = persist_ghost t g) as [[-> ->]| ->]; [|by apply Hb|].
      { destruct H0 as [[_ ->]|[_ ->]]; [|by right]. destruct Hdd as [->|[Een _]]; [by left|right; auto]. }
      cbn [g_persisted persist_ghost]. rewrite Hun1. intros e He. specialize (Hf2 e He). specialize (Hb e (Hun2 e He)).
      destruct Hdd as [->|[_ ->]]; lia.
  - intros Hr. destruct (Hm3 Hr) as [Een _]. split; [done|]. by rewrite (Hen Een).
Qed.

Lemma settle_inv ids :
  ks_inv (mkKeyspace (set_flushing_ids ids (set_seqnos (t_seqno t0) f d t0)) None (ks_compact ks) (ks_wal ks) (ks_recovering ks)) hist g0.
Proof.
  destruct settle_parts as (Hh0 & Hl0 & Hc0). destruct settle_same as (E3 & E4 & E5 & E6 & E7 & E8).
  split; cbn [ks_tree ks_flush ks_compact ks_wal ks_recovering]; [..|done|done].
  - destruct Hh0 as [H1 H1c H2 H3 H4 H5 H6 H7 H8]. by split.
  - destruct Hk as [_ [Hd1 Hd2 Hd3 Hd4] _ _ _ _]. rewrite Efl in Hd2, Hd3, Hd4.
    split; cbn [t_current t_disk t_dir set_flushing_ids set_seqnos]; by rewrite ?E5, ?E6, ?E7.
  - destruct Hl0 as [Hl1 Hl2 Hl3 Hl4 Hl4c Hl5 Hl6 Hl7 Hl8]. by split.
  - destruct settle_marks as [H1 H2 H3]. by split.
Qed.

End settle.

Lemma flush_finish_inv ks hist g j :
  ks_inv ks hist g -> ks_flush ks = Some (FlushInstalled j) -> version_fits (ks_version ks) ->
  exists g', ks_inv (mkKeyspace (flush_finish j (ks_tree ks)) None (ks_compact ks) (ks_wal ks) (ks_recovering ks)) hist g'.
Proof.
  intros Hk Efl Hfit. unfold flush_finish. cbv zeta. set (t := ks_tree ks).
  assert (forall t, set_seqnos (t_seqno t) (t_flushed_seqno t) (t_manifest_durable_seqno t) t = t) as Eset by (by intros []).
  destruct (t_compaction_enabled t) eqn:Een.
  - exists (persist_ghost t g). destruct (0 <? fj_max_flushed j).
    + apply (settle_inv ks hist g j Hk Efl Hfit (persist_manifest t)); [by right|done|by right|by right].
    + rewrite <- (Eset (persist_manifest t)).
      apply (settle_inv ks hist g j Hk Efl Hfit (persist_manifest t)); [by right|done|by left|by left].
  - exists g. fold t in Een. destruct (0 <? fj_max_flushed j).
    + apply (settle_inv ks hist g j Hk Efl Hfit t); [by left|unfold t in Een; congruence|by right|by left].
    + rewrite <- (Eset t). apply (settle_inv ks hist g j Hk Efl Hfit t); [by left|unfold t in Een; congruence|by left|by left].
Qed.

(** ** Compactions *)

Lemma tables_for_fresh dir id cs ts :
  tables_for dir id cs ts -> Forall (fun h => id <= table_id h < id + blen cs /\ th_path h = sst_path dir (table_id h)) ts.
Proof.
  induction 1 as [|id c cs t ts H1 H2 H3 H4 _ IH]; [constructor|]. rewrite blen_cons. pose proof (blen_nonneg cs).
  constructor; [split; [lia|congruence]|]. eapply Forall_impl; [exact IH|]. intros h [? ?]. split; [lia|done].
Qed.

Lemma picked_task ks task : picked ks task -> task_of (ks_version ks) task.
Proof.
  intros [Hc|[n ->]].
  - destruct (choose_compaction_task (ks_version ks) (tc_compaction (t_config (ks_tree ks)))) as (o & Ho & Hs).
    rewrite Ho in Hc. apply Ok_inj in Hc as ->. by destruct (Hs task eq_refl).
  - eapply (task_l0 _ _ (drop _ _)). by rewrite take_drop.
Qed.

Lemma task_inputs_in v task h : Version_shape v -> task_of v task -> h ∈ input_tables task -> h ∈ concat (levels v).
Proof.
  intros Hv Ht Hh. destruct (tk_inputs v task (task_of_ok v task Hv Ht) h Hh) as [?|?]; by eapply elem_of_level.
Qed.

Lemma version_shape_of t hist g : hist_inv t hist g -> Version_shape (sv_version (t_current t)).
Proof. intros Hh. apply (so_version _ _ (hi_sv _ _ _ Hh)). Qed.

(** What a compaction has written. *)
Lemma run_compaction_spec t hist g fl task observer zmb t' r :
  hist_inv t hist g -> disk_inv t fl None -> task_of (sv_version (t_current t)) task -> fits_task t zmb task ->
  run_compaction task observer zmb t = (t', Ok r) ->
  exists next, fresh_tables (t_dir t) (t_disk t) next (cr_new_tables r) /\
    t' = set_disk (mkDisk (add_files (cr_new_tables r) (dk_files (t_disk t))) next) t /\
    compact_inv (t_merge_operator t) (sv_version (t_current t)) (sv_version (t_current t)) (Some (Running task r)).
Proof.
  intros Hh Hd Ht (merged & Hm & Hwr & Hlen & Hns) Hrun. pose proof (version_shape_of _ _ _ Hh) as Hsh.
  assert (Forall table_ok (input_tables task)) as Hin.
  { apply Forall_forall. intros h Hh'. pose proof (vo_tables _ (so_version _ _ (hi_sv _ _ _ Hh))) as Hok. rewrite Forall_forall in Hok.
    eapply Hok, task_inputs_in; eauto. }
  destruct (di_next _ _ _ Hd) as [[Hid Hid'] Hpos].
  destruct (execute_ok (t_dir t) (config_for_level (t_config t) (target_level task)) zmb task
    (target_table_size (tc_compaction (t_config t))) observer (t_merge_operator t) (t_disk t) merged Hin Hm Hid Hwr Hlen) as (ts & He & Hfor & Hes).
  assert (no_split (chunks (target_table_size (tc_compaction (t_config t))) [] 0 (CompactionStream (t_merge_operator t) (is_last_level task) merged))) as Hns'.
  { destruct Hns as [Hno | [Hla | Hns]]; [eapply outputs_no_split; eauto|eapply outputs_no_split; eauto|exact Hns]. }
  unfold run_compaction, on_disk in Hrun. rewrite He in Hrun. injection Hrun as <- <-. cbn [cr_new_tables].
  destruct (tables_for_ok _ _ _ _ Hfor) as (Hok & _ & Hids). eexists. split; [|split; [done|]].
  - set (cs := chunks _ _ _ _) in *. pose proof (blen_nonneg cs).
    split; [done|by apply tables_for_fresh| |split; [lia|unfold is_uint; lia]].
    change (table_id <$> ts) with (map table_id ts). rewrite Hids. apply NoDup_seqZ.
  - split; [done|]. split; [done|]. split; [done|]. cbn [cr_new_tables].
    split; [by eapply outputs_within|]. split; [by eapply outputs_run|].
    exists merged. destruct (merged_spec task merged Hin Hm) as [? ?]. done.
Qed.

Lemma compact_begin_inv ks hist g task observer zmb t' r :
  ks_inv ks hist g -> ks_recovering ks = false -> ks_compact ks = None -> picked ks task -> fits_task (ks_tree ks) zmb task ->
  run_compaction task observer zmb (ks_tree ks) = (t', Ok r) ->
  ks_inv (mkKeyspace t' (ks_flush ks) (Some (Running task r)) (ks_wal ks) false) hist g.
Proof.
  intros [Hh Hd Hl Hm Hf Hc] Hr Ec Hp Hfit Hrun. rewrite Ec, ?Hr in *. apply picked_task in Hp. set (t := ks_tree ks) in *.
  destruct (run_compaction_spec _ _ _ _ _ _ _ _ _ Hh Hd Hp Hfit Hrun) as (next & Hfr & -> & Hci).
  destruct Hd as [[Hn Hpos] Hd2 Hd3 Hd4]. cbn [compact_tables] in *. pose proof (ft_next _ _ _ _ Hfr) as [Hnx Hnx'].
  split; cbn [ks_tree ks_flush ks_compact ks_wal ks_recovering].
  - destruct Hh as [H1 H1c H2 H3 H4 H5 H6 H7 H8]. by split.
  - rewrite app_nil_r in Hd2, Hd3.
    split; cbn [compact_tables old_tables t_current set_disk t_disk t_dir dk_next_table_id]; [split; [done|lia]| | |by intros ? ?%elem_of_nil].
    + rewrite app_assoc. by apply fresh_in_use.
    + rewrite app_assoc. by eapply fresh_nodup.
  - assert (log_inv t (Some (Running task r)) (ks_wal ks) hist g) as Hl' by (destruct Hl as [? ? ? ? ? ? ? Hl8]; by split).
    eapply log_inv_disk; [exact Hl'|done..| |]; cbn [t_disk set_disk dk_next_table_id dk_files]; [lia|].
    intros h Hh' Hon. eapply fresh_on_file; [done| |done]. destruct (li_next_id _ _ _ _ _ Hl) as (? & _ & Hx). specialize (Hx h Hh'). lia.
  - destruct Hm as [Hm1 Hm2 Hm3]. by split.
  - done.
  - done.
Qed.

Lemma move_begin_inv ks hist g task :
  ks_inv ks hist g -> ks_recovering ks = false -> ks_compact ks = None -> picked ks task ->
  is_trivial_move_candidate task (ks_version ks) (tc_compaction (t_config (ks_tree ks))) = true ->
  ks_inv (mkKeyspace (ks_tree ks) (ks_flush ks) (Some (Moving task)) (ks_wal ks) false) hist g.
Proof.
  intros [Hh Hd Hl Hm Hf Hc] Hr Ec Hp Hmv. rewrite Ec, ?Hr in *.
  split; cbn [ks_tree ks_flush ks_compact ks_wal ks_recovering]; try done.
  - destruct Hd as [? ? ? Hd4]. by split.
  - destruct Hl as [? ? ? ? ? ? ? Hl8]. by split.
  - split; [by apply picked_task|]. unfold is_trivial_move_candidate in Hmv. destruct (negb _); [done|].
    destruct (input_tables task) as [|h [|]]; try done. by exists h.
Qed.

Section compact_install.
Context (t : Tree) (hist : list Entry) (g : Ghost) (task : CompactionTask) (new : list TableHandle) (merged stream : list Entry).
Let v := sv_version (t_current t).
Let mo := t_merge_operator t.
Let v' := snd (with_compaction_applied (t_stats t) v (input_ids task) new (target_level task)).
Hypothesis Hh : hist_inv t hist g.
Hypothesis Htask : task_of v task.
Hypothesis Hsm : sorted merged.
Hypothesis Hpm : merged ≡ₚ entries_of (input_tables task).
Hypothesis Hnew : Forall table_ok new.
Hypothesis Hkind : stream = CompactionStream mo (is_last_level task) merged \/ stream = merged.
Hypothesis Hss : ssorted stream.
Hypothesis Hent : entries_of new = stream.
Hypothesis Hrun : disjoint_run new.
Hypothesis Hwithin : Forall (within (input_tables task)) new.
Hypothesis Hids : NoDup (table_id <$> new).
Hypothesis Hfresh : forall n, n ∈ new ->
  table_id n ∈ input_ids task \/ forall u, u ∈ concat (levels v) -> table_id u <> table_id n.

Let Hsv : sv_ok mo (t_current t) := hi_sv _ _ _ Hh.

Lemma install_inputs e : e ∈ merged -> e ∈ table_contents v.
Proof.
  pose proof (version_shape_of _ _ _ Hh) as Hsh. rewrite Hpm, table_contents_perm, !elem_of_entries_of by done.
  intros (u & Hu & He). exists u. split; [|done]. by eapply task_inputs_in.
Qed.

Lemma install_bound e : e ∈ merged -> seqno e <= SeqNo_MAX.
Proof.
  intros He%install_inputs. destruct (contents_origin t hist g Hh e) as (h & Hhh & _ & <-).
  { rewrite contents_split, elem_of_app. by right. }
  by apply (hist_max t hist g Hh).
Qed.

Lemma install_origin e : e ∈ stream -> exists m, m ∈ merged /\ key m = key e /\ seqno m = seqno e /\ (owned mo (key e) = false -> m = e).
Proof.
  destruct Hkind as [E|E]; rewrite E; intros He; [|by exists e].
  destruct (owned mo (key e)) eqn:Ho.
  - destruct (CompactionStream_seqno _ _ _ _ Hsm He) as (m & ? & ? & ?). exists m. done.
  - destruct (CompactionStream_plain _ _ _ _ Hsm Ho He) as [? _]. by exists e.
Qed.

Lemma install_facts Ms : stacked mo (Ms ++ table_layers v) -> Forall (entry_valid mo) (concat Ms) ->
  Version_ok v' /\ fst (with_compaction_applied (t_stats t) v (input_ids task) new (target_level task)) = t_stats t /\
  stacked mo (Ms ++ table_layers v') /\
  forall k, final mo k (concat (Ms ++ table_layers v')) = final mo k (concat (Ms ++ table_layers v)).
Proof.
  intros Hst HMs. pose proof (so_version _ _ Hsv) as Hv.
  assert (Forall (entry_valid mo) (concat (Ms ++ table_layers v))) as Hval.
  { rewrite concat_app, concat_table_layers. apply Forall_app. split; [done|]. apply (tables_valid t hist g Hh). }
  destruct (applied_facts v task new (t_stats t) Hv Htask Hnew Hrun Hwithin Hids Hfresh) as (Hv' & Hs' & _).
  destruct (install_ok mo Ms v task new merged stream (t_stats t) SeqNo_MAX) as [Hst' Hview]; eauto using install_bound.
  apply (hi_laws _ _ _ Hh).
Qed.

Lemma install_contents e : e ∈ table_contents v' -> e ∈ table_contents v \/ e ∈ stream.
Proof.
  pose proof (version_shape_of _ _ _ Hh) as Hsh. pose proof (so_version _ _ Hsv) as Hv.
  destruct (install_facts []) as ([Hsh' _] & _). { apply (cv_stack _ _ _ _ (hi_covers _ _ _ Hh)). } { constructor. }
  rewrite !table_contents_perm by done. unfold v'.
  pose proof (applied_tables (t_stats t) v (input_ids task) new (target_level task) Hsh (proj2 (tk_levels v task (task_of_ok v task Hsh Htask)))) as Ha.
  rewrite (entries_of_perm _ _ Ha).
  rewrite entries_of_app, Hent, elem_of_app, !elem_of_entries_of. intros [(u & [Hu _]%elem_of_retain & He)|He]; [left; eauto|by right].
Qed.

Lemma install_hist : hist_inv (compaction_install (input_ids task) new (target_level task) t) hist g.
Proof.
  pose proof Hh as [H1 H1c H2 H3 H4 H5 H6 H7 H8].
  destruct (install_facts (Memtable_iter <$> memtables (t_current t)) (so_stacked _ _ H7) (mem_valid t hist g Hh)) as (Hv' & _ & Hst' & _).
  destruct (install_facts [] (cv_stack _ _ _ _ H8) (Forall_nil_2 _)) as (_ & _ & Hst & Hfin). cbn [app] in Hst, Hfin.
  assert (compaction_install (input_ids task) new (target_level task) t =
    set_version v' (set_stats (fst (with_compaction_applied (t_stats t) v (input_ids task) new (target_level task)))
      (t_trivial_move_count t) (t_major_compact_success_count t) t)) as ->.
  { unfold compaction_install, v'. fold v. by destruct (with_compaction_applied _ _ _ _ _). }
  split; try done.
  - split; [apply (so_mem _ _ H7)|done|done].
  - destruct H8 as [_ Hc2 Hc3 Hc4 Hc5 Hc6]. split; [done|done|..].
    + intros e He Ho. apply install_contents in He as [He|He]; [by apply Hc3|].
      destruct (install_origin e He) as (m & Hm & _ & _ & Hmo). rewrite <- (Hmo Ho). apply Hc3; [by apply install_inputs|by rewrite (Hmo Ho)].
    + intros e He Ho. apply install_contents in He as [He|He]; [by apply Hc4|].
      destruct (install_origin e He) as (m & Hm & Hk & Hq & _). destruct (Hc4 m) as (f & Hf & Hfk & Hfq); [by apply install_inputs|cbn in Ho |- *; congruence|].
      exists f. split; [done|]. split; congruence.
    + intros k Hk. change (final mo k (table_contents v') = final mo k (g_flushed g)).
      specialize (Hc5 k Hk). fold mo v in Hc5. rewrite <- Hc5, <- (concat_table_layers v'), Hfin, concat_table_layers. done.
    + intros e [He|He]; [apply Hc6; by left|]. apply install_contents in He as [He|He]; [apply Hc6; by right|].
      assert (Forall (entry_valid mo) merged) as Hvm by (apply Forall_forall; intros x Hx; apply Hc6; right; by apply install_inputs).
      destruct Hkind as [E|E]; rewrite E in He; [|by rewrite Forall_forall in Hvm; auto].
      pose proof (CompactionStream_valid mo (is_last_level task) merged H4 Hsm Hvm) as Hvs. rewrite Forall_forall in Hvs. auto.
Qed.

End compact_install.

(** The disk after the installation of [new]: the tables of the new version were
    in use before. *)
Lemma install_disk t fl cp v' old :
  disk_inv t fl cp -> Version_shape v' ->
  (forall h, h ∈ concat (levels v') -> h ∈ concat (levels (sv_version (t_current t))) \/ h ∈ compact_tables cp) ->
  (forall id, id ∈ old -> (exists h, h ∈ concat (levels (sv_version (t_current t))) /\ table_id h = id) /\
     forall h, h ∈ concat (levels v') -> table_id h <> id) ->
  disk_inv (set_version v' t) fl (Some (Installed old)).
Proof.
  intros [Hd1 Hd2 Hd3 Hd4] Hsh Hin Hold. rewrite Forall_forall in Hd2.
  assert (forall h, h ∈ concat (levels v') -> h ∈ concat (levels (sv_version (t_current t))) ++ compact_tables cp) as Hin'.
  { intros h Hh. rewrite elem_of_app. auto. }
  assert (forall a b, a ∈ concat (levels v') -> b ∈ flush_tables fl -> table_id a <> table_id b) as Hdis.
  { intros a b Ha%Hin' Hb E. rewrite app_assoc, (Permutation_app_comm (concat _)), <- app_assoc, fmap_app, NoDup_app in Hd3.
    destruct Hd3 as (_ & Hx & _). apply (Hx (table_id b)); [by apply list_elem_of_fmap_2|]. rewrite <- E. by apply list_elem_of_fmap_2. }
  split; cbn [t_current set_version set_current sv_version t_disk t_dir compact_tables old_tables]; [done| | |]; rewrite ?app_nil_r.
  - apply Forall_forall. intros h [Hh|Hh]%elem_of_app; apply Hd2; rewrite !elem_of_app; [|tauto]. apply Hin in Hh. tauto.
  - rewrite fmap_app, NoDup_app. split; [apply (vs_ids v' Hsh)|]. split.
    + intros x (a & -> & Ha)%list_elem_of_fmap (b & E & Hb)%list_elem_of_fmap. by apply (Hdis a b).
    + rewrite !fmap_app, !NoDup_app in Hd3. tauto.
  - intros id Hid. destruct (Hold id Hid) as [(h0 & Hh0 & <-) Hx]. split.
    + apply (iu_id _ _ _ (Hd2 h0 ltac:(rewrite !elem_of_app; tauto))).
    + intros h [Hh|Hh]%elem_of_app; [by apply Hx|]. intros E. rewrite fmap_app, NoDup_app in Hd3. destruct Hd3 as (_ & Hy & _).
      apply (Hy (table_id h0)); [by apply list_elem_of_fmap_2|]. rewrite <- E. apply list_elem_of_fmap_2. rewrite elem_of_app. by left.
Qed.

Lemma compaction_install_eq ids new tgt t :
  compaction_install ids new tgt t =
  set_version (snd (with_compaction_applied (t_stats t) (sv_version (t_current t)) ids new tgt))
    (set_stats (fst (with_compaction_applied (t_stats t) (sv_version (t_current t)) ids new tgt))
       (t_trivial_move_count t) (t_major_compact_success_count t) t).
Proof. unfold compaction_install. by destruct (with_compaction_applied _ _ _ _ _). Qed.

(** Both installations: of the outputs of a compaction, and of a moved table. *)
Lemma install_inv ks hist g task new merged stream old :
  let t := ks_tree ks in let v := sv_version (t_current t) in
  ks_inv ks hist g -> task_of v task -> sorted merged -> merged ≡ₚ entries_of (input_tables task) -> Forall table_ok new ->
  (stream = CompactionStream (t_merge_operator t) (is_last_level task) merged \/ stream = merged) -> ssorted stream ->
  entries_of new = stream -> disjoint_run new -> Forall (within (input_tables task)) new -> NoDup (table_id <$> new) ->
  (forall n, n ∈ new -> table_id n ∈ input_ids task \/ forall u, u ∈ concat (levels v) -> table_id u <> table_id n) ->
  (forall n, n ∈ new -> n ∈ concat (levels v) \/ n ∈ compact_tables (ks_compact ks)) ->
  (forall id, id ∈ old -> id ∈ input_ids task /\ forall n, n ∈ new -> table_id n <> id) ->
  ks_inv (mkKeyspace (compaction_install (input_ids task) new (target_level task) t) (ks_flush ks) (Some (Installed old))
    (ks_wal ks) (ks_recovering ks)) hist g.
Proof.
  cbv zeta. set (t := ks_tree ks). set (v := sv_version (t_current t)).
  intros Hk Ht Hsm Hpm Hnew Hkind Hss Hent Hrun Hwi Hids Hfresh Hin Hold. pose proof Hk as [Hh Hd Hl Hm Hf Hc]. fold t in Hh, Hd, Hl, Hm, Hf, Hc.
  pose proof (install_hist t hist g task new merged stream Hh Ht Hsm Hpm Hnew Hkind Hss Hent Hrun Hwi Hids Hfresh) as Hh'.
  pose proof (version_shape_of _ _ _ Hh) as Hsh. pose proof (task_of_ok v task Hsh Ht) as Hok.
  pose proof (applied_tables (t_stats t) v (input_ids task) new (target_level task) Hsh (proj2 (tk_levels v task Hok))) as Ha.
  rewrite compaction_install_eq in *. fold v in Hh' |- *. set (v' := snd (with_compaction_applied _ _ _ _ _)) in *.
  assert (disk_inv (set_version v' t) (ks_flush ks) (Some (Installed old))) as Hd'.
  { eapply install_disk; [exact Hd|apply (version_shape_of _ _ _ Hh')| |].
    - intros h. rewrite Ha, elem_of_app. intros [[Hx _]%elem_of_retain|Hx]; [by left|auto].
    - intros id Hid. destruct (Hold id Hid) as [Hi Hn]. split.
      + rewrite (tk_ids v task Hok) in Hi. apply list_elem_of_In, in_map_iff in Hi as (h & <- & Hx). apply list_elem_of_In in Hx.
        exists h. split; [by eapply task_inputs_in|done].
      + intros h. rewrite Ha, elem_of_app. intros [[_ Hx]%elem_of_retain|Hx]; [|by apply Hn]. congruence. }
  split; cbn [ks_tree ks_flush ks_compact ks_wal ks_recovering]; [done| | | |done|done].
  - destruct Hd' as [? ? ? ?]. by split.
  - destruct Hl as [? ? ? ? ? ? ? ? ?]. by split.
  - destruct Hm as [? ? ?]. by split.
Qed.

Lemma stream_ssorted t hist g mo task merged :
  hist_inv t hist g -> task_of (sv_version (t_current t)) task -> sorted merged -> merged ≡ₚ entries_of (input_tables task) ->
  ssorted (CompactionStream mo (is_last_level task) merged).
Proof.
  intros Hh Ht Hs Hp. assert (uniq merged) as Hu.
  { pose proof (contents_uniq _ _ (hi_sv _ _ _ Hh)) as Hu. rewrite contents_split in Hu. apply uniq_app_r in Hu.
    intros a b Ha Hb. apply Hu; by eapply install_inputs. }
  apply sorted_uniq_ssorted; [by apply CompactionStream_sorted|by apply CompactionStream_NoDup|].
  intros a b. by apply CompactionStream_uniq.
Qed.

Lemma compact_install_inv ks hist g task r :
  ks_inv ks hist g -> ks_compact ks = Some (Running task r) ->
  ks_inv (mkKeyspace (compaction_install (cr_old_ids r) (cr_new_tables r) (cr_target_level r) (ks_tree ks))
    (ks_flush ks) (Some (Installed (cr_old_ids r))) (ks_wal ks) (ks_recovering ks)) hist g.
Proof.
  intros Hk Ec. pose proof Hk as [Hh Hd Hl Hm Hf Hc]. rewrite Ec in Hc, Hd. destruct Hc as (Ht & Eo & Et & Hw & Hr & merged & Hsm & Hpm & Hent).
  destruct Hd as [_ Hd2 Hd3 _]. cbn [compact_tables] in *. rewrite app_assoc, Forall_app in Hd2. destruct Hd2 as [_ Hd2].
  assert (forall n u, n ∈ cr_new_tables r -> u ∈ concat (levels (ks_version ks)) -> table_id u <> table_id n) as Hdis.
  { intros n u Hn Hu E. rewrite fmap_app, NoDup_app in Hd3. destruct Hd3 as (_ & Hx & _).
    apply (Hx (table_id u)); [by apply list_elem_of_fmap_2|]. rewrite E. apply list_elem_of_fmap_2. rewrite elem_of_app. by right. }
  rewrite Eo, Et.
  eapply (install_inv ks hist g task _ merged (CompactionStream (t_merge_operator (ks_tree ks)) (is_last_level task) merged)); eauto.
  - eapply Forall_impl; [exact Hd2|]. by intros h [].
  - by eapply stream_ssorted.
  - rewrite app_assoc, fmap_app, NoDup_app in Hd3. tauto.
  - rewrite Ec. by right.
  - intros id Hid. split; [done|]. intros n Hn E. pose proof (version_shape_of _ _ _ Hh) as Hsh.
    rewrite (tk_ids _ _ (task_of_ok _ _ Hsh Ht)) in Hid. apply list_elem_of_In, in_map_iff in Hid as (h & <- & Hx). apply list_elem_of_In in Hx.
    apply (Hdis n h Hn); [by eapply task_inputs_in|done].
Qed.

Lemma move_install_inv ks hist g task :
  ks_inv ks hist g -> ks_compact ks = Some (Moving task) ->
  ks_inv (mkKeyspace (compaction_install (input_ids task) (take 1 (input_tables task)) (target_level task) (ks_tree ks))
    (ks_flush ks) (Some (Installed [])) (ks_wal ks) (ks_recovering ks)) hist g.
Proof.
  intros Hk Ec. pose proof Hk as [Hh Hd Hl Hm Hf Hc]. rewrite Ec in Hc. destruct Hc as (Ht & h & Eh).
  pose proof (version_shape_of _ _ _ Hh) as Hsh. pose proof (task_of_ok _ _ Hsh Ht) as Hok.
  assert (h ∈ concat (levels (ks_version ks))) as Hin by (eapply task_inputs_in; eauto; rewrite Eh; by left).
  pose proof (vo_tables _ (so_version _ _ (hi_sv _ _ _ Hh))) as Hts. rewrite Forall_forall in Hts. specialize (Hts h Hin).
  assert (take 1 (input_tables task) = [h]) as -> by (by rewrite Eh).
  assert (entries_of [h] = table_entries h) as Ee by (unfold entries_of; cbn; by rewrite app_nil_r).
  assert (exists l, l ∈ table_layers (ks_version ks) /\ table_entries h `sublist_of` l) as (l & Hl' & Hsub).
  { destruct (tk_inputs _ _ Hok h ltac:(rewrite Eh; by left)) as [Hx|Hx].
    - destruct (source_level task) as [|s] eqn:Es.
      + exists (table_entries h). split; [|done]. unfold table_layers. apply elem_of_app. left. apply list_elem_of_fmap_2.
        by apply elem_of_reverse.
      + exists (entries_of (level (ks_version ks) (S s))). split; [|by apply table_in_run]. unfold table_layers. apply elem_of_app. right.
        apply list_elem_of_fmap. exists (S s). split; [done|]. apply elem_of_seq. destruct (tk_levels _ _ Hok). unfold MAX_LEVELS in *. lia.
    - exists (entries_of (level (ks_version ks) (target_level task))). split; [|by apply table_in_run]. unfold table_layers. apply elem_of_app.
      right. apply list_elem_of_fmap. eexists. split; [done|]. apply elem_of_seq. destruct (tk_levels _ _ Hok). unfold MAX_LEVELS in *. lia. }
  assert (ssorted (table_entries h)) as Hss.
  { eapply ssorted_sublist; [exact Hsub|]. pose proof (st_sorted _ _ (cv_stack _ _ _ _ (hi_covers _ _ _ Hh))) as Hs.
    rewrite Forall_forall in Hs. by apply Hs. }
  eapply (install_inv ks hist g task [h] (table_entries h) (table_entries h)); eauto.
  - apply (tk_sorted h Hts).
  - by rewrite Eh, Ee.
  - repeat constructor.
  - constructor; [|constructor]. split; exists h; rewrite Eh; (split; [by left|border]).
  - cbn. apply NoDup_singleton.
  - intros n ->%list_elem_of_singleton. left. rewrite (tk_ids _ _ Hok), Eh. by left.
  - intros n ->%list_elem_of_singleton. by left.
  - by intros id ?%elem_of_nil.
Qed.

(** ** The other steps *)

Lemma persist_marks t rec fl hist g d :
  hist_inv t hist g -> g_persisted g `prefix_of` g_flushed g -> marks_inv t rec fl hist g ->
  d = t_manifest_durable_seqno t \/ d = Z.max (t_manifest_durable_seqno t) (t_flushed_seqno t) ->
  marks_inv (set_seqnos (t_seqno t) (t_flushed_seqno t) d (persist_manifest t)) rec fl hist (persist_ghost t g).
Proof.
  intros Hh Hp [[Hm1 Hm1'] Hm2 Hm3] Hd. destruct (unflushed _ _ _ Hh Hp) as [Hun1 Hun2].
  split; cbn [t_flushed_seqno t_manifest_durable_seqno t_seqno set_seqnos g_parts g_persisted persist_ghost].
  - destruct Hd as [->| ->]; lia.
  - intros Hr. destruct (Hm2 Hr) as [Ha Hb]. split; [done|]. rewrite Hun1. intros e He.
    specialize (Ha e He). specialize (Hb e (Hun2 e He)). destruct Hd as [->| ->]; lia.
  - intros Hr. destruct (Hm3 Hr) as [? _]. split; [done|]. by destruct fl as [[]|].
Qed.

Lemma compact_persist_inv ks hist g old :
  ks_inv ks hist g -> ks_compact ks = Some (Installed old) -> version_fits (ks_version ks) ->
  exists g', ks_inv (mkKeyspace (persist_manifest (ks_tree ks)) (ks_flush ks) (Some (Persisted old)) (ks_wal ks) (ks_recovering ks)) hist g'.
Proof.
  intros [Hh Hd Hl Hm Hf Hc] Ec Hfit. rewrite Ec in *. exists (persist_ghost (ks_tree ks) g).
  split; cbn [ks_tree ks_flush ks_compact ks_wal ks_recovering].
  - by apply persist_hist.
  - destruct Hd as [? ? ? ?]. by split.
  - by eapply persist_log.
  - pose proof (persist_marks _ _ _ _ _ _ Hh (li_prefix _ _ _ _ _ Hl) Hm (or_introl eq_refl)) as [? ? ?]. by split.
  - done.
  - intros h Hh' Hid. destruct (di_old _ _ _ Hd (table_id h) Hid) as [_ Hx]. apply (Hx h); [|done]. rewrite elem_of_app. by left.
Qed.

Lemma checkpoint_inv ks hist g :
  ks_inv ks hist g -> version_fits (ks_version ks) ->
  exists g', ks_inv (on_tree (fun t => let t := persist_manifest t in
    set_seqnos (t_seqno t) (t_flushed_seqno t) (Z.max (t_manifest_durable_seqno t) (t_flushed_seqno t)) t) ks) hist g'.
Proof.
  intros [Hh Hd Hl Hm Hf Hc] Hfit. exists (persist_ghost (ks_tree ks) g).
  pose proof (persist_hist _ _ _ Hh) as Hh'. pose proof (persist_log _ _ _ (ks_compact ks) _ _ _ Hh Hd Hl Hfit) as Hl'.
  split; cbn [on_tree ks_tree ks_flush ks_compact ks_wal ks_recovering].
  - destruct Hh' as [? ? ? ? ? ? ? ? ?]. by split.
  - destruct Hd as [? ? ? ?]. by split.
  - destruct Hl' as [? ? ? ? ? ? ? ? ?]. by split.
  - pose proof (persist_marks _ _ _ _ _ _ Hh (li_prefix _ _ _ _ _ Hl) Hm (or_intror eq_refl)) as [? ? ?]. by split.
  - unfold flush_inv in *. by destruct (ks_flush ks) as [[]|].
  - exact (persist_compact _ _ _ _ Hd Hc).
Qed.

(** Deleting the files of other ids. *)
Lemma delete_files_other dir ids files h :
  on_file dir files h -> is_uint 64 (table_id h) -> (forall id, id ∈ ids -> is_uint 64 id) -> table_id h ∉ ids ->
  on_file dir (foldr (fun id fs => delete (sst_path dir id) fs) files ids) h.
Proof.
  intros [Hp Hf] Hid Hids Hno. split; [done|]. induction ids as [|id ids IH]; [done|]. cbn [foldr].
  rewrite lookup_delete_ne; [apply IH; [intros; apply Hids; by right|intros ?; apply Hno; by right]|].
  rewrite Hp. intros E%sst_path_inj; [|apply Hids; by left|done]. apply Hno. rewrite E. by left.
Qed.

Lemma compact_delete_inv ks hist g old :
  ks_inv ks hist g -> ks_compact ks = Some (Persisted old) ->
  ks_inv (mkKeyspace (delete_compacted_inputs old (ks_tree ks)) (ks_flush ks) None (ks_wal ks) (ks_recovering ks)) hist g.
Proof.
  intros [Hh Hd Hl Hm Hf Hc] Ec. rewrite Ec in *. set (t := ks_tree ks) in *. cbn [compact_inv] in Hc.
  destruct Hd as [[[Hn0 Hn] Hpos] Hd2 Hd3 Hd4]. cbn [old_tables compact_tables] in *.
  assert (forall id, id ∈ old -> is_uint 64 id) as Hu by (intros id Hid; destruct (Hd4 id Hid); unfold is_uint; lia).
  split; cbn [ks_tree ks_flush ks_compact ks_wal ks_recovering]; [| | | |done|done].
  - destruct Hh as [? ? ? ? ? ? ? ? ?]. by split.
  - split; cbn [compact_tables old_tables t_current t_disk t_dir delete_compacted_inputs set_disk dk_next_table_id]; [done| |done|by intros ? ?%elem_of_nil].
    rewrite app_nil_r in *. rewrite Forall_forall in *. intros h Hh'. destruct (Hd2 h Hh') as [Ha Hb Hx]. split; [done|done|].
    apply delete_files_other; [done|unfold is_uint; lia|done|]. intros Hid. destruct (Hd4 _ Hid) as [_ Hy]. by apply (Hy h Hh').
  - assert (log_inv t None (ks_wal ks) hist g) as Hl' by (destruct Hl as [? ? ? ? ? ? ? ? ?]; by split).
    eapply log_inv_disk; [exact Hl'|done..|]. intros h Hh' Hon. cbn [t_disk delete_compacted_inputs set_disk dk_files].
    destruct (li_next_id _ _ _ _ _ Hl) as (? & _ & Hx). specialize (Hx h Hh').
    apply delete_files_other; [done|unfold is_uint; lia|done|by apply Hc].
  - destruct Hm as [? ? ?]. by split.
Qed.

Lemma enable_inv ks hist g b :
  ks_inv ks hist g -> ks_recovering ks = false -> ks_inv (on_tree (set_compaction_enabled b) ks) hist g.
Proof.
  intros [Hh Hd Hl Hm Hf Hc] Hr. split; cbn [on_tree ks_tree ks_flush ks_compact ks_wal ks_recovering]; [| | | |done|done].
  - destruct Hh as [? ? ? ? ? ? ? ? ?]. by split.
  - destruct Hd as [? ? ? ?]. by split.
  - destruct Hl as [? ? ? ? ? ? ? ? ?]. by split.
  - destruct Hm as [? ? ?]. split; [done|done|]. congruence.
Qed.

Lemma metrics_inv ks hist g stats moves majors :
  ks_inv ks hist g -> ks_inv (on_tree (set_stats stats moves majors) ks) hist g.
Proof.
  intros [Hh Hd Hl Hm Hf Hc]. split; cbn [on_tree ks_tree ks_flush ks_compact ks_wal ks_recovering]; [| | | |done|done].
  - destruct Hh as [? ? ? ? ? ? ? ? ?]. by split.
  - destruct Hd as [? ? ? ?]. by split.
  - destruct Hl as [? ? ? ? ? ? ? ? ?]. by split.
  - destruct Hm as [? ? ?]. by split.
Qed.

Lemma sweep_inv ks hist g :
  ks_inv ks hist g -> ks_compact ks = None -> ks_inv (on_tree cleanup_orphan_ssts ks) hist g.
Proof.
  intros [Hh Hd Hl Hm Hf Hc] Ec. rewrite Ec in *. set (t := ks_tree ks) in *.
  destruct Hd as [[[Hn0 Hn] Hpos] Hd2 Hd3 Hd4]. cbn [compact_tables] in *. rewrite app_nil_r in *.
  assert (forall h, h ∈ concat (levels (sv_version (t_current t))) ++ flush_tables (ks_flush ks) ->
    h ∈ concat (levels (sv_version (t_current t))) \/ table_id h ∈ t_flushing_ids t) as Hkeep.
  { intros h [?|Hx]%elem_of_app; [by left|right]. destruct (ks_flush ks) as [[j|j]|]; cbn [flush_tables] in Hx;
      [|by apply elem_of_nil in Hx..]. destruct Hf as [_ Hf]. by apply Hf. }
  split; cbn [on_tree ks_tree ks_flush ks_compact ks_wal ks_recovering]; rewrite ?Ec; [| | | |done|done].
  - destruct Hh as [? ? ? ? ? ? ? ? ?]. by split.
  - split; cbn [compact_tables old_tables]; rewrite ?app_nil_r; [done| |done|by intros ? ?%elem_of_nil].
    rewrite Forall_forall in *. intros h Hh'. destruct (Hd2 h Hh') as [Ha Hb Hx]. split; [done|done|].
    apply (sweep_spares t h); [unfold is_uint; lia|done|by apply Hkeep].
  - eapply log_inv_disk; [exact Hl|done..|]. intros h Hh' Hon.
    destruct (li_next_id _ _ _ _ _ Hl) as (? & _ & Hx). specialize (Hx h Hh').
    apply (sweep_spares t h); [unfold is_uint; lia|done|left]. by apply (li_subset _ _ _ _ _ Hl).
  - destruct Hm as [? ? ?]. by split.
Qed.

Definition with_pruned (g : Ghost) (pruned : list Entry) : Ghost :=
  mkGhost (g_flushed g) (g_persisted g) pruned (g_parts g) (g_version g) (g_next_id g) (g_next_seqno g).

Lemma prefix_below (hist a b : list Entry) (m : Z) :
  a `prefix_of` hist -> b `prefix_of` hist -> Forall (fun e => seqno e <= m) a ->
  (forall e, e ∈ drop (length b) hist -> m < seqno e) -> a `prefix_of` b.
Proof.
  intros Ha Hb Hf Hd. destruct (prefix_weak_total a b hist Ha Hb) as [?|[c ->]]; [done|].
  destruct c as [|e c]; [by rewrite app_nil_r|]. exfalso. destruct Ha as [r ->]. rewrite <- app_assoc, drop_prefix in Hd.
  rewrite Forall_app, Forall_cons in Hf. destruct Hf as (_ & He & _). specialize (Hd e ltac:(rewrite elem_of_app; left; by left)). lia.
Qed.

Lemma prune_inv ks hist g dropped kept :
  ks_inv ks hist g -> ks_recovering ks = false -> ks_wal ks = dropped ++ kept ->
  Forall (fun e => seqno e <= prune_watermark (ks_tree ks)) dropped -> cut dropped kept ->
  exists g', ks_inv (mkKeyspace (ks_tree ks) (ks_flush ks) (ks_compact ks) kept false) hist g'.
Proof.
  intros [Hh Hd Hl Hm Hf Hc] Hr Ew Hw Hcut. set (t := ks_tree ks) in *. exists (with_pruned g (g_pruned g ++ dropped)).
  pose proof (li_wal _ _ _ _ _ Hl) as Eh. rewrite Ew, app_assoc in Eh.
  destruct (mi_running _ _ _ _ _ Hm Hr) as [_ Hb].
  assert (g_pruned g ++ dropped `prefix_of` g_persisted g) as Hpre.
  { destruct (li_pruned _ _ _ _ _ Hl) as [x Ex].
    assert (dropped `prefix_of` x) as [y ->]; [|exists y; by rewrite Ex, app_assoc].
    pose proof (cv_prefix _ _ _ _ (li_covers _ _ _ _ _ Hl)) as [z Ez].
    assert (drop (length (g_pruned g)) hist = dropped ++ kept) as E1 by (rewrite Eh, <- app_assoc; apply drop_prefix).
    assert (drop (length (g_pruned g)) hist = x ++ z) as E2 by (rewrite Ez, Ex, <- app_assoc; apply drop_prefix).
    apply (prefix_below (dropped ++ kept) dropped x (t_manifest_durable_seqno t)); [by eexists|rewrite <- E1, E2; by eexists| |].
    - rewrite Forall_forall in *. intros e He. specialize (Hw e He). unfold prune_watermark in Hw. fold t in Hw.
      destruct (Z.leb_spec (t_seqno t) (t_manifest_durable_seqno t)); [|done].
      etransitivity; [|done]. apply (hi_entries _ _ _ Hh). rewrite Eh, !elem_of_app. tauto.
    - rewrite <- E1, E2. intros e He. apply Hb. by rewrite Ez, drop_prefix, <- (drop_prefix x z). }
  split; cbn [ks_tree ks_flush ks_compact ks_wal ks_recovering].
  - destruct Hh as [? ? ? ? ? ? ? ? ?]. by split.
  - done.
  - destruct Hl as [? ? ? ? Hlc ? ? ? ?]. split; try done. cbn [g_pruned with_pruned]. rewrite Ew in Hlc.
    intros x y [Hx|Hx]%elem_of_app Hy; [|by apply Hcut]. apply Hlc; [done|]. rewrite elem_of_app. by right.
  - destruct Hm as [? ? ?]. rewrite Hr in *. by split.
  - done.
  - done.
Qed.

(** ** Crashes *)

(** Replaying a log into a tree whose memtables are empty. *)
Lemma replay_fields wal t p m0 :
  t_current t = mkSuperVersion SM m0 [] (sv_version (t_current t)) -> holds m0 p -> mem_ok m0 ->
  (forall e, e ∈ wal -> entry_ok e) -> StronglySorted before (p ++ wal) -> is_uint 64 (t_seqno t) ->
  let t' := fold_left (fun t e => write_entry e t) wal t in
  (exists m, t_current t' = mkSuperVersion SM m [] (sv_version (t_current t)) /\ holds m (p ++ wal) /\ mem_ok m) /\
  t_seqno t <= t_seqno t' /\ (forall e, e ∈ wal -> seqno e <= t_seqno t') /\ is_uint 64 (t_seqno t') /\
  t_disk t' = t_disk t /\ t_manifest t' = t_manifest t /\ t_dir t' = t_dir t /\ t_merge_operator t' = t_merge_operator t /\
  t_flushed_seqno t' = t_flushed_seqno t /\ t_manifest_durable_seqno t' = t_manifest_durable_seqno t /\
  t_compaction_enabled t' = t_compaction_enabled t.
Proof.
  revert t p m0; induction wal as [|e wal IH]; intros t p m0 Ec Hp Hm He Ho Hs.
  { rewrite app_nil_r. cbv zeta. cbn [fold_left]. split; [eauto|]. split; [lia|]. split; [by intros e ?%elem_of_nil|]. done. }
  destruct (write_entry_fields e t) as (Fc & Fs & F1 & F2 & F3 & F4 & F5 & F6 & F7 & _). cbn [fold_left].
  pose proof (He e ltac:(by left)) as Hok. pose proof Hok as [_ [??]]. destruct Hs as [??].
  assert (p ++ e :: wal = (p ++ [e]) ++ wal) as E by (by rewrite <- app_assoc).
  rewrite Ec in Fc. cbn [sv_active sv_sealed sv_version] in Fc.
  destruct (IH (write_entry e t) (p ++ [e]) (fst (Memtable_insert m0 (key e) (value e) (seqno e) (value_type e)))) as
    (Hx & K1 & K2 & K3 & G1 & G2 & G3 & G4 & G5 & G6 & G7).
  - by rewrite Fc.
  - apply holds_write; [done|]. intros x Hx. exact (order_app _ _ Ho x e Hx ltac:(by left)).
  - by apply mem_ok_insert.
  - intros x Hx. apply He. by right.
  - by rewrite <- E.
  - rewrite Fs. unfold is_uint. lia.
  - rewrite Fc in Hx. cbn [sv_version] in Hx. rewrite E. cbv zeta.
    split; [done|]. split; [lia|]. split; [intros x [->|Hx']%elem_of_cons; [lia|auto]|]. split; [done|].
    rewrite G1, G2, G3, G4, G5, G6, G7. done.
Qed.

Definition crash_ghost (g : Ghost) (wal : list Entry) : Ghost :=
  mkGhost (g_pruned g) (g_pruned g) (g_pruned g) [wal] (g_version g) (g_next_id g) (g_next_seqno g).

Section crash.
Context (ks : Keyspace) (hist : list Entry) (g : Ghost).
Let t := ks_tree ks.
Let wal := ks_wal ks.
Let mo := t_merge_operator t.
Hypothesis Hk : ks_inv ks hist g.
Hypothesis Howned : forall e, e ∈ wal -> owned mo (key e) = true -> e ∈ mem_contents (t_current t).

Lemma crash_split : exists x y, g_persisted g = g_pruned g ++ x /\ wal = x ++ y /\ hist = g_pruned g ++ x ++ y.
Proof.
  destruct Hk as [_ _ Hl _ _ _]. destruct (li_pruned _ _ _ _ _ Hl) as [x Ex]. destruct (cv_prefix _ _ _ _ (li_covers _ _ _ _ _ Hl)) as [y Ey].
  exists x, y. rewrite Ex, <- app_assoc in Ey. split; [done|]. split; [|done].
  pose proof (li_wal _ _ _ _ _ Hl) as Ew. rewrite Ey in Ew. by apply app_inv_head in Ew.
Qed.

(** A merge-owned write that is in the log is in no persisted table. *)
Lemma crash_owned f : f ∈ g_persisted g -> owned mo (key f) = true -> f ∈ g_pruned g.
Proof.
  destruct Hk as [Hh _ Hl _ _ _]. destruct crash_split as (x & y & Ex & Ew & Eh). intros Hf Ho.
  pose proof Hf as Hf'. rewrite Ex in Hf'. apply elem_of_app in Hf' as [?|Hx]; [done|]. exfalso.
  assert (f ∈ wal) as Hw by (rewrite Ew, elem_of_app; by left). specialize (Howned f Hw Ho).
  pose proof (parts_perm _ _ _ Hh) as Hp. fold t in Hp. rewrite Hp in Howned. destruct (li_prefix _ _ _ _ _ Hl) as [z Ez].
  pose proof (hi_order _ _ _ Hh) as Hord. rewrite (hi_hist _ _ _ Hh) in Hord.
  destruct (order_app _ _ Hord f f ltac:(rewrite Ez, elem_of_app; by left) Howned) as [_ H]. specialize (H eq_refl). lia.
Qed.

Lemma crash_covers : covers mo hist (g_pruned g) (g_version g).
Proof.
  pose proof Hk as [Hh _ Hl _ _ _]. destruct crash_split as (x & y & Ex & Ew & Eh).
  destruct (li_covers _ _ _ _ _ Hl) as [H1 H2 H3 H4 H5 H6]. split; [done|by rewrite Eh; eexists|done| | |done].
  - intros e He Ho. destruct (H4 e He Ho) as (f & Hf & Hfk & Hfq). exists f. split; [|done]. apply crash_owned; [done|].
    fold mo t in Ho. by rewrite Hfk.
  - intros k Hkk. assert (~ has_key k x) as Hx.
    { intros (e & He & Hke). rewrite Eh, drop_prefix in Hkk. destruct Hkk as [Ho|Hno]; [|apply Hno; exists e; rewrite elem_of_app; auto].
      assert (e ∈ g_persisted g) as Hp by (rewrite Ex, elem_of_app; by right).
      pose proof (crash_owned e Hp ltac:(by rewrite Hke)) as Hpr. pose proof (hi_order _ _ _ Hh) as Hord. rewrite Eh in Hord.
      destruct (order_app _ _ Hord e e Hpr ltac:(rewrite elem_of_app; by left)) as [_ H]. specialize (H eq_refl). lia. }
    etransitivity; [apply H5|].
    + destruct Hkk as [?|Hno]; [by left|right]. intros (e & He & Hke). apply Hno. exists e. split; [|done].
      rewrite Eh, Ex, app_assoc in *. rewrite drop_prefix in He. rewrite <- app_assoc, drop_prefix, elem_of_app. by right.
    + pose proof (hi_order _ _ _ Hh) as Hord. rewrite Eh, app_assoc in Hord. apply StronglySorted_app_1_l in Hord.
      assert (uniq (g_pruned g)) as Hu.
      { apply StronglySorted_app_1_l in Hord. by apply order_uniq. }
      unfold final. rewrite Ex, <- (view_no_key mo SeqNo_MAX k x (g_pruned g) Hu Hx). apply view_perm; [|apply Permutation_app_comm].
      rewrite Permutation_app_comm. by apply order_uniq.
Qed.

Lemma crash_above m : holds m wal -> above mo (Memtable_iter m) (table_contents (g_version g)).
Proof.
  intros [Hp _] a b Ha Hb Hkab. rewrite Hp in Ha. pose proof Hk as [Hh _ Hl _ _ _]. pose proof (li_wal _ _ _ _ _ Hl) as Ew.
  pose proof (hi_order _ _ _ Hh) as Hord. rewrite Ew in Hord. pose proof crash_covers as [_ _ H3 H4 _ _].
  destruct (owned mo (key b)) eqn:Ho.
  - destruct (H4 b Hb Ho) as (f & Hf & Hfk & <-). left. apply (order_app _ _ Hord); [done|done|congruence].
  - specialize (H3 b Hb Ho). rewrite Ew in H3. apply elem_of_app in H3 as [Hb'|Hb']; [left; by apply (order_app _ _ Hord)|].
    right. split; [done|]. by rewrite Hp.
Qed.

Lemma crash_hist t' m :
  t_current t' = mkSuperVersion SM m [] (g_version g) -> holds m wal -> mem_ok m -> t_merge_operator t' = mo ->
  (forall e, e ∈ hist -> seqno e <= t_seqno t') -> is_uint 64 (t_seqno t') ->
  hist_inv t' hist (crash_ghost g wal).
Proof.
  intros Ec Hm Hok Emo Hs Hu. pose proof Hk as [Hh _ Hl _ _ _]. pose proof (ps_version _ _ _ _ _ _ (li_persisted _ _ _ _ _ Hl)) as Hv.
  split; rewrite ?Emo, ?Ec; cbn [g_parts g_flushed crash_ghost sv_sealed sv_active sv_version].
  - apply (hi_order _ _ _ Hh).
  - constructor; [repeat constructor|]. apply Forall_singleton, (li_cut _ _ _ _ _ Hl).
  - intros e He. destruct (hi_entries _ _ _ Hh e He) as [? [? _]]. split; [done|]. split; [done|auto].
  - done.
  - apply (hi_laws _ _ _ Hh).
  - by apply Forall2_cons.
  - cbn [concat]. rewrite app_nil_r. apply (li_wal _ _ _ _ _ Hl).
  - split; [by apply Forall_cons|done|]. change (layers _) with (Memtable_iter m :: table_layers (g_version g)). apply stacked_cons.
    split; [apply Memtable_iter_sorted|]. split; [apply (cv_stack _ _ _ _ (li_covers _ _ _ _ _ Hl))|].
    rewrite concat_table_layers. by apply crash_above.
  - apply crash_covers.
Qed.

Lemma crash_inv stats t' :
  reopen stats t wal = Ok t' -> ks_inv (mkKeyspace t' None None wal true) hist (crash_ghost g wal).
Proof.
  pose proof Hk as [Hh _ Hl _ _ _]. pose proof (li_persisted _ _ _ _ _ Hl) as Hps. pose proof Hps as [Hv _ Hman Hnid Hnseq].
  destruct (Tree_open_persisted _ (t_config t) _ _ stats _ _ _ Hps) as [Ho Hfiles]. cbv zeta in Ho, Hfiles. fold t in Ho, Hfiles.
  unfold reopen. rewrite Ho, Result_bind_Ok. intros [= <-].
  cbn [t_dir t_config t_current t_disk t_manifest t_seqno t_flushed_seqno t_manifest_durable_seqno t_compaction_enabled t_flushing_ids
       t_stats t_trivial_move_count t_major_compact_success_count].
  set (files' := filter _ _) in *. set (id := Z.max _ _) in *. set (t1 := mkTree _ _ _ _ _ _ _ _ _ _ _ _ _ _ _ _).
  pose proof (li_wal _ _ _ _ _ Hl) as Ew. fold wal in Ew.
  assert (forall e, e ∈ wal -> e ∈ hist) as Hwal by (intros e He; rewrite Ew, elem_of_app; by right).
  destruct (replay_fields wal t1 [] Memtable_new) as ((m & Ec & Hm & Hmok) & Hle & Hws & Hu & F1 & F2 & F3 & F4 & F5 & F6 & F7);
    [done|split; [by rewrite Memtable_iter_new|done]|apply mem_ok_new|intros e He; by apply (hi_entries _ _ _ Hh), Hwal| |done|].
  { pose proof (hi_order _ _ _ Hh) as Hord. rewrite Ew in Hord. by apply StronglySorted_app_1_r in Hord. }
  set (t' := fold_left _ _ _) in *. change (t_seqno t1) with (g_next_seqno g) in Hle. cbn [app] in Hm.
  destruct (li_next_seqno _ _ _ _ _ Hl) as [_ Hns]. destruct (li_next_id _ _ _ _ _ Hl) as (_ & Hpos & Hids).
  assert (forall e, e ∈ g_pruned g -> seqno e <= g_next_seqno g) as Hpr.
  { intros e He. apply Hns. destruct (li_pruned _ _ _ _ _ Hl) as [x ->]. rewrite elem_of_app. by left. }
  assert (hist_inv t' hist (crash_ghost g wal)) as Hh'.
  { apply (crash_hist t' m); try done. intros e He. rewrite Ew in He. apply elem_of_app in He as [He|He]; [specialize (Hpr e He); lia|auto]. }
  assert (0 <= id < 2 ^ 64 /\ g_next_id g <= id) as [[??] ?].
  { unfold id. destruct Hnid as [??]. pose proof (Z.mod_pos_bound (max_on_disk_table_id (t_dir t) files' + 1) (2 ^ 64) ltac:(lia)). unfold wrap, is_uint in *. lia. }
  pose proof (Hv) as [Hsh Htok].
  split; cbn [ks_tree ks_flush ks_compact ks_wal ks_recovering]; [done| | | |done|done].
  - split; rewrite ?Ec, ?F1, ?F3; cbn [flush_tables compact_tables old_tables sv_version t1 t_disk t_dir dk_next_table_id]; rewrite ?app_nil_r.
    + unfold is_uint. lia.
    + rewrite Forall_forall in *. intros h Hh''. split; [auto|specialize (Hids h Hh''); cbn; lia|by apply Hfiles].
    + apply (vs_ids _ Hsh).
    + by intros ? ?%elem_of_nil.
  - split; rewrite ?Ec, ?F1, ?F2, ?F3, ?F4; cbn [g_persisted g_version g_flushed g_pruned g_next_id g_next_seqno crash_ghost sv_version]; try done.
    + apply crash_covers.
    + apply (li_cut _ _ _ _ _ Hl).
  - pose proof Hnseq as [??]. split; rewrite ?F5, ?F6, ?F7; cbn [t_flushed_seqno t_manifest_durable_seqno t1]; [lia|done|done].
Qed.

End crash.

Lemma recovered_inv ks hist g :
  ks_inv ks hist g -> ks_recovering ks = true -> ks_flush ks = None ->
  Memtable_iter (sv_active (t_current (ks_tree ks))) = [] -> sv_sealed (t_current (ks_tree ks)) = [] ->
  exists g', ks_inv (mkKeyspace (ks_tree ks) None (ks_compact ks) [] false) hist g'.
Proof.
  intros [Hh Hd Hl Hm Hf Hc] Hr Efl Ha Hs. rewrite Efl in *. set (t := ks_tree ks) in *.
  assert (concat (g_parts g) = []) as Ep.
  { pose proof (parts_perm _ _ _ Hh) as Hp. unfold mem_contents, memtables in Hp. fold t in Hp. rewrite Hs in Hp. cbn in Hp.
    rewrite Ha in Hp. by apply Permutation_nil_l in Hp. }
  pose proof (hi_hist _ _ _ Hh) as Eh. rewrite Ep, app_nil_r in Eh. destruct (mi_recovering _ _ _ _ _ Hm Hr) as [Hen Ef].
  exists (with_pruned g hist). split; cbn [ks_tree ks_flush ks_compact ks_wal ks_recovering].
  - destruct Hh as [? ? ? ? ? ? ? ? ?]. by split.
  - done.
  - destruct Hl as [? ? ? ? ? ? ? ? ?]. split; try done; cbn [g_pruned g_persisted with_pruned]; [by rewrite Ef, <- Eh|by rewrite app_nil_r|by intros ? ? _ ?%elem_of_nil].
  - destruct Hm as [Hm1 _ _]. split; [done| |done]. cbn [g_parts g_persisted with_pruned]. intros _. rewrite Ep, Ef, <- Eh, drop_ge by done.
    split; by intros ? ?%elem_of_nil.
  - done.
  - done.
Qed.

(** ** Every run keeps the invariant *)

Lemma fresh_inv dir config zmb mo stats :
  (forall op, mo = Some op -> MergeOperatorLaws op) ->
  ks_inv (fresh_keyspace dir config zmb mo stats) [] (mkGhost [] [] [] [[]] Version_new 1 0).
Proof.
  intros Hlaw. pose proof (covers_new mo) as Hc.
  assert (Version_ok Version_new) as Hv by (split; [apply Version_new_shape|apply Forall_nil_2]).
  split; cbn [ks_tree ks_flush ks_compact ks_wal ks_recovering fresh_keyspace]; [| | | |done|done].
  - split; cbn [t_current t_seqno t_merge_operator g_parts g_flushed sv_sealed sv_active sv_version app concat]; try done.
    + constructor.
    + repeat constructor. by intros ? ? ?%elem_of_nil.
    + by intros e ?%elem_of_nil.
    + apply Forall2_cons. split; [|by apply Forall2_nil]. split; [by rewrite Memtable_iter_new|done].
    + split; [apply Forall_cons; split; [apply mem_ok_new|by apply Forall_nil]|done|].
      change (layers _) with (Memtable_iter Memtable_new :: table_layers Version_new). apply stacked_cons.
      rewrite Memtable_iter_new. split; [constructor|]. split; [apply (cv_stack _ _ _ _ Hc)|]. by intros a b ?%elem_of_nil.
  - split; cbn; try done; [constructor|by intros ? ?%elem_of_nil].
  - assert (persisted dir ∅ None Version_new 1 0) by (split; try done; apply Forall_nil_2).
    assert (cut [] []) by (by intros ? ? ?%elem_of_nil).
    split; cbn; try assumption; try done; (split; [lia|]); [split; [lia|]|]; by intros ? ?%elem_of_nil.
  - split; cbn; [lia| |done]. intros _. by split; intros ? ?%elem_of_nil.
Qed.

Lemma step_inv ks w ks' hist g : step ks w ks' -> ks_inv ks hist g -> exists g', ks_inv ks' (hist ++ w) g'.
Proof.
  destruct 1; intros Hi; rewrite ?app_nil_r; eauto using write_inv, seal_inv, flush_begin_inv, flush_install_inv, flush_finish_inv,
    compact_begin_inv, move_begin_inv, compact_install_inv, move_install_inv, compact_persist_inv, checkpoint_inv, compact_delete_inv,
    enable_inv, metrics_inv, sweep_inv, prune_inv, crash_inv, recovered_inv.
Qed.

Lemma reachable_inv start hist ks :
  (exists g, ks_inv start [] g) -> reachable start hist ks -> exists g, ks_inv ks hist g.
Proof. intros Hs. induction 1 as [|hist ks w ks' _ [g Hg] Hstep]; [done|]. by eapply step_inv. Qed.

Lemma reopen_Ok stats ks hist g wal : ks_inv ks hist g -> exists t', reopen stats (ks_tree ks) wal = Ok t'.
Proof.
  intros Hi. destruct (Tree_open_persisted _ (t_config (ks_tree ks)) _ _ stats _ _ _ (li_persisted _ _ _ _ _ (ki_log _ _ _ Hi)))
    as [Ho _]. unfold reopen. rewrite Ho, Result_bind_Ok. eauto.
Qed.

(** The directory, the configuration, the zone maps and the merge operator are the
    same throughout a run. *)
Definition tree_fixed (t : Tree) : bytes * TreeConfig * option ZoneMapBuilder * option MergeOperator :=
  (t_dir t, t_config t, t_zone_map_builder t, t_merge_operator t).

Lemma fold_write_fixed wal t : tree_fixed (fold_left (fun t e => write_entry e t) wal t) = tree_fixed t.
Proof.
  revert t; induction wal as [|e wal IH]; intros t; [done|]. cbn [fold_left]. rewrite IH.
  unfold write_entry, insert_with_seqno. cbv zeta. by destruct (Memtable_insert _ _ _ _ _).
Qed.

Lemma Tree_open_fixed dir cfg files m stats t : Tree_open dir cfg files m stats = Ok t -> tree_fixed t = (dir, cfg, None, None).
Proof.
  unfold Tree_open. cbv zeta. destruct (read_manifest m) as [o| |]; [|done|done]. rewrite Result_bind_Ok. destruct o as [x|]; cbn.
  - destruct (open_levels _ _ _) as [ls| |]; [|done|done]. rewrite Result_bind_Ok. destruct (sort_levels stats ls). cbn. by intros [= <-].
  - by intros [= <-].
Qed.

(** Without a merge operator and zone maps, what is set again is nothing. *)
Lemma reopen_plain stats t dir cfg wal :
  tree_fixed t = (dir, cfg, None, None) ->
  reopen stats t wal = (t' ← Tree_open dir cfg (dk_files (t_disk t)) (t_manifest t) stats; Ok (fold_left (fun t e => write_entry e t) wal t')).
Proof.
  intros [= <- <- Ez Em]. unfold reopen. destruct (Tree_open _ _ _ _ _) as [t0| |] eqn:E; [|done|done]. rewrite !Result_bind_Ok.
  apply Tree_open_fixed in E. injection E as E1 E2 E3 E4. rewrite Ez, Em. do 2 f_equal. destruct t0; cbn in *. by subst.
Qed.

Lemma step_fixed ks w ks' : step ks w ks' -> tree_fixed (ks_tree ks') = tree_fixed (ks_tree ks).
Proof.
  destruct 1 as [ks e| ks|ks t' j _ _ _ H|ks j|ks j|ks task observer zmb t' r _ _ _ _ H|ks task|ks task r|ks task|ks old|ks old|ks|ks b|ks s m n|ks|ks d k|ks stats t' _ H|ks];
    cbn [ks_tree on_tree]; try done.
  - unfold seal_active. by case_match.
  - unfold flush_begin in H. case_match; [done|]. repeat case_match; by simplify_eq.
  - unfold flush_finish. by repeat case_match.
  - unfold run_compaction, on_disk in H. case_match. by simplify_eq.
  - unfold compaction_install. by case_match.
  - unfold compaction_install. by case_match.
  - unfold reopen in H. destruct (Tree_open _ _ _ _ _) as [t0| |] eqn:E; [|done|done]. rewrite Result_bind_Ok in H. simplify_eq.
    rewrite fold_write_fixed. apply Tree_open_fixed in E. injection E as E1 E2 _ _. unfold tree_fixed. cbn. by rewrite E1, E2.
Qed.

Lemma reachable_fixed start hist ks : reachable start hist ks -> tree_fixed (ks_tree ks) = tree_fixed (ks_tree start).
Proof. induction 1 as [|hist ks w ks' _ IH Hs]; [done|]. by rewrite (step_fixed _ _ _ Hs). Qed.

Lemma reachable_operator start hist ks : reachable start hist ks -> t_merge_operator (ks_tree ks) = t_merge_operator (ks_tree start).
Proof. by intros [=]%reachable_fixed. Qed.

Lemma reachable_trans a w b w' c : reachable a w b -> reachable b w' c -> reachable a (w ++ w') c.
Proof.
  intros Hab. induction 1 as [|w' c x d _ IH Hs]; [by rewrite app_nil_r|]. rewrite app_assoc. by eapply reach_step.
Qed.

Lemma reachable_one ks w ks' : step ks w ks' -> reachable ks w ks'.
Proof. intros Hs. change w with ([] ++ w). eapply reach_step; [apply reach_start|done]. Qed.

Lemma reachable_then a w b c : reachable a w b -> step b [] c -> reachable a w c.
Proof. intros Ha Hs. rewrite <- (app_nil_r w). by eapply reach_step. Qed.

End run.
