(* ===== verification/TreeTheorems.v ===== *)
(** * What holds of every run

    The methods of the tree are runs of the keyspace, and every run keeps the
    promises: readers see the map of the acknowledged writes, through flushes,
    compactions, pruning and crashes. The witnesses replay a concrete run with an
    executable form of the steps. *)

From S2P Require Import Prelude Types Block Bloom Memtable Merge Streams TableMeta TableWriter.
From S2P Require Import TableReader Version Leveled Paths Worker Manifest Tree TreeReads TreeSteps.
From S2P Require Import TreeCompact TreeOpen TreeMajor TreeRun.

Abbreviation ks_version ks := (sv_version (t_current (ks_tree ks))).

Section theorems.
Context {XH : Xxh3} {CD : Codecs} {SM : SkipMap} {BH : BinaryHeap}.

(** ** The methods are runs *)

Lemma keyspace_eta ks : mkKeyspace (ks_tree ks) (ks_flush ks) (ks_compact ks) (ks_wal ks) (ks_recovering ks) = ks.
Proof. by destruct ks. Qed.

Lemma insert_run ks k v :
  ks_recovering ks = false -> 0 <= t_seqno (ks_tree ks) < 2 ^ 64 - 1 ->
  let e := mkEntry k v (t_seqno (ks_tree ks) + 1) Value in entry_ok e -> entry_valid (t_merge_operator (ks_tree ks)) e ->
  exists t' : Tree, insert k v (ks_tree ks) = (t', Ok (seqno e)) /\
    reachable ks [e] (mkKeyspace t' (ks_flush ks) (ks_compact ks) (ks_wal ks ++ [e]) false).
Proof.
  intros Hr Hs e Hok Hv. eexists. split; [apply insert_is_write; unfold is_uint; lia|]. apply reachable_one, step_write; [done|done|done|left; cbn; lia].
Qed.

Lemma flush_sealed_run ks t' n :
  ks_flush ks = None ->
  flushable (flush_config (ks_tree ks)) (dk_next_table_id (t_disk (ks_tree ks))) (sv_sealed (t_current (ks_tree ks))) ->
  dk_next_table_id (t_disk (ks_tree ks)) + blen (sv_sealed (t_current (ks_tree ks))) < 2 ^ 64 ->
  flush_sealed (ks_tree ks) = (t', Ok n) -> version_fits (sv_version (t_current t')) ->
  reachable ks [] (mkKeyspace t' None (ks_compact ks) (ks_wal ks) (ks_recovering ks)).
Proof.
  intros Hn Hfl Hid Hf Hfit. unfold flush_sealed in Hf. apply ST_bind_inv in Hf as (t1 & o & Hb & Hf).
  destruct o as [j|].
  - apply ST_bind_inv in Hf as (t2 & [] & Hm & Hf). unfold modify, mret, ST_ret in *. simplify_eq.
    eapply reachable_then; [eapply reachable_then; [by eapply reachable_one, step_flush_begin|by eapply step_flush_install]|].
    apply (step_flush_finish (mkKeyspace (flush_install j t1) (Some (FlushInstalled j)) (ks_compact ks) (ks_wal ks) (ks_recovering ks)));
      [done|]. cbn [ks_tree]. revert Hfit. unfold flush_finish. by repeat case_match.
  - unfold mret, ST_ret in Hf. simplify_eq. unfold flush_begin in Hb. repeat case_match; simplify_eq. rewrite <- Hn, keyspace_eta. apply reach_start.
Qed.

Lemma set_disk_eta t : set_disk (mkDisk (dk_files (t_disk t)) (dk_next_table_id (t_disk t))) t = t.
Proof. by destruct t as [? ? ? ? ? [? ?] ? ? ? ? ? ? ? ? ?]. Qed.

Lemma trivial_move_run ks task :
  ks_recovering ks = false -> ks_compact ks = None -> picked ks task ->
  is_trivial_move_candidate task (ks_version ks) (tc_compaction (t_config (ks_tree ks))) = true ->
  let t' := apply_trivial_move task (ks_tree ks) in version_fits (sv_version (t_current t')) ->
  reachable ks [] (mkKeyspace t' (ks_flush ks) None (ks_wal ks) false).
Proof.
  intros Hr Hn Hp Ht t' Hfit.
  eapply reachable_then; [eapply reachable_then; [eapply reachable_then; [eapply reachable_then;
    [by eapply reachable_one, step_move_begin|by eapply step_move_install]|by eapply step_compact_persist]|by eapply step_compact_delete]|].
  cbn [ks_tree ks_flush ks_compact ks_wal ks_recovering].
  set (t1 := persist_manifest _). change (delete_compacted_inputs [] t1) with (set_disk (mkDisk (dk_files (t_disk t1)) (dk_next_table_id (t_disk t1))) t1).
  rewrite set_disk_eta. apply (step_metrics (mkKeyspace t1 (ks_flush ks) None (ks_wal ks) false)).
Qed.

Lemma compaction_run ks task observer zmb t1 r :
  ks_recovering ks = false -> ks_compact ks = None -> picked ks task -> fits_task (ks_tree ks) zmb task ->
  run_compaction task observer zmb (ks_tree ks) = (t1, Ok r) ->
  let t' := finish_compaction r t1 in version_fits (sv_version (t_current t')) ->
  reachable ks [] (mkKeyspace t' (ks_flush ks) None (ks_wal ks) false).
Proof.
  intros Hr Hn Hp Hft Hrun t' Hfit.
  eapply reachable_then; [eapply reachable_then; [eapply reachable_then;
    [by eapply reachable_one, step_compact_begin|by eapply step_compact_install]|by eapply step_compact_persist]|].
  by apply (step_compact_delete (mkKeyspace (persist_manifest (compaction_install (cr_old_ids r) (cr_new_tables r) (cr_target_level r) t1))
    (ks_flush ks) (Some (Persisted (cr_old_ids r))) (ks_wal ks) false)).
Qed.

Lemma maybe_compact_run ks t' b :
  ks_recovering ks = false -> ks_compact ks = None ->
  (forall task, choose_compaction (ks_version ks) (tc_compaction (t_config (ks_tree ks))) = Ok (Some task) ->
     fits_task (ks_tree ks) (t_zone_map_builder (ks_tree ks)) task) ->
  maybe_compact (ks_tree ks) = (t', Ok b) -> version_fits (sv_version (t_current t')) ->
  reachable ks [] (mkKeyspace t' (ks_flush ks) None (ks_wal ks) false).
Proof.
  intros Hr Hn Hft Hm Hfit. unfold maybe_compact in Hm. apply ST_bind_inv in Hm as (t1 & o & Hc & Hm). simplify_eq.
  destruct o as [task|].
  2:{ unfold mret, ST_ret in Hm. simplify_eq. rewrite <- Hr, <- Hn, keyspace_eta. apply reach_start. }
  apply ST_bind_inv in Hm as (t1 & triv & Ht & Hm). unfold gets in Ht. simplify_eq.
  destruct (is_trivial_move_candidate _ _ _) eqn:Et.
  - apply ST_bind_inv in Hm as (t2 & [] & Hmod & Hm). unfold modify, mret, ST_ret in *. simplify_eq. apply trivial_move_run; [done|done|by left|done|done].
  - apply ST_bind_inv in Hm as (t1 & zmb & Hz & Hm). unfold gets in Hz. simplify_eq.
    apply ST_bind_inv in Hm as (t2 & r & Hrun & Hm). apply ST_bind_inv in Hm as (t3 & [] & Hmod & Hm). unfold modify, mret, ST_ret in *. simplify_eq.
    eapply compaction_run; [done|done|by left|by apply Hft|done|done].
Qed.

Lemma checkpoint_flush_run ks t' :
  let sealed := fst (seal_active (set_compaction_enabled false (ks_tree ks))) in
  ks_recovering ks = false -> ks_flush ks = None ->
  flushable (flush_config sealed) (dk_next_table_id (t_disk sealed)) (sv_sealed (t_current sealed)) ->
  dk_next_table_id (t_disk sealed) + blen (sv_sealed (t_current sealed)) < 2 ^ 64 ->
  checkpoint_flush (ks_tree ks) = (t', Ok tt) -> version_fits (sv_version (t_current t')) ->
  reachable ks [] (mkKeyspace t' None (ks_compact ks) (ks_wal ks) false).
Proof.
  intros sealed Hr Hn Hfl Hid Hc Hfit. unfold checkpoint_flush in Hc. cbv zeta in Hc.
  rewrite (surjective_pairing (seal_active _)) in Hc. fold sealed in Hc.
  destruct (flush_sealed sealed) as [t1 [n| |]] eqn:Ef; [|done|done]. simplify_eq.
  set (ks1 := on_tree (fun t => fst (seal_active t)) (on_tree (set_compaction_enabled false) ks)).
  assert (reachable ks [] ks1) as H1.
  { eapply reachable_then; [by apply reachable_one, step_enable|apply step_seal]. }
  change (@nil Entry) with ([] ++ @nil Entry). eapply reachable_trans; [exact H1|].
  assert (reachable ks1 [] (mkKeyspace t1 None (ks_compact ks) (ks_wal ks) false)) as H2.
  { change (ks_compact ks) with (ks_compact ks1). change (ks_wal ks) with (ks_wal ks1). rewrite <- Hr. change (ks_recovering ks) with (ks_recovering ks1).
    by eapply flush_sealed_run. }
  eapply reachable_then; [eapply reachable_then; [exact H2|by apply step_checkpoint]|].
  by apply (step_enable (mkKeyspace _ None (ks_compact ks) (ks_wal ks) false)).
Qed.

(** * Theorems *)

Section start.
Context (dir : bytes) (config : TreeConfig) (zmb : option ZoneMapBuilder) (mo : option MergeOperator) (stats : OverlapStats).
Let start := fresh_keyspace dir config zmb mo stats.
Hypothesis Hlaws : forall op, mo = Some op -> MergeOperatorLaws op.

Lemma run_inv hist ks : reachable start hist ks -> t_merge_operator (ks_tree ks) = mo /\ exists g, ks_inv ks hist g.
Proof.
  intros Hr. split; [by rewrite (reachable_operator _ _ _ Hr)|]. eapply reachable_inv; [|done]. eexists. by apply fresh_inv.
Qed.

Lemma abs_run hist ks k : reachable start hist ks -> abs ks k = map_of mo hist k.
Proof.
  intros Hr. destruct (run_inv _ _ Hr) as [<- [g Hi]]. apply (view_contents _ _ _ (ki_hist _ _ _ Hi)).
Qed.

Lemma run_sv_ok hist ks : reachable start hist ks -> sv_ok (t_merge_operator (ks_tree ks)) (t_current (ks_tree ks)).
Proof. intros Hr. destruct (run_inv _ _ Hr) as [_ [g Hi]]. apply (hi_sv _ _ _ (ki_hist _ _ _ Hi)). Qed.

Lemma get_run hist ks k : reachable start hist ks -> owned mo k = false -> get (ks_tree ks) k = Ok (map_of mo hist k).
Proof.
  intros Hr Ho. pose proof (run_sv_ok _ _ Hr) as Hok. destruct (run_inv _ _ Hr) as [Emo _]. rewrite <- (abs_run _ _ k Hr). rewrite <- Emo in Ho.
  unfold get, abs. rewrite get_at_spec by done. f_equal. symmetry. eapply view_newest; eauto using contents_uniq, first_visible_contents.
Qed.

(** C4: the storage engine is a map. After any run from an empty directory, in which the
    writes of one writer, seals, the three steps of a flush, the steps of compactions and of
    trivial moves, checkpoints, orphan sweeps, log pruning, crashes and recoveries
    interleave, a reader sees for every key exactly what the acknowledged writes, applied in
    order to an empty map, have left there: the last value put, nothing after a removal, and
    for a merge-owned key the fold of its deltas. Not among the runs are two flushes of the
    tree at a time, outputs that do not fit the format of a table, and, with a merge
    operator, outputs above the last level that end between two versions of a key and
    crashes while a merge-owned write that is still in the log has reached a table. *)
Theorem run_refines_map hist ks :
  reachable start hist ks -> forall k, abs ks k = map_of mo hist k.
Proof. intros Hr k. by apply abs_run. Qed.



(** C7: the levels stay well formed and their files stay in place. In every state of
    every such run (where flushes do not overlap and, with a merge operator, outputs above
    the last level do not end between two versions of a key) there are seven levels, the
    tables of each level above 0 are sorted and do not overlap, no table id is used twice,
    and each table of the version is a readable file of the directory under its own name:
    neither the deletion of compaction inputs nor the orphan sweep takes a file in use. *)
Theorem run_keeps_tables hist ks :
  reachable start hist ks ->
  let v := ks_version ks in
  length (levels v) = MAX_LEVELS /\ (forall i, (1 <= i)%nat -> disjoint_run (level v i)) /\
  NoDup (table_id <$> concat (levels v)) /\
  Forall (fun h => table_ok h /\ on_file (t_dir (ks_tree ks)) (dk_files (t_disk (ks_tree ks))) h) (concat (levels v)).
Proof.
  intros Hr. destruct (run_inv _ _ Hr) as [_ [g Hi]]. pose proof (so_version _ _ (hi_sv _ _ _ (ki_hist _ _ _ Hi))) as [Hs _].
  pose proof (di_tables _ _ _ (ki_disk _ _ _ Hi)) as Ht. apply Forall_app in Ht as [Ht _].
  split; [apply (vs_length _ Hs)|]. split; [apply (vs_runs _ Hs)|]. split; [apply (vs_ids _ Hs)|].
  eapply Forall_impl; [exact Ht|]. by intros h [].
Qed.

End start.

(** C8: maintenance does not change what readers see. [flush_sealed], [maybe_compact]
    (a compaction or a trivial move) and [checkpoint_flush], each run as a whole
    in any reachable state, leave the value of every key as it was. *)
Theorem maintenance_keeps_reads dir config zmb mo stats hist ks t' :
  (forall op, mo = Some op -> MergeOperatorLaws op) -> reachable (fresh_keyspace dir config zmb mo stats) hist ks ->
  ks_recovering ks = false -> ks_flush ks = None -> ks_compact ks = None -> version_fits (sv_version (t_current t')) ->
  (let sealed := fst (seal_active (set_compaction_enabled false (ks_tree ks))) in
   flushable (flush_config (ks_tree ks)) (dk_next_table_id (t_disk (ks_tree ks))) (sv_sealed (t_current (ks_tree ks))) /\
   flushable (flush_config sealed) (dk_next_table_id (t_disk sealed)) (sv_sealed (t_current sealed)) /\
   dk_next_table_id (t_disk sealed) + blen (sv_sealed (t_current sealed)) < 2 ^ 64) ->
  (forall task, choose_compaction (ks_version ks) (tc_compaction (t_config (ks_tree ks))) = Ok (Some task) ->
     fits_task (ks_tree ks) (t_zone_map_builder (ks_tree ks)) task) ->
  (exists n, flush_sealed (ks_tree ks) = (t', Ok n)) \/ (exists b, maybe_compact (ks_tree ks) = (t', Ok b)) \/
    checkpoint_flush (ks_tree ks) = (t', Ok tt) ->
  forall k, view mo (t_seqno t') k (contents (t_current t')) = abs ks k.
Proof.
  intros Hlaw Hr Hrec Hfl Hcp Hfit (F1 & F2 & F3) Hft Hop k.
  assert (exists fl cp, reachable ks [] (mkKeyspace t' fl cp (ks_wal ks) (ks_recovering ks))) as (fl & cp & Hrun).
  { destruct Hop as [[n Hf]|[[b Hc]|Hc]]; do 2 eexists; [eapply flush_sealed_run; try done|rewrite Hrec; by eapply maybe_compact_run|
      rewrite Hrec; by eapply checkpoint_flush_run].
    unfold seal_active, blen in F3. destruct (Memtable_is_empty _); cbn in F3; [done|]. rewrite length_app in F3. cbn in F3. unfold blen. lia. }
  pose proof (reachable_trans _ _ _ _ _ Hr Hrun) as Hr'. rewrite app_nil_r in Hr'.
  rewrite (abs_run _ _ _ _ _ Hlaw _ _ k Hr). pose proof (abs_run _ _ _ _ _ Hlaw _ _ k Hr') as E.
  destruct (run_inv _ _ _ _ _ Hlaw _ _ Hr') as [Emo _]. unfold abs in E. by rewrite Emo in E.
Qed.

End theorems.

(** * A concrete run *)

(** The steps with executable guards. *)
Inductive Op :=
  | OpPut (k v : bytes)
  | OpRemove (k : bytes)
  | OpSeal
  | OpFlushBegin
  | OpFlushInstall
  | OpFlushFinish
  | OpCompactBegin
  | OpCompactInstall
  | OpPersist
  | OpDelete
  | OpSweep
  | OpPrune (n : nat)
  | OpCrash
  | OpRecovered.

#[export] Instance version_fits_dec v : Decision (version_fits v).
Proof. unfold version_fits. apply _. Defined.

Section exec.
Context {XH : Xxh3} {CD : Codecs} {SM : SkipMap} {BH : BinaryHeap}.

(** Every chunk can be written, numbered from [id] on. *)
Definition chunks_check (cfg : SSTableConfig) (zmb : option ZoneMapBuilder) (id : Z) (cs : list (list Entry)) : bool :=
  forallb (fun p => writable_check cfg zmb (id + Z.of_nat (fst p)) (snd p)) (zip (seq 0 (length cs)) cs).

Definition fits_check (t : Tree) (zmb : option ZoneMapBuilder) (task : CompactionTask) : bool :=
  match merge_sources (table_entries <$> input_tables task) with
  | Ok merged =>
    let cs := chunks (target_table_size (tc_compaction (t_config t))) [] 0
                (CompactionStream (t_merge_operator t) (is_last_level task) merged) in
    chunks_check (config_for_level (t_config t) (target_level task)) zmb (dk_next_table_id (t_disk t)) cs &&
    (dk_next_table_id (t_disk t) + blen cs <? 2 ^ 64) && keys_ascending (concat cs)
  | _ => false
  end.

Definition flush_check (t : Tree) : bool :=
  let sealed := sv_sealed (t_current t) in
  chunks_check (flush_config t) None (dk_next_table_id (t_disk t)) (Memtable_iter <$> sealed) &&
  (dk_next_table_id (t_disk t) + blen sealed <? 2 ^ 64).

Definition write_op (k v : bytes) (vt : ValueType) (ks : Keyspace) : option (list Entry * Keyspace) :=
  let t := ks_tree ks in
  let e := mkEntry k v (t_seqno t + 1) vt in
  if negb (ks_recovering ks) && bool_decide (norm_entry e = e) && bool_decide (is_uint 64 (seqno e))
  then Some ([e], mkKeyspace (write_entry e t) (ks_flush ks) (ks_compact ks) (ks_wal ks ++ [e]) false) else None.

Definition exec_op (op : Op) (ks : Keyspace) : option (list Entry * Keyspace) :=
  let t := ks_tree ks in
  match op with
  | OpPut k v => write_op k v Value ks
  | OpRemove k => write_op k [] Tombstone ks
  | OpSeal => Some ([], on_tree (fun t => fst (seal_active t)) ks)
  | OpFlushBegin =>
    match ks_flush ks, flush_check t, flush_begin t with
    | None, true, (t', Ok (Some j)) => Some ([], mkKeyspace t' (Some (Captured j)) (ks_compact ks) (ks_wal ks) (ks_recovering ks))
    | _, _, _ => None
    end
  | OpFlushInstall =>
    match ks_flush ks with
    | Some (Captured j) => Some ([], mkKeyspace (flush_install j t) (Some (FlushInstalled j)) (ks_compact ks) (ks_wal ks) (ks_recovering ks))
    | _ => None
    end
  | OpFlushFinish =>
    match ks_flush ks with
    | Some (FlushInstalled j) =>
      if bool_decide (version_fits (ks_version ks))
      then Some ([], mkKeyspace (flush_finish j t) None (ks_compact ks) (ks_wal ks) (ks_recovering ks)) else None
    | _ => None
    end
  | OpCompactBegin =>
    match ks_recovering ks, ks_compact ks, choose_compaction (ks_version ks) (tc_compaction (t_config t)) with
    | false, None, Ok (Some task) =>
      if fits_check t (t_zone_map_builder t) task then
        match run_compaction task false (t_zone_map_builder t) t with
        | (t', Ok r) => Some ([], mkKeyspace t' (ks_flush ks) (Some (Running task r)) (ks_wal ks) false)
        | _ => None
        end
      else None
    | _, _, _ => None
    end
  | OpCompactInstall =>
    match ks_compact ks with
    | Some (Running task r) =>
      Some ([], mkKeyspace (compaction_install (cr_old_ids r) (cr_new_tables r) (cr_target_level r) t)
        (ks_flush ks) (Some (Installed (cr_old_ids r))) (ks_wal ks) (ks_recovering ks))
    | _ => None
    end
  | OpPersist =>
    match ks_compact ks with
    | Some (Installed old) =>
      if bool_decide (version_fits (ks_version ks))
      then Some ([], mkKeyspace (persist_manifest t) (ks_flush ks) (Some (Persisted old)) (ks_wal ks) (ks_recovering ks)) else None
    | _ => None
    end
  | OpDelete =>
    match ks_compact ks with
    | Some (Persisted old) => Some ([], mkKeyspace (delete_compacted_inputs old t) (ks_flush ks) None (ks_wal ks) (ks_recovering ks))
    | _ => None
    end
  | OpSweep => match ks_compact ks with None => Some ([], on_tree cleanup_orphan_ssts ks) | _ => None end
  | OpPrune n =>
    if negb (ks_recovering ks) && forallb (fun e => seqno e <=? prune_watermark t) (take n (ks_wal ks)) &&
       forallb (fun x => forallb (fun y => seqno x <? seqno y) (drop n (ks_wal ks))) (take n (ks_wal ks))
    then Some ([], mkKeyspace t (ks_flush ks) (ks_compact ks) (drop n (ks_wal ks)) false) else None
  | OpCrash =>
    if forallb (fun e => negb (owned (t_merge_operator t) (key e)) || bool_decide (e ∈ mem_contents (t_current t))) (ks_wal ks)
    then match reopen (t_stats t) t (ks_wal ks) with
         | Ok t' => Some ([], mkKeyspace t' None None (ks_wal ks) true)
         | _ => None
         end
    else None
  | OpRecovered =>
    match ks_recovering ks, ks_flush ks, Memtable_iter (sv_active (t_current t)), sv_sealed (t_current t) with
    | true, None, [], [] => Some ([], mkKeyspace t None (ks_compact ks) [] false)
    | _, _, _, _ => None
    end
  end.

Fixpoint exec (ops : list Op) (hist : list Entry) (ks : Keyspace) : option (list Entry * Keyspace) :=
  match ops with
  | [] => Some (hist, ks)
  | op :: ops => match exec_op op ks with Some (w, ks') => exec ops (hist ++ w) ks' | None => None end
  end.

Lemma chunks_check_ok cfg zmb id cs (i : nat) c :
  chunks_check cfg zmb id cs = true -> cs !! i = Some c -> writable cfg zmb (id + Z.of_nat i) c.
Proof.
  unfold chunks_check. rewrite forallb_forall. intros H Hi. apply writable_check_ok.
  apply (H (i, c)). apply list_elem_of_In, list_elem_of_lookup. exists i. rewrite lookup_zip_with, Hi, lookup_seq_lt by by eapply lookup_lt_Some.
  done.
Qed.

Lemma flush_check_ok t : flush_check t = true ->
  flushable (flush_config t) (dk_next_table_id (t_disk t)) (sv_sealed (t_current t)) /\
  dk_next_table_id (t_disk t) + blen (sv_sealed (t_current t)) < 2 ^ 64.
Proof.
  intros [H1 H2]%andb_true_iff. split; [|lia]. intros i m Hi _. eapply chunks_check_ok; [done|]. by rewrite list_lookup_fmap, Hi.
Qed.

Lemma fits_check_ok t zmb task : fits_check t zmb task = true -> fits_task t zmb task.
Proof.
  unfold fits_check, fits_task. destruct (merge_sources _) as [merged| |]; [|done|done]. cbv zeta.
  intros [[H1 H2]%andb_true_iff H3]%andb_true_iff. exists merged. split; [done|]. split; [intros i c; by apply chunks_check_ok|].
  split; [lia|]. right. right. by apply no_split_keys, keys_ascending_spec.
Qed.

(** The operator takes any value. *)
Definition takes_all (mo : option MergeOperator) : Prop := forall e, entry_valid mo e.

Lemma exec_op_step op ks w ks' : takes_all (t_merge_operator (ks_tree ks)) -> exec_op op ks = Some (w, ks') -> step ks w ks'.
Proof.
  intros Hv. destruct op; unfold exec_op, write_op; cbv zeta; intros H.
  1,2: destruct (negb _ && _ && _) eqn:E; [|done]; rewrite !andb_true_iff, !bool_decide_eq_true, negb_true_iff in E;
    destruct E as [[? ?] ?]; simplify_eq; apply step_write; [done|done|by apply Hv|left; cbn; lia].
  - simplify_eq. apply step_seal.
  - destruct (ks_flush ks) eqn:Ef; [done|]. destruct (flush_check _) eqn:Ec; [|done]. apply flush_check_ok in Ec as [? ?].
    destruct (flush_begin _) as [t' [[j|]| |]] eqn:Eb; simplify_eq. by apply step_flush_begin.
  - repeat case_match; simplify_eq. by apply step_flush_install.
  - repeat case_match; simplify_eq. apply step_flush_finish; [done|]. by eapply bool_decide_eq_true.
  - repeat case_match; simplify_eq. eapply step_compact_begin; eauto using fits_check_ok. by left.
  - repeat case_match; simplify_eq. by eapply step_compact_install.
  - repeat case_match; simplify_eq. apply step_compact_persist; [done|]. by eapply bool_decide_eq_true.
  - repeat case_match; simplify_eq. by eapply step_compact_delete.
  - repeat case_match; simplify_eq. by apply step_sweep.
  - destruct (negb _ && _ && _) eqn:E; [|done]. rewrite !andb_true_iff, negb_true_iff, !forallb_forall in E.
    destruct E as [[E1 E2] E3]. simplify_eq. eapply step_prune; [done|symmetry; apply take_drop| |].
    + apply Forall_forall. intros e He%list_elem_of_In%E2. lia.
    + intros x y Hx%list_elem_of_In%E3 Hy%list_elem_of_In. rewrite forallb_forall in Hx. specialize (Hx y Hy). lia.
  - destruct (forallb _ _) eqn:E; [|done]. rewrite forallb_forall in E. destruct (reopen _ _ _) eqn:Er; simplify_eq. eapply step_crash; [|done].
    intros e He%list_elem_of_In%E Ho. rewrite Ho in He. by apply bool_decide_eq_true in He.
  - repeat case_match; simplify_eq. by apply step_recovered.
Qed.

Lemma exec_reachable start ops hist ks hist' ks' :
  takes_all (t_merge_operator (ks_tree start)) ->
  reachable start hist ks -> exec ops hist ks = Some (hist', ks') -> reachable start hist' ks'.
Proof.
  intros Hv. revert hist ks; induction ops as [|op ops IH]; intros hist ks Hr; cbn [exec]; [by intros [= <- <-]|].
  destruct (exec_op op ks) as [[w ks1]|] eqn:E; [|done]. apply IH. eapply reach_step; [done|].
  eapply exec_op_step; [|done]. by rewrite (reachable_operator _ _ _ Hr).
Qed.

End exec.

(** ** Witnesses *)

#[local] Existing Instances sample_xxh3 sample_codecs slist_skipmap list_heap.

Definition run_config : TreeConfig :=
  mkTreeConfig sample_config 1000 (mkLeveledConfig 2 1000 10 1000 20 true 50 64) None.

Definition run_start : Keyspace := fresh_keyspace sample_dir run_config None (Some counter_op) (mkOverlapStats 0 ∅).

(** Two tables flushed with writes in between, a pruned log, a crash, and a
    compaction with a write in the middle. Keys that begin with 99 are counters. *)
Definition run_ops : list Op :=
  [OpPut [97] [1]; OpPut [98] [2]; OpPut [99] [5]; OpSeal; OpPut [97] [3]; OpFlushBegin; OpRemove [98]; OpFlushInstall;
   OpPut [99] [4]; OpFlushFinish; OpPrune 3; OpCrash; OpSeal; OpFlushBegin; OpFlushInstall; OpFlushFinish; OpRecovered;
   OpSweep; OpCompactBegin; OpPut [100] [7]; OpCompactInstall; OpPersist; OpPut [99] [1]; OpDelete].

Definition run_hist : list Entry :=
  [mkEntry [97] [1] 1 Value; mkEntry [98] [2] 2 Value; mkEntry [99] [5] 3 Value; mkEntry [97] [3] 4 Value;
   mkEntry [98] [] 5 Tombstone; mkEntry [99] [4] 6 Value; mkEntry [100] [7] 7 Value; mkEntry [99] [1] 8 Value].

(** The history and the state after the first [n] steps. *)
Definition run_at (n : nat) : list Entry * Keyspace :=
  match exec (take n run_ops) [] run_start with Some p => p | None => ([], run_start) end.

Abbreviation ks_at n := (snd (run_at n)).

Lemma run_at_reachable n : reachable run_start (fst (run_at n)) (ks_at n).
Proof.
  unfold run_at. destruct (exec _ _ _) as [[hist ks]|] eqn:E; [|apply reach_start]. eapply exec_reachable; [done|apply reach_start|exact E].
Qed.

Lemma counter_lawful op : Some counter_op = Some op -> MergeOperatorLaws op.
Proof. intros [= <-]. apply _. Qed.

Lemma run_at_ok n : sv_ok (t_merge_operator (ks_tree (ks_at n))) (t_current (ks_tree (ks_at n))).
Proof. eapply run_sv_ok; [apply counter_lawful|apply run_at_reachable]. Qed.

(** After the whole run: a value over an older one, a removed key, a counter that
    was flushed, replayed and compacted. *)
Lemma run_refines_map_witness :
  fst (run_at 24) = run_hist /\ abs (ks_at 24) [97] = Some [3] /\ abs (ks_at 24) [98] = None /\ abs (ks_at 24) [99] = Some [10].
Proof.
  assert (fst (run_at 24) = run_hist) as E by (vm_compute; reflexivity). split; [exact E|].
  pose proof (run_refines_map sample_dir run_config None (Some counter_op) (mkOverlapStats 0 ∅) counter_lawful _ _ (run_at_reachable 24)) as H.
  rewrite !H, E. vm_compute. auto.
Defined.



Lemma run_keeps_tables_witness :
  NoDup (table_id <$> concat (levels (ks_version (ks_at 24)))) /\ length (concat (levels (ks_version (ks_at 24)))) = 1%nat.
Proof.
  split; [|vm_compute; reflexivity].
  apply (run_keeps_tables sample_dir run_config None (Some counter_op) (mkOverlapStats 0 ∅) counter_lawful _ _ (run_at_reachable 24)).
Defined.

(** The compaction of the two flushed tables, run as a whole. *)
Lemma maintenance_keeps_reads_witness :
  exists t' b, maybe_compact (ks_tree (ks_at 18)) = (t', Ok b) /\ b = true /\
    view (Some counter_op) (t_seqno t') [99] (contents (t_current t')) = Some [9].
Proof.
  assert (abs (ks_at 18) [99] = Some [9]) as E by (vm_compute; reflexivity).
  destruct (maybe_compact (ks_tree (ks_at 18))) as [t' [b| |]] eqn:Hc; [|vm_compute in Hc; discriminate..].
  exists t', b. split; [reflexivity|].
  assert (b = true) as Hb by (vm_compute in Hc; injection Hc; congruence). split; [exact Hb|]. rewrite <- E.
  apply (maintenance_keeps_reads sample_dir run_config None (Some counter_op) (mkOverlapStats 0 ∅) _ _ t' counter_lawful (run_at_reachable 18)).
  - vm_compute. reflexivity.
  - vm_compute. reflexivity.
  - vm_compute. reflexivity.
  - replace t' with (fst (maybe_compact (ks_tree (ks_at 18)))) by (rewrite Hc; reflexivity). apply (bool_decide_unpack _). vm_compute. exact I.
  - cbv zeta. split; [|split]; [apply flush_check_ok; vm_compute; reflexivity..|vm_compute; reflexivity].
  - intros task Ht. apply fits_check_ok.
    assert (match choose_compaction (ks_version (ks_at 18)) (tc_compaction (t_config (ks_tree (ks_at 18)))) with
            | Ok (Some task) => fits_check (ks_tree (ks_at 18)) (t_zone_map_builder (ks_tree (ks_at 18))) task = true
            | _ => False
            end) as H by (vm_compute; reflexivity). rewrite Ht in H. exact H.
  - right. left. exists b. exact Hc.
Defined.

(** In the middle of the first flush: the older value is in a sealed memtable, the
    newer one in the active one. *)
Lemma get_at_newest_witness :
  get_at (ks_tree (ks_at 9)) [97] 3 = Ok (Some [1]) /\ get_at (ks_tree (ks_at 9)) [98] 9 = Ok None.
Proof.
  destruct (get_at_newest (ks_tree (ks_at 9)) [97] 3 (run_at_ok 9)) as (o & _ & H & _).
  destruct (get_at_newest (ks_tree (ks_at 9)) [98] 9 (run_at_ok 9)) as (o' & _ & H' & _).
  rewrite H, H'. split; [rewrite <- H|rewrite <- H']; vm_compute; reflexivity.
Defined.

Lemma scans_exact_witness :
  exists res, scan_all (ks_tree (ks_at 24)) = Ok res /\ map (fun e => (key e, value e)) res = [([97], [3]); ([99], [10]); ([100], [7])].
Proof.
  destruct (scans_exact (ks_tree (ks_at 24)) (run_at_ok 24)) as (_ & _ & _ & _ & res & H & _). exists res. split; [exact H|].
  assert (match scan_all (ks_tree (ks_at 24)) with
          | Ok r => map (fun e => (key e, value e)) r = [([97], [3]); ([99], [10]); ([100], [7])] | _ => False end) as E
    by (vm_compute; reflexivity). rewrite H in E. exact E.
Defined.

(** A major compaction of the two flushed tables. *)
Lemma major_compact_terminates_witness :
  exists fuel t' r, r <> Ok false /\ forall k, major_compact_with_observer (fuel + k) true (ks_tree (ks_at 18)) = (t', r).
Proof. apply (major_compact_terminates true (ks_tree (ks_at 18))); vm_compute; reflexivity. Defined.

Lemma major_compact_drains_witness :
  exists t', major_compact_with_observer 2 true (ks_tree (ks_at 18)) = (t', Ok true) /\ drained t' /\
    length (level (sv_version (t_current t')) 1) = 1%nat.
Proof.
  destruct (major_compact_with_observer 2 true (ks_tree (ks_at 18))) as [t' r] eqn:E.
  assert (r = Ok true) as Hr by (vm_compute in E; injection E as _ <-; reflexivity). subst r. exists t'. split; [reflexivity|].
  destruct (major_compact_drains 2 true (ks_tree (ks_at 18)) t' (Ok true) ltac:(vm_compute; reflexivity) E) as [H _]. split; [apply H; reflexivity|].
  replace t' with (fst (major_compact_with_observer 2 true (ks_tree (ks_at 18)))) by (rewrite E; reflexivity). vm_compute. reflexivity.
Defined.
