(* ===== verification/Engine.v ===== *)
(** * The storage engine (turba-engine/src/engine.rs, config.rs)

    Five trees, the write-ahead log, one counter of sequence numbers, and the
    flag that a failed fsync sets. The operations are those of [TurbaEngine] and
    of [WriteBatch]; an iteration of the background pruner is an operation too.
    The block cache, the I/O scheduler, wake-ups of background threads and the
    time-stamps are left out: they change no state the engine keeps. How writers
    and the sync thread interleave is in GroupCommit; here a commit waits for the
    fsync and is told its outcome. *)

From S2P Require Import Prelude Types Block JournalEntry Bloom Memtable Merge Streams TableMeta TableWriter.
From S2P Require Import TableReader Version Leveled Paths Wal Budget Worker Manifest Tree TreeRun.

(** ** Keyspaces *)

Definition KS_SPATIAL : Z := 0.
Definition KS_IDENTITY : Z := 1.
Definition KS_DICTIONARY : Z := 2.
Definition KS_GHOSTS : Z := 3.
Definition KS_VECTORS : Z := 4.

(** The five fields of the engine that hold one thing per keyspace. *)
Record Five (A : Type) := mkFive { spatial : A; identity : A; dictionary : A; ghosts : A; vectors : A }.
Arguments mkFive {A} _ _ _ _ _.
Arguments spatial {A} _.
Arguments identity {A} _.
Arguments dictionary {A} _.
Arguments ghosts {A} _.
Arguments vectors {A} _.

(** [trees] *)
Definition trees {A} (f : Five A) : list A := [spatial f; identity f; dictionary f; ghosts f; vectors f].

(** [tree_for_ks]; [None] is the panic. *)
Definition tree_for_ks {A} (f : Five A) (ks : Z) : option A :=
  if ks =? KS_SPATIAL then Some (spatial f)
  else if ks =? KS_IDENTITY then Some (identity f)
  else if ks =? KS_DICTIONARY then Some (dictionary f)
  else if ks =? KS_GHOSTS then Some (ghosts f)
  else if ks =? KS_VECTORS then Some (vectors f)
  else None.

(** An effect on the tree of a keyspace id; none on an unknown one. *)
Definition update_ks {A} (ks : Z) (g : A -> A) (f : Five A) : Five A :=
  if ks =? KS_SPATIAL then mkFive (g (spatial f)) (identity f) (dictionary f) (ghosts f) (vectors f)
  else if ks =? KS_IDENTITY then mkFive (spatial f) (g (identity f)) (dictionary f) (ghosts f) (vectors f)
  else if ks =? KS_DICTIONARY then mkFive (spatial f) (identity f) (g (dictionary f)) (ghosts f) (vectors f)
  else if ks =? KS_GHOSTS then mkFive (spatial f) (identity f) (dictionary f) (g (ghosts f)) (vectors f)
  else if ks =? KS_VECTORS then mkFive (spatial f) (identity f) (dictionary f) (ghosts f) (g (vectors f))
  else f.

Definition five_map {A B} (g : A -> B) (f : Five A) : Five B :=
  mkFive (g (spatial f)) (g (identity f)) (g (dictionary f)) (g (ghosts f)) (g (vectors f)).

(** A loop over keyspaces that stops at an error, or at a [false]. *)
Fixpoint for_ks {A} (kss : list Z) (m : ST A bool) : ST (Five A) bool :=
  match kss with
  | [] => mret true
  | ks :: rest => fun f =>
    match tree_for_ks f ks with
    | None => (f, Panic)
    | Some a =>
      let '(a', r) := m a in
      let f := update_ks ks (fun _ => a') f in
      match r with Ok true => for_ks rest m f | _ => (f, r) end
    end
  end.

Definition KEYSPACES : list Z := [KS_SPATIAL; KS_IDENTITY; KS_DICTIONARY; KS_GHOSTS; KS_VECTORS].

(** [for tree in self.trees() { ..? }] *)
Definition for_trees {A} (m : ST A unit) : ST (Five A) unit :=
  _ ← for_ks KEYSPACES (_ ← m; mret true); mret tt.

(** ** Configuration *)

Inductive IoSchedulerMode := IoSsd | IoHdd.

Record EngineConfig := mkEngineConfig {
  ec_cache_size_bytes : Z;
  ec_storage_profile : StorageProfile;
  ec_persist_mode : PersistMode;
  ec_io_scheduler : IoSchedulerMode;
  ec_l0_batch_override : option Z;
  ec_block_cache_lane_admission : bool;
  ec_wal_path : option bytes;
  ec_wal_segment_max_bytes : Z;
  ec_memory_budget_bytes : Z;
  ec_budget_source : BudgetSource;
}.

Definition EngineConfig_default : EngineConfig :=
  mkEngineConfig (256 * 1024 * 1024) Ssd Buffer IoSsd None true None DEFAULT_SEGMENT_MAX_BYTES DEFAULT_BUDGET_BYTES DefaultBudget.

Inductive KeyspaceKind := Spatial | Identity | Dictionary | Ghosts | Vectors.

(** The tuning table of [tree_config]: block size, memtable size, compression,
    bloom bits per key, compression of the levels. *)
Definition keyspace_tuning (profile : StorageProfile) (kind : KeyspaceKind)
    : Z * Z * CompressionType * f64 * list CompressionType :=
  let mb n := Z.shiftl n 20 in
  match profile, kind with
  | Ssd, Spatial => (32 * 1024, mb 32, Zstd 3, f64_of_uint 10, [Lz4; Lz4; Zstd 3])
  | Hdd, Spatial => (64 * 1024, mb 32, Zstd 3, f64_of_uint 14, [Lz4; Lz4; Zstd 3])
  | Ssd, Identity => (4 * 1024, mb 32, Lz4, f64_of_uint 10, [Lz4; Lz4])
  | Hdd, Identity => (16 * 1024, mb 16, Lz4, f64_of_uint 14, [Lz4; Lz4])
  | Ssd, Dictionary => (4 * 1024, mb 8, Lz4, f64_of_uint 10, [Lz4; Lz4])
  | Hdd, Dictionary => (8 * 1024, mb 8, Lz4, f64_of_uint 10, [Lz4; Lz4])
  | Ssd, Vectors => (4 * 1024, mb 8, CNone, f64_of_uint 10, [CNone; CNone])
  | Hdd, Vectors => (8 * 1024, mb 8, CNone, f64_of_uint 10, [CNone; CNone])
  | Ssd, Ghosts => (64 * 1024, mb 8, Zstd 3, f64_zero, [Lz4; Zstd 3])
  | Hdd, Ghosts => (256 * 1024, mb 8, Zstd 3, f64_zero, [Lz4; Zstd 3])
  end.

(** [env_bytes]: the variable parsed, zero and nonsense ignored. *)
Definition env_bytes (var : option bytes) : option Z :=
  n ← (var ≫= parse_u64); if 0 <? n then Some n else None.

(** [tree_config], given the variables [TURBA_TEST_MEMTABLE_BYTES] and
    [TURBA_GHOST_MEMTABLE_BYTES]. *)
Definition tree_config (test_env ghost_env : option bytes) (config : EngineConfig) (kind : KeyspaceKind) : TreeConfig :=
  let '(block_size, memtable_size, compression, bloom_bpk, level_comps) := keyspace_tuning (ec_storage_profile config) kind in
  let c := for_storage_profile (ec_storage_profile config) in
  let compaction :=
    match ec_l0_batch_override config with
    | Some n => mkLeveledConfig (max_l0_tables c) (base_size_bytes c) (size_ratio c) (target_table_size c)
                  (max_tables_per_level c) (enable_trivial_move c) n (max_compaction_amplification c)
    | None => c
    end in
  let memtable_size := scale_seal_size memtable_size (ec_memory_budget_bytes config) in
  let memtable_size := default memtable_size (env_bytes test_env) in
  let memtable_size := match kind with Ghosts => default memtable_size (env_bytes ghost_env) | _ => memtable_size end in
  mkTreeConfig (mkSSTableConfig block_size compression bloom_bpk (sc_restart_interval SSTableConfig_default))
    memtable_size compaction (Some level_comps).

(** ** The engine *)

(** A directory: the files and the manifest of each tree, and the files of the
    log's directory. *)
Record TreeFiles := mkTreeFiles { tf_files : gmap bytes bytes; tf_manifest : option bytes }.
Record DataDir := mkDataDir { dd_trees : Five TreeFiles; dd_wal : WalDir }.

Definition JOURNAL_FILE : bytes := str "journal.wal".

(** [path.file_name()]: what is after the last slash. *)
Fixpoint last_component (name path : bytes) : bytes :=
  match path with
  | [] => name
  | c :: rest => if c =? 47 then last_component [] rest else last_component (name ++ [c]) rest
  end.

Definition wal_file_name (config : EngineConfig) : bytes :=
  match ec_wal_path config with Some p => last_component [] p | None => JOURNAL_FILE end.

Record TurbaEngine {SM : SkipMap} := mkTurbaEngine {
  e_trees : Five Tree;
  e_recovered_from_wal : bool;
  e_journal : Wal;
  e_seqno : SeqNo;
  e_poisoned : bool;
  e_config : EngineConfig;
}.

(** ** Batches *)

Abbreviation WriteBatch := (list BatchItem).

Definition put (ks : Z) (key value : bytes) (b : WriteBatch) : WriteBatch := b ++ [mkBatchItem ks key value Value].
Definition put_spatial : bytes -> bytes -> WriteBatch -> WriteBatch := put KS_SPATIAL.
Definition put_identity : bytes -> bytes -> WriteBatch -> WriteBatch := put KS_IDENTITY.
Definition put_dictionary : bytes -> bytes -> WriteBatch -> WriteBatch := put KS_DICTIONARY.
Definition put_ghosts : bytes -> bytes -> WriteBatch -> WriteBatch := put KS_GHOSTS.
Definition put_vectors : bytes -> bytes -> WriteBatch -> WriteBatch := put KS_VECTORS.

Definition remove_ (ks : Z) (key : bytes) (b : WriteBatch) : WriteBatch := b ++ [mkBatchItem ks key [] Tombstone].
Definition remove_spatial : bytes -> WriteBatch -> WriteBatch := remove_ KS_SPATIAL.
Definition remove_identity : bytes -> WriteBatch -> WriteBatch := remove_ KS_IDENTITY.
Definition remove_dictionary : bytes -> WriteBatch -> WriteBatch := remove_ KS_DICTIONARY.
Definition remove_vectors : bytes -> WriteBatch -> WriteBatch := remove_ KS_VECTORS.

Section engine.
Context {XH : Xxh3} {CD : Codecs} {SM : SkipMap} {BH : BinaryHeap}.

Definition on_trees {A} (m : ST (Five Tree) A) : ST TurbaEngine A := fun e =>
  let '(f, r) := m (e_trees e) in
  (mkTurbaEngine SM f (e_recovered_from_wal e) (e_journal e) (e_seqno e) (e_poisoned e) (e_config e), r).

Definition on_journal {A} (m : ST Wal A) : ST TurbaEngine A := fun e =>
  let '(w, r) := m (e_journal e) in
  (mkTurbaEngine SM (e_trees e) (e_recovered_from_wal e) w (e_seqno e) (e_poisoned e) (e_config e), r).

Definition set_engine_seqno (s : SeqNo) (e : TurbaEngine) : TurbaEngine :=
  mkTurbaEngine SM (e_trees e) (e_recovered_from_wal e) (e_journal e) s (e_poisoned e) (e_config e).

Definition poison (e : TurbaEngine) : TurbaEngine :=
  mkTurbaEngine SM (e_trees e) (e_recovered_from_wal e) (e_journal e) (e_seqno e) true (e_config e).

(** [tree.flush_sealed()?] *)
Definition flush_sealed_ : ST Tree unit := _ ← flush_sealed; mret tt.

(** ** Commits *)

(** An item's insert into its tree. *)
Definition insert_item (seqno : SeqNo) (item : BatchItem) (t : Tree) : Tree :=
  insert_with_seqno (bi_key item) (bi_value item) seqno (bi_value_type item) t.

(** The inserts of a commit. *)
Fixpoint insert_items (seqno : SeqNo) (items : list BatchItem) : ST (Five Tree) unit :=
  match items with
  | [] => mret tt
  | item :: rest => fun f =>
    match tree_for_ks f (bi_keyspace_id item) with
    | None => (f, Panic)
    | Some _ => insert_items seqno rest (update_ks (bi_keyspace_id item) (insert_item seqno item) f)
    end
  end.

Definition maybe_trigger_flush (t : Tree) : Tree :=
  if tc_max_memtable_size (t_config t) <=? approximate_size (sv_active (t_current t)) then fst (seal_active t) else t.

(** The loop over the affected keyspaces; the outcome of [check_backpressure] is
    ignored. *)
Definition trigger_flushes (items : list BatchItem) (f : Five Tree) : Five Tree :=
  fold_left (fun f ks => if existsb (fun item => bi_keyspace_id item =? ks) items then update_ks ks maybe_trigger_flush f else f)
    KEYSPACES f.

(** A failed fsync of the sync thread: the buffer went to the file, the file is
    not synced, the log is poisoned, the waiting writer gets an error. *)
Definition failed_sync {A} : ST TurbaEngine A := fun e =>
  let e := poison (fst (on_journal (modify wal_flush) e)) in
  (e, Err (Corruption "WAL fsync failed before this write was durable; not acked")).

(** The log write of a commit, up to its acknowledgement. [sync_ok] is what the
    sync thread's fsync returned. *)
Definition log_batch (sync_ok : bool) (seqno : SeqNo) (items : list BatchItem) : ST TurbaEngine unit :=
  enabled ← gets (fun e => t_compaction_enabled (spatial (e_trees e)));
  if enabled : bool then
    mode ← gets (fun e => jw_persist_mode (w_writer (e_journal e)));
    match mode with
    | SyncData =>
      _ ← on_journal (write_batch_buffered seqno items);
      if sync_ok then on_journal wal_sync else failed_sync
    | Buffer => on_journal (write_batch seqno items)
    end
  else mret tt.

Definition commit (sync_ok : bool) (items : WriteBatch) : ST TurbaEngine SeqNo :=
  match items with
  | [] => mret 0
  | _ =>
    poisoned ← gets e_poisoned;
    if poisoned : bool then lift (Err (Corruption "WAL poisoned by a prior fsync failure; not durable - restart required")) else
    seqno ← gets (fun e => wrap64 (e_seqno e + 1));
    _ ← modify (set_engine_seqno seqno);
    _ ← log_batch sync_ok seqno items;
    _ ← on_trees (insert_items seqno items);
    _ ← on_trees (modify (trigger_flushes items));
    mret seqno
  end.

(** ** The log's watermark *)

Definition wal_prune_watermark (ts : list Tree) : SeqNo :=
  match map prune_watermark ts with
  | [] => 0
  | w :: ws => fold_left Z.min ws w
  end.

Definition prune_wal : ST TurbaEngine Z := fun e =>
  on_journal (prune (wal_prune_watermark (trees (e_trees e)))) e.

Definition checkpoint_flush_and_prune : ST TurbaEngine unit :=
  _ ← on_trees (for_trees checkpoint_flush);
  _ ← prune_wal;
  mret tt.

(** One iteration of the pruner thread; its errors are ignored. *)
Definition pruner_tick (wal_max : Z) (e : TurbaEngine) : TurbaEngine :=
  if (wal_max <? total_bytes (e_journal e)) && forallb t_compaction_enabled (trees (e_trees e))
  then fst (checkpoint_flush_and_prune e)
  else fst (prune_wal e).

(** [rotate_journal]: the ghosts are not looked at. *)
Definition rotate_journal : ST TurbaEngine unit := fun e =>
  let f := e_trees e in
  let watermark := wal_prune_watermark [spatial f; identity f; dictionary f; vectors f] in
  if watermark =? U64_MAX then on_journal (modify rotate) e
  else (e, Err (WalRotatePrecondition "a WAL-backed keyspace has acked writes not yet in an SSTable")).

(** ** Maintenance *)

(** [set_compaction_enabled] of the engine. *)
Definition engine_set_compaction_enabled (enabled : bool) : ST TurbaEngine unit :=
  on_trees (for_trees (modify (set_compaction_enabled enabled))).

(** [major_compact]: [false] is a tree whose compaction loop has used up the
    fuel. *)
Definition engine_major_compact (fuel : nat) : ST TurbaEngine bool :=
  done ← on_trees (for_ks KEYSPACES (
    _ ← modify (fun t => fst (seal_active t)); major_compact_with_observer fuel false));
  if done : bool then
    _ ← rotate_journal;
    _ ← engine_set_compaction_enabled true;
    mret true
  else mret false.

(** [persist]; [sync_ok] is what the fsync returned. *)
Definition persist (sync_ok : bool) : ST TurbaEngine unit := fun e =>
  if sync_ok then
    match on_journal wal_sync e with
    | (e, Ok _) => (e, Ok tt)
    | (e, Err x) => (poison e, Err x)
    | (e, Panic) => (e, Panic)
    end
  else (poison (fst (on_journal (modify wal_flush) e)), Err Io).

(** [shutdown], after the threads are joined: [bg] is what the final drains of a
    tree's flush and compaction threads leave. *)
Definition shutdown (bg : Tree -> Tree) : ST TurbaEngine unit :=
  _ ← on_journal wal_sync;
  _ ← on_trees (for_trees (modify bg));
  _ ← on_trees (for_trees (_ ← modify (fun t => fst (seal_active t)); flush_sealed_));
  durable ← gets (fun e => forallb t_compaction_enabled (trees (e_trees e)));
  if durable : bool then on_journal (modify rotate) else mret tt.

Definition global_memtable_bytes (e : TurbaEngine) : Z :=
  fold_left (fun n t => wrap64 (n + wrap64 (approximate_size (sv_active (t_current t)) +
    fold_left (fun n m => wrap64 (n + approximate_size m)) (sv_sealed (t_current t)) 0))) (trees (e_trees e)) 0.

(** ** Opening *)

(** The replay of the log; items of unknown keyspaces are skipped. *)
Definition replay (recovered : list RecoveredBatch) (f : Five Tree) : Five Tree :=
  fold_left (fun f batch =>
    fold_left (fun f item => update_ks (bi_keyspace_id item) (insert_item (rb_seqno batch) item) f) (rb_items batch) f) recovered f.

Definition open_tree (path name : bytes) (config : TreeConfig) (stats : OverlapStats) (files : TreeFiles) : Result Tree :=
  Tree_open (path_join path name) config (tf_files files) (tf_manifest files) stats.

(** [open_single_tier] up to the replay. *)
Definition open_trees (path : bytes) (cfg : KeyspaceKind -> TreeConfig) (stats : OverlapStats) (d : Five TreeFiles) : Result (Five Tree) :=
  t0 ← open_tree path (str "spatial") (cfg Spatial) stats (spatial d);
  t1 ← open_tree path (str "identity") (cfg Identity) stats (identity d);
  t2 ← open_tree path (str "dictionary") (cfg Dictionary) stats (dictionary d);
  t3 ← open_tree path (str "ghosts") (cfg Ghosts) stats (ghosts d);
  t4 ← open_tree path (str "vectors") (cfg Vectors) stats (vectors d);
  Ok (mkFive t0 t1 t2 t3 t4).

(** [open]: [locked] is that another process holds the lock of the directory. *)
Definition open (test_env ghost_env : option bytes) (locked : bool) (path : bytes) (config : EngineConfig)
    (stats : OverlapStats) (d : DataDir) : Result TurbaEngine :=
  if locked then Err (Config "data dir is already open by another process") else
  f ← open_trees path (tree_config test_env ghost_env config) stats (dd_trees d);
  let name := wal_file_name config in
  let recovered := recover_journal (dd_wal d) name in
  let max_seqno := fold_left (fun m b => Z.max m (rb_seqno b)) recovered 0 in
  let f := replay recovered f in
  let tree_max := fold_left (fun m t => Z.max m (t_seqno t)) (trees f) 0 in
  let recovered_from_wal := match recovered with [] => false | _ => true end in
  f ← (if recovered_from_wal
       then match for_trees (_ ← modify (fun t => fst (seal_active t)); flush_sealed_) f with
            | (f, Ok _) => Ok f
            | (_, Err e) => Err e
            | (_, Panic) => Panic
            end
       else Ok f);
  let journal := wal_create name (ec_persist_mode config) (ec_wal_segment_max_bytes config) (dd_wal d) in
  Ok (mkTurbaEngine SM f recovered_from_wal journal (Z.max max_seqno tree_max) false config).

End engine.
