(* ===== verification/EngineRun.v ===== *)
(** * Runs of the engine

    The five keyspaces and the log they share, as a transition system: a commit
    writes its batch to the log, waits for an fsync and inserts the items, while
    the keyspaces are maintained in any order, the pruner drops segments, and
    crashes cut the log anywhere after its last fsync. The invariant ties the log
    of each keyspace (TreeRun) to the batches in the files of the shared one
    (Wal). The mode is [SyncData]; one commit is in progress at a time. *)

From S2P Require Import Prelude Types Block JournalEntry Bloom Memtable Merge Streams TableMeta TableWriter.
From S2P Require Import TableReader Version Leveled Paths Wal Budget Worker Manifest Tree TreeReads TreeSteps.
From S2P Require Import TreeCompact TreeOpen TreeMajor TreeRun TreeTheorems Engine.

(** ** Five of a kind *)

Definition five_imap {A B} (g : Z -> A -> B) (f : Five A) : Five B :=
  mkFive (g KS_SPATIAL (spatial f)) (g KS_IDENTITY (identity f)) (g KS_DICTIONARY (dictionary f))
    (g KS_GHOSTS (ghosts f)) (g KS_VECTORS (vectors f)).

Ltac ks_cases := unfold tree_for_ks, update_ks, five_imap, five_map, KS_SPATIAL, KS_IDENTITY, KS_DICTIONARY, KS_GHOSTS, KS_VECTORS in *;
  repeat match goal with |- context [Z.eqb ?a ?b] => destruct (Z.eqb_spec a b); subst end.

Lemma ks_imap {A B} (g : Z -> A -> B) f ks : tree_for_ks (five_imap g f) ks = g ks <$> tree_for_ks f ks.
Proof. ks_cases; done. Qed.

Lemma ks_map {A B} (g : A -> B) f ks : tree_for_ks (five_map g f) ks = g <$> tree_for_ks f ks.
Proof. apply (ks_imap (fun _ => g)). Qed.

Lemma ks_update {A} (g : A -> A) f ks ks' :
  tree_for_ks (update_ks ks g f) ks' = if ks =? ks' then g <$> tree_for_ks f ks' else tree_for_ks f ks'.
Proof. ks_cases; cbn; try done; congruence. Qed.

Lemma five_ext {A} (f f' : Five A) : (forall ks, tree_for_ks f ks = tree_for_ks f' ks) -> f = f'.
Proof.
  intros H. pose proof (H 0). pose proof (H 1). pose proof (H 2). pose proof (H 3). pose proof (H 4). cbn in *.
  destruct f, f'; cbn in *. congruence.
Qed.

Lemma ks_total {A B} (f : Five A) (f' : Five B) ks : is_Some (tree_for_ks f ks) <-> is_Some (tree_for_ks f' ks).
Proof. ks_cases; split; intros [? H]; inversion H; eauto. Qed.

Lemma ks_trees {A} (f : Five A) ks a : tree_for_ks f ks = Some a -> a ∈ trees f.
Proof. ks_cases; intros [= <-]; unfold trees; repeat constructor. Qed.

(** ** The batches of a keyspace *)

Definition item_entry (sq : SeqNo) (it : BatchItem) : Entry := mkEntry (bi_key it) (bi_value it) sq (bi_value_type it).

Definition ks_items (ks : Z) (b : RecoveredBatch) : list Entry :=
  item_entry (rb_seqno b) <$> filter (fun it => bi_keyspace_id it = ks) (rb_items b).

Definition ks_log (ks : Z) (bs : list RecoveredBatch) : list Entry := bs ≫= ks_items ks.

Lemma ks_log_app ks a b : ks_log ks (a ++ b) = ks_log ks a ++ ks_log ks b.
Proof. apply bind_app. Qed.

Lemma ks_log_one ks b : ks_log ks [b] = ks_items ks b.
Proof. unfold ks_log. cbn. apply app_nil_r. Qed.

Lemma ks_log_in ks bs e : e ∈ ks_log ks bs -> exists b, b ∈ bs /\ seqno e = rb_seqno b.
Proof.
  unfold ks_log. rewrite list_elem_of_bind. intros (b & He & Hb). exists b. split; [done|].
  unfold ks_items in He. apply list_elem_of_fmap in He as (it & -> & _). done.
Qed.

(** A batch as the writers make them: known keyspaces, each key once, bytes. *)
Record batch_wf (b : RecoveredBatch) : Prop := {
  bw_ok : batch_ok b;
  bw_ks : Forall (fun it => is_Some (tree_for_ks (mkFive tt tt tt tt tt) (bi_keyspace_id it))) (rb_items b);
  bw_keys ks : NoDup (key <$> ks_items ks b);
  bw_entries ks : Forall entry_ok (ks_items ks b);
}.

Section run.
Context {XH : Xxh3} {CD : Codecs} {SM : SkipMap} {BH : BinaryHeap}.

(** ** States and steps *)

Record Db := mkDb {
  db_ks : Five Keyspace;
  db_wal : Wal;
  db_seqno : SeqNo;
  db_pending : option (RecoveredBatch * bool);
  db_recovering : bool;
}.

(** The batches the log holds: what a sync would make durable. *)
Definition wal_batches (w : Wal) : list RecoveredBatch :=
  recover_journal (w_dir (sync_data (wal_flush w))) (jw_name (w_writer w)).

(** A batch inserted into a keyspace, with the keyspace's share of the log. *)
Definition apply_batch (b : RecoveredBatch) (ks : Z) (k : Keyspace) : Keyspace :=
  mkKeyspace (fold_left (fun t e => write_entry e t) (ks_items ks b) (ks_tree k)) (ks_flush k) (ks_compact k)
    (ks_wal k ++ ks_items ks b) false.

Definition set_ks_wal (wal : list Entry) (recovering : bool) (k : Keyspace) : Keyspace :=
  mkKeyspace (ks_tree k) (ks_flush k) (ks_compact k) wal recovering.

(** The batch in progress, if it is among the recovered ones. *)
Definition surfaced (pending : option (RecoveredBatch * bool)) (recovered : list RecoveredBatch) : list RecoveredBatch :=
  match pending with
  | Some (b, _) => if existsb (fun r => rb_seqno r =? rb_seqno b) recovered then [b] else []
  | None => []
  end.

(** The batches of the log without the one in progress. *)
Definition settled (pending : option (RecoveredBatch * bool)) (bs : list RecoveredBatch) : list RecoveredBatch :=
  match pending with
  | Some (b, _) => List.filter (fun r => negb (rb_seqno r =? rb_seqno b)) bs
  | None => bs
  end.

(** The sequence number [open] starts from. *)
Definition start_seqno (recovered : list RecoveredBatch) (ts : list Tree) : SeqNo :=
  Z.max (fold_left (fun m b => Z.max m (rb_seqno b)) recovered 0) (fold_left (fun m t => Z.max m (t_seqno t)) ts 0).

(** The items of a batch are operands where a merge operator owns their key. *)
Definition batch_valid (f : Five Keyspace) (b : RecoveredBatch) : Prop :=
  forall ks k, tree_for_ks f ks = Some k -> Forall (entry_valid (t_merge_operator (ks_tree k))) (ks_items ks b).

(** A step, with the batches it acknowledges. *)
Inductive db_step : Db -> list RecoveredBatch -> Db -> Prop :=
  (** A commit: the batch goes to the log, ... *)
  | db_log d b w' :
      db_recovering d = false -> db_pending d = None -> batch_wf b -> batch_valid (db_ks d) b -> rb_seqno b = db_seqno d + 1 ->
      write_batch_buffered (rb_seqno b) (rb_items b) (db_wal d) = (w', Ok tt) ->
      db_step d [] (mkDb (db_ks d) w' (rb_seqno b) (Some (b, false)) false)
  (** ... the sync thread (or anyone) syncs the log, ... *)
  | db_sync d w' :
      db_recovering d = false -> wal_sync (db_wal d) = (w', Ok tt) ->
      db_step d [] (mkDb (db_ks d) w' (db_seqno d) ((fun p => (p.1, true)) <$> db_pending d) false)
  (** ... and the items go to the memtables. *)
  | db_apply d b :
      db_recovering d = false -> db_pending d = Some (b, true) ->
      db_step d [b] (mkDb (five_imap (apply_batch b) (db_ks d)) (db_wal d) (db_seqno d) None false)
  (** A step of one keyspace that leaves the log and the counter alone: seals,
      flushes, compactions, checkpoints, sweeps. *)
  | db_maintain d ks k k' :
      tree_for_ks (db_ks d) ks = Some k -> step k [] k' -> ks_wal k' = ks_wal k -> ks_recovering k' = ks_recovering k ->
      t_seqno (ks_tree k') = t_seqno (ks_tree k) ->
      db_step d [] (mkDb (update_ks ks (fun _ => k') (db_ks d)) (db_wal d) (db_seqno d) (db_pending d) (db_recovering d))
  (** The pruner, at any time, also while a commit is in progress; but not when it
      drops the batch of that commit, which the memtables do not show yet (it does so
      in [prune_window]). *)
  | db_prune d w' n :
      db_recovering d = false ->
      prune (wal_prune_watermark (ks_tree <$> trees (db_ks d))) (db_wal d) = (w', Ok n) ->
      (forall b syn, db_pending d = Some (b, syn) -> b ∈ wal_batches w') ->
      db_step d [] (mkDb (five_imap (fun ks => set_ks_wal (ks_log ks (settled (db_pending d) (wal_batches w'))) false) (db_ks d)) w' (db_seqno d) (db_pending d) false)
  (** The rotation of the log, between commits, by its guard; no ghosts in the log. *)
  | db_rotate d :
      db_recovering d = false -> db_pending d = None ->
      (let f := db_ks d in wal_prune_watermark (ks_tree <$> [spatial f; identity f; dictionary f; vectors f]) = U64_MAX) ->
      ks_wal (ghosts (db_ks d)) = [] ->
      db_step d [] (mkDb (five_imap (fun _ => set_ks_wal [] false) (db_ks d)) (rotate (db_wal d)) (db_seqno d) None false)
  (** A crash, and the replay of what is left of the log. *)
  | db_crash d files stats ts :
      crash_dir (w_dir (db_wal d)) files ->
      let recovered := recover_journal files (jw_name (w_writer (db_wal d))) in
      (forall ks k, tree_for_ks (db_ks d) ks = Some k ->
         (exists t, tree_for_ks ts ks = Some t /\ reopen stats (ks_tree k) (ks_log ks recovered) = Ok t) /\
         forall e, e ∈ ks_wal k -> owned (t_merge_operator (ks_tree k)) (key e) = true -> e ∈ mem_contents (t_current (ks_tree k))) ->
      db_step d (surfaced (db_pending d) recovered)
        (mkDb (five_imap (fun ks t => mkKeyspace t None None (ks_log ks recovered) true) ts) (mkWal files (w_writer (db_wal d)))
           (start_seqno recovered (trees ts)) None true)
  (** The end of recovery: all is flushed, a new log starts. *)
  | db_recovered d :
      db_recovering d = true ->
      (forall ks k, tree_for_ks (db_ks d) ks = Some k -> ks_flush k = None /\
         Memtable_iter (sv_active (t_current (ks_tree k))) = [] /\ sv_sealed (t_current (ks_tree k)) = []) ->
      let j := w_writer (db_wal d) in
      db_step d [] (mkDb (five_imap (fun _ => set_ks_wal [] false) (db_ks d))
        (wal_create (jw_name j) (jw_persist_mode j) (jw_segment_max_bytes j) (w_dir (db_wal d))) (db_seqno d) None false).

Inductive db_reachable (start : Db) : list RecoveredBatch -> Db -> Prop :=
  | db_start : db_reachable start [] start
  | db_next hist d bs d' : db_reachable start hist d -> db_step d bs d' -> db_reachable start (hist ++ bs) d'.

(** An empty database. *)
Definition fresh_db (dirs : Five bytes) (cfgs : Five TreeConfig) (mo : option MergeOperator) (stats : OverlapStats)
    (name : bytes) (limit : Z) : Db :=
  mkDb (five_imap (fun ks dir => fresh_keyspace dir (default TreeConfig_default (tree_for_ks cfgs ks)) None
    (if ks =? KS_DICTIONARY then mo else None) stats) dirs) (wal_create name SyncData limit ∅) 0 None false.

(** ** The invariant *)

Definition pending_batches (p : option (RecoveredBatch * bool)) : list RecoveredBatch :=
  match p with Some (b, _) => [b] | None => [] end.

(** While the engine runs, the log holds the batches of the keyspaces' logs and
    the one in progress, and all but that one is synced. *)
Record running_inv (d : Db) (segs : list (list RecoveredBatch)) (act : list RecoveredBatch) (n : nat)
    (base : list RecoveredBatch) : Prop := {
  ru_wal : wal_inv (db_wal d) segs act n;
  ru_n : (n <= length act)%nat;
  ru_base : concat segs ++ act = base ++ pending_batches (db_pending d);
  ru_ks ks k : tree_for_ks (db_ks d) ks = Some k -> ks_wal k = ks_log ks base;
  ru_order : StronglySorted (fun a b => rb_seqno a < rb_seqno b) (concat segs ++ act);
  ru_seqno : Forall (fun b => rb_seqno b <= db_seqno d) (concat segs ++ act) /\ jw_active_max_seqno (w_writer (db_wal d)) <= db_seqno d;
  ru_pending : match db_pending d with
    | None => n = length act
    | Some (b, synced) => batch_wf b /\ rb_seqno b = db_seqno d /\
      (forall ks k, tree_for_ks (db_ks d) ks = Some k ->
         t_seqno (ks_tree k) < rb_seqno b /\ Forall (entry_valid (t_merge_operator (ks_tree k))) (ks_items ks b)) /\
      if synced : bool then n = length act else exists act0, act = act0 ++ [b] /\ (length act0 <= n)%nat
    end;
}.

(** During recovery the files do not change. *)
Definition recovering_inv (d : Db) : Prop :=
  db_pending d = None /\ (forall name f, w_dir (db_wal d) !! name = Some f -> wf_synced f = blen (wf_data f)) /\
  forall ks k, tree_for_ks (db_ks d) ks = Some k -> ks_wal k = ks_log ks (recover_journal (w_dir (db_wal d)) (jw_name (w_writer (db_wal d)))).

Record db_inv (start : Five Keyspace) (hist : list RecoveredBatch) (d : Db) : Prop := {
  dv_ks ks k0 k : tree_for_ks start ks = Some k0 -> tree_for_ks (db_ks d) ks = Some k ->
    reachable k0 (ks_log ks hist) k /\ ks_recovering k = db_recovering d /\ t_seqno (ks_tree k) <= db_seqno d;
  dv_writer : segment_id (jw_name (w_writer (db_wal d))) = None /\ 0 < jw_segment_max_bytes (w_writer (db_wal d)) /\ 0 <= db_seqno d;
  dv_log : if db_recovering d then recovering_inv d else exists segs act n base, running_inv d segs act n base;
}.

(** * Lemmas *)

(** ** The log's contents *)

(** A crash of files that are all synced changes nothing. *)
Lemma crash_dir_synced d d' : (forall name f, d !! name = Some f -> wf_synced f = blen (wf_data f)) -> crash_dir d d' -> d' = d.
Proof.
  intros H Hc. apply map_eq. intros name. specialize (Hc name). destruct (d !! name) as [f|] eqn:E; [|done].
  destruct Hc as (n & Hn & ->). specialize (H name f E). assert (n = blen (wf_data f)) as -> by lia.
  unfold blen in *. rewrite Nat2Z.id, firstn_all. destruct f; cbn in *. by rewrite H.
Qed.

Lemma crash_dir_all_synced d d' name f : crash_dir d d' -> d' !! name = Some f -> wf_synced f = blen (wf_data f).
Proof.
  intros Hc Hf. specialize (Hc name). destruct (d !! name) as [g|] eqn:E; [|cbn in Hc; congruence].
  destruct Hc as (n & Hn & E'). rewrite E' in Hf. injection Hf as <-. cbn. unfold blen in *. rewrite length_take. lia.
Qed.

Lemma wal_batches_inv w segs act n : wal_inv w segs act n -> wal_batches w = concat segs ++ act.
Proof.
  intros Hi. destruct (flush_sync_inv _ _ _ _ Hi) as (Hi' & Hb & _). exact (recover_synced _ _ _ Hi' Hb).
Qed.

(** ** A batch in a keyspace *)

Lemma active_after e t :
  (forall x, x ∈ Memtable_iter (sv_active (t_current t)) -> ~ (key x = key e /\ seqno x = seqno e)) ->
  Memtable_iter (sv_active (t_current (write_entry e t))) ≡ₚ e :: Memtable_iter (sv_active (t_current t)).
Proof.
  intros H. destruct (write_entry_fields e t) as (Ec & _). rewrite Ec. cbn [sv_active]. rewrite Memtable_insert_perm by done. by destruct e.
Qed.

(** The items of a batch, one after the other, are writes of the keyspace: after
    the first one they follow it. *)
Lemma items_run es k s done' :
  ks_recovering k = false -> Forall entry_ok es -> Forall (entry_valid (t_merge_operator (ks_tree k))) es -> Forall (fun e => seqno e = s) es -> NoDup (key <$> done' ++ es) ->
  t_seqno (ks_tree k) <= s ->
  (if done' is [] then t_seqno (ks_tree k) < s else t_seqno (ks_tree k) = s) ->
  (forall x, x ∈ Memtable_iter (sv_active (t_current (ks_tree k))) -> seqno x = s -> x ∈ done') ->
  (forall x, x ∈ done' -> x ∈ Memtable_iter (sv_active (t_current (ks_tree k))) /\ seqno x = s) ->
  reachable k es (mkKeyspace (fold_left (fun t e => write_entry e t) es (ks_tree k)) (ks_flush k) (ks_compact k) (ks_wal k ++ es) false).
Proof.
  revert k done'; induction es as [|e es IH]; intros k dn Hr Hok Hv Hs Hnd Hle Ht Hact Hdn.
  { cbn [fold_left]. rewrite app_nil_r, <- Hr, keyspace_eta. apply reach_start. }
  apply Forall_cons in Hok as [He Hok]. apply Forall_cons in Hv as [Hve Hv]. apply Forall_cons in Hs as [Hse Hs]. cbn [fold_left].
  assert (forall x, x ∈ dn -> key x <> key e) as Hne.
  { intros x Hx E. rewrite fmap_app, NoDup_app in Hnd. destruct Hnd as (_ & Hnd & _). apply (Hnd (key x)); [by apply list_elem_of_fmap_2|].
    rewrite E. cbn. by left. }
  assert (follows (ks_tree k) e) as Hf.
  { destruct dn as [|x dn]; [left; lia|right]. split; [lia|]. split.
    - exists x. destruct (Hdn x ltac:(by left)). split; [done|lia].
    - intros y Hy Hys. apply Hne, Hact; [done|lia]. }
  set (k1 := mkKeyspace (write_entry e (ks_tree k)) (ks_flush k) (ks_compact k) (ks_wal k ++ [e]) false).
  assert (reachable k [e] k1) as H1 by (apply reachable_one; by apply step_write).
  assert (Memtable_iter (sv_active (t_current (write_entry e (ks_tree k)))) ≡ₚ e :: Memtable_iter (sv_active (t_current (ks_tree k)))) as Hp.
  { apply active_after. intros x Hx [Hk Hq]. apply (Hne x); [|done]. apply Hact; [done|lia]. }
  destruct (write_entry_fields e (ks_tree k)) as (_ & Es & _ & _ & _ & Emo & _).
  assert (reachable k1 es (mkKeyspace (fold_left (fun t e => write_entry e t) es (write_entry e (ks_tree k))) (ks_flush k) (ks_compact k)
    ((ks_wal k ++ [e]) ++ es) false)) as H2.
  { apply (IH k1 (dn ++ [e])); cbn [ks_tree k1 ks_recovering]; try done.
    - by rewrite <- app_assoc.
    - rewrite Es. lia.
    - destruct dn; cbn [app]; rewrite Es; lia.
    - intros x Hx Hq. rewrite Hp in Hx. rewrite elem_of_app, list_elem_of_singleton. apply elem_of_cons in Hx as [->|Hx]; [by right|left; auto].
    - intros x. rewrite elem_of_app, list_elem_of_singleton, Hp, elem_of_cons. intros [Hx| ->]; [|auto]. destruct (Hdn x Hx). auto. }
  pose proof (reachable_trans _ _ _ _ _ H1 H2) as H. by rewrite <- app_assoc in H.
Qed.

Lemma apply_batch_run b ks k hist g :
  ks_inv k hist g -> ks_recovering k = false -> batch_wf b -> Forall (entry_valid (t_merge_operator (ks_tree k))) (ks_items ks b) ->
  t_seqno (ks_tree k) < rb_seqno b -> reachable k (ks_items ks b) (apply_batch b ks k).
Proof.
  intros Hi Hr [_ _ Hk He] Hv Hs. apply (items_run _ _ (rb_seqno b) []); [done|apply He|done| |apply Hk|lia|done| |by intros ? ?%elem_of_nil].
  - apply Forall_forall. intros e (it & -> & _)%list_elem_of_fmap. done.
  - intros x Hx E. exfalso. assert (x ∈ mem_contents (t_current (ks_tree k))) as Hm.
    { unfold mem_contents, memtables. cbn. rewrite elem_of_app. by left. }
    apply (mem_in_hist _ _ _ (ki_hist _ _ _ Hi)) in Hm. destruct (hi_entries _ _ _ (ki_hist _ _ _ Hi) x Hm) as [_ ?]. lia.
Qed.

Lemma fold_write_seqno es t : t_seqno (fold_left (fun t e => write_entry e t) es t) = fold_left (fun m e => Z.max m (seqno e)) es (t_seqno t).
Proof.
  revert t; induction es as [|e es IH]; intros t; [done|]. cbn [fold_left]. rewrite IH. by destruct (write_entry_fields e t) as (_ & -> & _).
Qed.

Lemma fold_max_le (es : list Entry) m s : m <= s -> Forall (fun e => seqno e <= s) es -> fold_left (fun m e => Z.max m (seqno e)) es m <= s.
Proof.
  revert m; induction es as [|e es IH]; intros m Hm H; [done|]. apply Forall_cons in H as [He H]. cbn [fold_left]. apply IH; [lia|done].
Qed.

Lemma ks_items_seqno ks b : Forall (fun e => seqno e = rb_seqno b) (ks_items ks b).
Proof. apply Forall_forall. intros e (it & -> & _)%list_elem_of_fmap. done. Qed.

(** What a batch leaves of a keyspace. *)
Lemma apply_batch_seqno b ks k : t_seqno (ks_tree k) <= rb_seqno b -> t_seqno (ks_tree (apply_batch b ks k)) <= rb_seqno b.
Proof.
  intros Hs. cbn [apply_batch ks_tree]. rewrite fold_write_seqno. apply fold_max_le; [done|].
  eapply Forall_impl; [apply ks_items_seqno|]. cbn. lia.
Qed.

Lemma reopen_write stats es t wal : reopen stats (fold_left (fun t e => write_entry e t) es t) wal = reopen stats t wal.
Proof.
  revert t; induction es as [|e es IH]; intros t; [done|]. cbn [fold_left]. rewrite IH.
  unfold write_entry, insert_with_seqno. cbv zeta. by destruct (Memtable_insert _ _ _ _ _).
Qed.

Lemma fold_write_mem es t :
  NoDup (key <$> es) -> (forall x e, x ∈ Memtable_iter (sv_active (t_current t)) -> e ∈ es -> ~ (key x = key e /\ seqno x = seqno e)) ->
  let t' := fold_left (fun t e => write_entry e t) es t in
  Memtable_iter (sv_active (t_current t')) ≡ₚ es ++ Memtable_iter (sv_active (t_current t)) /\ sv_sealed (t_current t') = sv_sealed (t_current t).
Proof.
  revert t; induction es as [|e es IH]; intros t Hnd Hne; [done|]. cbn [fold_left]. rewrite fmap_cons in Hnd. apply NoDup_cons in Hnd as [Hni Hnd].
  assert (Memtable_iter (sv_active (t_current (write_entry e t))) ≡ₚ e :: Memtable_iter (sv_active (t_current t))) as Hp.
  { apply active_after. intros x Hx. apply Hne; [done|by left]. }
  destruct (write_entry_fields e t) as (Ec & _). destruct (IH (write_entry e t) Hnd) as [Hm Hs].
  - intros x e' Hx He'. rewrite Hp in Hx. apply elem_of_cons in Hx as [->|Hx]; [|apply Hne; [done|by right]].
    intros [Hk _]. apply Hni. rewrite Hk. by apply list_elem_of_fmap_2.
  - split; [rewrite Hm, Hp; symmetry; apply Permutation_middle|]. rewrite Hs, Ec. done.
Qed.

(** After its inserts a batch is in memory. *)
Lemma apply_batch_mem b ks k hist g e :
  ks_inv k hist g -> batch_wf b -> t_seqno (ks_tree k) < rb_seqno b ->
  e ∈ mem_contents (t_current (ks_tree k)) \/ e ∈ ks_items ks b -> e ∈ mem_contents (t_current (ks_tree (apply_batch b ks k))).
Proof.
  intros Hi [_ _ Hk _] Hs He. destruct (fold_write_mem (ks_items ks b) (ks_tree k) (Hk ks)) as [Hm Hse].
  { intros x y Hx Hy [_ Hq]. assert (x ∈ mem_contents (t_current (ks_tree k))) as Hxm.
    { unfold mem_contents, memtables. cbn. rewrite elem_of_app. by left. }
    apply (mem_in_hist _ _ _ (ki_hist _ _ _ Hi)) in Hxm. destruct (hi_entries _ _ _ (ki_hist _ _ _ Hi) x Hxm) as [_ ?].
    pose proof (ks_items_seqno ks b) as Hsq. rewrite Forall_forall in Hsq. specialize (Hsq y Hy). lia. }
  unfold mem_contents, memtables in *. cbn [apply_batch ks_tree fmap list_fmap concat] in *. rewrite Hse, elem_of_app, Hm, elem_of_app.
  rewrite elem_of_app in He. tauto.
Qed.

(** ** The watermark *)

Lemma fold_min_le (l : list Z) m : fold_left Z.min l m <= m /\ forall x, x ∈ l -> fold_left Z.min l m <= x.
Proof.
  revert m; induction l as [|y l IH]; intros m; cbn [fold_left]; [split; [lia|by intros ? ?%elem_of_nil]|].
  destruct (IH (Z.min m y)) as [H1 H2]. split; [lia|]. intros x [->|Hx]%elem_of_cons; [lia|auto].
Qed.

Lemma watermark_le ts t : t ∈ ts -> wal_prune_watermark ts <= prune_watermark t.
Proof.
  intros Ht. unfold wal_prune_watermark. destruct ts as [|t0 ts]; [by apply elem_of_nil in Ht|]. cbn [map].
  destruct (fold_min_le (map prune_watermark ts) (prune_watermark t0)) as [H1 H2].
  apply elem_of_cons in Ht as [->|Ht]; [done|]. apply H2. by apply list_elem_of_fmap_2.
Qed.

(** ** Every step keeps the invariant *)

Section steps.
Context (start : Five Keyspace).
Hypothesis Hstart : forall ks k0, tree_for_ks start ks = Some k0 -> exists g, ks_inv k0 [] g.

Lemma start_of {A} (f : Five A) ks a : tree_for_ks f ks = Some a -> exists k0, tree_for_ks start ks = Some k0.
Proof. intros H. apply (ks_total f). eauto. Qed.

Lemma db_ks_inv hist d ks k : db_inv start hist d -> tree_for_ks (db_ks d) ks = Some k -> exists g, ks_inv k (ks_log ks hist) g.
Proof.
  intros Hi Hk. destruct (start_of _ _ _ Hk) as [k0 H0]. eapply reachable_inv; [by eapply Hstart|]. by apply (dv_ks _ _ _ Hi).
Qed.

(** A step that touches only the log. *)
Lemma db_inv_wal hist d w sq p :
  db_inv start hist d -> db_recovering d = false -> fixed (w_writer w) = fixed (w_writer (db_wal d)) -> db_seqno d <= sq ->
  (exists segs act n base, running_inv (mkDb (db_ks d) w sq p false) segs act n base) ->
  db_inv start hist (mkDb (db_ks d) w sq p false).
Proof.
  intros [H1 (H2 & H3 & H4) _] Hr Hf Hs Hlog. injection Hf as En _. pose proof Hlog as (segs & act & n & base & Hru).
  split; cbn [db_ks db_wal db_seqno db_recovering]; [|split; [|split]|].
  - intros ks k0 k Hk0 Hk. destruct (H1 ks k0 k Hk0 Hk) as (? & Hrec & ?). rewrite Hr in Hrec. split; [done|]. split; [done|lia].
  - by rewrite En.
  - apply (wi_limit _ _ _ _ (ru_wal _ _ _ _ _ Hru)).
  - lia.
  - done.
Qed.

Lemma db_log_inv hist d b w' :
  db_inv start hist d -> db_recovering d = false -> db_pending d = None -> batch_wf b -> batch_valid (db_ks d) b -> rb_seqno b = db_seqno d + 1 ->
  write_batch_buffered (rb_seqno b) (rb_items b) (db_wal d) = (w', Ok tt) ->
  db_inv start hist (mkDb (db_ks d) w' (rb_seqno b) (Some (b, false)) false).
Proof.
  intros Hi Hr Hp Hb Hbv Hq Hw. pose proof (dv_log _ _ _ Hi) as Hl. rewrite Hr in Hl. destruct Hl as (segs & act & n & base & []).
  rewrite Hp in *. cbn [pending_batches] in ru_base0. rewrite app_nil_r in ru_base0. destruct ru_seqno0 as [Hall Hmax].
  destruct (write_batch_inv _ _ _ _ b ru_wal0 ru_n0 (bw_ok _ Hb)) as (w1 & Hw1 & Hi1 & Hf & Hm); [lia|].
  rewrite Hw in Hw1. injection Hw1 as <-. apply db_inv_wal; [done|done|done|lia|].
  exists segs, (act ++ [b]), n, base. split; cbn [db_wal db_pending db_ks db_seqno pending_batches]; rewrite ?length_app; try done.
  - lia.
  - by rewrite app_assoc, ru_base0.
  - rewrite app_assoc. apply StronglySorted_app_2; [|done|repeat constructor]. intros x y Hx ->%list_elem_of_singleton.
    rewrite Forall_forall in Hall. specialize (Hall x Hx). lia.
  - rewrite app_assoc. split; [|lia]. apply Forall_app. split; [|by apply Forall_singleton]. eapply Forall_impl; [exact Hall|]. cbn. lia.
  - split; [done|]. split; [done|]. split; [|exists act; split; [done|lia]]. intros ks k Hk. destruct (start_of _ _ _ Hk) as [k0 H0].
    destruct (dv_ks _ _ _ Hi ks k0 k H0 Hk) as (_ & _ & ?). split; [lia|]. by apply Hbv.
Qed.

Lemma db_sync_inv hist d w' :
  db_inv start hist d -> db_recovering d = false -> wal_sync (db_wal d) = (w', Ok tt) ->
  db_inv start hist (mkDb (db_ks d) w' (db_seqno d) ((fun p => (p.1, true)) <$> db_pending d) false).
Proof.
  intros Hi Hr Hw. pose proof (dv_log _ _ _ Hi) as Hl. rewrite Hr in Hl. destruct Hl as (segs & act & n & base & []).
  destruct (sync_inv _ _ _ _ ru_wal0) as (w1 & segs' & act' & Hw1 & Hi1 & Ec & Hf & Hm). rewrite Hw in Hw1. injection Hw1 as <-.
  apply db_inv_wal; [done|done|done|lia|]. exists segs', act', (length act'), base.
  assert (pending_batches ((fun p => (p.1, true)) <$> db_pending d) = pending_batches (db_pending d)) as Ep by (by destruct (db_pending d) as [[]|]).
  split; cbn [db_wal db_pending db_ks db_seqno]; rewrite ?Ec, ?Ep; try done.
  - by rewrite Hm.
  - destruct (db_pending d) as [[b syn]|]; [|done]. cbn. destruct ru_pending0 as (? & ? & ? & _). done.
Qed.

Lemma db_apply_inv hist d b :
  db_inv start hist d -> db_recovering d = false -> db_pending d = Some (b, true) ->
  db_inv start (hist ++ [b]) (mkDb (five_imap (apply_batch b) (db_ks d)) (db_wal d) (db_seqno d) None false).
Proof.
  intros Hi Hr Hp. pose proof (dv_log _ _ _ Hi) as Hl. rewrite Hr in Hl. destruct Hl as (segs & act & n & base & []).
  rewrite Hp in *. cbn [pending_batches] in ru_base0. destruct ru_pending0 as (Hb & Hq & Hlt & Hn).
  split; cbn [db_ks db_wal db_seqno db_recovering]; [|apply (dv_writer _ _ _ Hi)|].
  - intros ks k0 k Hk0. rewrite ks_imap. intros (k1 & Hk1 & ->)%fmap_Some_1.
    destruct (dv_ks _ _ _ Hi ks k0 k1 Hk0 Hk1) as (Hre & Hrec & Hle). destruct (db_ks_inv _ _ _ _ Hi Hk1) as [g Hg].
    rewrite Hr in Hrec. destruct (Hlt ks k1 Hk1) as [Hlt1 Hv1]. split; [|split; [done|]].
    + rewrite ks_log_app, ks_log_one. eapply reachable_trans; [done|]. by eapply apply_batch_run.
    + rewrite <- Hq. apply apply_batch_seqno. lia.
  - exists segs, act, n, (base ++ [b]). split; cbn [db_wal db_pending db_ks db_seqno pending_batches]; rewrite ?app_nil_r; try done.
    intros ks k. rewrite ks_imap. intros (k1 & Hk1 & ->)%fmap_Some_1. cbn [apply_batch ks_wal]. rewrite (ru_ks0 ks k1 Hk1), ks_log_app, ks_log_one. done.
Qed.

Lemma db_maintain_inv hist d ks k k' :
  db_inv start hist d -> tree_for_ks (db_ks d) ks = Some k -> step k [] k' -> ks_wal k' = ks_wal k -> ks_recovering k' = ks_recovering k ->
  t_seqno (ks_tree k') = t_seqno (ks_tree k) ->
  db_inv start hist (mkDb (update_ks ks (fun _ => k') (db_ks d)) (db_wal d) (db_seqno d) (db_pending d) (db_recovering d)).
Proof.
  intros Hi Hk Hst Hw Hrc Hq.
  assert (forall ks2 k2, tree_for_ks (update_ks ks (fun _ => k') (db_ks d)) ks2 = Some k2 ->
    exists k1, tree_for_ks (db_ks d) ks2 = Some k1 /\ (k2 = k1 \/ k1 = k /\ k2 = k')) as Hup.
  { intros ks2 k2. rewrite ks_update. destruct (Z.eqb_spec ks ks2); [subst; rewrite Hk; intros [= <-]; eauto|eauto]. }
  split; cbn [db_ks db_wal db_seqno db_recovering]; [|apply (dv_writer _ _ _ Hi)|].
  - intros ks2 k0 k2 Hk0 (k1 & Hk1 & Hor)%Hup. destruct (dv_ks _ _ _ Hi ks2 k0 k1 Hk0 Hk1) as (Hre & Hrec & Hle).
    destruct Hor as [->|[-> ->]]; [done|]. rewrite Hrc, Hq. split; [|done]. by eapply reachable_then.
  - pose proof (dv_log _ _ _ Hi) as Hl. destruct (db_recovering d).
    + destruct Hl as (H1 & H2 & H3). split; [done|]. split; [done|]. cbn [db_ks db_wal]. intros ks2 k2 (k1 & Hk1 & [->|[-> ->]])%Hup; [|rewrite Hw]; auto.
    + destruct Hl as (segs & act & n & base & []). exists segs, act, n, base. split; cbn [db_wal db_pending db_ks db_seqno]; try done.
      * intros ks2 k2 (k1 & Hk1 & [->|[-> ->]])%Hup; [|rewrite Hw]; auto.
      * destruct (db_pending d) as [[b syn]|]; [|done]. destruct ru_pending0 as (? & ? & Hlt & ?). split; [done|]. split; [done|]. split; [|done].
        intros ks2 k2 (k1 & Hk1 & [->|[-> ->]])%Hup; [by apply Hlt|]. rewrite Hq, (reachable_operator _ _ _ (reachable_one _ _ _ Hst)). by apply Hlt.
Qed.

Lemma ks_tree_in d ks k : tree_for_ks (db_ks d) ks = Some k -> ks_tree k ∈ ks_tree <$> trees (db_ks d).
Proof. intros H. by apply list_elem_of_fmap_2, (ks_trees _ ks). Qed.

(** The batch in progress is the last one of the log. *)
Lemma settled_last d dropped kept base :
  dropped ++ kept = base ++ pending_batches (db_pending d) -> StronglySorted (fun a b => rb_seqno a < rb_seqno b) (dropped ++ kept) ->
  (forall b syn, db_pending d = Some (b, syn) -> b ∈ kept) ->
  base = dropped ++ settled (db_pending d) kept /\ kept = settled (db_pending d) kept ++ pending_batches (db_pending d).
Proof.
  intros E Hs Hin. unfold settled, pending_batches in *. destruct (db_pending d) as [[b syn]|]; [|by rewrite !app_nil_r in *].
  specialize (Hin b syn eq_refl). destruct (exists_last (l := kept)) as (k & x & ->); [intros ->; by apply elem_of_nil in Hin|].
  rewrite app_assoc in E. apply app_inj_tail in E as [<- ->].
  assert (List.filter (fun r => negb (rb_seqno r =? rb_seqno b)) (k ++ [b]) = k) as ->; [|done].
  apply StronglySorted_app_1_r in Hs. rewrite List.filter_app. cbn [List.filter]. rewrite Z.eqb_refl. cbn [negb]. rewrite app_nil_r.
  assert (Forall (fun r => rb_seqno r < rb_seqno b) k) as Hk.
  { apply Forall_forall. intros r Hr. eapply (StronglySorted_app_1_elem_of _ _ _ _ _ Hs Hr). left. }
  clear -Hk. induction Hk as [|r k Hr _ IH]; [done|]. cbn [List.filter]. rewrite (proj2 (Z.eqb_neq (rb_seqno r) (rb_seqno b))) by lia. cbn [negb]. by rewrite IH.
Qed.

Lemma db_prune_inv hist d w' n :
  db_inv start hist d -> db_recovering d = false ->
  prune (wal_prune_watermark (ks_tree <$> trees (db_ks d))) (db_wal d) = (w', Ok n) ->
  (forall b syn, db_pending d = Some (b, syn) -> b ∈ wal_batches w') ->
  db_inv start hist (mkDb (five_imap (fun ks => set_ks_wal (ks_log ks (settled (db_pending d) (wal_batches w'))) false) (db_ks d)) w' (db_seqno d) (db_pending d) false).
Proof.
  intros Hi Hr Hw Hp. pose proof (dv_log _ _ _ Hi) as Hl. rewrite Hr in Hl. destruct Hl as (segs & act & m & base & []).
  set (wm := wal_prune_watermark _) in *.
  destruct (wal_prune_inv _ _ _ _ wm ru_wal0) as (w1 & i & freed & Hw1 & Hi1 & Hle & Ew). rewrite Hw in Hw1. injection Hw1 as <- _.
  rewrite (wal_batches_inv _ _ _ _ Hi1) in *. set (kept := concat (drop i segs) ++ act) in *. set (dropped := concat (take i segs)) in *.
  assert (concat segs ++ act = dropped ++ kept) as Ec by (unfold dropped, kept; rewrite app_assoc, <- concat_app, take_drop; done).
  rewrite Ec in *. destruct ru_seqno0 as [Hall Hmax]. destruct (settled_last d dropped kept base ru_base0 ru_order0 Hp) as [Eb Ek].
  split; cbn [db_ks db_wal db_seqno db_recovering].
  - intros ks k0 k Hk0. rewrite ks_imap. intros (k1 & Hk1 & ->)%fmap_Some_1. destruct (dv_ks _ _ _ Hi ks k0 k1 Hk0 Hk1) as (Hre & Hrec & Hq).
    rewrite Hr in Hrec. split; [|done]. eapply reachable_then; [done|].
    apply (step_prune k1 (ks_log ks dropped)); [done|by rewrite (ru_ks0 ks k1 Hk1), Eb, ks_log_app| |].
    + apply Forall_forall. intros e (b & Hb & ->)%ks_log_in. rewrite Forall_forall in Hle. specialize (Hle b Hb). etransitivity; [done|].
      by apply watermark_le, (ks_tree_in _ ks).
    + intros x y (b & Hb & ->)%ks_log_in (b' & Hb' & ->)%ks_log_in. apply (StronglySorted_app_1_elem_of _ _ _ _ _ ru_order0 Hb).
      rewrite Ek. apply elem_of_app. by left.
  - rewrite Ew. apply (dv_writer _ _ _ Hi).
  - exists (drop i segs), act, m, (settled (db_pending d) kept). split; cbn [db_wal db_pending db_ks db_seqno]; try done.
    + intros ks k. rewrite ks_imap. by intros (k1 & Hk1 & ->)%fmap_Some_1.
    + by apply StronglySorted_app_1_r in ru_order0.
    + apply Forall_app in Hall as [_ Hall]. split; [done|]. by rewrite Ew.
    + destruct (db_pending d) as [[b syn]|]; [|done]. destruct ru_pending0 as (P1 & P2 & P3 & P4). split; [done|]. split; [done|]. split; [|done].
      intros ks k. rewrite ks_imap. intros (k1 & Hk1 & ->)%fmap_Some_1. exact (P3 ks k1 Hk1).
Qed.

Lemma db_rotate_inv hist d :
  db_inv start hist d -> db_recovering d = false -> db_pending d = None ->
  (let f := db_ks d in wal_prune_watermark (ks_tree <$> [spatial f; identity f; dictionary f; vectors f]) = U64_MAX) ->
  ks_wal (ghosts (db_ks d)) = [] ->
  db_inv start hist (mkDb (five_imap (fun _ => set_ks_wal [] false) (db_ks d)) (rotate (db_wal d)) (db_seqno d) None false).
Proof.
  intros Hi Hr Hp Hwm Hgh. pose proof (dv_log _ _ _ Hi) as Hl. rewrite Hr in Hl. destruct Hl as (segs & act & m & base & []).
  destruct (rotate_inv _ _ _ _ ru_wal0) as (Hi1 & Hf & Hm & Hlim). destruct (dv_writer _ _ _ Hi) as (Hn & Hl0 & Hq0).
  cbv zeta in Hwm. split; cbn [db_ks db_wal db_seqno db_recovering].
  - intros ks k0 k Hk0. rewrite ks_imap. intros (k1 & Hk1 & ->)%fmap_Some_1. destruct (dv_ks _ _ _ Hi ks k0 k1 Hk0 Hk1) as (Hre & Hrec & Hq).
    rewrite Hr in Hrec. split; [|done]. eapply reachable_then; [done|].
    apply (step_prune k1 (ks_wal k1)); [done|by rewrite app_nil_r| |by intros ? ? _ ?%elem_of_nil].
    destruct (db_ks_inv _ _ _ _ Hi Hk1) as [g Hg]. apply Forall_forall. intros e He.
    assert (e ∈ ks_log ks hist) as Hh by (rewrite (li_wal _ _ _ _ _ (ki_log _ _ _ Hg)), elem_of_app; by right).
    assert (seqno e <= U64_MAX) as Hle by exact (hist_max _ _ _ (ki_hist _ _ _ Hg) e Hh).
    assert (k1 = ghosts (db_ks d) \/ ks_tree k1 ∈ ks_tree <$> [spatial (db_ks d); identity (db_ks d); dictionary (db_ks d); vectors (db_ks d)]) as [->|Hin].
    { clear -Hk1. revert Hk1. ks_cases; intros [= <-]; (by left) || (right; cbn; repeat constructor). }
    + rewrite Hgh in He. by apply elem_of_nil in He.
    + apply watermark_le in Hin. lia.
  - done.
  - exists [], [], 0%nat, []. split; cbn [concat app db_wal db_pending db_ks db_seqno pending_batches]; try done.
    + intros ks k. rewrite ks_imap. by intros (k1 & Hk1 & ->)%fmap_Some_1.
    + constructor.
    + destruct ru_seqno0 as [_ ?]. split; [constructor|]. by rewrite Hm.
Qed.

(** ** Crashes *)

(** What is recovered: the keyspaces' logs, and the batch in progress or not. *)
Lemma recovered_batches d segs act n base files :
  running_inv d segs act n base -> crash_dir (w_dir (db_wal d)) files ->
  let recovered := recover_journal files (jw_name (w_writer (db_wal d))) in
  recovered = base ++ surfaced (db_pending d) recovered /\
  (surfaced (db_pending d) recovered = [] \/ exists b syn, db_pending d = Some (b, syn) /\ surfaced (db_pending d) recovered = [b]).
Proof.
  intros [] Hc. destruct (recover_inv _ _ _ _ _ ru_wal0 ru_n0 Hc) as (i & Hi & ->). cbv zeta.
  destruct (db_pending d) as [[b syn]|] eqn:Ep; cbn [surfaced pending_batches] in *.
  2:{ split; [|by left]. rewrite app_nil_r in *. rewrite take_ge by lia. done. }
  assert (forall x, x ∈ base -> rb_seqno x < rb_seqno b) as Hlt.
  { intros x Hx. rewrite ru_base0 in ru_order0. apply (StronglySorted_app_1_elem_of _ _ _ _ _ ru_order0 Hx). by left. }
  assert (existsb (fun r => rb_seqno r =? rb_seqno b) (base ++ [b]) = true) as Hin.
  { apply existsb_exists. exists b. split; [apply list_elem_of_In, elem_of_app; right; by left|lia]. }
  assert (existsb (fun r => rb_seqno r =? rb_seqno b) base = false) as Hnot.
  { apply not_true_is_false. rewrite existsb_exists. intros (x & Hx%list_elem_of_In & E). specialize (Hlt x Hx). lia. }
  destruct ru_pending0 as (_ & _ & _ & Hn).
  assert (concat segs ++ take i act = base ++ [b] \/ concat segs ++ take i act = base) as [E|E].
  - destruct syn; [left; rewrite take_ge by lia; done|]. destruct Hn as (act0 & -> & Hle). rewrite app_assoc in ru_base0.
    apply app_inj_tail in ru_base0 as [<- _]. destruct (decide (i <= length act0)%nat).
    + right. by rewrite take_app_le, take_ge by lia.
    + left. rewrite take_ge by (rewrite length_app; cbn; lia). by rewrite app_assoc.
  - rewrite E, Hin. split; [done|]. right. eauto.
  - rewrite E, Hnot, app_nil_r. split; [done|]. by left.
Qed.

Lemma max_seqno_le ts (t : Tree) : t ∈ ts -> forall m, t_seqno t <= fold_left (fun m t => Z.max m (t_seqno t)) ts m.
Proof.
  assert (forall ts m, m <= fold_left (fun m t => Z.max m (t_seqno t)) ts m) as Hge.
  { induction ts0 as [|u ts0 IH]; intros m; cbn [fold_left]; [lia|]. specialize (IH (Z.max m (t_seqno u))). lia. }
  induction ts as [|u ts IH]; intros Ht m; [by apply elem_of_nil in Ht|]. cbn [fold_left]. apply elem_of_cons in Ht as [->|Ht]; [|auto].
  specialize (Hge ts (Z.max m (t_seqno u))). lia.
Qed.

Lemma start_seqno_le recovered ts t : t ∈ ts -> t_seqno t <= start_seqno recovered ts.
Proof. intros Ht. unfold start_seqno. pose proof (max_seqno_le ts t Ht 0). lia. Qed.

(** One keyspace through a crash: the items that surface are written first. *)
Lemma crash_run hist d ks k b stats t wal :
  db_inv start hist d -> db_recovering d = false -> tree_for_ks (db_ks d) ks = Some k ->
  b = [] \/ (exists x, b = [x] /\ batch_wf x /\ Forall (entry_valid (t_merge_operator (ks_tree k))) (ks_items ks x) /\ t_seqno (ks_tree k) < rb_seqno x) ->
  wal = ks_wal k ++ ks_log ks b -> reopen stats (ks_tree k) wal = Ok t ->
  (forall e, e ∈ ks_wal k -> owned (t_merge_operator (ks_tree k)) (key e) = true -> e ∈ mem_contents (t_current (ks_tree k))) ->
  reachable k (ks_log ks b) (mkKeyspace t None None wal true).
Proof.
  intros Hi Hr Hk Hb -> Ht Ho. destruct (db_ks_inv _ _ _ _ Hi Hk) as [g Hg]. destruct (start_of _ _ _ Hk) as [k0 H0].
  destruct (dv_ks _ _ _ Hi ks k0 k H0 Hk) as (_ & Hrec & _). rewrite Hr in Hrec. destruct Hb as [->|(x & -> & Hx & Hxv & Hlt)].
  - change (ks_log ks []) with (@nil Entry) in *. rewrite app_nil_r in *. apply reachable_one. by eapply step_crash.
  - rewrite ks_log_one in *. pose proof (apply_batch_run x ks k _ _ Hg Hrec Hx Hxv Hlt) as Hrun. eapply reachable_then; [exact Hrun|].
    change (ks_wal k ++ ks_items ks x) with (ks_wal (apply_batch x ks k)). eapply step_crash.
    + cbn [apply_batch ks_wal]. intros e He Hoe. eapply apply_batch_mem; [done|done|done|]. rewrite (reachable_operator _ _ _ Hrun) in Hoe.
      apply elem_of_app in He as [He|He]; [left; auto|by right].
    + cbn [apply_batch ks_tree ks_wal]. by rewrite reopen_write.
Qed.

Lemma db_crash_inv hist d files stats ts :
  db_inv start hist d -> crash_dir (w_dir (db_wal d)) files ->
  let recovered := recover_journal files (jw_name (w_writer (db_wal d))) in
  (forall ks k, tree_for_ks (db_ks d) ks = Some k ->
     (exists t, tree_for_ks ts ks = Some t /\ reopen stats (ks_tree k) (ks_log ks recovered) = Ok t) /\
     forall e, e ∈ ks_wal k -> owned (t_merge_operator (ks_tree k)) (key e) = true -> e ∈ mem_contents (t_current (ks_tree k))) ->
  db_inv start (hist ++ surfaced (db_pending d) recovered)
    (mkDb (five_imap (fun ks t => mkKeyspace t None None (ks_log ks recovered) true) ts) (mkWal files (w_writer (db_wal d)))
       (start_seqno recovered (trees ts)) None true).
Proof.
  intros Hi Hc recovered Hre. pose proof (dv_log _ _ _ Hi) as Hl.
  assert (forall ks k0 k, tree_for_ks start ks = Some k0 -> tree_for_ks (db_ks d) ks = Some k -> forall t, reopen stats (ks_tree k) (ks_log ks recovered) = Ok t ->
    reachable k0 (ks_log ks (hist ++ surfaced (db_pending d) recovered)) (mkKeyspace t None None (ks_log ks recovered) true)) as Hrun.
  { intros ks k0 k Hk0 Hk t Ht. destruct (dv_ks _ _ _ Hi ks k0 k Hk0 Hk) as (Hr & Hrec & _). destruct (Hre ks k Hk) as [_ Ho].
    rewrite ks_log_app. eapply reachable_trans; [exact Hr|]. destruct (db_recovering d) eqn:Er.
    - destruct Hl as (Hp & Hs & Hw). rewrite Hp. apply (crash_dir_synced _ _ Hs) in Hc as ->. unfold recovered in *.
      rewrite <- (Hw ks k Hk) in *. cbn [surfaced]. apply reachable_one. by eapply step_crash.
    - destruct Hl as (segs & act & n & base & Hru). destruct (recovered_batches _ _ _ _ _ _ Hru Hc) as [Er1 Er2]. fold recovered in Er1, Er2.
      eapply crash_run; [done|done|done| |by rewrite (ru_ks _ _ _ _ _ Hru ks k Hk), <- ks_log_app, <- Er1|done|done].
      destruct Er2 as [?|(b & syn & Ep & ->)]; [by left|right]. exists b. split; [done|]. pose proof (ru_pending _ _ _ _ _ Hru) as Hpd. rewrite Ep in Hpd.
      destruct Hpd as (? & _ & Hlt & _). destruct (Hlt ks k Hk). eauto. }
  assert (forall ks k, tree_for_ks (five_imap (fun ks t => mkKeyspace t None None (ks_log ks recovered) true) ts) ks = Some k ->
    exists t, tree_for_ks ts ks = Some t /\ k = mkKeyspace t None None (ks_log ks recovered) true) as Hks.
  { intros ks k. rewrite ks_imap. intros (t & Ht & ->)%fmap_Some_1. eauto. }
  pose proof (dv_writer _ _ _ Hi) as (Hn & Hlim & _).
  assert (forall ks k0 k, tree_for_ks start ks = Some k0 -> tree_for_ks (five_imap (fun ks t => mkKeyspace t None None (ks_log ks recovered) true) ts) ks = Some k ->
    reachable k0 (ks_log ks (hist ++ surfaced (db_pending d) recovered)) k) as Hreach.
  { intros ks k0 k Hk0 (t & Ht & ->)%Hks. destruct (proj1 (ks_total ts (db_ks d) ks) ltac:(eauto)) as [k1 Hk1].
    destruct (Hre ks k1 Hk1) as [(t' & Ht' & Hro) _]. rewrite Ht in Ht'. injection Ht' as <-. by eapply Hrun. }
  split; cbn [db_ks db_wal db_seqno db_recovering].
  - intros ks k0 k Hk0 Hk. split; [by eapply Hreach|]. apply Hks in Hk as (t & Ht & ->). split; [done|]. cbn [ks_tree].
    by eapply start_seqno_le, ks_trees.
  - split; [done|]. split; [done|]. destruct (proj1 (ks_total start ts KS_SPATIAL) ltac:(cbn; eauto)) as [t Ht].
    pose proof (start_seqno_le recovered _ _ (ks_trees _ _ _ Ht)). assert (0 <= t_seqno t); [|lia].
    specialize (Hreach KS_SPATIAL (spatial start) _ eq_refl ltac:(rewrite ks_imap, Ht; reflexivity)).
    destruct (reachable_inv _ _ _ (Hstart KS_SPATIAL _ eq_refl) Hreach) as [g Hg]. apply (hi_seqno _ _ _ (ki_hist _ _ _ Hg)).
  - split; [done|]. cbn [db_wal w_dir w_writer db_ks]. split; [intros name f Hf; by eapply crash_dir_all_synced|]. by intros ks k (t & _ & ->)%Hks.
Qed.

Lemma db_recovered_inv hist d :
  db_inv start hist d -> db_recovering d = true ->
  (forall ks k, tree_for_ks (db_ks d) ks = Some k -> ks_flush k = None /\
     Memtable_iter (sv_active (t_current (ks_tree k))) = [] /\ sv_sealed (t_current (ks_tree k)) = []) ->
  let j := w_writer (db_wal d) in
  db_inv start hist (mkDb (five_imap (fun _ => set_ks_wal [] false) (db_ks d))
    (wal_create (jw_name j) (jw_persist_mode j) (jw_segment_max_bytes j) (w_dir (db_wal d))) (db_seqno d) None false).
Proof.
  intros Hi Hr He j. destruct (dv_writer _ _ _ Hi) as (Hn & Hlim & Hpos). split; cbn [db_ks db_wal db_seqno db_recovering]; [|done|].
  - intros ks k0 k Hk0. rewrite ks_imap. intros (k1 & Hk1 & ->)%fmap_Some_1. destruct (dv_ks _ _ _ Hi ks k0 k1 Hk0 Hk1) as (Hre & Hrec & Hq).
    destruct (He ks k1 Hk1) as (Hf & Ha & Hs). split; [|done]. eapply reachable_then; [done|]. unfold set_ks_wal. rewrite Hf. apply step_recovered; congruence.
  - exists [], [], 0%nat, []. split; cbn; try done; [by apply wal_inv_create| |constructor]. intros ks k. rewrite ks_imap. by intros (k1 & Hk1 & ->)%fmap_Some_1.
Qed.

Lemma db_step_inv hist d bs d' : db_step d bs d' -> db_inv start hist d -> db_inv start (hist ++ bs) d'.
Proof.
  destruct 1; intros Hi; rewrite ?app_nil_r; eauto using db_log_inv, db_sync_inv, db_apply_inv, db_maintain_inv, db_prune_inv, db_rotate_inv, db_recovered_inv.
  by eapply db_crash_inv.
Qed.

Lemma db_reachable_inv d0 hist d : db_inv start [] d0 -> db_reachable d0 hist d -> db_inv start hist d.
Proof. intros H0. induction 1 as [|hist d bs d' _ IH Hs]; [done|]. by eapply db_step_inv. Qed.

End steps.

End run.
