(* ===== verification/EngineTheorems.v ===== *)
(** * What the engine promises

    The theorems about the engine as a whole: its keyspaces are maps, a crash
    loses no acknowledged batch and never splits one, [open] recovers, [commit]
    and the log's pruning and rotation are runs of the system of EngineRun; and
    what happens when they are not. *)

From S2P Require Import Prelude Types Block JournalEntry Bloom Memtable Merge Streams TableMeta TableWriter.
From S2P Require Import TableReader Version Leveled Paths Wal Budget Worker Manifest Tree TreeReads TreeSteps.
From S2P Require Import TreeCompact TreeOpen TreeMajor TreeRun TreeTheorems Engine EngineRun.

Section theorems.
Context {XH : Xxh3} {CD : Codecs} {SM : SkipMap} {BH : BinaryHeap}.

Lemma db_reachable_trans a h b h' c : db_reachable a h b -> db_reachable b h' c -> db_reachable a (h ++ h') c.
Proof.
  intros Ha. induction 1 as [|h' d bs d' _ IH Hs]; [by rewrite app_nil_r|]. rewrite app_assoc. by eapply db_next.
Qed.

Lemma db_reachable_one d bs d' : db_step d bs d' -> db_reachable d bs d'.
Proof. intros H. change bs with ([] ++ bs). eapply db_next; [apply db_start|done]. Qed.

Lemma none_laws op : None = Some op -> MergeOperatorLaws op.
Proof. done. Qed.

Section start.
Context (dirs : Five bytes) (cfgs : Five TreeConfig) (mo : option MergeOperator) (stats : OverlapStats) (name : bytes) (limit : Z).
Let start := fresh_db dirs cfgs mo stats name limit.
Hypothesis Hlaws : forall op, mo = Some op -> MergeOperatorLaws op.
Hypothesis Hname : segment_id name = None.
Hypothesis Hlimit : 0 < limit.

(** The merge operator of a keyspace. *)
Definition ks_operator (ks : Z) : option MergeOperator := if ks =? KS_DICTIONARY then mo else None.

Lemma ks_operator_laws ks op : ks_operator ks = Some op -> MergeOperatorLaws op.
Proof. unfold ks_operator. case_match; [auto|done]. Qed.

Lemma start_ks ks k0 : tree_for_ks (db_ks start) ks = Some k0 ->
  exists dir cfg, k0 = fresh_keyspace dir cfg None (ks_operator ks) stats /\ tree_for_ks dirs ks = Some dir /\ tree_for_ks cfgs ks = Some cfg.
Proof.
  cbn [start fresh_db db_ks]. rewrite ks_imap. intros (dir & Hd & ->)%fmap_Some_1.
  destruct (proj1 (ks_total dirs cfgs ks) ltac:(eauto)) as [cfg Hc]. rewrite Hc. eauto.
Qed.

Lemma start_ks_inv ks k0 : tree_for_ks (db_ks start) ks = Some k0 -> exists g, ks_inv k0 [] g.
Proof. intros (dir & cfg & -> & _)%start_ks. eexists. apply fresh_inv, ks_operator_laws. Qed.

Lemma fresh_db_inv : db_inv (db_ks start) [] start.
Proof.
  split.
  - intros ks k0 k Hk0 Hk. rewrite Hk0 in Hk. injection Hk as <-. split; [apply reach_start|].
    apply start_ks in Hk0 as (dir & cfg & -> & _). done.
  - done.
  - exists [], [], 0%nat, []. split; cbn; try done; [by apply wal_inv_create| |constructor].
    intros ks k Hk. apply (start_ks ks) in Hk as (dir & cfg & -> & _). done.
Qed.

Lemma db_run hist d : db_reachable start hist d -> db_inv (db_ks start) hist d.
Proof. intros Hr. eapply db_reachable_inv; [exact start_ks_inv|apply fresh_db_inv|done]. Qed.

(** Every keyspace of a run is a run of its own. *)
Lemma ks_run hist d ks k : db_reachable start hist d -> tree_for_ks (db_ks d) ks = Some k ->
  exists dir cfg, tree_for_ks dirs ks = Some dir /\ tree_for_ks cfgs ks = Some cfg /\
    reachable (fresh_keyspace dir cfg None (ks_operator ks) stats) (ks_log ks hist) k.
Proof.
  intros Hr Hk. destruct (start_of (db_ks start) _ _ _ Hk) as [k0 Hk0]. pose proof Hk0 as (dir & cfg & -> & Hd & Hc)%start_ks.
  exists dir, cfg. split; [done|]. split; [done|]. by apply (dv_ks _ _ _ (db_run _ _ Hr)).
Qed.

Lemma batch_operands hist d b :
  db_reachable start hist d -> Forall (entry_valid mo) (ks_items KS_DICTIONARY b) -> batch_valid (db_ks d) b.
Proof.
  intros Hr Hv ks k Hk. destruct (ks_run _ _ _ _ Hr Hk) as (dir & cfg & _ & _ & Hrun). rewrite (reachable_operator _ _ _ Hrun).
  cbn [ks_tree fresh_keyspace t_merge_operator]. unfold ks_operator. destruct (Z.eqb_spec ks KS_DICTIONARY) as [->|_]; [done|].
  by apply Forall_forall.
Qed.

(** ** Reads *)

(** Each of the five keyspaces is a map of the committed batches. In every
    state of every run of the engine [get] returns, for a key of a keyspace that
    no merge operator owns, what the items for that keyspace of the committed
    batches, in the order of their commits, have left there; batches may hold any
    number of items, for any of the keyspaces. *)
Theorem engine_reads hist d ks k :
  db_reachable start hist d -> tree_for_ks (db_ks d) ks = Some k ->
  forall x, owned (ks_operator ks) x = false -> get (ks_tree k) x = Ok (map_of (ks_operator ks) (ks_log ks hist) x).
Proof.
  intros Hr Hk x Ho. destruct (ks_run _ _ _ _ Hr Hk) as (dir & cfg & _ & _ & Hrun). by eapply get_run; [apply ks_operator_laws|..].
Qed.

(** ** Crashes *)

(** The crash as the keyspaces see it. *)
Lemma crash_keyspaces hist d now files :
  db_reachable start hist d -> crash_dir (w_dir (db_wal d)) files ->
  (forall ks k, tree_for_ks (db_ks d) ks = Some k ->
     forall e, e ∈ ks_wal k -> owned (ks_operator ks) (key e) = true -> e ∈ mem_contents (t_current (ks_tree k))) ->
  let recovered := recover_journal files (jw_name (w_writer (db_wal d))) in
  let last := surfaced (db_pending d) recovered in
  (last = [] \/ exists b syn, db_pending d = Some (b, syn) /\ last = [b]) /\
  forall ks k, tree_for_ks (db_ks d) ks = Some k -> exists t dir cfg, reopen now (ks_tree k) (ks_log ks recovered) = Ok t /\
    tree_for_ks dirs ks = Some dir /\ tree_for_ks cfgs ks = Some cfg /\
    reachable (fresh_keyspace dir cfg None (ks_operator ks) stats) (ks_log ks (hist ++ last)) (mkKeyspace t None None (ks_log ks recovered) true).
Proof.
  intros Hr Hc Ho recovered last. pose proof (db_run _ _ Hr) as Hi. split.
  - pose proof (dv_log _ _ _ Hi) as Hl. destruct (db_recovering d).
    + destruct Hl as (Hp & _). unfold last. rewrite Hp. by left.
    + destruct Hl as (segs & act & n & base & Hru). apply (recovered_batches _ _ _ _ _ _ Hru Hc).
  - intros ks k Hk.
    assert (forall ks k, tree_for_ks (db_ks d) ks = Some k -> exists t, reopen now (ks_tree k) (ks_log ks recovered) = Ok t) as Hro.
    { intros ks' k' Hk'. destruct (db_ks_inv _ start_ks_inv _ _ _ _ Hi Hk') as [g Hg]. by eapply reopen_Ok. }
    assert (exists ts, forall ks k, tree_for_ks (db_ks d) ks = Some k -> exists t, tree_for_ks ts ks = Some t /\ reopen now (ks_tree k) (ks_log ks recovered) = Ok t)
      as [ts Hts].
    { destruct (Hro 0 _ eq_refl) as [t0 H0], (Hro 1 _ eq_refl) as [t1 H1], (Hro 2 _ eq_refl) as [t2 H2], (Hro 3 _ eq_refl) as [t3 H3],
        (Hro 4 _ eq_refl) as [t4 H4]. exists (mkFive t0 t1 t2 t3 t4). intros ks' k'. ks_cases; intros [= <-]; eauto. }
    assert (db_step d last (mkDb (five_imap (fun ks t => mkKeyspace t None None (ks_log ks recovered) true) ts) (mkWal files (w_writer (db_wal d)))
       (start_seqno recovered (trees ts)) None true)) as Hstep.
    { eapply db_crash; [done|]. intros ks' k' Hk'. split; [by apply Hts|]. intros e He Hoe. apply (Ho ks' k' Hk'); [done|].
      destruct (ks_run _ _ _ _ Hr Hk') as (? & ? & _ & _ & Hrun). by rewrite (reachable_operator _ _ _ Hrun) in Hoe. }
    destruct (Hts ks k Hk) as (t & Ht & Hre). pose proof (db_next _ _ _ _ _ Hr Hstep) as Hr'.
    destruct (ks_run _ _ ks (mkKeyspace t None None (ks_log ks recovered) true) Hr') as (dir & cfg & Hd & Hcf & Hrun); [cbn [db_ks]; by rewrite ks_imap, Ht|].
    exists t, dir, cfg. done.
Qed.


End start.

(** ** Commits *)

(** An engine between commits, and the state of the system it is. *)
Record represents (e : TurbaEngine) (d : Db) : Prop := {
  re_trees : e_trees e = five_map ks_tree (db_ks d);
  re_journal : e_journal e = db_wal d;
  re_seqno : e_seqno e = db_seqno d;
  re_pending : db_pending d = None;
  re_running : db_recovering d = false;
}.

Lemma ks_items_cons ks sq it items :
  ks_items ks (mkBatch sq (it :: items)) = (if bi_keyspace_id it =? ks then [item_entry sq it] else []) ++ ks_items ks (mkBatch sq items).
Proof.
  unfold ks_items. cbn [rb_items rb_seqno]. rewrite filter_cons. destruct (Z.eqb_spec (bi_keyspace_id it) ks); [by rewrite decide_True|by rewrite decide_False].
Qed.

Lemma insert_items_spec sq items (f : Five Tree) :
  Forall (fun it => is_Some (tree_for_ks (mkFive tt tt tt tt tt) (bi_keyspace_id it))) items ->
  exists f', insert_items sq items f = (f', Ok tt) /\
    forall ks, tree_for_ks f' ks = (fun t => fold_left (fun t e => write_entry e t) (ks_items ks (mkBatch sq items)) t) <$> tree_for_ks f ks.
Proof.
  revert f; induction items as [|it items IH]; intros f Hv.
  { exists f. split; [done|]. intros ks. cbn. by destruct (tree_for_ks f ks). }
  apply Forall_cons in Hv as [Hit Hv]. cbn [insert_items]. apply (ks_total _ f) in Hit as [t Ht]. rewrite Ht.
  destruct (IH (update_ks (bi_keyspace_id it) (insert_item sq it) f) Hv) as (f' & -> & Hf'). exists f'. split; [done|]. intros ks.
  rewrite Hf', ks_update, ks_items_cons. destruct (bi_keyspace_id it =? ks); [|done]. by destruct (tree_for_ks f ks).
Qed.

(** The seals at the end of a commit are steps. *)
Lemma seal_steps d ks : db_pending d = None -> db_recovering d = false ->
  exists d', db_reachable d [] d' /\ five_map ks_tree (db_ks d') = update_ks ks maybe_trigger_flush (five_map ks_tree (db_ks d)) /\
    db_wal d' = db_wal d /\ db_seqno d' = db_seqno d /\ db_pending d' = None /\ db_recovering d' = false.
Proof.
  intros Hp Hr. destruct (tree_for_ks (db_ks d) ks) as [k|] eqn:Hk.
  2:{ exists d. split; [apply db_start|]. split; [|done]. apply five_ext. intros ks'. rewrite ks_update, ks_map.
      destruct (Z.eqb_spec ks ks'); [|done]. subst. by rewrite Hk. }
  destruct (tc_max_memtable_size (t_config (ks_tree k)) <=? approximate_size (sv_active (t_current (ks_tree k)))) eqn:Es.
  - eexists. split; [eapply db_reachable_one, (db_maintain d ks k); [done|apply step_seal|done|done|]|].
    { cbn [on_tree ks_tree]. unfold seal_active. by case_match. }
    cbn [db_ks db_wal db_seqno db_pending db_recovering]. split; [|done]. apply five_ext. intros ks'.
    rewrite ks_map, !ks_update, ks_map. destruct (Z.eqb_spec ks ks'); [|done]. subst. rewrite Hk. cbn. unfold maybe_trigger_flush. by rewrite Es.
  - exists d. split; [apply db_start|]. split; [|done]. apply five_ext. intros ks'. rewrite ks_update, ks_map.
    destruct (Z.eqb_spec ks ks'); [|done]. subst. rewrite Hk. cbn. unfold maybe_trigger_flush. by rewrite Es.
Qed.

Lemma trigger_steps items d : db_pending d = None -> db_recovering d = false ->
  exists d', db_reachable d [] d' /\ five_map ks_tree (db_ks d') = trigger_flushes items (five_map ks_tree (db_ks d)) /\
    db_wal d' = db_wal d /\ db_seqno d' = db_seqno d /\ db_pending d' = None /\ db_recovering d' = false.
Proof.
  unfold trigger_flushes. generalize KEYSPACES as l. intros l. revert d; induction l as [|ks l IH]; intros d Hp Hr; cbn [fold_left].
  { exists d. split; [apply db_start|done]. }
  assert (exists d1, db_reachable d [] d1 /\ five_map ks_tree (db_ks d1) =
    (if existsb (fun item => bi_keyspace_id item =? ks) items then update_ks ks maybe_trigger_flush (five_map ks_tree (db_ks d)) else five_map ks_tree (db_ks d)) /\
    db_wal d1 = db_wal d /\ db_seqno d1 = db_seqno d /\ db_pending d1 = None /\ db_recovering d1 = false) as (d1 & H1 & E1 & W1 & S1 & P1 & R1).
  { destruct (existsb _ _); [by apply seal_steps|]. exists d. split; [apply db_start|done]. }
  destruct (IH d1 P1 R1) as (d2 & H2 & E2 & W2 & S2 & P2 & R2). exists d2. rewrite <- E1. split; [|split; [done|]].
  - change (@nil RecoveredBatch) with (@nil RecoveredBatch ++ []). by eapply db_reachable_trans.
  - by rewrite W2, S2, W1, S1.
Qed.

Lemma commit_run dirs cfgs mo stats name limit hist d e items :
  (forall op, mo = Some op -> MergeOperatorLaws op) -> segment_id name = None -> 0 < limit ->
  db_reachable (fresh_db dirs cfgs mo stats name limit) hist d -> represents e d ->
  e_poisoned e = false -> t_compaction_enabled (spatial (e_trees e)) = true -> jw_persist_mode (w_writer (e_journal e)) = SyncData ->
  let b := mkBatch (e_seqno e + 1) items in
  items <> [] -> batch_wf b -> Forall (entry_valid mo) (ks_items KS_DICTIONARY b) ->
  exists e' d', commit true items e = (e', Ok (rb_seqno b)) /\ represents e' d' /\
    db_reachable (fresh_db dirs cfgs mo stats name limit) (hist ++ [b]) d'.
Proof.
  intros Hlaws Hname Hlimit Hr [E1 E2 E3 E4 E5] Hpo Hen Hmode b Hne Hb Hbv.
  pose proof (db_run _ _ _ _ _ _ Hlaws Hname Hlimit _ _ Hr) as Hi. pose proof (dv_log _ _ _ Hi) as Hl. rewrite E5 in Hl.
  destruct Hl as (segs & act & n & base & Hru). pose proof (ru_wal _ _ _ _ _ Hru) as Hwal. destruct (ru_seqno _ _ _ _ _ Hru) as [_ Hmax]. destruct (dv_writer _ _ _ Hi) as (_ & _ & Hpos).
  destruct (write_batch_inv _ _ _ _ b Hwal (ru_n _ _ _ _ _ Hru) (bw_ok _ Hb)) as (w1 & Hw1 & Hi1 & _); [cbn; lia|].
  destruct (sync_inv _ _ _ _ Hi1) as (w2 & segs' & act' & Hw2 & _).
  destruct (insert_items_spec (rb_seqno b) items (e_trees e) (bw_ks _ Hb)) as (f & Hf & Hfk).
  assert (wrap64 (e_seqno e + 1) = rb_seqno b) as Ew.
  { apply wrap_small. exact (proj1 (bw_ok _ Hb)). }
  set (d1 := mkDb (db_ks d) w1 (rb_seqno b) (Some (b, false)) false). set (d2 := mkDb (db_ks d) w2 (rb_seqno b) (Some (b, true)) false).
  set (d3 := mkDb (five_imap (apply_batch b) (db_ks d)) w2 (rb_seqno b) None false).
  assert (db_reachable d ([] ++ [] ++ [b]) d3) as Hrun.
  { eapply db_reachable_trans; [apply db_reachable_one, (db_log d b w1); [done|done|done|by eapply batch_operands|cbn; lia|done]|].
    eapply db_reachable_trans; [apply db_reachable_one, (db_sync d1 w2); done|]. by apply db_reachable_one, (db_apply d2 b). }
  assert (f = five_map ks_tree (db_ks d3)) as Ef.
  { apply five_ext. intros ks. rewrite Hfk, E1, !ks_map. cbn [d3 db_ks]. rewrite ks_imap. by destruct (tree_for_ks (db_ks d) ks). }
  destruct (trigger_steps items d3 eq_refl eq_refl) as (d4 & Hr4 & Ek & Ewal & Es & Ep & Erec).
  eexists _, d4. split; [|split].
  - unfold commit. destruct items as [|it items]; [done|]. erewrite ST_bind_Ok by reflexivity. rewrite Hpo.
    erewrite ST_bind_Ok by reflexivity. rewrite Ew. erewrite ST_bind_Ok by reflexivity.
    rewrite <- E2 in Hw1. cbn [rb_items b] in Hw1.
    assert (log_batch true (rb_seqno b) (it :: items) (set_engine_seqno (rb_seqno b) e) =
      (mkTurbaEngine SM (e_trees e) (e_recovered_from_wal e) w2 (rb_seqno b) (e_poisoned e) (e_config e), Ok tt)) as El.
    { unfold log_batch. erewrite ST_bind_Ok by reflexivity. cbn [e_trees set_engine_seqno]. rewrite Hen.
      erewrite ST_bind_Ok by reflexivity. cbn [e_journal set_engine_seqno]. rewrite Hmode.
      erewrite ST_bind_Ok by (unfold on_journal; cbn [e_journal set_engine_seqno]; rewrite Hw1; reflexivity).
      unfold on_journal. cbn [e_journal]. by rewrite Hw2. }
    rewrite (ST_bind_Ok _ _ _ _ _ El). erewrite ST_bind_Ok by (unfold on_trees; cbn [e_trees]; rewrite Hf; reflexivity).
    erewrite ST_bind_Ok by reflexivity. reflexivity.
  - split; cbn [e_trees e_journal e_seqno]; [|done|done|done|done]. by rewrite Ek, <- Ef.
  - eapply db_reachable_trans; [exact Hr|]. change [b] with ([b] ++ []). eapply db_reachable_trans; [exact Hrun|done].
Qed.

(** C3: [commit] returns after its batch is durable. From any state of a run between
    commits, with the log healthy and synchronous ([SyncData]) and compactions not
    paused, a commit of a non-empty batch of well-formed items whose keys are distinct
    within each keyspace (and whose values for merge-owned keys are operands of the
    operator) succeeds, returns the next number, and ends in a state of a run whose
    history has the batch: one where a crash recovers it. Reads of keys no merge
    operator owns answer in every keyspace the items of the batch applied to what they
    answered before. *)
Theorem commit_is_a_run dirs cfgs mo stats name limit hist d e items :
  (forall op, mo = Some op -> MergeOperatorLaws op) -> segment_id name = None -> 0 < limit ->
  db_reachable (fresh_db dirs cfgs mo stats name limit) hist d -> represents e d ->
  e_poisoned e = false -> t_compaction_enabled (spatial (e_trees e)) = true -> jw_persist_mode (w_writer (e_journal e)) = SyncData ->
  let b := mkBatch (e_seqno e + 1) items in
  items <> [] -> batch_wf b -> Forall (entry_valid mo) (ks_items KS_DICTIONARY b) ->
  exists e' d', commit true items e = (e', Ok (rb_seqno b)) /\ represents e' d' /\
    db_reachable (fresh_db dirs cfgs mo stats name limit) (hist ++ [b]) d' /\
    forall ks t t', tree_for_ks (e_trees e) ks = Some t -> tree_for_ks (e_trees e') ks = Some t' ->
      exists m, forall x, owned (ks_operator mo ks) x = false ->
        get t x = Ok (m x) /\ get t' x = Ok (fold_left (fun a i => map_write (ks_operator mo ks) i a) (ks_items ks b) m x).
Proof.
  intros Hlaws Hname Hlimit Hr He Hpo Hen Hmode b Hne Hb Hv.
  destruct (commit_run _ _ _ _ _ _ _ _ _ _ Hlaws Hname Hlimit Hr He Hpo Hen Hmode Hne Hb Hv) as (e' & d' & Hc & He' & Hr').
  exists e', d'. split; [done|]. split; [done|]. split; [done|]. intros ks t t'. rewrite (re_trees _ _ He), (re_trees _ _ He'), !ks_map.
  intros (k & Hk & ->)%fmap_Some_1 (k' & Hk' & ->)%fmap_Some_1. exists (map_of (ks_operator mo ks) (ks_log ks hist)). intros x Hx. split.
  - by eapply engine_reads.
  - erewrite engine_reads by eauto. rewrite ks_log_app, ks_log_one. unfold map_of. by rewrite fold_left_app.
Qed.

Lemma refused_commit ok items e : items <> [] -> e_poisoned e = true -> exists m, commit ok items e = (e, Err (Corruption m)).
Proof. intros Hne Hp. destruct items as [|it items]; [done|]. unfold commit. erewrite ST_bind_Ok by reflexivity. rewrite Hp. unfold lift. eauto. Qed.

Lemma unsynced_commit items e :
  items <> [] -> e_poisoned e = false -> t_compaction_enabled (spatial (e_trees e)) = true -> jw_persist_mode (w_writer (e_journal e)) = SyncData ->
  exists e' m, commit false items e = (e', Err (Corruption m)) /\ e_trees e' = e_trees e /\ e_poisoned e' = true.
Proof.
  intros Hne Hpo Hen Hmode. set (sq := wrap64 (e_seqno e + 1)). set (w1 := fst (write_batch_buffered sq items (e_journal e))).
  exists (poison (mkTurbaEngine SM (e_trees e) (e_recovered_from_wal e) (wal_flush w1) sq (e_poisoned e) (e_config e))).
  eexists. split; [|done]. destruct items as [|it items]; [done|]. unfold commit. erewrite ST_bind_Ok by reflexivity. rewrite Hpo.
  erewrite ST_bind_Ok by reflexivity. fold sq. erewrite ST_bind_Ok by reflexivity. unfold log_batch, mbind, ST_bind, gets.
  cbn [e_trees set_engine_seqno]. rewrite Hen. cbn [e_journal set_engine_seqno]. rewrite Hmode. reflexivity.
Qed.

(** C32: a commit that is not durable says so. With a poisoned log every non-empty
    commit is refused and changes nothing; a commit whose fsync fails returns an
    error, leaves the trees as they were and poisons the log, so that every later
    commit is refused. *)
Theorem commit_errors e items :
  items <> [] ->
  (forall ok, e_poisoned e = true -> exists m, commit ok items e = (e, Err (Corruption m))) /\
  (e_poisoned e = false -> t_compaction_enabled (spatial (e_trees e)) = true -> jw_persist_mode (w_writer (e_journal e)) = SyncData ->
   exists e' m, commit false items e = (e', Err (Corruption m)) /\ e_trees e' = e_trees e /\ e_poisoned e' = true /\
     forall ok items', items' <> [] -> exists m', commit ok items' e' = (e', Err (Corruption m'))).
Proof.
  intros Hne. split; [intros ok; by apply refused_commit|]. intros Hpo Hen Hmode. destruct (unsynced_commit items e Hne Hpo Hen Hmode) as (e' & m & H1 & H2 & H3).
  exists e', m. do 3 (split; [done|]). intros ok items' Hne'. by apply refused_commit.
Qed.

(** ** Pruning and rotation *)

Lemma set_wal_trees (f : Five Keyspace) (g : Z -> list Entry) : five_map ks_tree (five_imap (fun ks => set_ks_wal (g ks) false) f) = five_map ks_tree f.
Proof. apply five_ext. intros ks. rewrite !ks_map, ks_imap. by destruct (tree_for_ks f ks). Qed.

(** A tree that holds the watermark down. *)
Lemma watermark_below ts : wal_prune_watermark ts <> U64_MAX -> ts <> [] -> exists t, t ∈ ts /\ t_manifest_durable_seqno t < t_seqno t.
Proof.
  assert (forall ts m, fold_left Z.min (map prune_watermark ts) m <> U64_MAX -> m <> U64_MAX \/ exists t, t ∈ ts /\ prune_watermark t <> U64_MAX) as H.
  { clear. induction ts as [|t ts IH]; intros m Hm; cbn [map fold_left] in *; [by left|]. apply IH in Hm as [Hm|(u & Hu & Hw)].
    - destruct (Z.eq_dec (prune_watermark t) U64_MAX) as [E|]; [|right; exists t; split; [by left|done]]. left. intros ->. apply Hm. rewrite E. lia.
    - right. exists u. split; [by right|done]. }
  destruct ts as [|t0 ts]; [done|]. intros Hm _. assert (exists t, t ∈ t0 :: ts /\ prune_watermark t <> U64_MAX) as (t & Ht & Hw).
  { destruct (H ts (prune_watermark t0) Hm) as [?|(t & Ht & ?)]; [exists t0; split; [by left|done]|exists t; split; [by right|done]]. }
  exists t. split; [done|]. unfold prune_watermark in Hw. destruct (Z.leb_spec (t_seqno t) (t_manifest_durable_seqno t)); [done|lia].
Qed.

Section cuts.
Context (start : Db) (hist : list RecoveredBatch) (d : Db) (e : TurbaEngine) (segs : list (list RecoveredBatch)) (act : list RecoveredBatch) (n : nat).
Hypothesis Hwal : wal_inv (db_wal d) segs act n.
Hypothesis Hr : db_reachable start hist d.
Hypothesis He : represents e d.

Lemma prune_wal_run : exists e' d' m, prune_wal e = (e', Ok m) /\ represents e' d' /\ db_reachable start hist d'.
Proof.
  destruct He as [E1 E2 E3 E4 E5].
  destruct (wal_prune_inv _ _ _ _ (wal_prune_watermark (trees (e_trees e))) Hwal) as (w' & i & m & Hp & _).
  assert (ks_tree <$> trees (db_ks d) = trees (e_trees e)) as Et by (by rewrite E1).
  pose proof (db_prune d w' m E5) as Hs. rewrite Et in Hs. specialize (Hs Hp). rewrite E4 in Hs. specialize (Hs ltac:(done)). cbn [settled] in Hs.
  eexists _, _, m. split; [unfold prune_wal, on_journal; rewrite E2, Hp; reflexivity|]. split.
  2:{ rewrite <- (app_nil_r hist). eapply db_reachable_trans; [exact Hr|]. apply db_reachable_one, Hs. }
  split; cbn [e_trees e_journal e_seqno db_ks db_wal db_seqno db_pending db_recovering]; [|done|done|done|done].
  by rewrite E1, set_wal_trees.
Qed.

Lemma rotate_run e' : rotate_journal e = (e', Ok tt) -> ks_wal (ghosts (db_ks d)) = [] ->
  exists d', represents e' d' /\ wal_batches (db_wal d') = [] /\ db_reachable start hist d'.
Proof.
  destruct He as [E1 E2 E3 E4 E5]. unfold rotate_journal. cbv zeta. case_match eqn:Hm; [|done]. intros [= <-] Hg.
  apply Z.eqb_eq in Hm. rewrite E1 in Hm. pose proof (db_rotate d E5 E4 Hm Hg) as Hs.
  eexists. split; [|split; [|rewrite <- (app_nil_r hist); eapply db_reachable_trans; [exact Hr|apply db_reachable_one, Hs]]].
  - split; cbn [e_trees e_journal e_seqno db_ks db_wal db_seqno db_pending db_recovering]; [|by rewrite E2|done|done|done].
    by rewrite E1, (set_wal_trees _ (fun _ => [])).
  - cbn [db_wal]. by rewrite (wal_batches_inv _ _ _ _ (proj1 (rotate_inv _ _ _ _ Hwal))).
Qed.

End cuts.

(** C31: the log is only cut where nothing is lost. Between commits [prune_wal]
    always succeeds and leaves a state of a run with the same history; and
    [rotate_journal] either empties the log and leaves such a state (if no ghost
    write is in the log), or refuses, changes nothing, and one of the keyspaces it
    looks at has writes above its durable watermark. *)
Theorem log_cuts_are_runs dirs cfgs mo stats name limit hist d e :
  (forall op, mo = Some op -> MergeOperatorLaws op) -> segment_id name = None -> 0 < limit ->
  db_reachable (fresh_db dirs cfgs mo stats name limit) hist d -> represents e d ->
  (exists e' d' n, prune_wal e = (e', Ok n) /\ represents e' d' /\ db_reachable (fresh_db dirs cfgs mo stats name limit) hist d') /\
  (match rotate_journal e with
   | (e', Ok _) => ks_wal (ghosts (db_ks d)) = [] ->
     exists d', represents e' d' /\ wal_batches (db_wal d') = [] /\ db_reachable (fresh_db dirs cfgs mo stats name limit) hist d'
   | (e', Err (WalRotatePrecondition _)) => e' = e /\
     exists t, t ∈ [spatial (e_trees e); identity (e_trees e); dictionary (e_trees e); vectors (e_trees e)] /\ t_manifest_durable_seqno t < t_seqno t
   | _ => False
   end).
Proof.
  intros Hlaws Hname Hlimit Hr He. pose proof (db_run _ _ _ _ _ _ Hlaws Hname Hlimit _ _ Hr) as Hi. pose proof (dv_log _ _ _ Hi) as Hl.
  rewrite (re_running _ _ He) in Hl. destruct Hl as (segs & act & n & base & Hru). pose proof (ru_wal _ _ _ _ _ Hru) as Hwal.
  split; [by eapply prune_wal_run|]. destruct (rotate_journal e) as [e' [[]|x|]] eqn:E.
  - intros Hg. by eapply rotate_run.
  - revert E. unfold rotate_journal. cbv zeta. case_match eqn:Hm; [done|]. intros [= <- <-]. split; [done|].
    apply Z.eqb_neq in Hm. by apply watermark_below.
  - revert E. unfold rotate_journal. cbv zeta. by case_match.
Qed.

(** ** Opening *)

Lemma replay_ks (f : Five Tree) bs ks :
  tree_for_ks (replay bs f) ks = (fun t => fold_left (fun t e => write_entry e t) (ks_log ks bs) t) <$> tree_for_ks f ks.
Proof.
  unfold replay. revert f; induction bs as [|b bs IH]; intros f; [cbn; by destruct (tree_for_ks f ks)|]. cbn [fold_left]. rewrite IH.
  assert (forall items f, tree_for_ks (fold_left (fun f item => update_ks (bi_keyspace_id item) (insert_item (rb_seqno b) item) f) items f) ks =
    (fun t => fold_left (fun t e => write_entry e t) (ks_items ks (mkBatch (rb_seqno b) items)) t) <$> tree_for_ks f ks) as Hit.
  { clear. induction items as [|it items IH]; intros f; [cbn; by destruct (tree_for_ks f ks)|]. cbn [fold_left]. rewrite IH, ks_update, ks_items_cons.
    destruct (bi_keyspace_id it =? ks); [|done]. by destruct (tree_for_ks f ks). }
  rewrite Hit. change (b :: bs) with ([b] ++ bs). rewrite ks_log_app, ks_log_one. destruct b as [sq items]. cbn [rb_seqno rb_items].
  destruct (tree_for_ks f ks); [|done]. cbn. by rewrite fold_left_app.
Qed.

Lemma write_name sq items w w' : write_batch_buffered sq items w = (w', Ok tt) -> jw_name (w_writer w') = jw_name (w_writer w).
Proof.
  unfold write_batch_buffered. cbv zeta. intros [= <-]. unfold buf_write_all. cbv zeta. by repeat case_match.
Qed.

Lemma sync_name w w' : wal_sync w = (w', Ok tt) -> jw_name (w_writer w') = jw_name (w_writer w).
Proof.
  unfold wal_sync. erewrite ST_bind_Ok by reflexivity. erewrite ST_bind_Ok by reflexivity. unfold maybe_roll. cbv zeta.
  repeat case_match; by intros [= <-].
Qed.

Lemma prune_name wm w w' n : prune wm w = (w', Ok n) -> jw_name (w_writer w') = jw_name (w_writer w).
Proof. unfold prune. cbv zeta. repeat case_match; by intros [= <- _]. Qed.

Lemma db_name start hist d : db_reachable start hist d -> jw_name (w_writer (db_wal d)) = jw_name (w_writer (db_wal start)).
Proof.
  induction 1 as [|hist d bs d' _ IH Hs]; [done|]. rewrite <- IH. destruct Hs; cbn [db_wal w_writer]; eauto using write_name, sync_name, prune_name.
Qed.

(** A loop over the trees that succeeds on each. *)
Lemma for_trees_ok {A} (m : ST A unit) (f : Five A) (P : Z -> A -> Prop) :
  (forall ks a, tree_for_ks f ks = Some a -> exists a', m a = (a', Ok tt) /\ P ks a') ->
  exists f', for_trees m f = (f', Ok tt) /\ forall ks a, tree_for_ks f' ks = Some a -> P ks a.
Proof.
  intros H. destruct (H 0 _ eq_refl) as (a0 & M0 & P0), (H 1 _ eq_refl) as (a1 & M1 & P1), (H 2 _ eq_refl) as (a2 & M2 & P2),
    (H 3 _ eq_refl) as (a3 & M3 & P3), (H 4 _ eq_refl) as (a4 & M4 & P4). cbn in M0, M1, M2, M3, M4.
  exists (mkFive a0 a1 a2 a3 a4). split; [|intros ks a; ks_cases; by intros [= <-]].
  destruct f as [f0 f1 f2 f3 f4]. cbn in M0, M1, M2, M3, M4. unfold for_trees, KEYSPACES. cbn [for_ks].
  unfold mbind, ST_bind, mret, ST_ret. cbn. rewrite M0. cbn. rewrite M1. cbn. rewrite M2. cbn. rewrite M3. cbn. by rewrite M4.
Qed.

(** The recovery flush of one tree. *)
Definition recovery_fits (t : Tree) : Prop :=
  let s := fst (seal_active t) in
  flushable (flush_config s) (dk_next_table_id (t_disk s)) (sv_sealed (t_current s)) /\
  dk_next_table_id (t_disk s) + blen (sv_sealed (t_current s)) < 2 ^ 64 /\
  version_fits (sv_version (t_current (fst (flush_sealed s)))).

Lemma recovery_flush k0 hist k :
  (exists g, ks_inv k0 [] g) -> reachable k0 hist k -> ks_flush k = None -> recovery_fits (ks_tree k) ->
  exists k', (_ ← modify (fun t => fst (seal_active t)); flush_sealed_) (ks_tree k) = (ks_tree k', Ok tt) /\ reachable k0 hist k'.
Proof.
  intros H0 Hr Hf (F1 & F2 & F3). pose proof (reachable_then _ _ _ _ Hr (step_seal k)) as Hs.
  set (s := fst (seal_active (ks_tree k))) in *. set (ks := on_tree _ k) in *.
  assert (exists t' n, flush_sealed s = (t', Ok n)) as (t' & n & Hfl).
  { destruct (reachable_inv _ _ _ H0 Hs) as [g Hi]. pose proof (so_mem _ _ (hi_sv _ _ _ (ki_hist _ _ _ Hi))) as Hm. unfold memtables in Hm.
    apply Forall_cons in Hm as [_ Hm]. apply Forall_reverse in Hm. rewrite reverse_involutive in Hm.
    destruct (di_next _ _ _ (ki_disk _ _ _ Hi)) as [_ Hn]. change (ks_tree ks) with s in *.
    destruct (flush_memtables_ok (t_dir s) (flush_config s) _ (t_disk s) Hm ltac:(lia) F2 F1) as (ts & Hts & _).
    unfold flush_sealed, flush_begin, mbind, ST_bind. destruct (sv_sealed (t_current s)); [eauto|]. rewrite Hts. cbn. eauto. }
  exists (mkKeyspace t' None (ks_compact ks) (ks_wal ks) (ks_recovering ks)). split.
  - erewrite ST_bind_Ok by reflexivity. fold s. unfold flush_sealed_. by rewrite (ST_bind_Ok _ _ _ _ _ Hfl).
  - rewrite <- (app_nil_r hist). eapply reachable_trans; [exact Hs|]. eapply flush_sealed_run; [exact Hf|exact F1|exact F2|exact Hfl|].
    rewrite Hfl in F3. exact F3.
Qed.

Section open.
Context (test_env ghost_env : option bytes) (path : bytes) (config : EngineConfig) (stats now : OverlapStats).
Let cfg := tree_config test_env ghost_env config.
Let name := wal_file_name config.

Definition engine_dirs : Five bytes :=
  mkFive (path_join path (str "spatial")) (path_join path (str "identity")) (path_join path (str "dictionary"))
    (path_join path (str "ghosts")) (path_join path (str "vectors")).

Definition engine_configs : Five TreeConfig := mkFive (cfg Spatial) (cfg Identity) (cfg Dictionary) (cfg Ghosts) (cfg Vectors).

(** What a crash leaves of the directory. *)
Definition crash_image (d : Db) (files : WalDir) : DataDir :=
  mkDataDir (five_map (fun k => mkTreeFiles (dk_files (t_disk (ks_tree k))) (t_manifest (ks_tree k))) (db_ks d)) files.

Let start := fresh_db engine_dirs engine_configs None stats name (ec_wal_segment_max_bytes config).
Hypothesis Hname : segment_id name = None.
Hypothesis Hlimit : 0 < ec_wal_segment_max_bytes config.

Section crash.
Context (hist : list RecoveredBatch) (d : Db) (files : WalDir).
Hypothesis Hr : db_reachable start hist d.
Hypothesis Hc : crash_dir (w_dir (db_wal d)) files.
Let recovered := recover_journal files name.
Let last := surfaced (db_pending d) recovered.

(** The trees after the replay, as the keyspaces see them. *)
Lemma open_replay :
  (last = [] \/ exists b syn, db_pending d = Some (b, syn) /\ last = [b]) /\
  exists f, open_trees path cfg now (dd_trees (crash_image d files)) = Ok f /\
    forall ks t, tree_for_ks (replay recovered f) ks = Some t -> exists dir c,
      reachable (fresh_keyspace dir c None None stats) (ks_log ks (hist ++ last)) (mkKeyspace t None None (ks_log ks recovered) true).
Proof.
  assert (forall ks, ks_operator None ks = None) as Eop by (intros ks; unfold ks_operator; by case_match).
  destruct (crash_keyspaces _ _ _ _ _ _ none_laws Hname Hlimit hist d now files Hr Hc) as [Hl H].
  { intros ks k _ e _. by rewrite Eop. }
  assert (jw_name (w_writer (db_wal d)) = name) as En by exact (db_name _ _ _ Hr). rewrite En in Hl, H. fold recovered last in Hl, H. split; [exact Hl|].
  assert (forall ks k dir c, tree_for_ks (db_ks d) ks = Some k -> tree_for_ks engine_dirs ks = Some dir -> tree_for_ks engine_configs ks = Some c ->
    exists t, Tree_open dir c (dk_files (t_disk (ks_tree k))) (t_manifest (ks_tree k)) now = Ok t /\
      reachable (fresh_keyspace dir c None None stats) (ks_log ks (hist ++ last))
        (mkKeyspace (fold_left (fun t e => write_entry e t) (ks_log ks recovered) t) None None (ks_log ks recovered) true)) as Ht.
  { intros ks k dir c Hk Hd Hcf. destruct (H ks k Hk) as (t & dir' & c' & Hre & Hd' & Hcf' & Hrun).
    rewrite Hd in Hd'. injection Hd' as <-. rewrite Hcf in Hcf'. injection Hcf' as <-. rewrite Eop in Hrun.
    destruct (ks_run _ _ _ _ _ _ none_laws Hname Hlimit _ _ _ _ Hr Hk) as (dir' & c' & Hd' & Hcf' & Hrun0). rewrite Eop in Hrun0.
    rewrite Hd in Hd'. injection Hd' as <-. rewrite Hcf in Hcf'. injection Hcf' as <-.
    rewrite (reopen_plain _ _ dir c) in Hre by exact (reachable_fixed _ _ _ Hrun0).
    destruct (Tree_open _ _ _ _ _) as [t0| |]; [|done|done]. rewrite Result_bind_Ok in Hre. injection Hre as <-. eauto. }
  destruct (Ht 0 _ _ _ eq_refl eq_refl eq_refl) as (t0 & O0 & R0), (Ht 1 _ _ _ eq_refl eq_refl eq_refl) as (t1 & O1 & R1),
    (Ht 2 _ _ _ eq_refl eq_refl eq_refl) as (t2 & O2 & R2), (Ht 3 _ _ _ eq_refl eq_refl eq_refl) as (t3 & O3 & R3),
    (Ht 4 _ _ _ eq_refl eq_refl eq_refl) as (t4 & O4 & R4).
  exists (mkFive t0 t1 t2 t3 t4). split.
  - unfold open_trees, open_tree. cbn [dd_trees crash_image five_map spatial identity dictionary ghosts vectors tf_files tf_manifest].
    cbn [engine_dirs engine_configs spatial identity dictionary ghosts vectors] in O0, O1, O2, O3, O4. by rewrite O0, Result_bind_Ok, O1, Result_bind_Ok, O2, Result_bind_Ok, O3, Result_bind_Ok, O4, Result_bind_Ok.
  - intros ks t. rewrite replay_ks. intros (u & Hu & ->)%fmap_Some_1. revert Hu. ks_cases; intros [= <-]; eauto.
Qed.


End crash.
End open.

(** ** A commit while a checkpoint is in progress *)

(** The pause of a checkpoint is the flag by which commits recognise bulk loading:
    between the two ends of [checkpoint_flush] on the spatial tree (of a major
    compaction, of a snapshot) a commit is acknowledged without being logged. *)
Lemma paused_commit_skips_log e items ok :
  t_compaction_enabled (spatial (e_trees e)) = false -> e_poisoned e = false -> items <> [] ->
  Forall (fun it => is_Some (tree_for_ks (mkFive tt tt tt tt tt) (bi_keyspace_id it))) items ->
  exists e' sq, commit ok items e = (e', Ok sq) /\ e_journal e' = e_journal e.
Proof.
  intros Hen Hpo Hne Hv. set (sq := wrap64 (e_seqno e + 1)). destruct (insert_items_spec sq items (e_trees e) Hv) as (f & Hf & _).
  eexists _, sq. split; [|].
  - destruct items as [|it items]; [done|]. unfold commit. erewrite ST_bind_Ok by reflexivity. rewrite Hpo.
    erewrite ST_bind_Ok by reflexivity. fold sq. erewrite ST_bind_Ok by reflexivity.
    assert (log_batch ok sq (it :: items) (set_engine_seqno sq e) = (set_engine_seqno sq e, Ok tt)) as El.
    { unfold log_batch. erewrite ST_bind_Ok by reflexivity. cbn [e_trees set_engine_seqno]. by rewrite Hen. }
    rewrite (ST_bind_Ok _ _ _ _ _ El). erewrite ST_bind_Ok by (unfold on_trees; cbn [e_trees set_engine_seqno]; rewrite Hf; reflexivity).
    erewrite ST_bind_Ok by reflexivity. reflexivity.
  - done.
Qed.

(** ** Well-formed batches, decided *)

Definition batch_wf_check (b : RecoveredBatch) : bool :=
  bool_decide (is_uint 64 (rb_seqno b)) && bool_decide (is_uint 32 (blen (rb_items b))) &&
  forallb (fun it => bool_decide (is_uint 8 (bi_keyspace_id it)) && bool_decide (is_uint 32 (blen (bi_key it))) &&
    bool_decide (is_uint 32 (blen (bi_value it))) && bool_decide (is_bytes (bi_key it)) && bool_decide (is_bytes (bi_value it)) &&
    bool_decide (is_Some (tree_for_ks (mkFive tt tt tt tt tt) (bi_keyspace_id it))) &&
    bool_decide (norm_entry (item_entry (rb_seqno b) it) = item_entry (rb_seqno b) it)) (rb_items b) &&
  forallb (fun ks => bool_decide (NoDup (key <$> ks_items ks b))) KEYSPACES.

Lemma batch_wf_ok b : batch_wf_check b = true -> batch_wf b.
Proof.
  unfold batch_wf_check. rewrite !andb_true_iff, !forallb_forall, !bool_decide_eq_true. intros [[[H1 H2] H3] H4].
  assert (Forall (fun it => item_ok it /\ is_Some (tree_for_ks (mkFive tt tt tt tt tt) (bi_keyspace_id it)) /\
    norm_entry (item_entry (rb_seqno b) it) = item_entry (rb_seqno b) it) (rb_items b)) as H.
  { apply Forall_forall. intros it Hit%list_elem_of_In%H3. rewrite !andb_true_iff, !bool_decide_eq_true in Hit. unfold item_ok. tauto. }
  split.
  - split; [done|]. split; [done|]. eapply Forall_impl; [exact H|]. by intros it [].
  - eapply Forall_impl; [exact H|]. by intros it (_ & ? & _).
  - intros ks. destruct (decide (ks ∈ KEYSPACES)) as [Hin%list_elem_of_In%H4|Hni]; [by apply bool_decide_eq_true in Hin|].
    assert (ks_items ks b = []) as ->; [|constructor]. apply elem_of_nil_inv. intros e (it & -> & [E Hit]%list_elem_of_filter)%list_elem_of_fmap.
    rewrite Forall_forall in H. destruct (H it Hit) as (_ & Hs & _). apply Hni. rewrite <- E. revert Hs.
    unfold KEYSPACES. ks_cases; intros [? Hs]; inversion Hs; set_solver.
  - intros ks. apply Forall_forall. intros e (it & -> & [_ Hit]%list_elem_of_filter)%list_elem_of_fmap. rewrite Forall_forall in H.
    destruct (H it Hit) as (_ & _ & ?). by split.
Qed.

End theorems.

(** ** Witnesses *)

#[local] Existing Instances sample_xxh3 sample_codecs slist_skipmap list_heap.

(** Segments of 64 bytes, so that every sync rolls. *)
Definition db_config : EngineConfig :=
  mkEngineConfig (256 * 1024 * 1024) Ssd SyncData IoSsd None true None 64 DEFAULT_BUDGET_BYTES DefaultBudget.

Definition db_stats : OverlapStats := mkOverlapStats 0 ∅.

Definition db0 : Db :=
  fresh_db (engine_dirs (str "db")) (engine_configs None None db_config) None db_stats (wal_file_name db_config) 64.

Definition engine0 : TurbaEngine := mkTurbaEngine _ (five_map ks_tree (db_ks db0)) false (db_wal db0) 0 false db_config.

(** Two records, a dictionary entry and a vector in one batch; then a removal. *)
Definition items1 : WriteBatch :=
  put_vectors [97] [7; 7] (put_dictionary [100] [9] (put_spatial [98] [2] (put_spatial [97] [1] []))).
Definition items2 : WriteBatch := remove_spatial [98] [].
Definition batch1 : RecoveredBatch := mkBatch 1 items1.
Definition batch2 : RecoveredBatch := mkBatch 2 items2.

Lemma batches_wf : batch_wf batch1 /\ batch_wf batch2.
Proof. split; apply batch_wf_ok; vm_compute; reflexivity. Qed.

Lemma represents0 : represents engine0 db0.
Proof. by split. Qed.

(** The first batch committed, the second one in the log's buffer. *)
Definition wal1 : Wal := fst (write_batch_buffered 1 items1 (db_wal db0)).
Definition wal2 : Wal := fst (wal_sync wal1).
Definition db1 : Db := mkDb (five_imap (apply_batch batch1) (db_ks db0)) wal2 1 None false.
Definition wal3 : Wal := fst (write_batch_buffered 2 items2 wal2).
Definition db2 : Db := mkDb (db_ks db1) wal3 2 (Some (batch2, false)) false.

Lemma db_valid hist d b : db_reachable db0 hist d -> batch_valid (db_ks d) b.
Proof. intros Hr. eapply (batch_operands _ _ None _ _ _ none_laws); [..|exact Hr|by apply Forall_forall]; reflexivity. Qed.

Lemma db1_reachable : db_reachable db0 [batch1] db1.
Proof.
  change [batch1] with (([] ++ []) ++ [batch1]). destruct batches_wf.
  eapply db_next; [eapply db_next; [apply db_reachable_one, (db_log db0 batch1 wal1)|
    apply (db_sync (mkDb (db_ks db0) wal1 1 (Some (batch1, false)) false) wal2)]|
    apply (db_apply (mkDb (db_ks db0) wal2 1 (Some (batch1, true)) false) batch1)]; try done; [apply (db_valid [] db0), db_start|vm_compute; reflexivity..].
Qed.

Lemma db2_reachable : db_reachable db0 [batch1] db2.
Proof.
  change [batch1] with ([batch1] ++ []). eapply db_next; [apply db1_reachable|]. destruct batches_wf.
  apply (db_log db1 batch2 wal3); try done; [apply (db_valid _ _ _ db1_reachable)|vm_compute; reflexivity..].
Qed.

(** A crash that keeps what was synced. *)
Definition files2 : WalDir := fmap (fun f => mkWalFile (take (Z.to_nat (wf_synced f)) (wf_data f)) (wf_synced f)) (w_dir wal3).

Lemma files2_crash : crash_dir (w_dir (db_wal db2)) files2.
Proof.
  intros name. unfold files2. rewrite lookup_fmap. cbn [db_wal db2]. destruct (w_dir wal3 !! name) as [f|] eqn:E; [|done].
  assert (bool_decide (map_Forall (fun _ f => 0 <= wf_synced f <= blen (wf_data f)) (w_dir wal3)) = true) as Hf by (vm_compute; reflexivity).
  apply bool_decide_eq_true in Hf. specialize (Hf name f E). cbn in Hf. exists (wf_synced f). split; [lia|done].
Qed.

Lemma engine_reads_witness :
  get (ks_tree (spatial (db_ks db1))) [98] = Ok (Some [2]) /\ get (ks_tree (vectors (db_ks db1))) [97] = Ok (Some [7; 7]).
Proof.
  split.
  - rewrite (engine_reads _ _ None db_stats (wal_file_name db_config) 64 none_laws eq_refl ltac:(lia) [batch1] db1 KS_SPATIAL _ db1_reachable eq_refl [98] eq_refl). vm_compute. reflexivity.
  - rewrite (engine_reads _ _ None db_stats (wal_file_name db_config) 64 none_laws eq_refl ltac:(lia) [batch1] db1 KS_VECTORS _ db1_reachable eq_refl [97] eq_refl). vm_compute. reflexivity.
Defined.


Lemma commit_is_a_run_witness :
  exists e' d', commit true items1 engine0 = (e', Ok 1) /\ represents e' d' /\ db_reachable db0 [batch1] d'.
Proof.
  destruct (commit_is_a_run (engine_dirs (str "db")) (engine_configs None None db_config) None db_stats (wal_file_name db_config) 64 [] db0 engine0 items1) as (e' & d' & H1 & H2 & H3 & _);
    [exact none_laws|reflexivity|lia|apply db_start|exact represents0|reflexivity|reflexivity|reflexivity|discriminate|apply batches_wf|by apply Forall_forall|].
  exists e', d'. split; [exact H1|]. split; [exact H2|exact H3].
Defined.

Lemma commit_errors_witness :
  exists e' m m', commit false items1 engine0 = (e', Err (Corruption m)) /\ commit true items2 e' = (e', Err (Corruption m')).
Proof.
  destruct (commit_errors engine0 items1 ltac:(discriminate)) as [_ H]. destruct (H eq_refl eq_refl eq_refl) as (e' & m & H1 & _ & _ & H2).
  destruct (H2 true items2 ltac:(discriminate)) as [m' H3]. exists e', m, m'. split; [exact H1|exact H3].
Defined.

(** Nothing is flushed yet: the pruner has nothing to drop, the rotation refuses. *)
Lemma log_cuts_are_runs_witness :
  let e1 := mkTurbaEngine _ (five_map ks_tree (db_ks db1)) false (db_wal db1) 1 false db_config in
  (exists e' d' n, prune_wal e1 = (e', Ok n) /\ represents e' d' /\ db_reachable db0 [batch1] d') /\
  exists t, t ∈ trees (e_trees e1) /\ t_manifest_durable_seqno t < t_seqno t.
Proof.
  intros e1. destruct (log_cuts_are_runs _ _ None db_stats (wal_file_name db_config) 64 [batch1] db1 e1 none_laws eq_refl ltac:(lia) db1_reachable) as [H1 H2]; [by split|].
  split; [exact H1|]. assert (exists m, rotate_journal e1 = (e1, Err (WalRotatePrecondition m))) as [m E] by (eexists; vm_compute; reflexivity).
  rewrite E in H2. destruct H2 as [_ (t & Ht & Hlt)]. exists t. split; [|exact Hlt]. clear -Ht. clearbody e1. unfold trees.
  rewrite !elem_of_cons in *. tauto.
Defined.

(** The recovery flush of the crash image, decided. *)
Lemma recovery_fits_check t :
  (let s := fst (seal_active t) in flush_check s && bool_decide (version_fits (sv_version (t_current (fst (flush_sealed s)))))) = true -> recovery_fits t.
Proof. intros [[H1 H2]%flush_check_ok H3%bool_decide_eq_true]%andb_true_iff. by split. Qed.


(** ** A prune in the middle of a commit *)

(** The batch is synced, its segment rolled, and its items not yet inserted: every
    tree is caught up, the watermark is the highest number there is, and the
    pruner deletes the segment. The commit then returns, and a crash loses it. *)
Lemma prune_window :
  exists w n, prune (wal_prune_watermark (ks_tree <$> trees (db_ks db0))) wal2 = (w, Ok n) /\
    wal_batches wal2 = [batch1] /\ wal_batches w = [].
Proof. eexists _, _. split; [vm_compute; reflexivity|]. split; vm_compute; reflexivity. Qed.

(** ** Writes past the log *)

(** [Tree::insert] counts with the tree's own number, [commit] with the engine's. After
    two such writes to the dictionary, flushed, the batch of a commit has a number
    below the durable one: the dictionary counts as caught up, the pruner deletes the
    segment, and a crash loses the entry. *)
Definition ahead : Tree := let t := fst (insert [255; 2] [] (fst (insert [255; 1] [] (dictionary (e_trees engine0))))) in fst (flush_sealed (fst (seal_active t))).

Definition engine_ahead : TurbaEngine :=
  mkTurbaEngine _ (update_ks KS_DICTIONARY (fun _ => ahead) (e_trees engine0)) false (e_journal engine0) 0 false db_config.

Lemma direct_writes_unpin_log :
  exists e', commit true (put_dictionary [100] (repeat 9 64) []) engine_ahead = (e', Ok 1) /\ get (dictionary (e_trees e')) [100] = Ok (Some (repeat 9 64)) /\
    exists e'' n, prune_wal e' = (e'', Ok n) /\ wal_batches (e_journal e'') = [] /\
      exists t, reopen db_stats (dictionary (e_trees e'')) [] = Ok t /\ get t [100] = Ok None /\ get t [255; 2] = Ok (Some []).
Proof.
  eexists. split; [vm_compute; reflexivity|]. split; [vm_compute; reflexivity|]. eexists _, _. split; [vm_compute; reflexivity|]. split; [vm_compute; reflexivity|].
  eexists. split; [vm_compute; reflexivity|]. split; vm_compute; reflexivity.
Qed.
