(* ===== verification/ByteOrder.v ===== *)
(** * Orders of bytes and of floating-point numbers

    Encoded fields under the order of byte strings, and floating-point numbers as
    their bits, whose order is that of the values. *)

From Corelib Require Import SpecFloat.
From S2P Require Import Prelude Types Bloom.

(** * The order of encoded fields

    Big-endian integers and fixed-length tails under the lexicographic order of
    byte strings: what the key formats above the storage engine rely on. *)

(** The outcome of a comparison field by field. *)
Definition then_cmp (c d : comparison) : comparison := match c with Eq => d | _ => c end.

Lemma then_cmp_Eq c d : then_cmp c d = Eq <-> c = Eq /\ d = Eq.
Proof. destruct c; simpl; naive_solver. Qed.

Lemma then_cmp_assoc c d e : then_cmp (then_cmp c d) e = then_cmp c (then_cmp d e).
Proof. by destruct c. Qed.

Lemma bcmp_cons x a y b : bcmp (x :: a) (y :: b) = then_cmp (x ?= y) (bcmp a b).
Proof. simpl. by destruct (x ?= y). Qed.

(** A big-endian integer followed by more compares first by the integer. *)
Lemma bcmp_be n x y a b :
  is_uint (8 * Z.of_nat n) x -> is_uint (8 * Z.of_nat n) y ->
  bcmp (to_be_bytes n x ++ a) (to_be_bytes n y ++ b) = then_cmp (x ?= y) (bcmp a b).
Proof.
  revert x y a b. induction n as [|n IH]; intros x y a b Hx Hy.
  - unfold is_uint in *. change (8 * Z.of_nat 0) with 0 in *. replace x with 0 by lia. by replace y with 0 by lia.
  - rewrite !to_be_bytes_S, <- !app_assoc. cbn [app].
    assert (forall v, is_uint (8 * Z.of_nat (S n)) v -> is_uint (8 * Z.of_nat n) (v / 256)) as Hd.
    { unfold is_uint. intros v. replace (8 * Z.of_nat (S n)) with (8 + 8 * Z.of_nat n) by lia.
      rewrite Z.pow_add_r by lia. change (2 ^ 8) with 256. intros. split; [apply Z.div_pos; lia|].
      apply Z.div_lt_upper_bound; lia. }
    rewrite IH by auto. rewrite bcmp_cons, <- then_cmp_assoc. f_equal.
    pose proof (Z.div_mod x 256 ltac:(lia)). pose proof (Z.div_mod y 256 ltac:(lia)).
    pose proof (Z.mod_pos_bound x 256 ltac:(lia)). pose proof (Z.mod_pos_bound y 256 ltac:(lia)).
    destruct (Z.compare_spec (x / 256) (y / 256)), (Z.compare_spec (x mod 256) (y mod 256)); simpl;
      symmetry; first [apply Z.compare_eq_iff|apply Z.compare_lt_iff|apply Z.compare_gt_iff]; lia.
Qed.

Lemma bcmp_be_last n x y :
  is_uint (8 * Z.of_nat n) x -> is_uint (8 * Z.of_nat n) y ->
  bcmp (to_be_bytes n x) (to_be_bytes n y) = (x ?= y).
Proof.
  intros Hx Hy. rewrite <- (app_nil_r (to_be_bytes n x)), <- (app_nil_r (to_be_bytes n y)), bcmp_be by done.
  by destruct (x ?= y).
Qed.

(** Between two keys that share a field lie only keys with that field. *)
Lemma between_field x y c d :
  then_cmp (x ?= y) c <> Gt /\ then_cmp (y ?= x) d <> Gt <-> x = y /\ c <> Gt /\ d <> Gt.
Proof.
  rewrite (Z.compare_antisym x y).
  destruct (Z.compare_spec x y); simpl; split; try (intros [? ?]; done); try (intros (? & ? & ?); lia); naive_solver.
Qed.

(** The least and the greatest tail of a given length. *)
Lemma bcmp_zeros n b : is_bytes b -> length b = n -> bcmp (replicate n 0) b <> Gt.
Proof.
  intros Hb <-. induction Hb as [|x b Hx _ IH]; [done|]. cbn [length replicate]. rewrite bcmp_cons.
  destruct (Z.compare_spec 0 x); [done|done|lia].
Qed.

Lemma bcmp_ones n b : is_bytes b -> length b = n -> bcmp b (replicate n 255) <> Gt.
Proof.
  intros Hb <-. induction Hb as [|x b Hx _ IH]; [done|]. cbn [length replicate]. rewrite bcmp_cons.
  destruct (Z.compare_spec x 255); [done|done|lia].
Qed.

Lemma to_be_bytes_is_bytes n z : is_bytes (to_be_bytes n z).
Proof. unfold to_be_bytes, is_bytes. rewrite Forall_reverse. apply to_le_bytes_is_bytes. Qed.

Lemma to_le_bytes_add n m z : to_le_bytes (n + m) z = to_le_bytes n z ++ to_le_bytes m (z / 2 ^ (8 * Z.of_nat n)).
Proof.
  revert z. induction n as [|n IH]; intros z.
  - change (2 ^ (8 * Z.of_nat 0)) with 1. by rewrite Z.div_1_r.
  - change (S n + m)%nat with (S (n + m)). unfold to_le_bytes; fold to_le_bytes. rewrite IH. cbn [app]. do 3 f_equal.
    replace (8 * Z.of_nat (S n)) with (8 + 8 * Z.of_nat n) by lia. rewrite Z.pow_add_r by lia.
    change (2 ^ 8) with 256. by rewrite Z.div_div by lia.
Qed.

Lemma from_le_bytes_zeros b n : from_le_bytes (b ++ replicate n 0) = from_le_bytes b.
Proof.
  induction b as [|x b IH]; cbn [app].
  - induction n as [|n IH]; [done|]. cbn [replicate]. unfold from_le_bytes in *; fold from_le_bytes in *. lia.
  - unfold from_le_bytes in *; fold from_le_bytes in *. by rewrite IH.
Qed.

Lemma from_be_bytes_range b n : is_bytes b -> length b = n -> is_uint (8 * Z.of_nat n) (from_be_bytes b).
Proof.
  intros Hb <-. unfold from_be_bytes. rewrite <- (length_reverse b). apply (from_le_bytes_range (reverse b)).
  unfold is_bytes. by rewrite Forall_reverse.
Qed.

(** * Floating-point numbers as their bits

    A stored [f64] or [f32] is kept as its bit pattern ([to_bits]), so that NaN
    payloads and the sign of zero survive; comparisons go through the value the
    bits stand for. The main lemma: the order of the values is the order of the
    bits with the sign bit flipped, or all bits flipped when it is set. *)

(** The value of a magnitude (the bits without the sign) with [mw] bits of
    significand and [ew] of exponent; [emin] is the exponent of the subnormals. *)
Definition value_of_mag (mw ew emin : Z) (s : bool) (mag : Z) : spec_float :=
  let e := mag / 2 ^ mw in
  let m := mag mod 2 ^ mw in
  if e =? 2 ^ ew - 1 then (if m =? 0 then S754_infinity s else S754_nan)
  else if e =? 0 then match m with Zpos p => S754_finite s p emin | _ => S754_zero s end
  else match m + 2 ^ mw with Zpos p => S754_finite s p (e - 1 + emin) | _ => S754_nan end.

Definition value_of_bits (mw ew emin : Z) (b : Z) : spec_float :=
  value_of_mag mw ew emin (Z.testbit b (mw + ew)) (b mod 2 ^ (mw + ew)).

Definition f64_from_bits : Z -> spec_float := value_of_bits 52 11 (-1074).
Definition f32_from_bits : Z -> spec_float := value_of_bits 23 8 (-149).

(** [a.partial_cmp(&b)] and [a == b] on [f64], [a == b] on [f32]. *)
Definition f64_partial_cmp (a b : Z) : option comparison := SFcompare (f64_from_bits a) (f64_from_bits b).
Definition f64_eqb (a b : Z) : bool := SFeqb (f64_from_bits a) (f64_from_bits b).
Definition f32_eqb (a b : Z) : bool := SFeqb (f32_from_bits a) (f32_from_bits b).

(** [i as f64], as a value. *)
Definition i64_as_f64 (i : Z) : spec_float := binary_normalize 53 1024 i 0 false.

Example f64_one : f64_from_bits 4607182418800017408 = S754_finite false 4503599627370496 (-52).
Proof. vm_compute. reflexivity. Qed.

(** ** Order of magnitudes *)

(** Numbers written with quotient and remainder compare by one, then the other. *)
Lemma compare_divmod m a b ea ma eb mb :
  0 < m -> a = m * ea + ma -> b = m * eb + mb -> 0 <= ma < m -> 0 <= mb < m ->
  (a ?= b) = then_cmp (ea ?= eb) (ma ?= mb).
Proof.
  intros Hm -> -> Ha Hb. destruct (Z.compare_spec ea eb) as [->|H|H]; cbn [then_cmp].
  - destruct (Z.compare_spec ma mb); [apply Z.compare_eq_iff|apply Z.compare_lt_iff|apply Z.compare_gt_iff]; lia.
  - apply Z.compare_lt_iff. nia.
  - apply Z.compare_gt_iff. nia.
Qed.

Section mags.
Context (mw ew emin : Z) (Hmw : 0 < mw) (Hew : 1 < ew).

(** The bits of infinity; above them are the NaNs. *)
Definition inf_mag : Z := (2 ^ ew - 1) * 2 ^ mw.

(** The kinds of magnitudes that are not NaNs. *)
Lemma mag_cases a :
  0 <= a <= inf_mag ->
  exists e m, a = 2 ^ mw * e + m /\ 0 <= m < 2 ^ mw /\
    ((e = 2 ^ ew - 1 /\ m = 0 /\ forall s, value_of_mag mw ew emin s a = S754_infinity s) \/
     (e = 0 /\ m = 0 /\ forall s, value_of_mag mw ew emin s a = S754_zero s) \/
     (0 <= e < 2 ^ ew - 1 /\ exists p, (e = 0 /\ Zpos p = m \/ 0 < e /\ Zpos p = m + 2 ^ mw) /\
        forall s, value_of_mag mw ew emin s a = S754_finite s p (Z.max 0 (e - 1) + emin))).
Proof.
  intros Ha. unfold inf_mag in Ha.
  assert (0 < 2 ^ mw) as HM by (apply Z.pow_pos_nonneg; lia).
  assert (2 < 2 ^ ew) as HE by (change 2 with (2 ^ 1) at 1; apply Z.pow_lt_mono_r; lia).
  pose proof (Z.div_mod a (2 ^ mw) ltac:(lia)) as Ea. pose proof (Z.mod_pos_bound a (2 ^ mw) HM) as Ma.
  exists (a / 2 ^ mw), (a mod 2 ^ mw). split; [done|]. split; [done|]. unfold value_of_mag.
  set (e := a / 2 ^ mw) in *. set (m := a mod 2 ^ mw) in *. clearbody e m.
  assert (0 <= e <= 2 ^ ew - 1) as He by nia.
  destruct (Z.eqb_spec e (2 ^ ew - 1)) as [->|Hne].
  { left. assert (m = 0) as -> by nia. done. }
  right. destruct (Z.eqb_spec e 0) as [->|Hn0].
  - destruct m as [|p|p]; [by left| |lia]. right. split; [lia|]. exists p. split; [by left|done].
  - right. split; [lia|]. destruct (m + 2 ^ mw) as [|p|p] eqn:Ep; [lia| |lia]. exists p. split; [right; lia|].
    intros s. f_equal. lia.
Qed.

Lemma SFcompare_mag a b :
  0 <= a <= inf_mag -> 0 <= b <= inf_mag ->
  SFcompare (value_of_mag mw ew emin false a) (value_of_mag mw ew emin false b) = Some (a ?= b) /\
  SFcompare (value_of_mag mw ew emin true a) (value_of_mag mw ew emin true b) = Some (CompOpp (a ?= b)).
Proof.
  intros Ha Hb. assert (0 < 2 ^ mw) as HM by (apply Z.pow_pos_nonneg; lia).
  assert (2 < 2 ^ ew) as HE by (change 2 with (2 ^ 1) at 1; apply Z.pow_lt_mono_r; lia).
  destruct (mag_cases a Ha) as (ea & ma & Ea & Hma & Ca), (mag_cases b Hb) as (eb & mb & Eb & Hmb & Cb).
  rewrite (compare_divmod (2 ^ mw) a b ea ma eb mb) by done.
  destruct Ca as [(? & ? & Va)|[(? & ? & Va)|(? & pa & Pa & Va)]], Cb as [(? & ? & Vb)|[(? & ? & Vb)|(? & pb & Pb & Vb)]];
    rewrite !Va, !Vb; unfold SFcompare; try change (Pos.compare_cont Eq pa pb) with (Zpos pa ?= Zpos pb);
    repeat match goal with |- context [?x ?= ?y] => destruct (Z.compare_spec x y); cbn [then_cmp CompOpp] end; try done; exfalso; lia.
Qed.
End mags.

(** ** Total order of the bits of an [f64] *)

(** [!x] on a [w]-bit integer. *)
Definition not_bits (w x : Z) : Z := 2 ^ w - 1 - x.

Definition SIGN_64 : Z := Z.shiftl 1 63.

(** The order-preserving transform of sort_encoding.rs and metric_order.rs. *)
Definition f64_order_bits (bits : Z) : Z :=
  if negb (Z.land bits SIGN_64 =? 0) then not_bits 64 bits else Z.lxor bits SIGN_64.

Definition is_nan (bits : Z) : bool := match f64_from_bits bits with S754_nan => true | _ => false end.

(** Both zeros, of either sign. *)
Definition is_zero (bits : Z) : bool := bits mod 2 ^ 63 =? 0.

Lemma sign_bit b : is_uint 64 b -> Z.testbit b 63 = bool_decide (2 ^ 63 <= b).
Proof.
  intros Hb. destruct (decide (2 ^ 63 <= b)) as [H|H].
  - rewrite bool_decide_true by done. rewrite Z.testbit_true by lia.
    replace (b / 2 ^ 63) with 1; [done|]. apply Z.div_unique with (b - 2 ^ 63); unfold is_uint in Hb; lia.
  - rewrite bool_decide_false by done. apply (testbit_small b 63); unfold is_uint in Hb; lia.
Qed.

Lemma land_sign b : is_uint 64 b -> (Z.land b SIGN_64 =? 0) = negb (Z.testbit b 63).
Proof.
  intros Hb. change SIGN_64 with (2 ^ 63). destruct (Z.testbit b 63) eqn:E; simpl.
  - apply Z.eqb_neq. intros H. assert (Z.testbit (Z.land b (2 ^ 63)) 63 = true) as H'; [|by rewrite H in H'].
    rewrite Z.land_spec, E, Z.pow2_bits_true by lia. done.
  - apply Z.eqb_eq, Z.bits_inj'. intros n Hn. rewrite Z.land_spec, Z.bits_0.
    destruct (decide (n = 63)) as [->|]; [by rewrite E|]. rewrite Z.pow2_bits_false by lia. apply andb_false_r.
Qed.

Lemma f64_order_bits_spec b :
  is_uint 64 b -> f64_order_bits b = if decide (2 ^ 63 <= b) then 2 ^ 64 - 1 - b else 2 ^ 63 + b.
Proof.
  intros Hb. unfold f64_order_bits. rewrite land_sign, negb_involutive, sign_bit by done.
  destruct (decide _) as [H|H]; [by rewrite bool_decide_true|rewrite bool_decide_false by done].
  change SIGN_64 with (2 ^ 63). rewrite Z.lxor_comm, <- Z.add_nocarry_lxor; [done|].
  apply Z.bits_inj'. intros n Hn. rewrite Z.land_spec, Z.bits_0.
  destruct (decide (n = 63)) as [->|]; [|by rewrite Z.pow2_bits_false by lia].
  rewrite (testbit_small b 63) by (unfold is_uint in Hb; lia). apply andb_false_r.
Qed.

Lemma f64_order_bits_range b : is_uint 64 b -> is_uint 64 (f64_order_bits b).
Proof. intros Hb. rewrite f64_order_bits_spec by done. unfold is_uint in *. case_decide; lia. Qed.

Lemma f64_order_bits_inj a b : is_uint 64 a -> is_uint 64 b -> f64_order_bits a = f64_order_bits b -> a = b.
Proof. intros Ha Hb. rewrite !f64_order_bits_spec by done. unfold is_uint in *. repeat case_decide; lia. Qed.

Lemma bits_parts b : is_uint 64 b ->
  f64_from_bits b = value_of_mag 52 11 (-1074) (bool_decide (2 ^ 63 <= b)) (b mod 2 ^ 63) /\
  b = b mod 2 ^ 63 + (if decide (2 ^ 63 <= b) then 2 ^ 63 else 0) /\ 0 <= b mod 2 ^ 63 < 2 ^ 63.
Proof.
  intros Hb. unfold f64_from_bits, value_of_bits. change (52 + 11) with 63. rewrite sign_bit by done. split; [done|].
  split; [|apply Z.mod_pos_bound; lia]. unfold is_uint in Hb. case_decide.
  - rewrite <- (Z.mod_unique b (2 ^ 63) 1 (b - 2 ^ 63)); lia.
  - rewrite Z.mod_small; lia.
Qed.

Lemma not_nan_mag b : is_nan b = false -> is_uint 64 b -> 0 <= b mod 2 ^ 63 <= inf_mag 52 11.
Proof.
  intros Hn Hb. destruct (bits_parts b Hb) as (Ev & _ & Hm). unfold is_nan in Hn. rewrite Ev in Hn.
  split; [lia|]. destruct (Z.le_gt_cases (b mod 2 ^ 63) (inf_mag 52 11)) as [|H]; [done|exfalso].
  unfold value_of_mag in Hn. change (inf_mag 52 11) with (2047 * 2 ^ 52) in H.
  pose proof (Z.div_mod (b mod 2 ^ 63) (2 ^ 52) ltac:(lia)). pose proof (Z.mod_pos_bound (b mod 2 ^ 63) (2 ^ 52) ltac:(lia)).
  assert (b mod 2 ^ 63 / 2 ^ 52 = 2047) as E by lia. rewrite E in *.
  change (2047 =? 2 ^ 11 - 1) with true in Hn. cbn iota in Hn.
  destruct (Z.eqb_spec (b mod 2 ^ 63 mod 2 ^ 52) 0); [lia|done].
Qed.

(** Numbers of different signs. *)
Lemma SFcompare_signs a b :
  0 <= a <= inf_mag 52 11 -> 0 <= b <= inf_mag 52 11 ->
  SFcompare (value_of_mag 52 11 (-1074) true a) (value_of_mag 52 11 (-1074) false b) =
    Some (if (a =? 0) && (b =? 0) then Eq else Lt) /\
  SFcompare (value_of_mag 52 11 (-1074) false a) (value_of_mag 52 11 (-1074) true b) =
    Some (if (a =? 0) && (b =? 0) then Eq else Gt).
Proof.
  intros Ha Hb. destruct (mag_cases 52 11 (-1074) ltac:(lia) ltac:(lia) a Ha) as (ea & ma & Ea & Hma & Ca).
  destruct (mag_cases 52 11 (-1074) ltac:(lia) ltac:(lia) b Hb) as (eb & mb & Eb & Hmb & Cb).
  change (2 ^ 11 - 1) with 2047 in *.
  destruct Ca as [(? & ? & Va)|[(? & ? & Va)|(? & pa & Pa & Va)]], Cb as [(? & ? & Vb)|[(? & ? & Vb)|(? & pb & Pb & Vb)]];
    rewrite !Va, !Vb; unfold SFcompare; destruct (Z.eqb_spec a 0), (Z.eqb_spec b 0); simpl; try done; exfalso; lia.
Qed.

(** Two numbers that are not NaNs compare as their ordered bits, except that the
    two zeros are equal and have different bits. *)
Lemma f64_order a b :
  is_uint 64 a -> is_uint 64 b -> is_nan a = false -> is_nan b = false ->
  f64_partial_cmp a b = Some (if is_zero a && is_zero b then Eq else f64_order_bits a ?= f64_order_bits b).
Proof.
  intros Ha Hb Na Nb. pose proof (not_nan_mag a Na Ha) as Ma. pose proof (not_nan_mag b Nb Hb) as Mb.
  destruct (bits_parts a Ha) as (Va & Ea & Ra), (bits_parts b Hb) as (Vb & Eb & Rb).
  unfold f64_partial_cmp, is_zero. rewrite Va, Vb, !f64_order_bits_spec by done.
  destruct (SFcompare_mag 52 11 (-1074) ltac:(lia) ltac:(lia) _ _ Ma Mb) as [Hp Hn].
  destruct (SFcompare_signs _ _ Ma Mb) as [Hnp Hpn].
  set (ma := a mod 2 ^ 63) in *. set (mb := b mod 2 ^ 63) in *. clearbody ma mb.
  destruct (decide (2 ^ 63 <= a)) as [Sa|Sa]; [rewrite (bool_decide_true _ Sa)|rewrite (bool_decide_false _ Sa)];
    (destruct (decide (2 ^ 63 <= b)) as [Sb|Sb]; [rewrite (bool_decide_true _ Sb)|rewrite (bool_decide_false _ Sb)]);
    rewrite ?Hp, ?Hn, ?Hnp, ?Hpn; f_equal;
    destruct (Z.eqb_spec ma 0), (Z.eqb_spec mb 0); cbn [andb]; try done; subst a b;
    repeat match goal with |- context [?x ?= ?y] => destruct (Z.compare_spec x y); cbn [CompOpp] end; try done; exfalso; lia.
Qed.
