(* ===== verification/BTree.v ===== *)
(** * Ordered maps ([std::collections::BTreeMap])

    A map as the list of its entries in key order: what iteration yields. The key
    order is a class, so that strings and integers share the lemmas. *)

From S2P Require Import Prelude.

(** A total order given by a comparison ([Ord]). *)
Class Ord (K : Type) := {
  ocmp : K -> K -> comparison;
  ocmp_eq a b : ocmp a b = Eq <-> a = b;
  ocmp_opp a b : ocmp b a = CompOpp (ocmp a b);
  ocmp_trans a b c : ocmp a b = Lt -> ocmp b c = Lt -> ocmp a c = Lt;
}.

#[export, refine] Instance Ord_Z : Ord Z := {| ocmp := Z.compare |}.
Proof.
  - apply Z.compare_eq_iff.
  - intros. apply Z.compare_antisym.
  - intros a b c. rewrite !Z.compare_lt_iff. lia.
Defined.

#[export, refine] Instance Ord_bytes : Ord bytes := {| ocmp := bcmp |}.
Proof.
  - apply bcmp_eq.
  - apply bcmp_opp.
  - apply bcmp_trans.
Defined.

Abbreviation BTreeMap K V := (list (K * V)).

Section btree.
Context {K V : Type} {OK : Ord K}.

(** [map.get(k)] *)
Fixpoint bt_get (k : K) (m : BTreeMap K V) : option V :=
  match m with
  | [] => None
  | (k', v) :: m' => match ocmp k k' with Eq => Some v | _ => bt_get k m' end
  end.

(** [map.insert(k, v)]: the value of an existing key is replaced. *)
Fixpoint bt_insert (k : K) (v : V) (m : BTreeMap K V) : BTreeMap K V :=
  match m with
  | [] => [(k, v)]
  | (k', v') :: m' =>
    match ocmp k k' with
    | Lt => (k, v) :: (k', v') :: m'
    | Eq => (k, v) :: m'
    | Gt => (k', v') :: bt_insert k v m'
    end
  end.

(** [iter.collect::<BTreeMap<_, _>>()]: later entries win. *)
Definition bt_collect (l : list (K * V)) : BTreeMap K V := foldl (fun m kv => bt_insert kv.1 kv.2 m) [] l.

Definition klt (a b : K * V) : Prop := ocmp a.1 b.1 = Lt.
Definition bt_sorted (m : BTreeMap K V) : Prop := StronglySorted klt m.

(** ** Lemmas *)

Lemma ocmp_refl (k : K) : ocmp k k = Eq.
Proof. by apply ocmp_eq. Qed.

Lemma ocmp_gt (a b : K) : ocmp a b = Gt -> ocmp b a = Lt.
Proof. intros H. by rewrite ocmp_opp, H. Qed.

Lemma bt_get_below k m : Forall (fun kv => ocmp k kv.1 = Lt) m -> bt_get k m = None.
Proof. induction 1 as [|[k' v'] m Hk _ IH]; simpl in *; [done|]. by rewrite Hk. Qed.

Lemma bt_get_insert k k' v m :
  bt_get k (bt_insert k' v m) = match ocmp k k' with Eq => Some v | _ => bt_get k m end.
Proof.
  induction m as [|[k1 v1] m IH]; simpl.
  - by destruct (ocmp k k').
  - destruct (ocmp k' k1) eqn:E; simpl.
    + apply ocmp_eq in E as ->. by destruct (ocmp k k1).
    + by destruct (ocmp k k').
    + rewrite IH. destruct (ocmp k k') eqn:E'; [|done..]. apply ocmp_eq in E' as ->. by rewrite E.
Qed.

Lemma bt_insert_elem k v m kv : kv ∈ bt_insert k v m -> kv = (k, v) \/ kv ∈ m.
Proof.
  induction m as [|[k1 v1] m IH]; simpl; [set_solver|]. destruct (ocmp k k1); set_solver.
Qed.

Lemma bt_insert_sorted k v m : bt_sorted m -> bt_sorted (bt_insert k v m).
Proof.
  unfold bt_sorted. induction 1 as [|[k1 v1] m Hs IH Hk]; simpl; [repeat constructor|].
  destruct (ocmp k k1) eqn:E.
  - apply ocmp_eq in E as ->. by constructor.
  - constructor; [by constructor|]. constructor; [done|]. eapply Forall_impl; [exact Hk|].
    intros [k2 v2]. unfold klt. simpl. by apply ocmp_trans.
  - constructor; [done|]. rewrite Forall_forall in *. intros kv [->|H]%bt_insert_elem; [by apply ocmp_gt|auto].
Qed.

Lemma bt_collect_snoc l kv : bt_collect (l ++ [kv]) = bt_insert kv.1 kv.2 (bt_collect l).
Proof. unfold bt_collect. by rewrite foldl_app. Qed.

Lemma bt_collect_sorted l : bt_sorted (bt_collect l).
Proof.
  induction l as [|kv l IH] using rev_ind; [constructor|]. rewrite bt_collect_snoc. by apply bt_insert_sorted.
Qed.

Lemma bt_get_elem k v m : bt_sorted m -> bt_get k m = Some v <-> (k, v) ∈ m.
Proof.
  induction 1 as [|[k1 v1] m Hs IH Hk]; simpl; [set_solver|]. rewrite Forall_forall in Hk.
  assert (forall v', (k1, v') ∈ m -> False) as Hno.
  { intros v' H%Hk. unfold klt in H. simpl in H. by rewrite ocmp_refl in H. }
  destruct (ocmp k k1) eqn:E.
  - apply ocmp_eq in E as ->. rewrite elem_of_cons. naive_solver.
  - rewrite IH, elem_of_cons. split; [by right|]. intros [[= -> ->]|?]; [by rewrite ocmp_refl in E|done].
  - rewrite IH, elem_of_cons. split; [by right|]. intros [[= -> ->]|?]; [by rewrite ocmp_refl in E|done].
Qed.

(** Sorted maps with the same bindings are the same list. *)
Lemma bt_ext m m' : bt_sorted m -> bt_sorted m' -> (forall k, bt_get k m = bt_get k m') -> m = m'.
Proof.
  assert (forall l, bt_sorted l -> NoDup l) as Hnd.
  { induction 1 as [|kv l _ IH Hk]; constructor; [|done]. intros H. rewrite Forall_forall in Hk. apply Hk in H.
    unfold klt in H. by rewrite ocmp_refl in H. }
  intros Hs Hs' Heq. apply (StronglySorted_unique_strong klt); [|done|done|].
  - intros a b _ _ Hab Hba. exfalso. unfold klt in *. rewrite ocmp_opp, Hab in Hba. done.
  - apply NoDup_Permutation; [by apply Hnd..|]. intros [k v]. rewrite <- !bt_get_elem by done. by rewrite Heq.
Qed.

(** A list of entries with distinct keys, collected. *)
Lemma bt_get_collect k v l :
  NoDup l.*1 -> bt_get k (bt_collect l) = Some v <-> (k, v) ∈ l.
Proof.
  induction l as [|[k1 v1] l IH] using rev_ind; [set_solver|]. rewrite fmap_app, NoDup_app. intros (Hl & Hd & _).
  rewrite bt_collect_snoc, bt_get_insert, elem_of_app, list_elem_of_singleton. cbn [fst snd].
  destruct (ocmp k k1) eqn:E.
  - apply ocmp_eq in E as ->. split; [intros [= ->]; by right|]. intros [H|[= ->]]; [|done]. exfalso.
    apply (Hd k1); [|left]. apply list_elem_of_fmap. by exists (k1, v).
  - rewrite IH by done. split; [by left|]. intros [?|[= -> ->]]; [done|by rewrite ocmp_refl in E].
  - rewrite IH by done. split; [by left|]. intros [?|[= -> ->]]; [done|by rewrite ocmp_refl in E].
Qed.

Lemma bt_sorted_nodup m : bt_sorted m -> NoDup m.*1.
Proof.
  induction 1 as [|[k v] m _ IH Hk]; cbn; constructor; [|done]. intros ([k' v'] & -> & H)%list_elem_of_fmap.
  rewrite Forall_forall in Hk. apply Hk in H. unfold klt in H. simpl in H. by rewrite ocmp_refl in H.
Qed.

Lemma bt_sorted_filter (P : K * V -> Prop) `{!forall x, Decision (P x)} m : bt_sorted m -> bt_sorted (filter P m).
Proof.
  induction 1 as [|kv m _ IH Hk]; [constructor|]. rewrite filter_cons. case_decide; [|done]. constructor; [done|].
  rewrite Forall_forall in *. intros y [_ Hy]%list_elem_of_filter. auto.
Qed.

End btree.
