(* ===== verification/Value.v ===== *)
(** * Values and filters (core/src/value.rs, the filters of core/src/record.rs)

    The dynamic values of record fields, their partial order and equality, the
    resolution of dotted paths and the evaluation of filters. A string is its
    UTF-8 bytes, a float is its bits, a map the list of its entries in key
    order. *)

From Corelib Require Import SpecFloat.
From S2P Require Import Prelude ByteOrder Bloom BTree Paths.

Inductive Value :=
  | Bool (v : bool)
  | Int (v : Z)
  | Float (bits : Z)
  | Text (v : bytes)
  | Timestamp (v : Z)
  | Bytes (v : bytes)
  | List (v : list Value)
  | Map (v : BTreeMap bytes Value)
  | Null
  | Vector (bits : list Z).

(** [type_name] *)
Definition type_name (v : Value) : string :=
  match v with
  | Bool _ => "bool" | Int _ => "int" | Float _ => "float" | Text _ => "text" | Timestamp _ => "timestamp"
  | Bytes _ => "bytes" | List _ => "list" | Map _ => "map" | Null => "null" | Vector _ => "vector"
  end.

Definition is_truthy (v : Value) : bool :=
  match v with
  | Bool v => v
  | Int v => negb (v =? 0)
  | Float v => negb (f64_eqb v 0)
  | Text v => negb (blen v =? 0)
  | Timestamp v => negb (v =? 0)
  | Bytes v => negb (blen v =? 0)
  | List v => negb (blen v =? 0)
  | Map v => negb (blen v =? 0)
  | Null => false
  | Vector v => negb (blen v =? 0)
  end.

(** Two lists of the same length, element by element. *)
Fixpoint forall2b {A B} (f : A -> B -> bool) (l : list A) (k : list B) : bool :=
  match l, k with
  | [], [] => true
  | a :: l', b :: k' => f a b && forall2b f l' k'
  | _, _ => false
  end.

(** The derived [PartialEq]: floats by their values, so a NaN differs from itself
    and the zeros are equal. *)
Fixpoint value_eqb (a b : Value) {struct a} : bool :=
  match a, b with
  | Bool a, Bool b => Bool.eqb a b
  | Int a, Int b => a =? b
  | Float a, Float b => f64_eqb a b
  | Text a, Text b => beqb a b
  | Timestamp a, Timestamp b => a =? b
  | Bytes a, Bytes b => beqb a b
  | List a, List b =>
    (fix go (a b : list Value) : bool :=
       match a, b with
       | [], [] => true
       | x :: a', y :: b' => value_eqb x y && go a' b'
       | _, _ => false
       end) a b
  | Map a, Map b =>
    (fix go (a b : BTreeMap bytes Value) : bool :=
       match a, b with
       | [], [] => true
       | (k, x) :: a', (k', y) :: b' => beqb k k' && value_eqb x y && go a' b'
       | _, _ => false
       end) a b
  | Null, Null => true
  | Vector a, Vector b => forall2b f32_eqb a b
  | _, _ => false
  end.

Definition bool_cmp (a b : bool) : comparison :=
  match a, b with false, true => Lt | true, false => Gt | _, _ => Eq end.

Definition partial_cmp_value (a b : Value) : option comparison :=
  match a, b with
  | Null, Null => Some Eq
  | Null, _ | _, Null => None
  | Int a, Int b => Some (a ?= b)
  | Float a, Float b => f64_partial_cmp a b
  | Int a, Float b => SFcompare (i64_as_f64 a) (f64_from_bits b)
  | Float a, Int b => SFcompare (f64_from_bits a) (i64_as_f64 b)
  | Text a, Text b => Some (bcmp a b)
  | Timestamp a, Timestamp b => Some (a ?= b)
  | Bool a, Bool b => Some (bool_cmp a b)
  | _, _ => None
  end.

(** [estimated_size] *)
Fixpoint estimated_size (v : Value) : Z :=
  match v with
  | Bool _ | Int _ | Float _ | Timestamp _ | Null => 0
  | Text s => blen s
  | Bytes b => blen b
  | List l => (fix go l := match l with [] => 0 | i :: l' => 16 + estimated_size i + go l' end) l
  | Map m => (fix go (m : BTreeMap bytes Value) := match m with [] => 0 | (k, i) :: m' => 48 + blen k + estimated_size i + go m' end) m
  | Vector l => blen l * 4
  end.

(** How deep a value nests: 1 for a scalar. *)
Fixpoint depth (v : Value) : Z :=
  match v with
  | List l => 1 + (fix go l := match l with [] => 0 | i :: l' => Z.max (depth i) (go l') end) l
  | Map m => 1 + (fix go (m : BTreeMap bytes Value) := match m with [] => 0 | (_, i) :: m' => Z.max (depth i) (go m') end) m
  | _ => 1
  end.

Definition MAX_DECODE_DEPTH : Z := 32.

(** ** Paths and filters (record.rs) *)

Inductive FilterOp := Eq_ | Neq | Gt_ | Gte | Lt_ | Lte | IsNull | IsNotNull | Contains | In_.

#[export] Instance FilterOp_eq_dec : EqDecision FilterOp.
Proof. solve_decision. Defined.

Definition DOT : Z := 46.

(** [s.split('.')]: the parts between the dots, one more than there are dots. *)
Fixpoint split_dot (s : bytes) : list bytes :=
  match s with
  | [] => [[]]
  | c :: s' =>
    if c =? DOT then [] :: split_dot s'
    else match split_dot s' with p :: ps => (c :: p) :: ps | [] => [[c]] end
  end.

(** One step of the walk: a key of a map, or an index into a list. *)
Definition resolve_step (current : Value) (part : bytes) : option Value :=
  match current with
  | Map map => bt_get part map
  | List list => match parse_u64 part with Some idx => list !! Z.to_nat idx | None => None end
  | _ => None
  end.

Fixpoint resolve_steps (current : Value) (parts : list bytes) : option Value :=
  match parts with
  | [] => Some current
  | part :: parts' => match resolve_step current part with Some v => resolve_steps v parts' | None => None end
  end.

(** [resolve_path]: a path without a dot is a field name; otherwise the first
    part is the field and the rest walks into its value. *)
Definition resolve_path (fields : BTreeMap bytes Value) (path : bytes) : option Value :=
  if negb (existsb (fun c => c =? DOT) path) then bt_get path fields
  else match split_dot path with
       | [] => None
       | first :: rest => match bt_get first fields with Some current => resolve_steps current rest | None => None end
       end.

Definition is_null (v : Value) : bool := match v with Null => true | _ => false end.

Definition matches_filter (fields : BTreeMap bytes Value) (f : bytes * FilterOp * Value) : bool :=
  let '(field, op, val) := f in
  match op with
  | IsNull => match resolve_path fields field with None => true | Some v => is_null v end
  | IsNotNull => match resolve_path fields field with None => false | Some v => negb (is_null v) end
  | Contains => match resolve_path fields field with Some (List list) => existsb (fun elem => value_eqb elem val) list | _ => false end
  | In_ => match resolve_path fields field, val with
           | Some field_val, List list => existsb (fun elem => value_eqb elem field_val) list
           | _, _ => false
           end
  | _ =>
    match resolve_path fields field with
    | None => false
    | Some field_val =>
      match op with
      | Eq_ => value_eqb field_val val
      | Neq => negb (value_eqb field_val val)
      | Gt_ => match partial_cmp_value field_val val with Some Gt => true | _ => false end
      | Gte => match partial_cmp_value field_val val with Some (Gt | Eq) => true | _ => false end
      | Lt_ => match partial_cmp_value field_val val with Some Lt => true | _ => false end
      | Lte => match partial_cmp_value field_val val with Some (Lt | Eq) => true | _ => false end
      | _ => false
      end
    end
  end.

(** [Record::matches_filters] *)
Definition matches_filters (fields : BTreeMap bytes Value) (filters : list (bytes * FilterOp * Value)) : bool :=
  forallb (matches_filter fields) filters.

Example resolve_ex :
  resolve_path [(str "a", Map [(str "b", List [Int 1; Text (str "x")])])] (str "a.b.1") = Some (Text (str "x")).
Proof. reflexivity. Qed.

Example filters_ex :
  matches_filters [(str "n", Int 7)] [(str "n", Gt_, Float 4617315517961601024); (str "m", IsNull, Null)] = true.
Proof. vm_compute. reflexivity. Qed.
