(* ===== verification/SortEncoding.v ===== *)
(** * Sort keys of ghosts (engine/src/sort_encoding.rs, the encodings of
    ghost/metric_order.rs, the seek window of ghost/read.rs)

    A ghost keeps its entries under a key that begins with the encoded sort
    value, so that the order of the bytes is the order of the values; a read with
    a predicate on the sort field narrows its scan to a window of keys. *)

From Corelib Require Import SpecFloat.
From S2P Require Import Prelude Types ByteOrder Bloom BTree Tree Value.

(** [for &b in s.as_bytes()]: a zero byte is escaped. *)
Definition escape (s : bytes) : bytes := s ≫= fun b => if b =? 0 then [0; 255] else [b].

Definition encode_value_ordered (value : option Value) : bytes :=
  match value with
  | None | Some Null => [0]
  | Some (Int i) => 1 :: to_be_bytes 8 (Z.lxor (wrap64 i) SIGN_64)
  | Some (Float bits) => 2 :: to_be_bytes 8 (f64_order_bits bits)
  | Some (Text s) => 3 :: escape s ++ [0; 0]
  | _ => [255]
  end.

(** [!byte] *)
Definition not_byte (b : Z) : Z := not_bits 8 b.

Definition encode_sort_key (ghost_id : Z) (sort_value : option Value) (inverted : bool) (tiebreak : bytes) : bytes :=
  let key := encode_value_ordered sort_value ++ tiebreak in
  to_be_bytes 2 ghost_id ++ (if inverted then not_byte <$> key else key).

(** [decode_ghost_id] *)
Definition decode_ghost_id (key : bytes) : option Z :=
  if blen key <? 2 then None else Some (from_be_bytes (take 2 key)).

(** The comparison of ORDER BY without a ghost (ops/scan.rs). *)
Definition compare_value_inner (a b : Value) : comparison :=
  match a, b with
  | Null, Null => Eq
  | Null, _ => Gt
  | _, Null => Lt
  | Int a, Int b => a ?= b
  | Float a, Float b => default Eq (f64_partial_cmp a b)
  | Int a, Float b => default Eq (SFcompare (i64_as_f64 a) (f64_from_bits b))
  | Float a, Int b => default Eq (SFcompare (f64_from_bits a) (i64_as_f64 b))
  | Text a, Text b => bcmp a b
  | Timestamp a, Timestamp b => a ?= b
  | Bool a, Bool b => bool_cmp a b
  | _, _ => Eq
  end.

Definition compare_values (a b : option Value) : comparison :=
  match a, b with
  | None, None => Eq
  | None, Some _ => Lt
  | Some _, None => Gt
  | Some va, Some vb => compare_value_inner va vb
  end.

(** The order the encoding realises: by type, then by value; values of the types
    without an encoding are all alike. *)
Definition rank (v : option Value) : Z :=
  match v with
  | None | Some Null => 0 | Some (Int _) => 1 | Some (Float _) => 2 | Some (Text _) => 3 | _ => 255
  end.

Definition same_type_compare (a b : option Value) : comparison :=
  match a, b with
  | Some (Int i), Some (Int j) => i ?= j
  | Some (Float x), Some (Float y) => f64_order_bits x ?= f64_order_bits y
  | Some (Text s), Some (Text t) => bcmp s t
  | _, _ => Eq
  end.

Definition sort_compare (a b : option Value) : comparison := then_cmp (rank a ?= rank b) (same_type_compare a b).

(** The ranges the Rust types give. *)
Definition sort_wf (v : option Value) : Prop :=
  match v with
  | Some (Int i) => - 2 ^ 63 <= i < 2 ^ 63
  | Some (Float b) => is_uint 64 b
  | Some (Text s) => is_bytes s
  | _ => True
  end.

(** ** The value encoding *)

Lemma int_bits i : - 2 ^ 63 <= i < 2 ^ 63 -> Z.lxor (wrap64 i) SIGN_64 = i + 2 ^ 63.
Proof.
  intros Hi. change SIGN_64 with (2 ^ 63). unfold wrap.
  destruct (Z.lt_ge_cases i 0) as [Hn|Hp].
  - assert (i mod 2 ^ 64 = (i + 2 ^ 63) + 1 * 2 ^ 63) as ->.
    { symmetry. apply Z.mod_unique with (-1); lia. }
    rewrite <- (lor_shiftl_add (i + 2 ^ 63) 1 63) by lia. change (Z.shiftl 1 63) with (2 ^ 63).
    apply Z.bits_inj'. intros n Hz. rewrite Z.lxor_spec, Z.lor_spec.
    destruct (decide (n = 63)) as [->|].
    + rewrite (testbit_small (i + 2 ^ 63) 63) by lia. by rewrite Z.pow2_bits_true.
    + rewrite Z.pow2_bits_false by lia. by rewrite orb_false_r, xorb_false_r.
  - rewrite Z.mod_small by lia. rewrite <- Z.add_nocarry_lxor; [done|].
    apply Z.bits_inj'. intros n Hz. rewrite Z.land_spec, Z.bits_0.
    destruct (decide (n = 63)) as [->|]; [by rewrite (testbit_small i 63) by lia|].
    rewrite Z.pow2_bits_false by lia. apply andb_false_r.
Qed.

(** The terminator sorts below an escaped zero and every other byte. *)
Lemma bcmp_escape s t a b :
  is_bytes s -> is_bytes t ->
  bcmp (escape s ++ 0 :: 0 :: a) (escape t ++ 0 :: 0 :: b) = then_cmp (bcmp s t) (bcmp a b).
Proof.
  intros Hs. revert t. induction Hs as [|x s Hx Hs IH]; intros t Ht.
  - destruct Ht as [|y t Hy Ht]; [done|]. cbn [escape mbind list_bind]. destruct (Z.eqb_spec y 0) as [->|]; [done|].
    cbn [app]. rewrite bcmp_cons. destruct (Z.compare_spec 0 y); [lia|done|lia].
  - destruct Ht as [|y t Hy Ht].
    { cbn [escape mbind list_bind]. destruct (Z.eqb_spec x 0) as [->|]; [done|].
      cbn [app]. rewrite bcmp_cons. destruct (Z.compare_spec x 0); [lia|lia|done]. }
    rewrite (bcmp_cons x s y t). cbn [escape mbind list_bind]. fold (escape s). fold (escape t).
    destruct (Z.eqb_spec x 0) as [->|], (Z.eqb_spec y 0) as [->|]; cbn [app]; rewrite !bcmp_cons.
    + rewrite !Z.compare_refl. cbn [then_cmp]. by apply IH.
    + destruct (Z.compare_spec 0 y); [lia|done|lia].
    + destruct (Z.compare_spec x 0); [lia|lia|done].
    + rewrite then_cmp_assoc. destruct (x ?= y) eqn:E; [|done..]. cbn [then_cmp]. by apply IH.
Qed.

(** The encoding orders, whatever follows it: no encoding is a prefix of another. *)
Lemma bcmp_encoded v w a b :
  sort_wf v -> sort_wf w ->
  bcmp (encode_value_ordered v ++ a) (encode_value_ordered w ++ b) = then_cmp (sort_compare v w) (bcmp a b).
Proof.
  intros Hv Hw. unfold sort_compare. rewrite then_cmp_assoc.
  destruct v as [[]|], w as [[]|]; cbn [encode_value_ordered rank same_type_compare sort_wf] in *; cbn [app];
    rewrite bcmp_cons; try reflexivity.
  - cbn [Z.compare then_cmp]. change (1 ?= 1) with Eq. rewrite !int_bits by done. rewrite (bcmp_be 8) by (unfold is_uint; lia).
    by rewrite !(Z.add_comm _ (2 ^ 63)), Z.add_compare_mono_l.
  - change (2 ?= 2) with Eq. cbn [then_cmp]. by rewrite (bcmp_be 8) by (by apply f64_order_bits_range).
  - change (3 ?= 3) with Eq. cbn [then_cmp]. rewrite <- !app_assoc. cbn [app]. by apply bcmp_escape.
Qed.

(** ** Inversion *)

Lemma bcmp_not_len a b : length a = length b -> bcmp (not_byte <$> a) (not_byte <$> b) = CompOpp (bcmp a b).
Proof.
  revert b. induction a as [|x a IH]; intros [|y b]; [done..|]. cbn [length fmap list_fmap]. intros [= Hl].
  rewrite !bcmp_cons, IH by done. unfold not_byte, not_bits.
  destruct (Z.compare_spec x y), (Z.compare_spec (2 ^ 8 - 1 - x) (2 ^ 8 - 1 - y)); cbn [then_cmp CompOpp]; try done; lia.
Qed.

(** Flipping the bytes flips the comparison, unless one string is a prefix of the
    other. *)
Lemma bcmp_not a b :
  (forall r, b <> a ++ r) -> (forall r, a <> b ++ r) -> bcmp (not_byte <$> a) (not_byte <$> b) = CompOpp (bcmp a b).
Proof.
  revert b. induction a as [|x a IH]; intros [|y b] Ha Hb; [by destruct (Ha [])|by destruct (Ha (y :: b))|by destruct (Hb (x :: a))|].
  cbn [fmap list_fmap]. rewrite !bcmp_cons. unfold not_byte, not_bits.
  destruct (decide (x = y)) as [<-|Hne].
  - rewrite !Z.compare_refl. cbn [then_cmp]. apply IH; intros r ->; [by destruct (Ha r)|by destruct (Hb r)].
  - destruct (Z.compare_spec x y), (Z.compare_spec (2 ^ 8 - 1 - x) (2 ^ 8 - 1 - y)); cbn [then_cmp CompOpp]; try done; lia.
Qed.

Lemma sort_compare_eq v w : sort_wf v -> sort_wf w -> sort_compare v w = Eq -> encode_value_ordered v = encode_value_ordered w.
Proof.
  intros Hv Hw E. pose proof (bcmp_encoded v w [] [] Hv Hw) as H. rewrite E, !app_nil_r in H. by apply bcmp_eq.
Qed.

Lemma sort_compare_opp v w : sort_wf v -> sort_wf w -> sort_compare w v = CompOpp (sort_compare v w).
Proof.
  intros Hv Hw. pose proof (bcmp_encoded v w [] [] Hv Hw) as H. pose proof (bcmp_encoded w v [] [] Hw Hv) as H'.
  rewrite bcmp_opp, H in H'. destruct (sort_compare v w), (sort_compare w v); done.
Qed.

(** A longer key whose value encodes as another's has the same sort value. *)
Lemma encoded_prefix v w a b r :
  sort_wf v -> sort_wf w -> encode_value_ordered w ++ b = (encode_value_ordered v ++ a) ++ r -> sort_compare v w = Eq.
Proof.
  intros Hv Hw E. pose proof (bcmp_encoded v w (a ++ r) b Hv Hw) as H.
  rewrite E, <- app_assoc, bcmp_refl in H. symmetry in H. by apply then_cmp_Eq in H as [??].
Qed.

Definition flip (inverted : bool) (c : comparison) : comparison := if inverted then CompOpp c else c.

Lemma sort_keys_compare gid v w inv ta tb :
  sort_wf v -> sort_wf w -> length ta = length tb ->
  bcmp (encode_sort_key gid v inv ta) (encode_sort_key gid w inv tb) = flip inv (then_cmp (sort_compare v w) (bcmp ta tb)).
Proof.
  intros Hv Hw Hl. unfold encode_sort_key. rewrite bcmp_app_same, <- (bcmp_encoded v w) by done. destruct inv; [|done]. cbn [flip].
  destruct (decide (sort_compare v w = Eq)) as [E|E].
  - apply bcmp_not_len. rewrite !length_app, (sort_compare_eq v w) by done. lia.
  - apply bcmp_not; intros r Hr; apply E; [by eapply encoded_prefix|].
    pose proof (sort_compare_opp w v Hw Hv) as ->. by rewrite (encoded_prefix w v tb ta r).
Qed.

(** Values for which the filters' comparison is the encoded one: of one encoded
    type, no NaNs, and not two zeros. *)
Definition ordered_alike (v w : Value) : Prop :=
  match v, w with
  | Int _, Int _ | Text _, Text _ | Null, Null => True
  | Float a, Float b => is_nan a = false /\ is_nan b = false /\ is_zero a && is_zero b = false
  | _, _ => False
  end.

Lemma partial_cmp_sort v w :
  sort_wf (Some v) -> sort_wf (Some w) -> ordered_alike v w ->
  partial_cmp_value v w = Some (sort_compare (Some v) (Some w)) /\ compare_values (Some v) (Some w) = sort_compare (Some v) (Some w).
Proof.
  intros Hv Hw. destruct v, w; try done. intros (Ha & Hb & Hz). cbn [partial_cmp_value compare_values compare_value_inner].
  rewrite f64_order by done. by rewrite Hz.
Qed.

(** ** Metric order (ghost/metric_order.rs) *)

(** [f64_total_order_bytes]: the shift spells out the test of the sign bit. *)
Definition f64_total_order_bytes (x : Z) : bytes :=
  let ord := if Z.shiftr x 63 =? 1 then not_bits 64 x else Z.lxor x SIGN_64 in
  to_be_bytes 8 ord.

Definition enc_metric (metric : Z) (descending : bool) : bytes :=
  let b := f64_total_order_bytes metric in if descending then not_byte <$> b else b.

(** [reserved_keys::METRIC_ORDER] *)
Definition METRIC_ORDER : bytes := [255; 246].

Definition metric_order_key (ghost_id metric : Z) (descending : bool) (tiebreak : bytes) : bytes :=
  METRIC_ORDER ++ to_be_bytes 2 ghost_id ++ enc_metric metric descending ++ tiebreak.

Definition metric_order_ghost_prefix (ghost_id : Z) : bytes := METRIC_ORDER ++ to_be_bytes 2 ghost_id.

(** [f64::total_cmp]: the bits as a signed integer, the magnitude of a negative
    number flipped. *)
Definition total_key (bits : Z) : Z :=
  if bits <? 2 ^ 63 then bits else - 2 ^ 63 + (2 ^ 63 - 1 - (bits - 2 ^ 63)).
Definition total_cmp (a b : Z) : comparison := total_key a ?= total_key b.

Lemma total_order_bits x : is_uint 64 x -> f64_total_order_bytes x = to_be_bytes 8 (f64_order_bits x) /\ f64_order_bits x = total_key x + 2 ^ 63.
Proof.
  intros Hx. split.
  - unfold f64_total_order_bytes, f64_order_bits. rewrite land_sign, negb_involutive, sign_bit by done. rewrite Z.shiftr_div_pow2 by lia.
    replace (x / 2 ^ 63 =? 1) with (bool_decide (2 ^ 63 <= x)); [done|]. unfold is_uint in Hx.
    destruct (Z.eqb_spec (x / 2 ^ 63) 1); [apply bool_decide_true|apply bool_decide_false];
      pose proof (Z.div_mod x (2 ^ 63) ltac:(lia)); pose proof (Z.mod_pos_bound x (2 ^ 63) ltac:(lia)); nia.
  - rewrite f64_order_bits_spec by done. unfold total_key. case_decide; destruct (Z.ltb_spec x (2 ^ 63)); lia.
Qed.

Lemma metric_compare g m m' d tb tb' :
  is_uint 64 m -> is_uint 64 m' ->
  bcmp (metric_order_key g m d tb) (metric_order_key g m' d tb') = then_cmp (flip d (total_cmp m m')) (bcmp tb tb').
Proof.
  intros Hm Hm'. unfold metric_order_key. rewrite !bcmp_app_same. unfold enc_metric.
  destruct (total_order_bits m Hm) as [-> Ek], (total_order_bits m' Hm') as [-> Ek'].
  pose proof (f64_order_bits_range m Hm) as Hr. pose proof (f64_order_bits_range m' Hm') as Hr'.
  assert (total_cmp m m' = (f64_order_bits m ?= f64_order_bits m')) as ->.
  { unfold total_cmp. rewrite Ek, Ek'. by rewrite !(Z.add_comm _ (2 ^ 63)), Z.add_compare_mono_l. }
  destruct d; cbn [flip]; [|by rewrite (bcmp_be 8) by done].
  assert (forall a b x y : bytes, length a = length b -> bcmp (a ++ x) (b ++ y) = then_cmp (bcmp a b) (bcmp x y)) as Happ.
  { clear. induction a as [|u a IH]; intros [|v b] x y; [done..|]. intros [= Hl]. cbn [app]. rewrite !bcmp_cons, IH by done.
    by rewrite then_cmp_assoc. }
  rewrite Happ by (by rewrite !length_fmap, !length_to_be_bytes). f_equal.
  rewrite bcmp_not_len by (by rewrite !length_to_be_bytes). f_equal. by apply (bcmp_be_last 8).
Qed.

(** ** The seek window of a ghost read (ghost/read.rs, [read_topn]) *)

(** [byte_successor]: the loop drops trailing [0xFF]s and bumps the last byte. *)
Fixpoint successor_loop (rev_s : bytes) : option bytes :=
  match rev_s with
  | [] => None
  | last :: rest => if last <? 255 then Some (reverse (last + 1 :: rest)) else successor_loop rest
  end.
Definition byte_successor (prefix : bytes) : option bytes := successor_loop (reverse prefix).

(** [prefix_iter(p)] or [range_iter(start, end)] *)
Inductive Window := PrefixIter (p : bytes) | RangeIter (start : bytes) (end_ : option bytes).

Definition in_window (w : Window) (k : bytes) : bool :=
  match w with PrefixIter p => starts_with k p | RangeIter start end_ => in_half_open start end_ k end.

(** The loop over the filters: the last predicate of each kind on the order-by
    field is kept. *)
Definition seek_filter (order_by_field : bytes) (acc : option Value * option Value * option Value) (f : bytes * FilterOp * Value) :=
  let '(eq_val, lo_val, hi_val) := acc in
  let '(field, op, val) := f in
  if negb (beqb field order_by_field) then acc
  else match op with
       | Eq_ => (Some val, lo_val, hi_val)
       | Gt_ | Gte => (eq_val, Some val, hi_val)
       | Lt_ | Lte => (eq_val, lo_val, Some val)
       | _ => acc
       end.

Definition seek_values (is_grouped : bool) (order_by_field : bytes) (core_filters : list (bytes * FilterOp * Value)) :
    option Value * option Value * option Value :=
  if is_grouped then (None, None, None) else foldl (seek_filter order_by_field) (None, None, None) core_filters.

Definition seek_window (gid : Z) (inv is_grouped : bool) (order_by_field : bytes) (core_filters : list (bytes * FilterOp * Value)) : Window :=
  let ghost_prefix := to_be_bytes 2 gid in
  let key_of v := encode_sort_key gid (Some v) inv [] in
  let ghost_hi := byte_successor ghost_prefix in
  let lower o := match o with Some v => key_of v | None => ghost_prefix end in
  let upper o := match o with Some v => byte_successor (key_of v) | None => ghost_hi end in
  match seek_values is_grouped order_by_field core_filters with
  | (Some v, _, _) => PrefixIter (key_of v)
  | (None, None, None) => PrefixIter ghost_prefix
  | (None, lo_val, hi_val) =>
    if negb inv then RangeIter (lower lo_val) (upper hi_val) else RangeIter (lower hi_val) (upper lo_val)
  end.

(** Below [byte_successor p] is everything below [p] or with the prefix [p]. *)
Lemma successor_range p : byte_successor p = snd (prefix_to_range p).
Proof.
  unfold byte_successor, prefix_to_range. cbn [snd]. induction (reverse p) as [|x l IH]; [done|]. cbn [successor_loop bump_last].
  by case_match.
Qed.

Definition below_opt (k : bytes) (u : option bytes) : bool := match u with Some e => bltb k e | None => true end.

Lemma below_successor p k :
  is_bytes p -> is_bytes k -> (k < p)%bytes \/ (exists r, k = p ++ r) -> below_opt k (byte_successor p) = true.
Proof.
  intros Hp Hk H. rewrite successor_range. unfold below_opt.
  destruct H as [H|H%starts_with_iff].
  - pose proof (proj1 (prefix_range p p Hp Hp)) as [_ H']; [apply starts_with_iff; exists []; by rewrite app_nil_r|].
    case_match; [|done]. apply bltb_lt. unfold blt in *. by eapply bcmp_trans.
  - apply (prefix_range p k Hp Hk) in H as [_ H]. case_match; [|done]. by apply bltb_lt.
Qed.

Section seek.
Context (gid : Z) (inv : bool).

Abbreviation key_of v := (encode_sort_key gid v inv []).

Lemma encode_is_bytes v tb : sort_wf v -> is_bytes tb -> is_bytes (encode_sort_key gid v inv tb).
Proof.
  intros Hv Htb. unfold encode_sort_key. apply Forall_app. split; [apply to_be_bytes_is_bytes|].
  assert (is_bytes (encode_value_ordered v ++ tb)) as H.
  { apply Forall_app. split; [|done].
    destruct v as [[]|]; cbn [encode_value_ordered];
      try (apply Forall_cons; split; [cbn; lia|]; first [apply to_be_bytes_is_bytes|constructor]).
    apply Forall_cons. split; [cbn; lia|].
    apply Forall_app. split; [|repeat constructor; lia]. cbn in Hv. induction Hv as [|x s Hx _ IH]; [constructor|].
    cbn [escape mbind list_bind]. fold (escape s). apply Forall_app. split; [|done].
    case_match; repeat constructor; lia. }
  destruct inv; [|done]. apply Forall_fmap. eapply Forall_impl; [exact H|]. intros x Hx. cbv beta in Hx. unfold compose, not_byte, not_bits. change (2 ^ 8) with 256. lia.
Qed.

(** Where the key of [v] lies relative to the bound of [w]. *)
Lemma key_vs_bound v w tb :
  sort_wf v -> sort_wf w ->
  match flip inv (sort_compare v w) with
  | Eq => exists r, encode_sort_key gid v inv tb = key_of w ++ r
  | c => bcmp (encode_sort_key gid v inv tb) (key_of w) = c
  end.
Proof.
  intros Hv Hw. unfold encode_sort_key. destruct (decide (sort_compare v w = Eq)) as [E|E].
  - rewrite E, (sort_compare_eq v w), app_nil_r by done.
    destruct inv; cbn [flip CompOpp]; rewrite ?fmap_app; eexists; by rewrite app_assoc.
  - assert (bcmp (if inv then not_byte <$> encode_value_ordered v ++ tb else encode_value_ordered v ++ tb)
      (if inv then not_byte <$> encode_value_ordered w ++ [] else encode_value_ordered w ++ []) = flip inv (sort_compare v w)) as H.
    { assert (bcmp (encode_value_ordered v ++ tb) (encode_value_ordered w ++ []) = sort_compare v w) as Hc.
      { rewrite bcmp_encoded by done. by destruct (sort_compare v w). }
      destruct inv; [|done]. rewrite bcmp_not, Hc; [done|..]; intros r Hr; apply E; [by eapply encoded_prefix|].
      rewrite (sort_compare_opp w v Hw Hv). by rewrite (encoded_prefix w v [] tb r). }
    destruct (flip inv (sort_compare v w)) eqn:Ef; [|by rewrite bcmp_app_same..].
    exfalso. apply E. by destruct inv, (sort_compare v w).
Qed.

Lemma above_lower v w tb :
  sort_wf v -> sort_wf w -> flip inv (sort_compare v w) <> Lt -> bleb (key_of w) (encode_sort_key gid v inv tb) = true.
Proof.
  intros Hv Hw Hc. apply bleb_le. pose proof (key_vs_bound v w tb Hv Hw) as H. destruct (flip _ _); [|done|].
  - destruct H as [r ->]. apply ble_app.
  - unfold ble. by rewrite bcmp_opp, H.
Qed.

Lemma below_upper v w tb :
  sort_wf v -> sort_wf w -> is_bytes tb -> flip inv (sort_compare v w) <> Gt ->
  below_opt (encode_sort_key gid v inv tb) (byte_successor (key_of w)) = true.
Proof.
  intros Hv Hw Htb Hc. apply below_successor; [by apply encode_is_bytes; [|constructor]|by apply encode_is_bytes|].
  pose proof (key_vs_bound v w tb Hv Hw) as H. destruct (flip _ _); [by right|by left|done].
Qed.

Lemma ghost_extent v tb :
  sort_wf v -> is_bytes tb ->
  starts_with (encode_sort_key gid v inv tb) (to_be_bytes 2 gid) = true /\
  bleb (to_be_bytes 2 gid) (encode_sort_key gid v inv tb) = true /\
  below_opt (encode_sort_key gid v inv tb) (byte_successor (to_be_bytes 2 gid)) = true.
Proof.
  intros Hv Htb. assert (exists r, encode_sort_key gid v inv tb = to_be_bytes 2 gid ++ r) as Hr by (unfold encode_sort_key; eauto).
  split; [by apply starts_with_iff|]. split.
  - destruct Hr as [r ->]. apply bleb_le, ble_app.
  - apply below_successor; [apply to_be_bytes_is_bytes|by apply encode_is_bytes|by right].
Qed.

End seek.

(** ** Filters and the sort order *)

(** Pairs on which the filters and the encoding agree: not an integer against a
    float, and zeros with the same sign. *)
Definition seek_alike (v w : Value) : Prop :=
  match v, w with
  | Int _, Float _ | Float _, Int _ => False
  | Float a, Float b => is_zero a && is_zero b = true -> a = b
  | _, _ => True
  end.

Lemma f64_cmp_bits a b c :
  is_uint 64 a -> is_uint 64 b -> (is_zero a && is_zero b = true -> a = b) ->
  f64_partial_cmp a b = Some c -> (f64_order_bits a ?= f64_order_bits b) = c.
Proof.
  intros Ha Hb Hz Hc.
  assert (is_nan a = false /\ is_nan b = false) as [Na Nb].
  { unfold is_nan, f64_partial_cmp, SFcompare in *. repeat case_match; done. }
  rewrite f64_order in Hc by done. injection Hc as <-. destruct (is_zero a && is_zero b); [|done].
  rewrite Hz by done. apply Z.compare_refl.
Qed.

(** What a filter's comparison says about the sort order. *)
Lemma partial_cmp_sorts v w c :
  sort_wf (Some v) -> sort_wf (Some w) -> seek_alike v w -> partial_cmp_value v w = Some c ->
  sort_compare (Some v) (Some w) = c \/ sort_compare (Some v) (Some w) = Eq.
Proof.
  intros Hv Hw Ha Hc. unfold sort_compare.
  destruct v, w; try done; cbn [partial_cmp_value rank same_type_compare] in *; try (by right);
    rewrite Z.compare_refl; cbn [then_cmp]; left; [congruence|by apply f64_cmp_bits|congruence].
Qed.

Lemma value_eq_sorts v w :
  sort_wf (Some v) -> sort_wf (Some w) -> seek_alike v w -> value_eqb v w = true -> sort_compare (Some v) (Some w) = Eq.
Proof.
  intros Hv Hw Ha He. unfold sort_compare.
  destruct v, w; try done; cbn [value_eqb rank same_type_compare] in *; rewrite Z.compare_refl; cbn [then_cmp].
  - apply Z.compare_eq_iff. lia.
  - apply f64_cmp_bits; try done. unfold f64_eqb, SFeqb in He. unfold f64_partial_cmp. by repeat case_match.
  - apply bcmp_eq. by apply beqb_eq.
Qed.

(** The bounds the loop keeps come from filters of the list. *)
Definition bound_from (field : bytes) (ops : list FilterOp) (filters : list (bytes * FilterOp * Value)) (o : option Value) : Prop :=
  forall v, o = Some v -> exists op, op ∈ ops /\ (field, op, v) ∈ filters.

Lemma bound_from_snoc field ops filters f o : bound_from field ops filters o -> bound_from field ops (filters ++ [f]) o.
Proof. intros H v Hv. destruct (H v Hv) as (op & Ho & Hin). exists op. split; [done|]. apply elem_of_app. by left. Qed.

Lemma bound_from_last field ops filters op v : op ∈ ops -> bound_from field ops (filters ++ [(field, op, v)]) (Some v).
Proof. intros Ho w [= <-]. exists op. split; [done|]. apply elem_of_app. right. by apply list_elem_of_singleton. Qed.

Lemma seek_values_from field filters :
  let '(eq_val, lo_val, hi_val) := foldl (seek_filter field) (None, None, None) filters in
  bound_from field [Eq_] filters eq_val /\ bound_from field [Gt_; Gte] filters lo_val /\ bound_from field [Lt_; Lte] filters hi_val.
Proof.
  induction filters as [|[[f op] v] filters IH] using rev_ind; [by repeat split|]. rewrite foldl_app. cbn [foldl].
  destruct (foldl _ _ filters) as [[e l] h]. destruct IH as (He & Hl & Hh). unfold seek_filter.
  destruct (beqb f field) eqn:Ef; cbn [negb]; [apply beqb_eq in Ef as ->|];
    repeat case_match; simplify_eq; repeat split; auto using bound_from_snoc; apply bound_from_last; set_solver.
Qed.

(** The record's value of the order-by field ([get_sort_value]). *)
Definition get_sort_value (fields : BTreeMap bytes Value) (order_by : bytes) : option Value :=
  if bool_decide (order_by = []) then None else bt_get order_by fields.

(** * Theorems *)

(** C37: sort keys order records. With tiebreaks of one length, as spatial keys
    are, two keys of a ghost compare by the sort values first and by the
    tiebreaks second, both reversed when the ghost is inverted; so equal values
    never collapse into one key and a tiebreak never reorders different values.
    For two integers, two texts, or two floats that are neither NaNs nor both
    zero, the order of the values is the one filters and ORDER BY use. *)
Theorem sort_key_order gid v w inv ta tb :
  sort_wf v -> sort_wf w -> length ta = length tb ->
  bcmp (encode_sort_key gid v inv ta) (encode_sort_key gid w inv tb) = flip inv (then_cmp (sort_compare v w) (bcmp ta tb)) /\
  (encode_sort_key gid v inv ta = encode_sort_key gid w inv tb <-> sort_compare v w = Eq /\ ta = tb) /\
  (forall v' w', v = Some v' -> w = Some w' -> ordered_alike v' w' ->
     partial_cmp_value v' w' = Some (sort_compare v w) /\ compare_values v w = sort_compare v w).
Proof.
  intros Hv Hw Hl. pose proof (sort_keys_compare gid v w inv ta tb Hv Hw Hl) as Hc. split; [done|]. split.
  - rewrite <- bcmp_eq, Hc, <- (bcmp_eq ta tb), <- then_cmp_Eq. by destruct inv, (then_cmp _ _).
  - intros v' w' -> ->. by apply partial_cmp_sort.
Qed.

Lemma sort_key_order_witness :
  bcmp (encode_sort_key 1 (Some (Text [97])) true [255; 1]) (encode_sort_key 1 (Some (Text [97; 98])) true [0; 1]) = Gt.
Proof.
  destruct (sort_key_order 1 (Some (Text [97])) (Some (Text [97; 98])) true [255; 1] [0; 1]) as [-> _];
    [repeat constructor; lia..|reflexivity|]. reflexivity.
Defined.

(** Metric order. Keys of the metric-ordered rollup of a ghost compare by the
    metric in the total order of floating-point numbers, NaNs and signed zeros
    included, reversed when descending, and by the tiebreak, always ascending. *)
Theorem metric_order_exact g m m' d tb tb' :
  is_uint 64 m -> is_uint 64 m' ->
  bcmp (metric_order_key g m d tb) (metric_order_key g m' d tb') = then_cmp (flip d (total_cmp m m')) (bcmp tb tb').
Proof. apply metric_compare. Qed.

(** -1.5 before 2.0 ascending, after it descending. *)
Lemma metric_order_exact_witness :
  bcmp (metric_order_key 3 13832806255468478464 false [1]) (metric_order_key 3 4611686018427387904 false []) = Lt /\
  bcmp (metric_order_key 3 13832806255468478464 true [1]) (metric_order_key 3 4611686018427387904 true []) = Gt.
Proof.
  rewrite !(metric_order_exact 3 13832806255468478464 4611686018427387904) by (split; vm_compute; congruence).
  vm_compute. auto.
Defined.

Lemma filter_on_field fields field filters op w :
  existsb (fun c => c =? DOT) field = false -> field <> [] ->
  matches_filters fields filters = true -> (field, op, w) ∈ filters -> op ∈ [Eq_; Gt_; Gte; Lt_; Lte] ->
  exists v, get_sort_value fields field = Some v /\
    match op with
    | Eq_ => value_eqb v w = true
    | Gt_ | Gte => exists c, partial_cmp_value v w = Some c /\ c <> Lt
    | _ => exists c, partial_cmp_value v w = Some c /\ c <> Gt
    end.
Proof.
  intros Hd Hne Hm Hin Hop. unfold matches_filters in Hm. rewrite forallb_forall in Hm.
  specialize (Hm _ (proj1 (list_elem_of_In _ _) Hin)). unfold get_sort_value. rewrite bool_decide_false by done.
  unfold matches_filter, resolve_path in Hm. rewrite Hd in Hm. cbn [negb] in Hm.
  destruct (bt_get field fields) as [v|]; [|by destruct op; try done; set_solver]. exists v. split; [done|].
  destruct op; try set_solver; repeat case_match; naive_solver.
Qed.

Section window.
Context (gid : Z) (inv : bool) (field : bytes) (filters : list (bytes * FilterOp * Value)) (fields : BTreeMap bytes Value).
Hypothesis Hdot : existsb (fun c => c =? DOT) field = false.
Hypothesis Hne : field <> [].
Hypothesis Hwf : Forall (fun f => sort_wf (Some (snd f))) filters.
Hypothesis Hs : sort_wf (get_sort_value fields field).
Hypothesis Ha : forall v op w, get_sort_value fields field = Some v -> (field, op, w) ∈ filters -> seek_alike v w.
Hypothesis Hm : matches_filters fields filters = true.

Abbreviation sv := (get_sort_value fields field).

(** The sort value against the bound a predicate gives. *)
Lemma predicate_sorts op w :
  (field, op, w) ∈ filters ->
  match op with
  | Eq_ => sort_wf (Some w) /\ sort_compare sv (Some w) = Eq
  | Gt_ | Gte => sort_wf (Some w) /\ sort_compare sv (Some w) <> Lt
  | Lt_ | Lte => sort_wf (Some w) /\ sort_compare sv (Some w) <> Gt
  | _ => True
  end.
Proof.
  intros Hin. assert (sort_wf (Some w)) as Hw by (rewrite Forall_forall in Hwf; exact (Hwf _ Hin)).
  pose proof (filter_on_field fields field filters op w Hdot Hne Hm Hin) as Hf.
  destruct op; try done; (destruct Hf as (v & Ev & Hc); [set_solver|]); pose proof (Ha v _ w Ev Hin) as Hal; rewrite Ev in *;
    (split; [done|]); [by apply value_eq_sorts|destruct Hc as (c & Hc & Hne')..];
    destruct (partial_cmp_sorts v w c Hs Hw Hal Hc) as [->| ->]; done.
Qed.

Lemma in_lower (ops : list FilterOp) o tb :
  (forall op w, op ∈ ops -> (field, op, w) ∈ filters -> sort_wf (Some w) /\ flip inv (sort_compare sv (Some w)) <> Lt) ->
  bound_from field ops filters o -> is_bytes tb ->
  bleb (match o with Some w => encode_sort_key gid (Some w) inv [] | None => to_be_bytes 2 gid end) (encode_sort_key gid sv inv tb) = true.
Proof.
  intros Hops Hb Htb. destruct o as [w|]; [|by apply ghost_extent].
  destruct (Hb w eq_refl) as (op & Ho & Hin). destruct (Hops op w Ho Hin). by apply above_lower.
Qed.

Lemma in_upper (ops : list FilterOp) o tb :
  (forall op w, op ∈ ops -> (field, op, w) ∈ filters -> sort_wf (Some w) /\ flip inv (sort_compare sv (Some w)) <> Gt) ->
  bound_from field ops filters o -> is_bytes tb ->
  below_opt (encode_sort_key gid sv inv tb)
    (match o with Some w => byte_successor (encode_sort_key gid (Some w) inv []) | None => byte_successor (to_be_bytes 2 gid) end) = true.
Proof.
  intros Hops Hb Htb. destruct o as [w|]; [|by apply ghost_extent].
  destruct (Hb w eq_refl) as (op & Ho & Hin). destruct (Hops op w Ho Hin). by apply below_upper.
Qed.

Lemma lower_predicates op w : op ∈ [Gt_; Gte] -> (field, op, w) ∈ filters -> sort_wf (Some w) /\ sort_compare sv (Some w) <> Lt.
Proof. intros Ho Hin. pose proof (predicate_sorts op w Hin). destruct op; done || set_solver. Qed.

Lemma upper_predicates op w : op ∈ [Lt_; Lte] -> (field, op, w) ∈ filters -> sort_wf (Some w) /\ sort_compare sv (Some w) <> Gt.
Proof. intros Ho Hin. pose proof (predicate_sorts op w Hin). destruct op; done || set_solver. Qed.

Lemma eq_in_window w tb :
  bound_from field [Eq_] filters (Some w) -> starts_with (encode_sort_key gid sv inv tb) (encode_sort_key gid (Some w) inv []) = true.
Proof.
  intros Hb. destruct (Hb w eq_refl) as (op & ->%list_elem_of_singleton & Hin). destruct (predicate_sorts _ _ Hin) as [Hw Hc].
  apply starts_with_iff. pose proof (key_vs_bound gid inv sv (Some w) tb Hs Hw) as H. rewrite Hc in H. by destruct inv.
Qed.

Lemma window_complete grouped tb :
  is_bytes tb -> in_window (seek_window gid inv grouped field filters) (encode_sort_key gid sv inv tb) = true.
Proof.
  intros Htb. destruct (ghost_extent gid inv _ tb Hs Htb) as (Hp & _). unfold seek_window, seek_values. destruct grouped; [done|].
  pose proof (seek_values_from field filters) as H. destruct (foldl _ _ filters) as [[e l] h]. destruct H as (He & Hl & Hh).
  destruct e as [w|]; [by apply eq_in_window|].
  assert (in_window (if negb inv
    then RangeIter (match l with Some v => encode_sort_key gid (Some v) inv [] | None => to_be_bytes 2 gid end)
           (match h with Some v => byte_successor (encode_sort_key gid (Some v) inv []) | None => byte_successor (to_be_bytes 2 gid) end)
    else RangeIter (match h with Some v => encode_sort_key gid (Some v) inv [] | None => to_be_bytes 2 gid end)
           (match l with Some v => byte_successor (encode_sort_key gid (Some v) inv []) | None => byte_successor (to_be_bytes 2 gid) end))
    (encode_sort_key gid sv inv tb) = true) as Hw.
  { pose proof lower_predicates as Hlp. pose proof upper_predicates as Hup.
    pose proof (in_lower [Gt_; Gte] l tb) as L1. pose proof (in_lower [Lt_; Lte] h tb) as L2.
    pose proof (in_upper [Lt_; Lte] h tb) as U1. pose proof (in_upper [Gt_; Gte] l tb) as U2.
    unfold below_opt in U1, U2. destruct inv; cbn [negb in_window flip] in *; unfold in_half_open; apply andb_true_iff; split.
    - apply L2; [|done..]. intros op x Ho Hin. destruct (Hup op x Ho Hin) as [? Hc]. split; [done|]. by destruct (sort_compare _ _).
    - apply U2; [|done..]. intros op x Ho Hin. destruct (Hlp op x Ho Hin) as [? Hc]. split; [done|]. by destruct (sort_compare _ _).
    - by apply L1.
    - by apply U1. }
  destruct l, h; [exact Hw..|done].
Qed.

End window.

(** The seek window is conservative. A record that matches the filters is in the
    window a ghost read scans, in either direction, for every combination of
    predicates on the order-by field, provided the field is a plain name and no
    predicate compares an integer with a float or zeros of different signs. *)
Theorem seek_window_complete gid inv grouped field filters fields tb :
  existsb (fun c => c =? DOT) field = false -> field <> [] ->
  Forall (fun f => sort_wf (Some (snd f))) filters -> sort_wf (get_sort_value fields field) -> is_bytes tb ->
  (forall v op w, get_sort_value fields field = Some v -> (field, op, w) ∈ filters -> seek_alike v w) ->
  matches_filters fields filters = true ->
  in_window (seek_window gid inv grouped field filters) (encode_sort_key gid (get_sort_value fields field) inv tb) = true.
Proof. intros. by apply window_complete. Qed.

(** A descending ghost over "n", and 3 <= n < 9. *)
Definition sample_filters : list (bytes * FilterOp * Value) := [(str "n", Gte, Int 3); (str "n", Lt_, Int 9)].

Lemma seek_window_complete_witness :
  in_window (seek_window 5 true false (str "n") sample_filters) (encode_sort_key 5 (Some (Int 3)) true [7]) = true /\
  in_window (seek_window 5 true false (str "n") sample_filters) (encode_sort_key 5 (Some (Int 2)) true [7]) = false.
Proof.
  split; [|vm_compute; reflexivity].
  apply (seek_window_complete 5 true false (str "n") sample_filters [(str "n", Int 3)] [7]); try reflexivity.
  - done.
  - repeat constructor; vm_compute; congruence.
  - vm_compute. split; congruence.
  - repeat constructor; lia.
  - intros v op w [= <-] Hin. repeat (apply elem_of_cons in Hin as [[= -> ->]|Hin]; [exact I|]). by apply elem_of_nil in Hin.
Defined.

(** Where it is not: a float below an integer bound matches the filter and is
    outside the window, and so is -0.0 for a predicate on 0.0. *)
Lemma seek_window_drops_floats :
  matches_filters [(str "n", Float 4613937818241073152)] [(str "n", Lt_, Int 5)] = true /\
  in_window (seek_window 5 false false (str "n") [(str "n", Lt_, Int 5)])
    (encode_sort_key 5 (Some (Float 4613937818241073152)) false [7]) = false.
Proof. vm_compute. auto. Qed.

Lemma seek_window_drops_zero :
  matches_filters [(str "n", Float 9223372036854775808)] [(str "n", Eq_, Float 0)] = true /\
  in_window (seek_window 5 false false (str "n") [(str "n", Eq_, Float 0)])
    (encode_sort_key 5 (Some (Float 9223372036854775808)) false [7]) = false.
Proof. vm_compute. auto. Qed.

(** Time-stamps have no encoding: all of them share one sort value. *)
Lemma timestamps_unordered :
  encode_sort_key 5 (Some (Timestamp 1)) false [7] = encode_sort_key 5 (Some (Timestamp 2)) false [7] /\
  partial_cmp_value (Timestamp 1) (Timestamp 2) = Some Lt.
Proof. vm_compute. auto. Qed.

(** A ghost and a scan without one order these records differently: nulls against
    numbers, integers against floats, and time-stamps. *)
Lemma ghost_order_differs :
  sort_compare (Some Null) (Some (Int 1)) = Lt /\ compare_values (Some Null) (Some (Int 1)) = Gt /\
  sort_compare (Some (Int 9)) (Some (Float 4613937818241073152)) = Lt /\
  compare_values (Some (Int 9)) (Some (Float 4613937818241073152)) = Gt /\
  sort_compare (Some (Timestamp 2)) (Some (Timestamp 1)) = Eq /\ compare_values (Some (Timestamp 2)) (Some (Timestamp 1)) = Gt.
Proof. vm_compute. auto 10. Qed.
