(* ===== verification/FieldDict.v ===== *)
(** * Field dictionaries (core/src/field_dict.rs)

    The numbering of a lobe's field names. Identifiers are positions in the list
    of names, cut to 16 bits. *)

From S2P Require Import Prelude.

Record FieldDict := mkFieldDict {
  name_to_id : gmap bytes Z;
  id_to_name : list bytes;
}.

Definition FieldDict_new : FieldDict := mkFieldDict ∅ [].

(** [from_names]: [i as u16] for the index of each name. *)
Fixpoint index_names (i : Z) (names : list bytes) (m : gmap bytes Z) : gmap bytes Z :=
  match names with
  | [] => m
  | name :: names' => index_names (i + 1) names' (<[name := wrap16 i]> m)
  end.

Definition from_names (names : list bytes) : FieldDict := mkFieldDict (index_names 0 names ∅) names.

(** [get_or_create_id]: the identifier, whether it is new, and the dictionary. *)
Definition get_or_create_id (d : FieldDict) (name : bytes) : Z * bool * FieldDict :=
  match name_to_id d !! name with
  | Some id => (id, false, d)
  | None =>
    let id := wrap16 (blen (id_to_name d)) in
    (id, true, mkFieldDict (<[name := id]> (name_to_id d)) (id_to_name d ++ [name]))
  end.

Definition get_name (d : FieldDict) (id : Z) : option bytes := id_to_name d !! Z.to_nat id.

Definition to_names (d : FieldDict) : list bytes := id_to_name d.

(** ** Well-formed dictionaries *)

(** Within the 16-bit range the two tables are inverse to each other. *)
Record dict_wf (d : FieldDict) : Prop := {
  dw_size : blen (id_to_name d) <= 2 ^ 16;
  dw_ids : forall name id, name_to_id d !! name = Some id -> is_uint 16 id /\ get_name d id = Some name;
  dw_names : forall i name, id_to_name d !! i = Some name -> name_to_id d !! name = Some (Z.of_nat i);
}.

(** A later state of the same dictionary. *)
Definition dict_extends (d d' : FieldDict) : Prop := id_to_name d `prefix_of` id_to_name d'.

#[export] Instance dict_extends_preorder : PreOrder dict_extends.
Proof. split; [intros d; unfold dict_extends; done|]. intros a b c. unfold dict_extends. by etrans. Qed.

Lemma get_name_extends d d' id name : dict_extends d d' -> get_name d id = Some name -> get_name d' id = Some name.
Proof. unfold dict_extends, get_name. intros Hp Hl. by eapply prefix_lookup_Some. Qed.

Lemma FieldDict_new_wf : dict_wf FieldDict_new.
Proof. split; [done|intros ??; cbn; by rewrite lookup_empty|done]. Qed.

(** A name gets an identifier that stands for it, and nothing else changes. *)
Lemma get_or_create_id_spec d name :
  dict_wf d -> blen (id_to_name d) < 2 ^ 16 ->
  let '(id, _, d') := get_or_create_id d name in
  dict_wf d' /\ dict_extends d d' /\ is_uint 16 id /\ get_name d' id = Some name /\
  blen (id_to_name d') <= blen (id_to_name d) + 1.
Proof.
  intros Hwf Hlen. unfold get_or_create_id. destruct (name_to_id d !! name) as [id|] eqn:E.
  - destruct (dw_ids d Hwf name id E). split; [done|]. split; [done|]. split; [done|]. split; [done|lia].
  - assert (wrap16 (blen (id_to_name d)) = blen (id_to_name d)) as ->.
    { apply wrap_small. pose proof (blen_nonneg (id_to_name d)). unfold is_uint. lia. }
    assert (get_name (mkFieldDict (<[name:=blen (id_to_name d)]> (name_to_id d)) (id_to_name d ++ [name])) (blen (id_to_name d)) = Some name) as Hn.
    { unfold get_name. cbn [id_to_name]. by rewrite blen_to_nat, lookup_app_r, Nat.sub_diag by lia. }
    split; [|split; [by exists [name]|split; [pose proof (blen_nonneg (id_to_name d)); unfold is_uint; lia|split; [done|cbn [id_to_name]; len]]]].
    split; cbn [name_to_id id_to_name].
    + len.
    + intros n i. destruct (decide (name = n)) as [<-|Hne].
      * rewrite lookup_insert_eq. intros [= <-]. split; [pose proof (blen_nonneg (id_to_name d)); unfold is_uint; lia|done].
      * rewrite lookup_insert_ne by done. intros [? Hi]%(dw_ids d Hwf). split; [done|]. unfold get_name in *. cbn [id_to_name].
        by apply lookup_app_l_Some.
    + intros i n. rewrite lookup_app_Some. intros [Hi|[Hge Hi]].
      * pose proof (dw_names d Hwf i n Hi) as Hin. rewrite lookup_insert_ne; [done|]. intros <-. congruence.
      * apply list_lookup_singleton_Some in Hi as [Hi <-]. rewrite lookup_insert_eq. f_equal. unfold blen. lia.
Qed.

(** Different names have different identifiers. *)
Lemma get_name_inj d id id' name :
  dict_wf d -> is_uint 16 id -> is_uint 16 id' -> get_name d id = Some name -> get_name d id' = Some name -> id = id'.
Proof.
  intros Hwf Hi Hi' H%(dw_names d Hwf) H'%(dw_names d Hwf). unfold is_uint in *. rewrite H in H'. injection H'. lia.
Qed.

Lemma index_names_lookup i names m name :
  NoDup names ->
  index_names i names m !! name =
    match list_find (eq name) names with Some (j, _) => Some (wrap16 (i + Z.of_nat j)) | None => m !! name end.
Proof.
  revert i m. induction names as [|n names IH]; intros i m Hnd; [done|]. apply NoDup_cons in Hnd as [Hn Hnd].
  cbn [index_names list_find]. rewrite IH by done. destruct (decide (name = n)) as [->|Hne].
  - destruct (list_find (eq n) names) as [[j x]|] eqn:E.
    + apply list_find_Some in E as (Hj & -> & _). exfalso. apply Hn. by eapply list_elem_of_lookup_2.
    + rewrite lookup_insert_eq. do 2 f_equal. lia.
  - destruct (list_find (eq name) names) as [[j x]|]; cbn; [do 2 f_equal; lia|by rewrite lookup_insert_ne].
Qed.

(** The persisted list of names is the whole dictionary. *)
Lemma from_names_wf names : NoDup names -> blen names <= 2 ^ 16 -> dict_wf (from_names names) /\ to_names (from_names names) = names.
Proof.
  intros Hnd Hlen. split; [|done]. split; [done|..].
  - intros name id. cbn [name_to_id from_names]. rewrite index_names_lookup, lookup_empty by done.
    destruct (list_find (eq name) names) as [[j x]|] eqn:E; [|done]. apply list_find_Some in E as (Hj & -> & _).
    pose proof (lookup_lt_Some _ _ _ Hj). rewrite wrap_small by (unfold is_uint, blen in *; lia). intros [= <-].
    unfold is_uint, blen, get_name in *. split; [lia|]. cbn [id_to_name]. by rewrite Z.add_0_l, Nat2Z.id.
  - intros i name Hi. cbn [name_to_id id_to_name from_names] in *. rewrite index_names_lookup by done.
    assert (list_find (eq name) names = Some (i, name)) as ->.
    { apply list_find_Some. split; [done|]. split; [done|]. intros j y Hj Hlt <-. pose proof (NoDup_lookup _ _ _ _ Hnd Hi Hj). lia. }
    pose proof (lookup_lt_Some _ _ _ Hi). rewrite wrap_small by (unfold is_uint, blen in *; lia). by rewrite Z.add_0_l.
Qed.

(** Past 65536 names the identifier wraps: the new name is given the number of
    the first one. *)
Lemma dict_overflow d name :
  blen (id_to_name d) = 2 ^ 16 -> name_to_id d !! name = None ->
  exists d', get_or_create_id d name = (0, true, d') /\ get_name d' 0 = get_name d 0.
Proof.
  intros Hlen Hn. unfold get_or_create_id. rewrite Hn, Hlen. eexists. split; [done|]. unfold get_name. cbn [id_to_name].
  apply lookup_app_l. unfold blen in Hlen. lia.
Qed.
