(* ===== verification/Lid.v ===== *)
(** * Logical identifiers (core/src/lid.rs) and errors (core/src/error.rs)

    The 128-bit identity of a record: node, lobe, time-stamp, sequence number and
    the boot epoch, with its byte form and its printed form. The two process-wide
    atomics are a state; a read of the clock is an argument. *)

From S2P Require Import Prelude Types ByteOrder.

(** ** Errors *)

Inductive XyzError :=
  | Parse (msg : string)
  | LobeNotFound (name : bytes)
  | DuplicateAnchor (anchor value lobe existing_lid : bytes)
  | RecordNotFound (msg : string)
  | Storage (msg : string)
  | TypeError (expected got : string)
  | InvalidQuery (msg : string)
  | GhostNotFound (name : bytes)
  | GhostExists (name : bytes)
  | NearestBudgetExceeded (scanned budget_ms : Z)
  | Internal (msg : string).

(** [Result<T, XyzError>] *)
Inductive XResult (A : Type) := XOk (a : A) | XErr (e : XyzError).
Arguments XOk {A} _.
Arguments XErr {A} _.

#[export] Instance XResult_ret : MRet XResult := fun _ a => XOk a.
#[export] Instance XResult_bind : MBind XResult := fun _ _ f m => match m with XOk a => f a | XErr e => XErr e end.

(** [opt.ok_or(e)] *)
Definition xok_or {A} (o : option A) (e : XyzError) : XResult A := match o with Some a => XOk a | None => XErr e end.

(** ** Identifiers *)

Abbreviation LID := Z.

(** [SEQUENCE] and [BOOT_EPOCH] *)
Record LidState := mkLidState { sequence_ctr : Z; boot_epoch_reg : Z }.

(** [0xFFFF_FFFF_FFFF] *)
Definition MASK_48 : Z := 281474976710655.

Definition lid_pack (node_id lobe_id timestamp seq reserved : Z) : LID :=
  Z.lor (Z.lor (Z.lor (Z.lor (Z.shiftl node_id 112) (Z.shiftl lobe_id 96)) (Z.shiftl (Z.land timestamp MASK_48) 48)) (Z.shiftl seq 16)) reserved.

(** [LID::new]: [fetch_add] wraps. *)
Definition LID_new (st : LidState) (lobe_id timestamp : Z) : LID * LidState :=
  let seq := sequence_ctr st in
  (lid_pack 0 lobe_id timestamp seq (boot_epoch_reg st), mkLidState (wrap32 (seq + 1)) (boot_epoch_reg st)).

Definition set_boot_epoch (st : LidState) (epoch : Z) : LidState := mkLidState (sequence_ctr st) epoch.

Definition lid_to_bytes (l : LID) : bytes := to_be_bytes 16 l.
Definition lid_from_bytes (b : bytes) : LID := from_be_bytes b.

Definition lid_node_id (l : LID) : Z := wrap16 (Z.shiftr l 112).
Definition lid_lobe_id (l : LID) : Z := wrap16 (Z.shiftr l 96).
Definition lid_timestamp (l : LID) : Z := Z.land (Z.shiftr l 48) MASK_48.
Definition lid_sequence (l : LID) : Z := Z.land (Z.shiftr l 16) 4294967295.
Definition lid_boot_epoch (l : LID) : Z := Z.land l 65535.

(** ** Printing and parsing *)

(** An upper-case hexadecimal digit. *)
Definition hex_digit (d : Z) : Z := if d <? 10 then 48 + d else 55 + d.

(** The digits of [{:X}], least significant first (32 digits hold a [u128]). *)
Fixpoint hex_rev (fuel : nat) (n : Z) : bytes :=
  match fuel with
  | O => []
  | S fuel' => hex_digit (n mod 16) :: (if n <? 16 then [] else hex_rev fuel' (n / 16))
  end.

(** [{n:0wX}] *)
Definition format_hex (w : nat) (n : Z) : bytes :=
  let d := reverse (hex_rev 32 n) in replicate (w - length d) 48 ++ d.

Definition COLON : Z := 58.

(** [Display] *)
Definition lid_display (l : LID) : bytes :=
  format_hex 4 (lid_node_id l) ++ [COLON] ++ format_hex 4 (lid_lobe_id l) ++ [COLON] ++
  format_hex 12 (lid_timestamp l) ++ [COLON] ++ format_hex 8 (lid_sequence l) ++ [COLON] ++ format_hex 4 (Z.land l 65535).

(** [char::to_digit(16)] on a byte *)
Definition hex_value (c : Z) : option Z :=
  if (48 <=? c) && (c <=? 57) then Some (c - 48)
  else if (65 <=? c) && (c <=? 70) then Some (c - 55)
  else if (97 <=? c) && (c <=? 102) then Some (c - 87)
  else None.

(** [uW::from_str_radix(s, 16)]: an optional plus sign, digits, no overflow. *)
Fixpoint parse_hex (w acc : Z) (s : bytes) : option Z :=
  match s with
  | [] => Some acc
  | c :: s' =>
    match hex_value c with
    | Some d => let acc := acc * 16 + d in if acc <? 2 ^ w then parse_hex w acc s' else None
    | None => None
    end
  end.

Definition from_str_radix (w : Z) (s : bytes) : option Z :=
  match s with
  | [] => None
  | c :: s' => if c =? 43 then match s' with [] => None | _ => parse_hex w 0 s' end else parse_hex w 0 s
  end.

(** [s.split(':')] *)
Fixpoint split_colon (s : bytes) : list bytes :=
  match s with
  | [] => [[]]
  | c :: s' =>
    if c =? COLON then [] :: split_colon s'
    else match split_colon s' with p :: ps => (c :: p) :: ps | [] => [[c]] end
  end.

(** [LID::parse] *)
Definition lid_parse (s : bytes) : XResult LID :=
  match split_colon s with
  | [p0; p1; p2; p3; p4] =>
    node_id ← xok_or (from_str_radix 16 p0) (Parse "Bad LID node_id");
    lobe_id ← xok_or (from_str_radix 16 p1) (Parse "Bad LID lobe_id");
    timestamp ← xok_or (from_str_radix 64 p2) (Parse "Bad LID timestamp");
    sequence ← xok_or (from_str_radix 32 p3) (Parse "Bad LID sequence");
    reserved ← xok_or (from_str_radix 16 p4) (Parse "Bad LID reserved");
    XOk (lid_pack node_id lobe_id timestamp sequence reserved)
  | _ => XErr (Parse "Invalid LID format: expected 5 colon-separated segments")
  end.

Example lid_display_ex :
  lid_display (lid_pack 0 26 439041101 7 43981) = str "0000:001A:00001A2B3C4D:00000007:ABCD" /\
  lid_parse (str "0:1a:+00001A2B3C4D:7:abcd") = XOk (lid_pack 0 26 439041101 7 43981).
Proof. vm_compute. auto. Qed.

(** * Layout *)

Lemma lid_pack_sum n l t s r :
  is_uint 16 l -> is_uint 32 s -> is_uint 16 r ->
  lid_pack n l t s r = r + s * 2 ^ 16 + (t mod 2 ^ 48) * 2 ^ 48 + l * 2 ^ 96 + n * 2 ^ 112.
Proof.
  intros Hl Hs Hr. unfold lid_pack, is_uint in *. change MASK_48 with (Z.ones 48). rewrite Z.land_ones by lia.
  pose proof (Z.mod_pos_bound t (2 ^ 48) ltac:(lia)) as Ht. set (u := t mod 2 ^ 48) in *. clearbody u.
  assert (Z.lor (Z.lor (Z.lor (Z.lor (Z.shiftl n 112) (Z.shiftl l 96)) (Z.shiftl u 48)) (Z.shiftl s 16)) r =
          Z.lor (Z.lor (Z.lor (Z.lor r (Z.shiftl s 16)) (Z.shiftl u 48)) (Z.shiftl l 96)) (Z.shiftl n 112)) as ->.
  { apply Z.bits_inj'. intros i _. rewrite !Z.lor_spec. destruct (Z.testbit r i), (Z.testbit (Z.shiftl s 16) i),
      (Z.testbit (Z.shiftl u 48) i), (Z.testbit (Z.shiftl l 96) i), (Z.testbit (Z.shiftl n 112) i); done. }
  rewrite (lor_shiftl_add r) by lia. rewrite (lor_shiftl_add (r + s * 2 ^ 16)) by lia.
  rewrite (lor_shiftl_add (r + s * 2 ^ 16 + u * 2 ^ 48)) by lia. by rewrite lor_shiftl_add by lia.
Qed.

Lemma lid_fields_arith l :
  lid_node_id l = l / 2 ^ 112 mod 2 ^ 16 /\ lid_lobe_id l = l / 2 ^ 96 mod 2 ^ 16 /\ lid_timestamp l = l / 2 ^ 48 mod 2 ^ 48 /\
  lid_sequence l = l / 2 ^ 16 mod 2 ^ 32 /\ lid_boot_epoch l = l mod 2 ^ 16.
Proof.
  unfold lid_node_id, lid_lobe_id, lid_timestamp, lid_sequence, lid_boot_epoch, wrap.
  change MASK_48 with (Z.ones 48). change 4294967295 with (Z.ones 32). change 65535 with (Z.ones 16).
  by rewrite !Z.land_ones, !Z.shiftr_div_pow2 by lia.
Qed.

Lemma lid_unpack n l t s r :
  is_uint 16 n -> is_uint 16 l -> is_uint 48 t -> is_uint 32 s -> is_uint 16 r ->
  let x := lid_pack n l t s r in
  is_uint 128 x /\ lid_node_id x = n /\ lid_lobe_id x = l /\ lid_timestamp x = t /\ lid_sequence x = s /\ lid_boot_epoch x = r.
Proof.
  intros Hn Hl Ht Hs Hr x. subst x. rewrite lid_pack_sum by done. unfold is_uint in *.
  destruct (lid_fields_arith (r + s * 2 ^ 16 + (t mod 2 ^ 48) * 2 ^ 48 + l * 2 ^ 96 + n * 2 ^ 112)) as (-> & -> & -> & -> & ->).
  rewrite (Z.mod_small t) by done. Z.to_euclidean_division_equations. lia.
Qed.

Lemma lid_repack l : is_uint 128 l -> lid_pack (lid_node_id l) (lid_lobe_id l) (lid_timestamp l) (lid_sequence l) (lid_boot_epoch l) = l.
Proof.
  intros Hl. destruct (lid_fields_arith l) as (-> & -> & -> & -> & ->). unfold is_uint in *.
  rewrite lid_pack_sum by (apply Z.mod_pos_bound; lia). rewrite Zmod_mod. Z.to_euclidean_division_equations. lia.
Qed.

(** * Hexadecimal *)

Lemma hex_value_digit d : 0 <= d < 16 -> hex_value (hex_digit d) = Some d.
Proof.
  intros Hd. unfold hex_value, hex_digit. destruct (Z.ltb_spec d 10).
  - destruct (Z.leb_spec 48 (48 + d)), (Z.leb_spec (48 + d) 57); try lia. simpl. f_equal. lia.
  - destruct (Z.leb_spec 48 (55 + d)), (Z.leb_spec (55 + d) 57); try lia.
    destruct (Z.leb_spec 65 (55 + d)), (Z.leb_spec (55 + d) 70); try lia. simpl. f_equal. lia.
Qed.

Lemma hex_digit_char d : 0 <= d < 16 -> hex_digit d <> COLON /\ hex_digit d <> 43.
Proof. unfold hex_digit, COLON. destruct (Z.ltb_spec d 10); lia. Qed.

Lemma parse_hex_app w acc a b : parse_hex w acc (a ++ b) = parse_hex w acc a ≫= fun x => parse_hex w x b.
Proof. revert acc. induction a as [|c a IH]; intros acc; simpl; [done|]. repeat case_match; simpl; auto. Qed.

Lemma hex_rev_parse w fuel n :
  0 <= n < 16 ^ Z.of_nat fuel -> n < 2 ^ w -> parse_hex w 0 (reverse (hex_rev fuel n)) = Some n.
Proof.
  revert n. induction fuel as [|fuel IH]; intros n Hn Hw.
  { simpl in Hn. by replace n with 0 by lia. }
  cbn [hex_rev]. rewrite reverse_cons, parse_hex_app. rewrite Nat2Z.inj_succ, Z.pow_succ_r in Hn by lia.
  pose proof (Z.mod_pos_bound n 16 ltac:(lia)) as Hm. pose proof (Z.div_mod n 16 ltac:(lia)) as Hd.
  destruct (Z.ltb_spec n 16).
  - change (reverse []) with (@nil Z). cbn [parse_hex mbind option_bind]. rewrite hex_value_digit by done.
    cbn zeta. rewrite (Z.mod_small n 16) by lia. destruct (Z.ltb_spec (0 * 16 + n) (2 ^ w)); [f_equal; lia|lia].
  - rewrite IH; [|split; [apply Z.div_pos; lia|apply Z.div_lt_upper_bound; lia]|]; cycle 1.
    { pose proof (Z.div_lt n 16). lia. }
    cbn [parse_hex mbind option_bind]. rewrite hex_value_digit by done. cbn zeta.
    replace (n / 16 * 16 + n mod 16) with n by lia. destruct (Z.ltb_spec n (2 ^ w)); [done|lia].
Qed.

Lemma parse_hex_zeros w n s : 0 < 2 ^ w -> parse_hex w 0 (replicate n 48 ++ s) = parse_hex w 0 s.
Proof. intros Hw. induction n as [|n IH]; [done|]. cbn [replicate app parse_hex].
  change (hex_value 48) with (Some 0). cbv iota beta zeta. case_match eqn:E; [exact IH|]. apply Z.ltb_ge in E. lia. Qed.

Lemma hex_rev_chars fuel n c : 0 <= n -> c ∈ hex_rev fuel n -> c <> COLON /\ c <> 43.
Proof.
  revert n. induction fuel as [|fuel IH]; intros n Hn; cbn [hex_rev]; [by intros ?%elem_of_nil|].
  intros [->|Hc]%elem_of_cons; [apply hex_digit_char, Z.mod_pos_bound; lia|].
  case_match; [by apply elem_of_nil in Hc|]. eapply IH; [|done]. apply Z.div_pos; lia.
Qed.

Lemma format_hex_chars k n : 0 <= n -> Forall (fun c => c <> COLON /\ c <> 43) (format_hex k n).
Proof.
  intros Hn. unfold format_hex. cbv zeta. apply Forall_app. split; [apply Forall_replicate; done|].
  apply Forall_reverse, Forall_forall. intros c. by apply hex_rev_chars.
Qed.

(** A printed number parses back, whatever the padding. *)
Lemma from_str_format_hex w k n : is_uint 128 n -> n < 2 ^ w -> from_str_radix w (format_hex k n) = Some n.
Proof.
  intros [Hn Hm] Hw. assert (parse_hex w 0 (format_hex k n) = Some n) as H.
  { unfold format_hex. cbv zeta. rewrite parse_hex_zeros by lia. apply hex_rev_parse; [|done]. change (16 ^ Z.of_nat 32) with (2 ^ 128). lia. }
  pose proof (format_hex_chars k n Hn) as Hc. unfold from_str_radix. destruct (format_hex k n) as [|c s] eqn:E.
  - unfold format_hex in E. cbv zeta in E. apply app_eq_nil in E as [_ E]. by apply (f_equal length) in E; rewrite length_reverse in E.
  - apply Forall_cons in Hc as [[_ Hc] _]. destruct (Z.eqb_spec c 43); [done|done].
Qed.

Lemma split_colon_plain s : Forall (fun c => c <> COLON /\ c <> 43) s -> split_colon s = [s].
Proof.
  induction 1 as [|c s [Hc _] _ IH]; [done|]. cbn [split_colon]. destruct (Z.eqb_spec c COLON); [done|]. by rewrite IH.
Qed.

Lemma split_colon_cons s rest :
  Forall (fun c => c <> COLON /\ c <> 43) s -> split_colon (s ++ [COLON] ++ rest) = s :: split_colon rest.
Proof.
  induction 1 as [|c s [Hc _] _ IH]; [done|]. cbn [app split_colon]. destruct (Z.eqb_spec c COLON); [done|].
  cbn [app] in IH. by rewrite IH.
Qed.

Lemma lid_field_ranges l : is_uint 16 (lid_node_id l) /\ is_uint 16 (lid_lobe_id l) /\ is_uint 48 (lid_timestamp l) /\
  is_uint 32 (lid_sequence l) /\ is_uint 16 (lid_boot_epoch l).
Proof. destruct (lid_fields_arith l) as (-> & -> & -> & -> & ->). repeat split; apply Z.mod_pos_bound; lia. Qed.

Lemma lid_parse_display l : is_uint 128 l -> lid_parse (lid_display l) = XOk l.
Proof.
  intros Hl. destruct (lid_field_ranges l) as (H1 & H2 & H3 & H4 & H5). unfold is_uint in *.
  unfold lid_parse, lid_display. fold (lid_boot_epoch l).
  rewrite !split_colon_cons, split_colon_plain by (apply format_hex_chars; lia).
  rewrite !from_str_format_hex by (unfold is_uint; lia). cbn. f_equal. by apply lid_repack.
Qed.

(** * Uniqueness *)

(** The identifiers a process mints, one per request of a lobe and a clock
    reading. *)
Fixpoint mint (st : LidState) (reqs : list (Z * Z)) : list LID :=
  match reqs with
  | [] => []
  | (lobe, now) :: reqs' => let '(lid, st') := LID_new st lobe now in lid :: mint st' reqs'
  end.

Lemma mint_sequence st reqs i lid :
  is_uint 32 (sequence_ctr st) -> is_uint 16 (boot_epoch_reg st) -> Forall (fun q => is_uint 16 q.1) reqs -> mint st reqs !! i = Some lid ->
  lid_sequence lid = wrap32 (sequence_ctr st + Z.of_nat i) /\ lid_boot_epoch lid = boot_epoch_reg st.
Proof.
  revert st i. induction reqs as [|[lobe now] reqs IH]; intros st i Hs He Hr Hi; [done|].
  apply Forall_cons in Hr as [Hl Hr]. cbn [mint LID_new] in Hi. destruct i as [|i]; cbn in Hi.
  - injection Hi as <-. rewrite Z.add_0_r, wrap_small by done.
    assert (lid_pack 0 lobe now (sequence_ctr st) (boot_epoch_reg st) = lid_pack 0 lobe (now mod 2 ^ 48) (sequence_ctr st) (boot_epoch_reg st)) as ->
      by (by rewrite !lid_pack_sum, Zmod_mod).
    destruct (lid_unpack 0 lobe (now mod 2 ^ 48) (sequence_ctr st) (boot_epoch_reg st)) as (_ & _ & _ & _ & ? & ?); try done.
    apply Z.mod_pos_bound. lia.
  - apply IH in Hi as [-> ->]; [|apply Z.mod_pos_bound; lia|done|done]. cbn [sequence_ctr boot_epoch_reg]. split; [|done].
    unfold wrap. rewrite Zplus_mod_idemp_l. f_equal. lia.
Qed.

(** * Theorems *)

(** An identifier survives its byte form and its printed form, its parts can be
    read back from it, and it is determined by them. *)
Theorem lid_roundtrip l :
  is_uint 128 l ->
  lid_from_bytes (lid_to_bytes l) = l /\ lid_parse (lid_display l) = XOk l /\
  lid_pack (lid_node_id l) (lid_lobe_id l) (lid_timestamp l) (lid_sequence l) (lid_boot_epoch l) = l.
Proof.
  intros Hl. split; [by apply (from_to_be_bytes_id 16 128)|]. split; [by apply lid_parse_display|by apply lid_repack].
Qed.

Lemma lid_roundtrip_witness :
  lid_parse (lid_display (lid_pack 0 26 439041101 7 43981)) = XOk (lid_pack 0 26 439041101 7 43981).
Proof. apply (lid_roundtrip (lid_pack 0 26 439041101 7 43981)). split; vm_compute; congruence. Defined.

(** C39: identifiers do not collide. Up to 2^32 of them minted by one process differ
    from each other whatever the clock does, and those of two processes with
    different boot epochs differ too. *)
Theorem lids_unique st reqs :
  is_uint 32 (sequence_ctr st) -> is_uint 16 (boot_epoch_reg st) -> Forall (fun q => is_uint 16 q.1) reqs ->
  (blen reqs <= 2 ^ 32 -> NoDup (mint st reqs)) /\
  forall st' reqs', is_uint 32 (sequence_ctr st') -> is_uint 16 (boot_epoch_reg st') -> Forall (fun q => is_uint 16 q.1) reqs' ->
    boot_epoch_reg st <> boot_epoch_reg st' -> forall l, l ∈ mint st reqs -> l ∈ mint st' reqs' -> False.
Proof.
  intros Hs He Hr. assert (forall s, length (mint s reqs) = length reqs) as Hlen.
  { clear. induction reqs as [|[lobe now] reqs IH]; intros s; [done|]. cbn [mint LID_new length]. by rewrite IH. }
  split.
  - intros Hn. apply NoDup_alt. intros i j l Hi Hj.
    destruct (mint_sequence st reqs i l Hs He Hr Hi) as [Ei _], (mint_sequence st reqs j l Hs He Hr Hj) as [Ej _].
    apply lookup_lt_Some in Hi, Hj. rewrite Hlen in Hi, Hj. rewrite Ei in Ej. unfold wrap, is_uint, blen in *.
    Z.to_euclidean_division_equations. lia.
  - intros st' reqs' Hs' He' Hr' Hne l (i & Hi)%list_elem_of_lookup (j & Hj)%list_elem_of_lookup.
    destruct (mint_sequence st reqs i l Hs He Hr Hi) as [_ Ei], (mint_sequence st' reqs' j l Hs' He' Hr' Hj) as [_ Ej]. congruence.
Qed.

(** Across a wrap of the counter, with the clock standing still. *)
Lemma lids_unique_witness : NoDup (mint (mkLidState (2 ^ 32 - 1) 5) [(1, 77); (1, 77); (1, 77)]).
Proof.
  apply (lids_unique (mkLidState (2 ^ 32 - 1) 5) [(1, 77); (1, 77); (1, 77)]);
    [split; vm_compute; congruence..|repeat constructor; vm_compute; congruence|vm_compute; congruence].
Defined.
