(* ===== verification/Record.v ===== *)
(** * Records and their on-disk forms (core/src/record.rs)

    The three layouts a record is written in, the separate column of its search
    vector, and reading them back. The serializers of the [postcard] and
    [bincode] crates are parameters. *)

From S2P Require Import Prelude Types ByteOrder Block Bloom BTree Value FieldDict Lid.

Definition XYZDB_MAGIC : bytes := [88; 89].

(** [RecordOnDiskV1], with field names, and [RecordOnDiskV2] and [RecordOnDiskV5],
    which have the same fields, with identifiers. *)
Record RecordOnDisk (K : Type) := mkOnDisk {
  od_lid : LID;
  od_fields : BTreeMap K Value.Value;
  od_created_at : Z;
  od_updated_at : Z;
}.
Arguments mkOnDisk {K} _ _ _ _.
Arguments od_lid {K} _.
Arguments od_fields {K} _.
Arguments od_created_at {K} _.
Arguments od_updated_at {K} _.

Record XRecord := mkRecord {
  lid : LID;
  lobe_name : bytes;
  fields : BTreeMap bytes Value.Value;
  created_at : Z;
  updated_at : Z;
}.

(** ** UTF-8

    What [String] guarantees, and what [str::from_utf8] tests. *)
Definition cont (b : Z) : bool := (128 <=? b) && (b <=? 191).

Definition utf8_2 (a b : Z) : bool := (194 <=? a) && (a <=? 223) && cont b.

Definition utf8_3 (a b c : Z) : bool :=
  ((a =? 224) && (160 <=? b) && (b <=? 191) || (225 <=? a) && (a <=? 236) && cont b ||
   (a =? 237) && (128 <=? b) && (b <=? 159) || (238 <=? a) && (a <=? 239) && cont b) && cont c.

Definition utf8_4 (a b c d : Z) : bool :=
  ((a =? 240) && (144 <=? b) && (b <=? 191) || (241 <=? a) && (a <=? 243) && cont b ||
   (a =? 244) && (128 <=? b) && (b <=? 143)) && cont c && cont d.

Fixpoint is_utf8 (s : bytes) : bool :=
  match s with
  | [] => true
  | a :: s1 =>
    if (0 <=? a) && (a <? 128) then is_utf8 s1
    else match s1 with
         | [] => false
         | b :: s2 =>
           if utf8_2 a b then is_utf8 s2
           else match s2 with
                | [] => false
                | c :: s3 =>
                  if utf8_3 a b c then is_utf8 s3
                  else match s3 with
                       | [] => false
                       | d :: s4 => if utf8_4 a b c d then is_utf8 s4 else false
                       end
                end
         end
  end.

(** Keys in order. *)
Fixpoint sortedb {V} (m : BTreeMap bytes V) : bool :=
  match m with
  | (k, _) :: ((k', _) :: _) as m' => bltb k k' && sortedb m'
  | _ => true
  end.

(** What the types of a [Value] guarantee. *)
Fixpoint value_ok (v : Value.Value) : bool :=
  match v with
  | Int i | Timestamp i => (- 2 ^ 63 <=? i) && (i <? 2 ^ 63)
  | Float b => (0 <=? b) && (b <? 2 ^ 64)
  | Text s => is_utf8 s
  | Bytes b => forallb (fun x => (0 <=? x) && (x <? 256)) b
  | List l => (fix go l := match l with [] => true | i :: l' => value_ok i && go l' end) l
  | Map m => sortedb m && (fix go (m : BTreeMap bytes Value.Value) := match m with [] => true | (k, i) :: m' => is_utf8 k && value_ok i && go m' end) m
  | Vector l => forallb (fun x => (0 <=? x) && (x <? 2 ^ 32)) l
  | _ => true
  end.

(** A value that can be decoded again: the hand-written [Deserialize] rejects
    what nests deeper than [MAX_DECODE_DEPTH]. *)
Definition decodable (v : Value.Value) : Prop := value_ok v = true /\ depth v <= MAX_DECODE_DEPTH.

(** ** The serializers *)

Class Postcard := {
  to_allocvec_names : RecordOnDisk bytes -> bytes;
  from_bytes_names : bytes -> option (RecordOnDisk bytes);
  to_allocvec_ids : RecordOnDisk Z -> bytes;
  from_bytes_ids : bytes -> option (RecordOnDisk Z);
  bincode_deserialize : bytes -> option XRecord;
}.

(** Decoding inverts encoding. *)
Class PostcardLaws (PC : Postcard) : Prop := {
  names_roundtrip r : bt_sorted (od_fields r) -> Forall (fun kv => decodable kv.2) (od_fields r) ->
    from_bytes_names (to_allocvec_names r) = Some r;
  ids_roundtrip r : bt_sorted (od_fields r) -> Forall (fun kv => decodable kv.2) (od_fields r) ->
    from_bytes_ids (to_allocvec_ids r) = Some r;
}.

(** ** LEB128 *)

(** [write_leb128]: the loop of [encode_varint]; a [u128] takes 19 rounds. *)
Definition write_leb128 (value : Z) : bytes := encode_varint_loop 19 value.

(** [read_leb128]: the value and the rest. Bits shifted out of the [u128] are
    lost. *)
Fixpoint read_leb128_loop (bs : bytes) (value shift : Z) : option (Z * bytes) :=
  match bs with
  | [] => None
  | byte :: rest =>
    if 128 <=? shift then None
    else
      let value := Z.lor value (wrap 128 (Z.shiftl (Z.land byte 127) shift)) in
      if Z.land byte 128 =? 0 then Some (value, rest) else read_leb128_loop rest value (shift + 7)
  end.

Definition read_leb128 (bs : bytes) : option (Z * bytes) := read_leb128_loop bs 0 0.

Section records.
Context {PC : Postcard}.
(** [crate::distance::norm_sq], over the SIMD lanes of the [wide] crate. *)
Context (norm_sq : list Z -> Z).

(** ** Writing *)

Definition serialize_record (record : XRecord) : bytes :=
  let on_disk := mkOnDisk (lid record) (fields record) (created_at record) (updated_at record) in
  XYZDB_MAGIC ++ [1] ++ to_allocvec_names on_disk.

(** The names replaced by identifiers, which may be new. *)
Fixpoint id_entries (field_dict : FieldDict) (fs : list (bytes * Value.Value)) : list (Z * Value.Value) * FieldDict :=
  match fs with
  | [] => ([], field_dict)
  | (name, val) :: fs' =>
    let '(id, _, field_dict) := get_or_create_id field_dict name in
    let '(rest, field_dict) := id_entries field_dict fs' in
    ((id, val) :: rest, field_dict)
  end.

Definition serialize_record_v2 (record : XRecord) (field_dict : FieldDict) : bytes * FieldDict :=
  let '(entries, field_dict) := id_entries field_dict (fields record) in
  let on_disk := mkOnDisk (lid record) (bt_collect entries) (created_at record) (updated_at record) in
  (XYZDB_MAGIC ++ [2] ++ to_allocvec_ids on_disk, field_dict).

(** The search field, its identifier and its vector, when there is one. *)
Definition search_vec (record : XRecord) (field_dict : FieldDict) (search_field : option bytes)
    : option (bytes * Z * list Z) * FieldDict :=
  match search_field with
  | Some name =>
    match bt_get name (fields record) with
    | Some (Vector v) => let '(id, _, field_dict) := get_or_create_id field_dict name in (Some (name, id, v), field_dict)
    | _ => (None, field_dict)
    end
  | None => (None, field_dict)
  end.

(** [for (name, val) in &record.fields] *)
Fixpoint v5_fields (excluded : option bytes) (fs : list (bytes * Value.Value)) (id_fields : BTreeMap Z Value.Value) (field_dict : FieldDict)
    : BTreeMap Z Value.Value * FieldDict :=
  match fs with
  | [] => (id_fields, field_dict)
  | (name, val) :: fs' =>
    if bool_decide (Some name = excluded) then v5_fields excluded fs' id_fields field_dict
    else
      let '(id, _, field_dict) := get_or_create_id field_dict name in
      v5_fields excluded fs' (bt_insert id val id_fields) field_dict
  end.

(** The vector column: [MAGIC, 0x04, lid, 1, field_id, len, floats, norm]. *)
Definition column_value (lid field_id : Z) (v : list Z) : bytes :=
  XYZDB_MAGIC ++ [4] ++ write_leb128 lid ++ [1] ++ write_leb128 field_id ++ write_leb128 (blen v) ++
  (v ≫= to_le_bytes 4) ++ to_le_bytes 8 (norm_sq v).

Definition serialize_record_v5 (record : XRecord) (field_dict : FieldDict) (search_field : option bytes)
    : bytes * option bytes * FieldDict :=
  let '(search_vec, field_dict) := search_vec record field_dict search_field in
  let excluded_field := (fun x => fst (fst x)) <$> search_vec in
  let '(id_fields, field_dict) := v5_fields excluded_field (fields record) [] field_dict in
  let on_disk := mkOnDisk (lid record) id_fields (created_at record) (updated_at record) in
  let blob := XYZDB_MAGIC ++ [5] ++ to_allocvec_ids on_disk in
  let column := (fun '(_, field_id, v) => column_value (lid record) field_id v) <$> search_vec in
  (blob, column, field_dict).

(** ** Reading *)

(** [bytes.len() >= 3 && bytes[0..2] == XYZDB_MAGIC], and the third byte. *)
Definition marker (bs : bytes) : option (Z * bytes) :=
  match bs with
  | a :: b :: m :: rest => if beqb [a; b] XYZDB_MAGIC then Some (m, rest) else None
  | _ => None
  end.

(** [read_vector_prefix_raw_norm]: identity, field, bytes of the floats, norm. *)
Definition read_vector_prefix_raw_norm (bs : bytes) : option (LID * Z * bytes * option Z) :=
  '(m, rest) ← marker bs;
  has_norm ← (if m =? 3 then Some false else if m =? 4 then Some true else None);
  '(lid_raw, rest) ← read_leb128 rest;
  '(tag, rest) ← (match rest with t :: r => Some (t, r) | [] => None end);
  if negb (tag =? 1) then None
  else
    '(field_id, rest) ← read_leb128 rest;
    if negb (field_id <? 2 ^ 16) then None
    else
      '(len, rest) ← read_leb128 rest;
      let nbytes := len * 4 in
      if negb ((len <? 2 ^ 64) && (nbytes <? 2 ^ 64)) then None
      else if blen rest <? nbytes then None
      else
        let fbytes := slice rest 0 nbytes in
        if has_norm : bool then
          if blen rest <? nbytes + 8 then None
          else Some (lid_raw, field_id, fbytes, Some (from_le_bytes (slice rest nbytes (nbytes + 8))))
        else Some (lid_raw, field_id, fbytes, None).

(** [chunks_exact(4)] with [f32::from_le_bytes]; [fuel] is the number of chunks. *)
Fixpoint le_floats (fuel : nat) (b : bytes) : list Z :=
  match fuel with
  | O => []
  | S fuel' => from_le_bytes (take 4 b) :: le_floats fuel' (drop 4 b)
  end.

Definition hydrate_vector (record : XRecord) (column : bytes) (field_dict : FieldDict) : XRecord * bool :=
  match read_vector_prefix_raw_norm column with
  | None => (record, false)
  | Some (_, field_id, fbytes, _) =>
    match get_name field_dict field_id with
    | None => (record, false)
    | Some name =>
      let floats := le_floats (length fbytes / 4) fbytes in
      (mkRecord (lid record) (lobe_name record) (bt_insert name (Vector floats) (fields record)) (created_at record) (updated_at record), true)
    end
  end.

(** [into_iter().filter_map(..).collect()]: identifiers without a name are
    dropped. *)
Definition restore_names (dict : FieldDict) (fs : BTreeMap Z Value.Value) : BTreeMap bytes Value.Value :=
  bt_collect (omap (fun '(id, val) => (fun name => (name, val)) <$> get_name dict id) fs).

Definition record_of {K} (lobe : bytes) (on_disk : RecordOnDisk K) (fs : BTreeMap bytes Value.Value) : XRecord :=
  mkRecord (od_lid on_disk) lobe fs (od_created_at on_disk) (od_updated_at on_disk).

(** A V2 or V5 payload: [None] falls through to the legacy format. *)
Definition decode_ids (payload : bytes) (lobe : bytes) (field_dict : option FieldDict) : option XRecord :=
  match from_bytes_ids payload, field_dict with
  | Some on_disk, Some dict => Some (record_of lobe on_disk (restore_names dict (od_fields on_disk)))
  | _, _ => None
  end.

Definition deserialize_record (bs : bytes) (lobe : bytes) (field_dict : option FieldDict) : XResult XRecord :=
  let decoded :=
    match marker bs with
    | Some (m, payload) =>
      if m =? 2 then decode_ids payload lobe field_dict
      else if m =? 5 then decode_ids payload lobe field_dict
      else if m =? 1 then (fun on_disk => record_of lobe on_disk (od_fields on_disk)) <$> from_bytes_names payload
      else None
    | None => None
    end in
  match decoded with
  | Some record => XOk record
  | None => xok_or (bincode_deserialize bs) (Storage "Record deserialization failed")
  end.

Definition is_new_format (bs : bytes) : bool := match marker bs with Some _ => true | None => false end.

Definition format_version (bs : bytes) : Z := match marker bs with Some (m, _) => m | None => 0 end.

End records.

(** * LEB128 *)

Lemma read_leb128_loop_spec n v r rest :
  (n <= 18)%nat -> 0 <= v < 2 ^ (7 * Z.of_nat n + 2) -> 0 <= r < 2 ^ (7 * (18 - Z.of_nat n)) ->
  read_leb128_loop (encode_varint_loop (S n) v ++ rest) r (7 * (18 - Z.of_nat n)) = Some (r + v * 2 ^ (7 * (18 - Z.of_nat n)), rest).
Proof.
  revert v r. induction n as [|n IH]; intros v r Hn Hv Hr; rewrite encode_varint_loop_S by lia.
  - assert (v / 128 = 0) as -> by (apply Z.div_small; simpl in Hv; lia). rewrite Z.mod_small by (simpl in Hv; lia).
    cbn [app read_leb128_loop Z.eqb]. destruct (Z.leb_spec 128 (7 * (18 - Z.of_nat 0))); [lia|].
    destruct (continuation_bit v) as (_ & -> & -> & _); [simpl in Hv; lia|]. cbn [Z.eqb].
    rewrite wrap_small, lor_shiftl_add; [done|lia|done|].
    rewrite Z.shiftl_mul_pow2 by lia. change (7 * (18 - Z.of_nat 0)) with 126. unfold is_uint. simpl in Hv. lia.
  - pose proof (Z.mod_pos_bound v 128 ltac:(lia)) as Hm. pose proof (Z.div_mod v 128 ltac:(lia)) as Hd.
    set (sh := 7 * (18 - Z.of_nat (S n))) in *.
    assert (7 * (18 - Z.of_nat n) = sh + 7) as Esh by (unfold sh; lia). rewrite Esh in IH.
    assert (2 ^ (sh + 7) = 2 ^ sh * 128) as Hpow by (rewrite Z.pow_add_r by lia; done).
    assert (2 ^ (7 * Z.of_nat (S n) + 2) = 2 ^ (7 * Z.of_nat n + 2) * 128) as Hpow2.
    { change 128 with (2 ^ 7). rewrite <- Z.pow_add_r by lia. f_equal. lia. }
    assert (2 ^ sh * 128 <= 2 ^ 128) as H128.
    { rewrite <- Hpow. apply Z.pow_le_mono_r; lia. }
    assert (is_uint 128 (Z.shiftl (v mod 128) sh)) as Hsh.
    { rewrite Z.shiftl_mul_pow2 by lia. unfold is_uint. split; [nia|]. eapply Z.lt_le_trans; [|exact H128].
      rewrite (Z.mul_comm (2 ^ sh)). apply Z.mul_lt_mono_pos_r; lia. }
    destruct (Z.eqb_spec (v / 128) 0) as [E|E]; cbn [app read_leb128_loop].
    + destruct (Z.leb_spec 128 sh); [lia|]. destruct (continuation_bit (v mod 128) Hm) as (_ & -> & -> & _). cbn [Z.eqb].
      rewrite wrap_small, lor_shiftl_add by (done || lia). do 2 f_equal. rewrite Hd at 2. rewrite E. lia.
    + destruct (Z.leb_spec 128 sh); [lia|]. destruct (continuation_bit (v mod 128) Hm) as (_ & _ & _ & -> & ->). cbn [Z.eqb].
      rewrite wrap_small, lor_shiftl_add by (done || lia). rewrite IH; [|lia|split; [apply Z.div_pos; lia|apply Z.div_lt_upper_bound; lia]|nia].
      do 2 f_equal. rewrite Hpow. rewrite Hd at 3. ring.
Qed.

Lemma leb128_roundtrip v rest : is_uint 128 v -> read_leb128 (write_leb128 v ++ rest) = Some (v, rest).
Proof.
  intros Hv. pose proof (read_leb128_loop_spec 18 v 0 rest) as H. change (7 * (18 - Z.of_nat 18)) with 0 in H.
  unfold read_leb128, write_leb128. rewrite H; [do 2 f_equal; lia|lia|exact Hv|lia].
Qed.

(** * The vector column *)

Lemma length_floats v : length (v ≫= to_le_bytes 4) = (length v * 4)%nat.
Proof.
  induction v as [|x v IH]; [done|]. cbn [mbind list_bind]. rewrite length_app, length_to_le_bytes.
  change (list_bind Z Z (to_le_bytes 4) v) with (v ≫= to_le_bytes 4). rewrite IH. cbn [length]. lia.
Qed.

Lemma le_floats_roundtrip v : Forall (is_uint 32) v -> le_floats (length v) (v ≫= to_le_bytes 4) = v.
Proof.
  induction 1 as [|x v Hx _ IH]; [done|]. cbn [length le_floats mbind list_bind].
  rewrite take_app_length', drop_app_length' by (by rewrite length_to_le_bytes). f_equal; [|exact IH].
  by apply (from_to_le_bytes_id 4 32).
Qed.

Lemma marker_app m rest : marker (XYZDB_MAGIC ++ [m] ++ rest) = Some (m, rest).
Proof. done. Qed.

Lemma column_roundtrip norm_sq l field_id v :
  is_uint 128 l -> is_uint 16 field_id -> blen v * 4 < 2 ^ 63 -> is_uint 64 (norm_sq v) ->
  read_vector_prefix_raw_norm (column_value norm_sq l field_id v) = Some (l, field_id, v ≫= to_le_bytes 4, Some (norm_sq v)).
Proof.
  intros Hl Hf Hv Hq. pose proof (blen_nonneg v) as Hv0.
  assert (blen (v ≫= to_le_bytes 4) = blen v * 4) as Hlen by (unfold blen; rewrite length_floats; lia).
  unfold read_vector_prefix_raw_norm, column_value. set (fl := v ≫= to_le_bytes 4) in *. clearbody fl.
  rewrite marker_app. cbn [mbind option_bind Z.eqb Pos.eqb].
  rewrite leb128_roundtrip by done. cbn [mbind option_bind app Z.eqb Pos.eqb negb].
  rewrite leb128_roundtrip by (unfold is_uint in *; lia). cbn [mbind option_bind].
  rewrite (proj2 (Z.ltb_lt field_id (2 ^ 16))) by apply Hf. cbn [negb].
  rewrite leb128_roundtrip by (unfold is_uint; lia). cbn [mbind option_bind].
  rewrite (proj2 (Z.ltb_lt (blen v) (2 ^ 64))), (proj2 (Z.ltb_lt (blen v * 4) (2 ^ 64))) by lia. cbn [andb negb].
  rewrite blen_app, Hlen, blen_to_le_bytes.
  rewrite (proj2 (Z.ltb_ge _ (blen v * 4))) by lia. rewrite (proj2 (Z.ltb_ge _ (blen v * 4 + 8))) by lia.
  assert (slice (fl ++ to_le_bytes 8 (norm_sq v)) 0 (blen v * 4) = fl) as ->.
  { apply (slice_app [] fl (to_le_bytes 8 (norm_sq v))); [done|]. change (blen []) with 0. lia. }
  assert (slice (fl ++ to_le_bytes 8 (norm_sq v)) (blen v * 4) (blen v * 4 + 8) = to_le_bytes 8 (norm_sq v)) as ->.
  { rewrite <- (app_nil_r (to_le_bytes 8 (norm_sq v))) at 1.
    apply (slice_app fl (to_le_bytes 8 (norm_sq v)) []); rewrite ?blen_to_le_bytes; lia. }
  by rewrite (from_to_le_bytes_id 8 64).
Qed.

(** * Names and identifiers *)

(** Entries by identifier that stand for entries by name. *)
Definition stands_for (d : FieldDict) (e : Z * Value.Value) (f : bytes * Value.Value) : Prop :=
  is_uint 16 e.1 /\ get_name d e.1 = Some f.1 /\ e.2 = f.2.

Lemma stands_for_extends d d' es fs : dict_extends d d' -> Forall2 (stands_for d) es fs -> Forall2 (stands_for d') es fs.
Proof.
  intros Hd Hf. eapply Forall2_impl; [exact Hf|]. intros e f (Hi & Hn & Hv). split; [done|]. split; [by eapply get_name_extends|done].
Qed.

Lemma id_entries_spec d fs :
  dict_wf d -> blen (id_to_name d) + blen fs <= 2 ^ 16 ->
  let '(es, d') := id_entries d fs in
  dict_wf d' /\ dict_extends d d' /\ Forall2 (stands_for d') es fs.
Proof.
  revert d. induction fs as [|[name v] fs IH]; intros d Hwf Hlen; cbn [id_entries]; [split; [done|split; [done|constructor]]|].
  rewrite blen_cons in Hlen. pose proof (blen_nonneg fs).
  pose proof (get_or_create_id_spec d name Hwf ltac:(lia)) as H1. destruct (get_or_create_id d name) as [[id b] d1].
  destruct H1 as (Hwf1 & He1 & Hi & Hn & Hl). specialize (IH d1 Hwf1 ltac:(lia)).
  destruct (id_entries d1 fs) as [es d2]. destruct IH as (Hwf2 & He2 & Hf). split; [done|]. split; [by etrans|].
  constructor; [|done]. split; [done|]. split; [by eapply get_name_extends|done].
Qed.

Lemma Forall2_elem_l {A B} (R : A -> B -> Prop) l k x : Forall2 R l k -> x ∈ l -> exists y, y ∈ k /\ R x y.
Proof. intros H (i & Hi)%list_elem_of_lookup. destruct (Forall2_lookup_l _ _ _ _ _ H Hi) as (y & Hy & HR). exists y. split; [by eapply list_elem_of_lookup_2|done]. Qed.

Lemma Forall2_elem_r {A B} (R : A -> B -> Prop) l k y : Forall2 R l k -> y ∈ k -> exists x, x ∈ l /\ R x y.
Proof. intros H (i & Hi)%list_elem_of_lookup. destruct (Forall2_lookup_r _ _ _ _ _ H Hi) as (x & Hx & HR). exists x. split; [by eapply list_elem_of_lookup_2|done]. Qed.

(** Distinct names have distinct identifiers. *)
Lemma stands_for_nodup d es fs : Forall2 (stands_for d) es fs -> NoDup fs.*1 -> NoDup es.*1.
Proof.
  induction 1 as [|e f es fs (Hi & Hn & Hv) Hf IH]; cbn; [intros _; constructor|]. rewrite !NoDup_cons. intros [Hnot Hnd]. split; [|auto].
  intros (e' & Ee & He')%list_elem_of_fmap. destruct (Forall2_elem_l _ _ _ _ Hf He') as (f' & Hf' & _ & Hn' & _).
  apply Hnot. rewrite Ee in Hn. assert (f.1 = f'.1) as -> by congruence. apply list_elem_of_fmap. eauto.
Qed.

(** What was numbered is named again, with any later dictionary. *)
Lemma restore_collected d es fs :
  dict_wf d -> bt_sorted fs -> Forall2 (stands_for d) es fs -> restore_names d (bt_collect es) = fs.
Proof.
  intros Hwf Hs Hf. pose proof (stands_for_nodup d es fs Hf (bt_sorted_nodup fs Hs)) as Hnd.
  assert (forall id v, (id, v) ∈ bt_collect es <-> (id, v) ∈ es) as Hin.
  { intros id v. rewrite <- (bt_get_elem id v (bt_collect es)) by apply bt_collect_sorted. by apply bt_get_collect. }
  set (g := fun '(id, val) => (fun name => (name, val)) <$> get_name d id : option (bytes * Value.Value)).
  assert (forall name v, (name, v) ∈ omap g (bt_collect es) <-> (name, v) ∈ fs) as Hnames.
  { intros name v. rewrite list_elem_of_omap. split.
    - intros ([id w] & He & Hg). apply Hin in He. destruct (Forall2_elem_l _ _ _ _ Hf He) as ([n w'] & Hf' & Hi & Hn & Hv).
      cbn in *. rewrite Hn in Hg. cbn in Hg. congruence.
    - intros Hfs. destruct (Forall2_elem_r _ _ _ _ Hf Hfs) as ([id w] & He & Hi & Hn & Hv). cbn in *. exists (id, w).
      split; [by apply Hin|]. cbn. rewrite Hn. cbn. congruence. }
  assert (NoDup (omap g (bt_collect es)).*1) as Hndn.
  { assert (forall kv, kv ∈ bt_collect es -> is_uint 16 kv.1) as Hu.
    { intros [id w] He%Hin. by destruct (Forall2_elem_l _ _ _ _ Hf He) as (? & _ & ? & _). }
    pose proof (bt_sorted_nodup _ (bt_collect_sorted es)) as Hndi. clear -Hwf Hu Hndi.
    induction (bt_collect es) as [|[id w] m IH]; [constructor|]. cbn [fmap list_fmap] in Hndi. apply NoDup_cons in Hndi as [Hnot Hndi].
    cbn [omap list_omap]. assert (NoDup (omap g m).*1) as IH' by (apply IH; [intros kv Hkv; apply Hu; by right|done]).
    unfold g at 1. destruct (get_name d id) as [name|] eqn:Hn; [|exact IH']. cbn [fmap option_fmap list_fmap fst]. apply NoDup_cons. split; [|exact IH'].
    intros ([n v] & En & Hnv)%list_elem_of_fmap. cbn in En. subst n. apply list_elem_of_omap in Hnv as ([id' w'] & He & Hg). cbn [g fst] in *.
    destruct (get_name d id') as [n'|] eqn:Hn'; [|done]. cbn in Hg. injection Hg as -> ->.
    apply Hnot. apply list_elem_of_fmap. exists (id', v). split; [|done]. cbn.
    apply (get_name_inj d _ _ name); [done|apply (Hu (id, w)); by left|apply (Hu (id', v)); by right|done|done]. }
  apply bt_ext; [apply bt_collect_sorted|done|]. intros name. apply option_eq. intros v. unfold restore_names. fold g.
  rewrite bt_get_collect by done. rewrite Hnames. symmetry. by apply bt_get_elem.
Qed.

(** * Round trips *)

Definition record_ok (r : XRecord) : Prop :=
  is_uint 128 (lid r) /\ bt_sorted (fields r) /\
  Forall (fun kv => decodable kv.2 /\ forall v, kv.2 = Vector v -> blen v * 4 < 2 ^ 63) (fields r).

Lemma v5_fields_collect excluded fs m d :
  v5_fields excluded fs m d =
  let '(es, d') := id_entries d (filter (fun kv => ~ Some kv.1 = excluded) fs) in
  (foldl (fun m kv => bt_insert kv.1 kv.2 m) m es, d').
Proof.
  revert m d. induction fs as [|[name v] fs IH]; intros m d; [done|]. cbn [v5_fields]. rewrite filter_cons. cbn [fst].
  case_bool_decide as Hx; [rewrite decide_False by tauto; apply IH|rewrite decide_True by done].
  cbn [id_entries]. destruct (get_or_create_id d name) as [[id b] d1]. rewrite IH.
  by destruct (id_entries d1 _).
Qed.

Lemma bt_collect_elem {K V} `{!Ord K} (l : list (K * V)) kv : kv ∈ bt_collect l -> kv ∈ l.
Proof.
  induction l as [|x l IH] using rev_ind; [done|]. rewrite bt_collect_snoc, elem_of_app, list_elem_of_singleton.
  intros [->|H]%bt_insert_elem; [right; by destruct x|left; auto].
Qed.

Section roundtrip.
Context {PC : Postcard} {PL : PostcardLaws PC} (norm_sq : list Z -> Z).

(** A payload of numbered fields, decoded with a later dictionary. *)
Lemma decode_ids_collected d es fs (l c u : Z) lobe :
  dict_wf d -> bt_sorted fs -> Forall (fun kv => decodable kv.2) fs -> Forall2 (stands_for d) es fs ->
  decode_ids (to_allocvec_ids (mkOnDisk l (bt_collect es) c u)) lobe (Some d) = Some (mkRecord l lobe fs c u).
Proof.
  intros Hwf Hs Hd Hf. unfold decode_ids. rewrite ids_roundtrip; cbn [od_fields].
  - unfold record_of. cbn. by rewrite (restore_collected d es fs).
  - apply bt_collect_sorted.
  - apply Forall_forall. intros [id v] He%bt_collect_elem. destruct (Forall2_elem_l _ _ _ _ Hf He) as ([n w] & Hw & _ & _ & E).
    cbn in E |- *. subst w. exact (proj1 (Forall_forall _ _) Hd _ Hw).
Qed.

Lemma v1_roundtrip r : record_ok r -> deserialize_record (serialize_record r) (lobe_name r) None = XOk r.
Proof.
  intros (_ & Hs & Hd). unfold deserialize_record, serialize_record. rewrite marker_app. cbn [Z.eqb Pos.eqb].
  rewrite names_roundtrip; [by destruct r|done|]. eapply Forall_impl; [exact Hd|]. by intros ? [??].
Qed.

Lemma v2_roundtrip r d :
  record_ok r -> dict_wf d -> blen (id_to_name d) + blen (fields r) <= 2 ^ 16 ->
  let '(blob, d') := serialize_record_v2 r d in
  dict_wf d' /\ dict_extends d d' /\
  forall d'', dict_wf d'' -> dict_extends d' d'' -> deserialize_record blob (lobe_name r) (Some d'') = XOk r.
Proof.
  intros (_ & Hs & Hd) Hwf Hlen. unfold serialize_record_v2. pose proof (id_entries_spec d (fields r) Hwf Hlen) as H.
  destruct (id_entries d (fields r)) as [es d']. destruct H as (Hwf' & He & Hf). split; [done|]. split; [done|].
  intros d'' Hwf'' He''. unfold deserialize_record. rewrite marker_app. cbn [Z.eqb Pos.eqb].
  rewrite (decode_ids_collected d'' es (fields r)); [by destruct r|done|done| |by eapply stands_for_extends].
  eapply Forall_impl; [exact Hd|]. by intros ? [??].
Qed.

(** The search vector and the dictionary that has its name. *)
Lemma search_vec_spec r d sf :
  dict_wf d -> blen (id_to_name d) + blen (fields r) <= 2 ^ 16 -> bt_sorted (fields r) ->
  let '(sv, d1) := search_vec r d sf in
  dict_wf d1 /\ dict_extends d d1 /\
  match sv with
  | Some (name, id, v) => sf = Some name /\ bt_get name (fields r) = Some (Vector v) /\ is_uint 16 id /\ get_name d1 id = Some name /\
      blen (id_to_name d1) + blen (filter (fun kv => ~ Some kv.1 = Some name) (fields r)) <= 2 ^ 16
  | None => d1 = d /\ forall name v, sf = Some name -> bt_get name (fields r) <> Some (Vector v)
  end.
Proof.
  intros Hwf Hlen Hs. unfold search_vec. destruct sf as [name|]; [|done].
  destruct (bt_get name (fields r)) as [v|] eqn:Hg; [|do 3 (split; [done|]); intros n v [= <-]; by rewrite Hg].
  destruct v as [| | | | | | | | |v]; try (do 3 (split; [done|]); intros n w [= <-]; by rewrite Hg).
  assert (blen (filter (fun kv => ~ Some kv.1 = Some name) (fields r)) < blen (fields r)) as Hlt.
  { apply (bt_get_elem name (Vector v) (fields r) Hs) in Hg. unfold blen. apply inj_lt. apply length_filter_lt with (name, Vector v); [done|]. cbn. tauto. }
  pose proof (blen_nonneg (filter (fun kv => ~ Some kv.1 = Some name) (fields r))).
  pose proof (get_or_create_id_spec d name Hwf ltac:(lia)) as H1. destruct (get_or_create_id d name) as [[id b] d1].
  destruct H1 as (Hwf1 & He1 & Hi & Hn & Hl). repeat (split; [done|]). lia.
Qed.
(** Inserting the removed field gives the record back. *)
Lemma insert_removed name v (fs : BTreeMap bytes Value.Value) :
  bt_sorted fs -> bt_get name fs = Some v -> bt_insert name v (filter (fun kv => ~ Some kv.1 = Some name) fs) = fs.
Proof.
  intros Hs Hg. apply bt_ext; [by apply bt_insert_sorted, bt_sorted_filter|done|]. intros k. rewrite bt_get_insert.
  destruct (ocmp k name) eqn:E; [apply ocmp_eq in E as ->; done|..];
    (apply option_eq; intros w; rewrite !bt_get_elem, list_elem_of_filter by (done || by apply bt_sorted_filter); cbn;
     split; [by intros [??]|intros H; split; [intros [= ->]; by rewrite ocmp_refl in E|done]]).
Qed.

Lemma vector_bits v : decodable (Vector v) -> Forall (is_uint 32) v.
Proof.
  intros [H _]. cbn [value_ok] in H. rewrite forallb_forall in H. apply Forall_forall. intros x Hx%list_elem_of_In%H.
  unfold is_uint. lia.
Qed.

Lemma v5_roundtrip r d sf :
  (forall v, is_uint 64 (norm_sq v)) -> record_ok r -> dict_wf d -> blen (id_to_name d) + blen (fields r) <= 2 ^ 16 ->
  let '(blob, column, d') := serialize_record_v5 norm_sq r d sf in
  dict_wf d' /\ dict_extends d d' /\
  forall d'', dict_wf d'' -> dict_extends d' d'' ->
    exists r0, deserialize_record blob (lobe_name r) (Some d'') = XOk r0 /\
      match column with
      | None => r0 = r /\ forall name v, sf = Some name -> bt_get name (fields r) <> Some (Vector v)
      | Some c => hydrate_vector r0 c d'' = (r, true) /\ exists name, sf = Some name /\ bt_get name (fields r0) = None
      end.
Proof.
  intros Hnorm (Hl & Hs & Hd) Hwf Hlen. unfold serialize_record_v5. pose proof (search_vec_spec r d sf Hwf Hlen Hs) as H1.
  destruct (search_vec r d sf) as [sv d1]. destruct H1 as (Hwf1 & He1 & Hsv). rewrite v5_fields_collect.
  set (ex := (fun x : bytes * Z * list Z => x.1.1) <$> sv). set (fs := filter (fun kv => ~ Some kv.1 = ex) (fields r)).
  assert (blen (id_to_name d1) + blen fs <= 2 ^ 16) as Hroom.
  { destruct sv as [[[name id] v]|]; [apply Hsv|]. destruct Hsv as [-> _].
    assert (length fs <= length (fields r))%nat as Hle by apply length_filter. clearbody fs. unfold blen in *. lia. }
  pose proof (id_entries_spec d1 fs Hwf1 Hroom) as H2. destruct (id_entries d1 fs) as [es d2]. destruct H2 as (Hwf2 & He2 & Hf).
  split; [done|]. split; [by etrans|]. intros d'' Hwf'' He''.
  assert (bt_sorted fs) as Hsf by by apply bt_sorted_filter.
  assert (Forall (fun kv => decodable kv.2) fs) as Hdf.
  { apply Forall_forall. intros kv [_ Hkv]%list_elem_of_filter. by apply (proj1 (Forall_forall _ _) Hd kv). }
  exists (mkRecord (lid r) (lobe_name r) fs (created_at r) (updated_at r)). split.
  { unfold deserialize_record. rewrite marker_app. cbn [Z.eqb Pos.eqb]. change (foldl _ [] es) with (bt_collect es).
    rewrite (decode_ids_collected d'' es fs); [done|done|done|done|by eapply stands_for_extends]. }
  destruct sv as [[[name id] v]|]; cbn [fmap option_fmap option_map].
  - destruct Hsv as (-> & Hg & Hi & Hn & _). subst ex. cbn in fs.
    assert ((name, Vector v) ∈ fields r) as Hin by by apply bt_get_elem.
    destruct (proj1 (Forall_forall _ _) Hd _ Hin) as [Hdv Hlv]. split.
    + unfold hydrate_vector. rewrite column_roundtrip by auto.
      rewrite (get_name_extends d1 d'' id name) by (done || by etrans).
      rewrite length_floats, Nat.div_mul by done. rewrite le_floats_roundtrip by by apply vector_bits. cbn.
      unfold fs. rewrite insert_removed by done. by destruct r.
    + exists name. split; [done|]. cbn. apply eq_None_not_Some. intros [w Hw%bt_get_elem]; [|done].
      apply list_elem_of_filter in Hw as [Hw _]. cbn in Hw. tauto.
  - destruct Hsv as [-> Hno]. split; [|done]. subst ex. unfold fs.
    rewrite filter_all by (intros; done). by destruct r.
Qed.
(** A record with a field leaves a dictionary with a name. *)
Lemma v5_names r d sf :
  record_ok r -> dict_wf d -> blen (id_to_name d) + blen (fields r) <= 2 ^ 16 -> fields r <> [] ->
  id_to_name (serialize_record_v5 norm_sq r d sf).2 <> [].
Proof.
  intros (_ & Hs & _) Hwf Hlen Hne. unfold serialize_record_v5. pose proof (search_vec_spec r d sf Hwf Hlen Hs) as H1.
  destruct (search_vec r d sf) as [sv d1]. destruct H1 as (Hwf1 & _ & Hsv). rewrite v5_fields_collect.
  assert (forall a b id n, dict_extends a b -> get_name a id = Some n -> id_to_name b <> []) as Hnn.
  { intros a b id n He Hn E. apply (get_name_extends a b) in Hn; [|done]. unfold get_name in Hn. by rewrite E in Hn. }
  destruct sv as [[[name id] v]|]; cbn [fmap option_fmap option_map fst].
  - destruct Hsv as (_ & _ & _ & Hn & Hroom). pose proof (id_entries_spec d1 _ Hwf1 Hroom) as H2.
    destruct (id_entries d1 _) as [es d2]. destruct H2 as (_ & He & _). cbn. by eapply Hnn.
  - destruct Hsv as [-> _]. rewrite filter_all by (intros; done). pose proof (id_entries_spec d (fields r) Hwf Hlen) as H2.
    destruct (id_entries d (fields r)) as [es d2]. destruct H2 as (_ & _ & Hf). cbn.
    destruct Hf as [|e f es fs (_ & Hn & _) _]; [done|]. by eapply Hnn; [reflexivity|].
Qed.
End roundtrip.

(** * A serializer that satisfies the laws *)

(** Induction through the lists inside a value. *)
Section value_ind.
Context (P : Value.Value -> Prop).
Hypothesis Hleaf : forall v, match v with List _ | Map _ => True | _ => P v end.
Hypothesis Hlist : forall l, Forall P l -> P (List l).
Hypothesis Hmap : forall m, Forall (fun kv : bytes * Value.Value => P kv.2) m -> P (Map m).

Fixpoint Value_nested (v : Value.Value) : P v :=
  match v with
  | List l => Hlist l ((fix go l : Forall P l := match l with [] => Forall_nil_2 P | x :: l' => Forall_cons_2 P x l' (Value_nested x) (go l') end) l)
  | Map m => Hmap m ((fix go (m : list (bytes * Value.Value)) : Forall (fun kv : bytes * Value.Value => P kv.2) m :=
      match m with [] => Forall_nil_2 _ | kv :: m' => Forall_cons_2 _ kv m' (Value_nested kv.2) (go m') end) m)
  | v => Hleaf v
  end.
End value_ind.

(** A value as a tree of labelled leaves, and back. *)
Fixpoint to_tree (v : Value.Value) : gen_tree (Z * list Z) :=
  match v with
  | Bool b => GenLeaf (0, [if b then 1 else 0])
  | Int i => GenLeaf (1, [i])
  | Float b => GenLeaf (2, [b])
  | Text s => GenLeaf (3, s)
  | Timestamp i => GenLeaf (4, [i])
  | Bytes b => GenLeaf (5, b)
  | Null => GenLeaf (6, [])
  | Vector l => GenLeaf (7, l)
  | List l => GenNode 0 (map to_tree l)
  | Map m => GenNode 1 (map (fun kv => GenNode 2 [GenLeaf (8, kv.1); to_tree kv.2]) m)
  end.

Fixpoint of_tree (t : gen_tree (Z * list Z)) : Value.Value :=
  match t with
  | GenLeaf (0, d) => Bool (bool_decide (d = [1]))
  | GenLeaf (1, d) => Int (default 0 (head d))
  | GenLeaf (2, d) => Float (default 0 (head d))
  | GenLeaf (3, d) => Text d
  | GenLeaf (4, d) => Timestamp (default 0 (head d))
  | GenLeaf (5, d) => Bytes d
  | GenLeaf (7, d) => Vector d
  | GenLeaf _ => Null
  | GenNode 0 ts => List (map of_tree ts)
  | GenNode _ ts => Map (map (fun t => match t with GenNode _ [GenLeaf (_, k); v] => (k, of_tree v) | _ => ([], Null) end) ts)
  end.

Lemma of_to_tree v : of_tree (to_tree v) = v.
Proof.
  revert v. apply Value_nested.
  - by intros [[]| | | | | | | | |].
  - intros l IH. cbn. f_equal. induction IH as [|x l Hx _ IH]; [done|]. cbn. by rewrite Hx, IH.
  - intros m IH. cbn. f_equal. induction IH as [|[k x] l Hx _ IH]; [done|]. cbn in *. by rewrite Hx, IH.
Qed.

#[export] Instance to_tree_inj : Inj (=) (=) to_tree.
Proof. intros v w E. by rewrite <- (of_to_tree v), E, of_to_tree. Qed.
#[export] Instance Value_eq_dec : EqDecision Value.Value := inj_eq_dec to_tree.
#[export] Instance Value_countable : Countable Value.Value := inj_countable' to_tree of_tree of_to_tree.

(** Bits of a positive number, lowest first. *)
Fixpoint bits_of_pos (p : positive) : bytes :=
  match p with xH => [] | xO p => 0 :: bits_of_pos p | xI p => 1 :: bits_of_pos p end.
Fixpoint pos_of_bits (b : bytes) : positive :=
  match b with [] => xH | x :: b' => if x =? 0 then xO (pos_of_bits b') else xI (pos_of_bits b') end.

Lemma pos_bits p : pos_of_bits (bits_of_pos p) = p.
Proof. induction p as [p IH|p IH|]; cbn; by rewrite ?IH. Qed.

(** A serializer: any numbering of the records, written in binary. *)
Definition number_of {K} `{Countable K} (r : RecordOnDisk K) : positive :=
  countable.encode (od_lid r, od_fields r, od_created_at r, od_updated_at r).
Definition of_number {K} `{Countable K} (p : positive) : option (RecordOnDisk K) :=
  (fun x => match x with (l, fs, c, u) => mkOnDisk l fs c u end) <$> countable.decode p.

Lemma of_number_of {K} `{Countable K} (r : RecordOnDisk K) : of_number (number_of r) = Some r.
Proof. unfold of_number, number_of. rewrite countable.decode_encode. by destruct r. Qed.

Definition sample_postcard : Postcard := {|
  to_allocvec_names r := bits_of_pos (number_of r);
  from_bytes_names b := of_number (pos_of_bits b);
  to_allocvec_ids r := bits_of_pos (number_of r);
  from_bytes_ids b := of_number (pos_of_bits b);
  bincode_deserialize _ := None;
|}.

#[export] Instance sample_postcard_laws : PostcardLaws sample_postcard.
Proof. split; intros r _ _; cbn; by rewrite pos_bits, of_number_of. Qed.

(** * Theorem *)

(** C35: records survive the disk. A record whose values nest at most 32 deep, written in any of the
    three layouts, is read back as it was: by name (V1); by identifier (V2), with
    the dictionary the writer left or any later one; and split into a blob and a
    vector column (V5), where the blob lacks exactly the search vector and
    hydrating it from the column restores the record. Writing keeps the
    dictionary well formed and only appends to it. *)
Theorem record_roundtrip (PC : Postcard) (PL : PostcardLaws PC) (norm_sq : list Z -> Z) (r : XRecord) (d : FieldDict) (sf : option bytes) :
  (forall v, is_uint 64 (norm_sq v)) -> record_ok r -> dict_wf d -> blen (id_to_name d) + blen (fields r) <= 2 ^ 16 ->
  deserialize_record (serialize_record r) (lobe_name r) None = XOk r /\
  (let '(blob, d') := serialize_record_v2 r d in
   dict_wf d' /\ dict_extends d d' /\
   forall d'', dict_wf d'' -> dict_extends d' d'' -> deserialize_record blob (lobe_name r) (Some d'') = XOk r) /\
  (let '(blob, column, d') := serialize_record_v5 norm_sq r d sf in
   dict_wf d' /\ dict_extends d d' /\
   forall d'', dict_wf d'' -> dict_extends d' d'' ->
     exists r0, deserialize_record blob (lobe_name r) (Some d'') = XOk r0 /\
       match column with
       | None => r0 = r /\ forall name v, sf = Some name -> bt_get name (fields r) <> Some (Vector v)
       | Some c => hydrate_vector r0 c d'' = (r, true) /\ exists name, sf = Some name /\ bt_get name (fields r0) = None
       end).
Proof. intros Hn Hr Hd Hl. split; [by apply v1_roundtrip|]. split; [by apply v2_roundtrip|by apply v5_roundtrip]. Qed.

Definition sample_record : XRecord :=
  mkRecord (lid_pack 0 7 123456 1 2) (str "docs")
    [(str "body", Map [(str "n", List [Int (-3); Null]); (str "t", Text (str "hi"))]); (str "emb", Vector [1065353216; 0])] 10 20.

Lemma sample_record_ok : record_ok sample_record.
Proof.
  split; [split; vm_compute; congruence|]. split; [repeat constructor|].
  repeat (constructor; [split; [split; [vm_compute; reflexivity|vm_compute; congruence]|]|]); [done| |constructor].
  intros v [= <-]. vm_compute. reflexivity.
Qed.

(** With a dictionary that knows "emb" already and gets a name appended later. *)
Lemma record_roundtrip_witness :
  exists blob column d' r0,
    serialize_record_v5 (PC := sample_postcard) (fun _ => 0) sample_record (from_names [str "emb"]) (Some (str "emb")) = (blob, Some column, d') /\
    deserialize_record (PC := sample_postcard) blob (str "docs") (Some d') = XOk r0 /\ hydrate_vector r0 column d' = (sample_record, true).
Proof.
  destruct (record_roundtrip sample_postcard _ (fun _ => 0) sample_record (from_names [str "emb"]) (Some (str "emb"))) as (_ & _ & H).
  - done.
  - apply sample_record_ok.
  - apply from_names_wf; [repeat constructor; by intros ?%elem_of_nil|vm_compute; congruence].
  - vm_compute. congruence.
  - destruct (serialize_record_v5 _ _ _ _) as [[blob [column|]] d'] eqn:E; [|vm_compute in E; discriminate].
    destruct H as (Hd & _ & H). destruct (H d' Hd ltac:(reflexivity)) as (r0 & H1 & H2 & _).
    exists blob, column, d', r0. split; [reflexivity|]. split; [exact H1|exact H2].
Defined.
