(* ===== verification/FieldRegistry.v ===== *)
(** * The field registry (engine/src/field_registry.rs)

    One dictionary of field names per lobe. A write that introduces names returns
    the dictionary's new value, to be committed in the same batch as the record;
    opening the database reads the dictionaries back. *)

From S2P Require Import Prelude Types ByteOrder Block Bloom BTree Value FieldDict Lid Record.

(** [postcard] on a list of names. *)
Class NamesCodec := {
  encode_names : list bytes -> bytes;
  decode_names : bytes -> option (list bytes);
}.
Class NamesCodecLaws (NC : NamesCodec) : Prop := {
  decode_encode_names ns : decode_names (encode_names ns) = Some ns;
}.

Definition FIELD_REGISTRY_PREFIX : bytes := [255; 251].

(** [LobeFieldRegistry] *)
Abbreviation Registry := (gmap Z FieldDict).

Definition get_dict (reg : Registry) (lobe_id : Z) : option FieldDict := reg !! lobe_id.

(** [self.dicts.entry(lobe_id).or_default()] *)
Definition dict_of (reg : Registry) (lobe_id : Z) : FieldDict := default FieldDict_new (reg !! lobe_id).

Definition registry_key (lobe_id : Z) : bytes := FIELD_REGISTRY_PREFIX ++ to_be_bytes 2 lobe_id.

Section registry.
Context {PC : Postcard} {NC : NamesCodec} (norm_sq : list Z -> Z).

Definition encode_dict (dict : FieldDict) : bytes := XYZDB_MAGIC ++ [1] ++ encode_names (to_names dict).

(** The dictionary entry to commit, if the dictionary grew. *)
Definition growth_entry (lobe_id before : Z) (dict : FieldDict) : option (bytes * bytes) :=
  if before <? blen (id_to_name dict) then Some (registry_key lobe_id, encode_dict dict) else None.

Definition serialize_record_v2_durable (reg : Registry) (lobe_id : Z) (record : XRecord) : bytes * option (bytes * bytes) * Registry :=
  let dict := dict_of reg lobe_id in
  let before := blen (id_to_name dict) in
  let '(bs, dict) := serialize_record_v2 record dict in
  (bs, growth_entry lobe_id before dict, <[lobe_id := dict]> reg).

Definition serialize_record_v5_durable (reg : Registry) (lobe_id : Z) (record : XRecord) (search_field : option bytes)
    : bytes * option bytes * option (bytes * bytes) * Registry :=
  let dict := dict_of reg lobe_id in
  let before := blen (id_to_name dict) in
  let '(blob, column, dict) := serialize_record_v5 norm_sq record dict search_field in
  (blob, column, growth_entry lobe_id before dict, <[lobe_id := dict]> reg).

(** One entry of [load_from_disk]. *)
Definition load_entry (reg : Registry) (kv : bytes * bytes) : Registry :=
  let '(key_bytes, val_bytes) := kv in
  if blen key_bytes <? 4 then reg
  else
    let lobe_id := from_be_bytes (slice key_bytes 2 4) in
    match marker val_bytes with
    | Some (m, payload) =>
      if m =? 1 then
        match decode_names payload with
        | Some (n :: ns) => <[lobe_id := from_names (n :: ns)]> reg
        | _ => reg
        end
      else reg
    | None => reg
    end.

(** [load_from_disk], over what the prefix scan returns. *)
Definition load_from_disk (entries : list (bytes * bytes)) : Registry := foldl load_entry ∅ entries.

(** ** Writes, and a restart

    The part of the database a write with a search vector touches: the registry in
    memory, the dictionary keyspace, and the blob and column of each record. *)

Record Stored := mkStored { st_lobe : Z; st_blob : bytes; st_column : option bytes; st_record : XRecord }.

Record RegState := mkRegState {
  rs_registry : Registry;
  rs_dictionary : BTreeMap bytes bytes;
  rs_records : list Stored;
}.

(** [batch.commit()]: the record and, when there is one, the dictionary entry. *)
Definition commit_record (st : RegState) (s : Stored) (entry : option (bytes * bytes)) : RegState :=
  mkRegState (rs_registry st)
    (match entry with Some (k, v) => bt_insert k v (rs_dictionary st) | None => rs_dictionary st end)
    (rs_records st ++ [s]).

(** The serialization changes the registry at once; the commit comes later. *)
Definition serialize_step (st : RegState) (lobe_id : Z) (record : XRecord) (sf : option bytes) : Stored * option (bytes * bytes) * RegState :=
  let '(blob, column, entry, reg) := serialize_record_v5_durable (rs_registry st) lobe_id record sf in
  (mkStored lobe_id blob column record, entry, mkRegState reg (rs_dictionary st) (rs_records st)).

Definition write_record (st : RegState) (w : Z * XRecord * option bytes) : RegState :=
  let '(lobe_id, record, sf) := w in
  let '(s, entry, st) := serialize_step st lobe_id record sf in commit_record st s entry.

(** [Engine::open]: the registry is what the prefix scan of the dictionary gives. *)
Definition restart (st : RegState) : RegState :=
  mkRegState (load_from_disk (filter (fun kv => starts_with kv.1 FIELD_REGISTRY_PREFIX = true) (rs_dictionary st))) (rs_dictionary st) (rs_records st).

(** A record read back through the registry. *)
Definition read_stored (reg : Registry) (s : Stored) : XResult XRecord :=
  r ← deserialize_record (st_blob s) (lobe_name (st_record s)) (get_dict reg (st_lobe s));
  match st_column s, get_dict reg (st_lobe s) with
  | Some c, Some dict => XOk (fst (hydrate_vector r c dict))
  | _, _ => XOk r
  end.

End registry.

(** * Reloading *)

Section reload.
Context {PC : Postcard} {PL : PostcardLaws PC} {NC : NamesCodec} {NL : NamesCodecLaws NC} (norm_sq : list Z -> Z).

Lemma dict_names_nodup d : dict_wf d -> NoDup (id_to_name d).
Proof.
  intros Hwf. apply NoDup_alt. intros i j x Hi%(dw_names d Hwf) Hj%(dw_names d Hwf). rewrite Hi in Hj. injection Hj. lia.
Qed.

Lemma reloaded_wf d : dict_wf d -> dict_wf (from_names (to_names d)).
Proof. intros Hwf. apply from_names_wf; [by apply dict_names_nodup|apply Hwf]. Qed.

Lemma registry_key_inj l l' : is_uint 16 l -> is_uint 16 l' -> registry_key l = registry_key l' -> l = l'.
Proof.
  intros Hl Hl' E. unfold registry_key in E. apply app_inv_head in E. apply (f_equal from_be_bytes) in E.
  by rewrite !(from_to_be_bytes_id 2 16) in E.
Qed.

Lemma registry_key_prefix l : starts_with (registry_key l) FIELD_REGISTRY_PREFIX = true.
Proof. apply starts_with_iff. by eexists. Qed.

Lemma load_entry_dict reg l d :
  is_uint 16 l -> id_to_name d <> [] -> load_entry reg (registry_key l, encode_dict d) = <[l := from_names (to_names d)]> reg.
Proof.
  intros Hl Hne. unfold load_entry, encode_dict. rewrite marker_app.
  assert (blen (registry_key l) = 4) as -> by (unfold blen, registry_key; by rewrite length_app, length_to_be_bytes).
  cbn [Z.ltb Z.compare Pos.compare Pos.compare_cont]. cbn [Z.eqb Pos.eqb]. rewrite decode_encode_names.
  assert (slice (registry_key l) 2 4 = to_be_bytes 2 l) as ->.
  { unfold registry_key. rewrite <- (app_nil_r (to_be_bytes 2 l)) at 1. rewrite <- (app_nil_r (to_be_bytes 2 l)).
    apply (slice_app FIELD_REGISTRY_PREFIX (to_be_bytes 2 l) []); [done|]. unfold blen. by rewrite length_to_be_bytes. }
  rewrite (from_to_be_bytes_id 2 16) by done. unfold to_names. by destruct (id_to_name d).
Qed.
(** ** The invariant *)

(** A stored record is read back with a dictionary and all later ones. *)
Definition readable (d : FieldDict) (s : Stored) : Prop :=
  forall d' reg, dict_wf d' -> dict_extends d d' -> reg !! st_lobe s = Some d' -> read_stored reg s = XOk (st_record s).

Record reg_inv (st : RegState) : Prop := {
  ri_sorted : bt_sorted (rs_dictionary st);
  ri_dicts : forall l d, rs_registry st !! l = Some d ->
    is_uint 16 l /\ dict_wf d /\ id_to_name d <> [] /\ bt_get (registry_key l) (rs_dictionary st) = Some (encode_dict d);
  ri_keys : forall k v, bt_get k (rs_dictionary st) = Some v -> starts_with k FIELD_REGISTRY_PREFIX = true ->
    exists l d, k = registry_key l /\ rs_registry st !! l = Some d;
  ri_records : forall s, s ∈ rs_records st -> exists d, rs_registry st !! st_lobe s = Some d /\ readable d s;
}.

Lemma readable_extends d d' s : dict_extends d d' -> readable d s -> readable d' s.
Proof. intros He H d'' reg Hwf He' Hl. eapply H; [done|by etrans|done]. Qed.

(** What a load finds for a lobe. *)
Lemma load_sound (reg m : Registry) es l d' :
  (forall kv, kv ∈ es -> exists l d, kv = (registry_key l, encode_dict d) /\ is_uint 16 l /\ id_to_name d <> [] /\ reg !! l = Some d) ->
  foldl load_entry m es !! l = Some d' -> m !! l = Some d' \/ exists d, reg !! l = Some d /\ d' = from_names (to_names d).
Proof.
  revert m. induction es as [|kv es IH]; intros m Hes Hl; [by left|]. cbn [foldl] in Hl.
  destruct (Hes kv) as (l1 & d1 & -> & Hl1 & Hne & Hr); [by left|]. rewrite load_entry_dict in Hl by done.
  destruct (IH _ (fun kv H => Hes kv (list_elem_of_further _ _ _ H)) Hl) as [H|H]; [|by right].
  destruct (decide (l1 = l)) as [->|].
  - rewrite lookup_insert_eq in H. right. exists d1. split; [done|]. congruence.
  - rewrite lookup_insert_ne in H by done. by left.
Qed.

Lemma load_complete (reg m : Registry) es l d :
  (forall kv, kv ∈ es -> exists l d, kv = (registry_key l, encode_dict d) /\ is_uint 16 l /\ id_to_name d <> [] /\ reg !! l = Some d) ->
  is_uint 16 l -> reg !! l = Some d -> (registry_key l ∈ es.*1 \/ m !! l = Some (from_names (to_names d))) ->
  foldl load_entry m es !! l = Some (from_names (to_names d)).
Proof.
  revert m. induction es as [|kv es IH]; intros m Hes Hl Hr Hin; [destruct Hin as [Hin|Hin]; [by apply elem_of_nil in Hin|done]|].
  cbn [foldl]. destruct (Hes kv) as (l1 & d1 & -> & Hl1 & Hne & Hr1); [by left|]. rewrite load_entry_dict by done.
  apply IH; [intros kv H; apply Hes; by right|done|done|]. destruct (decide (l1 = l)) as [->|Hne'].
  - right. rewrite lookup_insert_eq. congruence.
  - rewrite lookup_insert_ne by done. destruct Hin as [Hin|Hin]; [|by right]. left. cbn in Hin.
    apply elem_of_cons in Hin as [E|?]; [|done]. exfalso. apply Hne'. by apply registry_key_inj.
Qed.

Lemma scanned_entries st :
  reg_inv st -> forall kv, kv ∈ filter (fun kv => starts_with kv.1 FIELD_REGISTRY_PREFIX = true) (rs_dictionary st) ->
  exists l d, kv = (registry_key l, encode_dict d) /\ is_uint 16 l /\ id_to_name d <> [] /\ rs_registry st !! l = Some d.
Proof.
  intros Hi [k v] [Hp Hin]%list_elem_of_filter. apply bt_get_elem in Hin; [|apply Hi].
  destruct (ri_keys st Hi k v Hin Hp) as (l & d & -> & Hr). destruct (ri_dicts st Hi l d Hr) as (Hl & _ & Hne & Hg).
  exists l, d. split; [congruence|done].
Qed.

Lemma restart_lookup st l d :
  reg_inv st -> rs_registry st !! l = Some d -> rs_registry (restart st) !! l = Some (from_names (to_names d)).
Proof.
  intros Hi Hr. destruct (ri_dicts st Hi l d Hr) as (Hl & _ & _ & Hg). apply (load_complete (rs_registry st)); [by apply scanned_entries|done|done|].
  left. apply list_elem_of_fmap. exists (registry_key l, encode_dict d). split; [done|]. apply list_elem_of_filter.
  split; [apply registry_key_prefix|]. apply bt_get_elem; [apply Hi|done].
Qed.

Lemma restart_inv st : reg_inv st -> reg_inv (restart st).
Proof.
  intros Hi. split.
  - apply Hi.
  - intros l d' H. destruct (load_sound (rs_registry st) ∅ _ l d' (scanned_entries st Hi) H) as [H'|(d & Hr & ->)].
    { by rewrite lookup_empty in H'. }
    destruct (ri_dicts st Hi l d Hr) as (Hl & Hwf & Hne & Hg). split; [done|]. split; [by apply reloaded_wf|]. done.
  - intros k v Hg Hp. destruct (ri_keys st Hi k v Hg Hp) as (l & d & -> & Hr). eexists l, _. split; [done|]. by apply restart_lookup.
  - intros s Hs. destruct (ri_records st Hi s Hs) as (d & Hr & Hread). exists (from_names (to_names d)).
    split; [by apply restart_lookup|]. apply (readable_extends d); [by exists []; rewrite app_nil_r|done].
Qed.

(** ** Writes *)

(** A write the registry has room for: a record with a field, in a lobe with a
    16-bit number, that does not push the lobe's dictionary past 65536 names. *)
Definition write_ok (st : RegState) (w : Z * XRecord * option bytes) : Prop :=
  let '(l, r, _) := w in
  is_uint 16 l /\ record_ok r /\ fields r <> [] /\ blen (id_to_name (dict_of (rs_registry st) l)) + blen (fields r) <= 2 ^ 16.

Lemma dict_of_wf st l : reg_inv st -> dict_wf (dict_of (rs_registry st) l).
Proof.
  intros Hi. unfold dict_of. destruct (rs_registry st !! l) as [d|] eqn:E; [|apply FieldDict_new_wf]. apply (ri_dicts st Hi l d E).
Qed.

(** The dictionary on disk is the one in memory after the commit. *)
Lemma committed_dict st l d' :
  reg_inv st -> is_uint 16 l -> dict_extends (dict_of (rs_registry st) l) d' -> id_to_name d' <> [] ->
  bt_get (registry_key l) (match growth_entry l (blen (id_to_name (dict_of (rs_registry st) l))) d' with
                           | Some (k, v) => bt_insert k v (rs_dictionary st) | None => rs_dictionary st end) = Some (encode_dict d').
Proof.
  intros Hi Hl [ext He] Hne. unfold growth_entry. destruct (Z.ltb_spec (blen (id_to_name (dict_of (rs_registry st) l))) (blen (id_to_name d'))) as [Hlt|Hge].
  - by rewrite bt_get_insert, ocmp_refl.
  - assert (id_to_name d' = id_to_name (dict_of (rs_registry st) l)) as E.
    { rewrite He in Hge |- *. rewrite blen_app in Hge. destruct ext; [by rewrite app_nil_r|]. rewrite blen_cons in Hge. pose proof (blen_nonneg ext). lia. }
    unfold dict_of in *. destruct (rs_registry st !! l) as [d|] eqn:Er; [change (default FieldDict_new (Some d)) with d in *|by rewrite E in Hne].
    destruct (ri_dicts st Hi l d Er) as (_ & _ & _ & ->). unfold encode_dict, to_names. by rewrite E.
Qed.

Lemma growth_get l before d' (dict : BTreeMap bytes bytes) k :
  k <> registry_key l ->
  bt_get k (match growth_entry l before d' with Some (k, v) => bt_insert k v dict | None => dict end) = bt_get k dict.
Proof.
  intros Hk. unfold growth_entry. destruct (before <? _); [|done]. rewrite bt_get_insert. destruct (ocmp k (registry_key l)) eqn:Ec; [|done..].
  by apply ocmp_eq in Ec.
Qed.

Lemma registry_write_inv st w :
  (forall v, is_uint 64 (norm_sq v)) -> reg_inv st -> write_ok st w -> reg_inv (write_record norm_sq st w).
Proof.
  destruct w as [[l r] sf]. intros Hnorm Hi (Hl & Hr & Hne & Hroom).
  pose proof (v5_roundtrip norm_sq r _ sf Hnorm Hr (dict_of_wf st l Hi) Hroom) as H.
  pose proof (v5_names norm_sq r _ sf Hr (dict_of_wf st l Hi) Hroom Hne) as Hnames.
  unfold write_record, serialize_step, serialize_record_v5_durable. cbn [rs_registry rs_dictionary rs_records].
  destruct (serialize_record_v5 norm_sq r (dict_of (rs_registry st) l) sf) as [[blob column] d']. destruct H as (Hwf & He & Hread). cbn in Hnames.
  unfold commit_record. cbn [rs_registry rs_dictionary rs_records].
  pose proof (committed_dict st l d' Hi Hl He Hnames) as Hc. split; cbn [rs_registry rs_dictionary rs_records].
  - case_match; [|apply Hi]. case_match. apply bt_insert_sorted, Hi.
  - intros l1 d1. destruct (decide (l = l1)) as [<-|Hn]; [rewrite lookup_insert_eq; by intros [= <-]|].
    rewrite lookup_insert_ne by done. intros Hd1. destruct (ri_dicts st Hi l1 d1 Hd1) as (Hl1 & Hwf1 & Hne1 & Hg1).
    do 3 (split; [done|]). rewrite growth_get; [done|]. intros E. by apply registry_key_inj in E.
  - intros k v Hg Hp. destruct (decide (k = registry_key l)) as [->|Hn]; [exists l, d'; by rewrite lookup_insert_eq|].
    rewrite growth_get in Hg by done. destruct (ri_keys st Hi k v Hg Hp) as (l1 & d1 & -> & Hd1). exists l1.
    destruct (decide (l = l1)) as [<-|]; [done|]. exists d1. by rewrite lookup_insert_ne.
  - intros s [Hs| ->%list_elem_of_singleton]%elem_of_app.
    + destruct (ri_records st Hi s Hs) as (d & Hd & Hrd). destruct (decide (l = st_lobe s)) as [->|].
      * exists d'. rewrite lookup_insert_eq. split; [done|]. apply (readable_extends d); [|done]. unfold dict_of in He. by rewrite Hd in He.
      * exists d. by rewrite lookup_insert_ne.
    + exists d'. cbn [st_lobe]. rewrite lookup_insert_eq. split; [done|]. intros d'' reg Hwf'' He'' Hreg. cbn [st_lobe] in Hreg.
      unfold read_stored, get_dict. cbn [st_lobe st_blob st_record st_column]. rewrite Hreg.
      destruct (Hread d'' Hwf'' He'') as (r0 & -> & Hcol). cbn [mbind XResult_bind].
      destruct column as [c|]; [destruct Hcol as [-> _]; done|destruct Hcol as [-> _]; done].
Qed.

(** ** Runs *)

(** Writes, each committed before the next is serialized, and restarts. *)
Inductive registry_run : RegState -> Prop :=
  | run_start dict : bt_sorted dict -> (forall k v, bt_get k dict = Some v -> starts_with k FIELD_REGISTRY_PREFIX = false) ->
      registry_run (mkRegState ∅ dict [])
  | run_write st w : registry_run st -> write_ok st w -> registry_run (write_record norm_sq st w)
  | run_restart st : registry_run st -> registry_run (restart st).

Lemma registry_run_inv st : (forall v, is_uint 64 (norm_sq v)) -> registry_run st -> reg_inv st.
Proof.
  intros Hnorm. induction 1 as [dict Hs Hk|st w _ IH Hw|st _ IH]; [|by apply registry_write_inv|by apply restart_inv].
  split; cbn [rs_registry rs_dictionary rs_records]; [done|intros l d; by rewrite lookup_empty|intros k v Hg Hp; by rewrite (Hk k v Hg) in Hp|intros s Hs'; by apply elem_of_nil in Hs'].
Qed.
End reload.

(** * Theorem *)

(** C36: the registry keeps up with the records. In every history of writes, each
    committed before the next one is serialized, and restarts that read the
    dictionaries back from the disk, every record ever committed is read back as
    it was written, search vector included. *)
Theorem registry_durable (PC : Postcard) (PL : PostcardLaws PC) (NC : NamesCodec) (NL : NamesCodecLaws NC) (norm_sq : list Z -> Z) (st : RegState) :
  (forall v, is_uint 64 (norm_sq v)) -> registry_run norm_sq st ->
  forall s, s ∈ rs_records st ->
    read_stored (rs_registry st) s = XOk (st_record s) /\ read_stored (rs_registry (restart st)) s = XOk (st_record s).
Proof.
  intros Hnorm Hrun s Hs. pose proof (registry_run_inv norm_sq st Hnorm Hrun) as Hi. split.
  - destruct (ri_records st Hi s Hs) as (d & Hd & Hr). by apply (Hr d); [apply (ri_dicts st Hi _ _ Hd)|exists []; rewrite app_nil_r|].
  - pose proof (restart_inv st Hi) as Hi'. destruct (ri_records _ Hi' s Hs) as (d & Hd & Hr).
    by apply (Hr d); [apply (ri_dicts _ Hi' _ _ Hd)|exists []; rewrite app_nil_r|].
Qed.

(** ** Witness *)

Definition sample_names : NamesCodec := {|
  encode_names ns := bits_of_pos (countable.encode ns);
  decode_names b := countable.decode (pos_of_bits b);
|}.

#[export] Instance sample_names_laws : NamesCodecLaws sample_names.
Proof. split. intros ns. cbn. by rewrite pos_bits, countable.decode_encode. Qed.

Definition note (n : Z) (name : string) : XRecord := mkRecord n (str "docs") [(str name, Int n)] 0 0.

#[local] Existing Instances sample_postcard sample_names.

Definition sample_writes : RegState :=
  write_record (fun _ => 0) (restart (write_record (fun _ => 0) (mkRegState ∅ [([1], [2])] []) (7, sample_record, Some (str "emb")))) (7, note 5 "title", None).

Lemma note_ok n name : is_uint 63 n -> record_ok (note n name).
Proof.
  intros Hn. unfold is_uint in Hn. split; [unfold is_uint; cbn [lid note]; lia|]. split; [repeat constructor|]. repeat constructor; cbn; try done.
  apply andb_true_iff. split; [apply Z.leb_le|apply Z.ltb_lt]; lia.
Qed.

Lemma sample_writes_run : registry_run (fun _ => 0) sample_writes.
Proof.
  apply run_write; [apply run_restart, run_write; [apply run_start|]|].
  - repeat constructor.
  - intros k v. cbn [bt_get]. destruct (ocmp k [1]) eqn:E; [|done..]. by apply ocmp_eq in E as ->.
  - split; [split; vm_compute; congruence|]. split; [apply sample_record_ok|]. split; [done|]. vm_compute. congruence.
  - split; [split; vm_compute; congruence|]. split; [apply note_ok; split; vm_compute; congruence|]. split; [done|]. vm_compute. congruence.
Qed.

Lemma registry_durable_witness :
  Forall (fun s => read_stored (rs_registry (restart sample_writes)) s = XOk (st_record s)) (rs_records sample_writes) /\
  map st_record (rs_records sample_writes) = [sample_record; note 5 "title"].
Proof.
  split; [|vm_compute; reflexivity]. apply Forall_forall. intros s Hs.
  apply (registry_durable sample_postcard _ sample_names _ (fun _ => 0) sample_writes (fun _ => ltac:(split; vm_compute; congruence)) sample_writes_run s Hs).
Defined.

(** ** The race

    The registry's lock is released before the commit (ops/put.rs). A writer that
    serialized first and commits last puts its shorter dictionary over the one of
    a later writer: after a restart the other's field is gone. *)
Definition race (r1 r2 : XRecord) : RegState :=
  let st := mkRegState ∅ [] [] in
  let '(s1, e1, st) := serialize_step (fun _ => 0) st 7 r1 None in
  let '(s2, e2, st) := serialize_step (fun _ => 0) st 7 r2 None in
  commit_record (commit_record st s2 e2) s1 e1.

Lemma registry_race :
  let st := race (note 1 "a") (note 2 "b") in
  map (read_stored (rs_registry st)) (rs_records st) = [XOk (note 2 "b"); XOk (note 1 "a")] /\
  map (read_stored (rs_registry (restart st))) (rs_records st) = [XOk (mkRecord 2 (str "docs") [] 0 0); XOk (note 1 "a")].
Proof. vm_compute. auto. Qed.

(** Likewise a writer that uses a name another one has registered and not yet
    committed: its commit carries no dictionary. *)
Lemma registry_lag :
  let '(_, _, st) := serialize_step (fun _ => 0) (mkRegState ∅ [] []) 7 (note 1 "a") None in
  let '(s2, e2, st) := serialize_step (fun _ => 0) st 7 (note 2 "a") None in
  e2 = None /\ map (read_stored (rs_registry (restart (commit_record st s2 e2)))) [s2] = [XErr (Storage "Record deserialization failed")].
Proof. vm_compute. auto. Qed.
