(* ===== verification/SpatialKey.v ===== *)
(** * Spatial keys (core/src/zorder.rs, key.rs)

    The 24-byte key of a record in the spatial keyspace: lobe, gravity hash,
    satellite, the interleaved type and time-stamp, and a counter, big-endian so
    that the order of the bytes is the order of the fields. The key ranges of a
    gravity bucket and of a satellite are computed from it. *)

From S2P Require Import Prelude ByteOrder.

(** ** Z-order (zorder.rs) *)

(** [for i in 0..21 { result |= f(i) }] *)
Definition or_bits (f : Z -> Z) : Z := foldl (fun result i => Z.lor result (f i)) 0 (seqZ 0 21).

Definition spread_bits_21 (v : Z) : Z :=
  or_bits (fun i => Z.shiftl (Z.land (Z.shiftr v i) 1) (i * 2)).

Definition compact_bits_21 (z : Z) : Z :=
  or_bits (fun i => Z.shiftl (Z.land (Z.shiftr z (i * 2)) 1) i).

(** [0x1F_FFFF] *)
Definition MASK_21 : Z := 2097151.

Definition z_order_2d_encode (y z : Z) : Z :=
  Z.lor (spread_bits_21 (Z.land y MASK_21)) (Z.shiftl (spread_bits_21 (Z.land z MASK_21)) 1).

Definition z_order_2d_decode (val : Z) : Z * Z :=
  (compact_bits_21 val, compact_bits_21 (Z.shiftr val 1)).

(** ** Keys (key.rs) *)

Definition SPATIAL_KEY_SIZE : Z := 24.
Definition GRAVITY_HASH_BITS : Z := 48.
Definition GRAVITY_HASH_MASK : Z := Z.shiftl 1 GRAVITY_HASH_BITS - 1.
Definition GRAVITY_PREFIX_SIZE : Z := 2 + 6.

Record SpatialKey := mkSpatialKey {
  lobe_id : Z;
  gravity_hash : Z;
  sat : Z;
  type_id : Z;
  timestamp_norm : Z;
  seq : Z;
}.

(** [[full[2], .., full[7]]] *)
Definition u48_to_be_bytes (v : Z) : bytes := drop 2 (to_be_bytes 8 v).

(** [u64::from_be_bytes([0, 0, b[0], .., b[5]])] *)
Definition u48_from_be_bytes (b : bytes) : Z := from_be_bytes ([0; 0] ++ take 6 b).

Definition SpatialKey_new_with_sat (lobe_id gravity_hash sat type_id timestamp_norm seq : Z) : SpatialKey :=
  mkSpatialKey lobe_id (Z.land gravity_hash GRAVITY_HASH_MASK) sat type_id
    (Z.land timestamp_norm MASK_21) seq.

Definition SpatialKey_new (lobe_id gravity_hash type_id timestamp_norm seq : Z) : SpatialKey :=
  mkSpatialKey lobe_id (Z.land gravity_hash GRAVITY_HASH_MASK) 0 type_id
    (Z.land timestamp_norm MASK_21) seq.

(** The value of the third slot of the layout. *)
Definition z2d (k : SpatialKey) : Z :=
  z_order_2d_encode (Z.land (type_id k) MASK_21) (timestamp_norm k).

Definition to_bytes (k : SpatialKey) : bytes :=
  to_be_bytes 2 (lobe_id k) ++ u48_to_be_bytes (gravity_hash k) ++
  to_be_bytes 2 (sat k) ++ u48_to_be_bytes (z2d k) ++ to_be_bytes 8 (seq k).

(** [type_id_raw as u16] truncates. *)
Definition from_bytes (b : bytes) : SpatialKey :=
  let lobe_id := from_be_bytes (slice b 0 2) in
  let gravity_hash := u48_from_be_bytes (slice b 2 8) in
  let sat := from_be_bytes (slice b 8 10) in
  let z2d := u48_from_be_bytes (slice b 10 16) in
  let seq := from_be_bytes (slice b 16 24) in
  let '(type_id_raw, timestamp_norm) := z_order_2d_decode z2d in
  mkSpatialKey lobe_id gravity_hash sat (wrap16 type_id_raw) timestamp_norm seq.

Definition gravity_hash_from_bytes (b : bytes) : Z := u48_from_be_bytes (slice b 2 8).

Definition prefix_for_gravity (lobe_id gravity_hash : Z) : bytes * bytes :=
  let gh := Z.land gravity_hash GRAVITY_HASH_MASK in
  (to_be_bytes 2 lobe_id ++ u48_to_be_bytes gh ++ replicate 16 0,
   to_be_bytes 2 lobe_id ++ u48_to_be_bytes gh ++ replicate 16 255).

Definition prefix_for_satellite (lobe_id gravity_hash sat : Z) : bytes * bytes :=
  let gh := Z.land gravity_hash GRAVITY_HASH_MASK in
  let sat_be := to_be_bytes 2 sat in
  (to_be_bytes 2 lobe_id ++ u48_to_be_bytes gh ++ sat_be ++ replicate 14 0,
   to_be_bytes 2 lobe_id ++ u48_to_be_bytes gh ++ sat_be ++ replicate 14 255).

(** The FNV-1a loop of the two hashes. *)
Definition fnv1a (s : bytes) : Z :=
  foldl (fun h b => wrap64 (Z.lxor h b * 1099511628211)) 14695981039346656037 s.

Definition hash_to_48bits (s : bytes) : Z := Z.land (fnv1a s) GRAVITY_HASH_MASK.

Definition hash_to_16bits (s : bytes) : Z :=
  let h := fnv1a s in
  Z.land (Z.lxor (Z.lxor (Z.lxor h (Z.shiftr h 16)) (Z.shiftr h 32)) (Z.shiftr h 48)) 65535.

Definition normalize_timestamp (micros : Z) : Z := wrap32 (Z.land micros MASK_21).

(** The ranges the field types and the constructors' masks give a key. *)
Definition key_wf (k : SpatialKey) : Prop :=
  is_uint 16 (lobe_id k) /\ is_uint 48 (gravity_hash k) /\ is_uint 16 (sat k) /\
  is_uint 16 (type_id k) /\ is_uint 21 (timestamp_norm k) /\ is_uint 64 (seq k).

Example to_bytes_ex :
  to_bytes (SpatialKey_new_with_sat 1 107511 48879 3 12345 42) =
  [0; 1; 0; 0; 0; 1; 163; 247; 190; 239; 0; 0; 10; 0; 10; 135; 0; 0; 0; 0; 0; 0; 0; 42].
Proof. vm_compute. reflexivity. Qed.

(** * Interleaving *)

Lemma foldl_lor_testbit (f : Z -> Z) l acc n :
  Z.testbit (foldl (fun result i => Z.lor result (f i)) acc l) n =
  Z.testbit acc n || existsb (fun i => Z.testbit (f i) n) l.
Proof.
  revert acc. induction l as [|i l IH]; intros acc; simpl; [by rewrite orb_false_r|].
  by rewrite IH, Z.lor_spec, orb_assoc.
Qed.

(** A bit of the result of the loop: the one summand that can set it decides. *)
Lemma or_bits_testbit f n i :
  (forall j, 0 <= j < 21 -> j <> i -> Z.testbit (f j) n = false) ->
  Z.testbit (or_bits f) n = bool_decide (0 <= i < 21) && Z.testbit (f i) n.
Proof.
  intros Hf. unfold or_bits. rewrite foldl_lor_testbit, Z.bits_0, orb_false_l.
  destruct (existsb _ _) eqn:E; symmetry.
  - apply existsb_exists in E as (j & Hj%list_elem_of_In%elem_of_seqZ & E).
    destruct (decide (j = i)) as [->|]; [|rewrite Hf in E by (lia || done); done].
    rewrite bool_decide_true by lia. done.
  - apply not_true_iff_false in E. apply not_true_iff_false. contradict E.
    apply andb_true_iff in E as [Hi%bool_decide_eq_true E]. apply existsb_exists. exists i.
    split; [|done]. apply list_elem_of_In, elem_of_seqZ. lia.
Qed.

Lemma testbit_one_bit v i s n :
  0 <= i -> 0 <= s -> 0 <= n ->
  Z.testbit (Z.shiftl (Z.land (Z.shiftr v i) 1) s) n = (n =? s) && Z.testbit v i.
Proof.
  intros. rewrite Z.shiftl_spec by lia. destruct (Z.eqb_spec n s) as [->|Hne]; simpl.
  - rewrite Z.sub_diag, Z.land_spec, Z.shiftr_spec by lia. simpl. by rewrite andb_true_r.
  - destruct (Z.lt_ge_cases n s); [by rewrite Z.testbit_neg_r by lia|].
    rewrite Z.land_spec. rewrite (testbit_small 1 1) by lia. apply andb_false_r.
Qed.

Lemma spread_even v n : 0 <= n -> Z.testbit (spread_bits_21 v) (2 * n) = bool_decide (n < 21) && Z.testbit v n.
Proof.
  intros Hn. unfold spread_bits_21. rewrite (or_bits_testbit _ _ n).
  - rewrite testbit_one_bit by lia. rewrite (proj2 (Z.eqb_eq _ _)) by lia. simpl.
    f_equal. apply bool_decide_ext. lia.
  - intros j Hj Hne. rewrite testbit_one_bit by lia. rewrite (proj2 (Z.eqb_neq _ _)) by lia. done.
Qed.

Lemma spread_odd v n : 0 <= n -> Z.testbit (spread_bits_21 v) (2 * n + 1) = false.
Proof.
  intros Hn. unfold spread_bits_21. rewrite (or_bits_testbit _ _ 0);
    [|intros j Hj _]; rewrite testbit_one_bit by lia; rewrite (proj2 (Z.eqb_neq _ _)) by lia; [|done].
  apply andb_false_r.
Qed.

Lemma compact_testbit z n : 0 <= n -> Z.testbit (compact_bits_21 z) n = bool_decide (n < 21) && Z.testbit z (2 * n).
Proof.
  intros Hn. unfold compact_bits_21. rewrite (or_bits_testbit _ _ n).
  - destruct (decide (n < 21)).
    + rewrite !bool_decide_true by lia. rewrite testbit_one_bit by lia. rewrite Z.eqb_refl. simpl. f_equal; lia.
    + rewrite !bool_decide_false by lia. done.
  - intros j Hj Hne. rewrite testbit_one_bit by lia. rewrite (proj2 (Z.eqb_neq _ _)) by lia. done.
Qed.

Lemma compact_bits v z :
  is_uint 21 v -> (forall n, 0 <= n < 21 -> Z.testbit z (2 * n) = Z.testbit v n) -> compact_bits_21 z = v.
Proof.
  intros Hv Hz. apply Z.bits_inj'. intros n Hn. rewrite compact_testbit by done.
  destruct (decide (n < 21)); [rewrite bool_decide_true, Hz by lia; done|].
  rewrite bool_decide_false, (testbit_small v 21) by (done || lia). done.
Qed.

Lemma mask_21 v : is_uint 21 v -> Z.land v MASK_21 = v.
Proof. intros Hv. change MASK_21 with (Z.ones 21). rewrite Z.land_ones by lia. by apply Z.mod_small. Qed.

Lemma mask_21_range v : is_uint 21 (Z.land v MASK_21).
Proof. change MASK_21 with (Z.ones 21). rewrite Z.land_ones by lia. apply Z.mod_pos_bound. lia. Qed.

Lemma mask_48_range v : is_uint 48 (Z.land v GRAVITY_HASH_MASK).
Proof. change GRAVITY_HASH_MASK with (Z.ones 48). rewrite Z.land_ones by lia. apply Z.mod_pos_bound. lia. Qed.

Lemma mask_48 v : is_uint 48 v -> Z.land v GRAVITY_HASH_MASK = v.
Proof. intros Hv. change GRAVITY_HASH_MASK with (Z.ones 48). rewrite Z.land_ones by lia. by apply Z.mod_small. Qed.

Lemma encode_even y z n : 0 <= n -> Z.testbit (z_order_2d_encode y z) (2 * n) = bool_decide (n < 21) && Z.testbit y n.
Proof.
  intros Hn. unfold z_order_2d_encode. rewrite Z.lor_spec, spread_even, Z.shiftl_spec by lia.
  replace (Z.testbit _ (2 * n - 1)) with false.
  - rewrite orb_false_r. destruct (decide (n < 21)); [|by rewrite bool_decide_false].
    rewrite Z.land_spec. change MASK_21 with (Z.ones 21). rewrite Z.ones_spec_low by lia. by rewrite andb_true_r.
  - destruct (decide (n = 0)) as [->|]; [done|]. replace (2 * n - 1) with (2 * (n - 1) + 1) by lia.
    by rewrite spread_odd by lia.
Qed.

Lemma encode_odd y z n : 0 <= n -> Z.testbit (z_order_2d_encode y z) (2 * n + 1) = bool_decide (n < 21) && Z.testbit z n.
Proof.
  intros Hn. unfold z_order_2d_encode. rewrite Z.lor_spec, spread_odd, Z.shiftl_spec by lia.
  replace (2 * n + 1 - 1) with (2 * n) by lia. rewrite spread_even by lia. simpl.
  destruct (decide (n < 21)); [|by rewrite bool_decide_false].
  rewrite Z.land_spec. change MASK_21 with (Z.ones 21). rewrite Z.ones_spec_low by lia. by rewrite andb_true_r.
Qed.

Lemma z_order_roundtrip y z : is_uint 21 y -> is_uint 21 z -> z_order_2d_decode (z_order_2d_encode y z) = (y, z).
Proof.
  intros Hy Hz. unfold z_order_2d_decode. f_equal; apply compact_bits; try done; intros n Hn.
  - rewrite encode_even, bool_decide_true by lia. done.
  - rewrite Z.shiftr_spec, encode_odd, bool_decide_true by lia. done.
Qed.

(** A natural number whose bits stop at [n] is below [2^n]. *)
Lemma bits_bound a n : 0 <= n -> (forall i, n <= i -> Z.testbit a i = false) -> is_uint n a.
Proof.
  intros Hn Hb. assert (a = Z.land a (Z.ones n)) as ->; [|rewrite Z.land_ones by lia; apply Z.mod_pos_bound; lia].
  apply Z.bits_inj'. intros i Hi. rewrite Z.land_spec. destruct (Z.lt_ge_cases i n).
  - by rewrite Z.ones_spec_low, andb_true_r by lia.
  - by rewrite Hb by lia.
Qed.

Lemma encode_range y z : is_uint 42 (z_order_2d_encode y z).
Proof.
  apply bits_bound; [lia|]. intros i Hi. destruct (Z.Even_or_Odd i) as [[n ->]|[n ->]].
  - by rewrite encode_even, bool_decide_false by lia.
  - by rewrite encode_odd, bool_decide_false by lia.
Qed.

Lemma compact_range z : is_uint 21 (compact_bits_21 z).
Proof. apply bits_bound; [lia|]. intros i Hi. by rewrite compact_testbit, bool_decide_false by lia. Qed.

(** * The byte form *)

Lemma u48_be v : u48_to_be_bytes v = to_be_bytes 6 v.
Proof.
  unfold u48_to_be_bytes, to_be_bytes. rewrite (to_le_bytes_add 6 2), reverse_app.
  rewrite drop_app_length'; [done|]. by rewrite length_reverse, length_to_le_bytes.
Qed.

Lemma u48_from_be b : length b = 6%nat -> u48_from_be_bytes b = from_be_bytes b.
Proof.
  intros Hb. unfold u48_from_be_bytes, from_be_bytes. rewrite take_ge by lia.
  change ([0; 0] ++ b) with (replicate 2 0 ++ b). rewrite reverse_app, reverse_replicate.
  apply from_le_bytes_zeros.
Qed.

Lemma u48_roundtrip v : is_uint 48 v -> u48_from_be_bytes (u48_to_be_bytes v) = v.
Proof.
  intros Hv. rewrite u48_be, u48_from_be by apply length_to_be_bytes. by apply (from_to_be_bytes_id 6 48).
Qed.

Lemma z2d_range k : is_uint 48 (z2d k).
Proof. pose proof (encode_range (Z.land (type_id k) MASK_21) (timestamp_norm k)) as H. unfold z2d, is_uint in *. lia. Qed.

Lemma u16_21 v : is_uint 16 v -> is_uint 21 v.
Proof. unfold is_uint. lia. Qed.
#[local] Hint Resolve u16_21 z2d_range mask_21_range mask_48_range : xyz.

(** The slots of the layout, and their lengths. *)
Lemma slots k : exists l g s z q,
  to_bytes k = l ++ g ++ s ++ z ++ q /\
  l = to_be_bytes 2 (lobe_id k) /\ g = to_be_bytes 6 (gravity_hash k) /\ s = to_be_bytes 2 (sat k) /\
  z = to_be_bytes 6 (z2d k) /\ q = to_be_bytes 8 (seq k) /\
  blen l = 2 /\ blen g = 6 /\ blen s = 2 /\ blen z = 6 /\ blen q = 8.
Proof.
  eexists _, _, _, _, _. split; [unfold to_bytes; by rewrite !u48_be|]. unfold blen.
  rewrite !length_to_be_bytes. done.
Qed.

Lemma to_bytes_length k : blen (to_bytes k) = SPATIAL_KEY_SIZE.
Proof. destruct (slots k) as (l & g & s & z & q & -> & ? & ? & ? & ? & ? & ?). rewrite !blen_app. unfold SPATIAL_KEY_SIZE. lia. Qed.

Lemma to_bytes_is_bytes k : is_bytes (to_bytes k).
Proof. unfold to_bytes, is_bytes. rewrite !Forall_app, !u48_be. repeat split; rewrite ?u48_be; apply to_be_bytes_is_bytes. Qed.

Lemma slice_at {A} (data pre x post : list A) a b :
  data = pre ++ x ++ post -> a = blen pre -> b = blen pre + blen x -> slice data a b = x.
Proof. intros ->. apply slice_app. Qed.

(** The slots of an encoded key, read back. *)
Lemma slot_slices k :
  let b := to_bytes k in
  slice b 0 2 = to_be_bytes 2 (lobe_id k) /\ slice b 2 8 = to_be_bytes 6 (gravity_hash k) /\
  slice b 8 10 = to_be_bytes 2 (sat k) /\ slice b 10 16 = to_be_bytes 6 (z2d k) /\
  slice b 16 24 = to_be_bytes 8 (seq k).
Proof.
  destruct (slots k) as (l & g & s & z & q & E & <- & <- & <- & <- & <- & Ll & Lg & Ls & Lz & Lq). cbv zeta. rewrite E.
  split; [|split; [|split; [|split]]].
  - apply (slice_at _ [] l (g ++ s ++ z ++ q)); [done|done|]. rewrite blen_nil. lia.
  - apply (slice_at _ l g (s ++ z ++ q)); [done|lia|lia].
  - apply (slice_at _ (l ++ g) s (z ++ q)); [by rewrite <- !app_assoc|rewrite blen_app; lia..].
  - apply (slice_at _ (l ++ g ++ s) z q); [by rewrite <- !app_assoc|rewrite !blen_app; lia..].
  - apply (slice_at _ (l ++ g ++ s ++ z) q []); [by rewrite app_nil_r, <- !app_assoc|rewrite !blen_app; lia..].
Qed.

Lemma from_to_bytes k : key_wf k -> from_bytes (to_bytes k) = k.
Proof.
  intros (Hl & Hg & Hs & Ht & Hn & Hq). destruct (slot_slices k) as (E1 & E2 & E3 & E4 & E5).
  unfold from_bytes. rewrite E1, E2, E3, E4, E5, !u48_from_be by apply length_to_be_bytes.
  rewrite (from_to_be_bytes_id 2 16), (from_to_be_bytes_id 6 48), (from_to_be_bytes_id 2 16),
    (from_to_be_bytes_id 6 48), (from_to_be_bytes_id 8 64) by (done || apply z2d_range).
  unfold z2d. rewrite (mask_21 (type_id k)) by auto with xyz. rewrite z_order_roundtrip by auto with xyz.
  rewrite wrap_small by done. by destruct k.
Qed.

Lemma gravity_hash_at k : is_uint 48 (gravity_hash k) -> gravity_hash_from_bytes (to_bytes k) = gravity_hash k.
Proof.
  intros Hg. destruct (slot_slices k) as (_ & E & _). unfold gravity_hash_from_bytes.
  rewrite E, u48_from_be by apply length_to_be_bytes. by apply (from_to_be_bytes_id 6 48).
Qed.

(** Keys are ordered field by field. *)
Definition key_compare (a b : SpatialKey) : comparison :=
  then_cmp (lobe_id a ?= lobe_id b) (then_cmp (gravity_hash a ?= gravity_hash b)
    (then_cmp (sat a ?= sat b) (then_cmp (z2d a ?= z2d b) (seq a ?= seq b)))).

Lemma to_bytes_order a b : key_wf a -> key_wf b -> bcmp (to_bytes a) (to_bytes b) = key_compare a b.
Proof.
  intros (Hl & Hg & Hs & Ht & Hn & Hq) (Hl' & Hg' & Hs' & Ht' & Hn' & Hq'). unfold to_bytes, key_compare. rewrite !u48_be.
  rewrite (bcmp_be 2), (bcmp_be 6), (bcmp_be 2), (bcmp_be 6) by (done || apply z2d_range).
  by rewrite (bcmp_be_last 8) by done.
Qed.

(** * Buckets and satellites *)

Lemma gravity_range_iff lobe gh k :
  is_uint 16 lobe -> key_wf k ->
  let '(lo, hi) := prefix_for_gravity lobe gh in
  (lo <= to_bytes k)%bytes /\ (to_bytes k <= hi)%bytes <->
  lobe = lobe_id k /\ Z.land gh GRAVITY_HASH_MASK = gravity_hash k.
Proof.
  intros Hlo (Hl & Hg & Hs & Ht & Hn & Hq). unfold prefix_for_gravity, to_bytes, ble. rewrite !u48_be.
  pose proof (mask_48_range gh) as Hgh. set (tl := to_be_bytes 2 (sat k) ++ _).
  assert (is_bytes tl /\ length tl = 16%nat) as [Htl Hlen].
  { subst tl. split; [|by rewrite !length_app, ?u48_be, !length_to_be_bytes].
    unfold is_bytes. rewrite !Forall_app. repeat split; rewrite ?u48_be; apply to_be_bytes_is_bytes. }
  rewrite !(bcmp_be 2), !(bcmp_be 6), !between_field by done.
  pose proof (bcmp_zeros 16 tl Htl Hlen) as H0. pose proof (bcmp_ones 16 tl Htl Hlen) as H1.
  revert H0 H1. generalize (bcmp (replicate 16 0) tl) (bcmp tl (replicate 16 255)). clear. naive_solver.
Qed.

Lemma satellite_range_iff lobe gh s k :
  is_uint 16 lobe -> is_uint 16 s -> key_wf k ->
  let '(lo, hi) := prefix_for_satellite lobe gh s in
  (lo <= to_bytes k)%bytes /\ (to_bytes k <= hi)%bytes <->
  lobe = lobe_id k /\ Z.land gh GRAVITY_HASH_MASK = gravity_hash k /\ s = sat k.
Proof.
  intros Hlo Hsa (Hl & Hg & Hs & Ht & Hn & Hq). unfold prefix_for_satellite, to_bytes, ble. rewrite !u48_be.
  pose proof (mask_48_range gh) as Hgh. set (tl := u48_to_be_bytes (z2d k) ++ _).
  assert (is_bytes tl /\ length tl = 14%nat) as [Htl Hlen].
  { subst tl. split; [|by rewrite !length_app, ?u48_be, !length_to_be_bytes].
    unfold is_bytes. rewrite !Forall_app. repeat split; rewrite ?u48_be; apply to_be_bytes_is_bytes. }
  rewrite !(bcmp_be 2), !(bcmp_be 6), !(bcmp_be 2), !between_field by done.
  pose proof (bcmp_zeros 14 tl Htl Hlen) as H0. pose proof (bcmp_ones 14 tl Htl Hlen) as H1.
  revert H0 H1. generalize (bcmp (replicate 14 0) tl) (bcmp tl (replicate 14 255)). clear. naive_solver.
Qed.

(** * Theorems *)

Lemma from_be_bytes_slice b a n :
  is_bytes b -> blen b = SPATIAL_KEY_SIZE -> 0 <= a -> a + Z.of_nat n <= SPATIAL_KEY_SIZE ->
  is_uint (8 * Z.of_nat n) (from_be_bytes (slice b a (a + Z.of_nat n))).
Proof.
  intros Hb Hlen Ha Hn. apply from_be_bytes_range.
  - unfold slice. apply Forall_take, Forall_drop, Hb.
  - pose proof (blen_slice b a (a + Z.of_nat n) ltac:(lia) ltac:(lia)) as H. unfold blen in H. lia.
Qed.

(** C38: keys are well formed. The two constructors mask what they are given, and
    decoding any 24 bytes gives fields within their widths; every key, even one
    that is out of range, is written as 24 bytes; the two hashes and the
    normalised time-stamp fit the fields they fill. *)
Theorem spatial_keys_well_formed :
  (forall lobe gh s ty ts q,
     is_uint 16 lobe -> is_uint 16 s -> is_uint 16 ty -> is_uint 64 q ->
     key_wf (SpatialKey_new_with_sat lobe gh s ty ts q) /\
     SpatialKey_new lobe gh ty ts q = SpatialKey_new_with_sat lobe gh 0 ty ts q) /\
  (forall b, is_bytes b -> blen b = SPATIAL_KEY_SIZE -> key_wf (from_bytes b)) /\
  (forall k, is_bytes (to_bytes k) /\ blen (to_bytes k) = SPATIAL_KEY_SIZE) /\
  (forall s, is_uint 48 (hash_to_48bits s) /\ is_uint 16 (hash_to_16bits s)) /\
  (forall micros, is_uint 21 (normalize_timestamp micros)).
Proof.
  split; [|split; [|split; [|split]]].
  - intros. split; [|done]. repeat split; cbn; try apply mask_48_range; try apply mask_21_range; unfold is_uint in *; lia.
  - intros b Hb Hlen.
    pose proof (from_be_bytes_slice b 0 2 Hb Hlen ltac:(lia) ltac:(done)).
    pose proof (from_be_bytes_slice b 2 6 Hb Hlen ltac:(lia) ltac:(done)).
    pose proof (from_be_bytes_slice b 8 2 Hb Hlen ltac:(lia) ltac:(done)).
    pose proof (from_be_bytes_slice b 16 8 Hb Hlen ltac:(lia) ltac:(done)).
    unfold from_bytes, z_order_2d_decode, key_wf. cbn [lobe_id gravity_hash sat type_id timestamp_norm seq].
    rewrite u48_from_be. 2: { pose proof (blen_slice b 2 8 ltac:(lia) ltac:(rewrite Hlen; done)) as H'. unfold blen in H'. lia. }
    split; [done|]. split; [done|]. split; [done|]. split; [|split; [apply compact_range|done]].
    apply Z.mod_pos_bound. lia.
  - intros k. split; [apply to_bytes_is_bytes|apply to_bytes_length].
  - intros s. split; [apply mask_48_range|]. unfold hash_to_16bits. change 65535 with (Z.ones 16).
    rewrite Z.land_ones by lia. apply Z.mod_pos_bound. lia.
  - intros m. unfold normalize_timestamp. pose proof (mask_21_range m) as H. rewrite wrap_small; [done|].
    unfold is_uint in *. lia.
Qed.

Lemma spatial_keys_well_formed_witness :
  key_wf (SpatialKey_new_with_sat 1 (2 ^ 60 + 42) 7 3 (2 ^ 30 + 5) 9) /\ key_wf (from_bytes (replicate 24 255)).
Proof.
  destruct spatial_keys_well_formed as (H1 & H2 & _). split.
  - apply H1; split; vm_compute; congruence.
  - apply H2; [|reflexivity]. repeat constructor; vm_compute; congruence.
Defined.

(** A key is its bytes. Decoding the bytes of a well-formed key gives the key
    back, its gravity hash can be read off without decoding, and the order of
    the byte strings, which is the order the storage engine keeps, compares lobe,
    gravity hash, satellite, interleaved type and time, and counter, in turn. *)
Theorem spatial_key_roundtrip k k' :
  key_wf k -> key_wf k' ->
  from_bytes (to_bytes k) = k /\ gravity_hash_from_bytes (to_bytes k) = gravity_hash k /\
  z_order_2d_decode (z2d k) = (type_id k, timestamp_norm k) /\
  bcmp (to_bytes k) (to_bytes k') = key_compare k k'.
Proof.
  intros Hk Hk'. split; [by apply from_to_bytes|]. split; [apply gravity_hash_at, Hk|]. split; [|by apply to_bytes_order].
  destruct Hk as (_ & _ & _ & Ht & Hn & _). unfold z2d. rewrite mask_21 by auto with xyz. apply z_order_roundtrip; auto with xyz.
Qed.

Lemma spatial_key_roundtrip_witness :
  let k := SpatialKey_new_with_sat 1 42 7 3 12345 9 in let k' := SpatialKey_new 1 43 0 0 0 in
  from_bytes (to_bytes k) = k /\ bcmp (to_bytes k) (to_bytes k') = Lt.
Proof.
  cbv zeta.
  destruct (spatial_key_roundtrip (SpatialKey_new_with_sat 1 42 7 3 12345 9) (SpatialKey_new 1 43 0 0 0)) as (H1 & _ & _ & H2);
    [repeat split; vm_compute; congruence..|].
  split; [exact H1|]. rewrite H2. vm_compute. reflexivity.
Defined.
