(* ===== verification/SpatialScan.v ===== *)
(** * Scans of a gravity bucket

    What the closed range scan of the tree returns for the key ranges of
    core/src/key.rs, when the keys of the tree are spatial keys: the composition
    ops/scan.rs ([resolve_gravity_scan_range]) relies on when it narrows a bucket
    to a satellite. *)

From S2P Require Import Prelude ByteOrder Types Block Bloom Memtable Merge Streams TableMeta TableWriter TableReader.
From S2P Require Import Version Leveled Paths Worker Manifest Tree TreeReads TreeSteps TreeCompact TreeOpen TreeMajor TreeRun TreeTheorems.
From S2P Require Import SpatialKey.

Section spatial_scan.
Context {XH : Xxh3} {CD : Codecs} {SM : SkipMap} {BH : BinaryHeap}.

(** Every key of the tree is the encoding of a well-formed spatial key. *)
Definition spatial_keys (t : Tree) : Prop :=
  Forall (fun e => exists k, key_wf k /\ key e = to_bytes k) (contents (t_current t)).

(** A bucket, and one satellite of it, as the code scans them. *)
Definition gravity_scan (t : Tree) (lobe gh : Z) : Result (list Entry) :=
  let '(key_min, key_max) := prefix_for_gravity lobe gh in range_stream t key_min key_max.

Definition satellite_scan (t : Tree) (lobe gh s : Z) : Result (list Entry) :=
  let '(key_min, key_max) := prefix_for_satellite lobe gh s in range_stream t key_min key_max.

Definition pair_of (e : Entry) : bytes * bytes := (key e, value e).

(** ** Sorted rows *)

Lemma view_has_key mo s k es v : view mo s k es = Some v -> exists e, e ∈ es /\ key e = k.
Proof.
  unfold view. rewrite scan_value_run by apply sorted_merge_sort.
  destruct (versions k (merge_sort entry_le es)) as [|e l] eqn:E; [simpl; by case_match|]. intros _.
  assert (e ∈ versions k (merge_sort entry_le es)) as [Hk He]%list_elem_of_filter by (rewrite E; left).
  rewrite merge_sort_Permutation in He. eauto.
Qed.

Definition row_lt (a b : bytes * bytes) : Prop := (a.1 < b.1)%bytes.

Lemma row_lt_irrefl a : ~ row_lt a a.
Proof. unfold row_lt, blt. by rewrite bcmp_refl. Qed.

Lemma rows_sorted rows : StronglySorted (fun a b => (key a < key b)%bytes) rows -> StronglySorted row_lt (pair_of <$> rows).
Proof.
  induction 1 as [|e rows _ IH He]; [constructor|]. cbn. constructor; [done|]. apply Forall_fmap.
  eapply Forall_impl; [exact He|]. done.
Qed.

Lemma row_sorted_nodup l : StronglySorted row_lt l -> NoDup l.
Proof.
  induction 1 as [|a l _ IH Ha]; constructor; [|done]. intros Hin. rewrite Forall_forall in Ha.
  by apply (row_lt_irrefl a), Ha.
Qed.

(** Rows in key order are determined by what they contain. *)
Lemma rows_ext rows rows' :
  StronglySorted (fun a b => (key a < key b)%bytes) rows -> StronglySorted (fun a b => (key a < key b)%bytes) rows' ->
  (forall k v, (exists e, e ∈ rows /\ key e = k /\ value e = v) <-> (exists e, e ∈ rows' /\ key e = k /\ value e = v)) ->
  pair_of <$> rows = pair_of <$> rows'.
Proof.
  intros H1%rows_sorted H2%rows_sorted Heq. apply (StronglySorted_unique_strong row_lt); [|done|done|].
  - intros a b _ _ Hab Hba. exfalso. apply (row_lt_irrefl a). unfold row_lt, blt in *. by eapply bcmp_trans.
  - apply NoDup_Permutation; [by apply row_sorted_nodup..|]. intros [k v]. rewrite !list_elem_of_fmap.
    specialize (Heq k v). unfold pair_of. split; intros (e & [= -> ->] & He).
    + destruct Heq as [[e' (?&<-&<-)] _]; eauto.
    + destruct Heq as [_ [e' (?&<-&<-)]]; eauto.
Qed.

(** ** The two scans *)

Lemma gravity_scan_spec t lobe gh :
  sv_ok (t_merge_operator t) (t_current t) -> is_uint 16 lobe ->
  exists rows, gravity_scan t lobe gh = Ok rows /\
    StronglySorted (fun a b => (key a < key b)%bytes) rows /\
    forall k v, key_wf k ->
      (exists e, e ∈ rows /\ key e = to_bytes k /\ value e = v) <->
      (lobe = lobe_id k /\ Z.land gh GRAVITY_HASH_MASK = gravity_hash k) /\
      view (t_merge_operator t) (t_seqno t) (to_bytes k) (contents (t_current t)) = Some v.
Proof.
  intros Hok Hl. pose proof (gravity_range_iff lobe gh) as Hr. unfold gravity_scan. destruct (prefix_for_gravity lobe gh) as [lo hi].
  destruct (range_stream_spec t lo hi Hok) as (rows & H1 & H2 & H3). exists rows. split; [done|]. split; [done|].
  intros k v Hk. rewrite H3, <- (Hr k Hl Hk). unfold in_closed. by rewrite andb_true_iff, !bleb_le.
Qed.

Lemma satellite_scan_spec t lobe gh s :
  sv_ok (t_merge_operator t) (t_current t) -> is_uint 16 lobe -> is_uint 16 s ->
  exists rows, satellite_scan t lobe gh s = Ok rows /\
    StronglySorted (fun a b => (key a < key b)%bytes) rows /\
    forall k v, key_wf k ->
      (exists e, e ∈ rows /\ key e = to_bytes k /\ value e = v) <->
      (lobe = lobe_id k /\ Z.land gh GRAVITY_HASH_MASK = gravity_hash k /\ s = sat k) /\
      view (t_merge_operator t) (t_seqno t) (to_bytes k) (contents (t_current t)) = Some v.
Proof.
  intros Hok Hl Hs. pose proof (satellite_range_iff lobe gh s) as Hr. unfold satellite_scan. destruct (prefix_for_satellite lobe gh s) as [lo hi].
  destruct (range_stream_spec t lo hi Hok) as (rows & H1 & H2 & H3). exists rows. split; [done|]. split; [done|].
  intros k v Hk. rewrite H3, <- (Hr k Hl Hs Hk). unfold in_closed. by rewrite andb_true_iff, !bleb_le.
Qed.

(** The rows of a scan of a tree of spatial keys have spatial keys. *)
Lemma scanned_spatial t pred rows e :
  spatial_keys t -> scan_result (t_merge_operator t) (t_seqno t) (contents (t_current t)) pred rows -> e ∈ rows ->
  exists k, key_wf k /\ key e = to_bytes k.
Proof.
  intros Hsp [_ H] He. destruct (proj1 (H (key e) (value e))) as [_ (e' & Hin & Hk)%view_has_key]; [eauto|].
  unfold spatial_keys in Hsp. rewrite Forall_forall in Hsp. rewrite <- Hk. by apply Hsp.
Qed.

Lemma range_rows_spatial t lo hi rows e :
  sv_ok (t_merge_operator t) (t_current t) -> spatial_keys t -> range_stream t lo hi = Ok rows -> e ∈ rows ->
  exists k, key_wf k /\ key e = to_bytes k.
Proof.
  intros Hok Hsp Hr. destruct (range_stream_spec t lo hi Hok) as (res & Hres & Hs). rewrite Hr in Hres. injection Hres as <-.
  eauto using scanned_spatial.
Qed.

(** A bucket scan returns the bucket, and the satellite scan is an optimisation
    of it. In a tree of spatial keys that satisfies the invariant, the range scan
    over [prefix_for_gravity] returns, in key order, exactly the visible records
    of the lobe and gravity hash; the one over [prefix_for_satellite] returns the
    same rows in the same order, less those of other satellites. *)
Theorem bucket_scans_exact t lobe gh :
  sv_ok (t_merge_operator t) (t_current t) -> spatial_keys t -> is_uint 16 lobe ->
  exists rows, gravity_scan t lobe gh = Ok rows /\
    StronglySorted (fun a b => (key a < key b)%bytes) rows /\
    (forall k v, key_wf k ->
      (exists e, e ∈ rows /\ key e = to_bytes k /\ value e = v) <->
      (lobe = lobe_id k /\ Z.land gh GRAVITY_HASH_MASK = gravity_hash k) /\
      view (t_merge_operator t) (t_seqno t) (to_bytes k) (contents (t_current t)) = Some v) /\
    (forall e, e ∈ rows -> exists k, key_wf k /\ key e = to_bytes k) /\
    forall s, is_uint 16 s -> exists sat_rows, satellite_scan t lobe gh s = Ok sat_rows /\
      pair_of <$> sat_rows = pair_of <$> filter (fun e => sat (from_bytes (key e)) = s) rows.
Proof.
  intros Hok Hsp Hl. destruct (gravity_scan_spec t lobe gh Hok Hl) as (rows & H1 & H2 & H3).
  assert (forall e, e ∈ rows -> exists k, key_wf k /\ key e = to_bytes k) as Hrows.
  { intros e. unfold gravity_scan in H1. destruct (prefix_for_gravity lobe gh). eauto using range_rows_spatial. }
  exists rows. do 4 (split; [done|]). intros s Hs.
  destruct (satellite_scan_spec t lobe gh s Hok Hl Hs) as (sr & H1' & H2' & H3'). exists sr. split; [done|].
  apply rows_ext; [done|by apply StronglySorted_filter|]. intros kb v. split.
  - intros (e & He & <- & <-).
    assert (exists k, key_wf k /\ key e = to_bytes k) as (k & Hk & Ek).
    { unfold satellite_scan in H1'. destruct (prefix_for_satellite lobe gh s). eauto using range_rows_spatial. }
    destruct (proj1 (H3' k (value e) Hk)) as [(Hlk & Hgk & Hsk) Hv]; [eauto|].
    destruct (proj2 (H3 k (value e) Hk)) as (e' & He' & Ek' & Ev'); [done|]. exists e'. rewrite list_elem_of_filter, Ek', Ek.
    rewrite from_to_bytes by done. done.
  - intros (e & [Hse He]%list_elem_of_filter & <- & <-). destruct (Hrows e He) as (k & Hk & Ek).
    rewrite Ek, from_to_bytes in Hse by done. rewrite Ek. apply H3'; [done|].
    destruct (proj1 (H3 k (value e) Hk)) as [[Hlk Hgk] Hv]; [eauto|]. done.
Qed.

End spatial_scan.

(** ** Witness *)

#[local] Existing Instances sample_xxh3 sample_codecs slist_skipmap list_heap.

(** Three records of one bucket in two satellites, and one of the next bucket;
    the first two are flushed. *)
Definition spatial_run : list Op :=
  [OpPut (to_bytes (SpatialKey_new_with_sat 1 42 7 3 100 1)) [10]; OpPut (to_bytes (SpatialKey_new_with_sat 1 42 8 3 100 2)) [20]; OpSeal;
   OpFlushBegin; OpPut (to_bytes (SpatialKey_new_with_sat 1 42 7 3 200 3)) [30]; OpFlushInstall;
   OpPut (to_bytes (SpatialKey_new_with_sat 1 43 7 3 100 4)) [40]].

Definition spatial_start : Keyspace := fresh_keyspace sample_dir run_config None None (mkOverlapStats 0 ∅).

Definition spatial_ks : Keyspace :=
  match exec spatial_run [] spatial_start with Some p => snd p | None => spatial_start end.

Lemma spatial_ks_ok : sv_ok (t_merge_operator (ks_tree spatial_ks)) (t_current (ks_tree spatial_ks)).
Proof.
  assert (exists hist, reachable spatial_start hist spatial_ks) as [hist H].
  { unfold spatial_ks. destruct (exec spatial_run [] spatial_start) as [[hist ks]|] eqn:E; [|eexists; apply reach_start].
    exists hist. eapply exec_reachable; [intros e; exact I|apply reach_start|exact E]. }
  eapply run_sv_ok; [|exact H]. done.
Qed.

Definition spatial_sample : list SpatialKey :=
  [SpatialKey_new_with_sat 1 42 7 3 200 3; SpatialKey_new_with_sat 1 43 7 3 100 4;
   SpatialKey_new_with_sat 1 42 7 3 100 1; SpatialKey_new_with_sat 1 42 8 3 100 2].

Lemma spatial_ks_keys : key <$> contents (t_current (ks_tree spatial_ks)) = to_bytes <$> spatial_sample.
Proof. vm_compute. reflexivity. Qed.

Lemma spatial_sample_wf : Forall key_wf spatial_sample.
Proof. repeat (constructor; [repeat split; vm_compute; congruence|]). constructor. Qed.

Lemma spatial_ks_spatial : spatial_keys (ks_tree spatial_ks).
Proof.
  apply Forall_forall. intros e He. generalize spatial_ks_keys spatial_sample_wf. revert He.
  generalize (contents (t_current (ks_tree spatial_ks))) spatial_sample. intros l ks He E Hwf.
  assert (key e ∈ to_bytes <$> ks) as (k & -> & Hk)%list_elem_of_fmap by (rewrite <- E; apply list_elem_of_fmap; eauto).
  rewrite Forall_forall in Hwf. eauto.
Qed.

(** The rows of a scan by value, those of satellite 7 apart. *)
Definition scanned (r : Result (list Entry)) : option (list bytes * list bytes) :=
  match r with
  | Ok rows => Some (map value rows, map value (filter (fun e => sat (from_bytes (key e)) = 7) rows))
  | _ => None
  end.

Lemma spatial_scanned : scanned (gravity_scan (ks_tree spatial_ks) 1 42) = Some ([[10]; [30]; [20]], [[10]; [30]]).
Proof. vm_compute. reflexivity. Qed.

Lemma map_pair_value rows : map value rows = map snd (pair_of <$> rows).
Proof. induction rows as [|e rows IH]; [done|]. cbn. by rewrite IH. Qed.

Lemma bucket_scans_exact_witness :
  exists rows sat_rows, gravity_scan (ks_tree spatial_ks) 1 42 = Ok rows /\ map value rows = [[10]; [30]; [20]] /\
    satellite_scan (ks_tree spatial_ks) 1 42 7 = Ok sat_rows /\ map value sat_rows = [[10]; [30]].
Proof.
  destruct (bucket_scans_exact (ks_tree spatial_ks) 1 42 spatial_ks_ok spatial_ks_spatial) as (rows & H1 & _ & _ & _ & H2).
  - split; vm_compute; congruence.
  - destruct (H2 7) as (sr & Hs & Hf); [split; vm_compute; congruence|]. exists rows, sr. split; [exact H1|].
    pose proof spatial_scanned as E. rewrite H1 in E. injection E as E1 E2. split; [exact E1|]. split; [exact Hs|].
    rewrite map_pair_value, Hf, <- map_pair_value. exact E2.
Defined.
