(* ===== verification/Filters.v ===== *)
(** * Filter expressions (xytalk-parser/src/ast.rs, engine/src/ops/mod.rs)

    The filters of a parsed statement, their conversion to the form that is
    evaluated, and the evaluation. A list of floats long enough to be an embedding
    becomes a packed vector. *)

From Corelib Require Import SpecFloat.
From S2P Require Import Prelude Bloom ByteOrder BTree Paths Value.

(** ** The syntax tree *)

Inductive Literal :=
  | LInt (v : Z)
  | LFloat (bits : Z)
  | LText (v : bytes)
  | LBool (v : bool)
  | LTimestamp (v : bytes)
  | LLid (v : bytes)
  | LNull
  | LList (items : list Literal)
  | LMap (pairs : list (bytes * Literal))
  | LParam (name : bytes).

(** The operators are those of the core, one for one ([convert_filter_op]). *)
Record Filter := mkFilter { f_field : bytes; f_op : FilterOp; f_value : Literal }.

Inductive FilterExpr :=
  | Condition (f : Filter)
  | And (exprs : list FilterExpr)
  | Or (exprs : list FilterExpr)
  | Not (e : FilterExpr).

Definition from_filters (filters : list Filter) : FilterExpr :=
  match filters with
  | [f] => Condition f
  | _ => And (Condition <$> filters)
  end.

(** [as_flat_and]: the conditions, if there is no [Or] and no [Not]. *)
Fixpoint as_flat_and (e : FilterExpr) : option (list Filter) :=
  match e with
  | Condition f => Some [f]
  | And exprs =>
    (fix go (l : list FilterExpr) : option (list Filter) :=
       match l with
       | [] => Some []
       | e :: l' => match as_flat_and e with
                    | Some fs => match go l' with Some gs => Some (fs ++ gs) | None => None end
                    | None => None
                    end
       end) exprs
  | Or _ | Not _ => None
  end.

(** ** Literals as values *)

Definition VECTOR_F32_MIN_DIMS : nat := 64.

(** [f as f32] *)
Definition f64_as_f32 (bits : Z) : Z :=
  match f64_from_bits bits with
  | S754_zero s => if s then 2 ^ 31 else 0
  | S754_infinity s => (if s then 2 ^ 31 else 0) + 255 * 2 ^ 23
  | S754_nan => 255 * 2 ^ 23 + 2 ^ 22
  | S754_finite s m e =>
    match binary_normalize 24 128 (if s then Zneg m else Zpos m) e s with
    | S754_zero s => if s then 2 ^ 31 else 0
    | S754_infinity s => (if s then 2 ^ 31 else 0) + 255 * 2 ^ 23
    | S754_nan => 255 * 2 ^ 23 + 2 ^ 22
    | S754_finite s m e =>
      (if s then 2 ^ 31 else 0) + (if Zpos m <? 2 ^ 23 then Zpos m else (e + 149 + 1) * 2 ^ 23 + (Zpos m - 2 ^ 23))
    end
  end.

(** [s.parse::<i64>()]: a sign, digits, no overflow. *)
Definition parse_i64 (s : bytes) : option Z :=
  match s with
  | [] => None
  | c :: s' =>
    if c =? 45 then
      match s' with
      | [] => None
      | _ => match parse_digits 0 s' with Some n => if n <=? 2 ^ 63 then Some (- n) else None | None => None end
      end
    else match parse_u64 s with Some n => if n <? 2 ^ 63 then Some n else None | None => None end
  end.

(** [s.split(['-', 'T', ':'])] *)
Fixpoint split_date (s : bytes) : list bytes :=
  match s with
  | [] => [[]]
  | c :: s' =>
    if (c =? 45) || (c =? 84) || (c =? 58) then [] :: split_date s'
    else match split_date s' with p :: ps => (c :: p) :: ps | [] => [[c]] end
  end.

(** Signed machine integers: the value modulo [2^w], from [-2^(w-1)] on. *)
Definition swrap (w z : Z) : Z := (z + 2 ^ (w - 1)) mod 2 ^ w - 2 ^ (w - 1).

(** [parse_timestamp_micros]: months of thirty days; the arithmetic wraps. *)
Definition parse_timestamp_micros (s : bytes) : Z :=
  let parts := split_date s in
  if (blen parts <? 3) then 0
  else
    let part (i : nat) (d : Z) := default d (parts !! i ≫= parse_i64) in
    let year := part 0%nat 2026 in
    let month := part 1%nat 1 in
    let day := part 2%nat 1 in
    let hour := part 3%nat 0 in
    let min := part 4%nat 0 in
    let sec := part 5%nat 0 in
    let days := (year - 1970) * 365 + Z.quot (swrap 64 (year - 1969)) 4 + (month - 1) * 30 + day in
    swrap 64 ((days * 86400 + hour * 3600 + min * 60 + sec) * 1000000).

Definition is_float (l : Literal) : bool := match l with LFloat _ => true | _ => false end.

(** The values of the items, if every item has one. *)
Fixpoint collect_some {A} (l : list (option A)) : option (list A) :=
  match l with
  | [] => Some []
  | Some a :: l' => match collect_some l' with Some r => Some (a :: r) | None => None end
  | None :: _ => None
  end.

(** [literal_to_value] and [list_literal_to_value]; [None] is the panic on a
    parameter that was never bound. *)
Fixpoint literal_to_value (lit : Literal) : option Value :=
  match lit with
  | LInt v => Some (Int v)
  | LFloat v => Some (Float v)
  | LText v => Some (Text v)
  | LBool v => Some (Bool v)
  | LTimestamp s => Some (Timestamp (parse_timestamp_micros s))
  | LLid s => Some (Text s)
  | LNull => Some Null
  | LList items =>
    if forallb is_float items && (VECTOR_F32_MIN_DIMS <=? length items)%nat
    then Some (Vector (map (fun it => match it with LFloat f => f64_as_f32 f | _ => 0 end) items))
    else match collect_some (map literal_to_value items) with Some vs => Some (List vs) | None => None end
  | LMap pairs =>
    match collect_some (map (fun kv => match literal_to_value (snd kv) with Some v => Some (fst kv, v) | None => None end) pairs) with
    | Some kvs => Some (Map (bt_collect kvs))
    | None => None
    end
  | LParam _ => None
  end.

Definition convert_filter (f : Filter) : option (bytes * FilterOp * Value) :=
  match literal_to_value (f_value f) with Some v => Some (f_field f, f_op f, v) | None => None end.

Definition convert_filters (filters : list Filter) : option (list (bytes * FilterOp * Value)) :=
  collect_some (map convert_filter filters).

Definition filter_expr_to_flat (expr : option FilterExpr) : list Filter :=
  match expr with
  | None => []
  | Some e => match as_flat_and e with Some filters => filters | None => [] end
  end.

(** ** Evaluation *)

Inductive CoreFilterExpr :=
  | CLeaf (t : bytes * FilterOp * Value)
  | CAnd (exprs : list CoreFilterExpr)
  | COr (exprs : list CoreFilterExpr)
  | CNot (e : CoreFilterExpr).

Fixpoint to_core_expr (expr : FilterExpr) : option CoreFilterExpr :=
  match expr with
  | Condition f => match convert_filter f with Some t => Some (CLeaf t) | None => None end
  | And exprs => match collect_some (map to_core_expr exprs) with Some l => Some (CAnd l) | None => None end
  | Or exprs => match collect_some (map to_core_expr exprs) with Some l => Some (COr l) | None => None end
  | Not e => match to_core_expr e with Some c => Some (CNot c) | None => None end
  end.

Fixpoint matches_core_expr (fields : BTreeMap bytes Value) (expr : CoreFilterExpr) : bool :=
  match expr with
  | CLeaf t => matches_filters fields [t]
  | CAnd exprs => forallb (matches_core_expr fields) exprs
  | COr exprs => existsb (matches_core_expr fields) exprs
  | CNot e => negb (matches_core_expr fields e)
  end.

Definition matches_filter_expr (fields : BTreeMap bytes Value) (expr : FilterExpr) : option bool :=
  matches_core_expr fields <$> to_core_expr expr.

Definition record_matches_opt_expr (fields : BTreeMap bytes Value) (expr : option FilterExpr) : option bool :=
  match expr with None => Some true | Some e => matches_filter_expr fields e end.

(** ** Lemmas *)

(** Induction through the lists of operands. *)
Lemma FilterExpr_nested (P : FilterExpr -> Prop) :
  (forall f, P (Condition f)) -> (forall l, Forall P l -> P (And l)) -> (forall l, Forall P l -> P (Or l)) ->
  (forall e, P e -> P (Not e)) -> forall e, P e.
Proof.
  intros Hc Ha Ho Hn. fix IH 1. intros [f|l|l|e]; [apply Hc|apply Ha|apply Ho|apply Hn, IH]; induction l; constructor; auto.
Qed.

Lemma collect_some_app {A} (a b : list (option A)) r :
  collect_some (a ++ b) = Some r -> exists ra rb, collect_some a = Some ra /\ collect_some b = Some rb /\ r = ra ++ rb.
Proof.
  revert r; induction a as [|[x|] a IH]; intros r H; simpl in *; [eauto| |done].
  destruct (collect_some (a ++ b)) as [r'|] eqn:E; [|done]. destruct (IH _ eq_refl) as (ra & rb & -> & -> & ->).
  simplify_eq. by exists (x :: ra), rb.
Qed.

Lemma matches_filters_app fields a b : matches_filters fields (a ++ b) = matches_filters fields a && matches_filters fields b.
Proof. apply forallb_app. Qed.

(** A conjunction without [Or] and [Not], flattened, accepts the same records. *)
Lemma flat_and_sound fields e fs c cs :
  as_flat_and e = Some fs -> to_core_expr e = Some c -> convert_filters fs = Some cs ->
  matches_core_expr fields c = matches_filters fields cs.
Proof.
  revert fs c cs. induction e as [f|l IH|l _|e _] using FilterExpr_nested; intros fs c cs Hf Hc Hcs; [| |done..].
  - injection Hf as <-. cbn in Hc, Hcs. destruct (convert_filter f) as [t|]; [|done]. by simplify_eq.
  - cbn [to_core_expr] in Hc. destruct (collect_some (map to_core_expr l)) as [cl|] eqn:El; [|done]. injection Hc as <-.
    cbn [as_flat_and matches_core_expr] in *. revert fs cl cs Hf El Hcs. induction IH as [|e l He _ IHl]; intros fs cl cs Hf El Hcs.
    + cbn in Hf, El, Hcs. injection Hf as <-. injection El as <-. by injection Hcs as <-.
    + destruct (as_flat_and e) as [fe|] eqn:Ee; [|done]. match type of Hf with match ?x with _ => _ end = _ => destruct x as [gs|] eqn:Eg; [|done] end.
      injection Hf as <-. cbn [map collect_some] in El. destruct (to_core_expr e) as [ce|] eqn:Ec; [|done].
      destruct (collect_some (map to_core_expr l)) as [cl'|] eqn:El'; [|done]. injection El as <-.
      unfold convert_filters in Hcs. rewrite map_app in Hcs. apply collect_some_app in Hcs as (ca & cb & Ha & Hb & ->).
      rewrite matches_filters_app. cbn [forallb]. f_equal; [by eapply He|by eapply IHl].
Qed.

Example timestamp_ex : parse_timestamp_micros (str "1970-01-01") = 86400000000.
Proof. vm_compute. reflexivity. Qed.

Example f32_ex : f64_as_f32 4611686018427387904 = 1073741824 /\ f64_as_f32 (2 ^ 63) = 2 ^ 31.
Proof. vm_compute. done. Qed.
