(* ===== verification/Aggregate.v ===== *)
(** * Aggregates of a group (engine/src/aggregate_state.rs)

    The state a roll-up keeps per group, maintained record by record, and the
    signed deltas that a group on disk is kept as. Integers add up in an [i128],
    the first float turns a sum into a compensated [f64]; counters wrap as in a
    release build. *)

From Corelib Require Import SpecFloat.
From S2P Require Import Prelude Bloom ByteOrder BTree Value Filters.

Abbreviation Fields := (BTreeMap bytes Value).

(** ** Metrics *)

Definition COUNT_LABEL : bytes := str "count".

Inductive AggOp := AggCount | AggSum | AggMin | AggMax | AggAvg.

#[export] Instance AggOp_eq_dec : EqDecision AggOp.
Proof. solve_decision. Defined.

Record Metric := mkMetric {
  m_field : bytes;
  m_op : AggOp;
  m_label : bytes;
  m_filter : option FilterExpr;
  m_filter_core : option CoreFilterExpr;
}.

(** [Metric::new]; [None] is the panic of [to_core_expr]. *)
Definition Metric_new (field : bytes) (op : AggOp) (label : bytes) (filter : option FilterExpr) : option Metric :=
  match filter with
  | None => Some (mkMetric field op label None None)
  | Some e => match to_core_expr e with Some c => Some (mkMetric field op label filter (Some c)) | None => None end
  end.

Definition rides_total_count (m : Metric) : bool :=
  match m_op m with AggCount => beqb (m_label m) COUNT_LABEL | _ => false end.

Definition metric_matches (m : Metric) (record : Fields) : bool :=
  match m_filter_core m with None => true | Some core => matches_core_expr record core end.

(** ** Sums *)

Inductive SumAcc :=
  | SumInt (acc : Z)
  | SumFloat (sum comp : f64).

Definition SumAcc_default : SumAcc := SumInt 0.

Definition f64_add (x y : f64) : f64 := SFadd 53 1024 x y.
Definition f64_sub (x y : f64) : f64 := SFsub 53 1024 x y.

(** [n as f64] for a signed integer. *)
Definition int_as_f64 (n : Z) : f64 := binary_normalize 53 1024 n 0 false.

Definition neumaier_add (sum comp x : f64) : f64 * f64 :=
  let t := f64_add sum x in
  (t, if f64_geb (SFabs sum) (SFabs x) then f64_add comp (f64_add (f64_sub sum t) x)
      else f64_add comp (f64_add (f64_sub x t) sum)).

Definition SumAcc_fold (sc : f64 * f64) : SumAcc := SumFloat sc.1 sc.2.

Definition add_scaled (acc : SumAcc) (value : Value) (sign : Z) : SumAcc :=
  match value with
  | Int i =>
    let delta := i * sign in
    match acc with
    | SumInt acc => SumInt (swrap 128 (acc + delta))
    | SumFloat sum comp => SumAcc_fold (neumaier_add sum comp (int_as_f64 delta))
    end
  | Float f =>
    let delta := f64_mul (f64_from_bits f) (int_as_f64 sign) in
    match acc with
    | SumInt acc => SumAcc_fold (neumaier_add (int_as_f64 acc) f64_zero delta)
    | SumFloat sum comp => SumAcc_fold (neumaier_add sum comp delta)
    end
  | _ => acc
  end.

Definition SumAcc_merge (self other : SumAcc) : SumAcc :=
  match other with
  | SumInt b =>
    match self with
    | SumInt a => SumInt (swrap 128 (a + b))
    | SumFloat sum comp => SumAcc_fold (neumaier_add sum comp (int_as_f64 b))
    end
  | SumFloat os oc =>
    let '(sum, comp) := match self with SumInt a => (int_as_f64 a, f64_zero) | SumFloat sum comp => (sum, comp) end in
    let '(sum, comp) := neumaier_add sum comp os in
    SumFloat sum (f64_add comp oc)
  end.

Definition SumAcc_to_f64 (s : SumAcc) : f64 :=
  match s with SumInt i => int_as_f64 i | SumFloat sum comp => f64_add sum comp end.

(** [f.to_bits()] of a computed number; the bits of a NaN are the quiet ones. *)
Definition f64_to_bits (x : f64) : Z :=
  match x with
  | S754_zero s => if s then 2 ^ 63 else 0
  | S754_infinity s => (if s then 2 ^ 63 else 0) + 2047 * 2 ^ 52
  | S754_nan => 2047 * 2 ^ 52 + 2 ^ 51
  | S754_finite s m e =>
    (if s then 2 ^ 63 else 0) + (if Zpos m <? 2 ^ 52 then Zpos m else (e + 1074 + 1) * 2 ^ 52 + (Zpos m - 2 ^ 52))
  end.

(** ** Extremes *)

Inductive StoredValue :=
  | SvNull
  | SvInt (v : Z)
  | SvFloat (bits : Z)
  | SvText (v : bytes).

Definition sv_cmp (a b : StoredValue) : option comparison :=
  match a, b with
  | SvNull, SvNull => Some Eq
  | SvNull, _ => Some Lt
  | _, SvNull => Some Gt
  | SvInt a, SvInt b => Some (a ?= b)
  | SvFloat a, SvFloat b => f64_partial_cmp a b
  | SvText a, SvText b => Some (bcmp a b)
  | SvInt a, SvFloat b => SFcompare (i64_as_f64 a) (f64_from_bits b)
  | SvFloat a, SvInt b => SFcompare (f64_from_bits a) (i64_as_f64 b)
  | _, _ => None
  end.

Definition sv_ltb (a b : StoredValue) : bool := match sv_cmp a b with Some Lt => true | _ => false end.
Definition sv_gtb (a b : StoredValue) : bool := match sv_cmp a b with Some Gt => true | _ => false end.
Definition sv_is_null (a : StoredValue) : bool := match a with SvNull => true | _ => false end.

Definition StoredValue_from_value (v : Value) : StoredValue :=
  match v with
  | Int i => SvInt i
  | Float f => SvFloat f
  | Text s => SvText s
  | _ => SvNull
  end.

Definition StoredValue_to_value (v : StoredValue) : Value :=
  match v with
  | SvInt i => Int i
  | SvFloat f => Float f
  | SvText s => Text s
  | SvNull => Null
  end.

(** ** The state of a group *)

Inductive AggValue :=
  | AvCount (c : Z)
  | AvSum (s : SumAcc)
  | AvMin (v : StoredValue)
  | AvMax (v : StoredValue)
  | AvAvg (sum : SumAcc) (count : Z).

Definition is_numeric (v : Value) : bool := match v with Int _ | Float _ => true | _ => false end.

Definition saturating_sub64 (a b : Z) : Z := Z.max 0 (a - b).

Definition AggValue_new (op : AggOp) : AggValue :=
  match op with
  | AggCount => AvCount 0
  | AggSum => AvSum SumAcc_default
  | AggMin => AvMin SvNull
  | AggMax => AvMax SvNull
  | AggAvg => AvAvg SumAcc_default 0
  end.

Definition AggValue_add (self : AggValue) (value : Value) : AggValue :=
  match self with
  | AvCount c => AvCount (wrap64 (c + 1))
  | AvSum s => AvSum (add_scaled s value 1)
  | AvMin current =>
    let sv := StoredValue_from_value value in
    if sv_is_null current || sv_ltb sv current then AvMin sv else self
  | AvMax current =>
    let sv := StoredValue_from_value value in
    if sv_is_null current || sv_gtb sv current then AvMax sv else self
  | AvAvg sum count => if is_numeric value then AvAvg (add_scaled sum value 1) (wrap64 (count + 1)) else self
  end.

(** The flag says that an extreme may be stale. *)
Definition AggValue_subtract (self : AggValue) (value : Value) : AggValue * bool :=
  match self with
  | AvCount c => (AvCount (saturating_sub64 c 1), false)
  | AvSum s => (AvSum (add_scaled s value (-1)), false)
  | AvAvg sum count =>
    (if is_numeric value then AvAvg (add_scaled sum value (-1)) (saturating_sub64 count 1) else self, false)
  | AvMin _ | AvMax _ => (self, true)
  end.

(** The smaller, resp. larger, of two candidates; a null is no candidate. *)
Definition min_candidate (a b : StoredValue) : StoredValue :=
  if negb (sv_is_null b) && (sv_is_null a || sv_ltb b a) then b else a.
Definition max_candidate (a b : StoredValue) : StoredValue :=
  if negb (sv_is_null b) && (sv_is_null a || sv_gtb b a) then b else a.

Definition AggValue_merge (self other : AggValue) : AggValue :=
  match self, other with
  | AvCount a, AvCount b => AvCount (wrap64 (a + b))
  | AvSum a, AvSum b => AvSum (SumAcc_merge a b)
  | AvMin a, AvMin b => AvMin (min_candidate a b)
  | AvMax a, AvMax b => AvMax (max_candidate a b)
  | AvAvg s c, AvAvg os oc => AvAvg (SumAcc_merge s os) (wrap64 (c + oc))
  | _, _ => self
  end.

Definition AggValue_to_value (v : AggValue) : Value :=
  match v with
  | AvCount c => Int (swrap 64 c)
  | AvSum s => Float (f64_to_bits (SumAcc_to_f64 s))
  | AvMin v | AvMax v => StoredValue_to_value v
  | AvAvg sum count => if count =? 0 then Null else Float (f64_to_bits (f64_div (SumAcc_to_f64 sum) (int_as_f64 count)))
  end.

Record AggregateState := mkAgg {
  ag_count : Z;
  ag_values : BTreeMap bytes AggValue;
  ag_dirty : bool;
}.

Definition AggregateState_default : AggregateState := mkAgg 0 [] false.

(** One metric of [AggregateState::add]. *)
Definition add_metric (record : Fields) (st : AggregateState) (m : Metric) : AggregateState :=
  if rides_total_count m || negb (metric_matches m record) then st
  else match m_op m with
       | AggCount =>
         let v := default (AvCount 0) (bt_get (m_label m) (ag_values st)) in
         mkAgg (ag_count st) (bt_insert (m_label m) (match v with AvCount c => AvCount (wrap64 (c + 1)) | _ => v end) (ag_values st)) (ag_dirty st)
       | _ =>
         match bt_get (m_field m) record with
         | Some value =>
           let v := default (AggValue_new (m_op m)) (bt_get (m_label m) (ag_values st)) in
           mkAgg (ag_count st) (bt_insert (m_label m) (AggValue_add v value) (ag_values st)) (ag_dirty st)
         | None => st
         end
       end.

Definition AggregateState_add (st : AggregateState) (record : Fields) (metrics : list Metric) : AggregateState :=
  foldl (add_metric record) (mkAgg (wrap64 (ag_count st + 1)) (ag_values st) (ag_dirty st)) metrics.

(** One metric of [AggregateState::subtract]. *)
Definition subtract_metric (record : Fields) (st : AggregateState) (m : Metric) : AggregateState :=
  if rides_total_count m || negb (metric_matches m record) then st
  else match m_op m with
       | AggCount =>
         match bt_get (m_label m) (ag_values st) with
         | Some (AvCount c) => mkAgg (ag_count st) (bt_insert (m_label m) (AvCount (saturating_sub64 c 1)) (ag_values st)) (ag_dirty st)
         | _ => st
         end
       | _ =>
         match bt_get (m_field m) record with
         | Some value =>
           match bt_get (m_label m) (ag_values st) with
           | Some entry =>
             let '(entry, dirty) := AggValue_subtract entry value in
             mkAgg (ag_count st) (bt_insert (m_label m) entry (ag_values st)) (ag_dirty st || dirty)
           | None => st
           end
         | None => st
         end
       end.

Definition AggregateState_subtract (st : AggregateState) (record : Fields) (metrics : list Metric) : AggregateState :=
  foldl (subtract_metric record) (mkAgg (saturating_sub64 (ag_count st) 1) (ag_values st) (ag_dirty st)) metrics.

Definition to_result (st : AggregateState) : list (bytes * Value) :=
  (COUNT_LABEL, Int (swrap 64 (ag_count st))) :: ((fun kv => (kv.1, AggValue_to_value kv.2)) <$> ag_values st).

Definition AggregateState_reset (st : AggregateState) : AggregateState := AggregateState_default.

(** The fold of one map of values into another: a new label is taken over, a known
    one merged. *)
Definition merge_values_with {V} (f : V -> V -> V) (self other : BTreeMap bytes V) : BTreeMap bytes V :=
  foldl (fun values kv => bt_insert kv.1 (match bt_get kv.1 values with Some v => f v kv.2 | None => kv.2 end) values) self other.

Definition AggregateState_merge (self other : AggregateState) : AggregateState :=
  mkAgg (wrap64 (ag_count self + ag_count other)) (merge_values_with AggValue_merge (ag_values self) (ag_values other))
    (ag_dirty self || ag_dirty other).

(** ** Deltas *)

Inductive DeltaValue :=
  | DvCount (c : Z)
  | DvSum (s : SumAcc)
  | DvMin (v : StoredValue)
  | DvMax (v : StoredValue)
  | DvAvg (sum : SumAcc) (count : Z).

Record RollupDelta := mkDelta {
  rd_count : Z;
  rd_values : BTreeMap bytes DeltaValue;
  rd_dirty : bool;
}.

Definition RollupDelta_default : RollupDelta := mkDelta 0 [] false.

Definition DeltaValue_merge (self other : DeltaValue) : DeltaValue :=
  match self, other with
  | DvCount a, DvCount b => DvCount (swrap 64 (a + b))
  | DvSum a, DvSum b => DvSum (SumAcc_merge a b)
  | DvMin a, DvMin b => DvMin (min_candidate a b)
  | DvMax a, DvMax b => DvMax (max_candidate a b)
  | DvAvg s c, DvAvg os oc => DvAvg (SumAcc_merge s os) (swrap 64 (c + oc))
  | _, _ => self
  end.

Definition RollupDelta_merge (self other : RollupDelta) : RollupDelta :=
  mkDelta (swrap 64 (rd_count self + rd_count other)) (merge_values_with DeltaValue_merge (rd_values self) (rd_values other))
    (rd_dirty self || rd_dirty other).

(** The contribution of a value to a metric, and whether it makes the group
    dirty. *)
Definition delta_value (op : AggOp) (value : Value) (sign : Z) : DeltaValue * bool :=
  match op with
  | AggCount => (DvCount sign, false)
  | AggSum => (DvSum (add_scaled SumAcc_default value sign), false)
  | AggMin => if sign <? 0 then (DvMin SvNull, true) else (DvMin (StoredValue_from_value value), false)
  | AggMax => if sign <? 0 then (DvMax SvNull, true) else (DvMax (StoredValue_from_value value), false)
  | AggAvg => (DvAvg (add_scaled SumAcc_default value sign) sign, false)
  end.

Definition for_record_metric (record : Fields) (sign : Z) (d : RollupDelta) (m : Metric) : RollupDelta :=
  if rides_total_count m || negb (metric_matches m record) then d
  else match m_op m with
       | AggCount => mkDelta (rd_count d) (bt_insert (m_label m) (DvCount sign) (rd_values d)) (rd_dirty d)
       | _ =>
         match bt_get (m_field m) record with
         | None => d
         | Some value =>
           let '(dv, dirty) := delta_value (m_op m) value sign in
           mkDelta (rd_count d) (bt_insert (m_label m) dv (rd_values d)) (rd_dirty d || dirty)
         end
       end.

Definition for_record (record : Fields) (metrics : list Metric) (sign : Z) : RollupDelta :=
  foldl (for_record_metric record sign) (mkDelta sign [] false) metrics.

Definition delta_of_agg (av : AggValue) : DeltaValue :=
  match av with
  | AvCount c => DvCount (swrap 64 c)
  | AvSum s => DvSum s
  | AvMin v => DvMin v
  | AvMax v => DvMax v
  | AvAvg sum count => DvAvg sum (swrap 64 count)
  end.

Definition from_aggregate_state (st : AggregateState) : RollupDelta :=
  mkDelta (swrap 64 (ag_count st)) ((fun kv => (kv.1, delta_of_agg kv.2)) <$> ag_values st) (ag_dirty st).

Definition agg_of_delta (dv : DeltaValue) : AggValue :=
  match dv with
  | DvCount c => AvCount (Z.max c 0)
  | DvSum s => AvSum s
  | DvMin v => AvMin v
  | DvMax v => AvMax v
  | DvAvg sum count => AvAvg sum (Z.max count 0)
  end.

Definition into_aggregate_state (d : RollupDelta) : AggregateState :=
  mkAgg (Z.max (rd_count d) 0) ((fun kv => (kv.1, agg_of_delta kv.2)) <$> rd_values d) (rd_dirty d).

(** * Lemmas *)

(** ** Signed wrap-around *)

Lemma swrap_small w z : 0 < w -> - 2 ^ (w - 1) <= z < 2 ^ (w - 1) -> swrap w z = z.
Proof.
  intros Hw Hz. unfold swrap. assert (2 ^ w = 2 * 2 ^ (w - 1)) as E by (rewrite <- Z.pow_succ_r by lia; f_equal; lia).
  rewrite Z.mod_small; lia.
Qed.

Lemma swrap_range w z : 0 < w -> - 2 ^ (w - 1) <= swrap w z < 2 ^ (w - 1).
Proof.
  intros Hw. unfold swrap. assert (2 ^ w = 2 * 2 ^ (w - 1)) as E by (rewrite <- Z.pow_succ_r by lia; f_equal; lia).
  pose proof (Z.pow_pos_nonneg 2 (w - 1)). pose proof (Z.mod_pos_bound (z + 2 ^ (w - 1)) (2 ^ w)). lia.
Qed.

Lemma swrap_add_l w a b : 0 < w -> swrap w (swrap w a + b) = swrap w (a + b).
Proof.
  intros Hw. unfold swrap. f_equal. pose proof (Z.pow_pos_nonneg 2 w ltac:(lia) ltac:(lia)).
  replace ((a + 2 ^ (w - 1)) mod 2 ^ w - 2 ^ (w - 1) + b + 2 ^ (w - 1)) with ((a + 2 ^ (w - 1)) mod 2 ^ w + b) by lia.
  rewrite Zplus_mod_idemp_l. f_equal. lia.
Qed.

Lemma swrap_add_r w a b : 0 < w -> swrap w (a + swrap w b) = swrap w (a + b).
Proof. intros. by rewrite Z.add_comm, swrap_add_l, Z.add_comm. Qed.

(** [x as i64] of a [u64] that wrapped. *)
Lemma swrap_wrap z : swrap 64 (wrap64 z) = swrap 64 z.
Proof. unfold swrap, wrap. f_equal. by rewrite Zplus_mod_idemp_l. Qed.

(** ** Merging maps of values *)

Definition merge_option {V} (f : V -> V -> V) (a b : option V) : option V :=
  match a, b with
  | Some x, Some y => Some (f x y)
  | Some x, None => Some x
  | None, _ => b
  end.

Lemma merge_values_get {V} (f : V -> V -> V) a b k :
  bt_sorted b -> bt_get k (merge_values_with f a b) = merge_option f (bt_get k a) (bt_get k b).
Proof.
  unfold merge_values_with. revert a. induction b as [|[k1 v1] b IH]; intros a Hs; [cbn; by destruct (bt_get k a)|].
  apply StronglySorted_inv in Hs as [Hs Hk]. cbn [foldl fst snd bt_get]. rewrite IH by done. rewrite bt_get_insert.
  destruct (ocmp k k1) eqn:E; [|done|done]. apply ocmp_eq in E as ->.
  rewrite (bt_get_below k1 b) by (eapply Forall_impl; [exact Hk|]; intros kv H; exact H). by destruct (bt_get k1 a).
Qed.

Lemma merge_values_sorted {V} (f : V -> V -> V) a b : bt_sorted a -> bt_sorted (merge_values_with f a b).
Proof.
  unfold merge_values_with. revert a. induction b as [|[k1 v1] b IH]; intros a Hs; [done|]. cbn [foldl]. by apply IH, bt_insert_sorted.
Qed.

Lemma bt_get_map {V W} (f : V -> W) k (m : BTreeMap bytes V) :
  bt_get k ((fun kv => (kv.1, f kv.2)) <$> m) = f <$> bt_get k m.
Proof. induction m as [|[k1 v1] m IH]; cbn; [done|]. rewrite IH. by destruct (bcmp k k1). Qed.

Lemma bt_sorted_map {V W} (f : V -> W) (m : BTreeMap bytes V) :
  bt_sorted m -> bt_sorted ((fun kv => (kv.1, f kv.2)) <$> m).
Proof.
  induction 1 as [|[k v] m _ IH Hk]; cbn; constructor; [done|]. apply Forall_fmap. eapply Forall_impl; [exact Hk|].
  by intros [k' v'] H.
Qed.

(** ** Contributions

    What the records of a history, each with its sign, contribute to a metric: the
    value of the field of those that match ([Null] for a counter). *)

Definition contrib (m : Metric) (rs : Fields * Z) : option (Value * Z) :=
  if rides_total_count m || negb (metric_matches m rs.1) then None
  else match m_op m with
       | AggCount => Some (Null, rs.2)
       | _ => match bt_get (m_field m) rs.1 with Some v => Some (v, rs.2) | None => None end
       end.

Definition contribs (m : Metric) (H : list (Fields * Z)) : list (Value * Z) := omap (contrib m) H.

Definition sum_signs (cs : list (Value * Z)) : Z := foldr (fun c n => c.2 + n) 0 cs.

Definition int_of (v : Value) : Z := match v with Int i => i | _ => 0 end.
Definition sum_ints (cs : list (Value * Z)) : Z := foldr (fun c n => int_of c.1 * c.2 + n) 0 cs.

(** The candidates for an extreme: the values that were added. *)
Definition candidates (cs : list (Value * Z)) : list StoredValue :=
  omap (fun c => if c.2 <? 0 then None else Some (StoredValue_from_value c.1)) cs.

(** The delta that stands for a list of contributions. *)
Definition expected (op : AggOp) (cs : list (Value * Z)) : DeltaValue :=
  match op with
  | AggCount => DvCount (swrap 64 (sum_signs cs))
  | AggSum => DvSum (SumInt (swrap 128 (sum_ints cs)))
  | AggMin => DvMin (foldl min_candidate SvNull (candidates cs))
  | AggMax => DvMax (foldl max_candidate SvNull (candidates cs))
  | AggAvg => DvAvg (SumInt (swrap 128 (sum_ints cs))) (swrap 64 (sum_signs cs))
  end.

Definition expected_option (op : AggOp) (cs : list (Value * Z)) : option DeltaValue :=
  match cs with [] => None | _ => Some (expected op cs) end.

(** Values a metric is exact on: no floats under a sum, integers under an average. *)
Definition op_admits (op : AggOp) (v : Value) : bool :=
  match op with
  | AggSum => match v with Float _ => false | _ => true end
  | AggAvg => match v with Int _ => true | _ => false end
  | _ => true
  end.

Definition is_sign (s : Z) : Prop := s = 1 \/ s = -1.

Lemma contribs_snoc m H rs :
  contribs m (H ++ [rs]) = contribs m H ++ option_list (contrib m rs).
Proof. unfold contribs. rewrite omap_app. simpl. by destruct (contrib m rs). Qed.

Lemma sum_signs_app a b : sum_signs (a ++ b) = sum_signs a + sum_signs b.
Proof. unfold sum_signs. induction a as [|c a IH]; cbn [foldr app]; lia. Qed.

Lemma sum_ints_app a b : sum_ints (a ++ b) = sum_ints a + sum_ints b.
Proof. unfold sum_ints. induction a as [|c a IH]; cbn [foldr app]; lia. Qed.

Lemma candidates_app a b : candidates (a ++ b) = candidates a ++ candidates b.
Proof. apply omap_app. Qed.

Lemma min_candidate_null a : min_candidate a SvNull = a.
Proof. done. Qed.
Lemma max_candidate_null a : max_candidate a SvNull = a.
Proof. done. Qed.

Lemma min_null_l b : min_candidate SvNull b = b.
Proof. by destruct b. Qed.
Lemma max_null_l b : max_candidate SvNull b = b.
Proof. by destruct b. Qed.

Lemma add_scaled_exact acc v s :
  (match v with Float _ => false | _ => true end) = true ->
  add_scaled (SumInt (swrap 128 acc)) v s = SumInt (swrap 128 (acc + int_of v * s)).
Proof.
  destruct v; intros Hv; try done; cbn [add_scaled int_of]; rewrite ?Z.mul_0_l, ?Z.add_0_r; try done.
  by rewrite swrap_add_l by lia.
Qed.

(** One more contribution, merged into what stands for the ones before. *)
Lemma expected_snoc op cs v s :
  op_admits op v = true -> is_sign s ->
  merge_option DeltaValue_merge (expected_option op cs) (Some (delta_value op v s).1) = Some (expected op (cs ++ [(v, s)])).
Proof.
  intros Ha Hs.
  assert (forall x, swrap 128 (swrap 128 x) = swrap 128 x) as W128 by (intros; apply swrap_small, swrap_range; lia).
  assert (add_scaled SumAcc_default v s = SumInt (swrap 128 (int_of v * s)) \/ (op <> AggSum /\ op <> AggAvg)) as Hsum.
  { destruct op; [by right|left|by right|by right|left]; change SumAcc_default with (SumInt (swrap 128 0));
      rewrite add_scaled_exact; try done; by destruct v. }
  assert (swrap 64 s = s) as Hs64 by (destruct Hs as [-> | ->]; reflexivity).
  assert (candidates [(v, s)] = if s <? 0 then [] else [StoredValue_from_value v]) as Hc by (cbn; by destruct (s <? 0)).
  destruct cs as [|c cs].
  - cbn [expected_option merge_option app]. f_equal. unfold expected. rewrite Hc. cbn [sum_signs sum_ints foldr fst snd].
    destruct op; cbn [delta_value fst]; rewrite ?Z.add_0_r, ?Hs64; try done;
      try (destruct Hsum as [->|[? ?]]; done); destruct (s <? 0); cbn; by rewrite ?min_null_l, ?max_null_l.
  - cbn [expected_option merge_option]. f_equal. unfold expected. set (l := c :: cs). clearbody l.
    rewrite sum_signs_app, sum_ints_app, candidates_app, Hc, !foldl_app. cbn [sum_signs sum_ints foldr fst snd]. rewrite !Z.add_0_r.
    destruct op; cbn [delta_value fst DeltaValue_merge]; rewrite ?swrap_add_l by lia; try done.
    + destruct Hsum as [->|[? ?]]; [|done]. cbn [SumAcc_merge]. by rewrite swrap_add_l, swrap_add_r by lia.
    + destruct (s <? 0); cbn [foldl fst DeltaValue_merge]; done.
    + destruct (s <? 0); cbn [foldl fst DeltaValue_merge]; done.
    + destruct Hsum as [->|[? ?]]; [|done]. cbn [SumAcc_merge]. by rewrite swrap_add_l, swrap_add_r by lia.
Qed.

(** ** The delta of a record *)

(** The result columns have names of their own. *)
Definition labels_distinct (metrics : list Metric) : Prop :=
  NoDup (m_label <$> filter (fun m => rides_total_count m = false) metrics).

Definition delta_metric (d : RollupDelta) (m : Metric) (c : option (Value * Z)) : RollupDelta :=
  match c with
  | None => d
  | Some (v, s) =>
    mkDelta (rd_count d) (bt_insert (m_label m) (delta_value (m_op m) v s).1 (rd_values d)) (rd_dirty d || (delta_value (m_op m) v s).2)
  end.

Lemma for_record_metric_contrib r s d m :
  for_record_metric r s d m = delta_metric d m (contrib m (r, s)).
Proof.
  unfold for_record_metric, contrib, delta_metric. cbn [fst snd].
  destruct (rides_total_count m || negb (metric_matches m r)); [done|].
  destruct (m_op m) eqn:E; cbn [delta_value fst snd]; [by rewrite orb_false_r|..]; destruct (bt_get (m_field m) r) as [v|]; try done; by case_match.
Qed.

Lemma contrib_rides m rs : rides_total_count m = true -> contrib m rs = None.
Proof. intros H. unfold contrib. by rewrite H. Qed.

Definition op_dirty (op : AggOp) (c : Value * Z) : bool := (delta_value op c.1 c.2).2.

(** What the loop over the metrics leaves under each label, and the flag. *)
Lemma for_record_spec r s metrics :
  let d := for_record r metrics s in
  rd_count d = s /\ bt_sorted (rd_values d) /\
  rd_dirty d = existsb (fun m => match contrib m (r, s) with Some c => op_dirty (m_op m) c | None => false end) metrics /\
  (labels_distinct metrics -> forall m, m ∈ metrics -> rides_total_count m = false ->
    bt_get (m_label m) (rd_values d) = (fun c => (delta_value (m_op m) c.1 c.2).1) <$> contrib m (r, s)) /\
  (forall k, (forall m, m ∈ metrics -> rides_total_count m = false -> m_label m <> k) -> bt_get k (rd_values d) = None).
Proof.
  cbv zeta. unfold for_record. induction metrics as [|m' metrics (H1 & H2 & H3 & H4 & H5)] using rev_ind.
  { cbn. repeat split; [constructor|intros _ m Hm; by apply elem_of_nil in Hm]. }
  rewrite !foldl_app. cbn [foldl]. set (d := foldl _ _ metrics) in *. clearbody d.
  rewrite for_record_metric_contrib. rewrite existsb_app. cbn [existsb]. rewrite orb_false_r.
  destruct (contrib m' (r, s)) as [[v s']|] eqn:Ec; cbn [delta_metric rd_count rd_values rd_dirty].
  - assert (rides_total_count m' = false) as Hr by (destruct (rides_total_count m') eqn:E; [|done]; by rewrite contrib_rides in Ec).
    split; [done|]. split; [by apply bt_insert_sorted|]. split; [by rewrite H3|]. split.
    + intros Hd m Hm Hrm. unfold labels_distinct in Hd. rewrite filter_app, fmap_app in Hd. apply NoDup_app in Hd as (Hd1 & Hd2 & _).
      rewrite filter_cons_True in Hd2 by done. rewrite bt_get_insert. apply elem_of_app in Hm as [Hm|Hm%list_elem_of_singleton].
      * destruct (ocmp (m_label m) (m_label m')) eqn:E; [|by apply H4..]. exfalso. apply ocmp_eq in E.
        apply (Hd2 (m_label m)); [apply list_elem_of_fmap_2, list_elem_of_filter; by split|]. rewrite E. left.
      * subst m. rewrite ocmp_refl, Ec. done.
    + intros k Hk. rewrite bt_get_insert. destruct (ocmp k (m_label m')) eqn:E; [exfalso; apply ocmp_eq in E as ->|apply H5..].
      * by apply (Hk m'); [apply elem_of_app; right; left|..].
      * intros m Hm. apply Hk, elem_of_app. by left.
      * intros m Hm. apply Hk, elem_of_app. by left.
  - split; [done|]. split; [done|]. split; [by rewrite H3, orb_false_r|]. split.
    + intros Hd m Hm Hrm. unfold labels_distinct in Hd. rewrite filter_app, fmap_app in Hd. apply NoDup_app in Hd as (Hd1 & Hd2 & _).
      apply elem_of_app in Hm as [Hm|Hm%list_elem_of_singleton]; [by apply H4|]. subst m. rewrite Ec. apply H5. intros m Hm Hr E.
      apply (Hd2 (m_label m)); [apply list_elem_of_fmap_2, list_elem_of_filter; by split|]. rewrite filter_cons_True by done. rewrite E. left.
    + intros k Hk. apply H5. intros m Hm. apply Hk, elem_of_app. by left.
Qed.

(** ** The fold of the deltas of a history *)

Definition deltas (metrics : list Metric) (H : list (Fields * Z)) : list RollupDelta :=
  (fun rs => for_record rs.1 metrics rs.2) <$> H.

Definition fold_deltas (ds : list RollupDelta) : RollupDelta := foldl RollupDelta_merge RollupDelta_default ds.

Definition total_sign (H : list (Fields * Z)) : Z := foldr (fun rs n => rs.2 + n) 0 H.

(** Every contribution is one its metric is exact on. *)
Definition admissible (metrics : list Metric) (H : list (Fields * Z)) : Prop :=
  Forall (fun rs => is_sign rs.2 /\
    Forall (fun m => match contrib m rs with Some c => op_admits (m_op m) c.1 = true | None => True end) metrics) H.

Lemma total_sign_app a b : total_sign (a ++ b) = total_sign a + total_sign b.
Proof. unfold total_sign. induction a as [|c a IH]; cbn [foldr app]; lia. Qed.

Lemma deltas_snoc metrics H rs : deltas metrics (H ++ [rs]) = deltas metrics H ++ [for_record rs.1 metrics rs.2].
Proof. unfold deltas. by rewrite fmap_app. Qed.

Lemma fold_deltas_snoc ds d : fold_deltas (ds ++ [d]) = RollupDelta_merge (fold_deltas ds) d.
Proof. unfold fold_deltas. by rewrite foldl_app. Qed.

Definition history_dirty (metrics : list Metric) (H : list (Fields * Z)) : bool :=
  existsb (fun rs => existsb (fun m => match contrib m rs with Some c => op_dirty (m_op m) c | None => false end) metrics) H.

Lemma fold_history metrics H :
  labels_distinct metrics -> admissible metrics H ->
  let d := fold_deltas (deltas metrics H) in
  rd_count d = swrap 64 (total_sign H) /\ bt_sorted (rd_values d) /\ rd_dirty d = history_dirty metrics H /\
  (forall m, m ∈ metrics -> rides_total_count m = false ->
    bt_get (m_label m) (rd_values d) = expected_option (m_op m) (contribs m H)) /\
  (forall k, (forall m, m ∈ metrics -> rides_total_count m = false -> m_label m <> k) -> bt_get k (rd_values d) = None).
Proof.
  intros Hd Ha. cbv zeta. induction H as [|rs H IH] using rev_ind.
  { cbn. repeat split. constructor. }
  apply Forall_app in Ha as [Ha [Hrs _]%Forall_cons]. destruct (IH Ha) as (H1 & H2 & H3 & H4 & H5). destruct Hrs as [Hsign Hadm].
  rewrite deltas_snoc, fold_deltas_snoc. set (d := fold_deltas _) in *. clearbody d.
  destruct (for_record_spec rs.1 rs.2 metrics) as (F1 & F2 & F3 & F4 & F5). set (e := for_record _ _ _) in *. clearbody e.
  cbn [RollupDelta_merge rd_count rd_values rd_dirty]. split_and!.
  - rewrite H1, F1, total_sign_app. cbn [total_sign foldr]. by rewrite swrap_add_l, Z.add_0_r by lia.
  - by apply merge_values_sorted.
  - rewrite H3, F3. unfold history_dirty. rewrite existsb_app. cbn [existsb]. rewrite orb_false_r. by destruct rs.
  - intros m Hm Hr. rewrite merge_values_get by done. rewrite (H4 m Hm Hr), (F4 Hd m Hm Hr), contribs_snoc. destruct rs as [r s]. cbn [fst snd] in *.
    rewrite Forall_forall in Hadm. specialize (Hadm m Hm). destruct (contrib m (r, s)) as [[v s']|] eqn:Ec; cbn [option_fmap option_map option_list fmap fst snd].
    + rewrite expected_snoc; [|done|].
      * by destruct (contribs m H).
      * revert Ec. unfold contrib. repeat case_match; intros; simplify_eq; done.
    + rewrite app_nil_r. by destruct (contribs m H).
  - intros k Hk. rewrite merge_values_get by done. by rewrite (H5 k Hk), (F5 k Hk).
Qed.

(** ** Histories and live records *)

(** A history in which every record that is removed is there; with the records that
    are left. *)
Inductive proper : list (Fields * Z) -> list Fields -> Prop :=
  | proper_nil : proper [] []
  | proper_add H L r : proper H L -> proper (H ++ [(r, 1)]) (r :: L)
  | proper_remove H L L' r : proper H L -> L ≡ₚ r :: L' -> proper (H ++ [(r, -1)]) L'.

(** The contributions of the records that are left. *)
Definition live_contribs (m : Metric) (L : list Fields) : list (Value * Z) := contribs m ((fun r => (r, 1)) <$> L).

Lemma contrib_sign m r s : contrib m (r, s) = (fun c => (c.1, s)) <$> contrib m (r, 1).
Proof. unfold contrib. cbn [fst snd]. by repeat case_match. Qed.

Lemma contrib_snd m r s c : contrib m (r, s) = Some c -> c.2 = s.
Proof. unfold contrib. cbn [fst snd]. by repeat case_match; intros; simplify_eq. Qed.

Lemma live_contribs_cons m r L : live_contribs m (r :: L) = option_list (contrib m (r, 1)) ++ live_contribs m L.
Proof. unfold live_contribs, contribs. cbn. by destruct (contrib m (r, 1)). Qed.

Lemma contribs_perm m H H' : H ≡ₚ H' -> contribs m H ≡ₚ contribs m H'.
Proof. unfold contribs. intros HP. by rewrite HP. Qed.

Lemma live_contribs_perm m L L' : L ≡ₚ L' -> live_contribs m L ≡ₚ live_contribs m L'.
Proof. intros HP. apply contribs_perm. by rewrite HP. Qed.

Lemma sum_ints_perm a b : a ≡ₚ b -> sum_ints a = sum_ints b.
Proof. unfold sum_ints. induction 1; cbn [foldr]; lia. Qed.

Lemma sum_signs_perm a b : a ≡ₚ b -> sum_signs a = sum_signs b.
Proof. unfold sum_signs. induction 1; cbn [foldr]; lia. Qed.

(** What was removed cancels what was added. *)
Lemma proper_sums m H L :
  proper H L -> sum_ints (contribs m H) = sum_ints (live_contribs m L) /\ sum_signs (contribs m H) = sum_signs (live_contribs m L).
Proof.
  induction 1 as [|H L r _ [IH1 IH2]|H L L' r _ [IH1 IH2] HP]; [done|..].
  - rewrite contribs_snoc, live_contribs_cons, sum_ints_app, sum_signs_app, sum_ints_app, sum_signs_app. lia.
  - rewrite (sum_ints_perm _ _ (live_contribs_perm m _ _ HP)), live_contribs_cons, sum_ints_app in IH1.
    rewrite (sum_signs_perm _ _ (live_contribs_perm m _ _ HP)), live_contribs_cons, sum_signs_app in IH2.
    rewrite contribs_snoc, sum_ints_app, sum_signs_app, contrib_sign.
    pose proof (contrib_snd m r 1) as H1.
    destruct (contrib m (r, 1)) as [[v s]|]; cbn in *; [specialize (H1 _ eq_refl)|]; cbn in *; split; nia.
Qed.

Lemma live_contribs_length m L : sum_signs (live_contribs m L) = Z.of_nat (length (live_contribs m L)).
Proof.
  assert (Forall (fun c => c.2 = 1) (live_contribs m L)) as HF.
  { unfold live_contribs, contribs. apply Forall_forall. intros c (rs & Hrs & Hc)%list_elem_of_omap.
    apply list_elem_of_fmap in Hrs as (r & -> & _). by eapply contrib_snd. }
  unfold sum_signs. induction HF as [|c l Hc _ IH]; cbn [foldr length]; lia.
Qed.

Lemma live_contribs_le m L : (length (live_contribs m L) <= length L)%nat.
Proof.
  induction L as [|r L IH]; [done|]. rewrite live_contribs_cons, length_app. cbn [length]. destruct (contrib m (r, 1)); cbn; lia.
Qed.

Lemma proper_length H L : proper H L -> total_sign H = Z.of_nat (length L) /\ (length L <= length H)%nat.
Proof.
  induction 1 as [|H L r _ [IH1 IH2]|H L L' r _ [IH1 IH2] HP]; [done|..]; rewrite total_sign_app, length_app; cbn [total_sign foldr length snd].
  - lia.
  - apply Permutation_length in HP. cbn in HP. lia.
Qed.

(** A live record was added. *)
Lemma proper_added H L r : proper H L -> r ∈ L -> (r, 1) ∈ H.
Proof.
  induction 1 as [|H L r' _ IH|H L L' r' _ IH HP]; intros Hr; [by apply elem_of_nil in Hr|..]; apply elem_of_app.
  - apply elem_of_cons in Hr as [->|Hr]; [right; left|left; auto].
  - left. apply IH. rewrite HP. by right.
Qed.

(** ** The state in memory *)

Definition apply_record (metrics : list Metric) (st : AggregateState) (rs : Fields * Z) : AggregateState :=
  if 0 <? rs.2 then AggregateState_add st rs.1 metrics else AggregateState_subtract st rs.1 metrics.

Definition state_of (metrics : list Metric) (H : list (Fields * Z)) : AggregateState :=
  foldl (apply_record metrics) AggregateState_default H.

(** What stands in memory for a list of contributions. *)
Definition ram_expected (op : AggOp) (cs : list (Value * Z)) : AggValue :=
  match op with
  | AggCount => AvCount (sum_signs cs)
  | AggSum => AvSum (SumInt (swrap 128 (sum_ints cs)))
  | AggMin => AvMin (foldl min_candidate SvNull (candidates cs))
  | AggMax => AvMax (foldl max_candidate SvNull (candidates cs))
  | AggAvg => AvAvg (SumInt (swrap 128 (sum_ints cs))) (sum_signs cs)
  end.

Definition ram_option (op : AggOp) (cs : list (Value * Z)) : option AggValue :=
  match cs with [] => None | _ => Some (ram_expected op cs) end.

(** A least value is exact in memory on values that are not stored as null. *)
Definition ram_admits (op : AggOp) (v : Value) : bool :=
  op_admits op v && match op with AggMin => negb (sv_is_null (StoredValue_from_value v)) | _ => true end.

(** The two loops as updates of a label's entry. *)
Definition add_entry (op : AggOp) (v : Value) (old : option AggValue) : option (AggValue * bool) :=
  Some (match op with
        | AggCount => match default (AvCount 0) old with AvCount c => AvCount (wrap64 (c + 1)) | v => v end
        | _ => AggValue_add (default (AggValue_new op) old) v
        end, false).

Definition subtract_entry (op : AggOp) (v : Value) (old : option AggValue) : option (AggValue * bool) :=
  match op, old with
  | AggCount, Some (AvCount c) => Some (AvCount (saturating_sub64 c 1), false)
  | AggCount, _ => None
  | _, Some entry => Some (AggValue_subtract entry v)
  | _, None => None
  end.

Definition entry_step (g : AggOp -> Value -> option AggValue -> option (AggValue * bool)) (rs : Fields * Z)
    (st : AggregateState) (m : Metric) : AggregateState :=
  match contrib m rs with
  | None => st
  | Some (v, _) =>
    match g (m_op m) v (bt_get (m_label m) (ag_values st)) with
    | None => st
    | Some (e, b) => mkAgg (ag_count st) (bt_insert (m_label m) e (ag_values st)) (ag_dirty st || b)
    end
  end.

Lemma add_metric_entry r st m : add_metric r st m = entry_step add_entry (r, 1) st m.
Proof.
  unfold add_metric, entry_step, contrib, add_entry. cbn [fst snd]. destruct (rides_total_count m || negb (metric_matches m r)); [done|].
  destruct (m_op m); rewrite ?orb_false_r; [by destruct (default (AvCount 0) (bt_get (m_label m) (ag_values st)))|..]; destruct (bt_get (m_field m) r); rewrite ?orb_false_r; done.
Qed.

Lemma subtract_metric_entry r st m : subtract_metric r st m = entry_step subtract_entry (r, -1) st m.
Proof.
  unfold subtract_metric, entry_step, contrib, subtract_entry. cbn [fst snd]. destruct (rides_total_count m || negb (metric_matches m r)); [done|].
  destruct (m_op m); [by repeat case_match; simplify_eq; rewrite ?orb_false_r|..];
    destruct (bt_get (m_field m) r); try done; destruct (bt_get (m_label m) (ag_values st)); try done; by case_match.
Qed.

(** The loop over the metrics, given what it does to each label. *)
Lemma entry_loop g rs (old new : Metric -> option AggValue) (dirty : Metric -> bool) metrics st :
  labels_distinct metrics -> bt_sorted (ag_values st) ->
  (forall m, m ∈ metrics -> rides_total_count m = false -> bt_get (m_label m) (ag_values st) = old m) ->
  (forall m v s, m ∈ metrics -> contrib m rs = Some (v, s) -> exists e, g (m_op m) v (old m) = Some (e, dirty m) /\ new m = Some e) ->
  (forall m, m ∈ metrics -> contrib m rs = None -> dirty m = false /\ new m = old m) ->
  let st' := foldl (entry_step g rs) st metrics in
  ag_count st' = ag_count st /\ bt_sorted (ag_values st') /\ ag_dirty st' = ag_dirty st || existsb dirty metrics /\
  (forall m, m ∈ metrics -> rides_total_count m = false -> bt_get (m_label m) (ag_values st') = new m) /\
  (forall k, (forall m, m ∈ metrics -> rides_total_count m = false -> m_label m <> k) -> bt_get k (ag_values st') = bt_get k (ag_values st)).
Proof.
  intros Hd Hs Hold Hg Hn. cbv zeta.
  induction metrics as [|m' metrics IH] using rev_ind.
  { cbn. rewrite orb_false_r. repeat split; [done|intros m Hm; by apply elem_of_nil in Hm]. }
  unfold labels_distinct in Hd. rewrite filter_app, fmap_app in Hd. apply NoDup_app in Hd as (Hd1 & Hd2 & _).
  assert (forall m, m ∈ metrics -> m ∈ metrics ++ [m']) as Hin by (intros; apply elem_of_app; by left).
  destruct IH as (H1 & H2 & H3 & H4 & H5); [done|auto|eauto|auto|].
  assert (m' ∈ metrics ++ [m']) as Hm' by (apply elem_of_app; right; left).
  rewrite foldl_app, existsb_app. cbn [foldl existsb]. rewrite orb_false_r. set (st1 := foldl _ _ metrics) in *. clearbody st1.
  assert (rides_total_count m' = false -> bt_get (m_label m') (ag_values st1) = old m') as Hlast.
  { intros Hr. rewrite H5; [by apply Hold|]. intros m Hm Hrm E.
    apply (Hd2 (m_label m)); [apply list_elem_of_fmap_2, list_elem_of_filter; by split|]. rewrite filter_cons_True by done. rewrite E. left. }
  unfold entry_step. destruct (contrib m' rs) as [[v s]|] eqn:Ec.
  - assert (rides_total_count m' = false) as Hr by (destruct (rides_total_count m') eqn:E; [|done]; by rewrite contrib_rides in Ec).
    destruct (Hg m' v s Hm' Ec) as (e & Eg & En). rewrite (Hlast Hr), Eg. cbn [ag_count ag_values ag_dirty].
    split; [done|]. split; [by apply bt_insert_sorted|]. split; [by rewrite H3, orb_assoc|]. split.
    + intros m Hm Hrm. rewrite bt_get_insert. apply elem_of_app in Hm as [Hm|Hm%list_elem_of_singleton]; [|by subst m; rewrite ocmp_refl].
      destruct (ocmp (m_label m) (m_label m')) eqn:E; [|by apply H4..]. exfalso. apply ocmp_eq in E.
      apply (Hd2 (m_label m)); [apply list_elem_of_fmap_2, list_elem_of_filter; by split|]. rewrite filter_cons_True by done. rewrite E. left.
    + intros k Hk. rewrite bt_get_insert. destruct (ocmp k (m_label m')) eqn:E; [|by apply H5; auto..].
      apply ocmp_eq in E as ->. by apply (Hk m') in Hr.
  - destruct (Hn m' Hm' Ec) as [-> En]. split; [done|]. split; [done|]. split; [by rewrite H3, orb_false_r|]. split.
    + intros m Hm Hrm. apply elem_of_app in Hm as [Hm|Hm%list_elem_of_singleton]; [by apply H4|]. subst m. by rewrite Hlast, En.
    + intros k Hk. by apply H5; auto.
Qed.

(** Every contribution is one that is exact in memory too. *)
Definition ram_admissible (metrics : list Metric) (H : list (Fields * Z)) : Prop :=
  Forall (fun rs => Forall (fun m => match contrib m rs with Some c => ram_admits (m_op m) c.1 = true | None => True end) metrics) H.

Lemma min_candidate_not_null cur sv :
  sv_is_null sv = false -> min_candidate cur sv = if sv_is_null cur || sv_ltb sv cur then sv else cur.
Proof. unfold min_candidate. by intros ->. Qed.

Lemma max_candidate_add cur sv :
  max_candidate cur sv = if sv_is_null cur || sv_gtb sv cur then sv else cur.
Proof. unfold max_candidate. by destruct sv, cur. Qed.

Lemma add_entry_expected op cs v :
  ram_admits op v = true -> 0 <= sum_signs cs < 2 ^ 63 ->
  add_entry op v (ram_option op cs) = Some (ram_expected op (cs ++ [(v, 1)]), false).
Proof.
  intros [Ha Hn]%andb_prop Hs. unfold add_entry, ram_expected. do 2 f_equal.
  rewrite sum_signs_app, sum_ints_app, candidates_app, !foldl_app. cbn [sum_signs sum_ints foldr fst snd]. rewrite !Z.add_0_r.
  change (candidates [(v, 1)]) with [StoredValue_from_value v]. cbn [foldl].
  assert (sum_signs cs = 0 /\ sum_ints cs = 0 /\ candidates cs = [] \/ cs <> []) as Hcs by (destruct cs; [by left|by right]).
  assert (forall e, cs <> [] -> default e (ram_option op cs) = ram_expected op cs) as Hd by (intros; by destruct cs).
  assert (forall e, cs = [] -> default e (ram_option op cs) = e) as He by (intros; by subst cs).
  assert (wrap64 (sum_signs cs + 1) = sum_signs cs + 1) as Hw by (unfold wrap; rewrite Z.mod_small; lia).
  destruct (decide (cs = [])) as [->|Hne].
  - destruct op; cbn [ram_option default AggValue_new AggValue_add sum_signs sum_ints candidates omap list_omap foldr foldl sv_is_null orb]; try done.
    + by rewrite <- (add_scaled_exact 0 v 1) by done.
    + f_equal. by destruct (StoredValue_from_value v).
    + f_equal. by destruct (StoredValue_from_value v).
    + by destruct v.
  - rewrite !Hd by done. unfold ram_expected. destruct op; cbn [AggValue_add].
    + by rewrite Hw.
    + by rewrite add_scaled_exact by done.
    + rewrite min_candidate_not_null by (by apply negb_true_iff). by case_match.
    + rewrite max_candidate_add. by case_match.
    + destruct v; try done. cbn [is_numeric]. by rewrite add_scaled_exact, Hw by done.
Qed.

Lemma subtract_entry_expected op cs v :
  ram_admits op v = true -> 0 < sum_signs cs ->
  subtract_entry op v (ram_option op cs) = Some (ram_expected op (cs ++ [(v, -1)]), op_dirty op (v, -1)).
Proof.
  intros [Ha _]%andb_prop Hs. destruct cs as [|c cs]; [done|]. cbn [ram_option]. set (l := c :: cs) in *. clearbody l.
  unfold subtract_entry, ram_expected, op_dirty.
  rewrite sum_signs_app, sum_ints_app, candidates_app, !foldl_app. cbn [sum_signs sum_ints foldr fst snd]. rewrite !Z.add_0_r.
  change (candidates [(v, -1)]) with (@nil StoredValue). cbn [foldl].
  destruct op; cbn [AggValue_subtract delta_value fst snd]; unfold saturating_sub64.
  - by replace (Z.max 0 (sum_signs l - 1)) with (sum_signs l + -1) by lia.
  - by rewrite add_scaled_exact by done.
  - done.
  - done.
  - destruct v; try done. cbn [is_numeric]. rewrite add_scaled_exact by done. by replace (Z.max 0 (sum_signs l - 1)) with (sum_signs l + -1) by lia.
Qed.

Lemma foldl_ext {A B} (f g : A -> B -> A) a l : (forall x y, f x y = g x y) -> foldl f a l = foldl g a l.
Proof. intros Hfg. revert a. induction l as [|b l IH]; intros a; cbn; [done|]. by rewrite Hfg. Qed.

(** The state in memory after a history. *)
Lemma state_history metrics H L :
  labels_distinct metrics -> ram_admissible metrics H -> proper H L -> Z.of_nat (length H) < 2 ^ 63 ->
  let st := state_of metrics H in
  ag_count st = Z.of_nat (length L) /\ bt_sorted (ag_values st) /\ ag_dirty st = history_dirty metrics H /\
  (forall m, m ∈ metrics -> rides_total_count m = false -> bt_get (m_label m) (ag_values st) = ram_option (m_op m) (contribs m H)) /\
  (forall k, (forall m, m ∈ metrics -> rides_total_count m = false -> m_label m <> k) -> bt_get k (ag_values st) = None).
Proof.
  intros Hd Ha Hp Hlen. cbv zeta. unfold state_of.
  assert (forall rs H' m, contrib m rs = None -> ram_option (m_op m) (contribs m (H' ++ [rs])) = ram_option (m_op m) (contribs m H')) as Hnone.
  { intros rs H' m E. by rewrite contribs_snoc, E, app_nil_r. }
  assert (forall rs H' m v s, contrib m rs = Some (v, s) ->
    ram_option (m_op m) (contribs m (H' ++ [rs])) = Some (ram_expected (m_op m) (contribs m H' ++ [(v, s)]))) as Hsome.
  { intros rs H' m v s E. rewrite contribs_snoc, E. cbn. by destruct (contribs m H'). }
  induction Hp as [|H L r Hp IH|H L L' r Hp IH HP].
  { cbn. repeat split. constructor. }
  - rewrite length_app in Hlen. cbn in Hlen. apply Forall_app in Ha as [Ha [Hrs _]%Forall_cons].
    destruct IH as (H1 & H2 & H3 & H4 & H5); [done|lia|]. rewrite foldl_app. cbn [foldl]. set (st := foldl _ _ H) in *. clearbody st.
    cbn [apply_record fst snd Z.ltb Z.compare]. unfold AggregateState_add. rewrite (foldl_ext _ (entry_step add_entry (r, 1)))
      by (intros; apply add_metric_entry).
    rewrite Forall_forall in Hrs.
    destruct (entry_loop add_entry (r, 1) (fun m => ram_option (m_op m) (contribs m H)) (fun m => ram_option (m_op m) (contribs m (H ++ [(r, 1)])))
      (fun m => match contrib m (r, 1) with Some c => op_dirty (m_op m) c | None => false end) metrics
      (mkAgg (wrap64 (ag_count st + 1)) (ag_values st) (ag_dirty st))) as (E1 & E2 & E3 & E4 & E5); [done|done|done|..].
    + intros m v s Hm Hc. specialize (Hrs m Hm). rewrite Hc in Hrs. exists (ram_expected (m_op m) (contribs m H ++ [(v, s)])).
      pose proof (contrib_snd _ _ _ _ Hc) as Hs1. cbn in Hs1. subst s.
      split; [|by apply Hsome]. rewrite add_entry_expected; [by rewrite Hc; unfold op_dirty; destruct (m_op m)|done|].
      rewrite (proj2 (proper_sums m H L Hp)), live_contribs_length.
      pose proof (live_contribs_le m L). pose proof (proper_length H L Hp). lia.
    + intros m Hm Hc. split; [by rewrite Hc|by apply Hnone].
    + split_and!; [|done| |done|].
      * rewrite E1. cbn [ag_count length]. rewrite H1. pose proof (proper_length H L Hp). unfold wrap. rewrite Z.mod_small; lia.
      * rewrite E3. cbn [ag_dirty]. rewrite H3. unfold history_dirty. rewrite existsb_app. cbn [existsb]. by rewrite orb_false_r.
      * intros k Hk. rewrite E5 by done. cbn [ag_values]. auto.
  - rewrite length_app in Hlen. cbn in Hlen. apply Forall_app in Ha as [Ha [Hrs _]%Forall_cons].
    destruct IH as (H1 & H2 & H3 & H4 & H5); [done|lia|]. rewrite foldl_app. cbn [foldl]. set (st := foldl _ _ H) in *. clearbody st.
    cbn [apply_record fst snd Z.ltb Z.compare]. unfold AggregateState_subtract.
    rewrite (foldl_ext _ (entry_step subtract_entry (r, -1))) by (intros; apply subtract_metric_entry).
    rewrite Forall_forall in Hrs.
    destruct (entry_loop subtract_entry (r, -1) (fun m => ram_option (m_op m) (contribs m H)) (fun m => ram_option (m_op m) (contribs m (H ++ [(r, -1)])))
      (fun m => match contrib m (r, -1) with Some c => op_dirty (m_op m) c | None => false end) metrics
      (mkAgg (saturating_sub64 (ag_count st) 1) (ag_values st) (ag_dirty st))) as (E1 & E2 & E3 & E4 & E5); [done|done|done|..].
    + intros m v s Hm Hc. specialize (Hrs m Hm). rewrite Hc in Hrs. exists (ram_expected (m_op m) (contribs m H ++ [(v, s)])).
      pose proof (contrib_snd _ _ _ _ Hc) as Hs1. cbn in Hs1. subst s.
      split; [|by apply Hsome]. rewrite subtract_entry_expected; [by rewrite Hc|done|].
      rewrite (proj2 (proper_sums m H L Hp)), live_contribs_length, (live_contribs_perm m _ _ HP), live_contribs_cons, length_app.
      rewrite contrib_sign in Hc. destruct (contrib m (r, 1)); [cbn; lia|done].
    + intros m Hm Hc. split; [by rewrite Hc|by apply Hnone].
    + split_and!; [|done| |done|].
      * rewrite E1. cbn [ag_count]. rewrite H1. apply Permutation_length in HP. cbn in HP. unfold saturating_sub64. lia.
      * rewrite E3. cbn [ag_dirty]. rewrite H3. unfold history_dirty. rewrite existsb_app. cbn [existsb]. by rewrite orb_false_r.
      * intros k Hk. rewrite E5 by done. cbn [ag_values]. auto.
Qed.

(** ** Extremes

    Within one class of values the order is total: integers, strings, or floats
    that are neither NaN nor the negative zero. *)

Inductive SvClass := IntClass | TextClass | FloatClass.

Definition in_class (c : SvClass) (v : StoredValue) : Prop :=
  match v with
  | SvNull => True
  | SvInt _ => c = IntClass
  | SvText _ => c = TextClass
  | SvFloat b => c = FloatClass /\ is_uint 64 b /\ is_nan b = false /\ b <> 2 ^ 63
  end.

Lemma float_rank a b :
  in_class FloatClass (SvFloat a) -> in_class FloatClass (SvFloat b) ->
  sv_cmp (SvFloat a) (SvFloat b) = Some (f64_order_bits a ?= f64_order_bits b).
Proof.
  intros (_ & Ha & Na & Za) (_ & Hb & Nb & Zb). cbn [sv_cmp]. rewrite f64_order by done.
  destruct (is_zero a) eqn:Ea, (is_zero b) eqn:Eb; try done. cbn [andb]. unfold is_zero, is_uint in *.
  apply Z.eqb_eq in Ea, Eb.
  assert (forall x, 0 <= x < 2 ^ 64 -> x mod 2 ^ 63 = 0 -> x <> 2 ^ 63 -> x = 0) as Hz.
  { intros x Hx Hm Hn. apply Z.div_exact in Hm; [|lia]. assert (0 <= x / 2 ^ 63 < 2) by (split; [apply Z.div_pos; lia|apply Z.div_lt_upper_bound; lia]).
    assert (x / 2 ^ 63 = 0 \/ x / 2 ^ 63 = 1) as [E|E] by lia; rewrite E in Hm; lia. }
  rewrite (Hz a), (Hz b) by done. by rewrite Z.compare_refl.
Qed.

Lemma sv_total c a b :
  in_class c a -> in_class c b -> exists o, sv_cmp a b = Some o /\ sv_cmp b a = Some (CompOpp o) /\ (o = Eq -> a = b).
Proof.
  intros Ha Hb. destruct a as [|a|a|a], b as [|b|b|b]; cbn [in_class] in Ha, Hb; destruct_and?; subst; try discriminate; try (by cbn; eexists).
  - cbn. eexists. split; [done|]. split; [by rewrite Z.compare_antisym|]. by intros ->%Z.compare_eq_iff.
  - rewrite !float_rank by done. eexists. split; [done|]. split; [by rewrite Z.compare_antisym|].
    intros E%Z.compare_eq_iff. f_equal. by apply f64_order_bits_inj.
  - cbn. eexists. split; [done|]. split; [by rewrite bcmp_opp|]. by intros ->%bcmp_eq.
Qed.

Lemma sv_trans c a b d :
  in_class c a -> in_class c b -> in_class c d -> sv_cmp a b = Some Lt -> sv_cmp b d = Some Lt -> sv_cmp a d = Some Lt.
Proof.
  intros Ha Hb Hd. destruct a as [|a|a|a], b as [|b|b|b], d as [|d|d|d]; cbn [in_class] in Ha, Hb, Hd; destruct_and?; subst; try discriminate; try done.
  - cbn. intros [= L1] [= L2]. f_equal. rewrite Z.compare_lt_iff in *. lia.
  - rewrite !float_rank by done. intros [= L1] [= L2]. f_equal. rewrite Z.compare_lt_iff in *. lia.
  - cbn. intros [= L1] [= L2]. f_equal. by eapply bcmp_trans.
Qed.

Lemma min_in_class c a b : in_class c a -> in_class c b -> in_class c (min_candidate a b).
Proof. intros. unfold min_candidate. by case_match. Qed.
Lemma max_in_class c a b : in_class c a -> in_class c b -> in_class c (max_candidate a b).
Proof. intros. unfold max_candidate. by case_match. Qed.

(** The merge of candidates under a strict total order [lt] on [P]. *)
Section pick.
Context (P : StoredValue -> Prop) (lt : StoredValue -> StoredValue -> bool).
Hypothesis lt_total : forall a b, P a -> P b -> lt a b = true \/ a = b \/ lt b a = true.
Hypothesis lt_asym : forall a b, P a -> P b -> lt a b = true -> lt b a = false.
Hypothesis lt_trans : forall a b c, P a -> P b -> P c -> lt a b = true -> lt b c = true -> lt a c = true.

Definition pick (a b : StoredValue) : StoredValue :=
  if negb (sv_is_null b) && (sv_is_null a || lt b a) then b else a.

Lemma pick_null_l b : pick SvNull b = b.
Proof. by destruct b. Qed.

Lemma pick_some a b : sv_is_null a = false -> sv_is_null b = false -> pick a b = if lt b a then b else a.
Proof. unfold pick. by intros -> ->. Qed.

Lemma pick_assoc a b c : P a -> P b -> P c -> pick (pick a b) c = pick a (pick b c).
Proof.
  intros Ha Hb Hc. destruct (sv_is_null a) eqn:Na; [destruct a; try done; by rewrite !pick_null_l|].
  destruct (sv_is_null b) eqn:Nb; [destruct b; try done; by rewrite pick_null_l|].
  destruct (sv_is_null c) eqn:Nc; [by destruct c|].
  rewrite (pick_some a b), (pick_some b c) by done. destruct (lt b a) eqn:Eba, (lt c b) eqn:Ecb; rewrite !pick_some by done; rewrite ?Eba, ?Ecb; try done.
  - by rewrite (lt_trans c b a).
  - destruct (lt c a) eqn:Eca; [|done]. exfalso.
    destruct (lt_total a b Ha Hb) as [E|[->|E]]; [|congruence..]. pose proof (lt_trans c a b Hc Ha Hb Eca E). congruence.
Qed.

Lemma pick_P a b : P a -> P b -> P (pick a b).
Proof. intros. unfold pick. by case_match. Qed.

(** The fold of a list is its extreme: null if there is nothing else, and otherwise
    an element that no other is before. *)
Definition extreme (vs : list StoredValue) (v : StoredValue) : Prop :=
  (v = SvNull -> Forall (eq SvNull) vs) /\ (v <> SvNull -> v ∈ vs /\ forall w, w ∈ vs -> w <> SvNull -> lt w v = false).

Lemma fold_pick vs : Forall P vs -> P SvNull -> P (foldl pick SvNull vs) /\ extreme vs (foldl pick SvNull vs).
Proof.
  intros Hvs Hnull. induction vs as [|x vs IH] using rev_ind.
  { split; [done|]. split; [constructor|done]. }
  apply Forall_app in Hvs as [Hvs [Hx _]%Forall_cons]. destruct (IH Hvs) as [Hp [H1 H2]]. rewrite foldl_app. cbn [foldl].
  set (v := foldl pick SvNull vs) in *. clearbody v. split; [by apply pick_P|]. rewrite Forall_forall in Hvs.
  destruct (sv_is_null x) eqn:Nx.
  { destruct x; try done. split; cbn; intros Hv; [apply Forall_app; auto|]. destruct (H2 Hv) as [Hin Hle]. split; [apply elem_of_app; by left|].
    intros w [Hw|Hw%list_elem_of_singleton]%elem_of_app; [by apply Hle|by intros ?]. }
  destruct (sv_is_null v) eqn:Nv.
  - destruct v; try done. rewrite pick_null_l. specialize (H1 eq_refl). rewrite Forall_forall in H1.
    split; [intros ->; done|]. intros _. split; [apply elem_of_app; right; left|]. intros w [Hw|Hw%list_elem_of_singleton]%elem_of_app Hn; [by apply H1 in Hw|].
    subst w. destruct (lt x x) eqn:E; [|done]. by rewrite (lt_asym x x) in E.
  - assert (v <> SvNull) as Hv by (by intros ->). assert (x <> SvNull) as Hx' by (by intros ->). destruct (H2 Hv) as [Hin Hle]. rewrite pick_some by done.
    assert (lt x x = false) as Hxx by (destruct (lt x x) eqn:E; [by rewrite (lt_asym x x) in E|done]).
    destruct (lt x v) eqn:E.
    + split; [done|]. intros _. split; [apply elem_of_app; right; left|]. intros w [Hw|Hw%list_elem_of_singleton]%elem_of_app Hn; [|by subst w].
      destruct (lt w x) eqn:Ew; [|done]. rewrite <- (Hle w Hw Hn). symmetry. eapply lt_trans; [..|exact Ew|exact E]; auto.
    + split; [done|]. intros _. split; [apply elem_of_app; by left|]. intros w [Hw|Hw%list_elem_of_singleton]%elem_of_app Hn; [by apply Hle|by subst w].
Qed.

End pick.

Section classes.
Context (c : SvClass).

Lemma ltb_total a b : in_class c a -> in_class c b -> sv_ltb a b = true \/ a = b \/ sv_ltb b a = true.
Proof. intros Ha Hb. unfold sv_ltb. destruct (sv_total c a b Ha Hb) as ([| |] & -> & -> & Q); auto. Qed.
Lemma ltb_asym a b : in_class c a -> in_class c b -> sv_ltb a b = true -> sv_ltb b a = false.
Proof. intros Ha Hb. unfold sv_ltb. destruct (sv_total c a b Ha Hb) as ([| |] & -> & -> & Q); auto. Qed.
Lemma ltb_trans a b d : in_class c a -> in_class c b -> in_class c d -> sv_ltb a b = true -> sv_ltb b d = true -> sv_ltb a d = true.
Proof.
  intros Ha Hb Hd. unfold sv_ltb. destruct (sv_cmp a b) as [[]|] eqn:E1; try done. destruct (sv_cmp b d) as [[]|] eqn:E2; try done.
  by rewrite (sv_trans c a b d).
Qed.

Lemma gtb_ltb a b : in_class c a -> in_class c b -> sv_gtb a b = sv_ltb b a.
Proof. intros Ha Hb. unfold sv_gtb, sv_ltb. by destruct (sv_total c a b Ha Hb) as ([| |] & -> & -> & Q). Qed.
Lemma gtb_total a b : in_class c a -> in_class c b -> sv_gtb a b = true \/ a = b \/ sv_gtb b a = true.
Proof. intros Ha Hb. rewrite !gtb_ltb by done. destruct (ltb_total a b Ha Hb) as [?|[?|?]]; auto. Qed.
Lemma gtb_asym a b : in_class c a -> in_class c b -> sv_gtb a b = true -> sv_gtb b a = false.
Proof. intros Ha Hb. rewrite !gtb_ltb by done. by apply ltb_asym. Qed.
Lemma gtb_trans a b d : in_class c a -> in_class c b -> in_class c d -> sv_gtb a b = true -> sv_gtb b d = true -> sv_gtb a d = true.
Proof. intros Ha Hb Hd. rewrite !gtb_ltb by done. intros. by eapply (ltb_trans d b a). Qed.

Lemma min_assoc a b d : in_class c a -> in_class c b -> in_class c d -> min_candidate (min_candidate a b) d = min_candidate a (min_candidate b d).
Proof. exact (pick_assoc (in_class c) sv_ltb ltb_total ltb_trans a b d). Qed.
Lemma max_assoc a b d : in_class c a -> in_class c b -> in_class c d -> max_candidate (max_candidate a b) d = max_candidate a (max_candidate b d).
Proof. exact (pick_assoc (in_class c) sv_gtb gtb_total gtb_trans a b d). Qed.

Lemma fold_min vs : Forall (in_class c) vs -> extreme sv_ltb vs (foldl min_candidate SvNull vs).
Proof. intros Hvs. by apply (fold_pick (in_class c) sv_ltb ltb_asym ltb_trans vs). Qed.
Lemma fold_max vs : Forall (in_class c) vs -> extreme sv_gtb vs (foldl max_candidate SvNull vs).
Proof. intros Hvs. by apply (fold_pick (in_class c) sv_gtb gtb_asym gtb_trans vs). Qed.

End classes.

(** ** What a group's aggregate is

    The value of a metric over the records of a group, by definition. *)

Definition values_of (m : Metric) (L : list Fields) : list Value := (live_contribs m L).*1.

Definition exact (m : Metric) (L : list Fields) (av : AggValue) : Prop :=
  let vs := values_of m L in
  match m_op m with
  | AggCount => av = AvCount (Z.of_nat (length vs))
  | AggSum => av = AvSum (SumInt (foldr (fun v n => int_of v + n) 0 vs))
  | AggMin => exists v, av = AvMin v /\ extreme sv_ltb (StoredValue_from_value <$> vs) v
  | AggMax => exists v, av = AvMax v /\ extreme sv_gtb (StoredValue_from_value <$> vs) v
  | AggAvg => av = AvAvg (SumInt (foldr (fun v n => int_of v + n) 0 vs)) (Z.of_nat (length vs))
  end.

(** The values of a metric: integers fit an [i64], extremes are of one class. *)
Definition value_fits (class : bytes -> SvClass) (m : Metric) (v : Value) : Prop :=
  (forall i, v = Int i -> - 2 ^ 63 <= i < 2 ^ 63) /\
  match m_op m with AggMin | AggMax => in_class (class (m_label m)) (StoredValue_from_value v) | _ => True end.

Definition values_fit (class : bytes -> SvClass) (metrics : list Metric) (L : list Fields) : Prop :=
  Forall (fun m => Forall (value_fits class m) (values_of m L)) metrics.

(** The metrics whose value survives removals, or that saw none. *)
Definition settled (m : Metric) (dirty : bool) : bool :=
  match m_op m with AggMin | AggMax => negb dirty | _ => true end.

Lemma live_sums m L :
  sum_signs (live_contribs m L) = Z.of_nat (length (values_of m L)) /\
  sum_ints (live_contribs m L) = foldr (fun v n => int_of v + n) 0 (values_of m L).
Proof.
  split; [rewrite live_contribs_length; unfold values_of; by rewrite length_fmap|].
  unfold values_of. induction L as [|r L IH]; [done|]. rewrite live_contribs_cons, sum_ints_app, fmap_app, foldr_app, IH.
  rewrite contrib_sign. destruct (contrib m (r, 1)) as [[v s]|]; cbn; lia.
Qed.

Lemma sum_values_bound vs :
  Forall (fun v => forall i, v = Int i -> - 2 ^ 63 <= i < 2 ^ 63) vs ->
  - (2 ^ 63 * Z.of_nat (length vs)) <= foldr (fun v n => int_of v + n) 0 vs <= 2 ^ 63 * Z.of_nat (length vs).
Proof.
  induction 1 as [|v vs Hv _ IH]; cbn [foldr length]; [lia|].
  assert (- 2 ^ 63 <= int_of v <= 2 ^ 63) by (destruct v; cbn [int_of]; try lia; specialize (Hv _ eq_refl); lia). lia.
Qed.

(** Without removals among its contributions, a metric's history is its live
    records. *)
Lemma clean_contribs m H L :
  proper H L -> Forall (fun c => 0 < c.2) (contribs m H) -> contribs m H ≡ₚ live_contribs m L.
Proof.
  induction 1 as [|H L r _ IH|H L L' r _ IH HP]; intros Hc; [done|..]; rewrite contribs_snoc in Hc |- *; apply Forall_app in Hc as [Hc Hr].
  - rewrite live_contribs_cons, (IH Hc). apply Permutation_app_comm.
  - rewrite contrib_sign in Hr |- *. rewrite (IH Hc), (live_contribs_perm m _ _ HP), live_contribs_cons.
    destruct (contrib m (r, 1)); cbn in *; [|by rewrite app_nil_r]. apply Forall_cons in Hr as [Hr _]. done.
Qed.

Lemma candidates_live cs : Forall (fun c => 0 < c.2) cs -> candidates cs = StoredValue_from_value <$> cs.*1.
Proof.
  induction 1 as [|[v s] cs Hc _ IH]; [done|]. cbn [snd] in Hc.
  change (candidates ((v, s) :: cs)) with (match (if s <? 0 then None else Some (StoredValue_from_value v)) with Some y => y :: candidates cs | None => candidates cs end).
  destruct (Z.ltb_spec s 0); [lia|]. by rewrite IH.
Qed.

Lemma proper_signs H L : proper H L -> Forall (fun rs => is_sign rs.2) H.
Proof. induction 1; [done|..]; apply Forall_app; (split; [done|]); constructor; try done; unfold is_sign; cbn; auto. Qed.

(** A clean history has no removals among the contributions to an extreme. *)
Lemma clean_signs metrics H m :
  Forall (fun rs => is_sign rs.2) H -> history_dirty metrics H = false -> m ∈ metrics -> m_op m = AggMin \/ m_op m = AggMax ->
  Forall (fun c => 0 < c.2) (contribs m H).
Proof.
  intros Hs Hd Hm Hop. unfold contribs. apply Forall_forall. intros c ([r s] & Hrs & Hc)%list_elem_of_omap.
  rewrite Forall_forall in Hs. destruct (Hs _ Hrs) as [Es|Es]; cbn in Es; subst s; [by rewrite (contrib_snd _ _ _ _ Hc)|].
  exfalso. pose proof (contrib_snd _ _ _ _ Hc) as Hc2.
  assert (history_dirty metrics H = true) as E; [|congruence]. unfold history_dirty. apply existsb_exists. exists (r, -1).
  split; [by apply list_elem_of_In|]. apply existsb_exists. exists m. split; [by apply list_elem_of_In|]. rewrite Hc. unfold op_dirty.
  rewrite Hc2. by destruct Hop as [-> | ->].
Qed.

Lemma extreme_perm lt vs ws v : vs ≡ₚ ws -> extreme lt vs v -> extreme lt ws v.
Proof. intros HP [E1 E2]. split; intros Hv; [rewrite <- HP; auto|]. rewrite <- HP. destruct (E2 Hv) as [? HE]. split; [done|]. intros w. rewrite <- HP. apply HE. Qed.

Lemma expected_exact class metrics m H L H0 :
  proper H0 L -> H ≡ₚ H0 -> m ∈ metrics -> Z.of_nat (length H) < 2 ^ 63 -> Forall (value_fits class m) (values_of m L) ->
  settled m (history_dirty metrics H) = true ->
  exact m L (default (AggValue_new (m_op m)) (agg_of_delta <$> expected_option (m_op m) (contribs m H))).
Proof.
  intros Hp HP Hm Hlen Hv Hset. pose proof (proper_length _ _ Hp) as [_ Hle].
  pose proof (live_contribs_le m L) as Hll. pose proof (live_sums m L) as [Hss Hsi]. pose proof (contribs_perm m _ _ HP) as Hcp.
  pose proof (proper_sums m _ _ Hp) as [Hpi Hps]. rewrite <- (sum_ints_perm _ _ Hcp) in Hpi. rewrite <- (sum_signs_perm _ _ Hcp) in Hps.
  rewrite (Permutation_length HP) in Hlen.
  assert (length (values_of m L) = length (live_contribs m L)) as El by (unfold values_of; by rewrite length_fmap).
  pose proof (sum_values_bound (values_of m L) ltac:(eapply Forall_impl; [exact Hv|]; by intros v [? _])) as Hb.
  assert (swrap 64 (sum_signs (contribs m H)) = Z.of_nat (length (values_of m L))) as Es by (rewrite Hps, Hss; apply swrap_small; lia).
  assert (swrap 128 (sum_ints (contribs m H)) = foldr (fun v n => int_of v + n) 0 (values_of m L)) as Ei by (rewrite Hpi, Hsi; apply swrap_small; lia).
  assert (default (AggValue_new (m_op m)) (agg_of_delta <$> expected_option (m_op m) (contribs m H)) = agg_of_delta (expected (m_op m) (contribs m H))) as ->
    by (destruct (contribs m H); [by destruct (m_op m)|done]).
  assert (m_op m = AggMin \/ m_op m = AggMax -> candidates (contribs m H) ≡ₚ StoredValue_from_value <$> values_of m L) as Hcand.
  { intros Hop. assert (history_dirty metrics H = false) as Hd by (unfold settled in Hset; destruct Hop as [E|E]; rewrite E in Hset; by apply negb_true_iff).
    assert (Forall (fun rs => is_sign rs.2) H) as Hsg by (rewrite HP; by eapply proper_signs).
    pose proof (clean_signs metrics H m Hsg Hd Hm Hop) as Hcl. rewrite candidates_live by done. unfold values_of.
    rewrite Hcp in Hcl. by rewrite Hcp, (clean_contribs m H0 L). }
  assert (m_op m = AggMin \/ m_op m = AggMax -> Forall (in_class (class (m_label m))) (candidates (contribs m H))) as Hcls.
  { intros Hop. rewrite Hcand by done. apply Forall_fmap. eapply Forall_impl; [exact Hv|]. intros v [_ Hc]. by destruct Hop as [E|E]; rewrite E in Hc. }
  unfold exact, expected. destruct (m_op m); cbn [agg_of_delta].
  - rewrite Es. f_equal. lia.
  - by rewrite Ei.
  - eexists. split; [done|]. eapply extreme_perm; [by apply Hcand; left|]. eapply fold_min, Hcls. by left.
  - eexists. split; [done|]. eapply extreme_perm; [by apply Hcand; right|]. eapply fold_max, Hcls. by right.
  - rewrite Ei, Es. f_equal. lia.
Qed.

Lemma ram_of_delta m H L :
  proper H L -> Z.of_nat (length H) < 2 ^ 63 ->
  ram_option (m_op m) (contribs m H) = agg_of_delta <$> expected_option (m_op m) (contribs m H) /\
  delta_of_agg <$> ram_option (m_op m) (contribs m H) = expected_option (m_op m) (contribs m H).
Proof.
  intros Hp Hlen. pose proof (proj2 (proper_sums m H L Hp)) as Hs. rewrite live_contribs_length in Hs.
  pose proof (live_contribs_le m L). pose proof (proj2 (proper_length H L Hp)).
  assert (swrap 64 (sum_signs (contribs m H)) = sum_signs (contribs m H)) as Ew by (apply swrap_small; lia).
  destruct (contribs m H) as [|c cs]; [done|]. cbn [ram_option expected_option fmap option_fmap option_map].
  set (l := c :: cs) in *. clearbody l.
  unfold ram_expected, expected. destruct (m_op m); cbn [agg_of_delta delta_of_agg]; rewrite ?Ew; try done.
  all: split; f_equal; rewrite ?Z.max_l by lia; done.
Qed.

Lemma ram_admissible_admissible metrics H L : proper H L -> ram_admissible metrics H -> admissible metrics H.
Proof.
  intros Hs%proper_signs Ha. unfold admissible, ram_admissible in *. rewrite Forall_forall in *. intros rs Hrs. split; [auto|].
  specialize (Ha rs Hrs). eapply Forall_impl; [exact Ha|]. intros m. cbv beta. destruct (contrib m rs); [|done]. by intros [? _]%andb_prop.
Qed.

(** A label is a metric's, or no metric's. *)
Lemma label_cases (metrics : list Metric) (k : bytes) :
  (exists m, m ∈ metrics /\ rides_total_count m = false /\ m_label m = k) \/
  (forall m, m ∈ metrics -> rides_total_count m = false -> m_label m <> k).
Proof.
  destruct (decide (k ∈ (m_label <$> filter (fun m => rides_total_count m = false) metrics))) as [H|H].
  - left. apply list_elem_of_fmap in H as (m & -> & [? ?]%list_elem_of_filter). eauto.
  - right. intros m Hm Hr <-. apply H, list_elem_of_fmap_2, list_elem_of_filter. by split.
Qed.

(** A state tells of a list of records what the metrics ask for: how many they are,
    and the value of every metric (of an extreme, unless the state is dirty). *)
Definition summarises (metrics : list Metric) (L : list Fields) (st : AggregateState) : Prop :=
  ag_count st = Z.of_nat (length L) /\
  forall m, m ∈ metrics -> rides_total_count m = false -> settled m (ag_dirty st) = true ->
    exact m L (default (AggValue_new (m_op m)) (bt_get (m_label m) (ag_values st))).

Lemma values_of_perm m L L' : L ≡ₚ L' -> values_of m L ≡ₚ values_of m L'.
Proof. intros HP. unfold values_of. by rewrite (live_contribs_perm m _ _ HP). Qed.

Lemma exact_perm m L L' av : L ≡ₚ L' -> exact m L av -> exact m L' av.
Proof.
  intros HP%(values_of_perm m). unfold exact. set (vs := values_of m L) in *. set (ws := values_of m L') in *. clearbody vs ws.
  assert (foldr (fun v n => int_of v + n) 0 vs = foldr (fun v n => int_of v + n) 0 ws) as Ef by (induction HP; cbn [foldr]; lia).
  pose proof (Permutation_length HP) as El. destruct (m_op m).
  - by rewrite El.
  - by rewrite Ef.
  - intros (v & -> & Hv). exists v. split; [done|]. eapply extreme_perm; [|exact Hv]. by rewrite HP.
  - intros (v & -> & Hv). exists v. split; [done|]. eapply extreme_perm; [|exact Hv]. by rewrite HP.
  - by rewrite El, Ef.
Qed.

Lemma summarises_perm metrics L L' st : L ≡ₚ L' -> summarises metrics L st -> summarises metrics L' st.
Proof.
  intros HP [H1 H2]. split; [by rewrite <- (Permutation_length HP)|]. intros m Hm Hr Hs. eapply exact_perm; [exact HP|auto].
Qed.

Lemma values_fit_perm class metrics L L' : L ≡ₚ L' -> values_fit class metrics L -> values_fit class metrics L'.
Proof. intros HP. unfold values_fit. intros H. eapply Forall_impl; [exact H|]. intros m. cbv beta. by rewrite (values_of_perm m _ _ HP). Qed.

Lemma folded_exact class metrics H0 H L :
  labels_distinct metrics -> proper H0 L -> H ≡ₚ H0 -> Z.of_nat (length H) < 2 ^ 63 ->
  admissible metrics H -> values_fit class metrics L ->
  summarises metrics L (into_aggregate_state (fold_deltas (deltas metrics H))).
Proof.
  intros Hd Hp HP Hlen Ha Hv. unfold summarises. destruct (fold_history metrics H Hd Ha) as (H1 & _ & H3 & H4 & _).
  cbn [into_aggregate_state ag_count ag_values ag_dirty]. pose proof (proper_length _ _ Hp) as [Ht Hle]. split.
  - assert (total_sign H = total_sign H0) as Et by (clear -HP; unfold total_sign; induction HP; cbn [foldr]; lia).
    rewrite H1, Et, Ht. rewrite (Permutation_length HP) in Hlen. rewrite swrap_small; lia.
  - intros m Hm Hr Hset. rewrite bt_get_map, H4 by done. rewrite H3 in Hset. unfold values_fit in Hv. rewrite Forall_forall in Hv.
    by eapply expected_exact; eauto.
Qed.

Lemma spilled_state metrics H L :
  labels_distinct metrics -> ram_admissible metrics H -> proper H L -> Z.of_nat (length H) < 2 ^ 63 ->
  from_aggregate_state (state_of metrics H) = fold_deltas (deltas metrics H).
Proof.
  intros Hd Hr Hp Hlen. pose proof (ram_admissible_admissible _ _ _ Hp Hr) as Ha.
  destruct (fold_history metrics H Hd Ha) as (F1 & F2 & F3 & F4 & F5).
  destruct (state_history metrics H L Hd Hr Hp Hlen) as (S1 & S2 & S3 & S4 & S5).
  set (d := fold_deltas _) in *. set (st := state_of _ _) in *. clearbody d st. destruct d as [dc dv dd]. cbn in F1, F2, F3, F4, F5.
  unfold from_aggregate_state. f_equal; [|apply bt_ext; [by apply bt_sorted_map|done|]|congruence].
  - rewrite S1, F1. by rewrite (proj1 (proper_length _ _ Hp)).
  - intros k. rewrite bt_get_map. destruct (label_cases metrics k) as [(m & Hm & Hrm & <-)|Hk]; [|by rewrite S5, F5].
    rewrite S4, F4 by done. by eapply ram_of_delta.
Qed.

Lemma state_exact class metrics H L :
  labels_distinct metrics -> ram_admissible metrics H -> proper H L -> Z.of_nat (length H) < 2 ^ 63 -> values_fit class metrics L ->
  summarises metrics L (state_of metrics H).
Proof.
  intros Hd Hr Hp Hlen Hv. destruct (state_history metrics H L Hd Hr Hp Hlen) as (S1 & _ & S3 & S4 & _). split; [done|].
  intros m Hm Hrm Hset. rewrite S4 by done. rewrite S3 in Hset. rewrite (proj1 (ram_of_delta m H L Hp Hlen)).
  unfold values_fit in Hv. rewrite Forall_forall in Hv. by eapply expected_exact; eauto.
Qed.

(** * Theorems *)


(** Spilling a group is exact. A state kept in memory over a history, turned
    into a delta, is the fold of the deltas of that history: the two forms of a
    group never differ, and a group may move from one to the other at any time. *)
Theorem spill_exact metrics H L :
  labels_distinct metrics -> ram_admissible metrics H -> proper H L -> Z.of_nat (length H) < 2 ^ 63 ->
  from_aggregate_state (state_of metrics H) = fold_deltas (deltas metrics H).
Proof. apply spilled_state. Qed.

(** ** Where the two paths differ *)

Definition column (op : AggOp) : Metric := mkMetric (str "x") op (str "c") None None.
Definition row (v : Value) : Fields := [(str "x", v)].
Definition added (vs : list Value) : list (Fields * Z) := (fun v => (row v, 1)) <$> vs.

(** A null resets a minimum kept in memory: the value after it replaces the least
    one so far. The deltas ignore the null. *)
Lemma minimum_reset :
  bt_get (str "c") (ag_values (state_of [column AggMin] (added [Int 1; Null; Int 5]))) = Some (AvMin (SvInt 5)) /\
  bt_get (str "c") (rd_values (fold_deltas (deltas [column AggMin] (added [Int 1; Null; Int 5])))) = Some (DvMin (SvInt 1)).
Proof. vm_compute. done. Qed.

(** The deltas count a value that is no number in an average; the state in memory
    does not. *)
Lemma average_counts_text :
  bt_get (str "c") (ag_values (state_of [column AggAvg] (added [Int 6; Text (str "n/a")]))) = Some (AvAvg (SumInt 6) 1) /\
  bt_get (str "c") (rd_values (fold_deltas (deltas [column AggAvg] (added [Int 6; Text (str "n/a")])))) = Some (DvAvg (SumInt 6) 2).
Proof. vm_compute. done. Qed.

(** Values that do not compare make a minimum depend on the order of the fold, and
    floats a sum. *)
Lemma fold_order_matters :
  fold_deltas (deltas [column AggMin] (added [Int 5; Text (str "a")])) <> fold_deltas (deltas [column AggMin] (added [Text (str "a"); Int 5])) /\
  let big := Float (2 ^ 63 - 2 ^ 52 - 1) in let neg := Float (2 ^ 64 - 2 ^ 52 - 1) in
  fold_deltas (deltas [column AggSum] (added [big; big; neg])) <> fold_deltas (deltas [column AggSum] (added [big; neg; big])).
Proof. split; vm_compute; discriminate. Qed.

(** ** Witnesses *)

Definition sample_metrics : list Metric :=
  [mkMetric [] AggCount COUNT_LABEL None None;
   mkMetric (str "n") AggSum (str "sum(n)") None None;
   mkMetric (str "n") AggAvg (str "avg(n)") None (Some (CLeaf (str "n", Gt_, Int 2)));
   mkMetric (str "n") AggMax (str "max(n)") None None].

Definition sample_row (n : Z) : Fields := [(str "n", Int n)].

Definition sample_history : list (Fields * Z) := [(sample_row 1, 1); (sample_row 7, 1); (sample_row 1, -1); (sample_row 4, 1)].

Lemma sample_proper : proper sample_history [sample_row 4; sample_row 7].
Proof.
  change sample_history with ((([] ++ [(sample_row 1, 1)]) ++ [(sample_row 7, 1)]) ++ [(sample_row 1, -1)] ++ [(sample_row 4, 1)]).
  rewrite app_assoc. apply proper_add. eapply proper_remove; [do 2 apply proper_add; apply proper_nil|]. apply Permutation_swap.
Qed.

Lemma sample_labels : labels_distinct sample_metrics.
Proof. apply (bool_decide_unpack _). vm_compute. exact I. Qed.

Lemma sample_ram_admissible : ram_admissible sample_metrics sample_history.
Proof. unfold ram_admissible, sample_history, sample_metrics. repeat constructor. Qed.

Lemma sample_fits : values_fit (fun _ => IntClass) sample_metrics [sample_row 4; sample_row 7].
Proof.
  assert (forall m, Forall (fun v => v = Int 4 \/ v = Int 7) (values_of m [sample_row 4; sample_row 7]) ->
    Forall (value_fits (fun _ => IntClass) m) (values_of m [sample_row 4; sample_row 7])) as Hf.
  { intros m Hm. eapply Forall_impl; [exact Hm|]. intros v [-> | ->]; (split; [intros i [= <-]; lia|by destruct (m_op m)]). }
  unfold values_fit, sample_metrics. repeat (apply Forall_cons_2; [apply Hf; vm_compute; repeat (constructor; [auto|]); constructor|]).
  apply Forall_nil_2.
Qed.


Lemma spill_exact_witness :
  from_aggregate_state (state_of sample_metrics sample_history) = fold_deltas (deltas sample_metrics sample_history) /\
  rd_count (fold_deltas (deltas sample_metrics sample_history)) = 2.
Proof.
  split; [|vm_compute; reflexivity].
  apply (spill_exact sample_metrics sample_history [sample_row 4; sample_row 7]); [apply sample_labels|apply sample_ram_admissible|apply sample_proper|vm_compute; reflexivity].
Defined.
