(* ===== verification/GroupKey.v ===== *)
(** * Group keys (engine/src/aggregate_state.rs, the roll-up keys of
    engine/src/ghost/mod.rs)

    The values of a record's grouping fields, each tagged with its type and
    prefixed with its length, and the dictionary key of a group's roll-up. Slicing
    a [str] inside a character panics, and so does an end before the start. *)

From S2P Require Import Prelude ByteOrder BTree Paths Value Filters.
From S2P Require Import Record Aggregate.

(** What the code uses of the standard library's text forms of floats and of
    [Debug]. *)
Class ValueText := {
  display_f64 : Z -> bytes;
  parse_f64 : bytes -> option Z;
  debug_value : Value -> bytes;
}.

(** [Display] writes the shortest decimal that parses to the same float. *)
Class ValueTextLaws (VT : ValueText) : Prop := {
  display_parse b : is_uint 64 b -> is_nan b = false -> parse_f64 (display_f64 b) = Some b;
  display_ascii b : Forall (fun c => 0 <= c < 128) (display_f64 b);
}.

(** [i.to_string()] of an [i64]. *)
Definition display_i64 (i : Z) : bytes := if i <? 0 then 45 :: format_u64 (- i) else format_u64 i.

Section keys.
Context {VT : ValueText}.

Definition value_to_group_key_fragment (value : option Value) : bytes :=
  match value with
  | Some (Text s) => str "s" ++ s
  | Some (Int i) => str "i" ++ display_i64 i
  | Some (Float f) => str "f" ++ display_f64 f
  | Some Null | None => str "n"
  | Some v => str "?" ++ debug_value v
  end.

Definition group_key_fragment_to_value (frag : bytes) : Value :=
  match frag with
  | 110 :: _ => Null
  | 115 :: s => Text s
  | 105 :: s => match parse_i64 s with Some i => Int i | None => Null end
  | 102 :: s => match parse_f64 s with Some f => Float f | None => Null end
  | _ => Text frag
  end.

Definition encode_group_key (fragments : list bytes) : bytes :=
  foldl (fun out frag => out ++ format_u64 (blen frag) ++ [58] ++ frag) [] fragments.

Definition extract_group_key (fields : Fields) (group_fields : list bytes) : bytes :=
  encode_group_key ((fun f => value_to_group_key_fragment (bt_get f fields)) <$> group_fields).

End keys.

(** The index after the digits from [i] on. *)
Fixpoint skip_digits (s : bytes) (i : Z) : Z :=
  match s with
  | c :: s' => if (48 <=? c) && (c <=? 57) then skip_digits s' (i + 1) else i
  | [] => i
  end.

(** [s.is_char_boundary(i)] of a valid string. *)
Definition is_char_boundary (s : bytes) (i : Z) : bool :=
  (i =? blen s) || match byte_at s i with Some b => negb (cont b) | None => false end.

(** [&key[a..b]] *)
Definition str_slice (s : bytes) (a b : Z) : Result bytes :=
  if (a <=? b) && is_char_boundary s a && is_char_boundary s b then Ok (slice s a b) else Panic.

(** The loop of [decode_group_key]; every round moves [i] forward. *)
Fixpoint decode_group_loop (fuel : nat) (key : bytes) (i : Z) (out : list bytes) : Result (list bytes) :=
  match fuel with
  | O => Ok out
  | S fuel' =>
    if i <? blen key then
      let start := i in
      let i := skip_digits (drop (Z.to_nat i) key) i in
      if (i =? start) || (blen key <=? i) || negb (match byte_at key i with Some c => c =? 58 | None => false end) then Ok out
      else
        digits ← str_slice key start i;
        match parse_u64 digits with
        | None => Ok out
        | Some len =>
          let i := i + 1 in
          if blen key <? wrap64 (i + len) then Ok out
          else
            part ← str_slice key i (wrap64 (i + len));
            decode_group_loop fuel' key (wrap64 (i + len)) (out ++ [part])
        end
    else Ok out
  end.

Definition decode_group_key (key : bytes) : Result (list bytes) := decode_group_loop (S (length key)) key 0 [].

(** ** The dictionary keys of roll-ups *)

Definition ROLLUP : bytes := [255; 249].

Definition rollup_key (ghost_id : Z) (gk : bytes) : bytes :=
  ROLLUP ++ to_be_bytes 2 ghost_id ++ to_be_bytes 2 (Z.min (blen gk) 65535) ++ take (Z.to_nat 65535) gk.

Definition rollup_ghost_prefix (ghost_id : Z) : bytes := ROLLUP ++ to_be_bytes 2 ghost_id.

Definition rollup_key_group (key : bytes) : option bytes :=
  if blen key <? 6 then None
  else
    let klen := from_be_bytes (slice key 4 6) in
    if 6 + klen <=? blen key then
      let b := slice key 6 (6 + klen) in if is_utf8 b then Some b else None
    else None.

(** * Lemmas *)

Lemma encode_group_key_foldr fs :
  encode_group_key fs = foldr (fun frag out => (format_u64 (blen frag) ++ [58] ++ frag) ++ out) [] fs.
Proof.
  assert (forall acc, foldl (fun out frag => out ++ format_u64 (blen frag) ++ [58] ++ frag) acc fs =
    acc ++ foldr (fun frag out => (format_u64 (blen frag) ++ [58] ++ frag) ++ out) [] fs) as H; [|apply (H [])].
  induction fs as [|f fs IH]; intros acc; cbn [foldl foldr]; [by rewrite app_nil_r|]. by rewrite IH, <- !app_assoc.
Qed.

Lemma format_u64_digits n : Forall (fun c => 48 <= c <= 57) (format_u64 n).
Proof.
  unfold format_u64. apply Forall_reverse. generalize 20%nat as fuel. intros fuel. revert n.
  induction fuel as [|fuel IH]; intros n; cbn [digits_rev]; constructor.
  - pose proof (Z.mod_pos_bound n 10). lia.
  - case_match; [constructor|apply IH].
Qed.

Lemma format_u64_ne n : format_u64 n <> [].
Proof. unfold format_u64. cbn [digits_rev]. rewrite reverse_cons. by destruct (reverse _). Qed.

Lemma parse_format_u64 n : is_uint 64 n -> parse_u64 (format_u64 n) = Some n.
Proof. intros Hn. rewrite <- (parse_format_0 0 n Hn). unfold format_0. by rewrite Nat.sub_0_l. Qed.

Lemma skip_digits_stop d c s i :
  Forall (fun c => 48 <= c <= 57) d -> ~ (48 <= c <= 57) -> skip_digits (d ++ c :: s) i = i + blen d.
Proof.
  intros Hd Hc. revert i. induction Hd as [|x d Hx Hd IH]; intros i; cbn [app skip_digits].
  - destruct (Z.leb_spec 48 c), (Z.leb_spec c 57); cbn; unfold blen; cbn; lia.
  - rewrite (proj2 (Z.leb_le 48 x)), (proj2 (Z.leb_le x 57)) by lia. cbn [andb]. rewrite IH. unfold blen. cbn [length]. lia.
Qed.

Lemma slice_mid {A} (a b c : list A) i j : i = blen a -> j = blen a + blen b -> slice (a ++ b ++ c) i j = b.
Proof.
  intros -> ->. unfold slice, blen. rewrite Nat2Z.id, drop_app_length.
  replace (Z.to_nat (Z.of_nat (length a) + Z.of_nat (length b) - Z.of_nat (length a))) with (length b) by lia. by rewrite take_app_length.
Qed.

(** The index where a string starts, or ends, is a character boundary. *)
Lemma boundary_at a b : (match b with c :: _ => cont c = false | [] => True end) -> is_char_boundary (a ++ b) (blen a) = true.
Proof.
  unfold is_char_boundary. intros Hb. destruct b as [|c b]; [by rewrite app_nil_r, Z.eqb_refl|]. rewrite byte_at_app, Hb. apply orb_true_r.
Qed.

Lemma utf8_head c s : is_utf8 (c :: s) = true -> cont c = false.
Proof.
  cbn [is_utf8]. unfold utf8_2, utf8_3, utf8_4, cont. intros H.
  destruct (Z.leb_spec 128 c); [|done]. destruct (Z.leb_spec c 191); [|done]. exfalso.
  destruct (Z.ltb_spec c 128); [lia|]. rewrite andb_false_r in H.
  repeat match type of H with
  | context [?x <=? c] => replace (x <=? c) with false in H by (symmetry; apply Z.leb_gt; lia)
  | context [c =? ?x] => replace (c =? x) with false in H by (symmetry; apply Z.eqb_neq; lia)
  end. cbn in H. by repeat case_match.
Qed.

(** The next thing at a boundary: nothing, or a character's first byte. *)
Definition starts_char (s : bytes) : Prop := match s with c :: _ => cont c = false | [] => True end.

Lemma starts_char_digits d s : d <> [] -> Forall (fun c => 48 <= c <= 57) d -> starts_char (d ++ s).
Proof.
  destruct d as [|c d]; [done|]. intros _ [Hc _]%Forall_cons. cbn. unfold cont. by rewrite (proj2 (Z.leb_gt 128 c)) by lia.
Qed.

Lemma starts_char_app a b : is_utf8 a = true -> starts_char b -> starts_char (a ++ b).
Proof. destruct a as [|c a]; [done|]. intros Ha _. by apply (utf8_head c a). Qed.

Lemma starts_char_encode fs : starts_char (encode_group_key fs).
Proof.
  rewrite encode_group_key_foldr. destruct fs as [|f fs]; [done|]. cbn [foldr]. rewrite <- app_assoc.
  apply starts_char_digits; [apply format_u64_ne|apply format_u64_digits].
Qed.

Lemma str_slice_mid a b c i j :
  i = blen a -> j = blen a + blen b -> starts_char (b ++ c) -> starts_char c -> str_slice (a ++ b ++ c) i j = Ok b.
Proof.
  intros -> -> Hb Hc. unfold str_slice. rewrite (slice_mid a b c) by done. rewrite (boundary_at a (b ++ c)) by done.
  replace (blen a + blen b) with (blen (a ++ b)) by (unfold blen; rewrite length_app; lia).
  rewrite (app_assoc a b c), (boundary_at (a ++ b) c) by done.
  rewrite (proj2 (Z.leb_le _ _)); [done|]. unfold blen. rewrite length_app. lia.
Qed.

Lemma decode_group_loop_encode fs : forall fuel pre out,
  (length fs < fuel)%nat -> Forall (fun f => is_utf8 f = true) fs -> blen (pre ++ encode_group_key fs) < 2 ^ 64 ->
  decode_group_loop fuel (pre ++ encode_group_key fs) (blen pre) out = Ok (out ++ fs).
Proof.
  induction fs as [|f fs IH]; intros fuel pre out Hfuel Hu Hlen; (destruct fuel as [|fuel]; [cbn in Hfuel; lia|]); cbn [decode_group_loop].
  { change (encode_group_key []) with (@nil Z). rewrite !app_nil_r. by rewrite Z.ltb_irrefl. }
  apply Forall_cons in Hu as [Hf Hu]. set (tail := encode_group_key fs). pose proof (starts_char_encode fs) as Ht. fold tail in Ht.
  set (d := format_u64 (blen f)).
  assert (encode_group_key (f :: fs) = d ++ 58 :: f ++ tail) as E.
  { unfold tail, d. rewrite !encode_group_key_foldr. cbn [foldr]. by rewrite <- !app_assoc. }
  rewrite E in *. pose proof (format_u64_digits (blen f)) as Hd. pose proof (format_u64_ne (blen f)) as Hdn. fold d in Hd, Hdn.
  assert (blen (pre ++ d ++ 58 :: f ++ tail) = blen pre + blen d + 1 + blen f + blen tail) as El.
  { unfold blen. rewrite !length_app. cbn [length]. rewrite !length_app. lia. }
  assert (0 < blen d) as Hdp by (unfold blen; destruct d; [done|cbn; lia]).
  assert (0 <= blen pre /\ 0 <= blen f /\ 0 <= blen tail) as (Hp0 & Hf0 & Ht0) by (unfold blen; lia).
  rewrite El in *. rewrite (proj2 (Z.ltb_lt _ _)) by lia. cbv zeta.
  assert (skip_digits (drop (Z.to_nat (blen pre)) (pre ++ d ++ 58 :: f ++ tail)) (blen pre) = blen pre + blen d) as ->.
  { unfold blen at 1. rewrite Nat2Z.id, drop_app_length. apply skip_digits_stop; [done|lia]. }
  assert (byte_at (pre ++ d ++ 58 :: f ++ tail) (blen pre + blen d) = Some 58) as Hb.
  { replace (blen pre + blen d) with (blen (pre ++ d)) by (unfold blen; rewrite length_app; lia). rewrite app_assoc. apply byte_at_app. }
  rewrite (proj2 (Z.eqb_neq (blen pre + blen d) (blen pre))), (proj2 (Z.leb_gt (blen pre + blen d + 1 + blen f + blen tail) _)), Hb by lia.
  cbn [orb negb Z.eqb Pos.eqb]. rewrite (str_slice_mid pre d (58 :: f ++ tail)); [|done|done|by apply starts_char_digits|done].
  rewrite Result_bind_Ok. unfold d at 1. rewrite parse_format_u64 by (split; lia).
  assert (wrap64 (blen pre + blen d + 1 + blen f) = blen pre + blen d + 1 + blen f) as -> by (apply wrap_small; split; lia).
  rewrite (proj2 (Z.ltb_ge _ _)) by lia.
  replace (pre ++ d ++ 58 :: f ++ tail) with ((pre ++ d ++ [58]) ++ f ++ tail) by (by rewrite <- !app_assoc).
  assert (blen (pre ++ d ++ [58]) = blen pre + blen d + 1) as Ep by (unfold blen; rewrite !length_app; cbn; lia).
  rewrite (str_slice_mid (pre ++ d ++ [58]) f tail); [|lia|lia|by apply starts_char_app|done]. rewrite Result_bind_Ok.
  specialize (IH fuel (pre ++ d ++ 58 :: f) (out ++ [f])). fold tail in IH.
  replace (blen pre + blen d + 1 + blen f) with (blen (pre ++ d ++ 58 :: f)) by (unfold blen; rewrite !length_app; cbn [length]; lia).
  replace ((pre ++ d ++ [58]) ++ f ++ tail) with ((pre ++ d ++ 58 :: f) ++ tail) by (by simplify_list_eq).
  rewrite IH; [by rewrite <- app_assoc|cbn in Hfuel; lia|done|].
  unfold blen in *. rewrite !length_app. cbn [length]. lia.
Qed.

(** ** Fragments *)

Lemma display_i64_parse i : - 2 ^ 63 <= i < 2 ^ 63 -> parse_i64 (display_i64 i) = Some i.
Proof.
  intros Hi. unfold display_i64, parse_i64. destruct (Z.ltb_spec i 0).
  - cbn [Z.eqb Pos.eqb]. pose proof (parse_format_u64 (- i) ltac:(split; lia)) as Hp. pose proof (format_u64_digits (- i)) as Hd.
    destruct (format_u64 (- i)) as [|c s] eqn:E; [by apply format_u64_ne in E|]. apply Forall_cons in Hd as [Hc _].
    unfold parse_u64 in Hp. destruct (Z.eqb_spec c 43); [lia|]. rewrite Hp. destruct (Z.leb_spec (- i) (2 ^ 63)); [f_equal; lia|lia].
  - pose proof (format_u64_digits i) as Hd. destruct (format_u64 i) as [|c s] eqn:E; [by apply format_u64_ne in E|].
    apply Forall_cons in Hd as [Hc _]. destruct (Z.eqb_spec c 45); [lia|]. rewrite <- E, parse_format_u64 by (split; lia).
    destruct (Z.ltb_spec i (2 ^ 63)); [done|lia].
Qed.

(** The values a group is named after: numbers that are not NaN, strings, nothing. *)
Definition group_scalar (v : Value) : Prop :=
  match v with
  | Int i => - 2 ^ 63 <= i < 2 ^ 63
  | Float b => is_uint 64 b /\ is_nan b = false
  | Text s => is_utf8 s = true
  | Null => True
  | _ => False
  end.

Definition group_value (fields : Fields) (f : bytes) : Value := default Null (bt_get f fields).

Lemma ascii_utf8 s : Forall (fun c => 0 <= c < 128) s -> is_utf8 s = true.
Proof. induction 1 as [|c s Hc Hs IH]; [done|]. cbn [is_utf8]. by rewrite (proj2 (Z.leb_le 0 c)), (proj2 (Z.ltb_lt c 128)) by lia. Qed.

Lemma display_i64_ascii i : Forall (fun c => 0 <= c < 128) (display_i64 i).
Proof.
  assert (forall n, Forall (fun c => 0 <= c < 128) (format_u64 n)) as H.
  { intros n. eapply Forall_impl; [apply format_u64_digits|]. cbn. lia. }
  unfold display_i64. case_match; [constructor; [lia|]|]; apply H.
Qed.

Section fragments.
Context `{VT : ValueText} `{!ValueTextLaws VT}.

(** A scalar group value is read back with its type. *)
Lemma fragment_roundtrip v : group_scalar v -> group_key_fragment_to_value (value_to_group_key_fragment (Some v)) = v.
Proof.
  destruct v; intros Hv; try done; cbn.
  - by rewrite display_i64_parse.
  - destruct Hv. by rewrite display_parse.
Qed.

Lemma fragment_utf8 v : group_scalar v -> is_utf8 (value_to_group_key_fragment (Some v)) = true.
Proof.
  destruct v; intros Hv; try done; cbn; apply ascii_utf8; [apply display_i64_ascii|apply display_ascii].
Qed.

Lemma fragment_default o : value_to_group_key_fragment o = value_to_group_key_fragment (Some (default Null o)).
Proof. by destruct o. Qed.

Lemma extract_group_key_values fields gf :
  extract_group_key fields gf = encode_group_key ((fun f => value_to_group_key_fragment (Some (group_value fields f))) <$> gf).
Proof. unfold extract_group_key. f_equal. apply list_fmap_ext. intros ? f _. apply fragment_default. Qed.

Lemma group_key_values fields gf :
  Forall (fun f => group_scalar (group_value fields f)) gf -> blen (extract_group_key fields gf) < 2 ^ 64 ->
  exists frags, decode_group_key (extract_group_key fields gf) = Ok frags /\
    group_key_fragment_to_value <$> frags = group_value fields <$> gf.
Proof.
  intros Hg Hl. rewrite extract_group_key_values in *.
  set (frags := (fun f => value_to_group_key_fragment (Some (group_value fields f))) <$> gf) in *. exists frags. split.
  - unfold decode_group_key. apply (decode_group_loop_encode frags _ [] []); [|by apply Forall_fmap; eapply Forall_impl; [done|]; intros; apply fragment_utf8|done].
    apply Nat.lt_succ_r. rewrite encode_group_key_foldr. clear. induction frags as [|f fs IH]; [done|].
    cbn [foldr]. rewrite !length_app. cbn [length]. lia.
  - unfold frags. rewrite <- list_fmap_compose. apply list_fmap_ext. intros i f Hf. apply fragment_roundtrip.
    by eapply (proj1 (Forall_lookup _ _) Hg).
Qed.

End fragments.

(** ** Roll-up keys *)

Lemma rollup_key_group_key g k : blen k <= 65535 -> is_utf8 k = true -> rollup_key_group (rollup_key g k) = Some k.
Proof.
  intros Hk Hu. unfold rollup_key, rollup_key_group, blen in *. rewrite Z.min_l, (take_ge k) by lia.
  assert (forall n : nat, forall z, length (to_be_bytes n z) = n) as Hl by (intros; apply length_to_be_bytes).
  rewrite !length_app, !Hl. cbn [ROLLUP length]. destruct (Z.ltb_spec (Z.of_nat (2 + (2 + (2 + length k)))) 6); [lia|].
  cbv zeta. rewrite (app_assoc ROLLUP), (app_assoc (ROLLUP ++ _)).
  assert (slice (((ROLLUP ++ to_be_bytes 2 g) ++ to_be_bytes 2 (Z.of_nat (length k))) ++ k) 4 6 = to_be_bytes 2 (Z.of_nat (length k))) as ->.
  { rewrite <- app_assoc. apply slice_mid; unfold blen; rewrite ?length_app, ?Hl; done. }
  rewrite (from_to_be_bytes_id 2 16) by (unfold is_uint; lia).
  assert (slice (((ROLLUP ++ to_be_bytes 2 g) ++ to_be_bytes 2 (Z.of_nat (length k))) ++ k) 6 (6 + Z.of_nat (length k)) = k) as ->.
  { rewrite <- (app_nil_r k) at 2. apply slice_mid; unfold blen; rewrite ?length_app, ?Hl; cbn [ROLLUP length]; lia. }
  destruct (Z.leb_spec (6 + Z.of_nat (length k)) (Z.of_nat (2 + (2 + (2 + length k))))); [by rewrite Hu|lia].
Qed.

(** * Theorems *)

(** C40: a group key names its group. The values of the grouping fields (absent as
    null; numbers that are not NaN, and strings) come back from the key with their
    types and in order, so two records share a group exactly when these values agree,
    whatever separators or digits the strings contain. *)
Theorem group_keys_exact `{VT : ValueText} `{!ValueTextLaws VT} f1 f2 gf :
  Forall (fun f => group_scalar (group_value f1 f)) gf -> blen (extract_group_key f1 gf) < 2 ^ 64 ->
  Forall (fun f => group_scalar (group_value f2 f)) gf -> blen (extract_group_key f2 gf) < 2 ^ 64 ->
  (exists frags, decode_group_key (extract_group_key f1 gf) = Ok frags /\
    group_key_fragment_to_value <$> frags = group_value f1 <$> gf) /\
  (extract_group_key f1 gf = extract_group_key f2 gf <-> group_value f1 <$> gf = group_value f2 <$> gf).
Proof.
  intros H1 L1 H2 L2. split; [by apply group_key_values|]. split; intros E.
  - destruct (group_key_values f1 gf H1 L1) as (a & Da & <-). destruct (group_key_values f2 gf H2 L2) as (b & Db & <-). congruence.
  - assert (forall f, extract_group_key f gf = encode_group_key ((fun v => value_to_group_key_fragment (Some v)) <$> (group_value f <$> gf))) as K.
    { intros f. rewrite extract_group_key_values, <- list_fmap_compose. reflexivity. }
    by rewrite !K, E.
Qed.

(** A text form of floats with the laws: the bits in decimal. *)
Definition sample_text : ValueText :=
  {| display_f64 := format_u64; parse_f64 := parse_u64; debug_value := fun _ => [] |}.

Lemma sample_text_laws : ValueTextLaws sample_text.
Proof.
  split; cbn; [intros b Hb _; by apply parse_format_u64|].
  intros b. eapply Forall_impl; [apply format_u64_digits|]. cbn. lia.
Qed.

Definition group_row (t : Value) (n : Z) : Fields := [(str "n", Int n); (str "t", t)].

Lemma group_keys_exact_witness :
  extract_group_key (VT := sample_text) (group_row (Text (str "1:2")) 5) [str "t"; str "n"; str "z"] = str "4:s1:22:i51:n" /\
  (extract_group_key (VT := sample_text) (group_row (Text (str "1:2")) 5) [str "t"; str "n"; str "z"] =
     extract_group_key (VT := sample_text) (group_row (Text (str "1")) 5) [str "t"; str "n"; str "z"] <->
   [Text (str "1:2"); Int 5; Null] = [Text (str "1"); Int 5; Null]).
Proof.
  split; [vm_compute; reflexivity|].
  refine (proj2 (@group_keys_exact sample_text sample_text_laws (group_row (Text (str "1:2")) 5) (group_row (Text (str "1")) 5)
    [str "t"; str "n"; str "z"] _ _ _ _)); first [reflexivity | repeat constructor; by vm_compute].
Defined.

(** A key cut inside a character does not degrade to what parsed. *)
Lemma malformed_key_panics : decode_group_key [49; 58; 195; 169] = Panic.
Proof. reflexivity. Qed.

(** Nor does one whose length overflows the index. *)
Lemma overflowing_key_panics : decode_group_key (str "18446744073709551615:x") = Panic.
Proof. reflexivity. Qed.

(** Group keys that agree on their first 65535 bytes share a roll-up. *)
Lemma long_groups_share_a_rollup g k a b : blen k = 65535 -> rollup_key g (k ++ a) = rollup_key g (k ++ b).
Proof.
  intros Hk. unfold rollup_key, blen in *. rewrite !length_app, !take_app_le, !Z.min_r by lia. reflexivity.
Qed.
