(* ===== verification/Rollup.v ===== *)
(** * Roll-ups as merge operands (engine/src/rollup_merge.rs, the value format of
    engine/src/aggregate_state.rs)

    The roll-up of a group is a chain of deltas under one dictionary key; the merge
    operator of the dictionary folds it. The [postcard] serializer is a parameter. *)

From S2P Require Import Prelude ByteOrder BTree Types Streams Value Filters.
From S2P Require Import Record Aggregate GroupKey.

(** [postcard::to_allocvec], empty on an error, and [postcard::from_bytes(..).ok()]
    at the two types that roll-up values have had. *)
Class RollupPostcard := {
  postcard_delta : RollupDelta -> bytes;
  parse_delta : bytes -> option RollupDelta;
  parse_aggregate_state : bytes -> option AggregateState;
}.

Definition ROLLUP_DELTA_FORMAT : Z := 2.
Definition ROLLUP_AGGSTATE_FORMAT : Z := 1.

(** ** Deltas a value can hold *)

Definition in_i (w n : Z) : Prop := - 2 ^ (w - 1) <= n < 2 ^ (w - 1).

Definition stored_ok (v : StoredValue) : Prop :=
  match v with
  | SvNull => True
  | SvInt i => in_i 64 i
  | SvFloat b => is_uint 64 b
  | SvText s => is_utf8 s = true
  end.

(** Sums of integers; the model of floats does not keep the payload of a NaN. *)
Definition sum_ok (s : SumAcc) : Prop := match s with SumInt a => in_i 128 a | SumFloat _ _ => False end.

Definition delta_value_ok (dv : DeltaValue) : Prop :=
  match dv with
  | DvCount c => in_i 64 c
  | DvSum s => sum_ok s
  | DvMin v | DvMax v => stored_ok v
  | DvAvg s c => sum_ok s /\ in_i 64 c
  end.

Record delta_ok (d : RollupDelta) : Prop := {
  do_count : in_i 64 (rd_count d);
  do_sorted : bt_sorted (rd_values d);
  do_values k dv : bt_get k (rd_values d) = Some dv -> is_utf8 k = true /\ delta_value_ok dv;
}.

(** What is written is read back. *)
Class RollupPostcardLaws (PC : RollupPostcard) : Prop := {
  parse_postcard_delta d : delta_ok d -> parse_delta (postcard_delta d) = Some d;
}.

Section operator.
Context {PC : RollupPostcard}.

Definition RollupDelta_encode (d : RollupDelta) : bytes := XYZDB_MAGIC ++ [ROLLUP_DELTA_FORMAT] ++ postcard_delta d.

Definition decode_rollup_delta (b : bytes) : option RollupDelta :=
  if (blen b <? 3) || negb (beqb (take 2 b) XYZDB_MAGIC) then None
  else match byte_at b 2 with
       | Some 2 => parse_delta (drop 3 b)
       | Some 1 => from_aggregate_state <$> parse_aggregate_state (drop 3 b)
       | _ => None
       end.

(** [RollupMergeOperator::merge] *)
Definition rollup_merge (values_newest_first : list bytes) : bytes :=
  RollupDelta_encode (foldl (fun folded b => match decode_rollup_delta b with Some d => RollupDelta_merge folded d | None => folded end)
    RollupDelta_default values_newest_first).

Definition rollup_owns (k : bytes) : bool := starts_with k ROLLUP.

(** ** Typed deltas

    A roll-up key belongs to one ghost, whose metrics say what is kept under each
    label: the operation, and for an extreme the class of its values. *)
Context (schema : bytes -> bytes -> AggOp * SvClass).

Definition dv_op (dv : DeltaValue) : AggOp :=
  match dv with DvCount _ => AggCount | DvSum _ => AggSum | DvMin _ => AggMin | DvMax _ => AggMax | DvAvg _ _ => AggAvg end.

Definition dv_typed (t : AggOp * SvClass) (dv : DeltaValue) : Prop :=
  dv_op dv = t.1 /\ match dv with DvMin v | DvMax v => in_class t.2 v | _ => True end.

Definition delta_typed (k : bytes) (d : RollupDelta) : Prop :=
  delta_ok d /\ forall l dv, bt_get l (rd_values d) = Some dv -> dv_typed (schema k l) dv.

(** [RollupMergeOperator]; it is meant for the typed deltas. *)
Definition RollupMergeOperator : MergeOperator := {|
  owns := rollup_owns;
  merge := fun _ => rollup_merge;
  operand := fun k v => exists d, decode_rollup_delta v = Some d /\ delta_typed k d;
|}.

(** * Lemmas *)

Context `{!RollupPostcardLaws PC}.

Lemma delta_decode_encode d : delta_ok d -> decode_rollup_delta (RollupDelta_encode d) = Some d.
Proof.
  intros Hd. unfold decode_rollup_delta, RollupDelta_encode, blen. rewrite !length_app. cbn [length XYZDB_MAGIC app take drop].
  rewrite (proj2 (Z.ltb_ge _ _)) by lia. cbn. by apply parse_postcard_delta.
Qed.

Lemma default_typed k : delta_typed k RollupDelta_default.
Proof. split; [split; cbn; [unfold in_i; lia|constructor|done]|done]. Qed.

Lemma swrap_in_i w n : 0 < w -> in_i w (swrap w n).
Proof. apply swrap_range. Qed.

Lemma in_i_swrap w n : 0 < w -> in_i w n -> swrap w n = n.
Proof. apply swrap_small. Qed.

Lemma pick_ok a b : stored_ok a -> stored_ok b -> stored_ok (min_candidate a b) /\ stored_ok (max_candidate a b).
Proof. intros. unfold min_candidate, max_candidate. by split; case_match. Qed.

Lemma sum_merge_ok a b : sum_ok a -> sum_ok b -> sum_ok (SumAcc_merge a b).
Proof. destruct a, b; try done. intros _ _. apply swrap_in_i. lia. Qed.

Lemma dv_merge_typed t a b :
  delta_value_ok a -> dv_typed t a -> delta_value_ok b -> dv_typed t b ->
  delta_value_ok (DeltaValue_merge a b) /\ dv_typed t (DeltaValue_merge a b).
Proof.
  intros Ha [Ta Ca] Hb [Tb Cb]. unfold dv_typed. rewrite <- Ta in Tb |- *. destruct a, b; try done; cbn in *.
  - split; [apply swrap_in_i; lia|done].
  - split; [by apply sum_merge_ok|done].
  - split; [by apply pick_ok|]. split; [done|]. by apply min_in_class.
  - split; [by apply pick_ok|]. split; [done|]. by apply max_in_class.
  - destruct Ha, Hb. split; [|done]. split; [by apply sum_merge_ok|apply swrap_in_i; lia].
Qed.

Lemma dv_merge_assoc t a b c :
  delta_value_ok a -> delta_value_ok b -> delta_value_ok c -> dv_typed t a -> dv_typed t b -> dv_typed t c ->
  DeltaValue_merge (DeltaValue_merge a b) c = DeltaValue_merge a (DeltaValue_merge b c).
Proof.
  assert (forall x y z, sum_ok x -> sum_ok y -> sum_ok z -> SumAcc_merge (SumAcc_merge x y) z = SumAcc_merge x (SumAcc_merge y z)) as Hsum.
  { intros [] [] []; try done. intros _ _ _. cbn. rewrite swrap_add_l, swrap_add_r by lia. by rewrite Z.add_assoc. }
  assert (forall x y z, swrap 64 (swrap 64 (x + y) + z) = swrap 64 (x + swrap 64 (y + z))) as Hcnt.
  { intros. rewrite swrap_add_l, swrap_add_r by lia. by rewrite Z.add_assoc. }
  intros Ha Hb Hc [Ta Ca] [Tb Cb] [Tc Cc]. rewrite <- Ta in Tb, Tc. destruct a, b; try done; destruct c; try done; cbn in *; f_equal; try done.
  - by apply Hsum.
  - by eapply min_assoc.
  - by eapply max_assoc.
  - apply Hsum; tauto.
Qed.

Lemma merge_typed k a b : delta_typed k a -> delta_typed k b -> delta_typed k (RollupDelta_merge a b).
Proof.
  intros [[A1 A2 A3] A4] [[B1 B2 B3] B4].
  assert (forall l dv, bt_get l (rd_values (RollupDelta_merge a b)) = Some dv -> is_utf8 l = true /\ delta_value_ok dv /\ dv_typed (schema k l) dv) as H.
  { intros l dv. cbn. rewrite merge_values_get by done. specialize (A3 l). specialize (A4 l). specialize (B3 l). specialize (B4 l).
    destruct (bt_get l (rd_values a)) as [x|], (bt_get l (rd_values b)) as [y|]; cbn; intros [= <-].
    - destruct (A3 _ eq_refl), (B3 _ eq_refl). split; [done|]. apply dv_merge_typed; auto.
    - destruct (A3 _ eq_refl). auto.
    - destruct (B3 _ eq_refl). auto. }
  split; [split|]; cbn in *.
  - apply swrap_in_i. lia.
  - by apply merge_values_sorted.
  - intros l dv Hl. destruct (H l dv Hl) as (? & ? & ?). done.
  - intros l dv Hl. by apply H.
Qed.

Lemma merge_default_l k d : delta_typed k d -> RollupDelta_merge RollupDelta_default d = d.
Proof.
  intros [[H1 H2 H3] _]. destruct d as [c vs dirty]. unfold RollupDelta_merge.
  cbn [rd_count rd_values rd_dirty RollupDelta_default orb] in *. f_equal; [by apply in_i_swrap; [lia|]|].
  apply bt_ext; [apply merge_values_sorted; constructor|done|]. intros l. by rewrite merge_values_get.
Qed.

Lemma merge_default_r k d : delta_typed k d -> RollupDelta_merge d RollupDelta_default = d.
Proof.
  intros [[H1 H2 H3] _]. destruct d as [c vs dirty]. unfold RollupDelta_merge. cbn in *.
  rewrite Z.add_0_r, orb_false_r. f_equal. by apply in_i_swrap; [lia|].
Qed.

Lemma merge_delta_assoc k a b c :
  delta_typed k a -> delta_typed k b -> delta_typed k c ->
  RollupDelta_merge (RollupDelta_merge a b) c = RollupDelta_merge a (RollupDelta_merge b c).
Proof.
  intros Ha Hb Hc. pose proof (merge_typed _ _ _ Ha Hb) as [[_ Sab _] _]. pose proof (merge_typed _ _ _ Hb Hc) as [[_ Sbc _] _].
  destruct Ha as [[A1 A2 A3] A4], Hb as [[B1 B2 B3] B4], Hc as [[C1 C2 C3] C4].
  unfold RollupDelta_merge. cbn [rd_count rd_values rd_dirty]. f_equal.
  - rewrite swrap_add_l, swrap_add_r by lia. by rewrite Z.add_assoc.
  - apply bt_ext; [do 2 apply merge_values_sorted; done|by apply merge_values_sorted|]. intros l. rewrite !merge_values_get by done.
    specialize (A3 l). specialize (A4 l). specialize (B3 l). specialize (B4 l). specialize (C3 l). specialize (C4 l).
    destruct (bt_get l (rd_values a)), (bt_get l (rd_values b)), (bt_get l (rd_values c)); cbn; try done. f_equal.
    destruct (A3 _ eq_refl), (B3 _ eq_refl), (C3 _ eq_refl). eapply dv_merge_assoc; eauto.
  - by rewrite orb_assoc.
Qed.

Lemma fold_from k acc ds :
  delta_typed k acc -> Forall (delta_typed k) ds ->
  foldl RollupDelta_merge acc ds = RollupDelta_merge acc (fold_deltas ds) /\ delta_typed k (fold_deltas ds).
Proof.
  intros Ha Hds. induction ds as [|d ds IH] using rev_ind.
  { cbn. split; [by erewrite merge_default_r|apply default_typed]. }
  apply Forall_app in Hds as [Hds [Hd _]%Forall_cons]. destruct (IH Hds) as [E T]. rewrite foldl_app, fold_deltas_snoc. cbn [foldl].
  split; [|by apply merge_typed]. rewrite E. by eapply merge_delta_assoc.
Qed.

Lemma fold_deltas_typed k ds : Forall (delta_typed k) ds -> delta_typed k (fold_deltas ds).
Proof. intros H. by apply (fold_from k RollupDelta_default), H; apply default_typed. Qed.

Lemma fold_deltas_app k a b :
  Forall (delta_typed k) a -> Forall (delta_typed k) b -> fold_deltas (a ++ b) = RollupDelta_merge (fold_deltas a) (fold_deltas b).
Proof. intros Ha Hb. unfold fold_deltas at 1. rewrite foldl_app. apply (fold_from k); [by apply fold_deltas_typed|done]. Qed.

Lemma fold_deltas_cons k d ds :
  delta_typed k d -> Forall (delta_typed k) ds -> fold_deltas (d :: ds) = RollupDelta_merge d (fold_deltas ds).
Proof.
  intros Hd Hds. change (d :: ds) with ([d] ++ ds). rewrite (fold_deltas_app k) by auto. f_equal. unfold fold_deltas. cbn.
  by apply (merge_default_l k).
Qed.

(** The deltas behind operands. *)
Lemma rollup_merge_fold vs ds :
  Forall2 (fun v d => decode_rollup_delta v = Some d) vs ds -> rollup_merge vs = RollupDelta_encode (fold_deltas ds).
Proof.
  intros H. unfold rollup_merge, fold_deltas. f_equal. generalize RollupDelta_default as acc.
  induction H as [|v d vs ds Hd _ IH]; intros acc; [done|]. cbn [foldl]. by rewrite Hd.
Qed.

Lemma operand_deltas k vs :
  Forall (operand (MergeOperator := RollupMergeOperator) k) vs ->
  exists ds, Forall2 (fun v d => decode_rollup_delta v = Some d) vs ds /\ Forall (delta_typed k) ds.
Proof.
  induction 1 as [|v vs (d & Hd & Ht) _ (ds & H1 & H2)]; [exists []; by split|]. exists (d :: ds). by split; constructor.
Qed.

#[export] Instance RollupMergeOperator_laws : MergeOperatorLaws RollupMergeOperator.
Proof.
  split; cbn [merge RollupMergeOperator].
  - intros k vs _ (ds & H1 & H2)%operand_deltas. rewrite (rollup_merge_fold _ _ H1). eexists.
    pose proof (fold_deltas_typed _ _ H2) as Ht. split; [apply delta_decode_encode, Ht|done].
  - intros k pre mid post _ Hv. apply Forall_app in Hv as [(p & P1 & P2)%operand_deltas Hv].
    apply Forall_app in Hv as [(m & M1 & M2)%operand_deltas (q & Q1 & Q2)%operand_deltas].
    pose proof (fold_deltas_typed _ _ M2) as Ht.
    rewrite (rollup_merge_fold (pre ++ [rollup_merge mid] ++ post) (p ++ [fold_deltas m] ++ q)).
    + rewrite (rollup_merge_fold (pre ++ mid ++ post) (p ++ m ++ q)) by (by repeat apply Forall2_app). f_equal.
      rewrite !(fold_deltas_app k) by (repeat apply Forall_app_2; auto). f_equal. f_equal. cbn. by apply (merge_default_l k).
    + apply Forall2_app; [done|]. constructor; [|done]. rewrite (rollup_merge_fold _ _ M1). apply delta_decode_encode, Ht.
Qed.

End operator.
