(* ===== verification/Ghost.v ===== *)
(** * Ghosts (engine/src/ghost: mod.rs, notify.rs, read.rs)

    A ghost keeps an ordered index of the records of a lobe that match its filter,
    and, if it aggregates, the state of the whole and of every group: in memory, or,
    past a limit, as chains of deltas in the dictionary. This file has the metadata,
    the maintenance after a write and the reads of the precomputed aggregates. A
    record is its fields: the code uses nothing else of it here. Locks, clocks and
    the logging are left out. *)

From S2P Require Import Prelude ByteOrder BTree Types Streams Value Lid Filters.
From S2P Require Import Record SortEncoding Aggregate GroupKey Rollup.

(** ** Trees as ghosts use them

    [Tree::insert], [remove], [prefix_iter], and the pair of calls that seals a full
    memtable. *)
Class TreeApi (D : Type) := {
  api_insert : bytes -> bytes -> D -> D * Result unit;
  api_remove : bytes -> D -> D * Result unit;
  api_prefix_iter : D -> bytes -> Result (list (bytes * bytes));
  api_seal_full : D -> D;
}.

(** [postcard] of one [Value]. *)
Class ValuePostcard := {
  postcard_value : Value -> option bytes;
  parse_value : bytes -> option Value;
}.

(** ** Metadata *)

Inductive WriteType :=
  | WInsert
  | WUpdate (old_record : Fields) (old_spatial_key : bytes)
  | WDelete.

Inductive Residency :=
  | InRam (map : BTreeMap bytes AggregateState)
  | Spilled.

Inductive Grouping :=
  | Global
  | Grouped (fields : list bytes).

Definition Grouping_from_fields (fields : list bytes) : Grouping := match fields with [] => Global | _ => Grouped fields end.
Definition Grouping_fields (g : Grouping) : list bytes := match g with Global => [] | Grouped v => v end.
Definition Grouping_is_grouped (g : Grouping) : bool := match g with Grouped _ => true | Global => false end.

Record AggregateContent := mkContent {
  aggregate_specs : list Metric;
  global_aggregates : AggregateState;
  grouping : Grouping;
  residency : Residency;
}.

(** The fields of [GhostMeta] that maintenance and reads use. *)
Record GhostMeta := mkGhost {
  gm_ghost_id : Z;
  gm_filter : FilterExpr;
  gm_order_by_field : bytes;
  gm_sort_inverted : bool;
  gm_state : Z;
  gm_index_count : Z;
  gm_aggregate : option AggregateContent;
  gm_projection : list bytes;
  gm_incremental_updates : Z;
  gm_core_filters_cache : option CoreFilterExpr;
  gm_maintenance_degraded : bool;
}.

Definition set_index_count (n : Z) (g : GhostMeta) : GhostMeta :=
  mkGhost (gm_ghost_id g) (gm_filter g) (gm_order_by_field g) (gm_sort_inverted g) (gm_state g) n (gm_aggregate g)
    (gm_projection g) (gm_incremental_updates g) (gm_core_filters_cache g) (gm_maintenance_degraded g).
Definition set_aggregate (a : AggregateContent) (g : GhostMeta) : GhostMeta :=
  mkGhost (gm_ghost_id g) (gm_filter g) (gm_order_by_field g) (gm_sort_inverted g) (gm_state g) (gm_index_count g) (Some a)
    (gm_projection g) (gm_incremental_updates g) (gm_core_filters_cache g) (gm_maintenance_degraded g).
Definition set_updates (n : Z) (g : GhostMeta) : GhostMeta :=
  mkGhost (gm_ghost_id g) (gm_filter g) (gm_order_by_field g) (gm_sort_inverted g) (gm_state g) (gm_index_count g) (gm_aggregate g)
    (gm_projection g) n (gm_core_filters_cache g) (gm_maintenance_degraded g).
Definition set_cache (c : CoreFilterExpr) (g : GhostMeta) : GhostMeta :=
  mkGhost (gm_ghost_id g) (gm_filter g) (gm_order_by_field g) (gm_sort_inverted g) (gm_state g) (gm_index_count g) (gm_aggregate g)
    (gm_projection g) (gm_incremental_updates g) (Some c) (gm_maintenance_degraded g).
Definition set_degraded (g : GhostMeta) : GhostMeta :=
  mkGhost (gm_ghost_id g) (gm_filter g) (gm_order_by_field g) (gm_sort_inverted g) (gm_state g) (gm_index_count g) (gm_aggregate g)
    (gm_projection g) (gm_incremental_updates g) (gm_core_filters_cache g) true.

Definition set_global (st : AggregateState) (a : AggregateContent) : AggregateContent :=
  mkContent (aggregate_specs a) st (grouping a) (residency a).
Definition set_residency (r : Residency) (a : AggregateContent) : AggregateContent :=
  mkContent (aggregate_specs a) (global_aggregates a) (grouping a) r.

Definition group_fields (g : GhostMeta) : list bytes :=
  match gm_aggregate g with Some agg => Grouping_fields (grouping agg) | None => [] end.

Definition is_grouped (g : GhostMeta) : bool :=
  match gm_aggregate g with Some a => Grouping_is_grouped (grouping a) | None => false end.

Definition aggregates_dirty (g : GhostMeta) : bool :=
  match gm_aggregate g with
  | None => false
  | Some agg =>
    ag_dirty (global_aggregates agg) ||
    match residency agg with InRam m => existsb (fun kv => ag_dirty kv.2) m | Spilled => false end
  end.

(** [None] is the panic of [to_core_expr]. *)
Definition ensure_core_filters (g : GhostMeta) : option GhostMeta :=
  match gm_core_filters_cache g with
  | Some _ => Some g
  | None => match to_core_expr (gm_filter g) with Some c => Some (set_cache c g) | None => None end
  end.

(** ** Entries of the index *)

(** [map.remove(k)] *)
Fixpoint bt_remove {V} (k : bytes) (m : BTreeMap bytes V) : BTreeMap bytes V :=
  match m with
  | [] => []
  | (k', v) :: m' => match ocmp k k' with Eq => m' | _ => (k', v) :: bt_remove k m' end
  end.

Section ghosts.
Context {D : Type} {TA : TreeApi D} {PC : RollupPostcard} {VT : ValueText} {VP : ValuePostcard}.
(** [group_spill_limit()]: 65536, or what the environment says. *)
Context (group_spill_limit : Z).

Definition ghost_entry_tiebreak (group_fields : list bytes) (fields : Fields) (spatial_key_bytes : bytes) : bytes :=
  match group_fields with [] => spatial_key_bytes | _ => extract_group_key fields group_fields end.

Definition encode_projected (nv : bytes * Value) : bytes :=
  [wrap8 (blen nv.1)] ++ nv.1 ++
  match postcard_value nv.2 with Some vb => to_be_bytes 2 (blen vb) ++ vb | None => to_be_bytes 2 0 end.

Definition projected_fields (record : Fields) (projection : list bytes) : list (bytes * Value) :=
  omap (fun f => pair f <$> bt_get f record) projection.

Definition encode_ghost_value (spatial_key : bytes) (record : Fields) (projection : list bytes) : bytes :=
  match projection with
  | [] => spatial_key
  | _ =>
    let projected := projected_fields record projection in
    spatial_key ++ [wrap8 (blen projected)] ++ (projected ≫= encode_projected)
  end.

(** The loop of [decode_ghost_projection] from [pos] on; [None] is a name that is not
    UTF-8. *)
Fixpoint decode_projected (count : nat) (payload : bytes) (pos : Z) (fields : Fields) : option Fields :=
  match count with
  | O => Some fields
  | S count' =>
    match byte_at payload pos with
    | None => Some fields
    | Some name_len =>
      let pos := pos + 1 in
      if blen payload <? pos + name_len then Some fields
      else
        let name := slice payload pos (pos + name_len) in
        if is_utf8 name then
          let pos := pos + name_len in
          if blen payload <? pos + 2 then Some fields
          else
            let val_len := from_be_bytes (slice payload pos (pos + 2)) in
            let pos := pos + 2 in
            let fields :=
              if (0 <? val_len) && (pos + val_len <=? blen payload) then
                match parse_value (slice payload pos (pos + val_len)) with Some value => bt_insert name value fields | None => fields end
              else fields in
            decode_projected count' payload (pos + val_len) fields
        else None
    end
  end.

Definition decode_ghost_projection (entry_value : bytes) (spatial_key_len : Z) (source_lobe : bytes) : option XRecord :=
  if blen entry_value <=? spatial_key_len then None
  else
    let payload := drop (Z.to_nat spatial_key_len) entry_value in
    match payload with
    | [] => None
    | count :: _ =>
      match decode_projected (Z.to_nat count) payload 1 [] with
      | None | Some [] => None
      | Some fields => Some (mkRecord 0 source_lobe fields 0 0)
      end
    end.

Definition entry_key (meta : GhostMeta) (record : Fields) (spatial_key_bytes : bytes) : bytes :=
  encode_sort_key (gm_ghost_id meta) (get_sort_value record (gm_order_by_field meta)) (gm_sort_inverted meta)
    (ghost_entry_tiebreak (group_fields meta) record spatial_key_bytes).

(** ** Roll-ups on disk *)

Definition rollup_append (dictionary : D) (ghost_id : Z) (group_key : bytes) (delta : RollupDelta) : D * bool :=
  let '(dictionary, res) := api_insert (rollup_key ghost_id group_key) (RollupDelta_encode delta) dictionary in
  (dictionary, match res with Ok _ => true | _ => false end).

Record RollupSpiller := mkSpiller { sp_ghost_id : Z; spill_count : Z; sp_limit : Z }.

Definition RollupSpiller_new (ghost_id : Z) : RollupSpiller := mkSpiller ghost_id 0 group_spill_limit.

Definition spilled (s : RollupSpiller) : bool := 0 <? spill_count s.

(** The loop over the map: it stops at the first error. *)
Fixpoint spill_loop (ghost_id : Z) (map : BTreeMap bytes AggregateState) (dictionary : D) : D * Result unit :=
  match map with
  | [] => (dictionary, Ok tt)
  | (gk, st) :: map' =>
    match api_insert (rollup_key ghost_id gk) (RollupDelta_encode (from_aggregate_state st)) dictionary with
    | (dictionary, Ok _) => spill_loop ghost_id map' dictionary
    | (dictionary, e) => (dictionary, e)
    end
  end.

(** The spiller, the map, the dictionary, the outcome. *)
Definition spill (s : RollupSpiller) (map : BTreeMap bytes AggregateState) (dictionary : D) :
    RollupSpiller * BTreeMap bytes AggregateState * D * Result unit :=
  let s := mkSpiller (sp_ghost_id s) (wrap32 (spill_count s + 1)) (sp_limit s) in
  match spill_loop (sp_ghost_id s) map dictionary with
  | (dictionary, Ok _) => (s, [], api_seal_full dictionary, Ok tt)
  | (dictionary, e) => (s, map, dictionary, e)
  end.

Definition maybe_spill (s : RollupSpiller) (map : BTreeMap bytes AggregateState) (dictionary : D) :
    RollupSpiller * BTreeMap bytes AggregateState * D * Result unit :=
  if sp_limit s <? blen map then spill s map dictionary else (s, map, dictionary, Ok tt).

Definition finalize (s : RollupSpiller) (map : BTreeMap bytes AggregateState) (dictionary : D) :
    RollupSpiller * BTreeMap bytes AggregateState * D * Result unit :=
  if spilled s && negb (match map with [] => true | _ => false end) then spill s map dictionary else (s, map, dictionary, Ok tt).

(** ** Maintenance *)

(** [keyspace] and [dictionary] of the manager, and the ghost. *)
Record World := mkWorld { w_keyspace : option D; w_dictionary : option D; w_meta : GhostMeta }.

(** One delta for a group on disk. *)
Definition append_or_degrade (group_key : bytes) (delta : RollupDelta) (w : World) : World :=
  match w_dictionary w with
  | None => w
  | Some dict =>
    let '(dict, ok) := rollup_append dict (gm_ghost_id (w_meta w)) group_key delta in
    mkWorld (w_keyspace w) (Some dict) (if ok then w_meta w else set_degraded (w_meta w))
  end.

Definition put_aggregate (agg : AggregateContent) (w : World) : World :=
  mkWorld (w_keyspace w) (w_dictionary w) (set_aggregate agg (w_meta w)).

(** A record enters a group in memory; the map spills when it outgrows the limit. *)
Definition add_in_ram (gk : bytes) (record : Fields) (agg : AggregateContent) (map : BTreeMap bytes AggregateState) (w : World) : World :=
  let st := AggregateState_add (default AggregateState_default (bt_get gk map)) record (aggregate_specs agg) in
  let map := bt_insert gk st map in
  match w_dictionary w with
  | Some dict =>
    if group_spill_limit <? blen map then
      let '(_, map, dict, res) := spill (RollupSpiller_new (gm_ghost_id (w_meta w))) map dict in
      let r := match res with Ok _ => Spilled | _ => InRam map end in
      put_aggregate (set_residency r agg) (mkWorld (w_keyspace w) (Some dict) (w_meta w))
    else put_aggregate (set_residency (InRam map) agg) w
  | None => put_aggregate (set_residency (InRam map) agg) w
  end.

(** The aggregates of [ghost_insert_inner]. *)
Definition add_to_aggregates (record : Fields) (w : World) : World :=
  match gm_aggregate (w_meta w) with
  | None => w
  | Some agg =>
    let agg := set_global (AggregateState_add (global_aggregates agg) record (aggregate_specs agg)) agg in
    let w := put_aggregate agg w in
    match grouping agg with
    | Global => w
    | Grouped fields =>
      let gk := extract_group_key record fields in
      match residency agg with
      | Spilled => append_or_degrade gk (for_record record (aggregate_specs agg) 1) w
      | InRam map => add_in_ram gk record agg map w
      end
    end
  end.

Definition ghost_insert_inner (record : Fields) (spatial_key_bytes : bytes) (skip_aggregates : bool) (w : World) : World :=
  match w_keyspace w with
  | None => w
  | Some ks =>
    let meta := w_meta w in
    match api_insert (entry_key meta record spatial_key_bytes) (encode_ghost_value spatial_key_bytes record (gm_projection meta)) ks with
    | (ks, Ok _) =>
      let w := mkWorld (Some ks) (w_dictionary w) (set_index_count (wrap64 (gm_index_count meta + 1)) meta) in
      if skip_aggregates then w else add_to_aggregates record w
    | (ks, _) => mkWorld (Some ks) (w_dictionary w) (set_degraded meta)
    end
  end.

(** A record leaves a group in memory; an empty group is dropped. *)
Definition subtract_in_ram (gk : bytes) (record : Fields) (specs : list Metric) (map : BTreeMap bytes AggregateState) : BTreeMap bytes AggregateState :=
  match bt_get gk map with
  | Some group_state =>
    let st := AggregateState_subtract group_state record specs in
    if ag_count st =? 0 then bt_remove gk map else bt_insert gk st map
  | None => map
  end.

(** The aggregates of [ghost_remove_inner]. *)
Definition subtract_from_aggregates (record : Fields) (w : World) : World :=
  match gm_aggregate (w_meta w) with
  | None => w
  | Some agg =>
    let agg := set_global (AggregateState_subtract (global_aggregates agg) record (aggregate_specs agg)) agg in
    let w := put_aggregate agg w in
    match grouping agg with
    | Global => w
    | Grouped fields =>
      let gk := extract_group_key record fields in
      match residency agg with
      | Spilled => append_or_degrade gk (for_record record (aggregate_specs agg) (-1)) w
      | InRam map => put_aggregate (set_residency (InRam (subtract_in_ram gk record (aggregate_specs agg) map)) agg) w
      end
    end
  end.

Definition ghost_remove_inner (record : Fields) (spatial_key_bytes : bytes) (skip_aggregates : bool) (w : World) : World :=
  match w_keyspace w with
  | None => w
  | Some ks =>
    let meta := w_meta w in
    match api_remove (entry_key meta record spatial_key_bytes) ks with
    | (ks, Ok _) =>
      let w := mkWorld (Some ks) (w_dictionary w) (set_index_count (saturating_sub64 (gm_index_count meta) 1) meta) in
      if skip_aggregates then w else subtract_from_aggregates record w
    | (ks, _) => mkWorld (Some ks) (w_dictionary w) (set_degraded meta)
    end
  end.

(** The entry of a record that stays in the ghost. *)
Definition move_entry (old_record new_record : Fields) (old_spatial_key new_spatial_key : bytes) (w : World) : World :=
  match w_keyspace w with
  | None => w
  | Some ks =>
    let meta := w_meta w in
    let old_sort_key := entry_key meta old_record old_spatial_key in
    let new_sort_key := entry_key meta new_record new_spatial_key in
    let entry_value := encode_ghost_value new_spatial_key new_record (gm_projection meta) in
    let '(ks, res) := api_insert new_sort_key entry_value ks in
    let meta := match res with Ok _ => meta | _ => set_degraded meta end in
    if negb (beqb new_sort_key old_sort_key) then
      let '(ks, res) := api_remove old_sort_key ks in
      mkWorld (Some ks) (w_dictionary w) (match res with Ok _ => meta | _ => set_degraded meta end)
    else mkWorld (Some ks) (w_dictionary w) meta
  end.

(** The groups of a record that stays in the ghost, in memory. *)
Definition update_in_ram (old_gk new_gk : bytes) (old_record new_record : Fields) (specs : list Metric)
    (map : BTreeMap bytes AggregateState) : BTreeMap bytes AggregateState :=
  if beqb old_gk new_gk then
    match bt_get old_gk map with
    | Some group_state => bt_insert old_gk (AggregateState_add (AggregateState_subtract group_state old_record specs) new_record specs) map
    | None => map
    end
  else
    let map := subtract_in_ram old_gk old_record specs map in
    bt_insert new_gk (AggregateState_add (default AggregateState_default (bt_get new_gk map)) new_record specs) map.

(** The aggregates of [ghost_update_inner]. *)
Definition update_aggregates (old_record new_record : Fields) (w : World) : World :=
  match gm_aggregate (w_meta w) with
  | None => w
  | Some agg =>
    let specs := aggregate_specs agg in
    let agg := set_global (AggregateState_add (AggregateState_subtract (global_aggregates agg) old_record specs) new_record specs) agg in
    let w := put_aggregate agg w in
    match grouping agg with
    | Global => w
    | Grouped fields =>
      let old_gk := extract_group_key old_record fields in
      let new_gk := extract_group_key new_record fields in
      match residency agg with
      | Spilled =>
        if beqb old_gk new_gk then
          append_or_degrade old_gk (RollupDelta_merge (for_record new_record specs 1) (for_record old_record specs (-1))) w
        else
          append_or_degrade new_gk (for_record new_record specs 1) (append_or_degrade old_gk (for_record old_record specs (-1)) w)
      | InRam map => put_aggregate (set_residency (InRam (update_in_ram old_gk new_gk old_record new_record specs map)) agg) w
      end
    end
  end.

Definition ghost_update_inner (old_record new_record : Fields) (old_spatial_key new_spatial_key : bytes) (skip_aggregates : bool)
    (w : World) : World :=
  match w_keyspace w with
  | None => w
  | Some _ =>
    let w := move_entry old_record new_record old_spatial_key new_spatial_key w in
    if skip_aggregates then w else update_aggregates old_record new_record w
  end.

(** One round of the loop of [notify_write]; [None] is a panic. *)
Definition notify_ghost (record : Fields) (spatial_key_bytes : bytes) (write_type : WriteType) (skip_aggregates : bool) (w : World) : option World :=
  if gm_state (w_meta w) =? 2 then Some w
  else
    match ensure_core_filters (w_meta w) with
    | None => None
    | Some meta =>
      let w := mkWorld (w_keyspace w) (w_dictionary w) meta in
      let matches := fun r => match gm_core_filters_cache meta with Some c => matches_core_expr r c | None => false end in
      let w :=
        match write_type with
        | WInsert => if matches record then ghost_insert_inner record spatial_key_bytes skip_aggregates w else w
        | WDelete => if matches record then ghost_remove_inner record spatial_key_bytes skip_aggregates w else w
        | WUpdate old_record old_spatial_key =>
          match matches old_record, matches record with
          | false, false => w
          | false, true => ghost_insert_inner record spatial_key_bytes skip_aggregates w
          | true, false => ghost_remove_inner old_record old_spatial_key skip_aggregates w
          | true, true => ghost_update_inner old_record record old_spatial_key spatial_key_bytes skip_aggregates w
          end
        end in
      Some (mkWorld (w_keyspace w) (w_dictionary w) (set_updates (wrap64 (gm_incremental_updates (w_meta w) + 1)) (w_meta w)))
    end.

(** The manager: the shard of a lobe, the two trees, the bulk flag. *)
Record GhostLobeManager := mkManager {
  gl_shards : BTreeMap Z (BTreeMap bytes GhostMeta);
  gl_keyspace : option D;
  gl_dictionary : option D;
  gl_bulk_mode : bool;
}.

Fixpoint notify_shard (record : Fields) (spatial_key_bytes : bytes) (write_type : WriteType) (skip : bool)
    (ks dict : option D) (ghosts : BTreeMap bytes GhostMeta) : option (option D * option D * BTreeMap bytes GhostMeta) :=
  match ghosts with
  | [] => Some (ks, dict, [])
  | (name, meta) :: rest =>
    match notify_ghost record spatial_key_bytes write_type skip (mkWorld ks dict meta) with
    | None => None
    | Some w =>
      match notify_shard record spatial_key_bytes write_type skip (w_keyspace w) (w_dictionary w) rest with
      | None => None
      | Some (ks, dict, rest) => Some (ks, dict, (name, w_meta w) :: rest)
      end
    end
  end.

Definition notify_write (lobe_id : Z) (record : Fields) (spatial_key_bytes : bytes) (write_type : WriteType) (gl : GhostLobeManager)
    : option GhostLobeManager :=
  match bt_get lobe_id (gl_shards gl) with
  | None => Some gl
  | Some shard =>
    match notify_shard record spatial_key_bytes write_type (gl_bulk_mode gl) (gl_keyspace gl) (gl_dictionary gl) shard with
    | None => None
    | Some (ks, dict, shard) =>
      Some (mkManager (bt_insert lobe_id shard (gl_shards gl)) (api_seal_full <$> ks) (api_seal_full <$> dict) (gl_bulk_mode gl))
    end
  end.

(** ** Reads of the precomputed aggregates *)

Inductive GhostAggregates :=
  | AggGlobal (st : AggregateState)
  | AggGrouped (groups : BTreeMap bytes AggregateState).

(** [expected_parts]: the fragment a query pins each group field to. *)
Definition expected_part (query_filters : list (bytes * FilterOp * Value)) (gf : bytes) : option bytes :=
  match List.find (fun '(f, op, _) => beqb f gf && bool_decide (op = Eq_)) query_filters with
  | Some (_, _, v) => Some (value_to_group_key_fragment (Some v))
  | None => None
  end.

Definition parts_match (expected_parts : list (option bytes)) (parts : list bytes) : bool :=
  forallb (fun '(i, ep) => match ep with
                           | Some expected => match parts !! i with Some p => beqb p expected | None => false end
                           | None => true
                           end) (imap pair expected_parts).

Definition all_wildcard (expected_parts : list (option bytes)) : bool := forallb (fun p => match p with None => true | _ => false end) expected_parts.
Definition all_pinned (expected_parts : list (option bytes)) : bool := forallb (fun p => match p with Some _ => true | _ => false end) expected_parts.
Definition pinned_key (expected_parts : list (option bytes)) : bytes := encode_group_key (default [] <$> expected_parts).

(** [map.iter().filter(..)]; the decoding may panic. *)
Fixpoint filter_groups (expected_parts : list (option bytes)) (map : BTreeMap bytes AggregateState) : Result (BTreeMap bytes AggregateState) :=
  match map with
  | [] => Ok []
  | (gk, st) :: map' =>
    parts ← decode_group_key gk;
    rest ← filter_groups expected_parts map';
    Ok (if parts_match expected_parts parts then (gk, st) :: rest else rest)
  end.

(** The loop of [read_rollups]. *)
Fixpoint rollup_rows (expected_parts : list (option bytes)) (all_wild : bool) (rows : list (bytes * bytes))
    (out : BTreeMap bytes AggregateState) : Result (BTreeMap bytes AggregateState) :=
  match rows with
  | [] => Ok out
  | (k, v) :: rows' =>
    match rollup_key_group k with
    | None => rollup_rows expected_parts all_wild rows' out
    | Some gk =>
      keep ← (if all_wild then Ok true else parts ← decode_group_key gk; Ok (parts_match expected_parts parts));
      rollup_rows expected_parts all_wild rows'
        (if keep : bool then match decode_rollup_delta v with Some d => bt_insert gk (into_aggregate_state d) out | None => out end
         else out)
    end
  end.

Definition read_rollups (dictionary : option D) (ghost_id : Z) (expected_parts : list (option bytes)) (all_wild : bool)
    : Result (BTreeMap bytes AggregateState) :=
  match dictionary with
  | None => Ok []
  | Some dict =>
    let prefix :=
      if negb all_wild && all_pinned expected_parts then rollup_key ghost_id (pinned_key expected_parts)
      else rollup_ghost_prefix ghost_id in
    rows ← api_prefix_iter dict prefix;
    out ← rollup_rows expected_parts all_wild rows [];
    Ok (filter (fun kv => 0 < ag_count kv.2) out)
  end.

(** [read_precomputed] of a ghost that was found. *)
Definition read_precomputed (dictionary : option D) (meta : GhostMeta) (group_by : list bytes) (query_filters : list (bytes * FilterOp * Value))
    : Result GhostAggregates :=
  match gm_aggregate meta with
  | None => Ok (AggGlobal AggregateState_default)
  | Some agg =>
    if negb (bool_decide (group_by = [])) && bool_decide (group_by = group_fields meta) then
      let expected_parts := expected_part query_filters <$> group_fields meta in
      let all_wild := all_wildcard expected_parts in
      match residency agg with
      | Spilled => groups ← read_rollups dictionary (gm_ghost_id meta) expected_parts all_wild; Ok (AggGrouped groups)
      | InRam map =>
        filtered ←
          (if all_wild then Ok map
           else if all_pinned expected_parts then
             let key := pinned_key expected_parts in
             Ok (match bt_get key map with Some state => [(key, state)] | None => [] end)
           else filter_groups expected_parts map);
        Ok (AggGrouped filtered)
      end
    else Ok (AggGlobal (global_aggregates agg))
  end.

End ghosts.
