(* ===== verification/GhostInv.v ===== *)
(** * The invariant of a ghost's aggregates

    A ghost follows the records of its lobe: its global state and the state of every
    group, in memory or folded from the deltas on disk, stand for the records that
    match its filter. The two trees are used through an interface. *)

From S2P Require Import Prelude ByteOrder BTree Types Block Bloom Memtable Merge Streams TableMeta TableWriter TableReader.
From S2P Require Import Version Leveled Paths Worker Manifest Tree TreeReads TreeSteps.
From S2P Require Import Value Lid Filters Record SortEncoding Aggregate GroupKey Rollup Ghost.

(** ** What a tree promises

    [api_holds d m]: a reader of [d] sees the map [m]; [api_seqno] is its sequence
    number; [api_background] is the work a tree does on its own. *)
Class TreeApiLaws (mo : option MergeOperator) (D : Type) {TA : TreeApi D} := {
  api_seqno : D -> Z;
  api_holds : D -> (bytes -> option bytes) -> Prop;
  api_insert_ok d m k v : api_holds d m -> api_seqno d + 1 < 2 ^ 64 -> entry_valid mo (mkEntry k v 0 Types.Value) ->
    exists d', api_insert k v d = (d', Ok tt) /\ api_seqno d' = api_seqno d + 1 /\ api_holds d' (map_insert mo k v m);
  api_remove_ok d m k : api_holds d m -> api_seqno d + 1 < 2 ^ 64 ->
    exists d', api_remove k d = (d', Ok tt) /\ api_seqno d' = api_seqno d + 1 /\ api_holds d' (map_remove k m);
  api_prefix_ok d m p : api_holds d m -> is_bytes p ->
    exists rows, api_prefix_iter d p = Ok rows /\ StronglySorted (fun a b => (a.1 < b.1)%bytes) rows /\
      forall k v, (k, v) ∈ rows <-> starts_with k p = true /\ m k = Some v;
  api_background : D -> D -> Prop;
  api_background_ok d d' m : api_holds d m -> api_background d d' -> api_holds d' m;
  api_seal_ok d m : api_holds d m -> api_holds (api_seal_full d) m /\ api_seqno (api_seal_full d) = api_seqno d;
}.

(** ** Histories of a group *)

(** The records of a history, up to their order, are those left. *)
Definition follows_to (H : list (Fields * Z)) (L : list Fields) : Prop := exists L0, proper H L0 /\ L0 ≡ₚ L.

Lemma follows_perm H L L' : L ≡ₚ L' -> follows_to H L -> follows_to H L'.
Proof. intros HP (L0 & H1 & H2). exists L0. split; [done|]. by rewrite H2. Qed.

Lemma follows_nil : follows_to [] [].
Proof. exists []. split; [constructor|done]. Qed.

Lemma follows_nil_inv L : follows_to [] L -> L = [].
Proof.
  intros (L0 & H1 & H2). assert (length L0 <= 0)%nat as Hl by (change 0%nat with (length (@nil (Fields * Z))); apply (proper_length _ _ H1)).
  destruct L0; [by apply Permutation_nil_l in H2|cbn in Hl; lia].
Qed.

Lemma follows_add H L r : follows_to H L -> follows_to (H ++ [(r, 1)]) (r :: L).
Proof. intros (L0 & H1 & H2). exists (r :: L0). split; [by apply proper_add|by rewrite H2]. Qed.

Lemma follows_remove H L r : follows_to H (r :: L) -> follows_to (H ++ [(r, -1)]) L.
Proof. intros (L0 & H1 & H2). exists L. split; [by eapply proper_remove|done]. Qed.

Lemma follows_length H L : follows_to H L -> (length L <= length H)%nat.
Proof. intros (L0 & H1 & H2). rewrite <- (Permutation_length H2). apply (proper_length _ _ H1). Qed.

Lemma follows_app H Q L L' : follows_to H L -> follows_to Q L' -> follows_to (H ++ Q) (L' ++ L).
Proof.
  intros HF (L1 & HQ & HP). eapply follows_perm; [by rewrite <- HP|]. clear HP L'.
  induction HQ as [|Q L1 r _ IH|Q L1 L2 r _ IH HP]; [by rewrite app_nil_r|..]; rewrite app_assoc.
  - by apply follows_add.
  - apply follows_remove. eapply follows_perm; [|exact IH]. by rewrite HP.
Qed.

(** ** Records a ghost is exact on *)

Section records.
Context (class : bytes -> SvClass) (specs : list Metric).

(** A contribution: exact in memory and on disk, and storable. *)
Definition contribution_ok (m : Metric) (v : Value) : Prop :=
  ram_admits (m_op m) v = true /\ value_fits class m v /\ stored_ok (StoredValue_from_value v).

Definition record_ok (r : Fields) : Prop :=
  Forall (fun m => match contrib m (r, 1) with Some c => contribution_ok m c.1 | None => True end) specs.

Definition history_ok (H : list (Fields * Z)) : Prop := Forall (fun rs => is_sign rs.2 /\ record_ok rs.1) H.

Record metrics_ok : Prop := {
  mk_distinct : labels_distinct specs;
  mk_labels : Forall (fun m => is_utf8 (m_label m) = true) specs;
}.

Lemma history_ok_perm H H' : H ≡ₚ H' -> history_ok H -> history_ok H'.
Proof. intros HP. unfold history_ok. by rewrite HP. Qed.

Lemma history_contribs H rs m c :
  history_ok H -> rs ∈ H -> m ∈ specs -> contrib m rs = Some c -> contribution_ok m c.1.
Proof.
  intros HH Hrs Hm Hc. unfold history_ok in HH. rewrite Forall_forall in HH. destruct (HH _ Hrs) as [_ Hr]. destruct rs as [r s]. cbn [fst] in Hr.
  unfold record_ok in Hr. rewrite Forall_forall in Hr. specialize (Hr m Hm). rewrite contrib_sign in Hc.
  destruct (contrib m (r, 1)) as [[v s']|]; [|done]. by injection Hc as <-.
Qed.

Lemma history_ram H : history_ok H -> ram_admissible specs H.
Proof.
  intros HH. apply Forall_forall. intros rs Hrs. apply Forall_forall. intros m Hm. destruct (contrib m rs) eqn:E; [|done].
  by destruct (history_contribs _ _ _ _ HH Hrs Hm E).
Qed.

Lemma history_admissible H : history_ok H -> admissible specs H.
Proof.
  intros HH. apply Forall_forall. intros rs Hrs. split; [unfold history_ok in HH; rewrite Forall_forall in HH; by apply HH|].
  apply Forall_forall. intros m Hm. destruct (contrib m rs) eqn:E; [|done].
  destruct (history_contribs _ _ _ _ HH Hrs Hm E) as [Hr _]. by apply andb_prop in Hr as [? _].
Qed.

Lemma records_fit L : Forall record_ok L -> values_fit class specs L.
Proof.
  intros HL. apply Forall_forall. intros m Hm. apply Forall_forall. intros v ([v' s] & -> & Hc)%list_elem_of_fmap.
  unfold live_contribs, contribs in Hc. apply list_elem_of_omap in Hc as (rs & Hrs & Hc). apply list_elem_of_fmap in Hrs as (r & -> & Hr).
  rewrite Forall_forall in HL. specialize (HL r Hr). unfold record_ok in HL. rewrite Forall_forall in HL. specialize (HL m Hm).
  rewrite Hc in HL. apply HL.
Qed.

Lemma history_live H L : history_ok H -> follows_to H L -> Forall record_ok L.
Proof.
  intros HH (L0 & H1 & H2). rewrite <- H2. apply Forall_forall. intros r Hr. pose proof (proper_added _ _ _ H1 Hr) as Hin.
  unfold history_ok in HH. rewrite Forall_forall in HH. by apply (HH (r, 1)).
Qed.

(** ** The deltas of such records are typed *)

Context {PC : RollupPostcard} (schema : bytes -> bytes -> AggOp * SvClass).

(** The schema of a key is that of the metrics. *)
Definition schema_of (k : bytes) : Prop :=
  forall m, m ∈ specs -> rides_total_count m = false -> schema k (m_label m) = (m_op m, class (m_label m)).

Lemma delta_value_typed m v s :
  contribution_ok m v -> is_sign s ->
  delta_value_ok (delta_value (m_op m) v s).1 /\ dv_typed (m_op m, class (m_label m)) (delta_value (m_op m) v s).1.
Proof.
  intros (Ha & [Hi Hc] & Hs) Hsign. apply andb_prop in Ha as [Ha _].
  assert (in_i 64 s) as Hs64 by (destruct Hsign as [-> | ->]; unfold in_i; lia).
  assert (op_admits AggSum v = true -> sum_ok (add_scaled SumAcc_default v s)) as Hsum.
  { intros Hv. change SumAcc_default with (SumInt (swrap 128 0)). rewrite add_scaled_exact by done. apply swrap_in_i. lia. }
  unfold dv_typed. destruct (m_op m); cbn in *.
  - done.
  - split; [auto|done].
  - destruct (s <? 0); cbn; auto.
  - destruct (s <? 0); cbn; auto.
  - split; [|done]. split; [|done]. apply Hsum. by destruct v.
Qed.

Lemma for_record_typed k r s : metrics_ok -> schema_of k -> is_sign s -> record_ok r -> delta_typed schema k (for_record r specs s).
Proof.
  intros [Hd Hl] Hk Hs Hr. destruct (for_record_spec r s specs) as (F1 & F2 & _ & F4 & F5). specialize (F4 Hd).
  assert (forall l dv, bt_get l (rd_values (for_record r specs s)) = Some dv -> is_utf8 l = true /\ delta_value_ok dv /\ dv_typed (schema k l) dv) as H.
  { intros l dv E. destruct (label_cases specs l) as [(m & Hm & Hrm & <-)|Hno]; [|by rewrite F5 in E].
    rewrite F4 in E by done. destruct (contrib m (r, s)) as [[v s']|] eqn:Ec; [|done]. injection E as <-.
    pose proof (contrib_snd _ _ _ _ Ec) as E'. cbn in E'. subst s'. cbn [fst snd].
    assert (contribution_ok m v) as Hc.
    { eapply (history_contribs [(r, s)] (r, s) m (v, s)); [|left|done|done]. constructor; [by split|constructor]. }
    rewrite Forall_forall in Hl. rewrite (Hk m Hm Hrm). split; [auto|]. by apply delta_value_typed. }
  split; [split|].
  - rewrite F1. destruct Hs as [-> | ->]; unfold in_i; lia.
  - done.
  - intros l dv Hdv. destruct (H l dv Hdv) as (? & ? & ?). done.
  - intros l dv Hdv. by apply H.
Qed.

Lemma deltas_typed k H : metrics_ok -> schema_of k -> history_ok H -> Forall (delta_typed schema k) (deltas specs H).
Proof.
  intros Hm Hk HH. apply Forall_fmap. eapply Forall_impl; [exact HH|]. intros rs [? ?]. by apply for_record_typed.
Qed.

End records.

(** ** Groups *)

Section groups.
Context (class : bytes -> SvClass) (specs : list Metric).
Hypothesis Hspecs : metrics_ok specs.

Abbreviation Hok := (history_ok class specs).

Lemma history_ok_snoc H r s : Hok H -> is_sign s -> record_ok class specs r -> Hok (H ++ [(r, s)]).
Proof. intros. apply Forall_app. split; [done|]. constructor; [by split|constructor]. Qed.

(** A group in memory stands for the records [L]; an empty one is not there. [N]
    bounds the length of its history. *)
Definition group_ram (N : Z) (L : list Fields) (o : option AggregateState) : Prop :=
  exists H, follows_to H L /\ Hok H /\ Z.of_nat (length H) <= N /\
    match o with None => H = [] | Some st => st = state_of specs H /\ L <> [] end.

(** A group on disk: the deltas were appended in some order. *)
Definition group_disk {PC : RollupPostcard} (N : Z) (L : list Fields) (o : option bytes) : Prop :=
  exists P H, follows_to H L /\ P ≡ₚ H /\ Hok H /\ Z.of_nat (length H) <= N /\
    match o with None => P = [] | Some v => decode_rollup_delta v = Some (fold_deltas (deltas specs P)) end.

Lemma group_ram_none N L : group_ram N L None <-> L = [] /\ 0 <= N.
Proof.
  split.
  - intros (H & H1 & _ & H3 & ->). split; [by apply follows_nil_inv|cbn in H3; lia].
  - intros [-> HN]. exists []. split; [apply follows_nil|]. split; [constructor|]. by split.
Qed.

Lemma group_ram_perm N N' L L' o : L ≡ₚ L' -> N <= N' -> group_ram N L o -> group_ram N' L' o.
Proof.
  intros HP HN (H & H1 & H2 & H3 & H4). exists H. split; [by eapply follows_perm|]. split; [done|]. split; [lia|].
  destruct o; [|done]. destruct H4 as [? HL]. split; [done|]. intros ->. by apply HL, Permutation_nil_r.
Qed.

Lemma group_disk_perm {PC : RollupPostcard} N N' L L' o : L ≡ₚ L' -> N <= N' -> group_disk N L o -> group_disk N' L' o.
Proof.
  intros HP HN (P & H & H1 & H2 & H3 & H4 & H5). exists P, H. split; [by eapply follows_perm|]. split; [done|]. split; [done|]. by split; [lia|].
Qed.

Lemma state_of_snoc H rs : state_of specs (H ++ [rs]) = apply_record specs (state_of specs H) rs.
Proof. unfold state_of. by rewrite foldl_app. Qed.

Lemma group_ram_history N L o : group_ram N L o -> exists H, follows_to H L /\ Hok H /\ Z.of_nat (length H) <= N /\ default AggregateState_default o = state_of specs H.
Proof. intros (H & H1 & H2 & H3 & H4). exists H. do 3 (split; [done|]). destruct o; [apply H4|by subst H]. Qed.

Lemma group_ram_add N L o r :
  group_ram N L o -> record_ok class specs r ->
  group_ram (N + 1) (r :: L) (Some (AggregateState_add (default AggregateState_default o) r specs)).
Proof.
  intros (H & H1 & H2 & H3 & ->)%group_ram_history Hr. exists (H ++ [(r, 1)]). split; [by apply follows_add|].
  split; [by apply history_ok_snoc; [|left|]|]. rewrite length_app. cbn. split; [lia|]. split; [|done]. by rewrite state_of_snoc.
Qed.

(** The state after a record has left. *)
Lemma group_ram_left N L o r :
  group_ram N (r :: L) o -> record_ok class specs r ->
  exists st H, o = Some st /\ follows_to H L /\ Hok H /\ Z.of_nat (length H) <= N + 1 /\ AggregateState_subtract st r specs = state_of specs H.
Proof.
  intros (H & H1 & H2 & H3 & H4) Hr. destruct o as [st|]; [|subst H; by apply follows_nil_inv in H1]. destruct H4 as [-> _].
  exists (state_of specs H), (H ++ [(r, -1)]). split; [done|]. split; [by apply follows_remove|].
  split; [by apply history_ok_snoc; [|right|]|]. rewrite length_app. cbn. split; [lia|]. by rewrite state_of_snoc.
Qed.

Lemma state_count H L : Hok H -> follows_to H L -> Z.of_nat (length H) < 2 ^ 63 -> ag_count (state_of specs H) = Z.of_nat (length L).
Proof.
  intros HH (L0 & H1 & H2) Hl. rewrite <- (Permutation_length H2). destruct Hspecs.
  by apply (state_history specs H L0); [|eapply history_ram|..].
Qed.

Lemma group_ram_subtract N L o r :
  group_ram N (r :: L) o -> record_ok class specs r -> N + 1 < 2 ^ 63 ->
  exists st, o = Some st /\ let st' := AggregateState_subtract st r specs in
    group_ram (N + 1) L (if ag_count st' =? 0 then None else Some st').
Proof.
  intros HG Hr HN. destruct (group_ram_left _ _ _ _ HG Hr) as (st & H & -> & H1 & H2 & H3 & E). exists st. split; [done|]. cbv zeta.
  rewrite E, (state_count H L) by (done || lia). destruct (Z.eqb_spec (Z.of_nat (length L)) 0).
  - apply group_ram_none. split; [destruct L; [done|cbn in *; lia]|lia].
  - exists H. do 3 (split; [done|]). split; [done|]. intros ->. done.
Qed.

Lemma group_ram_replace N L o old new :
  group_ram N (old :: L) o -> record_ok class specs old -> record_ok class specs new ->
  exists st, o = Some st /\
    group_ram (N + 2) (new :: L) (Some (AggregateState_add (AggregateState_subtract st old specs) new specs)).
Proof.
  intros HG Ho Hn. destruct (group_ram_left _ _ _ _ HG Ho) as (st & H & -> & H1 & H2 & H3 & E). exists st. split; [done|]. rewrite E.
  exists (H ++ [(new, 1)]). split; [by apply follows_add|]. split; [by apply history_ok_snoc; [|left|]|].
  rewrite length_app. cbn. split; [lia|]. split; [|done]. by rewrite state_of_snoc.
Qed.

Lemma group_ram_summarises N L st : group_ram N L (Some st) -> N < 2 ^ 63 -> summarises specs L st.
Proof.
  intros (H & (L0 & H1 & HP) & H2 & H3 & -> & _) HN. eapply summarises_perm; [exact HP|]. destruct Hspecs.
  eapply state_exact; [done|by eapply history_ram|done|lia|]. eapply records_fit, history_live; [done|]. by exists L0.
Qed.

Section disk.
Context {PC : RollupPostcard} `{!RollupPostcardLaws PC} (schema : bytes -> bytes -> AggOp * SvClass) (k : bytes).
Hypothesis Hk : schema_of class specs schema k.

Lemma fold_typed H : Hok H -> delta_typed schema k (fold_deltas (deltas specs H)).
Proof. intros. apply fold_deltas_typed. by eapply deltas_typed. Qed.

Lemma fold_operand H : Hok H -> operand (MergeOperator := RollupMergeOperator schema) k (RollupDelta_encode (fold_deltas (deltas specs H))).
Proof. intros HH. eexists. split; [|by apply fold_typed]. apply delta_decode_encode, (fold_typed H HH). Qed.

(** Deltas that stand for the records [Q] reach the disk. *)
Lemma group_disk_append N N' L L' Q Q' o :
  (forall H, follows_to H L -> follows_to (H ++ Q') L') -> Q ≡ₚ Q' -> Hok Q -> N + Z.of_nat (length Q) <= N' -> group_disk N L o ->
  group_disk N' L' (Some (rollup_merge (RollupDelta_encode (fold_deltas (deltas specs Q)) :: option_list o))).
Proof.
  intros HF HQ HQok HN (P & H & H1 & H2 & H3 & H4 & H5). exists (Q ++ P), (H ++ Q'). split; [auto|].
  split; [rewrite HQ, H2; apply Permutation_app_comm|].
  split; [apply Forall_app; split; [done|]; by rewrite <- HQ|]. rewrite length_app. rewrite (Permutation_length HQ) in HN. split; [lia|].
  pose proof (history_ok_perm class specs H P ltac:(by symmetry) H3) as HPok.
  pose proof (fold_typed Q HQok) as TQ. pose proof (fold_typed P HPok) as TP.
  rewrite (rollup_merge_fold _ (fold_deltas (deltas specs Q) :: match o with Some _ => [fold_deltas (deltas specs P)] | None => [] end)).
  2: { constructor; [apply delta_decode_encode, TQ|]. destruct o; [by repeat constructor|constructor]. }
  replace (deltas specs (Q ++ P)) with (deltas specs Q ++ deltas specs P) by (unfold deltas; by rewrite fmap_app).
  rewrite (fold_deltas_app schema k) by (by eapply deltas_typed).
  rewrite (fold_deltas_cons schema k); [|done|destruct o; [by apply Forall_singleton|constructor]]. destruct o as [v|].
  - assert (fold_deltas [fold_deltas (deltas specs P)] = fold_deltas (deltas specs P)) as -> by (apply (merge_default_l schema k), TP).
    apply delta_decode_encode. by apply (merge_typed schema k).
  - subst P. change (fold_deltas []) with (fold_deltas (deltas specs [])). apply delta_decode_encode. by apply (merge_typed schema k).
Qed.

Lemma group_disk_none N : 0 <= N -> group_disk N [] None.
Proof. intros. exists [], []. split; [apply follows_nil|]. split; [done|]. split; [constructor|]. by split. Qed.

Lemma group_disk_spill N L st : group_ram N L (Some st) -> N < 2 ^ 63 ->
  exists Q, Hok Q /\ from_aggregate_state st = fold_deltas (deltas specs Q) /\ Z.of_nat (length Q) <= N /\ follows_to Q L.
Proof.
  intros (H & HF & H2 & H3 & -> & _) HN. exists H. split; [done|]. split; [|done]. destruct HF as (L0 & H1 & _), Hspecs.
  eapply spilled_state; [done|by eapply history_ram|done|lia].
Qed.

Lemma group_disk_summarises N L v : group_disk N L (Some v) -> N < 2 ^ 63 ->
  exists d, decode_rollup_delta v = Some d /\ summarises specs L (into_aggregate_state d).
Proof.
  intros (P & H & (L0 & H1 & HP) & H2 & H3 & H4 & H5) HN. eexists. split; [exact H5|]. eapply summarises_perm; [exact HP|]. destruct Hspecs.
  eapply folded_exact; [done|exact H1|done|rewrite (Permutation_length H2); lia|eapply history_admissible, history_ok_perm; [by symmetry|done]|].
  eapply records_fit, history_live; [done|]. by exists L0.
Qed.

End disk.
End groups.
