(* ===== verification/GhostRun.v ===== *)
(** * A ghost over a run of writes

    [notify_write] keeps the invariant of GhostInv.v for every ghost of every lobe,
    whether the groups are in memory, spill, or are on disk; the reads of the
    precomputed aggregates then return what the records of the lobe say. *)

From S2P Require Import Prelude ByteOrder BTree Types Block Bloom Memtable Merge Streams TableMeta TableWriter TableReader.
From S2P Require Import Version Leveled Paths Worker Manifest Tree TreeReads TreeSteps.
From S2P Require Import Value Lid Filters Record SortEncoding Aggregate GroupKey Rollup Ghost GhostInv.

(** ** Group keys *)

Lemma is_utf8_app a b : is_utf8 a = true -> is_utf8 b = true -> is_utf8 (a ++ b) = true.
Proof.
  intros Ha Hb. assert (forall n a, (length a <= n)%nat -> is_utf8 a = true -> is_utf8 (a ++ b) = true) as H; [|by eapply H].
  clear a Ha. induction n as [|n IH]; intros a Hn Ha; (destruct a as [|c1 a]; [done|]); cbn [length] in Hn; [lia|].
  cbn [is_utf8 app] in *. case_match; [apply IH; [lia|done]|].
  destruct a as [|c2 a]; [done|]. cbn [app length] in *. case_match; [apply IH; [lia|done]|].
  destruct a as [|c3 a]; [done|]. cbn [app length] in *. case_match; [apply IH; [lia|done]|].
  destruct a as [|c4 a]; [done|]. cbn [app length] in *. case_match; [apply IH; [lia|done]|done].
Qed.

Lemma encode_group_key_utf8 fs : Forall (fun f => is_utf8 f = true) fs -> is_utf8 (encode_group_key fs) = true.
Proof.
  intros H. rewrite encode_group_key_foldr. induction H as [|f fs Hf _ IH]; [done|]. cbn [foldr].
  apply is_utf8_app; [|done]. apply is_utf8_app; [|by apply (is_utf8_app [58])].
  apply ascii_utf8. eapply Forall_impl; [apply format_u64_digits|]. cbn. lia.
Qed.

(** A key that names a group of [n] fields. *)
Definition group_key_ok (n : nat) (gk : bytes) : Prop :=
  blen gk <= 65535 /\ exists frags, Forall (fun f => is_utf8 f = true) frags /\ length frags = n /\ gk = encode_group_key frags.

Lemma group_key_ok_utf8 n gk : group_key_ok n gk -> is_utf8 gk = true.
Proof. intros [_ (frags & H & _ & ->)]. by apply encode_group_key_utf8. Qed.

Lemma decode_encode_key frags :
  Forall (fun f => is_utf8 f = true) frags -> blen (encode_group_key frags) <= 65535 -> decode_group_key (encode_group_key frags) = Ok frags.
Proof.
  intros Hu Hl. unfold decode_group_key. apply (decode_group_loop_encode frags _ [] []); [|done|cbn; lia].
  apply Nat.lt_succ_r. rewrite encode_group_key_foldr. clear. induction frags as [|f fs IH]; [done|].
  cbn [foldr]. rewrite !length_app. cbn [length]. lia.
Qed.

Lemma group_key_ok_roundtrip n g gk : group_key_ok n gk -> rollup_key_group (rollup_key g gk) = Some gk.
Proof. intros Hk. apply rollup_key_group_key; [apply Hk|by eapply group_key_ok_utf8]. Qed.

Lemma rollup_key_inj n g gk gk' : group_key_ok n gk -> group_key_ok n gk' -> rollup_key g gk = rollup_key g gk' -> gk = gk'.
Proof.
  intros H H' E. apply (f_equal rollup_key_group) in E. rewrite !(group_key_ok_roundtrip n) in E by done. congruence.
Qed.

Lemma rollup_key_prefix g gk : starts_with (rollup_key g gk) (rollup_ghost_prefix g) = true.
Proof. apply starts_with_iff. eexists. unfold rollup_key, rollup_ghost_prefix. rewrite <- app_assoc. reflexivity. Qed.

Lemma rollup_key_owned g gk : rollup_owns (rollup_key g gk) = true.
Proof. apply starts_with_iff. eexists. reflexivity. Qed.

Lemma ghost_prefix_inj g g' k :
  is_uint 16 g -> is_uint 16 g' -> starts_with k (rollup_ghost_prefix g) = true -> starts_with k (rollup_ghost_prefix g') = true -> g = g'.
Proof.
  intros Hg Hg' (a & ->)%starts_with_iff (b & E)%starts_with_iff. unfold rollup_ghost_prefix in E. rewrite <- !app_assoc in E. apply app_inv_head in E.
  apply (f_equal (take 2)) in E. rewrite !take_app_length' in E by (symmetry; apply length_to_be_bytes).
  apply (f_equal from_be_bytes) in E. by rewrite !(from_to_be_bytes_id 2 16) in E.
Qed.

(** ** The groups of a ghost *)

Section ghost.
Context {D : Type} {TA : TreeApi D} {PC : RollupPostcard} `{!RollupPostcardLaws PC} {VT : ValueText} `{!ValueTextLaws VT} {VP : ValuePostcard}.
Context (limit : Z) (schema : bytes -> bytes -> AggOp * SvClass) (classes : Z -> bytes -> SvClass).
Context {KL : TreeApiLaws None D} {DL : TreeApiLaws (Some (RollupMergeOperator schema)) D}.

Abbreviation dict_holds := (@api_holds _ _ _ DL).
Abbreviation dict_seqno := (@api_seqno _ _ _ DL).
Abbreviation ks_holds := (@api_holds _ _ _ KL).
Abbreviation ks_seqno := (@api_seqno _ _ _ KL).
Abbreviation dict_mo := (Some (RollupMergeOperator schema)).

Section groups.
Context (g : Z) (specs : list Metric) (n : nat).
Hypothesis Hspecs : metrics_ok specs.
Hypothesis Hschema : forall gk, schema_of (classes g) specs schema (rollup_key g gk).

Definition in_prefix (k : bytes) : Prop := starts_with k (rollup_ghost_prefix g) = true.

(** The groups [G], in memory or on disk. *)
Definition groups_inv (N : Z) (G : bytes -> list Fields) (res : Residency) (md : bytes -> option bytes) : Prop :=
  match res with
  | InRam map => bt_sorted map /\ (forall gk, group_ram (classes g) specs N (G gk) (bt_get gk map)) /\ (forall k, in_prefix k -> md k = None)
  | Spilled => (forall gk, group_key_ok n gk -> group_disk (classes g) specs N (G gk) (md (rollup_key g gk))) /\
      (forall k v, in_prefix k -> md k = Some v -> exists gk, group_key_ok n gk /\ k = rollup_key g gk)
  end.

Lemma groups_inv_frame N G res md md' : (forall k, in_prefix k -> md' k = md k) -> groups_inv N G res md -> groups_inv N G res md'.
Proof.
  intros HF. destruct res as [map|]; cbn.
  - intros (H1 & H2 & H3). do 2 (split; [done|]). intros k Hk. by rewrite HF, H3.
  - intros [H1 H2]. split; [intros gk Hgk; rewrite HF by apply rollup_key_prefix; auto|]. intros k v Hk Hv. rewrite HF in Hv by done. eauto.
Qed.

Lemma groups_inv_perm N N' G G' res md :
  (forall gk, G gk ≡ₚ G' gk) -> N <= N' -> groups_inv N G res md -> groups_inv N' G' res md.
Proof.
  intros HG HN. destruct res as [map|]; cbn.
  - intros (H1 & H2 & H3). split; [done|]. split; [|done]. intros gk. eapply group_ram_perm; eauto.
  - intros [H1 H2]. split; [|done]. intros gk Hgk. eapply group_disk_perm; eauto.
Qed.

(** A delta for one group. *)
Lemma append_spec N N' G G' dict md gk Q Q' :
  groups_inv N G Spilled md -> dict_holds dict md -> dict_seqno dict + 1 < 2 ^ 64 -> group_key_ok n gk ->
  (forall H, follows_to H (G gk) -> follows_to (H ++ Q') (G' gk)) -> Q ≡ₚ Q' -> history_ok (classes g) specs Q ->
  (forall gk', gk' <> gk -> G gk' ≡ₚ G' gk') -> N + Z.of_nat (length Q) <= N' ->
  exists dict' md', rollup_append dict g gk (fold_deltas (deltas specs Q)) = (dict', true) /\ dict_holds dict' md' /\
    dict_seqno dict' = dict_seqno dict + 1 /\ (forall k, ~ in_prefix k -> md' k = md k) /\ groups_inv N' G' Spilled md'.
Proof.
  intros [I1 I2] Hd Hs Hgk HF HQ HQok HG HN. set (v := RollupDelta_encode (fold_deltas (deltas specs Q))). set (k := rollup_key g gk).
  destruct (api_insert_ok dict md k v Hd Hs) as (dict' & E & Hs' & Hd').
  { intros _ _. apply (fold_operand (classes g) specs Hspecs schema k (Hschema gk) Q HQok). }
  exists dict'. eexists. unfold rollup_append. fold k v. rewrite E. do 2 (split; [done|]). split; [done|].
  assert (forall k', map_insert dict_mo k v md k' = if beqb k' k then Some (rollup_merge (v :: option_list (md k))) else md k') as Hm.
  { intros k'. unfold map_insert, owned, merge_values. cbn [owns merge RollupMergeOperator]. unfold k at 2. by rewrite rollup_key_owned. }
  split; [|split].
  - intros k' Hk'. rewrite Hm. destruct (beqb k' k) eqn:Eb; [|done]. apply beqb_eq in Eb as ->. by destruct Hk'; apply rollup_key_prefix.
  - intros gk' Hgk'. rewrite Hm. destruct (beqb (rollup_key g gk') k) eqn:Eb.
    + apply beqb_eq, (rollup_key_inj n) in Eb as ->; [|done|done].
      eapply (group_disk_append (classes g) specs Hspecs schema k (Hschema gk)); [exact HF|done|done|exact HN|auto].
    + eapply (group_disk_perm _ _ N); [apply HG|lia|by apply I1]. intros ->. by rewrite beqb_refl in Eb.
  - intros k' v' Hk' Hv. rewrite Hm in Hv. destruct (beqb k' k) eqn:Eb; [|eauto]. apply beqb_eq in Eb as ->. eauto.
Qed.

(** All groups of a map. *)
Lemma spill_loop_spec N G map dict md :
  NoDup map.*1 -> (forall gk st, (gk, st) ∈ map -> group_key_ok n gk /\ group_ram (classes g) specs N (G gk) (Some st)) -> N < 2 ^ 63 ->
  dict_holds dict md -> dict_seqno dict + blen map < 2 ^ 64 -> (forall gk, gk ∈ map.*1 -> md (rollup_key g gk) = None) ->
  exists dict' md', spill_loop g map dict = (dict', Ok tt) /\ dict_holds dict' md' /\ dict_seqno dict' = dict_seqno dict + blen map /\
    (forall gk, gk ∈ map.*1 -> group_disk (classes g) specs N (G gk) (md' (rollup_key g gk))) /\
    (forall k, (forall gk, gk ∈ map.*1 -> k <> rollup_key g gk) -> md' k = md k).
Proof.
  revert dict md. induction map as [|[gk st] map IH]; intros dict md Hnd Hmap HN Hd Hs Hnone.
  { exists dict, md. split; [done|]. split; [done|]. split; [unfold blen; cbn; lia|]. split; [by intros gk ?%elem_of_nil|done]. }
  cbn [fmap list_fmap fst] in Hnd, Hnone |- *. apply NoDup_cons in Hnd as [Hnin Hnd]. destruct (Hmap gk st ltac:(left)) as [Hgk Hram].
  assert (blen ((gk, st) :: map) = blen map + 1) as El by (unfold blen; cbn [length]; lia). rewrite El in *.
  destruct (group_disk_spill (classes g) specs Hspecs N (G gk) st Hram HN) as (Q & HQ & EQ & HQl & HQf).
  set (v := RollupDelta_encode (fold_deltas (deltas specs Q))). set (k := rollup_key g gk).
  destruct (api_insert_ok dict md k v Hd ltac:(unfold blen in *; lia)) as (d1 & E & Hs1 & Hd1).
  { intros _ _. apply (fold_operand (classes g) specs Hspecs schema k (Hschema gk) Q HQ). }
  assert (forall k', map_insert dict_mo k v md k' = if beqb k' k then Some (rollup_merge [v]) else md k') as Hm.
  { intros k'. unfold map_insert, owned, merge_values. cbn [owns merge RollupMergeOperator]. unfold k at 2. rewrite rollup_key_owned.
    unfold k at 2. by rewrite (Hnone gk ltac:(left)). }
  assert (forall gk', gk' ∈ map.*1 -> rollup_key g gk' <> k) as Hne.
  { intros gk' Hin Ek. apply list_elem_of_fmap in Hin as Hin'. destruct Hin' as ([gk1 st1] & -> & Hin1). cbn in *.
    apply (rollup_key_inj n) in Ek; [subst; done|by eapply Hmap; right|done]. }
  destruct (IH d1 (map_insert dict_mo k v md)) as (d2 & md2 & E2 & Hd2 & Hs2 & H2 & H3); [done|intros; apply Hmap; by right|done|done|lia| |].
  { intros gk' Hin. rewrite Hm. rewrite (proj2 (beqb_neq _ _)) by (by apply Hne). apply Hnone. by right. }
  exists d2, md2. cbn [spill_loop]. rewrite EQ. fold v k. rewrite E. split; [done|]. split; [done|]. split; [lia|]. split.
  - intros gk' [->|Hin]%elem_of_cons; [|auto]. rewrite H3 by (intros gk' Hin Ek; by apply (Hne gk')). rewrite Hm, beqb_refl.
    eapply (group_disk_append (classes g) specs Hspecs schema k (Hschema gk) 0 N [] (G gk) Q Q None); [|done|done|lia|by apply group_disk_none].
    intros H HH. rewrite <- (app_nil_r (G gk)). by apply follows_app.
  - intros k' Hk'. rewrite H3 by (intros; apply Hk'; by right). rewrite Hm, (proj2 (beqb_neq _ _)); [done|]. apply Hk'. left.
Qed.

(** ** Groups in memory *)

Lemma bt_get_remove k k' (m : BTreeMap bytes AggregateState) :
  bt_sorted m -> bt_get k (bt_remove k' m) = match ocmp k k' with Eq => None | _ => bt_get k m end.
Proof.
  induction 1 as [|[k1 v1] m Hs IH Hk]; cbn [bt_remove bt_get]; [by destruct (ocmp k k')|].
  destruct (ocmp k' k1) eqn:E; cbn [bt_get].
  - apply ocmp_eq in E as ->. destruct (ocmp k k1) eqn:E'; [|done..]. apply ocmp_eq in E' as ->.
    apply bt_get_below. eapply Forall_impl; [exact Hk|]. by intros kv.
  - rewrite IH. destruct (ocmp k k') eqn:E'; [|done..]. apply ocmp_eq in E' as ->. by rewrite E.
  - rewrite IH. destruct (ocmp k k') eqn:E'; [|done..]. apply ocmp_eq in E' as ->. by rewrite E.
Qed.

Lemma bt_remove_sorted k (m : BTreeMap bytes AggregateState) : bt_sorted m -> bt_sorted (bt_remove k m).
Proof.
  assert (forall kv (l : BTreeMap bytes AggregateState), kv ∈ bt_remove k l -> kv ∈ l) as Hin.
  { intros kv l. induction l as [|[k1 v1] l IH]; cbn [bt_remove]; [done|]. destruct (ocmp k k1); intros H; [by right|..]; apply elem_of_cons in H as [->|?]; [left|right; auto|left|right; auto]. }
  induction 1 as [|[k1 v1] m' Hs IH Hk]; cbn [bt_remove]; [constructor|]. rewrite Forall_forall in Hk.
  destruct (ocmp k k1); [exact Hs|constructor; [exact IH|]; apply Forall_forall; auto..].
Qed.

Lemma bt_insert_length gk (st : AggregateState) m : blen (bt_insert gk st m) <= blen m + 1.
Proof. unfold blen. induction m as [|[k v] m IH]; cbn [bt_insert length]; [lia|]. destruct (ocmp gk k); cbn [length]; lia. Qed.

(** The groups after a record came, left, or was replaced. *)
Definition joins (G G' : bytes -> list Fields) (gk : bytes) (r : Fields) : Prop :=
  G' gk ≡ₚ r :: G gk /\ forall gk', gk' <> gk -> G' gk' ≡ₚ G gk'.

Abbreviation Rok := (record_ok (classes g) specs).

Lemma ram_insert N G G' map md gk r :
  groups_inv N G (InRam map) md -> joins G G' gk r -> Rok r ->
  groups_inv (N + 1) G' (InRam (bt_insert gk (AggregateState_add (default AggregateState_default (bt_get gk map)) r specs) map)) md.
Proof.
  intros (H1 & H2 & H3) [J1 J2] Hr. split; [by apply bt_insert_sorted|]. split; [|done]. intros gk'. rewrite bt_get_insert.
  destruct (ocmp gk' gk) eqn:E; [apply ocmp_eq in E as ->|..].
  - eapply group_ram_perm; [by symmetry|reflexivity|]. by apply group_ram_add.
  - eapply (group_ram_perm _ _ N); [|lia|apply H2]. symmetry. apply J2. intros ->. by rewrite ocmp_refl in E.
  - eapply (group_ram_perm _ _ N); [|lia|apply H2]. symmetry. apply J2. intros ->. by rewrite ocmp_refl in E.
Qed.

Lemma ram_subtract N G G' map md gk r :
  groups_inv N G' (InRam map) md -> joins G G' gk r -> Rok r -> N + 1 < 2 ^ 63 ->
  groups_inv (N + 1) G (InRam (subtract_in_ram gk r specs map)) md.
Proof.
  intros (H1 & H2 & H3) [J1 J2] Hr HN. unfold subtract_in_ram.
  destruct (group_ram_subtract (classes g) specs Hspecs N (G gk) (bt_get gk map) r) as (st & -> & HG); [by eapply group_ram_perm|done|done|].
  cbv zeta in HG. destruct (ag_count _ =? 0).
  - split; [by apply bt_remove_sorted|]. split; [|done]. intros gk'. rewrite bt_get_remove by done.
    destruct (ocmp gk' gk) eqn:E; [by apply ocmp_eq in E as ->|..]; (eapply (group_ram_perm _ _ N); [|lia|apply H2]);
      apply J2; intros ->; by rewrite ocmp_refl in E.
  - split; [by apply bt_insert_sorted|]. split; [|done]. intros gk'. rewrite bt_get_insert.
    destruct (ocmp gk' gk) eqn:E; [by apply ocmp_eq in E as ->|..]; (eapply (group_ram_perm _ _ N); [|lia|apply H2]);
      apply J2; intros ->; by rewrite ocmp_refl in E.
Qed.

(** [G] with the old record, [G'] with the new one, [G0] without either. *)
Lemma ram_update N G0 G G' map md old_gk new_gk old new :
  groups_inv N G (InRam map) md -> joins G0 G old_gk old -> joins G0 G' new_gk new -> Rok old -> Rok new -> N + 2 < 2 ^ 63 ->
  groups_inv (N + 2) G' (InRam (update_in_ram old_gk new_gk old new specs map)) md.
Proof.
  intros HI J J' Ho Hn HN. unfold update_in_ram. destruct (beqb old_gk new_gk) eqn:E.
  - apply beqb_eq in E as <-. destruct HI as (H1 & H2 & H3), J as [J1 J2], J' as [J1' J2'].
    destruct (group_ram_replace (classes g) specs N (G0 old_gk) (bt_get old_gk map) old new) as (st & -> & HG); [by eapply group_ram_perm|done|done|].
    split; [by apply bt_insert_sorted|]. split; [|done]. intros gk'. rewrite bt_get_insert.
    destruct (ocmp gk' old_gk) eqn:E.
    + apply ocmp_eq in E as ->. eapply group_ram_perm; [by symmetry|reflexivity|done].
    + eapply (group_ram_perm _ _ N); [|lia|apply H2]. rewrite J2, J2'; [done|intros ->; by rewrite ocmp_refl in E..].
    + eapply (group_ram_perm _ _ N); [|lia|apply H2]. rewrite J2, J2'; [done|intros ->; by rewrite ocmp_refl in E..].
  - replace (N + 2) with (N + 1 + 1) by lia. eapply ram_insert; [|exact J'|done]. eapply ram_subtract; [done|exact J|done|lia].
Qed.

(** ** A map that spills *)

Lemma spill_spec N G map dict md :
  groups_inv N G (InRam map) md -> (forall gk, G gk <> [] -> group_key_ok n gk) -> N < 2 ^ 63 ->
  dict_holds dict md -> dict_seqno dict + blen map < 2 ^ 64 ->
  exists sp dict' md', spill (RollupSpiller_new limit g) map dict = (sp, [], dict', Ok tt) /\ dict_holds dict' md' /\
    dict_seqno dict' = dict_seqno dict + blen map /\ (forall k, ~ in_prefix k -> md' k = md k) /\ groups_inv N G Spilled md'.
Proof.
  intros (H1 & H2 & H3) HG HN Hd Hs.
  assert (forall gk st, (gk, st) ∈ map -> group_key_ok n gk /\ group_ram (classes g) specs N (G gk) (Some st)) as Hmap.
  { intros gk st Hin%(bt_get_elem gk st map H1). pose proof (H2 gk) as Hr. rewrite Hin in Hr. split; [|done]. apply HG. by destruct Hr as (? & _ & _ & _ & _ & ?). }
  destruct (spill_loop_spec N G map dict md) as (d' & md' & E & Hd' & Hs' & H4 & H5); [by apply bt_sorted_nodup|done|done|done|done| |].
  { intros gk _. apply H3, rollup_key_prefix. }
  unfold spill. cbn [sp_ghost_id RollupSpiller_new]. rewrite E. destruct (api_seal_ok d' md' Hd') as [Hd2 Hs2].
  eexists _, _, md'. split; [reflexivity|]. split; [done|]. split; [congruence|].
  assert (forall k, (forall gk, group_key_ok n gk -> k <> rollup_key g gk) -> md' k = md k) as Hout.
  { intros k Hk. apply H5. intros gk Hin. apply Hk. apply list_elem_of_fmap in Hin as ([gk1 st1] & -> & Hin). by eapply Hmap. }
  split; [|split].
  - intros k Hk. apply Hout. intros gk _ ->. apply Hk, rollup_key_prefix.
  - intros gk Hgk. destruct (decide (gk ∈ map.*1)) as [Hin|Hin]; [auto|].
    assert (bt_get gk map = None) as Hno.
    { destruct (bt_get gk map) as [st|] eqn:Eg; [|done]. apply (bt_get_elem gk st map H1) in Eg. destruct Hin. by apply (list_elem_of_fmap_2 fst _ (gk, st)). }
    rewrite H5, H3 by (apply rollup_key_prefix || (intros gk' Hin' Ek; apply Hin; apply (rollup_key_inj n) in Ek as ->; [done|done|];
      apply list_elem_of_fmap in Hin' as ([gk1 st1] & -> & Hin'); by eapply Hmap)).
    pose proof (H2 gk) as Hr. rewrite Hno in Hr. apply group_ram_none in Hr as [-> ?]. by apply group_disk_none.
  - intros k v Hk Hv. destruct (decide (Exists (fun gk => k = rollup_key g gk) map.*1)) as [Hex|Hex].
    + apply Exists_exists in Hex as (gk & Hin & ->). exists gk. split; [|done]. apply list_elem_of_fmap in Hin as ([gk1 st1] & -> & Hin). by eapply Hmap.
    + rewrite H5, H3 in Hv; [done|done|]. intros gk Hin ->. apply Hex, Exists_exists. eauto.
Qed.

End groups.

(** ** The aggregates of a ghost *)

Definition global_inv (N g : Z) (specs : list Metric) (L : list Fields) (st : AggregateState) : Prop :=
  exists H, follows_to H L /\ history_ok (classes g) specs H /\ Z.of_nat (length H) <= N /\ st = state_of specs H.

Definition group_of (fs : list bytes) (L : list Fields) (gk : bytes) : list Fields := filter (fun r => extract_group_key r fs = gk) L.

Definition agg_inv (N g : Z) (L : list Fields) (agg : AggregateContent) (md : bytes -> option bytes) : Prop :=
  let specs := aggregate_specs agg in
  metrics_ok specs /\ (forall gk, schema_of (classes g) specs schema (rollup_key g gk)) /\
  global_inv N g specs L (global_aggregates agg) /\
  match grouping agg with
  | Global => True
  | Grouped fs => fs <> [] /\ groups_inv g specs (length fs) N (group_of fs L) (residency agg) md
  end.

(** The records an aggregate is exact on, with group keys that fit a roll-up key. *)
Definition agg_record_ok (g : Z) (agg : AggregateContent) (r : Fields) : Prop :=
  record_ok (classes g) (aggregate_specs agg) r /\
  match grouping agg with
  | Global => True
  | Grouped fs => Forall (fun f => group_scalar (group_value r f)) fs /\ blen (extract_group_key r fs) <= 65535
  end.

Lemma agg_record_key g agg r fs :
  agg_record_ok g agg r -> grouping agg = Grouped fs -> group_key_ok (length fs) (extract_group_key r fs).
Proof.
  intros [_ Hr] E. rewrite E in Hr. destruct Hr as [Hs Hl]. split; [done|]. rewrite extract_group_key_values. eexists. split; [|split; [|reflexivity]].
  - apply Forall_fmap. eapply Forall_impl; [exact Hs|]. intros f. apply fragment_utf8.
  - by rewrite length_fmap.
Qed.

Lemma group_of_joins fs r L L' : L' ≡ₚ r :: L -> joins (group_of fs L) (group_of fs L') (extract_group_key r fs) r.
Proof.
  intros HP. split.
  - unfold group_of. rewrite HP, filter_cons_True by done. done.
  - intros gk Hgk. unfold group_of. rewrite HP, filter_cons_False by congruence. done.
Qed.

Lemma group_of_member fs L gk : group_of fs L gk <> [] -> exists r, r ∈ L /\ extract_group_key r fs = gk.
Proof.
  intros H. destruct (group_of fs L gk) as [|r l] eqn:E; [done|]. assert (r ∈ group_of fs L gk) as [? ?]%list_elem_of_filter by (rewrite E; left). eauto.
Qed.

(** What the next write may cost in the dictionary. *)
Definition demand (agg : AggregateContent) : Z := 2 + match residency agg with InRam map => blen map | Spilled => 0 end.

(** The outcome of a step on the aggregates. *)
Definition agg_step (N g : Z) (L : list Fields) (agg : AggregateContent) (dict : D) (md : bytes -> option bytes) (w w' : World) : Prop :=
  exists dict' md' agg', w' = mkWorld (w_keyspace w) (Some dict') (set_aggregate agg' (w_meta w)) /\
    aggregate_specs agg' = aggregate_specs agg /\ grouping agg' = grouping agg /\ dict_holds dict' md' /\
    dict_seqno dict <= dict_seqno dict' <= dict_seqno dict + demand agg /\
    (forall k, ~ in_prefix g k -> md' k = md k) /\ agg_inv N g L agg' md'.

Lemma fold_one r specs s k g :
  metrics_ok specs -> schema_of (classes g) specs schema k -> is_sign s -> record_ok (classes g) specs r ->
  for_record r specs s = fold_deltas (deltas specs [(r, s)]).
Proof.
  intros Hm Hk Hs Hr. symmetry. apply (merge_default_l schema k). by eapply for_record_typed.
Qed.

Lemma history_one g specs r s : is_sign s -> record_ok (classes g) specs r -> history_ok (classes g) specs [(r, s)].
Proof. intros. constructor; [by split|constructor]. Qed.

(** ** One record comes, leaves, or is replaced *)

Section steps.
Context (N g : Z) (L0 L L' : list Fields) (agg : AggregateContent) (dict : D) (md : bytes -> option bytes) (w : World (D := D)) (old new : Fields).
Hypothesis Hmeta : gm_aggregate (w_meta w) = Some agg.
Hypothesis Hid : gm_ghost_id (w_meta w) = g.
Hypothesis Hdict : w_dictionary w = Some dict.
Hypothesis Hholds : dict_holds dict md.
Hypothesis Hroom : dict_seqno dict + demand agg < 2 ^ 64.
Hypothesis HN : N + 2 < 2 ^ 63.

Lemma global_add st r : agg_record_ok g agg r -> global_inv N g (aggregate_specs agg) L0 st -> L' ≡ₚ r :: L0 ->
  global_inv (N + 1) g (aggregate_specs agg) L' (AggregateState_add st r (aggregate_specs agg)).
Proof.
  intros [Hr _] (H & H1 & H2 & H3 & ->) HP. exists (H ++ [(r, 1)]). split; [eapply follows_perm; [by symmetry|by apply follows_add]|].
  split; [by apply history_ok_snoc; [|left|]|]. rewrite length_app. cbn. split; [lia|]. by rewrite state_of_snoc.
Qed.

Lemma global_subtract st r : agg_record_ok g agg r -> global_inv N g (aggregate_specs agg) L st -> L ≡ₚ r :: L0 ->
  global_inv (N + 1) g (aggregate_specs agg) L0 (AggregateState_subtract st r (aggregate_specs agg)).
Proof.
  intros [Hr _] (H & H1 & H2 & H3 & ->) HP. exists (H ++ [(r, -1)]). split; [apply follows_remove; by eapply follows_perm|].
  split; [by apply history_ok_snoc; [|right|]|]. rewrite length_app. cbn. split; [lia|]. by rewrite state_of_snoc.
Qed.

Lemma global_mono N' st Q : N <= N' -> global_inv N g (aggregate_specs agg) Q st -> global_inv N' g (aggregate_specs agg) Q st.
Proof. intros HN' (H & H1 & H2 & H3 & H4). exists H. do 2 (split; [done|]). split; [lia|done]. Qed.

(** A step that only puts a new content in the metadata. *)
Lemma put_step N' Q agg' :
  aggregate_specs agg' = aggregate_specs agg -> grouping agg' = grouping agg -> agg_inv N' g Q agg' md ->
  agg_step N' g Q agg dict md w (put_aggregate agg' w).
Proof.
  intros H1 H2 HI. exists dict, md, agg'. unfold put_aggregate. rewrite Hdict. do 4 (split; [done|]).
  split; [unfold demand; case_match; unfold blen; lia|]. done.
Qed.

(** A step that appends a delta. *)
Lemma append_step N' Q Q1 agg' fs gk P P' :
  grouping agg = Grouped fs -> residency agg = Spilled -> fs <> [] -> metrics_ok (aggregate_specs agg) ->
  (forall gk, schema_of (classes g) (aggregate_specs agg) schema (rollup_key g gk)) ->
  agg' = set_global (global_aggregates agg') agg -> global_inv N' g (aggregate_specs agg) Q (global_aggregates agg') ->
  groups_inv g (aggregate_specs agg) (length fs) N (group_of fs Q1) Spilled md -> group_key_ok (length fs) gk ->
  (forall H, follows_to H (group_of fs Q1 gk) -> follows_to (H ++ P') (group_of fs Q gk)) -> P ≡ₚ P' ->
  history_ok (classes g) (aggregate_specs agg) P -> (forall gk', gk' <> gk -> group_of fs Q1 gk' ≡ₚ group_of fs Q gk') ->
  N + Z.of_nat (length P) <= N' ->
  agg_step N' g Q agg dict md w (append_or_degrade gk (fold_deltas (deltas (aggregate_specs agg) P)) (put_aggregate agg' w)).
Proof.
  intros Hg Hres Hfs Hm Hsch Hagg' HG HI Hgk HF HP HPok Hother HN'.
  destruct (append_spec g (aggregate_specs agg) (length fs) Hm Hsch N N' _ (group_of fs Q) dict md gk P P' HI Hholds) as (d' & md' & E & H1 & H2 & H3 & H4);
    [unfold demand in Hroom; rewrite Hres in Hroom; lia|done..|].
  exists d', md', agg'. unfold append_or_degrade, put_aggregate. cbn [w_dictionary w_keyspace w_meta]. rewrite Hdict.
  change (gm_ghost_id (set_aggregate agg' (w_meta w))) with (gm_ghost_id (w_meta w)). rewrite Hid, E.
  assert (aggregate_specs agg' = aggregate_specs agg /\ grouping agg' = grouping agg /\ residency agg' = residency agg) as (E1 & E2 & E3) by (by rewrite Hagg').
  do 4 (split; [done|]). split; [unfold demand; rewrite Hres; lia|]. split; [done|].
  unfold agg_inv. rewrite E1, E2, E3, Hg, Hres. done.
Qed.

Lemma add_step :
  agg_inv N g L0 agg md -> L' ≡ₚ new :: L0 -> agg_record_ok g agg new -> Forall (agg_record_ok g agg) L0 ->
  agg_step (N + 1) g L' agg dict md w (add_to_aggregates limit new w).
Proof.
  intros (Hm & Hsch & Hgl & Hgr) HP Hr HL0. unfold add_to_aggregates. rewrite Hmeta.
  pose proof (global_add _ _ Hr Hgl HP) as Hgl'. cbn [grouping set_global residency aggregate_specs].
  destruct (grouping agg) as [|fs] eqn:Eg.
  { apply put_step; [done|done|]. unfold agg_inv. cbn. by rewrite Eg. }
  destruct Hgr as [Hfs Hgr]. pose proof (agg_record_key _ _ _ _ Hr Eg) as Hgk. pose proof (group_of_joins fs new L0 L' HP) as J.
  set (agg1 := set_global _ agg). destruct Hr as [Hr _]. destruct (residency agg) as [map|] eqn:Er.
  - pose proof (ram_insert _ _ _ _ _ _ _ _ _ _ Hgr J Hr) as HI. set (map' := bt_insert _ _ map) in HI. unfold add_in_ram.
    cbn [aggregate_specs set_global agg1]. fold map'. cbn [w_dictionary put_aggregate]. rewrite Hdict.
    assert (blen map' <= blen map + 1) as Hlen by apply bt_insert_length.
    destruct (limit <? blen map').
    + destruct (spill_spec g (aggregate_specs agg) (length fs) Hm Hsch (N + 1) (group_of fs L') map' dict md HI) as (sp & d' & md' & E & H1 & H2 & H3 & H4);
        [|lia|done|unfold demand in Hroom; rewrite Er in Hroom; lia|].
      { intros gk (r & Hin & <-)%group_of_member. rewrite HP in Hin. apply elem_of_cons in Hin as [->|Hin]; [done|].
        rewrite Forall_forall in HL0. eapply agg_record_key; [by apply HL0|done]. }
      change (gm_ghost_id (w_meta (put_aggregate agg1 w))) with (gm_ghost_id (w_meta w)). rewrite Hid, E.
      exists d', md', (set_residency Spilled agg1). do 4 (split; [done|]).
      split; [unfold demand; rewrite Er; unfold blen in *; lia|]. split; [done|]. unfold agg_inv. cbn. rewrite Eg. done.
    + exists dict, md, (set_residency (InRam map') agg1). unfold put_aggregate. cbn. rewrite Hdict. do 4 (split; [done|]).
      split; [unfold demand; rewrite Er; unfold blen; lia|]. split; [done|]. unfold agg_inv. cbn. rewrite Eg. done.
  - cbn [aggregate_specs set_global agg1]. rewrite (fold_one new (aggregate_specs agg) 1 (rollup_key g (extract_group_key new fs)) g) by (done || by left).
    destruct J as [J1 J2].
    apply (append_step _ _ L0 _ fs _ _ [(new, 1)]); try done.
    + intros H HH. eapply follows_perm; [by symmetry|by apply follows_add].
    + apply history_one; [by left|done].
    + intros gk' Hne. symmetry. by apply J2.
Qed.

Lemma subtract_step :
  agg_inv N g L agg md -> L ≡ₚ old :: L0 -> agg_record_ok g agg old ->
  agg_step (N + 1) g L0 agg dict md w (subtract_from_aggregates old w).
Proof.
  intros (Hm & Hsch & Hgl & Hgr) HP Hr. unfold subtract_from_aggregates. rewrite Hmeta.
  pose proof (global_subtract _ _ Hr Hgl HP) as Hgl'. cbn [grouping set_global residency aggregate_specs].
  destruct (grouping agg) as [|fs] eqn:Eg.
  { apply put_step; [done|done|]. unfold agg_inv. cbn. by rewrite Eg. }
  destruct Hgr as [Hfs Hgr]. pose proof (agg_record_key _ _ _ _ Hr Eg) as Hgk. pose proof (group_of_joins fs old L0 L HP) as J.
  set (agg1 := set_global _ agg). destruct Hr as [Hr _]. destruct (residency agg) as [map|] eqn:Er.
  - pose proof (ram_subtract _ _ _ Hm _ _ _ _ _ _ _ Hgr J Hr ltac:(lia)) as HI.
    eexists dict, md, _. unfold put_aggregate. cbn [w_keyspace w_dictionary w_meta]. rewrite Hdict. split; [reflexivity|]. do 3 (split; [done|]).
    split; [unfold demand; rewrite Er; unfold blen; lia|]. split; [done|]. unfold agg_inv. cbn. rewrite Eg. done.
  - cbn [aggregate_specs set_global agg1]. rewrite (fold_one old (aggregate_specs agg) (-1) (rollup_key g (extract_group_key old fs)) g) by (done || by right).
    destruct J as [J1 J2].
    apply (append_step _ _ L _ fs _ _ [(old, -1)]); try done.
    + intros H HH. apply follows_remove. by eapply follows_perm.
    + apply history_one; [by right|done].
Qed.

Lemma fold_two (fs : list bytes) :
  metrics_ok (aggregate_specs agg) -> (forall gk, schema_of (classes g) (aggregate_specs agg) schema (rollup_key g gk)) ->
  agg_record_ok g agg old -> agg_record_ok g agg new ->
  RollupDelta_merge (for_record new (aggregate_specs agg) 1) (for_record old (aggregate_specs agg) (-1)) =
    fold_deltas (deltas (aggregate_specs agg) [(new, 1); (old, -1)]) /\
  history_ok (classes g) (aggregate_specs agg) [(new, 1); (old, -1)].
Proof.
  intros Hm Hsch [Ho _] [Hn _]. set (k := rollup_key g (extract_group_key old fs)). split.
  - pose proof (for_record_typed (classes g) (aggregate_specs agg) schema k new 1 Hm (Hsch _) ltac:(by left) Hn) as Tn.
    unfold fold_deltas, deltas. cbn. by rewrite (merge_default_l schema k _ Tn).
  - constructor; [split; [by left|done]|]. apply history_one; [by right|done].
Qed.

Lemma update_step :
  agg_inv N g L agg md -> L ≡ₚ old :: L0 -> L' ≡ₚ new :: L0 -> agg_record_ok g agg old -> agg_record_ok g agg new ->
  agg_step (N + 2) g L' agg dict md w (update_aggregates old new w).
Proof.
  intros (Hm & Hsch & Hgl & Hgr) HP HP' Ho Hn. unfold update_aggregates. rewrite Hmeta.
  assert (global_inv (N + 2) g (aggregate_specs agg) L'
    (AggregateState_add (AggregateState_subtract (global_aggregates agg) old (aggregate_specs agg)) new (aggregate_specs agg))) as Hgl'.
  { destruct (global_subtract _ _ Ho Hgl HP) as (H & H1 & H2 & H3 & ->). exists (H ++ [(new, 1)]).
    split; [eapply follows_perm; [by symmetry|by apply follows_add]|]. destruct Hn as [Hn _].
    split; [by apply history_ok_snoc; [|left|]|]. rewrite length_app. cbn. split; [lia|]. by rewrite state_of_snoc. }
  cbn [grouping set_global residency aggregate_specs]. set (agg1 := set_global _ agg).
  destruct (grouping agg) as [|fs] eqn:Eg.
  { apply put_step; [done|done|]. unfold agg_inv. cbn. by rewrite Eg. }
  destruct Hgr as [Hfs Hgr]. pose proof (agg_record_key _ _ _ _ Ho Eg) as Hok. pose proof (agg_record_key _ _ _ _ Hn Eg) as Hnk.
  pose proof (group_of_joins fs old L0 L HP) as J. pose proof (group_of_joins fs new L0 L' HP') as J'.
  destruct (fold_two fs Hm Hsch Ho Hn) as [E2 Hok2].
  destruct (residency agg) as [map|] eqn:Er.
  { pose proof (ram_update _ _ _ Hm _ _ _ _ _ _ _ _ _ _ Hgr J J' (proj1 Ho) (proj1 Hn) HN) as HI.
    eexists dict, md, _. unfold put_aggregate. cbn [w_keyspace w_dictionary w_meta]. rewrite Hdict. split; [reflexivity|]. do 3 (split; [done|]).
    split; [unfold demand; rewrite Er; unfold blen; lia|]. split; [done|]. unfold agg_inv. cbn. rewrite Eg. done. }
  destruct J as [J1 J2], J' as [J1' J2']. destruct (beqb (extract_group_key old fs) (extract_group_key new fs)) eqn:Ek.
  - apply beqb_eq in Ek. cbn [aggregate_specs set_global agg1]. rewrite E2.
    apply (append_step _ _ L _ fs _ _ [(old, -1); (new, 1)]); try done.
    + intros H HH. rewrite Ek. change [(old, -1); (new, 1)] with ([(old, -1)] ++ [(new, 1)]). rewrite app_assoc. rewrite <- Ek.
      eapply follows_perm; [rewrite Ek; by symmetry|]. apply follows_add, follows_remove. rewrite <- Ek. by eapply follows_perm.
    + apply Permutation_swap.
    + intros gk' Hne. rewrite J2, J2'; [done|congruence..].
  - apply beqb_neq in Ek.
    destruct Ho as [Ho _], Hn as [Hn _].
    rewrite (fold_one old (aggregate_specs agg) (-1) (rollup_key g (extract_group_key old fs)) g) by (done || by right).
    rewrite (fold_one new (aggregate_specs agg) 1 (rollup_key g (extract_group_key new fs)) g) by (done || by left).
    assert (dict_seqno dict + 2 < 2 ^ 64) as Hr2 by (unfold demand in Hroom; rewrite Er in Hroom; lia).
    destruct (append_spec g (aggregate_specs agg) (length fs) Hm Hsch N (N + 1) _ (group_of fs L0) dict md (extract_group_key old fs)
      [(old, -1)] [(old, -1)] Hgr Hholds) as (d1 & md1 & A1 & A2 & A3 & A4 & A5); try done; [lia|..].
    { intros H HH. apply follows_remove. by eapply follows_perm. }
    { apply history_one; [by right|done]. }
    destruct (append_spec g (aggregate_specs agg) (length fs) Hm Hsch (N + 1) (N + 2) _ (group_of fs L') d1 md1 (extract_group_key new fs)
      [(new, 1)] [(new, 1)] A5 A2) as (d2 & md2 & B1 & B2 & B3 & B4 & B5); try done; [lia|..].
    { intros H HH. eapply follows_perm; [by symmetry|by apply follows_add]. }
    { apply history_one; [by left|done]. }
    { intros gk' Hne. symmetry. by apply J2'. }
    { cbn. lia. }
    exists d2, md2, agg1. unfold append_or_degrade, put_aggregate. cbn [w_dictionary w_keyspace w_meta]. rewrite Hdict.
    change (gm_ghost_id (set_aggregate agg1 (w_meta w))) with (gm_ghost_id (w_meta w)). rewrite Hid, A1. cbn [w_dictionary w_meta].
    change (gm_ghost_id (set_aggregate agg1 (w_meta w))) with (gm_ghost_id (w_meta w)). rewrite Hid, B1.
    do 4 (split; [done|]). split; [unfold demand; rewrite Er; lia|]. split; [intros k Hk; by rewrite B4, A4|].
    unfold agg_inv. cbn. rewrite Eg, Er. done.
Qed.

End steps.

End ghost.
