(* ===== verification/GhostTheorems.v ===== *)
(** * What ghosts promise

    The invariant of a whole ghost, index and aggregates, is kept by [notify_write]
    for every ghost of a lobe; what reads return follows from it. *)

From S2P Require Import Prelude ByteOrder BTree Types Block Bloom Memtable Merge Streams TableMeta TableWriter TableReader.
From S2P Require Import Version Leveled Paths Worker Manifest Tree TreeReads TreeSteps.
From S2P Require Import Value Lid Filters Record SortEncoding Aggregate GroupKey Rollup Ghost GhostInv GhostRun.

(** ** The records of a lobe *)

(** A committed write: [C] has the records of the lobe with their spatial keys. *)
Inductive lobe_step (C : list (Fields * bytes)) (r : Fields) (sk : bytes) : WriteType -> list (Fields * bytes) -> Prop :=
  | lobe_insert : sk ∉ C.*2 -> lobe_step C r sk WInsert ((r, sk) :: C)
  | lobe_delete C' : C ≡ₚ (r, sk) :: C' -> lobe_step C r sk WDelete C'
  | lobe_update old osk C0 : C ≡ₚ (old, osk) :: C0 -> sk ∉ C0.*2 -> lobe_step C r sk (WUpdate old osk) ((r, sk) :: C0).

(** A spatial key is 24 bytes. *)
Definition spatial_ok (sk : bytes) : Prop := length sk = 24%nat.

Section ghost.
Context {D : Type} {TA : TreeApi D} {PC : RollupPostcard} `{!RollupPostcardLaws PC} {VT : ValueText} `{!ValueTextLaws VT} {VP : ValuePostcard}.
Context (limit : Z) (schema : bytes -> bytes -> AggOp * SvClass) (classes : Z -> bytes -> SvClass).
Context {KL : TreeApiLaws None D} {DL : TreeApiLaws (Some (RollupMergeOperator schema)) D}.

Abbreviation dict_holds := (@api_holds _ _ _ DL).
Abbreviation dict_seqno := (@api_seqno _ _ _ DL).
Abbreviation ks_holds := (@api_holds _ _ _ KL).
Abbreviation ks_seqno := (@api_seqno _ _ _ KL).

(** ** The index *)

Definition is_entry (meta : GhostMeta) (M : list (Fields * bytes)) (k v : bytes) : Prop :=
  exists r sk, (r, sk) ∈ M /\ k = entry_key meta r sk /\ v = encode_ghost_value sk r (gm_projection meta).

Definition index_inv (meta : GhostMeta) (M : list (Fields * bytes)) (mk : bytes -> option bytes) : Prop :=
  forall k v, starts_with k (to_be_bytes 2 (gm_ghost_id meta)) = true -> (mk k = Some v <-> is_entry meta M k v).

Lemma entry_key_prefix meta r sk : starts_with (entry_key meta r sk) (to_be_bytes 2 (gm_ghost_id meta)) = true.
Proof. apply starts_with_iff. eexists. reflexivity. Qed.

Lemma not_byte_inj (a b : bytes) : not_byte <$> a = not_byte <$> b -> a = b.
Proof. apply list_fmap_eq_inj. intros x y. unfold not_byte, not_bits. lia. Qed.

(** Without groups, the spatial key is the end of the entry's key. *)
Lemma entry_key_inj meta r sk r' sk' :
  group_fields meta = [] -> spatial_ok sk -> spatial_ok sk' -> entry_key meta r sk = entry_key meta r' sk' -> sk = sk'.
Proof.
  intros Hg Hs Hs' E. unfold entry_key, encode_sort_key, ghost_entry_tiebreak in E. rewrite Hg in E. apply app_inv_head in E.
  assert (encode_value_ordered (get_sort_value r (gm_order_by_field meta)) ++ sk = encode_value_ordered (get_sort_value r' (gm_order_by_field meta)) ++ sk') as E'.
  { destruct (gm_sort_inverted meta); [by apply not_byte_inj|done]. }
  apply app_inj_2 in E' as [_ ?]; [done|]. by rewrite Hs, Hs'.
Qed.

Section index.
Context (meta : GhostMeta) (M : list (Fields * bytes)) (mk : bytes -> option bytes).
Hypothesis Hg : group_fields meta = [].

Lemma entry_absent r sk r' M' :
  NoDup M'.*2 -> Forall spatial_ok M'.*2 -> (r, sk) ∈ M' -> forall M0, M' ≡ₚ (r, sk) :: M0 -> forall sk', (r', sk') ∈ M0 ->
  entry_key meta r' sk' <> entry_key meta r sk.
Proof.
  intros Hnd Hs Hin M0 HP sk' Hin' E. rewrite HP in Hnd, Hs. cbn in Hnd, Hs. apply NoDup_cons in Hnd as [Hnd _]. apply Forall_cons in Hs as [Hs Hs'].
  assert (sk' ∈ M0.*2) as Hk by (by apply (list_elem_of_fmap_2 snd _ (r', sk'))). rewrite Forall_forall in Hs'.
  apply entry_key_inj in E as ->; auto.
Qed.

Lemma index_insert r sk :
  index_inv meta M mk -> sk ∉ M.*2 -> spatial_ok sk -> Forall spatial_ok M.*2 ->
  index_inv meta ((r, sk) :: M) (map_insert None (entry_key meta r sk) (encode_ghost_value sk r (gm_projection meta)) mk).
Proof.
  intros HI Hn Hs HsM k v Hk. unfold map_insert. cbn [owned]. destruct (beqb k (entry_key meta r sk)) eqn:E.
  - apply beqb_eq in E as ->. split; [intros [= <-]; exists r, sk; split; [left|done]|].
    intros (r' & sk' & [[= -> ->]|Hin]%elem_of_cons & Ek & ->); [done|]. exfalso.
    assert (sk' ∈ M.*2) as Hk' by (by apply (list_elem_of_fmap_2 snd _ (r', sk'))). rewrite Forall_forall in HsM.
    apply entry_key_inj in Ek as ->; auto.
  - apply beqb_neq in E. rewrite (HI k v Hk). split; intros (r' & sk' & Hin & Ek & ->); exists r', sk'; (split; [|done]).
    + by right.
    + apply elem_of_cons in Hin as [[= -> ->]|?]; done.
Qed.

Lemma index_remove r sk M0 :
  index_inv meta M mk -> M ≡ₚ (r, sk) :: M0 -> NoDup M.*2 -> Forall spatial_ok M.*2 -> index_inv meta M0 (map_remove (entry_key meta r sk) mk).
Proof.
  intros HI HP Hnd Hs k v Hk. unfold map_remove. assert ((r, sk) ∈ M) as Hin by (rewrite HP; left). destruct (beqb k (entry_key meta r sk)) eqn:E.
  - apply beqb_eq in E as ->. split; [done|]. intros (r' & sk' & Hin' & Ek & _). by destruct (entry_absent r sk r' M Hnd Hs Hin M0 HP sk' Hin').
  - apply beqb_neq in E. rewrite (HI k v Hk). split; intros (r' & sk' & Hin' & Ek & ->); exists r', sk'; (split; [|done]).
    + rewrite HP in Hin'. apply elem_of_cons in Hin' as [[= -> ->]|?]; done.
    + rewrite HP. by right.
Qed.

(** Insert the new entry, then remove the old one if its key is another. *)
Lemma index_move old osk new nsk M0 :
  index_inv meta M mk -> M ≡ₚ (old, osk) :: M0 -> NoDup M.*2 -> Forall spatial_ok M.*2 -> nsk ∉ M0.*2 -> spatial_ok nsk ->
  let mk1 := map_insert None (entry_key meta new nsk) (encode_ghost_value nsk new (gm_projection meta)) mk in
  index_inv meta ((new, nsk) :: M0)
    (if negb (beqb (entry_key meta new nsk) (entry_key meta old osk)) then map_remove (entry_key meta old osk) mk1 else mk1).
Proof.
  intros HI HP Hnd Hs Hn Hsn mk1 k v Hk. pose proof (index_remove old osk M0 HI HP Hnd Hs k v Hk) as HR.
  assert (forall r sk, (r, sk) ∈ M0 -> entry_key meta r sk <> entry_key meta new nsk) as Hnew.
  { intros r sk Hin E. assert (sk ∈ M0.*2) as Hk' by (by apply (list_elem_of_fmap_2 snd _ (r, sk))). rewrite HP in Hs. cbn in Hs.
    apply Forall_cons in Hs as [_ Hs]. rewrite Forall_forall in Hs. apply entry_key_inj in E as ->; auto. }
  assert (is_entry meta ((new, nsk) :: M0) k v <->
    if beqb k (entry_key meta new nsk) then v = encode_ghost_value nsk new (gm_projection meta) else is_entry meta M0 k v) as ->.
  { destruct (beqb k (entry_key meta new nsk)) eqn:E.
    - apply beqb_eq in E as ->. split; [intros (r & sk & [[= -> ->]|Hin]%elem_of_cons & Ek & ->); [done|by destruct (Hnew r sk Hin)]|].
      intros ->. exists new, nsk. split; [left|done].
    - apply beqb_neq in E. split; intros (r & sk & Hin & Ek & ->); exists r, sk; (split; [|done]); [|by right].
      apply elem_of_cons in Hin as [[= -> ->]|?]; done. }
  unfold map_remove in HR. subst mk1. unfold map_insert, map_remove. cbn [owned].
  destruct (beqb (entry_key meta new nsk) (entry_key meta old osk)) eqn:Eo; cbn [negb].
  - apply beqb_eq in Eo. rewrite Eo in *. destruct (beqb k (entry_key meta old osk)); [|done]. split; [by intros [= ->]|by intros ->].
  - apply beqb_neq in Eo. destruct (beqb k (entry_key meta old osk)) eqn:E1, (beqb k (entry_key meta new nsk)) eqn:E2; try done.
    + apply beqb_eq in E1, E2. congruence.
    + split; [by intros [= ->]|by intros ->].
Qed.

End index.
(** ** The whole ghost *)

Definition selects (meta : GhostMeta) (r : Fields) : bool :=
  match to_core_expr (gm_filter meta) with Some c => matches_core_expr r c | None => false end.

(** The records of a lobe a ghost is about. *)
Definition members (meta : GhostMeta) (C : list (Fields * bytes)) : list (Fields * bytes) := filter (fun c => selects meta c.1 = true) C.

Definition record_fits (meta : GhostMeta) (r : Fields) : Prop :=
  match gm_aggregate meta with None => True | Some agg => agg_record_ok classes (gm_ghost_id meta) agg r end.

Definition aggregates_inv (N : Z) (meta : GhostMeta) (M : list (Fields * bytes)) (md : bytes -> option bytes) : Prop :=
  match gm_aggregate meta with None => True | Some agg => agg_inv schema classes N (gm_ghost_id meta) M.*1 agg md end.

Definition meta_demand (meta : GhostMeta) : Z := match gm_aggregate meta with None => 0 | Some agg => demand agg end.

Record ghost_inv (N : Z) (meta : GhostMeta) (M : list (Fields * bytes)) (mk md : bytes -> option bytes) : Prop := {
  gi_id : is_uint 16 (gm_ghost_id meta);
  gi_state : gm_state meta <> 2;
  gi_core : exists c, to_core_expr (gm_filter meta) = Some c /\ (gm_core_filters_cache meta = None \/ gm_core_filters_cache meta = Some c);
  gi_keys : NoDup M.*2;
  gi_spatial : Forall spatial_ok M.*2;
  gi_len : Z.of_nat (length M) <= N;
  gi_count : gm_index_count meta = Z.of_nat (length M);
  gi_records : Forall (fun c => record_fits meta c.1) M;
  gi_index : group_fields meta = [] -> index_inv meta M mk;
  gi_agg : aggregates_inv N meta M md;
}.

(** The definition of a ghost does not change. *)
Definition kind (meta : GhostMeta) : Z * FilterExpr * bytes * bool * Z * list bytes * option (list Metric * Grouping) :=
  (gm_ghost_id meta, gm_filter meta, gm_order_by_field meta, gm_sort_inverted meta, gm_state meta, gm_projection meta,
   (fun a => (aggregate_specs a, grouping a)) <$> gm_aggregate meta).

Lemma kind_fields meta meta' : kind meta' = kind meta ->
  gm_ghost_id meta' = gm_ghost_id meta /\ gm_filter meta' = gm_filter meta /\ gm_state meta' = gm_state meta /\
  gm_projection meta' = gm_projection meta /\ group_fields meta' = group_fields meta /\
  (forall r sk, entry_key meta' r sk = entry_key meta r sk) /\ (forall r, record_fits meta' r <-> record_fits meta r).
Proof.
  destruct meta as [g f o i st n a p u c d], meta' as [g' f' o' i' st' n' a' p' u' c' d']. unfold kind. cbn.
  intros [= -> -> -> -> -> -> Ea]. do 4 (split; [done|]).
  destruct a as [[s1 g1 gr1 r1]|], a' as [[s2 g2 gr2 r2]|]; try done. cbn in Ea. injection Ea as -> ->. done.
Qed.

Lemma kind_members meta meta' C : kind meta' = kind meta -> members meta' C = members meta C.
Proof. intros (_ & Hf & _)%kind_fields. unfold members, selects. by rewrite Hf. Qed.

Lemma kind_index meta meta' M mk : kind meta' = kind meta -> index_inv meta M mk -> index_inv meta' M mk.
Proof.
  intros (Hi & _ & _ & Hp & _ & Hk & _)%kind_fields HI k v. rewrite Hi. intros H. rewrite (HI k v H). unfold is_entry. rewrite Hp.
  split; intros (r & sk & ? & ? & ?); exists r, sk; (split; [done|]); (split; [congruence|done]).
Qed.

Lemma ghost_inv_step N N' meta meta' M M' mk md mk' md' :
  ghost_inv N meta M mk md -> kind meta' = kind meta ->
  (gm_core_filters_cache meta' = gm_core_filters_cache meta \/ exists c, to_core_expr (gm_filter meta) = Some c /\ gm_core_filters_cache meta' = Some c) ->
  NoDup M'.*2 -> Forall spatial_ok M'.*2 -> Z.of_nat (length M') <= N' -> gm_index_count meta' = Z.of_nat (length M') ->
  Forall (fun c => record_fits meta c.1) M' -> (group_fields meta = [] -> index_inv meta M' mk') -> aggregates_inv N' meta' M' md' ->
  ghost_inv N' meta' M' mk' md'.
Proof.
  intros [I1 I2 (c & I3 & I3') _ _ _ _ _ _ _] Hk Hc H1 H2 H3 H4 H5 H6 H7.
  destruct (kind_fields _ _ Hk) as (K1 & K2 & K3 & K4 & K5 & K6 & K7). constructor; try done.
  - by rewrite K1.
  - by rewrite K3.
  - exists c. rewrite K2. split; [done|]. destruct Hc as [-> |(c' & E & ->)]; [done|]. right. congruence.
  - eapply Forall_impl; [exact H5|]. intros x. apply K7.
  - rewrite K5. intros Hg. eapply kind_index; eauto.
Qed.

Lemma ghost_inv_perm N N' meta M M' mk md : M ≡ₚ M' -> N <= N' -> ghost_inv N meta M mk md -> ghost_inv N' meta M' mk md.
Proof.
  intros HP HN HI. pose proof HI as [I1 I2 I3 I4 I5 I6 I7 I8 I9 I10].
  eapply (ghost_inv_step N N' meta meta M M' mk md); [done|done|by left|by rewrite <- HP|by rewrite <- HP| | |by rewrite <- HP| |].
  - rewrite <- HP. lia.
  - by rewrite <- HP.
  - intros Hg k v Hk. rewrite (I9 Hg k v Hk). unfold is_entry. by setoid_rewrite HP.
  - unfold aggregates_inv, agg_inv in *. destruct (gm_aggregate meta) as [agg|]; [|done]. destruct I10 as (A1 & A2 & (H & A3) & A4).
    do 2 (split; [done|]). split.
    + exists H. destruct A3 as (B1 & B2 & B3 & B4). split; [by eapply follows_perm; [|exact B1]; rewrite HP|]. split; [done|]. split; [lia|done].
    + destruct (grouping agg); [done|]. destruct A4 as [? A4]. split; [done|]. eapply groups_inv_perm; [|exact HN|exact A4].
      intros gk. unfold group_of. by rewrite HP.
Qed.

(** Other trees, the same entries of this ghost. *)
Lemma ghost_inv_frame N meta M mk md mk' md' :
  ghost_inv N meta M mk md -> (forall k, starts_with k (to_be_bytes 2 (gm_ghost_id meta)) = true -> mk' k = mk k) ->
  (forall k, in_prefix (gm_ghost_id meta) k -> md' k = md k) -> ghost_inv N meta M mk' md'.
Proof.
  intros HI Hk Hd. pose proof HI as [I1 I2 I3 I4 I5 I6 I7 I8 I9 I10].
  eapply (ghost_inv_step N N meta meta M M mk md); try done; [by left|..].
  - intros Hg k v Hp. rewrite Hk by done. by apply I9.
  - unfold aggregates_inv, agg_inv in *. destruct (gm_aggregate meta) as [agg|]; [|done]. destruct I10 as (A1 & A2 & A3 & A4).
    do 3 (split; [done|]). destruct (grouping agg); [done|]. destruct A4. split; [done|]. by eapply groups_inv_frame.
Qed.

(** ** The aggregates of a step, if any *)

Definition agg_part (N : Z) (M : list (Fields * bytes)) (dict : D) (md : bytes -> option bytes) (w w' : World (D := D)) : Prop :=
  exists dict' md' meta', w' = mkWorld (w_keyspace w) (Some dict') meta' /\ kind meta' = kind (w_meta w) /\
    gm_index_count meta' = gm_index_count (w_meta w) /\ gm_core_filters_cache meta' = gm_core_filters_cache (w_meta w) /\
    dict_holds dict' md' /\ dict_seqno dict <= dict_seqno dict' <= dict_seqno dict + meta_demand (w_meta w) /\
    (forall k, ~ in_prefix (gm_ghost_id (w_meta w)) k -> md' k = md k) /\ aggregates_inv N meta' M md'.

Lemma agg_part_some N M agg dict md w w' :
  gm_aggregate (w_meta w) = Some agg -> agg_step schema classes N (gm_ghost_id (w_meta w)) M.*1 agg dict md w w' -> agg_part N M dict md w w'.
Proof.
  intros Ha (d' & md' & agg' & -> & H1 & H2 & H3 & H4 & H5 & H6). exists d', md', (set_aggregate agg' (w_meta w)). split; [done|].
  split; [unfold kind; rewrite Ha; cbn; by rewrite H1, H2|]. do 2 (split; [done|]). split; [done|].
  unfold meta_demand. rewrite Ha. split; [done|]. split; [done|]. unfold aggregates_inv. done.
Qed.

Lemma agg_part_none N M dict md w :
  gm_aggregate (w_meta w) = None -> w_dictionary w = Some dict -> dict_holds dict md -> agg_part N M dict md w w.
Proof.
  intros Ha Hd Hh. exists dict, md, (w_meta w). split; [destruct w; cbn in *; by rewrite Hd|]. do 4 (split; [done|]).
  unfold meta_demand, aggregates_inv. rewrite Ha. split; [lia|]. done.
Qed.

(** ** One write, one ghost *)

Section one.
Context (N : Z) (w : World (D := D)) (ks dict : D) (mk md : bytes -> option bytes).
Hypothesis Hks : w_keyspace w = Some ks.
Hypothesis Hdict : w_dictionary w = Some dict.
Hypothesis Hkh : ks_holds ks mk.
Hypothesis Hdh : dict_holds dict md.
Hypothesis Hkroom : ks_seqno ks + 2 < 2 ^ 64.
Hypothesis Hdroom : dict_seqno dict + meta_demand (w_meta w) < 2 ^ 64.
Hypothesis HN : N + 2 < 2 ^ 63.

Abbreviation g := (gm_ghost_id (w_meta w)).

Definition ghost_step (M' : list (Fields * bytes)) (w' : World (D := D)) : Prop :=
  exists ks' dict' mk' md', w_keyspace w' = Some ks' /\ w_dictionary w' = Some dict' /\ ks_holds ks' mk' /\ dict_holds dict' md' /\
    ks_seqno ks <= ks_seqno ks' <= ks_seqno ks + 2 /\ dict_seqno dict <= dict_seqno dict' <= dict_seqno dict + meta_demand (w_meta w) /\
    (forall k, starts_with k (to_be_bytes 2 g) = false -> mk' k = mk k) /\ (forall k, ~ in_prefix g k -> md' k = md k) /\
    kind (w_meta w') = kind (w_meta w) /\ ghost_inv (N + 2) (w_meta w') M' mk' md'.

(** The index first, then the aggregates. *)
Lemma ghost_step_intro M M' n ks' mk' w' :
  ghost_inv N (w_meta w) M mk md -> ks_holds ks' mk' -> ks_seqno ks <= ks_seqno ks' <= ks_seqno ks + 2 ->
  (forall k, starts_with k (to_be_bytes 2 g) = false -> mk' k = mk k) ->
  NoDup M'.*2 -> Forall spatial_ok M'.*2 -> Z.of_nat (length M') <= N + 2 -> n = Z.of_nat (length M') -> Forall (fun c => record_fits (w_meta w) c.1) M' ->
  (group_fields (w_meta w) = [] -> index_inv (w_meta w) M' mk') ->
  agg_part (N + 2) M' dict md (mkWorld (Some ks') (w_dictionary w) (set_index_count n (w_meta w))) w' ->
  ghost_step M' w'.
Proof.
  intros HI Hk' Hseq Hframe H1 H2 H3 H4 H5 H6 (d' & md' & meta' & -> & A1 & A2 & A3 & A4 & A5 & A6 & A7).
  assert (kind (set_index_count n (w_meta w)) = kind (w_meta w)) as Ek by done.
  cbn [w_meta w_keyspace] in *. exists ks', d', mk', md'. do 2 (split; [done|]). do 2 (split; [done|]). split; [done|]. split; [done|].
  do 2 (split; [done|]). split; [exact A1|]. eapply ghost_inv_step; [exact HI|exact A1|left; exact A3|done|done|done|etrans; [exact A2|exact H4]|done|done|exact A7].
Qed.

Lemma agg_inv_mono N1 N2 meta M md1 : N1 <= N2 -> aggregates_inv N1 meta M md1 -> aggregates_inv N2 meta M md1.
Proof.
  intros HN'. unfold aggregates_inv, agg_inv. destruct (gm_aggregate meta) as [agg|]; [|done]. intros (A1 & A2 & (H & B1 & B2 & B3 & B4) & A4).
  do 2 (split; [done|]). split; [exists H; split; [done|]; split; [done|]; split; [lia|done]|].
  destruct (grouping agg); [done|]. destruct A4 as [? A4]. split; [done|]. by eapply groups_inv_perm.
Qed.

Lemma agg_part_mono N1 N2 M d0 m0 w0 w1 : N1 <= N2 -> agg_part N1 M d0 m0 w0 w1 -> agg_part N2 M d0 m0 w0 w1.
Proof.
  intros HN' (d' & md' & meta' & H1 & H2 & H3 & H4 & H5 & H6 & H7 & H8). exists d', md', meta'. do 7 (split; [done|]). by eapply agg_inv_mono.
Qed.

Lemma insert_spec M r sk :
  ghost_inv N (w_meta w) M mk md -> sk ∉ M.*2 -> spatial_ok sk -> record_fits (w_meta w) r ->
  ghost_step ((r, sk) :: M) (ghost_insert_inner limit r sk false w).
Proof.
  intros HI Hsk Hs Hr. pose proof HI as [I1 I2 I3 I4 I5 I6 I7 I8 I9 I10]. unfold ghost_insert_inner. rewrite Hks. cbv zeta.
  destruct (api_insert_ok ks mk (entry_key (w_meta w) r sk) (encode_ghost_value sk r (gm_projection (w_meta w))) Hkh ltac:(lia) I) as (ks' & -> & Hs' & Hk').
  eapply (ghost_step_intro M _ (wrap64 (gm_index_count (w_meta w) + 1))); [exact HI|exact Hk'|lia| |cbn; by constructor|cbn; by constructor|cbn [length]; lia| |by constructor|by intros; apply index_insert; auto|].
  - intros k Hk. unfold map_insert. rewrite (proj2 (beqb_neq _ _)); [done|]. intros ->. by rewrite entry_key_prefix in Hk.
  - rewrite I7. cbn [length]. rewrite wrap_small by (split; lia). lia.
  - apply (agg_part_mono (N + 1)); [lia|]. set (w0 := mkWorld _ _ _). destruct (gm_aggregate (w_meta w)) as [agg|] eqn:Ea.
    + apply (agg_part_some _ _ agg); [done|]. eapply (add_step limit schema classes N g M.*1); [done|done|done|exact Hdh|unfold meta_demand in Hdroom; rewrite Ea in Hdroom; exact Hdroom|lia| |done| |].
      * unfold aggregates_inv in I10. rewrite Ea in I10. exact I10.
      * unfold record_fits in Hr. rewrite Ea in Hr. exact Hr.
      * apply Forall_fmap. eapply Forall_impl; [exact I8|]. intros c. unfold record_fits. by rewrite Ea.
    + unfold add_to_aggregates. cbn [w_meta w0]. change (gm_aggregate (set_index_count _ (w_meta w))) with (gm_aggregate (w_meta w)). rewrite Ea. by apply agg_part_none.
Qed.

Lemma remove_spec M M0 r sk :
  ghost_inv N (w_meta w) M mk md -> M ≡ₚ (r, sk) :: M0 -> ghost_step M0 (ghost_remove_inner r sk false w).
Proof.
  intros HI HP. pose proof HI as [I1 I2 I3 I4 I5 I6 I7 I8 I9 I10]. unfold ghost_remove_inner. rewrite Hks. cbv zeta.
  destruct (api_remove_ok ks mk (entry_key (w_meta w) r sk) Hkh ltac:(lia)) as (ks' & -> & Hs' & Hk').
  pose proof (Permutation_length HP) as Hlen. cbn [length] in Hlen.
  eapply (ghost_step_intro M _ (saturating_sub64 (gm_index_count (w_meta w)) 1)); [exact HI|exact Hk'|lia| | | |lia| | |by intros; eapply index_remove; eauto|].
  - intros k Hk. unfold map_remove. rewrite (proj2 (beqb_neq _ _)); [done|]. intros ->. by rewrite entry_key_prefix in Hk.
  - rewrite HP in I4. by apply NoDup_cons in I4 as [_ ?].
  - rewrite HP in I5. by apply Forall_cons in I5 as [_ ?].
  - rewrite I7. unfold saturating_sub64. lia.
  - rewrite HP in I8. by apply Forall_cons in I8 as [_ ?].
  - apply (agg_part_mono (N + 1)); [lia|]. set (w0 := mkWorld _ _ _). destruct (gm_aggregate (w_meta w)) as [agg|] eqn:Ea.
    + apply (agg_part_some _ _ agg); [done|]. eapply (subtract_step schema classes N g _ M.*1); [done|done|done|exact Hdh|unfold meta_demand in Hdroom; rewrite Ea in Hdroom; exact Hdroom|lia| |by rewrite HP|].
      * unfold aggregates_inv in I10. rewrite Ea in I10. exact I10.
      * rewrite HP in I8. apply Forall_cons in I8 as [Hr _]. unfold record_fits in Hr. rewrite Ea in Hr. exact Hr.
    + unfold subtract_from_aggregates. cbn [w_meta w0]. change (gm_aggregate (set_index_count _ (w_meta w))) with (gm_aggregate (w_meta w)). rewrite Ea. by apply agg_part_none.
Qed.

Lemma update_spec M M0 old osk new nsk :
  ghost_inv N (w_meta w) M mk md -> M ≡ₚ (old, osk) :: M0 -> nsk ∉ M0.*2 -> spatial_ok nsk -> record_fits (w_meta w) new ->
  ghost_step ((new, nsk) :: M0) (ghost_update_inner old new osk nsk false w).
Proof.
  intros HI HP Hsk Hs Hr. pose proof HI as [I1 I2 I3 I4 I5 I6 I7 I8 I9 I10]. unfold ghost_update_inner. rewrite Hks. unfold move_entry. rewrite Hks. cbv zeta.
  set (ko := entry_key (w_meta w) old osk). set (kn := entry_key (w_meta w) new nsk). set (v := encode_ghost_value nsk new (gm_projection (w_meta w))).
  pose proof (Permutation_length HP) as Hlen. cbn [length] in Hlen.
  destruct (api_insert_ok ks mk kn v Hkh ltac:(lia) I) as (ks1 & -> & Hs1 & Hk1).
  destruct (api_remove_ok ks1 _ ko Hk1 ltac:(lia)) as (ks2 & E2 & Hs2 & Hk2).
  set (w0 := if negb (beqb kn ko) then _ else _).
  assert (exists ks' mk', ks_holds ks' mk' /\ ks_seqno ks <= ks_seqno ks' <= ks_seqno ks + 2 /\
    mk' = (if negb (beqb kn ko) then map_remove ko (map_insert None kn v mk) else map_insert None kn v mk) /\
    w0 = mkWorld (Some ks') (w_dictionary w) (set_index_count (gm_index_count (w_meta w)) (w_meta w))) as (ks' & mk' & Hk' & Hs' & Em & Ew).
  { assert (set_index_count (gm_index_count (w_meta w)) (w_meta w) = w_meta w) as -> by (by destruct (w_meta w)).
    unfold w0. rewrite E2. destruct (negb (beqb kn ko)); [exists ks2|exists ks1]; eexists; (split; [eassumption|]); (split; [lia|done]). }
  rewrite Ew. eapply (ghost_step_intro M _ (gm_index_count (w_meta w)) ks' mk'); [exact HI|exact Hk'|lia| | | |cbn [length]; lia| | |intros Hg; rewrite Em; by eapply index_move; eauto|].
  - intros k Hk. assert (beqb k kn = false /\ beqb k ko = false) as [E3 E4].
    { split; apply beqb_neq; intros ->; [unfold kn in Hk|unfold ko in Hk]; by rewrite entry_key_prefix in Hk. }
    rewrite Em. unfold map_remove, map_insert. case_match; by rewrite ?E4, ?E3.
  - rewrite HP in I4. cbn in I4 |- *. apply NoDup_cons in I4 as [_ ?]. by constructor.
  - rewrite HP in I5. cbn in I5 |- *. apply Forall_cons in I5 as [_ ?]. by constructor.
  - rewrite I7. cbn [length]. lia.
  - rewrite HP in I8. apply Forall_cons in I8 as [_ ?]. by constructor.
  - clear w0 Ew. set (w0 := mkWorld _ _ _). destruct (gm_aggregate (w_meta w)) as [agg|] eqn:Ea.
    + apply (agg_part_some _ _ agg); [done|].
      eapply (update_step schema classes N g M0.*1 M.*1); [done|done|done|exact Hdh|unfold meta_demand in Hdroom; rewrite Ea in Hdroom; exact Hdroom|lia| |by rewrite HP|done| |].
      * unfold aggregates_inv in I10. rewrite Ea in I10. exact I10.
      * rewrite HP in I8. apply Forall_cons in I8 as [Ho _]. unfold record_fits in Ho. rewrite Ea in Ho. exact Ho.
      * unfold record_fits in Hr. rewrite Ea in Hr. exact Hr.
    + unfold update_aggregates. cbn [w_meta w0]. change (gm_aggregate (set_index_count _ (w_meta w))) with (gm_aggregate (w_meta w)). rewrite Ea. by apply agg_part_none.
Qed.

Lemma nothing_spec M M' : ghost_inv N (w_meta w) M mk md -> M ≡ₚ M' -> ghost_step M' w.
Proof.
  intros HI HP. exists ks, dict, mk, md. do 4 (split; [done|]). split; [lia|]. split.
  - unfold meta_demand. destruct (gm_aggregate (w_meta w)); [|lia]. unfold demand. case_match; unfold blen; lia.
  - do 3 (split; [done|]). eapply ghost_inv_perm; [exact HP| |exact HI]. lia.
Qed.

End one.

Lemma members_cons_true meta r sk C : selects meta r = true -> members meta ((r, sk) :: C) = (r, sk) :: members meta C.
Proof. intros H. unfold members. by rewrite filter_cons_True. Qed.

Lemma members_cons_false meta r sk C : selects meta r = false -> members meta ((r, sk) :: C) = members meta C.
Proof. intros H. unfold members. rewrite filter_cons_False; [done|]. cbn. by rewrite H. Qed.

Lemma members_perm meta C C' : C ≡ₚ C' -> members meta C ≡ₚ members meta C'.
Proof. unfold members. by intros ->. Qed.

Lemma members_key meta sk C : sk ∉ C.*2 -> sk ∉ (members meta C).*2.
Proof. intros H ([r sk'] & -> & [_ Hin]%list_elem_of_filter)%list_elem_of_fmap. apply H. by apply (list_elem_of_fmap_2 snd _ (r, sk')). Qed.

Lemma notify_ghost_spec N w ks dict mk md C C' r sk wt :
  w_keyspace w = Some ks -> w_dictionary w = Some dict -> ks_holds ks mk -> dict_holds dict md ->
  ks_seqno ks + 2 < 2 ^ 64 -> dict_seqno dict + meta_demand (w_meta w) < 2 ^ 64 -> N + 2 < 2 ^ 63 ->
  ghost_inv N (w_meta w) (members (w_meta w) C) mk md -> lobe_step C r sk wt C' -> spatial_ok sk ->
  (selects (w_meta w) r = true -> record_fits (w_meta w) r) ->
  exists w', notify_ghost limit r sk wt false w = Some w' /\ ghost_step N w ks dict mk md (members (w_meta w) C') w'.
Proof.
  intros Hks Hdict Hkh Hdh Hkr Hdr HN HI HC Hs Hr. unfold notify_ghost. rewrite (proj2 (Z.eqb_neq _ _)) by apply HI.
  destruct (gi_core _ _ _ _ _ HI) as (c & Hc & Hcache).
  assert (exists meta, ensure_core_filters (w_meta w) = Some meta /\ gm_core_filters_cache meta = Some c /\ kind meta = kind (w_meta w) /\
    gm_index_count meta = gm_index_count (w_meta w) /\ gm_aggregate meta = gm_aggregate (w_meta w)) as (meta & -> & Em & Ek & Ei & Ea).
  { unfold ensure_core_filters. rewrite Hc. destruct Hcache as [-> |E]; [exists (set_cache c (w_meta w)); done|rewrite E; exists (w_meta w); done]. }
  set (w1 := mkWorld (w_keyspace w) (w_dictionary w) meta). cbv zeta. rewrite Em.
  assert (forall r', matches_core_expr r' c = selects (w_meta w) r') as Hsel by (intros r'; unfold selects; by rewrite Hc).
  rewrite !Hsel. destruct (kind_fields _ _ Ek) as (K1 & K2 & _ & _ & K5 & _ & K7).
  assert (forall M, ghost_inv N (w_meta w) M mk md -> ghost_inv N (w_meta w1) M mk md) as HI1.
  { intros M HM. pose proof HM as [I1 I2 I3 I4 I5 I6 I7 I8 I9 I10]. eapply ghost_inv_step; [exact HM|exact Ek|right; exists c; done|done|done|done|by rewrite <- I7|done|done|].
    unfold aggregates_inv in *. cbn [w_meta w1]. by rewrite Ea, K1. }
  assert (forall M w', ghost_step N w1 ks dict mk md M w' ->
    exists w'', Some (mkWorld (w_keyspace w') (w_dictionary w') (set_updates (wrap64 (gm_incremental_updates (w_meta w') + 1)) (w_meta w'))) = Some w'' /\
      ghost_step N w ks dict mk md M w'') as Hend.
  { intros M w' (ks' & d' & mk' & md' & H1 & H2 & H3 & H4 & H5 & H6 & H7 & H8 & H9 & H10). eexists. split; [reflexivity|].
    unfold meta_demand in H6. cbn [w_meta w1] in H6, H7, H8, H9. rewrite Ea in H6. rewrite K1 in H7, H8.
    exists ks', d', mk', md'. do 5 (split; [done|]). split; [done|]. do 2 (split; [done|]). split; [etrans; [exact H9|exact Ek]|].
    pose proof H10 as [I1 I2 I3 I4 I5 I6 I7 I8 I9 I10]. eapply ghost_inv_step; [exact H10|done|by left|done..]. }
  assert (dict_seqno dict + meta_demand (w_meta w1) < 2 ^ 64) as Hdr1 by (unfold meta_demand in *; cbn [w_meta w1]; by rewrite Ea).
  assert (selects (w_meta w) r = true -> record_fits (w_meta w1) r) as Hr1 by (intros H; by apply K7, Hr).
  destruct HC as [Hn|C0 HP|old osk C0 HP Hn].
  - destruct (selects (w_meta w) r) eqn:Es; apply Hend.
    + rewrite members_cons_true by done. apply insert_spec; auto. by apply members_key.
    + rewrite members_cons_false by done. eapply nothing_spec; eauto.
  - pose proof (members_perm (w_meta w) _ _ HP) as HM. destruct (selects (w_meta w) r) eqn:Es; apply Hend.
    + rewrite members_cons_true in HM by done. eapply remove_spec; eauto.
    + rewrite members_cons_false in HM by done. eapply nothing_spec; eauto.
  - pose proof (members_perm (w_meta w) _ _ HP) as HM. apply (members_key (w_meta w)) in Hn. rewrite (Hsel old).
    destruct (selects (w_meta w) old) eqn:Eo; [rewrite members_cons_true in HM by done|rewrite members_cons_false in HM by done];
      (destruct (selects (w_meta w) r) eqn:Es; apply Hend; [rewrite members_cons_true by done|rewrite members_cons_false by done]).
    + eapply update_spec; eauto.
    + eapply remove_spec; eauto.
    + assert (ghost_inv N (w_meta w1) (members (w_meta w) C0) mk md) as HI0 by (eapply ghost_inv_perm; [exact HM|reflexivity|auto]).
      apply insert_spec; auto.
    + eapply nothing_spec; eauto.
Qed.

(** ** One write, all ghosts of the lobe *)

Lemma index_prefix_inj g g' k :
  is_uint 16 g -> is_uint 16 g' -> starts_with k (to_be_bytes 2 g) = true -> starts_with k (to_be_bytes 2 g') = true -> g = g'.
Proof.
  intros Hg Hg' (a & ->)%starts_with_iff (b & E)%starts_with_iff. apply (f_equal (take 2)) in E.
  rewrite !take_app_length' in E by (symmetry; apply length_to_be_bytes).
  apply (f_equal from_be_bytes) in E. by rewrite !(from_to_be_bytes_id 2 16) in E.
Qed.

Abbreviation Shard := (BTreeMap bytes GhostMeta).

Definition ids (S : Shard) : list Z := (fun nm => gm_ghost_id nm.2) <$> S.

Definition shard_demand (S : Shard) : Z := foldr (fun nm n => meta_demand nm.2 + n) 0 S.

Definition shard_inv (N : Z) (S : Shard) (C : list (Fields * bytes)) (mk md : bytes -> option bytes) : Prop :=
  Forall (fun nm => ghost_inv N nm.2 (members nm.2 C) mk md) S.

(** Nothing under the prefixes of these ghosts differs. *)
Definition frame (G : list Z) (mk mk' md md' : bytes -> option bytes) : Prop :=
  (forall k, Forall (fun g => starts_with k (to_be_bytes 2 g) = false) G -> mk' k = mk k) /\
  (forall k, Forall (fun g => ~ in_prefix g k) G -> md' k = md k).

Lemma shard_frame N S C G mk mk' md md' :
  shard_inv N S C mk md -> frame G mk mk' md md' -> Forall (is_uint 16) G -> (forall g, g ∈ ids S -> g ∉ G) -> shard_inv N S C mk' md'.
Proof.
  intros HI [F1 F2] HG Hd. apply Forall_forall. intros nm Hin. unfold shard_inv in HI. rewrite Forall_forall in HI. pose proof (HI nm Hin) as HI'.
  assert (gm_ghost_id nm.2 ∉ G) as Hn by (apply Hd; by apply (list_elem_of_fmap_2 (fun nm => gm_ghost_id nm.2))).
  rewrite Forall_forall in HG. pose proof (gi_id _ _ _ _ _ HI') as Hid. eapply ghost_inv_frame; [exact HI'|..].
  - intros k Hk. apply F1, Forall_forall. intros g Hg. destruct (starts_with k (to_be_bytes 2 g)) eqn:E; [|done]. exfalso. apply Hn.
    rewrite (index_prefix_inj _ g k Hid (HG g Hg) Hk E). done.
  - intros k Hk. apply F2, Forall_forall. intros g Hg E. apply Hn. rewrite (ghost_prefix_inj _ g k Hid (HG g Hg) Hk E). done.
Qed.

Lemma meta_demand_nonneg meta : 0 <= meta_demand meta.
Proof. unfold meta_demand, demand. case_match; [|lia]. case_match; unfold blen; lia. Qed.

Lemma notify_shard_spec N C C' r sk wt S : forall ks dict mk md,
  ks_holds ks mk -> dict_holds dict md -> ks_seqno ks + 2 * blen S < 2 ^ 64 -> dict_seqno dict + shard_demand S < 2 ^ 64 -> N + 2 < 2 ^ 63 ->
  NoDup (ids S) -> shard_inv N S C mk md -> lobe_step C r sk wt C' -> spatial_ok sk ->
  Forall (fun nm => selects nm.2 r = true -> record_fits nm.2 r) S ->
  exists ks' dict' mk' md' S', notify_shard limit r sk wt false (Some ks) (Some dict) S = Some (Some ks', Some dict', S') /\
    ks_holds ks' mk' /\ dict_holds dict' md' /\ frame (ids S) mk mk' md md' /\ ids S' = ids S /\ shard_inv (N + 2) S' C' mk' md'.
Proof.
  induction S as [|[name meta] S IH]; intros ks dict mk md Hk Hd Hkr Hdr HN Hnd HI HC Hs Hr.
  { exists ks, dict, mk, md, []. do 3 (split; [done|]). split; [by split|]. split; [done|constructor]. }
  cbn [ids fmap list_fmap snd] in Hnd. apply NoDup_cons in Hnd as [Hnin Hnd]. apply Forall_cons in HI as [HI HIs]. apply Forall_cons in Hr as [Hr Hrs]. cbn [snd] in HI, Hr.
  cbn [shard_demand foldr snd] in Hdr. fold (shard_demand S) in Hdr. unfold blen in Hkr. cbn [length] in Hkr.
  assert (0 <= shard_demand S) as Hnn by (clear; induction S as [|nm S IH]; cbn [shard_demand foldr]; [lia|]; pose proof (meta_demand_nonneg nm.2); unfold shard_demand in IH; lia).
  destruct (notify_ghost_spec N (mkWorld (Some ks) (Some dict) meta) ks dict mk md C C' r sk wt) as
    (w' & E & ks1 & d1 & mk1 & md1 & H1 & H2 & H3 & H4 & H5 & H6 & H7 & H8 & H9 & H10); try done; cbn [w_meta]; [lia|lia|].
  cbn [w_meta] in *. pose proof (gi_id _ _ _ _ _ HI) as Hid.
  assert (frame [gm_ghost_id meta] mk mk1 md md1) as F1.
  { split; intros k Hf; apply Forall_cons in Hf as [Hf _]; [exact (H7 k Hf)|exact (H8 k Hf)]. }
  destruct (IH ks1 d1 mk1 md1) as (ks2 & d2 & mk2 & md2 & S' & E2 & A1 & A2 & A3 & A4 & A5); [done|done|unfold blen; lia|lia|done|done| |done|done|done|].
  { eapply shard_frame; [exact HIs|exact F1|by apply Forall_singleton|]. intros g Hg ->%list_elem_of_singleton. done. }
  exists ks2, d2, mk2, md2, ((name, w_meta w') :: S'). cbn [notify_shard]. rewrite E, H1, H2, E2. split; [done|]. split; [done|]. split; [done|].
  destruct (kind_fields _ _ H9) as (K1 & _). split; [|split].
  - destruct A3 as [A31 A32]. split; intros k Hf; cbn [ids fmap list_fmap snd] in Hf; apply Forall_cons in Hf as [Hf1 Hf2].
    + rewrite A31 by done. by apply H7.
    + rewrite A32 by done. by apply H8.
  - cbn [ids fmap list_fmap snd]. rewrite K1. f_equal. exact A4.
  - constructor; [|exact A5]. cbn [snd]. rewrite (kind_members _ _ C' H9).
    pose proof (shard_frame (N + 2) [(name, w_meta w')] C' (ids S) mk1 mk2 md1 md2) as HF. unfold shard_inv in HF. rewrite !Forall_singleton in HF. cbn [snd] in HF.
    rewrite (kind_members _ _ C' H9) in HF. apply HF; [done|done| |].
    + apply Forall_fmap. eapply Forall_impl; [exact HIs|]. intros nm. apply gi_id.
    + intros g Hg. change (g ∈ [gm_ghost_id (w_meta w')]) in Hg. apply list_elem_of_singleton in Hg as ->. by rewrite K1.
Qed.

(** ** The manager *)

Lemma bt_replace {V} (k : Z) (v : V) (m : BTreeMap Z V) :
  bt_sorted m -> bt_get k m = Some v -> exists a b, m = a ++ (k, v) :: b /\ forall v', bt_insert k v' m = a ++ (k, v') :: b.
Proof.
  induction 1 as [|[k1 v1] m Hs IH Hk]; cbn [bt_get bt_insert]; [done|]. destruct (ocmp k k1) eqn:E; intros Hg.
  - injection Hg as ->. apply ocmp_eq in E as ->. by exists [], m.
  - exfalso. rewrite bt_get_below in Hg; [done|]. eapply Forall_impl; [exact Hk|]. intros kv Hkv. unfold klt in Hkv. by eapply ocmp_trans.
  - destruct (IH Hg) as (a & b & -> & Hi). exists ((k1, v1) :: a), b. split; [done|]. intros v'. by rewrite Hi.
Qed.

Definition manager_ids (gl : GhostLobeManager (D := D)) : list Z := gl_shards gl ≫= fun ls => ids ls.2.

(** Every ghost of every lobe is in order; their identifiers are distinct. *)
Definition manager_inv (N : Z) (lobes : Z -> list (Fields * bytes)) (gl : GhostLobeManager (D := D)) : Prop :=
  exists ks dict mk md, gl_keyspace gl = Some ks /\ gl_dictionary gl = Some dict /\ ks_holds ks mk /\ dict_holds dict md /\
    bt_sorted (gl_shards gl) /\ gl_bulk_mode gl = false /\ NoDup (manager_ids gl) /\
    Forall (fun ls => shard_inv N ls.2 (lobes ls.1) mk md) (gl_shards gl).

(** The sequence numbers of the two trees last for the next write of the lobe. *)
Definition manager_room (lobe : Z) (gl : GhostLobeManager (D := D)) : Prop :=
  forall ks dict S, gl_keyspace gl = Some ks -> gl_dictionary gl = Some dict -> bt_get lobe (gl_shards gl) = Some S ->
    ks_seqno ks + 2 * blen S < 2 ^ 64 /\ dict_seqno dict + shard_demand S < 2 ^ 64.

Definition set_lobe (lobe : Z) (C : list (Fields * bytes)) (lobes : Z -> list (Fields * bytes)) (l : Z) : list (Fields * bytes) :=
  if l =? lobe then C else lobes l.

(** A record fits the ghosts of the lobe that select it. *)
Definition record_fits_lobe (lobe : Z) (gl : GhostLobeManager (D := D)) (r : Fields) : Prop :=
  forall S, bt_get lobe (gl_shards gl) = Some S -> Forall (fun nm => selects nm.2 r = true -> record_fits nm.2 r) S.

Lemma shard_mono N N' S C mk md : N <= N' -> shard_inv N S C mk md -> shard_inv N' S C mk md.
Proof. intros HN HI. eapply Forall_impl; [exact HI|]. intros nm. by apply ghost_inv_perm. Qed.

Lemma notify_write_spec N lobes gl lobe r sk wt C' :
  manager_inv N lobes gl -> manager_room lobe gl -> N + 2 < 2 ^ 63 -> lobe_step (lobes lobe) r sk wt C' -> spatial_ok sk -> record_fits_lobe lobe gl r ->
  exists gl', notify_write limit lobe r sk wt gl = Some gl' /\ manager_inv (N + 2) (set_lobe lobe C' lobes) gl'.
Proof.
  intros (ks & dict & mk & md & M1 & M2 & M3 & M4 & M5 & M6 & M7 & M8) Hroom HN HC Hs Hr. unfold notify_write.
  destruct (bt_get lobe (gl_shards gl)) as [S|] eqn:ES.
  2: { exists gl. split; [done|]. exists ks, dict, mk, md. do 7 (split; [done|]). rewrite Forall_forall in *. intros ls Hin. unfold set_lobe.
       destruct (Z.eqb_spec ls.1 lobe) as [E|]; [|apply (shard_mono N); [lia|auto]].
       assert (bt_get lobe (gl_shards gl) = Some ls.2); [|congruence]. apply bt_get_elem; [done|]. destruct ls; cbn in *. by subst. }
  destruct (bt_replace lobe S (gl_shards gl) M5 ES) as (a & b & Eab & Ei).
  unfold manager_ids in M7. rewrite Eab in M7, M8. rewrite bind_app in M7. cbn [mbind list_bind snd] in M7.
  apply NoDup_app in M7 as (Na & Nab & Nb). apply NoDup_app in Nb as (NS & NSb & Nb).
  apply Forall_app in M8 as [Ia Ib]. apply Forall_cons in Ib as [IS Ib]. cbn [fst snd] in IS.
  destruct (Hroom ks dict S M1 M2 ES) as [R1 R2].
  destruct (notify_shard_spec N (lobes lobe) C' r sk wt S ks dict mk md) as (ks' & d' & mk' & md' & S' & E & A1 & A2 & A3 & A4 & A5); [done..|by apply Hr|].
  rewrite M1, M2, M6, E. eexists. split; [reflexivity|].
  destruct (api_seal_ok ks' mk' A1) as [A1' _]. destruct (api_seal_ok d' md' A2) as [A2' _].
  exists (api_seal_full ks'), (api_seal_full d'), mk', md'. do 4 (split; [done|]). cbn [gl_shards gl_bulk_mode].
  split; [by apply bt_insert_sorted|]. split; [done|]. unfold manager_ids. cbn [gl_shards].
  rewrite Ei. split.
  { rewrite bind_app. cbn [mbind list_bind snd]. rewrite A4. apply NoDup_app. split; [done|]. split; [done|]. apply NoDup_app. done. }
  pose proof (bt_sorted_nodup _ M5) as Hnd. rewrite Eab, fmap_app in Hnd. cbn in Hnd. apply NoDup_app in Hnd as (_ & Hda & [Hdb _]%NoDup_cons).
  assert (Forall (is_uint 16) (ids S)) as HidS by (apply Forall_fmap; eapply Forall_impl; [exact IS|]; intros nm; apply gi_id).
  assert (forall ls, (ls ∈ a \/ ls ∈ b) -> shard_inv N ls.2 (lobes ls.1) mk md -> shard_inv (N + 2) ls.2 (set_lobe lobe C' lobes ls.1) mk' md') as Hother.
  { intros ls Hls HI. unfold set_lobe. destruct (Z.eqb_spec ls.1 lobe) as [El|_].
    - exfalso. destruct Hls as [Hls|Hls]; [apply (Hda ls.1); [by apply list_elem_of_fmap_2|rewrite El; left]|apply Hdb; rewrite <- El; by apply list_elem_of_fmap_2].
    - apply (shard_mono N); [lia|]. eapply shard_frame; [exact HI|exact A3|exact HidS|]. intros g Hg HgS. destruct Hls as [Hls|Hls].
      + apply (Nab g); [apply list_elem_of_bind; eauto|]. apply elem_of_app. by left.
      + apply (NSb g HgS). apply list_elem_of_bind. eauto. }
  apply Forall_app. split; [|constructor].
  - rewrite Forall_forall in *. intros ls Hls. apply Hother; auto.
  - cbn [fst snd]. unfold set_lobe. by rewrite Z.eqb_refl.
  - rewrite Forall_forall in *. intros ls Hls. apply Hother; auto.
Qed.

End ghost.
