(* ===== verification/GhostReads.v ===== *)
(** * Reads of a ghost's aggregates

    From the invariant of the manager to the answers of [read_precomputed]: the
    global state, and the groups that the pins of a query select, in memory or on
    disk. *)

From S2P Require Import Prelude ByteOrder BTree Types Block Bloom Memtable Merge Streams TableMeta TableWriter TableReader.
From S2P Require Import Version Leveled Paths Worker Manifest Tree TreeReads TreeSteps.
From S2P Require Import Value Lid Filters Record SortEncoding Aggregate GroupKey Rollup Ghost GhostInv GhostRun GhostTheorems.

(** ** Pins *)

(** The value a query pins a field to: its first [=] predicate. *)
Definition pin (filters : list (bytes * FilterOp * Value)) (gf : bytes) : option Value :=
  match List.find (fun '(f, op, _) => beqb f gf && bool_decide (op = Eq_)) filters with Some (_, _, v) => Some v | None => None end.

(** A record agrees with the pins of the group fields. *)
Definition satisfies (filters : list (bytes * FilterOp * Value)) (fs : list bytes) (r : Fields) : Prop :=
  forall gf v, gf ∈ fs -> pin filters gf = Some v -> group_value r gf = v.

Section pins.
Context `{VT : ValueText} `{!ValueTextLaws VT}.

Lemma expected_part_pin filters gf : expected_part filters gf = (fun v => value_to_group_key_fragment (Some v)) <$> pin filters gf.
Proof. unfold expected_part, pin. destruct (List.find _ filters) as [[[f op] v]|]; done. Qed.

Lemma parts_match_spec eps parts :
  parts_match eps parts = true <-> forall i e, eps !! i = Some (Some e) -> parts !! i = Some e.
Proof.
  unfold parts_match. rewrite forallb_forall. split.
  - intros H i e Hi. assert (In (i, Some e) (imap pair eps)) as Hin%H.
    { apply list_elem_of_In, elem_of_lookup_imap. eauto. }
    destruct (parts !! i); [|done]. by apply beqb_eq in Hin as ->.
  - intros H [i ep] (j & y & [= <- <-] & Hj)%list_elem_of_In%elem_of_lookup_imap. destruct ep as [e|]; [|done]. rewrite (H _ _ Hj). apply beqb_refl.
Qed.

Lemma fragment_inj v v' : group_scalar v -> group_scalar v' ->
  value_to_group_key_fragment (Some v) = value_to_group_key_fragment (Some v') -> v = v'.
Proof. intros H H' E. apply (f_equal group_key_fragment_to_value) in E. by rewrite !fragment_roundtrip in E. Qed.

Definition fragments (r : Fields) (fs : list bytes) : list bytes := (fun f => value_to_group_key_fragment (Some (group_value r f))) <$> fs.

(** Matching fragments is agreeing with the pins. *)
Lemma parts_match_satisfies filters fs r :
  Forall (fun f => group_scalar (group_value r f)) fs -> (forall gf v, gf ∈ fs -> pin filters gf = Some v -> group_scalar v) ->
  parts_match (expected_part filters <$> fs) (fragments r fs) = true <-> satisfies filters fs r.
Proof.
  intros Hr Hp. rewrite parts_match_spec. unfold satisfies, fragments. rewrite Forall_forall in Hr. split.
  - intros H gf v Hin Hv. apply list_elem_of_lookup in Hin as Hin'. destruct Hin' as [i Hi]. specialize (H i (value_to_group_key_fragment (Some v))).
    rewrite !list_lookup_fmap, Hi in H. cbn in H. rewrite expected_part_pin, Hv in H. specialize (H eq_refl). injection H as H.
    apply fragment_inj; [auto|by eapply Hp|done].
  - intros H i e. rewrite !list_lookup_fmap. destruct (fs !! i) as [gf|] eqn:Hi; [|done]. cbn. rewrite expected_part_pin.
    destruct (pin filters gf) as [v|] eqn:Ev; [|done]. intros [= <-]. apply list_elem_of_lookup_2 in Hi. by rewrite (H gf v Hi Ev).
Qed.

(** ** The three ways to select *)

Lemma all_wildcard_match eps parts : all_wildcard eps = true -> parts_match eps parts = true.
Proof.
  intros H. apply parts_match_spec. intros i e Hi. unfold all_wildcard in H. rewrite forallb_forall in H. exfalso.
  apply list_elem_of_lookup_2, list_elem_of_In in Hi. by apply H in Hi.
Qed.

Lemma all_pinned_match eps parts :
  all_pinned eps = true -> length parts = length eps -> parts_match eps parts = true <-> parts = default [] <$> eps.
Proof.
  intros H Hl. rewrite parts_match_spec. unfold all_pinned in H. rewrite forallb_forall in H. split.
  - intros Hm. apply list_eq. intros i. rewrite list_lookup_fmap. destruct (eps !! i) as [[e|]|] eqn:Ei; cbn.
    + by apply Hm.
    + apply list_elem_of_lookup_2, list_elem_of_In in Ei. by apply H in Ei.
    + apply lookup_ge_None in Ei. apply lookup_ge_None. lia.
  - intros -> i e Hi. by rewrite list_lookup_fmap, Hi.
Qed.

(** What a selection keeps: the groups whose key decodes to matching parts. *)
Definition keeps (eps : list (option bytes)) (gk : bytes) : bool := match decode_group_key gk with Ok parts => parts_match eps parts | _ => false end.

Lemma decode_ok n gk : group_key_ok n gk -> exists frags, decode_group_key gk = Ok frags /\ length frags = n /\ gk = encode_group_key frags /\
  Forall (fun f => is_utf8 f = true) frags.
Proof. intros [Hl (frags & Hu & Hn & ->)]. exists frags. split; [by apply decode_encode_key|]. done. Qed.

Lemma keeps_pinned n eps gk :
  group_key_ok n gk -> length eps = n -> all_pinned eps = true -> Forall (fun e => forall f, e = Some f -> is_utf8 f = true) eps ->
  keeps eps gk = true <-> gk = pinned_key eps.
Proof.
  intros Hgk Hl Hp Hu. destruct (decode_ok n gk Hgk) as (frags & Hd & Hn & E & Hf). unfold keeps. rewrite Hd.
  rewrite all_pinned_match by (done || lia). unfold pinned_key. split; [intros ->; done|]. intros Ek.
  assert (decode_group_key (encode_group_key (default [] <$> eps)) = Ok (default [] <$> eps)) as Hd'; [|congruence].
  apply decode_encode_key; [|rewrite <- Ek; apply Hgk]. apply Forall_fmap. eapply Forall_impl; [exact Hu|]. intros [f|] Hx; cbn; auto.
Qed.

Lemma keeps_wild n eps gk : group_key_ok n gk -> all_wildcard eps = true -> keeps eps gk = true.
Proof. intros Hgk Hw. destruct (decode_ok n gk Hgk) as (frags & Hd & _). unfold keeps. rewrite Hd. by apply all_wildcard_match. Qed.

Lemma expected_parts_utf8 filters fs :
  (forall gf v, gf ∈ fs -> pin filters gf = Some v -> group_scalar v) ->
  Forall (fun e => forall f, e = Some f -> is_utf8 f = true) (expected_part filters <$> fs).
Proof.
  intros Hpins. apply Forall_fmap, Forall_forall. intros gf Hgf f. cbn. rewrite expected_part_pin. destruct (pin filters gf) as [v|] eqn:Ev; [|done].
  intros [= <-]. apply fragment_utf8. eauto.
Qed.

Lemma keeps_satisfies filters fs r :
  Forall (fun f => group_scalar (group_value r f)) fs /\ blen (extract_group_key r fs) <= 65535 ->
  (forall gf v, gf ∈ fs -> pin filters gf = Some v -> group_scalar v) ->
  keeps (expected_part filters <$> fs) (extract_group_key r fs) = true <-> satisfies filters fs r.
Proof.
  intros [Hsc Hlen] Hpins. rewrite <- parts_match_satisfies by done. unfold keeps. rewrite extract_group_key_values in *. fold (fragments r fs) in *.
  rewrite decode_encode_key; [done| |done]. apply Forall_fmap. eapply Forall_impl; [exact Hsc|]. intros f. apply fragment_utf8.
Qed.

(** Group keys in a map of states. *)
Definition keys_ok (n : nat) (map : BTreeMap bytes AggregateState) : Prop := Forall (fun kv => group_key_ok n kv.1) map.

Lemma filter_groups_spec n eps map :
  keys_ok n map -> filter_groups eps map = Ok (filter (fun kv => keeps eps kv.1 = true) map).
Proof.
  induction 1 as [|[gk st] map Hgk _ IH]; [done|]. cbn [filter_groups fst] in *. destruct (decode_ok n gk Hgk) as (frags & Hd & _).
  rewrite Hd, Result_bind_Ok, IH, Result_bind_Ok. f_equal. assert (keeps eps gk = parts_match eps frags) as Ek by (unfold keeps; by rewrite Hd).
  destruct (parts_match eps frags); [by rewrite filter_cons_True|]. rewrite filter_cons_False; [done|]. cbn. by rewrite Ek.
Qed.

Lemma bt_get_filter_key (P : bytes -> bool) (map : BTreeMap bytes AggregateState) gk :
  bt_sorted map -> bt_get gk (filter (fun kv => P kv.1 = true) map) = if P gk then bt_get gk map else None.
Proof.
  intros Hs. apply option_eq. intros st. rewrite bt_get_elem by (by apply bt_sorted_filter). rewrite list_elem_of_filter. cbn.
  destruct (P gk); [|naive_solver]. rewrite bt_get_elem by done. naive_solver.
Qed.

(** The selection in memory. *)
Definition select_ram (eps : list (option bytes)) (map : BTreeMap bytes AggregateState) : Result (BTreeMap bytes AggregateState) :=
  if all_wildcard eps then Ok map
  else if all_pinned eps then
    let key := pinned_key eps in
    Ok (match bt_get key map with Some state => [(key, state)] | None => [] end)
  else filter_groups eps map.

Lemma select_ram_spec n eps map :
  keys_ok n map -> bt_sorted map -> length eps = n -> Forall (fun e => forall f, e = Some f -> is_utf8 f = true) eps ->
  exists out, select_ram eps map = Ok out /\ bt_sorted out /\ keys_ok n out /\ forall gk, group_key_ok n gk -> bt_get gk out = if keeps eps gk then bt_get gk map else None.
Proof.
  intros Hk Hs Hl Hu. unfold select_ram. destruct (all_wildcard eps) eqn:Ew.
  { exists map. do 3 (split; [done|]). intros gk Hgk. by rewrite (keeps_wild n). }
  destruct (all_pinned eps) eqn:Ep.
  - eexists. split; [reflexivity|]. split; [case_match; repeat constructor|].
    split; [destruct (bt_get (pinned_key eps) map) as [st|] eqn:Eg; constructor; [|constructor];
      apply bt_get_elem in Eg; [|done]; unfold keys_ok in Hk; rewrite Forall_forall in Hk; by apply Hk in Eg|]. intros gk Hgk.
    pose proof (keeps_pinned n eps gk Hgk Hl Ep Hu) as Hkeep. destruct (keeps eps gk).
    + rewrite (proj1 Hkeep eq_refl). destruct (bt_get (pinned_key eps) map); cbn; [by rewrite bcmp_refl|done].
    + destruct (bt_get (pinned_key eps) map); [|done]. cbn [bt_get]. destruct (ocmp gk (pinned_key eps)) eqn:Eo; [|done..].
      apply ocmp_eq in Eo. by apply Hkeep in Eo.
  - rewrite (filter_groups_spec n) by done. eexists. split; [reflexivity|]. split; [by apply bt_sorted_filter|].
    split; [unfold keys_ok in *; rewrite Forall_forall in *; intros kv [_ ?]%list_elem_of_filter; auto|]. intros gk _. by apply bt_get_filter_key.
Qed.

(** The selection on disk. *)
Lemma rollup_rows_spec {PC : RollupPostcard} n eps g rows : forall out,
  NoDup rows.*1 -> (forall k v, (k, v) ∈ rows -> exists gk d, group_key_ok n gk /\ k = rollup_key g gk /\ decode_rollup_delta v = Some d) ->
  bt_sorted out -> keys_ok n out ->
  exists out', rollup_rows eps (all_wildcard eps) rows out = Ok out' /\ bt_sorted out' /\ keys_ok n out' /\
    forall gk, group_key_ok n gk ->
      (forall v d, (rollup_key g gk, v) ∈ rows -> decode_rollup_delta v = Some d -> keeps eps gk = true -> bt_get gk out' = Some (into_aggregate_state d)) /\
      (keeps eps gk = false \/ rollup_key g gk ∉ rows.*1 -> bt_get gk out' = bt_get gk out).
Proof.
  induction rows as [|[k v] rows IH]; intros out Hnd Hrows Hs Hk.
  { exists out. do 3 (split; [done|]). intros gk _. split; [by intros ? ? ?%elem_of_nil|done]. }
  cbn in Hnd. apply NoDup_cons in Hnd as [Hnin Hnd]. destruct (Hrows k v ltac:(left)) as (gk0 & d0 & Hgk0 & -> & Hd0).
  cbn [rollup_rows]. rewrite (group_key_ok_roundtrip n) by done. destruct (decode_ok n gk0 Hgk0) as (frags & Hdec & _).
  assert (keeps eps gk0 = parts_match eps frags) as Ek by (unfold keeps; by rewrite Hdec).
  set (keep := if all_wildcard eps then _ else _).
  assert (keep = Ok (keeps eps gk0)) as ->.
  { unfold keep. destruct (all_wildcard eps) eqn:Ew; [by rewrite (keeps_wild n)|]. by rewrite Hdec, Result_bind_Ok, Ek. }
  rewrite Result_bind_Ok, Hd0.
  set (out1 := if keeps eps gk0 then bt_insert gk0 (into_aggregate_state d0) out else out).
  assert (bt_sorted out1) as Hs1 by (unfold out1; case_match; [by apply bt_insert_sorted|done]).
  assert (keys_ok n out1) as Hk1.
  { unfold out1. case_match; [|done]. apply Forall_forall. intros [gk st] [[= -> ->]|Hin]%bt_insert_elem; [done|].
    unfold keys_ok in Hk. rewrite Forall_forall in Hk. by apply Hk. }
  destruct (IH out1 Hnd (fun k v H => Hrows k v (list_elem_of_further _ _ _ H)) Hs1 Hk1) as (out' & E & H1 & H2 & H3). exists out'. do 3 (split; [done|]).
  intros gk Hgk. destruct (H3 gk Hgk) as [H4 H5]. split.
  - intros v' d [Heq|Hin]%elem_of_cons Hd Hkeep; [|by eauto]. pose proof (f_equal snd Heq) as Ev. apply (f_equal fst) in Heq. cbn [fst snd] in Heq, Ev. subst v'.
    apply (rollup_key_inj n) in Heq as ->; [|done|done].
    rewrite H5 by (right; exact Hnin). unfold out1. rewrite Hkeep, bt_get_insert, ocmp_refl. congruence.
  - intros Hno. rewrite H5.
    2: { destruct Hno as [?|Hno]; [by left|]. right. intros Hin. apply Hno. cbn. by right. }
    unfold out1. destruct (keeps eps gk0) eqn:Ekk; [|done]. rewrite bt_get_insert. destruct (ocmp gk gk0) eqn:Eo; [|done..].
    apply ocmp_eq in Eo as ->. destruct Hno as [?|Hno]; [congruence|]. destruct Hno. cbn. left.
Qed.

Lemma utf8_is_bytes s : is_utf8 s = true -> is_bytes s.
Proof.
  assert (forall m s, (length s <= m)%nat -> is_utf8 s = true -> is_bytes s) as H; [|by eapply H].
  clear s. induction m as [|m IH]; intros s Hm Hs; (destruct s as [|a s]; [constructor|]); cbn [length] in Hm; [lia|].
  cbn [is_utf8] in Hs. destruct ((0 <=? a) && (a <? 128)) eqn:E1; [constructor; [lia|apply IH; [lia|done]]|].
  destruct s as [|b s]; [done|]. destruct (utf8_2 a b) eqn:E2.
  { unfold utf8_2, cont in E2. do 2 (constructor; [lia|]). apply IH; [cbn in Hm; lia|done]. }
  destruct s as [|c s]; [done|]. destruct (utf8_3 a b c) eqn:E3.
  { unfold utf8_3, cont in E3. do 3 (constructor; [lia|]). apply IH; [cbn in Hm; lia|done]. }
  destruct s as [|d s]; [done|]. destruct (utf8_4 a b c d) eqn:E4; [|done].
  unfold utf8_4, cont in E4. do 4 (constructor; [lia|]). apply IH; [cbn in Hm; lia|done].
Qed.

End pins.

Section reads.
Context {D : Type} {TA : TreeApi D} {PC : RollupPostcard} `{!RollupPostcardLaws PC} {VT : ValueText} `{!ValueTextLaws VT} {VP : ValuePostcard}.
Context (limit : Z) (schema : bytes -> bytes -> AggOp * SvClass) (classes : Z -> bytes -> SvClass).
Context {KL : TreeApiLaws None D} {DL : TreeApiLaws (Some (RollupMergeOperator schema)) D}.

Abbreviation dict_holds := (@api_holds _ _ _ DL).
Abbreviation ks_holds := (@api_holds _ _ _ KL).

(** ** The groups of a ghost *)

Section groups.
Context (N g : Z) (L : list Fields) (agg : AggregateContent) (dict : D) (md : bytes -> option bytes) (fs : list bytes) (eps : list (option bytes)).
Hypothesis Hinv : agg_inv schema classes N g L agg md.
Hypothesis Hg : grouping agg = Grouped fs.
Hypothesis Hd : dict_holds dict md.
Hypothesis HN : N < 2 ^ 63.
Hypothesis HL : Forall (agg_record_ok classes g agg) L.
Hypothesis Heps : length eps = length fs.
Hypothesis Hutf : Forall (fun e => forall f, e = Some f -> is_utf8 f = true) eps.

Abbreviation n := (length fs).
Abbreviation G := (group_of fs L).

Lemma member_key gk : G gk <> [] -> group_key_ok n gk.
Proof. intros (r & Hin & <-)%group_of_member. rewrite Forall_forall in HL. eapply agg_record_key; [by apply HL|done]. Qed.

(** What a read returns: the groups that are kept, each with its summary. *)
Definition groups_read (out : BTreeMap bytes AggregateState) : Prop :=
  bt_sorted out /\ forall gk,
    match bt_get gk out with
    | Some st => G gk <> [] /\ keeps eps gk = true /\ summarises (aggregate_specs agg) (G gk) st
    | None => G gk = [] \/ keeps eps gk = false
    end.

Lemma read_ram map : residency agg = InRam map -> exists out, select_ram eps map = Ok out /\ groups_read out.
Proof.
  intros Hres. destruct Hinv as (Hm & _ & _ & HI). rewrite Hg, Hres in HI. destruct HI as (_ & Hs & HI & _).
  assert (forall gk st, bt_get gk map = Some st -> G gk <> [] /\ summarises (aggregate_specs agg) (G gk) st) as Hst.
  { intros gk st E. pose proof (HI gk) as Hr. rewrite E in Hr. split; [by destruct Hr as (? & _ & _ & _ & _ & ?)|by eapply group_ram_summarises]. }
  assert (keys_ok n map) as Hk.
  { apply Forall_forall. intros [gk st] Hin%bt_get_elem; [|done]. by apply member_key, (Hst gk st). }
  destruct (select_ram_spec n eps map Hk Hs Heps Hutf) as (out & E & H1 & H2 & H3). exists out. split; [done|]. split; [done|]. intros gk.
  destruct (bt_get gk out) as [st|] eqn:Eg.
  - assert (group_key_ok n gk) as Hgk by (apply bt_get_elem in Eg; [|done]; unfold keys_ok in H2; rewrite Forall_forall in H2; by apply H2 in Eg).
    rewrite H3 in Eg by done. destruct (keeps eps gk); [|done]. destruct (Hst gk st Eg). done.
  - destruct (decide (G gk = [])) as [?|Hne]; [by left|]. right. rewrite H3 in Eg by (by apply member_key).
    destruct (keeps eps gk); [|done]. pose proof (HI gk) as Hr. rewrite Eg in Hr. by apply group_ram_none in Hr as [? _].
Qed.

(** The prefix that is scanned covers the groups that are kept, and only roll-ups of
    the ghost. *)
Lemma scan_prefix_spec :
  let prefix := if negb (all_wildcard eps) && all_pinned eps then rollup_key g (pinned_key eps) else rollup_ghost_prefix g in
  is_bytes prefix /\ (forall k, starts_with k prefix = true -> in_prefix g k) /\
  (forall gk, group_key_ok n gk -> keeps eps gk = true -> starts_with (rollup_key g gk) prefix = true).
Proof.
  assert (is_bytes ROLLUP) as HR by (unfold ROLLUP; repeat constructor; lia). cbv zeta. destruct (negb (all_wildcard eps) && all_pinned eps) eqn:Epin.
  - apply andb_prop in Epin as [_ Epin]. split; [|split].
    + unfold rollup_key. repeat apply Forall_app_2; [done|apply to_be_bytes_is_bytes..|]. apply Forall_take, utf8_is_bytes, encode_group_key_utf8.
      apply Forall_fmap. eapply Forall_impl; [exact Hutf|]. intros [f|] Hf; cbn; auto.
    + intros k (r & ->)%starts_with_iff. apply starts_with_iff. eexists. unfold rollup_key, rollup_ghost_prefix. rewrite <- !app_assoc. reflexivity.
    + intros gk Hgk Hk. apply (keeps_pinned n) in Hk as ->; [|done..]. apply starts_with_iff. exists []. by rewrite app_nil_r.
  - split; [apply Forall_app_2; [done|apply to_be_bytes_is_bytes]|]. split; [done|]. intros gk _ _. apply rollup_key_prefix.
Qed.

Lemma read_disk : residency agg = Spilled -> exists out, read_rollups (Some dict) g eps (all_wildcard eps) = Ok out /\ groups_read out.
Proof.
  intros Hres. destruct Hinv as (Hm & Hsch & _ & HI). rewrite Hg, Hres in HI. destruct HI as (_ & HI1 & HI2). unfold read_rollups.
  set (prefix := if negb _ && _ then _ else _).
  destruct scan_prefix_spec as (Hb & Hp1 & Hp2). fold prefix in Hb, Hp1, Hp2.
  clearbody prefix. destruct (api_prefix_ok dict md prefix Hd Hb) as (rows & -> & Hsort & Hrows). rewrite Result_bind_Ok.
  assert (forall gk v, group_key_ok n gk -> md (rollup_key g gk) = Some v ->
    exists d, decode_rollup_delta v = Some d /\ summarises (aggregate_specs agg) (G gk) (into_aggregate_state d)) as Hsum.
  { intros gk v Hgk Hv. pose proof (HI1 gk Hgk) as Hdk. rewrite Hv in Hdk.
    by eapply group_disk_summarises; [exact Hm|exact Hdk|done]. }
  destruct (rollup_rows_spec n eps g rows []) as (out & E & H1 & H2 & H3); [| |constructor|constructor|].
  { clear -Hsort. induction Hsort as [|[k v] rows _ IH Hk]; cbn; constructor; [|done]. intros ([k' v'] & -> & Hin)%list_elem_of_fmap.
    rewrite Forall_forall in Hk. apply Hk in Hin. cbn in Hin. unfold blt in Hin. by rewrite bcmp_refl in Hin. }
  { intros k v [Hk Hv]%Hrows. destruct (HI2 k v (Hp1 k Hk) Hv) as (gk & Hgk & ->). destruct (Hsum gk v Hgk Hv) as (d & Hdec & _). eauto. }
  rewrite E, Result_bind_Ok. eexists. split; [reflexivity|]. split; [by apply bt_sorted_filter|]. intros gk.
  assert (forall gk, group_key_ok n gk -> bt_get gk out =
    if keeps eps gk then match md (rollup_key g gk) with Some v => into_aggregate_state <$> decode_rollup_delta v | None => None end else None) as Hout.
  { clear gk. intros gk Hgk. destruct (H3 gk Hgk) as [H4 H5]. destruct (keeps eps gk) eqn:Ek; [|by apply H5; left]. destruct (md (rollup_key g gk)) as [v|] eqn:Ev.
    - destruct (Hsum gk v Hgk Ev) as (d & Hdec & _). rewrite Hdec. eapply H4; [|exact Hdec|done]. apply Hrows. auto.
    - apply H5. right. intros ([k v] & Ek' & [_ Hv]%Hrows)%list_elem_of_fmap. cbn [fst] in Ek'. rewrite <- Ek' in Hv. congruence. }
  destruct (bt_get gk (filter _ out)) as [st|] eqn:Eg.
  - apply bt_get_elem in Eg; [|by apply bt_sorted_filter]. apply list_elem_of_filter in Eg as [Hpos Hin]. cbn [snd] in Hpos.
    assert (group_key_ok n gk) as Hgk by (unfold keys_ok in H2; rewrite Forall_forall in H2; by apply H2 in Hin).
    apply bt_get_elem in Hin; [|done]. rewrite Hout in Hin by done. destruct (keeps eps gk); [|done]. destruct (md (rollup_key g gk)) as [v|] eqn:Ev; [|done].
    destruct (Hsum gk v Hgk Ev) as (d & Hdec & Hs). rewrite Hdec in Hin. injection Hin as <-. split; [|done].
    intros Eempty. destruct Hs as [Hc _]. rewrite Eempty in Hc. cbn [length] in Hc. lia.
  - destruct (decide (G gk = [])) as [?|Hne]; [by left|]. right. destruct (keeps eps gk) eqn:Ek; [|done]. exfalso.
    pose proof (member_key gk Hne) as Hgk. destruct (md (rollup_key g gk)) as [v|] eqn:Ev.
    + destruct (Hsum gk v Hgk Ev) as (d & Hdec & Hs). assert (bt_get gk out = Some (into_aggregate_state d)) as Hin by (by rewrite Hout, Ek, Ev, Hdec).
      assert (bt_get gk (filter (fun kv => 0 < ag_count kv.2) out) = Some (into_aggregate_state d)); [|congruence].
      apply bt_get_elem; [by apply bt_sorted_filter|]. apply list_elem_of_filter. split; [|by apply bt_get_elem]. cbn [snd]. destruct Hs as [-> _].
      destruct (G gk); [done|cbn; lia].
    + pose proof (HI1 gk Hgk) as (P & H & HF & HP & _ & _ & HPn). rewrite Ev in HPn. subst P. apply Permutation_nil in HP. subst H. by apply follows_nil_inv in HF.
Qed.

End groups.

(** ** Runs *)

(** A ghost over an empty lobe. *)
Record fresh_ghost (meta : GhostMeta) : Prop := {
  fg_id : is_uint 16 (gm_ghost_id meta);
  fg_state : gm_state meta <> 2;
  fg_filter : is_Some (to_core_expr (gm_filter meta));
  fg_cache : gm_core_filters_cache meta = None;
  fg_count : gm_index_count meta = 0;
  fg_agg agg : gm_aggregate meta = Some agg ->
    metrics_ok (aggregate_specs agg) /\
    (forall gk, schema_of (classes (gm_ghost_id meta)) (aggregate_specs agg) schema (rollup_key (gm_ghost_id meta) gk)) /\
    global_aggregates agg = AggregateState_default /\ residency agg = InRam [] /\ grouping agg <> Grouped [];
}.

(** Ghosts over empty lobes, and trees without entries or roll-ups of theirs. *)
Definition fresh_manager (gl : GhostLobeManager (D := D)) : Prop :=
  exists ks dict mk md, gl_keyspace gl = Some ks /\ gl_dictionary gl = Some dict /\ ks_holds ks mk /\ dict_holds dict md /\
    bt_sorted (gl_shards gl) /\ gl_bulk_mode gl = false /\ NoDup (manager_ids gl) /\
    Forall (fun ls => Forall (fun nm => fresh_ghost nm.2) ls.2) (gl_shards gl) /\
    Forall (fun g => (forall k, starts_with k (to_be_bytes 2 g) = true -> mk k = None) /\ (forall k, in_prefix g k -> md k = None)) (manager_ids gl).

Lemma fresh_ghost_inv meta mk md :
  fresh_ghost meta -> (forall k, starts_with k (to_be_bytes 2 (gm_ghost_id meta)) = true -> mk k = None) ->
  (forall k, in_prefix (gm_ghost_id meta) k -> md k = None) -> ghost_inv schema classes 0 meta [] mk md.
Proof.
  intros [F1 F2 [c F3] F4 F5 F6] Hk Hd. constructor; try done.
  - exists c. auto.
  - constructor.
  - intros _ k v H. rewrite Hk by done. split; [done|]. intros (r & sk & Hin & _). by apply elem_of_nil in Hin.
  - unfold aggregates_inv. destruct (gm_aggregate meta) as [agg|] eqn:Ea; [|done]. destruct (F6 agg eq_refl) as (A1 & A2 & A3 & A4 & A5).
    split; [done|]. split; [done|]. split; [exists []; split; [apply follows_nil|]; split; [constructor|]; by rewrite A3|].
    destruct (grouping agg) as [|fs] eqn:Eg; [done|]. split; [congruence|]. rewrite A4. split; [constructor|]. split; [|done].
    intros gk. by apply group_ram_none.
Qed.

Lemma fresh_manager_inv gl : fresh_manager gl -> manager_inv schema classes 0 (fun _ => []) gl.
Proof.
  intros (ks & dict & mk & md & H1 & H2 & H3 & H4 & H5 & H6 & H7 & H8 & H9). exists ks, dict, mk, md. do 7 (split; [done|]).
  rewrite Forall_forall in H8. apply Forall_forall. intros ls Hls. apply Forall_forall. intros nm Hnm. specialize (H8 ls Hls). rewrite Forall_forall in H8.
  destruct (proj1 (Forall_forall _ _) H9 (gm_ghost_id nm.2)) as [Hk Hd].
  - apply list_elem_of_bind. exists ls. split; [|done]. by apply (list_elem_of_fmap_2 (fun nm => gm_ghost_id nm.2)).
  - by apply fresh_ghost_inv; [apply H8|..].
Qed.

(** [n] writes, each committed to its lobe and then notified; in between the trees
    do their own work. *)
Inductive notified (gl0 : GhostLobeManager (D := D)) : Z -> (Z -> list (Fields * bytes)) -> GhostLobeManager (D := D) -> Prop :=
  | notified_start : notified gl0 0 (fun _ => []) gl0
  | notified_write n lobes gl lobe r sk wt C' gl' :
      notified gl0 n lobes gl -> lobe_step (lobes lobe) r sk wt C' -> spatial_ok sk -> record_fits_lobe classes lobe gl r ->
      manager_room schema lobe gl -> 2 * (n + 1) < 2 ^ 63 ->
      notify_write limit lobe r sk wt gl = Some gl' -> notified gl0 (n + 1) (set_lobe lobe C' lobes) gl'
  | notified_background n lobes gl ks ks' dict dict' :
      notified gl0 n lobes gl -> gl_keyspace gl = Some ks -> gl_dictionary gl = Some dict ->
      @api_background _ _ _ KL ks ks' -> @api_background _ _ _ DL dict dict' ->
      notified gl0 n lobes (mkManager (gl_shards gl) (Some ks') (Some dict') (gl_bulk_mode gl)).

Lemma notified_inv gl0 n lobes gl : fresh_manager gl0 -> notified gl0 n lobes gl -> manager_inv schema classes (2 * n) lobes gl /\ 2 * n < 2 ^ 63.
Proof.
  intros H0. induction 1 as [|n lobes gl lobe r sk wt C' gl' _ [IH _] HC Hs Hr Hroom Hn E|n lobes gl ks ks' dict dict' _ [IH ?] Ek Ed Bk Bd];
    [split; [by apply fresh_manager_inv|lia]| |].
  2: { split; [|done]. destruct IH as (ks1 & dict1 & mk & md & M1 & M2 & M3 & M4 & M5). simplify_eq. exists ks', dict', mk, md.
       do 2 (split; [done|]). split; [by eapply api_background_ok|]. by split; [eapply api_background_ok|]. }
  destruct (notify_write_spec limit schema classes (2 * n) lobes gl lobe r sk wt C') as (gl1 & E1 & HI); [done|done|lia|done|done|done|].
  replace (2 * (n + 1)) with (2 * n + 2) by lia. split; [|lia]. congruence.
Qed.

Lemma manager_ghost N lobes gl lobe S name meta :
  manager_inv schema classes N lobes gl -> bt_get lobe (gl_shards gl) = Some S -> (name, meta) ∈ S ->
  exists ks dict mk md, gl_keyspace gl = Some ks /\ gl_dictionary gl = Some dict /\ ks_holds ks mk /\ dict_holds dict md /\
    ghost_inv schema classes N meta (members meta (lobes lobe)) mk md.
Proof.
  intros (ks & dict & mk & md & H1 & H2 & H3 & H4 & H5 & _ & _ & H8) HS Hin. exists ks, dict, mk, md. do 4 (split; [done|]).
  apply bt_get_elem in HS; [|done]. rewrite Forall_forall in H8. specialize (H8 _ HS). cbn in H8. unfold shard_inv in H8.
  rewrite Forall_forall in H8. by specialize (H8 _ Hin).
Qed.

(** * Theorems *)

(** C18: a post-write hook does not fail or lose track. In any manager whose ghosts
    agree with the records of their lobes, whatever their residency, over trees whose writes
    succeed and with room in the counters, a write to a lobe (an insert, a delete, an update
    that may move the record) of a record that fits its ghosts ([record_fits_lobe]: values
    the aggregates are exact on, scalar group values, keys of at most 65535 bytes) is
    notified without a panic, and every ghost of every lobe agrees again: its index, its
    global aggregates and its groups, in memory, spilled by this very write, or on disk. *)
Theorem notify_write_keeps_ghosts N lobes gl lobe r sk wt C' :
  manager_inv schema classes N lobes gl -> manager_room schema lobe gl -> N + 2 < 2 ^ 63 -> lobe_step (lobes lobe) r sk wt C' -> spatial_ok sk ->
  record_fits_lobe classes lobe gl r ->
  exists gl', notify_write limit lobe r sk wt gl = Some gl' /\ manager_inv schema classes (N + 2) (set_lobe lobe C' lobes) gl'.
Proof. apply notify_write_spec. Qed.


(** C19: a covering ghost is a sorted copy of its records. After any such sequence of
    writes the scan of a ghost without groups returns, in the order of the sort keys,
    one entry for every record of the lobe that matches the filter, with its current
    spatial key and projection, and no other; [index_count] is their number. *)
Theorem covering_index_exact gl0 n lobes gl lobe S name meta :
  fresh_manager gl0 -> notified gl0 n lobes gl -> bt_get lobe (gl_shards gl) = Some S -> (name, meta) ∈ S -> group_fields meta = [] ->
  let M := members meta (lobes lobe) in
  exists ks rows, gl_keyspace gl = Some ks /\ api_prefix_iter ks (to_be_bytes 2 (gm_ghost_id meta)) = Ok rows /\
    StronglySorted (fun a b => (a.1 < b.1)%bytes) rows /\
    rows ≡ₚ (fun c => (entry_key meta c.1 c.2, encode_ghost_value c.2 c.1 (gm_projection meta))) <$> M /\
    gm_index_count meta = Z.of_nat (length rows).
Proof.
  intros H0 Hn HS Hin Hg M. destruct (notified_inv _ _ _ _ H0 Hn) as [HI HN].
  destruct (manager_ghost _ _ _ _ _ _ _ HI HS Hin) as (ks & dict & mk & md & G1 & G2 & G3 & G4 & [I1 I2 I3 I4 I5 I6 I7 I8 I9 I10]).
  destruct (api_prefix_ok ks mk (to_be_bytes 2 (gm_ghost_id meta)) G3 (to_be_bytes_is_bytes _ _)) as (rows & E & Hsort & Hrows).
  exists ks, rows. do 3 (split; [done|]). fold M in I4, I5, I7, I9. specialize (I9 Hg).
  assert (rows ≡ₚ (fun c => (entry_key meta c.1 c.2, encode_ghost_value c.2 c.1 (gm_projection meta))) <$> M) as HP; [|split; [done|]; by rewrite HP, length_fmap].
  apply NoDup_Permutation.
  - clear -Hsort. induction Hsort as [|a l _ IH Ha]; constructor; [|done]. intros Hin. rewrite Forall_forall in Ha. apply Ha in Hin. unfold blt in Hin. by rewrite bcmp_refl in Hin.
  - clear -I4 I5 Hg. induction M as [|[r sk] M IH]; cbn in *; constructor; apply NoDup_cons in I4 as [Hn I4]; apply Forall_cons in I5 as [Hs I5]; [|by apply IH].
    intros ([r' sk'] & E & Hin)%list_elem_of_fmap. apply (f_equal fst) in E. cbn [fst] in E.
    assert (sk' ∈ M.*2) as Hin' by (by apply (list_elem_of_fmap_2 snd _ (r', sk'))). rewrite Forall_forall in I5.
    apply entry_key_inj in E as ->; auto.
  - intros [k v]. rewrite Hrows, list_elem_of_fmap. split.
    + intros [Hk Hv]. apply I9 in Hv as (r & sk & Hin' & -> & ->); [|done]. by exists (r, sk).
    + intros ([r sk] & [= -> ->] & Hin'). split; [apply entry_key_prefix|]. apply I9; [apply entry_key_prefix|]. by exists r, sk.
Qed.

End reads.
