(* ===== verification/GhostEngine.v ===== *)
(** * Ghosts over the storage engine

    The keyspaces of the storage engine keep the promises ghosts rely on. Ghosts
    write with [Tree::insert] and [Tree::remove], which do not go through the log: the
    run of the engine that stands behind a keyspace is one with a log that has those
    writes too, and agrees with it on everything but the log. Until a crash the two
    cannot be told apart. *)

From S2P Require Import Prelude ByteOrder BTree Types Block Bloom Memtable Merge Streams TableMeta TableWriter TableReader.
From S2P Require Import Version Leveled Paths Worker Manifest Tree TreeReads TreeSteps TreeCompact TreeOpen TreeMajor TreeRun TreeTheorems.
From S2P Require Import Engine SpatialScan Value Lid Filters Record SortEncoding Aggregate GroupKey Rollup Ghost GhostInv GhostRun GhostTheorems GhostReads.

Section engine.
Context {XH : Xxh3} {CD : Codecs} {SM : SkipMap} {BH : BinaryHeap}.

(** [Tree::insert] and [Tree::remove] of a keyspace. *)
Definition ks_write (op : ST Tree SeqNo) (ks : Keyspace) : Keyspace * Result unit :=
  let '(t, r) := op (ks_tree ks) in
  (on_tree (fun _ => t) ks, match r with Ok _ => Ok tt | Err e => Err e | Panic => Panic end).

Definition ks_prefix_iter (ks : Keyspace) (p : bytes) : Result (list (bytes * bytes)) :=
  match prefix_iter (ks_tree ks) p with Ok rows => Ok (pair_of <$> rows) | Err e => Err e | Panic => Panic end.

#[export] Instance keyspace_api : TreeApi Keyspace := {|
  api_insert := fun k v => ks_write (insert k v);
  api_remove := fun k => ks_write (remove k);
  api_prefix_iter := ks_prefix_iter;
  api_seal_full := on_tree maybe_trigger_flush;
|}.

(** The keyspace with another log. *)
Definition with_wal (wal : list Entry) (ks : Keyspace) : Keyspace :=
  mkKeyspace (ks_tree ks) (ks_flush ks) (ks_compact ks) wal (ks_recovering ks).

(** A step of the engine that leaves the log alone. *)
Definition quiet_step (ks ks' : Keyspace) : Prop :=
  step ks [] ks' /\ ks_wal ks' = ks_wal ks /\ ks_recovering ks = false /\ ks_recovering ks' = false.

Lemma quiet_step_wal wal ks ks' : quiet_step ks ks' -> step (with_wal wal ks) [] (with_wal wal ks').
Proof.
  intros (Hs & Hw & Hr & Hr'). destruct ks as [t fl cp W rec]. cbn in Hr. subst rec.
  inversion Hs; subst; unfold on_tree, with_wal in *; cbn [ks_tree ks_flush ks_compact ks_wal ks_recovering] in *; try congruence.
  all: set (K := mkKeyspace t fl cp wal false).
  - apply (step_seal K).
  - by eapply (step_flush_begin K).
  - by apply (step_flush_install K).
  - by apply (step_flush_finish K).
  - by eapply (step_compact_begin K).
  - by apply (step_move_begin K).
  - by eapply (step_compact_install K).
  - by eapply (step_move_install K).
  - by apply (step_compact_persist K).
  - by apply (step_compact_delete K).
  - by apply (step_checkpoint K).
  - by apply (step_enable K).
  - by apply (step_metrics K).
  - by apply (step_sweep K).
  - by apply (step_prune K [] wal); [..|by intros x y ?%elem_of_nil].
Qed.

(** ** The promises *)

Section laws.
Context (dir : bytes) (config : TreeConfig) (zmb : option ZoneMapBuilder) (mo : option MergeOperator) (stats : OverlapStats).
Hypothesis Hlaws : forall op, mo = Some op -> MergeOperatorLaws op.

Definition ks_shows (ks : Keyspace) (m : bytes -> option bytes) : Prop :=
  ks_recovering ks = false /\
  exists hist wal, reachable (fresh_keyspace dir config zmb mo stats) hist (with_wal wal ks) /\ forall k, map_of mo hist k = m k.

Lemma shows_inv ks m : ks_shows ks m ->
  t_merge_operator (ks_tree ks) = mo /\ is_uint 64 (t_seqno (ks_tree ks)) /\ sv_ok mo (t_current (ks_tree ks)).
Proof.
  intros (_ & hist & wal & Hr & _). destruct (run_inv dir config zmb mo stats Hlaws _ _ Hr) as [Emo [g Hi]]. cbn in Emo. split; [done|].
  pose proof (ki_hist _ _ _ Hi) as Hh. split; [apply (hi_seqno _ _ _ Hh)|]. rewrite <- Emo. apply (hi_sv _ _ _ Hh).
Qed.

Lemma shows_write ks m e :
  ks_shows ks m -> entry_ok e -> entry_valid mo e -> t_seqno (ks_tree ks) < seqno e ->
  ks_shows (on_tree (write_entry e) ks) (map_write mo e m).
Proof.
  intros HS He Hv Hseq. destruct (shows_inv ks m HS) as (Emo & _ & _). destruct HS as (Hrec & hist & wal & Hr & Hm). split; [done|].
  exists (hist ++ [e]), (wal ++ [e]). split.
  - eapply reach_step; [exact Hr|]. change (with_wal (wal ++ [e]) (on_tree (write_entry e) ks)) with
      (mkKeyspace (write_entry e (ks_tree (with_wal wal ks))) (ks_flush (with_wal wal ks)) (ks_compact (with_wal wal ks)) (ks_wal (with_wal wal ks) ++ [e]) (ks_recovering ks)).
    rewrite Hrec. apply step_write; [done|done|by cbn; rewrite Emo|by left].
  - intros k. unfold map_of. rewrite fold_left_app. cbn [fold_left]. fold (map_of mo hist). rewrite !map_write_spec.
    destruct (beqb k (key e)); [|apply Hm]. by rewrite Hm.
Qed.

Lemma shows_quiet ks ks' m : ks_shows ks m -> quiet_step ks ks' -> ks_shows ks' m.
Proof.
  intros (Hrec & hist & wal & Hr & Hm) Hq. split; [apply Hq|]. exists hist, wal. split; [|done].
  rewrite <- (app_nil_r hist). eapply reach_step; [exact Hr|]. by apply quiet_step_wal.
Qed.

Lemma insert_entry k v t :
  0 <= t_seqno t -> t_seqno t + 1 < 2 ^ 64 -> insert k v t = (write_entry (mkEntry k v (t_seqno t + 1) Types.Value) t, Ok (t_seqno t + 1)).
Proof.
  intros H0 H1. unfold insert, write_entry, insert_with_seqno. cbn [key value seqno value_type]. rewrite wrap_small by (split; lia).
  rewrite Z.max_r by lia. reflexivity.
Qed.

Lemma remove_entry k t :
  0 <= t_seqno t -> t_seqno t + 1 < 2 ^ 64 -> remove k t = (write_entry (mkEntry k [] (t_seqno t + 1) Tombstone) t, Ok (t_seqno t + 1)).
Proof.
  intros H0 H1. unfold remove, write_entry, insert_with_seqno. cbn [key value seqno value_type]. rewrite wrap_small by (split; lia).
  rewrite Z.max_r by lia. reflexivity.
Qed.

Lemma write_seqno e t : t_seqno t < seqno e -> t_seqno (write_entry e t) = seqno e.
Proof. intros H. destruct (write_entry_fields e t) as (_ & -> & _). lia. Qed.

Lemma shows_prefix ks m p : ks_shows ks m -> is_bytes p ->
  exists rows, ks_prefix_iter ks p = Ok rows /\ StronglySorted (fun a b => (a.1 < b.1)%bytes) rows /\
    forall k v, (k, v) ∈ rows <-> starts_with k p = true /\ m k = Some v.
Proof.
  intros HS Hp. destruct (shows_inv ks m HS) as (Emo & _ & Hok). destruct HS as (_ & hist & wal & Hr & Hm).
  destruct (prefix_iter_spec (ks_tree ks) p) as (rows & E & Hs & Hrows); [by rewrite Emo|done|]. unfold ks_prefix_iter. rewrite E.
  eexists. split; [reflexivity|]. split; [exact (rows_sorted _ Hs)|]. intros k v.
  rewrite <- Hm. pose proof (abs_run dir config zmb mo stats Hlaws _ _ k Hr) as Ha. unfold abs in Ha. cbn in Ha. rewrite <- Ha, <- Hrows.
  rewrite list_elem_of_fmap. unfold pair_of. split.
  - intros (e & [= -> ->] & He). eauto.
  - intros (e & He & <- & <-). eauto.
Qed.

#[export, refine] Instance keyspace_laws : TreeApiLaws mo Keyspace := {|
  api_seqno := fun ks => t_seqno (ks_tree ks);
  api_holds := ks_shows;
  api_background := rtc quiet_step;
|}.
Proof.
  - intros ks m k v HS Hroom Hv. destruct (shows_inv ks m HS) as (Emo & [H0 _] & _). eexists. cbn [api_insert keyspace_api]. unfold ks_write.
    rewrite insert_entry by done. split; [reflexivity|]. cbn [ks_tree on_tree]. rewrite write_seqno by (cbn; lia). split; [done|].
    apply (shows_write ks m (mkEntry k v (t_seqno (ks_tree ks) + 1) Types.Value)); [done|split; [done|split; cbn; lia]|exact Hv|cbn; lia].
  - intros ks m k HS Hroom. destruct (shows_inv ks m HS) as (Emo & [H0 _] & _). eexists. cbn [api_remove keyspace_api]. unfold ks_write.
    rewrite remove_entry by done. split; [reflexivity|]. cbn [ks_tree on_tree]. rewrite write_seqno by (cbn; lia). split; [done|].
    apply (shows_write ks m (mkEntry k [] (t_seqno (ks_tree ks) + 1) Tombstone)); [done|split; [done|split; cbn; lia]| |cbn; lia].
    unfold entry_valid. destruct mo; [by intros _ [=]|done].
  - intros ks m p HS Hp. by apply shows_prefix.
  - intros ks ks' m HS HB. induction HB as [|ks ks1 ks' Hq _ IH]; [done|]. apply IH. by eapply shows_quiet.
  - intros ks m HS. cbn [api_seal_full keyspace_api].
    assert (on_tree maybe_trigger_flush ks = ks \/ on_tree maybe_trigger_flush ks = on_tree (fun t => fst (seal_active t)) ks) as [-> | ->].
    { destruct ks as [t fl cp W rec]. unfold on_tree, maybe_trigger_flush. cbn [ks_tree]. case_match; auto. }
    + done.
    + split; [|cbn [ks_tree on_tree]; unfold seal_active; by case_match]. eapply shows_quiet; [exact HS|].
      pose proof HS as (Hrec & _). split; [exact (step_seal ks)|done].
Defined.

End laws.
End engine.
