(* ===== verification/GhostSample.v ===== *)
(** * Ghosts at work

    A lobe with two ghosts over keyspaces of the storage engine: one sums a field by
    group and spills to the dictionary at the second group, the other is a covering
    index. The theorems about ghosts at this run, and what goes wrong when a spill is
    interrupted. *)

From Corelib Require Import SpecFloat.
From S2P Require Import Prelude ByteOrder BTree Types Block Bloom Memtable Merge Streams TableMeta TableWriter TableReader.
From S2P Require Import Version Leveled Paths Worker Manifest Tree TreeReads TreeSteps TreeCompact TreeOpen TreeMajor TreeRun TreeTheorems.
From S2P Require Import Engine SpatialScan Value Lid Filters Record SortEncoding Aggregate GroupKey Rollup Ghost GhostInv GhostRun GhostTheorems GhostReads GhostEngine.

(** ** Serializers *)

(** Any numbering of the deltas, written in binary. *)
Definition float_code (x : f64) : Z * bool * positive * Z :=
  match x with
  | S754_zero s => (0, s, 1%positive, 0)
  | S754_infinity s => (1, s, 1%positive, 0)
  | S754_nan => (2, false, 1%positive, 0)
  | S754_finite s m e => (3, s, m, e)
  end.
Definition code_float (c : Z * bool * positive * Z) : f64 :=
  let '(k, s, m, e) := c in
  if k =? 0 then S754_zero s else if k =? 1 then S754_infinity s else if k =? 2 then S754_nan else S754_finite s m e.

Definition sum_code (s : SumAcc) : Z + (Z * bool * positive * Z) * (Z * bool * positive * Z) :=
  match s with SumInt a => inl a | SumFloat x y => inr (float_code x, float_code y) end.
Definition code_sum (c : Z + (Z * bool * positive * Z) * (Z * bool * positive * Z)) : SumAcc :=
  match c with inl a => SumInt a | inr (x, y) => SumFloat (code_float x) (code_float y) end.

Definition stored_code (v : StoredValue) : Z * bytes :=
  match v with SvNull => (0, []) | SvInt i => (1, [i]) | SvFloat b => (2, [b]) | SvText s => (3, s) end.
Definition code_stored (c : Z * bytes) : StoredValue :=
  let '(k, l) := c in
  if k =? 0 then SvNull else if k =? 1 then SvInt (hd 0 l) else if k =? 2 then SvFloat (hd 0 l) else SvText l.

#[local] Instance f64_eq_dec : EqDecision f64.
Proof. solve_decision. Defined.
#[local] Instance SumAcc_eq_dec : EqDecision SumAcc.
Proof. solve_decision. Defined.
#[local] Instance StoredValue_eq_dec : EqDecision StoredValue.
Proof. solve_decision. Defined.
#[local] Instance DeltaValue_eq_dec : EqDecision DeltaValue.
Proof. solve_decision. Defined.

Lemma code_sum_code s : code_sum (sum_code s) = s.
Proof. by destruct s as [|[] []]. Qed.
Lemma code_stored_code v : code_stored (stored_code v) = v.
Proof. by destruct v. Qed.

#[local] Instance SumAcc_countable : Countable SumAcc := inj_countable' sum_code code_sum code_sum_code.
#[local] Instance StoredValue_countable : Countable StoredValue := inj_countable' stored_code code_stored code_stored_code.

Definition delta_code (d : DeltaValue) : Z * Z * SumAcc * StoredValue :=
  match d with
  | DvCount c => (0, c, SumInt 0, SvNull)
  | DvSum s => (1, 0, s, SvNull)
  | DvMin v => (2, 0, SumInt 0, v)
  | DvMax v => (3, 0, SumInt 0, v)
  | DvAvg s c => (4, c, s, SvNull)
  end.
Definition code_delta (x : Z * Z * SumAcc * StoredValue) : DeltaValue :=
  let '(k, c, s, v) := x in
  if k =? 0 then DvCount c else if k =? 1 then DvSum s else if k =? 2 then DvMin v else if k =? 3 then DvMax v else DvAvg s c.

Lemma code_delta_code d : code_delta (delta_code d) = d.
Proof. by destruct d. Qed.

#[local] Instance DeltaValue_countable : Countable DeltaValue := inj_countable' delta_code code_delta code_delta_code.

Definition sample_rollup_postcard : RollupPostcard := {|
  postcard_delta d := bits_of_pos (countable.encode (rd_count d, rd_values d, rd_dirty d));
  parse_delta b := (fun x => match x with (c, vs, dirty) => mkDelta c vs dirty end) <$> countable.decode (pos_of_bits b);
  parse_aggregate_state _ := None;
|}.

#[export] Instance sample_rollup_postcard_laws : RollupPostcardLaws sample_rollup_postcard.
Proof. split. intros [c vs dirty] _. cbn. by rewrite pos_bits, countable.decode_encode. Qed.

Definition sample_value_postcard : ValuePostcard := {|
  postcard_value v := Some (bits_of_pos (countable.encode v));
  parse_value b := countable.decode (pos_of_bits b);
|}.

(** ** A lobe and its ghosts *)

#[local] Existing Instances sample_xxh3 sample_codecs slist_skipmap list_heap sample_rollup_postcard sample_text sample_text_laws sample_value_postcard.

Definition ghost_specs : list Metric := [mkMetric (str "n") AggSum (str "sum(n)") None None].

Definition ghost_schema (k l : bytes) : AggOp * SvClass := (AggSum, IntClass).
Definition ghost_classes (g : Z) (l : bytes) : SvClass := IntClass.

(** Sums by group, over the rows with a positive number. *)
Definition sum_ghost : GhostMeta :=
  mkGhost 1 (Condition (mkFilter (str "n") Gt_ (LInt 0))) [] false 1 0
    (Some (mkContent ghost_specs AggregateState_default (Grouped [str "t"]) (InRam []))) [] 0 None false.

(** A covering index, highest number first. *)
Definition top_ghost : GhostMeta := mkGhost 2 (And []) (str "n") true 1 0 None [str "t"] 0 None false.

Abbreviation sample_op := (RollupMergeOperator ghost_schema).

Definition ghost_keyspace : Keyspace := fresh_keyspace sample_dir run_config None None (mkOverlapStats 0 ∅).
Definition dict_keyspace : Keyspace := fresh_keyspace sample_dir run_config None (Some sample_op) (mkOverlapStats 0 ∅).

#[local] Instance ghost_ks_laws : TreeApiLaws None Keyspace :=
  keyspace_laws sample_dir run_config None None (mkOverlapStats 0 ∅) (fun op H => match H with eq_refl => I end).

Lemma sample_op_laws op : Some sample_op = Some op -> MergeOperatorLaws op.
Proof. intros [= <-]. apply (RollupMergeOperator_laws ghost_schema). Qed.

#[local] Instance dict_ks_laws : TreeApiLaws (Some sample_op) Keyspace :=
  keyspace_laws sample_dir run_config None (Some sample_op) (mkOverlapStats 0 ∅) sample_op_laws.

Definition manager0 : GhostLobeManager (D := Keyspace) :=
  mkManager [(7, [(str "sums", sum_ghost); (str "top", top_ghost)])] (Some ghost_keyspace) (Some dict_keyspace) false.

Definition sk (n : Z) : bytes := replicate 23 0 ++ [n].

(** A record joins group [a]; another joins [b], which makes the sums spill; the
    first one moves to [b] and to another place. *)
Definition manager1 : GhostLobeManager :=
  default manager0 (notify_write 1 7 (group_row (Text (str "a")) 5) (sk 1) WInsert manager0).
Definition manager2 : GhostLobeManager :=
  default manager0 (notify_write 1 7 (group_row (Text (str "b")) 7) (sk 2) WInsert manager1).
Definition manager3 : GhostLobeManager :=
  default manager0 (notify_write 1 7 (group_row (Text (str "b")) 6) (sk 3) (WUpdate (group_row (Text (str "a")) 5) (sk 1)) manager2).

Definition isSome {A} (o : option A) : bool := match o with Some _ => true | None => false end.

Definition ghost_of (gl : GhostLobeManager (D := Keyspace)) (name : bytes) : GhostMeta :=
  default sum_ghost (S ← bt_get 7 (gl_shards gl); bt_get name S).

Lemma some_default {A} (d : A) (o : option A) : isSome o = true -> o = Some (default d o).
Proof. by destruct o. Qed.

Lemma step1 : notify_write 1 7 (group_row (Text (str "a")) 5) (sk 1) WInsert manager0 = Some manager1.
Proof. unfold manager1. apply some_default. vm_compute. reflexivity. Qed.
Lemma step2 : notify_write 1 7 (group_row (Text (str "b")) 7) (sk 2) WInsert manager1 = Some manager2.
Proof. unfold manager2. apply some_default. vm_compute. reflexivity. Qed.
Lemma step3 : notify_write 1 7 (group_row (Text (str "b")) 6) (sk 3) (WUpdate (group_row (Text (str "a")) 5) (sk 1)) manager2 = Some manager3.
Proof. unfold manager3. apply some_default. vm_compute. reflexivity. Qed.

Lemma manager3_reads :
  read_precomputed (gl_dictionary manager3) (ghost_of manager3 (str "sums")) [str "t"] [] =
    Ok (AggGrouped [(str "2:sb", mkAgg 2 [(str "sum(n)", AvSum (SumInt 13))] false)]).
Proof. vm_compute. reflexivity. Qed.

(** ** The run *)

Lemma fresh_shows mo Hlaws : @api_holds _ _ _ (keyspace_laws sample_dir run_config None mo (mkOverlapStats 0 ∅) Hlaws)
  (fresh_keyspace sample_dir run_config None mo (mkOverlapStats 0 ∅)) (fun _ => None).
Proof. split; [done|]. exists [], []. split; [apply reach_start|done]. Qed.

Lemma ghost_specs_ok : metrics_ok ghost_specs.
Proof. split; [apply NoDup_singleton|repeat constructor]. Qed.

Lemma fresh_sums : fresh_ghost ghost_schema ghost_classes sum_ghost.
Proof.
  split; cbn; try done. intros agg [= <-]. split; [apply ghost_specs_ok|]. split; [|done].
  intros gk m ->%list_elem_of_singleton _. done.
Qed.

Lemma fresh_top : fresh_ghost ghost_schema ghost_classes top_ghost.
Proof. split; cbn; done. Qed.

Lemma manager0_fresh : fresh_manager ghost_schema ghost_classes manager0.
Proof.
  exists ghost_keyspace, dict_keyspace, (fun _ => None), (fun _ => None). do 2 (split; [done|]).
  split; [apply (fresh_shows None)|]. split; [apply (fresh_shows (Some sample_op))|]. split; [repeat constructor|]. split; [done|].
  split; [apply (bool_decide_unpack _); vm_compute; exact I|]. split.
  - apply Forall_singleton. apply Forall_cons. split; [apply fresh_sums|]. apply Forall_singleton. apply fresh_top.
  - apply Forall_forall. done.
Qed.

Lemma format_length n : (length (format_u64 n) <= 20)%nat.
Proof.
  unfold format_u64. rewrite length_reverse. generalize 20%nat. intros fuel. revert n.
  induction fuel as [|fuel IH]; intros n; cbn [digits_rev length]; [lia|]. case_match; cbn; [lia|]. specialize (IH (n / 10)). lia.
Qed.

(** What of a ghost the checks of a record need. *)
Definition shapes (gl : GhostLobeManager (D := Keyspace)) : list (option (list Metric * Grouping)) :=
  match bt_get 7 (gl_shards gl) with
  | Some shard => (fun nm => (fun a => (aggregate_specs a, grouping a)) <$> gm_aggregate nm.2) <$> shard
  | None => []
  end.

Definition sample_shapes : list (option (list Metric * Grouping)) := [Some (ghost_specs, Grouped [str "t"]); None].

Lemma row_fits gl t n : shapes gl = sample_shapes -> is_utf8 t = true -> blen t < 60000 -> - 2 ^ 63 <= n < 2 ^ 63 ->
  record_fits_lobe ghost_classes 7 gl (group_row (Text t) n).
Proof.
  intros Hsh Ht Hl Hn shard ES. unfold shapes in Hsh. rewrite ES in Hsh. apply Forall_forall. intros nm Hnm _.
  assert ((fun a => (aggregate_specs a, grouping a)) <$> gm_aggregate nm.2 ∈ sample_shapes) as Hin.
  { rewrite <- Hsh. by apply (list_elem_of_fmap_2 (fun nm => (fun a => (aggregate_specs a, grouping a)) <$> gm_aggregate nm.2)). }
  unfold record_fits. destruct (gm_aggregate nm.2) as [agg|]; [|done]. apply elem_of_cons in Hin as [E|Hin%list_elem_of_singleton]; [|done].
  injection E as E1 E2. unfold agg_record_ok. rewrite E1, E2. split; [|split].
  - apply Forall_singleton. cbn. split; [done|]. split; [split; [intros i [= <-]; done|done]|]. done.
  - by apply Forall_singleton.
  - change (extract_group_key (group_row (Text t) n) [str "t"]) with (format_u64 (blen (115 :: t)) ++ [58] ++ 115 :: t).
    pose proof (format_length (blen (115 :: t))). unfold blen in *. rewrite !length_app. cbn [length] in *. lia.
Qed.

(** The sequence numbers last. *)
Definition room_check (gl : GhostLobeManager (D := Keyspace)) : bool :=
  match gl_keyspace gl, gl_dictionary gl, bt_get 7 (gl_shards gl) with
  | Some ks, Some dict, Some shard =>
    (t_seqno (ks_tree ks) + 2 * blen shard <? 2 ^ 64) && (t_seqno (ks_tree dict) + shard_demand shard <? 2 ^ 64)
  | _, _, _ => false
  end.

Lemma room_ok gl : room_check gl = true -> manager_room ghost_schema 7 gl.
Proof.
  intros H ks dict shard E1 E2 E3. unfold room_check in H. rewrite E1, E2, E3 in H. apply andb_prop in H as [H1 H2].
  apply Z.ltb_lt in H1, H2. done.
Qed.

(** The records of the lobe after the writes. *)
Definition records1 : list (Fields * bytes) := [(group_row (Text (str "a")) 5, sk 1)].
Definition records2 : list (Fields * bytes) := (group_row (Text (str "b")) 7, sk 2) :: records1.
Definition records3 : list (Fields * bytes) := [(group_row (Text (str "b")) 6, sk 3); (group_row (Text (str "b")) 7, sk 2)].

Definition lobes1 := set_lobe 7 records1 (fun _ => []).
Definition lobes2 := set_lobe 7 records2 lobes1.
Definition lobes3 := set_lobe 7 records3 lobes2.

Lemma run1 : notified 1 ghost_schema ghost_classes manager0 (0 + 1) lobes1 manager1.
Proof.
  eapply notified_write; [apply notified_start| | | | | |exact step1].
  - apply lobe_insert. by intros ?%elem_of_nil.
  - reflexivity.
  - apply row_fits; [vm_compute; reflexivity|reflexivity|vm_compute; reflexivity|lia].
  - apply room_ok. vm_compute. reflexivity.
  - reflexivity.
Qed.

Lemma run2 : notified 1 ghost_schema ghost_classes manager0 (0 + 1 + 1) lobes2 manager2.
Proof.
  eapply notified_write; [apply run1| | | | | |exact step2].
  - apply lobe_insert. apply (bool_decide_unpack _). vm_compute. exact I.
  - reflexivity.
  - apply row_fits; [vm_compute; reflexivity|reflexivity|vm_compute; reflexivity|lia].
  - apply room_ok. vm_compute. reflexivity.
  - reflexivity.
Qed.

Lemma run3 : notified 1 ghost_schema ghost_classes manager0 (0 + 1 + 1 + 1) lobes3 manager3.
Proof.
  eapply notified_write; [apply run2| | | | | |exact step3].
  - apply (lobe_update _ _ _ _ _ [(group_row (Text (str "b")) 7, sk 2)]); [apply Permutation_swap|].
    apply (bool_decide_unpack _). vm_compute. exact I.
  - reflexivity.
  - apply row_fits; [vm_compute; reflexivity|reflexivity|vm_compute; reflexivity|lia].
  - apply room_ok. vm_compute. reflexivity.
  - reflexivity.
Qed.

(** * Witnesses *)

Lemma ghost_found gl name meta : isSome (bt_get 7 (gl_shards gl)) = true ->
  bt_get name (default [] (bt_get 7 (gl_shards gl))) = Some meta ->
  exists shard, bt_get 7 (gl_shards (D := Keyspace) gl) = Some shard /\ (name, meta) ∈ shard.
Proof.
  destruct (bt_get 7 (gl_shards gl)) as [shard|]; [|done]. intros _ H. exists shard. split; [done|]. cbn [default] in H.
  clear -H. induction shard as [|[k v] shard IH]; cbn in H; [done|]. destruct (bcmp name k) eqn:E; [|right; auto..].
  apply bcmp_eq in E as ->. injection H as ->. left.
Qed.

Lemma notify_write_keeps_ghosts_witness :
  manager_inv ghost_schema ghost_classes 4 lobes2 manager2 /\
  exists gl', notify_write 1 7 (group_row (Text (str "b")) 6) (sk 3) (WUpdate (group_row (Text (str "a")) 5) (sk 1)) manager2 = Some gl' /\
    manager_inv ghost_schema ghost_classes (4 + 2) (set_lobe 7 records3 lobes2) gl'.
Proof.
  pose proof (proj1 (notified_inv 1 ghost_schema ghost_classes manager0 (0 + 1 + 1) lobes2 manager2 manager0_fresh run2)) as HI. split; [exact HI|].
  apply (notify_write_keeps_ghosts 1 ghost_schema ghost_classes 4 lobes2 manager2 7 (group_row (Text (str "b")) 6) (sk 3)); [exact HI|apply room_ok; vm_compute; reflexivity|reflexivity| |reflexivity|].
  - apply (lobe_update _ _ _ _ _ [(group_row (Text (str "b")) 7, sk 2)]); [apply Permutation_swap|].
    apply (bool_decide_unpack _). vm_compute. exact I.
  - apply row_fits; [vm_compute; reflexivity|reflexivity|vm_compute; reflexivity|lia].
Defined.

Lemma sums_member : exists shard agg, bt_get 7 (gl_shards manager3) = Some shard /\ (str "sums", ghost_of manager3 (str "sums")) ∈ shard /\
  gm_aggregate (ghost_of manager3 (str "sums")) = Some agg /\ grouping agg = Grouped [str "t"].
Proof.
  destruct (ghost_found manager3 (str "sums") (ghost_of manager3 (str "sums"))) as (shard & H1 & H2); [vm_compute; reflexivity|vm_compute; reflexivity|].
  assert ((grouping <$> gm_aggregate (ghost_of manager3 (str "sums"))) = Some (Grouped [str "t"])) as E by (vm_compute; reflexivity).
  destruct (gm_aggregate (ghost_of manager3 (str "sums"))) as [agg|] eqn:Ea; [|done]. injection E as E. exists shard, agg. auto.
Qed.


Lemma covering_index_exact_witness :
  exists ks rows, gl_keyspace manager3 = Some ks /\ api_prefix_iter ks (to_be_bytes 2 2) = Ok rows /\
    StronglySorted (fun a b => (a.1 < b.1)%bytes) rows /\ gm_index_count (ghost_of manager3 (str "top")) = Z.of_nat (length rows).
Proof.
  destruct (ghost_found manager3 (str "top") (ghost_of manager3 (str "top"))) as (shard & H1 & H2); [vm_compute; reflexivity|vm_compute; reflexivity|].
  destruct (covering_index_exact 1 ghost_schema ghost_classes manager0 (0 + 1 + 1 + 1) lobes3 manager3 7 shard (str "top") (ghost_of manager3 (str "top"))
    manager0_fresh run3 H1 H2) as (ks & rows & A1 & A2 & A3 & _ & A5); [vm_compute; reflexivity|].
  exists ks, rows. split; [exact A1|]. split; [|split; [exact A3|exact A5]].
  assert (gm_ghost_id (ghost_of manager3 (str "top")) = 2) as E by (vm_compute; reflexivity). rewrite E in A2. exact A2.
Defined.

(** ** A spill that is interrupted *)

(** A tree that logs its inserts and fails once, after [n] of them. *)
#[local] Instance failing_tree : TreeApi (nat * list (bytes * bytes)) := {|
  api_insert := fun k v d => match d with
                             | (1%nat, log) => ((0%nat, log), Err Io)
                             | (n, log) => ((Nat.pred n, log ++ [(k, v)]), Ok tt)
                             end;
  api_remove := fun k d => (d, Ok tt);
  api_prefix_iter := fun d p => Ok [];
  api_seal_full := fun d => d;
|}.

Definition failing_world : World (D := nat * list (bytes * bytes)) := mkWorld (Some (0%nat, [])) (Some (2%nat, [])) sum_ghost.

(** Three records in three groups; the spill at the second group fails half-way, the
    one at the third succeeds. *)
Definition interrupted : World (D := nat * list (bytes * bytes)) :=
  ghost_insert_inner 1 (group_row (Text (str "c")) 1) (sk 3) false
    (ghost_insert_inner 1 (group_row (Text (str "b")) 7) (sk 2) false
       (ghost_insert_inner 1 (group_row (Text (str "a")) 5) (sk 1) false failing_world)).

Definition rollup_deltas (gk : bytes) (w : World (D := nat * list (bytes * bytes))) : list RollupDelta :=
  match w_dictionary w with
  | Some (_, log) => omap (fun kv => if beqb kv.1 (rollup_key 1 gk) then decode_rollup_delta kv.2 else None) log
  | None => []
  end.

(** The group that was written before the failure is counted twice, and nothing
    marks the ghost as degraded. *)
Lemma interrupted_spill_counts_twice :
  rd_count (fold_deltas (rollup_deltas (str "2:sa") interrupted)) = 2 /\
  rd_count (fold_deltas (rollup_deltas (str "2:sb") interrupted)) = 1 /\
  gm_maintenance_degraded (w_meta interrupted) = false.
Proof. vm_compute. auto. Qed.
