(* ===== verification/Gravity.v ===== *)
(** * Gravity: where a record is placed (engine/src/gravity_spec.rs,
    satellite_spec.rs, engine/satellites.rs, the placement of ops/put.rs, the
    [Display] of core/src/value.rs)

    A lobe may declare which fields decide the bucket of a record (its gravity) and
    which one divides the bucket (its satellite). Writes compute the two hashes from
    the record, queries from their [=] predicates; a query that pins them reads one
    bucket only, so the two computations must agree. *)

From Corelib Require Import SpecFloat.
From S2P Require Import Prelude ByteOrder BTree Paths Value Lid Filters FieldDict Record.
From S2P Require Import SpatialKey Aggregate GroupKey.

(** What the code uses of the standard library: [Display] of [f32], [Debug] of the
    map of fields, and the Unicode tables of [to_lowercase]. *)
Class GravityText := {
  display_f32 : Z -> bytes;
  debug_fields : Fields -> bytes;
  to_lowercase : bytes -> bytes;
}.

(** ** Values as text *)

(** [{:06}]: the sign counts. *)
Definition format_06 (n : Z) : bytes := if n <? 0 then 45 :: format_0 5 (- n) else format_0 6 n.

Definition join (sep : bytes) (l : list bytes) : bytes :=
  match l with [] => [] | x :: l' => x ++ concat (List.map (fun y => sep ++ y) l') end.

Section text.
Context {VT : ValueText} {GT : GravityText}.

Definition display_bool (b : bool) : bytes := if b then str "true" else str "false".

(** [impl Display for Value] *)
Fixpoint display_value (v : Value) : bytes :=
  match v with
  | Bool b => display_bool b
  | Int i => display_i64 i
  | Float f => display_f64 f
  | Text s => [34] ++ s ++ [34]
  | Timestamp t => str "@ts(" ++ display_i64 (Z.quot t 1000000) ++ str "." ++ format_06 (Z.rem t 1000000) ++ str ")"
  | Bytes b => str "<" ++ format_u64 (blen b) ++ str " bytes>"
  | List l => str "[" ++ join (str ", ") (List.map display_value l) ++ str "]"
  | Map m => str "{" ++ join (str ", ") (List.map (fun '(k, x) => k ++ str ": " ++ display_value x) m) ++ str "}"
  | Null => str "null"
  | Vector l => str "[" ++ join (str ", ") (List.map display_f32 l) ++ str "]"
  end.

Definition value_to_anchor_string (v : Value) : bytes :=
  match v with
  | Text s => s
  | Int i => display_i64 i
  | Float f => display_f64 f
  | Bool b => display_bool b
  | other => display_value other
  end.

(** The hash of the values alone, with a zero byte in between. *)
Definition compute_gravity_hash (gravity_fields : list (bytes * Value)) : Z :=
  hash_to_48bits (foldl (fun combined nv => (match combined with [] => [] | _ => combined ++ [0] end) ++ value_to_anchor_string nv.2) [] gravity_fields).

(** ** The specification of a lobe's gravity *)

Inductive Transform := Lower | Trim.

(** The encodings of the characters [str_trim] removes. *)
Definition white_space : list bytes :=
  [[9]; [10]; [11]; [12]; [13]; [32]; [194; 133]; [194; 160]; [225; 154; 128]; [226; 128; 168]; [226; 128; 169]; [226; 128; 175];
   [226; 129; 159]; [227; 128; 128]] ++ ((fun i => [226; 128; i]) <$> seqZ 128 11).

Definition first_strip (strip : bytes -> bytes -> option bytes) (s : bytes) : option bytes :=
  foldl (fun acc c => match acc with Some r => Some r | None => strip s c end) None white_space.

Fixpoint strip_loop (strip : bytes -> bytes -> option bytes) (fuel : nat) (s : bytes) : bytes :=
  match fuel with
  | O => s
  | S fuel => match first_strip strip s with Some s' => strip_loop strip fuel s' | None => s end
  end.

Definition str_trim (s : bytes) : bytes :=
  let s := strip_loop strip_prefix (length s) s in strip_loop strip_suffix (length s) s.

Definition Transform_apply (t : Transform) (s : bytes) : bytes :=
  match t with Lower => to_lowercase s | Trim => str_trim s end.

Inductive GravitySpec :=
  | Raw (field : bytes)
  | Normalized (field : bytes) (transform : Transform)
  | Composite (fields : list bytes).

Definition GravitySpec_fields (spec : GravitySpec) : list bytes :=
  match spec with Raw f | Normalized f _ => [f] | Composite fs => fs end.

(** The pairs of all components; [None] if one is missing. *)
Fixpoint component_pairs (components : list bytes) (fields : Fields) : option (list (bytes * Value)) :=
  match components with
  | [] => Some []
  | f :: rest =>
    match bt_get f fields with
    | Some v => match component_pairs rest fields with Some pairs => Some ((f, v) :: pairs) | None => None end
    | None => None
    end
  end.

Definition hash_pairs (spec : GravitySpec) (fields : Fields) : option (list (bytes * Value)) :=
  match spec with
  | Raw field => match bt_get field fields with Some v => Some [(field, v)] | None => None end
  | Normalized field transform =>
    match bt_get field fields with
    | Some v => Some [(field, Text (Transform_apply transform (value_to_anchor_string v)))]
    | None => None
    end
  | Composite components => component_pairs components fields
  end.

Definition compute_hash (spec : GravitySpec) (fields : Fields) : option Z :=
  match hash_pairs spec fields with Some pairs => Some (compute_gravity_hash pairs) | None => None end.

(** The one [=] predicate on a field: none if there is another predicate on it. *)
Fixpoint pinned_value (field : bytes) (filters : list (bytes * FilterOp * Value)) (found : option Value) : option Value :=
  match filters with
  | [] => found
  | (f, op, v) :: rest =>
    if beqb f field then
      match op, found with
      | Eq_, None => pinned_value field rest (Some v)
      | _, _ => None
      end
    else pinned_value field rest found
  end.

Fixpoint pinned_values (fields : list bytes) (filters : list (bytes * FilterOp * Value)) (vals : Fields) : option Fields :=
  match fields with
  | [] => Some vals
  | field :: rest =>
    match pinned_value field filters None with
    | Some v => pinned_values rest filters (bt_insert field v vals)
    | None => None
    end
  end.

Definition pinned_gravity_hash (spec : GravitySpec) (filters : list (bytes * FilterOp * Value)) : option Z :=
  match pinned_values (GravitySpec_fields spec) filters [] with
  | Some vals => compute_hash spec vals
  | None => None
  end.

(** ** The satellite *)

Record SatelliteSpec := mkSatelliteSpec { ss_field : bytes }.

Definition detect_satellite_eq (spec : option SatelliteSpec) (core_filters : list (bytes * FilterOp * Value)) : option Z :=
  match spec with
  | None => None
  | Some spec =>
    match pinned_value (ss_field spec) core_filters None with
    | Some v => Some (hash_to_16bits (value_to_anchor_string v))
    | None => None
    end
  end.

Definition satellite_sat_for (spec : option SatelliteSpec) (fields : Fields) : option Z :=
  match spec with
  | None => None
  | Some spec =>
    Some (match bt_get (ss_field spec) fields with Some v => hash_to_16bits (value_to_anchor_string v) | None => 0 end)
  end.

(** ** Placement *)

Definition type_id_from_fields (fields : Fields) : Z :=
  match bt_get (str "_type") fields with Some (Text t) => Z.land (hash_to_48bits t) 65535 | _ => 0 end.

(** The first anchor the record has, or a hash of all its fields. *)
Fixpoint first_anchor (anchors : list bytes) (fields : Fields) : option Value :=
  match anchors with
  | [] => None
  | a :: rest => match bt_get a fields with Some v => Some v | None => first_anchor rest fields end
  end.

Definition compute_record_gravity_hash (anchors : list bytes) (fields : Fields) : Z :=
  match first_anchor anchors fields with
  | Some v => hash_to_48bits (value_to_anchor_string v)
  | None => hash_to_48bits (debug_fields fields)
  end.

Definition gravity_hash_for (spec : option GravitySpec) (anchors : list bytes) (fields : Fields) : Z :=
  match spec with
  | Some s => match compute_hash s fields with Some h => h | None => compute_record_gravity_hash anchors fields end
  | None => compute_record_gravity_hash anchors fields
  end.

(** Step 4 of [execute_put]: [link] is the gravity of the target of a [LINK TO],
    [gravity_fields] the fields marked with a star. *)
Definition placement_hash (link : option Z) (gravity_fields : list (bytes * Value)) (spec : option GravitySpec) (anchors : list bytes)
    (fields : Fields) : Z :=
  match link with
  | Some h => h
  | None =>
    match gravity_fields with
    | [] => gravity_hash_for spec anchors fields
    | _ => match spec with
           | Some s => match compute_hash s fields with Some h => h | None => compute_gravity_hash gravity_fields end
           | None => compute_gravity_hash gravity_fields
           end
    end
  end.

(** Step 6: the key of the record. *)
Definition placement_key (lobe gravity : Z) (satellite : option SatelliteSpec) (fields : Fields) (now_micros seq : Z) : SpatialKey :=
  let type_id := type_id_from_fields fields in
  let ts := normalize_timestamp now_micros in
  match satellite_sat_for satellite fields with
  | Some sat => SpatialKey_new_with_sat lobe gravity sat type_id ts seq
  | None => SpatialKey_new lobe gravity type_id ts seq
  end.

End text.

(** ** Persisted specifications *)

(** Postcard, for a specification and for a bare field name. *)
Class SpecPostcard := {
  gravity_to_allocvec : GravitySpec -> bytes;
  gravity_from_bytes : bytes -> option GravitySpec;
  name_from_bytes : bytes -> option bytes;
  satellite_to_allocvec : SatelliteSpec -> bytes;
  satellite_from_bytes : bytes -> option SatelliteSpec;
}.

Section specs.
Context {SP : SpecPostcard}.

Definition SPEC_FORMAT : Z := 3.
Definition LEGACY_SPEC_FORMAT : Z := 2.
Definition LEGACY_FIELD_FORMAT : Z := 1.

Definition GravitySpec_encode (spec : GravitySpec) : bytes := XYZDB_MAGIC ++ [SPEC_FORMAT] ++ gravity_to_allocvec spec.

Definition GravitySpec_decode (b : bytes) : option GravitySpec :=
  match b with
  | m0 :: m1 :: format :: payload =>
    if negb (beqb [m0; m1] XYZDB_MAGIC) then None
    else if (format =? SPEC_FORMAT) || (format =? LEGACY_SPEC_FORMAT) then gravity_from_bytes payload
    else if format =? LEGACY_FIELD_FORMAT then Raw <$> name_from_bytes payload
    else None
  | _ => None
  end.

Definition slot_is_pre_d1 (b : bytes) : bool :=
  match b with
  | m0 :: m1 :: format :: _ => beqb [m0; m1] XYZDB_MAGIC && ((format =? LEGACY_FIELD_FORMAT) || (format =? LEGACY_SPEC_FORMAT))
  | _ => false
  end.

Definition SATELLITE_FORMAT : Z := 1.

Definition SatelliteSpec_encode (spec : SatelliteSpec) : bytes := XYZDB_MAGIC ++ [SATELLITE_FORMAT] ++ satellite_to_allocvec spec.

Definition SatelliteSpec_decode (b : bytes) : option SatelliteSpec :=
  match b with
  | m0 :: m1 :: format :: payload =>
    if negb (beqb [m0; m1] XYZDB_MAGIC) then None
    else if format =? SATELLITE_FORMAT then satellite_from_bytes payload else None
  | _ => None
  end.

End specs.

(** ** Equal values have equal text *)

(** Values on which [==] is identity: no zero, whose sign [==] ignores, and no
    vector. *)
Fixpoint eq_exact (v : Value) : bool :=
  match v with
  | Float b => negb (is_zero b)
  | Vector _ => false
  | List l => forallb eq_exact l
  | Map m => forallb (fun '(_, x) => eq_exact x) m
  | _ => true
  end.

Lemma f64_eqb_exact a b : is_uint 64 a -> is_uint 64 b -> is_zero a = false -> f64_eqb a b = true -> a = b.
Proof.
  intros Ha Hb Hz He. assert (f64_partial_cmp a b = Some Eq) as Hc.
  { unfold f64_eqb, SFeqb, f64_partial_cmp in *. by destruct (SFcompare _ _) as [[| |]|]. }
  assert (is_nan a = false /\ is_nan b = false) as [Na Nb].
  { unfold f64_partial_cmp, is_nan in *. destruct (f64_from_bits a), (f64_from_bits b); try done; split; try done; by destruct s. }
  rewrite f64_order, Hz in Hc by done. cbn in Hc. injection Hc as Hc. apply Z.compare_eq in Hc. by apply f64_order_bits_inj.
Qed.

Lemma value_eqb_exact a : forall b, value_ok a = true -> value_ok b = true -> eq_exact a = true -> value_eqb a b = true -> a = b.
Proof.
  apply (Value_nested (fun a => forall b, value_ok a = true -> value_ok b = true -> eq_exact a = true -> value_eqb a b = true -> a = b)).
  - clear a. intros a. destruct a; try done; intros b; destruct b; try done; cbn; intros Ha Hb He H.
    + apply Bool.eqb_prop in H. congruence.
    + f_equal. lia.
    + f_equal. apply f64_eqb_exact; [unfold is_uint; lia..|by apply negb_true_iff|done].
    + apply beqb_eq in H. congruence.
    + f_equal. lia.
    + apply beqb_eq in H. congruence.
  - intros l IH b. destruct b as [| | | | | |l'| | |]; try done. cbn. intros Ha Hb He H. f_equal.
    revert l' Ha Hb He H. induction IH as [|x l Hx _ IHl]; intros [|y l'] Ha Hb He H; try done.
    cbn in He. apply andb_prop in Ha as [Ha1 Ha], Hb as [Hb1 Hb], He as [He1 He], H as [H1 H]. f_equal; auto.
  - intros m IH b. destruct b as [| | | | | | |m'| |]; try done. cbn. intros [_ Ha]%andb_prop [_ Hb]%andb_prop He H. f_equal.
    revert m' Ha Hb He H. induction IH as [|[k x] m Hx _ IHm]; intros [|[k' y] m'] Ha Hb He H; try done. cbn in *.
    repeat match goal with H : _ && _ = true |- _ => apply andb_prop in H as [? ?] end.
    match goal with H : beqb _ _ = true |- _ => apply beqb_eq in H as -> end. f_equal; [f_equal; auto|auto].
Qed.

(** ** Pins *)

Section pins.
Context {VT : ValueText} {GT : GravityText}.

Lemma pinned_value_elem field filters found v :
  pinned_value field filters found = Some v -> found = Some v \/ (field, Eq_, v) ∈ filters.
Proof.
  revert found. induction filters as [|[[f op] w] filters IH]; intros found; cbn [pinned_value]; [auto|].
  destruct (beqb f field) eqn:E; [apply beqb_eq in E as ->|intros [?|?]%IH; [auto|right; by right]].
  destruct op, found; try done. intros [[= ->]|?]%IH; right; [left|by right].
Qed.

Lemma pinned_values_get fields filters vals vals' f :
  pinned_values fields filters vals = Some vals' ->
  (f ∈ fields -> exists v, (f, Eq_, v) ∈ filters /\ bt_get f vals' = Some v) /\ (f ∉ fields -> bt_get f vals' = bt_get f vals).
Proof.
  revert vals. induction fields as [|g fields IH]; intros vals; cbn [pinned_values].
  { intros [= ->]. split; [by intros ?%elem_of_nil|done]. }
  destruct (pinned_value g filters None) as [v|] eqn:E; [|done]. intros H. destruct (IH _ H) as [H1 H2].
  apply pinned_value_elem in E as [?|E]; [done|]. rewrite elem_of_cons. split.
  - intros Hf. destruct (decide (f ∈ fields)) as [Hin|Hn]; [auto|]. destruct Hf as [->|?]; [|done]. exists v. split; [done|].
    by rewrite H2, bt_get_insert, ocmp_refl.
  - intros Hn. rewrite H2 by tauto. rewrite bt_get_insert. destruct (ocmp f g) eqn:Ec; [|done..]. apply ocmp_eq in Ec as ->. tauto.
Qed.

(** The hash of a record depends on the fields of the specification only. *)
Lemma compute_hash_ext spec f1 f2 :
  (forall f, f ∈ GravitySpec_fields spec -> bt_get f f1 = bt_get f f2) -> compute_hash spec f1 = compute_hash spec f2.
Proof.
  intros H. unfold compute_hash, hash_pairs. destruct spec as [f|f t|fs]; cbn in H; [rewrite (H f) by left; done|rewrite (H f) by left; done|].
  replace (component_pairs fs f1) with (component_pairs fs f2); [done|].
  induction fs as [|f fs IH]; [done|]. cbn [component_pairs]. rewrite (H f), IH by (left || (intros; apply H; by right)). done.
Qed.

(** A path without a dot. *)
Definition plain (f : bytes) : Prop := existsb (fun c => c =? DOT) f = false.

Lemma eq_filter r filters f v :
  matches_filters r filters = true -> (f, Eq_, v) ∈ filters -> plain f -> exists w, bt_get f r = Some w /\ value_eqb w v = true.
Proof.
  intros Hm Hin Hp. unfold matches_filters in Hm. rewrite forallb_forall in Hm. specialize (Hm _ (proj1 (list_elem_of_In _ _) Hin)).
  cbn in Hm. unfold resolve_path in Hm. rewrite Hp in Hm. cbn in Hm. destruct (bt_get f r); [eauto|done].
Qed.

(** A value of the record that a filter compares exactly. *)
Definition exact_on (r : Fields) (filters : list (bytes * FilterOp * Value)) (f : bytes) : Prop :=
  plain f /\ (forall w, bt_get f r = Some w -> value_ok w = true /\ eq_exact w = true) /\
  (forall v, (f, Eq_, v) ∈ filters -> value_ok v = true).

Lemma exact_pin r filters f v :
  matches_filters r filters = true -> exact_on r filters f -> (f, Eq_, v) ∈ filters -> bt_get f r = Some v.
Proof.
  intros Hm (Hp & Hr & Hv) Hin. destruct (eq_filter r filters f v Hm Hin Hp) as (w & E & Eq). rewrite E. f_equal.
  destruct (Hr w E). apply value_eqb_exact; auto.
Qed.

Lemma pinned_hash_complete spec filters h r :
  pinned_gravity_hash spec filters = Some h -> matches_filters r filters = true ->
  Forall (exact_on r filters) (GravitySpec_fields spec) -> compute_hash spec r = Some h.
Proof.
  unfold pinned_gravity_hash. destruct (pinned_values _ _ _) as [vals|] eqn:E; [|done]. intros Hh Hm He. rewrite <- Hh.
  apply compute_hash_ext. intros f Hf. destruct (pinned_values_get _ _ _ _ f E) as [H _]. destruct (H Hf) as (v & Hin & ->).
  rewrite Forall_forall in He. apply (exact_pin r filters); auto.
Qed.

Lemma pinned_satellite_complete spec filters s r :
  detect_satellite_eq spec filters = Some s -> matches_filters r filters = true ->
  (forall sp, spec = Some sp -> exact_on r filters (ss_field sp)) -> satellite_sat_for spec r = Some s.
Proof.
  unfold detect_satellite_eq, satellite_sat_for. destruct spec as [sp|]; [|done].
  destruct (pinned_value _ _ _) as [v|] eqn:E; [|done]. intros [= <-] Hm He. apply pinned_value_elem in E as [?|E]; [done|].
  by rewrite (exact_pin r filters _ v Hm (He sp eq_refl) E).
Qed.

Lemma placement_hash_range gf spec anchors r : is_uint 48 (placement_hash None gf spec anchors r).
Proof.
  assert (forall s, is_uint 48 (hash_to_48bits s)) as H by (intros; apply mask_48_range).
  unfold placement_hash, gravity_hash_for, compute_record_gravity_hash, compute_hash, compute_gravity_hash. repeat case_match; simplify_eq; apply H.
Qed.

Lemma placement_hash_spec gf spec anchors r h : compute_hash spec r = Some h -> placement_hash None gf (Some spec) anchors r = h.
Proof. intros E. unfold placement_hash, gravity_hash_for. rewrite E. by destruct gf. Qed.

(** * Theorems *)

(** Writes and queries agree on the bucket. If the predicates of a query pin the
    gravity of a lobe, every record that matches them and is placed by the same
    specification lies in that bucket, and, if they pin the satellite too, in that
    satellite; for field names without dots and values on which [=] is identity. *)
Lemma pinned_bucket_complete lobe spec satellite filters h r gravity_fields anchors now seq :
  pinned_gravity_hash spec filters = Some h -> matches_filters r filters = true ->
  Forall (exact_on r filters) (GravitySpec_fields spec) ->
  (forall sp, satellite = Some sp -> exact_on r filters (ss_field sp)) ->
  let k := placement_key lobe (placement_hash None gravity_fields (Some spec) anchors r) satellite r now seq in
  lobe_id k = lobe /\ gravity_hash k = h /\ forall s, detect_satellite_eq satellite filters = Some s -> sat k = s.
Proof.
  intros Hp Hm He Hs k. pose proof (pinned_hash_complete _ _ _ _ Hp Hm He) as Hh.
  pose proof (placement_hash_range gravity_fields (Some spec) anchors r) as Hr. rewrite (placement_hash_spec _ _ _ _ _ Hh) in Hr.
  subst k. unfold placement_key. rewrite (placement_hash_spec _ _ _ _ _ Hh). split; [by destruct (satellite_sat_for _ _)|]. split.
  - destruct (satellite_sat_for _ _); cbn; by apply mask_48.
  - intros s Hd. by rewrite (pinned_satellite_complete _ _ _ _ Hd Hm Hs).
Qed.

End pins.

(** ** Witness, and where the agreement ends *)

Definition sample_gravity_text : GravityText := {|
  display_f32 := fun b => format_u64 b; debug_fields := fun fs => concat (fs.*1); to_lowercase := id |}.

Section samples.
#[local] Existing Instance sample_text.
#[local] Existing Instance sample_gravity_text.

Definition tenant_row : Fields := [(str "doc", Int 7); (str "id", Text (str "x7")); (str "tenant", Text (str "acme"))].
Definition tenant_spec : GravitySpec := Composite [str "tenant"; str "doc"].
Definition tenant_filters : list (bytes * FilterOp * Value) :=
  [(str "tenant", Eq_, Text (str "acme")); (str "id", Eq_, Text (str "x7")); (str "doc", Eq_, Int 7)].

Lemma tenant_exact f : f ∈ [str "tenant"; str "doc"; str "id"] -> exact_on tenant_row tenant_filters f.
Proof.
  intros Hf. split; [|split].
  - repeat (apply elem_of_cons in Hf as [->|Hf]; [reflexivity|]). by apply elem_of_nil in Hf.
  - intros w E. repeat (apply elem_of_cons in Hf as [->|Hf]; [vm_compute in E; injection E as <-; split; reflexivity|]). by apply elem_of_nil in Hf.
  - intros v Hin. repeat (apply elem_of_cons in Hin as [E|Hin]; [injection E as _ ->; reflexivity|]). by apply elem_of_nil in Hin.
Qed.

Lemma pinned_bucket_complete_witness :
  exists h, pinned_gravity_hash tenant_spec tenant_filters = Some h /\
    gravity_hash (placement_key 3 (placement_hash None [] (Some tenant_spec) [str "id"] tenant_row) (Some (mkSatelliteSpec (str "id"))) tenant_row 99 5) = h.
Proof.
  eexists. split; [vm_compute; reflexivity|].
  apply (pinned_bucket_complete 3 tenant_spec (Some (mkSatelliteSpec (str "id"))) tenant_filters _ tenant_row [] [str "id"] 99 5).
  - vm_compute. reflexivity.
  - reflexivity.
  - constructor; [apply tenant_exact; left|]. constructor; [apply tenant_exact; right; left|constructor].
  - intros sp [= <-]. apply tenant_exact. right. right. left.
Defined.

(** A record that was written before the lobe had a specification, or that was linked
    to another one, matches the predicates and is not in their bucket. *)
Lemma late_gravity_hides_records :
  matches_filters tenant_row [(str "tenant", Eq_, Text (str "acme"))] = true /\
  pinned_gravity_hash (Raw (str "tenant")) [(str "tenant", Eq_, Text (str "acme"))] <> Some (placement_hash None [] None [str "id"] tenant_row) /\
  pinned_gravity_hash (Raw (str "tenant")) [(str "tenant", Eq_, Text (str "acme"))] <>
    Some (placement_hash (Some (hash_to_48bits (str "other"))) [] (Some (Raw (str "tenant"))) [] tenant_row).
Proof. split; [reflexivity|]. split; vm_compute; congruence. Qed.

(** The two zeros are equal and are not in one bucket. *)
Lemma zeros_in_two_buckets :
  let row := [(str "g", Float (2 ^ 63))] in let filters := [(str "g", Eq_, Float 0)] in
  matches_filters row filters = true /\ pinned_gravity_hash (Raw (str "g")) filters <> compute_hash (Raw (str "g")) row.
Proof. split; [vm_compute; reflexivity|vm_compute; congruence]. Qed.

End samples.
