(* ===== verification/FilterEq.v ===== *)
(** * Equality of filters (the derived [PartialEq] of xytalk-parser/src/ast.rs)

    The router compares the filter of a query with that of a ghost by [==], which
    takes the two floating-point zeros for equal. Filters that are equal in this
    sense accept the same records. *)

From Corelib Require Import SpecFloat.
From S2P Require Import Prelude ByteOrder Bloom BTree Paths Value Filters Record.

(** ** Equality *)

Definition op_eqb (a b : FilterOp) : bool :=
  match a, b with
  | Eq_, Eq_ | Neq, Neq | Gt_, Gt_ | Gte, Gte | Lt_, Lt_ | Lte, Lte | IsNull, IsNull | IsNotNull, IsNotNull | Contains, Contains | In_, In_ => true
  | _, _ => false
  end.

Fixpoint literal_eqb (a b : Literal) {struct a} : bool :=
  match a, b with
  | LInt a, LInt b => a =? b
  | LFloat a, LFloat b => f64_eqb a b
  | LText a, LText b | LTimestamp a, LTimestamp b | LLid a, LLid b | LParam a, LParam b => beqb a b
  | LBool a, LBool b => Bool.eqb a b
  | LNull, LNull => true
  | LList a, LList b =>
    (fix go (a b : list Literal) : bool :=
       match a, b with
       | [], [] => true
       | x :: a', y :: b' => literal_eqb x y && go a' b'
       | _, _ => false
       end) a b
  | LMap a, LMap b =>
    (fix go (a b : list (bytes * Literal)) : bool :=
       match a, b with
       | [], [] => true
       | (k, x) :: a', (k', y) :: b' => beqb k k' && literal_eqb x y && go a' b'
       | _, _ => false
       end) a b
  | _, _ => false
  end.

Definition filter_eqb (a b : Filter) : bool :=
  beqb (f_field a) (f_field b) && op_eqb (f_op a) (f_op b) && literal_eqb (f_value a) (f_value b).

Fixpoint filter_expr_eqb (a b : FilterExpr) {struct a} : bool :=
  let all := fix go (a b : list FilterExpr) : bool :=
    match a, b with
    | [], [] => true
    | x :: a', y :: b' => filter_expr_eqb x y && go a' b'
    | _, _ => false
    end in
  match a, b with
  | Condition f, Condition g => filter_eqb f g
  | And a, And b => all a b
  | Or a, Or b => all a b
  | Not a, Not b => filter_expr_eqb a b
  | _, _ => false
  end.

(** A core predicate, as the router compares them. *)
Definition tuple_eqb (a b : bytes * FilterOp * Value) : bool :=
  beqb a.1.1 b.1.1 && op_eqb a.1.2 b.1.2 && value_eqb a.2 b.2.

Lemma op_eqb_eq a b : op_eqb a b = true -> a = b.
Proof. by destruct a, b. Qed.

(** ** Floats that compare alike *)

Definition f_sim (x y : spec_float) : Prop := x = y \/ exists s s', x = S754_zero s /\ y = S754_zero s'.

Lemma f_sim_refl x : f_sim x x.
Proof. by left. Qed.

Lemma SFeqb_sim x y : SFeqb x y = true -> f_sim x y.
Proof.
  unfold SFeqb. intros H. destruct x as [s|s| |s m e], y as [s'|s'| |s' m' e']; cbn in H; try (by repeat case_match).
  - right. eauto.
  - left. by destruct s, s'.
  - left. destruct s, s'; try done; destruct (Z.compare_spec e e') as [->| |]; try done;
      destruct (Pos.compare_cont Eq m m') eqn:E; try done; apply Pos.compare_eq in E as ->; done.
Qed.

Lemma SFcompare_sim_r w x y : f_sim x y -> SFcompare w x = SFcompare w y.
Proof. intros [->|(s & s' & -> & ->)]; [done|]. by destruct w. Qed.

Lemma SFcompare_sim_l w x y : f_sim x y -> SFcompare x w = SFcompare y w.
Proof. intros [->|(s & s' & -> & ->)]; [done|]. by destruct w. Qed.

(** ** Values that compare alike *)

Fixpoint value_sim (a b : Value) {struct a} : Prop :=
  match a, b with
  | Float a, Float b => f_sim (f64_from_bits a) (f64_from_bits b)
  | List a, List b =>
    (fix go (a b : list Value) : Prop :=
       match a, b with
       | [], [] => True
       | x :: a', y :: b' => value_sim x y /\ go a' b'
       | _, _ => False
       end) a b
  | Map a, Map b =>
    (fix go (a b : BTreeMap bytes Value) : Prop :=
       match a, b with
       | [], [] => True
       | (k, x) :: a', (k', y) :: b' => k = k' /\ value_sim x y /\ go a' b'
       | _, _ => False
       end) a b
  | Vector a, Vector b => Forall2 (fun x y => f_sim (f32_from_bits x) (f32_from_bits y)) a b
  | _, _ => a = b
  end.

Lemma list_sim l k : value_sim (List l) (List k) <-> Forall2 value_sim l k.
Proof.
  split.
  - cbn. revert k. induction l as [|x l IH]; intros [|y k]; try done. intros [??]. constructor; auto.
  - cbn. induction 1; done.
Qed.

Definition entry_sim (a b : bytes * Value) : Prop := a.1 = b.1 /\ value_sim a.2 b.2.

Lemma map_sim l k : value_sim (Map l) (Map k) <-> Forall2 entry_sim l k.
Proof.
  split.
  - cbn. revert k. induction l as [|[? x] l IH]; intros [|[? y] k]; try done. intros (? & ? & ?). constructor; [done|auto].
  - cbn. induction 1 as [|[? ?] [? ?] ? ? [? ?]]; done.
Qed.

Lemma value_sim_refl a : value_sim a a.
Proof.
  apply (Value_nested (fun a => value_sim a a)); clear a.
  - intros a. destruct a; try done; cbn; [apply f_sim_refl|]. apply Forall_Forall2_diag, Forall_forall. intros. apply f_sim_refl.
  - intros l H. apply list_sim. by apply Forall_Forall2_diag.
  - intros m H. apply map_sim, Forall_Forall2_diag. eapply Forall_impl; [exact H|]. by intros [? ?].
Qed.

Lemma value_eqb_sim a b : value_eqb a b = true -> value_sim a b.
Proof.
  revert b. apply (Value_nested (fun a => forall b, value_eqb a b = true -> value_sim a b)); clear a.
  - intros a. destruct a; try done; intros b H; destruct b; try done; cbn in *.
    + f_equal. by apply Bool.eqb_prop.
    + f_equal. lia.
    + by apply SFeqb_sim.
    + f_equal. by apply beqb_eq.
    + f_equal. lia.
    + f_equal. by apply beqb_eq.
    + rename bits into l, bits0 into k. revert k H. induction l as [|x l IH]; intros [|y k]; try done; cbn. intros [??]%andb_prop. constructor; [by apply SFeqb_sim|auto].
  - intros l H b Hb. destruct b as [| | | | | |k| | |]; try done. apply list_sim. cbn in Hb. revert k Hb.
    induction H as [|x l Hx _ IH]; intros [|y k]; try done. intros [??]%andb_prop. constructor; auto.
  - intros m H b Hb. destruct b as [| | | | | | |k| |]; try done. apply map_sim. cbn in Hb. revert k Hb.
    induction H as [|[c x] l Hx _ IH]; intros [|[d y] k]; try done. intros [[??]%andb_prop ?]%andb_prop.
    constructor; [split; [by apply beqb_eq|by apply Hx]|auto].
Qed.

(** Equality does not tell them apart, on either side. *)
Lemma eqb_sim a b w : value_sim a b -> value_eqb w a = value_eqb w b /\ value_eqb a w = value_eqb b w.
Proof.
  revert b w. apply (Value_nested (fun a => forall b w, value_sim a b -> value_eqb w a = value_eqb w b /\ value_eqb a w = value_eqb b w)); clear a.
  - intros a. destruct a; try done; intros b w H; destruct b; cbn in H; simplify_eq; try done.
    + destruct w; try done. cbn. unfold f64_eqb, SFeqb. rewrite (SFcompare_sim_r _ _ _ H), (SFcompare_sim_l _ _ _ H). done.
    + destruct w as [| | | | | | | | |w]; try done. cbn. revert w. induction H as [|x y l k Hxy _ IH]; intros [|z w]; try done. cbn.
      unfold f32_eqb, SFeqb in *. rewrite (SFcompare_sim_r _ _ _ Hxy), (SFcompare_sim_l _ _ _ Hxy). destruct (IH w) as [-> ->]. done.
  - intros l HP b w H. destruct b as [| | | | | |k| | |]; try done. destruct w as [| | | | | |w| | |]; try done. apply list_sim in H. cbn.
    revert w HP. induction H as [|x y l k Hxy _ IH]; intros [|z w] HP; try done. apply Forall_cons in HP as [Hx HP].
    destruct (Hx y z Hxy) as [-> ->]. destruct (IH w HP) as [-> ->]. done.
  - intros m HP b w H. destruct b as [| | | | | | |k| |]; try done. destruct w as [| | | | | | |w| |]; try done. apply map_sim in H. cbn.
    revert w HP. induction H as [|[c x] [d y] l k [Hc Hxy] _ IH]; intros [|[f z] w] HP; try done. cbn in Hc, Hxy. subst d.
    apply Forall_cons in HP as [Hx HP]. cbn in Hx. destruct (Hx y z Hxy) as [-> ->]. destruct (IH w HP) as [-> ->]. done.
Qed.

Lemma cmp_sim a b w : value_sim a b -> partial_cmp_value w a = partial_cmp_value w b.
Proof.
  intros H. destruct a, b; cbn in H; simplify_eq; try done; destruct w; try done; cbn; unfold f64_partial_cmp; by apply SFcompare_sim_r.
Qed.

Lemma matches_filter_sim r f op a b : value_sim a b -> matches_filter r (f, op, a) = matches_filter r (f, op, b).
Proof.
  intros H. cbn. destruct (resolve_path r f) as [w|]; [|by destruct op].
  destruct op; try done; rewrite ?(cmp_sim a b) by done; rewrite ?(proj1 (eqb_sim a b w H)); try done.
  - destruct w; try done. induction v as [|x v IH]; [done|]. cbn. by rewrite (proj1 (eqb_sim a b x H)), IH.
  - destruct a as [| | | | | |l| | |], b as [| | | | | |k| | |]; try done. apply list_sim in H. induction H as [|x y l k Hxy _ IH]; [done|]. cbn.
    by rewrite (proj2 (eqb_sim x y w Hxy)), IH.
Qed.

(** ** Literals *)

Lemma Literal_nested (P : Literal -> Prop) :
  (forall l, match l with LList _ | LMap _ => True | _ => P l end) -> (forall l, Forall P l -> P (LList l)) ->
  (forall m, Forall (fun kv => P kv.2) m -> P (LMap m)) -> forall l, P l.
Proof.
  intros Hl Hi Hm. fix IH 1. intros l. destruct l as [| | | | | | |l|m|]; try apply (Hl _).
  - apply (Hl (LInt v)).
  - apply (Hl (LFloat bits)).
  - apply (Hl (LText v)).
  - apply (Hl (LBool v)).
  - apply (Hl (LTimestamp v)).
  - apply (Hl (LLid v)).
  - apply (Hl LNull).
  - apply Hi. induction l; constructor; auto.
  - apply Hm. induction m as [|[k x] m IHm]; constructor; [apply IH|exact IHm].
  - apply (Hl (LParam name)).
Qed.

Definition option_sim {A} (R : A -> A -> Prop) (a b : option A) : Prop :=
  match a, b with Some x, Some y => R x y | None, None => True | _, _ => False end.

Lemma collect_sim {A} (R : A -> A -> Prop) (l k : list (option A)) :
  Forall2 (option_sim R) l k -> option_sim (Forall2 R) (collect_some l) (collect_some k).
Proof.
  induction 1 as [|[x|] [y|] l k Hxy _ IH]; try done; [constructor|]. cbn. destruct (collect_some l), (collect_some k); try done. by constructor.
Qed.

Lemma f32_sim a b : f_sim (f64_from_bits a) (f64_from_bits b) -> f_sim (f32_from_bits (f64_as_f32 a)) (f32_from_bits (f64_as_f32 b)).
Proof.
  unfold f64_as_f32. intros [->|(s & s' & -> & ->)]; [apply f_sim_refl|]. right. destruct s, s'; vm_compute; eauto.
Qed.

Lemma bt_insert_sim k v v' (m m' : BTreeMap bytes Value) :
  value_sim v v' -> Forall2 entry_sim m m' -> Forall2 entry_sim (bt_insert k v m) (bt_insert k v' m').
Proof.
  intros Hv. induction 1 as [|[c x] [d y] m m' [Hc Hxy] Hm IH]; cbn [bt_insert]; [by repeat constructor|]. cbn in Hc, Hxy. subst d.
  destruct (ocmp k c); repeat constructor; done.
Qed.

Lemma bt_collect_sim (l l' : list (bytes * Value)) : Forall2 entry_sim l l' -> Forall2 entry_sim (bt_collect l) (bt_collect l').
Proof.
  unfold bt_collect. intros H. assert (Forall2 entry_sim ([] : BTreeMap bytes Value) []) as H0 by constructor.
  revert H0. generalize ([] : BTreeMap bytes Value) at 2 4. generalize ([] : BTreeMap bytes Value).
  induction H as [|[c x] [d y] l l' [Hc Hxy] _ IH]; intros m m' H0; [done|]. cbn in Hc, Hxy. subst d. apply IH. by apply bt_insert_sim.
Qed.

Lemma literal_eqb_lists a b : literal_eqb (LList a) (LList b) = true -> Forall2 (fun x y => literal_eqb x y = true) a b.
Proof. cbn. revert b. induction a as [|x a IH]; intros [|y b]; try done. intros [??]%andb_prop. constructor; auto. Qed.

Lemma literal_sim a b : literal_eqb a b = true -> option_sim value_sim (literal_to_value a) (literal_to_value b).
Proof.
  revert b. apply (Literal_nested (fun a => forall b, literal_eqb a b = true -> option_sim value_sim (literal_to_value a) (literal_to_value b))); clear a.
  - intros a. destruct a; try done; intros b H; destruct b; try done; cbn in *.
    + f_equal. lia.
    + by apply SFeqb_sim.
    + f_equal. by apply beqb_eq.
    + f_equal. by apply Bool.eqb_prop.
    + apply beqb_eq in H as ->. done.
    + f_equal. by apply beqb_eq.
  - intros l HP b H. destruct b as [| | | | | | |k| |]; try done. apply literal_eqb_lists in H. cbn [literal_to_value].
    rewrite (Forall2_length _ _ _ H). assert (forallb is_float l = forallb is_float k) as ->.
    { clear HP. induction H as [|x y l k Hxy _ IH]; [done|]. cbn. rewrite IH. by destruct x, y. }
    destruct (forallb is_float k && (VECTOR_F32_MIN_DIMS <=? length k)%nat) eqn:Ev.
    + apply andb_prop in Ev as [Ev _]. cbn. clear HP. induction H as [|x y l k Hxy _ IH]; cbn in *; [constructor|]. apply andb_prop in Ev as [Ey Ev].
      constructor; [|auto]. destruct x, y; try done. by apply f32_sim, SFeqb_sim.
    + clear Ev. assert (option_sim (Forall2 value_sim) (collect_some (map literal_to_value l)) (collect_some (map literal_to_value k))) as HC.
      { apply collect_sim. induction H as [|x y l k Hxy _ IH]; cbn; [constructor|]. apply Forall_cons in HP as [Hx HP]. constructor; auto. }
      destruct (collect_some _), (collect_some _); try done. by apply list_sim.
  - intros m HP b H. destruct b as [| | | | | | | |k|]; try done. cbn in H |- *.
    set (g := fun kv : bytes * Literal => match literal_to_value kv.2 with Some v => Some (kv.1, v) | None => None end).
    assert (option_sim (Forall2 entry_sim) (collect_some (map g m)) (collect_some (map g k))) as HC.
    { apply collect_sim. revert k H. induction HP as [|[c x] m Hx _ IH]; intros [|[d y] k]; try (by try constructor).
      intros [[Hk%beqb_eq Hxy]%andb_prop H]%andb_prop. subst d. constructor; [|by apply IH]. specialize (Hx y Hxy). unfold g. cbn in *.
      by destruct (literal_to_value x), (literal_to_value y). }
    destruct (collect_some (map g m)) as [l|], (collect_some (map g k)) as [l'|]; try done. cbn [option_sim]. apply map_sim.
    by apply bt_collect_sim.
Qed.

(** ** Filters *)

Inductive core_sim : CoreFilterExpr -> CoreFilterExpr -> Prop :=
  | sim_leaf f op v w : value_sim v w -> core_sim (CLeaf (f, op, v)) (CLeaf (f, op, w))
  | sim_and l k : Forall2 core_sim l k -> core_sim (CAnd l) (CAnd k)
  | sim_or l k : Forall2 core_sim l k -> core_sim (COr l) (COr k)
  | sim_not e g : core_sim e g -> core_sim (CNot e) (CNot g).

Lemma core_sim_matches r e g : core_sim e g -> matches_core_expr r e = matches_core_expr r g.
Proof.
  revert e g. fix IH 3. intros e g [f op v w H|l k H|l k H|e' g' H]; cbn [matches_core_expr].
  - unfold matches_filters. cbn [forallb]. by rewrite (matches_filter_sim r f op v w H).
  - induction H as [|x y l k Hxy _ IHl]; [done|]. cbn. by rewrite (IH _ _ Hxy), IHl.
  - induction H as [|x y l k Hxy _ IHl]; [done|]. cbn. by rewrite (IH _ _ Hxy), IHl.
  - by rewrite (IH _ _ H).
Qed.

Lemma filter_expr_sim a b : filter_expr_eqb a b = true -> option_sim core_sim (to_core_expr a) (to_core_expr b).
Proof.
  assert (forall l k, Forall (fun e => forall b, filter_expr_eqb e b = true -> option_sim core_sim (to_core_expr e) (to_core_expr b)) l ->
    (fix go (a b : list FilterExpr) : bool :=
      match a, b with [], [] => true | x :: a', y :: b' => filter_expr_eqb x y && go a' b' | _, _ => false end) l k = true ->
    option_sim (Forall2 core_sim) (collect_some (map to_core_expr l)) (collect_some (map to_core_expr k))) as Hall.
  { intros l k HP H. apply collect_sim. revert k H. induction HP as [|x l Hx _ IH]; intros [|y k]; try (by try constructor).
    intros [??]%andb_prop. cbn. constructor; auto. }
  revert b. induction a as [f|l IH|l IH|e IH] using FilterExpr_nested; intros b H; destruct b; try done.
  - cbn [filter_expr_eqb] in H. unfold filter_eqb in H. apply andb_prop in H as [[Hf%beqb_eq Ho%op_eqb_eq]%andb_prop Hl]. apply literal_sim in Hl.
    cbn [to_core_expr]. unfold convert_filter. rewrite Hf, Ho. destruct (literal_to_value (f_value f)), (literal_to_value (f_value f0)); try done. by constructor.
  - cbn [filter_expr_eqb] in H. specialize (Hall l exprs IH H). cbn [to_core_expr]. destruct (collect_some _), (collect_some _); try done. by constructor.
  - cbn [filter_expr_eqb] in H. specialize (Hall l exprs IH H). cbn [to_core_expr]. destruct (collect_some _), (collect_some _); try done. by constructor.
  - cbn in H |- *. specialize (IH _ H). destruct (to_core_expr e), (to_core_expr b); try done. by constructor.
Qed.

(** Equal filters accept the same records. *)
Lemma filter_expr_eqb_matches r a b : filter_expr_eqb a b = true -> matches_filter_expr r a = matches_filter_expr r b.
Proof.
  intros H%filter_expr_sim. unfold matches_filter_expr. destruct (to_core_expr a) as [x|], (to_core_expr b) as [y|]; try done. cbn. f_equal. by apply core_sim_matches.
Qed.

Lemma tuple_eqb_matches r a b : tuple_eqb a b = true -> matches_filter r a = matches_filter r b.
Proof.
  destruct a as [[f op] v], b as [[f' op'] v']. unfold tuple_eqb. cbn [fst snd]. intros [[Hf%beqb_eq Ho%op_eqb_eq]%andb_prop Hv%value_eqb_sim]%andb_prop.
  subst. by apply matches_filter_sim.
Qed.
