(* ===== verification/Router.v ===== *)
(** * The ghost router (engine/src/ghost_router.rs, the registration of
    engine/src/engine/ghosts.rs)

    For every lobe the router knows what its ghosts can answer, and picks the source
    of a scan: a ghost's precomputed aggregates, a ghost's index, or the records
    themselves. The map of ghosts is a hash map; here it is a list, in whatever order
    the iteration visits it. *)

From S2P Require Import Prelude ByteOrder BTree Types Value Lid Filters FilterEq.
From S2P Require Import Record Aggregate GroupKey Rollup Ghost GhostInv GhostRun GhostTheorems GhostReads Gravity.

Inductive ScanSource :=
  | Primary
  | FromGhost (name : bytes)
  | GhostPreComputed (name : bytes).

Record GhostRoutingMeta := mkRouting {
  rm_filter_fields : list (bytes * FilterOp * Value);
  rm_filter : FilterExpr;
  rm_filter_desc : option bytes;
  rm_order_by_field : bytes;
  rm_sort_inverted : bool;
  rm_has_aggregates : bool;
  rm_group_fields : list bytes;
  rm_aggregate_sig : list bytes;
  rm_state_ready : bool;
  rm_has_projection : bool;
}.

Record GhostRouter := mkRouter { gr_ghosts : list (bytes * GhostRoutingMeta); gr_total_writes : Z }.

Definition GhostRouter_new : GhostRouter := mkRouter [] 0.

(** ** The map of ghosts *)

Definition router_get (name : bytes) (r : GhostRouter) : option GhostRoutingMeta :=
  snd <$> List.find (fun nm => beqb nm.1 name) (gr_ghosts r).

Definition router_remove (name : bytes) (r : GhostRouter) : GhostRouter :=
  mkRouter (List.filter (fun nm => negb (beqb nm.1 name)) (gr_ghosts r)) (gr_total_writes r).

Definition router_insert (name : bytes) (m : GhostRoutingMeta) (r : GhostRouter) : GhostRouter :=
  mkRouter ((name, m) :: gr_ghosts (router_remove name r)) (gr_total_writes r).

(** [if let Some(meta) = self.ghosts.get_mut(name)] *)
Definition router_alter (f : GhostRoutingMeta -> GhostRoutingMeta) (name : bytes) (r : GhostRouter) : GhostRouter :=
  mkRouter ((fun nm => if beqb nm.1 name then (nm.1, f nm.2) else nm) <$> gr_ghosts r) (gr_total_writes r).

Definition register_ghost (name : bytes) (filter_fields : list (bytes * FilterOp * Value)) (order_by_field : bytes)
    (sort_inverted has_aggregates : bool) (group_fields : list bytes) : GhostRouter -> GhostRouter :=
  router_insert name (mkRouting filter_fields (And []) None order_by_field sort_inverted has_aggregates group_fields [] true false).

Definition set_filter (name : bytes) (filter : FilterExpr) : GhostRouter -> GhostRouter :=
  router_alter (fun m => mkRouting (rm_filter_fields m) filter (rm_filter_desc m) (rm_order_by_field m) (rm_sort_inverted m)
    (rm_has_aggregates m) (rm_group_fields m) (rm_aggregate_sig m) (rm_state_ready m) (rm_has_projection m)) name.

Definition set_has_projection (name : bytes) (has_projection : bool) : GhostRouter -> GhostRouter :=
  router_alter (fun m => mkRouting (rm_filter_fields m) (rm_filter m) (rm_filter_desc m) (rm_order_by_field m) (rm_sort_inverted m)
    (rm_has_aggregates m) (rm_group_fields m) (rm_aggregate_sig m) (rm_state_ready m) has_projection) name.

Definition set_aggregate_sig (name : bytes) (sig : list bytes) : GhostRouter -> GhostRouter :=
  router_alter (fun m => mkRouting (rm_filter_fields m) (rm_filter m) (rm_filter_desc m) (rm_order_by_field m) (rm_sort_inverted m)
    (rm_has_aggregates m) (rm_group_fields m) sig (rm_state_ready m) (rm_has_projection m)) name.

Definition set_filter_desc (name : bytes) (desc : bytes) : GhostRouter -> GhostRouter :=
  router_alter (fun m => mkRouting (rm_filter_fields m) (rm_filter m) (Some desc) (rm_order_by_field m) (rm_sort_inverted m)
    (rm_has_aggregates m) (rm_group_fields m) (rm_aggregate_sig m) (rm_state_ready m) (rm_has_projection m)) name.

Definition get_filter_desc (name : bytes) (r : GhostRouter) : option bytes := router_get name r ≫= rm_filter_desc.

Definition aggregate_sig_covers (name : bytes) (query_sig : list bytes) (r : GhostRouter) : bool :=
  match router_get name r with
  | Some m => forallb (fun q => existsb (beqb q) (rm_aggregate_sig m)) query_sig
  | None => false
  end.

Definition rename_ghost (old_name new_name : bytes) (r : GhostRouter) : GhostRouter * bool :=
  match router_get old_name r with
  | Some m => (router_insert new_name m (router_remove old_name r), true)
  | None => (r, false)
  end.

Definition unregister_ghost (name : bytes) : GhostRouter -> GhostRouter := router_remove name.

Definition record_writes (n : Z) (r : GhostRouter) : GhostRouter := mkRouter (gr_ghosts r) (wrap64 (gr_total_writes r + n)).

Definition has_ghosts (r : GhostRouter) : bool := match gr_ghosts r with [] => false | _ => true end.

(** ** The choice of a source *)

(** Whether a query may be answered from a ghost at all. *)
Definition is_relevant (filters : list (bytes * FilterOp * Value)) (query_filter : option FilterExpr) (m : GhostRoutingMeta) : bool :=
  if negb (rm_state_ready m) then false
  else if match query_filter with Some qf => filter_expr_eqb (rm_filter m) qf | None => false end then true
  else match as_flat_and (rm_filter m) with
       | None => false
       | Some _ => forallb (fun g => existsb (fun s => tuple_eqb s g) filters) (rm_filter_fields m)
       end.

Definition is_group_eq (group_fields : list bytes) (q : bytes * FilterOp * Value) : bool :=
  match q.1.2 with Eq_ => existsb (fun gf => beqb gf q.1.1) group_fields | _ => false end.

(** The conditions of pass 1a. *)
Definition precomputes (filters : list (bytes * FilterOp * Value)) (group_by : list bytes) (m : GhostRoutingMeta) : bool :=
  rm_has_aggregates m && bool_decide (rm_group_fields m = group_by) &&
  forallb (fun q => existsb (fun g => tuple_eqb g q) (rm_filter_fields m) || is_group_eq (rm_group_fields m) q) filters.

(** The ghost with the most filters, the first of them. *)
Fixpoint best_ghost (candidates : list (bytes * GhostRoutingMeta)) (best : option (bytes * Z)) : option (bytes * Z) :=
  match candidates with
  | [] => best
  | (name, m) :: rest =>
    let specificity := blen (rm_filter_fields m) in
    best_ghost rest (match best with
                     | Some (_, s) => if s <? specificity then Some (name, specificity) else best
                     | None => Some (name, specificity)
                     end)
  end.

Definition serves_records (m : GhostRoutingMeta) : bool :=
  negb (rm_has_aggregates m) && match rm_group_fields m with [] => true | _ => false end && negb (rm_has_projection m).

Definition plan_scan (filters : list (bytes * FilterOp * Value)) (order_by : option (bytes * bool)) (has_aggregates : bool)
    (group_by : list bytes) (has_limit : bool) (query_filter : option FilterExpr) (anchored_fields : option (list bytes)) (r : GhostRouter) : ScanSource :=
  let anchor_eq_present :=
    match anchored_fields with
    | Some set => existsb (fun f => match f.1.2 with Eq_ => existsb (beqb f.1.1) set | _ => false end) filters
    | None => false
    end in
  if anchor_eq_present then Primary
  else
    let relevant := List.filter (fun nm => is_relevant filters query_filter nm.2) (gr_ghosts r) in
    match (if has_aggregates then best_ghost (List.filter (fun nm => precomputes filters group_by nm.2) relevant) None else None) with
    | Some (name, _) => GhostPreComputed name
    | None =>
      match order_by with
      | Some (field, descending) =>
        match List.find (fun nm => has_limit && beqb (rm_order_by_field nm.2) field && Bool.eqb (rm_sort_inverted nm.2) descending && serves_records nm.2) relevant with
        | Some (name, _) => FromGhost name
        | None => Primary
        end
      | None =>
        match List.find (fun nm => serves_records nm.2) relevant with
        | Some (name, _) => FromGhost name
        | None => Primary
        end
      end
    end.

(** ** Registration *)

Section registration.
(** [{:?}] of the filter of a metric *)
Context (debug_filter : option FilterExpr -> bytes).

Definition debug_agg_op (op : AggOp) : bytes :=
  match op with
  | AggCount => str "Count"
  | AggSum => str "Sum"
  | AggMin => str "Min"
  | AggMax => str "Max"
  | AggAvg => str "Avg"
  end.

Definition aggregate_signature (metrics : list Metric) : list bytes :=
  stable_sort (fun a b => bleb a b)
    ((fun m => debug_agg_op (m_op m) ++ [1] ++ m_field m ++ [1] ++ m_label m ++ [1] ++ debug_filter (m_filter m)) <$> metrics).

Definition is_aggregate (meta : GhostMeta) : bool := match gm_aggregate meta with Some _ => true | None => false end.
Definition has_projection (meta : GhostMeta) : bool := match gm_projection meta with [] => false | _ => true end.

(** The predicates of a filter without [Or] and [Not]; [None] is a parameter that was
    never bound. *)
Definition coverage_tuples (filter : FilterExpr) : option (list (bytes * FilterOp * Value)) :=
  match as_flat_and filter with Some conds => convert_filters conds | None => Some [] end.

Definition register_ghost_in_router (ghost_name : bytes) (meta : GhostMeta) (router : GhostRouter) : option GhostRouter :=
  match coverage_tuples (gm_filter meta) with
  | None => None
  | Some filter_fields =>
    let aggregate_sig := match gm_aggregate meta with Some a => aggregate_signature (aggregate_specs a) | None => [] end in
    let router := register_ghost ghost_name filter_fields (gm_order_by_field meta) (gm_sort_inverted meta) (is_aggregate meta) (group_fields meta) router in
    let router := set_filter ghost_name (gm_filter meta) router in
    let router := set_has_projection ghost_name (has_projection meta) router in
    Some (set_aggregate_sig ghost_name aggregate_sig router)
  end.

(** What the router knows of a ghost. *)
Record routes (meta : GhostMeta) (m : GhostRoutingMeta) : Prop := {
  routes_filter : rm_filter m = gm_filter meta;
  routes_tuples : coverage_tuples (gm_filter meta) = Some (rm_filter_fields m);
  routes_order : rm_order_by_field m = gm_order_by_field meta;
  routes_inverted : rm_sort_inverted m = gm_sort_inverted meta;
  routes_aggregates : rm_has_aggregates m = is_aggregate meta;
  routes_groups : rm_group_fields m = group_fields meta;
  routes_projection : rm_has_projection m = has_projection meta;
}.

(** Every entry of the router describes the ghost of its name. *)
Definition router_inv (ghosts : bytes -> option GhostMeta) (r : GhostRouter) : Prop :=
  Forall (fun nm => exists meta, ghosts nm.1 = Some meta /\ routes meta nm.2) (gr_ghosts r).

(** The setters fill in the entry that [register_ghost] put first. *)
Lemma alter_head f name m (l : list (bytes * GhostRoutingMeta)) n :
  Forall (fun nm => nm.1 <> name) l ->
  router_alter f name (mkRouter ((name, m) :: l) n) = mkRouter ((name, f m) :: l) n.
Proof.
  intros H. unfold router_alter. cbn [gr_ghosts gr_total_writes fmap list_fmap fst snd]. rewrite beqb_refl. do 2 f_equal.
  induction H as [|[c x] l Hc _ IH]; [done|]. cbn [fmap list_fmap fst snd] in *. rewrite (proj2 (beqb_neq _ _) Hc). by f_equal.
Qed.

Lemma removed_names name r : Forall (fun nm => nm.1 <> name) (gr_ghosts (router_remove name r)).
Proof.
  cbn [router_remove gr_ghosts]. apply Forall_forall. intros [c x] [_ H]%list_elem_of_In%filter_In. cbn in *. intros ->. by rewrite beqb_refl in H.
Qed.

Lemma removed_sub name r nm : nm ∈ gr_ghosts (router_remove name r) -> nm ∈ gr_ghosts r /\ nm.1 <> name.
Proof.
  intros H. split.
  - cbn [router_remove gr_ghosts] in H. apply list_elem_of_In, filter_In in H as [H _]. by apply list_elem_of_In.
  - pose proof (removed_names name r) as Hn. rewrite Forall_forall in Hn. by apply Hn.
Qed.

Lemma register_in_router_spec name meta r r' : register_ghost_in_router name meta r = Some r' ->
  exists m, routes meta m /\ gr_ghosts r' = (name, m) :: gr_ghosts (router_remove name r).
Proof.
  unfold register_ghost_in_router. destruct (coverage_tuples (gm_filter meta)) as [ff|] eqn:E; [|done]. intros [= <-].
  unfold register_ghost, router_insert, set_filter, set_has_projection, set_aggregate_sig. rewrite !(alter_head _ _ _ _ _ (removed_names name r)).
  eexists. split; [|reflexivity]. by constructor.
Qed.

(** Registering, dropping and renaming a ghost keep the router true to the ghosts. *)
Lemma router_inv_register ghosts name meta r r' :
  router_inv ghosts r -> register_ghost_in_router name meta r = Some r' ->
  router_inv (fun n => if beqb n name then Some meta else ghosts n) r'.
Proof.
  intros HI (m & Hm & E)%register_in_router_spec. unfold router_inv in *. rewrite E. constructor; [cbn; rewrite beqb_refl; eauto|].
  rewrite Forall_forall in *. intros nm [Hin Hne]%removed_sub. rewrite (proj2 (beqb_neq _ _) Hne). auto.
Qed.

Lemma router_inv_unregister ghosts name r :
  router_inv ghosts r -> router_inv (fun n => if beqb n name then None else ghosts n) (unregister_ghost name r).
Proof.
  intros HI. unfold router_inv, unregister_ghost in *. rewrite Forall_forall in *. intros nm [Hin Hne]%removed_sub. rewrite (proj2 (beqb_neq _ _) Hne). auto.
Qed.

Lemma router_get_elem name r m : router_get name r = Some m -> (name, m) ∈ gr_ghosts r.
Proof.
  unfold router_get. destruct (List.find _ _) as [[c x]|] eqn:E; [|done]. intros [= ->]. apply find_some in E as [Hin Hc]. cbn in Hc.
  apply beqb_eq in Hc as ->. by apply list_elem_of_In.
Qed.

Lemma router_inv_rename ghosts old new meta r :
  router_inv ghosts r -> ghosts old = Some meta ->
  router_inv (fun n => if beqb n new then Some meta else if beqb n old then None else ghosts n) (rename_ghost old new r).1 \/ router_get old r = None.
Proof.
  intros HI Ho. unfold rename_ghost. destruct (router_get old r) as [m|] eqn:E; [left|by right]. unfold router_inv in *. rewrite Forall_forall in HI.
  cbn [fst router_insert gr_ghosts]. constructor.
  - destruct (HI _ (router_get_elem _ _ _ E)) as (meta' & Hm & Hr). cbn in *. rewrite Ho in Hm. injection Hm as <-. rewrite beqb_refl. eauto.
  - rewrite Forall_forall. intros nm [[Hin Hne]%removed_sub Hnew]%removed_sub. rewrite (proj2 (beqb_neq _ _) Hnew), (proj2 (beqb_neq _ _) Hne). auto.
Qed.
End registration.

(** ** Soundness of the choice *)

Lemma flat_bound e fs cs : as_flat_and e = Some fs -> convert_filters fs = Some cs -> exists c, to_core_expr e = Some c.
Proof.
  revert fs cs. induction e as [f|l IH|l _|e _] using FilterExpr_nested; intros fs cs Hf Hcs; [| |done..].
  - injection Hf as <-. cbn in Hcs |- *. destruct (convert_filter f); [eauto|done].
  - cbn [to_core_expr]. enough (exists cl, collect_some (map to_core_expr l) = Some cl) as [cl ->] by eauto.
    cbn [as_flat_and] in Hf. revert fs cs Hf Hcs. induction IH as [|e l He _ IHl]; intros fs cs Hf Hcs; [cbn; eauto|].
    destruct (as_flat_and e) as [fe|] eqn:Ee; [|done]. match type of Hf with match ?x with _ => _ end = _ => destruct x as [gs|] eqn:Eg; [|done] end.
    injection Hf as <-. unfold convert_filters in Hcs. rewrite map_app in Hcs. apply collect_some_app in Hcs as (ca & cb & Ha & Hb & _).
    destruct (He _ _ eq_refl Ha) as [c Hc]. destruct (IHl _ _ eq_refl Hb) as [cl Hcl]. cbn [map collect_some]. rewrite Hc, Hcl. eauto.
Qed.

Lemma flat_matches r e fs cs : as_flat_and e = Some fs -> convert_filters fs = Some cs -> matches_filter_expr r e = Some (matches_filters r cs).
Proof.
  intros Hf Hcs. destruct (flat_bound _ _ _ Hf Hcs) as [c Hc]. unfold matches_filter_expr. rewrite Hc. cbn. f_equal. by eapply flat_and_sound.
Qed.

(** A query: its filter, and the predicates it hands to the router. *)
Definition query_tuples (query_filter : option FilterExpr) : option (list (bytes * FilterOp * Value)) :=
  convert_filters (filter_expr_to_flat query_filter).

(** A filter that is not a conjunction gives the router no predicates, so that a
    ghost without a filter seems to fit. *)
Definition flat_query (query_filter : option FilterExpr) : Prop :=
  match query_filter with Some e => is_Some (as_flat_and e) | None => True end.

Definition subset_tuples (a b : list (bytes * FilterOp * Value)) : Prop := forall g, g ∈ a -> exists s, s ∈ b /\ tuple_eqb s g = true.

Lemma subset_matches r a b : subset_tuples a b -> matches_filters r b = true -> matches_filters r a = true.
Proof.
  unfold matches_filters. rewrite !forallb_forall. intros Hs Hb g Hg%list_elem_of_In. destruct (Hs g Hg) as (s & Hin & E).
  rewrite <- (tuple_eqb_matches r s g E). by apply Hb, list_elem_of_In.
Qed.

(** A relevant ghost holds every record of the query, and the query's predicates
    select them. *)
Lemma relevant_sound filters query_filter meta m :
  routes meta m -> query_tuples query_filter = Some filters -> flat_query query_filter \/ rm_filter_fields m <> [] \/ as_flat_and (rm_filter m) = None ->
  is_relevant filters query_filter m = true ->
  forall r, record_matches_opt_expr r query_filter = (fun b => b && matches_filters r filters) <$> matches_filter_expr r (gm_filter meta).
Proof.
  intros [Hf Ht _ _ _ _ _] Hq Hflat Hr r. unfold is_relevant in Hr. destruct (rm_state_ready m); [|done]. cbn [negb] in Hr. unfold query_tuples in Hq.
  destruct (match query_filter with Some qf => filter_expr_eqb (rm_filter m) qf | None => false end) eqn:Eq.
  - destruct query_filter as [qf|]; [|done]. cbn [record_matches_opt_expr]. rewrite Hf in Eq. rewrite (filter_expr_eqb_matches r _ _ Eq).
    cbn [filter_expr_to_flat] in Hq. destruct (as_flat_and qf) as [fs|] eqn:Ef.
    + rewrite (flat_matches r _ _ _ Ef Hq). cbn. by rewrite Bool.andb_diag.
    + injection Hq as <-. destruct (matches_filter_expr r qf) as [b|]; [|done]. cbn. by rewrite Bool.andb_true_r.
  - destruct (as_flat_and (rm_filter m)) as [gs|] eqn:Eg; [|done]. rewrite Hf in Eg. unfold coverage_tuples in Ht. rewrite Eg in Ht.
    rewrite (flat_matches r _ _ _ Eg Ht). assert (subset_tuples (rm_filter_fields m) filters) as Hs.
    { intros g Hg. rewrite forallb_forall in Hr. specialize (Hr g (proj1 (list_elem_of_In _ _) Hg)). apply existsb_exists in Hr as (s & Hin & E).
      exists s. split; [by apply list_elem_of_In|done]. }
    cbn. replace (matches_filters r (rm_filter_fields m) && matches_filters r filters) with (matches_filters r filters).
    2: { destruct (matches_filters r filters) eqn:E; [|by rewrite Bool.andb_false_r]. by rewrite (subset_matches r _ _ Hs E). }
    destruct query_filter as [qf|]; cbn [record_matches_opt_expr filter_expr_to_flat flat_query] in *; [|by injection Hq as <-].
    destruct (as_flat_and qf) as [fs|] eqn:Ef; [by eapply flat_matches|]. exfalso. injection Hq as <-.
    destruct Hflat as [[??]|[Hne|Hne]]; [done| |congruence]. destruct (rm_filter_fields m) as [|g ff]; [done|]. destruct (Hs g) as (s & Hin & _); [by left|]. by apply elem_of_nil in Hin.
Qed.

(** The [=] predicates on group fields compare exactly: paths without dots, one
    value per field, that is not null. *)
Definition pins_exact (filters : list (bytes * FilterOp * Value)) (fs : list bytes) (r : Fields) : Prop :=
  Forall (exact_on r filters) fs /\
  forall f v, f ∈ fs -> (f, Eq_, v) ∈ filters -> v <> Null /\ value_eqb v v = true /\ forall v', (f, Eq_, v') ∈ filters -> v' = v.

Lemma pin_elem filters f v : pin filters f = Some v -> (f, Eq_, v) ∈ filters.
Proof.
  unfold pin. destruct (List.find _ filters) as [[[g op] w]|] eqn:E; [|done]. intros [= ->]. apply find_some in E as [Hin E].
  apply andb_prop in E as [Eg%beqb_eq Eo%bool_decide_eq_true]. subst. by apply list_elem_of_In.
Qed.

Lemma elem_pin filters f v : (f, Eq_, v) ∈ filters -> is_Some (pin filters f).
Proof.
  intros Hin. unfold pin. destruct (List.find _ filters) as [[[g op] w]|] eqn:E; [by eexists|]. apply list_elem_of_In in Hin.
  pose proof (find_none _ _ E _ Hin) as H. cbn in H. rewrite beqb_refl, bool_decide_true in H by done. done.
Qed.

Lemma is_group_eq_spec fs q : is_group_eq fs q = true <-> exists f v, q = (f, Eq_, v) /\ f ∈ fs.
Proof.
  destruct q as [[f op] v]. unfold is_group_eq. cbn [fst snd]. split.
  - destruct op; try done. intros (g & Hin & E%beqb_eq)%existsb_exists. subst. exists f, v. split; [done|]. by apply list_elem_of_In.
  - intros (g & w & [= -> -> ->] & Hin). apply existsb_exists. exists g. split; [by apply list_elem_of_In|apply beqb_refl].
Qed.

(** Then they say what the selection of groups by their keys says. *)
Lemma pins_satisfies filters fs r : pins_exact filters fs r ->
  matches_filters r (List.filter (is_group_eq fs) filters) = true <-> satisfies filters fs r.
Proof.
  intros [He Hv]. rewrite Forall_forall in He. unfold matches_filters. rewrite forallb_forall. split.
  - intros H gf v Hin Hp%pin_elem. destruct (He gf Hin) as (Hplain & Hr & Hok). specialize (H (gf, Eq_, v)).
    assert (In (gf, Eq_, v) (List.filter (is_group_eq fs) filters)) as Hf.
    { apply filter_In. split; [by apply list_elem_of_In|]. apply is_group_eq_spec. eauto. }
    specialize (H Hf). cbn in H. unfold resolve_path in H. rewrite Hplain in H. cbn in H. unfold group_value.
    destruct (bt_get gf r) as [w|] eqn:E; [|done]. cbn. destruct (Hr w eq_refl). apply value_eqb_exact; auto.
  - intros Hs q [Hin Hq]%filter_In. apply is_group_eq_spec in Hq as (f & v & -> & Hf). apply list_elem_of_In in Hin.
    destruct (Hv f v Hf Hin) as (Hn & Hrefl & Hu). destruct (elem_pin _ _ _ Hin) as [w Hw]. pose proof (Hu _ (pin_elem _ _ _ Hw)) as ->.
    specialize (Hs f v Hf Hw). destruct (He f Hf) as (Hplain & _). cbn. unfold resolve_path. rewrite Hplain. cbn. unfold group_value in Hs.
    destruct (bt_get f r) as [w|]; cbn in Hs; [by subst|congruence].
Qed.

Lemma best_ghost_elem cands best name s : best_ghost cands best = Some (name, s) -> best = Some (name, s) \/ exists m, (name, m) ∈ cands.
Proof.
  revert best. induction cands as [|[c m] cands IH]; intros best H; cbn in H; [by left|].
  apply IH in H as [H|[m' Hm]]; [|right; exists m'; by right]. destruct best as [[b t]|]; [case_match; [|by left]|];
    injection H as <- <-; right; exists m; left.
Qed.

Lemma coverage_matches meta m r : routes meta m -> matches_filter_expr r (gm_filter meta) = Some true -> matches_filters r (rm_filter_fields m) = true.
Proof.
  intros [_ Ht _ _ _ _ _] E. unfold coverage_tuples in Ht. destruct (as_flat_and (gm_filter meta)) as [fs|] eqn:Ef; [|by injection Ht as <-].
  rewrite (flat_matches r _ _ _ Ef Ht) in E. by injection E.
Qed.

(** The predicates a precomputing ghost does not hold are those it selects groups by. *)
Lemma precomputes_sound filters group_by meta m r :
  routes meta m -> precomputes filters group_by m = true -> matches_filter_expr r (gm_filter meta) = Some true ->
  matches_filters r filters = matches_filters r (List.filter (is_group_eq group_by) filters).
Proof.
  intros Hr [[_ Hg%bool_decide_eq_true]%andb_prop Hp]%andb_prop Hm. apply (coverage_matches _ _ _ Hr) in Hm. rewrite Hg in Hp. unfold matches_filters in *.
  induction filters as [|q filters IH]; [done|]. cbn [forallb List.filter] in *. apply andb_prop in Hp as [Hq Hp]. specialize (IH Hp).
  destruct (is_group_eq group_by q) eqn:Eg; cbn [forallb]; [by rewrite IH|]. rewrite IH. rewrite Bool.orb_false_r in Hq.
  apply existsb_exists in Hq as (g & Hin & E). rewrite forallb_forall in Hm. rewrite <- (tuple_eqb_matches r g q E), (Hm _ Hin). done.
Qed.

Section routing.
Context (ghosts : bytes -> option GhostMeta) (router : GhostRouter) (query_filter : option FilterExpr) (filters : list (bytes * FilterOp * Value)).

(** What a source must hold for its reader, which applies the predicates of the query
    to what it finds there, to answer the query. *)
Definition answered_by (meta : GhostMeta) (residual : Fields -> bool) : Prop :=
  forall r, record_matches_opt_expr r query_filter = (fun b => b && residual r) <$> matches_filter_expr r (gm_filter meta).

(** A ghost without a filter seems to fit a query that is no conjunction. *)
Definition no_vacuous_match : Prop :=
  flat_query query_filter \/
  Forall (fun nm => rm_filter_fields nm.2 <> [] \/ as_flat_and (rm_filter nm.2) = None) (gr_ghosts router).

Lemma relevant_ghost name m :
  router_inv ghosts router -> query_tuples query_filter = Some filters -> no_vacuous_match ->
  (name, m) ∈ List.filter (fun nm => is_relevant filters query_filter nm.2) (gr_ghosts router) ->
  exists meta, ghosts name = Some meta /\ routes meta m /\ answered_by meta (fun r => matches_filters r filters).
Proof.
  intros HI Hq Hv [Hin Hr]%list_elem_of_In%filter_In. apply list_elem_of_In in Hin. unfold router_inv in HI. rewrite Forall_forall in HI.
  destruct (HI _ Hin) as (meta & Hm & Hroutes). exists meta. split; [done|]. split; [done|]. intros r. eapply relevant_sound; [done..| |done].
  destruct Hv as [Hv|Hv]; [by left|right]. rewrite Forall_forall in Hv. apply (Hv _ Hin).
Qed.

Lemma precomputing_ghost name m group_by :
  router_inv ghosts router -> query_tuples query_filter = Some filters -> no_vacuous_match ->
  (name, m) ∈ List.filter (fun nm => is_relevant filters query_filter nm.2) (gr_ghosts router) -> precomputes filters group_by m = true ->
  exists meta, ghosts name = Some meta /\ is_aggregate meta = true /\ group_fields meta = group_by /\
    answered_by meta (fun r => matches_filters r (List.filter (is_group_eq group_by) filters)).
Proof.
  intros HI Hq Hv Hin Hp. destruct (relevant_ghost _ _ HI Hq Hv Hin) as (meta & Hm & Hr & Hs). exists meta. split; [done|].
  pose proof Hp as Hp'. apply andb_prop in Hp' as [[Ha Hg%bool_decide_eq_true]%andb_prop _]. rewrite <- (routes_aggregates _ _ Hr), <- (routes_groups _ _ Hr).
  split; [done|]. split; [done|]. intros r. rewrite (Hs r). destruct (matches_filter_expr r (gm_filter meta)) as [[|]|] eqn:E; [|done|done]. cbn. f_equal.
  by eapply precomputes_sound.
Qed.

(** A query sent to the index of a ghost. *)
Lemma plan_scan_ghost order_by has_aggregates group_by has_limit anchored_fields name :
  router_inv ghosts router -> query_tuples query_filter = Some filters -> no_vacuous_match ->
  plan_scan filters order_by has_aggregates group_by has_limit query_filter anchored_fields router = FromGhost name ->
  exists meta, ghosts name = Some meta /\
    gm_aggregate meta = None /\ gm_projection meta = [] /\ answered_by meta (fun r => matches_filters r filters) /\
    (forall f descending, order_by = Some (f, descending) -> gm_order_by_field meta = f /\ gm_sort_inverted meta = descending /\ has_limit = true).
Proof.
  intros HI Hq Hv. unfold plan_scan. match goal with |- context [if ?b then Primary else _] => destruct b; [done|] end. set (relevant := List.filter _ (gr_ghosts router)).
  assert (forall name m, (name, m) ∈ relevant -> serves_records m = true -> exists meta, ghosts name = Some meta /\ routes meta m /\
    gm_aggregate meta = None /\ gm_projection meta = [] /\ answered_by meta (fun r => matches_filters r filters)) as Hserve.
  { clear name. intros name m Hin [[Ha%negb_true_iff _]%andb_prop Hp%negb_true_iff]%andb_prop. destruct (relevant_ghost _ _ HI Hq Hv Hin) as (meta & Hm & Hr & Hs).
    exists meta. rewrite (routes_aggregates _ _ Hr) in Ha. rewrite (routes_projection _ _ Hr) in Hp. unfold is_aggregate, has_projection in *.
    destruct (gm_aggregate meta), (gm_projection meta); done. }
  destruct (if has_aggregates then _ else None) as [[name' s]|]; [done|]. destruct order_by as [[f d]|].
  - destruct (List.find _ relevant) as [[name' m]|] eqn:Ef; [|done]. intros [= ->]. apply find_some in Ef as [Hin%list_elem_of_In Hc]. cbn in Hc.
    apply andb_prop in Hc as [[[Hl Ho%beqb_eq]%andb_prop Hd%Bool.eqb_prop]%andb_prop Hs]. destruct (Hserve _ _ Hin Hs) as (meta & H1 & Hr & H2 & H3 & H4).
    exists meta. split_and!; try done. intros f' d' [= <- <-]. by rewrite <- (routes_order _ _ Hr), <- (routes_inverted _ _ Hr).
  - destruct (List.find _ relevant) as [[name' m]|] eqn:Ef; [|done]. intros [= ->]. apply find_some in Ef as [Hin%list_elem_of_In Hs].
    destruct (Hserve _ _ Hin Hs) as (meta & H1 & Hr & H2 & H3 & H4). exists meta. by split_and!.
Qed.

(** A query sent to precomputed aggregates. *)
Lemma plan_scan_precomputed order_by has_aggregates group_by has_limit anchored_fields name :
  router_inv ghosts router -> query_tuples query_filter = Some filters -> no_vacuous_match ->
  plan_scan filters order_by has_aggregates group_by has_limit query_filter anchored_fields router = GhostPreComputed name ->
  has_aggregates = true /\ exists meta, ghosts name = Some meta /\ is_Some (gm_aggregate meta) /\ group_fields meta = group_by /\
    answered_by meta (fun r => matches_filters r (List.filter (is_group_eq group_by) filters)).
Proof.
  intros HI Hq Hv. unfold plan_scan. match goal with |- context [if ?b then Primary else _] => destruct b; [done|] end. set (relevant := List.filter _ (gr_ghosts router)).
  destruct (if has_aggregates then _ else None) as [[name' s]|] eqn:Eb.
  2: { destruct order_by as [[f d]|]; [destruct (List.find _ relevant) as [[? ?]|]; done|]. destruct (List.find _ relevant) as [[? ?]|]; done. }
  intros [= ->]. destruct has_aggregates; [|done]. split; [done|]. apply best_ghost_elem in Eb as [|[m Hm]]; [done|]. apply list_elem_of_In, filter_In in Hm as [Hin Hp]. cbn in Hp.
  apply list_elem_of_In in Hin. destruct (precomputing_ghost _ _ _ HI Hq Hv Hin Hp) as (meta & H1 & H2 & H3 & H4). exists meta.
  unfold is_aggregate in H2. destruct (gm_aggregate meta); [|done]. split; [done|]. split; [by eexists|]. done.
Qed.

(** The router's entry of the ghost says that it is ready. *)
Definition ready (name : bytes) : Prop := exists m, (name, m) ∈ gr_ghosts router /\ rm_state_ready m = true.

Lemma relevant_ready name m : (name, m) ∈ List.filter (fun nm => is_relevant filters query_filter nm.2) (gr_ghosts router) -> ready name.
Proof.
  intros [Hin Hr]%list_elem_of_In%filter_In. exists m. split; [by apply list_elem_of_In|]. cbn in Hr. unfold is_relevant in Hr. by destruct (rm_state_ready m).
Qed.

(** Whatever ghost is chosen is ready. *)
Lemma plan_scan_ready order_by has_aggregates group_by has_limit anchored_fields :
  match plan_scan filters order_by has_aggregates group_by has_limit query_filter anchored_fields router with
  | Primary => True
  | FromGhost name | GhostPreComputed name => ready name
  end.
Proof.
  unfold plan_scan. match goal with |- context [if ?b then Primary else _] => destruct b; [done|] end. set (relevant := List.filter _ (gr_ghosts router)).
  destruct (if has_aggregates then _ else None) as [[name s]|] eqn:Eb.
  - destruct has_aggregates; [|done]. apply best_ghost_elem in Eb as [|[m Hm]]; [done|]. apply list_elem_of_In, filter_In in Hm as [Hin _].
    apply list_elem_of_In in Hin. by eapply relevant_ready.
  - destruct order_by as [[f d]|]; (destruct (List.find _ relevant) as [[name m]|] eqn:Ef; [|done]); apply find_some in Ef as [Hin%list_elem_of_In _]; by eapply relevant_ready.
Qed.

(** C20: the router sends a query only to a ghost that answers it. In a router that
    describes its ghosts, for a query that is a conjunction (or when no ghost is without a
    filter): a query with an [=] on an anchored field goes to the records; a ghost that a
    query is sent to is one whose entry says it is ready; one sent to the index of a ghost
    wants exactly the records of the ghost that satisfy its predicates, in the ghost's order
    if it wants an order, and the ghost stores whole records; one sent to precomputed
    aggregates has the groups of the ghost, and wants exactly the records of the ghost that
    satisfy its [=] predicates on the group fields, which, where they compare exactly, is
    what the selection of groups by their keys gives it. *)
Theorem plan_scan_sound order_by has_aggregates group_by has_limit anchored_fields :
  router_inv ghosts router -> query_tuples query_filter = Some filters -> no_vacuous_match ->
  match plan_scan filters order_by has_aggregates group_by has_limit query_filter anchored_fields router with
  | Primary => True
  | FromGhost name => ready name /\ exists meta, ghosts name = Some meta /\
    gm_aggregate meta = None /\ gm_projection meta = [] /\ answered_by meta (fun r => matches_filters r filters) /\
    (forall f descending, order_by = Some (f, descending) -> gm_order_by_field meta = f /\ gm_sort_inverted meta = descending /\ has_limit = true)
  | GhostPreComputed name => ready name /\ exists meta, ghosts name = Some meta /\
    has_aggregates = true /\ is_Some (gm_aggregate meta) /\ group_fields meta = group_by /\
    answered_by meta (fun r => matches_filters r (List.filter (is_group_eq group_by) filters)) /\
    (forall r, pins_exact filters group_by r ->
      record_matches_opt_expr r query_filter = Some true <-> matches_filter_expr r (gm_filter meta) = Some true /\ satisfies filters group_by r)
  end /\
  (forall anchored f v, anchored_fields = Some anchored -> f ∈ anchored -> (f, Eq_, v) ∈ filters ->
    plan_scan filters order_by has_aggregates group_by has_limit query_filter anchored_fields router = Primary).
Proof.
  intros HI Hq Hv. split.
  2: { intros anchored f v -> Hf Hin. unfold plan_scan. match goal with |- (if ?b then _ else _) = _ => assert (b = true) as -> end; [|done].
    apply existsb_exists. exists (f, Eq_, v). split; [by apply list_elem_of_In|]. apply existsb_exists. exists f. split; [by apply list_elem_of_In|apply beqb_refl]. }
  pose proof (plan_scan_ready order_by has_aggregates group_by has_limit anchored_fields) as Hready.
  destruct (plan_scan _ _ _ _ _ _ _ _) as [|name|name] eqn:E; [done|split; [done|by eapply plan_scan_ghost]|]. split; [done|].
  destruct (plan_scan_precomputed _ _ _ _ _ _ HI Hq Hv E) as (Ha & meta & H1 & H2 & H3 & H4). exists meta. split_and!; try done.
  intros r Hpe. rewrite <- (pins_satisfies _ _ _ Hpe), (H4 r).
  destruct (matches_filter_expr r (gm_filter meta)) as [[|]|], (matches_filters r (List.filter _ _)); cbn; naive_solver.
Qed.
End routing.

(** ** Example *)

Definition open_filter : FilterExpr := Condition (mkFilter (str "status") Eq_ (LText (str "open"))).
Definition acme_filter : FilterExpr := And [open_filter; Condition (mkFilter (str "tenant") Eq_ (LText (str "acme")))].
Definition open_by_tenant : GhostMeta :=
  mkGhost 1 open_filter (str "seq") false 1 0
    (Some (mkContent [mkMetric [] AggCount COUNT_LABEL None None] AggregateState_default (Grouped [str "tenant"]) (InRam []))) [] 0 None false.
Definition all_by_seq : GhostMeta := mkGhost 2 (And []) (str "seq") false 1 0 None [] 0 None false.
Definition sample_ghosts (n : bytes) : option GhostMeta :=
  if beqb n (str "by_tenant") then Some open_by_tenant else if beqb n (str "by_seq") then Some all_by_seq else None.

Definition sample_router : option GhostRouter :=
  register_ghost_in_router (fun _ => []) (str "by_seq") all_by_seq GhostRouter_new ≫=
  register_ghost_in_router (fun _ => []) (str "by_tenant") open_by_tenant.

Lemma sample_router_inv router : sample_router = Some router -> router_inv sample_ghosts router.
Proof.
  unfold sample_router. intros (r1 & E1 & E)%bind_Some. eapply router_inv_register in E1; [|by constructor].
  eapply router_inv_register in E; [|exact E1]. exact E.
Qed.

Lemma plan_scan_sound_witness :
  exists router filters, sample_router = Some router /\ query_tuples (Some acme_filter) = Some filters /\
    plan_scan filters None true [str "tenant"] false (Some acme_filter) None router = GhostPreComputed (str "by_tenant") /\
    plan_scan filters (Some (str "seq", false)) false [] true (Some acme_filter) (Some [str "id"]) router = FromGhost (str "by_seq") /\
    (exists meta, sample_ghosts (str "by_tenant") = Some meta /\
      forall r, pins_exact filters [str "tenant"] r ->
        record_matches_opt_expr r (Some acme_filter) = Some true <->
        matches_filter_expr r (gm_filter meta) = Some true /\ satisfies filters [str "tenant"] r).
Proof.
  destruct sample_router as [router|] eqn:E; [|by vm_compute in E]. exists router.
  destruct (query_tuples (Some acme_filter)) as [filters|] eqn:Eq; [|by vm_compute in Eq]. exists filters.
  assert (plan_scan filters None true [str "tenant"] false (Some acme_filter) None router = GhostPreComputed (str "by_tenant")) as Ep.
  { vm_compute in E, Eq. injection E as <-. injection Eq as <-. vm_compute. reflexivity. }
  split; [done|]. split; [done|]. split; [exact Ep|]. split.
  { vm_compute in E, Eq. injection E as <-. injection Eq as <-. vm_compute. reflexivity. }
  assert (no_vacuous_match router (Some acme_filter)) as Hv by (left; by eexists).
  pose proof (plan_scan_sound sample_ghosts router (Some acme_filter) filters None true [str "tenant"] false None
    (sample_router_inv _ E) Eq Hv) as [H _].
  rewrite Ep in H. destruct H as (_ & meta & Hm & _ & _ & _ & _ & H). eauto.
Defined.

(** A disjunction hands the router no predicates, and a ghost without a filter, whose
    predicates are all among them, is taken: its reader has nothing to apply. *)
Definition either_filter : FilterExpr := Or [open_filter; Condition (mkFilter (str "tenant") Eq_ (LText (str "acme")))].

Lemma disjunction_unfiltered :
  exists router, sample_router = Some router /\ query_tuples (Some either_filter) = Some [] /\
    plan_scan [] None false [] true (Some either_filter) None router = FromGhost (str "by_seq") /\
    record_matches_opt_expr [(str "status", Text (str "closed"))] (Some either_filter) = Some false /\
    matches_filter_expr [(str "status", Text (str "closed"))] (gm_filter all_by_seq) = Some true /\
    matches_filters [(str "status", Text (str "closed"))] [] = true.
Proof.
  destruct sample_router as [router|] eqn:E; [|by vm_compute in E]. exists router. vm_compute in E. injection E as <-. by vm_compute.
Qed.
