(* ===== verification/Scan.v ===== *)
(** * Scans of a lobe (engine/src/ops/scan.rs, cursor.rs, [read_topn] of ghost/read.rs)

    A scan takes one of several ways to its records: page by page through the lobe,
    through the bucket its predicates pin, through the index of a ghost, and keeps, if
    it is ordered, the first records in a heap. This file has the ways and the choice
    between them; the telemetry and the access counts of ghosts are left out. *)

From S2P Require Import Prelude ByteOrder BTree Types Block Tree Value FieldDict Lid Filters FilterEq.
From S2P Require Import Record SpatialKey SortEncoding Aggregate GroupKey Rollup Ghost Gravity Router.

(** ** Outcomes: a value, an error, a panic *)

Inductive Out (A : Type) := Done (a : A) | Failed (e : XyzError) | Panicked.
Arguments Done {A} _.
Arguments Failed {A} _.
Arguments Panicked {A}.

#[export] Instance Out_ret : MRet Out := fun _ a => Done a.
#[export] Instance Out_bind : MBind Out := fun _ _ f m => match m with Done a => f a | Failed e => Failed e | Panicked => Panicked end.

Definition or_panic {A} (o : option A) : Out A := match o with Some a => Done a | None => Panicked end.

(** ** Trees as scans use them *)

Class Reads (D : Type) := {
  rd_prefix_iter : D -> bytes -> Result (list (bytes * bytes));
  rd_range_stream : D -> bytes -> bytes -> Result (list (bytes * bytes));
  rd_range_iter : D -> bytes -> option bytes -> Result (list (bytes * bytes));
  rd_get : D -> bytes -> Result (option bytes);
  (** [Display] of the errors *)
  rd_display : Error -> string;
}.

(** [BinaryHeap<T>] with an ordering of its elements. *)
Class SortHeap := {
  sheap : Type -> Type;
  sheap_new : forall {A}, sheap A;
  sheap_push : forall {A}, (A -> A -> comparison) -> A -> sheap A -> sheap A;
  sheap_pop : forall {A}, (A -> A -> comparison) -> sheap A -> option A * sheap A;
  sheap_into_sorted_vec : forall {A}, (A -> A -> comparison) -> sheap A -> list A;
  sheap_len : forall {A}, sheap A -> Z;
}.

(** The token of a cursor: [postcard] and [base64]. *)
Record CursorPayload := mkCursor { cp_format_ver : Z; cp_lobe_id : Z; cp_last_spatial_key : bytes; cp_filter_checksum : Z }.

Class CursorText := {
  cursor_to_text : CursorPayload -> option bytes;
  cursor_of_base64 : bytes -> option bytes;
  cursor_of_postcard : bytes -> option CursorPayload;
  (** [{:?}] of an optional filter *)
  debug_filter_expr : option FilterExpr -> bytes;
}.

Definition SCAN_LIMIT_DEFAULT : Z := 1000.
Definition SCAN_LIMIT_HARD_MAX : Z := 10000.
Definition BUDGET_CHECK_STRIDE : Z := 1024.
Definition CURSOR_FORMAT_V2 : Z := 2.

Record OrderBy := mkOrderBy { ob_field : bytes; ob_descending : bool }.
Record ScanStmt := mkScan {
  st_lobe : bytes;
  st_filter_expr : option FilterExpr;
  st_order_by : option OrderBy;
  st_limit : option Z;
  st_cursor : option bytes;
}.

(** The results a scan can have; the other variants belong to other statements. *)
Inductive QueryResult :=
  | Records (records : list XRecord)
  | PaginatedRecords (records : list XRecord) (cursor : option bytes) (has_more : bool).

Inductive ScanCap := Capped | NearestUncapped (budget_ms : Z).

(** What of the engine a scan uses. *)
Record ScanEngine (D : Type) := mkScanEngine {
  se_spatial : D;
  se_vectors : D;
  se_ghost_ks : option D;
  se_lobes : BTreeMap bytes Z;
  se_dicts : BTreeMap Z FieldDict;
  se_gravity : BTreeMap bytes GravitySpec;
  se_satellites : BTreeMap bytes SatelliteSpec;
  se_anchors : BTreeMap bytes (list bytes);
  se_ghosts : BTreeMap bytes (GhostMeta * bytes);
  se_routers : BTreeMap Z GhostRouter;
}.
Arguments mkScanEngine {D} _ _ _ _ _ _ _ _ _ _.
Arguments se_spatial {D} _.
Arguments se_vectors {D} _.
Arguments se_ghost_ks {D} _.
Arguments se_lobes {D} _.
Arguments se_dicts {D} _.
Arguments se_gravity {D} _.
Arguments se_satellites {D} _.
Arguments se_anchors {D} _.
Arguments se_ghosts {D} _.
Arguments se_routers {D} _.

Definition set_routers {D} (r : BTreeMap Z GhostRouter) (e : ScanEngine D) : ScanEngine D :=
  mkScanEngine (se_spatial e) (se_vectors e) (se_ghost_ks e) (se_lobes e) (se_dicts e) (se_gravity e) (se_satellites e) (se_anchors e) (se_ghosts e) r.

(** [lobe_name_for_id] *)
Definition lobe_name_for_id {D} (e : ScanEngine D) (id : Z) : bytes :=
  match List.find (fun kv => kv.2 =? id) (se_lobes e) with Some (name, _) => name | None => [] end.

Definition validate_scan_limit_cap (stmt : ScanStmt) : Out unit :=
  match st_limit stmt with
  | Some l => if SCAN_LIMIT_HARD_MAX <? l then Failed (InvalidQuery "LIMIT exceeds hard maximum") else Done tt
  | None => Done tt
  end.

Section scan.
Context {D : Type} {RD : Reads D} {SH : SortHeap} {XH : Xxh3} {CT : CursorText}.
Context {PC : Postcard} {VT : ValueText} {GT : GravityText} {VP : ValuePostcard}.

(** [.map_err(|e| XyzError::Storage(e.to_string()))] *)
Definition storage {A} (r : Result A) : Out A := match r with Ok a => Done a | Err e => Failed (Storage (rd_display e)) | Panic => Panicked end.

(** ** Records *)

Definition deserialize_hydrated_with (vectors : D) (spatial_key blob lobe_name : bytes) (fd : option FieldDict) : Out XRecord :=
  match deserialize_record blob lobe_name fd with
  | XErr e => Failed e
  | XOk record =>
    if format_version blob =? 5 then
      match fd with
      | Some dict =>
        match rd_get vectors spatial_key with
        | Ok (Some column) => Done (hydrate_vector record column dict).1
        | Ok None | Err _ => Done record
        | Panic => Panicked
        end
      | None => Done record
      end
    else Done record
  end.

(** Whether a row is in the result; the panic is a parameter that was never bound,
    which only a row that decodes reaches. *)
Definition row_record (vectors : D) (lobe_name : bytes) (fd : option FieldDict) (residual : bool) (filter_expr : option FilterExpr)
    (row : bytes * bytes) : Out (option XRecord) :=
  match deserialize_hydrated_with vectors row.1 row.2 lobe_name fd with
  | Failed _ => Done None
  | Panicked => Panicked
  | Done record =>
    if residual then
      matches ← or_panic (record_matches_opt_expr (fields record) filter_expr);
      Done (if matches : bool then Some record else None)
    else Done (Some record)
  end.

(** ** The plain loops *)

(** One record past the limit is read, dropped, and reported. [elapsed] is the clock
    after so many rows. *)
Fixpoint limit_loop (row_of : bytes * bytes -> Out (option XRecord)) (limit : option Z) (budget_ms : Z) (elapsed : Z -> Z)
    (rows : list (bytes * bytes)) (scanned : Z) (results : list XRecord) : Out (list XRecord * bool) :=
  match rows with
  | [] => Done (results, false)
  | row :: rows' =>
    let scanned := scanned + 1 in
    if (0 <? budget_ms) && (scanned mod BUDGET_CHECK_STRIDE =? 0) && (budget_ms <=? elapsed scanned)
    then Failed (NearestBudgetExceeded scanned budget_ms)
    else
      o ← row_of row;
      match o with
      | None => limit_loop row_of limit budget_ms elapsed rows' scanned results
      | Some record =>
        let results := results ++ [record] in
        match limit with
        | Some lim => if lim <? blen results then Done (take (Z.to_nat lim) results, true)
                      else limit_loop row_of limit budget_ms elapsed rows' scanned results
        | None => limit_loop row_of limit budget_ms elapsed rows' scanned results
        end
      end
  end.

(** The keys, and whether the predicates must be applied to what is found there:
    [residual_active] is always on outside of tests. *)
Definition resolve_gravity_scan_range (satellite : option SatelliteSpec) (residual_active : bool) (lobe_id gravity_hash : Z)
    (core_filters : list (bytes * FilterOp * Value)) : (bytes * bytes) * bool :=
  match detect_satellite_eq satellite core_filters with
  | Some sat => (prefix_for_satellite lobe_id gravity_hash sat, residual_active)
  | None => (prefix_for_gravity lobe_id gravity_hash, true)
  end.

Definition detect_gravity_eq (e : ScanEngine D) (lobe : bytes) (core_filters : list (bytes * FilterOp * Value)) : option Z :=
  match bt_get lobe (se_gravity e) with Some spec => pinned_gravity_hash spec core_filters | None => None end.

(** [convert_filter_expr] *)
Definition convert_filter_expr (filter_expr : option FilterExpr) : Out (list (bytes * FilterOp * Value)) :=
  or_panic (convert_filters (filter_expr_to_flat filter_expr)).

Definition scan_primary_gravity_indexed (e : ScanEngine D) (lobe_id gravity_hash : Z) (filter_expr : option FilterExpr) (limit : option Z)
    (budget_ms : Z) (elapsed : Z -> Z) : Out (list XRecord * bool) :=
  let lobe_name := lobe_name_for_id e lobe_id in
  core_filters ← convert_filter_expr filter_expr;
  let '((key_min, key_max), apply_residual) :=
    resolve_gravity_scan_range (bt_get lobe_name (se_satellites e)) true lobe_id gravity_hash core_filters in
  rows ← storage (rd_range_stream (se_spatial e) key_min key_max);
  limit_loop (row_record (se_vectors e) lobe_name (bt_get lobe_id (se_dicts e)) apply_residual filter_expr) limit budget_ms elapsed rows 0 [].

Definition scan_primary_full_expr (e : ScanEngine D) (lobe_id : Z) (filter_expr : option FilterExpr) (limit : option Z) : Out (list XRecord * bool) :=
  let lobe_name := lobe_name_for_id e lobe_id in
  rows ← storage (rd_prefix_iter (se_spatial e) (to_be_bytes 2 lobe_id));
  limit_loop (row_record (se_vectors e) lobe_name (bt_get lobe_id (se_dicts e)) true filter_expr) limit 0 (fun _ => 0) rows 0 [].

(** ** The ordered loops *)

Record HeapEntry := mkHeapEntry { he_record : XRecord; he_sort_val : option Value; he_invert : bool }.

Definition HeapEntry_cmp (a b : HeapEntry) : comparison :=
  let cmp := compare_values (he_sort_val a) (he_sort_val b) in
  if he_invert a then CompOpp cmp else cmp.

Fixpoint topn_loop (row_of : bytes * bytes -> Out (option XRecord)) (field : bytes) (descending : bool) (limit : Z)
    (rows : list (bytes * bytes)) (h : sheap HeapEntry) : Out (sheap HeapEntry) :=
  match rows with
  | [] => Done h
  | row :: rows' =>
    o ← row_of row;
    match o with
    | None => topn_loop row_of field descending limit rows' h
    | Some record =>
      let h := sheap_push HeapEntry_cmp (mkHeapEntry record (resolve_path (fields record) field) descending) h in
      topn_loop row_of field descending limit rows' (if limit <? sheap_len h then (sheap_pop HeapEntry_cmp h).2 else h)
    end
  end.

Definition topn_of (row_of : bytes * bytes -> Out (option XRecord)) (field : bytes) (descending : bool) (limit : Z) (rows : list (bytes * bytes)) : Out (list XRecord) :=
  h ← topn_loop row_of field descending limit rows sheap_new;
  Done (he_record <$> sheap_into_sorted_vec HeapEntry_cmp h).

Definition scan_primary_gravity_indexed_topn (e : ScanEngine D) (lobe_id gravity_hash : Z) (filter_expr : option FilterExpr)
    (field : bytes) (descending : bool) (limit : Z) : Out (list XRecord) :=
  let lobe_name := lobe_name_for_id e lobe_id in
  core_filters ← convert_filter_expr filter_expr;
  let '((key_min, key_max), apply_residual) :=
    resolve_gravity_scan_range (bt_get lobe_name (se_satellites e)) true lobe_id gravity_hash core_filters in
  rows ← storage (rd_range_stream (se_spatial e) key_min key_max);
  topn_of (row_record (se_vectors e) lobe_name (bt_get lobe_id (se_dicts e)) apply_residual filter_expr) field descending limit rows.

Definition scan_primary_topn_expr (e : ScanEngine D) (lobe_id : Z) (filter_expr : option FilterExpr)
    (field : bytes) (descending : bool) (limit : Z) : Out (list XRecord) :=
  let lobe_name := lobe_name_for_id e lobe_id in
  rows ← storage (rd_prefix_iter (se_spatial e) (to_be_bytes 2 lobe_id));
  topn_of (row_record (se_vectors e) lobe_name (bt_get lobe_id (se_dicts e)) true filter_expr) field descending limit rows.

(** ** Pages *)

Record PaginatedScanOutput := mkPage { pg_records : list XRecord; pg_tail_key : option bytes; pg_has_more : bool }.

Definition u64_saturating_add (a b : Z) : Z := Z.min (a + b) (2 ^ 64 - 1).

(** The loop over [consume]. *)
Fixpoint page_loop (row_of : bytes * bytes -> Out (option XRecord)) (effective_limit : Z) (rows : list (bytes * bytes)) (pg : PaginatedScanOutput)
    : Out PaginatedScanOutput :=
  match rows with
  | [] => Done pg
  | row :: rows' =>
    o ← row_of row;
    match o with
    | None => page_loop row_of effective_limit rows' pg
    | Some record =>
      let records := pg_records pg ++ [record] in
      let len := blen records in
      let tail := if (len <=? effective_limit) && (blen row.1 =? SPATIAL_KEY_SIZE) then Some row.1 else pg_tail_key pg in
      if u64_saturating_add effective_limit 1 <=? len
      then Done (mkPage (take (Z.to_nat effective_limit) records) tail true)
      else page_loop row_of effective_limit rows' (mkPage records tail (pg_has_more pg))
    end
  end.

Definition scan_primary_paginated (e : ScanEngine D) (lobe_id : Z) (filter_expr : option FilterExpr) (effective_limit : Z) (start_after : option bytes)
    : Out PaginatedScanOutput :=
  let lobe_name := lobe_name_for_id e lobe_id in
  rows ← match start_after with
         | Some cursor_key =>
           if 65535 <? lobe_id + 1 then Failed (Internal "lobe_id overflow on cursor end-bound")
           else storage (rd_range_stream (se_spatial e) (cursor_key ++ [0]) (to_be_bytes 2 (lobe_id + 1)))
         | None => storage (rd_prefix_iter (se_spatial e) (to_be_bytes 2 lobe_id))
         end;
  page_loop (row_record (se_vectors e) lobe_name (bt_get lobe_id (se_dicts e)) true filter_expr) effective_limit rows (mkPage [] None false).

(** ** Cursors *)

Definition filter_checksum (filter_expr : option FilterExpr) : Z := xxh3_64 (debug_filter_expr filter_expr).

Definition encode_cursor (payload : CursorPayload) : Out bytes :=
  match cursor_to_text payload with Some t => Done t | None => Failed (Internal "cursor encode failed") end.

Definition decode_cursor (token : bytes) : Out CursorPayload :=
  match cursor_of_base64 token with
  | None => Failed (InvalidQuery "cursor invalid: base64 decode")
  | Some bs =>
    match cursor_of_postcard bs with
    | None => Failed (InvalidQuery "cursor invalid: postcard decode")
    | Some payload =>
      if cp_format_ver payload =? CURSOR_FORMAT_V2 then Done payload
      else Failed (InvalidQuery "cursor invalid: unsupported format version")
    end
  end.

(** The token of the page after this one. *)
Definition next_cursor (lobe_id checksum : Z) (out : PaginatedScanOutput) : Out (option bytes) :=
  if pg_has_more out then
    match pg_tail_key out with
    | None => Failed (Internal "has_more without page tail")
    | Some tail => t ← encode_cursor (mkCursor CURSOR_FORMAT_V2 lobe_id tail checksum); Done (Some t)
    end
  else Done None.

Definition execute_cursor_scan (e : ScanEngine D) (stmt : ScanStmt) (token : bytes) : Out QueryResult :=
  payload ← decode_cursor token;
  match bt_get (st_lobe stmt) (se_lobes e) with
  | None => Failed (LobeNotFound (st_lobe stmt))
  | Some lobe_id =>
    if negb (cp_lobe_id payload =? lobe_id) then Failed (InvalidQuery "cursor invalid: token issued for another lobe")
    else
      let current_checksum := filter_checksum (st_filter_expr stmt) in
      if negb (current_checksum =? cp_filter_checksum payload) then Failed (InvalidQuery "cursor invalid: WHERE clause does not match the cursor's binding")
      else
        let effective_limit := default SCAN_LIMIT_DEFAULT (st_limit stmt) in
        out ← scan_primary_paginated e lobe_id (st_filter_expr stmt) effective_limit (Some (cp_last_spatial_key payload));
        cursor ← next_cursor lobe_id current_checksum out;
        Done (PaginatedRecords (pg_records out) cursor (pg_has_more out))
  end.
(** ** Ghosts *)

(** The record of an entry of the index: what the entry embeds, or the record itself. *)
Definition ghost_record (e : ScanEngine D) (meta : GhostMeta) (source_lobe : bytes) (fd : option FieldDict) (row : bytes * bytes) : Out (option XRecord) :=
  if has_projection meta then Done (decode_ghost_projection row.2 SPATIAL_KEY_SIZE source_lobe)
  else
    let spatial_key := take (Z.to_nat SPATIAL_KEY_SIZE) row.2 in
    if blen spatial_key <? SPATIAL_KEY_SIZE then Done None
    else
      match rd_get (se_spatial e) spatial_key with
      | Ok (Some blob) =>
        match deserialize_hydrated_with (se_vectors e) spatial_key blob source_lobe fd with
        | Done r => Done (Some r)
        | Failed _ => Done None
        | Panicked => Panicked
        end
      | Ok None | Err _ => Done None
      | Panic => Panicked
      end.

Fixpoint ghost_loop (record_of : bytes * bytes -> Out (option XRecord)) (keep : XRecord -> bool) (n : Z) (rows : list (bytes * bytes))
    (results : list XRecord) : Out (list XRecord) :=
  match rows with
  | [] => Done results
  | row :: rows' =>
    if n <=? blen results then Done results
    else
      o ← record_of row;
      match o with
      | None => ghost_loop record_of keep n rows' results
      | Some record => ghost_loop record_of keep n rows' (if keep record then results ++ [record] else results)
      end
  end.

Definition window_rows (ks : D) (w : Window) : Result (list (bytes * bytes)) :=
  match w with PrefixIter p => rd_prefix_iter ks p | RangeIter start end_ => rd_range_iter ks start end_ end.

Definition read_topn (e : ScanEngine D) (name : bytes) (n : Z) (extra_filters : list Filter) (fd : option FieldDict) : Out (list XRecord) :=
  match bt_get name (se_ghosts e) with
  | None => Failed (GhostNotFound name)
  | Some (meta, source_lobe) =>
    match se_ghost_ks e with
    | None => Failed (Internal "ghost keyspace not initialized")
    | Some ks =>
      core_filters ← or_panic (convert_filters extra_filters);
      rows ← storage (window_rows ks (seek_window (gm_ghost_id meta) (gm_sort_inverted meta) (is_grouped meta) (gm_order_by_field meta) core_filters));
      ghost_loop (ghost_record e meta source_lobe fd) (fun r => has_projection meta || matches_filters (fields r) core_filters) n rows []
    end
  end.

(** ** The statement *)

(** The dead entry is dropped from the router. *)
Definition fallback_unregister_ghost (e : ScanEngine D) (lobe_id : Z) (ghost_name : bytes) : ScanEngine D :=
  match bt_get lobe_id (se_routers e) with
  | None => e
  | Some router => set_routers (bt_insert lobe_id (unregister_ghost ghost_name router) (se_routers e)) e
  end.

Definition route (e : ScanEngine D) (lobe_id : Z) (stmt : ScanStmt) (core_filters : list (bytes * FilterOp * Value)) : ScanSource :=
  match bt_get lobe_id (se_routers e) with
  | Some router =>
    if has_ghosts router then
      plan_scan core_filters ((fun o => (ob_field o, ob_descending o)) <$> st_order_by stmt) false []
        (match st_limit stmt with Some _ => true | None => false end) (st_filter_expr stmt)
        (Some (default [] (bt_get (lobe_name_for_id e lobe_id) (se_anchors e)))) router
    else Primary
  | None => Primary
  end.

(** The records themselves, in the two ways. *)
Definition scan_unordered (e : ScanEngine D) (lobe_id : Z) (stmt : ScanStmt) (core_filters : list (bytes * FilterOp * Value))
    (scan_limit gravity_limit : option Z) (gravity_budget : Z) (elapsed : Z -> Z) : Out (list XRecord * bool) :=
  match detect_gravity_eq e (st_lobe stmt) core_filters with
  | Some ghash => scan_primary_gravity_indexed e lobe_id ghash (st_filter_expr stmt) gravity_limit gravity_budget elapsed
  | None => scan_primary_full_expr e lobe_id (st_filter_expr stmt) scan_limit
  end.

Definition scan_ordered (e : ScanEngine D) (lobe_id : Z) (stmt : ScanStmt) (core_filters : list (bytes * FilterOp * Value)) (order : OrderBy) (limit : Z)
    : Out (list XRecord) :=
  match detect_gravity_eq e (st_lobe stmt) core_filters with
  | Some ghash => scan_primary_gravity_indexed_topn e lobe_id ghash (st_filter_expr stmt) (ob_field order) (ob_descending order) limit
  | None => scan_primary_topn_expr e lobe_id (st_filter_expr stmt) (ob_field order) (ob_descending order) limit
  end.

(** One page of the lobe, with the token of the next. *)
Definition first_page (e : ScanEngine D) (lobe_id : Z) (stmt : ScanStmt) (effective_limit : Z) : Out (list XRecord * option bytes * bool) :=
  out ← scan_primary_paginated e lobe_id (st_filter_expr stmt) effective_limit None;
  cursor ← next_cursor lobe_id (filter_checksum (st_filter_expr stmt)) out;
  Done (pg_records out, cursor, pg_has_more out).

(** Truncation is reported for the scans of users only. *)
Definition signal (cap : ScanCap) (records : list XRecord) (truncated : bool) : QueryResult :=
  match cap, truncated with Capped, true => PaginatedRecords records None true | _, _ => Records records end.

Definition finish (e : ScanEngine D) (cap : ScanCap) (r : Out (list XRecord * bool)) : ScanEngine D * Out QueryResult :=
  (e, '(records, truncated) ← r; Done (signal cap records truncated)).

Definition execute_scan_source (e : ScanEngine D) (lobe_id : Z) (stmt : ScanStmt) (cap : ScanCap) (elapsed : Z -> Z)
    (scan_limit : option Z) (core_filters : list (bytes * FilterOp * Value)) : ScanEngine D * Out QueryResult :=
  let flat_filters := filter_expr_to_flat (st_filter_expr stmt) in
  let fd := bt_get lobe_id (se_dicts e) in
  let '(gravity_limit, gravity_budget) :=
    match cap with
    | Capped => (scan_limit, 0)
    | NearestUncapped budget_ms => (match st_limit stmt with Some _ => scan_limit | None => None end, budget_ms)
    end in
  match route e lobe_id stmt core_filters, st_order_by stmt with
  | FromGhost ghost_name, Some order =>
    let limit := default 100 (st_limit stmt) in
    match read_topn e ghost_name limit flat_filters fd with
    | Done recs => (e, Done (Records recs))
    | Failed (GhostNotFound name) =>
      let e := fallback_unregister_ghost e lobe_id name in
      (e, recs ← scan_ordered e lobe_id stmt core_filters order limit; Done (Records recs))
    | Failed other => (e, Failed other)
    | Panicked => (e, Panicked)
    end
  | FromGhost ghost_name, None =>
    let probe := match scan_limit with Some l => u64_saturating_add l 1 | None => 2 ^ 64 - 1 end in
    match read_topn e ghost_name probe flat_filters fd with
    | Done r =>
      finish e cap (Done (match scan_limit with
                          | Some lim => if lim <? blen r then (take (Z.to_nat lim) r, true) else (r, false)
                          | None => (r, false)
                          end))
    | Failed (GhostNotFound name) =>
      let e := fallback_unregister_ghost e lobe_id name in
      finish e cap (scan_unordered e lobe_id stmt core_filters scan_limit gravity_limit gravity_budget elapsed)
    | Failed other => (e, Failed other)
    | Panicked => (e, Panicked)
    end
  | GhostPreComputed _, _ => finish e cap (scan_unordered e lobe_id stmt core_filters scan_limit gravity_limit gravity_budget elapsed)
  | Primary, Some order =>
    match st_limit stmt with
    | Some limit => (e, recs ← scan_ordered e lobe_id stmt core_filters order limit; Done (Records recs))
    | None => (e, Panicked)
    end
  | Primary, None =>
    match detect_gravity_eq e (st_lobe stmt) core_filters with
    | Some ghash => finish e cap (scan_primary_gravity_indexed e lobe_id ghash (st_filter_expr stmt) gravity_limit gravity_budget elapsed)
    | None =>
      (e, '(records, cursor, has_more) ← first_page e lobe_id stmt (default SCAN_LIMIT_DEFAULT scan_limit);
          Done (if has_more : bool then PaginatedRecords records cursor true else Records records))
    end
  end.

Definition execute_scan_inner (e : ScanEngine D) (stmt : ScanStmt) (cap : ScanCap) (elapsed : Z -> Z) : ScanEngine D * Out QueryResult :=
  match validate_scan_limit_cap stmt, st_cursor stmt, st_order_by stmt with
  | Failed err, _, _ => (e, Failed err)
  | Panicked, _, _ => (e, Panicked)
  | Done _, Some _, Some _ => (e, Failed (InvalidQuery "CURSOR with ORDER BY is not supported"))
  | Done _, Some token, None => (e, execute_cursor_scan e stmt token)
  | Done _, None, order_by =>
    match order_by, st_limit stmt with
    | Some _, None => (e, Failed (InvalidQuery "ORDER BY requires LIMIT"))
    | _, limit =>
      let scan_limit := match order_by, limit with Some _, _ => None | None, Some l => Some l | None, None => Some SCAN_LIMIT_DEFAULT end in
      match bt_get (st_lobe stmt) (se_lobes e) with
      | None => (e, Failed (LobeNotFound (st_lobe stmt)))
      | Some lobe_id =>
        match convert_filter_expr (st_filter_expr stmt) with
        | Done core_filters => execute_scan_source e lobe_id stmt cap elapsed scan_limit core_filters
        | Failed err => (e, Failed err)
        | Panicked => (e, Panicked)
        end
      end
    end
  end.

Definition execute_scan (e : ScanEngine D) (stmt : ScanStmt) (elapsed : Z -> Z) : ScanEngine D * Out QueryResult := execute_scan_inner e stmt Capped elapsed.
Definition execute_scan_for_nearest (e : ScanEngine D) (stmt : ScanStmt) (budget_ms : Z) (elapsed : Z -> Z) : ScanEngine D * Out QueryResult :=
  execute_scan_inner e stmt (NearestUncapped budget_ms) elapsed.

End scan.
