(* ===== verification/ScanPages.v ===== *)
(** * Reading a lobe page by page

    What scans rely on of the trees, the loops of ops/scan.rs as operations on the
    list of matching records, and cursors: a client that follows them sees the lobe
    once. *)

From S2P Require Import Prelude ByteOrder BTree Types Block Tree TreeReads SpatialScan Value FieldDict Lid Filters FilterEq.
From S2P Require Import Record SpatialKey SortEncoding Aggregate GroupKey Rollup Ghost Gravity Router Scan.

(** ** What trees promise *)

Definition row_get (k : bytes) (rows : list (bytes * bytes)) : option bytes := snd <$> List.find (fun kv => beqb kv.1 k) rows.

(** Reads of a tree show its rows, in the order of the keys. *)
Class ReadsLaws (D : Type) {RD : Reads D} := {
  rd_ok : D -> Prop;
  rd_rows : D -> list (bytes * bytes);
  rd_sorted d : rd_ok d -> StronglySorted row_lt (rd_rows d);
  rd_prefix_spec d p : rd_ok d -> is_bytes p -> rd_prefix_iter d p = Ok (List.filter (fun kv => starts_with kv.1 p) (rd_rows d));
  rd_range_spec d lo hi : rd_ok d -> rd_range_stream d lo hi = Ok (List.filter (fun kv => in_closed lo hi kv.1) (rd_rows d));
  rd_range_iter_spec d lo hi : rd_ok d -> rd_range_iter d lo hi = Ok (List.filter (fun kv => in_half_open lo hi kv.1) (rd_rows d));
  rd_get_spec d k : rd_ok d -> rd_get d k = Ok (row_get k (rd_rows d));
}.

(** ** Filters and sorted rows *)

Lemma filter_filter {A} (f g : A -> bool) l : List.filter f (List.filter g l) = List.filter (fun x => f x && g x) l.
Proof. induction l as [|x l IH]; [done|]. cbn. destruct (g x); cbn; destruct (f x); cbn; by rewrite IH. Qed.

Lemma filter_ext_in {A} (f g : A -> bool) l : (forall x, x ∈ l -> f x = g x) -> List.filter f l = List.filter g l.
Proof.
  induction l as [|x l IH]; intros H; [done|]. cbn. rewrite (H x) by left. rewrite IH; [done|]. intros y Hy. apply H. by right.
Qed.

Lemma elem_of_lfilter {A} (f : A -> bool) l x : x ∈ List.filter f l <-> x ∈ l /\ f x = true.
Proof. by rewrite !list_elem_of_In, filter_In. Qed.

Lemma sorted_lfilter {A} (R : A -> A -> Prop) (f : A -> bool) l : StronglySorted R l -> StronglySorted R (List.filter f l).
Proof.
  induction 1 as [|x l _ IH Hx]; [constructor|]. cbn. destruct (f x); [|done]. constructor; [done|]. rewrite Forall_forall in *.
  intros y [Hy _]%elem_of_lfilter. auto.
Qed.

Lemma row_get_elem k v rows : StronglySorted row_lt rows -> (k, v) ∈ rows -> row_get k rows = Some v.
Proof.
  intros Hs Hin. unfold row_get. induction Hs as [|[k' v'] rows _ IH Hrow]; [by apply elem_of_nil in Hin|]. cbn [List.find fst].
  apply elem_of_cons in Hin as [[= -> ->]|Hin]; [by rewrite beqb_refl|]. destruct (beqb k' k) eqn:E; [|auto].
  apply beqb_eq in E as ->. rewrite Forall_forall in Hrow. specialize (Hrow _ Hin). unfold row_lt, blt in Hrow. by rewrite bcmp_refl in Hrow.
Qed.

(** The least key after a key. *)
Lemma key_after k key : is_bytes key -> bleb (k ++ [0]) key = bltb k key.
Proof.
  intros Hb. unfold bleb, bltb. revert k. induction Hb as [|x key Hx _ IH]; intros [|y k]; try done.
  - cbn [app]. rewrite bcmp_cons. cbn [bcmp]. destruct (Z.compare_spec 0 x); cbn; [by destruct key|done|lia].
  - cbn [app]. rewrite !bcmp_cons. specialize (IH k). by destruct (y ?= x).
Qed.

(** The rows of a lobe, in a tree of spatial keys. *)
Definition spatial_row (row : bytes * bytes) : Prop := exists k, key_wf k /\ row.1 = to_bytes k.

Lemma lobe_prefix lobe k : is_uint 16 lobe -> key_wf k -> starts_with (to_bytes k) (to_be_bytes 2 lobe) = true <-> lobe_id k = lobe.
Proof.
  intros Hl Hk. rewrite starts_with_iff. unfold to_bytes. split.
  - intros [r E]. apply (f_equal (take 2)) in E. rewrite !take_app_length' in E by by rewrite length_to_be_bytes.
    apply (f_equal from_be_bytes) in E. destruct Hk as (Hk & _). by rewrite !(from_to_be_bytes_id 2 16) in E.
  - intros <-. eauto.
Qed.

Lemma lobe_end lobe k : is_uint 16 (lobe + 1) -> key_wf k -> bleb (to_bytes k) (to_be_bytes 2 (lobe + 1)) = (lobe_id k <=? lobe).
Proof.
  intros Hl (Hk & _). unfold bleb, to_bytes. rewrite <- (app_nil_r (to_be_bytes 2 (lobe + 1))), (bcmp_be 2) by done.
  match goal with |- context [bcmp ?b []] => assert (bcmp b [] = Gt) as -> end.
  { rewrite u48_be. destruct (to_be_bytes 6 (gravity_hash k)) eqn:E; [|done]. apply (f_equal length) in E. by rewrite length_to_be_bytes in E. }
  destruct (Z.compare_spec (lobe_id k) (lobe + 1)); cbn; symmetry; [apply Z.leb_gt|apply Z.leb_le|apply Z.leb_gt]; lia.
Qed.

Lemma lobe_order k k' : key_wf k -> key_wf k' -> (to_bytes k < to_bytes k')%bytes -> lobe_id k <= lobe_id k'.
Proof.
  intros Hk Hk' H. unfold blt in H. rewrite to_bytes_order in H by done. unfold key_compare in H.
  destruct (Z.compare_spec (lobe_id k) (lobe_id k')); [lia|lia|done].
Qed.

(** The rows after a key of the lobe, up to the next lobe, are those of the lobe. *)
Lemma resume_rows rows lobe k :
  is_uint 16 lobe -> is_uint 16 (lobe + 1) -> Forall spatial_row rows -> key_wf k -> lobe_id k = lobe ->
  List.filter (fun kv => in_closed (to_bytes k ++ [0]) (to_be_bytes 2 (lobe + 1)) kv.1) rows =
  List.filter (fun kv => bltb (to_bytes k) kv.1) (List.filter (fun kv => starts_with kv.1 (to_be_bytes 2 lobe)) rows).
Proof.
  intros Hl Hl1 Hs Hk Ek. rewrite filter_filter. apply filter_ext_in. intros [key v] Hin. cbn. rewrite Forall_forall in Hs.
  destruct (Hs _ Hin) as (k' & Hk' & E). cbn in E. subst key. unfold in_closed. rewrite key_after by apply to_bytes_is_bytes.
  destruct (bltb (to_bytes k) (to_bytes k')) eqn:Eb; [|done]. cbn. rewrite lobe_end by done.
  assert (lobe <= lobe_id k') as Hle by (rewrite <- Ek; apply lobe_order; [done..|by apply bltb_lt]).
  apply Bool.eq_iff_eq_true. rewrite (lobe_prefix lobe k' Hl Hk'), Z.leb_le. lia.
Qed.

(** ** The loops *)

Section loops.
Context (row_of : bytes * bytes -> Out (option XRecord)).

(** No row panics. *)
Definition total (rows : list (bytes * bytes)) : Prop := Forall (fun row => exists o, row_of row = Done o) rows.

(** The matching records, with their keys. *)
Definition hit (row : bytes * bytes) : option (bytes * XRecord) := match row_of row with Done (Some r) => Some (row.1, r) | _ => None end.
Definition hits (rows : list (bytes * bytes)) : list (bytes * XRecord) := omap hit rows.

Lemma hits_cons row rows : hits (row :: rows) = match hit row with Some h => h :: hits rows | None => hits rows end.
Proof. done. Qed.

Lemma hit_cases row : (exists o, row_of row = Done o) ->
  (row_of row = Done None /\ hit row = None) \/ exists r, row_of row = Done (Some r) /\ hit row = Some (row.1, r).
Proof. intros [[r|] E]; unfold hit; rewrite E; [right; eauto|by left]. Qed.

(** The first records up to the limit, and whether there are more. *)
Definition capped (limit : option Z) (l : list XRecord) : list XRecord * bool :=
  match limit with Some lim => if lim <? blen l then (take (Z.to_nat lim) l, true) else (l, false) | None => (l, false) end.

Lemma limit_loop_spec limit elapsed rows scanned acc :
  total rows -> (forall lim, limit = Some lim -> 0 <= lim /\ blen acc <= lim) ->
  limit_loop row_of limit 0 elapsed rows scanned acc = Done (capped limit (acc ++ (hits rows).*2)).
Proof.
  intros Ht. revert scanned acc. induction Ht as [|row rows Hrow _ IH]; intros scanned acc Hl; cbn [limit_loop].
  { cbn. rewrite app_nil_r. destruct limit as [lim|]; [|done]. cbn. destruct (Hl _ eq_refl). by rewrite (proj2 (Z.ltb_ge _ _)) by lia. }
  change (0 <? 0) with false. cbn [andb]. rewrite hits_cons. destruct (hit_cases row Hrow) as [[E ->]|(r & E & ->)]; rewrite E; cbn [mbind Out_bind].
  { by apply IH. }
  cbn [fmap list_fmap snd]. replace (acc ++ r :: (hits rows).*2) with ((acc ++ [r]) ++ (hits rows).*2) by by rewrite <- app_assoc.
  destruct limit as [lim|]; [|by apply IH]. destruct (Hl _ eq_refl) as [H0 Ha]. destruct (Z.ltb_spec lim (blen (acc ++ [r]))) as [Hlt|Hge].
  - unfold capped. rewrite blen_app. rewrite (proj2 (Z.ltb_lt _ _)) by (pose proof (blen_nonneg (hits rows).*2); lia). do 2 f_equal.
    rewrite blen_app in Hlt. change (blen [r]) with 1 in Hlt. unfold blen in *. rewrite <- app_assoc, !take_app_le by lia. done.
  - apply IH. intros l [= <-]. lia.
Qed.

(** A page: all the rest, or as many records as fit, up to the key of the last. *)
Definition last_key (l : list (bytes * XRecord)) (tail : option bytes) : option bytes := match last l.*1 with Some k => Some k | None => tail end.

Lemma last_key_cons h l tail : last_key (h :: l) tail = last_key l (Some h.1).
Proof.
  unfold last_key. destruct l as [|h' l]; [done|]. change (last (h :: h' :: l).*1) with (last (h' :: l).*1).
  destruct (last (h' :: l).*1) eqn:E; [done|]. by apply last_None in E.
Qed.

Lemma page_loop_spec limit rows acc tail :
  total rows -> Forall (fun row => blen row.1 = SPATIAL_KEY_SIZE) rows -> 0 <= limit < 2 ^ 64 - 1 -> blen acc <= limit ->
  (blen acc + blen (hits rows) <= limit /\
   page_loop row_of limit rows (mkPage acc tail false) = Done (mkPage (acc ++ (hits rows).*2) (last_key (hits rows) tail) false)) \/
  (exists h1 x h2, hits rows = h1 ++ x :: h2 /\ blen acc + blen h1 = limit /\
   page_loop row_of limit rows (mkPage acc tail false) = Done (mkPage (acc ++ h1.*2) (last_key h1 tail) true)).
Proof.
  intros Ht Hk Hl. revert acc tail. induction Ht as [|row rows Hrow _ IH]; intros acc tail Ha; cbn [page_loop].
  { left. change (hits []) with (@nil (bytes * XRecord)). cbn [fmap list_fmap]. rewrite app_nil_r, blen_nil. split; [lia|done]. }
  apply Forall_cons in Hk as [Hk Hks]. specialize (IH Hks). rewrite hits_cons.
  destruct (hit_cases row Hrow) as [[E ->]|(r & E & ->)]; rewrite E; cbn [mbind Out_bind]; [by apply IH|].
  cbn [pg_records pg_tail_key pg_has_more]. rewrite Hk, Z.eqb_refl, Bool.andb_true_r. rewrite blen_app. change (blen [r]) with 1.
  unfold u64_saturating_add. rewrite Z.min_l by lia. destruct (Z.leb_spec (limit + 1) (blen acc + 1)) as [Hfull|Hroom].
  - right. exists [], (row.1, r), (hits rows). split; [done|]. change (blen (@nil (bytes * XRecord))) with 0. split; [lia|].
    rewrite (proj2 (Z.leb_gt _ _)) by lia. cbn [fmap list_fmap]. rewrite app_nil_r. unfold blen in *. rewrite take_app_length' by lia. done.
  - rewrite (proj2 (Z.leb_le _ _)) by lia. destruct (IH (acc ++ [r]) (Some row.1)) as [[Hlen Heq]|(h1 & x & h2 & Hh & Hlen & Heq)].
    { rewrite blen_app. change (blen [r]) with 1. lia. }
    + left. rewrite blen_app in Hlen. change (blen [r]) with 1 in Hlen. rewrite blen_cons. split; [lia|]. rewrite Heq. rewrite <- app_assoc. by rewrite last_key_cons.
    + right. exists ((row.1, r) :: h1), x, h2. rewrite Hh. split; [done|]. rewrite blen_app in Hlen. change (blen [r]) with 1 in Hlen. rewrite blen_cons. split; [lia|].
      rewrite Heq. rewrite <- app_assoc. by rewrite last_key_cons.
Qed.

Lemma hits_filter (P : bytes -> bool) rows : hits (List.filter (fun kv => P kv.1) rows) = List.filter (fun h => P h.1) (hits rows).
Proof.
  induction rows as [|row rows IH]; [done|]. cbn [List.filter]. rewrite hits_cons. unfold hit at 1.
  destruct (P row.1) eqn:E; [rewrite hits_cons; unfold hit at 1|]; destruct (row_of row) as [[r|]| |]; cbn; rewrite ?E, IH; done.
Qed.

Lemma hits_elem h rows : h ∈ hits rows -> exists row, row ∈ rows /\ row.1 = h.1 /\ row_of row = Done (Some h.2).
Proof.
  unfold hits. rewrite list_elem_of_omap. intros (row & Hin & E). exists row. unfold hit in E. destruct (row_of row) as [[r|]| |]; try done.
  injection E as <-. done.
Qed.

Definition hit_lt (a b : bytes * XRecord) : Prop := (a.1 < b.1)%bytes.

Lemma hits_sorted rows : StronglySorted row_lt rows -> StronglySorted hit_lt (hits rows).
Proof.
  induction 1 as [|row rows _ IH Hrow]; [constructor|]. rewrite hits_cons. destruct (hit row) as [h|] eqn:E; [|done]. constructor; [done|].
  apply Forall_forall. rewrite Forall_forall in Hrow. intros h' (row' & Hin & Ek & _)%hits_elem. unfold hit_lt. rewrite <- Ek. unfold hit in E.
  destruct (row_of row) as [[r|]| |]; try done. injection E as <-. by apply Hrow.
Qed.
End loops.

(** ** The session of a client *)

Section session.
Context {D : Type} {RD : Reads D} {RL : ReadsLaws D} {SH : SortHeap} {XH : Xxh3} {CT : CursorText}.
Context {PC : Postcard} {VT : ValueText} {GT : GravityText} {VP : ValuePostcard}.

(** Tokens decode to what was encoded. *)
Definition cursor_laws : Prop :=
  forall p, exists t, cursor_to_text p = Some t /\ (cursor_of_base64 t ≫= cursor_of_postcard) = Some p.

Definition with_cursor (token : option bytes) (stmt : ScanStmt) : ScanStmt :=
  mkScan (st_lobe stmt) (st_filter_expr stmt) (st_order_by stmt) (st_limit stmt) token.

Definition reply (q : QueryResult) : list XRecord * option bytes :=
  match q with Records records => (records, None) | PaginatedRecords records cursor _ => (records, cursor) end.

(** A client sends the statement, and again with every token it gets, until it gets
    none; the engine may have changed between two requests. *)
Fixpoint session (elapsed : Z -> Z) (stmt : ScanStmt) (token : option bytes) (es : list (ScanEngine D)) : option (list (list XRecord)) :=
  match es with
  | [] => None
  | e :: es' =>
    match (execute_scan e (with_cursor token stmt) elapsed).2 with
    | Done q =>
      match reply q, es' with
      | (records, None), [] => Some [records]
      | (records, None), _ => None
      | (records, Some t), _ => (fun pages => records :: pages) <$> session elapsed stmt (Some t) es'
      end
    | _ => None
    end
  end.

Section lobe.
Context (stmt : ScanStmt) (lobe : Z) (limit : Z).

(** What the records of the lobe are for the statement. *)
Definition row_of (e : ScanEngine D) : bytes * bytes -> Out (option XRecord) :=
  row_record (se_vectors e) (lobe_name_for_id e lobe) (bt_get lobe (se_dicts e)) true (st_filter_expr stmt).

Definition lobe_rows (e : ScanEngine D) : list (bytes * bytes) :=
  List.filter (fun kv => starts_with kv.1 (to_be_bytes 2 lobe)) (rd_rows (se_spatial e)).

(** The records a full scan finds, in the order of their keys. *)
Definition answer (e : ScanEngine D) : list (bytes * XRecord) := hits (row_of e) (lobe_rows e).

Record engine_ready (e : ScanEngine D) : Prop := {
  er_spatial : rd_ok (se_spatial e);
  er_vectors : rd_ok (se_vectors e);
  er_keys : Forall spatial_row (rd_rows (se_spatial e));
  er_lobe : bt_get (st_lobe stmt) (se_lobes e) = Some lobe;
}.

Hypothesis Hlobe : is_uint 16 lobe /\ is_uint 16 (lobe + 1).
Hypothesis Hbound : forall e, st_filter_expr stmt = Some e -> is_Some (to_core_expr e).
Hypothesis Hlimit : default SCAN_LIMIT_DEFAULT (st_limit stmt) = limit /\ 0 < limit <= SCAN_LIMIT_HARD_MAX.
Hypothesis Horder : st_order_by stmt = None.
Hypothesis Hcursor : cursor_laws.

Lemma bound_matches r : is_Some (record_matches_opt_expr r (st_filter_expr stmt)).
Proof.
  unfold record_matches_opt_expr, matches_filter_expr. destruct (st_filter_expr stmt) as [f|]; [|by eexists].
  destruct (Hbound _ eq_refl) as [c ->]. by eexists.
Qed.

Lemma row_of_total e rows : rd_ok (se_vectors e) -> total (row_of e) rows.
Proof.
  intros Hv. apply Forall_forall. intros [k v] _. unfold row_of, row_record. cbn [fst snd].
  assert (deserialize_hydrated_with (se_vectors e) k v (lobe_name_for_id e lobe) (bt_get lobe (se_dicts e)) <> Panicked) as Hd.
  { unfold deserialize_hydrated_with. destruct (deserialize_record _ _ _); [|done]. case_match; [|done]. case_match; [|done].
    rewrite rd_get_spec by done. by destruct (row_get _ _). }
  destruct (deserialize_hydrated_with _ _ _ _ _) as [r| |]; [|eauto|done].
  destruct (bound_matches (fields r)) as [b ->]. cbn. eauto.
Qed.

(** What a page shows of the answer: the part after the key it starts after. *)
Definition after (start : option bytes) (l : list (bytes * XRecord)) : list (bytes * XRecord) :=
  match start with Some k => List.filter (fun h => bltb k h.1) l | None => l end.

Definition lobe_key (k : bytes) : Prop := exists sk, key_wf sk /\ k = to_bytes sk /\ lobe_id sk = lobe.

Lemma answer_keys e h : engine_ready e -> h ∈ answer e -> lobe_key h.1.
Proof.
  intros He (row & Hin & Ek & _)%hits_elem. apply elem_of_lfilter in Hin as [Hin Hp]. pose proof (er_keys _ He) as Hs. rewrite Forall_forall in Hs.
  destruct (Hs _ Hin) as (k & Hk & E). exists k. rewrite <- Ek. split; [done|]. split; [done|]. apply lobe_prefix; [apply Hlobe|done|by rewrite <- E].
Qed.

Lemma page_spec e start :
  engine_ready e -> (forall k, start = Some k -> lobe_key k) ->
  (exists pg, scan_primary_paginated e lobe (st_filter_expr stmt) limit start = Done pg /\ pg_has_more pg = false /\
    pg_records pg = (after start (answer e)).*2 /\ blen (after start (answer e)) <= limit) \/
  (exists pg h1 x h2, scan_primary_paginated e lobe (st_filter_expr stmt) limit start = Done pg /\ pg_has_more pg = true /\
    pg_records pg = h1.*2 /\ pg_tail_key pg = last h1.*1 /\ after start (answer e) = h1 ++ x :: h2 /\ blen h1 = limit).
Proof.
  intros He Hstart. destruct Hlobe as [Hl Hl1]. assert (exists rows, rows = match start with
      | Some k => List.filter (fun kv => bltb k kv.1) (lobe_rows e) | None => lobe_rows e end /\
    scan_primary_paginated e lobe (st_filter_expr stmt) limit start = page_loop (row_of e) limit rows (mkPage [] None false)) as (rows & Er & ->).
  { unfold scan_primary_paginated. destruct start as [k|].
    - destruct (Hstart _ eq_refl) as (sk & Hsk & -> & Elobe). unfold is_uint in Hl1. rewrite (proj2 (Z.ltb_ge _ _)) by lia.
      rewrite rd_range_spec by apply He. cbn [storage mbind Out_bind]. eexists. split; [reflexivity|]. unfold row_of, lobe_rows.
      rewrite resume_rows by first [done|apply He]. done.
    - rewrite rd_prefix_spec by first [apply He|apply to_be_bytes_is_bytes]. cbn. eauto. }
  assert (Forall (fun row => blen row.1 = SPATIAL_KEY_SIZE) rows) as Hlen.
  { apply Forall_forall. intros row Hin. assert (row ∈ rd_rows (se_spatial e)) as Hin'.
    { rewrite Er in Hin. destruct start; rewrite ?elem_of_lfilter in Hin; [destruct Hin as [Hin _]|]; apply elem_of_lfilter in Hin; tauto. }
    pose proof (er_keys _ He) as Hs. rewrite Forall_forall in Hs. destruct (Hs _ Hin') as (k & _ & ->). apply to_bytes_length. }
  assert (hits (row_of e) rows = after start (answer e)) as Eh.
  { rewrite Er. unfold answer, after. destruct start as [k|]; [|done]. apply (hits_filter (row_of e) (fun b => bltb k b)). }
  destruct (page_loop_spec (row_of e) limit rows [] None) as [[H1 H2]|(h1 & x & h2 & H1 & H2 & H3)].
  - apply row_of_total, He.
  - done.
  - unfold SCAN_LIMIT_HARD_MAX in Hlimit. lia.
  - rewrite blen_nil. lia.
  - left. eexists. split; [exact H2|]. cbn [pg_has_more pg_records app]. rewrite <- Eh. rewrite blen_nil in H1. split; [done|]. split; [done|lia].
  - right. eexists _, h1, x, h2. split; [exact H3|]. cbn [pg_has_more pg_records pg_tail_key app]. rewrite <- Eh, H1. rewrite blen_nil in H2.
    unfold last_key. repeat split; [by destruct (last h1.*1)|lia].
Qed.

(** ** Requests *)

(** A token that stands for a key. *)
Definition token_for (token : bytes) (k : bytes) : Prop :=
  decode_cursor token = Done (mkCursor CURSOR_FORMAT_V2 lobe k (filter_checksum (st_filter_expr stmt))).

Definition token_at (token start : option bytes) : Prop :=
  match token, start with Some t, Some k => token_for t k /\ lobe_key k | None, None => True | _, _ => False end.

(** The first request reads the lobe: no ghost and no bucket answers it. *)
Definition reads_lobe (e : ScanEngine D) : Prop :=
  exists core_filters, convert_filter_expr (st_filter_expr stmt) = Done core_filters /\
    route e lobe (with_cursor None stmt) core_filters = Primary /\ detect_gravity_eq e (st_lobe stmt) core_filters = None.

Lemma next_cursor_spec pg k : pg_has_more pg = true -> pg_tail_key pg = Some k ->
  exists t, next_cursor lobe (filter_checksum (st_filter_expr stmt)) pg = Done (Some t) /\ token_for t k.
Proof.
  intros Hm Hk. unfold next_cursor. rewrite Hm, Hk. unfold encode_cursor. destruct (Hcursor (mkCursor CURSOR_FORMAT_V2 lobe k (filter_checksum (st_filter_expr stmt)))) as (t & -> & Et).
  exists t. split; [done|]. unfold token_for, decode_cursor. destruct (cursor_of_base64 t) as [bs|]; [|done]. cbn in Et. by rewrite Et.
Qed.

Lemma request_page elapsed e token start pg cursor :
  engine_ready e -> token_at token start -> (token = None -> reads_lobe e) ->
  scan_primary_paginated e lobe (st_filter_expr stmt) limit start = Done pg ->
  next_cursor lobe (filter_checksum (st_filter_expr stmt)) pg = Done cursor -> (pg_has_more pg = false -> cursor = None) ->
  exists q, (execute_scan e (with_cursor token stmt) elapsed).2 = Done q /\ reply q = (pg_records pg, cursor).
Proof.
  intros He Ht Hr Hp Hc Hnone. destruct Hlimit as [Elim Hlim]. unfold execute_scan, execute_scan_inner, validate_scan_limit_cap.
  cbn [with_cursor st_limit st_cursor st_order_by st_lobe st_filter_expr]. rewrite Horder, (er_lobe _ He).
  assert ((match st_limit stmt with Some l => if SCAN_LIMIT_HARD_MAX <? l then Failed (InvalidQuery "LIMIT exceeds hard maximum") else Done tt | None => Done tt end) = Done tt) as ->.
  { destruct (st_limit stmt) as [l|]; [|done]. cbn in Elim. subst l. by rewrite (proj2 (Z.ltb_ge _ _)) by lia. }
  destruct token as [t|], start as [k|]; try done.
  - destruct Ht as [Ht _]. unfold execute_cursor_scan. rewrite Ht. cbn [with_cursor st_limit st_lobe st_filter_expr mbind Out_bind snd cp_lobe_id cp_filter_checksum cp_last_spatial_key]. rewrite (er_lobe _ He), !Z.eqb_refl. cbn [negb].
    rewrite Elim, Hp. cbn [mbind Out_bind]. rewrite Hc. cbn [mbind Out_bind]. eauto.
  - destruct (Hr eq_refl) as (core & Ec & Eroute & Eg).
    set (scan_limit := match st_limit stmt with Some l => Some l | None => Some SCAN_LIMIT_DEFAULT end).
    assert (default SCAN_LIMIT_DEFAULT scan_limit = limit) as Esl by (unfold scan_limit; by destruct (st_limit stmt)).
    cbn [with_cursor st_order_by st_limit]. rewrite Ec. cbv zeta. fold scan_limit. unfold execute_scan_source. cbn [with_cursor st_order_by st_limit st_lobe st_filter_expr].
    rewrite Eroute, Horder, Eg. cbn [snd]. rewrite Esl. unfold first_page. cbn [with_cursor st_filter_expr]. rewrite Hp. cbn [mbind Out_bind]. rewrite Hc. cbn [mbind Out_bind].
    eexists. split; [reflexivity|]. destruct (pg_has_more pg); [done|]. by rewrite Hnone.
Qed.

(** What a request returns: the rest of the answer, or its next records and a token. *)
Lemma request_spec elapsed e token start :
  engine_ready e -> token_at token start -> (token = None -> reads_lobe e) ->
  exists q, (execute_scan e (with_cursor token stmt) elapsed).2 = Done q /\
    ((reply q = ((after start (answer e)).*2, None) /\ blen (after start (answer e)) <= limit) \/
     (exists t k h1 x h2, reply q = (h1.*2, Some t) /\ last h1.*1 = Some k /\ token_at (Some t) (Some k) /\
       after start (answer e) = h1 ++ x :: h2 /\ blen h1 = limit)).
Proof.
  intros He Ht Hr. destruct (page_spec e start He) as [(pg & Hp & Hm & Erec & Hle)|(pg & h1 & x & h2 & Hp & Hm & Erec & Etail & Ea & Elen)].
  { intros k ->. by destruct token; [|]; destruct Ht. }
  - destruct (request_page elapsed e token start pg None He Ht Hr Hp) as (q & Eq & Erep); [unfold next_cursor; by rewrite Hm|done|].
    exists q. split; [done|]. left. by rewrite Erep, Erec.
  - assert (exists k, last h1.*1 = Some k) as [k Ek].
    { destruct (last h1.*1) as [k|] eqn:E; [eauto|]. apply last_None, fmap_nil_inv in E. subst h1. rewrite blen_nil in Elen. lia. }
    destruct (next_cursor_spec pg k Hm) as (t & Et & Htk); [by rewrite Etail|].
    destruct (request_page elapsed e token start pg (Some t) He Ht Hr Hp Et) as (q & Eq & Erep); [by rewrite Hm|].
    exists q. split; [done|]. right. exists t, k, h1, x, h2. rewrite Erep, Erec. split_and!; try done. split; [done|].
    apply last_Some in Ek as [l' El']. assert (k ∈ h1.*1) as Hin by (rewrite El'; apply elem_of_app; right; left).
    apply list_elem_of_fmap in Hin as (h & -> & Hin). apply (answer_keys e h He).
    assert (h ∈ after start (answer e)) as Ha by (rewrite Ea; apply elem_of_app; by left).
    unfold after in Ha. destruct start; [by apply elem_of_lfilter in Ha as [Ha _]|done].
Qed.

(** ** Sessions *)

Lemma hit_lt_trans : Transitive hit_lt.
Proof. intros a b c. unfold hit_lt, blt. apply bcmp_trans. Qed.

Lemma answer_sorted e : engine_ready e -> StronglySorted hit_lt (answer e).
Proof. intros He. apply hits_sorted, sorted_lfilter, rd_sorted, He. Qed.

Definition past (start : option bytes) (k : bytes) : Prop := match start with Some s => (s < k)%bytes | None => True end.

Lemma after_elem start l h : h ∈ after start l <-> h ∈ l /\ past start h.1.
Proof. unfold after, past. destruct start as [k|]; [|tauto]. by rewrite elem_of_lfilter, bltb_lt. Qed.

Lemma after_sorted start l : StronglySorted hit_lt l -> StronglySorted hit_lt (after start l).
Proof. unfold after. destruct start; [apply sorted_lfilter|done]. Qed.

Lemma last_key_elem (l : list (bytes * XRecord)) k : last l.*1 = Some k -> exists l' h, l = l' ++ [h] /\ h.1 = k.
Proof.
  intros (ks & E)%last_Some. apply fmap_app_inv in E as (l1 & l2 & E1 & E2 & ->). symmetry in E2.
  destruct l2 as [|h [|]]; try done. injection E2 as <-. eauto.
Qed.

(** The records of a page come before the key it ends with, the others after it. *)
Lemma split_at h1 l2 k :
  StronglySorted hit_lt (h1 ++ l2) -> last h1.*1 = Some k -> (forall h, h ∈ h1 -> h.1 = k \/ (h.1 < k)%bytes) /\ (forall h, h ∈ l2 -> (k < h.1)%bytes).
Proof.
  intros Hs (l' & h0 & -> & <-)%last_key_elem. apply StronglySorted_app in Hs as (Hc & H1 & _). split.
  - intros h [Hh| ->%list_elem_of_singleton]%elem_of_app; [right|by left]. apply StronglySorted_app in H1 as (H1 & _). apply H1; [done|by left].
  - intros h Hh. apply Hc; [|done]. apply elem_of_app. right. by left.
Qed.

Lemma session_spec elapsed es : forall token start pages,
  session elapsed stmt token es = Some pages -> Forall engine_ready es -> token_at token start -> (token = None -> Forall reads_lobe (take 1 es)) ->
  exists keyed, pages = (fun page : list (bytes * XRecord) => page.*2) <$> keyed /\
    Forall2 (fun e page => forall h, h ∈ page -> h ∈ answer e) es keyed /\
    StronglySorted hit_lt (concat keyed) /\ (forall h, h ∈ concat keyed -> past start h.1) /\
    (forall h, (forall e, e ∈ es -> h ∈ answer e) -> past start h.1 -> h ∈ concat keyed).
Proof.
  induction es as [|e es IH]; intros token start pages Hs Hes Ht Hr; [done|]. apply Forall_cons in Hes as [He Hes]. cbn [session] in Hs.
  destruct (request_spec elapsed e token start He Ht) as (q & Eq & Hq).
  { intros E. specialize (Hr E). cbn in Hr. by apply Forall_cons in Hr as [Hr _]. }
  rewrite Eq in Hs. pose proof (after_sorted start _ (answer_sorted e He)) as Hsort. destruct Hq as [[Erep _]|(t & k & h1 & x & h2 & Erep & Ek & Htk & Ea & _)]; rewrite Erep in Hs.
  - destruct es; [|done]. injection Hs as <-. exists [after start (answer e)]. split; [done|]. cbn [concat]. rewrite app_nil_r.
    split; [constructor; [|constructor]; intros h; rewrite after_elem; tauto|]. split; [done|]. split; [intros h; rewrite after_elem; tauto|].
    intros h Hh Hp. apply after_elem. split; [apply Hh; left|done].
  - destruct (session elapsed stmt (Some t) es) as [pages'|] eqn:Es; [|done]. injection Hs as <-.
    destruct (IH (Some t) (Some k) pages' Es Hes Htk) as (keyed & -> & H1 & H2 & H3 & H4); [done|].
    rewrite Ea in Hsort. destruct (split_at h1 (x :: h2) k Hsort Ek) as [Hle Hgt].
    exists (h1 :: keyed). split; [done|]. cbn [concat]. assert (forall h, h ∈ h1 -> h ∈ after start (answer e)) as Hin.
    { intros h Hh. rewrite Ea. apply elem_of_app. by left. }
    split; [constructor; [|done]; intros h Hh%Hin; by apply after_elem in Hh as [? _]|]. split_and!.
    + apply StronglySorted_app. split_and!; [|by apply StronglySorted_app in Hsort as (_ & ? & _)|done].
      intros a b Ha Hb. specialize (H3 b Hb). cbn in H3. unfold hit_lt, blt in *. destruct (Hle a Ha) as [->|Hlt]; [done|]. by eapply bcmp_trans.
    + intros h [Hh|Hh]%elem_of_app; [by apply Hin, after_elem in Hh as [_ ?]|]. specialize (H3 h Hh). cbn in H3.
      apply last_key_elem in Ek as (l' & h0 & -> & <-). assert (h0 ∈ l' ++ [h0]) as Hh0%Hin by (apply elem_of_app; right; by left).
      apply after_elem in Hh0 as [_ Hp]. unfold past in *. destruct start; [|done]. unfold blt in *. by eapply bcmp_trans.
    + intros h Hh Hp. apply elem_of_app. assert (h ∈ after start (answer e)) as Hin' by (apply after_elem; split; [apply Hh; left|done]).
      rewrite Ea in Hin'. apply elem_of_app in Hin' as [?|Hin']; [by left|right]. apply H4; [|by apply Hgt]. intros e' He'. apply Hh. by right.
Qed.

(** Filtering past the key of a page leaves the rest. *)
Lemma after_split start e h1 l2 k :
  engine_ready e -> after start (answer e) = h1 ++ l2 -> last h1.*1 = Some k -> after (Some k) (answer e) = l2.
Proof.
  intros He Ea Ek. pose proof (after_sorted start _ (answer_sorted e He)) as Hsort. rewrite Ea in Hsort. destruct (split_at _ _ _ Hsort Ek) as [Hle Hgt].
  apply (StronglySorted_unique_strong hit_lt); [| |by apply StronglySorted_app in Hsort as (_ & _ & ?)|].
  - intros a b _ _ Hab Hba. exfalso. unfold hit_lt, blt in *. pose proof (bcmp_trans _ _ _ Hab Hba) as H. by rewrite bcmp_refl in H.
  - apply after_sorted, answer_sorted, He.
  - assert (forall l, StronglySorted hit_lt l -> NoDup l) as Hnd.
    { induction 1 as [|a l _ IH Ha]; constructor; [|done]. rewrite Forall_forall in Ha. intros Hin%Ha. unfold hit_lt, blt in Hin. by rewrite bcmp_refl in Hin. }
    apply NoDup_Permutation; [apply Hnd, after_sorted, answer_sorted, He|apply Hnd; by apply StronglySorted_app in Hsort as (_ & _ & ?)|].
    intros h. rewrite after_elem. split.
    + intros [Hin Hp]. cbn in Hp. assert (h ∈ after start (answer e)) as Hin'.
      { apply after_elem. split; [done|]. apply last_key_elem in Ek as (l' & h0 & -> & <-). assert (h0 ∈ after start (answer e)) as Hh0.
        { rewrite Ea. apply elem_of_app. left. apply elem_of_app. right. by left. }
        apply after_elem in Hh0 as [_ Hp0]. unfold past in *. destruct start; [|done]. unfold blt in *. by eapply bcmp_trans. }
      rewrite Ea in Hin'. apply elem_of_app in Hin' as [Hh|?]; [|done]. exfalso. unfold blt in *. destruct (Hle h Hh) as [<-|Hlt].
      * by rewrite bcmp_refl in Hp.
      * pose proof (bcmp_trans _ _ _ Hp Hlt) as H. by rewrite bcmp_refl in H.
    + intros Hh. split; [|by apply Hgt]. assert (h ∈ after start (answer e)) as Hin by (rewrite Ea; apply elem_of_app; by right). by apply after_elem in Hin as [? _].
Qed.

(** Over an engine that stays as it is, the session ends, after as many requests as
    there are pages. *)
Lemma session_ends elapsed e (n : nat) : forall token start,
  (length (after start (answer e)) <= n * Z.to_nat limit)%nat -> engine_ready e -> token_at token start -> (token = None -> reads_lobe e) ->
  exists m pages, (1 <= m <= Nat.max 1 n)%nat /\ session elapsed stmt token (replicate m e) = Some pages /\ concat pages = (after start (answer e)).*2.
Proof.
  induction n as [|n IH]; intros token start Hlen He Ht Hr; destruct (request_spec elapsed e token start He Ht Hr) as (q & Eq & Hq);
    destruct Hq as [[Erep Hle]|(t & k & h1 & x & h2 & Erep & Ek & Htk & Ea & El)].
  - exists 1%nat, [(after start (answer e)).*2]. split; [lia|]. cbn [replicate session]. rewrite Eq, Erep. cbn. by rewrite app_nil_r.
  - exfalso. rewrite Ea, length_app in Hlen. cbn in Hlen. lia.
  - exists 1%nat, [(after start (answer e)).*2]. split; [lia|]. cbn [replicate session]. rewrite Eq, Erep. cbn. by rewrite app_nil_r.
  - pose proof (after_split start e h1 (x :: h2) k He Ea Ek) as Eaf.
    destruct (IH (Some t) (Some k)) as (m & pages & Hm & Es & Ec); [|done..|].
    { rewrite Eaf. rewrite Ea, length_app in Hlen. unfold blen in El. lia. }
    exists (S m), (h1.*2 :: pages). split.
    { assert (n <> 0)%nat; [|lia]. intros ->. rewrite Ea, length_app in Hlen. unfold blen in El. cbn in Hlen. lia. }
    cbn [replicate session]. rewrite Eq, Erep, Es. split; [done|]. cbn [concat]. by rewrite Ec, Eaf, Ea, fmap_app.
Qed.

(** C16: a client that follows the cursors sees the lobe once. However the engine
    changes between the requests of a session, no key is returned twice, every record
    returned was in the answer when its page was read, and a record that was in the
    answer throughout is returned. Over an engine that does not change the session
    ends, after as many requests as there are pages, and its pages are the answer of a
    full scan, in the order of the keys. *)
Theorem cursors_see_the_lobe_once elapsed :
  (forall es pages, session elapsed stmt None es = Some pages -> Forall engine_ready es -> Forall reads_lobe (take 1 es) ->
    exists keyed, pages = (fun page : list (bytes * XRecord) => page.*2) <$> keyed /\
      Forall2 (fun e page => forall h, h ∈ page -> h ∈ answer e) es keyed /\
      StronglySorted hit_lt (concat keyed) /\ NoDup (concat keyed).*1 /\
      (forall h, (forall e, e ∈ es -> h ∈ answer e) -> h ∈ concat keyed)) /\
  (forall e n, engine_ready e -> reads_lobe e -> (length (answer e) <= n * Z.to_nat limit)%nat ->
    exists m pages, (1 <= m <= Nat.max 1 n)%nat /\ session elapsed stmt None (replicate m e) = Some pages /\ concat pages = (answer e).*2).
Proof.
  split.
  - intros es pages Hs Hes Hr. destruct (session_spec elapsed es None None pages Hs Hes I (fun _ => Hr)) as (keyed & H1 & H2 & H3 & _ & H5).
    exists keyed. split_and!; [done..| |intros h Hh; by apply H5]. clear - H3. induction H3 as [|a l _ IH Ha]; [constructor|]. constructor; [|done].
    intros (b & E & Hb)%list_elem_of_fmap. rewrite Forall_forall in Ha. specialize (Ha b Hb). unfold hit_lt, blt in Ha. rewrite E, bcmp_refl in Ha. done.
  - intros e n He Hr Hn. by apply (session_ends elapsed e n None None).
Qed.
End lobe.
End session.
