(* ===== verification/ScanRoutes.v ===== *)
(** * The ways to the records agree

    The scan of a bucket and the scan of the lobe return the same records; the ordered
    scans return the first ones. *)

From S2P Require Import Prelude ByteOrder Bloom BTree Types Block Tree TreeReads SpatialScan Value FieldDict Lid Filters FilterEq.
From S2P Require Import Record SpatialKey SortEncoding Aggregate GroupKey Rollup Ghost Gravity Router Scan ScanPages.

(** ** Orders *)

(** [cmp] is a total preorder of the elements of a list. *)
Definition total_on {A} (cmp : A -> A -> comparison) (l : list A) : Prop :=
  (forall x y, x ∈ l -> y ∈ l -> cmp y x = CompOpp (cmp x y)) /\
  (forall x y z, x ∈ l -> y ∈ l -> z ∈ l -> cmp x y <> Gt -> cmp y z <> Gt -> cmp x z <> Gt).

Lemma total_on_sub {A} (cmp : A -> A -> comparison) l k : (forall x, x ∈ k -> x ∈ l) -> total_on cmp l -> total_on cmp k.
Proof. intros Hs [H1 H2]. split; [eauto|]. intros x y z Hx Hy Hz. apply H2; auto. Qed.

(** What the standard library promises of [BinaryHeap], for elements that are totally
    ordered: [pop] removes a greatest one, [into_sorted_vec] sorts. *)
Class SortHeapLaws (SH : SortHeap) := {
  sheap_elems : forall {A}, sheap A -> list A;
  sheap_inv : forall {A}, (A -> A -> comparison) -> sheap A -> Prop;
  sheap_elems_new A : sheap_elems (A := A) sheap_new = [];
  sheap_inv_new A cmp : sheap_inv (A := A) cmp sheap_new;
  sheap_len_spec A (h : sheap A) : sheap_len h = blen (sheap_elems h);
  sheap_push_spec A cmp (x : A) h : sheap_inv cmp h -> total_on cmp (x :: sheap_elems h) ->
    sheap_inv cmp (sheap_push cmp x h) /\ sheap_elems (sheap_push cmp x h) ≡ₚ x :: sheap_elems h;
  sheap_pop_spec A cmp (h : sheap A) : sheap_inv cmp h -> total_on cmp (sheap_elems h) -> sheap_elems h <> [] ->
    exists x, (sheap_pop cmp h).1 = Some x /\ sheap_inv cmp (sheap_pop cmp h).2 /\
      sheap_elems h ≡ₚ x :: sheap_elems (sheap_pop cmp h).2 /\ forall y, y ∈ sheap_elems (sheap_pop cmp h).2 -> cmp y x <> Gt;
  sheap_sorted_spec A cmp (h : sheap A) : sheap_inv cmp h -> total_on cmp (sheap_elems h) ->
    sheap_into_sorted_vec cmp h ≡ₚ sheap_elems h /\ StronglySorted (fun x y => cmp x y <> Gt) (sheap_into_sorted_vec cmp h);
}.

(** ** The first records *)

Section topn.
Context {SH : SortHeap} {SL : SortHeapLaws SH}.
Context (row_of : bytes * bytes -> Out (option XRecord)) (field : bytes) (descending : bool) (limit : Z).

Definition heap_entry (r : XRecord) : HeapEntry := mkHeapEntry r (resolve_path (fields r) field) descending.

Definition heap_step (h : sheap HeapEntry) (r : XRecord) : sheap HeapEntry :=
  let h := sheap_push HeapEntry_cmp (heap_entry r) h in
  if limit <? sheap_len h then (sheap_pop HeapEntry_cmp h).2 else h.

Lemma topn_loop_spec rows h : total row_of rows -> topn_loop row_of field descending limit rows h = Done (foldl heap_step h (hits row_of rows).*2).
Proof.
  intros Ht. revert h. induction Ht as [|row rows Hrow _ IH]; intros h; [done|]. cbn [topn_loop]. rewrite hits_cons.
  destruct (hit_cases row_of row Hrow) as [[E ->]|(r & E & ->)]; rewrite E; cbn [mbind Out_bind]; [apply IH|]. rewrite IH. done.
Qed.

(** [kept] are the first of the records, [dropped] the others. *)
Definition first_of (l kept dropped : list HeapEntry) : Prop :=
  l ≡ₚ kept ++ dropped /\ (blen kept = Z.min limit (blen l)) /\ forall x y, x ∈ kept -> y ∈ dropped -> HeapEntry_cmp x y <> Gt.

Lemma heap_fold_spec rs : forall h done_ dropped,
  0 <= limit -> total_on HeapEntry_cmp (done_ ++ (heap_entry <$> rs)) -> sheap_inv HeapEntry_cmp h -> first_of done_ (sheap_elems h) dropped ->
  exists dropped', sheap_inv HeapEntry_cmp (foldl heap_step h rs) /\
    first_of (done_ ++ (heap_entry <$> rs)) (sheap_elems (foldl heap_step h rs)) dropped'.
Proof.
  induction rs as [|r rs IH]; intros h done_ dropped Hlim Ht Hinv (Hp & Hlen & Hle); cbn [foldl fmap list_fmap].
  { exists dropped. rewrite app_nil_r. done. }
  assert (forall x, x ∈ heap_entry r :: sheap_elems h -> x ∈ done_ ++ (heap_entry <$> r :: rs)) as Hsub.
  { intros x [->|Hx]%elem_of_cons; apply elem_of_app; [right; left|left]. rewrite Hp. apply elem_of_app. by left. }
  destruct (sheap_push_spec _ HeapEntry_cmp (heap_entry r) h Hinv (total_on_sub _ _ _ Hsub Ht)) as [Hi1 Hp1].
  replace (done_ ++ heap_entry r :: (heap_entry <$> rs)) with ((done_ ++ [heap_entry r]) ++ (heap_entry <$> rs)) by by rewrite <- app_assoc.
  set (h1 := sheap_push HeapEntry_cmp (heap_entry r) h) in *.
  assert (total_on HeapEntry_cmp ((done_ ++ [heap_entry r]) ++ (heap_entry <$> rs))) as Ht' by by rewrite <- app_assoc.
  assert (done_ ++ [heap_entry r] ≡ₚ sheap_elems h1 ++ dropped) as Hp2.
  { rewrite Hp1, Hp. rewrite (Permutation_app_comm _ [heap_entry r]). done. }
  assert (blen (sheap_elems h1) = 1 + blen (sheap_elems h)) as El1 by (unfold blen; rewrite Hp1; cbn; lia).
  unfold heap_step at 2 4. fold h1. rewrite sheap_len_spec. destruct (Z.ltb_spec limit (blen (sheap_elems h1))) as [Hgt|Hroom].
  - destruct (sheap_pop_spec _ HeapEntry_cmp h1 Hi1) as (x & _ & Hi2 & Hp3 & Hmax).
    { eapply total_on_sub; [|exact Ht']. intros y Hy. apply elem_of_app. left. rewrite Hp2. apply elem_of_app. by left. }
    { intros E. rewrite E in El1. rewrite blen_nil in El1. pose proof (blen_nonneg (sheap_elems h)). lia. }
    apply (IH _ _ (x :: dropped) Hlim Ht' Hi2). split; [|split].
    + rewrite Hp2, Hp3. cbn [app]. apply Permutation_middle.
    + assert (blen (sheap_elems h1) = 1 + blen (sheap_elems (sheap_pop HeapEntry_cmp h1).2)) as El2 by (unfold blen; rewrite Hp3; cbn; lia).
      rewrite blen_app. change (blen [heap_entry r]) with 1. lia.
    + intros a b Ha [->|Hb]%elem_of_cons; [by apply Hmax|].
      assert (a ∈ sheap_elems h1) as Ha1 by (rewrite Hp3; by right). rewrite Hp1 in Ha1. apply elem_of_cons in Ha1 as [->|Ha1]; [|by apply Hle].
      (* the new record stays: the popped one is an old one *)
      assert (x ∈ sheap_elems h1) as Hx by (rewrite Hp3; by left). rewrite Hp1 in Hx. apply elem_of_cons in Hx as [->|Hx].
      * assert (heap_entry r ∈ sheap_elems h) as Hr.
        { assert (sheap_elems h ≡ₚ sheap_elems (sheap_pop HeapEntry_cmp h1).2) as E by (apply (Permutation_cons_inv (a := heap_entry r)); by rewrite <- Hp1, <- Hp3).
          by rewrite E. }
        by apply Hle.
      * assert (forall y, y ∈ sheap_elems h1 \/ y ∈ dropped -> y ∈ (done_ ++ [heap_entry r]) ++ (heap_entry <$> rs)) as Hin.
        { intros y Hy. apply elem_of_app. left. rewrite Hp2. by apply elem_of_app. }
        eapply (proj2 Ht' (heap_entry r) x b); [apply Hin; left; rewrite Hp1; by left|apply Hin; left; rewrite Hp1; by right|apply Hin; by right|by apply Hmax|by apply Hle].
  - apply (IH _ _ dropped Hlim Ht' Hi1). split; [done|]. split; [rewrite blen_app; change (blen [heap_entry r]) with 1; lia|].
    intros a b Ha Hb. rewrite Hp1 in Ha. apply elem_of_cons in Ha as [->|Ha]; [|by apply Hle].
    (* nothing was dropped yet *)
    exfalso. assert (blen (sheap_elems h) < blen done_) as Hlt by (unfold blen; rewrite Hp, length_app; destruct dropped; [by apply elem_of_nil in Hb|cbn; lia]). lia.
Qed.

Lemma topn_spec rows :
  total row_of rows -> 0 <= limit -> total_on HeapEntry_cmp (heap_entry <$> (hits row_of rows).*2) ->
  exists kept dropped, topn_of row_of field descending limit rows = Done (he_record <$> kept) /\
    first_of (heap_entry <$> (hits row_of rows).*2) kept dropped /\ StronglySorted (fun x y => HeapEntry_cmp x y <> Gt) kept.
Proof.
  intros Ht Hl Hto. unfold topn_of. rewrite topn_loop_spec by done. cbn [mbind Out_bind].
  destruct (heap_fold_spec (hits row_of rows).*2 sheap_new [] [] Hl Hto (sheap_inv_new _ _)) as (dropped & Hinv & Hp & Hlen & Hle).
  { rewrite sheap_elems_new. split; [done|]. split; [change (blen (@nil HeapEntry)) with 0; lia|]. by intros x y ?%elem_of_nil. }
  cbn [app] in *. set (h := foldl heap_step _ _) in *. assert (total_on HeapEntry_cmp (sheap_elems h)) as Hth.
  { eapply total_on_sub; [|exact Hto]. intros x Hx. rewrite Hp. apply elem_of_app. by left. }
  destruct (sheap_sorted_spec _ HeapEntry_cmp h Hinv Hth) as [Hs1 Hs2]. exists (sheap_into_sorted_vec HeapEntry_cmp h), dropped.
  split; [done|]. split; [|done]. split; [by rewrite Hs1|]. split; [unfold blen in *; by rewrite Hs1|]. intros x y Hx Hy. apply Hle; [by rewrite <- Hs1|done].
Qed.
End topn.

(** ** Values of one kind are totally ordered *)

Inductive SortKind := KInt | KFloat | KText | KTimestamp | KBool.

(** Missing, null, or of the kind, and a number. *)
Definition of_kind (c : SortKind) (v : option Value) : Prop :=
  match v with
  | None | Some Null => True
  | Some (Int _) => c = KInt
  | Some (Float b) => c = KFloat /\ is_uint 64 b /\ is_nan b = false
  | Some (Text _) => c = KText
  | Some (Timestamp _) => c = KTimestamp
  | Some (Bool _) => c = KBool
  | Some _ => False
  end.

(** The two zeros as one. *)
Definition float_rank (b : Z) : Z := if is_zero b then 2 ^ 63 else f64_order_bits b.

Lemma float_rank_compare a b :
  is_uint 64 a -> is_uint 64 b -> is_nan a = false -> is_nan b = false -> f64_partial_cmp a b = Some (float_rank a ?= float_rank b).
Proof.
  intros Ha Hb Na Nb. rewrite f64_order by done. f_equal. unfold float_rank.
  assert (forall x, is_uint 64 x -> is_zero x = true -> f64_order_bits x = 2 ^ 63 - 1 \/ f64_order_bits x = 2 ^ 63) as Hz.
  { intros x Hx Ez. rewrite f64_order_bits_spec by done. unfold is_zero, is_uint in *. change (2 ^ 63) with 9223372036854775808 in *. change (2 ^ 64) with 18446744073709551616 in *. case_decide; Z.to_euclidean_division_equations; lia. }
  assert (forall x, is_uint 64 x -> is_zero x = false -> f64_order_bits x <> 2 ^ 63 - 1 /\ f64_order_bits x <> 2 ^ 63) as Hn.
  { intros x Hx Ez. rewrite f64_order_bits_spec by done. unfold is_zero, is_uint in *. change (2 ^ 63) with 9223372036854775808 in *. change (2 ^ 64) with 18446744073709551616 in *. case_decide; Z.to_euclidean_division_equations; lia. }
  destruct (is_zero a) eqn:Ea, (is_zero b) eqn:Eb; cbn [andb]; [by rewrite Z.compare_refl| | |done].
  - pose proof (Hz a Ha Ea). pose proof (Hn b Hb Eb). destruct (Z.compare_spec (f64_order_bits a) (f64_order_bits b)), (Z.compare_spec (2 ^ 63) (f64_order_bits b)); lia || done.
  - pose proof (Hz b Hb Eb). pose proof (Hn a Ha Ea). destruct (Z.compare_spec (f64_order_bits a) (f64_order_bits b)), (Z.compare_spec (f64_order_bits a) (2 ^ 63)); lia || done.
Qed.

(** Every kind compares like a pair of a number and a string. *)
Definition sort_number (v : option Value) : Z * Z * bytes :=
  match v with
  | None => (0, 0, [])
  | Some (Int i) => (1, i, [])
  | Some (Float b) => (1, float_rank b, [])
  | Some (Text s) => (1, 0, s)
  | Some (Timestamp t) => (1, t, [])
  | Some (Bool b) => (1, if b then 1 else 0, [])
  | _ => (2, 0, [])
  end.

Definition number_cmp (a b : Z * Z * bytes) : comparison := then_cmp (a.1.1 ?= b.1.1) (then_cmp (a.1.2 ?= b.1.2) (bcmp a.2 b.2)).

Lemma compare_values_number c a b : of_kind c a -> of_kind c b -> compare_values a b = number_cmp (sort_number a) (sort_number b).
Proof.
  assert (forall o, then_cmp o Eq = o) as Heq by by intros [| |].
  destruct a as [[x|x|x|x|x| | | | |]|], b as [[y|y|y|y|y| | | | |]|]; cbn [of_kind]; intros Ka Kb; try done; try (destruct Ka as (Ka & ? & ?)); try (destruct Kb as (Kb & ? & ?));
    try congruence; unfold number_cmp; cbn [sort_number fst snd]; rewrite ?Z.compare_refl; cbn [then_cmp bcmp]; rewrite ?Heq; try done.
  - by destruct x, y.
  - cbn. by rewrite float_rank_compare.
Qed.

Lemma number_cmp_opp a b : number_cmp b a = CompOpp (number_cmp a b).
Proof.
  unfold number_cmp. rewrite (Z.compare_antisym a.1.1), (Z.compare_antisym a.1.2), (bcmp_opp a.2).
  by destruct (a.1.1 ?= b.1.1), (a.1.2 ?= b.1.2), (bcmp a.2 b.2).
Qed.

Lemma bcmp_le_trans a b c : bcmp a b <> Gt -> bcmp b c <> Gt -> bcmp a c <> Gt.
Proof.
  destruct (bcmp a b) eqn:E1; [apply bcmp_eq in E1 as ->; done| |done]. destruct (bcmp b c) eqn:E2; [apply bcmp_eq in E2 as <-; by rewrite E1| |done].
  by rewrite (bcmp_trans _ _ _ E1 E2).
Qed.

Lemma number_cmp_trans a b c : number_cmp a b <> Gt -> number_cmp b c <> Gt -> number_cmp a c <> Gt.
Proof.
  unfold number_cmp. destruct (Z.compare_spec a.1.1 b.1.1), (Z.compare_spec b.1.1 c.1.1), (Z.compare_spec a.1.1 c.1.1); try lia; cbn [then_cmp]; try done.
  destruct (Z.compare_spec a.1.2 b.1.2), (Z.compare_spec b.1.2 c.1.2), (Z.compare_spec a.1.2 c.1.2); try lia; cbn [then_cmp]; try done. apply bcmp_le_trans.
Qed.

Lemma kind_total c field descending rs :
  Forall (fun r => of_kind c (resolve_path (fields r) field)) rs -> total_on HeapEntry_cmp (heap_entry field descending <$> rs).
Proof.
  intros Hk. rewrite Forall_forall in Hk.
  assert (forall x, x ∈ heap_entry field descending <$> rs -> he_invert x = descending /\ of_kind c (he_sort_val x)) as Hx.
  { intros x (r & -> & Hr)%list_elem_of_fmap. split; [done|]. by apply Hk. }
  split.
  - intros x y [Ex Kx]%Hx [Ey Ky]%Hx. unfold HeapEntry_cmp. rewrite Ex, Ey, !(compare_values_number c) by done.
    rewrite (number_cmp_opp (sort_number (he_sort_val x))). by destruct descending, (number_cmp _ _).
  - intros x y z [Ex Kx]%Hx [Ey Ky]%Hx [Ez Kz]%Hx. unfold HeapEntry_cmp. rewrite Ex, Ey, !(compare_values_number c) by done.
    destruct descending; [|apply number_cmp_trans]. rewrite <- !number_cmp_opp. intros H1 H2. by eapply number_cmp_trans.
Qed.

(** ** Bucket and lobe *)

Section routes.
Context {D : Type} {RD : Reads D} {RL : ReadsLaws D} {SH : SortHeap} {XH : Xxh3} {CT : CursorText}.
Context {PC : Postcard} {VT : ValueText} {GT : GravityText} {VP : ValuePostcard}.
Context (stmt : ScanStmt) (lobe : Z) (e : ScanEngine D).
Hypothesis Hlobe : is_uint 16 lobe.
Hypothesis Hready : engine_ready stmt lobe e.
Hypothesis Hbound : forall f, st_filter_expr stmt = Some f -> is_Some (to_core_expr f).

Let satellite := bt_get (lobe_name_for_id e lobe) (se_satellites e).
Let found := answer stmt lobe e.

Lemma full_scan_spec limit : (forall lim, limit = Some lim -> 0 <= lim) ->
  scan_primary_full_expr e lobe (st_filter_expr stmt) limit = Done (capped limit found.*2).
Proof.
  intros Hl. unfold scan_primary_full_expr. rewrite rd_prefix_spec by first [apply Hready|apply to_be_bytes_is_bytes]. cbn [storage mbind Out_bind].
  fold (row_of stmt lobe e). rewrite limit_loop_spec; [done|by apply row_of_total, (er_vectors _ _ _ Hready)|]. intros lim E. split; [auto|]. rewrite blen_nil. auto.
Qed.

Lemma full_topn_spec field descending limit :
  scan_primary_topn_expr e lobe (st_filter_expr stmt) field descending limit = topn_of (row_of stmt lobe e) field descending limit (lobe_rows lobe e).
Proof. unfold scan_primary_topn_expr. rewrite rd_prefix_spec by first [apply Hready|apply to_be_bytes_is_bytes]. done. Qed.

(** What a statement wants satisfies its predicates. *)
Lemma matching_predicates core_filters r :
  convert_filter_expr (st_filter_expr stmt) = Done core_filters -> record_matches_opt_expr r (st_filter_expr stmt) = Some true ->
  matches_filters r core_filters = true.
Proof.
  unfold convert_filter_expr, filter_expr_to_flat, record_matches_opt_expr. destruct (st_filter_expr stmt) as [f|]; [|by intros [= <-]].
  destruct (as_flat_and f) as [fs|] eqn:Ef; [|by intros [= <-]]. destruct (convert_filters fs) as [cs|] eqn:Ec; [|done]. intros [= <-] Hm.
  rewrite (flat_matches r f fs cs Ef Ec) in Hm. by injection Hm.
Qed.

Lemma row_of_matches row r : row_of stmt lobe e row = Done (Some r) -> record_matches_opt_expr (fields r) (st_filter_expr stmt) = Some true.
Proof.
  unfold row_of, row_record. destruct (deserialize_hydrated_with _ _ _ _ _) as [r'| |]; try done.
  destruct (record_matches_opt_expr (fields r') (st_filter_expr stmt)) as [[|]|] eqn:E; try done. by intros [= <-].
Qed.

(** The records of the lobe are where the specification places them. *)
Definition placed (spec : GravitySpec) : Prop :=
  forall k v r, (to_bytes k, v) ∈ lobe_rows lobe e -> key_wf k -> row_of stmt lobe e (to_bytes k, v) = Done (Some r) ->
    exists gravity_fields anchors now seq,
      k = placement_key lobe (placement_hash None gravity_fields (Some spec) anchors (fields r)) satellite (fields r) now seq.

(** Its fields, and that of the satellite, compare exactly with the predicates. *)
Definition comparable (spec : GravitySpec) (core_filters : list (bytes * FilterOp * Value)) : Prop :=
  forall h, h ∈ found -> Forall (exact_on (fields h.2) core_filters) (GravitySpec_fields spec) /\
    forall sp, satellite = Some sp -> exact_on (fields h.2) core_filters (ss_field sp).

Section bucket.
Context (spec : GravitySpec) (core_filters : list (bytes * FilterOp * Value)) (gravity_hash_ : Z).
Hypothesis Hcore : convert_filter_expr (st_filter_expr stmt) = Done core_filters.
Hypothesis Hpin : pinned_gravity_hash spec core_filters = Some gravity_hash_.
Hypothesis Hplaced : placed spec.
Hypothesis Hcomp : comparable spec core_filters.

Let range := (resolve_gravity_scan_range satellite true lobe gravity_hash_ core_filters).1.

Lemma hash_16_range s : is_uint 16 (hash_to_16bits s).
Proof. unfold hash_to_16bits. change 65535 with (Z.ones 16). rewrite Z.land_ones by lia. apply Z.mod_pos_bound. lia. Qed.

(** The rows of the range are rows of the lobe, and hold all that is wanted. *)
Lemma range_rows :
  hits (row_of stmt lobe e) (List.filter (fun kv => in_closed range.1 range.2 kv.1) (rd_rows (se_spatial e))) = found.
Proof.
  assert (forall k, key_wf k -> in_closed range.1 range.2 (to_bytes k) = true <->
    lobe = lobe_id k /\ Z.land gravity_hash_ GRAVITY_HASH_MASK = gravity_hash k /\
    forall s, detect_satellite_eq satellite core_filters = Some s -> s = sat k) as Hrange.
  { intros k Hk. unfold range, resolve_gravity_scan_range, in_closed. rewrite andb_true_iff, !bleb_le.
    destruct (detect_satellite_eq satellite core_filters) as [s|] eqn:Es; cbn [fst].
    - assert (is_uint 16 s) as Hs.
      { unfold detect_satellite_eq in Es. destruct satellite; [|done]. destruct (pinned_value _ _ _); [|done]. injection Es as <-. apply hash_16_range. }
      pose proof (satellite_range_iff lobe gravity_hash_ s k Hlobe Hs Hk) as Hi. destruct (prefix_for_satellite lobe gravity_hash_ s). cbn [fst snd].
      rewrite Hi. split; [intros (? & ? & ?); split_and!; try done; by intros ? [= <-]|intros (? & ? & H); auto].
    - pose proof (gravity_range_iff lobe gravity_hash_ k Hlobe Hk) as Hi. destruct (prefix_for_gravity lobe gravity_hash_). cbn [fst snd].
      rewrite Hi. split; [intros (? & ?); split_and!; done|tauto]. }
  pose proof (er_keys _ _ _ Hready) as Hkeys. rewrite Forall_forall in Hkeys.
  assert (List.filter (fun kv => in_closed range.1 range.2 kv.1) (rd_rows (se_spatial e)) =
    List.filter (fun kv => in_closed range.1 range.2 kv.1) (lobe_rows lobe e)) as ->.
  { unfold lobe_rows. rewrite filter_filter. apply filter_ext_in. intros [key v] Hin. destruct (Hkeys _ Hin) as (k & Hk & E). cbn [fst] in *. subst key.
    destruct (in_closed range.1 range.2 (to_bytes k)) eqn:Ec; [|done]. apply Hrange in Ec as (El & _); [|done]. cbn. symmetry. by apply lobe_prefix. }
  rewrite (hits_filter (row_of stmt lobe e) (fun b => in_closed range.1 range.2 b)). fold (answer stmt lobe e). fold found.
  assert (forall l, (forall h, h ∈ l -> h ∈ found) -> List.filter (fun h => in_closed range.1 range.2 h.1) l = l) as Hall; [|by apply Hall].
  induction l as [|h l IH]; intros Hl; [done|]. cbn [List.filter]. rewrite IH by (intros; apply Hl; by right).
  assert (in_closed range.1 range.2 h.1 = true) as ->; [|done]. assert (h ∈ found) as Hh by (apply Hl; left).
  destruct (hits_elem _ _ _ Hh) as ([key v] & Hin & Ek & Er). cbn [fst] in Ek. assert ((key, v) ∈ rd_rows (se_spatial e)) as Hin' by by apply elem_of_lfilter in Hin as [? _].
  destruct (Hkeys _ Hin') as (k & Hk & E). cbn [fst] in E. rewrite <- Ek, E. rewrite E in Hin, Er. apply Hrange; [done|].
  destruct (Hplaced k v h.2) as (gf & anchors & now & seq & ->); [done..|].
  destruct (Hcomp h Hh) as [Hc1 Hc2]. pose proof (matching_predicates core_filters (fields h.2) Hcore (row_of_matches _ _ Er)) as Hm.
  destruct (pinned_bucket_complete lobe spec satellite core_filters gravity_hash_ (fields h.2) gf anchors now seq Hpin Hm Hc1 Hc2) as (H1 & H2 & H3).
  split; [done|]. split; [|intros s Hs; symmetry; auto]. rewrite <- H2 at 1. destruct Hk as (_ & Hg & _). by apply mask_48.
Qed.

Lemma bucket_scan_spec elapsed limit : (forall lim, limit = Some lim -> 0 <= lim) ->
  scan_primary_gravity_indexed e lobe gravity_hash_ (st_filter_expr stmt) limit 0 elapsed = Done (capped limit found.*2).
Proof.
  intros Hl. assert ((resolve_gravity_scan_range satellite true lobe gravity_hash_ core_filters).2 = true) as Hres.
  { unfold resolve_gravity_scan_range. by destruct (detect_satellite_eq _ _). }
  pose proof range_rows as Hrows. unfold range in Hrows. unfold scan_primary_gravity_indexed. rewrite Hcore. cbn [mbind Out_bind]. fold satellite.
  destruct (resolve_gravity_scan_range satellite true lobe gravity_hash_ core_filters) as [[lo hi] res]. cbn [fst snd] in *. subst res.
  rewrite rd_range_spec by apply Hready. cbn [storage mbind Out_bind]. fold (row_of stmt lobe e). rewrite limit_loop_spec.
  - by rewrite Hrows.
  - by apply row_of_total, (er_vectors _ _ _ Hready).
  - intros lim E. split; [auto|]. rewrite blen_nil. auto.
Qed.

(** the bucket answers for the lobe. If the predicates of a statement pin the
    bucket of the lobe's specification, and the records are where it places them and
    compare exactly, the scan of the bucket (or of the pinned satellite in it) returns
    what the scan of the whole lobe returns: the same records in the same order, cut
    at the limit in the same place with the same report of truncation; so does the
    ordered scan, whatever the heap does with ties. *)
Theorem bucket_scan_is_full_scan elapsed limit field descending n :
  (forall lim, limit = Some lim -> 0 <= lim) ->
  scan_primary_gravity_indexed e lobe gravity_hash_ (st_filter_expr stmt) limit 0 elapsed = scan_primary_full_expr e lobe (st_filter_expr stmt) limit /\
  scan_primary_full_expr e lobe (st_filter_expr stmt) limit = Done (capped limit found.*2) /\
  scan_primary_gravity_indexed_topn e lobe gravity_hash_ (st_filter_expr stmt) field descending n =
    scan_primary_topn_expr e lobe (st_filter_expr stmt) field descending n.
Proof.
  intros Hl. pose proof (er_vectors _ _ _ Hready) as Hv. assert ((resolve_gravity_scan_range satellite true lobe gravity_hash_ core_filters).2 = true) as Hres.
  { unfold resolve_gravity_scan_range. by destruct (detect_satellite_eq _ _). }
  pose proof range_rows as Hrows. unfold range in Hrows. split; [|split; [by apply full_scan_spec|]].
  - by rewrite full_scan_spec, bucket_scan_spec.
  - rewrite full_topn_spec. unfold scan_primary_gravity_indexed_topn. rewrite Hcore. cbn [mbind Out_bind]. fold satellite.
    destruct (resolve_gravity_scan_range satellite true lobe gravity_hash_ core_filters) as [[lo hi] res]. cbn [fst snd] in *. subst res.
    rewrite rd_range_spec by apply Hready. cbn [storage mbind Out_bind]. fold (row_of stmt lobe e). unfold topn_of.
    rewrite !topn_loop_spec by by apply row_of_total. by rewrite Hrows.
Qed.
End bucket.

End routes.
