(* ===== verification/ScanAll.v ===== *)
(** * Every way of a scan gives the answer

    A ghost's index, read through its window and back through the records, gives the
    records a scan of the lobe gives; so an unordered statement is answered alike
    whatever the router chooses. *)

From S2P Require Import Prelude ByteOrder Bloom BTree Types Block Tree TreeReads SpatialScan Value FieldDict Lid Filters FilterEq.
From S2P Require Import Record SpatialKey SortEncoding Aggregate GroupKey Rollup Ghost Gravity Router Scan ScanPages ScanRoutes.

(** ** Windows stay within the ghost *)

Lemma between_prefix p k x : (p <= k)%bytes -> (k < p ++ x)%bytes -> starts_with k p = true.
Proof.
  unfold ble, blt. revert k. induction p as [|a p IH]; intros [|b k]; try done. cbn [app]. rewrite !bcmp_cons, (Z.compare_antisym b a). cbn [starts_with].
  destruct (Z.compare_spec b a) as [->|H|H]; cbn; intros H1 H2; try done. rewrite Z.eqb_refl. by apply IH.
Qed.

Lemma below_within p x k : is_bytes (p ++ x) -> is_bytes k -> (p <= k)%bytes -> below_opt k (byte_successor (p ++ x)) = true -> starts_with k p = true.
Proof.
  intros Hp Hk Hle Hb. destruct (bltb k (p ++ x)) eqn:E; [apply bltb_lt in E; by eapply between_prefix|]. apply bltb_ge in E.
  rewrite successor_range in Hb. assert (starts_with k (p ++ x) = true) as H.
  { apply prefix_range; [done|done|]. split; [done|]. unfold below_opt in Hb. case_match; [by apply bltb_lt|done]. }
  apply starts_with_iff in H as [r ->]. rewrite <- app_assoc. apply starts_with_iff. eauto.
Qed.

Lemma le_prefix p x k : (p ++ x <= k)%bytes -> (p <= k)%bytes.
Proof.
  unfold ble. revert k. induction p as [|a p IH]; intros k; [by destruct k|]. cbn [app]. destruct k as [|b k]; [done|]. rewrite !bcmp_cons.
  destruct (a ?= b); cbn; [apply IH|done|done].
Qed.

Lemma window_sound gid inv grouped field filters k :
  Forall (fun f => sort_wf (Some f.2)) filters -> is_bytes k ->
  in_window (seek_window gid inv grouped field filters) k = true -> starts_with k (to_be_bytes 2 gid) = true.
Proof.
  intros Hwf Hk. assert (forall v, exists x, encode_sort_key gid v inv [] = to_be_bytes 2 gid ++ x) as Hkey by (intros v; unfold encode_sort_key; eauto).
  assert (forall o, (forall v, o = Some v -> sort_wf (Some v)) -> exists x, (match o with Some v => encode_sort_key gid (Some v) inv [] | None => to_be_bytes 2 gid end) = to_be_bytes 2 gid ++ x /\
    is_bytes (to_be_bytes 2 gid ++ x) /\ (match o with Some v => byte_successor (encode_sort_key gid (Some v) inv []) | None => byte_successor (to_be_bytes 2 gid) end) = byte_successor (to_be_bytes 2 gid ++ x)) as Ho.
  { intros [v|] Hv.
    - destruct (Hkey (Some v)) as [x E]. exists x. rewrite <- E. split; [done|]. split; [|done]. apply encode_is_bytes; [by apply Hv|constructor].
    - exists []. rewrite app_nil_r. split; [done|]. split; [apply to_be_bytes_is_bytes|done]. }
  assert (forall l h, (forall v, l = Some v -> sort_wf (Some v)) -> (forall v, h = Some v -> sort_wf (Some v)) ->
    in_window (RangeIter (match l with Some v => encode_sort_key gid (Some v) inv [] | None => to_be_bytes 2 gid end)
      (match h with Some v => byte_successor (encode_sort_key gid (Some v) inv []) | None => byte_successor (to_be_bytes 2 gid) end)) k = true ->
    starts_with k (to_be_bytes 2 gid) = true) as Hr.
  { intros l h Hl Hh. destruct (Ho l Hl) as (x & -> & _ & _), (Ho h Hh) as (y & _ & Hy & ->). cbn [in_window]. unfold in_half_open.
    intros [H1%bleb_le H2]%andb_prop. by eapply below_within; [exact Hy|done|eapply le_prefix|]. }
  unfold seek_window, seek_values. destruct grouped; [done|]. pose proof (seek_values_from field filters) as H. destruct (foldl _ _ filters) as [[e l] h].
  destruct H as (He & Hl & Hh). assert (forall ops o, bound_from field ops filters o -> forall v, o = Some v -> sort_wf (Some v)) as Hb.
  { intros ops o Hbo v Ev. destruct (Hbo v Ev) as (op & _ & Hin). rewrite Forall_forall in Hwf. exact (Hwf _ Hin). }
  destruct e as [w|].
  - destruct (Hkey (Some w)) as [x Ex]. cbn [in_window]. rewrite Ex. intros [r ->]%starts_with_iff. rewrite <- app_assoc. apply starts_with_iff. eauto.
  - assert (in_window (if negb inv
      then RangeIter (match l with Some v => encode_sort_key gid (Some v) inv [] | None => to_be_bytes 2 gid end)
             (match h with Some v => byte_successor (encode_sort_key gid (Some v) inv []) | None => byte_successor (to_be_bytes 2 gid) end)
      else RangeIter (match h with Some v => encode_sort_key gid (Some v) inv [] | None => to_be_bytes 2 gid end)
             (match l with Some v => byte_successor (encode_sort_key gid (Some v) inv []) | None => byte_successor (to_be_bytes 2 gid) end)) k = true ->
      starts_with k (to_be_bytes 2 gid) = true) as Hgen by (destruct inv; cbn [negb]; apply Hr; eauto).
    destruct l, h; [exact Hgen..|done].
Qed.

Lemma window_prefix gid inv grouped field filters p :
  Forall (fun f => sort_wf (Some f.2)) filters -> seek_window gid inv grouped field filters = PrefixIter p -> is_bytes p.
Proof.
  intros Hwf. unfold seek_window, seek_values. pose proof (seek_values_from field filters) as H.
  destruct grouped; [intros [= <-]; apply to_be_bytes_is_bytes|]. destruct (foldl _ _ filters) as [[[v|] l] h].
  - intros [= <-]. apply encode_is_bytes; [|constructor]. destruct H as (He & _). destruct (He v eq_refl) as (op & _ & Hin). rewrite Forall_forall in Hwf. exact (Hwf _ Hin).
  - destruct l, h, inv; try done; intros [= <-]; apply to_be_bytes_is_bytes.
Qed.

(** ** Reading a ghost *)

Section ghost_loop.
Context (record_of : bytes * bytes -> Out (option XRecord)) (keep : XRecord -> bool).

Definition kept_row (row : bytes * bytes) : option XRecord :=
  match record_of row with Done (Some r) => if keep r then Some r else None | _ => None end.

Lemma ghost_loop_spec n rows acc : 0 <= n -> total record_of rows -> blen acc <= n ->
  ghost_loop record_of keep n rows acc = Done (take (Z.to_nat n) (acc ++ omap kept_row rows)).
Proof.
  intros Hn Ht. revert acc. induction Ht as [|row rows Hrow _ IH]; intros acc Hacc; cbn [ghost_loop].
  { cbn. rewrite app_nil_r. rewrite take_ge; [done|]. unfold blen in Hacc. lia. }
  destruct (Z.leb_spec n (blen acc)) as [Hfull|Hroom].
  { unfold blen in *. rewrite take_app_le, take_ge by lia. done. }
  cbn [omap list_omap]. unfold kept_row at 1. destruct Hrow as [[r|] ->]; cbn [mbind Out_bind]; [|by apply IH].
  destruct (keep r); [|by apply IH]. rewrite IH; [by rewrite <- app_assoc|]. rewrite blen_app. change (blen [r]) with 1. lia.
Qed.
End ghost_loop.

Lemma omap_lfilter {A B} (P : A -> bool) (f : A -> option B) l : omap f (List.filter P l) = omap (fun x => if P x then f x else None) l.
Proof. induction l as [|x l IH]; [done|]. cbn. destruct (P x); cbn; by rewrite IH. Qed.

Lemma omap_compose {A B C} (f : A -> option B) (g : B -> option C) (l : list A) : omap g (omap f l) = omap (fun x => f x ≫= g) l.
Proof. induction l as [|x l IH]; [done|]. cbn. destruct (f x) as [y|]; cbn; [|by rewrite IH]. destruct (g y); by rewrite IH. Qed.

Lemma omap_elem_ext {A B} (f g : A -> option B) (l : list A) : (forall x, x ∈ l -> f x = g x) -> omap f l = omap g l.
Proof. induction l as [|x l IH]; intros H; [done|]. cbn. rewrite (H x) by left. rewrite IH; [done|]. intros y Hy. apply H. by right. Qed.

Lemma omap_fmap_l {A B C} (f : A -> B) (g : B -> option C) (l : list A) : omap g (f <$> l) = omap (fun x => g (f x)) l.
Proof. induction l as [|x l IH]; [done|]. cbn. destruct (g (f x)); by rewrite IH. Qed.

Section ghost_read.
Context {D : Type} {RD : Reads D} {RL : ReadsLaws D} {SH : SortHeap} {XH : Xxh3} {CT : CursorText}.
Context {PC : Postcard} {VT : ValueText} {GT : GravityText} {VP : ValuePostcard}.
Context (stmt : ScanStmt) (lobe : Z) (e : ScanEngine D).
Hypothesis Hlobe : is_uint 16 lobe.
Hypothesis Hready : engine_ready stmt lobe e.
Hypothesis Hbound : forall f, st_filter_expr stmt = Some f -> is_Some (to_core_expr f).

Let found := answer stmt lobe e.
Let read_row (row : bytes * bytes) : Out XRecord :=
  deserialize_hydrated_with (se_vectors e) row.1 row.2 (lobe_name_for_id e lobe) (bt_get lobe (se_dicts e)).

(** The records of the lobe that a ghost's filter accepts, with their keys. *)
Definition member (meta : GhostMeta) (row : bytes * bytes) : option (XRecord * bytes) :=
  match read_row row with
  | Done r => if bool_decide (matches_filter_expr (fields r) (gm_filter meta) = Some true) then Some (r, row.1) else None
  | _ => None
  end.
Definition ghost_members (meta : GhostMeta) : list (XRecord * bytes) := omap (member meta) (lobe_rows lobe e).

Definition index_entry (meta : GhostMeta) (c : XRecord * bytes) : bytes * bytes :=
  (entry_key meta (fields c.1) c.2, encode_ghost_value c.2 (fields c.1) (gm_projection meta)).

(** The index of a ghost has one entry for every such record, as the maintenance of
    ghosts keeps it. *)
Record index_exact (meta : GhostMeta) (ks : D) : Prop := {
  ie_ok : rd_ok ks;
  ie_keys : Forall (fun kv => is_bytes kv.1) (rd_rows ks);
  ie_rows : List.filter (fun kv => starts_with kv.1 (to_be_bytes 2 (gm_ghost_id meta))) (rd_rows ks) ≡ₚ index_entry meta <$> ghost_members meta;
}.

(** The predicates of a statement and the order of a ghost go together. *)
Record seekable (meta : GhostMeta) (core_filters : list (bytes * FilterOp * Value)) : Prop := {
  sk_dot : existsb (fun c => c =? DOT) (gm_order_by_field meta) = false;
  sk_name : gm_order_by_field meta <> [];
  sk_filters : Forall (fun f => sort_wf (Some f.2)) core_filters;
  sk_values : forall c, c ∈ ghost_members meta -> sort_wf (get_sort_value (fields c.1) (gm_order_by_field meta)) /\
    forall v op w, get_sort_value (fields c.1) (gm_order_by_field meta) = Some v -> (gm_order_by_field meta, op, w) ∈ core_filters -> seek_alike v w;
}.

Section ghost.
Context (name : bytes) (meta : GhostMeta) (ks : D) (core_filters : list (bytes * FilterOp * Value)).
Hypothesis Hghost : bt_get name (se_ghosts e) = Some (meta, lobe_name_for_id e lobe).
Hypothesis Hks : se_ghost_ks e = Some ks.
Hypothesis Hplain : gm_aggregate meta = None /\ gm_projection meta = [].
Hypothesis Hindex : index_exact meta ks.
Hypothesis Hseek : seekable meta core_filters.
Hypothesis Hcore : convert_filter_expr (st_filter_expr stmt) = Done core_filters.
Hypothesis Hans : answered_by (st_filter_expr stmt) meta (fun r => matches_filters r core_filters).

Let record_of := ghost_record e meta (lobe_name_for_id e lobe) (bt_get lobe (se_dicts e)).
Let keep := fun r => has_projection meta || matches_filters (fields r) core_filters.
Let window := seek_window (gm_ghost_id meta) (gm_sort_inverted meta) (is_grouped meta) (gm_order_by_field meta) core_filters.

Lemma member_row c : c ∈ ghost_members meta -> exists blob k, (c.2, blob) ∈ rd_rows (se_spatial e) /\ read_row (c.2, blob) = Done c.1 /\ key_wf k /\ c.2 = to_bytes k.
Proof.
  intros ([key blob] & Hin & E)%list_elem_of_omap. unfold member in E. destruct (read_row (key, blob)) as [r| |] eqn:Ed; try done. case_bool_decide; [|done].
  injection E as <-. cbn [fst snd]. apply elem_of_lfilter in Hin as [Hin _]. pose proof (er_keys _ _ _ Hready) as Hk. rewrite Forall_forall in Hk.
  destruct (Hk _ Hin) as (k & Hk1 & Hk2). exists blob, k. done.
Qed.

(** The entry of a record leads back to it. *)
Lemma entry_record c : c ∈ ghost_members meta -> record_of (index_entry meta c) = Done (Some c.1).
Proof.
  intros Hc. destruct (member_row c Hc) as (blob & k & Hin & Ed & Hk & Ek). unfold record_of, ghost_record, has_projection, index_entry. cbn [fst snd].
  destruct Hplain as [_ Hp]. rewrite Hp. cbn [encode_ghost_value]. assert (blen c.2 = SPATIAL_KEY_SIZE) as El by (rewrite Ek; apply to_bytes_length).
  assert (take (Z.to_nat SPATIAL_KEY_SIZE) c.2 = c.2) as -> by (apply take_ge; unfold blen in El; lia). rewrite El, Z.ltb_irrefl.
  rewrite rd_get_spec by apply Hready. rewrite (row_get_elem _ _ _ (rd_sorted _ (er_spatial _ _ _ Hready)) Hin). unfold read_row in Ed. cbn [fst snd] in Ed. by rewrite Ed.
Qed.

Lemma entry_in_window c : c ∈ ghost_members meta -> matches_filters (fields c.1) core_filters = true -> in_window window (entry_key meta (fields c.1) c.2) = true.
Proof.
  intros Hc Hm. destruct (sk_values _ _ Hseek c Hc) as [Hv Ha]. destruct (member_row c Hc) as (_ & k & _ & _ & _ & Ek).
  unfold window, entry_key, ghost_entry_tiebreak. assert (group_fields meta = []) as -> by (unfold group_fields; by rewrite (proj1 Hplain)).
  apply window_complete; [apply Hseek..|done|done|done|]. rewrite Ek. apply to_bytes_is_bytes.
Qed.

(** What the loop keeps is the answer. *)
Lemma ghost_rows_answer :
  omap (kept_row record_of keep) (List.filter (fun kv => in_window window kv.1) (rd_rows ks)) ≡ₚ found.*2.
Proof.
  assert (List.filter (fun kv => in_window window kv.1) (rd_rows ks) =
    List.filter (fun kv => in_window window kv.1) (List.filter (fun kv => starts_with kv.1 (to_be_bytes 2 (gm_ghost_id meta))) (rd_rows ks))) as ->.
  { rewrite filter_filter. apply filter_ext_in. intros [k v] Hin. cbn [fst]. destruct (in_window window k) eqn:E; [|done]. cbn. symmetry.
    pose proof (ie_keys _ _ Hindex) as Hb. rewrite Forall_forall in Hb. eapply window_sound; [apply Hseek|apply (Hb _ Hin)|exact E]. }
  rewrite omap_lfilter, (ie_rows _ _ Hindex), omap_fmap_l.
  assert (omap (fun c => if in_window window (index_entry meta c).1 then kept_row record_of keep (index_entry meta c) else None) (ghost_members meta) =
    omap (fun c : XRecord * bytes => if matches_filters (fields c.1) core_filters then Some c.1 else None) (ghost_members meta)) as ->.
  { apply omap_elem_ext. intros c Hc. unfold kept_row. rewrite entry_record by done. unfold keep, has_projection. rewrite (proj2 Hplain). cbn [orb].
    destruct (matches_filters (fields c.1) core_filters) eqn:Em; [|by case_match]. unfold index_entry. cbn [fst]. by rewrite entry_in_window. }
  unfold found, answer, hits, ghost_members. rewrite omap_compose.
  assert (forall l : list (bytes * bytes), (omap (hit (row_of stmt lobe e)) l).*2 = omap (fun row => snd <$> hit (row_of stmt lobe e) row) l) as Hs.
  { clear. induction l as [|row l IH]; [done|]. cbn. destruct (hit _ row); cbn; by rewrite IH. }
  rewrite Hs. erewrite omap_elem_ext; [reflexivity|]. intros row _. unfold hit, row_of, row_record, member. fold (read_row row). destruct (read_row row) as [r| |]; try done.
  rewrite (Hans (fields r)). destruct (matches_filter_expr (fields r) (gm_filter meta)) as [[|]|];
    [rewrite bool_decide_true by done|rewrite bool_decide_false by done..]; cbn; try done. by destruct (matches_filters (fields r) core_filters).
Qed.

Lemma record_of_total rows : total record_of rows.
Proof.
  apply Forall_forall. intros row _. unfold record_of, ghost_record. destruct (has_projection meta); [eauto|]. destruct (_ <? _); [eauto|].
  rewrite rd_get_spec by apply Hready. destruct (row_get _ _) as [blob|]; [|eauto]. unfold deserialize_hydrated_with.
  destruct (deserialize_record _ _ _); [|eauto]. destruct (_ =? 5); [|eauto]. case (bt_get lobe (se_dicts e)); [intros fd|eauto].
  rewrite rd_get_spec by apply Hready. destruct (row_get _ _); eauto.
Qed.

Lemma read_topn_spec n : 0 <= n ->
  exists l, l ≡ₚ found.*2 /\ read_topn e name n (filter_expr_to_flat (st_filter_expr stmt)) (bt_get lobe (se_dicts e)) = Done (take (Z.to_nat n) l).
Proof.
  intros Hn. exists (omap (kept_row record_of keep) (List.filter (fun kv => in_window window kv.1) (rd_rows ks))). split; [apply ghost_rows_answer|].
  unfold read_topn. rewrite Hghost, Hks. unfold convert_filter_expr in Hcore. rewrite Hcore. cbn [mbind Out_bind]. fold window.
  assert (window_rows ks window = Ok (List.filter (fun kv => in_window window kv.1) (rd_rows ks))) as ->.
  { unfold window_rows. destruct window eqn:Ew; cbn [in_window].
    - apply rd_prefix_spec; [apply Hindex|]. by eapply window_prefix; [apply Hseek|exact Ew].
    - apply rd_range_iter_spec, Hindex. }
  cbn [storage mbind Out_bind]. fold record_of. fold keep. rewrite ghost_loop_spec; [done|done|apply record_of_total|by rewrite blen_nil].
Qed.
End ghost.
End ghost_read.

(** ** The statement *)

Definition outcome (q : QueryResult) : list XRecord * bool :=
  match q with Records records => (records, false) | PaginatedRecords records _ has_more => (records, has_more) end.

(** A result that is as much of the answer as the limit allows, and says whether that
    is all of it. *)
Definition answers (q : QueryResult) (limit : Z) (l : list XRecord) : Prop :=
  exists rest, (outcome q).1 ++ rest ≡ₚ l /\ blen (outcome q).1 = Z.min limit (blen l) /\ (outcome q).2 = (limit <? blen l).

Lemma capped_answers lim l l' : 0 <= lim -> l' ≡ₚ l -> answers (signal Capped (capped (Some lim) l').1 (capped (Some lim) l').2) lim l.
Proof.
  intros Hl Hp. assert (blen l' = blen l) as El by (unfold blen; by rewrite Hp). unfold capped. rewrite El. destruct (Z.ltb_spec lim (blen l)) as [Hlt|Hge]; cbn [fst snd signal].
  - exists (drop (Z.to_nat lim) l'). cbn [outcome fst snd]. rewrite take_drop. split; [done|]. unfold blen in *. rewrite length_take. split; [lia|]. symmetry. by apply Z.ltb_lt.
  - exists []. cbn [outcome fst snd]. rewrite app_nil_r. split; [done|]. split; [lia|]. symmetry. by apply Z.ltb_ge.
Qed.

Section all.
Context {D : Type} {RD : Reads D} {RL : ReadsLaws D} {SH : SortHeap} {XH : Xxh3} {CT : CursorText}.
Context {PC : Postcard} {VT : ValueText} {GT : GravityText} {VP : ValuePostcard}.
Context (stmt : ScanStmt) (lobe limit : Z) (core_filters : list (bytes * FilterOp * Value)).
Hypothesis Hlobe : is_uint 16 lobe /\ is_uint 16 (lobe + 1).
Hypothesis Hbound : forall f, st_filter_expr stmt = Some f -> is_Some (to_core_expr f).
Hypothesis Hcore : convert_filter_expr (st_filter_expr stmt) = Done core_filters.
Hypothesis Hlimit : default SCAN_LIMIT_DEFAULT (st_limit stmt) = limit /\ 0 < limit <= SCAN_LIMIT_HARD_MAX.
Hypothesis Hplain : st_order_by stmt = None /\ st_cursor stmt = None.
Hypothesis Hcursor : cursor_laws.

(** The records are where the gravity of the lobe places them. *)
Definition gravity_kept (e : ScanEngine D) : Prop :=
  forall spec h, bt_get (st_lobe stmt) (se_gravity e) = Some spec -> pinned_gravity_hash spec core_filters = Some h ->
    placed stmt lobe e spec /\ comparable stmt lobe e spec core_filters.

(** The router describes the ghosts it knows, of which some may be gone; those that are
    there have exact indexes. *)
Definition ghosts_kept (e : ScanEngine D) : Prop :=
  forall router, bt_get lobe (se_routers e) = Some router ->
    exists ghosts, router_inv ghosts router /\ no_vacuous_match router (st_filter_expr stmt) /\
      forall name meta source_lobe, bt_get name (se_ghosts e) = Some (meta, source_lobe) ->
        ghosts name = Some meta /\ source_lobe = lobe_name_for_id e lobe /\
        exists ks, se_ghost_ks e = Some ks /\ index_exact lobe e meta ks /\ seekable lobe e meta core_filters.

Lemma unordered_spec e elapsed :
  engine_ready stmt lobe e -> gravity_kept e ->
  scan_unordered e lobe stmt core_filters (Some limit) (Some limit) 0 elapsed = Done (capped (Some limit) (answer stmt lobe e).*2).
Proof.
  intros He Hg. destruct Hlobe as [Hl _], Hlimit as [_ Hlim]. unfold scan_unordered, detect_gravity_eq.
  destruct (bt_get (st_lobe stmt) (se_gravity e)) as [spec|] eqn:Es; [|apply full_scan_spec; [done|done|by intros ? [= <-]; lia]].
  destruct (pinned_gravity_hash spec core_filters) as [h|] eqn:Eh; [|apply full_scan_spec; [done|done|by intros ? [= <-]; lia]].
  destruct (Hg spec h Es Eh) as [Hp Hc]. eapply bucket_scan_spec; [done..|]. intros ? [= <-]. lia.
Qed.

Lemma paged_spec e :
  engine_ready stmt lobe e ->
  exists records cursor has_more, first_page e lobe stmt limit = Done (records, cursor, has_more) /\
    answers (if has_more then PaginatedRecords records cursor true else Records records) limit (answer stmt lobe e).*2.
Proof.
  intros He. destruct Hlimit as [_ Hlim]. assert (forall k : bytes, None = Some k -> lobe_key lobe k) as Hnone by done.
  unfold first_page. destruct (page_spec stmt lobe limit Hlobe Hbound Hlimit e None He Hnone) as
    [(pg & Hp & Hm & Erec & Hle)|(pg & h1 & x & h2 & Hp & Hm & Erec & Etail & Ea & Elen)]; rewrite Hp; cbn [mbind Out_bind after] in *.
  - unfold next_cursor. rewrite Hm. cbn [mbind Out_bind]. eexists _, _, _. split; [reflexivity|]. rewrite Erec. exists []. cbn [outcome fst snd]. rewrite app_nil_r.
    split; [done|]. unfold blen in *. rewrite length_fmap. split; [lia|]. symmetry. apply Z.ltb_ge. lia.
  - assert (exists k, last h1.*1 = Some k) as [k Ek].
    { destruct (last h1.*1) as [k|] eqn:E; [eauto|]. apply last_None, fmap_nil_inv in E. subst h1. rewrite blen_nil in Elen. lia. }
    destruct (next_cursor_spec stmt lobe Hcursor pg k Hm) as (t & -> & _); [by rewrite Etail|]. cbn [mbind Out_bind]. eexists _, _, _. split; [reflexivity|]. rewrite Hm, Erec, Ea.
    exists (x :: h2).*2. cbn [outcome fst snd]. rewrite fmap_app. split; [done|]. unfold blen in *. rewrite length_app, !length_fmap. cbn [length]. split; [lia|]. symmetry. apply Z.ltb_lt. lia.
Qed.

(** C15: whatever way a scan takes, it gives the answer. For a statement without an
    order or a cursor, with a limit from 1 to the hard maximum, over an engine whose records
    are where their gravity places them and compare exactly where the filters pin it
    ([gravity_kept]), and whose ghosts' indexes are exact and seekable for the filters, none
    of them with an empty filter under a query that is no conjunction ([ghosts_kept]), the
    result holds, as far as the limit allows, the matching records of the lobe and no
    others, each once, and says truthfully whether there are more: whether the router sends
    it to a ghost, to a ghost that is gone, to a bucket or to the lobe. *)
Theorem scan_any_route e elapsed :
  engine_ready stmt lobe e -> gravity_kept e -> ghosts_kept e ->
  exists q, (execute_scan e stmt elapsed).2 = Done q /\ answers q limit (answer stmt lobe e).*2.
Proof.
  intros He Hg Hgh. destruct Hplain as [Ho Hc], Hlimit as [Elim Hlim]. unfold execute_scan, execute_scan_inner, validate_scan_limit_cap. rewrite Ho, Hc, (er_lobe _ _ _ He), Hcore.
  assert ((match st_limit stmt with Some l => if SCAN_LIMIT_HARD_MAX <? l then Failed (InvalidQuery "LIMIT exceeds hard maximum") else Done tt | None => Done tt end) = Done tt) as ->.
  { destruct (st_limit stmt) as [l|]; [|done]. cbn in Elim. subst l. by rewrite (proj2 (Z.ltb_ge _ _)) by lia. }
  assert (match st_limit stmt with Some l => Some l | None => Some SCAN_LIMIT_DEFAULT end = Some limit) as Esl by (destruct (st_limit stmt); cbn in Elim; congruence).
  cbv zeta. rewrite Esl. unfold execute_scan_source. rewrite Ho.
  assert (forall e', engine_ready stmt lobe e' -> gravity_kept e' -> answer stmt lobe e' = answer stmt lobe e ->
    exists q, (finish e' Capped (scan_unordered e' lobe stmt core_filters (Some limit) (Some limit) 0 elapsed)).2 = Done q /\ answers q limit (answer stmt lobe e).*2) as Hun.
  { intros e' He' Hg' Ea. unfold finish. cbn [snd]. rewrite unordered_spec, Ea by done. rewrite (surjective_pairing (capped _ _)). cbn [mbind Out_bind].
    eexists. split; [reflexivity|]. apply capped_answers; [lia|done]. }
  destruct (route e lobe stmt core_filters) as [|name|name] eqn:Er.
  - unfold detect_gravity_eq. destruct (bt_get (st_lobe stmt) (se_gravity e)) as [spec|] eqn:Es.
    1: destruct (pinned_gravity_hash spec core_filters) as [h|] eqn:Eh.
    1: { pose proof (Hun e He Hg eq_refl) as H. unfold scan_unordered, detect_gravity_eq in H. by rewrite Es, Eh in H. }
    all: cbn [snd from_option id]; destruct (paged_spec e He) as (records & cursor & has_more & -> & Ha); cbn [mbind Out_bind]; eauto.
  - unfold route in Er. destruct (bt_get lobe (se_routers e)) as [router|] eqn:Ert; [|done]. destruct (has_ghosts router); [|done].
    destruct (Hgh router Ert) as (ghosts & HI & Hv & Hpresent).
    assert (query_tuples (st_filter_expr stmt) = Some core_filters) as Hq.
    { unfold convert_filter_expr in Hcore. unfold query_tuples. by destruct (convert_filters _); [injection Hcore as ->|]. }
    destruct (plan_scan_ghost _ _ _ _ _ _ _ _ _ _ HI Hq Hv Er) as (meta & Hm & Ha & Hp & Hans & _).
    destruct (bt_get name (se_ghosts e)) as [[meta' source]|] eqn:Eg.
    + destruct (Hpresent _ _ _ Eg) as (Em & -> & ks & Eks & Hi & Hs). assert (meta' = meta) as -> by congruence.
      destruct (read_topn_spec stmt lobe e He name meta ks core_filters Eg Eks (conj Ha Hp) Hi Hs Hcore Hans (u64_saturating_add limit 1)) as (l & Hl & ->).
      { unfold u64_saturating_add. lia. }
      unfold finish. cbn [snd]. set (r := take _ l). assert (capped (Some limit) l = if limit <? blen r then (take (Z.to_nat limit) r, true) else (r, false)) as <-.
      { unfold SCAN_LIMIT_HARD_MAX in Hlim. unfold capped, r, u64_saturating_add. rewrite Z.min_l by lia. unfold blen. rewrite length_take.
        destruct (Z.ltb_spec limit (Z.of_nat (length l))), (Z.ltb_spec limit (Z.of_nat (Z.to_nat (limit + 1) `min` length l))); try lia.
        - f_equal. rewrite take_take. f_equal. lia.
        - by rewrite take_ge by lia. }
      rewrite (surjective_pairing (capped _ _)). cbn [mbind Out_bind]. eexists. split; [reflexivity|]. apply capped_answers; [lia|done].
    + unfold read_topn. rewrite Eg. unfold fallback_unregister_ghost. rewrite Ert. apply Hun; [|done..]. destruct He. constructor; done.
  - by apply Hun.
Qed.
End all.
