(* ===== verification/ScanTree.v ===== *)
(** * Scans over the storage engine

    The trees of the storage engine keep the promises scans rely on. *)

From S2P Require Import Prelude ByteOrder BTree Types Block Bloom Memtable Merge Streams TableMeta TableWriter TableReader.
From S2P Require Import Version Leveled Paths Worker Manifest Tree TreeReads TreeSteps TreeCompact TreeOpen TreeMajor TreeRun TreeTheorems.
From S2P Require Import SpatialScan Value FieldDict Lid Filters FilterEq Record SpatialKey SortEncoding Aggregate GroupKey Rollup Ghost Gravity Router.
From S2P Require Import Scan ScanPages.

Section tree.
Context {XH : Xxh3} {CD : Codecs} {SM : SkipMap} {BH : BinaryHeap}.
(** [Display] of the errors *)
Context (display : Error -> string).

Definition as_rows (r : Result (list Entry)) : Result (list (bytes * bytes)) :=
  match r with Ok es => Ok (pair_of <$> es) | Err e => Err e | Panic => Panic end.

Definition tree_reads : Reads Tree := {|
  rd_prefix_iter := fun t p => as_rows (prefix_iter t p);
  rd_range_stream := fun t lo hi => as_rows (range_stream t lo hi);
  rd_range_iter := fun t lo hi => as_rows (range_iter t lo hi);
  rd_get := get;
  rd_display := display;
|}.

(** The rows of a tree that satisfies the invariant and merges nothing. *)
Definition tree_ok (t : Tree) : Prop := sv_ok (t_merge_operator t) (t_current t) /\ t_merge_operator t = None.
Definition tree_rows (t : Tree) : list (bytes * bytes) := match scan_all t with Ok es => pair_of <$> es | _ => [] end.

Lemma tree_rows_spec t : tree_ok t -> exists es, tree_rows t = pair_of <$> es /\
  scan_result (t_merge_operator t) (t_seqno t) (contents (t_current t)) (fun _ => true) es.
Proof. intros [Hok _]. destruct (scan_all_spec t Hok) as (es & E & Hs). exists es. unfold tree_rows. by rewrite E. Qed.

Lemma pairs_filter (P : bytes -> bool) (es : list Entry) : pair_of <$> List.filter (fun x => P (key x)) es = List.filter (fun kv => P kv.1) (pair_of <$> es).
Proof. induction es as [|x es IH]; [done|]. cbn. destruct (P (key x)); cbn; by rewrite IH. Qed.

(** A scan of part of the keys is the part of the full scan. *)
Lemma partial_rows t pred rows :
  tree_ok t -> scan_result (t_merge_operator t) (t_seqno t) (contents (t_current t)) pred rows ->
  pair_of <$> rows = List.filter (fun kv => pred kv.1) (tree_rows t).
Proof.
  intros Hok [Hs Hc]. destruct (tree_rows_spec t Hok) as (es & -> & Hs' & Hc'). rewrite <- pairs_filter. apply rows_ext; [done|by apply sorted_lfilter|].
  intros k v. rewrite Hc. split.
  - intros [Hp Hv]. destruct (proj2 (Hc' k v)) as (x & Hin & <- & <-); [done|]. exists x. split; [by apply elem_of_lfilter|done].
  - intros (x & [Hin Hp]%elem_of_lfilter & <- & <-). split; [done|]. apply Hc'. eauto.
Qed.

Definition tree_reads_laws : ReadsLaws Tree (RD := tree_reads).
Proof.
  refine {| rd_ok := tree_ok; rd_rows := tree_rows |}.
  - intros t Hok. destruct (tree_rows_spec t Hok) as (es & -> & Hs & _). by apply rows_sorted.
  - intros t p Hok Hp. destruct (prefix_iter_spec t p (proj1 Hok) Hp) as (rows & E & Hs). cbn [rd_prefix_iter tree_reads]. rewrite E. cbn [as_rows]. f_equal. by apply (partial_rows t (fun k => starts_with k p)).
  - intros t lo hi Hok. destruct (range_stream_spec t lo hi (proj1 Hok)) as (rows & E & Hs). cbn [rd_range_stream tree_reads]. rewrite E. cbn [as_rows]. f_equal. by apply (partial_rows t (in_closed lo hi)).
  - intros t lo hi Hok. destruct (range_iter_spec t lo hi (proj1 Hok)) as (rows & E & Hs). cbn [rd_range_iter tree_reads]. rewrite E. cbn [as_rows]. f_equal. by apply (partial_rows t (in_half_open lo hi)).
  - intros t k Hok. cbn [rd_get tree_reads]. unfold get. rewrite get_at_view; [|apply Hok|by rewrite (proj2 Hok)]. f_equal.
    destruct (tree_rows_spec t Hok) as (es & E & Hs & Hc). rewrite E. destruct (view _ _ _ _) as [v|] eqn:Ev.
    + destruct (proj2 (Hc k v)) as (x & Hin & <- & <-); [done|]. symmetry. apply row_get_elem; [by apply rows_sorted|]. apply list_elem_of_fmap. by exists x.
    + unfold row_get. destruct (List.find _ _) as [[k' v']|] eqn:Ef; [|done]. exfalso. apply find_some in Ef as [Hin Hk]. cbn in Hk. apply beqb_eq in Hk as ->.
      apply list_elem_of_In, list_elem_of_fmap in Hin as (x & Ex & Hin). injection Ex as -> ->. destruct (proj1 (Hc (key x) (value x))) as [_ Hv]; [eauto|]. congruence.
Defined.
End tree.
