(* ===== verification/ScanSample.v ===== *)
(** * Scans of a small lobe

    Instances of what scans use, and a lobe of three records, read page by page, by
    its bucket, in an order and through a ghost. *)

From S2P Require Import Prelude ByteOrder Bloom BTree Types Block Tree TreeReads SpatialScan Value FieldDict Lid Filters FilterEq.
From S2P Require Import Record SpatialKey SortEncoding Aggregate GroupKey Rollup Ghost GhostSample Gravity Router Scan ScanPages ScanRoutes ScanAll.

(** ** Trees as lists of rows *)

Definition row_list : Type := list (bytes * bytes).

#[local] Instance list_reads : Reads row_list := {|
  rd_prefix_iter := fun d p => Ok (List.filter (fun kv => starts_with kv.1 p) d);
  rd_range_stream := fun d lo hi => Ok (List.filter (fun kv => in_closed lo hi kv.1) d);
  rd_range_iter := fun d lo hi => Ok (List.filter (fun kv => in_half_open lo hi kv.1) d);
  rd_get := fun d k => Ok (row_get k d);
  rd_display := fun _ => EmptyString;
|}.

#[local] Instance list_reads_laws : ReadsLaws row_list.
Proof. refine {| rd_ok := StronglySorted row_lt; rd_rows := fun d => d |}; done. Defined.

(** ** A heap as a list, the greatest first *)

Fixpoint heap_insert {A} (cmp : A -> A -> comparison) (x : A) (l : list A) : list A :=
  match l with
  | [] => [x]
  | y :: l' => match cmp x y with Lt => y :: heap_insert cmp x l' | _ => x :: y :: l' end
  end.

#[local] Instance list_sort_heap : SortHeap := {|
  sheap := list;
  sheap_new := fun A => [];
  sheap_push := fun A cmp x l => heap_insert cmp x l;
  sheap_pop := fun A cmp l => match l with [] => (None, []) | x :: l' => (Some x, l') end;
  sheap_into_sorted_vec := fun A cmp l => reverse l;
  sheap_len := fun A l => blen l;
|}.

Lemma heap_insert_perm {A} cmp (x : A) l : heap_insert cmp x l ≡ₚ x :: l.
Proof. induction l as [|y l IH]; [done|]. cbn. destruct (cmp x y); [done| |done]. rewrite IH. constructor. Qed.

Lemma heap_insert_sorted {A} cmp (x : A) l :
  StronglySorted (fun a b => cmp b a <> Gt) l -> total_on cmp (x :: l) -> StronglySorted (fun a b => cmp b a <> Gt) (heap_insert cmp x l).
Proof.
  induction 1 as [|y l Hs IH Hy]; intros Ht; [repeat constructor|]. cbn.
  assert (x ∈ x :: y :: l /\ y ∈ x :: y :: l) as [Hx Hy'] by (split; [left|right; left]). pose proof (proj1 Ht x y Hx Hy') as Hopp. rewrite Forall_forall in Hy.
  assert (cmp x y <> Lt -> StronglySorted (fun a b => cmp b a <> Gt) (x :: y :: l)) as Hfirst.
  { intros Hne. assert (cmp y x <> Gt) as Hyx by (rewrite Hopp; by destruct (cmp x y)). constructor; [by constructor; [|apply Forall_forall]|].
    apply Forall_forall. intros z [->|Hz]%elem_of_cons; [done|]. eapply (proj2 Ht z y x); [right; by right|done|done|by apply Hy|done]. }
  destruct (cmp x y) eqn:E; [by apply Hfirst| |by apply Hfirst]. constructor.
  - apply IH. eapply total_on_sub; [|exact Ht]. intros z [->|Hz]%elem_of_cons; [left|right; by right].
  - apply Forall_forall. intros z. rewrite heap_insert_perm. intros [->|Hz]%elem_of_cons; [by rewrite E|by apply Hy].
Qed.

Lemma sorted_reverse {A} (R : A -> A -> Prop) l : StronglySorted (fun a b => R b a) l -> StronglySorted R (reverse l).
Proof.
  induction 1 as [|x l _ IH Hx]; [constructor|]. rewrite reverse_cons. apply StronglySorted_app. split; [|split; [done|repeat constructor]].
  intros a b Ha Hb. rewrite elem_of_reverse in Ha. apply list_elem_of_singleton in Hb as ->. rewrite Forall_forall in Hx. by apply Hx.
Qed.

#[local] Instance list_sort_heap_laws : SortHeapLaws list_sort_heap.
Proof.
  refine {| sheap_elems := fun A l => l : list A; sheap_inv := fun A cmp l => StronglySorted (fun a b => cmp b a <> Gt) (l : list A) |}; cbn.
  - done.
  - constructor.
  - done.
  - intros A cmp x h Hi Ht. split; [by apply heap_insert_sorted|apply heap_insert_perm].
  - intros A cmp h Hi Ht Hne. destruct h as [|x h]; [done|]. apply StronglySorted_inv in Hi as [Hi Hx]. exists x. split_and!; try done. by apply Forall_forall.
  - intros A cmp h Hi Ht. split; [by rewrite reverse_Permutation|]. by apply sorted_reverse.
Defined.

(** ** Tokens and blobs *)

#[local] Instance sample_cursor_text : CursorText := {|
  cursor_to_text := fun p => Some (cp_format_ver p :: cp_lobe_id p :: cp_filter_checksum p :: cp_last_spatial_key p);
  cursor_of_base64 := Some;
  cursor_of_postcard := fun b => match b with v :: l :: c :: k => Some (mkCursor v l k c) | _ => None end;
  debug_filter_expr := fun _ => [];
|}.

Lemma sample_cursor_laws : cursor_laws.
Proof. intros p. eexists. split; [reflexivity|]. by destruct p. Qed.

Definition acme_doc (n : Z) (tenant : bytes) : XRecord := mkRecord n (str "docs") [(str "n", Int n); (str "tenant", Text tenant)] 0 0.

#[local] Instance sample_blobs : Postcard := {|
  to_allocvec_names := fun _ => []; from_bytes_names := fun _ => None; to_allocvec_ids := fun _ => []; from_bytes_ids := fun _ => None;
  bincode_deserialize := fun b =>
    match b with [n; t] => Some (acme_doc n (if t =? 0 then str "acme" else str "umbrella")) | _ => None end;
|}.

#[local] Existing Instances sample_xxh3 sample_text sample_gravity_text sample_value_postcard.

(** ** The lobe *)

Definition by_tenant : GravitySpec := Raw (str "tenant").
Definition doc_key (n : Z) (tenant : bytes) (seq : Z) : SpatialKey :=
  placement_key 3 (placement_hash None [] (Some by_tenant) [] (fields (acme_doc n tenant))) None (fields (acme_doc n tenant)) 7 seq.
Definition doc_row (n t seq : Z) : bytes * bytes := (to_bytes (doc_key n (if t =? 0 then str "acme" else str "umbrella") seq), [n; t]).

(** In the order of their keys. *)
Definition doc_rows : row_list := Eval vm_compute in
  stable_sort (fun a b => bleb a.1 b.1) [doc_row 30 0 1; doc_row 10 0 2; doc_row 20 1 3].

Definition acme_stmt : ScanStmt := mkScan (str "docs") (Some (Condition (mkFilter (str "tenant") Eq_ (LText (str "acme"))))) None (Some 1) None.

Definition index_by_n : GhostMeta := mkGhost 9 (And []) (str "n") false 1 0 None [] 0 None false.
Definition index_rows : row_list := Eval vm_compute in
  stable_sort (fun a b => bleb a.1 b.1)
    ((fun kv => match bincode_deserialize kv.2 with
                | Some r => (entry_key index_by_n (fields r) kv.1, encode_ghost_value kv.1 (fields r) [])
                | None => ([], []) end) <$> doc_rows).

Definition docs_engine (gravity : BTreeMap bytes GravitySpec) (routers : BTreeMap Z GhostRouter) : ScanEngine row_list :=
  mkScanEngine doc_rows [] (Some index_rows) [(str "docs", 3)] [] gravity [] [] [(str "by_n", (index_by_n, str "docs"))] routers.

Definition plain_engine : ScanEngine row_list := docs_engine [] [].

Lemma doc_rows_sorted : StronglySorted row_lt doc_rows.
Proof. repeat constructor. Qed.

Lemma doc_rows_spatial : Forall spatial_row doc_rows.
Proof. repeat constructor; match goal with |- spatial_row (?k, _) => exists (from_bytes k) end; (split; [vm_compute; repeat split; congruence|vm_compute; reflexivity]). Qed.

Lemma docs_ready gravity routers : engine_ready acme_stmt 3 (docs_engine gravity routers).
Proof. constructor; [apply doc_rows_sorted|constructor|apply doc_rows_spatial|reflexivity]. Qed.

Lemma acme_bound f : st_filter_expr acme_stmt = Some f -> is_Some (to_core_expr f).
Proof. intros [= <-]. by eexists. Qed.

Lemma acme_answer gravity routers :
  (lid <$> (answer acme_stmt 3 (docs_engine gravity routers)).*2) = [30; 10] /\ length (answer acme_stmt 3 (docs_engine gravity routers)) = 2%nat.
Proof. split; vm_compute; reflexivity. Qed.

(** Two pages of one record each. *)
Lemma cursors_see_the_lobe_once_witness :
  exists m pages, (1 <= m <= 2)%nat /\ session (fun _ => 0) acme_stmt None (replicate m plain_engine) = Some pages /\ (lid <$> concat pages) = [30; 10].
Proof.
  assert (reads_lobe acme_stmt 3 plain_engine) as Hr by (eexists; split_and!; vm_compute; reflexivity).
  destruct (cursors_see_the_lobe_once acme_stmt 3 1) with (elapsed := fun _ : Z => 0) as [_ H].
  - split; split; vm_compute; congruence.
  - exact acme_bound.
  - split; [reflexivity|]. unfold SCAN_LIMIT_HARD_MAX. lia.
  - reflexivity.
  - exact sample_cursor_laws.
  - destruct (acme_answer [] []) as [Ha Hl]. change (docs_engine [] []) with plain_engine in Ha, Hl.
    destruct (H plain_engine 2%nat (docs_ready [] []) Hr) as (m & pages & Hm & Es & Ec); [rewrite Hl; cbn; lia|].
    exists m, pages. split; [exact Hm|]. split; [exact Es|]. rewrite Ec. exact Ha.
Defined.

(** ** The bucket *)

Definition bucket_engine : ScanEngine row_list := docs_engine [(str "docs", by_tenant)] [].
Definition acme_filters : list (bytes * FilterOp * Value) := [(str "tenant", Eq_, Text (str "acme"))].
Definition acme_hash : Z := Eval vm_compute in default 0 (pinned_gravity_hash by_tenant acme_filters).

Lemma doc_rows_cases row : row ∈ doc_rows -> row = doc_row 30 0 1 \/ row = doc_row 10 0 2 \/ row = doc_row 20 1 3.
Proof.
  assert (doc_rows = stable_sort (fun a b => bleb a.1 b.1) [doc_row 30 0 1; doc_row 10 0 2; doc_row 20 1 3]) as -> by (vm_compute; reflexivity).
  rewrite stable_sort_perm, !elem_of_cons, elem_of_nil. tauto.
Qed.

Lemma doc_keys_wf : key_wf (doc_key 30 (str "acme") 1) /\ key_wf (doc_key 10 (str "acme") 2) /\ key_wf (doc_key 20 (str "umbrella") 3).
Proof. repeat split; vm_compute; congruence. Qed.

Lemma doc_read gravity routers key :
  row_of acme_stmt 3 (docs_engine gravity routers) (key, [30; 0]) = Done (Some (acme_doc 30 (str "acme"))) /\
  row_of acme_stmt 3 (docs_engine gravity routers) (key, [10; 0]) = Done (Some (acme_doc 10 (str "acme"))) /\
  row_of acme_stmt 3 (docs_engine gravity routers) (key, [20; 1]) = Done None.
Proof. split_and!; vm_compute; reflexivity. Qed.

Lemma docs_placed gravity routers : placed acme_stmt 3 (docs_engine gravity routers) by_tenant.
Proof.
  intros k v r Hin%elem_of_lfilter Hk Hr. destruct Hin as [Hin _]. apply doc_rows_cases in Hin. destruct (doc_read gravity routers (to_bytes k)) as (R1 & R2 & R3).
  destruct doc_keys_wf as (W1 & W2 & W3). unfold doc_row in Hin.
  assert (forall n t q, key_wf (doc_key n t q) -> to_bytes k = to_bytes (doc_key n t q) -> r = acme_doc n t ->
    exists gravity_fields anchors now seq, k = placement_key 3 (placement_hash None gravity_fields (Some by_tenant) anchors (fields r)) None (fields r) now seq) as Hone.
  { intros n t q Hw E ->. exists [], [], 7, q. apply (f_equal from_bytes) in E. rewrite !from_to_bytes in E by done. exact E. }
  destruct Hin as [E|[E|E]]; apply pair_equal_spec in E as [Ek Ev]; subst v.
  - rewrite R1 in Hr. injection Hr as <-. by apply (Hone 30 (str "acme") 1).
  - rewrite R2 in Hr. injection Hr as <-. by apply (Hone 10 (str "acme") 2).
  - rewrite R3 in Hr. discriminate Hr.
Qed.

Lemma acme_fields gravity routers h : h ∈ answer acme_stmt 3 (docs_engine gravity routers) ->
  exists n, fields h.2 = [(str "n", Int n); (str "tenant", Text (str "acme"))].
Proof.
  intros (row & Hin & _ & Hr)%hits_elem. apply elem_of_lfilter in Hin as [Hin _]. apply doc_rows_cases in Hin.
  destruct (doc_read gravity routers row.1) as (R1 & R2 & R3). destruct Hin as [E|[E|E]]; rewrite E in *; unfold doc_row in *; cbn [fst] in *.
  - rewrite R1 in Hr. injection Hr as <-. by eexists.
  - rewrite R2 in Hr. injection Hr as <-. by eexists.
  - rewrite R3 in Hr. discriminate Hr.
Qed.

Lemma acme_exact gravity routers h : h ∈ answer acme_stmt 3 (docs_engine gravity routers) -> exact_on (fields h.2) acme_filters (str "tenant").
Proof.
  intros (n & ->)%acme_fields.
  split; [reflexivity|]. split.
  - intros w E. vm_compute in E. injection E as <-. split; reflexivity.
  - intros v [E|E]%elem_of_cons; [injection E as ->; reflexivity|by apply elem_of_nil in E].
Qed.

Lemma docs_comparable gravity routers : comparable acme_stmt 3 (docs_engine gravity routers) by_tenant acme_filters.
Proof. intros h Hh. split; [|by intros sp]. constructor; [by eapply acme_exact|constructor]. Qed.

Lemma bucket_scan_is_full_scan_witness :
  scan_primary_gravity_indexed bucket_engine 3 acme_hash (st_filter_expr acme_stmt) (Some 1) 0 (fun _ => 0) =
    scan_primary_full_expr bucket_engine 3 (st_filter_expr acme_stmt) (Some 1) /\
  (exists r, scan_primary_full_expr bucket_engine 3 (st_filter_expr acme_stmt) (Some 1) = Done ([r], true) /\ lid r = 30).
Proof.
  destruct (bucket_scan_is_full_scan acme_stmt 3 bucket_engine) with (spec := by_tenant) (core_filters := acme_filters) (gravity_hash_ := acme_hash)
    (elapsed := fun _ : Z => 0) (limit := Some 1) (field := str "n") (descending := false) (n := 5) as (H1 & H2 & _).
  - split; vm_compute; congruence.
  - apply docs_ready.
  - exact acme_bound.
  - vm_compute. reflexivity.
  - vm_compute. reflexivity.
  - apply docs_placed.
  - apply docs_comparable.
  - intros lim [= <-]. lia.
  - split; [exact H1|]. rewrite H2. eexists. split; [vm_compute; reflexivity|reflexivity].
Defined.


(** ** Through the ghost *)

Definition n_router : GhostRouter := default GhostRouter_new (register_ghost_in_router (fun _ => []) (str "by_n") index_by_n GhostRouter_new).
Definition ghost_engine : ScanEngine row_list := docs_engine [] [(3, n_router)].

Lemma member_cases c : c ∈ ghost_members 3 ghost_engine index_by_n ->
  exists n t, fields c.1 = [(str "n", Int n); (str "tenant", Text t)] /\ 0 <= n < 100.
Proof.
  intros (row & Hin & E)%list_elem_of_omap. apply elem_of_lfilter in Hin as [Hin _]. apply doc_rows_cases in Hin.
  destruct Hin as [->|[->| ->]]; unfold doc_row in E; vm_compute in E; injection E as <-; eexists _, _; (split; [reflexivity|lia]).
Qed.

Lemma index_by_n_exact : index_exact 3 ghost_engine index_by_n index_rows.
Proof.
  constructor.
  - repeat constructor.
  - apply (bool_decide_unpack _). vm_compute. exact I.
  - assert (index_rows = stable_sort (fun a b => bleb a.1 b.1) (index_entry index_by_n <$> ghost_members 3 ghost_engine index_by_n)) as E by (vm_compute; reflexivity).
    assert (List.filter (fun kv => starts_with kv.1 (to_be_bytes 2 (gm_ghost_id index_by_n))) (rd_rows index_rows) = index_rows) as -> by (vm_compute; reflexivity).
    rewrite E. apply stable_sort_perm.
Qed.

Lemma index_by_n_seekable : seekable 3 ghost_engine index_by_n acme_filters.
Proof.
  constructor; [reflexivity|done| |].
  - constructor; [|constructor]. apply (bool_decide_unpack _). vm_compute. exact I.
  - intros c Hc. destruct (member_cases c Hc) as (n & t & -> & Hn). split.
    + change (- 2 ^ 63 <= n < 2 ^ 63). lia.
    + intros v op w _ [E|E]%elem_of_cons; [|by apply elem_of_nil in E]. apply (f_equal (fun q => q.1.1)) in E. vm_compute in E. discriminate E.
Qed.

Lemma ghost_engine_kept : ghosts_kept acme_stmt 3 acme_filters ghost_engine.
Proof.
  intros router E. assert (router = n_router) as -> by (vm_compute in E; injection E as <-; vm_compute; reflexivity).
  exists (fun n => if beqb n (str "by_n") then Some index_by_n else None). split; [|split].
  - destruct (register_ghost_in_router (fun _ => []) (str "by_n") index_by_n GhostRouter_new) as [r|] eqn:Er; [|vm_compute in Er; discriminate Er].
    assert (n_router = r) as -> by (unfold n_router; by rewrite Er). by apply (router_inv_register (fun _ => []) (fun _ => None) _ _ GhostRouter_new r); [constructor|].
  - left. by eexists.
  - intros name meta source Eg. unfold ghost_engine, docs_engine in Eg. cbn [se_ghosts bt_get] in Eg. destruct (ocmp name (str "by_n")) eqn:Ec; [|done|done].
    injection Eg as <- <-. apply ocmp_eq in Ec as ->. split; [by rewrite beqb_refl|]. split; [vm_compute; reflexivity|]. exists index_rows.
    split; [reflexivity|]. split; [apply index_by_n_exact|apply index_by_n_seekable].
Qed.

Lemma scan_any_route_witness :
  exists q, (execute_scan ghost_engine acme_stmt (fun _ => 0)).2 = Done q /\ answers q 1 (answer acme_stmt 3 ghost_engine).*2 /\
    route ghost_engine 3 acme_stmt acme_filters = FromGhost (str "by_n") /\ (lid <$> (outcome q).1) = [10].
Proof.
  destruct (scan_any_route acme_stmt 3 1 acme_filters) with (e := ghost_engine) (elapsed := fun _ : Z => 0) as (q & Eq & Ha).
  - split; split; vm_compute; congruence.
  - exact acme_bound.
  - vm_compute. reflexivity.
  - split; [reflexivity|]. unfold SCAN_LIMIT_HARD_MAX. lia.
  - split; reflexivity.
  - exact sample_cursor_laws.
  - apply docs_ready.
  - intros spec h Es. discriminate Es.
  - exact ghost_engine_kept.
  - exists q. split; [exact Eq|]. split; [exact Ha|]. split; [vm_compute; reflexivity|].
    assert (match (execute_scan ghost_engine acme_stmt (fun _ => 0)).2 with Done q => lid <$> (outcome q).1 | _ => [] end = [10]) as E by (vm_compute; reflexivity).
    rewrite Eq in E. exact E.
Defined.

(** With LIMIT 0 a page that has a match is full before it has a last key, and the
    statement fails. *)
Lemma limit_zero_fails :
  (execute_scan plain_engine (mkScan (str "docs") None None (Some 0) None) (fun _ => 0)).2 = Failed (Internal "has_more without page tail").
Proof. vm_compute. reflexivity. Qed.
