(* ===== verification/Registries.v ===== *)
(** * Lobes, anchors, vector fields and the record cache

    (core/src/lobe.rs, engine/src/anchor.rs, vector_spec.rs, record_cache.rs.) The
    registries a statement consults, and the cache of records that the lookups by
    identifier read before the trees. *)

From S2P Require Import Prelude Types ByteOrder BTree Value Lid Record.

(** ** Lobes *)

Record LobeConfig := mkLobe { lc_id : Z; lc_name : bytes; lc_hint : option bytes; lc_created_at : Z }.
Record LobeRegistry := mkLobes { by_name : BTreeMap bytes LobeConfig; next_id : Z }.

Definition LobeRegistry_new : LobeRegistry := mkLobes [] 1.
Definition lobe_get (name : bytes) (reg : LobeRegistry) : option LobeConfig := bt_get name (by_name reg).
Definition get_by_id (id : Z) (reg : LobeRegistry) : option LobeConfig := List.find (fun c => lc_id c =? id) (snd <$> by_name reg).

Definition get_or_create (name : bytes) (hint : option bytes) (now : Z) (reg : LobeRegistry) : Z * LobeRegistry :=
  match lobe_get name reg with
  | Some config => (lc_id config, reg)
  | None =>
    let id := next_id reg in
    (id, mkLobes (bt_insert name (mkLobe id name hint now) (by_name reg)) (wrap16 (next_id reg + 1)))
  end.

Definition lobe_create (name : bytes) (hint : option bytes) (now : Z) (reg : LobeRegistry) : XResult (Z * LobeRegistry) :=
  match lobe_get name reg with
  | Some _ => XErr (InvalidQuery "Lobe already exists")
  | None => XOk (get_or_create name hint now reg)
  end.

(** ** Anchors *)

Definition AnchorRegistry : Type := BTreeMap bytes (list bytes).

(** [BTreeSet::insert]: whether the element is new. *)
Fixpoint bs_insert (x : bytes) (s : list bytes) : bool * list bytes :=
  match s with
  | [] => (true, [x])
  | y :: s' =>
    match bcmp x y with
    | Lt => (true, x :: y :: s')
    | Eq => (false, s)
    | Gt => let '(new, s') := bs_insert x s' in (new, y :: s')
    end
  end.

Definition get_anchors (reg : AnchorRegistry) (lobe : bytes) : list bytes := default [] (bt_get lobe reg).

Definition anchor_register (lobe field : bytes) (reg : AnchorRegistry) : AnchorRegistry * XResult unit :=
  let '(new, set) := bs_insert field (get_anchors reg lobe) in
  (bt_insert lobe set reg, if new : bool then XOk tt else XErr (InvalidQuery "Anchor already registered")).

Definition is_anchor (reg : AnchorRegistry) (lobe field : bytes) : bool :=
  match bt_get lobe reg with Some s => existsb (beqb field) s | None => false end.

(** The length of the field is one byte; a longer name is cut. *)
Definition dictionary_key (lobe_id : Z) (field value : bytes) : bytes :=
  let field_len := Z.min (blen field) 255 in
  to_be_bytes 2 lobe_id ++ [field_len] ++ take (Z.to_nat field_len) field ++ value.

(** ** The searchable vector field of a lobe *)

Record VectorSpec := mkVectorSpec { vs_field : bytes; vs_dim : option Z }.

Definition VectorSpec_new (field : bytes) : VectorSpec := mkVectorSpec field None.
Definition VECTOR_SPEC_FORMAT : Z := 2.

(** [postcard] and [bincode] of the registries. *)
Class RegistryCodec := {
  lobes_to_allocvec : LobeRegistry -> bytes;
  lobes_from_bytes : bytes -> option LobeRegistry;
  lobes_bincode : bytes -> option LobeRegistry;
  anchors_to_allocvec : AnchorRegistry -> bytes;
  anchors_from_bytes : bytes -> option AnchorRegistry;
  anchors_bincode : bytes -> option AnchorRegistry;
  vector_to_allocvec : VectorSpec -> bytes;
  vector_from_bytes : bytes -> option VectorSpec;
  vector_v1_from_bytes : bytes -> option bytes;
}.

Class RegistryCodecLaws (RC : RegistryCodec) : Prop := {
  lobes_postcard_inv r : lobes_from_bytes (lobes_to_allocvec r) = Some r;
  anchors_postcard_inv r : anchors_from_bytes (anchors_to_allocvec r) = Some r;
  vector_postcard_inv s : vector_from_bytes (vector_to_allocvec s) = Some s;
}.

Section codecs.
Context {RC : RegistryCodec}.

Definition lobes_to_bytes (reg : LobeRegistry) : bytes := XYZDB_MAGIC ++ [1] ++ lobes_to_allocvec reg.
Definition anchors_to_bytes (reg : AnchorRegistry) : bytes := XYZDB_MAGIC ++ [1] ++ anchors_to_allocvec reg.

(** The new form, or else the old one. *)
Definition registry_from_bytes {A} (from_postcard from_bincode : bytes -> option A) (msg : string) (data : bytes) : XResult A :=
  match match marker data with Some (m, payload) => if m =? 1 then from_postcard payload else None | None => None end with
  | Some reg => XOk reg
  | None => xok_or (from_bincode data) (Storage msg)
  end.

Definition lobes_of_bytes : bytes -> XResult LobeRegistry := registry_from_bytes lobes_from_bytes lobes_bincode "Failed to load lobe registry".
Definition anchors_of_bytes : bytes -> XResult AnchorRegistry := registry_from_bytes anchors_from_bytes anchors_bincode "Failed to load anchor registry".

Definition VectorSpec_encode (s : VectorSpec) : bytes := XYZDB_MAGIC ++ [VECTOR_SPEC_FORMAT] ++ vector_to_allocvec s.

Definition VectorSpec_decode (bs : bytes) : option VectorSpec :=
  match marker bs with
  | Some (m, payload) =>
    if m =? 1 then (fun field => mkVectorSpec field None) <$> vector_v1_from_bytes payload
    else if m =? VECTOR_SPEC_FORMAT then vector_from_bytes payload
    else None
  | None => None
  end.

End codecs.

(** ** The record cache *)

(** [size_of::<Record>()] *)
Class RecordSize := { record_size : Z; record_size_pos : 0 < record_size }.

Section cache.
Context {RS : RecordSize}.

Definition record_estimated_size (r : XRecord) : Z :=
  record_size + blen (lobe_name r) + blen (fields r) * 64 + foldr (fun kv n => estimated_size kv.2 + n) 0 (fields r).

Record RecordCache := mkCache {
  rc_lobes : gmap Z (gmap Z XRecord);
  rc_access_counter : Z;
  rc_access_clock : gmap (Z * Z) Z;
  rc_budget_bytes : Z;
  rc_used_bytes : Z;
}.

Definition RecordCache_new (budget : Z) : RecordCache := mkCache ∅ 0 ∅ budget 0.

Definition cache_touch (lobe l : Z) (c : RecordCache) : RecordCache :=
  mkCache (rc_lobes c) (wrap64 (rc_access_counter c + 1)) (<[(lobe, l) := wrap64 (rc_access_counter c + 1)]> (rc_access_clock c))
    (rc_budget_bytes c) (rc_used_bytes c).

Definition cache_lookup (lobe l : Z) (c : RecordCache) : option XRecord := rc_lobes c !! lobe ≫= fun m => m !! l.

(** [get]: a hit counts as an access. *)
Definition cache_get (lobe l : Z) (c : RecordCache) : option XRecord * RecordCache :=
  match cache_lookup lobe l c with Some r => (Some r, cache_touch lobe l c) | None => (None, c) end.

(** [self.used_bytes.fetch_sub(size.min(self.used_bytes))] *)
Definition cache_free (size : Z) (c : RecordCache) : RecordCache :=
  mkCache (rc_lobes c) (rc_access_counter c) (rc_access_clock c) (rc_budget_bytes c) (rc_used_bytes c - Z.min size (rc_used_bytes c)).

(** The record is taken out, with its clock and its bytes. *)
Definition cache_drop (lobe l : Z) (m : gmap Z XRecord) (r : XRecord) (c : RecordCache) : RecordCache :=
  cache_free (record_estimated_size r)
    (mkCache (<[lobe := delete l m]> (rc_lobes c)) (rc_access_counter c) (delete (lobe, l) (rc_access_clock c)) (rc_budget_bytes c) (rc_used_bytes c)).

Definition update_record (lobe : Z) (r : XRecord) (c : RecordCache) : RecordCache :=
  match rc_lobes c !! lobe with
  | Some m => cache_touch lobe (lid r) (mkCache (<[lobe := <[lid r := r]> m]> (rc_lobes c)) (rc_access_counter c) (rc_access_clock c) (rc_budget_bytes c) (rc_used_bytes c))
  | None => c
  end.

Definition invalidate_record (lobe l : Z) (c : RecordCache) : RecordCache :=
  match rc_lobes c !! lobe with
  | Some m => match m !! l with Some removed => cache_drop lobe l m removed c | None => c end
  | None => c
  end.

Definition evict_lobe (lobe : Z) (c : RecordCache) : RecordCache :=
  match rc_lobes c !! lobe with
  | Some m =>
    let freed := foldr (fun kv n => record_estimated_size kv.2 + n) 0 (map_to_list m) in
    cache_free freed (mkCache (delete lobe (rc_lobes c)) (rc_access_counter c) (filter (fun kv => kv.1.1 <> lobe) (rc_access_clock c)) (rc_budget_bytes c) (rc_used_bytes c))
  | None => c
  end.

(** The loop of [evict_lru], over the entries sorted by their clocks. *)
Fixpoint evict_loop (target : Z) (snapshot : list ((Z * Z) * Z)) (freed : Z) (c : RecordCache) : Z * RecordCache :=
  match snapshot with
  | [] => (freed, c)
  | ((lobe, l), _) :: rest =>
    if target <=? freed then (freed, c)
    else
      match rc_lobes c !! lobe with
      | None => evict_loop target rest freed c
      | Some m =>
        match m !! l with
        | None => evict_loop target rest freed c
        | Some removed => evict_loop target rest (Z.min (freed + record_estimated_size removed) (2 ^ 64 - 1)) (cache_drop lobe l m removed c)
        end
      end
  end.

Definition clock_le (a b : (Z * Z) * Z) : Prop := a.2 <= b.2.
#[local] Instance clock_le_dec : RelDecision clock_le := fun a b => Z_le_dec a.2 b.2.

Definition evict_lru (target : Z) (c : RecordCache) : Z * RecordCache :=
  if target =? 0 then (0, c) else evict_loop target (merge_sort clock_le (map_to_list (rc_access_clock c))) 0 c.

Definition load_one (lobe : Z) (c : RecordCache) (r : XRecord) : RecordCache :=
  cache_touch lobe (lid r)
    (mkCache (<[lobe := <[lid r := r]> (default ∅ (rc_lobes c !! lobe))]> (rc_lobes c)) (rc_access_counter c) (rc_access_clock c) (rc_budget_bytes c) (rc_used_bytes c)).

(** [load_records]; the map of the lobe exists from then on. *)
Definition load_records (lobe : Z) (records : list XRecord) (c : RecordCache) : RecordCache * XResult Z :=
  let estimated := foldr (fun r n => record_estimated_size r + n) 0 records in
  if rc_budget_bytes c <? estimated then (c, XErr (InvalidQuery "INCACHE batch exceeds total budget"))
  else
    let '(c, fits) :=
      if rc_budget_bytes c <? rc_used_bytes c + estimated then
        let c := (evict_lru (Z.max 0 (rc_used_bytes c + estimated - rc_budget_bytes c)) c).2 in
        (c, rc_used_bytes c + estimated <=? rc_budget_bytes c)
      else (c, true) in
    if fits : bool then
      let c := mkCache (<[lobe := default ∅ (rc_lobes c !! lobe)]> (rc_lobes c)) (rc_access_counter c) (rc_access_clock c) (rc_budget_bytes c) (rc_used_bytes c) in
      let c := foldl (load_one lobe) c records in
      (mkCache (rc_lobes c) (rc_access_counter c) (rc_access_clock c) (rc_budget_bytes c) (rc_used_bytes c + estimated), XOk (blen records))
    else (c, XErr (InvalidQuery "INCACHE would exceed the budget")).

End cache.

(** * Lemmas *)

(** ** Lobes *)

(** Lobes stand under their names, with numbers given out before the next one. *)
Record lobes_ok (reg : LobeRegistry) : Prop := {
  lo_sorted : bt_sorted (by_name reg);
  lo_next : 0 < next_id reg < 2 ^ 16;
  lo_entry name c : lobe_get name reg = Some c -> lc_name c = name /\ 0 < lc_id c < next_id reg;
  lo_inj name name' c c' : lobe_get name reg = Some c -> lobe_get name' reg = Some c' -> lc_id c = lc_id c' -> name = name';
}.

Lemma new_lobes_ok : lobes_ok LobeRegistry_new.
Proof. split; cbn; [constructor|lia|done|done]. Qed.

Lemma lobe_get_insert name name' c reg n :
  lobe_get name' (mkLobes (bt_insert name c (by_name reg)) n) = if beqb name' name then Some c else lobe_get name' reg.
Proof.
  unfold lobe_get. cbn [by_name]. rewrite bt_get_insert. destruct (ocmp name' name) eqn:E.
  - apply ocmp_eq in E as ->. by rewrite beqb_refl.
  - rewrite (proj2 (beqb_neq _ _)); [done|]. intros ->. by rewrite ocmp_refl in E.
  - rewrite (proj2 (beqb_neq _ _)); [done|]. intros ->. by rewrite ocmp_refl in E.
Qed.

Lemma get_or_create_spec name hint now reg id reg' :
  lobes_ok reg -> next_id reg + 1 < 2 ^ 16 -> get_or_create name hint now reg = (id, reg') ->
  lobes_ok reg' /\ (exists c, lobe_get name reg' = Some c /\ lc_id c = id) /\ next_id reg <= next_id reg' <= next_id reg + 1 /\
  (forall name' c, lobe_get name' reg = Some c -> lobe_get name' reg' = Some c) /\
  (forall name' c, lobe_get name' reg' = Some c -> name' <> name -> lobe_get name' reg = Some c).
Proof.
  intros HI Hn. unfold get_or_create. destruct (lobe_get name reg) as [c|] eqn:E; intros [= <- <-].
  { split; [done|]. split; [eauto|]. split; [lia|]. done. }
  rewrite (wrap_small 16) by (pose proof (lo_next reg HI); unfold is_uint; lia).
  assert (forall name' c, lobe_get name' (mkLobes (bt_insert name (mkLobe (next_id reg) name hint now) (by_name reg)) (next_id reg + 1)) = Some c ->
    (name' = name /\ c = mkLobe (next_id reg) name hint now) \/ (name' <> name /\ lobe_get name' reg = Some c)) as Hget.
  { intros name' c. rewrite lobe_get_insert. destruct (beqb name' name) eqn:Eb; [apply beqb_eq in Eb as ->; intros [= <-]; by left|].
    apply beqb_neq in Eb. by right. }
  split; [|split; [|split; [|split]]].
  - split.
    + cbn. apply bt_insert_sorted, HI.
    + cbn [next_id]. pose proof (lo_next reg HI). lia.
    + intros name' c [[-> ->]|[_ Hc]]%Hget; cbn [next_id lc_id lc_name].
      * pose proof (lo_next reg HI). split; [done|lia].
      * pose proof (lo_entry reg HI _ _ Hc) as [-> ?]. split; [done|lia].
    + intros n1 n2 c1 c2 [[-> ->]|[_ H1]]%Hget [[-> ->]|[_ H2]]%Hget; cbn [lc_id]; intros Hid; [done|..].
      * pose proof (lo_entry reg HI _ _ H2). lia.
      * pose proof (lo_entry reg HI _ _ H1). lia.
      * by eapply (lo_inj reg HI).
  - eexists. rewrite lobe_get_insert, beqb_refl. done.
  - cbn [next_id]. lia.
  - intros name' c Hc. rewrite lobe_get_insert, (proj2 (beqb_neq _ _)); [done|]. intros ->. congruence.
  - intros name' c [[-> _]|[_ Hc]]%Hget Hne; done.
Qed.

Lemma get_by_id_spec reg name c : lobes_ok reg -> lobe_get name reg = Some c -> get_by_id (lc_id c) reg = Some c.
Proof.
  intros HI Hc. unfold get_by_id. destruct (List.find _ _) as [c'|] eqn:E.
  - apply find_some in E as [Hin Hid]. apply list_elem_of_In, list_elem_of_fmap in Hin as ([name' c1] & -> & Hin). cbn in *.
    apply bt_get_elem in Hin; [|apply HI]. apply Z.eqb_eq in Hid. rewrite (lo_inj reg HI name' name c1 c Hin Hc Hid) in Hin. unfold lobe_get in Hc. congruence.
  - assert (In c (by_name reg).*2) as Hin; [|pose proof (find_none _ _ E c Hin) as H; cbv beta in H; by rewrite Z.eqb_refl in H].
    apply list_elem_of_In, list_elem_of_fmap. exists (name, c). split; [done|]. by apply bt_get_elem; [apply HI|].
Qed.

(** ** Anchors *)

Lemma is_anchor_elem reg lobe field : is_anchor reg lobe field = true <-> field ∈ get_anchors reg lobe.
Proof.
  unfold is_anchor, get_anchors. destruct (bt_get lobe reg) as [s|]; cbn; [|by rewrite elem_of_nil]. rewrite existsb_exists. split.
  - intros (x & Hx & ->%beqb_eq). by apply list_elem_of_In.
  - intros Hx%list_elem_of_In. exists field. by rewrite beqb_refl.
Qed.

(** The length in front keeps fields and values apart. *)
Lemma dictionary_key_inj l l' f f' v v' :
  is_uint 16 l -> is_uint 16 l' -> blen f <= 255 -> blen f' <= 255 -> dictionary_key l f v = dictionary_key l' f' v' -> l = l' /\ f = f' /\ v = v'.
Proof.
  intros Hl Hl' Hf Hf'. unfold dictionary_key. rewrite !Z.min_l by lia. intros E.
  apply app_inj_1 in E as [E1 E]; [|by rewrite !length_to_be_bytes]. apply (f_equal from_be_bytes) in E1. rewrite !(from_to_be_bytes_id 2 16) in E1 by done.
  cbn [app] in E. injection E as E2 E3. rewrite E2 in E3. unfold blen in *.
  rewrite (take_ge f), (take_ge f') in E3 by lia. apply app_inj_1 in E3 as [-> ->]; [done|lia].
Qed.

(** The numbers of lobes stay below the reserved prefixes. *)
Lemma dictionary_key_head l f v : 0 <= l < 65280 -> starts_with (dictionary_key l f v) [255] = false.
Proof.
  intros Hl. unfold dictionary_key. apply not_true_iff_false. intros H%starts_with_iff. destruct H as [rest H].
  rewrite !to_be_bytes_S in H. cbn in H. injection H as H _. assert (l / 256 < 255) by (apply Z.div_lt_upper_bound; lia).
  rewrite Z.mod_small in H; [lia|]. split; [apply Z.div_pos; lia|lia].
Qed.

(** ** Stored registries *)

Lemma registries_roundtrip (RC : RegistryCodec) (RL : RegistryCodecLaws RC) reg anchors spec :
  lobes_of_bytes (lobes_to_bytes reg) = XOk reg /\ anchors_of_bytes (anchors_to_bytes anchors) = XOk anchors /\ VectorSpec_decode (VectorSpec_encode spec) = Some spec.
Proof.
  unfold lobes_of_bytes, anchors_of_bytes, registry_from_bytes, lobes_to_bytes, anchors_to_bytes, VectorSpec_decode, VectorSpec_encode, VECTOR_SPEC_FORMAT.
  rewrite !marker_app. cbn [Z.eqb Pos.eqb]. by rewrite lobes_postcard_inv, anchors_postcard_inv, vector_postcard_inv.
Qed.

(** ** The cache *)

Section cache_lemmas.
Context {RS : RecordSize}.

Lemma touch_lookup lobe l lobe' l' c : cache_lookup lobe' l' (cache_touch lobe l c) = cache_lookup lobe' l' c.
Proof. done. Qed.

Lemma update_lookup lobe r c lobe' l' r' :
  cache_lookup lobe' l' (update_record lobe r c) = Some r' -> (lobe' = lobe /\ l' = lid r /\ r' = r) \/ (~ (lobe' = lobe /\ l' = lid r) /\ cache_lookup lobe' l' c = Some r').
Proof.
  unfold update_record. destruct (rc_lobes c !! lobe) as [m|] eqn:E.
  - rewrite touch_lookup. unfold cache_lookup. cbn [rc_lobes]. destruct (decide (lobe = lobe')) as [<-|Hne].
    + rewrite lookup_insert_eq. cbn. destruct (decide (lid r = l')) as [<-|Hl]; [rewrite lookup_insert_eq; intros [= <-]; by left|].
      rewrite lookup_insert_ne by done. intros H. right. split; [intros [_ ?]; by subst|]. by rewrite E.
    + rewrite lookup_insert_ne by done. intros H. right. split; [by intros [-> _]|done].
  - intros H. right. split; [|done]. intros [-> _]. unfold cache_lookup in H. by rewrite E in H.
Qed.

Lemma invalidate_lookup lobe l c lobe' l' r :
  cache_lookup lobe' l' (invalidate_record lobe l c) = Some r -> ~ (lobe' = lobe /\ l' = l) /\ cache_lookup lobe' l' c = Some r.
Proof.
  unfold invalidate_record. destruct (rc_lobes c !! lobe) as [m|] eqn:E.
  - destruct (m !! l) as [removed|] eqn:El.
    + unfold cache_lookup, cache_drop, cache_free. cbn [rc_lobes]. destruct (decide (lobe = lobe')) as [<-|Hne].
      * rewrite lookup_insert_eq, E. cbn. intros H%lookup_delete_Some. split; [intros [_ ->]; by destruct H|apply H].
      * rewrite lookup_insert_ne by done. intros H. split; [by intros [-> _]|done].
    + intros H. split; [|done]. intros [-> ->]. unfold cache_lookup in H. rewrite E in H. cbn in H. congruence.
  - intros H. split; [|done]. intros [-> _]. unfold cache_lookup in H. by rewrite E in H.
Qed.

(** A record written through is not charged: the bytes in use say nothing of it. *)
Lemma written_through_uncounted lobe r c : rc_used_bytes (update_record lobe r c) = rc_used_bytes c.
Proof. unfold update_record. by destruct (rc_lobes c !! lobe). Qed.

(** The charged bytes stay within the budget. *)
Lemma free_used size c : 0 <= size -> 0 <= rc_used_bytes c -> 0 <= rc_used_bytes (cache_free size c) <= rc_used_bytes c.
Proof. intros. unfold cache_free. cbn. lia. Qed.

End cache_lemmas.
