(* ===== verification/Db.v ===== *)
(** * The state of the database and FIND

    (engine/src/engine/mod.rs, engine/gravity.rs, engine/vectors.rs, ops/find.rs,
    ops/mod.rs.) The trees are known by what statements do with them: reads ([Reads]),
    single writes that bypass the log ([TreeApi]) and batches ([Commit]). A statement
    is a function on the state; the anchor shards, which order concurrent PUTs of one
    anchor value, have no counterpart in it. Health counters are left out, the texts of
    errors are shortened, and writing the two registry files does not fail. *)

From S2P Require Import Prelude ByteOrder BTree Types Block Paths Tree Value FieldDict Lid Filters FilterEq.
From S2P Require Import Record FieldRegistry SpatialKey SortEncoding Aggregate GroupKey Rollup Ghost Gravity Router Scan Registries.

(** ** Trees and batches *)

Inductive Ks := KSpatial | KIdentity | KDictionary | KVectors.

Inductive BatchOp :=
  | BPut (ks : Ks) (k v : bytes)
  | BRemove (ks : Ks) (k : bytes).

Record Trees (D : Type) := mkTrees { tr_spatial : D; tr_identity : D; tr_dictionary : D; tr_vectors : D }.
Arguments mkTrees {D} _ _ _ _.
Arguments tr_spatial {D} _.
Arguments tr_identity {D} _.
Arguments tr_dictionary {D} _.
Arguments tr_vectors {D} _.

Definition tree_of {D} (ks : Ks) (t : Trees D) : D :=
  match ks with KSpatial => tr_spatial t | KIdentity => tr_identity t | KDictionary => tr_dictionary t | KVectors => tr_vectors t end.

Definition set_dictionary {D} (d : D) (t : Trees D) : Trees D := mkTrees (tr_spatial t) (tr_identity t) d (tr_vectors t).

(** [W] is the rest of the storage engine, the log foremost. *)
Class Commit (W D : Type) := {
  cm_commit : list BatchOp -> W * Trees D -> (W * Trees D) * Result unit;
  cm_recovered_from_wal : W -> bool;
  cm_get_no_bloom : D -> bytes -> Result (option bytes);
  (** [seal_active] and [flush_sealed] *)
  cm_flush : D -> D * Result unit;
}.

(** [{:?}] of list and map literals *)
Class LiteralText := { debug_literals : list Literal -> bytes; debug_pairs : list (bytes * Literal) -> bytes }.

(** ** The state *)

Record Db (W D : Type) := mkDb {
  db_wal : W;
  db_trees : Trees D;
  db_lobes : LobeRegistry;
  db_anchors : AnchorRegistry;
  db_gravity : BTreeMap bytes GravitySpec;
  db_satellites : BTreeMap bytes SatelliteSpec;
  db_vectors : BTreeMap bytes VectorSpec;
  db_registry : Registry;
  db_ghosts : GhostLobeManager (D := D);
  db_routers : BTreeMap Z GhostRouter;
  db_cache : option RecordCache;
  db_lid : LidState;
  db_seq : Z;
  (** readings of the clock, and how many were taken *)
  db_clock : nat -> Z;
  db_ticks : nat;
  (** [lobes.bin] and [anchors.bin] *)
  db_lobes_file : bytes;
  db_anchors_file : bytes;
}.
Arguments mkDb {W D} _ _ _ _ _ _ _ _ _ _ _ _ _ _ _ _ _.
Arguments db_wal {W D} _.
Arguments db_trees {W D} _.
Arguments db_lobes {W D} _.
Arguments db_anchors {W D} _.
Arguments db_gravity {W D} _.
Arguments db_satellites {W D} _.
Arguments db_vectors {W D} _.
Arguments db_registry {W D} _.
Arguments db_ghosts {W D} _.
Arguments db_routers {W D} _.
Arguments db_cache {W D} _.
Arguments db_lid {W D} _.
Arguments db_seq {W D} _.
Arguments db_clock {W D} _.
Arguments db_ticks {W D} _.
Arguments db_lobes_file {W D} _.
Arguments db_anchors_file {W D} _.

Section setters.
Context {W D : Type}.

Definition with_store (w : W) (t : Trees D) (db : Db W D) : Db W D :=
  mkDb w t (db_lobes db) (db_anchors db) (db_gravity db) (db_satellites db) (db_vectors db) (db_registry db) (db_ghosts db) (db_routers db)
    (db_cache db) (db_lid db) (db_seq db) (db_clock db) (db_ticks db) (db_lobes_file db) (db_anchors_file db).
Definition with_lobes (l : LobeRegistry) (file : bytes) (db : Db W D) : Db W D :=
  mkDb (db_wal db) (db_trees db) l (db_anchors db) (db_gravity db) (db_satellites db) (db_vectors db) (db_registry db) (db_ghosts db) (db_routers db)
    (db_cache db) (db_lid db) (db_seq db) (db_clock db) (db_ticks db) file (db_anchors_file db).
Definition with_anchors (a : AnchorRegistry) (file : bytes) (db : Db W D) : Db W D :=
  mkDb (db_wal db) (db_trees db) (db_lobes db) a (db_gravity db) (db_satellites db) (db_vectors db) (db_registry db) (db_ghosts db) (db_routers db)
    (db_cache db) (db_lid db) (db_seq db) (db_clock db) (db_ticks db) (db_lobes_file db) file.
Definition with_gravity (g : BTreeMap bytes GravitySpec) (db : Db W D) : Db W D :=
  mkDb (db_wal db) (db_trees db) (db_lobes db) (db_anchors db) g (db_satellites db) (db_vectors db) (db_registry db) (db_ghosts db) (db_routers db)
    (db_cache db) (db_lid db) (db_seq db) (db_clock db) (db_ticks db) (db_lobes_file db) (db_anchors_file db).
Definition with_vectors (v : BTreeMap bytes VectorSpec) (db : Db W D) : Db W D :=
  mkDb (db_wal db) (db_trees db) (db_lobes db) (db_anchors db) (db_gravity db) (db_satellites db) v (db_registry db) (db_ghosts db) (db_routers db)
    (db_cache db) (db_lid db) (db_seq db) (db_clock db) (db_ticks db) (db_lobes_file db) (db_anchors_file db).
Definition with_registry (r : Registry) (db : Db W D) : Db W D :=
  mkDb (db_wal db) (db_trees db) (db_lobes db) (db_anchors db) (db_gravity db) (db_satellites db) (db_vectors db) r (db_ghosts db) (db_routers db)
    (db_cache db) (db_lid db) (db_seq db) (db_clock db) (db_ticks db) (db_lobes_file db) (db_anchors_file db).
Definition with_ghosts (g : GhostLobeManager (D := D)) (db : Db W D) : Db W D :=
  mkDb (db_wal db) (db_trees db) (db_lobes db) (db_anchors db) (db_gravity db) (db_satellites db) (db_vectors db) (db_registry db) g (db_routers db)
    (db_cache db) (db_lid db) (db_seq db) (db_clock db) (db_ticks db) (db_lobes_file db) (db_anchors_file db).
Definition with_routers (r : BTreeMap Z GhostRouter) (db : Db W D) : Db W D :=
  mkDb (db_wal db) (db_trees db) (db_lobes db) (db_anchors db) (db_gravity db) (db_satellites db) (db_vectors db) (db_registry db) (db_ghosts db) r
    (db_cache db) (db_lid db) (db_seq db) (db_clock db) (db_ticks db) (db_lobes_file db) (db_anchors_file db).
Definition with_cache (c : option RecordCache) (db : Db W D) : Db W D :=
  mkDb (db_wal db) (db_trees db) (db_lobes db) (db_anchors db) (db_gravity db) (db_satellites db) (db_vectors db) (db_registry db) (db_ghosts db) (db_routers db)
    c (db_lid db) (db_seq db) (db_clock db) (db_ticks db) (db_lobes_file db) (db_anchors_file db).
Definition with_counters (l : LidState) (seq : Z) (ticks : nat) (db : Db W D) : Db W D :=
  mkDb (db_wal db) (db_trees db) (db_lobes db) (db_anchors db) (db_gravity db) (db_satellites db) (db_vectors db) (db_registry db) (db_ghosts db) (db_routers db)
    (db_cache db) l seq (db_clock db) ticks (db_lobes_file db) (db_anchors_file db).

End setters.

(** ** Commands *)

Definition Cmd (W D A : Type) : Type := Db W D -> Db W D * Out A.

#[export] Instance Cmd_ret {W D} : MRet (Cmd W D) := fun _ a db => (db, Done a).
#[export] Instance Cmd_bind {W D} : MBind (Cmd W D) := fun _ _ f m db =>
  match m db with
  | (db, Done a) => f a db
  | (db, Failed e) => (db, Failed e)
  | (db, Panicked) => (db, Panicked)
  end.

Definition reads {W D A} (f : Db W D -> A) : Cmd W D A := fun db => (db, Done (f db)).
Definition modify {W D} (f : Db W D -> Db W D) : Cmd W D unit := fun db => (f db, Done tt).
Definition lift {W D A} (o : Out A) : Cmd W D A := fun db => (db, o).
Definition fail_with {W D A} (e : XyzError) : Cmd W D A := fun db => (db, Failed e).
Definition of_xresult {A} (r : XResult A) : Out A := match r with XOk a => Done a | XErr e => Failed e end.

(** [SystemTime::now()] *)
Definition read_clock {W D} : Cmd W D Z := fun db => (with_counters (db_lid db) (db_seq db) (S (db_ticks db)) db, Done (db_clock db (db_ticks db))).

(** ** The syntax of the statements *)

Inductive FindTarget := FLobe (name : bytes) | ByLid (text : bytes).
Record FindStmt := mkFind { fs_target : FindTarget; fs_filters : list Filter; fs_limit : option Z; fs_cursor : option bytes }.

Section db.
Context {W D : Type} {RD : Reads D} {TA : TreeApi D} {CM : Commit W D} {XH : Xxh3} {CT : CursorText} {LT : LiteralText}.
Context {PC : Postcard} {VT : ValueText} {GT : GravityText} {RC : RegistryCodec} {SP : SpecPostcard}.

Abbreviation cmd := (Cmd W D).

(** [.map_err(|e| XyzError::Storage(format!("..: {e}")))] *)
Definition storage_at {A} (what : string) (r : Result A) : Out A :=
  match r with Ok a => Done a | Err e => Failed (Storage (what ++ rd_display e)) | Panic => Panicked end.

Definition tree_get (what : string) (ks : Ks) (k : bytes) : cmd (option bytes) := fun db => (db, storage_at what (rd_get (tree_of ks (db_trees db)) k)).

(** [batch.commit()] *)
Definition commit_batch (what : string) (ops : list BatchOp) : cmd unit := fun db =>
  let '((w, t), r) := cm_commit ops (db_wal db, db_trees db) in (with_store w t db, storage_at what r).

(** [insert], [seal_active], [flush_sealed] on the dictionary. *)
Definition persist_entry (persist flush : string) (k v : bytes) : cmd unit := fun db =>
  match api_insert k v (tr_dictionary (db_trees db)) with
  | (d, Ok _) => let '(d, r) := cm_flush d in (with_store (db_wal db) (set_dictionary d (db_trees db)) db, storage_at flush r)
  | (d, r) => (with_store (db_wal db) (set_dictionary d (db_trees db)) db, storage_at persist r)
  end.

Definition db_lobe_name (db : Db W D) (id : Z) : bytes := match get_by_id id (db_lobes db) with Some c => lc_name c | None => [] end.

(** What scans see of the database. *)
Definition scan_engine (db : Db W D) : ScanEngine D :=
  mkScanEngine (tr_spatial (db_trees db)) (tr_vectors (db_trees db)) (gl_keyspace (db_ghosts db)) ((fun kv => (kv.1, lc_id kv.2)) <$> by_name (db_lobes db))
    (bt_collect (map_to_list (db_registry db))) (db_gravity db) (db_satellites db) (db_anchors db)
    (gl_shards (db_ghosts db) ≫= fun ls => (fun nm => (nm.1, (nm.2, db_lobe_name db ls.1))) <$> ls.2) (db_routers db).

(** [deserialize_hydrated] with the dictionary of the lobe. *)
Definition hydrated (db : Db W D) (lobe_id : Z) (sk blob name : bytes) : Out XRecord :=
  deserialize_hydrated_with (tr_vectors (db_trees db)) sk blob name (get_dict (db_registry db) lobe_id).

(** ** Registries *)

(** [get_or_create] and [persist_lobe_registry] *)
Definition resolve_lobe (name : bytes) : cmd Z := fun db =>
  match lobe_get name (db_lobes db) with
  | Some c => (with_lobes (db_lobes db) (lobes_to_bytes (db_lobes db)) db, Done (lc_id c))
  | None =>
    (now ← read_clock;
     lobes ← reads db_lobes;
     let '(id, lobes) := get_or_create name None now lobes in
     modify (with_lobes lobes (lobes_to_bytes lobes));; mret id) db
  end.

Definition GRAVITY_PREFIX : bytes := [255; 250].
Definition VECTOR_FIELD_PREFIX : bytes := [255; 247].

Definition persist_gravity (lobe_id : Z) (spec : GravitySpec) : cmd unit :=
  persist_entry "gravity persist: " "gravity flush: " (GRAVITY_PREFIX ++ to_be_bytes 2 lobe_id) (GravitySpec_encode spec).

Definition register_gravity_field (lobe field : bytes) : cmd unit :=
  g ← reads db_gravity;
  match bt_get lobe g with
  | Some _ => mret tt
  | None =>
    lobes ← reads db_lobes;
    match lobe_get lobe lobes with
    | None => fail_with (LobeNotFound lobe)
    | Some c => persist_gravity (lc_id c) (Raw field);; modify (fun db => with_gravity (bt_insert lobe (Raw field) (db_gravity db)) db)
    end
  end.

(** The specification in memory changes before it is persisted. *)
Definition ensure_vector_dim (lobe field : bytes) (dim : Z) : cmd unit :=
  specs ← reads db_vectors;
  match bt_get lobe specs with
  | None => mret tt
  | Some spec =>
    match vs_dim spec with
    | Some d => if d =? dim then mret tt else fail_with (InvalidQuery "vector dimension mismatch")
    | None =>
      lobes ← reads db_lobes;
      match lobe_get lobe lobes with
      | None => fail_with (LobeNotFound lobe)
      | Some c =>
        let spec := mkVectorSpec (vs_field spec) (Some (wrap32 dim)) in
        modify (with_vectors (bt_insert lobe spec specs));;
        persist_entry "vector persist: " "vector flush: " (VECTOR_FIELD_PREFIX ++ to_be_bytes 2 (lc_id c)) (VectorSpec_encode spec)
      end
    end
  end.

(** [execute_lobe], [execute_anchor] *)
Definition execute_lobe (name : bytes) (hint : option bytes) : cmd bytes :=
  lobes ← reads db_lobes;
  match lobe_get name lobes with
  | Some _ => fail_with (InvalidQuery "Lobe already exists")
  | None =>
    now ← read_clock;
    let '(id, lobes) := get_or_create name hint now lobes in
    modify (with_lobes lobes (lobes_to_bytes lobes));;
    mret (str "Lobe '" ++ name ++ str "' created (id=" ++ format_u64 id ++ str ")")
  end.

Definition execute_anchor (lobe field : bytes) : cmd bytes :=
  lobes ← reads db_lobes;
  match lobe_get lobe lobes with
  | None => fail_with (LobeNotFound lobe)
  | Some _ =>
    anchors ← reads db_anchors;
    match anchor_register lobe field anchors with
    | (anchors, XOk _) =>
      modify (with_anchors anchors (anchors_to_bytes anchors));; mret (str "Anchor '" ++ field ++ str "' registered in '" ++ lobe ++ str "'")
    | (anchors, XErr e) => modify (fun db => with_anchors anchors (db_anchors_file db) db);; fail_with e
    end
  end.

(** ** FIND *)

Definition ZERO_KEY : bytes := replicate 24 0.

(** The key an identity entry holds; old entries have ten bytes. *)
Definition key_of_identity (msg : string) (v : bytes) : Out bytes :=
  if blen v =? SPATIAL_KEY_SIZE then Done v
  else if blen v =? 10 then Done (v ++ replicate 14 0)
  else Failed (Internal msg).

Definition lobe_of_key (sk : bytes) : Z := from_be_bytes (slice sk 0 2).

(** Through the cache, or else identity, then spatial. A cached record comes with a
    key of zeros. *)
Definition find_by_lid (lid_str : bytes) : cmd (list (XRecord * bytes)) :=
  l ← lift (of_xresult (lid_parse lid_str));
  cache ← reads db_cache;
  match cache ≫= cache_lookup (lid_lobe_id l) l with
  | Some record => modify (fun db => with_cache (cache_touch (lid_lobe_id l) l <$> db_cache db) db);; mret [(record, ZERO_KEY)]
  | None =>
    o ← tree_get "identity get: " KIdentity (lid_to_bytes l);
    match o with
    | None => mret []
    | Some v =>
      sk ← lift (key_of_identity "bad spatial key in identity" v);
      o ← tree_get "spatial get: " KSpatial sk;
      match o with
      | None => mret []
      | Some blob =>
        db ← reads id;
        record ← lift (hydrated db (lobe_of_key sk) sk blob (db_lobe_name db (lobe_of_key sk)));
        mret [(record, sk)]
      end
    end
  end.

Definition literal_to_string (lit : Literal) : option bytes :=
  match lit with
  | LInt v => Some (display_i64 v)
  | LFloat b => Some (display_f64 b)
  | LText v => Some v
  | LBool b => Some (display_bool b)
  | LTimestamp v => Some v
  | LLid v => Some v
  | LNull => Some (str "null")
  | LList items => Some (debug_literals items)
  | LMap pairs => Some (debug_pairs pairs)
  | LParam _ => None
  end.

(** The loop shared by the scans of FIND; [key_of] gives the key to return, or skips
    the entry. *)
Fixpoint find_rows (record_of : bytes * bytes -> Out XRecord) (key_of : bytes -> option bytes) (core_filters : list (bytes * FilterOp * Value))
    (rows : list (bytes * bytes)) : Out (list (XRecord * bytes)) :=
  match rows with
  | [] => Done []
  | row :: rows' =>
    match key_of row.1 with
    | None => find_rows record_of key_of core_filters rows'
    | Some sk =>
      match record_of row with
      | Panicked => Panicked
      | Failed _ => find_rows record_of key_of core_filters rows'
      | Done record =>
        rest ← find_rows record_of key_of core_filters rows';
        Done (if matches_filters (fields record) core_filters then (record, sk) :: rest else rest)
      end
    end
  end.

Definition find_gravity_bucket (lobe_id gravity_hash : Z) (core_filters : list (bytes * FilterOp * Value)) : cmd (list (XRecord * bytes)) :=
  db ← reads id;
  let '(key_min, key_max) := prefix_for_gravity lobe_id gravity_hash in
  rows ← lift (storage (rd_range_stream (tr_spatial (db_trees db)) key_min key_max));
  lift (find_rows (fun row => hydrated db lobe_id row.1 row.2 (db_lobe_name db lobe_id))
          (fun k => if blen k =? SPATIAL_KEY_SIZE then Some k else None) core_filters rows).

(** A longer key is cut, a shorter one padded. *)
Definition fit_key (k : bytes) : bytes := take 24 (k ++ ZERO_KEY).

Definition scan_lobe_filtered (lobe_id : Z) (filters : list Filter) : cmd (list (XRecord * bytes)) :=
  core_filters ← lift (or_panic (convert_filters filters));
  db ← reads id;
  rows ← lift (storage (rd_prefix_iter (tr_spatial (db_trees db)) (to_be_bytes 2 lobe_id)));
  lift (find_rows (fun row => hydrated db lobe_id row.1 row.2 (db_lobe_name db lobe_id)) (fun k => Some (fit_key k)) core_filters rows).

(** The first [=] on an anchor. *)
Definition anchor_filter (anchors : AnchorRegistry) (lobe : bytes) (filters : list Filter) : option Filter :=
  List.find (fun f => bool_decide (f_op f = Eq_) && is_anchor anchors lobe (f_field f)) filters.

Definition find_in_lobe (lobe : bytes) (filters : list Filter) : cmd (list (XRecord * bytes)) :=
  db ← reads id;
  match lobe_get lobe (db_lobes db) with
  | None => fail_with (LobeNotFound lobe)
  | Some c =>
    match anchor_filter (db_anchors db) lobe filters with
    | Some f =>
      val_str ← lift (or_panic (literal_to_string (f_value f)));
      o ← tree_get "dictionary get: " KDictionary (dictionary_key (lc_id c) (f_field f) val_str);
      match o with
      | None => mret []
      | Some lid_bytes =>
        if blen lid_bytes =? 16 then
          results ← find_by_lid (lid_display (lid_from_bytes lid_bytes));
          core_filters ← lift (or_panic (convert_filters filters));
          mret (List.filter (fun rk => matches_filters (fields rk.1) core_filters) results)
        else fail_with (Internal "bad LID in dictionary")
      end
    | None =>
      core_filters ← lift (or_panic (convert_filters filters));
      match detect_gravity_eq (scan_engine db) lobe core_filters with
      | Some ghash => find_gravity_bucket (lc_id c) ghash core_filters
      | None => scan_lobe_filtered (lc_id c) filters
      end
    end
  end.

(** [resolve_find_internal]: an identifier is looked up whatever the filters are. *)
Definition resolve_find (target : FindTarget) (filters : list Filter) : cmd (list (XRecord * bytes)) :=
  match target with
  | ByLid text => find_by_lid text
  | FLobe name => find_in_lobe name filters
  end.

Definition resolve_find_expr (target : FindTarget) (filter_expr : option FilterExpr) : cmd (list (XRecord * bytes)) :=
  match filter_expr with
  | None => resolve_find target []
  | Some expr =>
    match as_flat_and expr with
    | Some flat => resolve_find target flat
    | None =>
      core ← lift (or_panic (to_core_expr expr));
      all ← resolve_find target [];
      mret (List.filter (fun rk => matches_core_expr (fields rk.1) core) all)
    end
  end.

(** *** Pages of a bucket *)

Definition find_gravity_paginated (lobe_id gravity_hash : Z) (filter_expr : option FilterExpr) (effective_limit : Z) (start_after : option bytes)
    : cmd PaginatedScanOutput :=
  db ← reads id;
  let '(key_min, key_max) := prefix_for_gravity lobe_id gravity_hash in
  lower ← match start_after with
          | Some k =>
            if negb (blen k =? SPATIAL_KEY_SIZE) || bltb k key_min || bltb key_max k
            then fail_with (InvalidQuery "cursor invalid: resume point falls outside the gravity bucket")
            else mret (k ++ [0])
          | None => mret key_min
          end;
  rows ← lift (storage (rd_range_stream (tr_spatial (db_trees db)) lower key_max));
  lift (page_loop (row_record (tr_vectors (db_trees db)) (db_lobe_name db lobe_id) (get_dict (db_registry db) lobe_id) true filter_expr)
          effective_limit rows (mkPage [] None false)).

Definition find_filter_expr (filters : list Filter) : option FilterExpr := match filters with [] => None | _ => Some (from_filters filters) end.

Definition find_page (lobe_id ghash : Z) (stmt : FindStmt) (start_after : option bytes) : cmd QueryResult :=
  let filter_expr := find_filter_expr (fs_filters stmt) in
  out ← find_gravity_paginated lobe_id ghash filter_expr (default SCAN_LIMIT_DEFAULT (fs_limit stmt)) start_after;
  cursor ← lift (next_cursor lobe_id (filter_checksum filter_expr) out);
  mret (PaginatedRecords (pg_records out) cursor (pg_has_more out)).

(** [None]: not for this path. *)
Definition try_first_page_paginated (stmt : FindStmt) : cmd (option QueryResult) :=
  db ← reads id;
  match fs_target stmt with
  | ByLid _ => mret None
  | FLobe name =>
    match lobe_get name (db_lobes db) with
    | None => mret None
    | Some c =>
      match anchor_filter (db_anchors db) name (fs_filters stmt) with
      | Some _ => mret None
      | None =>
        core_filters ← lift (or_panic (convert_filters (fs_filters stmt)));
        match detect_gravity_eq (scan_engine db) name core_filters with
        | None => mret None
        | Some ghash => r ← find_page (lc_id c) ghash stmt None; mret (Some r)
        end
      end
    end
  end.

Definition execute_find_paginated (stmt : FindStmt) : cmd QueryResult :=
  db ← reads id;
  match fs_cursor stmt, fs_target stmt with
  | None, _ => fail_with (Internal "execute_find_paginated called without cursor")
  | Some _, ByLid _ => fail_with (InvalidQuery "cursor not applicable to FIND LID")
  | Some token, FLobe name =>
    match lobe_get name (db_lobes db) with
    | None => fail_with (LobeNotFound name)
    | Some c =>
      match anchor_filter (db_anchors db) name (fs_filters stmt) with
      | Some _ => fail_with (InvalidQuery "cursor not applicable to anchor lookup")
      | None =>
        core_filters ← lift (or_panic (convert_filters (fs_filters stmt)));
        match detect_gravity_eq (scan_engine db) name core_filters with
        | None => fail_with (InvalidQuery "field has no anchor or gravity")
        | Some ghash =>
          payload ← lift (decode_cursor token);
          if negb (cp_lobe_id payload =? lc_id c) then fail_with (InvalidQuery "cursor invalid: token issued for another lobe")
          else if negb (filter_checksum (find_filter_expr (fs_filters stmt)) =? cp_filter_checksum payload)
          then fail_with (InvalidQuery "cursor invalid: WHERE clause does not match the cursor's binding")
          else find_page (lc_id c) ghash stmt (Some (cp_last_spatial_key payload))
        end
      end
    end
  end.

Definition execute_find (stmt : FindStmt) : cmd QueryResult :=
  match fs_cursor stmt with
  | Some _ => execute_find_paginated stmt
  | None =>
    first ← match fs_limit stmt with Some _ => try_first_page_paginated stmt | None => mret None end;
    match first with
    | Some result => mret result
    | None => results ← resolve_find (fs_target stmt) (fs_filters stmt); mret (Records (fst <$> results))
    end
  end.

End db.
