(* ===== verification/Mutations.v ===== *)
(** * The statements that change records

    (engine/src/ops/put.rs, set.rs, delete.rs, link.rs.) PUT with its uniqueness
    check, ON CONFLICT UPDATE and LINK clause, PUT BATCH and the bulk path, SET with
    the move of a record whose bucket changes, DELETE, PURGE and LINK. Each commits
    its batches to the trees and then calls the post-write hook of the ghosts, the
    router's counter and the record cache, in the order of the code. *)

From S2P Require Import Prelude ByteOrder BTree Types Block Paths Tree Value FieldDict Lid Filters FilterEq.
From S2P Require Import Record FieldRegistry SpatialKey SortEncoding Aggregate GroupKey Rollup Ghost Gravity Router Scan Registries Db.

(** ** Syntax *)

Record PutField := mkPutField { pf_name : bytes; pf_value : Literal; pf_gravity : bool }.
Record LinkClause := mkLinkClause { lk_target : FindTarget; lk_filters : list Filter; lk_relation_name : bytes }.
Inductive OnConflict := ConflictUpdate.
Record PutStmt := mkPut { pt_fields : list PutField; pt_lobe : bytes; pt_link : option LinkClause; pt_on_conflict : option OnConflict }.
Record PutBatchStmt := mkPutBatch { pb_records : list (list PutField); pb_lobe : bytes; pb_link : option LinkClause; pb_on_conflict : option OnConflict }.
Record SetStmt := mkSet { ss_target : option FindTarget; ss_assignments : list (bytes * Literal); ss_filter_expr : option FilterExpr }.
Record DeleteStmt := mkDelete { dl_target : option FindTarget; dl_filter_expr : option FilterExpr }.
Record LinkStmt := mkLink {
  ln_source : FindTarget;
  ln_target : FindTarget;
  ln_relation_name : bytes;
  ln_source_filter_expr : option FilterExpr;
  ln_target_filter_expr : option FilterExpr;
}.

(** What the statements answer: [QueryResult::Ok] and [QueryResult::BatchOk]. *)
Inductive Answer :=
  | AOk (l : option LID) (message : bytes)
  | ABatchOk (count : Z) (first_lid last_lid : LID).

Section mutations.
Context {W D : Type} {RD : Reads D} {TA : TreeApi D} {CM : Commit W D} {XH : Xxh3} {CT : CursorText} {LT : LiteralText} {RS : RecordSize}.
Context {PC : Postcard} {NC : NamesCodec} {RP : RollupPostcard} {VT : ValueText} {VP : ValuePostcard} {GT : GravityText} {RC : RegistryCodec} {SP : SpecPostcard}.
Context (norm_sq : list Z -> Z) (group_spill_limit : Z).

Abbreviation cmd := (Cmd W D).

(** ** What they share *)

(** The fields, those marked with a star, and whether [_type] is among them. *)
Fixpoint build_fields (fs : list PutField) (fields : Fields) (gravity_fields : list (bytes * Value)) (has_type : bool)
    : option (Fields * list (bytes * Value) * bool) :=
  match fs with
  | [] => Some (fields, gravity_fields, has_type)
  | pf :: fs' =>
    match literal_to_value (pf_value pf) with
    | None => None
    | Some val =>
      build_fields fs' (bt_insert (pf_name pf) val fields) (if pf_gravity pf then gravity_fields ++ [(pf_name pf, val)] else gravity_fields)
        (has_type || beqb (pf_name pf) (str "_type"))
    end
  end.

(** With the type of the lobe where the statement gives none. *)
Definition put_fields (lobe : bytes) (fs : list PutField) : Out (Fields * list (bytes * Value)) :=
  '(fields, gravity_fields, has_type) ← or_panic (build_fields fs [] [] false);
  Done (if has_type : bool then fields else bt_insert (str "_type") (Text lobe) fields, gravity_fields).

Definition composite_spec (spec : option GravitySpec) : bool := match spec with Some (Composite _) => true | _ => false end.

(** Several stars need a declared composite. *)
Definition check_markers (spec : option GravitySpec) (gravity_fields : list (bytes * Value)) : cmd unit :=
  if (2 <=? blen gravity_fields) && negb (composite_spec spec)
  then fail_with (InvalidQuery "record marks multiple gravity fields but no composite gravity spec is declared") else mret tt.

Definition register_marker (lobe : bytes) (gravity_fields : list (bytes * Value)) : cmd unit :=
  match gravity_fields with [(name, _)] => register_gravity_field lobe name | _ => mret tt end.

(** The anchors the record has: name, text of the value, dictionary key. *)
Fixpoint anchor_keys (anchors : list bytes) (lobe_id : Z) (fields : Fields) : list (bytes * bytes * bytes) :=
  match anchors with
  | [] => []
  | name :: rest =>
    match bt_get name fields with
    | Some v => (name, value_to_anchor_string v, dictionary_key lobe_id name (value_to_anchor_string v)) :: anchor_keys rest lobe_id fields
    | None => anchor_keys rest lobe_id fields
    end
  end.

(** After a recovery an absence is confirmed without the bloom filters. *)
Definition anchor_dict_get (dict_key : bytes) : cmd (option bytes) :=
  o ← tree_get "dictionary get: " KDictionary dict_key;
  match o with
  | Some v => mret (Some v)
  | None =>
    db ← reads id;
    if cm_recovered_from_wal (db_wal db) then lift (storage_at "dictionary confirm: " (cm_get_no_bloom (tr_dictionary (db_trees db)) dict_key)) else mret None
  end.

(** The first anchor whose value is taken, with what the dictionary holds. *)
Fixpoint first_conflict (keys : list (bytes * bytes * bytes)) : cmd (option (bytes * bytes * bytes)) :=
  match keys with
  | [] => mret None
  | (name, val_str, dict_key) :: rest =>
    o ← anchor_dict_get dict_key;
    match o with Some existing => mret (Some (name, val_str, existing)) | None => first_conflict rest end
  end.

Definition search_field (lobe : bytes) (db : Db W D) : option bytes := vs_field <$> bt_get lobe (db_vectors db).

(** The searchable vector of a record. *)
Definition searchable (search : option bytes) (r : XRecord) : option (bytes * list Z) :=
  match search with
  | Some f => match bt_get f (fields r) with Some (Vector v) => Some (f, v) | _ => None end
  | None => None
  end.

Definition check_dim (lobe : bytes) (search : option bytes) (r : XRecord) : cmd unit :=
  match searchable search r with Some (f, v) => ensure_vector_dim lobe f (blen v) | None => mret tt end.

(** The split layout for a record with a searchable vector, the plain one else. *)
Definition serialize_split (search : option bytes) (lobe_id : Z) (r : XRecord) : cmd (bytes * option bytes * option (bytes * bytes)) :=
  match searchable search r with
  | Some (f, _) => fun db =>
    let '(blob, column, entry, reg) := serialize_record_v5_durable norm_sq (db_registry db) lobe_id r (Some f) in
    (with_registry reg db, Done (blob, column, entry))
  | None => mret (serialize_record r, None, None)
  end.

Definition opt_put (ks : Ks) (o : option (bytes * bytes)) : list BatchOp := match o with Some (k, v) => [BPut ks k v] | None => [] end.

(** The hook runs on the dictionary of the database. *)
Definition notify (lobe_id : Z) (record : Fields) (sk : bytes) (wt : WriteType) : cmd unit := fun db =>
  let gl := db_ghosts db in
  match notify_write group_spill_limit lobe_id record sk wt
          (mkManager (gl_shards gl) (gl_keyspace gl) ((fun _ => tr_dictionary (db_trees db)) <$> gl_dictionary gl) (gl_bulk_mode gl)) with
  | None => (db, Panicked)
  | Some gl' =>
    (with_ghosts gl' (with_store (db_wal db) (match gl_dictionary gl' with Some d => set_dictionary d (db_trees db) | None => db_trees db end) db), Done tt)
  end.

Definition record_router_writes (lobe_id n : Z) : cmd unit := modify (fun db =>
  match bt_get lobe_id (db_routers db) with
  | Some router => with_routers (bt_insert lobe_id (record_writes n router) (db_routers db)) db
  | None => db
  end).

Definition write_through (lobe_id : Z) (r : XRecord) : cmd unit := modify (fun db => with_cache (update_record lobe_id r <$> db_cache db) db).

(** [LID::new] *)
Definition mint_lid (lobe_id : Z) : cmd LID :=
  ts ← read_clock;
  st ← reads db_lid;
  modify (fun db => with_counters (LID_new st lobe_id ts).2 (db_seq db) (db_ticks db) db);; mret (LID_new st lobe_id ts).1.

(** [RECORD_SEQ.fetch_add(1)] *)
Definition next_record_seq : cmd Z := fun db => (with_counters (db_lid db) (wrap64 (db_seq db + 1)) (db_ticks db) db, Done (db_seq db)).

(** [as i64] *)
Definition as_i64 (x : Z) : Z := (x + 2 ^ 63) mod 2 ^ 64 - 2 ^ 63.

(** Identity, then spatial, then the record with its vector. *)
Definition load_record (bad : string) (l : LID) (hydrate : Db W D -> bytes -> bytes -> Out XRecord) : cmd (option (bytes * XRecord)) :=
  o ← tree_get "identity get: " KIdentity (lid_to_bytes l);
  match o with
  | None => mret None
  | Some v =>
    sk ← lift (key_of_identity bad v);
    o ← tree_get "spatial get: " KSpatial sk;
    match o with
    | None => mret None
    | Some blob => db ← reads id; r ← lift (hydrate db sk blob); mret (Some (sk, r))
    end
  end.

(** [.ok_or_else(|| XyzError::RecordNotFound(..))] *)
Definition or_not_found {A} (o : option A) : Out A := match o with Some a => Done a | None => Failed (RecordNotFound "record not found") end.

Definition set_fields (fs : Fields) (updated : Z) (r : XRecord) : XRecord := mkRecord (lid r) (lobe_name r) fs (created_at r) updated.
(** ** PUT *)

Definition inserted_message (l : LID) : bytes := str "1 record inserted (LID: " ++ lid_display l ++ str ")".
Definition updated_message (l : LID) : bytes := str "1 record updated (LID: " ++ lid_display l ++ str ")".

(** ON CONFLICT UPDATE: in place, whatever bucket the new values belong to. *)
Definition execute_upsert (existing_lid : LID) (new_fields : Fields) (lobe : bytes) : cmd Answer :=
  o ← load_record "bad spatial key in identity" existing_lid (fun db sk blob => hydrated db (lobe_of_key sk) sk blob lobe);
  '(sk, old_record) ← lift (or_not_found o);
  now ← read_clock;
  let record := set_fields (foldl (fun fs kv => bt_insert kv.1 kv.2 fs) (fields old_record) new_fields) (as_i64 now) old_record in
  search ← reads (search_field lobe);
  check_dim lobe search record;;
  '(blob, column, entry) ← serialize_split search (lobe_of_key sk) record;
  commit_batch "put update commit failed: " ([BPut KSpatial sk blob] ++ opt_put KVectors (pair sk <$> column) ++ opt_put KDictionary entry);;
  notify (lobe_of_key sk) (fields record) sk (WUpdate (fields old_record) sk);;
  write_through (lobe_of_key sk) record;;
  mret (AOk (Some existing_lid) (updated_message existing_lid)).

Definition resolve_gravity_hash_from_link (target : FindTarget) (filters : list Filter) : cmd Z :=
  results ← resolve_find target filters;
  match results with
  | [] => fail_with (RecordNotFound "LINK target not found")
  | (_, sk) :: _ => mret (gravity_hash_from_bytes sk)
  end.

Definition link_field (relation_name : bytes) : bytes := str "_link_" ++ relation_name.

(** The record as the blob alone gives it. *)
Definition unhydrated (db : Db W D) (sk blob : bytes) : Out XRecord :=
  of_xresult (deserialize_record blob (db_lobe_name db (lobe_of_key sk)) (get_dict (db_registry db) (lobe_of_key sk))).

Definition create_link_record (source_lid : LID) (link : LinkClause) : cmd unit :=
  targets ← resolve_find (lk_target link) (lk_filters link);
  match targets with
  | [] => mret tt
  | (target, _) :: _ =>
    o ← load_record "bad spatial key" source_lid unhydrated;
    '(sk, old) ← lift (or_not_found o);
    let record := set_fields (bt_insert (link_field (lk_relation_name link)) (Text (lid_display (lid target))) (fields old)) (updated_at old) old in
    reg ← reads db_registry;
    let '(blob, entry, reg) := serialize_record_v2_durable reg (lobe_of_key sk) record in
    modify (with_registry reg);;
    commit_batch "link commit failed: " ([BPut KSpatial sk blob] ++ opt_put KDictionary entry)
  end.

(** The batch of one insert. *)
Definition insert_ops (sk : bytes) (l : LID) (blob : bytes) (column : option bytes) (entry : option (bytes * bytes)) (dict_keys : list bytes) : list BatchOp :=
  [BPut KSpatial sk blob; BPut KIdentity (lid_to_bytes l) sk] ++ opt_put KVectors (pair sk <$> column) ++ opt_put KDictionary entry ++
  ((fun k => BPut KDictionary k (lid_to_bytes l)) <$> dict_keys).

(** The part of [execute_put] for a record no anchor of which is taken. *)
Definition put_insert (stmt : PutStmt) (lobe_id : Z) (fields : Fields) (gravity_fields : list (bytes * Value)) (anchors : list bytes)
    (keys : list (bytes * bytes * bytes)) : cmd Answer :=
  let lobe := pt_lobe stmt in
  linked ← match pt_link stmt with
           | Some link => h ← resolve_gravity_hash_from_link (lk_target link) (lk_filters link); mret (Some h)
           | None => mret None
           end;
  spec ← reads (fun db => bt_get lobe (db_gravity db));
  let gravity_hash := placement_hash linked gravity_fields spec anchors fields in
  l ← mint_lid lobe_id;
  now ← read_clock;
  let now_micros := wrap64 now in
  seq ← next_record_seq;
  satellite ← reads (fun db => bt_get lobe (db_satellites db));
  let sk := to_bytes (placement_key lobe_id gravity_hash satellite fields now_micros seq) in
  let record := mkRecord l lobe fields (as_i64 now_micros) (as_i64 now_micros) in
  search ← reads (search_field lobe);
  check_dim lobe search record;;
  '(blob, column, entry) ← serialize_split search lobe_id record;
  commit_batch "batch commit failed: " (insert_ops sk l blob column entry (snd <$> keys));;
  notify lobe_id fields sk WInsert;;
  match pt_link stmt with Some link => create_link_record l link | None => mret tt end;;
  record_router_writes lobe_id 1;;
  write_through lobe_id record;;
  mret (AOk (Some l) (inserted_message l)).

Definition execute_put (stmt : PutStmt) : cmd Answer :=
  let lobe := pt_lobe stmt in
  lobe_id ← resolve_lobe lobe;
  '(fields, gravity_fields) ← lift (put_fields lobe (pt_fields stmt));
  spec ← reads (fun db => bt_get lobe (db_gravity db));
  check_markers spec gravity_fields;;
  register_marker lobe gravity_fields;;
  anchors ← reads (fun db => get_anchors (db_anchors db) lobe);
  let keys := anchor_keys anchors lobe_id fields in
  conflict ← first_conflict keys;
  match conflict with
  | Some (name, val_str, existing) =>
    match pt_on_conflict stmt with
    | Some ConflictUpdate =>
      if blen existing =? 16 then execute_upsert (lid_from_bytes existing) fields lobe else fail_with (Internal "bad LID in dictionary")
    | None => fail_with (DuplicateAnchor name val_str lobe (if blen existing =? 16 then lid_display (lid_from_bytes existing) else str "unknown"))
    end
  | None => put_insert stmt lobe_id fields gravity_fields anchors keys
  end.

(** ** PUT BATCH *)

Definition MAX_BATCH_SIZE : Z := 10000.

(** What the loop over the records carries. *)
Record BatchState := mkBatch {
  bs_ops : list BatchOp;
  bs_lids : list LID;
  bs_notify : list (XRecord * bytes);
  bs_anchor_lids : gmap bytes LID;
  bs_upserts : list (LID * Fields);
}.

(** Who owns the first anchor value that is taken, in this batch or before. *)
Fixpoint batch_conflict (on_conflict : option OnConflict) (lobe : bytes) (claimed : gmap bytes LID) (keys : list (bytes * bytes * bytes)) : cmd (option LID) :=
  match keys with
  | [] => mret None
  | (name, val_str, dict_key) :: rest =>
    match claimed !! dict_key with
    | Some prior => match on_conflict with None => fail_with (DuplicateAnchor name val_str lobe (str "batch")) | Some ConflictUpdate => mret (Some prior) end
    | None =>
      o ← anchor_dict_get dict_key;
      match o with
      | None => batch_conflict on_conflict lobe claimed rest
      | Some existing =>
        match on_conflict with
        | None => fail_with (DuplicateAnchor name val_str lobe (str "batch"))
        | Some ConflictUpdate => if blen existing =? 16 then mret (Some (lid_from_bytes existing)) else fail_with (Internal "bad LID in dictionary")
        end
      end
    end
  end.

(** [ghost_manager.is_empty()] *)
Definition has_no_ghosts (db : Db W D) : bool := forallb (fun ls => match ls.2 with [] => true | _ => false end) (gl_shards (db_ghosts db)).

(** Identifier, key and serialization of a record of a batch. *)
Definition batch_insert (lobe : bytes) (lobe_id gravity_hash now_micros idx : Z) (search : option bytes) (fields : Fields)
    (dict_keys : list bytes) (st : BatchState) : cmd BatchState :=
  l ← mint_lid lobe_id;
  seq ← next_record_seq;
  db ← reads id;
  let sk := to_bytes (placement_key lobe_id gravity_hash (bt_get lobe (db_satellites db)) fields (now_micros + idx) seq) in
  let record := mkRecord l lobe fields (as_i64 now_micros) (as_i64 now_micros) in
  check_dim lobe search record;;
  '(blob, column, entry) ← serialize_split search lobe_id record;
  mret (mkBatch (bs_ops st ++ insert_ops sk l blob column entry dict_keys) (bs_lids st ++ [l])
          (if has_no_ghosts db then [] else bs_notify st ++ [(record, sk)])
          (foldl (fun m k => <[k := l]> m) (bs_anchor_lids st) dict_keys) (bs_upserts st)).

Definition batch_record (stmt : PutBatchStmt) (lobe_id now_micros : Z) (linked : option Z) (spec : option GravitySpec) (anchors : list bytes)
    (search : option bytes) (idx : Z) (fs : list PutField) (st : BatchState) : cmd BatchState :=
  let lobe := pb_lobe stmt in
  '(fields, gravity_fields) ← lift (put_fields lobe fs);
  check_markers spec gravity_fields;;
  register_marker lobe gravity_fields;;
  let keys := anchor_keys anchors lobe_id fields in
  conflict ← batch_conflict (pb_on_conflict stmt) lobe (bs_anchor_lids st) keys;
  match conflict with
  | Some existing_lid => mret (mkBatch (bs_ops st) (bs_lids st) (bs_notify st) (bs_anchor_lids st) (bs_upserts st ++ [(existing_lid, fields)]))
  | None => batch_insert lobe lobe_id (placement_hash linked gravity_fields spec anchors fields) now_micros idx search fields (snd <$> keys) st
  end.

Fixpoint batch_loop (step : Z -> list PutField -> BatchState -> cmd BatchState) (idx : Z) (records : list (list PutField)) (st : BatchState) : cmd BatchState :=
  match records with
  | [] => mret st
  | fs :: rest => st ← step idx fs st; batch_loop step (idx + 1) rest st
  end.

Fixpoint each {A B} (f : A -> cmd B) (l : list A) : cmd unit :=
  match l with [] => mret tt | x :: l' => f x;; each f l' end.

Definition WRITES_PREFIX : bytes := [255; 254].

(** Errors are dropped. *)
Definition persist_total_writes : cmd unit := modify (fun db =>
  foldl (fun db (lr : Z * GhostRouter) =>
           if 0 <? gr_total_writes lr.2
           then with_store (db_wal db) (set_dictionary (api_insert (WRITES_PREFIX ++ to_be_bytes 2 lr.1) (to_be_bytes 8 (gr_total_writes lr.2)) (tr_dictionary (db_trees db))).1 (db_trees db)) db
           else db) db (db_routers db)).

Definition batch_router_writes (lobe_id n : Z) : cmd unit :=
  record_router_writes lobe_id n;;
  db ← reads id;
  match bt_get lobe_id (db_routers db) with
  | Some router => if gr_total_writes router mod 10000 <? n then persist_total_writes else mret tt
  | None => mret tt
  end.

(** For a lobe with a vector field the statement holds the lock on the field registry
    until it returns; each update asks for that lock and waits for ever. [None] stands
    for not returning. *)
Definition execute_put_batch (stmt : PutBatchStmt) : cmd (option Answer) :=
  let n := blen (pb_records stmt) in
  if n =? 0 then mret (Some (AOk None (str "0 records inserted (empty batch)")))
  else if MAX_BATCH_SIZE <? n then fail_with (InvalidQuery "Batch too large")
  else
    lobe_id ← resolve_lobe (pb_lobe stmt);
    linked ← match pb_link stmt with
             | Some link => h ← resolve_gravity_hash_from_link (lk_target link) (lk_filters link); mret (Some h)
             | None => mret None
             end;
    anchors ← reads (fun db => get_anchors (db_anchors db) (pb_lobe stmt));
    now ← read_clock;
    spec ← reads (fun db => bt_get (pb_lobe stmt) (db_gravity db));
    search ← reads (search_field (pb_lobe stmt));
    st ← batch_loop (batch_record stmt lobe_id (wrap64 now) linked spec anchors search) 0 (pb_records stmt) (mkBatch [] [] [] ∅ []);
    commit_batch "batch commit failed: " (bs_ops st);;
    each (fun rk => notify lobe_id (fields rk.1) rk.2 WInsert) (bs_notify st);;
    if bool_decide (is_Some search /\ bs_upserts st <> []) then mret None
    else
      each (fun lf => execute_upsert lf.1 lf.2 (pb_lobe stmt)) (bs_upserts st);;
      batch_router_writes lobe_id n;;
      mret (Some (ABatchOk n (default 0 (head (bs_lids st))) (default 0 (last (bs_lids st))))).

(** ** The bulk path *)

Record BulkRecord := mkBulk { bk_fields : Fields; bk_gravity_fields : list (bytes * Value) }.

(** No anchors here, neither checked nor indexed. *)
Definition bulk_record (lobe : bytes) (lobe_id now_micros : Z) (spec : option GravitySpec) (search : option bytes) (idx : Z) (bulk_rec : BulkRecord)
    (st : BatchState) : cmd BatchState :=
  let fields := match bt_get (str "_type") (bk_fields bulk_rec) with
                | Some _ => bk_fields bulk_rec
                | None => bt_insert (str "_type") (Text lobe) (bk_fields bulk_rec)
                end in
  check_markers spec (bk_gravity_fields bulk_rec);;
  batch_insert lobe lobe_id (placement_hash None (bk_gravity_fields bulk_rec) spec [] fields) now_micros idx search fields [] st.

Fixpoint bulk_loop (step : Z -> BulkRecord -> BatchState -> cmd BatchState) (idx : Z) (records : list BulkRecord) (st : BatchState) : cmd BatchState :=
  match records with
  | [] => mret st
  | r :: rest => st ← step idx r st; bulk_loop step (idx + 1) rest st
  end.

(** Number of records, first and last identifier. *)
Definition execute_bulk_insert (lobe : bytes) (records : list BulkRecord) : cmd (Z * LID * LID) :=
  match records with
  | [] => mret (0, 0, 0)
  | _ =>
    lobe_id ← resolve_lobe lobe;
    now ← read_clock;
    spec ← reads (fun db => bt_get lobe (db_gravity db));
    search ← reads (search_field lobe);
    st ← bulk_loop (bulk_record lobe lobe_id (wrap64 now) spec search) 0 records (mkBatch [] [] [] ∅ []);
    commit_batch "bulk insert commit: " (bs_ops st);;
    each (fun rk => notify lobe_id (fields rk.1) rk.2 WInsert) (bs_notify st);;
    record_router_writes lobe_id (blen records);;
    mret (wrap32 (blen records), default 0 (head (bs_lids st)), default 0 (last (bs_lids st)))
  end.

(** ** SET *)

Fixpoint assign (assignments : list (bytes * Literal)) (fs : Fields) : option Fields :=
  match assignments with
  | [] => Some fs
  | (k, lit) :: rest => match literal_to_value lit with Some v => assign rest (bt_insert k v fs) | None => None end
  end.

(** The key a changed record belongs under, if it is not the one it has. *)
Definition moved_key (db : Db W D) (lobe sk : bytes) (fields : Fields) (now seq : Z) : option bytes :=
  let new_gh := gravity_hash_for (bt_get lobe (db_gravity db)) (get_anchors (db_anchors db) lobe) fields in
  let new_sat := satellite_sat_for (bt_get lobe (db_satellites db)) fields in
  let old_sat := from_be_bytes (slice sk 8 10) in
  let sat_changed := match new_sat with Some ns => negb (ns =? old_sat) | None => false end in
  if negb (new_gh =? gravity_hash_from_bytes sk) || sat_changed
  then Some (to_bytes (placement_key (lobe_of_key sk) new_gh (bt_get lobe (db_satellites db)) fields (wrap64 now) seq))
  else None.

(** One record: whether it counts. *)
Definition set_record (assignments : list (bytes * Literal)) (now : Z) (source : XRecord) : cmd bool :=
  let lobe := lobe_name source in
  o ← load_record "bad spatial key" (lid source) (fun db sk blob => hydrated db (lobe_of_key sk) sk blob lobe);
  match o with
  | None => mret false
  | Some (sk, old_record) =>
    fs ← lift (or_panic (assign assignments (fields old_record)));
    let record := set_fields fs now old_record in
    search ← reads (search_field lobe);
    '(blob, column, entry) ← serialize_split search (lobe_of_key sk) record;
    db ← reads id;
    final_sk ← match moved_key db lobe sk fs now (db_seq db) with
               | Some new_sk =>
                 next_record_seq;;
                 commit_batch "set commit failed: "
                   ([BRemove KSpatial sk; BPut KSpatial new_sk blob; BPut KIdentity (lid_to_bytes (lid source)) new_sk; BRemove KVectors sk] ++
                    opt_put KVectors (pair new_sk <$> column) ++ opt_put KDictionary entry);;
                 mret new_sk
               | None =>
                 commit_batch "set commit failed: " ([BPut KSpatial sk blob] ++ opt_put KVectors (pair sk <$> column) ++ opt_put KDictionary entry);;
                 mret sk
               end;
    notify (lobe_of_key sk) fs final_sk (WUpdate (fields old_record) sk);;
    write_through (lobe_of_key sk) record;;
    mret true
  end.

Fixpoint count_loop {A} (f : A -> cmd bool) (l : list A) (count : Z) : cmd Z :=
  match l with
  | [] => mret count
  | x :: l' => b ← f x; count_loop f l' (if b : bool then count + 1 else count)
  end.

(** An anchor may not be assigned. *)
Definition sets_anchor (anchors : AnchorRegistry) (assignments : list (bytes * Literal)) (records : list XRecord) : bool :=
  existsb (fun r => existsb (fun kv => is_anchor anchors (lobe_name r) kv.1) assignments) records.

(** The records a statement is about: those of the pipeline, or of its target. *)
Definition selected (what : string) (target : option FindTarget) (filter_expr : option FilterExpr) (source_records : option (list XRecord)) : cmd (list XRecord) :=
  match source_records with
  | Some recs => mret recs
  | None =>
    match target with
    | None => fail_with (InvalidQuery what)
    | Some target => found ← resolve_find_expr target filter_expr; mret (fst <$> found)
    end
  end.

Definition count_message (count : Z) (what : string) : bytes := format_u64 count ++ str what.

Definition execute_set (stmt : SetStmt) (source_records : option (list XRecord)) : cmd Answer :=
  records ← selected "SET requires a target or pipeline" (ss_target stmt) (ss_filter_expr stmt) source_records;
  match records with
  | [] => mret (AOk None (str "0 records updated"))
  | first :: _ =>
    anchors ← reads db_anchors;
    if sets_anchor anchors (ss_assignments stmt) records then fail_with (InvalidQuery "cannot SET anchor field: anchors are immutable identity")
    else
      now ← read_clock;
      count ← count_loop (set_record (ss_assignments stmt) (as_i64 now)) records 0;
      mret (AOk (Some (lid first)) (count_message count " record(s) updated"))
  end.

(** ** DELETE *)

Inductive DeleteOp :=
  | DelDictionary (k : bytes)
  | DelIdentity (k : bytes)
  | DelVectors (k : bytes)
  | DelSpatial (k : bytes).

(** The text DELETE takes an anchor value for. *)
Definition delete_anchor_string (v : Value) : bytes := match v with Text s => s | other => display_value other end.

(** Pointers first, the record last. *)
Definition build_delete_ops (db : Db W D) (record : XRecord) (lid_bytes sk : bytes) : list DeleteOp :=
  (match lobe_get (lobe_name record) (db_lobes db) with
   | Some c => get_anchors (db_anchors db) (lobe_name record) ≫= fun name =>
                 match bt_get name (fields record) with
                 | Some v => [DelDictionary (dictionary_key (lc_id c) name (delete_anchor_string v))]
                 | None => []
                 end
   | None => []
   end) ++ [DelIdentity lid_bytes; DelVectors sk; DelSpatial sk].

Definition delete_op (op : DeleteOp) : BatchOp :=
  match op with
  | DelDictionary k => BRemove KDictionary k
  | DelIdentity k => BRemove KIdentity k
  | DelVectors k => BRemove KVectors k
  | DelSpatial k => BRemove KSpatial k
  end.

Definition delete_single_record (record : XRecord) : cmd unit :=
  o ← tree_get "identity get: " KIdentity (lid_to_bytes (lid record));
  match o with
  | None => mret tt
  | Some v =>
    sk ← lift (key_of_identity "bad spatial key" v);
    db ← reads id;
    commit_batch "delete batch commit: " (delete_op <$> build_delete_ops db record (lid_to_bytes (lid record)) sk);;
    notify (lobe_of_key sk) (fields record) sk WDelete;;
    modify (fun db => with_cache (invalidate_record (lobe_of_key sk) (lid record) <$> db_cache db) db)
  end.

Definition execute_delete (stmt : DeleteStmt) (source_records : option (list XRecord)) : cmd Answer :=
  records ← selected "DELETE requires a target or pipeline" (dl_target stmt) (dl_filter_expr stmt) source_records;
  match records with
  | [] => mret (AOk None (str "0 records deleted"))
  | first :: _ =>
    count ← count_loop (fun r => delete_single_record r;; mret true) records 0;
    mret (AOk (Some (lid first)) (count_message count " record(s) deleted"))
  end.

Definition execute_purge (lobe : bytes) : cmd Answer := execute_delete (mkDelete (Some (FLobe lobe)) None) None.

(** ** LINK *)

(** The edge is a field of the source record; neither the ghosts nor the cache are
    told. *)
Definition execute_link (stmt : LinkStmt) : cmd Answer :=
  sources ← resolve_find_expr (ln_source stmt) (ln_source_filter_expr stmt);
  match sources with
  | [] => fail_with (RecordNotFound "LINK source not found")
  | (source, _) :: _ =>
    targets ← resolve_find_expr (ln_target stmt) (ln_target_filter_expr stmt);
    match targets with
    | [] => fail_with (RecordNotFound "LINK target not found")
    | (target, _) :: _ =>
      o ← load_record "bad spatial key" (lid source) unhydrated;
      '(sk, old) ← lift (or_not_found o);
      now ← read_clock;
      let record := set_fields (bt_insert (link_field (ln_relation_name stmt)) (Text (lid_display (lid target))) (fields old)) (as_i64 now) old in
      commit_batch "link commit failed: " [BPut KSpatial sk (serialize_record record)];;
      mret (AOk (Some (lid source)) (str "LINK created: " ++ lid_display (lid source) ++ str " -> " ++ lid_display (lid target) ++ str " as '" ++ ln_relation_name stmt ++ str "'"))
    end
  end.

End mutations.
