(* ===== verification/DbInv.v ===== *)
(** * What the statements keep

    The laws of the trees that statements rely on, the records a database holds as a
    map from identifiers, and the invariant that ties the trees, the anchor index, the
    registries and the cache to that map. *)

From S2P Require Import Prelude ByteOrder BTree Types Block Paths Tree Value FieldDict Lid Filters FilterEq.
From S2P Require Import Record FieldRegistry SpatialKey SortEncoding Aggregate GroupKey Rollup Ghost Gravity Router Scan ScanPages Registries Db Mutations.

Definition ks_eqb (a b : Ks) : bool :=
  match a, b with KSpatial, KSpatial | KIdentity, KIdentity | KDictionary, KDictionary | KVectors, KVectors => true | _, _ => false end.

(** The records of a database: from the identifier to the key and the record. *)
Abbreviation Records_ := (gmap Z (bytes * XRecord)).

(** ** Laws *)

Abbreviation View := (Ks -> bytes -> option bytes).

Definition view_op (op : BatchOp) (f : View) : View := fun ks k =>
  match op with
  | BPut ks' k' v => if ks_eqb ks ks' && beqb k k' then Some v else f ks k
  | BRemove ks' k' => if ks_eqb ks ks' && beqb k k' then None else f ks k
  end.
Definition view_ops (ops : list BatchOp) (f : View) : View := foldl (fun f op => view_op op f) f ops.

Definition view {D} {RD : Reads D} {RL : ReadsLaws D} (t : Trees D) : View := fun ks k => row_get k (rd_rows (tree_of ks t)).

(** A batch is applied or, when the commit fails, is not; single writes to the
    dictionary likewise. [DbEngine.engine_commits] proves the first of the storage
    engine's [commit]. *)
Class CommitLaws (W D : Type) {RD : Reads D} {RL : ReadsLaws D} {TA : TreeApi D} {CM : Commit W D} := {
  cm_ok : W -> Trees D -> Prop;
  cm_ok_reads w t ks : cm_ok w t -> rd_ok (tree_of ks t);
  cm_commit_spec ops w t : cm_ok w t ->
    match cm_commit ops (w, t) with
    | ((w', t'), Ok _) => cm_ok w' t' /\ forall ks k, view t' ks k = view_ops ops (view t) ks k
    | ((w', t'), Err _) => cm_ok w' t' /\ forall ks k, view t' ks k = view t ks k
    | (_, Panic) => False
    end;
  cm_insert_spec k v w t : cm_ok w t ->
    match api_insert k v (tr_dictionary t) with
    | (d, Ok _) => cm_ok w (set_dictionary d t) /\ forall k', row_get k' (rd_rows d) = if beqb k' k then Some v else view t KDictionary k'
    | (d, Err _) => cm_ok w (set_dictionary d t) /\ forall k', row_get k' (rd_rows d) = view t KDictionary k'
    | (_, Panic) => False
    end;
  cm_flush_spec w t : cm_ok w t ->
    match cm_flush (tr_dictionary t) with
    | (d, Panic) => False
    | (d, _) => cm_ok w (set_dictionary d t) /\ forall k', row_get k' (rd_rows d) = view t KDictionary k'
    end;
  cm_no_bloom_spec d k : rd_ok d -> cm_get_no_bloom d k = Ok (row_get k (rd_rows d));
}.

(** ** Batches *)

Lemma view_ops_app a b f : view_ops (a ++ b) f = view_ops b (view_ops a f).
Proof. apply foldl_app. Qed.

Lemma view_opt_put ks o f ks' k :
  view_ops (opt_put ks o) f ks' k = match o with Some (k', v) => if ks_eqb ks' ks && beqb k k' then Some v else f ks' k | None => f ks' k end.
Proof. by destruct o as [[k' v]|]. Qed.

Lemma view_puts ks keys v f ks' k :
  view_ops ((fun k => BPut ks k v) <$> keys) f ks' k = if ks_eqb ks' ks && existsb (beqb k) keys then Some v else f ks' k.
Proof.
  revert f. induction keys as [|k' keys IH]; intros f; [by rewrite andb_false_r|]. rewrite fmap_cons.
  change (view_ops (?x :: ?l) f) with (view_ops l (view_op x f)). rewrite IH. cbn. destruct (ks_eqb ks' ks), (beqb k k'), (existsb _ keys); done.
Qed.

Lemma view_removes ks keys f ks' k :
  view_ops (BRemove ks <$> keys) f ks' k = if ks_eqb ks' ks && existsb (beqb k) keys then None else f ks' k.
Proof.
  revert f. induction keys as [|k' keys IH]; intros f; [by rewrite andb_false_r|]. rewrite fmap_cons.
  change (view_ops (?x :: ?l) f) with (view_ops l (view_op x f)). rewrite IH. cbn. destruct (ks_eqb ks' ks), (beqb k k'), (existsb _ keys); done.
Qed.

(** ** Commands by their post-conditions *)

Section wp.
Context {W D : Type}.

Definition runs {A} (m : Cmd W D A) (db : Db W D) (Q : Db W D -> Out A -> Prop) : Prop := Q (m db).1 (m db).2.

Lemma runs_ret {A} (a : A) db Q : Q db (Done a) -> runs (mret a) db Q.
Proof. done. Qed.

Lemma runs_bind {A B} (m : Cmd W D A) (f : A -> Cmd W D B) db Q :
  runs m db (fun db' o => match o with Done a => runs (f a) db' Q | Failed e => Q db' (Failed e) | Panicked => Q db' Panicked end) ->
  runs (m ≫= f) db Q.
Proof. unfold runs, mbind, Cmd_bind. destruct (m db) as [db' [a|e|]]; done. Qed.

Lemma runs_mono {A} (m : Cmd W D A) db (P Q : Db W D -> Out A -> Prop) : runs m db P -> (forall db' o, P db' o -> Q db' o) -> runs m db Q.
Proof. unfold runs. auto. Qed.

Lemma runs_reads {A} (f : Db W D -> A) db Q : Q db (Done (f db)) -> runs (reads f) db Q.
Proof. done. Qed.

Lemma runs_modify f db Q : Q (f db) (Done tt) -> runs (modify f) db Q.
Proof. done. Qed.

Lemma runs_lift {A} (o : Out A) db Q : Q db o -> runs (lift o) db Q.
Proof. done. Qed.

Lemma runs_fail {A} e db (Q : Db W D -> Out A -> Prop) : Q db (Failed e) -> runs (fail_with e) db Q.
Proof. done. Qed.

Lemma bind_done {A B} (m : Cmd W D A) (f : A -> Cmd W D B) d d' a : m d = (d', Done a) -> (m ≫= f) d = f a d'.
Proof. unfold mbind, Cmd_bind. by intros ->. Qed.

(** From a post-condition to the outcome of the run. *)
Lemma runs_out {A} (m : Cmd W D A) db Q db' o : runs m db Q -> m db = (db', o) -> Q db' o.
Proof. unfold runs. intros H E. by rewrite E in H. Qed.

End wp.

(** One step into a sequence of commands. *)
Ltac wp_step := first
  [ apply runs_bind | apply runs_ret | apply runs_reads | apply runs_modify | apply runs_lift | apply runs_fail ].
Ltac wp := repeat (wp_step; cbv beta iota zeta).

Section inv.
Context {W D : Type} {RD : Reads D} {RL : ReadsLaws D} {TA : TreeApi D} {CM : Commit W D} {CL : CommitLaws W D}.
Context {XH : Xxh3} {CT : CursorText} {LT : LiteralText} {RS : RecordSize} {PC : Postcard} {PL : PostcardLaws PC} {NC : NamesCodec}.
Context {RP : RollupPostcard} {VT : ValueText} {VP : ValuePostcard} {GT : GravityText} {RC : RegistryCodec} {SP : SpecPostcard}.
Context (norm_sq : list Z -> Z) (group_spill_limit : Z).
Hypothesis norm_range : forall v, is_uint 64 (norm_sq v).

(** ** Records at rest *)

(** A registry whose dictionaries have only grown. *)
Definition reg_extends (reg reg' : Registry) : Prop :=
  forall l d, reg !! l = Some d -> exists d', reg' !! l = Some d' /\ dict_extends d d' /\ dict_wf d'.
Definition reg_wf (reg : Registry) : Prop := forall l d, reg !! l = Some d -> dict_wf d.

(** Blob and column are the record for this registry and all later ones. *)
Definition reads_back (reg : Registry) (lobe : Z) (column : option bytes) (blob : bytes) (r : XRecord) : Prop :=
  forall reg', reg_extends reg reg' ->
    exists r0, deserialize_record blob (lobe_name r) (reg' !! lobe) = XOk r0 /\
      if format_version blob =? 5 then exists d c, reg' !! lobe = Some d /\ column = Some c /\ (hydrate_vector r0 c d).1 = r else r0 = r.

Lemma reg_extends_refl reg : reg_wf reg -> reg_extends reg reg.
Proof. intros Hwf l d Hd. exists d. split; [done|]. split; [done|]. by eapply Hwf. Qed.

Lemma reg_extends_trans a b c : reg_extends a b -> reg_extends b c -> reg_extends a c.
Proof. intros H1 H2 l d (d1 & Hd1 & E1 & _)%H1. destruct (H2 l d1 Hd1) as (d2 & Hd2 & E2 & Hw). exists d2. split; [done|]. split; [by etrans|done]. Qed.

Lemma reads_back_extends reg reg' lobe column blob r : reg_extends reg reg' -> reads_back reg lobe column blob r -> reads_back reg' lobe column blob r.
Proof. intros He H reg'' He'. apply H. by eapply reg_extends_trans. Qed.

(** The plain layout needs neither registry nor column. *)
Lemma plain_reads_back reg lobe column r : record_ok r -> reads_back reg lobe column (serialize_record r) r.
Proof.
  intros Hr reg' _. exists r. split; [|by unfold format_version, serialize_record; rewrite marker_app].
  pose proof (v1_roundtrip r Hr) as H. unfold deserialize_record, serialize_record in *. rewrite marker_app in *. done.
Qed.

(** A record there is room for in the dictionary of its lobe. *)
Definition room (reg : Registry) (lobe : Z) (r : XRecord) : Prop := blen (id_to_name (dict_of reg lobe)) + blen (fields r) <= 2 ^ 16.

Lemma split_reads_back reg lobe f v r :
  reg_wf reg -> record_ok r -> room reg lobe r -> bt_get f (fields r) = Some (Vector v) ->
  let '(blob, column, entry, reg') := serialize_record_v5_durable norm_sq reg lobe r (Some f) in
  reg_wf reg' /\ reg_extends reg reg' /\ (exists c, column = Some c /\ reads_back reg' lobe (Some c) blob r) /\
  (forall k w, entry = Some (k, w) -> starts_with k [255] = true).
Proof.
  intros Hwf Hr Hroom Hv. unfold serialize_record_v5_durable.
  assert (dict_wf (dict_of reg lobe)) as Hd by (unfold dict_of; destruct (reg !! lobe) eqn:E; [by eapply Hwf|apply FieldDict_new_wf]).
  pose proof (v5_roundtrip norm_sq r (dict_of reg lobe) (Some f) norm_range Hr Hd Hroom) as H.
  assert (forall l d', (serialize_record_v5 norm_sq r (dict_of reg lobe) (Some f)) = (l, d') -> format_version l.1 = 5) as Hver.
  { intros l d'. unfold serialize_record_v5. destruct (search_vec r _ _) as [sv d1]. destruct (v5_fields _ _ _ _) as [idf d2]. intros Heq%(f_equal fst). cbn [fst] in Heq. rewrite <- Heq.
    cbn [fst]. unfold format_version. by rewrite marker_app. }
  destruct (serialize_record_v5 norm_sq r (dict_of reg lobe) (Some f)) as [[blob column] d'] eqn:E. specialize (Hver _ _ eq_refl). cbn in Hver.
  destruct H as (Hwf' & He & Hread). split; [|split; [|split]].
  - intros l d. destruct (decide (lobe = l)) as [<-|]; [rewrite lookup_insert_eq; by intros [= <-]|rewrite lookup_insert_ne by done; apply Hwf].
  - intros l d Hl. destruct (decide (lobe = l)) as [<-|]; [|rewrite lookup_insert_ne by done; exists d; split; [done|]; split; [done|by eapply Hwf]].
    exists d'. rewrite lookup_insert_eq. split; [done|]. split; [|done]. unfold dict_of in He. by rewrite Hl in He.
  - destruct (Hread d' Hwf' (reflexivity _)) as (r0 & _ & Hc). destruct column as [c|]; [|exfalso; by eapply (proj2 Hc)].
    exists c. split; [done|]. intros reg' Hext. destruct (Hext lobe d') as (d2 & Hd2 & He2 & Hw2); [by rewrite lookup_insert_eq|].
    destruct (Hread d2 Hw2 He2) as (r1 & Hr1 & Hh & _). exists r1. rewrite Hd2. split; [done|]. rewrite Hver. cbn. exists d2, c.
    split; [done|]. split; [done|]. by rewrite Hh.
  - intros k w. unfold growth_entry. destruct (_ <? _); [|done]. by intros [= <- _].
Qed.

(** ** The invariant *)

Abbreviation db := (Db W D).

Definition db_view (d : db) : View := view (db_trees d).

(** The record [l] under the key [sk]. The counter of keys is ahead of all of them,
    which holds until the process restarts: it begins at 0 again
    ([restart_overwrites_record]). *)
Record entry_ok (d : db) (l : LID) (sk : bytes) (r : XRecord) : Prop := {
  eo_lid : lid r = l;
  eo_record : record_ok r;
  eo_key : blen sk = SPATIAL_KEY_SIZE /\ is_bytes sk;
  eo_lobe : exists c, lobe_get (lobe_name r) (db_lobes d) = Some c /\ lobe_of_key sk = lc_id c /\ lid_lobe_id l = lc_id c;
  eo_stored : exists blob, db_view d KSpatial sk = Some blob /\ reads_back (db_registry d) (lobe_of_key sk) (db_view d KVectors sk) blob r;
  eo_minted : lid_boot_epoch l = boot_epoch_reg (db_lid d) -> lid_sequence l < sequence_ctr (db_lid d);
  eo_seq : from_be_bytes (slice sk 16 24) < db_seq d;
}.

(** Whether a record has the text [s] in the anchor [a] of a lobe. *)
Definition carries (o : option (bytes * XRecord)) (lobe a s : bytes) : bool :=
  match o with
  | Some (_, r) => beqb (lobe_name r) lobe && match bt_get a (fields r) with Some v => beqb (value_to_anchor_string v) s | None => false end
  | None => false
  end.

Record db_inv (d : db) (recs : Records_) : Prop := {
  di_store : cm_ok (db_wal d) (db_trees d);
  di_lobes : lobes_ok (db_lobes d);
  di_next : next_id (db_lobes d) <= 65280;
  di_registry : reg_wf (db_registry d);
  di_lid : is_uint 32 (sequence_ctr (db_lid d)) /\ is_uint 16 (boot_epoch_reg (db_lid d));
  di_records l sk r : recs !! l = Some (sk, r) -> entry_ok d l sk r;
  di_keys l l' sk r r' : recs !! l = Some (sk, r) -> recs !! l' = Some (sk, r') -> l = l';
  di_identity k v : db_view d KIdentity k = Some v <-> exists l r, recs !! l = Some (v, r) /\ k = lid_to_bytes l;
  di_spatial sk : is_Some (db_view d KSpatial sk) -> exists l r, recs !! l = Some (sk, r);
  di_short lobe a : a ∈ get_anchors (db_anchors d) lobe -> blen a <= 255 /\ is_Some (lobe_get lobe (db_lobes d));
  di_anchors lobe c a s v : lobe_get lobe (db_lobes d) = Some c -> a ∈ get_anchors (db_anchors d) lobe ->
    db_view d KDictionary (dictionary_key (lc_id c) a s) = Some v <-> exists l, carries (recs !! l) lobe a s = true /\ v = lid_to_bytes l;
}.

(** What the cache has is what the database has. *)
Definition coherent (d : db) (recs : Records_) : Prop :=
  forall c lobe l r, db_cache d = Some c -> cache_lookup lobe l c = Some r -> lobe = lid_lobe_id l /\ exists sk, recs !! l = Some (sk, r).

Lemma lid_to_bytes_inj l l' : is_uint 128 l -> is_uint 128 l' -> lid_to_bytes l = lid_to_bytes l' -> l = l'.
Proof. intros Hl Hl' E%(f_equal from_be_bytes). unfold lid_to_bytes in E. by rewrite !(from_to_be_bytes_id 16 128) in E. Qed.

Lemma lid_range d recs l sk r : db_inv d recs -> recs !! l = Some (sk, r) -> is_uint 128 l.
Proof. intros HI Hr%(di_records d recs HI). destruct Hr as [<- [H _]]. done. Qed.

(** No two records of a lobe share an anchor value. *)
Lemma anchors_are_unique d recs lobe a s l l' :
  db_inv d recs -> a ∈ get_anchors (db_anchors d) lobe -> carries (recs !! l) lobe a s = true -> carries (recs !! l') lobe a s = true -> l = l'.
Proof.
  intros HI Ha H H'. destruct (di_short d recs HI lobe a Ha) as [_ [c Hc]].
  assert (db_view d KDictionary (dictionary_key (lc_id c) a s) = Some (lid_to_bytes l)) as E by (apply (di_anchors d recs HI lobe); eauto).
  assert (db_view d KDictionary (dictionary_key (lc_id c) a s) = Some (lid_to_bytes l')) as E' by (apply (di_anchors d recs HI lobe); eauto).
  destruct (recs !! l) as [[sk r]|] eqn:Hr; [|done]. destruct (recs !! l') as [[sk' r']|] eqn:Hr'; [|done].
  apply lid_to_bytes_inj; [by eapply lid_range..|]. congruence.
Qed.

(** ** What does not touch the records *)

Record calm (d d' : db) : Prop := {
  ca_store : cm_ok (db_wal d') (db_trees d');
  ca_view ks k : (ks = KDictionary -> starts_with k [255] = false) -> db_view d' ks k = db_view d ks k;
  ca_lobes_ok : lobes_ok (db_lobes d') /\ next_id (db_lobes d') <= 65280;
  ca_lobes name c : lobe_get name (db_lobes d) = Some c -> lobe_get name (db_lobes d') = Some c;
  ca_registry : reg_wf (db_registry d') /\ reg_extends (db_registry d) (db_registry d');
  ca_anchors : db_anchors d' = db_anchors d;
  ca_cache c lobe l r : db_cache d' = Some c -> cache_lookup lobe l c = Some r -> exists c0, db_cache d = Some c0 /\ cache_lookup lobe l c0 = Some r;
  ca_epoch : boot_epoch_reg (db_lid d') = boot_epoch_reg (db_lid d);
  ca_sequence : sequence_ctr (db_lid d) <= sequence_ctr (db_lid d') < 2 ^ 32;
  ca_seq : db_seq d <= db_seq d';
  ca_ghosts : gl_shards (db_ghosts d') = gl_shards (db_ghosts d);
}.

Lemma calm_refl d recs : db_inv d recs -> calm d d.
Proof.
  intros HI. destruct (di_lid d recs HI) as [[??] _].
  split; try done; [apply HI|split; apply HI|split; [apply HI|apply reg_extends_refl, HI]|eauto].
Qed.

Lemma calm_trans a b c : calm a b -> calm b c -> calm a c.
Proof.
  intros H1 H2. split; try apply H2.
  - intros ks k Hk. rewrite (ca_view b c H2), (ca_view a b H1); done.
  - intros name x Hx. by apply (ca_lobes b c H2), (ca_lobes a b H1).
  - split; [apply H2|]. eapply reg_extends_trans; [apply H1|apply H2].
  - rewrite (ca_anchors b c H2). apply H1.
  - intros x lobe l r Hx Hl. destruct (ca_cache b c H2 _ _ _ _ Hx Hl) as (y & Hy & Hl'). by eapply (ca_cache a b H1).
  - rewrite (ca_epoch b c H2). apply H1.
  - pose proof (ca_sequence a b H1). pose proof (ca_sequence b c H2). lia.
  - pose proof (ca_seq a b H1). pose proof (ca_seq b c H2). lia.
  - rewrite (ca_ghosts b c H2). apply H1.
Qed.

(** The number of a lobe is below the reserved prefixes. *)
Lemma lobe_id_range reg name c : lobes_ok reg -> next_id reg <= 65280 -> lobe_get name reg = Some c -> 0 <= lc_id c < 65280 /\ is_uint 16 (lc_id c).
Proof. intros HI Hn Hc. destruct (lo_entry reg HI name c Hc) as [_ ?]. unfold is_uint. lia. Qed.

Lemma entry_calm d d' l sk r : calm d d' -> entry_ok d l sk r -> entry_ok d' l sk r.
Proof.
  intros HC [H1 H2 H3 (c & Hc & Hk & Hl) (blob & Hb & Hr) H6 H7]. split; try done.
  - exists c. split; [by apply (ca_lobes d d' HC)|done].
  - exists blob. rewrite !(ca_view d d' HC) by done. split; [done|]. eapply reads_back_extends; [apply HC|done].
  - rewrite (ca_epoch d d' HC). intros E%H6. pose proof (ca_sequence d d' HC). lia.
  - pose proof (ca_seq d d' HC). lia.
Qed.

Lemma inv_calm d d' recs : db_inv d recs -> calm d d' -> db_inv d' recs.
Proof.
  intros HI HC. split; try apply HC; try apply HI.
  - destruct (di_lid d recs HI) as [[??] ?]. rewrite (ca_epoch d d' HC). split; [|done]. pose proof (ca_sequence d d' HC). unfold is_uint. lia.
  - intros l sk r Hr. eapply entry_calm; [done|]. by apply HI.
  - intros k v. rewrite (ca_view d d' HC) by done. apply HI.
  - intros sk. rewrite (ca_view d d' HC) by done. apply HI.
  - intros lobe a. rewrite (ca_anchors d d' HC). intros Ha. destruct (di_short d recs HI lobe a Ha) as [? [c Hc]].
    split; [done|]. exists c. by apply (ca_lobes d d' HC).
  - intros lobe c a s v Hc. rewrite (ca_anchors d d' HC). intros Ha. destruct (di_short d recs HI lobe a Ha) as [_ [c0 Hc0]].
    pose proof (ca_lobes d d' HC _ _ Hc0) as Hc'. assert (c = c0) as -> by congruence.
    rewrite (ca_view d d' HC); [by apply (di_anchors d recs HI lobe)|]. intros _. apply dictionary_key_head.
    eapply lobe_id_range; [apply HI|apply HI|done].
Qed.

Lemma coherent_calm d d' recs : coherent d recs -> calm d d' -> coherent d' recs.
Proof. intros H HC c lobe l r Hc Hl. destruct (ca_cache d d' HC _ _ _ _ Hc Hl) as (c0 & Hc0 & Hl0). by eapply H. Qed.

(** ** The commands on which records do not depend *)

(** Storage that never refuses a write. *)
Definition reliable : Prop :=
  (forall ops w t, cm_ok w t -> (cm_commit ops (w, t)).2 = Ok tt) /\
  (forall k v w t, cm_ok w t -> (api_insert k v (tr_dictionary t)).2 = Ok tt /\ (cm_flush (tr_dictionary t)).2 = Ok tt).

(** A command ends in a calm state, with a result or one of the errors [E]. *)
Definition calmly (E : XyzError -> Prop) {A} (m : Cmd W D A) (d : db) (P : db -> A -> Prop) : Prop :=
  runs m d (fun d' o => calm d d' /\ match o with Done a => P d' a | Failed e => E e | Panicked => False end).

Section calmly.
Context (E : XyzError -> Prop).

Lemma calmly_bind {A B} (m : Cmd W D A) (f : A -> Cmd W D B) d recs P Q :
  db_inv d recs -> calmly E m d P -> (forall d' a, calm d d' -> db_inv d' recs -> P d' a -> runs (f a) d' Q) ->
  (forall d' e, calm d d' -> db_inv d' recs -> E e -> Q d' (Failed e)) -> runs (m ≫= f) d Q.
Proof.
  intros HI Hm Hf Hfail. apply runs_bind. unfold calmly in Hm. eapply runs_mono; [exact Hm|]. intros d' o [HC Ho]. assert (db_inv d' recs) by by eapply inv_calm.
  destruct o; [by apply Hf|by apply Hfail|done].
Qed.

Lemma calmly_ret {A} (a : A) d recs (P : db -> A -> Prop) : db_inv d recs -> P d a -> calmly E (mret a) d P.
Proof. intros HI HP. split; [by eapply calm_refl|done]. Qed.

Lemma calmly_fail {A} e d recs (P : db -> A -> Prop) : db_inv d recs -> E e -> calmly E (fail_with e) d P.
Proof. intros HI. split; [by eapply calm_refl|done]. Qed.

Lemma calmly_reads {A} (f : db -> A) d recs (P : db -> A -> Prop) : db_inv d recs -> P d (f d) -> calmly E (reads f) d P.
Proof. intros HI HP. split; [by eapply calm_refl|done]. Qed.

Lemma calmly_mono {A} (m : Cmd W D A) d (P Q : db -> A -> Prop) : calmly E m d P -> (forall d' a, calm d d' -> P d' a -> Q d' a) -> calmly E m d Q.
Proof. intros H HPQ. unfold calmly in *. eapply runs_mono; [exact H|]. intros d' [a| |] [? ?]; auto. Qed.

Lemma calmly_then {A B} (m : Cmd W D A) (f : A -> Cmd W D B) d recs P Q :
  db_inv d recs -> calmly E m d P -> (forall d' a, calm d d' -> db_inv d' recs -> P d' a -> calmly E (f a) d' Q) -> calmly E (m ≫= f) d Q.
Proof.
  intros HI Hm Hf. unfold calmly. eapply calmly_bind; [done|exact Hm| |].
  - intros d' a HC HI' HP. eapply runs_mono; [by apply Hf|]. intros d2 o [HC2 Ho]. split; [by eapply calm_trans|done].
  - intros d' e HC _. done.
Qed.

(** A read in front of a command. *)
Lemma calmly_read {A B} (f : db -> A) (k : A -> Cmd W D B) d P : calmly E (k (f d)) d P -> calmly E (reads f ≫= k) d P.
Proof. done. Qed.

End calmly.

(** What a command leaves as it is, whatever it does else. *)
Definition keeps {A X} (f : db -> X) (m : Cmd W D A) : Prop := forall d, f (m d).1 = f d.

Lemma keeps_bind {A B X} (f : db -> X) (m : Cmd W D A) (k : A -> Cmd W D B) : keeps f m -> (forall a, keeps f (k a)) -> keeps f (m ≫= k).
Proof.
  intros Hm Hk d. specialize (Hm d). unfold mbind, Cmd_bind. destruct (m d) as [d1 [a|e|]]; cbn in *; [|done..]. rewrite Hk. done.
Qed.

Lemma calmly_keeps E {A X} (f : db -> X) (m : Cmd W D A) d P : keeps f m -> calmly E m d P -> calmly E m d (fun d' a => P d' a /\ f d' = f d).
Proof.
  intros Hk. specialize (Hk d). unfold calmly, runs. destruct (m d) as [d' [a|e|]]; cbn in *; tauto.
Qed.

(** ** The cache apart *)

Lemma entry_with_cache c d l sk r : entry_ok d l sk r -> entry_ok (with_cache c d) l sk r.
Proof. by intros []; split. Qed.

Lemma inv_with_cache c d recs : db_inv d recs -> db_inv (with_cache c d) recs.
Proof. intros HI. pose proof HI as []. split; try done. intros l sk r Hr. by apply entry_with_cache, HI. Qed.

(** ** The index of one record *)

Lemma anchor_keys_elem names id fs x :
  x ∈ anchor_keys names id fs -> exists v, x.1.1 ∈ names /\ bt_get x.1.1 fs = Some v /\ x.1.2 = value_to_anchor_string v /\ x.2 = dictionary_key id x.1.1 x.1.2.
Proof.
  induction names as [|a names IH]; cbn; [by intros ?%elem_of_nil|]. destruct (bt_get a fs) as [v|] eqn:Ea.
  - intros [->|Hx]%elem_of_cons; [exists v; split; [left|done]|]. destruct (IH Hx) as (v' & ? & ?). exists v'. split; [by right|done].
  - intros Hx. destruct (IH Hx) as (v' & ? & ?). exists v'. split; [by right|done].
Qed.

(** The dictionary keys of a record are those of the texts it carries. *)
Lemma anchor_keys_spec d recs lobe c lobe' c' a s sk r :
  db_inv d recs -> lobe_name r = lobe -> lobe_get lobe (db_lobes d) = Some c -> lobe_get lobe' (db_lobes d) = Some c' -> a ∈ get_anchors (db_anchors d) lobe' ->
  existsb (beqb (dictionary_key (lc_id c') a s)) (snd <$> anchor_keys (get_anchors (db_anchors d) lobe) (lc_id c) (fields r)) = carries (Some (sk, r)) lobe' a s.
Proof.
  intros HI <- Hc Hc' Ha. destruct (lobe_id_range (db_lobes d) (lobe_name r) c) as [_ Hid], (lobe_id_range (db_lobes d) lobe' c') as [_ Hid']; try done; try apply HI.
  destruct (di_short d recs HI lobe' a Ha) as [Hla _].
  assert (forall names, (forall b, b ∈ names -> blen b <= 255) ->
    existsb (beqb (dictionary_key (lc_id c') a s)) (snd <$> anchor_keys names (lc_id c) (fields r)) = true <->
    lc_id c' = lc_id c /\ a ∈ names /\ exists v, bt_get a (fields r) = Some v /\ value_to_anchor_string v = s) as H.
  { induction names as [|b names IH]; intros Hlen; cbn; [split; [done|by intros (_ & ?%elem_of_nil & _)]|]. rewrite elem_of_cons.
    assert (blen b <= 255) by (apply Hlen; left). assert (forall b, b ∈ names -> blen b <= 255) as Hlen' by (intros; apply Hlen; by right).
    destruct (bt_get b (fields r)) as [v|] eqn:Eb; cbn; rewrite ?orb_true_iff, (IH Hlen').
    - rewrite beqb_eq. split.
      + intros [E|(? & ? & ?)]; [|tauto]. apply dictionary_key_inj in E as (? & -> & ->); try done. split; [done|]. split; [by left|]. eauto.
      + intros (E & [->|?] & v' & Hv & <-); [left; rewrite E; congruence|right; eauto 6].
    - split; [tauto|]. intros (? & [->|?] & v' & ? & ?); [congruence|eauto 6]. }
  apply eq_true_iff_eq. rewrite H by (intros b Hb; by destruct (di_short d recs HI _ _ Hb)). cbn. rewrite andb_true_iff, beqb_eq. split.
  - intros (E & _ & v & -> & <-). split; [|apply beqb_refl]. symmetry. by eapply (lo_inj _ (di_lobes d recs HI)).
  - intros [E Hv]. subst lobe'. split; [congruence|]. split; [done|]. destruct (bt_get a (fields r)) as [v|]; [|done]. apply beqb_eq in Hv. eauto.
Qed.

(** ** One record changes *)

(** The record [l] becomes [new]: its pointer, its row and its anchors follow, the
    rest stays. *)
Lemma inv_change d recs l new w t :
  db_inv d recs -> is_uint 128 l -> cm_ok w t ->
  (forall k, view t KIdentity k = if beqb k (lid_to_bytes l) then fst <$> new else db_view d KIdentity k) ->
  (forall sk r, new = Some (sk, r) -> entry_ok (with_store w t d) l sk r /\ forall l' r', l' <> l -> recs !! l' <> Some (sk, r')) ->
  (forall l' sk r, l' <> l -> recs !! l' = Some (sk, r) -> view t KSpatial sk = db_view d KSpatial sk /\ view t KVectors sk = db_view d KVectors sk) ->
  (forall sk, is_Some (view t KSpatial sk) -> (exists r, new = Some (sk, r)) \/ is_Some (db_view d KSpatial sk) /\ forall r, recs !! l <> Some (sk, r)) ->
  (forall lobe c a s, lobe_get lobe (db_lobes d) = Some c -> a ∈ get_anchors (db_anchors d) lobe ->
    let k := dictionary_key (lc_id c) a s in
    view t KDictionary k = (if carries new lobe a s then Some (lid_to_bytes l) else if carries (recs !! l) lobe a s then None else db_view d KDictionary k) /\
    (carries new lobe a s = true -> carries (recs !! l) lobe a s = true \/ db_view d KDictionary k = None)) ->
  db_inv (with_store w t d) (partial_alter (fun _ => new) l recs).
Proof.
  intros HI Hl Hok Hid Hnew Hframe Hsp Hdict. split; try done; try apply HI.
  - intros l' sk r. destruct (decide (l = l')) as [<-|Hne]; [rewrite lookup_partial_alter_eq; intros E; by apply Hnew|].
    rewrite lookup_partial_alter_ne by done. intros Hr. destruct (Hframe l' sk r (not_eq_sym Hne) Hr) as [F1 F2].
    destruct (di_records d recs HI _ _ _ Hr) as [H1 H2 H3 H4 (blob & Hb & Hrb) H6 H7]. split; try done.
    exists blob. unfold db_view in *. cbn. by rewrite F1, F2.
  - intros l1 l2 sk r1 r2. destruct (decide (l = l1)) as [<-|H1], (decide (l = l2)) as [<-|H2]; rewrite ?lookup_partial_alter_eq, ?lookup_partial_alter_ne by done.
    + done.
    + intros E1 E2. exfalso. by eapply (proj2 (Hnew _ _ E1)); [apply not_eq_sym, H2|].
    + intros E1 E2. exfalso. by eapply (proj2 (Hnew _ _ E2)); [apply not_eq_sym, H1|].
    + apply HI.
  - intros k v. change (db_view (with_store w t d)) with (view t). rewrite Hid. destruct (beqb k (lid_to_bytes l)) eqn:Ek.
    + apply beqb_eq in Ek as ->. split.
      * destruct new as [[sk r]|]; [|done]. intros [= <-]. exists l, r. by rewrite lookup_partial_alter_eq.
      * intros (l' & r & Hr & E). destruct (decide (l = l')) as [<-|Hne]; [rewrite lookup_partial_alter_eq in Hr; by rewrite Hr|].
        rewrite lookup_partial_alter_ne in Hr by done. apply lid_to_bytes_inj in E; [done|done|by eapply lid_range].
    + apply beqb_neq in Ek. rewrite (di_identity d recs HI). split; intros (l' & r & Hr & ->); exists l', r; (destruct (decide (l = l')) as [<-|Hne]; [done|]);
        [by rewrite lookup_partial_alter_ne|by rewrite lookup_partial_alter_ne in Hr].
  - intros sk [[r ->]|[Hs Hne]]%Hsp; [exists l, r; by rewrite lookup_partial_alter_eq|].
    apply (di_spatial d recs HI) in Hs as (l' & r & Hr). exists l', r. rewrite lookup_partial_alter_ne; [done|]. intros <-. by eapply Hne.
  - intros lobe c a s v Hc Ha. destruct (Hdict lobe c a s Hc Ha) as [Ev Hfree]. change (db_view (with_store w t d)) with (view t). rewrite Ev.
    pose proof (fun v => di_anchors d recs HI lobe c a s v Hc Ha) as HA. destruct (carries new lobe a s) eqn:Enew.
    + split; [intros [= <-]; exists l; by rewrite lookup_partial_alter_eq|]. intros (l' & Hl' & ->). destruct (decide (l = l')) as [<-|Hne]; [done|].
      rewrite lookup_partial_alter_ne in Hl' by done. exfalso. destruct (Hfree eq_refl) as [Hold|Hnone].
      * by apply Hne, (anchors_are_unique d recs lobe a s).
      * assert (db_view d KDictionary (dictionary_key (lc_id c) a s) = Some (lid_to_bytes l')) by (apply HA; eauto). congruence.
    + destruct (carries (recs !! l) lobe a s) eqn:Eold.
      * split; [done|]. intros (l' & Hl' & ->). exfalso. destruct (decide (l = l')) as [<-|Hne]; [rewrite lookup_partial_alter_eq in Hl'; congruence|].
        rewrite lookup_partial_alter_ne in Hl' by done. by apply Hne, (anchors_are_unique d recs lobe a s).
      * rewrite HA. split; intros (l' & Hl' & ->); exists l'; (split; [|done]); (destruct (decide (l = l')) as [<-|Hne]; [rewrite ?lookup_partial_alter_eq in *; congruence|]);
          by rewrite lookup_partial_alter_ne in *.
Qed.

End inv.
