(* ===== verification/DbEngine.v ===== *)
(** * Commits of the storage engine

    What the statements of the database ask of a commit is what the [commit] of the
    storage engine does: from any state of a run of an engine without a merge operator,
    for a batch of well-formed writes to different keys, with the log synchronous and
    not paused, the batch is applied to what is read of the four keyspaces; and when
    the sync of the log fails, what is read stays. *)

From S2P Require Import Prelude ByteOrder BTree Types Block Bloom Memtable Merge Streams TableMeta TableWriter TableReader JournalEntry Wal.
From S2P Require Import Version Leveled Paths Worker Manifest Tree TreeReads TreeSteps TreeCompact TreeOpen TreeMajor TreeRun TreeTheorems.
From S2P Require Import Engine EngineRun EngineTheorems SpatialScan Value Lid Filters Record SortEncoding Aggregate GroupKey Rollup Ghost Gravity Router.
From S2P Require Import Scan ScanPages ScanTree Registries Db DbInv.

(** [WriteBatch::put_spatial] and its siblings. *)
Definition ks_id (ks : Ks) : Z :=
  match ks with KSpatial => KS_SPATIAL | KIdentity => KS_IDENTITY | KDictionary => KS_DICTIONARY | KVectors => KS_VECTORS end.

Definition item_of (op : BatchOp) : BatchItem :=
  match op with BPut ks k v => mkBatchItem (ks_id ks) k v Types.Value | BRemove ks k => mkBatchItem (ks_id ks) k [] Tombstone end.

Lemma ks_id_eqb a b : (ks_id a =? ks_id b) = ks_eqb b a.
Proof. by destruct a, b. Qed.

(** The items of a keyspace, written to a map, are the operations on it. *)
Lemma items_view sq ops ks m f x :
  (forall x, m x = f ks x) ->
  fold_left (fun a i => map_write None i a) (ks_items (ks_id ks) (mkBatch sq (item_of <$> ops))) m x = view_ops ops f ks x.
Proof.
  revert m f. induction ops as [|op ops IH]; intros m f H; [apply H|]. rewrite fmap_cons, ks_items_cons, fold_left_app.
  unfold view_ops. cbn [foldl]. apply IH. intros y. assert (bi_keyspace_id (item_of op) =? ks_id ks = ks_eqb ks (match op with BPut k _ _ | BRemove k _ => k end)) as -> by (destruct op; apply ks_id_eqb).
  destruct op as [ks' k v|ks' k]; cbn [view_op]; destruct (ks_eqb ks ks'); cbn [andb fold_left]; try apply H; rewrite map_write_spec; cbn [item_of item_entry key value value_type owned bi_key bi_value bi_value_type];
    destruct (beqb y k); try done; apply H.
Qed.

Section engine.
Context {XH : Xxh3} {CD : Codecs} {SM : SkipMap} {BH : BinaryHeap}.
Context (display : Error -> string).

#[local] Instance engine_tree_reads : Reads Tree := tree_reads display.
#[local] Instance engine_tree_laws : ReadsLaws Tree := tree_reads_laws display.

Definition store (f : Five Tree) : Trees Tree := mkTrees (spatial f) (identity f) (dictionary f) (vectors f).

Lemma store_tree f ks : tree_for_ks f (ks_id ks) = Some (tree_of ks (store f)).
Proof. by destruct ks. Qed.

Section run.
Context (dirs : Five bytes) (cfgs : Five TreeConfig) (stats : OverlapStats) (name : bytes) (limit : Z).
Hypothesis Hname : segment_id name = None.
Hypothesis Hlimit : 0 < limit.
Let start := fresh_db dirs cfgs None stats name limit.

Lemma store_view hist d e ks :
  db_reachable start hist d -> represents e d ->
  tree_ok (tree_of ks (store (e_trees e))) /\ forall k, DbInv.view (store (e_trees e)) ks k = map_of None (ks_log (ks_id ks) hist) k.
Proof.
  intros Hr He. pose proof (store_tree (e_trees e) ks) as Ht. rewrite (re_trees _ _ He), ks_map in Ht. apply fmap_Some_1 in Ht as (k & Hk & Et). rewrite (re_trees _ _ He).
  destruct (ks_run _ _ _ _ _ _ none_laws Hname Hlimit _ _ _ _ Hr Hk) as (dir & cfg & _ & _ & Hrun).
  assert (ks_operator None (ks_id ks) = None) as Eo by (by destruct ks). rewrite Eo in Hrun.
  destruct (run_inv _ _ _ _ _ none_laws _ _ Hrun) as [Emo [g Hi]].
  assert (tree_ok (ks_tree k)) as Hok by (split; [apply (hi_sv _ _ _ (ki_hist _ _ _ Hi))|done]). rewrite Et. split; [done|]. intros x.
  pose proof (rd_get_spec (ks_tree k) x Hok) as Hg. change (rd_get (ks_tree k) x) with (get (ks_tree k) x) in Hg.
  rewrite (get_run _ _ _ _ _ none_laws _ _ x Hrun eq_refl) in Hg. injection Hg as Hg. unfold DbInv.view. rewrite Et. symmetry. exact Hg.
Qed.

Lemma engine_commits hist d e ops :
  db_reachable start hist d -> represents e d ->
  e_poisoned e = false -> t_compaction_enabled (spatial (e_trees e)) = true -> jw_persist_mode (w_writer (e_journal e)) = SyncData ->
  let b := mkBatch (e_seqno e + 1) (item_of <$> ops) in ops <> [] -> batch_wf b ->
  (exists e' d', commit true (item_of <$> ops) e = (e', Ok (rb_seqno b)) /\ represents e' d' /\ db_reachable start (hist ++ [b]) d' /\
    forall ks k, DbInv.view (store (e_trees e')) ks k = view_ops ops (DbInv.view (store (e_trees e))) ks k) /\
  (exists e' m, commit false (item_of <$> ops) e = (e', Err (Corruption m)) /\
    forall ks k, DbInv.view (store (e_trees e')) ks k = DbInv.view (store (e_trees e)) ks k).
Proof.
  intros Hr He Hpo Hen Hmode b Hne Hb. assert (item_of <$> ops <> []) as Hne' by by destruct ops. split.
  - destruct (commit_run _ _ _ _ _ _ _ _ _ _ none_laws Hname Hlimit Hr He Hpo Hen Hmode Hne' Hb) as (e' & d' & Hc & He' & Hr'); [by apply Forall_forall|].
    exists e', d'. do 3 (split; [done|]). intros ks k. rewrite (proj2 (store_view _ _ _ _ Hr' He')), ks_log_app, ks_log_one. unfold map_of. rewrite fold_left_app.
    apply items_view. intros x. by rewrite (proj2 (store_view _ _ _ _ Hr He)).
  - destruct (unsynced_commit _ _ Hne' Hpo Hen Hmode) as (e' & m & Hc & Et & _). exists e', m. split; [done|]. intros ks k. by rewrite Et.
Qed.
End run.
End engine.
