(* ===== verification/DbReads.v ===== *)
(** * The steps of the statements, and FIND

    What each command the statements are made of does to the records, and what FIND
    returns of them. *)

From S2P Require Import Prelude Types Block Paths Tree ByteOrder BTree Value SortEncoding FieldDict Lid Record FieldRegistry.
From S2P Require Import SpatialKey SpatialScan Filters Aggregate GroupKey Rollup Ghost Gravity FilterEq Router Scan ScanPages Registries Db.
From S2P Require Import Mutations DbInv.

(** * The steps of the statements

    Each command the statements are made of, by what it does to the records: most do
    nothing to them, a commit changes the views of the trees as its batch says. *)

Section steps.
Context {W D : Type} {RD : Reads D} {RL : ReadsLaws D} {TA : TreeApi D} {CM : Commit W D} {CL : CommitLaws W D}.
Context {XH : Xxh3} {CT : CursorText} {LT : LiteralText} {RS : RecordSize} {PC : Postcard} {PL : PostcardLaws PC} {NC : NamesCodec}.
Context {RP : RollupPostcard} {VT : ValueText} {VP : ValuePostcard} {GT : GravityText} {RC : RegistryCodec} {SP : SpecPostcard}.
Context (norm_sq : list Z -> Z) (group_spill_limit : Z).
Hypothesis norm_range : forall v, is_uint 64 (norm_sq v).

(** The errors a statement may end in; a refused write is one of them. *)
Context (E : XyzError -> Prop).
Hypothesis E_storage : forall s, ~ reliable (W := W) (D := D) -> E (Storage s).

Abbreviation db := (Db W D).
Implicit Types (d : db) (recs : Records_).

(** ** Counters and the clock *)

Lemma counters_calm d recs l seq ticks :
  db_inv d recs -> boot_epoch_reg l = boot_epoch_reg (db_lid d) -> sequence_ctr (db_lid d) <= sequence_ctr l < 2 ^ 32 -> db_seq d <= seq ->
  calm d (with_counters l seq ticks d).
Proof.
  intros HI He Hs Hq. destruct (calm_refl d recs HI). split; try done.
Qed.

Lemma read_clock_spec d recs : db_inv d recs -> calmly E read_clock d (fun d' _ => db_lid d' = db_lid d /\ db_seq d' = db_seq d).
Proof. intros HI. destruct (di_lid d recs HI) as [[??] _]. split; [|done]. by eapply counters_calm. Qed.

(** A new identifier: the next sequence number of this epoch. *)
Lemma mint_lid_spec d recs lobe :
  db_inv d recs -> is_uint 16 lobe -> sequence_ctr (db_lid d) + 1 < 2 ^ 32 ->
  calmly E (mint_lid lobe) d (fun d' l => is_uint 128 l /\ lid_lobe_id l = lobe /\ recs !! l = None /\ db_seq d' = db_seq d /\
    lid_boot_epoch l = boot_epoch_reg (db_lid d') /\ lid_sequence l < sequence_ctr (db_lid d')).
Proof.
  intros HI Hlobe Hroom. eapply calmly_then; [done|by eapply read_clock_spec|]. intros d1 ts HC HI1 [El Es].
  destruct (di_lid d1 recs HI1) as [Hc He]. destruct Hc as [Hc0 Hc1].
  assert (lid_pack 0 lobe ts (sequence_ctr (db_lid d1)) (boot_epoch_reg (db_lid d1)) =
          lid_pack 0 lobe (ts mod 2 ^ 48) (sequence_ctr (db_lid d1)) (boot_epoch_reg (db_lid d1))) as Ep by (by rewrite !lid_pack_sum, Zmod_mod).
  destruct (lid_unpack 0 lobe (ts mod 2 ^ 48) (sequence_ctr (db_lid d1)) (boot_epoch_reg (db_lid d1))) as (U1 & U2 & U3 & U4 & U5 & U6); try done.
  { apply Z.mod_pos_bound. lia. }
  rewrite <- Ep in U1, U3, U5, U6. set (l := lid_pack 0 lobe ts _ _) in *.
  assert (LID_new (db_lid d1) lobe ts = (l, mkLidState (sequence_ctr (db_lid d1) + 1) (boot_epoch_reg (db_lid d1)))) as EN.
  { unfold LID_new. rewrite (wrap_small 32); [done|]. unfold is_uint. rewrite El in *. lia. }
  unfold calmly, runs, mbind, Cmd_bind, reads, modify. rewrite EN. split; [eapply counters_calm; [done|done|cbn; rewrite El in *; lia|done]|].
  cbn. do 2 (split; [done|]). split; [|split; [done|split; [done|lia]]].
  apply eq_None_not_Some. intros [[sk r] Hr]. pose proof (eo_minted _ _ _ _ (di_records d1 recs HI1 _ _ _ Hr)). lia.
Qed.

Lemma next_seq_spec d recs :
  db_inv d recs -> 0 <= db_seq d -> db_seq d + 1 < 2 ^ 64 -> calmly E next_record_seq d (fun d' s => s = db_seq d /\ db_seq d' = db_seq d + 1 /\ db_lid d' = db_lid d).
Proof.
  intros HI H0 Hroom. destruct (di_lid d recs HI) as [[??] _]. split; cbn; rewrite (wrap_small 64) by (unfold is_uint; lia); [|done].
  eapply counters_calm; [done|done|lia|lia].
Qed.

(** ** Single writes to the dictionary *)

Lemma dictionary_calm d recs t w :
  db_inv d recs -> cm_ok w (set_dictionary t (db_trees d)) ->
  (forall k, starts_with k [255] = false -> row_get k (rd_rows t) = db_view d KDictionary k) ->
  calm d (with_store w (set_dictionary t (db_trees d)) d).
Proof.
  intros HI Hok Hv. destruct (calm_refl d recs HI). split; try done. intros ks k Hk. destruct ks; try done. cbn. by apply Hv, Hk.
Qed.

Lemma storage_at_ok (what : string) (r : Result unit) :
  r <> Panic -> (reliable (W := W) (D := D) -> r = Ok tt) -> match storage_at what r with Done _ => True | Failed e => E e | Panicked => False end.
Proof. intros Hp H. destruct r as [|e|]; cbn; [done| |done]. apply E_storage. by intros ?%H. Qed.

Lemma persist_entry_spec d recs p f k v :
  db_inv d recs -> starts_with k [255] = true -> calmly E (persist_entry p f k v) d (fun d' _ => True).
Proof.
  intros HI Hk. pose proof (cm_insert_spec k v _ _ (di_store d recs HI)) as H. unfold calmly, runs, persist_entry.
  assert (reliable (W := W) (D := D) -> (api_insert k v (tr_dictionary (db_trees d))).2 = Ok tt) as Hrel by (intros [_ R]; apply (R k v _ _ (di_store d recs HI))).
  destruct (api_insert k v _) as [t [u|e|]]; [| |done].
  - destruct H as [Hok Hv]. pose proof (cm_flush_spec _ _ Hok) as Hf. cbn [set_dictionary tr_dictionary] in Hf.
    assert (reliable (W := W) (D := D) -> (cm_flush t).2 = Ok tt) as Hrel' by (intros [_ R]; apply (R k v _ _ Hok)).
    destruct (cm_flush t) as [t' r]. assert (r <> Panic /\ cm_ok (db_wal d) (set_dictionary t' (db_trees d)) /\
      forall k', row_get k' (rd_rows t') = row_get k' (rd_rows t)) as (Hr & Hok' & Hv') by (destruct r; [done..|done]).
    split; [|by apply storage_at_ok].
    eapply dictionary_calm; [done|done|]. intros k' Hk'. rewrite Hv', Hv, (proj2 (beqb_neq _ _)); [done|]. intros ->. congruence.
  - destruct H as [Hok Hv]. split; [|apply E_storage; by intros ?%Hrel]. eapply dictionary_calm; [done|done|]. intros k' _. apply Hv.
Qed.

Lemma reserved_key p lobe : starts_with (255 :: p ++ to_be_bytes 2 lobe) [255] = true.
Proof. done. Qed.

(** ** Registries *)

Lemma lobes_calm d recs lobes file :
  db_inv d recs -> lobes_ok lobes -> next_id lobes <= 65280 -> (forall name c, lobe_get name (db_lobes d) = Some c -> lobe_get name lobes = Some c) ->
  calm d (with_lobes lobes file d).
Proof. intros HI H1 H2 H3. destruct (calm_refl d recs HI). by split. Qed.

(** The lobe exists afterwards, under a number of its own. *)
Lemma resolve_lobe_spec d recs name :
  db_inv d recs -> next_id (db_lobes d) < 65280 ->
  calmly E (resolve_lobe name) d (fun d' id => (exists c, lobe_get name (db_lobes d') = Some c /\ lc_id c = id) /\ db_lid d' = db_lid d /\ db_seq d' = db_seq d).
Proof.
  intros HI Hn. unfold calmly, runs, resolve_lobe. destruct (lobe_get name (db_lobes d)) as [c|] eqn:Eq.
  - split; [eapply lobes_calm; try done; apply HI|]. cbn. split; [|done]. by exists c.
  - change (calmly E (now ← read_clock; lobes ← reads db_lobes;
      let '(id, lobes) := get_or_create name None now lobes in modify (with_lobes lobes (lobes_to_bytes lobes));; mret id) d
      (fun d' id => (exists c, lobe_get name (db_lobes d') = Some c /\ lc_id c = id) /\ db_lid d' = db_lid d /\ db_seq d' = db_seq d)).
    pose proof (read_clock_spec d recs HI) as [HC _]. eapply (calmly_then E _ _ d recs (fun d' _ => db_lid d' = db_lid d /\ db_seq d' = db_seq d /\ db_lobes d' = db_lobes d)); [done|by split|].
    intros d1 now HC1 HI1 (E1 & E2 & E3). unfold calmly, runs, mbind, Cmd_bind, reads. rewrite E3.
    destruct (get_or_create name None now (db_lobes d)) as [id lobes] eqn:Eg.
    destruct (get_or_create_spec name None now (db_lobes d) id lobes) as (G1 & (c & Hc & Hid) & G3 & G4 & G5); [apply HI|lia|done|].
    split; [eapply lobes_calm; [done|done|lia|by rewrite E3]|]. cbn. split; [by exists c|done].
Qed.

Lemma register_gravity_spec d recs lobe field :
  db_inv d recs -> is_Some (lobe_get lobe (db_lobes d)) -> calmly E (register_gravity_field lobe field) d (fun _ _ => True).
Proof.
  intros HI [c Hc]. apply calmly_read. destruct (bt_get lobe _); [by eapply calmly_ret|]. apply calmly_read. rewrite Hc.
  eapply calmly_then; [done|by eapply persist_entry_spec|]. intros d3 [] HC3 HI3 _. split; [|done]. cbn. destruct (calm_refl d3 recs HI3). by split.
Qed.

Lemma register_marker_spec d recs lobe gf :
  db_inv d recs -> is_Some (lobe_get lobe (db_lobes d)) -> calmly E (register_marker lobe gf) d (fun _ _ => True).
Proof. intros HI Hl. destruct gf as [|[name v] [|]]; [by eapply calmly_ret|by eapply register_gravity_spec|by eapply calmly_ret]. Qed.

Lemma check_markers_spec d recs spec gf :
  db_inv d recs -> (2 <= blen gf -> forall s, E (InvalidQuery s)) -> calmly E (check_markers spec gf) d (fun _ _ => True).
Proof.
  intros HI HE. unfold check_markers. destruct (2 <=? blen gf) eqn:El; cbn; [|by eapply calmly_ret]. apply Z.leb_le in El.
  destruct (negb _); [eapply calmly_fail; [done|by apply HE]|by eapply calmly_ret].
Qed.

Lemma ensure_dim_spec d recs lobe field dim :
  db_inv d recs -> is_Some (lobe_get lobe (db_lobes d)) -> (is_Some (bt_get lobe (db_vectors d)) -> forall s, E (InvalidQuery s)) ->
  calmly E (ensure_vector_dim lobe field dim) d (fun _ _ => True).
Proof.
  intros HI [c Hc] HE. apply calmly_read. destruct (bt_get lobe _) as [spec|] eqn:Ev; [|by eapply calmly_ret].
  destruct (vs_dim spec); [destruct (_ =? _); [by eapply calmly_ret|eapply calmly_fail; [done|apply HE; eauto]]|]. apply calmly_read. rewrite Hc.
  eapply (calmly_then _ _ _ _ _ (fun _ _ => True)); [done| |intros d3 [] HC3 HI3 _; by eapply persist_entry_spec].
  split; [|done]. cbn. destruct (calm_refl d recs HI). by split.
Qed.

Lemma check_dim_spec d recs lobe r :
  db_inv d recs -> is_Some (lobe_get lobe (db_lobes d)) -> (is_Some (bt_get lobe (db_vectors d)) -> forall s, E (InvalidQuery s)) ->
  calmly E (check_dim lobe (search_field lobe d) r) d (fun _ _ => True).
Proof. intros HI Hl HE. unfold check_dim. destruct (searchable _ r) as [[f v]|]; [by eapply ensure_dim_spec|by eapply calmly_ret]. Qed.

(** ** Serialization *)

Lemma serialize_split_spec d recs search lobe r :
  db_inv d recs -> record_ok r -> room (db_registry d) lobe r ->
  calmly E (serialize_split norm_sq search lobe r) d (fun d' '(blob, column, entry) =>
    db_lid d' = db_lid d /\ db_seq d' = db_seq d /\
    (forall k v, entry = Some (k, v) -> starts_with k [255] = true) /\
    (forall old, reads_back (db_registry d') lobe (match column with Some c => Some c | None => old end) blob r)).
Proof.
  intros HI Hr Hroom. unfold serialize_split. destruct (searchable search r) as [[f v]|] eqn:Eq.
  - assert (bt_get f (fields r) = Some (Vector v)) as Hv.
    { unfold searchable in Eq. destruct search as [f'|]; [|done]. destruct (bt_get f' (fields r)) as [[]|] eqn:Ef; try done. by injection Eq as -> ->. }
    pose proof (split_reads_back norm_sq norm_range (db_registry d) lobe f v r (di_registry d recs HI) Hr Hroom Hv) as H.
    unfold calmly, runs. destruct (serialize_record_v5_durable norm_sq (db_registry d) lobe r (Some f)) as [[[blob column] entry] reg].
    destruct H as (H1 & H2 & (c & -> & H3) & H4). split; [|cbn; done]. cbn. destruct (calm_refl d recs HI). by split.
  - eapply calmly_ret; [done|]. cbn. do 3 (split; [done|]). intros old. by apply plain_reads_back.
Qed.

(** ** Reads *)

Lemma tree_get_spec d recs what ks k : db_inv d recs -> tree_get what ks k d = (d, Done (db_view d ks k)).
Proof. intros HI. unfold tree_get. rewrite rd_get_spec; [done|]. eapply cm_ok_reads, HI. Qed.

Lemma anchor_dict_get_spec d recs k : db_inv d recs -> anchor_dict_get k d = (d, Done (db_view d KDictionary k)).
Proof.
  intros HI. unfold anchor_dict_get, mbind, Cmd_bind. rewrite (tree_get_spec d recs) by done.
  destruct (db_view d KDictionary k) as [v|] eqn:Eq; [done|]. unfold reads. cbn. destruct (cm_recovered_from_wal _); [|done].
  unfold lift. rewrite cm_no_bloom_spec; [|apply (cm_ok_reads (db_wal d) (db_trees d) KDictionary), HI].
  change (row_get k (rd_rows (tr_dictionary (db_trees d)))) with (db_view d KDictionary k). by rewrite Eq.
Qed.

(** The first of the keys that is taken. *)
Lemma first_conflict_spec d recs keys :
  db_inv d recs ->
  exists o, first_conflict keys d = (d, Done o) /\
    match o with
    | None => Forall (fun x => db_view d KDictionary x.2 = None) keys
    | Some (name, s, existing) => exists k, (name, s, k) ∈ keys /\ db_view d KDictionary k = Some existing
    end.
Proof.
  intros HI. induction keys as [|[[name s] k] keys IH]; [by exists None|]. cbn [first_conflict]. unfold mbind, Cmd_bind. rewrite (anchor_dict_get_spec d recs) by done.
  destruct (db_view d KDictionary k) as [v|] eqn:Eq; [exists (Some (name, s, v)); split; [done|]; exists k; split; [left|done]|].
  destruct IH as (o & -> & Ho). exists o. split; [done|]. destruct o as [[[n' s'] v']|]; [|by constructor].
  destruct Ho as (k' & Hk' & Hv). exists k'. split; [by right|done].
Qed.

(** ** Batches and the hook *)

Lemma commit_spec d recs what ops :
  db_inv d recs ->
  runs (commit_batch what ops) d (fun d' o =>
    exists w t, d' = with_store w t d /\ cm_ok w t /\
      match o with Done _ => forall ks k, view t ks k = view_ops ops (db_view d) ks k | Failed e => calm d d' /\ E e | Panicked => False end).
Proof.
  intros HI. unfold runs, commit_batch. pose proof (cm_commit_spec ops _ _ (di_store d recs HI)) as H.
  assert (reliable (W := W) (D := D) -> (cm_commit ops (db_wal d, db_trees d)).2 = Ok tt) as Hrel by (intros [R _]; apply R, HI).
  destruct (cm_commit ops (db_wal d, db_trees d)) as [[w t] [u|e|]]; [| |done]; destruct H as [H1 H2]; exists w, t; do 2 (split; [done|]); [done|].
  split; [|apply E_storage; by intros ?%Hrel]. destruct (calm_refl d recs HI). split; try done. intros ks k _. apply H2.
Qed.

(** Without ghosts on the lobe the hook has nothing to do. *)
Lemma notify_spec d recs lobe r sk wt :
  db_inv d recs -> gl_shards (db_ghosts d) = [] -> calmly E (notify group_spill_limit lobe r sk wt) d (fun d' _ => db_lid d' = db_lid d /\ db_seq d' = db_seq d /\ db_cache d' = db_cache d).
Proof.
  intros HI Hg. unfold calmly, runs, notify, notify_write. cbn [gl_shards]. rewrite Hg. cbn [bt_get]. split; [|done]. cbn.
  destruct (gl_dictionary (db_ghosts d)) as [x|]; cbn.
  - assert (set_dictionary (tr_dictionary (db_trees d)) (db_trees d) = db_trees d) as -> by by destruct (db_trees d).
    destruct (calm_refl d recs HI). by split.
  - destruct (calm_refl d recs HI). by split.
Qed.

Lemma router_calm d recs lobe n : db_inv d recs -> calmly E (record_router_writes lobe n) d (fun d' _ => db_cache d' = db_cache d /\ db_lid d' = db_lid d /\ db_seq d' = db_seq d).
Proof.
  intros HI. unfold calmly, runs, record_router_writes, modify. cbn. destruct (bt_get lobe (db_routers d)); [|split; [by eapply calm_refl|done]].
  split; [|done]. destruct (calm_refl d recs HI). by split.
Qed.

End steps.

(** * What FIND returns

    A lookup by identifier, through the cache or through the trees, gives the record
    the database holds; a lookup by filters gives the records of the lobe that match,
    whether it goes through the anchor index or over the rows of the lobe. *)

Section db_reads.
Context {W D : Type} {RD : Reads D} {RL : ReadsLaws D} {TA : TreeApi D} {CM : Commit W D} {CL : CommitLaws W D}.
Context {XH : Xxh3} {CT : CursorText} {LT : LiteralText} {RS : RecordSize} {PC : Postcard} {PL : PostcardLaws PC} {NC : NamesCodec}.
Context {RP : RollupPostcard} {VT : ValueText} {VP : ValuePostcard} {GT : GravityText} {RC : RegistryCodec} {SP : SpecPostcard}.

Abbreviation db := (Db W D).
Implicit Types (d : db) (recs : Records_).

(** ** One record *)

Lemma identity_of d recs l : db_inv d recs -> is_uint 128 l -> db_view d KIdentity (lid_to_bytes l) = fst <$> recs !! l.
Proof.
  intros HI Hl. destruct (recs !! l) as [[sk r]|] eqn:Hr; cbn; [apply (di_identity d recs HI); eauto|].
  apply eq_None_not_Some. intros [v (l' & r & Hr' & E)%(di_identity d recs HI)]. apply lid_to_bytes_inj in E; [congruence|done|by eapply lid_range].
Qed.

(** The name of the lobe a key stands in. *)
Lemma entry_lobe_name d recs l sk r : db_inv d recs -> entry_ok d l sk r -> db_lobe_name d (lobe_of_key sk) = lobe_name r.
Proof.
  intros HI He. destruct (eo_lobe _ _ _ _ He) as (c & Hc & -> & _). unfold db_lobe_name. rewrite (get_by_id_spec _ (lobe_name r) c); [|apply HI|done].
  by destruct (lo_entry _ (di_lobes d recs HI) _ _ Hc).
Qed.

(** The bytes of a record and its column give it back. *)
Lemma hydrated_entry d recs l sk r blob :
  db_inv d recs -> recs !! l = Some (sk, r) -> db_view d KSpatial sk = Some blob -> hydrated d (lobe_of_key sk) sk blob (lobe_name r) = Done r.
Proof.
  intros HI Hr Hb. pose proof (di_records d recs HI _ _ _ Hr) as He. destruct (eo_stored _ _ _ _ He) as (b & Hb' & Hread). assert (b = blob) as -> by congruence.
  destruct (Hread (db_registry d)) as (r0 & Hd & Hv); [apply reg_extends_refl, HI|].
  unfold hydrated, deserialize_hydrated_with, get_dict. rewrite Hd. destruct (format_version blob =? 5); [|by rewrite Hv].
  destruct Hv as (dict & c & -> & Hc & <-). rewrite rd_get_spec by (apply (cm_ok_reads (db_wal d) (db_trees d) KVectors), HI).
  unfold db_view, view in Hc. cbn in Hc. by rewrite Hc.
Qed.

Lemma key_of_entry d l sk r msg : entry_ok d l sk r -> key_of_identity msg sk = Done sk.
Proof. intros He. unfold key_of_identity. destruct (eo_key _ _ _ _ He) as [-> _]. by rewrite Z.eqb_refl. Qed.

(** A record loaded through the trees is the record, whatever reads its bytes. *)
Lemma load_record_spec d recs l msg hyd :
  db_inv d recs -> is_uint 128 l -> (forall sk r blob, recs !! l = Some (sk, r) -> db_view d KSpatial sk = Some blob -> hyd d sk blob = Done r) ->
  load_record msg l hyd d = (d, Done (recs !! l)).
Proof.
  intros HI Hl Hh. unfold load_record. rewrite (bind_done _ _ _ _ _ (tree_get_spec d recs _ _ _ HI)), (identity_of d recs) by done.
  destruct (recs !! l) as [[sk r]|] eqn:Hr; [|done]. pose proof (di_records d recs HI _ _ _ Hr) as He. cbn [fmap option_fmap option_map fst].
  rewrite (bind_done (lift _) _ d d sk) by (by rewrite (key_of_entry _ _ _ _ _ He)). rewrite (bind_done _ _ _ _ _ (tree_get_spec d recs _ _ _ HI)).
  destruct (eo_stored _ _ _ _ He) as (blob & Hb & _). rewrite Hb. rewrite (bind_done (reads id) _ d d d) by done. by rewrite (bind_done (lift _) _ d d r) by (by rewrite (Hh sk r)).
Qed.

Lemma touch_calm d recs lobe l : db_inv d recs -> calm d (with_cache (cache_touch lobe l <$> db_cache d) d).
Proof. intros HI. destruct (calm_refl d recs HI). split; try done. cbn. intros c lobe' l' r. destruct (db_cache d) as [c0|]; [|done]. intros [= <-] H. eauto. Qed.

(** At most the clock of the cache has changed. *)
Definition touched d d' : Prop := calm d d' /\ exists c, d' = with_cache c d.

Lemma touched_refl d recs : db_inv d recs -> touched d d.
Proof. intros HI. split; [by eapply calm_refl|]. exists (db_cache d). by destruct d. Qed.

(** FIND by identifier. *)
Lemma find_by_lid_spec d recs text l :
  db_inv d recs -> coherent d recs -> lid_parse text = XOk l -> is_uint 128 l ->
  exists d' results, find_by_lid text d = (d', Done results) /\ touched d d' /\ results.*1 = match recs !! l with Some (_, r) => [r] | None => [] end.
Proof.
  intros HI Hco Hp Hl. unfold find_by_lid. rewrite (bind_done (lift _) _ d d l) by (by rewrite Hp). rewrite (bind_done (reads _) _ d d (db_cache d)) by done.
  destruct (db_cache d ≫= _) as [r|] eqn:Ec.
  - destruct (db_cache d) as [c|] eqn:Edb; [|done]. cbn in Ec. destruct (Hco c _ _ _ Edb Ec) as (_ & sk & Hr). eexists _, _. split; [done|]. rewrite Hr. cbn.
    split; [|done]. split; [by eapply touch_calm|by eexists].
  - rewrite (bind_done _ _ _ _ _ (tree_get_spec d recs _ _ _ HI)), (identity_of d recs) by done. exists d.
    destruct (recs !! l) as [[sk r]|] eqn:Hr; [|eexists; split; [done|]; split; [by eapply touched_refl|done]].
    pose proof (di_records d recs HI _ _ _ Hr) as He. cbn [fmap option_fmap option_map fst].
    rewrite (bind_done (lift _) _ d d sk) by (by rewrite (key_of_entry _ _ _ _ _ He)). rewrite (bind_done _ _ _ _ _ (tree_get_spec d recs _ _ _ HI)).
    destruct (eo_stored _ _ _ _ He) as (blob & Hb & _). rewrite Hb. rewrite (bind_done (reads id) _ d d d) by done.
    rewrite (bind_done (lift _) _ d d r) by (by rewrite (entry_lobe_name d recs l sk r HI He), (hydrated_entry d recs l sk r)).
    eexists. split; [done|]. split; [by eapply touched_refl|done].
Qed.

(** ** The records of a lobe *)

Lemma find_rows_spec record_of g cf rows :
  (forall row, row ∈ rows -> exists r, record_of row = Done r) ->
  exists results, find_rows record_of (fun k => Some (g k)) cf rows = Done results /\
    (forall r sk, (r, sk) ∈ results <-> exists row, row ∈ rows /\ record_of row = Done r /\ sk = g row.1 /\ matches_filters (fields r) cf = true) /\
    ((forall row row' r, row ∈ rows -> row' ∈ rows -> record_of row = Done r -> record_of row' = Done r -> row = row') -> NoDup rows -> NoDup results.*1).
Proof.
  induction rows as [|row rows IH]; intros H.
  { exists []. split; [done|]. split; [|constructor]. intros r sk. split; [by intros ?%elem_of_nil|]. by intros (? & ?%elem_of_nil & _). }
  destruct (H row) as (r & Hr); [left|]. destruct IH as (res & E & Hin & Hnd); [intros; apply H; by right|].
  cbn [find_rows]. rewrite Hr, E. cbn. destruct (matches_filters (fields r) cf) eqn:Em; eexists; split; [done| |done|]; split.
  - intros r' sk. rewrite elem_of_cons, Hin. split.
    + intros [[= -> ->]|(row' & Hrow' & ?)]; [exists row; split; [left|done]|exists row'; split; [by right|done]].
    + intros (row' & [->|Hrow']%elem_of_cons & Hd & -> & Hm); [left; congruence|right; eauto].
  - intros Hinj Hrows. inversion Hrows as [|? ? Hni Hnd']; subst. cbn. constructor.
    + intros ([r' sk] & -> & (row' & Hrow' & Hd & _)%Hin)%list_elem_of_fmap. cbn in *. apply Hni. by rewrite (Hinj row row' r'); [|left|right| |].
    + apply Hnd; [|done]. intros; eapply Hinj; try done; by right.
  - intros r' sk. rewrite Hin. split.
    + intros (row' & Hrow' & ?). exists row'. split; [by right|done].
    + intros (row' & [->|Hrow']%elem_of_cons & Hd & -> & Hm); [congruence|eauto].
  - intros Hinj Hrows. inversion Hrows as [|? ? Hni Hnd']; subst. apply Hnd; [|done]. intros; eapply Hinj; try done; by right.
Qed.

(** The first two bytes of a key are its lobe. *)
Lemma starts_with_lobe sk id : is_uint 16 id -> blen sk = SPATIAL_KEY_SIZE -> is_bytes sk -> starts_with sk (to_be_bytes 2 id) = true <-> lobe_of_key sk = id.
Proof.
  intros Hid Hlen Hb. unfold lobe_of_key. rewrite starts_with_iff. split.
  - intros [rest ->]. rewrite (slice_at _ [] (to_be_bytes 2 id) rest); [by apply (from_to_be_bytes_id 2 16)|done|done|]. unfold blen. rewrite length_to_be_bytes. done.
  - intros <-. unfold SPATIAL_KEY_SIZE, blen in Hlen. destruct sk as [|a [|b rest]]; [done..|]. exists rest. change (slice (a :: b :: rest) 0 2) with [a; b].
    inversion Hb as [|? ? Ha Hb']; inversion Hb' as [|? ? Hb1 _]; subst. rewrite !to_be_bytes_S. unfold is_uint in *. cbn.
    assert (from_be_bytes [a; b] = a * 256 + b) as -> by (change (b + 256 * (a + 256 * 0) = a * 256 + b); lia).
    rewrite Z.div_add_l, (Z.div_small b), Z.add_0_r, (Z.mod_small a), Z.add_comm, Z.mod_add, (Z.mod_small b) by lia. done.
Qed.

Lemma row_get_in k v rows : row_get k rows = Some v -> (k, v) ∈ rows.
Proof. unfold row_get. destruct (List.find _ rows) as [[k' v']|] eqn:E; [|done]. intros [= ->]. apply find_some in E as [Hin Hk%beqb_eq]. cbn in Hk. subst k'. by apply list_elem_of_In. Qed.

Definition in_lobe recs (lobe : bytes) (cf : list (bytes * FilterOp * Value)) (r : XRecord) : Prop :=
  exists l sk, recs !! l = Some (sk, r) /\ lobe_name r = lobe /\ matches_filters (fields r) cf = true.

Lemma scan_lobe_spec d recs lobe c filters cf :
  db_inv d recs -> lobe_get lobe (db_lobes d) = Some c -> convert_filters filters = Some cf ->
  exists results, scan_lobe_filtered (lc_id c) filters d = (d, Done results) /\ NoDup results.*1 /\ forall r, r ∈ results.*1 <-> in_lobe recs lobe cf r.
Proof.
  intros HI Hc Hcf. unfold scan_lobe_filtered, mbind, Cmd_bind, lift, reads. rewrite Hcf. cbn.
  pose proof (cm_ok_reads _ _ KSpatial (di_store d recs HI)) as Hok. cbn in Hok.
  rewrite rd_prefix_spec by (done || apply to_be_bytes_is_bytes). cbn.
  destruct (lobe_id_range (db_lobes d) lobe c) as [_ Hid]; [apply HI|apply HI|done|].
  assert (forall k v, (k, v) ∈ List.filter (fun kv => starts_with kv.1 (to_be_bytes 2 (lc_id c))) (rd_rows (tr_spatial (db_trees d))) <->
    exists l r, recs !! l = Some (k, r) /\ lobe_name r = lobe /\ db_view d KSpatial k = Some v) as Hrows.
  { intros k v. rewrite elem_of_lfilter. cbn [fst]. split.
    - intros [Hin Hs]. assert (db_view d KSpatial k = Some v) as Hv by (apply row_get_elem; [by apply rd_sorted|done]).
      destruct (di_spatial d recs HI k) as (l & r & Hr); [eauto|]. pose proof (di_records d recs HI _ _ _ Hr) as He. exists l, r. split; [done|]. split; [|done].
      destruct (eo_lobe _ _ _ _ He) as (c' & Hc' & Hk & _), (eo_key _ _ _ _ He). rewrite starts_with_lobe in Hs by done.
      eapply (lo_inj _ (di_lobes d recs HI)); [done..|congruence].
    - intros (l & r & Hr & <- & Hv). pose proof (di_records d recs HI _ _ _ Hr) as He. destruct (eo_lobe _ _ _ _ He) as (c' & Hc' & Hk & _), (eo_key _ _ _ _ He).
      split; [by apply row_get_in|]. apply starts_with_lobe; [done..|congruence]. }
  set (rows := List.filter _ _) in *.
  assert (forall k v l r, recs !! l = Some (k, r) -> lobe_name r = lobe -> db_view d KSpatial k = Some v -> hydrated d (lc_id c) k v (db_lobe_name d (lc_id c)) = Done r) as Hh.
  { intros k v l r Hr <- Hv. pose proof (di_records d recs HI _ _ _ Hr) as He. destruct (eo_lobe _ _ _ _ He) as (c' & Hc' & Hk & _). assert (c' = c) as -> by congruence.
    rewrite <- Hk, (entry_lobe_name d recs l k r) by done. by eapply hydrated_entry. }
  destruct (find_rows_spec (fun row => hydrated d (lc_id c) row.1 row.2 (db_lobe_name d (lc_id c))) fit_key cf rows) as (res & E & Hin & Hnd).
  { intros [k v] (l & r & Hr & Hl & Hv)%Hrows. exists r. by eapply Hh. }
  rewrite E. exists res. split; [done|]. split.
  - apply Hnd; [|apply NoDup_ListNoDup, List.NoDup_filter, NoDup_ListNoDup; by apply row_sorted_nodup, rd_sorted].
    intros [k v] [k' v'] r (l & r1 & Hr & Hl & Hv)%Hrows (l' & r2 & Hr' & Hl' & Hv')%Hrows E1 E2. cbn [fst snd] in *.
    rewrite (Hh _ _ _ _ Hr Hl Hv) in E1. rewrite (Hh _ _ _ _ Hr' Hl' Hv') in E2. injection E1 as ->. injection E2 as ->.
    pose proof (eo_lid _ _ _ _ (di_records d recs HI _ _ _ Hr)). pose proof (eo_lid _ _ _ _ (di_records d recs HI _ _ _ Hr')). congruence.
  - intros r. rewrite list_elem_of_fmap. split.
    + intros ([r' sk] & -> & ([k v] & (l & r1 & Hr & Hl & Hv)%Hrows & Hd & _ & Hm)%Hin). cbn [fst snd] in *. rewrite (Hh _ _ _ _ Hr Hl Hv) in Hd. injection Hd as ->. by exists l, k.
    + intros (l & sk & Hr & Hl & Hm). destruct (eo_stored _ _ _ _ (di_records d recs HI _ _ _ Hr)) as (v & Hv & _). exists (r, fit_key sk). split; [done|].
      apply Hin. exists (sk, v). split; [apply Hrows; eauto|]. split; [by eapply Hh|done].
Qed.

(** ** Through the anchor index *)

(** The literals the index and the filters read alike: not floats, whose zeros are
    equal, nor time stamps, lists and maps, whose texts differ from those of values. *)
Definition plain_literal (lit : Literal) : bool := match lit with LInt _ | LText _ | LBool _ | LLid _ | LNull => true | _ => false end.

Lemma collect_some_elem {A B} (f : A -> option B) l r x : collect_some (map f l) = Some r -> x ∈ l -> exists y, f x = Some y /\ y ∈ r.
Proof.
  revert r. induction l as [|a l IH]; intros r E Hx; [by apply elem_of_nil in Hx|]. cbn in E. destruct (f a) as [b|] eqn:Ea; [|done].
  destruct (collect_some (map f l)) as [r'|]; [|done]. injection E as <-. apply elem_of_cons in Hx as [->|Hx]; [exists b; split; [done|left]|].
  destruct (IH r' eq_refl Hx) as (y & Hy & Hin). exists y. split; [done|by right].
Qed.

Lemma plain_text lit v v' : plain_literal lit = true -> literal_to_value lit = Some v -> value_eqb v' v = true -> literal_to_string lit = Some (value_to_anchor_string v').
Proof.
  destruct lit; try done; intros _ [= <-]; destruct v'; cbn; try done.
  - by intros ->%Z.eqb_eq.
  - by intros ->%beqb_eq.
  - by intros ->%Bool.eqb_prop.
  - by intros ->%beqb_eq.
Qed.

Lemma anchor_filter_spec anchors lobe filters f :
  anchor_filter anchors lobe filters = Some f -> f ∈ filters /\ f_op f = Eq_ /\ f_field f ∈ get_anchors anchors lobe.
Proof.
  unfold anchor_filter. intros [Hin [Ho%bool_decide_eq_true Ha]%andb_true_iff]%find_some. apply is_anchor_elem in Ha. by apply list_elem_of_In in Hin.
Qed.

(** A record that matches has the text of the filter in its anchor. *)
Lemma matches_carries recs lobe filters cf f l sk r s :
  convert_filters filters = Some cf -> f ∈ filters -> f_op f = Eq_ -> plain_literal (f_value f) = true -> existsb (fun c => c =? DOT) (f_field f) = false ->
  literal_to_string (f_value f) = Some s -> recs !! l = Some (sk, r) -> lobe_name r = lobe -> matches_filters (fields r) cf = true ->
  carries (recs !! l) lobe (f_field f) s = true.
Proof.
  intros Hcf Hf Ho Hp Hd Hs Hr <- Hm. destruct (collect_some_elem _ _ _ _ Hcf Hf) as (y & Hy & Hin). unfold convert_filter in Hy.
  destruct (literal_to_value (f_value f)) as [v|] eqn:Ev; [|done]. injection Hy as <-. unfold matches_filters in Hm. rewrite forallb_forall in Hm.
  apply list_elem_of_In, Hm in Hin. unfold matches_filter in Hin. rewrite Ho in Hin. unfold resolve_path in Hin. rewrite Hd in Hin. cbn [negb] in Hin.
  rewrite Hr. cbn. rewrite beqb_refl. cbn. destruct (bt_get (f_field f) (fields r)) as [v'|]; [|done]. apply beqb_eq.
  pose proof (plain_text _ _ _ Hp Ev Hin). congruence.
Qed.

Lemma find_in_lobe_spec d recs lobe c filters cf :
  db_inv d recs -> coherent d recs -> lobe_get lobe (db_lobes d) = Some c -> convert_filters filters = Some cf ->
  match anchor_filter (db_anchors d) lobe filters with
  | Some f => plain_literal (f_value f) = true /\ existsb (fun c => c =? DOT) (f_field f) = false
  | None => detect_gravity_eq (scan_engine d) lobe cf = None
  end ->
  exists d' results, find_in_lobe lobe filters d = (d', Done results) /\ touched d d' /\ NoDup results.*1 /\ forall r, r ∈ results.*1 <-> in_lobe recs lobe cf r.
Proof.
  intros HI Hco Hc Hcf Ha. unfold find_in_lobe. rewrite (bind_done (reads id) _ d d d) by done. rewrite Hc.
  destruct (anchor_filter (db_anchors d) lobe filters) as [f|] eqn:Ef.
  2:{ rewrite (bind_done (lift _) _ d d cf) by (by rewrite Hcf). rewrite Ha. destruct (scan_lobe_spec d recs lobe c filters cf) as (res & E & Hnd & Hin); try done.
      exists d, res. split; [done|]. split; [by eapply touched_refl|done]. }
  destruct Ha as [Hp Hd], (anchor_filter_spec _ _ _ _ Ef) as (Hin & Hop & Han).
  destruct (literal_to_string (f_value f)) as [s|] eqn:Es; [|by destruct (f_value f)]. rewrite (bind_done (lift _) _ d d s) by done.
  rewrite (bind_done _ _ _ _ _ (tree_get_spec d recs _ _ _ HI)). pose proof (fun v => di_anchors d recs HI lobe c (f_field f) s v Hc Han) as HA.
  assert (forall r, in_lobe recs lobe cf r -> exists l sk, recs !! l = Some (sk, r) /\ carries (recs !! l) lobe (f_field f) s = true) as Hcar.
  { intros r (l & sk & Hr & Hl & Hm). exists l, sk. split; [done|]. by eapply matches_carries. }
  destruct (db_view d KDictionary _) as [v|].
  - destruct (proj1 (HA v) eq_refl) as (l & Hl & ->). assert (blen (lid_to_bytes l) = 16) as -> by (unfold blen, lid_to_bytes; by rewrite length_to_be_bytes). cbn [Z.eqb Pos.eqb].
    destruct (recs !! l) as [[sk r]|] eqn:Hr; [|done]. assert (is_uint 128 l) as Hul by by eapply lid_range.
    assert (lid_from_bytes (lid_to_bytes l) = l) as -> by (by apply (from_to_be_bytes_id 16 128)).
    destruct (find_by_lid_spec d recs (lid_display l) l) as (d' & res & E & HC & Hres); [done..|by apply lid_parse_display|done|]. rewrite Hr in Hres.
    rewrite (bind_done _ _ _ _ _ E), (bind_done (lift _) _ d' d' cf) by (by rewrite Hcf). destruct res as [|[r0 k] [|]]; try done. injection Hres as ->.
    exists d'. eexists. split; [done|]. split; [done|]. cbn [List.filter fst].
    assert (lobe_name r = lobe) as Hlr by (cbn in Hl; apply andb_true_iff in Hl as [?%beqb_eq _]; done).
    assert (forall r', in_lobe recs lobe cf r' -> r' = r) as Honly.
    { intros r' (l' & sk' & Hr' & Hcar')%Hcar. rewrite <- Hr in Hl. rewrite (anchors_are_unique d recs lobe (f_field f) s l' l HI Han Hcar' Hl) in Hr'. congruence. }
    destruct (matches_filters (fields r) cf) eqn:Em; cbn; (split; [repeat constructor; try apply not_elem_of_nil|]); intros r'.
    + rewrite list_elem_of_singleton. split; [intros ->; by exists l, sk|apply Honly].
    + split; [by intros ?%elem_of_nil|]. intros Hr'. pose proof (Honly _ Hr') as ->. destruct Hr' as (? & ? & ? & ? & ?). congruence.
  - exists d, []. split; [done|]. split; [by eapply touched_refl|]. split; [constructor|]. intros r. split; [by intros ?%elem_of_nil|].
    intros (l & sk & Hr & Hl)%Hcar. assert (None = Some (lid_to_bytes l)); [apply HA; eauto|done].
Qed.

(** ** The records a statement selects *)

(** The lookup is one of those that are exact. *)
Definition exact_route d (lobe : bytes) (filters : list Filter) : Prop :=
  exists cf, convert_filters filters = Some cf /\
    match anchor_filter (db_anchors d) lobe filters with
    | Some f => plain_literal (f_value f) = true /\ existsb (fun c => c =? DOT) (f_field f) = false
    | None => detect_gravity_eq (scan_engine d) lobe cf = None
    end.

Definition wanted (lobe : bytes) (expr : option FilterExpr) (r : XRecord) : bool :=
  beqb (lobe_name r) lobe && match record_matches_opt_expr (fields r) expr with Some b => b | None => false end.

Lemma in_lobe_wanted recs lobe expr cf r :
  (forall fs, record_matches_opt_expr fs expr = Some (matches_filters fs cf)) -> in_lobe recs lobe cf r <-> exists l sk, recs !! l = Some (sk, r) /\ wanted lobe expr r = true.
Proof. intros H. unfold in_lobe, wanted. rewrite H. setoid_rewrite andb_true_iff. setoid_rewrite beqb_eq. done. Qed.

Lemma resolve_lobe_expr_spec d recs lobe expr :
  db_inv d recs -> coherent d recs -> is_Some (lobe_get lobe (db_lobes d)) -> exact_route d lobe (filter_expr_to_flat expr) ->
  (forall e, expr = Some e -> is_Some (to_core_expr e)) ->
  exists d' results, resolve_find_expr (FLobe lobe) expr d = (d', Done results) /\ touched d d' /\ NoDup results.*1 /\
    forall r, r ∈ results.*1 <-> exists l sk, recs !! l = Some (sk, r) /\ wanted lobe expr r = true.
Proof.
  intros HI Hco [c Hc] (cf & Hcf & Hr) Hcore. destruct (find_in_lobe_spec d recs lobe c _ cf HI Hco Hc Hcf Hr) as (d' & res & E & HC & Hnd & Hin).
  exists d'. unfold resolve_find_expr. destruct expr as [e|].
  2:{ exists res. split; [done|]. do 2 (split; [done|]). intros r. rewrite Hin. apply in_lobe_wanted. injection Hcf as <-. done. }
  cbn [filter_expr_to_flat] in *. destruct (as_flat_and e) as [fs|] eqn:Ef.
  - exists res. split; [done|]. do 2 (split; [done|]). intros r. rewrite Hin. apply in_lobe_wanted. intros x. by eapply flat_matches.
  - destruct (Hcore e eq_refl) as [ce Hce]. injection Hcf as <-. eexists.
    rewrite (bind_done (lift _) _ d d ce) by (by rewrite Hce). cbn [resolve_find]. rewrite (bind_done _ _ _ _ _ E). split; [done|]. split; [done|].
    assert (forall l : list (XRecord * bytes), (List.filter (fun rk => matches_core_expr (fields rk.1) ce) l).*1 = List.filter (fun r => matches_core_expr (fields r) ce) l.*1) as ->.
    { induction l as [|[r k] l IH]; [done|]. cbn. destruct (matches_core_expr (fields r) ce); cbn; by rewrite <- IH. }
    split; [by apply NoDup_ListNoDup, List.NoDup_filter, NoDup_ListNoDup|]. intros r. rewrite elem_of_lfilter, Hin. unfold in_lobe, wanted, record_matches_opt_expr, matches_filter_expr.
    rewrite Hce. cbn. setoid_rewrite andb_true_iff. setoid_rewrite beqb_eq. split.
    + intros [(l & sk & ? & ? & _) ?]. eauto.
    + intros (l & sk & ? & ? & ?). split; [|done]. eauto.
Qed.

End db_reads.

(** ** The statement *)

