(* ===== verification/DbDelete.v ===== *)
(** * What DELETE and PURGE do

    Each record of the selection is taken out of the four trees and of the cache; the
    other records, their pointers and their anchors stay. *)

From S2P Require Import Prelude ByteOrder BTree Types Block Paths Tree Value FieldDict Lid Filters FilterEq.
From S2P Require Import Record FieldRegistry SpatialKey SortEncoding Aggregate GroupKey Rollup Ghost Gravity Router Scan ScanPages Registries Db Mutations DbInv DbReads.

(** The records without those of a list. *)
Definition without (recs : Records_) (ls : list LID) : Records_ := foldl (fun m l => delete l m) recs ls.

Lemma without_lookup (recs : Records_) ls l : without recs ls !! l = if bool_decide (l ∈ ls) then None else recs !! l.
Proof.
  revert recs. induction ls as [|l' ls IH]; intros recs; [done|]. unfold without. cbn [foldl]. fold (without (delete l' recs) ls). rewrite IH.
  destruct (decide (l = l')) as [->|Hne]; [rewrite lookup_delete_eq, (bool_decide_true (l' ∈ l' :: ls)) by left; by case_bool_decide|].
  rewrite lookup_delete_ne by done. repeat case_bool_decide; set_solver.
Qed.

Section db_delete.
Context {W D : Type} {RD : Reads D} {RL : ReadsLaws D} {TA : TreeApi D} {CM : Commit W D} {CL : CommitLaws W D}.
Context {XH : Xxh3} {CT : CursorText} {LT : LiteralText} {RS : RecordSize} {PC : Postcard} {PL : PostcardLaws PC} {NC : NamesCodec}.
Context {RP : RollupPostcard} {VT : ValueText} {VP : ValuePostcard} {GT : GravityText} {RC : RegistryCodec} {SP : SpecPostcard}.
Context (group_spill_limit : Z) (E : XyzError -> Prop).
Hypothesis E_storage : forall s, ~ reliable (W := W) (D := D) -> E (Storage s).

Abbreviation db := (Db W D).
Implicit Types (d : db) (recs : Records_).

(** The text DELETE looks an anchor up with is the one PUT wrote. *)
Lemma delete_anchor_text v : delete_anchor_string v = value_to_anchor_string v.
Proof. by destruct v. Qed.

Lemma delete_ops_spec d r lid_bytes sk c :
  lobe_get (lobe_name r) (db_lobes d) = Some c ->
  delete_op <$> build_delete_ops d r lid_bytes sk =
  (BRemove KDictionary <$> (snd <$> anchor_keys (get_anchors (db_anchors d) (lobe_name r)) (lc_id c) (fields r))) ++ [BRemove KIdentity lid_bytes; BRemove KVectors sk; BRemove KSpatial sk].
Proof.
  intros Hc. unfold build_delete_ops. rewrite Hc, fmap_app. f_equal. induction (get_anchors (db_anchors d) (lobe_name r)) as [|a names IH]; [done|]. cbn.
  rewrite fmap_app. destruct (bt_get a (fields r)) as [v|]; cbn; rewrite IH; [by rewrite delete_anchor_text|done].
Qed.

(** The batch of one delete takes the record out. *)
Lemma delete_inv d recs l sk r w t :
  db_inv d recs -> recs !! l = Some (sk, r) -> cm_ok w t ->
  (forall ks k, view t ks k = view_ops (delete_op <$> build_delete_ops d r (lid_to_bytes l) sk) (db_view d) ks k) ->
  db_inv (with_store w t d) (delete l recs).
Proof.
  intros HI Hr Hok Hv. pose proof (di_records d recs HI _ _ _ Hr) as He. destruct (eo_lobe _ _ _ _ He) as (c & Hc & Hk & _).
  assert (forall ks k, view t ks k =
    if (ks_eqb ks KSpatial && beqb k sk) || (ks_eqb ks KVectors && beqb k sk) || (ks_eqb ks KIdentity && beqb k (lid_to_bytes l)) ||
       (ks_eqb ks KDictionary && existsb (beqb k) (snd <$> anchor_keys (get_anchors (db_anchors d) (lobe_name r)) (lc_id c) (fields r)))
    then None else db_view d ks k) as Hv'.
  { intros ks k. rewrite Hv, (delete_ops_spec d r _ _ c Hc), view_ops_app. cbn. rewrite view_removes.
    destruct ks; cbn; rewrite ?orb_false_r; repeat case_match; done. }
  apply inv_change; try done.
  - by eapply lid_range.
  - intros k. rewrite Hv'. cbn. by destruct (beqb k (lid_to_bytes l)).
  - intros l' sk' r' Hne Hr'. assert (beqb sk' sk = false) as Hsk by (apply beqb_neq; intros ->; apply Hne; by eapply (di_keys d recs HI)).
    rewrite !Hv'. cbn. by rewrite Hsk.
  - intros sk'. rewrite Hv'. cbn. rewrite !orb_false_r. destruct (beqb sk' sk) eqn:Esk; [by intros [? ?]|]. intros H. right. split; [done|]. intros r'. rewrite Hr.
    apply beqb_neq in Esk. congruence.
  - intros lobe c' a s Hc' Ha. split; [|done]. cbv zeta. rewrite Hv'. cbn. rewrite (anchor_keys_spec d recs (lobe_name r) c lobe c' a s sk r) by done. by rewrite Hr.
Qed.

(** A cache that no longer has the record agrees with the rest. *)
Lemma invalidate_coherent d d' recs l sk r :
  db_inv d recs -> coherent d recs -> recs !! l = Some (sk, r) -> db_cache d' = invalidate_record (lobe_of_key sk) l <$> db_cache d -> coherent d' (delete l recs).
Proof.
  intros HI Hco Hr Hd c lobe l' r' Hc Hl. rewrite Hd in Hc. destruct (db_cache d) as [c0|] eqn:E0; [|done]. injection Hc as <-.
  apply invalidate_lookup in Hl as [Hne Hl]. destruct (Hco _ _ _ _ E0 Hl) as (Hlobe & sk' & Hr'). split; [done|]. exists sk'. rewrite lookup_delete_ne; [done|].
  intros <-. apply Hne. split; [|done]. destruct (eo_lobe _ _ _ _ (di_records d recs HI _ _ _ Hr)) as (c & _ & -> & <-). done.
Qed.

Definition quiet d : Prop := gl_shards (db_ghosts d) = [].

Lemma delete_single_spec d recs r :
  db_inv d recs -> coherent d recs -> quiet d -> is_uint 128 (lid r) -> (forall sk r', recs !! lid r = Some (sk, r') -> r' = r) ->
  runs (delete_single_record group_spill_limit r) d (fun d' o => quiet d' /\
    match o with
    | Done _ => db_inv d' (delete (lid r) recs) /\ coherent d' (delete (lid r) recs)
    | Failed e => db_inv d' recs /\ coherent d' recs /\ E e
    | Panicked => False
    end).
Proof.
  intros HI Hco Hq Hl Hsame. unfold delete_single_record, runs. rewrite (bind_done _ _ _ _ _ (tree_get_spec d recs _ _ _ HI)), (identity_of d recs) by done.
  destruct (recs !! lid r) as [[sk r']|] eqn:Hr; cbn [fmap option_fmap option_map fst]; [|by rewrite delete_id].
  specialize (Hsame sk r' eq_refl) as ->. pose proof (di_records d recs HI _ _ _ Hr) as He.
  rewrite (bind_done (lift _) _ d d sk) by (by rewrite (key_of_entry _ _ _ _ _ He)). rewrite (bind_done (reads id) _ d d d) by done.
  match goal with |- context [(?m ≫= ?k) d] => change (runs (m ≫= k) d (fun d' o => quiet d' /\
    match o with Done _ => db_inv d' (delete (lid r) recs) /\ coherent d' (delete (lid r) recs) | Failed e => db_inv d' recs /\ coherent d' recs /\ E e | Panicked => False end)) end.
  apply runs_bind. eapply runs_mono; [by eapply (commit_spec E E_storage)|]. intros d1 o (w & t & -> & Hok & Ho). destruct o as [[]|e|]; [| |done].
  2:{ destruct Ho as [HC He']. split; [done|]. split; [by eapply inv_calm|]. split; [by eapply coherent_calm|done]. }
  assert (db_inv (with_store w t d) (delete (lid r) recs)) as HI1 by by eapply delete_inv.
  apply runs_bind. eapply runs_mono; [by eapply (notify_spec group_spill_limit (fun _ => False))|]. intros d2 o [HC2 Ho2]. destruct o as [[]|e|]; [|done..].
  destruct Ho2 as (_ & _ & Hca). apply runs_modify. split; [unfold quiet; cbn; by rewrite (ca_ghosts _ _ HC2)|].
  split; [apply inv_with_cache; by eapply inv_calm|]. eapply invalidate_coherent; [exact HI|exact Hco|done|]. cbn. by rewrite Hca.
Qed.

Lemma delete_loop_spec d recs rs count :
  db_inv d recs -> coherent d recs -> quiet d -> (forall r, r ∈ rs -> exists sk, recs !! lid r = Some (sk, r)) -> NoDup (lid <$> rs) ->
  runs (count_loop (fun r => delete_single_record group_spill_limit r;; mret true) rs count) d (fun d' o =>
    match o with
    | Done n => n = count + blen rs /\ db_inv d' (without recs (lid <$> rs)) /\ coherent d' (without recs (lid <$> rs))
    | Failed e => E e /\ exists done, done `prefix_of` (lid <$> rs) /\ db_inv d' (without recs done) /\ coherent d' (without recs done)
    | Panicked => False
    end).
Proof.
  revert d recs count. induction rs as [|r rs IH]; intros d recs count HI Hco Hq Hin Hnd.
  { split; [unfold blen; cbn; lia|done]. }
  cbn [count_loop]. destruct (Hin r) as [sk Hr]; [left|]. cbn in Hnd. inversion Hnd as [|? ? Hni Hnd']; subst.
  apply runs_bind, runs_bind. eapply runs_mono; [apply delete_single_spec; try done; [by eapply lid_range|intros ? ? ?; congruence]|].
  intros d1 o [Hq1 Ho]. destruct o as [[]|e|]; [|destruct Ho as (? & ? & ?); split; [done|]; exists []; by split; [apply prefix_nil|]|done].
  destruct Ho as [HI1 Hco1]. apply runs_ret. eapply runs_mono; [apply IH; try done|].
  - intros r' Hr'. destruct (Hin r') as [sk' Hsk']; [by right|]. exists sk'. rewrite lookup_delete_ne; [done|]. intros E'. apply Hni. rewrite E'. by apply list_elem_of_fmap_2.
  - intros d2 [n|e|]; [|intros (He & dn & Hp & ?); split; [done|]; exists (lid r :: dn); by split; [apply prefix_cons|]|done].
    intros [-> ?]. split; [unfold blen; cbn [length]; lia|done].
Qed.

(** Two records of the database with one identifier are one. *)
Lemma lids_nodup d recs rs : db_inv d recs -> NoDup rs -> (forall r, r ∈ rs -> exists sk, recs !! lid r = Some (sk, r)) -> NoDup (lid <$> rs).
Proof.
  intros HI. induction 1 as [|r rs Hni _ IH]; intros Hin; [constructor|]. cbn. constructor; [|apply IH; intros; apply Hin; by right].
  intros (r' & E' & Hr')%list_elem_of_fmap. destruct (Hin r) as [sk Hr]; [left|]. destruct (Hin r') as [sk' Hr'']; [by right|]. rewrite E' in Hr. congruence.
Qed.

End db_delete.

