(* ===== verification/DbChange.v ===== *)
(** * One record written

    The batches of an insert, of an update in place and of a move keep the invariant
    and change one record; a record written through to the cache keeps it in line. *)

From S2P Require Import Prelude ByteOrder BTree Types Block Paths Tree Value FieldDict Lid Filters FilterEq.
From S2P Require Import Record FieldRegistry SpatialKey SortEncoding Aggregate GroupKey Rollup Ghost Gravity Router Scan ScanPages Registries Db Mutations DbInv DbReads.

Section db_change.
Context {W D : Type} {RD : Reads D} {RL : ReadsLaws D} {TA : TreeApi D} {CM : Commit W D} {CL : CommitLaws W D}.
Context {XH : Xxh3} {CT : CursorText} {LT : LiteralText} {RS : RecordSize} {PC : Postcard} {PL : PostcardLaws PC} {NC : NamesCodec}.
Context {RP : RollupPostcard} {VT : ValueText} {VP : ValuePostcard} {GT : GravityText} {RC : RegistryCodec} {SP : SpecPostcard}.

Abbreviation db := (Db W D).
Implicit Types (d : db) (recs : Records_).

Definition key_seq (sk : bytes) : Z := from_be_bytes (slice sk 16 24).

(** The slots of the key of a record that is placed. *)
Lemma placement_slots lobe gh sat fs now seq :
  is_uint 16 lobe -> is_uint 64 seq ->
  let sk := to_bytes (placement_key lobe gh sat fs now seq) in
  lobe_of_key sk = lobe /\ key_seq sk = seq /\ blen sk = SPATIAL_KEY_SIZE /\ is_bytes sk.
Proof.
  intros Hl Hs sk. subst sk. set (k := placement_key lobe gh sat fs now seq). destruct (slot_slices k) as (E1 & _ & _ & _ & E5).
  assert (SpatialKey.lobe_id k = lobe /\ SpatialKey.seq k = seq) as [Ek Es] by (subst k; unfold placement_key; by destruct (satellite_sat_for sat fs)).
  unfold lobe_of_key, key_seq. rewrite E1, E5, Ek, Es, (from_to_be_bytes_id 2 16), (from_to_be_bytes_id 8 64) by done.
  split; [done|]. split; [done|]. split; [apply to_bytes_length|apply to_bytes_is_bytes].
Qed.

(** What of a record must stand in the trees. *)
Record stored_ok d (c : LobeConfig) (l : LID) (sk : bytes) (r : XRecord) (blob : bytes) (column : option bytes) (entry : option (bytes * bytes)) (old : option bytes) : Prop := {
  so_lid : lid r = l;
  so_record : record_ok r;
  so_lobe : lobe_get (lobe_name r) (db_lobes d) = Some c;
  so_lid_lobe : lid_lobe_id l = lc_id c;
  so_key_lobe : lobe_of_key sk = lc_id c;
  so_key : blen sk = SPATIAL_KEY_SIZE /\ is_bytes sk;
  so_minted : lid_boot_epoch l = boot_epoch_reg (db_lid d) -> lid_sequence l < sequence_ctr (db_lid d);
  so_seq : key_seq sk < db_seq d;
  so_entry k v : entry = Some (k, v) -> starts_with k [255] = true;
  so_back : reads_back (db_registry d) (lc_id c) (match column with Some x => Some x | None => old end) blob r;
}.

Lemma stored_entry d c l sk r blob column entry old w t :
  stored_ok d c l sk r blob column entry old -> view t KSpatial sk = Some blob -> view t KVectors sk = match column with Some x => Some x | None => old end ->
  entry_ok (with_store w t d) l sk r.
Proof.
  intros [] Hs Hv. split; try done; [by exists c|]. exists blob. change (db_view (with_store w t d)) with (view t). rewrite Hs, Hv. split; [done|]. cbn. by rewrite so_key_lobe0.
Qed.

(** The entry of the field registry is no anchor's. *)
Lemma entry_aside d recs lobe c a s (entry : option (bytes * bytes)) (f : View) :
  db_inv d recs -> lobe_get lobe (db_lobes d) = Some c -> (forall k v, entry = Some (k, v) -> starts_with k [255] = true) ->
  let k := dictionary_key (lc_id c) a s in view_ops (opt_put KDictionary entry) f KDictionary k = f KDictionary k.
Proof.
  intros HI Hc He k. rewrite view_opt_put. destruct entry as [[k' v]|]; [|done]. cbn. rewrite (proj2 (beqb_neq _ _)); [done|].
  intros E. pose proof (He k' v eq_refl) as Hk. subst k'. subst k. rewrite dictionary_key_head in Hk; [done|]. eapply lobe_id_range; [apply HI|apply HI|done].
Qed.

(** ** An insert *)

Lemma insert_inv d recs c l sk r blob column entry w t :
  db_inv d recs -> recs !! l = None -> stored_ok d c l sk r blob column entry (db_view d KVectors sk) ->
  (forall l' sk' r', recs !! l' = Some (sk', r') -> key_seq sk' < key_seq sk) ->
  let keys := anchor_keys (get_anchors (db_anchors d) (lobe_name r)) (lc_id c) (fields r) in
  Forall (fun x => db_view d KDictionary x.2 = None) keys -> cm_ok w t ->
  (forall ks k, view t ks k = view_ops (insert_ops sk l blob column entry (snd <$> keys)) (db_view d) ks k) ->
  db_inv (with_store w t d) (<[l := (sk, r)]> recs).
Proof.
  intros HI Hnone Hst Hfresh keys Hfree Hok Hv. assert (forall l' r', recs !! l' <> Some (sk, r')) as Hnew.
  { intros l' r' Hr'. pose proof (Hfresh _ _ _ Hr'). lia. }
  assert (forall l', is_Some (recs !! l') -> l' <> l) as Hne by (intros l' [x Hx] ->; congruence).
  pose proof (so_record _ _ _ _ _ _ _ _ _ Hst) as [Hl _]. rewrite (so_lid _ _ _ _ _ _ _ _ _ Hst) in Hl.
  assert (forall k, view t KSpatial k = if beqb k sk then Some blob else db_view d KSpatial k) as Hsp.
  { intros k. rewrite Hv. unfold insert_ops. rewrite !view_ops_app, view_puts, !view_opt_put. cbn. destruct column, entry as [[]|]; done. }
  assert (forall k, view t KVectors k = if beqb k sk then match column with Some x => Some x | None => db_view d KVectors sk end else db_view d KVectors k) as Hve.
  { intros k. rewrite Hv. unfold insert_ops. rewrite !view_ops_app, view_puts, !view_opt_put. destruct column, entry as [[]|]; cbn; destruct (beqb k sk) eqn:Ek; try done; by apply beqb_eq in Ek as ->. }
  apply inv_change; try done.
  - intros k. rewrite Hv. unfold insert_ops. rewrite !view_ops_app, view_puts, !view_opt_put. cbn. destruct column, entry as [[]|]; done.
  - intros sk' r' [= <- <-]. split; [|by intros]. eapply stored_entry; [done|rewrite Hsp|rewrite Hve]; by rewrite beqb_refl.
  - intros l' sk' r' _ Hr'. assert (beqb sk' sk = false) as Hb by (apply beqb_neq; intros ->; by eapply Hnew). rewrite Hsp, Hve. by rewrite Hb.
  - intros sk'. rewrite Hsp. destruct (beqb sk' sk) eqn:Ek; [apply beqb_eq in Ek as ->; left; eauto|]. intros H. right. split; [done|]. intros r'. by rewrite Hnone.
  - intros lobe c' a s Hc' Ha. cbv zeta. rewrite Hnone. change (carries None lobe a s) with false. cbv iota.
    pose proof (anchor_keys_spec d recs (lobe_name r) c lobe c' a s sk r HI eq_refl (so_lobe _ _ _ _ _ _ _ _ _ Hst) Hc' Ha) as Hk. fold keys in Hk. split.
    + rewrite Hv. unfold insert_ops. rewrite !view_ops_app, view_puts. cbn [ks_eqb andb]. rewrite Hk. destruct (carries _ _ _ _); [done|].
      rewrite (entry_aside d recs lobe c') by (done || apply Hst). rewrite view_opt_put. by destruct column.
    + intros Hc. rewrite Hc in Hk. right. apply existsb_exists in Hk as (x & Hx & ->%beqb_eq). apply list_elem_of_In, list_elem_of_fmap in Hx as (y & -> & Hy).
      rewrite Forall_forall in Hfree. by apply Hfree.
Qed.

(** ** An update in place *)

Definition same_anchors d (r r' : XRecord) : Prop :=
  forall a s, a ∈ get_anchors (db_anchors d) (lobe_name r) -> carries (Some ([], r')) (lobe_name r) a s = carries (Some ([], r)) (lobe_name r) a s.

Lemma same_carries d r r' sk sk' lobe a s :
  lobe_name r' = lobe_name r -> same_anchors d r r' -> a ∈ get_anchors (db_anchors d) lobe -> carries (Some (sk', r')) lobe a s = carries (Some (sk, r)) lobe a s.
Proof.
  intros Hn Hs Ha. destruct (beqb (lobe_name r) lobe) eqn:El; [|by cbn; rewrite Hn, El]. apply beqb_eq in El as <-. by apply Hs.
Qed.

(** The index of a record that carries what it carried. *)
Lemma same_index d recs l sk r lobe c a s (new : option (bytes * XRecord)) v :
  db_inv d recs -> recs !! l = Some (sk, r) -> lobe_get lobe (db_lobes d) = Some c -> a ∈ get_anchors (db_anchors d) lobe ->
  let k := dictionary_key (lc_id c) a s in
  v = db_view d KDictionary k -> carries new lobe a s = carries (recs !! l) lobe a s ->
  v = (if carries new lobe a s then Some (lid_to_bytes l) else if carries (recs !! l) lobe a s then None else db_view d KDictionary k) /\
  (carries new lobe a s = true -> carries (recs !! l) lobe a s = true \/ db_view d KDictionary k = None).
Proof.
  intros HI Hr Hc Ha k -> E. rewrite E. destruct (carries (recs !! l) lobe a s) eqn:Ec; [|done]. split; [|by left].
  apply (di_anchors d recs HI lobe); eauto.
Qed.

Lemma update_inv d recs c l sk r0 r blob column entry w t :
  db_inv d recs -> recs !! l = Some (sk, r0) -> lobe_name r = lobe_name r0 -> same_anchors d r0 r -> stored_ok d c l sk r blob column entry (db_view d KVectors sk) -> cm_ok w t ->
  (forall ks k, view t ks k = view_ops ([BPut KSpatial sk blob] ++ opt_put KVectors (pair sk <$> column) ++ opt_put KDictionary entry) (db_view d) ks k) ->
  db_inv (with_store w t d) (<[l := (sk, r)]> recs).
Proof.
  intros HI Hr0 Hn Hsame Hst Hok Hv.
  assert (forall k, view t KSpatial k = if beqb k sk then Some blob else db_view d KSpatial k) as Hsp.
  { intros k. rewrite Hv, !view_ops_app, !view_opt_put. cbn. destruct column, entry as [[]|]; done. }
  assert (forall k, view t KVectors k = if beqb k sk then match column with Some x => Some x | None => db_view d KVectors sk end else db_view d KVectors k) as Hve.
  { intros k. rewrite Hv, !view_ops_app, !view_opt_put. destruct column, entry as [[]|]; cbn; destruct (beqb k sk) eqn:Ek; try done; by apply beqb_eq in Ek as ->. }
  apply inv_change; try done.
  - by eapply lid_range.
  - intros k. rewrite Hv, !view_ops_app, !view_opt_put. cbn. assert (db_view d KIdentity (lid_to_bytes l) = Some sk) as E by (apply (di_identity d recs HI); eauto).
    destruct (beqb k (lid_to_bytes l)) eqn:Ek; [apply beqb_eq in Ek as ->; rewrite <- E|]; destruct column, entry as [[]|]; done.
  - intros sk' r' [= <- <-]. split; [eapply stored_entry; [done|rewrite Hsp|rewrite Hve]; by rewrite beqb_refl|].
    intros l' r' Hne Hr'. by apply Hne, (di_keys d recs HI l' l sk r' r0).
  - intros l' sk' r' Hne Hr'. assert (beqb sk' sk = false) as Hb by (apply beqb_neq; intros ->; by apply Hne, (di_keys d recs HI l' l sk r' r0)). by rewrite Hsp, Hve, Hb.
  - intros sk'. rewrite Hsp. destruct (beqb sk' sk) eqn:Ek; [apply beqb_eq in Ek as ->; left; eauto|]. apply beqb_neq in Ek. intros H. right. split; [done|]. intros r'. rewrite Hr0. congruence.
  - intros lobe c' a s Hc' Ha. eapply same_index; try done; [|by rewrite Hr0; eapply same_carries].
    rewrite Hv, !view_ops_app, (entry_aside d recs lobe c') by (done || apply Hst). rewrite view_opt_put. by destruct column.
Qed.

(** ** A move *)

Lemma move_inv d recs c l sk new_sk r0 r blob column entry w t :
  db_inv d recs -> recs !! l = Some (sk, r0) -> lobe_name r = lobe_name r0 -> same_anchors d r0 r -> stored_ok d c l new_sk r blob column entry (db_view d KVectors new_sk) ->
  (forall l' sk' r', recs !! l' = Some (sk', r') -> key_seq sk' < key_seq new_sk) -> cm_ok w t ->
  (forall ks k, view t ks k = view_ops ([BRemove KSpatial sk; BPut KSpatial new_sk blob; BPut KIdentity (lid_to_bytes l) new_sk; BRemove KVectors sk] ++
      opt_put KVectors (pair new_sk <$> column) ++ opt_put KDictionary entry) (db_view d) ks k) ->
  db_inv (with_store w t d) (<[l := (new_sk, r)]> recs).
Proof.
  intros HI Hr0 Hn Hsame Hst Hfresh Hok Hv. assert (forall l' r', recs !! l' <> Some (new_sk, r')) as Hnew.
  { intros l' r' Hr'. pose proof (Hfresh _ _ _ Hr'). lia. }
  assert (beqb new_sk sk = false) as Hmoved by (apply beqb_neq; intros ->; by eapply Hnew).
  assert (forall k, view t KSpatial k = if beqb k new_sk then Some blob else if beqb k sk then None else db_view d KSpatial k) as Hsp.
  { intros k. rewrite Hv, !view_ops_app, !view_opt_put. cbn. destruct column, entry as [[]|]; done. }
  assert (forall k, view t KVectors k = if beqb k new_sk then match column with Some x => Some x | None => db_view d KVectors new_sk end
                                        else if beqb k sk then None else db_view d KVectors k) as Hve.
  { intros k. rewrite Hv, !view_ops_app, !view_opt_put. destruct column, entry as [[]|]; cbn; destruct (beqb k new_sk) eqn:Ek; try done; apply beqb_eq in Ek as ->; by rewrite Hmoved. }
  apply inv_change; try done.
  - by eapply lid_range.
  - intros k. rewrite Hv, !view_ops_app, !view_opt_put. cbn. destruct column, entry as [[]|]; done.
  - intros sk' r' [= <- <-]. split; [eapply stored_entry; [done|rewrite Hsp|rewrite Hve]; by rewrite beqb_refl|]. by intros.
  - intros l' sk' r' Hne Hr'. assert (beqb sk' sk = false) as Hb by (apply beqb_neq; intros ->; by apply Hne, (di_keys d recs HI l' l sk r' r0)).
    assert (beqb sk' new_sk = false) as Hb' by (apply beqb_neq; intros ->; by eapply Hnew). by rewrite Hsp, Hve, Hb, Hb'.
  - intros sk'. rewrite Hsp. destruct (beqb sk' new_sk) eqn:Ek; [apply beqb_eq in Ek as ->; left; eauto|]. destruct (beqb sk' sk) eqn:Ek'; [by intros [? ?]|].
    apply beqb_neq in Ek'. intros H. right. split; [done|]. intros r'. rewrite Hr0. congruence.
  - intros lobe c' a s Hc' Ha. eapply same_index; try done; [|by rewrite Hr0; eapply same_carries].
    rewrite Hv, !view_ops_app, (entry_aside d recs lobe c') by (done || apply Hst). rewrite view_opt_put. by destruct column.
Qed.

(** ** The cache *)

Lemma write_through_coherent d d' recs l sk r lobe :
  coherent d recs -> lid r = l -> lid_lobe_id l = lobe -> db_cache d' = update_record lobe r <$> db_cache d -> coherent d' (<[l := (sk, r)]> recs).
Proof.
  intros Hco Hl Hlobe Hd c lobe' l' r' Hc Hlook. rewrite Hd in Hc. destruct (db_cache d) as [c0|] eqn:E0; [|done]. injection Hc as <-.
  apply update_lookup in Hlook as [(-> & -> & ->)|[Hne Hlook]]; [subst l; split; [done|]; exists sk; by rewrite lookup_insert_eq|].
  destruct (Hco _ _ _ _ E0 Hlook) as (Hl' & sk' & Hr'). split; [done|]. exists sk'. rewrite lookup_insert_ne; [done|]. intros <-. apply Hne. by rewrite Hl', <- Hlobe.
Qed.

End db_change.
