(* ===== verification/DbPut.v ===== *)
(** * What PUT does

    A record is added under a new identifier and a new key, in the bucket its values
    belong to; when the value of an anchor is taken, PUT is refused or, with ON
    CONFLICT UPDATE, changes the record that has it. *)

From S2P Require Import Prelude ByteOrder BTree Types Block Paths Tree Value FieldDict Lid Filters FilterEq.
From S2P Require Import Record FieldRegistry SpatialKey SortEncoding Aggregate GroupKey Rollup Ghost Gravity Router Scan ScanPages Registries Db Mutations DbInv DbReads DbDelete DbChange.

(** ** What the steps leave as it is *)

Section keeping.
Context {W D : Type} {RD : Reads D} {TA : TreeApi D} {CM : Commit W D} {RC : RegistryCodec} {SP : SpecPostcard}.

Abbreviation db := (Db W D).

Definition frame (d : db) := (db_registry d, db_cache d, db_gravity d, db_satellites d).
Definition frame0 (d : db) := (db_registry d, db_cache d, db_vectors d, db_lid d, db_seq d).

Lemma persist_entry_keeps {X} (f : db -> X) p q k v : (forall w t d, f (with_store w t d) = f d) -> keeps f (persist_entry p q k v).
Proof. intros Hf d. unfold persist_entry. destruct (api_insert _ _ _) as [t [u|e|]]; [destruct (cm_flush t) as [t' r]|..]; apply Hf. Qed.

Ltac keeping := repeat first [apply keeps_bind; [|intros ?] | by apply persist_entry_keeps | by intros ? | case_match].

Lemma mint_keeps lobe : keeps (fun d => (frame d, db_vectors d)) (mint_lid lobe).
Proof. unfold mint_lid. keeping. Qed.
Lemma clock_keeps : keeps (fun d => (frame d, db_vectors d)) read_clock.
Proof. done. Qed.
Lemma seq_keeps : keeps (fun d => (frame d, db_vectors d)) next_record_seq.
Proof. done. Qed.

Lemma serialize_keeps {PC : Postcard} {NC : NamesCodec} norm_sq search lobe r : keeps (fun d : db => (db_cache d, db_gravity d, db_satellites d)) (serialize_split norm_sq search lobe r).
Proof.
  unfold serialize_split. destruct (searchable search r) as [[f v]|]; [|done]. intros d. by destruct (serialize_record_v5_durable _ _ _ _ _) as [[[??]?]?].
Qed.

Lemma check_dim_keeps lobe search r : keeps (fun d => (frame d, db_lid d, db_seq d)) (check_dim lobe search r).
Proof.
  unfold check_dim, ensure_vector_dim. destruct (searchable search r) as [[f v]|]; [|done].
  keeping.
Qed.

Lemma resolve_keeps lobe : keeps frame0 (resolve_lobe lobe).
Proof.
  intros d. unfold resolve_lobe. destruct (lobe_get lobe (db_lobes d)); [done|]. revert d. apply keeps_bind; [done|]. intros now. apply keeps_bind; [done|]. intros lobes.
  destruct (get_or_create lobe None now lobes). keeping.
Qed.

Lemma markers_keep spec gf : keeps frame0 (check_markers (W := W) (D := D) spec gf).
Proof. unfold check_markers. keeping. Qed.

Lemma register_keeps lobe gf : keeps frame0 (register_marker lobe gf).
Proof.
  unfold register_marker. destruct gf as [|[name v] [|]]; [done| |done]. unfold register_gravity_field, persist_gravity. keeping.
Qed.

End keeping.

(** ** The fields *)

Definition field_ok (kv : bytes * Value) : Prop := decodable kv.2 /\ forall v, kv.2 = Vector v -> blen v * 4 < 2 ^ 63.

Lemma build_fields_sorted fs fields gf b fields' gf' b' :
  bt_sorted fields -> build_fields fs fields gf b = Some (fields', gf', b') -> bt_sorted fields'.
Proof.
  revert fields gf b. induction fs as [|pf fs IH]; intros fields gf b Hs; cbn; [by intros [= <- _ _]|].
  destruct (literal_to_value (pf_value pf)); [|done]. apply IH. by apply bt_insert_sorted.
Qed.

Lemma put_fields_sorted lobe fs fields gf : put_fields lobe fs = Done (fields, gf) -> bt_sorted fields.
Proof.
  unfold put_fields. destruct (build_fields fs [] [] false) as [[[fs' gf'] b]|] eqn:E; [|done]. apply build_fields_sorted in E; [|constructor].
  cbn. intros [= <- _]. destruct b; [done|by apply bt_insert_sorted].
Qed.

(** The fields of a record with others written over. *)
Definition merged (new old : Fields) : Fields := foldl (fun fs kv => bt_insert kv.1 kv.2 fs) old new.

Lemma bt_insert_blen {V} k (v : V) (m : BTreeMap bytes V) : blen (bt_insert k v m) <= blen m + 1.
Proof. unfold blen. induction m as [|[k' v'] m IH]; cbn [bt_insert length]; [lia|]. destruct (ocmp k k'); cbn [length]; lia. Qed.

Lemma merged_ok new old :
  bt_sorted old -> Forall field_ok old -> Forall field_ok new -> bt_sorted (merged new old) /\ Forall field_ok (merged new old) /\ blen (merged new old) <= blen old + blen new.
Proof.
  revert old. induction new as [|[k v] new IH]; intros old Hs Ho Hn; [split; [done|]; split; [done|]; unfold merged, blen; cbn; lia|].
  inversion Hn as [|? ? Hkv Hn']; subst. destruct (IH (bt_insert k v old)) as (H1 & H2 & H3); [by apply bt_insert_sorted| |done|].
  - apply Forall_forall. intros x [->|Hx]%bt_insert_elem; [done|]. rewrite Forall_forall in Ho. by apply Ho.
  - change (merged ((k, v) :: new) old) with (merged new (bt_insert k v old)). split; [done|]. split; [done|].
    pose proof (bt_insert_blen k v old). unfold blen in *. cbn [length]. lia.
Qed.

Lemma merged_get new old k : bt_sorted new -> bt_get k (merged new old) = match bt_get k new with Some v => Some v | None => bt_get k old end.
Proof.
  intros Hs. revert old. induction Hs as [|[k' v'] new Hs IH Hk]; intros old; [done|]. change (merged ((k', v') :: new) old) with (merged new (bt_insert k' v' old)).
  rewrite IH, bt_get_insert. cbn [bt_get]. destruct (ocmp k k') eqn:E; try done. apply ocmp_eq in E as ->. by rewrite bt_get_below.
Qed.

Section db_put.
Context {W D : Type} {RD : Reads D} {RL : ReadsLaws D} {TA : TreeApi D} {CM : Commit W D} {CL : CommitLaws W D}.
Context {XH : Xxh3} {CT : CursorText} {LT : LiteralText} {RS : RecordSize} {PC : Postcard} {PL : PostcardLaws PC} {NC : NamesCodec}.
Context {RP : RollupPostcard} {VT : ValueText} {VP : ValuePostcard} {GT : GravityText} {RC : RegistryCodec} {SP : SpecPostcard}.
Context (norm_sq : list Z -> Z) (group_spill_limit : Z).
Hypothesis norm_range : forall v, is_uint 64 (norm_sq v).
Context (E : XyzError -> Prop).
Hypothesis E_storage : forall s, ~ reliable (W := W) (D := D) -> E (Storage s).

Abbreviation db := (Db W D).
Implicit Types (d : db) (recs : Records_).

(** The names of the fields there is room for in every dictionary. *)
Definition names_room d (n : Z) : Prop := forall id, blen (id_to_name (dict_of (db_registry d) id)) + n <= 2 ^ 16.

(** ** After the batch *)

Definition frame2 d := (db_gravity d, db_satellites d).

Lemma notify_after d recs lobe fs sk wt :
  db_inv d recs -> quiet d ->
  exists d', notify group_spill_limit lobe fs sk wt d = (d', Done tt) /\ calm d d' /\ db_cache d' = db_cache d /\ frame2 d' = frame2 d.
Proof.
  intros HI Hq. pose proof (notify_spec group_spill_limit (fun _ => False) d recs lobe fs sk wt HI Hq) as H.
  assert (keeps frame2 (notify group_spill_limit lobe fs sk wt)) as Hk by (intros d1; unfold notify; by destruct (notify_write _ _ _ _ _ _)).
  specialize (Hk d). unfold calmly, runs in H. destruct (notify _ _ _ _ _ d) as [d' [[]|e|]]; destruct H as [HC Ho]; [|done..]. exists d'. by destruct Ho as (_ & _ & ?).
Qed.

Lemma router_after d recs lobe n :
  db_inv d recs -> exists d', record_router_writes lobe n d = (d', Done tt) /\ calm d d' /\ db_cache d' = db_cache d /\ frame2 d' = frame2 d.
Proof.
  intros HI. destruct (router_calm (fun _ => False) d recs lobe n HI) as [HC (Hc & _)]. eexists. split; [done|]. split; [done|]. split; [done|]. cbn. by destruct (bt_get lobe _).
Qed.

(** A record just written reaches the cache. *)
Lemma cached_after d0 d recs l sk r lobe :
  coherent d0 recs -> db_cache d = db_cache d0 -> db_inv d (<[l := (sk, r)]> recs) -> lid r = l -> lid_lobe_id l = lobe ->
  exists d', write_through lobe r d = (d', Done tt) /\ db_inv d' (<[l := (sk, r)]> recs) /\ coherent d' (<[l := (sk, r)]> recs) /\ frame2 d' = frame2 d.
Proof.
  intros Hco Hc HI Hl Hlobe. eexists. split; [done|]. split; [by apply inv_with_cache|]. split; [|done]. eapply (write_through_coherent d0); [done..|]. cbn. by rewrite Hc.
Qed.

(** ** A new record *)

Definition put_done d' recs (lobe : bytes) (fs : Fields) (gf : list (bytes * Value)) (a : Answer) : Prop :=
  exists l sk now c mic seq, let r := mkRecord l lobe fs now now in
    recs !! l = None /\ a = AOk (Some l) (inserted_message l) /\ lobe_get lobe (db_lobes d') = Some c /\
    sk = to_bytes (placement_key (lc_id c) (placement_hash None gf (bt_get lobe (db_gravity d')) (get_anchors (db_anchors d') lobe) fs) (bt_get lobe (db_satellites d')) fs mic seq) /\
    db_inv d' (<[l := (sk, r)]> recs) /\ coherent d' (<[l := (sk, r)]> recs).

Definition unchanged d' recs (e : XyzError) : Prop := db_inv d' recs /\ coherent d' recs /\ E e.

Lemma unchanged_calm d d' recs e : db_inv d recs -> coherent d recs -> calm d d' -> E e -> unchanged d' recs e.
Proof. intros. split; [by eapply inv_calm|]. split; [by eapply coherent_calm|done]. Qed.

(** The batch and what follows, once the record is made. *)
Lemma commit_insert_spec d recs c l sk r blob column entry (answer : Answer) :
  db_inv d recs -> coherent d recs -> quiet d -> recs !! l = None -> stored_ok d c l sk r blob column entry (db_view d KVectors sk) ->
  (forall l' sk' r', recs !! l' = Some (sk', r') -> key_seq sk' < key_seq sk) ->
  let keys := anchor_keys (get_anchors (db_anchors d) (lobe_name r)) (lc_id c) (fields r) in
  Forall (fun x => db_view d KDictionary x.2 = None) keys ->
  runs (commit_batch "batch commit failed: " (insert_ops sk l blob column entry (snd <$> keys));;
        notify group_spill_limit (lc_id c) (fields r) sk WInsert;; mret tt;; record_router_writes (lc_id c) 1;; write_through (lc_id c) r;; mret answer) d
    (fun d' o => match o with
     | Done a => a = answer /\ db_inv d' (<[l := (sk, r)]> recs) /\ coherent d' (<[l := (sk, r)]> recs) /\ frame2 d' = frame2 d /\ db_anchors d' = db_anchors d /\
                 forall name x, lobe_get name (db_lobes d) = Some x -> lobe_get name (db_lobes d') = Some x
     | Failed e => unchanged d' recs e
     | Panicked => False
     end).
Proof.
  intros HI Hco Hq Hnone Hst Hfresh keys Hfree. apply runs_bind. eapply runs_mono; [by eapply (commit_spec E E_storage)|].
  intros d1 o (w & t & -> & Hok & Ho). destruct o as [[]|e|]; [| |done]; [|destruct Ho; by eapply unchanged_calm].
  assert (db_inv (with_store w t d) (<[l := (sk, r)]> recs)) as HI1 by by eapply insert_inv.
  destruct (notify_after _ _ (lc_id c) (fields r) sk WInsert HI1 Hq) as (d2 & E2 & C2 & K2 & F2). pose proof (inv_calm _ _ _ HI1 C2) as HI2.
  destruct (router_after d2 _ (lc_id c) 1 HI2) as (d3 & E3 & C3 & K3 & F3). pose proof (inv_calm _ _ _ HI2 C3) as HI3.
  destruct (cached_after d d3 recs l sk r (lc_id c)) as (d4 & E4 & HI4 & Hco4 & F4); [done|by rewrite K3, K2|done|apply Hst|apply Hst|].
  unfold runs. rewrite (bind_done _ _ _ _ _ E2), (bind_done (mret tt) _ d2 d2 tt), (bind_done _ _ _ _ _ E3), (bind_done _ _ _ _ _ E4) by done. cbn.
  split; [done|]. split; [done|]. split; [done|]. split; [by rewrite F4, F3, F2|].
  injection E4 as <-. cbn. split; [by rewrite (ca_anchors _ _ C3), (ca_anchors _ _ C2)|]. intros name x Hx. by apply (ca_lobes _ _ C3), (ca_lobes _ _ C2).
Qed.

Lemma put_insert_spec d recs stmt c fs gf :
  let lobe := pt_lobe stmt in
  let anchors := get_anchors (db_anchors d) lobe in
  let keys := anchor_keys anchors (lc_id c) fs in
  db_inv d recs -> coherent d recs -> quiet d -> pt_link stmt = None -> lobe_get lobe (db_lobes d) = Some c ->
  bt_sorted fs -> Forall field_ok fs -> names_room d (blen fs) -> sequence_ctr (db_lid d) + 1 < 2 ^ 32 -> 0 <= db_seq d < 2 ^ 64 - 1 ->
  (is_Some (bt_get lobe (db_vectors d)) -> forall s, E (InvalidQuery s)) -> Forall (fun x => db_view d KDictionary x.2 = None) keys ->
  runs (put_insert norm_sq group_spill_limit stmt (lc_id c) fs gf anchors keys) d (fun d' o =>
    match o with Done a => put_done d' recs lobe fs gf a | Failed e => unchanged d' recs e | Panicked => False end).
Proof.
  intros lobe anchors keys HI Hco Hq Hlink Hc Hsort Hfs Hroom Hctr Hseq HE Hfree. unfold put_insert. rewrite Hlink. fold lobe.
  assert (is_uint 16 (lc_id c)) as Hid by (eapply lobe_id_range; [apply HI|apply HI|done]).
  apply runs_bind, runs_ret, runs_bind, runs_reads.
  eapply (calmly_bind E); [exact HI|eapply calmly_keeps; [apply mint_keeps|by eapply mint_lid_spec]| |intros; eapply unchanged_calm; [exact HI|done..]].
  intros d1 l C1 I1 [(Hl & Hll & Hnone & S1 & Hepoch & Hlseq) F1].
  eapply (calmly_bind E); [exact I1|eapply calmly_keeps; [apply clock_keeps|by eapply read_clock_spec]| |intros; eapply unchanged_calm; [exact HI|done|by eapply calm_trans|done]].
  intros d2 now C2 I2 [[L2 S2] F2]. pose proof (calm_trans _ _ _ C1 C2) as C02.
  eapply (calmly_bind E); [exact I2|eapply calmly_keeps; [apply seq_keeps|eapply next_seq_spec; [exact I2|rewrite S2, S1; lia..]]| |intros; eapply unchanged_calm; [exact HI|done|by eapply calm_trans|done]].
  intros d3 seq C3 I3 [(Hs3 & S3 & L3) F3]. pose proof (calm_trans _ _ _ C02 C3) as C03. apply runs_bind, runs_reads, runs_bind, runs_reads.
  rewrite F2, F1 in F3. injection F3 as R3 K3 G3 T3 V3.
  set (sk := to_bytes _). set (r := mkRecord l lobe fs _ _).
  eapply (calmly_bind E); [exact I3|eapply calmly_keeps; [apply check_dim_keeps|eapply (check_dim_spec E E_storage); [exact I3|eexists; by apply (ca_lobes _ _ C03)|by rewrite V3]]|
    |intros; eapply unchanged_calm; [exact HI|done|by eapply calm_trans|done]].
  intros d4 [] C4 I4 [_ F4]. pose proof (calm_trans _ _ _ C03 C4) as C04. injection F4 as R4 K4 G4 T4 L4 S4.
  assert (record_ok r) as Hrec by (split; [done|]; split; [done|exact Hfs]).
  eapply (calmly_bind E); [exact I4|eapply calmly_keeps; [apply serialize_keeps|eapply (serialize_split_spec norm_sq norm_range); [exact I4|exact Hrec|]]| |intros; eapply unchanged_calm; [exact HI|done|by eapply calm_trans|done]].
  { unfold room. rewrite R4, R3. apply Hroom. }
  intros d5 [[blob column] entry] C5 I5 [(L5 & S5 & Hentry & Hback) F5]. pose proof (calm_trans _ _ _ C04 C5) as C05. injection F5 as K5 G5 T5.
  assert (is_uint 64 seq) as Hs64 by (rewrite Hs3, S2, S1; unfold is_uint; lia).
  destruct (placement_slots (lc_id c) (placement_hash None gf (bt_get lobe (db_gravity d)) anchors fs) (bt_get lobe (db_satellites d3)) fs (wrap64 now) seq Hid Hs64) as (P1 & P2 & P3 & P4).
  fold sk in P1, P2, P3, P4. pose proof (ca_anchors _ _ C05) as A5. subst keys anchors. rewrite <- A5 in Hfree |- *.
  eapply runs_mono; [eapply (commit_insert_spec d5 recs c l sk r blob column entry)|].
  - done.
  - by eapply coherent_calm.
  - unfold quiet. by rewrite (ca_ghosts _ _ C05).
  - done.
  - split; try done.
    + by apply (ca_lobes _ _ C05).
    + intros _. rewrite L5, L4, L3, L2. done.
    + rewrite P2, S5, S4, S3, Hs3. lia.
  - intros l' sk' r' Hr'. pose proof (eo_seq _ _ _ _ (di_records d recs HI _ _ _ Hr')) as H. unfold key_seq in *. rewrite P2, Hs3, S2, S1. exact H.
  - apply Forall_forall. intros x Hx. rewrite (ca_view _ _ C05); [rewrite Forall_forall in Hfree; by apply Hfree|]. intros _.
    destruct (anchor_keys_elem _ _ _ _ Hx) as (v & _ & _ & _ & ->). apply dictionary_key_head. eapply lobe_id_range; [apply HI|apply HI|done].
  - intros d' [a|e|]; [|done..]. intros (-> & I6 & Co6 & F6 & A6 & L6). injection F6 as G6 T6. exists l, sk. eexists _, c, _, seq. split; [done|]. split; [done|].
    split; [apply L6; by apply (ca_lobes _ _ C05)|]. split; [|done]. rewrite G6, G5, G4, G3, T6, T5, T4, A6, A5. done.
Qed.

(** ** A record changed *)

(** The hook and the cache after the batch of an update. *)
Lemma after_update {A} d0 d recs l sk sk0 r lobe fs wt (a : A) :
  coherent d0 recs -> db_cache d = db_cache d0 -> quiet d -> db_inv d (<[l := (sk, r)]> recs) -> lid r = l -> lid_lobe_id l = lobe ->
  exists d', (notify group_spill_limit lobe fs sk0 wt;; write_through lobe r;; mret a) d = (d', Done a) /\
    quiet d' /\ db_inv d' (<[l := (sk, r)]> recs) /\ coherent d' (<[l := (sk, r)]> recs).
Proof.
  intros Hco Hc Hq HI Hl Hlobe. destruct (notify_after d _ lobe fs sk0 wt HI Hq) as (d1 & E1 & C1 & K1 & _).
  destruct (cached_after d0 d1 recs l sk r lobe) as (d2 & E2 & I2 & Co2 & _); [done|by rewrite K1|by eapply inv_calm|done|done|].
  exists d2. rewrite (bind_done _ _ _ _ _ E1), (bind_done _ _ _ _ _ E2). split; [done|]. split; [|done].
  injection E2 as <-. unfold quiet. cbn. by rewrite (ca_ghosts _ _ C1).
Qed.

(** A record that stands under its key may stand there with other fields. *)
Lemma restored d old recs l sk r0 r blob column entry :
  db_inv d recs -> recs !! l = Some (sk, r0) -> db_view d KVectors sk = old -> lid r = lid r0 -> lobe_name r = lobe_name r0 -> record_ok r ->
  (forall k v, entry = Some (k, v) -> starts_with k [255] = true) -> reads_back (db_registry d) (lobe_of_key sk) (match column with Some x => Some x | None => old end) blob r ->
  exists c, stored_ok d c l sk r blob column entry old.
Proof.
  intros HI Hr <- El En Hrec He Hb. destruct (di_records d recs HI _ _ _ Hr) as [H1 _ H3 (c & Hc & Hk & Hlid) _ H6 H7]. exists c. split; try done; [congruence|by rewrite En|by rewrite <- Hk].
Qed.

Definition upserted (fs : Fields) (now : Z) (r0 : XRecord) : XRecord := set_fields (merged fs (fields r0)) now r0.

Lemma upsert_spec d recs l sk r0 fs :
  let lobe := lobe_name r0 in
  db_inv d recs -> coherent d recs -> quiet d -> recs !! l = Some (sk, r0) -> Forall field_ok fs -> names_room d (blen (fields r0) + blen fs) ->
  (forall now, same_anchors d r0 (upserted fs now r0)) -> (is_Some (bt_get lobe (db_vectors d)) -> forall s, E (InvalidQuery s)) ->
  runs (execute_upsert norm_sq group_spill_limit l fs lobe) d (fun d' o =>
    match o with
    | Done a => a = AOk (Some l) (updated_message l) /\ exists now, db_inv d' (<[l := (sk, upserted fs now r0)]> recs) /\ coherent d' (<[l := (sk, upserted fs now r0)]> recs)
    | Failed e => unchanged d' recs e
    | Panicked => False
    end).
Proof.
  intros lobe HI Hco Hq Hr Hfs Hroom Hsame HE. pose proof (di_records d recs HI _ _ _ Hr) as He. pose proof (lid_range d recs l sk r0 HI Hr) as Hl.
  pose proof (eo_lobe _ _ _ _ He) as (c & Hc & Hk & Hlid).
  unfold execute_upsert, runs. rewrite (bind_done _ _ d d (recs !! l)).
  2:{ apply load_record_spec; [done..|]. intros sk' r' blob Hr' Hb. assert (r' = r0) as -> by congruence. by eapply hydrated_entry. }
  rewrite Hr, (bind_done (lift _) _ d d (sk, r0)) by done.
  change (runs (now ← read_clock;
    let record := upserted fs (as_i64 now) r0 in
    search ← reads (search_field lobe);
    check_dim lobe search record;;
    '(blob, column, entry) ← serialize_split norm_sq search (lobe_of_key sk) record;
    commit_batch "put update commit failed: " ([BPut KSpatial sk blob] ++ opt_put KVectors (pair sk <$> column) ++ opt_put KDictionary entry);;
    notify group_spill_limit (lobe_of_key sk) (fields record) sk (WUpdate (fields r0) sk);;
    write_through (lobe_of_key sk) record;;
    mret (AOk (Some l) (updated_message l))) d (fun d' o =>
    match o with
    | Done a => a = AOk (Some l) (updated_message l) /\ exists now, db_inv d' (<[l := (sk, upserted fs now r0)]> recs) /\ coherent d' (<[l := (sk, upserted fs now r0)]> recs)
    | Failed e => unchanged d' recs e
    | Panicked => False
    end)).
  eapply (calmly_bind E); [exact HI|eapply calmly_keeps; [apply clock_keeps|by eapply read_clock_spec]| |intros; eapply unchanged_calm; [exact HI|done..]].
  intros d1 now C1 I1 [_ F1]. injection F1 as R1 K1 _ _ V1. apply runs_bind, runs_reads. set (r := upserted fs (as_i64 now) r0).
  eapply (calmly_bind E); [exact I1|eapply calmly_keeps; [apply check_dim_keeps|eapply (check_dim_spec E E_storage); [exact I1|eexists; by apply (ca_lobes _ _ C1)|by rewrite V1]]|
    |intros; eapply unchanged_calm; [exact HI|done|by eapply calm_trans|done]].
  intros d2 [] C2 I2 [_ F2]. pose proof (calm_trans _ _ _ C1 C2) as C02. injection F2 as R2 K2 _ _ _ _.
  destruct (eo_record _ _ _ _ He) as (_ & Hs0 & Hf0). destruct (merged_ok fs (fields r0) Hs0 Hf0 Hfs) as (M1 & M2 & M3).
  assert (record_ok r) as Hrec by (split; [by rewrite (eo_lid _ _ _ _ He : lid r = l)|]; by split).
  eapply (calmly_bind E); [exact I2|eapply calmly_keeps; [apply serialize_keeps|eapply (serialize_split_spec norm_sq norm_range); [exact I2|exact Hrec|]]| |intros; eapply unchanged_calm; [exact HI|done|by eapply calm_trans|done]].
  { unfold room. rewrite R2, R1. specialize (Hroom (lobe_of_key sk)). change (fields r) with (merged fs (fields r0)). lia. }
  intros d3 [[blob column] entry] C3 I3 [(_ & _ & Hentry & Hback) F3]. pose proof (calm_trans _ _ _ C02 C3) as C03. injection F3 as K3 _ _.
  destruct (restored d3 _ recs l sk r0 r blob column entry I3 Hr eq_refl eq_refl eq_refl Hrec Hentry (Hback _)) as [c3 Hst].
  apply runs_bind. eapply runs_mono; [by eapply (commit_spec E E_storage)|]. intros d4 o (w & t & -> & Hok & Ho).
  destruct o as [[]|e|]; [| |done]; [|destruct Ho; eapply unchanged_calm; [exact HI|done|by eapply calm_trans|done]].
  assert (db_inv (with_store w t d3) (<[l := (sk, r)]> recs)) as I4.
  { eapply update_inv; [exact I3|exact Hr|done| |exact Hst|done|done]. intros a s. rewrite (ca_anchors _ _ C03). apply Hsame. }
  destruct (after_update d (with_store w t d3) recs l sk sk r (lobe_of_key sk) (fields r) (WUpdate (fields r0) sk) (AOk (Some l) (updated_message l))) as (d5 & E5 & _ & I5 & Co5).
  { done. } { cbn. by rewrite K3, K2, K1. } { unfold quiet. cbn. by rewrite (ca_ghosts _ _ C03). } { done. } { apply He. } { by rewrite Hlid, Hk. }
  unfold runs. rewrite E5. cbn. split; [done|]. by exists (as_i64 now).
Qed.

(** ** Anchors that are taken *)

(** The fields have the text [s] in the anchor [a]. *)
Definition has_anchor (fs : Fields) (a s : bytes) : Prop := exists v, bt_get a fs = Some v /\ value_to_anchor_string v = s.

Lemma conflict_owner d recs lobe c fs name s k v :
  db_inv d recs -> lobe_get lobe (db_lobes d) = Some c -> (name, s, k) ∈ anchor_keys (get_anchors (db_anchors d) lobe) (lc_id c) fs -> db_view d KDictionary k = Some v ->
  name ∈ get_anchors (db_anchors d) lobe /\ has_anchor fs name s /\ exists l sk r0, recs !! l = Some (sk, r0) /\ lobe_name r0 = lobe /\ carries (recs !! l) lobe name s = true /\ v = lid_to_bytes l.
Proof.
  intros HI Hc Hin Hv. destruct (anchor_keys_elem _ _ _ _ Hin) as (x & Ha & Hx & Hs & Hk). cbn in Ha, Hx, Hs, Hk. subst k.
  split; [done|]. split; [by exists x|]. apply (di_anchors d recs HI lobe c name s v Hc Ha) in Hv as (l & Hl & ->).
  destruct (recs !! l) as [[sk r0]|] eqn:Hr; [|done]. exists l, sk, r0. rewrite Hr. split; [done|]. split; [|done]. cbn in Hl. by apply andb_true_iff in Hl as [?%beqb_eq _].
Qed.

Lemma free_anchors d recs lobe c fs :
  db_inv d recs -> lobe_get lobe (db_lobes d) = Some c -> Forall (fun x => db_view d KDictionary x.2 = None) (anchor_keys (get_anchors (db_anchors d) lobe) (lc_id c) fs) ->
  forall a s l, a ∈ get_anchors (db_anchors d) lobe -> has_anchor fs a s -> carries (recs !! l) lobe a s = false.
Proof.
  intros HI Hc Hfree a s l Ha (v & Hv & Hs). apply not_true_iff_false. intros Hcar.
  assert (db_view d KDictionary (dictionary_key (lc_id c) a s) = Some (lid_to_bytes l)) as E1 by (apply (di_anchors d recs HI lobe); eauto).
  pose proof (anchor_keys_spec d recs lobe c lobe c a s [] (mkRecord 0 lobe fs 0 0) HI eq_refl Hc Hc Ha) as Hk. cbn [carries fields lobe_name] in Hk.
  rewrite beqb_refl, Hv, Hs, beqb_refl in Hk. cbn in Hk. apply existsb_exists in Hk as (x & Hx & Ex%beqb_eq). apply list_elem_of_In, list_elem_of_fmap in Hx as (y & Ey & Hy).
  rewrite Forall_forall in Hfree. rewrite Ex, Ey, (Hfree y Hy) in E1. done.
Qed.

(** With one anchor, the fields that hit it agree with the record on it. *)
Lemma one_anchor_same d recs l sk r0 fs now name s :
  recs !! l = Some (sk, r0) -> blen (get_anchors (db_anchors d) (lobe_name r0)) <= 1 -> name ∈ get_anchors (db_anchors d) (lobe_name r0) -> bt_sorted fs ->
  has_anchor fs name s -> carries (recs !! l) (lobe_name r0) name s = true -> same_anchors d r0 (upserted fs now r0).
Proof.
  intros Hr Hone Hname Hsort (v & Hv & Hs) Hcar a s' Ha.
  assert (a = name) as -> by (destruct (get_anchors _ _) as [|x [|]]; [by apply elem_of_nil in Ha| |unfold blen in Hone; cbn in Hone; lia];
    apply list_elem_of_singleton in Ha; apply list_elem_of_singleton in Hname; congruence).
  rewrite Hr in Hcar. cbn [carries upserted set_fields fields lobe_name] in *. rewrite merged_get, Hv, Hs by done. rewrite beqb_refl in *. cbn in Hcar.
  destruct (bt_get name (fields r0)) as [v0|]; [|done]. by apply beqb_eq in Hcar as ->.
Qed.

(** A conflict on the only anchor, with ON CONFLICT UPDATE. *)
Definition put_updated d d' recs (lobe : bytes) (fs : Fields) (answer : Answer) : Prop :=
  exists l sk r0 now a s,
    recs !! l = Some (sk, r0) /\ a ∈ get_anchors (db_anchors d) lobe /\ has_anchor fs a s /\ carries (recs !! l) lobe a s = true /\ answer = AOk (Some l) (updated_message l) /\
    db_inv d' (<[l := (sk, upserted fs now r0)]> recs) /\ coherent d' (<[l := (sk, upserted fs now r0)]> recs).

Lemma upsert_conflict d recs l sk r0 fs name s :
  let lobe := lobe_name r0 in
  db_inv d recs -> coherent d recs -> quiet d -> recs !! l = Some (sk, r0) -> bt_sorted fs -> Forall field_ok fs -> names_room d (blen (fields r0) + blen fs) ->
  blen (get_anchors (db_anchors d) lobe) <= 1 -> name ∈ get_anchors (db_anchors d) lobe -> has_anchor fs name s -> carries (recs !! l) lobe name s = true ->
  (is_Some (bt_get lobe (db_vectors d)) -> forall s, E (InvalidQuery s)) ->
  runs (execute_upsert norm_sq group_spill_limit l fs lobe) d (fun d' o =>
    match o with Done a => put_updated d d' recs lobe fs a | Failed e => unchanged d' recs e | Panicked => False end).
Proof.
  intros lobe HI Hco Hq Hr Hs Hfs Hroom Hone Ha Hhas Hcar HE.
  eapply runs_mono; [eapply upsert_spec; try done; intros now; by eapply one_anchor_same|].
  intros d' [a|e|]; [|done..]. intros (-> & now & ? & ?). exists l, sk, r0, now, name, s. done.
Qed.

(** The errors of PUT. *)
Definition put_error d recs (stmt : PutStmt) (fs : Fields) (gf : list (bytes * Value)) (e : XyzError) : Prop :=
  let lobe := pt_lobe stmt in
  match e with
  | DuplicateAnchor a s lobe' owner => lobe' = lobe /\ pt_on_conflict stmt = None /\ a ∈ get_anchors (db_anchors d) lobe /\ has_anchor fs a s /\ exists l, carries (recs !! l) lobe a s = true /\ owner = lid_display l
  | InvalidQuery _ => 2 <= blen gf \/ is_Some (bt_get lobe (db_vectors d))
  | Storage _ => ~ reliable (W := W) (D := D)
  | _ => False
  end.

End db_put.

(** ** The statement *)

