(* ===== verification/DbSet.v ===== *)
(** * What SET does

    The fields of each record of the selection are written over, and a record whose
    bucket or satellite changes with them moves to a new key; no other record changes. *)

From S2P Require Import Prelude ByteOrder BTree Types Block Paths Tree Value FieldDict Lid Filters FilterEq.
From S2P Require Import Record FieldRegistry SpatialKey SortEncoding Aggregate GroupKey Rollup Ghost Gravity Router Scan ScanPages Registries Db Mutations DbInv DbReads DbDelete DbChange DbPut.

(** ** The names a serialization adds *)

Lemma get_or_create_id_grows d name : blen (id_to_name (get_or_create_id d name).2) <= blen (id_to_name d) + 1.
Proof. unfold get_or_create_id. destruct (name_to_id d !! name); cbn; [lia|]. rewrite blen_app. unfold blen. cbn. lia. Qed.

Lemma v5_fields_grow excluded fs m d : blen (id_to_name (v5_fields excluded fs m d).2) <= blen (id_to_name d) + blen fs.
Proof.
  revert m d. induction fs as [|[name v] fs IH]; intros m d; [unfold blen; cbn; lia|]. assert (blen ((name, v) :: fs) = blen fs + 1) as -> by (unfold blen; cbn; lia).
  cbn [v5_fields]. case_bool_decide; [specialize (IH m d); lia|]. pose proof (get_or_create_id_grows d name) as Hg. destruct (get_or_create_id d name) as [[id b] d1]. cbn in Hg.
  specialize (IH (bt_insert id v m) d1). lia.
Qed.

Lemma v5_grows {PC : Postcard} norm_sq r d sf : blen (id_to_name (serialize_record_v5 norm_sq r d sf).2) <= blen (id_to_name d) + blen (fields r) + 1.
Proof.
  unfold serialize_record_v5. assert (blen (id_to_name (search_vec r d sf).2) <= blen (id_to_name d) + 1) as Hs.
  { unfold search_vec. destruct sf as [name|]; cbn; [|lia]. destruct (bt_get name (fields r)) as [[]|]; cbn; try lia.
    pose proof (get_or_create_id_grows d name) as Hg. by destruct (get_or_create_id d name) as [[id b] d1]. }
  destruct (search_vec r d sf) as [sv d1]. pose proof (v5_fields_grow ((fun x => fst (fst x)) <$> sv) (fields r) [] d1) as Hf.
  destruct (v5_fields _ _ _ _) as [m d2]. cbn in *. lia.
Qed.

(** ** Assignments *)

(** The values the literals of a statement stand for. *)
Definition assigned (assignments : list (bytes * Literal)) (values : list (bytes * Value)) : Prop :=
  Forall2 (fun kl kv => kl.1 = kv.1 /\ literal_to_value kl.2 = Some kv.2) assignments values.

Lemma assign_merged assignments values fs : assigned assignments values -> assign assignments fs = Some (merged values fs).
Proof.
  intros H. revert fs. induction H as [|[k lit] [k' v] la lv [Hk Hv] _ IH]; intros fs; [done|]. cbn in Hk, Hv. subst k'. cbn [assign]. rewrite Hv. apply IH.
Qed.

Lemma merged_other values fs a : a ∉ values.*1 -> bt_get a (merged values fs) = bt_get a fs.
Proof.
  revert fs. induction values as [|[k v] values IH]; intros fs Ha; [done|]. cbn in Ha. apply not_elem_of_cons in Ha as [Hk Ha].
  change (merged ((k, v) :: values) fs) with (merged values (bt_insert k v fs)). rewrite IH, bt_get_insert by done.
  destruct (ocmp a k) eqn:E; try done. by apply ocmp_eq in E.
Qed.

Section db_set.
Context {W D : Type} {RD : Reads D} {RL : ReadsLaws D} {TA : TreeApi D} {CM : Commit W D} {CL : CommitLaws W D}.
Context {XH : Xxh3} {CT : CursorText} {LT : LiteralText} {RS : RecordSize} {PC : Postcard} {PL : PostcardLaws PC} {NC : NamesCodec}.
Context {RP : RollupPostcard} {VT : ValueText} {VP : ValuePostcard} {GT : GravityText} {RC : RegistryCodec} {SP : SpecPostcard}.
Context (norm_sq : list Z -> Z) (group_spill_limit : Z).
Hypothesis norm_range : forall v, is_uint 64 (norm_sq v).
Context (E : XyzError -> Prop).
Hypothesis E_storage : forall s, ~ reliable (W := W) (D := D) -> E (Storage s).

Abbreviation db := (Db W D).
Implicit Types (d : db) (recs : Records_).

Definition names_of d (id : Z) : Z := blen (id_to_name (dict_of (db_registry d) id)).

Lemma serialize_grows search lobe r d id : names_of (serialize_split norm_sq search lobe r d).1 id <= names_of d id + blen (fields r) + 1.
Proof.
  unfold serialize_split. destruct (searchable search r) as [[f v]|]; [|unfold names_of, blen; cbn; lia]. unfold serialize_record_v5_durable, names_of.
  pose proof (v5_grows norm_sq r (dict_of (db_registry d) lobe) (Some f)) as H. destruct (serialize_record_v5 _ _ _ _) as [[blob col] dict]. cbn in *.
  unfold dict_of at 1. destruct (decide (lobe = id)) as [<-|Hne]; [by rewrite lookup_insert_eq|]. rewrite lookup_insert_ne by done.
  change (default FieldDict_new (db_registry d !! id)) with (dict_of (db_registry d) id). unfold blen. lia.
Qed.

(** The record stands in the bucket of its values. *)
Definition bucketed d (sk : bytes) (r : XRecord) : Prop :=
  gravity_hash_from_bytes sk = gravity_hash_for (bt_get (lobe_name r) (db_gravity d)) (get_anchors (db_anchors d) (lobe_name r)) (fields r).

Definition set_to (values : list (bytes * Value)) (now : Z) (r : XRecord) : XRecord := set_fields (merged values (fields r)) now r.

Lemma set_same_anchors d (assignments : list (bytes * Literal)) values now r :
  assigned assignments values -> existsb (fun kv => is_anchor (db_anchors d) (lobe_name r) kv.1) assignments = false -> same_anchors d r (set_to values now r).
Proof.
  intros Hv Hno a s Ha. cbn [carries set_to set_fields fields lobe_name]. rewrite merged_other; [done|]. intros ([k v] & -> & Hin)%list_elem_of_fmap. cbn in Ha.
  apply list_elem_of_lookup in Hin as (i & Hi). destruct (Forall2_lookup_r _ _ _ _ _ Hv Hi) as ([k' lit] & Hi' & Hk & _). cbn in Hk. subst k'.
  apply not_true_iff_false in Hno. apply Hno, existsb_exists. exists (k, lit). split; [apply list_elem_of_In; by eapply list_elem_of_lookup_2|]. by apply is_anchor_elem.
Qed.

(** What one step of the loop leaves. *)
Record set_step d d' recs (l : LID) (sk : bytes) (r r' : XRecord) : Prop := {
  st_quiet : quiet d';
  st_gravity : frame2 d' = frame2 d;
  st_anchors : db_anchors d' = db_anchors d;
  st_seq : db_seq d <= db_seq d' <= db_seq d + 1;
  st_names id : names_of d' id <= names_of d id + blen (fields r') + 1;
  st_bucket : bucketed d sk r';
  st_inv : db_inv d' (<[l := (sk, r')]> recs);
  st_coherent : coherent d' (<[l := (sk, r')]> recs);
}.

Lemma gravity_range spec anchors fs : is_uint 48 (gravity_hash_for spec anchors fs).
Proof. exact (placement_hash_range [] spec anchors fs). Qed.

(** The batch of a SET, in place or to a new key. *)
Lemma set_commit_spec d0 d recs l sk r r' blob column entry :
  db_inv d recs -> coherent d0 recs -> db_cache d = db_cache d0 -> quiet d -> recs !! l = Some (sk, r) -> lid r' = lid r -> lobe_name r' = lobe_name r ->
  record_ok r' -> same_anchors d r r' -> 0 <= db_seq d < 2 ^ 64 - 1 ->
  (forall k v, entry = Some (k, v) -> starts_with k [255] = true) ->
  (forall old, reads_back (db_registry d) (lobe_of_key sk) (match column with Some x => Some x | None => old end) blob r') -> forall now,
  runs (match moved_key d (lobe_name r) sk (fields r') now (db_seq d) with
        | Some new_sk =>
          next_record_seq;;
          commit_batch "set commit failed: "
            ([BRemove KSpatial sk; BPut KSpatial new_sk blob; BPut KIdentity (lid_to_bytes l) new_sk; BRemove KVectors sk] ++
             opt_put KVectors (pair new_sk <$> column) ++ opt_put KDictionary entry);;
          mret new_sk
        | None =>
          commit_batch "set commit failed: " ([BPut KSpatial sk blob] ++ opt_put KVectors (pair sk <$> column) ++ opt_put KDictionary entry);;
          mret sk
        end) d (fun d' o =>
    match o with
    | Done final_sk => db_inv d' (<[l := (final_sk, r')]> recs) /\ db_cache d' = db_cache d /\ frame2 d' = frame2 d /\ db_anchors d' = db_anchors d /\
        gl_shards (db_ghosts d') = gl_shards (db_ghosts d) /\ db_registry d' = db_registry d /\ db_seq d <= db_seq d' <= db_seq d + 1 /\ bucketed d final_sk r'
    | Failed e => calm d d' /\ E e
    | Panicked => False
    end).
Proof.
  intros HI Hco Hca Hq Hr Elid En Hrec Hsame Hseq Hentry Hback now. pose proof (di_records d recs HI _ _ _ Hr) as He.
  destruct (eo_lobe _ _ _ _ He) as (c & Hc & Hk & Hlid). assert (is_uint 16 (lc_id c)) as Hid by (eapply lobe_id_range; [apply HI|apply HI|done]).
  unfold moved_key. set (gh := gravity_hash_for _ _ _). destruct (negb (gh =? gravity_hash_from_bytes sk) || _) eqn:Em.
  - set (new_sk := to_bytes _).
    destruct (placement_slots (lobe_of_key sk) gh (bt_get (lobe_name r) (db_satellites d)) (fields r') (wrap64 now) (db_seq d)) as (P1 & P2 & P3 & P4);
      [by rewrite Hk|unfold is_uint; lia|]. fold new_sk in P1, P2, P3, P4.
    eapply (calmly_bind E); [exact HI|eapply calmly_keeps; [apply seq_keeps|eapply next_seq_spec; [exact HI|lia..]]| |done].
    intros d1 s C1 I1 [(_ & S1 & L1) F1]. injection F1 as R1 K1 G1 T1 _.
    apply runs_bind. eapply runs_mono; [by eapply (commit_spec E E_storage)|]. intros d2 o (w & t & -> & Hok & Ho).
    destruct o as [[]|e|]; [|destruct Ho; split; [by eapply calm_trans|done]|done]. apply runs_ret. cbn. split.
    + eapply move_inv; [exact I1|exact Hr|done| | | |done|done].
      * intros a s'. rewrite (ca_anchors _ _ C1). apply Hsame.
      * split; try done.
        -- rewrite Elid. apply He.
        -- rewrite En. by apply (ca_lobes _ _ C1).
        -- by rewrite P1.
        -- rewrite L1. apply He.
        -- rewrite P2, S1. lia.
        -- rewrite R1, <- Hk. apply Hback.
      * intros l' sk' r1 Hr'. pose proof (eo_seq _ _ _ _ (di_records d recs HI _ _ _ Hr')) as H. unfold key_seq in *. rewrite P2. exact H.
    + cbn. split; [done|]. split; [unfold frame2; cbn; by rewrite G1, T1|]. split; [apply C1|]. split; [apply C1|]. split; [done|]. split; [lia|].
      unfold bucketed. rewrite En. subst new_sk. rewrite gravity_hash_at; unfold placement_key;
        destruct (satellite_sat_for (bt_get (lobe_name r) (db_satellites d)) (fields r')); cbn; rewrite mask_48; try done; apply gravity_range.
  - apply orb_false_iff in Em as [Eg%negb_false_iff%Z.eqb_eq _].
    destruct (restored d _ recs l sk r r' blob column entry HI Hr eq_refl Elid En Hrec Hentry (Hback _)) as [c' Hst].
    apply runs_bind. eapply runs_mono; [by eapply (commit_spec E E_storage)|]. intros d2 o (w & t & -> & Hok & Ho).
    destruct o as [[]|e|]; [|done|done]. apply runs_ret. split; [by eapply update_inv|]. cbn. do 5 (split; [done|]). split; [lia|].
    unfold bucketed. rewrite En. done.
Qed.

Lemma set_record_spec d recs assignments values now l sk r :
  db_inv d recs -> coherent d recs -> quiet d -> recs !! l = Some (sk, r) -> assigned assignments values -> Forall field_ok values ->
  existsb (fun kv => is_anchor (db_anchors d) (lobe_name r) kv.1) assignments = false ->
  names_room d (blen (fields r) + blen values) -> 0 <= db_seq d < 2 ^ 64 - 1 ->
  runs (set_record norm_sq group_spill_limit assignments now r) d (fun d' o =>
    match o with
    | Done b => b = true /\ exists sk', set_step d d' recs l sk' r (set_to values now r)
    | Failed e => unchanged E d' recs e
    | Panicked => False
    end).
Proof.
  intros HI Hco Hq Hr Hv Hvs Hno Hroom Hseq. pose proof (di_records d recs HI _ _ _ Hr) as He. pose proof (eo_lid _ _ _ _ He) as Hl.
  unfold set_record, runs. rewrite Hl, (bind_done _ _ d d (recs !! l)).
  2:{ apply load_record_spec; [done|by eapply lid_range|]. intros sk' r' blob Hr' Hb. assert (r' = r) as -> by congruence. by eapply hydrated_entry. }
  rewrite Hr, (bind_done (lift _) _ d d (merged values (fields r))) by (by rewrite (assign_merged _ _ _ Hv)).
  rewrite (bind_done (reads _) _ d d (search_field (lobe_name r) d)) by done. change (set_fields (merged values (fields r)) now r) with (set_to values now r).
  set (r' := set_to values now r). destruct (eo_record _ _ _ _ He) as (Hu & Hs0 & Hf0). destruct (merged_ok values (fields r) Hs0 Hf0 Hvs) as (M1 & M2 & M3).
  assert (record_ok r') as Hrec by (split; [done|]; by split).
  match goal with |- match (?m d).2 with _ => _ end => change (runs m d (fun d' o => match o with
    | Done b => b = true /\ exists sk', set_step d d' recs l sk' r r' | Failed e => unchanged E d' recs e | Panicked => False end)) end.
  eapply (calmly_bind E); [exact HI|eapply calmly_keeps; [apply (serialize_keeps norm_sq (search_field (lobe_name r) d) (lobe_of_key sk) r')|]| |intros; eapply unchanged_calm; [exact HI|done..]].
  { pose proof (serialize_split_spec norm_sq norm_range E d recs (search_field (lobe_name r) d) (lobe_of_key sk) r' HI Hrec) as HS.
    pose proof (serialize_grows (search_field (lobe_name r) d) (lobe_of_key sk) r' d) as HG.
    apply (calmly_mono E _ _ (fun d' x => (let '(blob, column, entry) := x in db_lid d' = db_lid d /\ db_seq d' = db_seq d /\
      (forall k v, entry = Some (k, v) -> starts_with k [255] = true) /\ forall old, reads_back (db_registry d') (lobe_of_key sk) (match column with Some c => Some c | None => old end) blob r') /\
      forall id, names_of d' id <= names_of d id + blen (fields r') + 1)); [|intros d' x _ H; exact H].
    assert (room (db_registry d) (lobe_of_key sk) r') as Hrm by (unfold room; specialize (Hroom (lobe_of_key sk)); change (fields r') with (merged values (fields r)); lia).
    specialize (HS Hrm). unfold calmly, runs in *. destruct (serialize_split _ _ _ _ d) as [d' [x|e|]]; cbn in *; [|tauto..]. destruct HS. done. }
  intros d1 [[blob column] entry] C1 I1 [[(_ & S1 & Hentry & Hback) HG] F1]. injection F1 as K1 G1 T1. apply runs_bind, runs_reads. cbn [id].
  apply runs_bind. change (merged values (fields r)) with (fields r').
  eapply runs_mono; [eapply (set_commit_spec d d1 recs l sk r r' blob column entry); try done|].
  { unfold quiet. by rewrite (ca_ghosts _ _ C1). }
  { intros a s. rewrite (ca_anchors _ _ C1). by eapply set_same_anchors. }
  { by rewrite S1. }
  intros d2 [fsk|e|]; [|intros [C2 He']; eapply unchanged_calm; [exact HI|done|by eapply calm_trans|done]|done].
  intros (I2 & K2 & G2 & A2 & Q2 & R2 & S2 & B2). destruct (eo_lobe _ _ _ _ He) as (c & _ & Hk & Hlid).
  assert (keeps (fun d => (frame2 d, db_anchors d, db_seq d, db_registry d)) (notify group_spill_limit (lobe_of_key sk) (fields r') fsk (WUpdate (fields r) sk))) as Hkeep
    by (intros x; unfold notify; by destruct (notify_write _ _ _ _ _ _)).
  destruct (after_update group_spill_limit d d2 recs l fsk fsk r' (lobe_of_key sk) (fields r') (WUpdate (fields r) sk) true) as (d3 & E3 & Q3 & I3 & Co3).
  { done. } { by rewrite K2. } { unfold quiet. by rewrite Q2, (ca_ghosts _ _ C1). } { done. } { done. } { by rewrite Hlid, Hk. }
  assert (frame2 d3 = frame2 d2 /\ db_anchors d3 = db_anchors d2 /\ db_seq d3 = db_seq d2 /\ db_registry d3 = db_registry d2) as (F3 & A3 & S3 & R3).
  { specialize (Hkeep d2). unfold mbind, Cmd_bind in E3. destruct (notify _ _ _ _ _ d2) as [dn [[]|e|]]; [|done..]. cbn in E3, Hkeep. injection E3 as <-. injection Hkeep as H1 H2 H3 H4 H5. unfold frame2. cbn. by rewrite H1, H2, H3, H4, H5. }
  unfold runs. rewrite E3. cbn. split; [done|]. exists fsk. unfold frame2 in *. rewrite G1, T1 in G2. split; try done.
  - unfold frame2. by rewrite F3, G2.
  - by rewrite A3, A2, (ca_anchors _ _ C1).
  - rewrite S3, <- S1. done.
  - intros id. unfold names_of in *. rewrite R3, R2. apply HG.
  - unfold bucketed in *. by rewrite B2, G1, (ca_anchors _ _ C1).
Qed.

(** ** The loop *)

(** The names and the keys the records of a list may take. *)
Definition set_cost (values : list (bytes * Value)) (rs : list XRecord) : Z := foldr (fun r n => blen (fields r) + blen values + 1 + n) 0 rs.

Definition set_changes d (values : list (bytes * Value)) (now : Z) recs recs' (rs : list XRecord) : Prop :=
  forall l, (exists sk r sk', r ∈ rs /\ recs !! l = Some (sk, r) /\ recs' !! l = Some (sk', set_to values now r) /\ bucketed d sk' (set_to values now r)) \/
            (l ∉ lid <$> rs /\ recs' !! l = recs !! l).

Lemma set_cost_nonneg values rs : 0 <= set_cost values rs.
Proof. unfold set_cost. induction rs as [|r rs IH]; cbn; [done|]. pose proof (blen_nonneg (fields r)). pose proof (blen_nonneg values). lia. Qed.

Lemma set_changes_cons d d1 values now recs recs' l sk sk1 r rs :
  recs !! l = Some (sk, r) -> lid r = l -> l ∉ lid <$> rs -> frame2 d1 = frame2 d -> db_anchors d1 = db_anchors d -> bucketed d sk1 (set_to values now r) ->
  set_changes d1 values now (<[l := (sk1, set_to values now r)]> recs) recs' rs -> set_changes d values now recs recs' (r :: rs).
Proof.
  intros Hr Hl Hni F A B H l'. unfold frame2 in F. injection F as G _. destruct (H l') as [(sk2 & r2 & sk3 & Hin & H1 & H2 & H3)|[Hn H1]].
  - destruct (decide (l = l')) as [<-|Hne].
    { rewrite lookup_insert_eq in H1. injection H1 as _ E1. exfalso. apply Hni, list_elem_of_fmap. exists r2. split; [|done]. by rewrite <- E1. }
    rewrite lookup_insert_ne in H1 by done. left. exists sk2, r2, sk3. split; [by right|]. do 2 (split; [done|]). unfold bucketed in *. by rewrite H3, G, A.
  - destruct (decide (l = l')) as [<-|Hne].
    + rewrite lookup_insert_eq in H1. left. exists sk, r, sk1. split; [left|]. done.
    + rewrite lookup_insert_ne in H1 by done. right. split; [|done]. cbn. rewrite not_elem_of_cons. split; [congruence|done].
Qed.

Lemma set_loop_spec d recs assignments values now rs count :
  db_inv d recs -> coherent d recs -> quiet d -> (forall r, r ∈ rs -> exists sk, recs !! lid r = Some (sk, r)) -> NoDup (lid <$> rs) ->
  assigned assignments values -> Forall field_ok values -> sets_anchor (db_anchors d) assignments rs = false ->
  (forall id, names_of d id + set_cost values rs <= 2 ^ 16) -> 0 <= db_seq d -> db_seq d + blen rs < 2 ^ 64 ->
  runs (count_loop (set_record norm_sq group_spill_limit assignments now) rs count) d (fun d' o =>
    match o with
    | Done n => n = count + blen rs /\ exists recs', set_changes d values now recs recs' rs /\ db_inv d' recs' /\ coherent d' recs'
    | Failed e => E e /\ exists some recs', some `prefix_of` rs /\ set_changes d values now recs recs' some /\ db_inv d' recs' /\ coherent d' recs'
    | Panicked => False
    end).
Proof.
  revert d recs count. induction rs as [|r rs IH]; intros d recs count HI Hco Hq Hin Hnd Hv Hvs Hno Hnames Hs0 Hs1.
  { split; [unfold blen; cbn; lia|]. exists recs. split; [|done]. intros l. right. split; [apply not_elem_of_nil|done]. }
  cbn [count_loop]. destruct (Hin r) as [sk Hr]; [left|]. cbn in Hnd. inversion Hnd as [|? ? Hni Hnd']; subst. unfold sets_anchor in Hno. cbn [existsb] in Hno. apply orb_false_iff in Hno as [Hno1 Hno2].
  assert (blen (r :: rs) = blen rs + 1) as Hlen by (unfold blen; cbn; lia). pose proof (set_cost_nonneg values rs) as Hcost. cbn [set_cost foldr] in Hnames. fold (set_cost values rs) in Hnames.
  apply runs_bind. eapply runs_mono; [eapply (set_record_spec d recs assignments values now (lid r) sk r); try done|].
  { intros id. specialize (Hnames id). unfold names_of in Hnames. lia. }
  { unfold blen in *. lia. }
  intros d1 [b|e|]; [|intros (? & ? & ?); split; [done|]; exists [], recs; split; [apply prefix_nil|]; split; [|done]; intros l; right; split; [apply not_elem_of_nil|done]|done].
  intros (-> & sk1 & [S1 S2 S3 S4 S5 S6 S7 S8]).
  destruct (eo_record _ _ _ _ (di_records d recs HI _ _ _ Hr)) as (_ & Hso & Hfo). destruct (merged_ok values (fields r) Hso Hfo Hvs) as (_ & _ & M3).
  eapply runs_mono; [apply IH; try done|].
  - intros r' Hr'. destruct (Hin r') as [sk' Hsk']; [by right|]. exists sk'. rewrite lookup_insert_ne; [done|]. intros E'. apply Hni. rewrite E'. by apply list_elem_of_fmap_2.
  - unfold sets_anchor. by rewrite S3.
  - intros id. specialize (Hnames id). specialize (S5 id). change (fields (set_to values now r)) with (merged values (fields r)) in S5. lia.
  - lia.
  - lia.
  - intros d2 [n|e|]; [|intros (He & some & recs' & Hp & Hch & ?); split; [done|]; exists (r :: some), recs'; split; [by apply prefix_cons|]; split; [|done]|done].
    + intros (-> & recs' & Hch & ?). split; [lia|]. exists recs'. split; [|done]. by eapply set_changes_cons.
    + eapply set_changes_cons; try done. intros Hx. apply Hni. destruct Hp as [rest ->]. rewrite fmap_app. apply elem_of_app. by left.
Qed.

End db_set.

