(* ===== verification/DbSample.v ===== *)
(** * Statements run

    The trees as sorted lists, the statements run on small databases for the theorems,
    and runs in which the code does not do what it means to. *)

From S2P Require Import Prelude Types Block Bloom Paths Tree ByteOrder BTree Value SortEncoding FieldDict Lid Record FieldRegistry.
From S2P Require Import SpatialKey SpatialScan Filters Aggregate GroupKey Rollup Ghost GhostSample Gravity FilterEq Router Scan ScanPages.
From S2P Require Import ScanSample Registries Db Mutations DbInv DbReads DbDelete DbChange DbPut DbSet.

(** * Statements on a small database

    The trees as sorted lists, a database with a lobe, an anchor and a gravity field,
    and the statements run on it. *)

#[export] Existing Instances list_reads list_reads_laws sample_cursor_text sample_xxh3 sample_text sample_gravity_text sample_value_postcard.
#[export] Existing Instances sample_postcard sample_names sample_rollup_postcard.

(** ** Trees as sorted lists *)

Definition row_remove (k : bytes) (rows : list (bytes * bytes)) : list (bytes * bytes) := filter (fun kv => kv.1 <> k) rows.

Lemma row_get_bt k (rows : row_list) : row_get k rows = bt_get k rows.
Proof.
  unfold row_get. induction rows as [|[k' v] rows IH]; [done|]. cbn [List.find bt_get fst]. destruct (ocmp k k') eqn:E.
  - apply ocmp_eq in E as ->. by rewrite beqb_refl.
  - rewrite (proj2 (beqb_neq _ _)); [done|]. intros ->. by rewrite ocmp_refl in E.
  - rewrite (proj2 (beqb_neq _ _)); [done|]. intros ->. by rewrite ocmp_refl in E.
Qed.

Lemma row_get_put k k' v (rows : row_list) : row_get k' (bt_insert k v rows) = if beqb k' k then Some v else row_get k' rows.
Proof.
  rewrite !row_get_bt, bt_get_insert. destruct (ocmp k' k) eqn:E.
  - apply ocmp_eq in E as ->. by rewrite beqb_refl.
  - rewrite (proj2 (beqb_neq _ _)); [done|]. intros ->. by rewrite ocmp_refl in E.
  - rewrite (proj2 (beqb_neq _ _)); [done|]. intros ->. by rewrite ocmp_refl in E.
Qed.

Lemma row_get_remove k k' rows : row_get k' (row_remove k rows) = if beqb k' k then None else row_get k' rows.
Proof.
  unfold row_get, row_remove. induction rows as [|[k1 v] rows IH]; [by destruct (beqb k' k)|]. rewrite filter_cons. cbn [fst]. case_decide as Hk.
  - cbn [List.find fst]. destruct (beqb k1 k') eqn:E1; [|exact IH]. apply beqb_eq in E1 as ->. by rewrite (proj2 (beqb_neq k' k)).
  - subst k1. rewrite IH. cbn [List.find fst]. destruct (beqb k' k) eqn:E2; [done|]. rewrite (proj2 (beqb_neq k k')); [done|]. apply beqb_neq in E2. congruence.
Qed.

Lemma rows_put_sorted k v rows : StronglySorted row_lt rows -> StronglySorted row_lt (bt_insert k v rows).
Proof. exact (bt_insert_sorted k v rows). Qed.

Lemma rows_remove_sorted k rows : StronglySorted row_lt rows -> StronglySorted row_lt (row_remove k rows).
Proof. exact (bt_sorted_filter (fun kv => kv.1 <> k) rows). Qed.

#[export] Instance list_api : TreeApi row_list := {|
  api_insert := fun k v d => (bt_insert k v d, Ok tt);
  api_remove := fun k d => (row_remove k d, Ok tt);
  api_prefix_iter := fun d p => Ok (List.filter (fun kv => starts_with kv.1 p) d);
  api_seal_full := id;
|}.

Definition on_tree (ks : Ks) (f : row_list -> row_list) (t : Trees row_list) : Trees row_list :=
  match ks with
  | KSpatial => mkTrees (f (tr_spatial t)) (tr_identity t) (tr_dictionary t) (tr_vectors t)
  | KIdentity => mkTrees (tr_spatial t) (f (tr_identity t)) (tr_dictionary t) (tr_vectors t)
  | KDictionary => mkTrees (tr_spatial t) (tr_identity t) (f (tr_dictionary t)) (tr_vectors t)
  | KVectors => mkTrees (tr_spatial t) (tr_identity t) (tr_dictionary t) (f (tr_vectors t))
  end.

Definition list_op (t : Trees row_list) (op : BatchOp) : Trees row_list :=
  match op with BPut ks k v => on_tree ks (bt_insert k v) t | BRemove ks k => on_tree ks (row_remove k) t end.

#[export] Instance list_commit : Commit unit row_list := {|
  cm_commit := fun ops wt => ((wt.1, foldl list_op wt.2 ops), Ok tt);
  cm_recovered_from_wal := fun _ => true;
  cm_get_no_bloom := fun d k => Ok (row_get k d);
  cm_flush := fun d => (d, Ok tt);
|}.

Definition rows_ok (t : Trees row_list) : Prop := forall ks, StronglySorted row_lt (tree_of ks t).

Lemma list_op_ok t op : rows_ok t -> rows_ok (list_op t op) /\ forall ks k, view (list_op t op) ks k = view_op op (view t) ks k.
Proof.
  intros H. destruct op as [ks k v|ks k]; split.
  - intros ks'. pose proof (H ks'). destruct ks, ks'; cbn in *; try done; by apply rows_put_sorted.
  - intros ks' k'. unfold view. destruct ks, ks'; cbn; try done; apply row_get_put.
  - intros ks'. pose proof (H ks'). destruct ks, ks'; cbn in *; try done; by apply rows_remove_sorted.
  - intros ks' k'. unfold view. destruct ks, ks'; cbn; try done; apply row_get_remove.
Qed.

Lemma view_op_ext op f g : (forall ks k, f ks k = g ks k) -> forall ks k, view_op op f ks k = view_op op g ks k.
Proof. intros H ks k. destruct op; cbn; by rewrite H. Qed.

Lemma view_ops_ext ops f g : (forall ks k, f ks k = g ks k) -> forall ks k, view_ops ops f ks k = view_ops ops g ks k.
Proof. revert f g. induction ops as [|op ops IH]; intros f g H ks k; [apply H|]. cbn. apply IH. by apply view_op_ext. Qed.

Lemma list_commit_ok ops t : rows_ok t -> rows_ok (foldl list_op t ops) /\ forall ks k, view (foldl list_op t ops) ks k = view_ops ops (view t) ks k.
Proof.
  revert t. induction ops as [|op ops IH]; intros t H; [done|]. cbn [foldl]. destruct (list_op_ok t op H) as [H1 H2]. destruct (IH _ H1) as [H3 H4]. split; [done|].
  intros ks k. rewrite H4. by apply (view_ops_ext ops (view (list_op t op)) (view_op op (view t))).
Qed.

#[export, refine] Instance list_commit_laws : CommitLaws unit row_list := {| cm_ok := fun _ t => rows_ok t |}.
Proof.
  - intros _ t ks H. apply H.
  - intros ops w t H. by apply list_commit_ok.
  - intros k v w t H. destruct (list_op_ok t (BPut KDictionary k v) H) as [H1 H2]. split; [done|]. intros k'. apply row_get_put.
  - intros w t H. split; [|done]. intros ks. pose proof (H ks). by destruct ks.
  - done.
Defined.

(** ** The codecs *)

#[export] Instance sample_literal_text : LiteralText := {| debug_literals := fun _ => []; debug_pairs := fun _ => [] |}.
#[export, refine] Instance sample_record_size : RecordSize := {| record_size := 100 |}.
Proof. done. Defined.
#[export] Instance sample_registry_codec : RegistryCodec := {|
  lobes_to_allocvec := fun _ => []; lobes_from_bytes := fun _ => None; lobes_bincode := fun _ => None;
  anchors_to_allocvec := fun _ => []; anchors_from_bytes := fun _ => None; anchors_bincode := fun _ => None;
  vector_to_allocvec := fun _ => []; vector_from_bytes := fun _ => None; vector_v1_from_bytes := fun _ => None |}.
#[export] Instance sample_spec_postcard : SpecPostcard := {|
  gravity_to_allocvec := fun _ => []; gravity_from_bytes := fun _ => None; name_from_bytes := fun _ => None;
  satellite_to_allocvec := fun _ => []; satellite_from_bytes := fun _ => None |}.

Definition no_norm : list Z -> Z := fun _ => 0.

(** ** The database *)

Definition users : bytes := str "users".
Definition email : bytes := str "email".
Definition city : bytes := str "city".
Definition age : bytes := str "age".

Definition users_with (anchors : list bytes) (gravity : BTreeMap bytes GravitySpec) (cache : option RecordCache) : Db unit row_list :=
  mkDb tt (mkTrees [] [] [] []) (get_or_create users None 0 LobeRegistry_new).2 [(users, anchors)] gravity [] [] ∅ (mkManager [] None None false) []
    cache (mkLidState 5 9) 3 (fun n => 1000000 + Z.of_nat n) 0 [] [].

Definition empty_users : Db unit row_list := users_with [email] [(users, Raw city)] (Some (RecordCache_new 10000)).

(** A database without records. *)
Lemma users_inv anchors gravity cache :
  (forall a, a ∈ anchors -> blen a <= 255) -> db_inv (users_with anchors gravity cache) ∅.
Proof.
  intros Ha. assert (lobes_ok (get_or_create users None 0 LobeRegistry_new).2) as Hl.
  { eapply (get_or_create_spec users None 0 LobeRegistry_new); [apply new_lobes_ok|done|apply surjective_pairing]. }
  split; try done.
  - intros ks. destruct ks; constructor.
  - intros k v. split; [done|]. by intros (? & ? & ? & _).
  - intros sk [? ?]. done.
  - intros lobe a. unfold get_anchors. cbn [bt_get db_anchors users_with]. destruct (ocmp lobe users) eqn:E; cbn; [|by intros ?%elem_of_nil..].
    apply ocmp_eq in E as ->. intros H. split; [by apply Ha|]. by eexists.
  - intros lobe c a s v _ _. split; [done|]. intros (l & Hl' & _). by rewrite lookup_empty in Hl'.
Qed.

(** A user of the lobe, its key and its identifier. *)
Definition ann_fields : Fields := [(str "_type", Text users); (age, Int 41); (city, Text (str "Oslo")); (email, Text (str "a@x"))].
Definition ann_lid : LID := Eval vm_compute in lid_pack 0 1 77 4 9.
Definition ann : XRecord := mkRecord ann_lid users ann_fields 5 5.
Definition ann_key : bytes := Eval vm_compute in to_bytes (placement_key 1 (placement_hash None [] (Some (Raw city)) [email] ann_fields) None ann_fields 7 2).

Definition ann_ops : list BatchOp :=
  insert_ops ann_key ann_lid (serialize_record ann) None None (snd <$> anchor_keys [email] 1 ann_fields).
Definition ann_cache : RecordCache := (load_records 1 [ann] (RecordCache_new 10000)).1.
Definition ann_db : Db unit row_list := with_cache (Some ann_cache) (with_store tt (foldl list_op (mkTrees [] [] [] []) ann_ops) empty_users).
Definition ann_recs : Records_ := <[ann_lid := (ann_key, ann)]> ∅.

Definition fields_okb (fs : Fields) : bool := forallb (fun kv => value_ok kv.2 && (depth kv.2 <=? MAX_DECODE_DEPTH) && match kv.2 with Vector _ => false | _ => true end) fs.

Lemma fields_okb_spec fs : fields_okb fs = true -> Forall field_ok fs.
Proof.
  unfold fields_okb. rewrite forallb_forall, Forall_forall. intros H [k v] Hkv%list_elem_of_In%H. apply andb_true_iff in Hkv as [[H1 H2%Z.leb_le]%andb_true_iff H3].
  split; [done|]. intros v' E. cbn in E. by subst v.
Qed.

Lemma ann_inv : db_inv ann_db ann_recs.
Proof.
  apply inv_with_cache. apply (insert_inv empty_users ∅ (mkLobe 1 users None 0) ann_lid ann_key ann (serialize_record ann) None None).
  - apply users_inv. intros a [->|H]%elem_of_cons; [by vm_compute|by apply elem_of_nil in H].
  - done.
  - split; try done.
    + split; [split; vm_compute; congruence|]. split; [repeat constructor|by apply fields_okb_spec].
    + split; [done|]. unfold is_bytes. repeat constructor; vm_compute; congruence.
    + apply plain_reads_back. split; [split; vm_compute; congruence|]. split; [repeat constructor|by apply fields_okb_spec].
  - intros l' sk' r'. by rewrite lookup_empty.
  - repeat constructor.
  - apply (list_commit_ok ann_ops). intros ks. destruct ks; constructor.
  - intros ks k. apply (list_commit_ok ann_ops). intros ks'. destruct ks'; constructor.
Qed.

Lemma ann_cache_lobes : rc_lobes ann_cache = {[1 := {[ann_lid := ann]}]}.
Proof. vm_compute. reflexivity. Qed.

Lemma ann_coherent : coherent ann_db ann_recs.
Proof.
  intros c lobe l r [= <-]. unfold cache_lookup. rewrite ann_cache_lobes. destruct (decide (1 = lobe)) as [<-|Hne]; [|by rewrite lookup_singleton_ne].
  rewrite lookup_singleton_eq. unfold mbind, option_bind. destruct (decide (ann_lid = l)) as [<-|Hne]; [|by rewrite lookup_singleton_ne].
  rewrite lookup_singleton_eq. intros [= <-]. split; [done|]. exists ann_key. reflexivity.
Qed.

Lemma ann_only l sk r : ann_recs !! l = Some (sk, r) -> l = ann_lid /\ sk = ann_key /\ r = ann.
Proof. unfold ann_recs. destruct (decide (ann_lid = l)) as [<-|Hne]; [rewrite lookup_insert_eq; by intros [= <- <-]|by rewrite lookup_insert_ne, lookup_empty]. Qed.

Lemma ann_room n : n <= 2 ^ 16 -> names_room ann_db n.
Proof. intros H id. unfold dict_of. cbn [db_registry ann_db with_cache with_store empty_users users_with]. rewrite lookup_empty. cbn. unfold blen. cbn. lia. Qed.

Definition eq_filter (field : bytes) (lit : Literal) : Filter := mkFilter field Eq_ lit.

(** ** The statements *)


Definition over_forty : FilterExpr := Or [Condition (mkFilter age Gt_ (LInt 40)); Condition (eq_filter city (LText (str "Bergen")))].

Lemma ann_route expr : filter_expr_to_flat expr = [] -> exact_route ann_db users (filter_expr_to_flat expr).
Proof. intros ->. exists []. split; [reflexivity|]. vm_compute. reflexivity. Qed.


(** Ann moves, and so does her record. *)
Definition to_bergen : list (bytes * Literal) := [(city, LText (str "Bergen"))].

Lemma ann_records rs : NoDup rs -> (forall r, r ∈ rs -> exists l sk, ann_recs !! l = Some (sk, r)) -> rs = [] \/ rs = [ann].
Proof.
  intros Hnd H. assert (forall r, r ∈ rs -> r = ann) as Hr by (intros r (l & sk & E)%H; by apply ann_only in E as (_ & _ & ->)).
  destruct rs as [|r rs]; [by left|]. right. rewrite (Hr r) by left. destruct rs as [|r' rs]; [done|]. exfalso. inversion Hnd as [|? ? Hni _]; subst. apply Hni.
  rewrite (Hr r), (Hr r'); [left|right; left|left].
Qed.


(** A new user, and one whose address is taken. *)
Definition put_user (mail town : string) (on_conflict : option OnConflict) : PutStmt :=
  mkPut [mkPutField email (LText (str mail)) false; mkPutField city (LText (str town)) true] users None on_conflict.
Definition user_fields (mail town : string) : Fields := [(str "_type", Text users); (city, Text (str town)); (email, Text (str mail))].


Example put_bob : (execute_put no_norm 0 (put_user "b@x" "Oslo" None) ann_db).2 = Done (AOk (Some (lid_pack 0 1 1000000 5 9)) (inserted_message (lid_pack 0 1 1000000 5 9))).
Proof. vm_compute. reflexivity. Qed.

Example put_taken : (execute_put no_norm 0 (put_user "a@x" "Oslo" None) ann_db).2 = Failed (DuplicateAnchor email (str "a@x") users (lid_display ann_lid)).
Proof. vm_compute. reflexivity. Qed.

(** * Where the statements differ from what they mean

    Runs on small databases in which a record is deleted that the filter excludes, is
    stored in the wrong bucket, loses its vector, shares an anchor value with another
    or is not found by one. *)

Abbreviation db := (Db unit row_list).

(** The records FIND gives, or none. *)
Definition found (target : FindTarget) (filters : list Filter) (d : db) : list Fields :=
  match (execute_find (mkFind target filters None None) d).2 with Done (Records rs) => fields <$> rs | _ => [] end.

Definition put_fields_of (fs : list (bytes * Literal)) : PutStmt := mkPut ((fun kv => mkPutField kv.1 kv.2 false) <$> fs) users None None.
Definition put_all (stmts : list PutStmt) (d : db) : db := foldl (fun d s => (execute_put no_norm 0 s d).1) d stmts.

(** DELETE by identifier deletes the record whatever else its filter asks for. *)
Lemma delete_by_lid_ignores_filters :
  let expr := Condition (mkFilter age Gt_ (LInt 90)) in
  matches_filter_expr (fields ann) expr = Some false /\
  let '(d', o) := execute_delete 0 (mkDelete (Some (ByLid (lid_display ann_lid))) (Some expr)) None ann_db in
  o = Done (AOk (Some ann_lid) (count_message 1 " record(s) deleted")) /\ tr_spatial (db_trees d') = [].
Proof. vm_compute. done. Qed.

(** PUT with a LINK puts the record next to its target, unless the target is cached: the
    key a cached record comes with is zero, and so is the bucket. *)
Definition near_ann : PutStmt := mkPut [mkPutField email (LText (str "c@x")) false] users (Some (mkLinkClause (ByLid (lid_display ann_lid)) [] (str "friend"))) None.
Definition buckets (d : db) : list Z := (fun kv => gravity_hash_from_bytes kv.1) <$> tr_spatial (db_trees d).

Lemma link_to_cached_in_bucket_zero :
  let h := gravity_hash_from_bytes ann_key in h <> 0 /\
  buckets (execute_put no_norm 0 near_ann (with_cache None ann_db)).1 = [h; h] /\
  buckets (execute_put no_norm 0 near_ann ann_db).1 = [0; h].
Proof. vm_compute. done. Qed.

(** ** Vectors *)

Definition taste : bytes := str "taste".
Definition taste_db : db := with_vectors [(users, mkVectorSpec taste (Some 2))] (users_with [email] [] None).
Definition eve_fields : Fields := [(email, Text (str "e@x")); (taste, Vector [1; 2])].
Definition eve_db : db := (execute_bulk_insert no_norm 0 users [mkBulk eve_fields []] taste_db).1.
Definition eve_lid : LID := Eval vm_compute in lid_pack 0 1 1000001 5 9.
Definition eve_target : FindTarget := ByLid (lid_display eve_lid).

(** LINK rewrites the record without the vector it keeps in the column. *)
Lemma link_loses_vector :
  match found eve_target [] eve_db with [fs] => bt_get taste fs | _ => None end = Some (Vector [1; 2]) /\
  let '(d', o) := execute_link (mkLink eve_target eve_target (str "self") None None) eve_db in
  match o with Done _ => True | _ => False end /\
  match found eve_target [] d' with [fs] => bt_get taste fs | _ => Some Null end = None /\ blen (tr_vectors (db_trees d')) = 1.
Proof. vm_compute. done. Qed.

(** The check of dimensions that PUT makes is not made by SET. *)
Definition long_vector : Literal := LList (replicate 64 (LFloat 0)).

Lemma set_skips_dimension :
  (execute_put no_norm 0 (put_fields_of [(taste, long_vector)]) eve_db).2 = Failed (InvalidQuery "vector dimension mismatch") /\
  let '(d', o) := execute_set no_norm 0 (mkSet (Some eve_target) [(taste, long_vector)] None) None eve_db in
  o = Done (AOk (Some eve_lid) (count_message 1 " record(s) updated")) /\
  match found eve_target [] d' with [fs] => match bt_get taste fs with Some (Vector v) => blen v | _ => 0 end | _ => 0 end = 64 /\
  bt_get users (db_vectors d') = Some (mkVectorSpec taste (Some 2)).
Proof. vm_compute. done. Qed.

(** PUT BATCH with ON CONFLICT UPDATE does not return when a lobe with a vector field
    has one of the records: it holds the lock its updates wait for. *)
Lemma batch_upsert_deadlocks :
  let batch := mkPutBatch [pt_fields (put_fields_of [(email, LText (str "z@x"))])] users None (Some ConflictUpdate) in
  let once := execute_put_batch no_norm 0 batch taste_db in
  match once.2 with Done (Some _) => True | _ => False end /\ (execute_put_batch no_norm 0 batch once.1).2 = Done None.
Proof. vm_compute. done. Qed.

(** ** Anchors *)

Definition login : bytes := str "login".
Definition two_anchors : db := users_with [email; login] [] None.
Definition user_with (mail name : string) : PutStmt := put_fields_of [(email, LText (str mail)); (login, LText (str name))].

(** ON CONFLICT UPDATE on one anchor writes the others without the index: two records
    have the same login. *)
Definition stolen : db :=
  let d := put_all [user_with "a@x" "ann"; user_with "b@x" "bob"] two_anchors in
  (execute_put no_norm 0 (mkPut (pt_fields (user_with "a@x" "bob")) users None (Some ConflictUpdate)) d).1.

Lemma upsert_shares_anchor :
  (fun fs => bt_get login fs) <$> found (FLobe users) [] stolen = [Some (Text (str "bob")); Some (Text (str "bob"))] /\
  found (FLobe users) [eq_filter login (LText (str "ann"))] stolen = [].
Proof. vm_compute. done. Qed.

(** An anchor declared on a lobe with records does not know them: they are not found by
    it and their values can be put again. *)
Lemma late_anchor_misses_records :
  let d := (execute_anchor users email (put_all [user_with "a@x" "ann"] (users_with [] [] None))).1 in
  blen (found (FLobe users) [] d) = 1 /\ found (FLobe users) [eq_filter email (LText (str "a@x"))] d = [] /\
  match (execute_put no_norm 0 (user_with "a@x" "ann") d).2 with Done _ => True | _ => False end.
Proof. vm_compute. done. Qed.

(** A time stamp is indexed in one form and looked up in another. *)
Lemma timestamp_anchor_not_found :
  let day := LTimestamp (str "2026-01-02") in
  let d := put_all [put_fields_of [(email, day)]] (users_with [email] [] None) in
  blen (found (FLobe users) [] d) = 1 /\ found (FLobe users) [eq_filter email day] d = [].
Proof. vm_compute. done. Qed.

(** The bulk path neither checks anchors nor indexes them. *)
Lemma bulk_insert_ignores_anchors :
  let '(d', o) := execute_bulk_insert no_norm 0 users [mkBulk [(email, Text (str "a@x"))] []; mkBulk [(email, Text (str "a@x"))] []] empty_users in
  match o with Done (n, _, _) => n = 2 | _ => False end /\ found (FLobe users) [eq_filter email (LText (str "a@x"))] d' = [].
Proof. vm_compute. done. Qed.

(** ** Keys *)

(** After a restart the counter of keys begins again; a record put [2^21] microseconds
    after another can get its key, and takes its place under both identifiers. *)
Definition restarted (t : Z) (d : db) : db :=
  mkDb (db_wal d) (db_trees d) (db_lobes d) (db_anchors d) (db_gravity d) (db_satellites d) (db_vectors d) (db_registry d) (db_ghosts d) (db_routers d)
    (db_cache d) (mkLidState 0 (boot_epoch_reg (db_lid d) + 1)) 0 (fun _ => t) 0 [] [].

Lemma restart_overwrites_record :
  let put name := put_fields_of [(city, LText (str "Oslo")); (login, LText (str name))] in
  let d := put_all [put "ann"] (restarted 5 (users_with [] [(users, Raw city)] None)) in
  let d' := put_all [put "bob"] (restarted (5 + 2 ^ 21) d) in
  let first := ByLid (lid_display (lid_pack 0 1 5 0 10)) in
  (fun fs => bt_get login fs) <$> found first [] d = [Some (Text (str "ann"))] /\
  (fun fs => bt_get login fs) <$> found first [] d' = [Some (Text (str "bob"))] /\
  blen (tr_identity (db_trees d')) = 2 /\ blen (tr_spatial (db_trees d')) = 1.
Proof. vm_compute. done. Qed.

(** ** Lobes *)

(** The number of lobes wraps: after 65535 of them the next ones get numbers that are
    taken. *)
Lemma lobe_ids_wrap reg now :
  next_id reg = 65535 -> lobe_get (str "x") reg = None -> next_id (get_or_create (str "x") None now reg).2 = 0.
Proof. intros H E. unfold get_or_create. rewrite E. cbn [snd next_id]. by rewrite H. Qed.
