(* ===== verification/Nom.v ===== *)
(** * Characters and combinators

    Text as UTF-8 bytes with what the parser uses of [char] and [str], and the
    combinators of the nom package: their types, their laws and an instance. *)

From S2P Require Import Prelude Paths Lid Record GroupKey Gravity.

(** * Characters of strings

    What the parser uses of [str] and [char]: a string is its UTF-8 bytes, a character
    is the bytes that encode it, and the predicates on characters are those of the
    standard library. The Unicode tables are a parameter; on ASCII they are written out. *)

(** [char::is_alphanumeric] and [char::to_uppercase] beyond ASCII. *)
Class Unicode := {
  u_alphanumeric : bytes -> bool;
  u_upper : bytes -> bytes;
}.

(** ** Characters *)

Definition char_len (b : Z) : nat := if b <? 128 then 1 else if b <? 224 then 2 else if b <? 240 then 3 else 4.

(** [Chars::next] *)
Definition next_char (s : bytes) : option (bytes * bytes) :=
  match s with [] => None | b :: _ => Some (take (char_len b) s, drop (char_len b) s) end.

Fixpoint chars_fuel (fuel : nat) (s : bytes) : list bytes :=
  match fuel with
  | O => []
  | S fuel => match next_char s with Some (c, s') => c :: chars_fuel fuel s' | None => [] end
  end.

(** [s.chars()] *)
Definition chars (s : bytes) : list bytes := chars_fuel (length s) s.

Definition is_ascii_digit_byte (b : Z) : bool := (48 <=? b) && (b <=? 57).
Definition is_ascii_alpha_byte (b : Z) : bool := (65 <=? b) && (b <=? 90) || (97 <=? b) && (b <=? 122).
Definition upper_byte (b : Z) : Z := if (97 <=? b) && (b <=? 122) then b - 32 else b.

Definition eq_ignore_ascii_case (a b : bytes) : bool := beqb (upper_byte <$> a) (upper_byte <$> b).

Definition is_ascii_digit (c : bytes) : bool := match c with [b] => is_ascii_digit_byte b | _ => false end.

Section unicode.
Context {UN : Unicode}.

Definition is_alphanumeric (c : bytes) : bool :=
  match c with [b] => is_ascii_alpha_byte b || is_ascii_digit_byte b | _ => u_alphanumeric c end.

Definition upper_char (c : bytes) : bytes := match c with [b] => [upper_byte b] | _ => u_upper c end.

(** [s.to_uppercase()] *)
Definition to_uppercase (s : bytes) : bytes := concat (upper_char <$> chars s).
End unicode.

(** The longest prefix whose characters satisfy [P], and the rest. *)
Fixpoint span_chars (P : bytes -> bool) (fuel : nat) (s : bytes) : bytes * bytes :=
  match fuel with
  | O => ([], s)
  | S fuel =>
    match next_char s with
    | Some (c, s') => if P c then let '(a, r) := span_chars P fuel s' in (c ++ a, r) else ([], s)
    | None => ([], s)
    end
  end.

Definition take_chars (P : bytes -> bool) (s : bytes) : bytes * bytes := span_chars P (length s) s.

(** [s.trim_start()]; [s.trim()] is [str_trim]. *)
Definition trim_start (s : bytes) : bytes := strip_loop strip_prefix (length s) s.

(** [s.trim_matches] of quotation marks *)
Fixpoint drop_quotes (s : bytes) : bytes := match s with 34 :: s' => drop_quotes s' | _ => s end.
Definition trim_quotes (s : bytes) : bytes := reverse (drop_quotes (reverse (drop_quotes s))).

(** Space, tab, carriage return and line feed. *)
Definition is_multispace (b : Z) : bool := (b =? 32) || (b =? 9) || (b =? 13) || (b =? 10).

Fixpoint skip_ws (s : bytes) : bytes :=
  match s with b :: s' => if is_multispace b then skip_ws s' else s | [] => [] end.

(** [s.lines()]: a final line feed ends the last line, and a carriage return before a
    line feed belongs to it. *)
Definition strip_cr (l : bytes) : bytes := match reverse l with 13 :: l' => reverse l' | _ => l end.

Fixpoint lines_loop (s cur : bytes) : list bytes :=
  match s with
  | [] => match cur with [] => [] | _ => [cur] end
  | b :: s' => if b =? 10 then strip_cr cur :: lines_loop s' [] else lines_loop s' (cur ++ [b])
  end.

Definition lines (s : bytes) : list bytes := lines_loop s [].

(** [s.split(c)] for an ASCII character *)
Fixpoint split_on (c : Z) (s : bytes) : list bytes :=
  match s with
  | [] => [[]]
  | b :: s' =>
    if b =? c then [] :: split_on c s'
    else match split_on c s' with p :: ps => (b :: p) :: ps | [] => [[b]] end
  end.

(** * Parser combinators

    The parser is written with the combinators of the [nom] crate, which are a
    parameter here: [Nom] has those the code uses, [NomLaws] what their documentation
    says of them. Where a law says that a parser fails, it leaves open at which place
    of the input the error points. [nom_impl] is an instance. *)

(** ** Results *)

(** [nom::Err]: an error lets the next alternative be tried, a failure does not. *)
Inductive NomErr := NError (input : bytes) | NFailure (input : bytes).

(** [Result<T, nom::Err>]; [NStuck] is a loop that does not end. *)
Inductive NResult (T : Type) := NOk (t : T) | NErr (e : NomErr) | NStuck.
Arguments NOk {T} _.
Arguments NErr {T} _.
Arguments NStuck {T}.

Notation IResult A := (NResult (bytes * A)).
Notation Parser A := (bytes -> IResult A).

#[export] Instance NResult_ret : MRet NResult := fun _ a => NOk a.
#[export] Instance NResult_bind : MBind NResult := fun _ _ f m =>
  match m with NOk a => f a | NErr e => NErr e | NStuck => NStuck end.

Definition errs {T} (r : NResult T) : Prop := exists i, r = NErr (NError i).

(** ** The combinators *)

Class Nom := {
  tag : bytes -> Parser bytes;
  tag_no_case : bytes -> Parser bytes;
  take_while1 : (bytes -> bool) -> Parser bytes;
  nchar : Z -> Parser Z;
  multispace0 : Parser bytes;
  one_of : bytes -> Parser Z;
  alt {A} : list (Parser A) -> Parser A;
  pmap {A B} : Parser A -> (A -> B) -> Parser B;
  pnot {A} : Parser A -> Parser unit;
  opt {A} : Parser A -> Parser (option A);
  peek {A} : Parser A -> Parser A;
  recognize {A} : Parser A -> Parser bytes;
  value_of {A B} : B -> Parser A -> Parser B;
  separated_list1 {A B} : Parser B -> Parser A -> Parser (list A);
  pair_of {A B} : Parser A -> Parser B -> Parser (A * B);
  preceded {A B} : Parser A -> Parser B -> Parser B;
  delimited {A B C} : Parser A -> Parser B -> Parser C -> Parser B;
  tuple3 {A B C} : Parser A -> Parser B -> Parser C -> Parser (A * B * C);
  tuple4 {A B C D} : Parser A -> Parser B -> Parser C -> Parser D -> Parser (A * B * C * D);
}.

(** ** What they do *)

Definition all_ascii (s : bytes) : Prop := Forall (fun b => 0 <= b < 128) s.

Definition tag_fun (t i : bytes) : IResult bytes := if starts_with i t then NOk (drop (length t) i, t) else NErr (NError i).

Definition tag_no_case_fun (t i : bytes) : IResult bytes :=
  if eq_ignore_ascii_case (take (length t) i) t then NOk (drop (length t) i, take (length t) i) else NErr (NError i).

Definition take_while1_fun (P : bytes -> bool) (i : bytes) : IResult bytes :=
  match take_chars P i with ([], _) => NErr (NError i) | (a, r) => NOk (r, a) end.

Definition nchar_fun (c : Z) (i : bytes) : IResult Z :=
  match i with b :: r => if b =? c then NOk (r, c) else NErr (NError i) | [] => NErr (NError i) end.

Definition multispace0_fun (i : bytes) : IResult bytes := NOk (skip_ws i, take (length i - length (skip_ws i)) i).

Definition one_of_fun (cs i : bytes) : IResult Z :=
  match i with b :: r => if existsb (Z.eqb b) cs then NOk (r, b) else NErr (NError i) | [] => NErr (NError i) end.

Fixpoint alt_fun {A} (ps : list (Parser A)) (i : bytes) : IResult A :=
  match ps with
  | [] => NErr (NError i)
  | p :: ps => match p i with NErr (NError _) => alt_fun ps i | r => r end
  end.

Definition opt_fun {A} (p : Parser A) (i : bytes) : IResult (option A) :=
  match p i with NOk (r, a) => NOk (r, Some a) | NErr (NError _) => NOk (i, None) | NErr e => NErr e | NStuck => NStuck end.

Definition not_fun {A} (p : Parser A) (i : bytes) : IResult unit :=
  match p i with NOk _ => NErr (NError i) | NErr (NError _) => NOk (i, ()) | NErr e => NErr e | NStuck => NStuck end.

Fixpoint sep_loop {A B} (sep : Parser B) (p : Parser A) (fuel : nat) (i : bytes) (acc : list A) : IResult (list A) :=
  match fuel with
  | O => NStuck
  | S fuel =>
    match sep i with
    | NOk (i1, _) =>
      if (length i1 =? length i)%nat then NErr (NError i1)
      else match p i1 with
           | NOk (i2, a) => sep_loop sep p fuel i2 (acc ++ [a])
           | NErr (NError _) => NOk (i, acc)
           | NErr e => NErr e
           | NStuck => NStuck
           end
    | NErr (NError _) => NOk (i, acc)
    | NErr e => NErr e
    | NStuck => NStuck
    end
  end.

Definition sep_list1_fun {A B} (sep : Parser B) (p : Parser A) (i : bytes) : IResult (list A) :=
  '(i, a) ← p i; sep_loop sep p (S (length i)) i [a].

(** Equal, or two errors that point at different places. *)
Definition alike {T} (r s : NResult T) : Prop := r = s \/ errs r /\ errs s.

(** The laws. [tag_no_case]: letters that match, a letter that does not, or an input
    that ends; a list: when its parsers do not grow the input. *)
Class NomLaws (N : Nom) : Prop := {
  tag_law t i : alike (tag t i) (tag_fun t i);
  tag_no_case_ok t a i : all_ascii t -> eq_ignore_ascii_case a t = true -> tag_no_case t (a ++ i) = NOk (i, a);
  tag_no_case_differs t a i :
    all_ascii t -> all_ascii a -> (length a <= length t)%nat -> eq_ignore_ascii_case a (take (length a) t) = false -> errs (tag_no_case t (a ++ i));
  tag_no_case_short t i : all_ascii i -> (length i < length t)%nat -> errs (tag_no_case t i);
  take_while1_law P i : alike (take_while1 P i) (take_while1_fun P i);
  nchar_law c i : 0 <= c < 128 -> alike (nchar c i) (nchar_fun c i);
  multispace0_law i : multispace0 i = multispace0_fun i;
  one_of_law cs i : all_ascii cs -> alike (one_of cs i) (one_of_fun cs i);
  alt_law A (ps : list (Parser A)) i : alike (alt ps i) (alt_fun ps i);
  pmap_law A B (p : Parser A) (f : A -> B) i : pmap p f i = ('(i, a) ← p i; mret (i, f a));
  pnot_law A (p : Parser A) i : alike (pnot p i) (not_fun p i);
  opt_law A (p : Parser A) i : opt p i = opt_fun p i;
  peek_law A (p : Parser A) i : peek p i = ('(_, a) ← p i; mret (i, a));
  recognize_law A (p : Parser A) i : recognize p i = ('(r, _) ← p i; mret (r, take (length i - length r) i));
  value_law A B (v : B) (p : Parser A) i : value_of v p i = ('(i, _) ← p i; mret (i, v));
  sep_list1_law A B (sep : Parser B) (p : Parser A) i :
    sep_list1_fun sep p i <> NStuck -> alike (separated_list1 sep p i) (sep_list1_fun sep p i);
  pair_law A B (p : Parser A) (q : Parser B) i : pair_of p q i = ('(i, a) ← p i; '(i, b) ← q i; mret (i, (a, b)));
  preceded_law A B (p : Parser A) (q : Parser B) i : preceded p q i = ('(i, _) ← p i; q i);
  delimited_law A B C (p : Parser A) (q : Parser B) (r : Parser C) i :
    delimited p q r i = ('(i, _) ← p i; '(i, b) ← q i; '(i, _) ← r i; mret (i, b));
  tuple3_law A B C (p : Parser A) (q : Parser B) (r : Parser C) i :
    tuple3 p q r i = ('(i, a) ← p i; '(i, b) ← q i; '(i, c) ← r i; mret (i, (a, b, c)));
  tuple4_law A B C D (p : Parser A) (q : Parser B) (r : Parser C) (s : Parser D) i :
    tuple4 p q r s i = ('(i, a) ← p i; '(i, b) ← q i; '(i, c) ← r i; '(i, d) ← s i; mret (i, (a, b, c, d)));
}.

Definition nom_impl : Nom := {|
  tag := tag_fun;
  tag_no_case := tag_no_case_fun;
  take_while1 := take_while1_fun;
  nchar := nchar_fun;
  multispace0 := multispace0_fun;
  one_of := one_of_fun;
  alt := @alt_fun;
  pmap A B p f := fun i => '(i, a) ← p i; mret (i, f a);
  pnot := @not_fun;
  opt := @opt_fun;
  peek A p := fun i => '(_, a) ← p i; mret (i, a);
  recognize A p := fun i => '(r, _) ← p i; mret (r, take (length i - length r) i);
  value_of A B v p := fun i => '(i, _) ← p i; mret (i, v);
  separated_list1 := @sep_list1_fun;
  pair_of A B p q := fun i => '(i, a) ← p i; '(i, b) ← q i; mret (i, (a, b));
  preceded A B p q := fun i => '(i, _) ← p i; q i;
  delimited A B C p q r := fun i => '(i, _) ← p i; '(i, b) ← q i; '(i, _) ← r i; mret (i, b);
  tuple3 A B C p q r := fun i => '(i, a) ← p i; '(i, b) ← q i; '(i, c) ← r i; mret (i, (a, b, c));
  tuple4 A B C D p q r s := fun i => '(i, a) ← p i; '(i, b) ← q i; '(i, c) ← r i; '(i, d) ← s i; mret (i, (a, b, c, d));
|}.

Lemma eq_ignore_length a b : eq_ignore_ascii_case a b = true -> length a = length b.
Proof. unfold eq_ignore_ascii_case. intros E%beqb_eq. by rewrite <- (length_fmap upper_byte a), E, length_fmap. Qed.

Lemma nom_impl_laws : NomLaws nom_impl.
Proof.
  split; try (intros; first [done | by left]).
  - intros t a i _ E. cbn [tag_no_case nom_impl]. unfold tag_no_case_fun. pose proof (eq_ignore_length _ _ E) as El.
    by rewrite take_app_length', drop_app_length', E by done.
  - intros t a i _ _ Hl E. cbn [tag_no_case nom_impl]. unfold tag_no_case_fun. destruct (eq_ignore_ascii_case (take (length t) (a ++ i)) t) eqn:E'; [|by eexists].
    exfalso. revert E. apply not_false_iff_true. unfold eq_ignore_ascii_case in *. apply beqb_eq in E'. apply beqb_eq.
    rewrite fmap_take, <- E', <- fmap_take, take_take, Nat.min_l by done. by rewrite take_app_length.
  - intros t i _ Hl. cbn [tag_no_case nom_impl]. unfold tag_no_case_fun. destruct (eq_ignore_ascii_case _ _) eqn:E; [|by eexists].
    apply eq_ignore_length in E. rewrite length_take in E. lia.
Qed.
