(* ===== verification/Parser.v ===== *)
(** * The syntax tree and the parser

    The statements of the language (xytalk-parser/src/ast.rs) and the parser of them
    (parser.rs), function by function. *)

From S2P Require Import Prelude Paths BTree Value Lid Record Filters GroupKey Gravity Scan Registries Db Mutations Nom.

(** * The syntax tree of the query language

    (xytalk-parser/src/ast.rs.) The statements and pipeline steps; literals, filters
    and the statements on records are in the files that execute them. *)

Record PurgeStmt := mkPurge { pu_lobe : bytes }.
Record FetchStmt := mkFetch { ft_lobes : list bytes; ft_filter_expr : option FilterExpr; ft_names : option (list bytes) }.
Record PinStmt := mkPin { pn_fields : list bytes; pn_lobe : bytes }.
Record UnpinStmt := mkUnpin { up_fields : list bytes; up_lobe : bytes }.
Record InCacheStmt := mkInCache { ic_lobe : bytes; ic_filter_expr : option FilterExpr }.

Inductive AggregateFunc :=
  | Count
  | Sum (field : bytes)
  | Avg (field : bytes)
  | Min (field : bytes)
  | Max (field : bytes).

Record AggregateItem := mkAggregate { ag_func : AggregateFunc; ag_filter : option FilterExpr; ag_alias : option bytes }.

Inductive TopBy := Metric (f : AggregateFunc) | Alias (name : bytes).
Record TopStmt := mkTop { tp_n : Z; tp_by : option TopBy; tp_descending : bool }.
Record ShapeStmt := mkShape { sh_fields : list bytes }.
Record FollowStmt := mkFollow { fo_field : bytes; fo_lobe : bytes; fo_target_field : bytes }.

Inductive NearestQuery :=
  | NVector (v : Literal)
  | NParam (name : bytes)
  | NRef (id : bytes).
Record NearestStmt := mkNearest { nr_field : bytes; nr_query : NearestQuery; nr_k : Z; nr_metric : bytes }.

Record CreateGhostStmt := mkCreateGhost {
  cg_name : bytes;
  cg_source_lobe : bytes;
  cg_filter : FilterExpr;
  cg_order_by : bytes;
  cg_sort_descending : bool;
  cg_order_metric : option TopBy;
  cg_group_by : list bytes;
  cg_aggregates : list AggregateItem;
  cg_embed : list bytes;
}.
Record ScanGhostStmt := mkScanGhost { sg_name : bytes; sg_filter_expr : option FilterExpr; sg_limit : option Z }.
Record PullStmt := mkPull { pl_target : option FindTarget; pl_depth : Z; pl_only : option bytes }.
Record AnchorStmt := mkAnchorStmt { an_field : bytes; an_lobe : bytes }.
Record VectorStmt := mkVectorStmt { ve_field : bytes; ve_lobe : bytes }.
Record SatelliteStmt := mkSatelliteStmt { sa_field : bytes; sa_lobe : bytes }.

Inductive GravityTransform := TLower | TTrim.
Inductive GravitySpecAst :=
  | ARaw (field : bytes)
  | ANormalized (field : bytes) (t : GravityTransform)
  | AComposite (fields : list bytes).
Record GravityStmt := mkGravityStmt { gv_lobe : bytes; gv_spec : GravitySpecAst }.
Record LobeStmt := mkLobeStmt { lb_name : bytes; lb_hint : option bytes }.

Inductive ShowStmt :=
  | ShowLobes
  | ShowAnchors (lobe : bytes)
  | ShowThrottle
  | ShowGhosts
  | ShowScanStats
  | ShowProfile (lobe : bytes)
  | ShowCache.
Record AutoAnchorApplyStmt := mkAutoAnchor { aa_field : bytes; aa_lobe : bytes }.

Inductive PipelineStep :=
  | PFind (s : FindStmt)
  | PPull (s : PullStmt)
  | PSet (s : SetStmt)
  | PDelete (s : DeleteStmt)
  | PScan (s : ScanStmt)
  | PScanGhost (s : ScanGhostStmt)
  | PAggregate (l : list AggregateItem)
  | PGroupBy (fields : list bytes)
  | PNearest (s : NearestStmt)
  | PFollow (s : FollowStmt)
  | PTop (s : TopStmt)
  | PShape (s : ShapeStmt).

Inductive Statement :=
  | SPut (s : PutStmt)
  | SPutBatch (s : PutBatchStmt)
  | SFind (s : FindStmt)
  | SPull (s : PullStmt)
  | SScan (s : ScanStmt)
  | SSet (s : SetStmt)
  | SDelete (s : DeleteStmt)
  | SPurge (s : PurgeStmt)
  | SFetch (s : FetchStmt)
  | SLink (s : LinkStmt)
  | SAnchor (s : AnchorStmt)
  | SGravity (s : GravityStmt)
  | SVector (s : VectorStmt)
  | SSatellite (s : SatelliteStmt)
  | SLobe (s : LobeStmt)
  | SShow (s : ShowStmt)
  | SAutoAnchorApply (s : AutoAnchorApplyStmt)
  | SCreateGhost (s : CreateGhostStmt)
  | SScanGhost (s : ScanGhostStmt)
  | SRefreshGhost (name : bytes)
  | SDropGhost (name : bytes)
  | SAnalyze (lobe : bytes)
  | SCompact
  | SScrub
  | SBulkMode (on : bool)
  | SMigrate (lobe : option bytes)
  | SInCache (s : InCacheStmt)
  | SOutCache (lobe : bytes)
  | SPin (s : PinStmt)
  | SUnpin (s : UnpinStmt)
  | SPipeline (steps : list PipelineStep).

(** * The parser of the query language

    (xytalk-parser/src/parser.rs.) One definition per function, over the combinators
    of [Nom]. Loops have the length of the input as fuel, the recursion on literals
    the depth the code allows; a loop that does not end would be [NStuck] and then
    [Panicked], like a slice that is not at a character boundary. A message keeps the
    fixed part of its text. *)

Section parser.
Context {N : Nom} {UN : Unicode} {VT : ValueText}.

(** ** Tokens *)

Definition ws {A} (inner : Parser A) : Parser A := delimited multispace0 inner multispace0.

Definition kw (keyword : string) : Parser bytes := tag_no_case (str keyword).

Fixpoint quoted_loop (fuel : nat) (input cs : bytes) (rest_pos : Z) (result : bytes) : IResult bytes :=
  match fuel with
  | O => NStuck
  | S fuel =>
    match next_char cs with
    | None => NErr (NError input)
    | Some (c, cs) =>
      if beqb c [92] then
        match next_char cs with
        | None => NErr (NError input)
        | Some (c, cs) =>
          if beqb c [34] then quoted_loop fuel input cs (rest_pos + 2) (result ++ [34])
          else if beqb c [92] then quoted_loop fuel input cs (rest_pos + 2) (result ++ [92])
          else quoted_loop fuel input cs (rest_pos + 1 + blen c) (result ++ [92] ++ c)
        end
      else if beqb c [34] then mret (drop (Z.to_nat (rest_pos + 1)) input, result)
      else quoted_loop fuel input cs (rest_pos + blen c) (result ++ c)
    end
  end.

Definition quoted_string (input : bytes) : IResult bytes :=
  '(input, _) ← nchar 34 input;
  quoted_loop (S (length input)) input input 0 [].

Definition word_char (c : bytes) : bool := is_alphanumeric c || beqb c [95].
Definition ident_char (c : bytes) : bool := is_alphanumeric c || beqb c [95] || beqb c [46].

Definition identifier : Parser bytes := take_while1 ident_char.

(** [ws(alt((quoted_string, map(identifier, String::from))))] *)
Definition name_or_quoted : Parser bytes := alt [quoted_string; pmap identifier (fun s => s)].

(** ** Literals *)

Definition MAX_LITERAL_DEPTH : Z := 16.

(** [map_err] to a failure at [i] *)
Definition or_failure {A} (r : IResult A) (i : bytes) : IResult A := match r with NErr _ => NErr (NFailure i) | r => r end.

(** The loops of lists, of maps and of [IN]: items after commas up to [close]. *)
Fixpoint items_loop {A} (close : Z) (item : Parser A) (fuel : nat) (remaining : bytes) (items : list A) : IResult (list A) :=
  match fuel with
  | O => NStuck
  | S fuel =>
    let trimmed := trim_start remaining in
    match nchar close trimmed with
    | NOk (rest, _) => mret (rest, items)
    | _ =>
      '(rest, _) ← or_failure (nchar 44 trimmed) trimmed;
      '(rest, x) ← item rest;
      items_loop close item fuel rest (items ++ [x])
    end
  end.

Definition parse_list_literal (inner : Parser Literal) (input : bytes) : IResult Literal :=
  '(input, _) ← nchar 91 input;
  '(input, _) ← multispace0 input;
  match nchar 93 input with
  | NOk (input, _) => mret (input, LList [])
  | _ =>
    '(input, first) ← inner (str_trim input);
    '(remaining, items) ← items_loop 93 (fun rest => inner (str_trim rest)) (S (length input)) input [first];
    mret (remaining, LList items)
  end.

(** An entry of a map, from its key on. *)
Definition map_entry (inner : Parser Literal) (input : bytes) : IResult (bytes * Literal) :=
  '(input, key) ← identifier input;
  '(input, _) ← ws (nchar 58) input;
  '(input, val) ← inner (str_trim input);
  mret (input, (key, val)).

Definition parse_map_literal (inner : Parser Literal) (input : bytes) : IResult Literal :=
  '(input, _) ← nchar 123 input;
  '(input, _) ← multispace0 input;
  match nchar 125 input with
  | NOk (input, _) => mret (input, LMap [])
  | _ =>
    '(input, first) ← map_entry inner (str_trim input);
    '(remaining, pairs) ← items_loop 125 (fun rest => map_entry inner (trim_start rest)) (S (length input)) input [first];
    mret (remaining, LMap pairs)
  end.

Definition parse_null_literal (input : bytes) : IResult Literal :=
  '(input, _) ← tag_no_case (str "null") input;
  '(input, _) ← pnot (peek (take_while1 word_char)) input;
  mret (input, LNull).

Definition parse_string_literal : Parser Literal := pmap quoted_string LText.

Definition parse_bool_literal : Parser Literal := alt [value_of (LBool true) (kw "true"); value_of (LBool false) (kw "false")].

Definition parse_number_literal (input : bytes) : IResult Literal :=
  '(input, num_str) ←
    recognize (tuple4 (opt (nchar 45)) (take_while1 is_ascii_digit) (opt (pair_of (nchar 46) (take_while1 is_ascii_digit)))
      (opt (tuple3 (one_of (str "eE")) (opt (one_of (str "+-"))) (take_while1 is_ascii_digit)))) input;
  if existsb (fun c => (c =? 46) || (c =? 101) || (c =? 69)) num_str then
    match parse_f64 num_str with Some f => mret (input, LFloat f) | None => NErr (NError input) end
  else
    match parse_i64 num_str with Some i => mret (input, LInt i) | None => NErr (NError input) end.

Definition parse_timestamp_literal (input : bytes) : IResult Literal :=
  '(input, _) ← nchar 64 input;
  '(input, s) ← quoted_string input;
  mret (input, LTimestamp s).

Definition parse_lid_literal (input : bytes) : IResult Literal :=
  '(input, _) ← kw "LID" input;
  '(input, _) ← multispace0 input;
  '(input, _) ← nchar 40 input;
  '(input, s) ← quoted_string input;
  '(input, _) ← nchar 41 input;
  mret (input, LLid s).

Definition parse_param_literal (input : bytes) : IResult Literal :=
  '(input, _) ← nchar 36 input;
  '(input, name) ← alt [identifier; take_while1 is_ascii_digit] input;
  mret (input, LParam name).

Fixpoint parse_literal_depth (fuel : nat) (input : bytes) (depth : Z) : IResult Literal :=
  match fuel with
  | O => NStuck
  | S fuel =>
    if MAX_LITERAL_DEPTH <? depth then NErr (NFailure input)
    else
      let inner := fun i => parse_literal_depth fuel i (depth + 1) in
      let any := alt [parse_list_literal inner; parse_map_literal inner; parse_timestamp_literal; parse_lid_literal; parse_null_literal;
        parse_bool_literal; parse_string_literal; parse_number_literal] in
      match input with
      | b :: _ =>
        if is_ascii_digit_byte b || (b =? 45) then parse_number_literal input
        else if b =? 36 then parse_param_literal input
        else any input
      | [] => any input
      end
  end.

(** Calls nest at most to depth seventeen. *)
Definition parse_literal (input : bytes) : IResult Literal := parse_literal_depth 18 input 0.

(** ** Filters *)

Definition parse_filter_op : Parser FilterOp :=
  alt [value_of Neq (tag (str "!=")); value_of Gte (tag (str ">=")); value_of Lte (tag (str "<=")); value_of Gt_ (tag (str ">"));
    value_of Lt_ (tag (str "<")); value_of Eq_ (tag (str "="))].

Definition parse_is_null_filter (input : bytes) : IResult Filter :=
  '(input, field) ← ws identifier input;
  '(input, _) ← ws (kw "IS") input;
  '(input, negated) ← opt (ws (kw "NOT")) input;
  '(input, _) ← ws (kw "NULL") input;
  mret (input, mkFilter field (match negated with Some _ => IsNotNull | None => IsNull end) LNull).

Definition parse_contains_filter (input : bytes) : IResult Filter :=
  '(input, field) ← ws identifier input;
  '(input, _) ← ws (kw "CONTAINS") input;
  '(input, val) ← ws parse_literal input;
  mret (input, mkFilter field Contains val).

Definition parse_comparison_filter (input : bytes) : IResult Filter :=
  '(input, field) ← ws identifier input;
  '(input, op) ← ws parse_filter_op input;
  '(input, val) ← ws parse_literal input;
  mret (input, mkFilter field op val).

Definition parse_in_filter (input : bytes) : IResult Filter :=
  '(input, field) ← ws identifier input;
  '(input, _) ← ws (kw "IN") input;
  '(input, opening) ← ws (alt [nchar 40; nchar 91]) input;
  let close := if opening =? 40 then 41 else 93 in
  '(input, first) ← ws parse_literal input;
  '(remaining, items) ← items_loop close (ws parse_literal) (S (length input)) input [first];
  mret (remaining, mkFilter field In_ (LList items)).

Definition parse_filter : Parser Filter :=
  alt [parse_is_null_filter; parse_contains_filter; parse_in_filter; parse_comparison_filter].

Definition parse_where_clause (input : bytes) : IResult (list Filter) :=
  '(input, _) ← ws (kw "WHERE") input;
  separated_list1 (ws (kw "AND")) parse_filter input.

Definition starts_word (s : bytes) : bool := match next_char s with Some (c, _) => word_char c | None => false end.

Definition try_keyword (input : bytes) (keyword : string) : option bytes :=
  let trimmed := trim_start input in
  let n := blen (str keyword) in
  if (n <=? blen trimmed) && is_char_boundary trimmed n then
    if eq_ignore_ascii_case (take (Z.to_nat n) trimmed) (str keyword) then
      let after := drop (Z.to_nat n) trimmed in
      if starts_word after then None else Some after
    else None
  else None.

(** The loops of [parse_or_expr] and [parse_and_expr]. *)
Fixpoint terms_loop (keyword : string) (term : Parser FilterExpr) (fuel : nat) (remaining : bytes) (terms : list FilterExpr)
  : IResult (list FilterExpr) :=
  match fuel with
  | O => NStuck
  | S fuel =>
    match try_keyword remaining keyword with
    | Some rest =>
      '(rest, next) ← term rest;
      terms_loop keyword term fuel rest (terms ++ [next])
    | None => mret (remaining, terms)
    end
  end.

Definition parse_terms (keyword : string) (join : list FilterExpr -> FilterExpr) (term : Parser FilterExpr) (input : bytes) : IResult FilterExpr :=
  '(input, first) ← term input;
  '(remaining, terms) ← terms_loop keyword term (S (length input)) input [first];
  mret (remaining, match terms with [t] => t | _ => join terms end).

(** [parse_and_expr] and [parse_or_expr], from the parser of the operands of AND *)
Definition parse_and_expr (not_expr : Parser FilterExpr) : Parser FilterExpr := parse_terms "AND" And not_expr.
Definition parse_or_expr (not_expr : Parser FilterExpr) : Parser FilterExpr := parse_terms "OR" Or (parse_and_expr not_expr).

Definition parse_filter_atom (or_expr : Parser FilterExpr) (input : bytes) : IResult FilterExpr :=
  let trimmed := trim_start input in
  if starts_with trimmed [40] then
    '(rest, _) ← nchar 40 trimmed;
    '(rest, expr) ← or_expr rest;
    '(rest, _) ← ws (nchar 41) rest;
    mret (rest, expr)
  else
    '(rest, filter) ← parse_filter trimmed;
    mret (rest, Condition filter).

Fixpoint parse_not_expr (fuel : nat) (input : bytes) : IResult FilterExpr :=
  match fuel with
  | O => NStuck
  | S fuel =>
    match try_keyword input "NOT" with
    | Some rest =>
      '(rest, inner) ← parse_not_expr fuel rest;
      mret (rest, Not inner)
    | None => parse_filter_atom (parse_or_expr (parse_not_expr fuel)) input
    end
  end.

(** Every recursive call is on a shorter input. *)
Definition parse_where_expr (input : bytes) : IResult FilterExpr :=
  '(input, _) ← ws (kw "WHERE") input;
  parse_or_expr (parse_not_expr (S (length input))) input.

(** ** Targets *)

Definition parse_find_target_lid (input : bytes) : IResult FindTarget :=
  '(input, _) ← ws (kw "LID") input;
  '(input, _) ← nchar 40 input;
  '(input, s) ← quoted_string input;
  '(input, _) ← nchar 41 input;
  mret (input, ByLid s).

Definition parse_find_target_name (input : bytes) : IResult FindTarget :=
  '(input, _) ← multispace0 input;
  alt [pmap quoted_string FLobe; pmap identifier FLobe] input.

Definition parse_find_target : Parser FindTarget := alt [parse_find_target_lid; parse_find_target_name].

(** ** PUT *)

Definition parse_field_pair (input : bytes) : IResult PutField :=
  '(input, gravity) ← opt (ws (nchar 42)) input;
  '(input, key) ← ws identifier input;
  '(input, _) ← ws (nchar 58) input;
  '(input, val) ← ws parse_literal input;
  mret (input, mkPutField key val (match gravity with Some _ => true | None => false end)).

Fixpoint fields_loop (fuel : nat) (remaining : bytes) (fields : list PutField) : IResult (list PutField) :=
  match fuel with
  | O => NStuck
  | S fuel =>
    let trimmed := trim_start remaining in
    match nchar 125 trimmed with
    | NOk (rest, _) => mret (rest, fields)
    | _ =>
      '(remaining, _) ← match fields with [] => mret (trimmed, 0) | _ => ws (nchar 44) trimmed end;
      '(rest, field) ← parse_field_pair remaining;
      fields_loop fuel rest (fields ++ [field])
    end
  end.

Definition parse_fields_block (input : bytes) : IResult (list PutField) :=
  '(input, _) ← ws (nchar 123) input;
  fields_loop (S (length input)) input [].

Definition parse_put_link_clause (input : bytes) : IResult LinkClause :=
  '(input, _) ← ws (kw "LINK") input;
  '(input, _) ← ws (kw "TO") input;
  '(input, target) ← parse_find_target input;
  '(input, filters) ← opt parse_where_clause input;
  '(input, _) ← ws (kw "AS") input;
  '(input, rel_name) ← ws quoted_string input;
  mret (input, mkLinkClause target (default [] filters) rel_name).

Definition parse_on_conflict (input : bytes) : IResult OnConflict :=
  '(input, _) ← ws (kw "ON") input;
  '(input, _) ← ws (kw "CONFLICT") input;
  '(input, _) ← ws (kw "UPDATE") input;
  mret (input, ConflictUpdate).

Definition parse_put (input : bytes) : IResult PutStmt :=
  '(input, _) ← ws (kw "PUT") input;
  '(input, fields) ← parse_fields_block input;
  '(input, _) ← ws (kw "IN") input;
  '(input, lobe) ← ws name_or_quoted input;
  '(input, link) ← opt parse_put_link_clause input;
  '(input, on_conflict) ← opt parse_on_conflict input;
  mret (input, mkPut fields lobe link on_conflict).

Definition parse_put_batch (input : bytes) : IResult PutBatchStmt :=
  '(input, _) ← ws (kw "PUT") input;
  '(input, _) ← ws (kw "BATCH") input;
  '(input, _) ← ws (kw "IN") input;
  '(input, lobe) ← ws name_or_quoted input;
  '(input, records) ← delimited (ws (nchar 91)) (separated_list1 (ws (nchar 44)) parse_fields_block) (ws (nchar 93)) input;
  '(input, link) ← opt parse_put_link_clause input;
  '(input, on_conflict) ← opt parse_on_conflict input;
  mret (input, mkPutBatch records lobe link on_conflict).

(** ** FIND, PULL, SCAN *)

Definition parse_cursor (input : bytes) : IResult bytes :=
  '(input, _) ← ws (kw "CURSOR") input;
  '(input, token) ← ws quoted_string input;
  mret (input, token).

Definition parse_order_by (input : bytes) : IResult OrderBy :=
  '(input, _) ← ws (kw "ORDER") input;
  '(input, _) ← ws (kw "BY") input;
  '(input, field) ← ws identifier input;
  '(input, desc) ← opt (alt [value_of true (ws (kw "DESC")); value_of false (ws (kw "ASC"))]) input;
  mret (input, mkOrderBy field (default false desc)).

(** [digits.parse::<u64>()], an error at [input] *)
Definition u64_of (digits input : bytes) : IResult Z :=
  match parse_u64 digits with Some n => mret (input, n) | None => NErr (NError input) end.

Definition parse_limit (input : bytes) : IResult Z :=
  '(input, _) ← ws (kw "LIMIT") input;
  '(input, n) ← ws (take_while1 is_ascii_digit) input;
  u64_of n input.

Definition parse_find (input : bytes) : IResult FindStmt :=
  '(input, _) ← ws (kw "FIND") input;
  '(input, target) ← ws parse_find_target input;
  '(input, filters) ← opt parse_where_clause input;
  '(input, limit) ← opt parse_limit input;
  '(input, cursor) ← opt parse_cursor input;
  '(input, _) ← multispace0 input;
  mret (input, mkFind target (default [] filters) limit cursor).

(** [d.parse::<u32>()] *)
Definition parse_u32 (s : bytes) : option Z := match parse_u64 s with Some n => if n <? 2 ^ 32 then Some n else None | None => None end.

Fixpoint pull_params_loop (fuel : nat) (rest : bytes) (depth : Z) (only : option bytes) : IResult (Z * option bytes) :=
  match fuel with
  | O => NStuck
  | S fuel =>
    '(r, _) ← multispace0 rest;
    match kw "depth" r with
    | NOk (r2, _) =>
      '(r2, _) ← ws (nchar 61) r2;
      '(r2, d) ← take_while1 is_ascii_digit r2;
      pull_params_loop fuel r2 (default 1 (parse_u32 d)) only
    | _ =>
      match kw "only" r with
      | NOk (r2, _) =>
        '(r2, _) ← ws (nchar 61) r2;
        '(r2, name) ← identifier r2;
        pull_params_loop fuel r2 depth (Some name)
      | _ => mret (rest, (depth, only))
      end
    end
  end.

Definition parse_pull_params (input : bytes) : IResult (Z * option bytes) := pull_params_loop (S (length input)) input 1 None.

Definition parse_pull_step (input : bytes) : IResult PullStmt :=
  '(input, _) ← ws (kw "PULL") input;
  '(input, (depth, only)) ← parse_pull_params input;
  mret (input, mkPull None depth only).

Definition parse_pull_full (input : bytes) : IResult PullStmt :=
  '(input, _) ← ws (kw "PULL") input;
  '(input, _) ← ws (kw "FROM") input;
  '(input, target) ← ws parse_find_target input;
  '(input, (depth, only)) ← parse_pull_params input;
  mret (input, mkPull (Some target) depth only).

Definition parse_scan (input : bytes) : IResult ScanStmt :=
  '(input, _) ← ws (kw "SCAN") input;
  '(input, lobe) ← ws name_or_quoted input;
  '(input, filter_expr) ← opt parse_where_expr input;
  '(input, order_by) ← opt parse_order_by input;
  '(input, limit) ← opt parse_limit input;
  '(input, cursor) ← opt parse_cursor input;
  mret (input, mkScan lobe filter_expr order_by limit cursor).

(** ** SET, DELETE, PURGE, FETCH, LINK *)

Definition parse_assignment (input : bytes) : IResult (bytes * Literal) :=
  '(input, key) ← ws identifier input;
  '(input, _) ← ws (nchar 61) input;
  '(input, val) ← ws parse_literal input;
  mret (input, (key, val)).

Definition parse_set_step (input : bytes) : IResult SetStmt :=
  '(input, _) ← ws (kw "SET") input;
  '(input, assignments) ← separated_list1 (ws (nchar 44)) parse_assignment input;
  mret (input, mkSet None assignments None).

Definition parse_set_full (input : bytes) : IResult SetStmt :=
  '(input, _) ← ws (kw "SET") input;
  '(input, target) ← ws parse_find_target input;
  '(input, assignments) ← separated_list1 (ws (nchar 44)) parse_assignment input;
  '(input, filter_expr) ← opt parse_where_expr input;
  mret (input, mkSet (Some target) assignments filter_expr).

Definition parse_delete_step (input : bytes) : IResult DeleteStmt :=
  '(input, _) ← ws (kw "DELETE") input;
  mret (input, mkDelete None None).

Definition parse_delete_full (input : bytes) : IResult DeleteStmt :=
  '(input, _) ← ws (kw "DELETE") input;
  '(input, target) ← ws parse_find_target input;
  '(input, filter_expr) ← opt parse_where_expr input;
  mret (input, mkDelete (Some target) filter_expr).

Definition parse_purge (input : bytes) : IResult PurgeStmt :=
  '(input, _) ← ws (kw "PURGE") input;
  '(input, lobe) ← ws quoted_string input;
  mret (input, mkPurge lobe).

(** [separated_list1(ws(char(',')), ws(identifier))] *)
Definition identifiers : Parser (list bytes) := separated_list1 (ws (nchar 44)) (ws identifier).

Definition parse_fetch_as (input : bytes) : IResult (list bytes) :=
  '(input, _) ← ws (kw "AS") input;
  '(input, _) ← ws (nchar 123) input;
  '(input, names) ← identifiers input;
  '(input, _) ← ws (nchar 125) input;
  mret (input, names).

Definition parse_fetch (input : bytes) : IResult FetchStmt :=
  '(input, _) ← ws (kw "FETCH") input;
  '(input, lobes) ← separated_list1 (ws (nchar 44)) (ws quoted_string) input;
  '(input, filter_expr) ← opt parse_where_expr input;
  '(input, names) ← opt parse_fetch_as input;
  mret (input, mkFetch lobes filter_expr names).

Definition parse_link (input : bytes) : IResult LinkStmt :=
  '(input, _) ← ws (kw "LINK") input;
  '(input, source) ← ws parse_find_target input;
  '(input, source_filter_expr) ← opt parse_where_expr input;
  '(input, _) ← ws (kw "TO") input;
  '(input, target) ← ws parse_find_target input;
  '(input, target_filter_expr) ← opt parse_where_expr input;
  '(input, _) ← ws (kw "AS") input;
  '(input, rel_name) ← ws quoted_string input;
  mret (input, mkLink source target rel_name source_filter_expr target_filter_expr).

(** ** ANCHOR, VECTOR, SATELLITE, GRAVITY, LOBE, the cache *)

Definition parse_anchor (input : bytes) : IResult AnchorStmt :=
  '(input, _) ← ws (kw "ANCHOR") input;
  '(input, field) ← ws quoted_string input;
  '(input, _) ← ws (kw "UNIQUE") input;
  '(input, _) ← ws (kw "IN") input;
  '(input, lobe) ← ws quoted_string input;
  mret (input, mkAnchorStmt field lobe).

Definition parse_vector (input : bytes) : IResult VectorStmt :=
  '(input, _) ← ws (kw "VECTOR") input;
  '(input, field) ← ws identifier input;
  '(input, _) ← ws (kw "IN") input;
  '(input, lobe) ← ws quoted_string input;
  mret (input, mkVectorStmt field lobe).

Definition parse_satellite (input : bytes) : IResult SatelliteStmt :=
  '(input, _) ← ws (kw "SATELLITE") input;
  '(input, _) ← ws (kw "BY") input;
  '(input, field) ← ws identifier input;
  '(input, _) ← ws (kw "IN") input;
  '(input, lobe) ← ws quoted_string input;
  mret (input, mkSatelliteStmt field lobe).

Definition parse_gravity_composite (input : bytes) : IResult GravitySpecAst :=
  '(input, _) ← ws (nchar 40) input;
  '(input, fields) ← identifiers input;
  '(input, _) ← ws (nchar 41) input;
  mret (input, AComposite fields).

Definition parse_gravity_transform (input : bytes) : IResult GravitySpecAst :=
  '(input, name) ← ws (alt [kw "lower"; kw "trim"]) input;
  '(input, _) ← ws (nchar 40) input;
  '(input, field) ← ws identifier input;
  '(input, _) ← ws (nchar 41) input;
  mret (input, ANormalized field (if eq_ignore_ascii_case name (str "lower") then TLower else TTrim)).

Definition parse_gravity_expr : Parser GravitySpecAst :=
  alt [parse_gravity_composite; parse_gravity_transform; pmap (ws identifier) ARaw].

Definition parse_gravity (input : bytes) : IResult GravityStmt :=
  '(input, _) ← ws (kw "GRAVITY") input;
  '(input, _) ← ws (kw "BY") input;
  '(input, spec) ← parse_gravity_expr input;
  '(input, _) ← ws (kw "IN") input;
  '(input, lobe) ← ws quoted_string input;
  mret (input, mkGravityStmt lobe spec).

Definition parse_lobe_hint (input : bytes) : IResult bytes :=
  '(input, _) ← ws (kw "HINT") input;
  '(input, _) ← ws (nchar 61) input;
  ws quoted_string input.

Definition parse_lobe (input : bytes) : IResult LobeStmt :=
  '(input, _) ← ws (kw "LOBE") input;
  '(input, name) ← ws quoted_string input;
  '(input, hint) ← opt parse_lobe_hint input;
  mret (input, mkLobeStmt name hint).

Definition parse_incache (input : bytes) : IResult InCacheStmt :=
  '(input, _) ← ws (kw "INCACHE") input;
  '(input, lobe) ← ws name_or_quoted input;
  '(input, filter_expr) ← opt parse_where_expr input;
  mret (input, mkInCache lobe filter_expr).

Definition parse_outcache (input : bytes) : IResult bytes :=
  '(input, _) ← ws (kw "OUTCACHE") input;
  '(input, lobe) ← ws name_or_quoted input;
  mret (input, lobe).

(** ** SHOW, PIN, UNPIN *)

Definition parse_show_cache (input : bytes) : IResult ShowStmt :=
  '(input, _) ← ws (kw "CACHE") input;
  mret (input, ShowCache).

Definition parse_show_lobes (input : bytes) : IResult ShowStmt :=
  '(input, _) ← ws (kw "LOBES") input;
  mret (input, ShowLobes).

Definition parse_show_anchors (input : bytes) : IResult ShowStmt :=
  '(input, _) ← ws (kw "ANCHORS") input;
  '(input, _) ← ws (kw "IN") input;
  '(input, lobe) ← ws quoted_string input;
  mret (input, ShowAnchors lobe).

Definition parse_show_throttle (input : bytes) : IResult ShowStmt :=
  '(input, _) ← ws (kw "THROTTLE") input;
  mret (input, ShowThrottle).

Definition parse_show_ghosts (input : bytes) : IResult ShowStmt :=
  '(input, _) ← ws (kw "GHOSTS") input;
  mret (input, ShowGhosts).

Definition parse_show_scan_stats (input : bytes) : IResult ShowStmt :=
  '(input, _) ← ws (kw "SCAN") input;
  '(input, _) ← ws (kw "STATS") input;
  mret (input, ShowScanStats).

Definition parse_show_profile (input : bytes) : IResult ShowStmt :=
  '(input, _) ← ws (kw "PROFILE") input;
  '(input, lobe) ← ws quoted_string input;
  mret (input, ShowProfile lobe).

Definition parse_show (input : bytes) : IResult ShowStmt :=
  '(input, _) ← ws (kw "SHOW") input;
  alt [parse_show_scan_stats; parse_show_profile; parse_show_cache; parse_show_throttle; parse_show_ghosts; parse_show_anchors;
    parse_show_lobes] input.

Definition parse_pin (input : bytes) : IResult PinStmt :=
  '(input, _) ← ws (kw "PIN") input;
  '(input, fields) ← separated_list1 (ws (nchar 44)) (pmap (ws identifier) (fun s => s)) input;
  '(input, _) ← ws (kw "IN") input;
  '(input, lobe) ← ws quoted_string input;
  mret (input, mkPin fields lobe).

Definition parse_unpin (input : bytes) : IResult UnpinStmt :=
  '(input, _) ← ws (kw "UNPIN") input;
  '(input, fields) ← separated_list1 (ws (nchar 44)) (pmap (ws identifier) (fun s => s)) input;
  '(input, _) ← ws (kw "IN") input;
  '(input, lobe) ← ws quoted_string input;
  mret (input, mkUnpin fields lobe).

(** ** Aggregates, pipeline steps *)

Definition parse_agg_count (input : bytes) : IResult AggregateFunc :=
  '(input, _) ← ws (kw "count") input;
  '(input, _) ← nchar 40 input;
  '(input, _) ← opt (ws (nchar 42)) input;
  '(input, _) ← ws (nchar 41) input;
  mret (input, Count).

Definition parse_agg_field_func (name : string) (input : bytes) : IResult bytes :=
  '(input, _) ← ws (kw name) input;
  '(input, _) ← nchar 40 input;
  '(input, field) ← ws identifier input;
  '(input, _) ← nchar 41 input;
  mret (input, field).

Definition parse_agg_sum (input : bytes) : IResult AggregateFunc := '(input, field) ← parse_agg_field_func "sum" input; mret (input, Sum field).
Definition parse_agg_avg (input : bytes) : IResult AggregateFunc := '(input, field) ← parse_agg_field_func "avg" input; mret (input, Avg field).
Definition parse_agg_min (input : bytes) : IResult AggregateFunc := '(input, field) ← parse_agg_field_func "min" input; mret (input, Min field).
Definition parse_agg_max (input : bytes) : IResult AggregateFunc := '(input, field) ← parse_agg_field_func "max" input; mret (input, Max field).

Definition parse_aggregate_func : Parser AggregateFunc :=
  alt [parse_agg_count; parse_agg_sum; parse_agg_avg; parse_agg_min; parse_agg_max].

Definition parse_aggregate_item (input : bytes) : IResult AggregateItem :=
  '(input, func) ← parse_aggregate_func input;
  '(input, alias) ← opt (preceded (ws (kw "AS")) (ws identifier)) input;
  '(input, filter) ← opt parse_where_expr input;
  mret (input, mkAggregate func filter alias).

Definition parse_aggregate (input : bytes) : IResult (list AggregateItem) :=
  '(input, _) ← ws (kw "AGGREGATE") input;
  separated_list1 (ws (nchar 44)) parse_aggregate_item input.

Definition parse_group_by (input : bytes) : IResult (list bytes) :=
  '(input, _) ← ws (kw "GROUP") input;
  '(input, _) ← ws (kw "BY") input;
  '(input, fields) ← identifiers input;
  mret (input, fields).

(** [alt((map(ws(kw("DESC")), |_| true), map(ws(kw("ASC")), |_| false)))] *)
Definition direction : Parser bool := alt [pmap (ws (kw "DESC")) (fun _ => true); pmap (ws (kw "ASC")) (fun _ => false)].

Definition parse_take (input : bytes) : IResult TopStmt :=
  '(input, _) ← ws (alt [kw "TAKE"; kw "TOP"]) input;
  '(input, digits) ← ws (take_while1 is_ascii_digit) input;
  '(_, n) ← u64_of digits input;
  '(input, by_) ← opt (preceded (ws (kw "BY")) (alt [pmap parse_aggregate_func Metric; pmap (ws identifier) Alias])) input;
  '(input, descending) ← opt direction input;
  mret (input, mkTop n by_ (default true descending)).

Definition parse_shape_step (input : bytes) : IResult ShapeStmt :=
  '(input, _) ← ws (kw "SHAPE") input;
  '(input, _) ← ws (nchar 123) input;
  '(input, fields) ← identifiers input;
  '(input, _) ← ws (nchar 125) input;
  mret (input, mkShape fields).

Definition parse_follow (input : bytes) : IResult FollowStmt :=
  '(input, _) ← ws (kw "FOLLOW") input;
  '(input, field) ← ws identifier input;
  '(input, _) ← ws (kw "TO") input;
  '(input, lobe) ← ws quoted_string input;
  '(input, _) ← ws (kw "ON") input;
  '(input, target_field) ← ws identifier input;
  mret (input, mkFollow field lobe target_field).

Definition parse_nearest_param (input : bytes) : IResult NearestQuery :=
  '(input, _) ← nchar 36 input;
  '(input, name) ← identifier input;
  mret (input, NParam name).

Definition parse_nearest_ref (input : bytes) : IResult NearestQuery :=
  '(input, _) ← ws (kw "REF") input;
  '(input, id) ← ws quoted_string input;
  mret (input, NRef id).

Definition parse_nearest_query : Parser NearestQuery := alt [parse_nearest_param; parse_nearest_ref; pmap parse_literal NVector].

(** [parse_u64] of the parser *)
Definition parse_count (input : bytes) : IResult Z :=
  '(input, digits) ← take_while1 is_ascii_digit input;
  u64_of digits input.

Definition parse_nearest_func (input : bytes) : IResult NearestStmt :=
  '(input, _) ← ws (nchar 40) input;
  '(input, field) ← ws identifier input;
  '(input, _) ← ws (nchar 44) input;
  '(input, query) ← ws parse_nearest_query input;
  '(input, _) ← ws (nchar 44) input;
  '(input, k) ← ws parse_count input;
  '(input, _) ← ws (nchar 44) input;
  '(input, metric) ← ws identifier input;
  '(input, _) ← ws (nchar 41) input;
  mret (input, mkNearest field query k metric).

Definition parse_nearest_phrase (input : bytes) : IResult NearestStmt :=
  '(input, k) ← ws parse_count input;
  '(input, _) ← ws (kw "BY") input;
  '(input, field) ← ws identifier input;
  '(input, _) ← ws (kw "TO") input;
  '(input, query) ← ws parse_nearest_query input;
  '(input, metric) ← opt (preceded (ws (kw "USING")) (ws identifier)) input;
  mret (input, mkNearest field query k (default (str "cosine") metric)).

Definition parse_nearest (input : bytes) : IResult NearestStmt :=
  '(input, _) ← ws (kw "NEAREST") input;
  alt [parse_nearest_func; parse_nearest_phrase] input.

(** ** Ghosts *)

Record GhostShape := mkGhostShape {
  gs_order_by : bytes;
  gs_order_metric : option TopBy;
  gs_sort_descending : bool;
  gs_group_by : list bytes;
  gs_aggregates : list AggregateItem;
  gs_embed : list bytes;
}.

Definition parse_ghost_order_target : Parser (bytes * option TopBy) :=
  alt [pmap parse_aggregate_func (fun f => ([], Some (Metric f))); pmap (ws identifier) (fun s => (s, None))].

Definition parse_ghost_direction (input : bytes) : IResult bool :=
  '(input, desc) ← opt direction input;
  mret (input, default false desc).

Fixpoint embed_loop (fuel : nat) (rest : bytes) (fields : list bytes) : IResult (list bytes) :=
  match fuel with
  | O => NStuck
  | S fuel =>
    match ws (nchar 44) rest with
    | NOk (r, _) =>
      match ws identifier r with
      | NOk (r2, field) => embed_loop fuel r2 (fields ++ [field])
      | _ => mret (rest, fields)
      end
    | _ => mret (rest, fields)
    end
  end.

Definition parse_ghost_embed (input : bytes) : IResult (list bytes) :=
  '(input, _) ← ws (kw "EMBED") input;
  '(input, first) ← ws identifier input;
  embed_loop (S (length input)) input [first].

Definition pipe : Parser Z := ws (nchar 124).

Definition parse_ghost_pipeline_shape (input : bytes) : IResult GhostShape :=
  '(input, group_by) ← opt (preceded pipe parse_group_by) input;
  '(input, aggregates) ← opt (preceded pipe parse_aggregate) input;
  '(input, _) ← pipe input;
  '(input, _) ← ws (kw "TAKE") input;
  '(input, _) ← ws (kw "BY") input;
  '(input, (order_by, order_metric)) ← parse_ghost_order_target input;
  '(input, sort_descending) ← parse_ghost_direction input;
  '(input, embed) ← opt (preceded pipe parse_ghost_embed) input;
  mret (input, mkGhostShape order_by order_metric sort_descending (default [] group_by) (default [] aggregates) (default [] embed)).

Definition parse_ghost_clause_shape (input : bytes) : IResult GhostShape :=
  '(input, _) ← ws (kw "ORDER") input;
  '(input, _) ← ws (kw "BY") input;
  '(input, (order_by, order_metric)) ← parse_ghost_order_target input;
  '(input, sort_descending) ← parse_ghost_direction input;
  '(input, group_by) ← opt parse_group_by input;
  '(input, aggregates) ← opt parse_aggregate input;
  '(input, embed) ← opt parse_ghost_embed input;
  mret (input, mkGhostShape order_by order_metric sort_descending (default [] group_by) (default [] aggregates) (default [] embed)).

Definition parse_create_ghost (input : bytes) : IResult CreateGhostStmt :=
  '(input, _) ← ws (kw "CREATE") input;
  '(input, _) ← ws (kw "GHOST") input;
  '(input, name) ← ws quoted_string input;
  '(input, _) ← ws (kw "FROM") input;
  '(input, source_lobe) ← ws quoted_string input;
  '(input, filter) ← opt parse_where_expr input;
  '(input, shape) ← alt [parse_ghost_pipeline_shape; parse_ghost_clause_shape] input;
  mret (input, mkCreateGhost name source_lobe (default (And []) filter) (gs_order_by shape) (gs_sort_descending shape) (gs_order_metric shape)
    (gs_group_by shape) (gs_aggregates shape) (gs_embed shape)).

Definition parse_scan_ghost (input : bytes) : IResult ScanGhostStmt :=
  '(input, _) ← ws (kw "SCAN") input;
  '(input, _) ← ws (kw "GHOST") input;
  '(input, name) ← ws quoted_string input;
  '(input, filter_expr) ← opt parse_where_expr input;
  '(input, limit) ← opt parse_limit input;
  mret (input, mkScanGhost name filter_expr limit).

Definition parse_refresh_ghost (input : bytes) : IResult bytes :=
  '(input, _) ← ws (kw "REFRESH") input;
  '(input, _) ← ws (kw "GHOST") input;
  '(input, name) ← ws quoted_string input;
  mret (input, name).

Definition parse_drop_ghost (input : bytes) : IResult bytes :=
  '(input, _) ← ws (kw "DROP") input;
  '(input, _) ← ws (kw "GHOST") input;
  '(input, name) ← ws quoted_string input;
  mret (input, name).

Definition parse_analyze (input : bytes) : IResult bytes :=
  '(input, _) ← ws (kw "ANALYZE") input;
  '(input, lobe) ← ws quoted_string input;
  mret (input, lobe).

Definition parse_autoanchor_apply (input : bytes) : IResult AutoAnchorApplyStmt :=
  '(input, _) ← ws (kw "AUTOANCHOR") input;
  '(input, _) ← ws (kw "APPLY") input;
  '(input, field) ← ws quoted_string input;
  '(input, _) ← ws (kw "IN") input;
  '(input, lobe) ← ws quoted_string input;
  mret (input, mkAutoAnchor field lobe).

(** ** Statements *)

Definition parse_failure (e : NomErr) : XyzError :=
  let rest := match e with NError i | NFailure i => str_trim i end in
  match rest with
  | [] => Parse "statement ends where more input was expected"
  | _ => Parse "could not parse from"
  end.

(** [let (_, x) = p(input).map_err(parse_failure)?; Ok(f(x))] *)
Definition run_parser {A B} (p : Parser A) (input : bytes) (f : A -> B) : Out B :=
  match p input with NOk (_, a) => Done (f a) | NErr e => Failed (parse_failure e) | NStuck => Panicked end.

(** The upper-case letters a statement begins with. *)
Definition leads (upper : bytes) (keyword : string) : bool := starts_with upper (str keyword).

Definition parse_find_statement (trimmed : bytes) : Out Statement :=
  match parse_find trimmed with
  | NOk (rest, stmt) =>
    let tail := trim_start rest in
    match tail with
    | [] => Done (SFind stmt)
    | _ =>
      let word := to_uppercase (take_chars is_alphanumeric tail).1 in
      if beqb word (str "OR") || beqb word (str "NOT") then Failed (Parse "FIND is AND-only")
      else Failed (Parse "unexpected trailing input in FIND")
    end
  | NErr e => Failed (parse_failure e)
  | NStuck => Panicked
  end.

Definition parse_scan_statement (trimmed : bytes) : Out Statement :=
  stmt ← run_parser parse_scan trimmed id;
  match st_order_by stmt, st_limit stmt with
  | Some _, None => Failed (Parse "ORDER BY requires LIMIT to bound the sort")
  | _, _ => Done (SScan stmt)
  end.

Definition parse_delete_statement (trimmed : bytes) : Out Statement :=
  stmt ← run_parser parse_delete_full trimmed id;
  match dl_filter_expr stmt with None => Failed (Parse "DELETE requires WHERE") | Some _ => Done (SDelete stmt) end.

Definition parse_fetch_statement (trimmed : bytes) : Out Statement :=
  stmt ← run_parser parse_fetch trimmed id;
  match ft_filter_expr stmt, ft_names stmt with
  | None, _ => Failed (Parse "FETCH requires WHERE")
  | Some _, Some names => if (length names =? length (ft_lobes stmt))%nat then Done (SFetch stmt) else Failed (Parse "FETCH AS: give one section name per lobe")
  | Some _, None => Done (SFetch stmt)
  end.

Definition parse_bulkmode (rest : bytes) : Out Statement :=
  let rest := str_trim rest in
  if leads rest "ON" then Done (SBulkMode true)
  else if leads rest "OFF" then Done (SBulkMode false)
  else Failed (Parse "Expected BULKMODE ON or BULKMODE OFF").

Definition parse_migrate (trimmed : bytes) : Out Statement :=
  match str_slice trimmed 7 (blen trimmed) with
  | Ok rest =>
    let rest := str_trim rest in
    match rest with [] => Done (SMigrate None) | _ => Done (SMigrate (Some (trim_quotes rest))) end
  | _ => Panicked
  end.

Definition parse_single_statement (input : bytes) : Out Statement :=
  let trimmed := str_trim input in
  let upper := to_uppercase trimmed in
  if leads upper "PUT BATCH" || leads upper "PUT  BATCH" then run_parser parse_put_batch trimmed SPutBatch
  else if leads upper "PUT" then run_parser parse_put trimmed SPut
  else if leads upper "FIND" then parse_find_statement trimmed
  else if leads upper "PULL" then run_parser parse_pull_full trimmed SPull
  else if leads upper "SCAN GHOST" then run_parser parse_scan_ghost trimmed SScanGhost
  else if leads upper "SCAN" then parse_scan_statement trimmed
  else if leads upper "CREATE GHOST" then run_parser parse_create_ghost trimmed SCreateGhost
  else if leads upper "REFRESH GHOST" then run_parser parse_refresh_ghost trimmed SRefreshGhost
  else if leads upper "DROP GHOST" then run_parser parse_drop_ghost trimmed SDropGhost
  else if leads upper "SET" then run_parser parse_set_full trimmed SSet
  else if leads upper "DELETE" then parse_delete_statement trimmed
  else if leads upper "PURGE" then run_parser parse_purge trimmed SPurge
  else if leads upper "FETCH" then parse_fetch_statement trimmed
  else if leads upper "LINK" then run_parser parse_link trimmed SLink
  else if leads upper "ANALYZE" then run_parser parse_analyze trimmed SAnalyze
  else if leads upper "BULKMODE" then parse_bulkmode (drop 8 upper)
  else if leads upper "COMPACT" then Done SCompact
  else if leads upper "SCRUB" then Done SScrub
  else if leads upper "MIGRATE" then parse_migrate trimmed
  else if leads upper "PIN" && negb (leads upper "PIPELINE") then run_parser parse_pin trimmed SPin
  else if leads upper "UNPIN" then run_parser parse_unpin trimmed SUnpin
  else if leads upper "AUTOANCHOR" then run_parser parse_autoanchor_apply trimmed SAutoAnchorApply
  else if leads upper "ANCHOR" then run_parser parse_anchor trimmed SAnchor
  else if leads upper "GRAVITY" then run_parser parse_gravity trimmed SGravity
  else if leads upper "VECTOR" then run_parser parse_vector trimmed SVector
  else if leads upper "SATELLITE" then run_parser parse_satellite trimmed SSatellite
  else if leads upper "LOBE" then run_parser parse_lobe trimmed SLobe
  else if leads upper "INCACHE" then run_parser parse_incache trimmed SInCache
  else if leads upper "OUTCACHE" then run_parser parse_outcache trimmed SOutCache
  else if leads upper "SHOW" then run_parser parse_show trimmed SShow
  else Failed (Parse "Unknown command").

(** ** Pipelines *)

(** [cur] is [input[last..i]]. *)
Fixpoint split_loop (s : bytes) (cur : bytes) (depth : Z) (in_string : bool) : list bytes :=
  match s with
  | [] => [str_trim cur]
  | b :: s' =>
    if (b =? 34) && negb in_string then split_loop s' (cur ++ [b]) depth true
    else if (b =? 34) && in_string then split_loop s' (cur ++ [b]) depth false
    else if (b =? 123) && negb in_string then split_loop s' (cur ++ [b]) (depth + 1) in_string
    else if (b =? 125) && negb in_string then split_loop s' (cur ++ [b]) (depth - 1) in_string
    else if (b =? 124) && negb in_string && (depth =? 0) then str_trim cur :: split_loop s' [] depth in_string
    else split_loop s' (cur ++ [b]) depth in_string
  end.

Definition split_pipeline (input : bytes) : list bytes := split_loop input [] 0 false.

Definition parse_pipeline_step (input : bytes) : Out PipelineStep :=
  let trimmed := str_trim input in
  let upper := to_uppercase trimmed in
  if leads upper "PULL" then run_parser parse_pull_step trimmed PPull
  else if leads upper "SET" then run_parser parse_set_step trimmed PSet
  else if leads upper "DELETE" then run_parser parse_delete_step trimmed PDelete
  else if leads upper "AGGREGATE" then run_parser parse_aggregate trimmed PAggregate
  else if leads upper "GROUP" then run_parser parse_group_by trimmed PGroupBy
  else if leads upper "NEAREST" then run_parser parse_nearest trimmed PNearest
  else if leads upper "FOLLOW" then run_parser parse_follow trimmed PFollow
  else if leads upper "TAKE" || leads upper "TOP" then run_parser parse_take trimmed PTop
  else if leads upper "SHAPE" then run_parser parse_shape_step trimmed PShape
  else Failed (Parse "Unknown pipeline step").

Definition pipeline_source (seg : bytes) : Out PipelineStep :=
  stmt ← parse_single_statement seg;
  match stmt with
  | SFind f => Done (PFind f)
  | SScan s => Done (PScan s)
  | SScanGhost s => Done (PScanGhost s)
  | _ => Failed (Parse "Pipeline must start with FIND, SCAN, or SCAN GHOST")
  end.

Fixpoint pipeline_steps (segments : list bytes) : Out (list PipelineStep) :=
  match segments with
  | [] => Done []
  | seg :: segments => step ← parse_pipeline_step seg; steps ← pipeline_steps segments; Done (step :: steps)
  end.

Definition parse_pipeline (segments : list bytes) : Out Statement :=
  match segments with
  | [] => Done (SPipeline [])
  | seg :: segments => first ← pipeline_source seg; steps ← pipeline_steps segments; Done (SPipeline (first :: steps))
  end.

Definition parse_segment (trimmed : bytes) : Out Statement :=
  if leads (to_uppercase trimmed) "CREATE GHOST" then parse_single_statement trimmed
  else
    match split_pipeline trimmed with
    | [seg] => parse_single_statement seg
    | segments => parse_pipeline segments
    end.

(** ** Input *)

Fixpoint comment_start (line : bytes) (in_string : bool) : bytes :=
  match line with
  | [] => []
  | b :: rest =>
    if b =? 34 then b :: comment_start rest (negb in_string)
    else if negb in_string && (b =? 45) && starts_with rest [45] then []
    else b :: comment_start rest in_string
  end.

Definition strip_comments (input : bytes) : bytes := join [32] ((fun line => comment_start line false) <$> lines input).

Definition parse (input : bytes) : Out Statement :=
  match str_trim (strip_comments input) with
  | [] => Failed (Parse "Empty input")
  | trimmed => parse_segment trimmed
  end.

Fixpoint parse_segments (segments : list bytes) : Out (list Statement) :=
  match segments with
  | [] => Done []
  | segment :: segments =>
    match str_trim segment with
    | [] => parse_segments segments
    | trimmed => stmt ← parse_segment trimmed; stmts ← parse_segments segments; Done (stmt :: stmts)
    end
  end.

Definition parse_multi (input : bytes) : Out (list Statement) :=
  stmts ← parse_segments (split_on 59 (strip_comments input));
  match stmts with [] => Failed (Parse "Empty input") | _ => Done stmts end.
End parser.
