(* ===== verification/Tokens.v ===== *)
(** * Tokens and their layout

    A statement is a list of tokens; a token can be spelled in several ways (keywords
    in any case, names with or without quotation marks), and the tokens can be laid out
    with any white space between them, or none where they do not run together. The
    parsers of single tokens read every layout. *)

From S2P Require Import Prelude Types Paths ByteOrder Value Lid Record Filters GroupKey Gravity Nom Parser.

(** * Tokens and their layout

    A statement is a list of tokens; a token can be spelled in several ways (keywords
    in any case, names with or without quotation marks), and the tokens can be laid out
    with any white space between them, or none where they do not run together. *)

(** ** Bytes *)

Definition ascii_word (b : Z) : bool := is_ascii_alpha_byte b || is_ascii_digit_byte b || (b =? 95).
Definition ident_byte (b : Z) : bool := ascii_word b || (b =? 46).

(** Two bytes that would read as one token. *)
Definition glue (x y : Z) : bool := ident_byte x && (ident_byte y || negb ((0 <=? y) && (y <? 128))) || existsb (Z.eqb x) [33; 60; 62] && (y =? 61).

Definition all_ws (w : bytes) : Prop := Forall (fun b => is_multispace b = true) w.
Definition nows (s : bytes) : Prop := match s with b :: _ => is_multispace b = false | [] => True end.

Definition brk (b s : bytes) : Prop := match last b, s with Some x, y :: _ => glue x y = false | _, _ => True end.

(** A byte a token can begin or end with: a printing ASCII character. *)
Definition solid (b : Z) : Prop := 32 < b < 127.

(** ** Tokens *)

(** Keywords are in upper case here; [TKw2] is two of them with one space between. *)
Inductive Tok :=
  | TKw (k : string)
  | TKw2 (k1 k2 : string)
  | TName (n : bytes)
  | TStr (s : bytes)
  | TLobe (n : bytes)
  | TSym (s : string)
  | TNat (n : Z)
  | TInt (i : Z)
  | TFloat (bits : Z)
  | TAt (s : bytes)
  | TParen (s : bytes)
  | TDollar (n : bytes).

(** The characters of a text, with quotation marks and backslashes escaped. *)
Definition escape_char (c : bytes) : bytes := if beqb c [34] || beqb c [92] then 92 :: c else c.
Definition quote (cs : list bytes) : bytes := [34] ++ concat (escape_char <$> cs) ++ [34].

Definition char_ok (c : bytes) : Prop := exists b t, c = b :: t /\ length c = char_len b /\ Forall (fun x => cont x = true) t.

Definition is_quoted (s b : bytes) : Prop := exists cs, Forall char_ok cs /\ s = concat cs /\ b = quote cs.

Definition is_ident (n : bytes) : Prop := n <> [] /\ Forall (fun b => ident_byte b = true) n.

Definition digits (s : bytes) : Prop := s <> [] /\ Forall (fun b => is_ascii_digit_byte b = true) s.

(** A number with a fraction or an exponent. *)
Definition float_text (s : bytes) : Prop :=
  exists sign int frac ex, s = sign ++ int ++ frac ++ ex /\ (sign = [] \/ sign = [45]) /\ digits int /\
    (frac = [] \/ exists d, digits d /\ frac = 46 :: d) /\
    (ex = [] \/ exists e sg d, (e = 101 \/ e = 69) /\ (sg = [] \/ sg = [43] \/ sg = [45]) /\ digits d /\ ex = e :: sg ++ d) /\
    (frac <> [] \/ ex <> []).

Section tokens.
Context {VT : ValueText}.

Definition spells_kw (k : string) (b : bytes) : Prop :=
  all_ascii b /\ str k <> [] /\ upper_byte <$> b = str k /\ Forall (fun c => is_ascii_alpha_byte c = true) b.

Definition spells (t : Tok) (b : bytes) : Prop :=
  match t with
  | TKw k => spells_kw k b
  | TKw2 k1 k2 => exists b1 b2, b = b1 ++ 32 :: b2 /\ spells_kw k1 b1 /\ spells_kw k2 b2
  | TName n => b = n /\ is_ident n
  | TStr s => is_quoted s b
  | TLobe n => is_quoted n b \/ b = n /\ is_ident n
  | TSym s => b = str s /\ str s <> [] /\ Forall (fun c => solid c /\ ident_byte c = false) b
  | TNat n => b = format_u64 n /\ is_uint 64 n
  | TInt i => b = display_i64 i /\ - 2 ^ 63 <= i < 2 ^ 63
  | TFloat bits => float_text b /\ parse_f64 b = Some bits
  | TAt s => exists q, is_quoted s q /\ b = 64 :: q
  | TParen s => exists q, is_quoted s q /\ b = 40 :: q ++ [41]
  | TDollar n => b = 36 :: n /\ is_ident n
  end.

(** [s] is the tokens [ts], laid out. *)
Fixpoint lays (ts : list Tok) (s : bytes) : Prop :=
  match ts with
  | [] => all_ws s
  | t :: ts => exists w b s', s = w ++ b ++ s' /\ all_ws w /\ spells t b /\ brk b s' /\ lays ts s'
  end.

(** ** White space *)

Lemma all_ws_nil : all_ws [].
Proof. constructor. Qed.
#[local] Hint Resolve all_ws_nil : core.

Lemma skip_ws_app w s : all_ws w -> skip_ws (w ++ s) = skip_ws s.
Proof. induction 1 as [|b w Hb _ IH]; [done|]. cbn. by rewrite Hb. Qed.

Lemma skip_ws_all w : all_ws w -> skip_ws w = [].
Proof. intros H. rewrite <- (app_nil_r w). by rewrite skip_ws_app. Qed.

Lemma skip_ws_nows s : nows s -> skip_ws s = s.
Proof. destruct s as [|b s]; [done|]. cbn. by intros ->. Qed.

Lemma nows_skip s : nows (skip_ws s).
Proof. induction s as [|b s IH]; [done|]. cbn. destruct (is_multispace b) eqn:E; done. Qed.

Lemma solid_nows x : solid x -> is_multispace x = false.
Proof. unfold solid, is_multispace. intros. by rewrite !(proj2 (Z.eqb_neq _ _)) by lia. Qed.

Lemma ws_small x : is_multispace x = true -> x = 32 \/ x = 9 \/ x = 13 \/ x = 10.
Proof. unfold is_multispace. rewrite !orb_true_iff, !Z.eqb_eq. tauto. Qed.

(** ** Characters *)

Lemma alpha_word b : is_ascii_alpha_byte b = true -> ident_byte b = true.
Proof. unfold ident_byte, ascii_word. by intros ->. Qed.

Lemma digit_word b : is_ascii_digit_byte b = true -> ident_byte b = true.
Proof. unfold ident_byte, ascii_word. intros ->. by rewrite !orb_true_r. Qed.

Lemma word_solid b : ident_byte b = true -> solid b.
Proof. unfold ident_byte, ascii_word, is_ascii_alpha_byte, is_ascii_digit_byte, solid. lia. Qed.

Lemma all_solid_ends b (Hne : b <> []) : Forall solid b -> (exists x m, b = x :: m /\ solid x) /\ exists m x, b = m ++ [x] /\ solid x.
Proof.
  intros H. split.
  - destruct b as [|x m]; [done|]. exists x, m. split; [done|]. by inversion H.
  - destruct (exists_last Hne) as (m & x & ->). exists m, x. split; [done|]. apply Forall_app in H as [_ H]. by inversion H.
Qed.

Lemma digits_ends b : digits b -> (exists x m, b = x :: m /\ solid x) /\ exists m x, b = m ++ [x] /\ solid x.
Proof. intros [Hne H]. apply all_solid_ends; [done|]. eapply Forall_impl; [exact H|]. intros x Hx. by apply word_solid, digit_word. Qed.

Lemma format_u64_is_digits n : digits (format_u64 n).
Proof. split; [apply format_u64_ne|]. eapply Forall_impl; [apply format_u64_digits|]. cbn. unfold is_ascii_digit_byte. lia. Qed.

(** The first and the last byte of a token. *)
Lemma spells_ends t b : spells t b -> (exists x m, b = x :: m /\ solid x) /\ exists m x, b = m ++ [x] /\ solid x.
Proof.
  assert (forall s b, is_quoted s b -> exists m, b = 34 :: m ++ [34]) as Hq by (intros ? ? (cs & _ & _ & ->); by eexists).
  assert (forall n, is_ident n -> (exists x m, n = x :: m /\ solid x) /\ exists m x, n = m ++ [x] /\ solid x) as Hi.
  { intros n [Hne H]. apply all_solid_ends; [done|]. eapply Forall_impl; [exact H|]. apply word_solid. }
  assert (solid 34 /\ solid 40 /\ solid 41 /\ solid 64 /\ solid 36 /\ solid 45) as (S34 & S40 & S41 & S64 & S36 & S45) by (unfold solid; lia).
  assert (forall k b, spells_kw k b -> (exists x m, b = x :: m /\ solid x) /\ exists m x, b = m ++ [x] /\ solid x) as Hkw.
  { intros k w (_ & Hne & E & H). apply all_solid_ends; [intros ->; by rewrite <- E in Hne|]. eapply Forall_impl; [exact H|]. intros c Hc. by apply word_solid, alpha_word. }
  destruct t; cbn [spells].
  - apply Hkw.
  - intros (b1 & b2 & -> & [(x & m & -> & Hx) _]%Hkw & [_ (m2 & x2 & -> & Hx2)]%Hkw). split; [by eexists _, _|]. exists ((x :: m) ++ 32 :: m2), x2. by rewrite <- app_assoc.
  - intros [-> H]. by apply Hi.
  - intros (m & ->)%Hq. split; [by exists 34, (m ++ [34])|by exists (34 :: m), 34].
  - intros [(m & ->)%Hq | [-> H]]; [|by apply Hi]. split; [by exists 34, (m ++ [34])|by exists (34 :: m), 34].
  - intros (-> & Hne & H). apply all_solid_ends; [done|]. eapply Forall_impl; [exact H|]. by intros c [Hc _].
  - intros [-> _]. apply digits_ends, format_u64_is_digits.
  - intros [-> _]. unfold display_i64. case_match; [|apply digits_ends, format_u64_is_digits]. destruct (digits_ends _ (format_u64_is_digits (- i))) as [_ (m & x & -> & Hx)].
    split; [by eexists _, _|]. by exists (45 :: m), x.
  - intros [(sign & int & frac & ex & -> & Hs & Hd & Hf & He & _) _]. destruct (digits_ends _ Hd) as [(x & m & E & Hx) (m' & x' & E' & Hx')]. split.
    + destruct Hs as [-> | ->]; [rewrite E; by eexists _, _|by eexists _, _].
    + destruct He as [-> | (e & sg & d & _ & _ & (_ & m2 & x2 & -> & Hx2)%digits_ends & ->)].
      * rewrite app_nil_r. destruct Hf as [-> | (d & (_ & m2 & x2 & -> & Hx2)%digits_ends & ->)].
        -- rewrite app_nil_r, E'. exists (sign ++ m'), x'. by rewrite app_assoc.
        -- exists (sign ++ int ++ 46 :: m2), x2. by rewrite <- !app_assoc.
      * exists (sign ++ int ++ frac ++ e :: sg ++ m2), x2. by rewrite <- !app_assoc; cbn; rewrite <- !app_assoc.
  - intros (q & (m & ->)%Hq & ->). split; [by eexists _, _|]. by exists (64 :: 34 :: m), 34.
  - intros (q & (m & ->)%Hq & ->). split; [by eexists _, _|]. by exists (40 :: 34 :: m ++ [34]), 41.
  - intros [-> H]. split; [by eexists _, _|]. destruct (Hi n H) as [_ (m & x & -> & Hx)]. by exists (36 :: m), x.
Qed.

Lemma spells_nows t b s : spells t b -> nows (b ++ s).
Proof. intros H. destruct (spells_ends t b H) as [(x & m & -> & Hx) _]. cbn. by apply solid_nows. Qed.

(** ** Layouts *)

Lemma lays_skip ts s : lays ts s -> lays ts (skip_ws s).
Proof.
  destruct ts as [|t ts]; cbn [lays]; [intros H; by rewrite skip_ws_all|]. intros (w & b & s' & -> & Hw & Hb & Hr).
  rewrite skip_ws_app by done. rewrite skip_ws_nows by (eapply spells_nows; exact Hb). exists [], b, s'. split; [done|]. split; [constructor|done].
Qed.

Lemma lays_cons t ts s : lays (t :: ts) s -> exists b s', skip_ws s = b ++ s' /\ spells t b /\ brk b s' /\ lays ts s'.
Proof.
  intros (w & b & s' & -> & Hw & Hb & Hr). exists b, s'. split; [|done]. rewrite skip_ws_app by done. apply skip_ws_nows. eapply spells_nows; exact Hb.
Qed.

Lemma lays_end s : lays [] s -> skip_ws s = [].
Proof. apply skip_ws_all. Qed.

Lemma lays_length ts s : lays ts s -> (length ts <= length s)%nat.
Proof.
  revert s. induction ts as [|t ts IH]; intros s; cbn [lays length]; [lia|]. intros (w & b & s' & -> & _ & Hb & _ & Hs). specialize (IH _ Hs).
  destruct (spells_ends t b Hb) as [(x & m & -> & _) _]. rewrite !length_app. cbn. lia.
Qed.

(** ** Trimming *)

Lemma first_strip_solid x m : solid x -> first_strip strip_prefix (x :: m) = None.
Proof.
  unfold solid, first_strip, strip_prefix. intros H.
  assert (forall c acc, acc = None -> (exists y c', c = y :: c' /\ (y <= 32 \/ 127 < y)) ->
    match acc with Some r => Some r | None => if starts_with (x :: m) c then Some (drop (length c) (x :: m)) else None end = None) as Hs.
  { intros c acc -> (y & c' & -> & Hy). cbn [starts_with]. by rewrite (proj2 (Z.eqb_neq x y)) by lia. }
  assert (Forall (fun c => exists y c', c = y :: c' /\ (y <= 32 \/ 127 < y)) white_space) as Hw.
  { let l := eval vm_compute in white_space in change white_space with l. repeat (apply Forall_cons; split; [by eexists _, _; split; [reflexivity|lia]|]). constructor. }
  revert Hw. generalize white_space. intros l Hl. induction Hl as [|c l Hc _ IH]; [done|]. cbn. by rewrite (Hs c None eq_refl Hc).
Qed.

Lemma first_strip_ws x m : is_multispace x = true -> first_strip strip_prefix (x :: m) = Some m.
Proof. intros [-> | [-> | [-> | ->]]]%ws_small; reflexivity. Qed.

Lemma strip_suffix_ends m x c y c' : c = c' ++ [y] -> x <> y -> strip_suffix (m ++ [x]) c = None.
Proof. intros -> H. unfold strip_suffix. rewrite !reverse_app. cbn. by rewrite (proj2 (Z.eqb_neq x y)) by done. Qed.

Lemma first_strip_suffix_solid m x : solid x -> first_strip strip_suffix (m ++ [x]) = None.
Proof.
  unfold solid, first_strip. intros H.
  assert (Forall (fun c => exists y c', c = c' ++ [y] /\ (y <= 32 \/ 127 < y)) white_space) as Hw.
  { let l := eval vm_compute in white_space in change white_space with l.
    repeat (apply Forall_cons; split; [match goal with |- exists y c', ?c = _ /\ _ => exists (List.last c 0), (removelast c); split; [reflexivity|cbn; lia] end|]). constructor. }
  revert Hw. generalize white_space. intros l Hl. induction Hl as [|c l (y & c' & Ec & Hy) _ IH]; [done|]. cbn.
  rewrite (strip_suffix_ends m x c y c') by (done || lia). apply IH.
Qed.

Lemma strip_suffix_one m x : strip_suffix (m ++ [x]) [x] = Some m.
Proof.
  unfold strip_suffix. rewrite reverse_app. cbn. rewrite Z.eqb_refl, length_app. cbn. f_equal.
  replace (length m + 1 - 1)%nat with (length m) by lia. apply take_app_length.
Qed.

Lemma first_strip_suffix_ws m x : is_multispace x = true -> first_strip strip_suffix (m ++ [x]) = Some m.
Proof.
  assert (forall l, foldl (fun acc c => match acc with Some r => Some r | None => strip_suffix (m ++ [x]) c end) (Some m) l = Some m) as Hs by (by intros l; induction l).
  unfold first_strip. intros [-> | [-> | [-> | ->]]]%ws_small; unfold white_space; cbn [foldl app];
    rewrite ?(strip_suffix_ends m _ [9] 9 []), ?(strip_suffix_ends m _ [10] 10 []), ?(strip_suffix_ends m _ [11] 11 []), ?(strip_suffix_ends m _ [12] 12 []),
      ?(strip_suffix_ends m _ [13] 13 []) by done; rewrite strip_suffix_one; apply Hs.
Qed.

Lemma trim_start_ws w s : all_ws w -> (s = [] \/ exists x m, s = x :: m /\ solid x) -> trim_start (w ++ s) = s.
Proof.
  intros Hw Hs. unfold trim_start.
  assert (forall n, (length w <= n)%nat -> strip_loop strip_prefix n (w ++ s) = s) as H.
  { assert (forall n, strip_loop strip_prefix n s = s) as H0.
    { intros [|n]; [done|]. cbn [strip_loop]. destruct Hs as [-> | (x & m & -> & Hx)]; [reflexivity|]. by rewrite first_strip_solid. }
    induction Hw as [|b w Hb _ IH]; intros n Hn; [apply H0|]. destruct n as [|n]; [cbn in Hn; lia|]. cbn [strip_loop app]. rewrite first_strip_ws by done.
    apply IH. cbn in Hn. lia. }
  apply H. rewrite length_app. lia.
Qed.

Lemma trim_end_ws s w : all_ws w -> (s = [] \/ exists m x, s = m ++ [x] /\ solid x) -> strip_loop strip_suffix (length (s ++ w)) (s ++ w) = s.
Proof.
  intros Hw Hs. assert (forall n, (length w <= n)%nat -> strip_loop strip_suffix n (s ++ w) = s) as H; [|apply H; rewrite length_app; lia].
  assert (forall n, strip_loop strip_suffix n s = s) as H0.
  { intros [|n]; [done|]. cbn [strip_loop]. destruct Hs as [-> | (m & x & -> & Hx)]; [reflexivity|]. by rewrite first_strip_suffix_solid. }
  induction w as [|b w IH] using rev_ind; intros n Hn; [rewrite app_nil_r; apply H0|]. rewrite length_app in Hn. cbn in Hn. destruct n as [|n]; [lia|].
  apply Forall_app in Hw as [Hw Hb]. apply Forall_cons in Hb as [Hb _]. rewrite app_assoc. cbn [strip_loop]. rewrite first_strip_suffix_ws by done. apply IH; [done|lia].
Qed.

Lemma str_trim_ws w s w' :
  all_ws w -> all_ws w' -> (exists x m, s = x :: m /\ solid x) -> (exists m x, s = m ++ [x] /\ solid x) -> str_trim (w ++ s ++ w') = s.
Proof.
  intros Hw Hw' (x & m & E & Hx) Hl. unfold str_trim. fold (trim_start (w ++ s ++ w')). rewrite trim_start_ws; [|done|right; exists x, (m ++ w'); by rewrite E].
  apply trim_end_ws; [done|by right].
Qed.

Lemma lays_trim_start ts s : lays ts s -> trim_start s = skip_ws s.
Proof.
  destruct ts as [|t ts]; cbn [lays].
  - intros H. rewrite skip_ws_all by done. rewrite <- (app_nil_r s). apply trim_start_ws; [done|by left].
  - intros (w & b & s' & -> & Hw & Hb & _). destruct (spells_ends t b Hb) as [(x & m & -> & Hx) _].
    rewrite skip_ws_app by done. rewrite trim_start_ws; [|done|right; by eexists _, _]. symmetry. apply skip_ws_nows. cbn. by apply solid_nows.
Qed.

(** What is left of a layout when the white space around it is gone. *)
Lemma lays_core ts s :
  lays ts s -> exists w c w', s = w ++ c ++ w' /\ all_ws w /\ all_ws w' /\ lays ts c /\
    (ts = [] /\ c = [] \/ (exists x m, c = x :: m /\ solid x) /\ (exists m x, c = m ++ [x] /\ solid x)).
Proof.
  revert s. induction ts as [|t ts IH]; intros s.
  - cbn. intros H. exists s, [], []. rewrite app_nil_r. repeat split; [done|constructor|constructor|]. by left.
  - intros (w & b & s' & -> & Hw & Hb & Hk & Hs). destruct (IH s' Hs) as (w1 & c & w2 & -> & Hw1 & Hw2 & Hc & Hends).
    destruct (spells_ends t b Hb) as [(x & m & Eb & Hx) (m' & x' & Eb' & Hx')]. destruct Hends as [[-> ->] | [_ (m2 & x2 & -> & Hx2)]].
    + exists w, b, (w1 ++ w2). repeat split; [done|by apply Forall_app| |right; split; [by exists x, m|by exists m', x']].
      exists [], b, []. rewrite app_nil_r. repeat split; [constructor|done| |constructor]. unfold brk. by case_match.
    + exists w, (b ++ w1 ++ m2 ++ [x2]), w2. rewrite <- !app_assoc. repeat split; [done|done| |right; split].
      * exists [], b, (w1 ++ m2 ++ [x2]). split; [done|]. split; [constructor|]. split; [done|]. split.
        -- unfold brk in *. destruct (last b); [|done]. destruct w1 as [|y w1]; [|done]. destruct m2; done.
        -- destruct ts as [|t' ts]; [apply Forall_app in Hc as [_ Hc]; apply Forall_cons in Hc as [Hc _]; by rewrite (solid_nows _ Hx2) in Hc|]. destruct Hc as (w3 & b3 & s3 & E3 & Hw3 & Hr). exists (w1 ++ w3), b3, s3.
           rewrite E3, <- app_assoc. split; [done|]. split; [by apply Forall_app|done].
      * rewrite Eb. by eexists _, _.
      * exists (b ++ w1 ++ m2), x2. by rewrite <- !app_assoc.
Qed.

Lemma lays_trim ts s : lays ts s -> lays ts (str_trim s) /\ nows (str_trim s).
Proof.
  intros H. destruct (lays_core ts s H) as (w & c & w' & -> & Hw & Hw' & Hc & Hends). destruct Hends as [[-> ->] | [Hf Hl]].
  - cbn [app]. assert (str_trim (w ++ w') = []) as ->; [|split; [constructor|done]]. unfold str_trim.
    pose proof (trim_start_ws (w ++ w') []) as E. rewrite app_nil_r in E. unfold trim_start in E. rewrite E; [done|by apply Forall_app|by left].
  - rewrite str_trim_ws by done. split; [done|]. destruct Hf as (x & m & -> & Hx). cbn. by apply solid_nows.
Qed.
End tokens.

(** * Reading tokens

    What the combinators do on a layout: each token is read by its parser and refused
    by the others. *)

Lemma alike_ok {T} (r s : NResult T) x : alike r s -> s = NOk x -> r = NOk x.
Proof. intros [-> | [_ [i ->]]]; done. Qed.

Lemma alike_errs {T} (r s : NResult T) : alike r s -> errs s -> errs r.
Proof. intros [-> | [H _]]; done. Qed.

Lemma errs_bind {A B} (r : NResult A) (f : A -> NResult B) : errs r -> errs (r ≫= f).
Proof. intros [i ->]. by eexists. Qed.

(** The keyword [K] could be read from the token; so could the character [c]. *)
Definition kw_clash (K : string) (t : Tok) : bool :=
  match t with
  | TKw k => starts_with (str k) (upper_byte <$> str K)
  | TKw2 _ _ => true
  | TName n | TLobe n => starts_with (upper_byte <$> n) (upper_byte <$> str K)
  | _ => false
  end.

Definition sym_clash (c : Z) (t : Tok) : bool :=
  match t with
  | TStr _ | TLobe _ => c =? 34
  | TSym s => match str s with b :: _ => b =? c | [] => false end
  | TInt _ | TFloat _ => c =? 45
  | TAt _ => c =? 64
  | TParen _ => c =? 40
  | TDollar _ => c =? 36
  | _ => false
  end.

Definition kw_off (K : string) (ts : list Tok) : bool := match ts with [] => true | t :: _ => negb (kw_clash K t) end.
Definition sym_off (c : Z) (ts : list Tok) : bool := match ts with [] => true | t :: _ => negb (sym_clash c t) end.

(** Tokens an identifier cannot begin with *)
Definition no_word (ts : list Tok) : bool :=
  match ts with (TKw _ | TKw2 _ _ | TName _ | TLobe _ | TNat _ | TInt _ | TFloat _) :: _ => false | _ => true end.

Section reads.
Context {N : Nom} {NL : NomLaws N} {UN : Unicode} {VT : ValueText}.

(** [p] reads the tokens [T] as [v] and leaves [ts]. *)
Definition reads {A} (p : Parser A) (T : list Tok) (v : A) (ts : list Tok) : Prop :=
  forall s, lays (T ++ ts) s -> exists r, p s = NOk (r, v) /\ lays ts r.

(** The same, from the first byte of a token on. *)
Definition reads_at {A} (p : Parser A) (T : list Tok) (v : A) (ts : list Tok) : Prop :=
  forall s, lays (T ++ ts) s -> nows s -> exists r, p s = NOk (r, v) /\ lays ts r.

(** The same, and the white space after it. *)
Definition reads_ws {A} (p : Parser A) (T : list Tok) (v : A) (ts : list Tok) : Prop :=
  forall s, lays (T ++ ts) s -> exists r, p s = NOk (r, v) /\ lays ts r /\ nows r.

Definition fails {A} (p : Parser A) (ts : list Tok) : Prop := forall s, lays ts s -> errs (p s).
Definition fails_at {A} (p : Parser A) (ts : list Tok) : Prop := forall s, lays ts s -> nows s -> errs (p s).

Definition accepts {A} (p : Parser A) (t : Tok) (v : A) : Prop := forall b s, spells t b -> brk b s -> p (b ++ s) = NOk (s, v).
Definition rejects {A} (p : Parser A) (t : Tok) : Prop := forall b s, spells t b -> brk b s -> errs (p (b ++ s)).

(** ** Combinators *)

Lemma ws_eq {A} (p : Parser A) s :
  ws p s = match p (skip_ws s) with NOk (r, a) => NOk (skip_ws r, a) | NErr e => NErr e | NStuck => NStuck end.
Proof.
  unfold ws. rewrite delimited_law, multispace0_law. cbn. destruct (p (skip_ws s)) as [[r a]|e|]; cbn; [|done..]. by rewrite multispace0_law.
Qed.

Lemma reads_at_accepts {A} (p : Parser A) t v ts : accepts p t v -> reads_at p [t] v ts.
Proof.
  intros H s Hs Hn. apply lays_cons in Hs as (b & s' & E & Hb & Hk & Hs). rewrite skip_ws_nows in E by done. subst s. exists s'. by rewrite H.
Qed.

Lemma fails_at_rejects {A} (p : Parser A) ts : match ts with [] => errs (p []) | t :: _ => rejects p t end -> fails_at p ts.
Proof.
  intros H s Hs Hn. destruct ts as [|t ts].
  - apply lays_end in Hs. rewrite skip_ws_nows in Hs by done. by subst s.
  - apply lays_cons in Hs as (b & s' & E & Hb & Hk & Hs). rewrite skip_ws_nows in E by done. subst s. by apply H.
Qed.

Lemma ws_reads {A} (p : Parser A) T v ts : reads_at p T v ts -> reads_ws (ws p) T v ts.
Proof.
  intros H s Hs. destruct (H (skip_ws s)) as (r & E & Hr); [by apply lays_skip|apply nows_skip|]. rewrite ws_eq, E. exists (skip_ws r).
  split; [done|]. split; [by apply lays_skip|apply nows_skip].
Qed.

Lemma ws_token {A} (p : Parser A) t v ts : accepts p t v -> reads_ws (ws p) [t] v ts.
Proof. intros H. by apply ws_reads, reads_at_accepts. Qed.

Lemma ws_fails {A} (p : Parser A) ts : fails_at p ts -> fails (ws p) ts.
Proof.
  intros H s Hs. destruct (H (skip_ws s)) as (i & E); [by apply lays_skip|apply nows_skip|]. rewrite ws_eq, E. by eexists.
Qed.

Lemma reads_weaken {A} (p : Parser A) T v ts : reads_ws p T v ts -> reads p T v ts.
Proof. intros H s Hs. destruct (H s Hs) as (r & E & Hr & _). by exists r. Qed.

Lemma opt_some {A} (p : Parser A) s r v : p s = NOk (r, v) -> opt p s = NOk (r, Some v).
Proof. intros E. rewrite opt_law. unfold opt_fun. by rewrite E. Qed.

Lemma opt_none {A} (p : Parser A) s : errs (p s) -> opt p s = NOk (s, None).
Proof. intros [i E]. rewrite opt_law. unfold opt_fun. by rewrite E. Qed.

Lemma opt_reads {A} (p : Parser A) T v ts : reads p T v ts -> reads (opt p) T (Some v) ts.
Proof. intros H s Hs. destruct (H s Hs) as (r & E & Hr). exists r. by rewrite (opt_some _ _ _ _ E). Qed.

Lemma opt_skips {A} (p : Parser A) ts : fails p ts -> reads (opt p) [] None ts.
Proof. intros H s Hs. exists s. by rewrite opt_none by (by apply H). Qed.

Lemma alt_here {A} (p : Parser A) ps s x : p s = NOk x -> alt (p :: ps) s = NOk x.
Proof. intros E. eapply alike_ok; [apply alt_law|]. cbn. by rewrite E. Qed.

Lemma alt_next {A} (p : Parser A) ps s x : errs (p s) -> alt ps s = NOk x -> alt (p :: ps) s = NOk x.
Proof.
  intros [i E] E'. eapply alike_ok; [apply alt_law|]. cbn. rewrite E. destruct (alt_law A ps s) as [H | [[j H] _]]; congruence.
Qed.

Lemma alt_errs {A} (ps : list (Parser A)) s : Forall (fun p => errs (p s)) ps -> errs (alt ps s).
Proof.
  intros H. eapply alike_errs; [apply alt_law|]. induction H as [|p ps [i E] _ IH]; [by eexists|]. cbn. by rewrite E.
Qed.

(** ** Single characters and symbols *)

Lemma nchar_ok c s : 0 <= c < 128 -> nchar c (c :: s) = NOk (s, c).
Proof. intros H. eapply alike_ok; [by apply nchar_law|]. cbn. by rewrite Z.eqb_refl. Qed.

Lemma nchar_differs c x s : 0 <= c < 128 -> x <> c -> errs (nchar c (x :: s)).
Proof. intros H Hx. eapply alike_errs; [by apply nchar_law|]. cbn. rewrite (proj2 (Z.eqb_neq _ _)) by done. by eexists. Qed.

Lemma nchar_nil c : 0 <= c < 128 -> errs (nchar c []).
Proof. intros H. eapply alike_errs; [by apply nchar_law|]. by eexists. Qed.

Lemma quoted_head s b : is_quoted s b -> exists m, b = 34 :: m.
Proof. intros (cs & _ & _ & ->). by eexists. Qed.

Lemma ident_head n : is_ident n -> exists x m, n = x :: m /\ ident_byte x = true.
Proof. intros [Hne H]. destruct n as [|x m]; [done|]. exists x, m. split; [done|]. by inversion H. Qed.

Lemma digits_head d : digits d -> exists x m, d = x :: m /\ is_ascii_digit_byte x = true.
Proof. intros [Hne H]. destruct d as [|x m]; [done|]. exists x, m. split; [done|]. by inversion H. Qed.

Lemma number_head b : spells (TInt b) (display_i64 b) -> exists x m, display_i64 b = x :: m /\ (x = 45 \/ is_ascii_digit_byte x = true).
Proof.
  intros _. unfold display_i64. case_match; [by eexists _, _; split; [|left]|]. destruct (digits_head _ (format_u64_is_digits b)) as (x & m & E & Hx). eauto.
Qed.

Lemma float_head b : float_text b -> exists x m, b = x :: m /\ (x = 45 \/ is_ascii_digit_byte x = true).
Proof.
  intros (sign & int & frac & ex & -> & Hs & (x & m & -> & Hx)%digits_head & _). destruct Hs as [-> | ->]; eexists _, _; (split; [reflexivity|]); auto.
Qed.

(** The first byte of a spelling. *)
Lemma spells_first t b : spells t b -> exists x m, b = x :: m /\
  match t with
  | TKw _ | TKw2 _ _ => is_ascii_alpha_byte x = true
  | TName _ => ident_byte x = true
  | TNat _ => is_ascii_digit_byte x = true
  | TStr _ => x = 34
  | TLobe _ => x = 34 \/ ident_byte x = true
  | TSym s => exists m', str s = x :: m' /\ ident_byte x = false
  | TInt _ | TFloat _ => x = 45 \/ is_ascii_digit_byte x = true
  | TAt _ => x = 64
  | TParen _ => x = 40
  | TDollar _ => x = 36
  end.
Proof.
  destruct t; cbn [spells].
  - intros (_ & Hne & E & H). destruct b as [|x m]; [by rewrite <- E in Hne|]. exists x, m. split; [done|]. by inversion H.
  - intros (b1 & b2 & -> & (_ & Hne & E & H) & _). destruct b1 as [|x m]; [by rewrite <- E in Hne|]. exists x, (m ++ 32 :: b2). split; [done|]. by inversion H.
  - intros [-> (x & m & -> & H)%ident_head]. by exists x, m.
  - intros (m & ->)%quoted_head. by exists 34, m.
  - intros [(m & ->)%quoted_head | [-> (x & m & -> & H)%ident_head]]; [exists 34, m|exists x, m]; auto.
  - intros (-> & Hne & H). destruct (str s) as [|x m]; [done|]. exists x, m. apply Forall_cons in H as [[_ H] _]. split; [done|]. by exists m.
  - intros [-> _]. destruct (digits_head _ (format_u64_is_digits n)) as (x & m & -> & H). by exists x, m.
  - intros [-> H]. by apply number_head.
  - intros [H _]. by apply float_head.
  - intros (q & _ & ->). by exists 64, q.
  - intros (q & _ & ->). by eexists _, _.
  - intros [-> _]. by eexists _, _.
Qed.

Lemma nchar_rejects c t : 0 <= c < 128 -> ident_byte c = false -> sym_clash c t = false -> rejects (nchar c) t.
Proof.
  intros Hc Hi Ht b s Hb _. destruct (spells_first t b Hb) as (x & m & -> & H). apply nchar_differs; [done|]. intros ->.
  destruct t; cbn in Ht, H; rewrite ?(alpha_word c), ?(digit_word c) in Hi by done; try congruence; try (by subst c).
  - destruct H as [-> | H]; [done|congruence].
  - destruct H as (m' & E & _). rewrite E, Z.eqb_refl in Ht. done.
  - destruct H as [-> | H%digit_word]; [done|congruence].
  - destruct H as [-> | H%digit_word]; [done|congruence].
Qed.

Lemma sym_fails_at c ts : 0 <= c < 128 -> ident_byte c = false -> sym_off c ts = true -> fails_at (nchar c) ts.
Proof.
  intros Hc Hi H. apply fails_at_rejects. destruct ts as [|t ts]; [by apply nchar_nil|]. apply nchar_rejects; [done|done|]. by apply negb_true_iff.
Qed.

Lemma nchar_accepts c s : str s = [c] -> 0 <= c < 128 -> accepts (nchar c) (TSym s) c.
Proof. intros E Hc b s' (-> & _) _. rewrite E. by apply nchar_ok. Qed.

(** ** Keywords *)

Lemma alpha_ascii b : is_ascii_alpha_byte b = true -> 0 <= b < 128.
Proof. unfold is_ascii_alpha_byte. lia. Qed.

Definition is_keyword (K : string) : Prop := str K <> [] /\ Forall (fun c => is_ascii_alpha_byte c = true) (str K).

Lemma upper_alpha_idem b : upper_byte (upper_byte b) = upper_byte b.
Proof. unfold upper_byte. repeat case_match; lia. Qed.

Lemma eq_ignore_upper a b : upper_byte <$> a = upper_byte <$> b -> eq_ignore_ascii_case a b = true.
Proof. intros E. unfold eq_ignore_ascii_case. by apply beqb_eq. Qed.

Lemma upper_ident x : ident_byte (upper_byte x) = ident_byte x.
Proof. unfold ident_byte, ascii_word, is_ascii_alpha_byte, is_ascii_digit_byte, upper_byte. repeat case_match; lia. Qed.

Lemma keyword_ascii K : is_keyword K -> all_ascii (str K).
Proof. intros [_ H]. eapply Forall_impl; [exact H|]. apply alpha_ascii. Qed.

Lemma brk_word b s : b <> [] -> Forall (fun c => ident_byte c = true) b -> brk b s ->
  match s with [] => True | y :: _ => 0 <= y < 128 /\ ident_byte y = false end.
Proof.
  intros Hne Hw Hk. destruct s as [|y s]; [done|]. destruct (exists_last Hne) as (m & x & ->). unfold brk in Hk. rewrite last_snoc in Hk. unfold glue in Hk.
  apply Forall_app in Hw as [_ Hw]. apply Forall_cons in Hw as [Hx _]. rewrite Hx in Hk. cbn in Hk.
  destruct (ident_byte y); [done|]. cbn in Hk. lia.
Qed.

Lemma prefix_upper K b : starts_with (upper_byte <$> b) (upper_byte <$> K) = false ->
  (length K <= length b)%nat -> eq_ignore_ascii_case (take (length K) b) K = false.
Proof.
  intros Hp Hl. apply not_true_iff_false. intros E. unfold eq_ignore_ascii_case in E. apply beqb_eq in E.
  apply not_true_iff_false in Hp. apply Hp. apply starts_with_iff. exists (drop (length K) (upper_byte <$> b)). rewrite <- E, fmap_take. by rewrite take_drop.
Qed.

(** A word that the keyword is not a prefix of. *)
Lemma kw_word_rejects K b s :
  is_keyword K -> b <> [] -> all_ascii b -> Forall (fun c => ident_byte c = true) b -> brk b s ->
  starts_with (upper_byte <$> b) (upper_byte <$> str K) = false -> errs (kw K (b ++ s)).
Proof.
  intros HK Hne Hb Hw Hk Hp. pose proof (keyword_ascii K HK) as HKa. unfold kw. destruct (Nat.le_gt_cases (length (str K)) (length b)) as [Hl | Hl].
  - rewrite <- (take_drop (length (str K)) b), <- app_assoc. assert (length (take (length (str K)) b) = length (str K)) as El by (rewrite length_take; lia).
    apply tag_no_case_differs; [done|by apply Forall_take|lia|]. rewrite El, (take_ge (str K)) by done. by apply prefix_upper.
  - pose proof (brk_word b s Hne Hw Hk) as Hs. destruct s as [|y s]; [rewrite app_nil_r; by apply tag_no_case_short|]. destruct Hs as [Hy Hyw].
    replace (b ++ y :: s) with ((b ++ [y]) ++ s) by (by rewrite <- app_assoc). apply tag_no_case_differs; [done|by apply Forall_app; split; [|constructor]|rewrite length_app; cbn; lia|].
    apply not_true_iff_false. intros E. unfold eq_ignore_ascii_case in E. apply beqb_eq in E. rewrite length_app in E. cbn in E.
    destruct (lookup_lt_is_Some_2 (str K) (length b) Hl) as [z Hz]. replace (length b + 1)%nat with (S (length b)) in E by lia. erewrite take_S_r in E by done.
    rewrite !fmap_app in E. apply app_inj_tail in E as [_ E]. destruct HK as [_ HK]. rewrite Forall_lookup in HK. apply HK, alpha_word in Hz.
    rewrite <- upper_ident, <- E, upper_ident in Hz. congruence.
Qed.

(** An input that begins with another kind of character. *)
Lemma kw_other_rejects K x s : is_keyword K -> 0 <= x < 128 -> is_ascii_alpha_byte x = false -> errs (kw K (x :: s)).
Proof.
  intros HK Hx Ha. unfold kw. change (x :: s) with ([x] ++ s). pose proof HK as [Hne Hl]. destruct (str K) as [|k K'] eqn:EK; [done|].
  apply tag_no_case_differs; [rewrite <- EK; by apply keyword_ascii|by constructor|cbn; lia|]. cbn. apply not_true_iff_false. intros E%beqb_eq. injection E as E.
  apply Forall_cons in Hl as [Hk _]. revert Hk Ha E. unfold is_ascii_alpha_byte, upper_byte. repeat case_match; lia.
Qed.

Lemma spelled_ascii b : Forall (fun c => ident_byte c = true) b -> all_ascii b.
Proof. intros H. eapply Forall_impl; [exact H|]. intros c Hc. apply word_solid in Hc. unfold solid in Hc. lia. Qed.

Lemma kw_rejects K t : is_keyword K -> kw_clash K t = false -> rejects (kw K) t.
Proof.
  intros HK Ht b s Hb Hk. destruct (spells_first t b Hb) as (x & m & E & Hx).
  assert (is_ascii_alpha_byte 45 = false /\ is_ascii_alpha_byte 34 = false) as [H45 H34] by done.
  assert (forall c, is_ascii_digit_byte c = true -> 0 <= c < 128 /\ is_ascii_alpha_byte c = false) as Hd.
  { intros c. unfold is_ascii_digit_byte, is_ascii_alpha_byte. lia. }
  assert (forall n, is_ident n -> b = n -> starts_with (upper_byte <$> n) (upper_byte <$> str K) = false -> errs (kw K (b ++ s))) as Hi.
  { intros n [Hne Hn] -> Hp. apply kw_word_rejects; [done|done|by apply spelled_ascii|done|done|done]. }
  destruct t; cbn [spells kw_clash] in *; try (subst b; cbn [app]; apply kw_other_rejects; [done| |]; first [by subst x | by (destruct Hx as [-> | []%Hd]) | by destruct (Hd _ Hx)]).
  - destruct Hb as (Ha & Hne & Eu & Hl). apply kw_word_rejects; [done|by intros -> |done|eapply Forall_impl; [exact Hl|apply alpha_word]|done|by rewrite Eu].
  - done.
  - destruct Hb as [Eb Hb]. by eapply Hi.
  - destruct Hb as [Hb | [Eb Hb]]; [|by eapply Hi]. destruct (quoted_head _ _ Hb) as (m' & ->). by apply kw_other_rejects.
  - destruct Hb as (_ & _ & Hb). rewrite E in Hb |- *. apply Forall_cons in Hb as [[Hx1 Hx2] _]. apply kw_other_rejects; [done|unfold solid in Hx1; lia|].
    apply not_true_iff_false. intros Ha%alpha_word. congruence.
Qed.

Lemma kw_fails_at K ts : is_keyword K -> kw_off K ts = true -> fails_at (kw K) ts.
Proof.
  intros HK H. apply fails_at_rejects. destruct ts as [|t ts]; [|apply kw_rejects; [done|by apply negb_true_iff]].
  apply tag_no_case_short; [constructor|]. destruct HK as [Hne _]. destruct (str K); [done|cbn; lia].
Qed.

(** A keyword is read with the spelling it has. *)
Lemma kw_reads K k ts s :
  is_keyword K -> upper_byte <$> str K = str k -> lays (TKw k :: ts) s ->
  exists r b, ws (kw K) s = NOk (r, b) /\ upper_byte <$> b = str k /\ lays ts r /\ nows r.
Proof.
  intros HK E (b & s' & Es & (Ha & _ & Eu & _) & _ & Hs)%lays_cons. exists (skip_ws s'), b. rewrite ws_eq, Es. unfold kw.
  rewrite tag_no_case_ok; [|by apply keyword_ascii|apply eq_ignore_upper; congruence]. split; [done|]. split; [done|]. split; [by apply lays_skip|apply nows_skip].
Qed.
End reads.

(** * Words, texts and numbers

    The tokens made of several characters: identifiers, quoted texts with their
    escapes, and numbers. *)

Section words.
Context {N : Nom} {NL : NomLaws N} {UN : Unicode} {VT : ValueText}.

(** ** Runs of characters *)

Definition stops (P : bytes -> bool) (s : bytes) : Prop := match s with [] => True | y :: _ => 0 <= y < 128 /\ P [y] = false end.

Lemma next_char_ascii y s : 0 <= y < 128 -> next_char (y :: s) = Some ([y], s).
Proof. intros H. cbn. unfold char_len. rewrite (proj2 (Z.ltb_lt _ _)) by lia. done. Qed.

Lemma next_char_ok c s : char_ok c -> next_char (c ++ s) = Some (c, s).
Proof. intros (b & t & -> & H & _). change (next_char ((b :: t) ++ s)) with (Some (take (char_len b) ((b :: t) ++ s), drop (char_len b) ((b :: t) ++ s))).
  by rewrite <- H, take_app_length, drop_app_length. Qed.

Lemma span_chars_run P a s fuel :
  Forall (fun b => 0 <= b < 128 /\ P [b] = true) a -> stops P s -> (length a <= fuel)%nat -> span_chars P fuel (a ++ s) = (a, s).
Proof.
  intros Ha Hs. revert fuel. induction Ha as [|b a [Hb HP] _ IH]; intros fuel Hf.
  - cbn [app]. destruct fuel as [|fuel]; [done|]. cbn [span_chars]. destruct s as [|y s]; [done|]. destruct Hs as [Hy HP]. by rewrite next_char_ascii, HP.
  - destruct fuel as [|fuel]; [cbn in Hf; lia|]. cbn [span_chars app]. rewrite next_char_ascii, HP, IH by (done || cbn in Hf; lia). done.
Qed.

Lemma take_while1_run P a s : a <> [] -> Forall (fun b => 0 <= b < 128 /\ P [b] = true) a -> stops P s -> take_while1 P (a ++ s) = NOk (s, a).
Proof.
  intros Hne Ha Hs. eapply alike_ok; [apply take_while1_law|]. unfold take_while1_fun, take_chars.
  rewrite span_chars_run by (done || rewrite length_app; lia). by destruct a.
Qed.

Lemma take_while1_stops P s : stops P s -> errs (take_while1 P s).
Proof.
  intros Hs. eapply alike_errs; [apply take_while1_law|]. unfold take_while1_fun, take_chars.
  pose proof (span_chars_run P [] s (length s) (Forall_nil_2 _) Hs) as E. cbn [app length] in E. rewrite E by lia. by eexists.
Qed.

Lemma beqb_one b k : beqb [b] [k] = (b =? k).
Proof. apply eq_true_iff_eq. rewrite beqb_eq, Z.eqb_eq. split; congruence. Qed.

Lemma ident_char_byte b : ident_char [b] = ident_byte b.
Proof. unfold ident_char, ident_byte, ascii_word, is_alphanumeric. by rewrite !beqb_one. Qed.

Lemma brk_stops b s : b <> [] -> Forall (fun c => ident_byte c = true) b -> brk b s -> stops ident_char s.
Proof. intros Hne Hw Hk. pose proof (brk_word b s Hne Hw Hk) as H. destruct s; [done|]. cbn [stops]. by rewrite ident_char_byte. Qed.

Lemma digit_stops s : stops ident_char s -> stops is_ascii_digit s.
Proof.
  destruct s as [|y s]; [done|]. intros [Hy H]. split; [done|]. cbn. rewrite ident_char_byte in H. apply not_true_iff_false. intros Hd%digit_word. congruence.
Qed.

Lemma identifier_ok n s : is_ident n -> stops ident_char s -> identifier (n ++ s) = NOk (s, n).
Proof.
  intros [Hne Hn] Hs. apply take_while1_run; [done| |done]. eapply Forall_impl; [exact Hn|]. intros b Hb. rewrite ident_char_byte. split; [|done].
  apply word_solid in Hb. unfold solid in Hb. lia.
Qed.

Lemma ident_accepts n : accepts identifier (TName n) n.
Proof. intros b s [-> Hn] Hk. apply identifier_ok; [done|]. destruct Hn as [Hne Hn]. by eapply brk_stops. Qed.

Lemma digits_ok d s : digits d -> stops is_ascii_digit s -> take_while1 is_ascii_digit (d ++ s) = NOk (s, d).
Proof.
  intros [Hne Hd] Hs. apply take_while1_run; [done| |done]. eapply Forall_impl; [exact Hd|]. intros b Hb. split; [|done]. unfold is_ascii_digit_byte in Hb. lia.
Qed.

Lemma nat_accepts n : accepts (take_while1 is_ascii_digit) (TNat n) (format_u64 n).
Proof.
  intros b s [-> _] Hk. apply digits_ok; [apply format_u64_is_digits|]. apply digit_stops. destruct (format_u64_is_digits n) as [Hne Hd].
  eapply brk_stops; [exact Hne| |exact Hk]. eapply Forall_impl; [exact Hd|]. apply digit_word.
Qed.

Lemma ident_fails_at ts : no_word ts = true -> fails_at identifier ts.
Proof.
  intros H. apply fails_at_rejects. destruct ts as [|t ts]; [by apply take_while1_stops|]. intros b s Hb _. destruct (spells_first t b Hb) as (x & m & E & Hx).
  assert (0 <= x < 128) as Hr. { destruct (spells_ends t b Hb) as [(x' & m' & E' & Hx') _]. rewrite E in E'. injection E' as <- _. unfold solid in Hx'. lia. }
  subst b. apply take_while1_stops. split; [done|]. rewrite ident_char_byte. destruct t; try done; cbn in Hx; try (by subst x). by destruct Hx as (_ & _ & Hx).
Qed.

(** ** Texts *)

Lemma escape_next c : (c = [34] \/ c = [92]) /\ escape_char c = 92 :: c \/ beqb c [34] = false /\ beqb c [92] = false /\ escape_char c = c.
Proof.
  unfold escape_char. destruct (beqb c [34]) eqn:E1; [left; apply beqb_eq in E1; auto|]. destruct (beqb c [92]) eqn:E2; [left; apply beqb_eq in E2; auto|]. by right.
Qed.

Lemma quoted_loop_run input cs : Forall char_ok cs -> forall fuel pre result rest,
  (length cs < fuel)%nat -> input = pre ++ concat (escape_char <$> cs) ++ 34 :: rest ->
  quoted_loop fuel input (concat (escape_char <$> cs) ++ 34 :: rest) (blen pre) result = NOk (rest, result ++ concat cs).
Proof.
  induction 1 as [|c cs Hc _ IH]; intros fuel pre result rest Hf E.
  - destruct fuel as [|fuel]; [lia|]. cbn [quoted_loop fmap list_fmap concat app]. rewrite next_char_ascii by lia. cbn. rewrite app_nil_r.
    replace (Z.to_nat (blen pre + 1)) with (length (pre ++ [34])) by (rewrite length_app; unfold blen; cbn; lia).
    subst input. cbn. replace (pre ++ 34 :: rest) with ((pre ++ [34]) ++ rest) by (by rewrite <- app_assoc). by rewrite drop_app_length.
  - destruct fuel as [|fuel]; [cbn in Hf; lia|]. rewrite fmap_cons in *. cbn [concat] in *. rewrite <- !app_assoc in *.
    assert (forall pre' res', input = pre' ++ concat (escape_char <$> cs) ++ 34 :: rest ->
      quoted_loop fuel input (concat (escape_char <$> cs) ++ 34 :: rest) (blen pre') res' = NOk (rest, res' ++ concat cs)) as Hstep.
    { intros pre' res' E'. apply IH; [cbn in Hf; lia|done]. }
    rewrite (app_assoc result). destruct (escape_next c) as [[Hq Ee] | (H1 & H2 & Ee)]; rewrite Ee in *; clear Ee.
    + cbn [quoted_loop app]. rewrite next_char_ascii by lia. replace (beqb [92] [92]) with true by done. rewrite next_char_ok by done.
      specialize (Hstep (pre ++ 92 :: c) (result ++ c)). assert (blen pre + 2 = blen (pre ++ 92 :: c)) as -> by (destruct Hq as [-> | ->]; unfold blen; rewrite length_app; cbn; lia).
      destruct Hq as [-> | ->]; [replace (beqb [34] [34]) with true by done|replace (beqb [92] [34]) with false by done; replace (beqb [92] [92]) with true by done];
        apply Hstep; rewrite E, <- app_assoc; done.
    + cbn [quoted_loop]. rewrite next_char_ok, H2, H1 by done. specialize (Hstep (pre ++ c) (result ++ c)). rewrite <- app_assoc in Hstep.
      replace (blen pre + blen c) with (blen (pre ++ c)) by (unfold blen; rewrite length_app; lia). by apply Hstep.
Qed.

Lemma escapes_length cs : Forall char_ok cs -> (length cs <= length (concat (escape_char <$> cs)))%nat.
Proof.
  induction 1 as [|c cs (b & t & -> & _ & _) _ IH]; [done|]. rewrite fmap_cons. cbn [concat length]. rewrite length_app. unfold escape_char at 1. case_match; rewrite !length_cons; lia.
Qed.

Lemma quoted_ok s b r : is_quoted s b -> quoted_string (b ++ r) = NOk (r, s).
Proof.
  intros (cs & Hcs & -> & ->). unfold quoted_string, quote. rewrite <- !app_assoc. cbn [app]. rewrite nchar_ok by lia. cbn [mbind NResult_bind].
  apply (quoted_loop_run _ cs Hcs _ []); [|done]. rewrite length_app. pose proof (escapes_length cs Hcs). lia.
Qed.

Lemma quoted_accepts s : accepts quoted_string (TStr s) s.
Proof. intros b r H _. by apply quoted_ok. Qed.

Lemma quoted_fails_at ts : sym_off 34 ts = true -> fails_at quoted_string ts.
Proof. intros H s Hs Hn. apply errs_bind. eapply sym_fails_at; [lia|done|exact H|exact Hs|done]. Qed.

Lemma name_accepts n : accepts name_or_quoted (TLobe n) n.
Proof.
  intros b s Hb Hk. unfold name_or_quoted. destruct Hb as [Hb | [-> Hb]]; [by apply alt_here, quoted_ok|].
  apply alt_next; [|apply alt_here; rewrite pmap_law, identifier_ok; [done|done|]; destruct Hb as [Hne Hn]; by eapply brk_stops].
  apply errs_bind. destruct Hb as [Hne Hn]. destruct n as [|x m]; [done|]. apply Forall_cons in Hn as [Hx _]. apply nchar_differs; [lia|by intros ->].
Qed.

Lemma name_quoted_accepts n : accepts name_or_quoted (TStr n) n.
Proof. intros b s Hb Hk. by apply alt_here, quoted_ok. Qed.

(** ** Numbers *)

Definition number_text : Parser bytes :=
  recognize (tuple4 (opt (nchar 45)) (take_while1 is_ascii_digit) (opt (pair_of (nchar 46) (take_while1 is_ascii_digit)))
    (opt (tuple3 (one_of (str "eE")) (opt (one_of (str "+-"))) (take_while1 is_ascii_digit)))).

Lemma one_of_ok cs x s : all_ascii cs -> x ∈ cs -> one_of cs (x :: s) = NOk (s, x).
Proof.
  intros Hc Hx. eapply alike_ok; [by apply one_of_law|]. cbn. replace (existsb (Z.eqb x) cs) with true; [done|]. symmetry. apply existsb_exists.
  exists x. split; [by apply list_elem_of_In|]. apply Z.eqb_refl.
Qed.

Lemma one_of_stops cs s : all_ascii cs -> match s with [] => True | y :: _ => y ∉ cs end -> errs (one_of cs s).
Proof.
  intros Hc Hs. eapply alike_errs; [by apply one_of_law|]. destruct s as [|y s]; [by eexists|]. cbn. replace (existsb (Z.eqb y) cs) with false; [by eexists|].
  symmetry. apply not_true_iff_false. intros (z & Hz & ->%Z.eqb_eq)%existsb_exists. apply Hs. by apply list_elem_of_In.
Qed.

(** What can follow a number. *)
Lemma number_stops s c : stops ident_char s -> ident_byte c = true -> match s with [] => True | y :: _ => y <> c end.
Proof. destruct s as [|y s]; [done|]. intros [Hy H] Hc ->. rewrite ident_char_byte in H. congruence. Qed.

Lemma brk_last m x s : ident_byte x = true -> brk (m ++ [x]) s -> stops ident_char s.
Proof. intros Hx Hk. apply (brk_stops [x]); [done|by constructor|]. unfold brk in *. by rewrite last_snoc in Hk. Qed.

Lemma digits_last d : digits d -> exists m x, d = m ++ [x] /\ ident_byte x = true.
Proof. intros [Hne Hd]. destruct (exists_last Hne) as (m & x & ->). exists m, x. split; [done|]. apply Forall_app in Hd as [_ Hd]. inversion Hd. by apply digit_word. Qed.

Lemma float_text_stops b s : float_text b -> brk b s -> stops ident_char s.
Proof.
  intros (sign & int & frac & ex & -> & _ & (m & x & -> & Hx)%digits_last & Hf & He & _) Hk.
  destruct He as [-> | (e & sg & d & _ & _ & (m2 & x2 & -> & Hx2)%digits_last & ->)].
  - rewrite app_nil_r in Hk. destruct Hf as [-> | (d & (m2 & x2 & -> & Hx2)%digits_last & ->)].
    + rewrite app_nil_r, app_assoc in Hk. by eapply brk_last.
    + apply (brk_last (sign ++ (m ++ [x]) ++ 46 :: m2) x2); [done|]. by rewrite <- !app_assoc in *.
  - apply (brk_last (sign ++ (m ++ [x]) ++ frac ++ e :: sg ++ m2) x2); [done|]. rewrite <- !app_assoc in *. cbn [app] in *. by rewrite <- !app_assoc.
Qed.

Lemma opt_sign_run sign d s : sign = [] \/ sign = [45] -> digits d -> opt (nchar 45) (sign ++ d ++ s) = NOk (d ++ s, match sign with [] => None | _ => Some 45 end).
Proof.
  intros [-> | ->] (x & m & -> & Hx)%digits_head; cbn [app]; [|apply opt_some, nchar_ok; lia].
  apply opt_none, nchar_differs; [lia|]. by intros ->.
Qed.

Lemma frac_run frac s : frac = [] \/ (exists d, digits d /\ frac = 46 :: d) -> stops is_ascii_digit s -> (frac = [] -> match s with [] => True | y :: _ => y <> 46 end) ->
  exists o, opt (pair_of (nchar 46) (take_while1 is_ascii_digit)) (frac ++ s) = NOk (s, o).
Proof.
  intros [-> | (d & Hd & ->)] Hs Hf.
  - exists None. cbn [app]. apply opt_none. rewrite pair_law. apply errs_bind. specialize (Hf eq_refl). destruct s; [apply nchar_nil; lia|by apply nchar_differs].
  - eexists. apply opt_some. rewrite pair_law. cbn [app]. rewrite nchar_ok by lia. cbn [mbind NResult_bind]. rewrite digits_ok by done. done.
Qed.

Definition exponent (ex : bytes) : Prop := exists e sg d, (e = 101 \/ e = 69) /\ (sg = [] \/ sg = [43] \/ sg = [45]) /\ digits d /\ ex = e :: sg ++ d.

Lemma exponent_run ex s : ex = [] \/ exponent ex -> stops ident_char s ->
  exists o, opt (tuple3 (one_of (str "eE")) (opt (one_of (str "+-"))) (take_while1 is_ascii_digit)) (ex ++ s) = NOk (s, o).
Proof.
  assert (all_ascii (str "eE") /\ all_ascii (str "+-")) as [A1 A2] by (change (str "eE") with [101; 69]; change (str "+-") with [43; 45]; split; repeat (constructor; [lia|]); constructor).
  intros [-> | (e & sg & d & He & Hsg & Hd & ->)] Hs.
  - exists None. cbn [app]. apply opt_none. rewrite tuple3_law. apply errs_bind, one_of_stops; [done|]. pose proof (number_stops s 101 Hs) as H1. pose proof (number_stops s 69 Hs) as H2.
    destruct s as [|y s]; [done|]. specialize (H1 eq_refl). specialize (H2 eq_refl). intros [-> | [-> | []%elem_of_nil]%elem_of_cons]%elem_of_cons; done.
  - eexists. apply opt_some. rewrite tuple3_law. cbn [app]. rewrite one_of_ok; [|done|destruct He as [-> | ->]; cbn; set_solver]. cbn [mbind NResult_bind].
    assert (opt (one_of (str "+-")) ((sg ++ d) ++ s) = NOk (d ++ s, match sg with x :: _ => Some x | [] => None end)) as ->.
    { destruct Hsg as [-> | Hsg]; [|by destruct Hsg as [-> | ->]; apply opt_some, one_of_ok; [done|cbn; set_solver|done|cbn; set_solver]].
      destruct (digits_head d Hd) as (x & m & -> & Hx). apply opt_none, one_of_stops; [done|]. cbn [app].
      intros [-> | [-> | []%elem_of_nil]%elem_of_cons]%elem_of_cons; done. }
    cbn [mbind NResult_bind]. rewrite digits_ok; [reflexivity|done|by apply digit_stops].
Qed.

Lemma number_run sign int frac ex s :
  sign = [] \/ sign = [45] -> digits int -> (frac = [] \/ exists d, digits d /\ frac = 46 :: d) -> (ex = [] \/ exponent ex) -> stops ident_char s ->
  number_text ((sign ++ int ++ frac ++ ex) ++ s) = NOk (s, sign ++ int ++ frac ++ ex).
Proof.
  intros Hsg Hi Hf He Hs. unfold number_text. rewrite recognize_law, tuple4_law, <- !app_assoc.
  assert (stops is_ascii_digit (ex ++ s)) as Hx. { destruct He as [-> | (e & sg & d & [-> | ->] & _ & _ & ->)]; [by apply digit_stops|by split..]. }
  assert (frac = [] -> match ex ++ s with [] => True | y :: _ => y <> 46 end) as Hx46.
  { intros _. destruct He as [-> | (e & sg & d & [-> | ->] & _ & _ & ->)]; [by apply (number_stops s 46 Hs)|done..]. }
  rewrite opt_sign_run by done. cbn [mbind NResult_bind].
  rewrite digits_ok; [|done|destruct Hf as [-> | (d & _ & ->)]; [done|by split]]. cbn [mbind NResult_bind].
  destruct (frac_run frac (ex ++ s) Hf Hx Hx46) as [o1 ->]. cbn [mbind NResult_bind]. destruct (exponent_run ex s He Hs) as [o2 ->]. cbn.
  f_equal. f_equal. rewrite !app_assoc, length_app. rewrite Nat.add_sub. by rewrite take_app_length.
Qed.

Definition dotted (c : Z) : bool := (c =? 46) || (c =? 101) || (c =? 69).

Lemma digits_undotted d : Forall (fun b => is_ascii_digit_byte b = true) d -> existsb dotted d = false.
Proof.
  induction 1 as [|x d Hx _ IH]; [done|]. cbn. rewrite IH, orb_false_r. unfold dotted, is_ascii_digit_byte in *. lia.
Qed.

Lemma int_accepts i : accepts parse_number_literal (TInt i) (LInt i).
Proof.
  intros b s [-> Hi] Hk. unfold parse_number_literal. fold number_text.
  assert (exists sign d, display_i64 i = sign ++ d /\ (sign = [] \/ sign = [45]) /\ digits d) as (sign & d & E & Hs & Hd).
  { unfold display_i64. case_match; [exists [45], (format_u64 (- i))|exists [], (format_u64 i)]; auto using format_u64_is_digits. }
  assert (stops ident_char s) as Hst.
  { destruct (digits_last d Hd) as (m & x & -> & Hx). rewrite E, app_assoc in Hk. by eapply brk_last. }
  pose proof (number_run sign d [] [] s Hs Hd (or_introl eq_refl) (or_introl eq_refl) Hst) as Hr. rewrite !app_nil_r, <- E in Hr. rewrite Hr. cbn [mbind NResult_bind].
  replace (existsb _ (display_i64 i)) with false; [by rewrite display_i64_parse|]. symmetry. rewrite E, existsb_app. fold dotted.
  destruct Hd as [_ Hd]. rewrite (digits_undotted _ Hd). by destruct Hs as [-> | ->].
Qed.

Lemma float_accepts bits : accepts parse_number_literal (TFloat bits) (LFloat bits).
Proof.
  intros b s [Hb Hp] Hk. pose proof (float_text_stops b s Hb Hk) as Hst. destruct Hb as (sign & int & frac & ex & -> & Hs & Hd & Hf & He & Hfe).
  unfold parse_number_literal. fold number_text. rewrite number_run by done. cbn [mbind NResult_bind].
  replace (existsb _ _) with true; [by rewrite Hp|]. symmetry. fold dotted. rewrite !existsb_app. destruct Hf as [-> | (d & _ & ->)]; [|cbn; by rewrite !orb_true_r].
  destruct He as [-> | (e & sg & d & [-> | ->] & _ & _ & ->)]; [by destruct Hfe|cbn; by rewrite !orb_true_r..].
Qed.
End words.
