(* ===== verification/ExprReads.v ===== *)
(** * Literals and filters read back

    The tokens of literals, filters and filter expressions, and that the parsers read
    every layout of them as what they are the tokens of. *)

From S2P Require Import Prelude Types Paths ByteOrder Value Lid Record Filters GroupKey Gravity FilterEq Nom Parser Tokens.

(** * Literals read back

    The tokens of a literal, and that the parser reads every layout of them as the
    literal, to the depth the code allows. *)

(** ** The tokens of a literal *)

Definition commas (l : list (list Tok)) : list Tok :=
  match l with [] => [] | x :: l => x ++ concat ((fun y => TSym "," :: y) <$> l) end.

Fixpoint lit_toks (l : Literal) : list Tok :=
  match l with
  | LInt i => [TInt i]
  | LFloat b => [TFloat b]
  | LText s => [TStr s]
  | LBool b => [TKw (if b then "TRUE" else "FALSE")]
  | LTimestamp s => [TAt s]
  | LLid s => [TKw "LID"; TParen s]
  | LNull => [TKw "NULL"]
  | LList items => TSym "[" :: commas (List.map lit_toks items) ++ [TSym "]"]
  | LMap pairs => TSym "{" :: commas (List.map (fun '(k, v) => TName k :: TSym ":" :: lit_toks v) pairs) ++ [TSym "}"]
  | LParam n => [TDollar n]
  end.

(** How deep lists and maps nest. *)
Fixpoint lit_height (l : Literal) : nat :=
  match l with
  | LList items => S (foldr Nat.max O (List.map lit_height items))
  | LMap pairs => S (foldr Nat.max O (List.map (fun kv => lit_height kv.2) pairs))
  | _ => O
  end.

Definition entry_toks (kv : bytes * Literal) : list Tok := TName kv.1 :: TSym ":" :: lit_toks kv.2.

Lemma map_toks pairs : lit_toks (LMap pairs) = TSym "{" :: commas (entry_toks <$> pairs) ++ [TSym "}"].
Proof. cbn [lit_toks]. do 3 f_equal. induction pairs as [|[k v] m IH]; [done|]. cbn. by rewrite IH. Qed.

Lemma lit_sym_off c l ts : c <> 34 -> c <> 45 -> c <> 64 -> c <> 36 -> c <> 91 -> c <> 123 -> sym_off c (lit_toks l ++ ts) = true.
Proof. intros. unfold sym_off. destruct l; cbn; rewrite ?(proj2 (Z.eqb_neq _ _)) by done; done. Qed.

Lemma height_le {A} (f : A -> nat) l x n : x ∈ l -> (foldr Nat.max O (f <$> l) <= n)%nat -> (f x <= n)%nat.
Proof. induction 1 as [x l|x y l _ IH]; cbn; [lia|]. intros H. apply IH. unfold fmap in *. lia. Qed.

Section literals.
Context {N : Nom} {NL : NomLaws N} {UN : Unicode} {VT : ValueText}.

(** ** Loops over items *)

Lemma lays_at_start ts s : lays ts s -> lays ts (trim_start s) /\ nows (trim_start s).
Proof. intros H. rewrite (lays_trim_start ts s H). split; [by apply lays_skip|apply nows_skip]. Qed.

(** The symbol [c] at the front of a layout. *)
Lemma sym_step c S ts s : str S = [c] -> 0 <= c < 128 -> lays (TSym S :: ts) s -> nows s -> exists r, nchar c s = NOk (r, c) /\ lays ts r.
Proof. intros E Hc H Hn. by apply (reads_at_accepts (nchar c) (TSym S) c ts (nchar_accepts c S E Hc)). Qed.

Lemma items_loop_reads {A} (close : Z) (closing : string) (item : Parser A) (toks : A -> list Tok) ts :
  str closing = [close] -> 0 <= close < 128 -> close <> 44 -> ident_byte close = false ->
  forall l acc fuel s, (forall x ts, x ∈ l -> reads item (toks x) x ts) -> (length l < fuel)%nat ->
    lays (concat ((fun y => TSym "," :: y) <$> (toks <$> l)) ++ TSym closing :: ts) s ->
    exists r, items_loop close item fuel s acc = NOk (r, acc ++ l) /\ lays ts r.
Proof.
  intros Hc Hr H44 Hi. induction l as [|x l IH]; intros acc fuel s Hl Hf Hs; (destruct fuel as [|fuel]; [cbn in Hf; lia|]); cbn [items_loop];
    apply lays_at_start in Hs as [Hs Hn].
  - cbn in Hs. destruct (sym_step close closing ts _ Hc Hr Hs Hn) as (r & -> & Hr'). exists r. by rewrite app_nil_r.
  - cbn [fmap list_fmap concat] in Hs. rewrite <- app_assoc in Hs. cbn [app] in Hs.
    assert (errs (nchar close (trim_start s))) as [j ->].
    { eapply sym_fails_at; [done|done| |exact Hs|done]. cbn. rewrite (proj2 (Z.eqb_neq _ _)); done. }
    destruct (sym_step 44 "," _ _ eq_refl ltac:(lia) Hs Hn) as (r & -> & Hr'). cbn [or_failure mbind NResult_bind].
    destruct (Hl x _ ltac:(left) _ Hr') as (r' & -> & Hr2). cbn [mbind NResult_bind].
    destruct (IH (acc ++ [x]) fuel r') as (r3 & E3 & H3); [intros; apply Hl; by right|cbn in Hf; lia|exact Hr2|].
    exists r3. by rewrite <- app_assoc in E3.
Qed.

Lemma commas_length {A} (toks : A -> list Tok) (l : list A) ts : (length l <= length (concat ((fun y => TSym "," :: y) <$> (toks <$> l)) ++ ts))%nat.
Proof. induction l as [|x l IH]; cbn; [lia|]. rewrite <- app_assoc, length_app. unfold fmap in *. lia. Qed.

(** ** Literals of one token *)

Lemma alt_skips {A} (ps qs : list (Parser A)) s x : Forall (fun p => errs (p s)) ps -> alt qs s = NOk x -> alt (ps ++ qs) s = NOk x.
Proof. intros H E. induction H as [|p ps Hp _ IH]; [done|]. by apply alt_next. Qed.

Lemma null_step s ts : lays (TKw "NULL" :: ts) s -> nows s -> exists r, parse_null_literal s = NOk (r, LNull) /\ lays ts r.
Proof.
  intros (b & s' & E & (Ha & Hne & Eu & Hl) & Hk & Hs)%lays_cons Hn. rewrite skip_ws_nows in E by done. subst s. exists s'. split; [|done].
  unfold parse_null_literal. rewrite tag_no_case_ok; [|by apply (keyword_ascii "null"); split; [done|repeat constructor]|by apply eq_ignore_upper]. cbn [mbind NResult_bind].
  assert (pnot (peek (take_while1 word_char)) s' = NOk (s', ())) as ->; [|done].
  eapply alike_ok; [apply pnot_law|]. unfold not_fun. rewrite peek_law.
  destruct (take_while1_stops word_char s') as [j ->]; [|done]. assert (Forall (fun c => ident_byte c = true) b) as Hw by (eapply Forall_impl; [exact Hl|apply alpha_word]).
  assert (b <> []) as Hb by (by intros ->). pose proof (brk_stops b s' Hb Hw Hk) as H. destruct s' as [|y s']; [done|]. destruct H as [Hy H]. split; [done|].
  unfold ident_char in H. apply orb_false_iff in H as [H _]. exact H.
Qed.

Lemma bool_step (b : bool) s ts : lays (TKw (if b then "TRUE" else "FALSE") :: ts) s -> nows s -> exists r, parse_bool_literal s = NOk (r, LBool b) /\ lays ts r.
Proof.
  intros (w & s' & E & (Ha & Hne & Eu & Hl) & Hk & Hs)%lays_cons Hn. rewrite skip_ws_nows in E by done. subst s. exists s'. split; [|done].
  assert (is_keyword "true" /\ is_keyword "false") as [K1 K2] by (split; split; [done|repeat constructor|done|repeat constructor]).
  unfold parse_bool_literal. destruct b.
  - apply alt_here. rewrite value_law. unfold kw. by rewrite tag_no_case_ok; [|by apply keyword_ascii|by apply eq_ignore_upper].
  - apply alt_next.
    + rewrite value_law. apply errs_bind. apply (kw_rejects "true" (TKw "FALSE")); done.
    + apply alt_here. rewrite value_law. unfold kw. by rewrite tag_no_case_ok; [|by apply keyword_ascii|by apply eq_ignore_upper].
Qed.

Lemma paren_step s' S ts : lays (TParen s' :: ts) S -> nows S ->
  exists r r1, nchar 40 S = NOk (r, 40) /\ quoted_string r = NOk (41 :: r1, s') /\ lays ts r1.
Proof.
  intros (b & s1 & E & (q & Hq & ->) & Hk & Hs)%lays_cons Hn. rewrite skip_ws_nows in E by done. subst S. cbn [app]. rewrite <- app_assoc. cbn [app].
  exists (q ++ 41 :: s1), s1. rewrite nchar_ok by lia. by rewrite (quoted_ok _ _ _ Hq).
Qed.

Lemma lid_step s' s ts : lays (TKw "LID" :: TParen s' :: ts) s -> nows s -> exists r, parse_lid_literal s = NOk (r, LLid s') /\ lays ts r.
Proof.
  intros (w & s1 & E & (Ha & Hne & Eu & Hl) & Hk & Hs)%lays_cons Hn. rewrite skip_ws_nows in E by done. subst s.
  assert (is_keyword "LID") as K by (split; [done|repeat constructor]). unfold parse_lid_literal, kw.
  rewrite tag_no_case_ok; [|by apply keyword_ascii|by apply eq_ignore_upper]. cbn [mbind NResult_bind]. rewrite multispace0_law. cbn [multispace0_fun mbind NResult_bind].
  destruct (paren_step s' (skip_ws s1) ts) as (r & r1 & E1 & E2 & Hr); [by apply lays_skip|apply nows_skip|].
  unfold multispace0_fun. cbn [mbind NResult_bind]. rewrite E1. cbn [mbind NResult_bind]. rewrite E2. cbn [mbind NResult_bind]. rewrite nchar_ok by lia. by exists r1.
Qed.

Lemma at_step s' s ts : lays (TAt s' :: ts) s -> nows s -> exists r, parse_timestamp_literal s = NOk (r, LTimestamp s') /\ lays ts r.
Proof.
  intros (b & s1 & E & (q & Hq & ->) & Hk & Hs)%lays_cons Hn. rewrite skip_ws_nows in E by done. subst s. exists s1. split; [|done].
  unfold parse_timestamp_literal. cbn [app]. rewrite nchar_ok by lia. cbn [mbind NResult_bind]. by rewrite (quoted_ok _ _ _ Hq).
Qed.

Lemma dollar_step n s ts : lays (TDollar n :: ts) s -> nows s -> exists r, nchar 36 s = NOk (n ++ r, 36) /\ identifier (n ++ r) = NOk (r, n) /\ lays ts r.
Proof.
  intros (b & s1 & E & (-> & Hi) & Hk & Hs)%lays_cons Hn. rewrite skip_ws_nows in E by done. subst s. exists s1. cbn [app]. rewrite nchar_ok by lia.
  split; [done|]. split; [|done]. apply identifier_ok; [done|]. destruct Hi as [Hne Hi]. destruct (exists_last Hne) as (m & x & ->).
  apply Forall_app in Hi as [_ Hi]. apply Forall_cons in Hi as [Hx _]. by apply (brk_last (36 :: m) x).
Qed.

(** ** All literals *)

Ltac off H Hn :=
  first
    [ apply errs_bind; eapply sym_fails_at; [lia|done| |exact H|exact Hn]; reflexivity
    | apply errs_bind; eapply kw_fails_at; [split; [done|repeat constructor]| |exact H|exact Hn]; reflexivity
    | apply alt_errs; repeat (constructor; [rewrite value_law; off H Hn|]); constructor
    | rewrite pmap_law; apply errs_bind; eapply quoted_fails_at; [|exact H|exact Hn]; reflexivity ].

Ltac skip_to H Hn tac := repeat first [ apply alt_here; tac | apply alt_next; [off H Hn|] ].

Definition inner_reads (inner : Parser Literal) (l : Literal) : Prop := forall ts, reads_at inner (lit_toks l) l ts.

Lemma list_step inner items ts s :
  Forall (inner_reads inner) items -> lays (lit_toks (LList items) ++ ts) s -> nows s ->
  exists r, parse_list_literal inner s = NOk (r, LList items) /\ lays ts r.
Proof.
  intros Hi H Hn. cbn [lit_toks app] in H. rewrite <- app_assoc in H. unfold parse_list_literal.
  destruct (sym_step 91 "[" _ _ eq_refl ltac:(lia) H Hn) as (r & -> & Hr). cbn [mbind NResult_bind].
  rewrite multispace0_law. unfold multispace0_fun. cbn [mbind NResult_bind]. apply lays_skip in Hr. pose proof (nows_skip r) as Hrn.
  destruct items as [|x items]; cbn [List.map commas app] in Hr.
  - destruct (sym_step 93 "]" _ _ eq_refl ltac:(lia) Hr Hrn) as (r' & -> & Hr'). by exists r'.
  - apply Forall_cons in Hi as [Hx Hi]. rewrite <- app_assoc in Hr.
    assert (errs (nchar 93 (skip_ws r))) as [j ->]. { eapply sym_fails_at; [lia|done| |exact Hr|done]. by apply lit_sym_off. }
    apply lays_trim in Hr as [Hr Hrn']. destruct (Hx _ _ Hr Hrn') as (r2 & -> & Hr2). cbn [mbind NResult_bind].
    destruct (items_loop_reads 93 "]" (fun rest => inner (str_trim rest)) lit_toks ts eq_refl ltac:(lia) ltac:(done) eq_refl items [x] (S (length r2)) r2) as (r3 & E3 & H3).
    + intros y ts' Hy s' Hs'. apply lays_trim in Hs' as [Hs' Hn']. rewrite Forall_forall in Hi. by apply (Hi y Hy ts').
    + pose proof (Nat.le_trans _ _ _ (commas_length lit_toks items (TSym "]" :: ts)) (lays_length _ _ Hr2)). lia.
    + exact Hr2.
    + rewrite E3. by exists r3.
Qed.

Lemma entry_reads inner kv ts s : inner_reads inner kv.2 -> lays (entry_toks kv ++ ts) s -> nows s -> exists r, map_entry inner s = NOk (r, kv) /\ lays ts r.
Proof.
  intros Hi H Hn. destruct kv as [k v]. cbn in Hi. cbn [entry_toks app fst snd] in H. unfold map_entry.
  destruct (reads_at_accepts identifier (TName k) k _ (ident_accepts k) s H Hn) as (r & -> & Hr). cbn [mbind NResult_bind].
  destruct (ws_token (nchar 58) (TSym ":") 58 _ (nchar_accepts 58 ":" eq_refl ltac:(lia)) r Hr) as (r2 & -> & Hr2 & _). cbn [mbind NResult_bind].
  apply lays_trim in Hr2 as [Hr2 Hn2]. destruct (Hi _ _ Hr2 Hn2) as (r3 & -> & Hr3). by exists r3.
Qed.

Lemma map_step inner pairs ts s :
  Forall (fun kv => inner_reads inner kv.2) pairs -> lays (lit_toks (LMap pairs) ++ ts) s -> nows s ->
  exists r, parse_map_literal inner s = NOk (r, LMap pairs) /\ lays ts r.
Proof.
  intros Hi H Hn. rewrite map_toks in H. cbn [app] in H. rewrite <- app_assoc in H. unfold parse_map_literal.
  destruct (sym_step 123 "{" _ _ eq_refl ltac:(lia) H Hn) as (r & -> & Hr). cbn [mbind NResult_bind].
  rewrite multispace0_law. unfold multispace0_fun. cbn [mbind NResult_bind]. apply lays_skip in Hr. pose proof (nows_skip r) as Hrn.
  destruct pairs as [|x pairs]; cbn [fmap list_fmap commas app] in Hr.
  - destruct (sym_step 125 "}" _ _ eq_refl ltac:(lia) Hr Hrn) as (r' & -> & Hr'). by exists r'.
  - apply Forall_cons in Hi as [Hx Hi]. rewrite <- app_assoc in Hr.
    assert (errs (nchar 125 (skip_ws r))) as [j ->]. { eapply sym_fails_at; [lia|done| |exact Hr|done]. done. }
    apply lays_trim in Hr as [Hr Hrn']. destruct (entry_reads inner x _ _ Hx Hr Hrn') as (r2 & -> & Hr2). cbn [mbind NResult_bind].
    destruct (items_loop_reads 125 "}" (fun rest => map_entry inner (trim_start rest)) entry_toks ts eq_refl ltac:(lia) ltac:(done) eq_refl pairs [x] (S (length r2)) r2)
      as (r3 & E3 & H3).
    + intros y ts' Hy s' Hs'. apply lays_at_start in Hs' as [Hs' Hn']. rewrite Forall_forall in Hi. by apply (entry_reads inner y); [apply Hi|..].
    + pose proof (Nat.le_trans _ _ _ (commas_length entry_toks pairs (TSym "}" :: ts)) (lays_length _ _ Hr2)). lia.
    + exact Hr2.
    + rewrite E3. by exists r3.
Qed.

(** The first byte decides between numbers, parameters and the other forms. *)
Lemma first_byte t ts s : lays (t :: ts) s -> nows s -> exists x m, s = x :: m /\
  (match t with TInt _ | TFloat _ => x = 45 \/ is_ascii_digit_byte x = true | TDollar _ => x = 36 | TNat _ => True
   | TName _ | TLobe _ => True | TSym y => exists m', str y = x :: m' /\ ident_byte x = false
   | _ => x <> 45 /\ x <> 36 /\ is_ascii_digit_byte x = false end).
Proof.
  intros (b & s' & E & Hb & _)%lays_cons Hn. rewrite skip_ws_nows in E by done. subst s. destruct (spells_first t b Hb) as (x & m & -> & Hx). exists x, (m ++ s').
  split; [done|]. destruct t; try done; try (subst x; done); revert Hx; unfold is_ascii_alpha_byte, is_ascii_digit_byte; lia.
Qed.

Lemma literal_reads l : forall fuel d ts,
  Z.of_nat (lit_height l) + d <= 16 -> (lit_height l < fuel)%nat -> reads_at (fun i => parse_literal_depth fuel i d) (lit_toks l) l ts.
Proof.
  revert l. refine (Literal_nested _ _ _ _); [intros l|intros items IH|intros pairs IH];
    [destruct l; try done| |]; intros fuel d ts Hd Hf s H Hn; (destruct fuel as [|fuel]; [lia|]); cbn [parse_literal_depth];
    rewrite (proj2 (Z.ltb_ge _ _)) by (unfold MAX_LITERAL_DEPTH; lia).
  - cbn [lit_toks app] in H; destruct (first_byte _ _ _ H Hn) as (x & m & E & Hx); subst s; cbv beta iota.
    replace (is_ascii_digit_byte x || (x =? 45)) with true by (destruct Hx as [-> | ->]; done). by apply (reads_at_accepts _ _ _ _ (int_accepts v)).
  - cbn [lit_toks app] in H; destruct (first_byte _ _ _ H Hn) as (x & m & E & Hx); subst s; cbv beta iota.
    replace (is_ascii_digit_byte x || (x =? 45)) with true by (destruct Hx as [-> | ->]; done). by apply (reads_at_accepts _ _ _ _ (float_accepts bits)).
  - cbn [lit_toks app] in H; destruct (first_byte _ _ _ H Hn) as (x & m & E & Hx); subst s; cbv beta iota.
    destruct Hx as (H1 & H2 & ->). rewrite !(proj2 (Z.eqb_neq _ _)) by done. cbn [orb].
    destruct (reads_at_accepts quoted_string (TStr v) v ts (quoted_accepts v) _ H Hn) as (r & Eq & Hr). exists r. split; [|done].
    skip_to H Hn ltac:(unfold parse_string_literal; rewrite pmap_law, Eq; reflexivity).
  - cbn [lit_toks app] in H; destruct (first_byte _ _ _ H Hn) as (x & m & E & Hx); subst s; cbv beta iota.
    destruct Hx as (H1 & H2 & ->). rewrite !(proj2 (Z.eqb_neq _ _)) by done. cbn [orb]. destruct (bool_step v _ ts H Hn) as (r & Eq & Hr). exists r. split; [|done].
    destruct v; skip_to H Hn ltac:(exact Eq).
  - cbn [lit_toks app] in H; destruct (first_byte _ _ _ H Hn) as (x & m & E & Hx); subst s; cbv beta iota.
    destruct Hx as (H1 & H2 & ->). rewrite !(proj2 (Z.eqb_neq _ _)) by done. cbn [orb]. destruct (at_step v _ ts H Hn) as (r & Eq & Hr). exists r. split; [|done].
    skip_to H Hn ltac:(exact Eq).
  - cbn [lit_toks app] in H; destruct (first_byte _ _ _ H Hn) as (x & m & E & Hx); subst s; cbv beta iota.
    destruct Hx as (H1 & H2 & ->). rewrite !(proj2 (Z.eqb_neq _ _)) by done. cbn [orb]. destruct (lid_step v _ ts H Hn) as (r & Eq & Hr). exists r. split; [|done].
    skip_to H Hn ltac:(exact Eq).
  - cbn [lit_toks app] in H; destruct (first_byte _ _ _ H Hn) as (x & m & E & Hx); subst s; cbv beta iota.
    destruct Hx as (H1 & H2 & ->). rewrite !(proj2 (Z.eqb_neq _ _)) by done. cbn [orb]. destruct (null_step _ ts H Hn) as (r & Eq & Hr). exists r. split; [|done].
    skip_to H Hn ltac:(exact Eq).
  - cbn [lit_toks app] in H; destruct (first_byte _ _ _ H Hn) as (x & m & E & Hx); subst s; cbv beta iota.
    subst x. cbn [is_ascii_digit_byte Z.leb Z.eqb orb]. destruct (dollar_step name _ ts H Hn) as (r & E1 & E2 & Hr). unfold parse_param_literal. rewrite E1.
    cbn [mbind NResult_bind]. rewrite (alt_here _ _ _ _ E2). by exists r.
  - pose proof H as H'. cbn [lit_toks app] in H'. destruct (first_byte _ _ _ H' Hn) as (x & m & E & m' & E' & _). injection E' as <- _. subst s; cbv beta iota. cbn [is_ascii_digit_byte Z.leb Z.eqb orb].
    destruct (list_step (fun i => parse_literal_depth fuel i (d + 1)) items ts (91 :: m)) as (r & Eq & Hr); [|done|done|].
    + apply Forall_forall. intros x Hx ts'. rewrite Forall_forall in IH. cbn [lit_height] in Hd, Hf.
      pose proof (height_le lit_height items x _ Hx (le_n _)) as Hle. change (map lit_height items) with (lit_height <$> items) in *. apply (IH x Hx); lia.
    + exists r. split; [|done]. by apply alt_here.
  - pose proof H as H'. rewrite map_toks in H'. cbn [app] in H'. destruct (first_byte _ _ _ H' Hn) as (x & m & E & m' & E' & _). injection E' as <- _. subst s; cbv beta iota.
    cbn [is_ascii_digit_byte Z.leb Z.eqb orb].
    destruct (map_step (fun i => parse_literal_depth fuel i (d + 1)) pairs ts (123 :: m)) as (r & Eq & Hr); [|done|done|].
    + apply Forall_forall. intros x Hx ts'. rewrite Forall_forall in IH. cbn [lit_height] in Hd, Hf.
      pose proof (height_le (fun kv => lit_height kv.2) pairs x _ Hx (le_n _)) as Hle. change (map (fun kv => lit_height kv.2) pairs) with ((fun kv => lit_height kv.2) <$> pairs) in *. apply (IH x Hx); lia.
    + exists r. split; [|done]. apply alt_next; [off H' Hn|]. by apply alt_here.
Qed.

Lemma parse_literal_reads l ts : (lit_height l <= 16)%nat -> reads_at parse_literal (lit_toks l) l ts.
Proof. intros H. apply (literal_reads l 18 0); lia. Qed.
End literals.

(** * Filters read back

    The tokens of filters and of expressions over them, with the parentheses their
    precedence asks for, and that the parser reads every layout of them as the
    expression they stand for. *)

(** ** Tokens *)

Definition op_symbol (op : FilterOp) : string :=
  match op with Neq => "!=" | Gte => ">=" | Lte => "<=" | Gt_ => ">" | Lt_ => "<" | _ => "=" end.

Definition filter_toks (f : Filter) : list Tok :=
  TName (f_field f) ::
  match f_op f, f_value f with
  | IsNull, _ => [TKw "IS"; TKw "NULL"]
  | IsNotNull, _ => [TKw "IS"; TKw "NOT"; TKw "NULL"]
  | Contains, v => TKw "CONTAINS" :: lit_toks v
  | In_, LList items => TKw "IN" :: TSym "[" :: commas (lit_toks <$> items) ++ [TSym "]"]
  | In_, v => TKw "IN" :: lit_toks v
  | op, v => TSym (op_symbol op) :: lit_toks v
  end.

(** What the language can say. *)
Definition filter_ok (f : Filter) : Prop :=
  match f_op f, f_value f with
  | (IsNull | IsNotNull), v => v = LNull
  | In_, LList items => items <> [] /\ Forall (fun l => (lit_height l <= 16)%nat) items
  | In_, _ => False
  | _, v => (lit_height v <= 16)%nat
  end.

Definition sep (k : string) (l : list (list Tok)) : list Tok := match l with [] => [] | x :: l => x ++ concat ((fun y => TKw k :: y) <$> l) end.

Definition wrap (bare : bool) (T : list Tok) : list Tok := if bare then T else TSym "(" :: T ++ [TSym ")"].

(** Level 0 is an operand of nothing, 1 of OR, 2 of AND and NOT. *)
Fixpoint expr_toks (level : nat) (e : FilterExpr) : list Tok :=
  match e with
  | Condition f => filter_toks f
  | Not e => TKw "NOT" :: expr_toks 2 e
  | And es => wrap (level <=? 1)%nat (sep "AND" (List.map (expr_toks 2) es))
  | Or es => wrap (level =? 0)%nat (sep "OR" (List.map (expr_toks 1) es))
  end.

(** The keyword, whole or up to a dot. *)
Definition kw_like (K : string) (n : bytes) : bool :=
  let k := length (str K) in
  beqb (upper_byte <$> take k n) (str K) && match drop k n with [] => true | c :: _ => negb (ascii_word c) end.

Fixpoint expr_ok (e : FilterExpr) : Prop :=
  match e with
  | Condition f => filter_ok f /\ kw_like "NOT" (f_field f) = false
  | Not e => expr_ok e
  | And es | Or es => (2 <= length es)%nat /\ foldr and True (List.map expr_ok es)
  end.

Fixpoint expr_height (e : FilterExpr) : nat :=
  match e with
  | Condition _ => 1
  | Not e => S (expr_height e)
  | And es | Or es => S (foldr Nat.max O (List.map expr_height es))
  end.

Definition tk_off (K : string) (ts : list Tok) : bool :=
  match ts with
  | TKw k :: _ => negb (kw_like K (str k))
  | TKw2 _ _ :: _ => false
  | (TName n | TLobe n) :: _ => negb (kw_like K n)
  | _ => true
  end.

(** The nested induction, negation first. *)
Lemma FilterExpr_levels (P : FilterExpr -> Prop) :
  (forall f, P (Condition f)) -> (forall e, P e -> P (Not e)) -> (forall es, Forall P es -> P (And es)) -> (forall es, Forall P es -> P (Or es)) -> forall e, P e.
Proof. intros. by apply FilterExpr_nested. Qed.

Lemma foldr_and {A} (P : A -> Prop) l : foldr and True (P <$> l) <-> Forall P l.
Proof. induction l as [|x l IH]; cbn; [split; [constructor|done]|]. rewrite Forall_cons. unfold fmap in IH. by rewrite IH. Qed.

Ltac kwd := split; [done|repeat constructor].

(** One token off the layout, by the parser at the front. *)
Ltac tok :=
  let r := fresh "r" in let b := fresh "b" in let E := fresh "E" in let H2 := fresh "Hl" in let Hn := fresh "Hn" in
  match goal with
  | H : lays (TKw ?k :: ?ts) ?s |- context [ws (kw ?K) ?s] =>
    destruct (kw_reads K k ts s ltac:(kwd) eq_refl H) as (r & b & E & _ & H2 & Hn)
  | H : lays (TName ?n :: ?ts) ?s |- context [ws identifier ?s] => destruct (ws_token identifier (TName n) n ts (ident_accepts n) s H) as (r & E & H2 & Hn)
  | H : lays (TStr ?n :: ?ts) ?s |- context [ws quoted_string ?s] => destruct (ws_token quoted_string (TStr n) n ts (quoted_accepts n) s H) as (r & E & H2 & Hn)
  | H : lays (TLobe ?n :: ?ts) ?s |- context [ws name_or_quoted ?s] => destruct (ws_token name_or_quoted (TLobe n) n ts (name_accepts n) s H) as (r & E & H2 & Hn)
  | H : lays (TSym ?y :: ?ts) ?s |- context [ws (nchar ?c) ?s] =>
    destruct (ws_token (nchar c) (TSym y) c ts (nchar_accepts c y eq_refl ltac:(lia)) s H) as (r & E & H2 & Hn)
  end; rewrite E; clear E; cbn [mbind NResult_bind].

(** A parser that begins with a keyword or a symbol and does not find it. *)
Ltac refuse :=
  match goal with
  | H : lays ?ts ?s |- errs (ws (kw ?K) ?s) => apply (ws_fails _ ts (kw_fails_at K ts ltac:(kwd) ltac:(first [assumption|reflexivity])) s H)
  | H : lays ?ts ?s |- errs (ws (nchar ?c) ?s) => apply (ws_fails _ ts (sym_fails_at c ts ltac:(lia) eq_refl ltac:(first [assumption|reflexivity])) s H)
  | |- errs (mbind _ _) => apply errs_bind; refuse
  | |- errs (value_of _ _ _) => rewrite value_law; refuse
  | |- errs (pmap _ _ _) => rewrite pmap_law; refuse
  | |- errs (preceded _ _ _) => rewrite preceded_law; refuse
  | |- errs (alt _ _) => apply alt_errs; repeat (apply Forall_cons; split; [refuse|]); apply Forall_nil_2
  end.

(** An optional part that is not there. *)
Ltac absent := rewrite opt_none by refuse; cbn [mbind NResult_bind].

Section filters.
Context {N : Nom} {NL : NomLaws N} {UN : Unicode} {VT : ValueText}.

Lemma op_reads op ts : match op with IsNull | IsNotNull | Contains | In_ => False | _ => True end -> reads_at parse_filter_op [TSym (op_symbol op)] op ts.
Proof.
  intros Hop. apply reads_at_accepts. intros b s [-> _] Hk. unfold parse_filter_op.
  assert (forall (v : FilterOp) t i x, starts_with i (str t) = true -> drop (length (str t)) i = x -> value_of v (tag (str t)) i = NOk (x, v)) as Hin.
  { intros v t i x E <-. rewrite value_law. assert (tag (str t) i = NOk (drop (length (str t)) i, str t)) as ->; [|done].
    eapply alike_ok; [apply tag_law|]. unfold tag_fun. by rewrite E. }
  assert (forall (v : FilterOp) t i, starts_with i (str t) = false -> errs (value_of v (tag (str t)) i)) as Hout.
  { intros v t i E. rewrite value_law. apply errs_bind. eapply alike_errs; [apply tag_law|]. unfold tag_fun. rewrite E. by eexists. }
  assert (forall x, existsb (Z.eqb x) [33; 60; 62] = true -> brk [x] s -> starts_with s [61] = false) as Hs.
  { intros x Hx Hb. destruct s as [|y s]; [done|]. cbn in Hb |- *. unfold glue in Hb. rewrite Hx in Hb. apply orb_false_iff in Hb as [_ Hb]. cbn in Hb. by rewrite Hb. }
  destruct op; try done; cbn [op_symbol]; repeat first
    [ apply alt_here; apply Hin; reflexivity
    | apply alt_here; apply Hin; [cbn; done|done]
    | apply alt_next; [apply Hout; first [reflexivity|exact (Hs 62 eq_refl Hk)|exact (Hs 60 eq_refl Hk)]|] ].
Qed.

Lemma ws_literal l ts : (lit_height l <= 16)%nat -> reads_ws (ws parse_literal) (lit_toks l) l ts.
Proof. intros H. by apply ws_reads, parse_literal_reads. Qed.

Lemma ws_literal_step l ts s : (lit_height l <= 16)%nat -> lays (lit_toks l ++ ts) s -> exists r, ws parse_literal s = NOk (r, l) /\ lays ts r /\ nows r.
Proof. intros H Hs. by apply (ws_literal l ts H). Qed.

(** The alternatives of [parse_filter], in turn. *)
Lemma comparison_reads field op v ts s :
  match op with IsNull | IsNotNull | Contains | In_ => False | _ => True end -> (lit_height v <= 16)%nat ->
  lays (TName field :: TSym (op_symbol op) :: lit_toks v ++ ts) s ->
  exists r, parse_filter s = NOk (r, mkFilter field op v) /\ lays ts r.
Proof.
  intros Hop Hv H. assert (exists r, parse_comparison_filter s = NOk (r, mkFilter field op v) /\ lays ts r) as (r & E & Hr).
  { unfold parse_comparison_filter. tok. destruct (ws_reads _ _ _ _ (op_reads op (lit_toks v ++ ts) Hop) _ Hl) as (r2 & -> & H2 & _). cbn [mbind NResult_bind].
    destruct (ws_literal_step v ts r2 Hv H2) as (r3 & -> & H3 & _). by exists r3. }
  exists r. split; [|done]. unfold parse_filter.
  apply alt_next; [unfold parse_is_null_filter; tok; refuse|]. apply alt_next; [unfold parse_contains_filter; tok; refuse|].
  apply alt_next; [unfold parse_in_filter; tok; refuse|]. by apply alt_here.
Qed.

Lemma in_reads field items ts s :
  items <> [] -> Forall (fun l => (lit_height l <= 16)%nat) items ->
  lays (TName field :: TKw "IN" :: TSym "[" :: commas (lit_toks <$> items) ++ TSym "]" :: ts) s ->
  exists r, parse_in_filter s = NOk (r, mkFilter field In_ (LList items)) /\ lays ts r.
Proof.
  intros Hne Hi H. unfold parse_in_filter. do 2 tok.
  assert (reads_at (alt [nchar 40; nchar 91]) [TSym "["] 91 (commas (lit_toks <$> items) ++ TSym "]" :: ts)) as Hopen.
  { intros s' Hs' Hn'. destruct (sym_step 91 "[" _ _ eq_refl ltac:(lia) Hs' Hn') as (r' & E' & Hr'). exists r'. split; [|done].
    apply alt_next; [|by apply alt_here]. eapply sym_fails_at; [lia|done| |exact Hs'|done]. done. }
  destruct (ws_reads _ _ _ _ Hopen _ Hl0) as (r2 & -> & H2 & _). cbn [mbind NResult_bind Z.eqb]. destruct items as [|x items]; [done|].
  apply Forall_cons in Hi as [Hx Hi]. rewrite fmap_cons in H2. cbn [commas] in H2. rewrite <- app_assoc in H2.
  destruct (ws_literal_step x _ r2 Hx H2) as (r3 & -> & H3 & _). cbn [mbind NResult_bind].
  destruct (items_loop_reads 93 "]" (ws parse_literal) lit_toks ts eq_refl ltac:(lia) ltac:(done) eq_refl items [x] (S (length r3)) r3) as (r4 & E4 & H4).
  - intros y ts' Hy. apply reads_weaken, ws_literal. rewrite Forall_forall in Hi. by apply Hi.
  - pose proof (Nat.le_trans _ _ _ (commas_length lit_toks items (TSym "]" :: ts)) (lays_length _ _ H3)). lia.
  - exact H3.
  - match goal with |- context [items_loop ?c _ _ _ _] => change c with 93 end. rewrite E4. by exists r4.
Qed.

Lemma filter_reads f ts : filter_ok f -> reads parse_filter (filter_toks f) f ts.
Proof.
  intros Hok s H. destruct f as [field op value]. unfold filter_ok, filter_toks in *. cbn [f_op f_value f_field] in *.
  destruct op; try (by apply comparison_reads).
  - subst value. cbn [app] in H. assert (exists r, parse_is_null_filter s = NOk (r, mkFilter field IsNull LNull) /\ lays ts r) as (r & E & Hr).
    { unfold parse_is_null_filter. do 2 tok. absent. tok. by eexists. }
    exists r. split; [|done]. by apply alt_here.
  - subst value. cbn [app] in H. assert (exists r, parse_is_null_filter s = NOk (r, mkFilter field IsNotNull LNull) /\ lays ts r) as (r & E & Hr).
    { unfold parse_is_null_filter. do 2 tok. destruct (kw_reads "NOT" "NOT" _ _ ltac:(kwd) eq_refl Hl0) as (r1 & b1 & E1 & _ & H1 & _).
      rewrite (opt_some _ _ _ _ E1). cbn [mbind NResult_bind]. tok. by eexists. }
    exists r. split; [|done]. by apply alt_here.
  - cbn [app] in H. assert (exists r, parse_contains_filter s = NOk (r, mkFilter field Contains value) /\ lays ts r) as (r & E & Hr).
    { unfold parse_contains_filter. do 2 tok. destruct (ws_literal_step value ts _ Hok Hl0) as (r3 & -> & H3 & _). by exists r3. }
    exists r. split; [|done]. apply alt_next; [unfold parse_is_null_filter; tok; refuse|]. by apply alt_here.
  - destruct value; try done. destruct Hok as [Hne Hi]. cbn [app] in H. rewrite <- app_assoc in H. destruct (in_reads field items ts s Hne Hi H) as (r & E & Hr).
    exists r. split; [|done]. apply alt_next; [unfold parse_is_null_filter; tok; refuse|]. apply alt_next; [unfold parse_contains_filter; tok; refuse|]. by apply alt_here.
Qed.
End filters.

(** * Filter expressions read back

    NOT binds tightest, then AND, then OR; parentheses where an operand is looser. *)

Section expressions.
Context {N : Nom} {NL : NomLaws N} {UN : Unicode} {VT : ValueText}.

(** ** Keywords between operands *)

Lemma starts_word_stops s : stops ident_char s -> starts_word s = false.
Proof.
  destruct s as [|y s]; [done|]. intros [Hy H]. unfold starts_word. rewrite next_char_ascii by done. unfold ident_char in H. apply orb_false_iff in H as [H _]. exact H.
Qed.

Lemma try_hit K ts s : is_keyword K -> upper_byte <$> str K = str K -> lays (TKw K :: ts) s -> exists r, try_keyword s K = Some r /\ lays ts r.
Proof.
  intros HK EK H. unfold try_keyword. rewrite (lays_trim_start _ _ H). apply lays_cons in H as (b & s' & -> & (Ha & _ & Eu & Hl) & Hk & Hs). exists s'. split; [|done].
  assert (length b = length (str K)) as El by (by rewrite <- Eu, length_fmap).
  assert (stops ident_char s') as Hst. { apply (brk_stops b s'); [intros ->; apply HK; by rewrite <- Eu|eapply Forall_impl; [exact Hl|apply alpha_word]|exact Hk]. }
  unfold blen at 1 2. rewrite length_app, (proj2 (Z.leb_le _ _)) by lia.
  assert (is_char_boundary (b ++ s') (blen (str K)) = true) as ->.
  { unfold blen. rewrite <- El. pose proof (boundary_at b s') as Hb. unfold blen in Hb. apply Hb. destruct s' as [|y s']; [done|]. destruct Hst as [Hy _]. cbn. unfold cont. lia. }
  unfold blen. rewrite Nat2Z.id, <- El, take_app_length, drop_app_length. cbn [andb]. rewrite eq_ignore_upper by congruence. by rewrite starts_word_stops.
Qed.

Lemma eq_ignore_iff a K : upper_byte <$> str K = str K -> eq_ignore_ascii_case a (str K) = beqb (upper_byte <$> a) (str K).
Proof. intros E. unfold eq_ignore_ascii_case. by rewrite E. Qed.

(** A word that is not the keyword. *)
Lemma try_word K b s' :
  is_keyword K -> upper_byte <$> str K = str K -> b <> [] -> Forall (fun c => ident_byte c = true) b -> brk b s' -> kw_like K b = false ->
  (let n := blen (str K) in
   if (n <=? blen (b ++ s')) && is_char_boundary (b ++ s') n then
     if eq_ignore_ascii_case (take (Z.to_nat n) (b ++ s')) (str K) then
       let after := drop (Z.to_nat n) (b ++ s') in if starts_word after then None else Some after
     else None
   else None) = None.
Proof.
  intros HK EK Hne Hw Hk Hn. cbv zeta. destruct (_ && _); [|done]. unfold blen. rewrite Nat2Z.id. set (k := length (str K)).
  rewrite eq_ignore_iff by done. destruct (beqb _ _) eqn:E; [|done]. apply beqb_eq in E. destruct (Nat.le_gt_cases k (length b)) as [Hl | Hl].
  - rewrite take_app_le in E by done. rewrite drop_app_le by done. unfold kw_like in Hn. fold k in Hn. rewrite E in Hn.
    rewrite (proj2 (beqb_eq _ _) eq_refl) in Hn. cbn [andb] in Hn. destruct (drop k b) as [|c m] eqn:Ed; [done|]. apply negb_false_iff in Hn.
    cbn [app]. unfold starts_word. assert (0 <= c < 128) as Hc.
    { rewrite <- (take_drop k b), Ed in Hw. apply Forall_app in Hw as [_ Hw]. apply Forall_cons in Hw as [Hc%word_solid _]. unfold solid in Hc. lia. }
    rewrite next_char_ascii by done. unfold word_char, is_alphanumeric. rewrite beqb_one. unfold ascii_word in Hn. by rewrite Hn.
  - exfalso. pose proof (brk_word b s' Hne Hw Hk) as Hy. destruct s' as [|y s'].
    + rewrite app_nil_r in E. apply (f_equal length) in E. rewrite length_fmap, length_take in E. fold k in E. lia.
    + destruct Hy as [_ Hy]. assert (str K !! length b = Some (upper_byte y)) as Ey.
      { rewrite <- E, list_lookup_fmap, lookup_take_lt by done. by rewrite list_lookup_middle. }
      destruct HK as [_ HK]. rewrite Forall_lookup in HK. apply HK, alpha_word in Ey. rewrite upper_ident in Ey. congruence.
Qed.

Lemma try_miss K ts s : is_keyword K -> upper_byte <$> str K = str K -> tk_off K ts = true -> lays ts s -> try_keyword s K = None.
Proof.
  intros HK EK Ht H. unfold try_keyword. rewrite (lays_trim_start _ _ H). destruct ts as [|t ts].
  - rewrite lays_end by done. destruct HK as [Hne _]. unfold blen. cbn [length]. destruct (str K) as [|c k]; [done|]. done.
  - apply lays_cons in H as (b & s' & -> & Hb & Hk & _).
    assert (forall x m, b = x :: m -> is_ascii_alpha_byte x = false ->
      (let n := blen (str K) in
       if (n <=? blen (b ++ s')) && is_char_boundary (b ++ s') n then
         if eq_ignore_ascii_case (take (Z.to_nat n) (b ++ s')) (str K) then
           let after := drop (Z.to_nat n) (b ++ s') in if starts_word after then None else Some after
         else None
       else None) = None) as Hother.
    { intros x m -> Hx. cbv zeta. destruct (_ && _); [|done]. rewrite eq_ignore_iff by done. unfold blen. rewrite Nat2Z.id. destruct HK as [Hne HK].
      destruct (str K) as [|c k] eqn:E; [done|]. apply Forall_cons in HK as [Hc _]. cbn [length take app]. rewrite fmap_cons.
      destruct (beqb _ _) eqn:Eb; [|done]. apply beqb_eq in Eb. injection Eb as Ex _. revert Hc Hx. rewrite <- Ex.
      unfold is_ascii_alpha_byte, upper_byte. case_match; lia. }
    destruct (spells_first t b Hb) as (x & m & E & Hx).
    destruct t; cbn [spells tk_off] in *; try (apply (Hother x m E); first [by subst x | by (destruct Hx as [-> | Hx]; [done|]; revert Hx; unfold is_ascii_digit_byte, is_ascii_alpha_byte; lia)
      | (revert Hx; unfold is_ascii_digit_byte, is_ascii_alpha_byte; lia)]).
    + destruct Hb as (_ & Hne & Eu & Hl). apply try_word; [done|done|by intros ->; rewrite <- Eu in Hne|eapply Forall_impl; [exact Hl|apply alpha_word]|done|].
      apply negb_true_iff in Ht. unfold kw_like in *. rewrite <- Eu, <- fmap_take in Ht.
      assert (forall l, upper_byte <$> (upper_byte <$> l) = upper_byte <$> l) as Hid by (intros l; rewrite <- list_fmap_compose; apply list_fmap_ext; intros; apply upper_alpha_idem).
      rewrite Hid, <- fmap_drop in Ht. destruct (beqb _ _); [|done]. cbn in Ht |- *. destruct (drop _ b) as [|c l]; [done|]. cbn in Ht.
      apply negb_false_iff in Ht. apply negb_false_iff. revert Ht. unfold ascii_word, is_ascii_alpha_byte, is_ascii_digit_byte, upper_byte. repeat case_match; lia.
    + destruct Hb as [-> [Hne Hi]]. apply try_word; [done..|]. by apply negb_true_iff.
    + destruct Hb as [(m' & ->)%quoted_head | [-> [Hne Hi]]]; [by apply (Hother 34 m')|]. apply try_word; [done..|]. by apply negb_true_iff.
    + destruct Hx as (m' & _ & Hx). apply (Hother x m E). apply not_true_iff_false. intros Ha%alpha_word. congruence.
Qed.

(** ** Operands joined by a keyword *)

Section terms.
Context (K : string) (join : list FilterExpr -> FilterExpr) (term : Parser FilterExpr) (toks : FilterExpr -> list Tok) (F : list Tok -> Prop).
Hypothesis HK : is_keyword K.
Hypothesis EK : upper_byte <$> str K = str K.
Hypothesis HF : forall ts, F (TKw K :: ts).

Lemma terms_loop_reads ts l : forall acc fuel s,
  F ts -> tk_off K ts = true -> Forall (fun e => forall ts, F ts -> reads term (toks e) e ts) l -> (length l < fuel)%nat ->
  lays (concat ((fun y => TKw K :: y) <$> (toks <$> l)) ++ ts) s ->
  exists r, terms_loop K term fuel s acc = NOk (r, acc ++ l) /\ lays ts r.
Proof.
  induction l as [|e l IH]; intros acc fuel s Hts Ht Hl Hf Hs; (destruct fuel as [|fuel]; [cbn in Hf; lia|]); cbn [terms_loop].
  - cbn in Hs. rewrite (try_miss K ts s HK EK Ht Hs). exists s. by rewrite app_nil_r.
  - rewrite !fmap_cons in Hs. cbn [concat app] in Hs. rewrite <- app_assoc in Hs. destruct (try_hit K _ s HK EK Hs) as (r & -> & Hr).
    apply Forall_cons in Hl as [He Hl]. destruct (He (concat ((fun y => TKw K :: y) <$> (toks <$> l)) ++ ts)) with (s := r) as (r2 & -> & Hr2); [|done|].
    { destruct l; [done|apply HF]. }
    cbn [mbind NResult_bind]. destruct (IH (acc ++ [e]) fuel r2 Hts Ht Hl) as (r3 & E3 & H3); [cbn in Hf; lia|done|]. exists r3. by rewrite <- app_assoc in E3.
Qed.

Lemma terms_length l ts s : lays (concat ((fun y => TKw K :: y) <$> (toks <$> l)) ++ ts) s -> (length l < S (length s))%nat.
Proof.
  intros H%lays_length. assert (length l <= length (concat ((fun y => TKw K :: y) <$> (toks <$> l)) ++ ts))%nat; [|lia]. clear H.
  induction l as [|e l IH]; [cbn; lia|]. rewrite !fmap_cons. cbn [concat app length]. rewrite <- app_assoc, length_app. lia.
Qed.

Lemma terms_one e ts : F ts -> tk_off K ts = true -> (forall ts, F ts -> reads term (toks e) e ts) -> reads (parse_terms K join term) (toks e) e ts.
Proof.
  intros Hts Ht He s Hs. unfold parse_terms. destruct (He ts Hts s Hs) as (r & -> & Hr). cbn [mbind NResult_bind].
  destruct (terms_loop_reads ts [] [e] (S (length r)) r Hts Ht) as (r2 & -> & H2); [constructor|cbn; lia|done|]. by exists r2.
Qed.

Lemma terms_many l ts :
  F ts -> tk_off K ts = true -> (2 <= length l)%nat -> Forall (fun e => forall ts, F ts -> reads term (toks e) e ts) l ->
  reads (parse_terms K join term) (sep K (toks <$> l)) (join l) ts.
Proof.
  intros Hts Ht Hn Hl s Hs. destruct l as [|e l]; [cbn in Hn; lia|]. apply Forall_cons in Hl as [He Hl]. rewrite fmap_cons in Hs. cbn [sep] in Hs.
  rewrite <- app_assoc in Hs. unfold parse_terms. destruct (He (concat ((fun y => TKw K :: y) <$> (toks <$> l)) ++ ts)) with (s := s) as (r & -> & Hr); [|done|].
  { destruct l; [done|apply HF]. }
  cbn [mbind NResult_bind]. destruct (terms_loop_reads ts l [e] (S (length r)) r Hts Ht Hl) as (r2 & -> & H2); [by eapply terms_length|done|]. exists r2.
  split; [|done]. cbn [mbind NResult_bind app]. destruct l as [|e2 l]; [cbn in Hn; lia|done].
Qed.
End terms.

(** ** Expressions *)

Definition kw_AND : is_keyword "AND". Proof. split; [done|repeat constructor]. Qed.
Definition kw_OR : is_keyword "OR". Proof. split; [done|repeat constructor]. Qed.
Definition kw_NOT : is_keyword "NOT". Proof. split; [done|repeat constructor]. Qed.

Definition any_ts (ts : list Tok) : Prop := True.
Definition no_and (ts : list Tok) : Prop := tk_off "AND" ts = true.

(** The expression at the three levels. *)
Definition expr_reads (n : nat) (e : FilterExpr) : Prop :=
  (forall ts, reads (parse_not_expr n) (expr_toks 2 e) e ts) /\
  (forall ts, no_and ts -> reads (parse_and_expr (parse_not_expr n)) (expr_toks 1 e) e ts) /\
  (forall ts, no_and ts -> tk_off "OR" ts = true -> reads (parse_or_expr (parse_not_expr n)) (expr_toks 0 e) e ts).

Lemma and_one n e : (forall ts, reads (parse_not_expr n) (expr_toks 2 e) e ts) ->
  forall ts, no_and ts -> reads (parse_and_expr (parse_not_expr n)) (expr_toks 2 e) e ts.
Proof. intros H ts Hts. by apply (terms_one "AND" And (parse_not_expr n) (expr_toks 2) any_ts kw_AND eq_refl). Qed.

Lemma or_one n e : (forall ts, no_and ts -> reads (parse_and_expr (parse_not_expr n)) (expr_toks 1 e) e ts) ->
  forall ts, no_and ts -> tk_off "OR" ts = true -> reads (parse_or_expr (parse_not_expr n)) (expr_toks 1 e) e ts.
Proof. intros H ts Hts Ho. by apply (terms_one "OR" Or (parse_and_expr (parse_not_expr n)) (expr_toks 1) no_and kw_OR eq_refl). Qed.

Lemma and_many n es : (2 <= length es)%nat -> Forall (expr_reads n) es ->
  forall ts, no_and ts -> reads (parse_and_expr (parse_not_expr n)) (sep "AND" (expr_toks 2 <$> es)) (And es) ts.
Proof.
  intros Hl H ts Hts. apply (terms_many "AND" And (parse_not_expr n) (expr_toks 2) any_ts kw_AND eq_refl); [done|done|done|done|].
  eapply Forall_impl; [exact H|]. by intros e [He _] ts' _.
Qed.

Lemma or_many n es : (2 <= length es)%nat -> Forall (expr_reads n) es ->
  forall ts, no_and ts -> tk_off "OR" ts = true -> reads (parse_or_expr (parse_not_expr n)) (sep "OR" (expr_toks 1 <$> es)) (Or es) ts.
Proof.
  intros Hl H ts Hts Ho. apply (terms_many "OR" Or (parse_and_expr (parse_not_expr n)) (expr_toks 1) no_and kw_OR eq_refl); [done|done|done|done|].
  eapply Forall_impl; [exact H|]. intros e (_ & He & _) ts' Hts'. by apply He.
Qed.

(** Parentheses around an expression read at the loosest level. *)
Lemma paren_reads n e T ts :
  (forall ts, no_and ts -> tk_off "OR" ts = true -> reads (parse_or_expr (parse_not_expr n)) T e ts) -> reads (parse_not_expr (S n)) (TSym "(" :: T ++ [TSym ")"]) e ts.
Proof.
  intros H s Hs. cbn [app] in Hs. rewrite <- app_assoc in Hs. cbn [parse_not_expr]. rewrite (try_miss "NOT" (TSym "(" :: T ++ [TSym ")"] ++ ts) s kw_NOT eq_refl eq_refl Hs).
  unfold parse_filter_atom. apply lays_at_start in Hs as [Hs Hn]. destruct (sym_step 40 "(" _ _ eq_refl ltac:(lia) Hs Hn) as (r & E & Hr).
  apply lays_cons in Hs as (b & s' & Es & [-> _] & _). rewrite skip_ws_nows in Es by done.
  assert (starts_with (trim_start s) [40] = true) as -> by (by rewrite Es). rewrite E. cbn [mbind NResult_bind].
  destruct (H (TSym ")" :: ts) eq_refl eq_refl r Hr) as (r2 & -> & Hr2). cbn [mbind NResult_bind]. tok. by eexists.
Qed.

Lemma condition_reads n f ts : filter_ok f -> kw_like "NOT" (f_field f) = false -> reads (parse_not_expr (S n)) (filter_toks f) (Condition f) ts.
Proof.
  intros Hok Hk s Hs. cbn [parse_not_expr]. pose proof Hs as Hs'. cbn [filter_toks app] in Hs'. assert (try_keyword s "NOT" = None) as ->.
  { eapply try_miss; [exact kw_NOT|done| |exact Hs']. cbn. by rewrite Hk. }
  unfold parse_filter_atom. apply lays_at_start in Hs' as [Hs' Hn]. apply lays_cons in Hs' as (b & s' & Es & [-> (x & m & Ex & Hx)%ident_head] & _). rewrite skip_ws_nows in Es by done.
  assert (starts_with (trim_start s) [40] = false) as ->. { rewrite Es, Ex. cbn. rewrite andb_true_r. apply Z.eqb_neq. by intros ->. }
  apply lays_at_start in Hs as [Hs _]. destruct (filter_reads f ts Hok _ Hs) as (r & -> & Hr). by exists r.
Qed.

Lemma height_forall {A} (f : A -> nat) l n : (foldr Nat.max O (f <$> l) <= n)%nat -> Forall (fun x => (f x <= n)%nat) l.
Proof. intros H. apply Forall_forall. intros x Hx. by eapply height_le. Qed.

Lemma expr_reads_ok e : expr_ok e -> forall n, (expr_height e <= n)%nat -> expr_reads n e.
Proof.
  revert e. refine (FilterExpr_levels _ _ _ _ _).
  - intros f [Hf Hk] n Hn. destruct n as [|n]; [cbn in Hn; lia|].
    assert (forall ts, reads (parse_not_expr (S n)) (expr_toks 2 (Condition f)) (Condition f) ts) as H2 by (intros; by apply condition_reads).
    split; [done|]. pose proof (and_one _ _ H2) as H1. split; [done|]. exact (or_one (S n) (Condition f) H1).
  - intros e IH Hok n Hn. destruct n as [|n]; [cbn in Hn; lia|]. destruct (IH Hok n) as [He _]; [cbn in Hn; lia|].
    assert (forall ts, reads (parse_not_expr (S n)) (expr_toks 2 (Not e)) (Not e) ts) as H2.
    { intros ts s Hs. cbn [expr_toks app] in Hs. cbn [parse_not_expr]. destruct (try_hit "NOT" _ s kw_NOT eq_refl Hs) as (r & -> & Hr).
      destruct (He ts r Hr) as (r2 & -> & Hr2). by exists r2. }
    split; [done|]. pose proof (and_one _ _ H2) as H1. split; [done|]. exact (or_one (S n) (Not e) H1).
  - intros es IH [Hl Hok] n Hn. change (foldr and True (expr_ok <$> es)) in Hok. apply foldr_and in Hok.
    assert (forall n, (S (foldr Nat.max O (expr_height <$> es)) <= S n)%nat -> Forall (expr_reads n) es) as Hes.
    { intros n' Hn'. pose proof (height_forall expr_height es n' ltac:(lia)) as Hh. rewrite !Forall_forall in *. intros e He. by apply IH; [|apply Hok|apply Hh]. }
    change (expr_height (And es)) with (S (foldr Nat.max O (expr_height <$> es))) in Hn. destruct n as [|n]; [lia|].
    pose proof (and_many (S n) es Hl (Hes (S n) ltac:(lia))) as H1. split; [|split; [exact H1|exact (or_one (S n) (And es) H1)]].
    intros ts. apply paren_reads. pose proof (and_many n es Hl (Hes n Hn)) as Hp. exact (or_one n (And es) Hp).
  - intros es IH [Hl Hok] n Hn. change (foldr and True (expr_ok <$> es)) in Hok. apply foldr_and in Hok.
    assert (forall n, (S (foldr Nat.max O (expr_height <$> es)) <= S n)%nat -> Forall (expr_reads n) es) as Hes.
    { intros n' Hn'. pose proof (height_forall expr_height es n' ltac:(lia)) as Hh. rewrite !Forall_forall in *. intros e He. by apply IH; [|apply Hok|apply Hh]. }
    change (expr_height (Or es)) with (S (foldr Nat.max O (expr_height <$> es))) in Hn. destruct n as [|n]; [lia|].
    pose proof (or_many (S n) es Hl (Hes (S n) ltac:(lia))) as H0.
    assert (forall ts, reads (parse_not_expr (S n)) (expr_toks 2 (Or es)) (Or es) ts) as H2 by (intros ts; apply paren_reads; exact (or_many n es Hl (Hes n Hn))).
    split; [exact H2|]. split; [exact (and_one (S n) (Or es) H2)|exact H0].
Qed.

(** The height is at most the number of tokens. *)
Lemma sep_length K (toks : FilterExpr -> list Tok) es e : e ∈ es -> (2 <= length es)%nat -> (S (length (toks e)) <= length (sep K (toks <$> es)))%nat.
Proof.
  intros He Hl. destruct es as [|x es]; [by apply elem_of_nil in He|]. rewrite fmap_cons. cbn [sep]. rewrite length_app.
  assert (forall es, (length es <= length (concat ((fun y => TKw K :: y) <$> (toks <$> es))))%nat /\
    (e ∈ es -> (S (length (toks e)) <= length (concat ((fun y => TKw K :: y) <$> (toks <$> es))))%nat)) as H.
  { induction es0 as [|y es' [IH1 IH2]]; [split; [done|by intros ?%elem_of_nil]|]. rewrite !fmap_cons. cbn [concat app length]. rewrite length_app.
    split; [lia|]. intros [-> | Hin]%elem_of_cons; [lia|]. specialize (IH2 Hin). lia. }
  destruct (H es) as [H1 H2]. cbn [length] in Hl. apply elem_of_cons in He as [-> | He]; [lia|]. specialize (H2 He). lia.
Qed.

Lemma wrap_length b T : (length T <= length (wrap b T))%nat.
Proof. destruct b; cbn; [done|]. rewrite length_app. lia. Qed.

Lemma heights_le K level es :
  Forall (fun e => forall level, (expr_height e <= length (expr_toks level e))%nat) es -> (2 <= length es)%nat ->
  (S (foldr Nat.max O (expr_height <$> es)) <= length (sep K (expr_toks level <$> es)))%nat.
Proof.
  intros H Hl. assert (forall l, l ⊆ es -> (S (foldr Nat.max O (expr_height <$> l)) <= length (sep K (expr_toks level <$> es)))%nat) as Hs; [|by apply Hs].
  induction l as [|e l IH]; intros Hsub.
  - destruct es as [|e es]; [cbn in Hl; lia|]. pose proof (sep_length K (expr_toks level) (e :: es) e ltac:(left) Hl). rewrite fmap_nil. cbn [foldr]. lia.
  - assert (e ∈ es) as He by (apply Hsub; left). pose proof (sep_length K (expr_toks level) es e He Hl). rewrite Forall_forall in H. specialize (H e He level).
    specialize (IH ltac:(intros x Hx; apply Hsub; by right)). rewrite fmap_cons. cbn [foldr]. lia.
Qed.

Lemma expr_height_toks e : expr_ok e -> forall level, (expr_height e <= length (expr_toks level e))%nat.
Proof.
  revert e. refine (FilterExpr_levels _ _ _ _ _).
  - intros f _ level. cbn. lia.
  - intros e IH Hok level. cbn. specialize (IH Hok 2%nat). lia.
  - intros es IH [Hl Hok] level. change (foldr and True (expr_ok <$> es)) in Hok. apply foldr_and in Hok.
    etransitivity; [|apply wrap_length]. apply (heights_le "AND" 2 es); [|done]. rewrite !Forall_forall in *. intros e He. by apply IH, Hok.
  - intros es IH [Hl Hok] level. change (foldr and True (expr_ok <$> es)) in Hok. apply foldr_and in Hok.
    etransitivity; [|apply wrap_length]. apply (heights_le "OR" 1 es); [|done]. rewrite !Forall_forall in *. intros e He. by apply IH, Hok.
Qed.

Lemma where_reads e ts : expr_ok e -> no_and ts -> tk_off "OR" ts = true -> reads parse_where_expr (TKw "WHERE" :: expr_toks 0 e) e ts.
Proof.
  intros He Ha Ho s H. cbn [app] in H. unfold parse_where_expr. tok. apply (expr_reads_ok e He); [|done|done|done].
  pose proof (expr_height_toks e He 0). apply lays_length in Hl. rewrite length_app in Hl. lia.
Qed.
End expressions.
