(* ===== verification/StatementReads.v ===== *)
(** * Clauses, statements and steps read back

    The tokens of the clauses, of the statements and of the steps of a pipeline, and
    that the parsers read every layout of them. *)

From S2P Require Import Prelude Types Paths ByteOrder BTree Value Lid Record Filters GroupKey Gravity FilterEq Scan Registries Db Mutations.
From S2P Require Import Nom Parser Tokens ExprReads.

(** * Clauses read back

    The parts statements share: lists between separators, optional parts, targets,
    blocks of fields, LINK and ON CONFLICT, LIMIT, CURSOR, ORDER BY and aggregates. *)

(** ** Tokens *)

Definition opt_toks {A} (f : A -> list Tok) (o : option A) : list Tok := match o with Some a => f a | None => [] end.

Definition names (l : list bytes) : list Tok := commas ((fun n => [TName n]) <$> l).

Definition where_toks (e : FilterExpr) : list Tok := TKw "WHERE" :: expr_toks 0 e.
Definition flat_toks (fs : list Filter) : list Tok := match fs with [] => [] | _ => TKw "WHERE" :: sep "AND" (filter_toks <$> fs) end.
Definition limit_toks (n : Z) : list Tok := [TKw "LIMIT"; TNat n].
Definition cursor_toks (c : bytes) : list Tok := [TKw "CURSOR"; TStr c].
Definition order_toks (ob : OrderBy) : list Tok := [TKw "ORDER"; TKw "BY"; TName (ob_field ob)] ++ (if ob_descending ob then [TKw "DESC"] else []).

Definition target_toks (t : FindTarget) : list Tok := match t with FLobe n => [TLobe n] | ByLid s => [TKw "LID"; TParen s] end.

Definition field_toks (f : PutField) : list Tok := (if pf_gravity f then [TSym "*"] else []) ++ TName (pf_name f) :: TSym ":" :: lit_toks (pf_value f).
Definition block_toks (fs : list PutField) : list Tok := TSym "{" :: commas (field_toks <$> fs) ++ [TSym "}"].

Definition link_toks (l : LinkClause) : list Tok :=
  [TKw "LINK"; TKw "TO"] ++ target_toks (lk_target l) ++ flat_toks (lk_filters l) ++ [TKw "AS"; TStr (lk_relation_name l)].
Definition conflict_toks (c : OnConflict) : list Tok := [TKw "ON"; TKw "CONFLICT"; TKw "UPDATE"].

Definition assignment_toks (kv : bytes * Literal) : list Tok := TName kv.1 :: TSym "=" :: lit_toks kv.2.

Definition func_toks (f : AggregateFunc) : list Tok :=
  match f with
  | Count => [TKw "COUNT"; TSym "("; TSym ")"]
  | Sum n => [TKw "SUM"; TSym "("; TName n; TSym ")"]
  | Avg n => [TKw "AVG"; TSym "("; TName n; TSym ")"]
  | Min n => [TKw "MIN"; TSym "("; TName n; TSym ")"]
  | Max n => [TKw "MAX"; TSym "("; TName n; TSym ")"]
  end.
Definition alias_toks (n : bytes) : list Tok := [TKw "AS"; TName n].
Definition agg_toks (a : AggregateItem) : list Tok := func_toks (ag_func a) ++ opt_toks alias_toks (ag_alias a) ++ opt_toks where_toks (ag_filter a).

Definition opt_ok {A} (P : A -> Prop) (o : option A) : Prop := match o with Some a => P a | None => True end.
Definition lit_ok (l : Literal) : Prop := (lit_height l <= 16)%nat.
Definition field_ok (f : PutField) : Prop := lit_ok (pf_value f).
Definition link_ok (l : LinkClause) : Prop := Forall filter_ok (lk_filters l).
Definition agg_ok (a : AggregateItem) : Prop := opt_ok expr_ok (ag_filter a).

(** Decides what the next token is not, whatever optional parts are there. *)
Ltac off :=
  repeat match goal with
  | |- context [opt_toks _ ?o] => is_var o; destruct o
  | |- context [flat_toks ?l] => is_var l; destruct l
  | |- context [if ?b then _ else _] => is_var b; destruct b
  | |- context [target_toks ?t] => is_var t; destruct t
  | |- context [func_toks ?t] => is_var t; destruct t
  | |- context [order_toks ?o] => is_var o; destruct o
  end; first [reflexivity|assumption|done].

Section clauses.
Context {N : Nom} {NL : NomLaws N} {UN : Unicode} {VT : ValueText}.

(** ** Optional parts *)

Lemma opt_clause {A} (p : Parser A) (f : A -> list Tok) (o : option A) ts s :
  (forall a, o = Some a -> reads p (f a) a ts) -> (o = None -> fails p ts) -> lays (opt_toks f o ++ ts) s ->
  exists r, opt p s = NOk (r, o) /\ lays ts r.
Proof.
  intros Hs Hn H. destruct o as [a|]; cbn [opt_toks app] in H.
  - destruct (Hs a eq_refl s H) as (r & E & Hr). exists r. by rewrite (opt_some _ _ _ _ E).
  - exists s. by rewrite opt_none by (by apply Hn).
Qed.

(** ** Separated lists *)

Lemma lays_shorter t ts s : lays (t :: ts) s -> forall b s', skip_ws s = b ++ s' -> spells t b -> (length (skip_ws s') < length s)%nat.
Proof.
  intros (w & b0 & s0 & -> & Hw & Hb0 & _) b s' E Hb. rewrite skip_ws_app in E by done. rewrite skip_ws_nows in E by (eapply spells_nows; exact Hb0).
  assert (forall l, (length (skip_ws l) <= length l)%nat) as Hs by (induction l as [|x l IH]; cbn; [lia|case_match; cbn; lia]).
  pose proof (Hs s'). destruct (spells_ends t b Hb) as [(x & m & -> & _) _]. rewrite length_app, E, length_app. cbn. lia.
Qed.

Definition separates {B} (p : Parser B) (t : Tok) : Prop :=
  forall ts s, lays (t :: ts) s -> exists r v, p s = NOk (r, v) /\ lays ts r /\ (length r < length s)%nat.

Lemma comma_separates : separates (ws (nchar 44)) (TSym ",").
Proof.
  intros ts s H. pose proof H as H'. apply lays_cons in H as (b & s' & E & Hb & _ & Hs). exists (skip_ws s'), 44. split.
  - rewrite ws_eq, E. destruct Hb as [-> _]. change (str ",") with [44]. cbn [app]. by rewrite nchar_ok by lia.
  - split; [by apply lays_skip|]. by eapply lays_shorter.
Qed.

Lemma and_separates : separates (ws (kw "AND")) (TKw "AND").
Proof.
  intros ts s H. pose proof H as H'. apply lays_cons in H as (b & s' & E & Hb & _ & Hs). exists (skip_ws s'), b. split.
  - rewrite ws_eq, E. destruct Hb as (_ & _ & Eu & _). unfold kw. rewrite tag_no_case_ok; [done|apply keyword_ascii, kw_AND|by apply eq_ignore_upper].
  - split; [by apply lays_skip|]. by eapply lays_shorter.
Qed.

Definition sep_toks (t : Tok) (l : list (list Tok)) : list Tok := match l with [] => [] | x :: l => x ++ concat ((fun y => t :: y) <$> l) end.

Lemma sep_loop_reads {A B} (sp : Parser B) (t : Tok) (p : Parser A) (toks : A -> list Tok) (F : list Tok -> Prop) ts :
  separates sp t -> (forall ts, F (t :: ts)) -> F ts -> fails sp ts ->
  forall l acc fuel s, (forall x ts, x ∈ l -> F ts -> reads p (toks x) x ts) -> (length l < fuel)%nat ->
    lays (concat ((fun y => t :: y) <$> (toks <$> l)) ++ ts) s -> exists r, sep_loop sp p fuel s acc = NOk (r, acc ++ l) /\ lays ts r.
Proof.
  intros Hsp HF Hts Hend. induction l as [|x l IH]; intros acc fuel s Hl Hf Hs; (destruct fuel as [|fuel]; [cbn in Hf; lia|]); cbn [sep_loop].
  - cbn in Hs. destruct (Hend s Hs) as [i ->]. exists s. by rewrite app_nil_r.
  - rewrite !fmap_cons in Hs. cbn [concat app] in Hs. rewrite <- app_assoc in Hs. destruct (Hsp _ s Hs) as (r & v & -> & Hr & Hlen).
    rewrite (proj2 (Nat.eqb_neq _ _)) by lia. destruct (Hl x (concat ((fun y => t :: y) <$> (toks <$> l)) ++ ts)) with (s := r) as (r2 & -> & Hr2); [by left| |done|].
    { destruct l; [done|apply HF]. }
    destruct (IH (acc ++ [x]) fuel r2) as (r3 & E3 & H3); [intros; apply Hl; [by right|done]|cbn in Hf; lia|done|]. exists r3. by rewrite <- app_assoc in E3.
Qed.

Lemma sep_list_reads {A B} (sp : Parser B) (t : Tok) (p : Parser A) (toks : A -> list Tok) (F : list Tok -> Prop) l ts :
  separates sp t -> (forall ts, F (t :: ts)) -> F ts -> fails sp ts -> l <> [] -> (forall x ts, x ∈ l -> F ts -> reads p (toks x) x ts) ->
  reads (separated_list1 sp p) (sep_toks t (toks <$> l)) l ts.
Proof.
  intros Hsp HF Hts Hend Hne Hl s Hs. destruct l as [|x l]; [done|]. rewrite fmap_cons in Hs. cbn [sep_toks] in Hs. rewrite <- app_assoc in Hs.
  destruct (Hl x (concat ((fun y => t :: y) <$> (toks <$> l)) ++ ts)) with (s := s) as (r & E & Hr); [by left| |done|].
  { destruct l; [done|apply HF]. }
  destruct (sep_loop_reads sp t p toks F ts Hsp HF Hts Hend l [x] (S (length r)) r) as (r2 & E2 & H2); [intros; apply Hl; [by right|done]| |done|].
  - apply lays_length in Hr. assert (length l <= length (concat ((fun y => t :: y) <$> (toks <$> l)) ++ ts))%nat; [|lia].
    clear. induction l as [|y l IH]; [cbn; lia|]. rewrite !fmap_cons. cbn [concat app length]. rewrite <- app_assoc, length_app. lia.
  - assert (sep_list1_fun sp p s = NOk (r2, x :: l)) as Ef by (unfold sep_list1_fun; rewrite E; cbn [mbind NResult_bind]; exact E2). exists r2. split; [|done].
    eapply alike_ok; [apply sep_list1_law; by rewrite Ef|done].
Qed.

Lemma comma_list {A} (p : Parser A) (toks : A -> list Tok) (F : list Tok -> Prop) l ts :
  (forall ts, F (TSym "," :: ts)) -> F ts -> sym_off 44 ts = true -> l <> [] -> (forall x ts, x ∈ l -> F ts -> reads p (toks x) x ts) ->
  reads (separated_list1 (ws (nchar 44)) p) (commas (toks <$> l)) l ts.
Proof.
  intros HF Hts Ho Hne Hl. apply (sep_list_reads (ws (nchar 44)) (TSym ",") p toks F l ts comma_separates HF Hts); [|done|done].
  apply ws_fails, sym_fails_at; [lia|done|done].
Qed.

Lemma ident_step n ts s : lays (TName n :: ts) s -> exists r, ws identifier s = NOk (r, n) /\ lays ts r.
Proof. intros H. destruct (ws_token identifier (TName n) n ts (ident_accepts n) s H) as (r & E & Hr & _). by exists r. Qed.

Lemma identifiers_reads l ts : l <> [] -> sym_off 44 ts = true -> reads identifiers (names l) l ts.
Proof.
  intros Hne Ho. apply (comma_list _ (fun n => [TName n]) any_ts); [done|done|done|done|]. intros n ts' _ _ s H. by apply ident_step.
Qed.

(** ** WHERE *)

Lemma where_fails ts : kw_off "WHERE" ts = true -> fails parse_where_expr ts.
Proof. intros H s Hs. unfold parse_where_expr. refuse. Qed.

Lemma opt_where o ts s :
  opt_ok expr_ok o -> no_and ts -> tk_off "OR" ts = true -> kw_off "WHERE" ts = true -> lays (opt_toks where_toks o ++ ts) s ->
  exists r, opt parse_where_expr s = NOk (r, o) /\ lays ts r.
Proof.
  intros Ho Ha Hor Hw. apply opt_clause; [|intros _; by apply where_fails]. intros e ->. by apply where_reads.
Qed.

Lemma sep_is k l : sep k l = sep_toks (TKw k) l.
Proof. done. Qed.

Lemma opt_flat fs ts s :
  Forall filter_ok fs -> kw_off "AND" ts = true -> kw_off "WHERE" ts = true -> lays (flat_toks fs ++ ts) s ->
  exists r o, opt parse_where_clause s = NOk (r, o) /\ default [] o = fs /\ lays ts r.
Proof.
  intros Hf Ha Hw H. destruct fs as [|f fs].
  - cbn in H. exists s, None. rewrite opt_none; [done|]. unfold parse_where_clause. refuse.
  - cbn [flat_toks app] in H. assert (exists r, parse_where_clause s = NOk (r, f :: fs) /\ lays ts r) as (r & E & Hr).
    { unfold parse_where_clause. tok. apply (sep_list_reads (ws (kw "AND")) (TKw "AND") parse_filter filter_toks any_ts (f :: fs) ts and_separates); [done|done| |done| |done].
      - apply ws_fails, kw_fails_at; [apply kw_AND|done].
      - intros x ts' Hx _. apply filter_reads. rewrite Forall_forall in Hf. by apply Hf. }
    exists r, (Some (f :: fs)). by rewrite (opt_some _ _ _ _ E).
Qed.

(** ** Targets *)

(** A name that begins like a keyword, where the keyword must be followed by a symbol. *)
Lemma kw_then_symbol {A} K c t n ts s (k : bytes * Z -> NResult (bytes * A)) :
  is_keyword K -> 0 <= c < 128 -> ident_byte c = false -> (t = TName n \/ t = TLobe n) -> sym_off c ts = true -> lays (t :: ts) s ->
  errs ('(i, _) ← ws (kw K) s; nchar c i ≫= k).
Proof.
  intros HK Hc Hi Ht Ho H. destruct (kw_clash K t) eqn:Ek.
  - apply lays_cons in H as (b & s' & E & Hb & Hk & Hs). rewrite ws_eq, E.
    assert (is_quoted n b \/ b = n /\ is_ident n) as [Hq | [-> Hid]] by (destruct Ht as [-> | ->]; [by right|exact Hb]).
    + destruct (quoted_head _ _ Hq) as (m & ->). cbn [app]. destruct (kw_other_rejects K 34 (m ++ s') HK ltac:(lia) eq_refl) as [j ->]. by eexists.
    + assert (starts_with (upper_byte <$> n) (upper_byte <$> str K) = true) as Hp by (destruct Ht as [-> | ->]; exact Ek).
      apply starts_with_iff in Hp as (u & Eu). assert (exists a d, n = a ++ d /\ upper_byte <$> a = upper_byte <$> str K) as (a & d & -> & Ea).
      { apply fmap_app_inv in Eu as (a & d & Ea & _ & ->). by exists a, d. }
      rewrite <- app_assoc. unfold kw. rewrite tag_no_case_ok; [|by apply keyword_ascii|by apply eq_ignore_upper]. cbn [mbind NResult_bind]. apply errs_bind.
      destruct Hid as [_ Hid]. apply Forall_app in Hid as [_ Hd]. destruct d as [|x d].
      * eapply sym_fails_at; [done|done|exact Ho|by apply lays_skip|apply nows_skip].
      * apply Forall_cons in Hd as [Hx _]. rewrite skip_ws_nows by (cbn; by apply solid_nows, word_solid). cbn [app]. apply nchar_differs; [done|]. intros ->. congruence.
  - apply errs_bind. apply (ws_fails _ (t :: ts)); [|done]. apply kw_fails_at; [done|]. cbn. by rewrite Ek.
Qed.

Lemma target_reads t ts : sym_off 40 ts = true -> reads parse_find_target (target_toks t) t ts.
Proof.
  intros Ho s H. unfold parse_find_target. destruct t as [n|l]; cbn [target_toks app] in H.
  - assert (errs (parse_find_target_lid s)) as Hlid by (apply (kw_then_symbol "LID" 40 (TLobe n) n ts); [kwd|lia|done|by right|done|done]).
    pose proof H as H'. apply lays_cons in H' as (b & s' & E & Hb & Hk & Hs). exists s'. split; [|done]. apply alt_next; [done|]. apply alt_here.
    unfold parse_find_target_name. rewrite multispace0_law. unfold multispace0_fun. cbn [mbind NResult_bind]. rewrite E.
    destruct Hb as [Hq | [-> Hid]].
    + apply alt_here. rewrite pmap_law. by rewrite (quoted_ok _ _ _ Hq).
    + apply alt_next.
      * rewrite pmap_law. apply errs_bind, errs_bind. destruct (ident_head n Hid) as (x & m & -> & Hx). cbn [app]. apply nchar_differs; [lia|by intros ->].
      * apply alt_here. rewrite pmap_law, identifier_ok; [done|done|]. destruct Hid as [Hne Hid]. by eapply brk_stops.
  - assert (exists r, parse_find_target_lid s = NOk (r, ByLid l) /\ lays ts r) as (r & E & Hr).
    { unfold parse_find_target_lid. tok. destruct (paren_step l _ _ Hl Hn) as (r1 & r2 & -> & E2 & H2). cbn [mbind NResult_bind]. rewrite E2. cbn [mbind NResult_bind].
      rewrite nchar_ok by lia. by exists r2. }
    exists r. split; [|done]. by apply alt_here.
Qed.

Lemma ws_of_reads {A} (p : Parser A) T v ts s : reads p T v ts -> lays (T ++ ts) s -> exists r, ws p s = NOk (r, v) /\ lays ts r /\ nows r.
Proof. intros H Hs. apply (ws_reads p T v ts); [|done]. intros s' Hs' _. by apply H. Qed.

(** ** Fields *)

Lemma field_reads f ts : field_ok f -> reads parse_field_pair (field_toks f) f ts.
Proof.
  intros Hok s H. destruct f as [k v g]. unfold field_ok, field_toks, parse_field_pair in *. cbn [pf_name pf_value pf_gravity] in *.
  assert (exists r o, opt (ws (nchar 42)) s = NOk (r, o) /\ match o with Some _ => true | None => false end = g /\ lays (TName k :: TSym ":" :: lit_toks v ++ ts) r) as (r & o & -> & <- & Hr).
  { destruct g; cbn [app] in H.
    - destruct (ws_token (nchar 42) (TSym "*") 42 _ (nchar_accepts 42 "*" eq_refl ltac:(lia)) s H) as (r & E & Hr & _). exists r, (Some 42). by rewrite (opt_some _ _ _ _ E).
    - exists s, None. rewrite opt_none by refuse. done. }
  clear H. cbn [mbind NResult_bind]. do 2 tok. destruct (ws_literal_step v ts _ Hok Hl0) as (r3 & -> & H3 & _). by exists r3.
Qed.

Lemma field_off f ts : sym_off 125 (field_toks f ++ ts) = true.
Proof. unfold field_toks. by destruct (pf_gravity f). Qed.

Lemma fields_loop_reads ts l : forall acc fuel s,
  acc <> [] -> Forall field_ok l -> (length l < fuel)%nat -> lays (concat ((fun y => TSym "," :: y) <$> (field_toks <$> l)) ++ TSym "}" :: ts) s ->
  exists r, fields_loop fuel s acc = NOk (r, acc ++ l) /\ lays ts r.
Proof.
  induction l as [|x l IH]; intros acc fuel s Hne Hl Hf Hs; (destruct fuel as [|fuel]; [cbn in Hf; lia|]); cbn [fields_loop]; apply lays_at_start in Hs as [Hs Hn].
  - cbn in Hs. destruct (sym_step 125 "}" _ _ eq_refl ltac:(lia) Hs Hn) as (r & -> & Hr). exists r. by rewrite app_nil_r.
  - rewrite !fmap_cons in Hs. cbn [concat app] in Hs. rewrite <- app_assoc in Hs.
    assert (errs (nchar 125 (trim_start s))) as [j ->] by (eapply sym_fails_at; [lia|done| |exact Hs|done]; done).
    destruct acc as [|a acc]; [done|]. tok. apply Forall_cons in Hl as [Hx Hl'].
    destruct (field_reads x _ Hx _ Hl0) as (r2 & -> & Hr2). cbn [mbind NResult_bind].
    destruct (IH ((a :: acc) ++ [x]) fuel r2) as (r3 & E3 & H3); [done|done|cbn in Hf; lia|done|]. exists r3. by rewrite <- app_assoc in E3.
Qed.

Lemma block_reads fs ts : Forall field_ok fs -> reads parse_fields_block (block_toks fs) fs ts.
Proof.
  intros Hl s H. unfold block_toks, parse_fields_block in *. cbn [app] in H. rewrite <- app_assoc in H. tok. cbn [fields_loop]. destruct fs as [|f fs].
  - apply lays_at_start in Hl0 as [Hl0 Hn0]. destruct (sym_step 125 "}" _ _ eq_refl ltac:(lia) Hl0 Hn0) as (r2 & -> & Hr). by exists r2.
  - rewrite fmap_cons in Hl0. cbn [commas] in Hl0. rewrite <- app_assoc in Hl0. pose proof (lays_length _ _ Hl0) as Hlen. apply lays_at_start in Hl0 as [Hl0 Hn0].
    assert (errs (nchar 125 (trim_start r))) as [j ->] by (eapply sym_fails_at; [lia|done|apply field_off|exact Hl0|done]).
    apply Forall_cons in Hl as [Hf Hl]. cbn [mbind NResult_bind mret NResult_ret]. destruct (field_reads f _ Hf _ Hl0) as (r2 & -> & Hr2). cbn [mbind NResult_bind app].
    destruct (fields_loop_reads ts fs [f] (length r) r2) as (r3 & -> & H3); [done|done| |done|by exists r3].
    rewrite length_app in Hlen. pose proof (commas_length field_toks fs (TSym "}" :: ts)) as Hc. assert (1 <= length (field_toks f))%nat by (unfold field_toks; rewrite length_app; cbn; lia).
    unfold fmap in *. cbn [app] in *. lia.
Qed.

Lemma conflict_reads c ts : reads parse_on_conflict (conflict_toks c) c ts.
Proof. intros s H. destruct c. cbn [conflict_toks app] in H. unfold parse_on_conflict. do 3 tok. by eexists. Qed.

Lemma link_reads l ts : link_ok l -> reads parse_put_link_clause (link_toks l) l ts.
Proof.
  intros Hok s H. destruct l as [t fs rel]. unfold link_ok, link_toks in *. cbn [lk_target lk_filters lk_relation_name] in *. rewrite <- !app_assoc in H. cbn [app] in H.
  unfold parse_put_link_clause. do 2 tok.
  destruct (target_reads t (flat_toks fs ++ TKw "AS" :: TStr rel :: ts)) with (s := r0) as (r2 & -> & H2); [off|done|]. cbn [mbind NResult_bind].
  destruct (opt_flat fs (TKw "AS" :: TStr rel :: ts) r2 Hok eq_refl eq_refl H2) as (r3 & o & -> & <- & H3). cbn [mbind NResult_bind]. do 2 tok. by eexists.
Qed.

(** ** LIMIT, CURSOR, ORDER BY *)

Lemma u64_of_nat n i : is_uint 64 n -> u64_of (format_u64 n) i = NOk (i, n).
Proof. intros H. unfold u64_of. by rewrite parse_format_u64. Qed.

Lemma nat_step n ts s : lays (TNat n :: ts) s -> exists r, ws (take_while1 is_ascii_digit) s = NOk (r, format_u64 n) /\ is_uint 64 n /\ lays ts r /\ nows r.
Proof.
  intros H. destruct (ws_token _ _ _ ts (nat_accepts n) s H) as (r & E & Hr & Hn). exists r. split; [done|]. split; [|done].
  by apply lays_cons in H as (b & s' & _ & [_ Hu] & _).
Qed.

Lemma limit_reads n ts : reads parse_limit (limit_toks n) n ts.
Proof.
  intros s H. cbn [limit_toks app] in H. unfold parse_limit. tok. destruct (nat_step n ts _ Hl) as (r2 & -> & Hu & H2 & _). cbn [mbind NResult_bind]. rewrite u64_of_nat by done. by exists r2.
Qed.

Lemma cursor_reads c ts : reads parse_cursor (cursor_toks c) c ts.
Proof. intros s H. cbn [cursor_toks app] in H. unfold parse_cursor. do 2 tok. by eexists. Qed.

Lemma limit_fails ts : kw_off "LIMIT" ts = true -> fails parse_limit ts.
Proof. intros H s Hs. unfold parse_limit. refuse. Qed.
Lemma cursor_fails ts : kw_off "CURSOR" ts = true -> fails parse_cursor ts.
Proof. intros H s Hs. unfold parse_cursor. refuse. Qed.
Lemma order_fails ts : kw_off "ORDER" ts = true -> fails parse_order_by ts.
Proof. intros H s Hs. unfold parse_order_by. refuse. Qed.
Lemma link_fails ts : kw_off "LINK" ts = true -> fails parse_put_link_clause ts.
Proof. intros H s Hs. unfold parse_put_link_clause. refuse. Qed.
Lemma conflict_fails ts : kw_off "ON" ts = true -> fails parse_on_conflict ts.
Proof. intros H s Hs. unfold parse_on_conflict. refuse. Qed.

Lemma order_reads ob ts : kw_off "DESC" ts = true -> kw_off "ASC" ts = true -> reads parse_order_by (order_toks ob) ob ts.
Proof.
  intros Hd Ha s H. destruct ob as [f d]. unfold order_toks in H. cbn [ob_field ob_descending] in H. rewrite <- app_assoc in H. cbn [app] in H. unfold parse_order_by. do 3 tok.
  destruct d; cbn [app] in Hl1.
  - destruct (kw_reads "DESC" "DESC" ts _ ltac:(kwd) eq_refl Hl1) as (r2 & b2 & E2 & _ & H2 & _). exists r2.
    rewrite (opt_some _ r1 r2 true); [done|]. apply alt_here. by rewrite value_law, E2.
  - exists r1. absent. done.
Qed.

(** ** Aggregates *)

Lemma field_func_reads name K n ts :
  is_keyword name -> upper_byte <$> str name = str K -> reads (parse_agg_field_func name) [TKw K; TSym "("; TName n; TSym ")"] n ts.
Proof.
  intros HK EK s H. cbn [app] in H. unfold parse_agg_field_func. destruct (kw_reads name K _ s HK EK H) as (r & b & -> & _ & Hr & Hn). cbn [mbind NResult_bind].
  destruct (sym_step 40 "(" _ _ eq_refl ltac:(lia) Hr Hn) as (r2 & -> & H2). cbn [mbind NResult_bind]. tok.
  destruct (sym_step 41 ")" _ _ eq_refl ltac:(lia) Hl Hn0) as (r4 & -> & H4). by exists r4.
Qed.

Lemma func_reads f ts : reads parse_aggregate_func (func_toks f) f ts.
Proof.
  intros s H. unfold parse_aggregate_func. destruct f as [|n|n|n|n]; cbn [func_toks app] in H.
  - assert (exists r, parse_agg_count s = NOk (r, Count) /\ lays ts r) as (r & E & Hr); [|exists r; split; [by apply alt_here|done]].
    unfold parse_agg_count. tok. destruct (sym_step 40 "(" _ _ eq_refl ltac:(lia) Hl Hn) as (r2 & -> & H2). cbn [mbind NResult_bind]. absent. tok. by eexists.
  - destruct (field_func_reads "sum" "SUM" n ts ltac:(kwd) eq_refl s H) as (r & E & Hr). exists r. split; [|done].
    apply alt_next; [unfold parse_agg_count; refuse|]. apply alt_here. unfold parse_agg_sum. by rewrite E.
  - destruct (field_func_reads "avg" "AVG" n ts ltac:(kwd) eq_refl s H) as (r & E & Hr). exists r. split; [|done].
    apply alt_next; [unfold parse_agg_count; refuse|]. apply alt_next; [unfold parse_agg_sum, parse_agg_field_func; refuse|]. apply alt_here. unfold parse_agg_avg. by rewrite E.
  - destruct (field_func_reads "min" "MIN" n ts ltac:(kwd) eq_refl s H) as (r & E & Hr). exists r. split; [|done].
    apply alt_next; [unfold parse_agg_count; refuse|]. apply alt_next; [unfold parse_agg_sum, parse_agg_field_func; refuse|].
    apply alt_next; [unfold parse_agg_avg, parse_agg_field_func; refuse|]. apply alt_here. unfold parse_agg_min. by rewrite E.
  - destruct (field_func_reads "max" "MAX" n ts ltac:(kwd) eq_refl s H) as (r & E & Hr). exists r. split; [|done].
    apply alt_next; [unfold parse_agg_count; refuse|]. apply alt_next; [unfold parse_agg_sum, parse_agg_field_func; refuse|].
    apply alt_next; [unfold parse_agg_avg, parse_agg_field_func; refuse|]. apply alt_next; [unfold parse_agg_min, parse_agg_field_func; refuse|].
    apply alt_here. unfold parse_agg_max. by rewrite E.
Qed.

(** A name is not an aggregate, whatever it begins with. *)
Lemma func_fails n ts s : sym_off 40 ts = true -> lays (TName n :: ts) s -> errs (parse_aggregate_func s).
Proof.
  intros Ho H. assert (forall A K (k : bytes * Z -> NResult (bytes * A)), is_keyword K -> errs ('(i, _) ← ws (kw K) s; nchar 40 i ≫= k)) as Hk.
  { intros A K k HK. apply (kw_then_symbol K 40 (TName n) n ts); [done|lia|done|by left|done|done]. }
  apply alt_errs. apply Forall_cons; split; [unfold parse_agg_count; apply Hk; kwd|].
  repeat (apply Forall_cons; split; [unfold parse_agg_sum, parse_agg_avg, parse_agg_min, parse_agg_max, parse_agg_field_func; apply errs_bind, Hk; kwd|]).
  apply Forall_nil_2.
Qed.

Lemma agg_reads a ts :
  agg_ok a -> no_and ts -> tk_off "OR" ts = true -> kw_off "AS" ts = true -> kw_off "WHERE" ts = true -> reads parse_aggregate_item (agg_toks a) a ts.
Proof.
  intros Hok Ha Ho Has Hw s H. destruct a as [f o al]. unfold agg_ok, agg_toks in *. cbn [ag_func ag_filter ag_alias] in *. rewrite <- !app_assoc in H. unfold parse_aggregate_item.
  destruct (func_reads f _ s H) as (r & -> & Hr). cbn [mbind NResult_bind].
  destruct (opt_clause (preceded (ws (kw "AS")) (ws identifier)) alias_toks al (opt_toks where_toks o ++ ts) r) as (r2 & -> & H2); [| |done|].
  - intros n _ s' H'. cbn [alias_toks app] in H'. rewrite preceded_law. tok. by apply ident_step.
  - intros _ s' H'. rewrite preceded_law. apply errs_bind. eapply ws_fails; [|exact H']. apply kw_fails_at; [kwd|off].
  - cbn [mbind NResult_bind]. destruct (opt_where o ts r2 Hok Ha Ho Hw H2) as (r3 & -> & H3). by exists r3.
Qed.

Definition agg_end (ts : list Tok) : Prop := no_and ts /\ tk_off "OR" ts = true /\ kw_off "AS" ts = true /\ kw_off "WHERE" ts = true.

Lemma aggregate_reads l ts : l <> [] -> Forall agg_ok l -> agg_end ts -> sym_off 44 ts = true -> reads parse_aggregate (TKw "AGGREGATE" :: commas (agg_toks <$> l)) l ts.
Proof.
  intros Hne Hl He Ho s H. cbn [app] in H. unfold parse_aggregate. tok. apply (comma_list _ agg_toks agg_end); [done|done|done|done| |done].
  intros a ts' Ha (H1 & H2 & H3 & H4). rewrite Forall_forall in Hl. by apply agg_reads; [apply Hl|..].
Qed.

Lemma group_reads l ts : l <> [] -> sym_off 44 ts = true -> reads parse_group_by ([TKw "GROUP"; TKw "BY"] ++ names l) l ts.
Proof.
  intros Hne Ho s H. rewrite <- app_assoc in H. cbn [app] in H. unfold parse_group_by. do 2 tok. destruct (identifiers_reads l ts Hne Ho _ Hl0) as (r2 & -> & H2). by exists r2.
Qed.
End clauses.

(** * Statements read back

    The tokens of each statement and pipeline step, and that its parser reads every
    layout of them as the statement. *)

(** ** Tokens *)

(** A bare name after SCAN must not begin like GHOST. *)
Definition scan_lobe (n : bytes) : Tok := if starts_with (upper_byte <$> n) (str "GHOST") then TStr n else TLobe n.

Definition put_toks (s : PutStmt) : list Tok :=
  TKw "PUT" :: block_toks (pt_fields s) ++ [TKw "IN"; TLobe (pt_lobe s)] ++ opt_toks link_toks (pt_link s) ++ opt_toks conflict_toks (pt_on_conflict s).
Definition put_batch_toks (s : PutBatchStmt) : list Tok :=
  [TKw "PUT"; TKw "BATCH"; TKw "IN"; TLobe (pb_lobe s); TSym "["] ++ commas (block_toks <$> pb_records s) ++ [TSym "]"] ++
  opt_toks link_toks (pb_link s) ++ opt_toks conflict_toks (pb_on_conflict s).
Definition find_toks (s : FindStmt) : list Tok :=
  TKw "FIND" :: target_toks (fs_target s) ++ flat_toks (fs_filters s) ++ opt_toks limit_toks (fs_limit s) ++ opt_toks cursor_toks (fs_cursor s).
Definition only_toks (n : bytes) : list Tok := [TKw "ONLY"; TSym "="; TName n].
Definition pull_params_toks (s : PullStmt) : list Tok := [TKw "DEPTH"; TSym "="; TNat (pl_depth s)] ++ opt_toks only_toks (pl_only s).
Definition pull_toks (s : PullStmt) : list Tok := TKw "PULL" :: opt_toks (fun t => TKw "FROM" :: target_toks t) (pl_target s) ++ pull_params_toks s.
Definition scan_toks (s : ScanStmt) : list Tok :=
  [TKw "SCAN"; scan_lobe (st_lobe s)] ++ opt_toks where_toks (st_filter_expr s) ++ opt_toks order_toks (st_order_by s) ++ opt_toks limit_toks (st_limit s) ++
  opt_toks cursor_toks (st_cursor s).
Definition set_toks (s : SetStmt) : list Tok :=
  TKw "SET" :: opt_toks target_toks (ss_target s) ++ commas (assignment_toks <$> ss_assignments s) ++ opt_toks where_toks (ss_filter_expr s).
Definition delete_toks (s : DeleteStmt) : list Tok := TKw "DELETE" :: opt_toks target_toks (dl_target s) ++ opt_toks where_toks (dl_filter_expr s).
Definition as_names_toks (l : list bytes) : list Tok := [TKw "AS"; TSym "{"] ++ names l ++ [TSym "}"].
Definition fetch_toks (s : FetchStmt) : list Tok :=
  TKw "FETCH" :: commas ((fun n => [TStr n]) <$> ft_lobes s) ++ opt_toks where_toks (ft_filter_expr s) ++ opt_toks as_names_toks (ft_names s).
Definition link_stmt_toks (s : LinkStmt) : list Tok :=
  TKw "LINK" :: target_toks (ln_source s) ++ opt_toks where_toks (ln_source_filter_expr s) ++ TKw "TO" :: target_toks (ln_target s) ++
  opt_toks where_toks (ln_target_filter_expr s) ++ [TKw "AS"; TStr (ln_relation_name s)].
Definition gravity_toks (g : GravitySpecAst) : list Tok :=
  match g with
  | ARaw f => [TName f]
  | ANormalized f TLower => [TKw "LOWER"; TSym "("; TName f; TSym ")"]
  | ANormalized f TTrim => [TKw "TRIM"; TSym "("; TName f; TSym ")"]
  | AComposite fs => TSym "(" :: names fs ++ [TSym ")"]
  end.
Definition hint_toks (h : bytes) : list Tok := [TKw "HINT"; TSym "="; TStr h].
Definition show_toks (s : ShowStmt) : list Tok :=
  TKw "SHOW" ::
  match s with
  | ShowLobes => [TKw "LOBES"]
  | ShowAnchors l => [TKw "ANCHORS"; TKw "IN"; TStr l]
  | ShowThrottle => [TKw "THROTTLE"]
  | ShowGhosts => [TKw "GHOSTS"]
  | ShowScanStats => [TKw "SCAN"; TKw "STATS"]
  | ShowProfile l => [TKw "PROFILE"; TStr l]
  | ShowCache => [TKw "CACHE"]
  end.
Definition asc_toks (desc : bool) : list Tok := if desc then [TKw "DESC"] else [TKw "ASC"].

Definition by_toks (b : TopBy) : list Tok := TKw "BY" :: match b with Metric f => func_toks f | Alias n => [TName n] end.
Definition top_toks (s : TopStmt) : list Tok := [TKw "TAKE"; TNat (tp_n s)] ++ opt_toks by_toks (tp_by s) ++ asc_toks (tp_descending s).
Definition query_toks (q : NearestQuery) : list Tok := match q with NVector l => lit_toks l | NParam n => [TDollar n] | NRef id => [TKw "REF"; TStr id] end.
Definition nearest_toks (s : NearestStmt) : list Tok :=
  [TKw "NEAREST"; TNat (nr_k s); TKw "BY"; TName (nr_field s); TKw "TO"] ++ query_toks (nr_query s) ++ [TKw "USING"; TName (nr_metric s)].
Definition follow_toks (s : FollowStmt) : list Tok :=
  [TKw "FOLLOW"; TName (fo_field s); TKw "TO"; TStr (fo_lobe s); TKw "ON"; TName (fo_target_field s)].
Definition shape_toks (s : ShapeStmt) : list Tok := [TKw "SHAPE"; TSym "{"] ++ names (sh_fields s) ++ [TSym "}"].
Definition group_toks (l : list bytes) : list Tok := [TKw "GROUP"; TKw "BY"] ++ names l.
Definition aggregate_toks (l : list AggregateItem) : list Tok := TKw "AGGREGATE" :: commas (agg_toks <$> l).

Definition some_toks {A} (f : list A -> list Tok) (l : list A) : list Tok := match l with [] => [] | _ => TSym "|" :: f l end.
Definition order_target_toks (s : CreateGhostStmt) : list Tok := match cg_order_metric s with Some (Metric f) => func_toks f | _ => [TName (cg_order_by s)] end.
Definition embed_toks (l : list bytes) : list Tok := TKw "EMBED" :: names l.
Definition ghost_where (e : FilterExpr) : option FilterExpr := match e with And [] => None | e => Some e end.
Definition create_ghost_toks (s : CreateGhostStmt) : list Tok :=
  [TKw "CREATE"; TKw "GHOST"; TStr (cg_name s); TKw "FROM"; TStr (cg_source_lobe s)] ++ opt_toks where_toks (ghost_where (cg_filter s)) ++
  some_toks group_toks (cg_group_by s) ++ some_toks aggregate_toks (cg_aggregates s) ++
  [TSym "|"; TKw "TAKE"; TKw "BY"] ++ order_target_toks s ++ asc_toks (cg_sort_descending s) ++ some_toks embed_toks (cg_embed s).
Definition scan_ghost_toks (s : ScanGhostStmt) : list Tok :=
  [TKw "SCAN"; TKw "GHOST"; TStr (sg_name s)] ++ opt_toks where_toks (sg_filter_expr s) ++ opt_toks limit_toks (sg_limit s).

(** One step: a token, or a clause by its lemma. *)
Ltac clause L :=
  let r := fresh "r" in let E := fresh "E" in let H' := fresh "Hl" in
  match goal with H : lays _ ?x |- _ => edestruct L with (s := x) as (r & E & H'); [..|exact H|rewrite E; clear E; cbn [mbind NResult_bind]] end; try solve [assumption|off].

(** The layout as one list, clause by clause. *)
Ltac flatten H := repeat progress (cbn [app] in H; rewrite <- ?app_assoc in H).

Ltac finish := eexists; split; [reflexivity|eassumption].

Section statements.
Context {N : Nom} {NL : NomLaws N} {UN : Unicode} {VT : ValueText}.

Lemma opt_limit o ts s : kw_off "LIMIT" ts = true -> lays (opt_toks limit_toks o ++ ts) s -> exists r, opt parse_limit s = NOk (r, o) /\ lays ts r.
Proof. intros Hk. apply opt_clause; [intros a _; apply limit_reads|intros _; by apply limit_fails]. Qed.

Lemma opt_cursor o ts s : kw_off "CURSOR" ts = true -> lays (opt_toks cursor_toks o ++ ts) s -> exists r, opt parse_cursor s = NOk (r, o) /\ lays ts r.
Proof. intros Hk. apply opt_clause; [intros a _; apply cursor_reads|intros _; by apply cursor_fails]. Qed.

Lemma opt_order o ts s :
  kw_off "DESC" ts = true -> kw_off "ASC" ts = true -> kw_off "ORDER" ts = true -> lays (opt_toks order_toks o ++ ts) s ->
  exists r, opt parse_order_by s = NOk (r, o) /\ lays ts r.
Proof. intros Hd Ha Ho. apply opt_clause; [intros a _; by apply order_reads|intros _; by apply order_fails]. Qed.

Lemma opt_link o ts s : opt_ok link_ok o -> kw_off "LINK" ts = true -> lays (opt_toks link_toks o ++ ts) s -> exists r, opt parse_put_link_clause s = NOk (r, o) /\ lays ts r.
Proof. intros Ho Hk. apply opt_clause; [intros a ->; by apply link_reads|intros _; by apply link_fails]. Qed.

Lemma opt_conflict o ts s : kw_off "ON" ts = true -> lays (opt_toks conflict_toks o ++ ts) s -> exists r, opt parse_on_conflict s = NOk (r, o) /\ lays ts r.
Proof. intros Hk. apply opt_clause; [intros a _; apply conflict_reads|intros _; by apply conflict_fails]. Qed.

Lemma put_reads s0 : Forall field_ok (pt_fields s0) -> opt_ok link_ok (pt_link s0) -> reads parse_put (put_toks s0) s0 [].
Proof.
  intros Hf Hk s H. destruct s0 as [fs lobe l c]. unfold put_toks in H. cbn [pt_fields pt_lobe pt_link pt_on_conflict] in *. flatten H.
  unfold parse_put. tok. destruct (block_reads fs _ Hf _ Hl) as (r1 & -> & H1). cbn [mbind NResult_bind app] in *. do 2 tok.
  clause (opt_link l). clause (opt_conflict c). finish.
Qed.

Lemma put_batch_reads s0 :
  pb_records s0 <> [] -> Forall (Forall field_ok) (pb_records s0) -> opt_ok link_ok (pb_link s0) -> reads parse_put_batch (put_batch_toks s0) s0 [].
Proof.
  intros Hne Hf Hk s H. destruct s0 as [rs lobe l c]. unfold put_batch_toks in H. cbn [pb_records pb_lobe pb_link pb_on_conflict] in *. flatten H.
  unfold parse_put_batch. do 4 tok. rewrite delimited_law. tok.
  destruct (comma_list parse_fields_block block_toks any_ts rs ([TSym "]"] ++ opt_toks link_toks l ++ opt_toks conflict_toks c ++ [])) with (s := r3) as (r5 & -> & H5);
    [done|done|done|done| |exact Hl3|].
  { intros x ts Hx _. apply block_reads. rewrite Forall_forall in Hf. by apply Hf. }
  cbn [mbind NResult_bind app] in *. tok. cbn [mret NResult_ret mbind NResult_bind]. clause (opt_link l). clause (opt_conflict c). finish.
Qed.

Lemma target_step t ts s : sym_off 40 ts = true -> lays (target_toks t ++ ts) s -> exists r, ws parse_find_target s = NOk (r, t) /\ lays ts r.
Proof. intros Ho H. destruct (ws_of_reads parse_find_target (target_toks t) t ts s (target_reads t ts Ho) H) as (r & E & Hr & _). by exists r. Qed.

Lemma find_reads s0 : Forall filter_ok (fs_filters s0) -> reads parse_find (find_toks s0) s0 [].
Proof.
  intros Hf s H. destruct s0 as [t fs lim c]. unfold find_toks in H. cbn [fs_target fs_filters fs_limit fs_cursor] in *. flatten H.
  unfold parse_find. tok. clause (target_step t).
  destruct (opt_flat fs (opt_toks limit_toks lim ++ opt_toks cursor_toks c ++ []) r0 Hf) as (r2 & o & -> & <- & H2); [off|off|done|]. cbn [mbind NResult_bind].
  clause (opt_limit lim). clause (opt_cursor c). rewrite multispace0_law. unfold multispace0_fun. cbn [mbind NResult_bind]. eexists. split; [reflexivity|]. by apply lays_skip.
Qed.

(** ** PULL *)

(** A keyword read from where it stands, the white space after it left. *)
Lemma kw_at K k ts s : is_keyword K -> upper_byte <$> str K = str k -> lays (TKw k :: ts) s -> exists r b, kw K (skip_ws s) = NOk (r, b) /\ lays ts r.
Proof.
  intros HK E (b & s' & Es & (Ha & _ & Eu & _) & _ & Hs)%lays_cons. exists s', b. rewrite Es. unfold kw.
  rewrite tag_no_case_ok; [done|by apply keyword_ascii|apply eq_ignore_upper; congruence].
Qed.

Lemma kw_at_off K ts s : is_keyword K -> kw_off K ts = true -> lays ts s -> errs (kw K (skip_ws s)).
Proof. intros HK Ho H. eapply kw_fails_at; [done|exact Ho|by apply lays_skip|apply nows_skip]. Qed.

Lemma pull_params_reads d o ts s :
  0 <= d < 2 ^ 32 -> kw_off "DEPTH" ts = true -> kw_off "ONLY" ts = true -> lays ([TKw "DEPTH"; TSym "="; TNat d] ++ opt_toks only_toks o ++ ts) s ->
  exists r, parse_pull_params s = NOk (r, (d, o)) /\ lays ts r.
Proof.
  intros Hd Ho1 Ho2 H. cbn [app] in H. unfold parse_pull_params. pose proof (lays_length _ _ H) as Hlen. cbn [length] in Hlen.
  assert (forall (r : bytes), multispace0 r = NOk (skip_ws r, take (length r - length (skip_ws r)) r)) as Hm by (intros r; by rewrite multispace0_law).
  assert (forall fuel r only, lays ts r -> pull_params_loop (S fuel) r d only = NOk (r, (d, only))) as Hend.
  { intros fuel r only Hr. cbn [pull_params_loop]. rewrite Hm. cbn [mbind NResult_bind].
    destruct (kw_at_off "depth" ts r ltac:(kwd) Ho1 Hr) as [i ->]. destruct (kw_at_off "only" ts r ltac:(kwd) Ho2 Hr) as [j ->]. done. }
  destruct (length s) as [|n] eqn:En; [lia|]. cbn [pull_params_loop]. rewrite Hm. cbn [mbind NResult_bind].
  destruct (kw_at "depth" "DEPTH" _ s ltac:(kwd) eq_refl H) as (r & b & -> & Hr). tok.
  destruct (reads_at_accepts _ _ _ _ (nat_accepts d) _ Hl Hn) as (r2 & -> & H2). cbn [mbind NResult_bind].
  assert (default 1 (parse_u32 (format_u64 d)) = d) as ->. { unfold parse_u32. rewrite parse_format_u64 by (unfold is_uint; lia). by rewrite (proj2 (Z.ltb_lt _ _)) by lia. }
  destruct o as [n'|]; cbn [opt_toks only_toks app] in H2, Hlen; [|exists r2; split; [|done]; destruct n as [|n]; [lia|by apply Hend]].
  destruct n as [|n]; [lia|]. cbn [pull_params_loop]. rewrite Hm. cbn [mbind NResult_bind].
  destruct (kw_at_off "depth" (TKw "ONLY" :: TSym "=" :: TName n' :: ts) r2 ltac:(kwd) eq_refl H2) as [i ->]. destruct (kw_at "only" "ONLY" _ r2 ltac:(kwd) eq_refl H2) as (r3 & b3 & -> & H3). clear Hl Hn. tok.
  destruct (reads_at_accepts _ _ _ _ (ident_accepts n') _ Hl Hn) as (r4 & -> & H4). cbn [mbind NResult_bind]. exists r4. split; [|done].
  destruct n as [|n]; [lia|by apply Hend].
Qed.

Definition pull_ok (s : PullStmt) : Prop := 0 <= pl_depth s < 2 ^ 32.

Lemma pull_reads s0 : pull_ok s0 -> pl_target s0 <> None -> reads parse_pull_full (pull_toks s0) s0 [].
Proof.
  intros Hd Ht s H. destruct s0 as [[t|] d o]; [|done]. unfold pull_toks, pull_params_toks in H. cbn [pl_target pl_depth pl_only opt_toks] in *. flatten H.
  unfold parse_pull_full. do 2 tok. clause (target_step t). destruct (pull_params_reads d o [] r1 Hd eq_refl eq_refl) as (r2 & -> & H2); [done|]. by exists r2.
Qed.

Lemma pull_step_reads s0 : pull_ok s0 -> pl_target s0 = None -> reads parse_pull_step (pull_toks s0) s0 [].
Proof.
  intros Hd Ht s H. destruct s0 as [t d o]. cbn [pl_target] in Ht. subst t. unfold pull_toks, pull_params_toks in H. cbn [pl_target pl_depth pl_only opt_toks] in *. flatten H.
  unfold parse_pull_step. tok. destruct (pull_params_reads d o [] r Hd eq_refl eq_refl) as (r2 & -> & H2); [done|]. by exists r2.
Qed.

(** ** SCAN, SET, DELETE, PURGE, FETCH, LINK *)

Lemma scan_lobe_step n ts s : lays (scan_lobe n :: ts) s -> exists r, ws name_or_quoted s = NOk (r, n) /\ lays ts r.
Proof.
  unfold scan_lobe. intros H. case_match.
  - destruct (ws_token name_or_quoted (TStr n) n ts (name_quoted_accepts n) s H) as (r & E & Hr & _). by exists r.
  - destruct (ws_token name_or_quoted (TLobe n) n ts (name_accepts n) s H) as (r & E & Hr & _). by exists r.
Qed.

Lemma scan_reads s0 : opt_ok expr_ok (st_filter_expr s0) -> reads parse_scan (scan_toks s0) s0 [].
Proof.
  intros Hf s H. destruct s0 as [lobe fe ob lim c]. unfold scan_toks in H. cbn [st_lobe st_filter_expr st_order_by st_limit st_cursor] in *. flatten H.
  unfold parse_scan. tok. clause (scan_lobe_step lobe). clause (opt_where fe). clause (opt_order ob). clause (opt_limit lim). clause (opt_cursor c). finish.
Qed.

Lemma assignment_reads kv ts : lit_ok kv.2 -> reads parse_assignment (assignment_toks kv) kv ts.
Proof.
  intros Hok s H. destruct kv as [k v]. cbn [assignment_toks app fst snd] in *. unfold parse_assignment. do 2 tok.
  destruct (ws_literal_step v ts _ Hok Hl0) as (r3 & -> & H3 & _). by exists r3.
Qed.

Lemma assignments_step l ts s :
  l <> [] -> Forall (fun kv => lit_ok kv.2) l -> sym_off 44 ts = true -> lays (commas (assignment_toks <$> l) ++ ts) s ->
  exists r, separated_list1 (ws (nchar 44)) parse_assignment s = NOk (r, l) /\ lays ts r.
Proof.
  intros Hne Hl Ho. apply (comma_list parse_assignment assignment_toks any_ts); [done|done|done|done|]. intros x ts' Hx _. apply assignment_reads.
  rewrite Forall_forall in Hl. by apply Hl.
Qed.

Definition assignments_ok (l : list (bytes * Literal)) : Prop := l <> [] /\ Forall (fun kv => lit_ok kv.2) l.

Lemma commas_cons {A} (f : A -> list Tok) x l : commas (f <$> (x :: l)) = f x ++ concat ((fun y => TSym "," :: y) <$> (f <$> l)).
Proof. done. Qed.

Lemma set_reads s0 : ss_target s0 <> None -> assignments_ok (ss_assignments s0) -> opt_ok expr_ok (ss_filter_expr s0) -> reads parse_set_full (set_toks s0) s0 [].
Proof.
  intros Ht [Hne Ha] Hf s H. destruct s0 as [[t|] l fe]; [|done]. unfold set_toks in H. cbn [ss_target ss_assignments ss_filter_expr opt_toks] in *. flatten H.
  unfold parse_set_full. tok. edestruct (target_step t) as (r1 & -> & H1); [|exact Hl|].
  { destruct l as [|kv l]; [done|]. rewrite commas_cons. done. }
  cbn [mbind NResult_bind]. clause (assignments_step l). clause (opt_where fe). finish.
Qed.

Lemma set_step_reads s0 :
  ss_target s0 = None -> assignments_ok (ss_assignments s0) -> ss_filter_expr s0 = None -> reads parse_set_step (set_toks s0) s0 [].
Proof.
  intros Ht [Hne Ha] Hf s H. destruct s0 as [t l fe]. cbn [ss_target ss_filter_expr] in *. subst. unfold set_toks in H. cbn [ss_target ss_assignments ss_filter_expr opt_toks] in *. flatten H.
  unfold parse_set_step. tok. clause (assignments_step l). finish.
Qed.

Lemma delete_reads s0 : dl_target s0 <> None -> opt_ok expr_ok (dl_filter_expr s0) -> reads parse_delete_full (delete_toks s0) s0 [].
Proof.
  intros Ht Hf s H. destruct s0 as [[t|] fe]; [|done]. unfold delete_toks in H. cbn [dl_target dl_filter_expr opt_toks] in *. flatten H.
  unfold parse_delete_full. tok. clause (target_step t). clause (opt_where fe). finish.
Qed.

Lemma delete_step_reads s0 : dl_target s0 = None -> dl_filter_expr s0 = None -> reads parse_delete_step (delete_toks s0) s0 [].
Proof.
  intros Ht Hf s H. destruct s0 as [t fe]. cbn [dl_target dl_filter_expr] in *. subst. unfold delete_toks in H. cbn [dl_target dl_filter_expr opt_toks] in *. flatten H.
  unfold parse_delete_step. tok. finish.
Qed.

Lemma purge_reads s0 : reads parse_purge [TKw "PURGE"; TStr (pu_lobe s0)] s0 [].
Proof. intros s H. destruct s0. flatten H. unfold parse_purge. do 2 tok. finish. Qed.

Lemma as_names_reads l ts : l <> [] -> reads parse_fetch_as (as_names_toks l) l ts.
Proof.
  intros Hne s H. unfold as_names_toks in H. flatten H. unfold parse_fetch_as. do 2 tok.
  destruct (identifiers_reads l (TSym "}" :: ts) Hne eq_refl _ Hl0) as (r2 & -> & H2). cbn [mbind NResult_bind]. tok. finish.
Qed.

Lemma fetch_reads s0 :
  ft_lobes s0 <> [] -> opt_ok expr_ok (ft_filter_expr s0) -> opt_ok (fun l => l <> []) (ft_names s0) -> reads parse_fetch (fetch_toks s0) s0 [].
Proof.
  intros Hne Hf Hn0 s H. destruct s0 as [l fe o]. unfold fetch_toks in H. cbn [ft_lobes ft_filter_expr ft_names] in *. flatten H. unfold parse_fetch. tok.
  destruct (comma_list (ws quoted_string) (fun n => [TStr n]) any_ts l (opt_toks where_toks fe ++ opt_toks as_names_toks o ++ [])) with (s := r) as (r1 & -> & H1); [done|done|off|done| |done|].
  { intros n ts _ _ s' Hs'. cbn [app] in Hs'. tok. finish. }
  cbn [mbind NResult_bind]. clause (opt_where fe).
  edestruct (opt_clause parse_fetch_as as_names_toks o []) as (r3 & -> & H3); [| |exact Hl0|finish].
  - intros a ->. by apply as_names_reads.
  - intros _ s' Hs'. unfold parse_fetch_as. refuse.
Qed.

Lemma link_stmt_reads s0 : opt_ok expr_ok (ln_source_filter_expr s0) -> opt_ok expr_ok (ln_target_filter_expr s0) -> reads parse_link (link_stmt_toks s0) s0 [].
Proof.
  intros Hf1 Hf2 s H. destruct s0 as [a b rel f1 f2]. unfold link_stmt_toks in H. cbn [ln_source ln_target ln_relation_name ln_source_filter_expr ln_target_filter_expr] in *. flatten H.
  unfold parse_link. tok. clause (target_step a). clause (opt_where f1). tok. clause (target_step b). clause (opt_where f2). do 2 tok. finish.
Qed.

(** ** ANCHOR, VECTOR, SATELLITE, GRAVITY, LOBE and others *)

Lemma anchor_reads s0 : reads parse_anchor [TKw "ANCHOR"; TStr (an_field s0); TKw "UNIQUE"; TKw "IN"; TStr (an_lobe s0)] s0 [].
Proof. intros s H. destruct s0 as [f l]. cbn [app an_field an_lobe] in H. unfold parse_anchor. do 5 tok. finish. Qed.

Lemma vector_reads s0 : reads parse_vector [TKw "VECTOR"; TName (ve_field s0); TKw "IN"; TStr (ve_lobe s0)] s0 [].
Proof. intros s H. destruct s0 as [f l]. cbn [app ve_field ve_lobe] in H. unfold parse_vector. do 4 tok. finish. Qed.

Lemma satellite_reads s0 : reads parse_satellite [TKw "SATELLITE"; TKw "BY"; TName (sa_field s0); TKw "IN"; TStr (sa_lobe s0)] s0 [].
Proof. intros s H. destruct s0 as [f l]. cbn [app sa_field sa_lobe] in H. unfold parse_satellite. do 5 tok. finish. Qed.

Definition gravity_ok (g : GravitySpecAst) : Prop := match g with AComposite fs => fs <> [] | _ => True end.

(** [lower(] or [trim(]; the name keeps its spelling. *)
Lemma transform_step K0 (t : GravityTransform) f ts s :
  (K0 = "LOWER" /\ t = TLower \/ K0 = "TRIM" /\ t = TTrim)%string -> lays ([TKw K0; TSym "("; TName f; TSym ")"] ++ ts) s ->
  exists r, parse_gravity_transform s = NOk (r, ANormalized f t) /\ lays ts r.
Proof.
  intros HK H. unfold parse_gravity_transform. cbn [app] in H.
  assert (exists r b, ws (alt [kw "lower"; kw "trim"]) s = NOk (r, b) /\ (if eq_ignore_ascii_case b (str "lower") then TLower else TTrim) = t /\ lays (TSym "(" :: TName f :: TSym ")" :: ts) r)
    as (r & b & -> & <- & Hr).
  { pose proof H as H'. apply lays_cons in H as (b & s' & E & (Ha & _ & Eu & _) & Hk & Hs). rewrite ws_eq, E. exists (skip_ws s'), b.
    unfold eq_ignore_ascii_case. rewrite Eu. destruct HK as [[-> ->] | [-> ->]].
    - rewrite (alt_here (kw "lower") [kw "trim"] (b ++ s') (s', b)); [split; [reflexivity|split; [done|by apply lays_skip]]|]. unfold kw. apply tag_no_case_ok; [apply (keyword_ascii "lower"); kwd|by apply eq_ignore_upper].
    - rewrite (alt_next (kw "lower") [kw "trim"] (b ++ s') (s', b)); [split; [reflexivity|split; [done|by apply lays_skip]]| |].
      + rewrite <- E. exact (kw_at_off "lower" (TKw "TRIM" :: TSym "(" :: TName f :: TSym ")" :: ts) s ltac:(kwd) eq_refl H').
      + apply alt_here. unfold kw. apply tag_no_case_ok; [apply (keyword_ascii "trim"); kwd|by apply eq_ignore_upper]. }
  cbn [mbind NResult_bind]. do 3 tok. finish.
Qed.

Lemma kw_then_paren K n ts s :
  is_keyword K -> sym_off 40 ts = true -> lays (TName n :: ts) s ->
  errs (kw K (skip_ws s)) \/ exists r a, kw K (skip_ws s) = NOk (r, a) /\ errs (ws (nchar 40) (skip_ws r)).
Proof.
  intros HK Ho H. destruct (kw_then_symbol K 40 (TName n) n ts s (fun p => NOk p) HK ltac:(lia) eq_refl ltac:(by left) Ho H) as [j E]. rewrite ws_eq in E.
  destruct (kw K (skip_ws s)) as [[r a]|e|]; [right|left; injection E as ->; by eexists|done]. exists r, a. split; [done|]. cbn [mbind NResult_bind] in E.
  rewrite ws_eq, (skip_ws_nows (skip_ws r)) by apply nows_skip. destruct (nchar 40 (skip_ws r)) as [[]|e|]; [done|injection E as ->; by eexists|done].
Qed.

Lemma transform_fails n ts s : sym_off 40 ts = true -> lays (TName n :: ts) s -> errs (parse_gravity_transform s).
Proof.
  intros Ho H. unfold parse_gravity_transform. rewrite ws_eq.
  destruct (kw_then_paren "lower" n ts s ltac:(kwd) Ho H) as [E1 | (r & a & E1 & He)].
  - destruct (kw_then_paren "trim" n ts s ltac:(kwd) Ho H) as [E2 | (r & a & E2 & He)].
    + destruct (alt_errs [kw "lower"; kw "trim"] (skip_ws s)) as [j ->]; [by repeat constructor|by eexists].
    + rewrite (alt_next (kw "lower") [kw "trim"] _ (r, a) E1) by (by apply alt_here). cbn [mbind NResult_bind]. by apply errs_bind.
  - rewrite (alt_here _ _ _ _ E1). cbn [mbind NResult_bind]. by apply errs_bind.
Qed.

Lemma gravity_expr_reads g ts : gravity_ok g -> sym_off 40 ts = true -> reads parse_gravity_expr (gravity_toks g) g ts.
Proof.
  intros Hok Ho s H. unfold parse_gravity_expr. destruct g as [f|f t|fs].
  - cbn [gravity_toks app] in H. destruct (ident_step f ts s H) as (r & E & Hr). exists r. split; [|done].
    apply alt_next; [unfold parse_gravity_composite; refuse|]. apply alt_next; [by eapply transform_fails|]. apply alt_here. by rewrite pmap_law, E.
  - assert (exists r, parse_gravity_transform s = NOk (r, ANormalized f t) /\ lays ts r) as (r & E & Hr).
    { destruct t; (eapply transform_step; [|exact H]); auto. }
    exists r. split; [|done]. apply alt_next; [|by apply alt_here]. destruct t; cbn [gravity_toks app] in H; unfold parse_gravity_composite; refuse.
  - cbn [gravity_toks] in H. flatten H. assert (exists r, parse_gravity_composite s = NOk (r, AComposite fs) /\ lays ts r) as (r & E & Hr).
    { unfold parse_gravity_composite. tok. destruct (identifiers_reads fs (TSym ")" :: ts) Hok eq_refl _ Hl) as (r2 & -> & H2). cbn [mbind NResult_bind]. tok. finish. }
    exists r. split; [|done]. by apply alt_here.
Qed.

Lemma gravity_reads s0 : gravity_ok (gv_spec s0) -> reads parse_gravity ([TKw "GRAVITY"; TKw "BY"] ++ gravity_toks (gv_spec s0) ++ [TKw "IN"; TStr (gv_lobe s0)]) s0 [].
Proof.
  intros Hok s H. destruct s0 as [l g]. cbn [gv_spec gv_lobe] in *. flatten H. unfold parse_gravity. do 2 tok.
  destruct (gravity_expr_reads g (TKw "IN" :: TStr l :: []) Hok eq_refl _ Hl0) as (r2 & -> & H2). cbn [mbind NResult_bind]. do 2 tok. finish.
Qed.

Lemma lobe_reads s0 : reads parse_lobe ([TKw "LOBE"; TStr (lb_name s0)] ++ opt_toks hint_toks (lb_hint s0)) s0 [].
Proof.
  intros s H. destruct s0 as [n h]. cbn [lb_name lb_hint] in *. flatten H. unfold parse_lobe. do 2 tok.
  edestruct (opt_clause parse_lobe_hint hint_toks h []) as (r3 & -> & H3); [| |exact Hl0|finish].
  - intros a _ s' Hs'. cbn [hint_toks app] in Hs'. unfold parse_lobe_hint. do 2 tok. destruct (ws_token quoted_string (TStr a) a [] (quoted_accepts a) _ Hl2) as (r4 & E & Hr & _). by exists r4.
  - intros _ s' Hs'. unfold parse_lobe_hint. refuse.
Qed.

Lemma incache_reads s0 : opt_ok expr_ok (ic_filter_expr s0) -> reads parse_incache ([TKw "INCACHE"; TLobe (ic_lobe s0)] ++ opt_toks where_toks (ic_filter_expr s0)) s0 [].
Proof. intros Hf s H. destruct s0 as [l fe]. cbn [ic_lobe ic_filter_expr] in *. flatten H. unfold parse_incache. do 2 tok. clause (opt_where fe). finish. Qed.

Lemma outcache_reads l : reads parse_outcache [TKw "OUTCACHE"; TLobe l] l [].
Proof. intros s H. cbn [app] in H. unfold parse_outcache. do 2 tok. finish. Qed.

Lemma autoanchor_reads s0 : reads parse_autoanchor_apply [TKw "AUTOANCHOR"; TKw "APPLY"; TStr (aa_field s0); TKw "IN"; TStr (aa_lobe s0)] s0 [].
Proof. intros s H. destruct s0 as [f l]. cbn [app aa_field aa_lobe] in H. unfold parse_autoanchor_apply. do 5 tok. finish. Qed.

Lemma analyze_reads l : reads parse_analyze [TKw "ANALYZE"; TStr l] l [].
Proof. intros s H. cbn [app] in H. unfold parse_analyze. do 2 tok. finish. Qed.

Lemma refresh_reads l : reads parse_refresh_ghost [TKw "REFRESH"; TKw "GHOST"; TStr l] l [].
Proof. intros s H. cbn [app] in H. unfold parse_refresh_ghost. do 3 tok. finish. Qed.

Lemma drop_reads l : reads parse_drop_ghost [TKw "DROP"; TKw "GHOST"; TStr l] l [].
Proof. intros s H. cbn [app] in H. unfold parse_drop_ghost. do 3 tok. finish. Qed.

Lemma show_reads s0 : reads parse_show (show_toks s0) s0 [].
Proof.
  intros s H. unfold show_toks in H. cbn [app] in H. unfold parse_show. tok.
  assert (forall (p : Parser ShowStmt) (ps qs : list (Parser ShowStmt)), (exists r', p r = NOk (r', s0) /\ lays [] r') -> Forall (fun q => errs (q r)) ps ->
    exists r', alt (ps ++ p :: qs) r = NOk (r', s0) /\ lays [] r') as Halt.
  { intros p ps qs (r' & E & Hr) Hps. exists r'. split; [|done]. apply alt_skips; [done|by apply alt_here]. }
  unfold parse_show_scan_stats, parse_show_profile, parse_show_cache, parse_show_throttle, parse_show_ghosts, parse_show_anchors, parse_show_lobes.
  destruct s0; cbn [app] in Hl.
  - apply (Halt _ [_; _; _; _; _; _] []); [tok; finish|repeat (apply Forall_cons; split; [refuse|]); apply Forall_nil_2].
  - apply (Halt _ [_; _; _; _; _] [_]); [do 3 tok; finish|repeat (apply Forall_cons; split; [refuse|]); apply Forall_nil_2].
  - apply (Halt _ [_; _; _] [_; _; _]); [tok; finish|repeat (apply Forall_cons; split; [refuse|]); apply Forall_nil_2].
  - apply (Halt _ [_; _; _; _] [_; _]); [tok; finish|repeat (apply Forall_cons; split; [refuse|]); apply Forall_nil_2].
  - apply (Halt _ [] [_; _; _; _; _; _]); [do 2 tok; finish|apply Forall_nil_2].
  - apply (Halt _ [_] [_; _; _; _; _]); [do 2 tok; finish|repeat (apply Forall_cons; split; [refuse|]); apply Forall_nil_2].
  - apply (Halt _ [_; _] [_; _; _; _]); [tok; finish|repeat (apply Forall_cons; split; [refuse|]); apply Forall_nil_2].
Qed.

Lemma pin_names l ts s : l <> [] -> sym_off 44 ts = true -> lays (names l ++ ts) s ->
  exists r, separated_list1 (ws (nchar 44)) (pmap (ws identifier) (fun s => s)) s = NOk (r, l) /\ lays ts r.
Proof.
  intros Hne Ho. apply (comma_list _ (fun n => [TName n]) any_ts); [done|done|done|done|]. intros n ts' _ _ s' H. destruct (ident_step n ts' s' H) as (r & E & Hr).
  exists r. by rewrite pmap_law, E.
Qed.

Lemma pin_reads s0 : pn_fields s0 <> [] -> reads parse_pin (TKw "PIN" :: names (pn_fields s0) ++ [TKw "IN"; TStr (pn_lobe s0)]) s0 [].
Proof.
  intros Hne s H. destruct s0 as [l n]. cbn [pn_fields pn_lobe] in *. flatten H. unfold parse_pin. tok.
  destruct (pin_names l (TKw "IN" :: TStr n :: []) r Hne eq_refl Hl) as (r2 & -> & H2). cbn [mbind NResult_bind]. do 2 tok. finish.
Qed.

Lemma unpin_reads s0 : up_fields s0 <> [] -> reads parse_unpin (TKw "UNPIN" :: names (up_fields s0) ++ [TKw "IN"; TStr (up_lobe s0)]) s0 [].
Proof.
  intros Hne s H. destruct s0 as [l n]. cbn [up_fields up_lobe] in *. flatten H. unfold parse_unpin. tok.
  destruct (pin_names l (TKw "IN" :: TStr n :: []) r Hne eq_refl Hl) as (r2 & -> & H2). cbn [mbind NResult_bind]. do 2 tok. finish.
Qed.
End statements.

(** * Pipeline steps and ghosts read back

    TAKE, NEAREST, FOLLOW, SHAPE and the statements on ghosts. *)

Section steps.
Context {N : Nom} {NL : NomLaws N} {UN : Unicode} {VT : ValueText}.

(** ** Directions and orders *)

Lemma direction_reads d ts : reads direction (asc_toks d) d ts.
Proof.
  intros s H. unfold direction. destruct d; cbn [asc_toks app] in H.
  - destruct (kw_reads "DESC" "DESC" ts s ltac:(kwd) eq_refl H) as (r & b & E & _ & Hr & _). exists r. split; [|done]. apply alt_here. by rewrite pmap_law, E.
  - destruct (kw_reads "ASC" "ASC" ts s ltac:(kwd) eq_refl H) as (r & b & E & _ & Hr & _). exists r. split; [|done].
    apply alt_next; [refuse|]. apply alt_here. by rewrite pmap_law, E.
Qed.

Lemma opt_direction d ts s : lays (asc_toks d ++ ts) s -> exists r, opt direction s = NOk (r, Some d) /\ lays ts r.
Proof. intros H. by apply (opt_reads _ _ _ _ (direction_reads d ts)). Qed.

(** A metric or a name. *)
Lemma metric_or_name {A} (f : AggregateFunc -> A) (g : bytes -> A) x ts s :
  sym_off 40 ts = true -> lays (match x with Metric h => func_toks h | Alias n => [TName n] end ++ ts) s ->
  exists r, alt [pmap parse_aggregate_func f; pmap (ws identifier) g] s = NOk (r, match x with Metric h => f h | Alias n => g n end) /\ lays ts r.
Proof.
  intros Ho H. destruct x as [h|n].
  - destruct (func_reads h ts s H) as (r & E & Hr). exists r. split; [|done]. apply alt_here. by rewrite pmap_law, E.
  - cbn [app] in H. destruct (ident_step n ts s H) as (r & E & Hr). exists r. split; [|done]. apply alt_next; [rewrite pmap_law; apply errs_bind; by eapply func_fails|].
    apply alt_here. by rewrite pmap_law, E.
Qed.

Lemma asc_off c d ts : sym_off c (asc_toks d ++ ts) = true.
Proof. by destruct d. Qed.

(** ** Steps *)

Lemma take_reads s0 : reads parse_take (top_toks s0) s0 [].
Proof.
  intros s H. destruct s0 as [n b d]. unfold top_toks in H. cbn [tp_n tp_by tp_descending] in *. flatten H. unfold parse_take.
  assert (exists r b', ws (alt [kw "TAKE"; kw "TOP"]) s = NOk (r, b') /\ lays (TNat n :: opt_toks by_toks b ++ asc_toks d ++ []) r) as (r & b' & -> & Hr).
  { apply lays_cons in H as (w & s' & E & (Ha & _ & Eu & _) & Hk & Hs). rewrite ws_eq, E. exists (skip_ws s'), w. split; [|by apply lays_skip].
    rewrite (alt_here (kw "TAKE") [kw "TOP"] (w ++ s') (s', w)); [done|]. unfold kw. apply tag_no_case_ok; [apply (keyword_ascii "TAKE"); kwd|by apply eq_ignore_upper]. }
  cbn [mbind NResult_bind]. destruct (nat_step n _ r Hr) as (r2 & -> & Hu & H2 & _). cbn [mbind NResult_bind]. rewrite u64_of_nat by done. cbn [mbind NResult_bind].
  edestruct (opt_clause (preceded (ws (kw "BY")) (alt [pmap parse_aggregate_func Metric; pmap (ws identifier) Alias])) by_toks b) as (r3 & -> & H3); [| |exact H2|].
  - intros x _ s' Hs'. unfold by_toks in Hs'. cbn [app] in Hs'. rewrite preceded_law. tok.
    destruct (metric_or_name Metric Alias x _ _ (asc_off 40 d []) Hl) as (r4 & E4 & H4). exists r4. rewrite E4. by destruct x.
  - intros _ s' Hs'. rewrite preceded_law. apply errs_bind. eapply ws_fails; [|exact Hs']. apply kw_fails_at; [kwd|by destruct d].
  - cbn [mbind NResult_bind]. destruct (opt_direction d [] r3 H3) as (r4 & -> & H4). by exists r4.
Qed.

Definition query_ok (q : NearestQuery) : Prop := match q with NVector (LParam _) => False | NVector l => lit_ok l | _ => True end.

Lemma query_reads q ts : query_ok q -> reads_at parse_nearest_query (query_toks q) q ts.
Proof.
  intros Hok s H Hn. unfold parse_nearest_query. destruct q as [l|n|id]; cbn [query_toks app] in H.
  - assert (lit_ok l) as Hl by (destruct l; done). destruct (parse_literal_reads l ts Hl s H Hn) as (r & E & Hr). exists r. split; [|done].
    apply alt_next. { unfold parse_nearest_param. apply errs_bind. eapply sym_fails_at; [lia|done| |exact H|done]. by destruct l. }
    apply alt_next. { unfold parse_nearest_ref. apply errs_bind. eapply ws_fails; [|exact H]. apply kw_fails_at; [kwd|]. by destruct l as [| | |[]| | | | | |]. }
    apply alt_here. by rewrite pmap_law, E.
  - destruct (dollar_step n s ts H Hn) as (r & E1 & E2 & Hr). exists r. split; [|done]. apply alt_here. unfold parse_nearest_param. rewrite E1. cbn [mbind NResult_bind].
    by rewrite E2.
  - assert (exists r, parse_nearest_ref s = NOk (r, NRef id) /\ lays ts r) as (r & E & Hr) by (unfold parse_nearest_ref; do 2 tok; finish). exists r. split; [|done].
    apply alt_next; [unfold parse_nearest_param; apply errs_bind; eapply sym_fails_at; [lia|done| |exact H|done]; done|]. by apply alt_here.
Qed.

Lemma nearest_reads s0 : query_ok (nr_query s0) -> reads parse_nearest (nearest_toks s0) s0 [].
Proof.
  intros Hq s H. destruct s0 as [f q k m]. unfold nearest_toks in H. cbn [nr_field nr_query nr_k nr_metric] in *. flatten H. unfold parse_nearest. tok.
  assert (exists r', parse_nearest_phrase r = NOk (r', mkNearest f q k m) /\ lays [] r') as (r' & E & Hr).
  { unfold parse_nearest_phrase. destruct (ws_reads parse_count [TNat k] k (TKw "BY" :: TName f :: TKw "TO" :: query_toks q ++ TKw "USING" :: TName m :: [])) with (s := r) as (r1 & -> & H1 & _); [|done|].
    { intros s' Hs' Hn'. pose proof Hs' as Hu. apply lays_cons in Hu as (b1 & s1 & _ & [_ Hu] & _).
      destruct (reads_at_accepts _ _ _ _ (nat_accepts k) s' Hs' Hn') as (r1 & E1 & H1). exists r1. unfold parse_count. rewrite E1. cbn [mbind NResult_bind]. by rewrite u64_of_nat. }
    cbn [mbind NResult_bind]. do 3 tok. destruct (ws_reads _ _ _ _ (query_reads q (TKw "USING" :: TName m :: []) Hq) _ Hl2) as (r4 & -> & H4 & _). cbn [mbind NResult_bind].
    rewrite (opt_some _ r4 (skip_ws []) m); [exists []; split; [done|constructor]|]. rewrite preceded_law. tok.
    apply lays_cons in Hl3 as (b4 & s4 & E4 & [-> Hid] & Hk4 & Hs4). rewrite ws_eq, E4, identifier_ok; [|done|destruct Hid as [Hne Hid]; by eapply brk_stops].
    by rewrite (lays_end _ Hs4). }
  exists r'. split; [|done]. apply alt_next; [unfold parse_nearest_func; refuse|]. by apply alt_here.
Qed.

Lemma follow_reads s0 : reads parse_follow (follow_toks s0) s0 [].
Proof. intros s H. destruct s0 as [f l t]. unfold follow_toks in H. cbn [app fo_field fo_lobe fo_target_field] in H. unfold parse_follow. do 6 tok. finish. Qed.

Lemma shape_reads s0 : sh_fields s0 <> [] -> reads parse_shape_step (shape_toks s0) s0 [].
Proof.
  intros Hne s H. destruct s0 as [l]. unfold shape_toks in H. cbn [sh_fields] in *. flatten H. unfold parse_shape_step. do 2 tok.
  destruct (identifiers_reads l (TSym "}" :: []) Hne eq_refl _ Hl0) as (r2 & -> & H2). cbn [mbind NResult_bind]. tok. finish.
Qed.

(** ** Ghosts *)

Lemma scan_ghost_reads s0 : opt_ok expr_ok (sg_filter_expr s0) -> reads parse_scan_ghost (scan_ghost_toks s0) s0 [].
Proof.
  intros Hf s H. destruct s0 as [n fe lim]. unfold scan_ghost_toks in H. cbn [sg_name sg_filter_expr sg_limit] in *. flatten H. unfold parse_scan_ghost. do 3 tok.
  clause (opt_where fe). clause (opt_limit lim). finish.
Qed.

Lemma embed_loop_reads l : forall acc fuel s, (length l < fuel)%nat -> lays (concat ((fun y => TSym "," :: y) <$> ((fun n => [TName n]) <$> l)) ++ []) s ->
  exists r, embed_loop fuel s acc = NOk (r, acc ++ l) /\ lays [] r.
Proof.
  induction l as [|n l IH]; intros acc fuel s Hf H; (destruct fuel as [|fuel]; [cbn in Hf; lia|]); cbn [embed_loop].
  - cbn [fmap list_fmap concat app] in H. assert (errs (ws (nchar 44) s)) as [j ->] by refuse. exists s. by rewrite app_nil_r.
  - rewrite !fmap_cons in H. cbn [concat app] in H. tok. tok. destruct (IH (acc ++ [n]) fuel r0) as (r3 & E3 & H3); [cbn in Hf; lia|done|]. exists r3. by rewrite <- app_assoc in E3.
Qed.

Lemma embed_reads l : l <> [] -> reads parse_ghost_embed (embed_toks l) l [].
Proof.
  intros Hne s H. destruct l as [|n l]; [done|]. unfold embed_toks, names in H. rewrite fmap_cons in H. cbn [commas] in H. flatten H. unfold parse_ghost_embed. tok. tok.
  destruct (embed_loop_reads l [n] (S (length r0)) r0) as (r2 & -> & H2); [|done|by exists r2].
  pose proof (Nat.le_trans _ _ _ (commas_length (fun n => [TName n]) l []) (lays_length _ _ Hl0)). lia.
Qed.

(** A part of a ghost's definition after a bar, or no part. *)
Lemma opt_part {A} (p : Parser (list A)) (f : list A -> list Tok) (l : list A) ts s :
  (l <> [] -> reads p (f l) l ts) -> (l = [] -> fails (preceded pipe p) ts) -> lays (some_toks f l ++ ts) s ->
  exists r o, opt (preceded pipe p) s = NOk (r, o) /\ default [] o = l /\ lays ts r.
Proof.
  intros Hs Hn H. destruct l as [|x l].
  - cbn [some_toks app] in H. exists s, None. rewrite opt_none; [done|]. by apply Hn.
  - cbn [some_toks app] in H. unfold pipe in *. assert (exists r, preceded (ws (nchar 124)) p s = NOk (r, x :: l) /\ lays ts r) as (r & E & Hr).
    { rewrite preceded_law. tok. by apply Hs. }
    exists r, (Some (x :: l)). by rewrite (opt_some _ _ _ _ E).
Qed.

(** After the bar comes something else. *)
Lemma bar_refuses {A} (K : string) (k : bytes * bytes -> NResult (bytes * A)) ts :
  is_keyword K -> kw_off K ts = true -> fails (preceded pipe (fun i => ws (kw K) i ≫= k)) (TSym "|" :: ts).
Proof.
  intros HK Ho s H. unfold pipe. rewrite preceded_law. tok. apply errs_bind. eapply ws_fails; [|exact Hl]. by apply kw_fails_at.
Qed.

Definition ghost_ok (s : CreateGhostStmt) : Prop :=
  (cg_filter s = And [] \/ expr_ok (cg_filter s)) /\ Forall agg_ok (cg_aggregates s) /\
  match cg_order_metric s with None => True | Some (Metric _) => cg_order_by s = [] | Some (Alias _) => False end.

Lemma target_step' s0 ts s : match cg_order_metric s0 with None => True | Some (Metric _) => cg_order_by s0 = [] | Some (Alias _) => False end ->
  sym_off 40 ts = true -> lays (order_target_toks s0 ++ ts) s ->
  exists r, parse_ghost_order_target s = NOk (r, (cg_order_by s0, cg_order_metric s0)) /\ lays ts r.
Proof.
  intros Hok Ho H. unfold order_target_toks in H. unfold parse_ghost_order_target. destruct (cg_order_metric s0) as [[f|a]|]; [|done|].
  - destruct (metric_or_name (fun f => ([] : bytes, Some (Metric f))) (fun s => (s, None)) (Metric f) ts s Ho H) as (r & E & Hr). exists r. by rewrite E, Hok.
  - destruct (metric_or_name (fun f => ([] : bytes, Some (Metric f))) (fun s => (s, None)) (Alias (cg_order_by s0)) ts s Ho H) as (r & E & Hr). exists r. by rewrite E.
Qed.

Lemma embed_off ts l : ts = some_toks embed_toks l ++ [] -> sym_off 40 ts = true.
Proof. intros ->. by destruct l. Qed.

Lemma pipeline_shape_reads s0 s : ghost_ok s0 ->
  lays (some_toks group_toks (cg_group_by s0) ++ some_toks aggregate_toks (cg_aggregates s0) ++
    TSym "|" :: TKw "TAKE" :: TKw "BY" :: order_target_toks s0 ++ asc_toks (cg_sort_descending s0) ++ some_toks embed_toks (cg_embed s0) ++ []) s ->
  exists r, parse_ghost_pipeline_shape s =
    NOk (r, mkGhostShape (cg_order_by s0) (cg_order_metric s0) (cg_sort_descending s0) (cg_group_by s0) (cg_aggregates s0) (cg_embed s0)) /\ lays [] r.
Proof.
  intros (_ & Ha & Hm) H. unfold parse_ghost_pipeline_shape.
  edestruct (opt_part parse_group_by group_toks (cg_group_by s0)) as (r1 & o1 & -> & <- & H1); [| |exact H|].
  { intros Hne. apply group_reads; [done|]. by destruct (cg_aggregates s0). }
  { intros _. unfold parse_group_by. destruct (cg_aggregates s0); apply (bar_refuses "GROUP"); [kwd|done|kwd|done]. }
  cbn [mbind NResult_bind]. edestruct (opt_part parse_aggregate aggregate_toks (cg_aggregates s0)) as (r2 & o2 & -> & <- & H2); [| |exact H1|].
  { intros Hne. apply aggregate_reads; [done|done|done|done]. }
  { intros _. unfold parse_aggregate. apply (bar_refuses "AGGREGATE"); [kwd|done]. }
  cbn [mbind NResult_bind]. change (pipe r2) with (ws (nchar 124) r2). do 3 tok. edestruct (target_step' s0) as (r6 & -> & H6); [done| |exact Hl1|]; [apply asc_off|].
  cbn [mbind NResult_bind]. unfold parse_ghost_direction. destruct (opt_direction _ _ _ H6) as (r7 & -> & H7). cbn [mbind NResult_bind mret NResult_ret].
  edestruct (opt_part parse_ghost_embed embed_toks (cg_embed s0)) as (r8 & o8 & -> & <- & H8); [| |exact H7|].
  { apply embed_reads. }
  { intros _ s' Hs'. unfold pipe. rewrite preceded_law. refuse. }
  cbn [mbind NResult_bind]. by exists r8.
Qed.

Lemma create_ghost_reads s0 : ghost_ok s0 -> reads parse_create_ghost (create_ghost_toks s0) s0 [].
Proof.
  intros Hok s H. unfold create_ghost_toks in H. flatten H. unfold parse_create_ghost. do 5 tok.
  edestruct (opt_where (ghost_where (cg_filter s0))) as (r5 & -> & H5); [| | | |exact Hl3|].
  { destruct Hok as [[-> | He] _]; [done|]. destruct (cg_filter s0) as [|[]| |]; try done. }
  { by destruct (cg_group_by s0), (cg_aggregates s0). }
  { by destruct (cg_group_by s0), (cg_aggregates s0). }
  { by destruct (cg_group_by s0), (cg_aggregates s0). }
  cbn [mbind NResult_bind]. destruct (pipeline_shape_reads s0 r5 Hok H5) as (r6 & E & H6). rewrite (alt_here _ _ _ _ E). cbn [mbind NResult_bind]. exists r6. split; [|done].
  destruct s0 as [n sl fe ob desc om gb ags em]. cbn. destruct fe as [|[]| |]; done.
Qed.
End steps.
