(* ===== verification/ParseReads.v ===== *)
(** * The choice of a parser

    The tokens of every statement and step, what the language can say, and that the
    statement is found by its first words. *)

From S2P Require Import Prelude Types Paths ByteOrder BTree Value Lid Record Filters GroupKey Gravity FilterEq Scan Registries Db Mutations.
From S2P Require Import Nom Parser Tokens ExprReads StatementReads.

(** * Whole statements and pipelines read back

    The dispatch on the first words, the division of pipelines at their bars and the
    removal of comments, for texts in which quoted text does not disturb them. *)

(** ** Tokens *)

(** Two words of a command, with one space between them. *)
Definition join2 (T : list Tok) : list Tok := match T with TKw a :: TKw b :: T => TKw2 a b :: T | _ => T end.

Definition stmt_toks (st : Statement) : list Tok :=
  match st with
  | SPut s => put_toks s
  | SPutBatch s => join2 (put_batch_toks s)
  | SFind s => find_toks s
  | SPull s => pull_toks s
  | SScan s => scan_toks s
  | SSet s => set_toks s
  | SDelete s => delete_toks s
  | SPurge s => [TKw "PURGE"; TStr (pu_lobe s)]
  | SFetch s => fetch_toks s
  | SLink s => link_stmt_toks s
  | SAnchor s => [TKw "ANCHOR"; TStr (an_field s); TKw "UNIQUE"; TKw "IN"; TStr (an_lobe s)]
  | SGravity s => [TKw "GRAVITY"; TKw "BY"] ++ gravity_toks (gv_spec s) ++ [TKw "IN"; TStr (gv_lobe s)]
  | SVector s => [TKw "VECTOR"; TName (ve_field s); TKw "IN"; TStr (ve_lobe s)]
  | SSatellite s => [TKw "SATELLITE"; TKw "BY"; TName (sa_field s); TKw "IN"; TStr (sa_lobe s)]
  | SLobe s => [TKw "LOBE"; TStr (lb_name s)] ++ opt_toks hint_toks (lb_hint s)
  | SShow s => show_toks s
  | SAutoAnchorApply s => [TKw "AUTOANCHOR"; TKw "APPLY"; TStr (aa_field s); TKw "IN"; TStr (aa_lobe s)]
  | SCreateGhost s => join2 (create_ghost_toks s)
  | SScanGhost s => join2 (scan_ghost_toks s)
  | SRefreshGhost n => [TKw2 "REFRESH" "GHOST"; TStr n]
  | SDropGhost n => [TKw2 "DROP" "GHOST"; TStr n]
  | SAnalyze l => [TKw "ANALYZE"; TStr l]
  | SCompact => [TKw "COMPACT"]
  | SScrub => [TKw "SCRUB"]
  | SBulkMode on => [TKw "BULKMODE"; TKw (if on then "ON" else "OFF")]
  | SMigrate None => [TKw "MIGRATE"]
  | SMigrate (Some l) => [TKw "MIGRATE"; TStr l]
  | SInCache s => [TKw "INCACHE"; TLobe (ic_lobe s)] ++ opt_toks where_toks (ic_filter_expr s)
  | SOutCache l => [TKw "OUTCACHE"; TLobe l]
  | SPin s => TKw "PIN" :: names (pn_fields s) ++ [TKw "IN"; TStr (pn_lobe s)]
  | SUnpin s => TKw "UNPIN" :: names (up_fields s) ++ [TKw "IN"; TStr (up_lobe s)]
  | SPipeline _ => []
  end.

Definition step_toks (p : PipelineStep) : list Tok :=
  match p with
  | PFind s => find_toks s
  | PPull s => pull_toks s
  | PSet s => set_toks s
  | PDelete s => delete_toks s
  | PScan s => scan_toks s
  | PScanGhost s => join2 (scan_ghost_toks s)
  | PAggregate l => aggregate_toks l
  | PGroupBy l => group_toks l
  | PNearest s => nearest_toks s
  | PFollow s => follow_toks s
  | PTop s => top_toks s
  | PShape s => shape_toks s
  end.

(** ** What the language can say *)

Definition no_quotes (s : bytes) : Prop := Forall (fun b => b <> 34 /\ b <> 92) s.

Definition scan_ok (s : ScanStmt) : Prop := opt_ok expr_ok (st_filter_expr s) /\ (st_order_by s <> None -> st_limit s <> None).

Definition stmt_ok (st : Statement) : Prop :=
  match st with
  | SPut s => Forall field_ok (pt_fields s) /\ opt_ok link_ok (pt_link s)
  | SPutBatch s => pb_records s <> [] /\ Forall (Forall field_ok) (pb_records s) /\ opt_ok link_ok (pb_link s)
  | SFind s => Forall filter_ok (fs_filters s)
  | SPull s => pull_ok s /\ pl_target s <> None
  | SScan s => scan_ok s
  | SSet s => ss_target s <> None /\ assignments_ok (ss_assignments s) /\ opt_ok expr_ok (ss_filter_expr s)
  | SDelete s => dl_target s <> None /\ exists e, dl_filter_expr s = Some e /\ expr_ok e
  | SFetch s => ft_lobes s <> [] /\ (exists e, ft_filter_expr s = Some e /\ expr_ok e) /\ opt_ok (fun l => length l = length (ft_lobes s)) (ft_names s)
  | SLink s => opt_ok expr_ok (ln_source_filter_expr s) /\ opt_ok expr_ok (ln_target_filter_expr s)
  | SGravity s => gravity_ok (gv_spec s)
  | SCreateGhost s => ghost_ok s
  | SScanGhost s => opt_ok expr_ok (sg_filter_expr s)
  | SMigrate (Some l) => no_quotes l
  | SInCache s => opt_ok expr_ok (ic_filter_expr s)
  | SPin s => pn_fields s <> []
  | SUnpin s => up_fields s <> []
  | SPipeline _ => False
  | _ => True
  end.

(** The first step of a pipeline, and the others. *)
Definition source_ok (p : PipelineStep) : Prop :=
  match p with
  | PFind s => Forall filter_ok (fs_filters s)
  | PScan s => scan_ok s
  | PScanGhost s => opt_ok expr_ok (sg_filter_expr s)
  | _ => False
  end.

Definition step_ok (p : PipelineStep) : Prop :=
  match p with
  | PPull s => pull_ok s /\ pl_target s = None
  | PSet s => ss_target s = None /\ assignments_ok (ss_assignments s) /\ ss_filter_expr s = None
  | PDelete s => dl_target s = None /\ dl_filter_expr s = None
  | PAggregate l => l <> [] /\ Forall agg_ok l
  | PGroupBy l => l <> []
  | PNearest s => query_ok (nr_query s)
  | PFollow _ | PTop _ => True
  | PShape s => sh_fields s <> []
  | _ => False
  end.

Section parse.
Context {N : Nom} {NL : NomLaws N} {UN : Unicode} {VT : ValueText}.

(** ** Upper case *)

Lemma chars_ascii x s : 0 <= x < 128 -> chars (x :: s) = [x] :: chars s.
Proof. intros H. unfold chars. cbn [length chars_fuel]. by rewrite next_char_ascii. Qed.

Lemma upper_app a s : all_ascii a -> to_uppercase (a ++ s) = (upper_byte <$> a) ++ to_uppercase s.
Proof.
  intros H. unfold to_uppercase. induction H as [|x a Hx _ IH]; [done|]. cbn [app]. rewrite chars_ascii by done. rewrite fmap_cons. cbn [concat]. by rewrite IH.
Qed.

Lemma upper_kw k b s : spells_kw k b -> to_uppercase (b ++ s) = str k ++ to_uppercase s.
Proof. intros (Ha & _ & <- & _). by apply upper_app. Qed.

Lemma ws_ascii w : all_ws w -> all_ascii w.
Proof. intros H. eapply Forall_impl; [exact H|]. intros b Hb. apply ws_small in Hb. lia. Qed.

Lemma upper_ws w : all_ws w -> upper_byte <$> w = w.
Proof. induction 1 as [|b w Hb _ IH]; [done|]. rewrite fmap_cons, IH. f_equal. by apply ws_small in Hb as [-> | [-> | [-> | ->]]]. Qed.

Lemma solid_ascii x : solid x -> 0 <= x < 128.
Proof. unfold solid. lia. Qed.

(** The text of a layout, with its first word in upper case. *)
Lemma upper_first k ts c : lays (TKw k :: ts) c -> nows c ->
  exists s', to_uppercase c = str k ++ to_uppercase s' /\ lays ts s' /\ (exists b, c = b ++ s' /\ spells_kw k b) /\
    match s' with [] => True | y :: _ => 0 <= y < 128 /\ ident_byte y = false end.
Proof.
  intros (b & s' & E & Hb & Hk & Hs)%lays_cons Hn. rewrite skip_ws_nows in E by done. subst c. exists s'. rewrite (upper_kw k) by done. split; [done|]. split; [done|].
  split; [by exists b|]. destruct Hb as (Ha & Hne & Eu & Hl). apply (brk_word b); [intros ->; by rewrite <- Eu in Hne|eapply Forall_impl; [exact Hl|apply alpha_word]|done].
Qed.

Lemma upper_two k1 k2 ts c : lays (TKw2 k1 k2 :: ts) c -> nows c -> exists u, to_uppercase c = str k1 ++ 32 :: str k2 ++ u.
Proof.
  intros (b & s' & E & (b1 & b2 & -> & H1 & H2) & Hk & Hs)%lays_cons Hn. rewrite skip_ws_nows in E by done. subst c. exists (to_uppercase s').
  rewrite <- app_assoc, (upper_kw k1) by done. cbn [app]. change (32 :: b2 ++ s') with ([32] ++ b2 ++ s'). rewrite upper_app by (by repeat constructor).
  by rewrite (upper_kw k2).
Qed.

Lemma lays_join2 T ts s : lays (join2 T ++ ts) s -> lays (T ++ ts) s.
Proof.
  destruct T as [|t T]; [done|]. destruct t; try done. destruct T as [|t T]; [done|]. destruct t; try done. cbn [join2 app].
  intros (w & b & s' & -> & Hw & (b1 & b2 & -> & H1 & H2) & Hk & Hs). exists w, b1, (32 :: b2 ++ s'). rewrite <- app_assoc. split; [done|]. split; [done|]. split; [exact H1|]. split.
  - destruct (spells_ends (TKw k) b1 H1) as [_ (m & x & -> & Hx)]. unfold brk. rewrite last_snoc. unfold glue. cbn. by rewrite andb_false_r, andb_false_r.
  - exists [32], b2, s'. split; [done|]. split; [by repeat constructor|]. split; [exact H2|]. split; [|done]. unfold brk in *. rewrite last_app in Hk.
    destruct (spells_ends (TKw k0) b2 H2) as [_ (m & x & -> & Hx)]. rewrite last_cons, last_snoc in Hk. by rewrite last_snoc.
Qed.

(** ** What follows a first word *)

Lemma gap_then n c l w x m : all_ws w -> is_multispace x = false -> is_multispace c = false -> x <> c -> starts_with (w ++ x :: m) (replicate n 32 ++ c :: l) = false.
Proof.
  intros Hw Hx Hc Hxc. revert w Hw. induction n as [|n IH]; intros w Hw; cbn [replicate app].
  - destruct Hw as [|y w Hy _]; cbn [app starts_with]; [by rewrite (proj2 (Z.eqb_neq _ _))|]. rewrite (proj2 (Z.eqb_neq y c)); [done|]. intros ->. congruence.
  - destruct Hw as [|y w Hy Hw]; cbn [app starts_with].
    + rewrite (proj2 (Z.eqb_neq x 32)); [done|]. by intros ->.
    + rewrite (IH w Hw). apply andb_false_r.
Qed.

(** SCAN is not SCAN GHOST when the name does not begin like GHOST. *)
Lemma scan_then_name n s' : lays (scan_lobe n :: []) s' \/ (exists ts, lays (scan_lobe n :: ts) s') -> starts_with (to_uppercase s') (32 :: str "GHOST") = false.
Proof.
  intros H. assert (exists ts, lays (scan_lobe n :: ts) s') as (ts & w & b & s & -> & Hw & Hb & Hk & _) by (destruct H as [H | H]; [by exists []|done]). clear H.
  rewrite upper_app, upper_ws by (done || by apply ws_ascii). apply not_true_iff_false. intros E.
  assert (forall m, b = 34 :: m -> False) as Hq.
  { intros m ->. cbn [app] in E. change (34 :: m ++ s) with ([34] ++ m ++ s) in E. rewrite upper_app in E by (by repeat constructor). cbn [fmap list_fmap app] in E.
    pose proof (gap_then 1 71 [72; 79; 83; 84] w (upper_byte 34) (to_uppercase (m ++ s)) Hw eq_refl eq_refl ltac:(done)) as E'. cbn [replicate app] in E'.
    change (32 :: str "GHOST") with (32 :: 71 :: [72; 79; 83; 84]) in E. congruence. }
  unfold scan_lobe in Hb. destruct (starts_with (upper_byte <$> n) (str "GHOST")) eqn:En; [by destruct (quoted_head _ _ Hb) as (m & ->); eapply Hq|].
  destruct Hb as [(m & ->)%quoted_head | [-> Hid]]; [by eapply Hq|]. assert (all_ascii n) as Ha by (destruct Hid as [_ Hid]; by apply spelled_ascii).
  rewrite upper_app in E by done. destruct Hid as [Hne Hid]. pose proof (brk_word n s Hne Hid Hk) as Hs.
  assert (forall x, x ∈ upper_byte <$> n -> ident_byte x = true) as Hup.
  { intros x (y & -> & Hy)%list_elem_of_fmap. rewrite upper_ident. rewrite Forall_forall in Hid. by apply Hid. }
  destruct w as [|x w].
  - destruct n as [|y n]; [done|]. rewrite fmap_cons in E. cbn [app starts_with] in E. apply andb_true_iff in E as [E%Z.eqb_eq _].
    specialize (Hup (upper_byte y) ltac:(rewrite fmap_cons; left)). rewrite E in Hup. done.
  - cbn [app] in E. change (starts_with (x :: ?a) (32 :: ?p)) with ((x =? 32) && starts_with a p) in E. apply andb_true_iff in E as [_ E]. apply Forall_cons in Hw as [_ Hw].
    destruct w as [|z w]; [|apply Forall_cons in Hw as [Hz _]; cbn [app] in E; change (str "GHOST") with (71 :: [72; 79; 83; 84]) in E; cbn [starts_with] in E;
      apply andb_true_iff in E as [E%Z.eqb_eq _]; subst z; done].
    cbn [app] in E. apply starts_with_iff in E as (r & E). destruct (Nat.le_gt_cases 5 (length n)) as [Hl | Hl].
    + apply not_true_iff_false in En. exfalso. apply En. apply starts_with_iff. exists (drop 5 (upper_byte <$> n)).
      assert (take 5 ((upper_byte <$> n) ++ to_uppercase s) = take 5 (upper_byte <$> n)) as Et by (by rewrite take_app_le by (by rewrite length_fmap)).
      rewrite E in Et. change (take 5 (str "GHOST" ++ r)) with (str "GHOST") in Et. rewrite Et. by rewrite take_drop.
    + destruct s as [|y s].
      * rewrite app_nil_r in E. apply (f_equal length) in E. rewrite length_fmap, length_app in E. change (length (str "GHOST")) with 5%nat in E. lia.
      * destruct Hs as [Hy Hyi]. change (y :: s) with ([y] ++ s) in E. rewrite upper_app in E by (constructor; [exact Hy|constructor]). cbn [fmap list_fmap app] in E.
        assert (((upper_byte <$> n) ++ upper_byte y :: to_uppercase s) !! length n = Some (upper_byte y)) as Ey by (rewrite <- (length_fmap upper_byte n); by apply list_lookup_middle).
        rewrite E, lookup_app_l in Ey by done. apply list_elem_of_lookup_2 in Ey. rewrite <- upper_ident in Hyi.
        revert Ey. change (str "GHOST") with [71; 72; 79; 83; 84]. intros Ey. repeat (apply elem_of_cons in Ey as [Ey | Ey]; [rewrite Ey in Hyi; done|]). by apply elem_of_nil in Ey.
Qed.
End parse.

(** * The dispatch of statements and steps

    Each statement's first words lead to its parser. *)

(** Evaluates the tests on the first letters. *)
Ltac decide_leads :=
  repeat match goal with
  | |- context [leads (?a ++ ?u) ?K] =>
    let v := eval lazy in (leads (a ++ u) K) in
    first [constr_eq v true | constr_eq v false]; change (leads (a ++ u) K) with v; cbn [orb andb negb]; cbv iota
  end.

Section dispatch.
Context {N : Nom} {NL : NomLaws N} {UN : Unicode} {VT : ValueText}.

Lemma whole_reads {A B} (p : Parser A) T v c (f : A -> B) : reads p T v [] -> lays T c -> run_parser p c f = Done (f v).
Proof. intros H Hc. rewrite <- (app_nil_r T) in Hc. destruct (H c Hc) as (r & E & _). unfold run_parser. by rewrite E. Qed.

(** The first word, its upper case and what follows. *)
Ltac first_word k H Hn :=
  let s' := fresh "s'" in let E := fresh "E" in let Hs := fresh "Hs'" in let u := fresh "u" in
  destruct (upper_first k _ _ H Hn) as (s' & E & Hs & _ & _); rewrite E; clear E; generalize (to_uppercase s') as u; intros u.

Ltac two_words H Hn :=
  let E := fresh "E" in let u := fresh "u" in
  destruct (upper_two _ _ _ _ H Hn) as (u & E); rewrite E; clear E;
  match goal with |- context [str ?k1 ++ 32 :: str ?k2 ++ u] => change (str k1 ++ 32 :: str k2 ++ u) with ((str k1 ++ 32 :: str k2) ++ u) end.

Ltac simple k H Hn := first_word k H Hn; decide_leads; eapply whole_reads; [|exact H].

Lemma put_then s0 s' : lays (block_toks (pt_fields s0) ++ [TKw "IN"; TLobe (pt_lobe s0)] ++ opt_toks link_toks (pt_link s0) ++ opt_toks conflict_toks (pt_on_conflict s0)) s' ->
  starts_with (to_uppercase s') (str " BATCH") = false /\ starts_with (to_uppercase s') (str "  BATCH") = false.
Proof.
  unfold block_toks. cbn [app]. intros (w & b & s & -> & Hw & [-> _] & _). rewrite upper_app, upper_ws by (done || by apply ws_ascii).
  change (str "{" ++ s) with ([123] ++ s). rewrite upper_app by (by repeat constructor). change ((upper_byte <$> [123]) ++ to_uppercase s) with (123 :: to_uppercase s).
  split; [apply (gap_then 1 66 [65; 84; 67; 72])|apply (gap_then 2 66 [65; 84; 67; 72])]; done.
Qed.

Lemma scan_parses s0 c : scan_ok s0 -> lays (scan_toks s0) c -> parse_scan_statement c = Done (SScan s0).
Proof.
  intros [Hf Hl] H. unfold parse_scan_statement. rewrite (whole_reads _ _ _ _ id (scan_reads s0 Hf) H). cbn.
  destruct (st_order_by s0), (st_limit s0); try done. by destruct Hl.
Qed.

Lemma find_parses s0 c : Forall filter_ok (fs_filters s0) -> lays (find_toks s0) c -> parse_find_statement c = Done (SFind s0).
Proof.
  intros Hf H. unfold parse_find_statement. rewrite <- (app_nil_r (find_toks s0)) in H. destruct (find_reads s0 Hf c H) as (r & -> & Hr).
  by rewrite (lays_trim_start [] r Hr), (lays_end r Hr).
Qed.

Lemma delete_parses s0 c : dl_target s0 <> None -> (exists e, dl_filter_expr s0 = Some e /\ expr_ok e) -> lays (delete_toks s0) c -> parse_delete_statement c = Done (SDelete s0).
Proof.
  intros Ht (e & Ee & He) H. unfold parse_delete_statement. rewrite (whole_reads _ _ _ _ id (delete_reads s0 Ht ltac:(by rewrite Ee)) H). cbn. by rewrite Ee.
Qed.

Lemma fetch_parses s0 c : stmt_ok (SFetch s0) -> lays (fetch_toks s0) c -> parse_fetch_statement c = Done (SFetch s0).
Proof.
  intros (Hne & (e & Ee & He) & Hl) H. unfold parse_fetch_statement. assert (opt_ok (fun l => l <> []) (ft_names s0)) as Hnn.
  { destruct (ft_names s0) as [l|]; [|done]. cbn in *. intros ->. destruct (ft_lobes s0); done. }
  rewrite (whole_reads _ _ _ _ id (fetch_reads s0 Hne ltac:(by rewrite Ee) Hnn) H). cbn. rewrite Ee. destruct (ft_names s0) as [l|]; [|done]. cbn in Hl. by rewrite Hl, Nat.eqb_refl.
Qed.

(** BULKMODE and MIGRATE, which take their argument from the text. *)
Lemma bulkmode_parses (on : bool) c : lays [TKw "BULKMODE"; TKw (if on then "ON" else "OFF")] c -> nows c -> parse_bulkmode (drop 8 (to_uppercase c)) = Done (SBulkMode on).
Proof.
  intros H Hn. destruct (upper_first "BULKMODE" _ _ H Hn) as (s' & -> & (w & b & s & -> & Hw & (Ha & Hne & Eu & Hl) & _ & Hs) & _). change (drop 8 (str "BULKMODE" ++ ?x)) with x.
  rewrite upper_app, upper_ws, upper_app, Eu by (done || by apply ws_ascii). rewrite <- (app_nil_r s), upper_app, upper_ws by (done || by apply ws_ascii).
  change (to_uppercase []) with (@nil Z). rewrite app_nil_r. unfold parse_bulkmode.
  rewrite str_trim_ws; [by destruct on|done|done|destruct on; [exists 79, [78]|exists 79, [70; 70]]; (split; [reflexivity|unfold solid; lia])|].
  destruct on; [exists [79], 78|exists [79; 70], 70]; (split; [reflexivity|unfold solid; lia]).
Qed.

Lemma drop_quotes_plain s : no_quotes s -> drop_quotes s = s.
Proof. intros H. destruct s as [|x s]; [done|]. apply Forall_cons in H as [[Hx _] _]. cbn. by repeat (case_match; try done). Qed.

Lemma trim_quotes_quoted s : no_quotes s -> trim_quotes (34 :: s ++ [34]) = s.
Proof.
  intros H. unfold trim_quotes. cbn [drop_quotes]. destruct s as [|x s]; [done|].
  assert (drop_quotes ((x :: s) ++ [34]) = (x :: s) ++ [34]) as ->. { apply Forall_cons in H as [[Hx _] _]. cbn. by repeat (case_match; try done). }
  rewrite reverse_app. cbn [reverse rev_append app]. change (drop_quotes (34 :: ?l)) with (drop_quotes l).
  change (rev_append s [x]) with (reverse (x :: s)). rewrite drop_quotes_plain by (by apply Forall_reverse). apply reverse_involutive.
Qed.

Lemma plain_escape cs : no_quotes (concat cs) -> Forall char_ok cs -> concat (escape_char <$> cs) = concat cs.
Proof.
  intros H Hc. induction Hc as [|c cs Hc _ IH]; [done|]. rewrite fmap_cons. cbn [concat] in *. apply Forall_app in H as [H1 H2]. rewrite IH by done. f_equal.
  destruct (escape_next c) as [[Hq E] | (_ & _ & E)]; [|done]. destruct Hq as [-> | ->]; apply Forall_cons in H1 as [[] _]; done.
Qed.

Lemma migrate_parses o c : opt_ok no_quotes o -> lays (stmt_toks (SMigrate o)) c -> nows c -> parse_migrate c = Done (SMigrate o).
Proof.
  intros Ho H Hn. assert (exists ts, lays (TKw "MIGRATE" :: ts) c /\ ts = match o with Some l => [TStr l] | None => [] end) as (ts & H' & Ets).
  { destruct o; by eexists. }
  destruct (upper_first "MIGRATE" _ _ H' Hn) as (s' & _ & Hs & (b & Ec & (_ & _ & Eu & _)) & Hh). unfold parse_migrate.
  assert (length b = 7%nat) as El by (by rewrite <- (length_fmap upper_byte), Eu). subst c.
  pose proof (str_slice_mid b s' [] 7 (blen (b ++ s'))) as Hsl. rewrite !app_nil_r in Hsl. rewrite Hsl; [|unfold blen; lia|unfold blen; rewrite length_app; lia| |done].
  - clear H Hsl. destruct o as [l|]; subst ts; cbn [opt_ok] in Ho.
    + destruct Hs as (w & q & s2 & -> & Hw & (cs & Hcs & -> & ->) & _ & Hs2). unfold quote. rewrite plain_escape by done.
      rewrite str_trim_ws; [|done|done|exists 34, (concat cs ++ [34]); split; [reflexivity|unfold solid; lia]|exists (34 :: concat cs), 34; split; [reflexivity|unfold solid; lia]].
      cbn [app]. by rewrite trim_quotes_quoted.
    + destruct (lays_trim [] s' Hs) as [Ht Hnt]. apply lays_end in Ht. rewrite skip_ws_nows in Ht by done. by rewrite Ht.
  - destruct s' as [|y s']; [done|]. destruct Hh as [Hy _]. cbn. unfold cont. lia.
Qed.

Theorem single_parses st s : stmt_ok st -> lays (stmt_toks st) s -> parse_single_statement s = Done st.
Proof.
  intros Hok H. unfold parse_single_statement. apply lays_trim in H as [H Hn]. revert H Hn. generalize (str_trim s) as c. clear s. intros c H Hn.
  destruct st; cbn [stmt_toks stmt_ok] in *.
  - destruct Hok as [Hf Hk]. unfold put_toks in H. destruct (upper_first "PUT" _ _ H Hn) as (s' & -> & Hs' & _). destruct (put_then s s' Hs') as [E1 E2].
    change (leads (str "PUT" ++ to_uppercase s') "PUT BATCH") with (starts_with (to_uppercase s') (str " BATCH")).
    change (leads (str "PUT" ++ to_uppercase s') "PUT  BATCH") with (starts_with (to_uppercase s') (str "  BATCH")). rewrite E1, E2. generalize (to_uppercase s') as u. intros u.
    cbn [orb]. decide_leads. eapply whole_reads; [by apply put_reads|exact H].
  - destruct Hok as (Hne & Hf & Hk). pose proof (lays_join2 (put_batch_toks s) [] c) as H'. rewrite !app_nil_r in H'. specialize (H' H). two_words H Hn. decide_leads.
    eapply whole_reads; [by apply put_batch_reads|exact H'].
  - pose proof H as H'. unfold find_toks in H'. first_word "FIND" H' Hn. decide_leads. by apply find_parses.
  - destruct Hok as [Hd Ht]. pose proof H as H'. unfold pull_toks in H'. first_word "PULL" H' Hn. decide_leads. eapply whole_reads; [by apply pull_reads|exact H].
  - pose proof H as H'. unfold scan_toks in H'. cbn [app] in H'. destruct (upper_first "SCAN" _ _ H' Hn) as (s' & -> & Hs' & _).
    pose proof (scan_then_name (st_lobe s) s' ltac:(right; eexists; exact Hs')) as E1.
    change (leads (str "SCAN" ++ to_uppercase s') "SCAN GHOST") with (starts_with (to_uppercase s') (32 :: str "GHOST")). rewrite E1. generalize (to_uppercase s') as u. intros u.
    decide_leads. by apply scan_parses.
  - destruct Hok as (Ht & Ha & Hf). pose proof H as H'. unfold set_toks in H'. first_word "SET" H' Hn. decide_leads. eapply whole_reads; [by apply set_reads|exact H].
  - destruct Hok as (Ht & Hf). pose proof H as H'. unfold delete_toks in H'. first_word "DELETE" H' Hn. decide_leads. by apply delete_parses.
  - simple "PURGE" H Hn. apply purge_reads.
  - pose proof H as H'. unfold fetch_toks in H'. first_word "FETCH" H' Hn. decide_leads. by apply fetch_parses.
  - destruct Hok as [H1 H2]. pose proof H as H'. unfold link_stmt_toks in H'. first_word "LINK" H' Hn. decide_leads. eapply whole_reads; [by apply link_stmt_reads|exact H].
  - simple "ANCHOR" H Hn. apply anchor_reads.
  - simple "GRAVITY" H Hn. by apply gravity_reads.
  - simple "VECTOR" H Hn. apply vector_reads.
  - simple "SATELLITE" H Hn. apply satellite_reads.
  - simple "LOBE" H Hn. apply lobe_reads.
  - pose proof H as H'. unfold show_toks in H'. first_word "SHOW" H' Hn. decide_leads. eapply whole_reads; [apply show_reads|exact H].
  - simple "AUTOANCHOR" H Hn. apply autoanchor_reads.
  - pose proof (lays_join2 (create_ghost_toks s) [] c) as H'. rewrite !app_nil_r in H'. specialize (H' H). two_words H Hn. decide_leads.
    eapply whole_reads; [by apply create_ghost_reads|exact H'].
  - pose proof (lays_join2 (scan_ghost_toks s) [] c) as H'. rewrite !app_nil_r in H'. specialize (H' H). two_words H Hn. decide_leads.
    eapply whole_reads; [by apply scan_ghost_reads|exact H'].
  - pose proof (lays_join2 [TKw "REFRESH"; TKw "GHOST"; TStr name] [] c) as H'. rewrite !app_nil_r in H'. specialize (H' H). two_words H Hn. decide_leads.
    eapply whole_reads; [apply refresh_reads|exact H'].
  - pose proof (lays_join2 [TKw "DROP"; TKw "GHOST"; TStr name] [] c) as H'. rewrite !app_nil_r in H'. specialize (H' H). two_words H Hn. decide_leads.
    eapply whole_reads; [apply drop_reads|exact H'].
  - simple "ANALYZE" H Hn. apply analyze_reads.
  - first_word "COMPACT" H Hn. by decide_leads.
  - first_word "SCRUB" H Hn. by decide_leads.
  - pose proof (bulkmode_parses on c H Hn) as Eb. destruct (upper_first "BULKMODE" _ _ H Hn) as (s' & E & _). rewrite E in *. revert Eb. generalize (to_uppercase s') as u. intros u Eb.
    decide_leads. exact Eb.
  - assert (exists ts, lays (TKw "MIGRATE" :: ts) c) as (ts & H') by (destruct lobe; by eexists). first_word "MIGRATE" H' Hn. decide_leads. apply migrate_parses; [|exact H|done]. by destruct lobe.
  - simple "INCACHE" H Hn. by apply incache_reads.
  - simple "OUTCACHE" H Hn. apply outcache_reads.
  - simple "PIN" H Hn. by apply pin_reads.
  - simple "UNPIN" H Hn. by apply unpin_reads.
  - done.
Qed.

Theorem step_parses p s : step_ok p -> lays (step_toks p) s -> parse_pipeline_step s = Done p.
Proof.
  intros Hok H. unfold parse_pipeline_step. apply lays_trim in H as [H Hn]. revert H Hn. generalize (str_trim s) as c. clear s. intros c H Hn.
  destruct p; cbn [step_toks step_ok] in *; try done.
  - destruct Hok as [Hd Ht]. pose proof H as H'. unfold pull_toks in H'. first_word "PULL" H' Hn. decide_leads. eapply whole_reads; [by apply pull_step_reads|exact H].
  - destruct Hok as (Ht & Ha & Hf). pose proof H as H'. unfold set_toks in H'. first_word "SET" H' Hn. decide_leads. eapply whole_reads; [by apply set_step_reads|exact H].
  - destruct Hok as (Ht & Hf). pose proof H as H'. unfold delete_toks in H'. first_word "DELETE" H' Hn. decide_leads. eapply whole_reads; [by apply delete_step_reads|exact H].
  - destruct Hok as (Hne & Ha). pose proof H as H'. unfold aggregate_toks in H'. first_word "AGGREGATE" H' Hn. decide_leads. eapply whole_reads; [by apply aggregate_reads|exact H].
  - pose proof H as H'. unfold group_toks in H'. cbn [app] in H'. first_word "GROUP" H' Hn. decide_leads. eapply whole_reads; [by apply group_reads|exact H].
  - pose proof H as H'. unfold nearest_toks in H'. cbn [app] in H'. first_word "NEAREST" H' Hn. decide_leads. eapply whole_reads; [by apply nearest_reads|exact H].
  - pose proof H as H'. unfold follow_toks in H'. first_word "FOLLOW" H' Hn. decide_leads. eapply whole_reads; [apply follow_reads|exact H].
  - pose proof H as H'. unfold top_toks in H'. cbn [app] in H'. first_word "TAKE" H' Hn. decide_leads. eapply whole_reads; [apply take_reads|exact H].
  - pose proof H as H'. unfold shape_toks in H'. cbn [app] in H'. first_word "SHAPE" H' Hn. decide_leads. eapply whole_reads; [by apply shape_reads|exact H].
Qed.

Lemma source_parses p s : source_ok p -> lays (step_toks p) s -> pipeline_source s = Done p.
Proof.
  intros Hok H. unfold pipeline_source. destruct p; try done; cbn [source_ok step_toks] in *.
  - by rewrite (single_parses (SFind s0) s Hok H).
  - by rewrite (single_parses (SScan s0) s Hok H).
  - by rewrite (single_parses (SScanGhost s0) s Hok H).
Qed.
End dispatch.
