(* ===== verification/Segments.v ===== *)
(** * Comments and segments

    The removal of comments and the division of a text at its bars and semicolons, for
    texts whose tokens do not disturb them. *)

From S2P Require Import Prelude Types Paths ByteOrder BTree Value Lid Record Filters GroupKey Gravity FilterEq Scan Registries Db Mutations.
From S2P Require Import Nom Parser Tokens ExprReads StatementReads.
From S2P Require Import ParseReads.

(** * Comments between tokens

    The removal of comments, and what it does to the layout of a text whose tokens do
    not disturb it: a comment or a line end becomes white space, and the tokens stay.
    [walk] is the state that the removal of comments and the division of pipelines
    both keep, inside or outside quotation marks. *)

(** ** Layouts with comments *)

(** White space and comments, each ended by its line. *)
Inductive gap : bytes -> Prop :=
  | gap_nil : gap []
  | gap_ws b g : is_multispace b = true -> gap g -> gap (b :: g)
  | gap_comment c g : 10 ∉ c -> gap g -> gap (45 :: 45 :: c ++ 10 :: g).

(** The text may end in a comment without a line end. *)
Definition last_gap (g : bytes) : Prop := gap g \/ exists g' c, gap g' /\ 10 ∉ c /\ g = g' ++ 45 :: 45 :: c.

Fixpoint laid {VT : ValueText} (ts : list Tok) (s : bytes) : Prop :=
  match ts with
  | [] => last_gap s
  | t :: ts => exists g b s', s = g ++ b ++ s' /\ gap g /\ spells t b /\ brk b s' /\ laid ts s'
  end.

(** ** Inside and outside quotation marks *)

(** Both scans toggle at every quotation mark, escaped or not. [walk bad q d b] reads
    [b]: [None] where it holds a line feed, or outside quotation marks two dashes, a
    final dash or a byte of [bad]; [d] counts the braces outside them. *)
Fixpoint walk (bad : list Z) (q : bool) (d : Z) (b : bytes) : option (bool * Z) :=
  match b with
  | [] => Some (q, d)
  | x :: b' =>
    if x =? 10 then None
    else if x =? 34 then walk bad (negb q) d b'
    else if q then walk bad q d b'
    else if (x =? 45) && match b' with y :: _ => y =? 45 | [] => true end then None
    else if bool_decide (x ∈ bad) then None
    else walk bad q (if x =? 123 then d + 1 else if x =? 125 then d - 1 else d) b'
  end.

(** Text as it is written between quotation marks. *)
Definition escape (s : bytes) : bytes := s ≫= fun b => if (b =? 34) || (b =? 92) then [92; b] else [b].

(** The quoted text does not disturb them. *)
Definition quiet_text (bad : list Z) (s : bytes) : Prop := walk bad true 0 (escape s) = Some (true, 0).

Definition quiet_tok (bad : list Z) (t : Tok) : Prop :=
  match t with TStr s | TAt s | TParen s | TLobe s => quiet_text bad s | _ => True end.

(** A text without quotation marks or line feeds is quiet. *)
Lemma plain_quiet bad s : 34 ∉ s -> 10 ∉ s -> quiet_text bad s.
Proof.
  unfold quiet_text. intros H1 H2. induction s as [|x s IH]; [done|]. apply not_elem_of_cons in H1 as [Hx H1]; apply not_elem_of_cons in H2 as [Hx2 H2]. unfold escape. rewrite bind_cons.
  fold (escape s). rewrite (proj2 (Z.eqb_neq x 34)) by done. cbn [orb]. destruct (x =? 92) eqn:E; cbn [app walk].
  - apply Z.eqb_eq in E as ->. cbn. by apply IH.
  - rewrite !(proj2 (Z.eqb_neq x _)) by done. by apply IH.
Qed.

Lemma walk_app bad a b : forall q d q' d', walk bad q d a = Some (q', d') -> walk bad q d (a ++ b) = walk bad q' d' b.
Proof.
  induction a as [|x a IH]; intros q d q' d'; cbn [walk app]; [by intros [= -> ->]|]. destruct (x =? 10); [done|]. destruct (x =? 34); [apply IH|].
  destruct q; [apply IH|]. destruct a as [|y a]; cbn [app]; [destruct (x =? 45); cbn [andb]; [done|]|destruct (_ && _); [done|]]; (case_bool_decide; [done|]); apply IH.
Qed.

Lemma walk_depth bad a : forall q d k q' d', walk bad q d a = Some (q', d') -> walk bad q (d + k) a = Some (q', d' + k).
Proof.
  induction a as [|x a IH]; intros q d k q' d'; cbn [walk]; [by intros [= -> ->]|]. destruct (x =? 10); [done|]. destruct (x =? 34); [apply IH|].
  destruct q; [apply IH|]. destruct (_ && _); [done|]. case_bool_decide; [done|]. intros Hw. rewrite <- (IH _ _ k _ _ Hw). f_equal. destruct (x =? 123); [lia|]. destruct (x =? 125); lia.
Qed.

Lemma walk_fewer bad bad' a : (forall x, x ∈ bad' -> x ∈ bad) -> forall q d r, walk bad q d a = Some r -> walk bad' q d a = Some r.
Proof.
  intros Hb. induction a as [|x a IH]; intros q d r; cbn [walk]; [done|]. destruct (x =? 10); [done|]. destruct (x =? 34); [apply IH|].
  destruct q; [apply IH|]. destruct (_ && _); [done|]. case_bool_decide as E; [done|]. rewrite bool_decide_eq_false_2 by naive_solver. apply IH.
Qed.

(** Words, digits and the like. *)
Lemma walk_plain bad b d : Forall (fun x => x <> 10 /\ x <> 34 /\ x <> 45 /\ x ∉ bad /\ x <> 123 /\ x <> 125) b -> walk bad false d b = Some (false, d).
Proof.
  induction 1 as [|x b (H1 & H2 & H3 & H4 & H5 & H6) _ IH]; [done|]. cbn [walk]. rewrite !(proj2 (Z.eqb_neq x _)) by done. cbn [andb]. by rewrite bool_decide_eq_false_2.
Qed.

(** ** The removal of comments, byte by byte *)

(** [None] is inside a comment. *)
Fixpoint strip (m : option bool) (s : bytes) : bytes :=
  match s with
  | [] => []
  | x :: s' =>
    if x =? 10 then match s' with [] => [] | _ => 32 :: strip (Some false) s' end
    else
      match m with
      | None => strip m s'
      | Some q =>
        if (x =? 13) && starts_with s' [10] then strip m s'
        else if x =? 34 then x :: strip (Some (negb q)) s'
        else if negb q && (x =? 45) && starts_with s' [45] then strip None s'
        else x :: strip m s'
      end
  end.

Definition code (m : option bool) (line : bytes) : bytes := match m with Some q => comment_start line q | None => [] end.

Lemma strip_cr_cons x l : l <> [] -> strip_cr (x :: l) = x :: strip_cr l.
Proof.
  intros Hne. destruct (exists_last Hne) as (l' & y & ->). unfold strip_cr. change (x :: l' ++ [y]) with ((x :: l') ++ [y]). rewrite !reverse_snoc.
  destruct (Z.eq_dec y 13) as [-> | Hy]; [by rewrite !reverse_involutive|by repeat (case_match; try done)].
Qed.

Lemma strip_cr_one x : strip_cr [x] = if x =? 13 then [] else [x].
Proof. destruct (Z.eqb_spec x 13) as [-> | Hd]; [done|]. unfold strip_cr. cbn. by repeat (case_match; try done). Qed.

Lemma starts_one x s c : starts_with (x :: s) [c] = (x =? c).
Proof. cbn. apply andb_true_r. Qed.

Lemma strip_last m l : 10 ∉ l -> strip m l = code m l.
Proof.
  revert m. induction l as [|x l IH]; intros m; [by destruct m|]. intros [Hx Hl]%not_elem_of_cons. cbn [strip]. rewrite (proj2 (Z.eqb_neq x 10)) by done.
  destruct m as [q|]; [|by apply IH]. assert (starts_with l [10] = false) as ->.
  { destruct l as [|y l]; [done|]. rewrite starts_one. apply Z.eqb_neq. intros ->. apply Hl. left. }
  rewrite andb_false_r. cbn [code comment_start]. rewrite !IH by done. cbn [code]. destruct (x =? 34); [done|]. by destruct (_ && _).
Qed.

Definition next_line (s : bytes) : bytes := match s with [] => [] | _ => 32 :: strip (Some false) s end.

Lemma strip_line l s : forall m, 10 ∉ l -> strip m (l ++ 10 :: s) = code m (strip_cr l) ++ next_line s.
Proof.
  induction l as [|x l IH]; intros m Hl; [by destruct m|]. apply not_elem_of_cons in Hl as [Hx Hl]. cbn [strip app]. rewrite (proj2 (Z.eqb_neq x 10)) by done.
  destruct m as [q|]; [|by apply IH]. destruct l as [|y l]; cbn [app].
  - rewrite !starts_one. change (10 =? 10) with true. change (10 =? 45) with false. rewrite andb_true_r, !andb_false_r. change (10 :: s) with ([] ++ 10 :: s). rewrite !IH by done.
    rewrite strip_cr_one.
    change (strip_cr []) with (@nil Z). destruct (Z.eqb_spec x 13) as [-> | Hd]; [done|]. cbn [code comment_start starts_with]. rewrite andb_false_r. by destruct (x =? 34), q.
  - rewrite !starts_one, strip_cr_cons by done. apply not_elem_of_cons in Hl as Hl'. destruct Hl' as [Hy _]. rewrite (proj2 (Z.eqb_neq y 10)) by done. rewrite andb_false_r.
    change (y :: l ++ 10 :: s) with ((y :: l) ++ 10 :: s). rewrite !IH by done. cbn [code comment_start].
    assert (starts_with (strip_cr (y :: l)) [45] = (y =? 45)) as ->; [|by destruct (x =? 34), (negb q && (x =? 45) && (y =? 45))].
    destruct l as [|z l]; [|rewrite strip_cr_cons by done; apply starts_one]. rewrite strip_cr_one.
    destruct (Z.eqb_spec y 13) as [-> | Hd]; [done|apply starts_one].
Qed.

Lemma lines_loop_line l s : forall cur, 10 ∉ l -> lines_loop (l ++ 10 :: s) cur = strip_cr (cur ++ l) :: lines s.
Proof.
  induction l as [|x l IH]; intros cur Hl; cbn [app lines_loop]; [by rewrite app_nil_r|]. apply not_elem_of_cons in Hl as [Hx Hl].
  rewrite (proj2 (Z.eqb_neq x 10)) by done. rewrite IH by done. by rewrite <- app_assoc.
Qed.

Lemma lines_loop_last l : forall cur, 10 ∉ l -> lines_loop l cur = match cur ++ l with [] => [] | _ => [cur ++ l] end.
Proof.
  induction l as [|x l IH]; intros cur Hl; cbn [lines_loop]; [rewrite app_nil_r; by destruct cur|]. apply not_elem_of_cons in Hl as [Hx Hl].
  rewrite (proj2 (Z.eqb_neq x 10)) by done. rewrite IH by done. by rewrite <- app_assoc.
Qed.

Lemma first_line s : (exists l s', s = l ++ 10 :: s' /\ 10 ∉ l) \/ 10 ∉ s.
Proof.
  induction s as [|x s [(l & s' & -> & Hl) | Hs]]; [right; apply not_elem_of_nil| |]; (destruct (Z.eq_dec x 10) as [-> | Hx]; [left; exists []; eexists; split; [done|apply not_elem_of_nil]|]).
  - left. exists (x :: l), s'. split; [done|]. by apply not_elem_of_cons.
  - right. by apply not_elem_of_cons.
Qed.

Lemma lines_empty s : lines s = [] -> s = [].
Proof.
  destruct (first_line s) as [(l & s' & -> & Hl) | Hs]; unfold lines; [by rewrite lines_loop_line|]. rewrite lines_loop_last by done. by destruct s.
Qed.

Lemma join_cons sep x y l : join sep (x :: y :: l) = x ++ sep ++ join sep (y :: l).
Proof. unfold join. cbn [List.map concat]. by rewrite <- !app_assoc. Qed.

Theorem strip_comments_bytes s : strip_comments s = strip (Some false) s.
Proof.
  induction s as [s IH] using (induction_ltof1 _ (@length Z)). unfold ltof in IH. unfold strip_comments in *. destruct (first_line s) as [(l & s' & -> & Hl) | Hs].
  - unfold lines at 1. rewrite lines_loop_line by done. rewrite strip_line by done. rewrite fmap_cons. cbn [app code].
    specialize (IH s' ltac:(rewrite length_app; cbn; lia)). destruct s' as [|y s']; [cbn; by rewrite app_nil_r|].
    destruct ((fun line => comment_start line false) <$> lines (y :: s')) as [|z ls] eqn:E; [by apply fmap_nil_inv, lines_empty in E|].
    rewrite join_cons, IH. done.
  - unfold lines. rewrite lines_loop_last, strip_last by done. destruct s; [done|]. cbn [app fmap list_fmap join List.map concat]. by rewrite app_nil_r.
Qed.

(** ** Gaps *)

Lemma strip_none l s : 10 ∉ l -> strip None (l ++ 10 :: s) = next_line s.
Proof. apply (strip_line l s None). Qed.

Definition no_lf (s : bytes) : Prop := match s with y :: _ => y <> 10 | [] => True end.

(** A gap becomes white space, none only where there is none or nothing follows. *)
Lemma strip_gap g s : gap g -> no_lf s ->
  exists w, all_ws w /\ strip (Some false) (g ++ s) = w ++ strip (Some false) s /\ (w = [] -> g = [] \/ s = []).
Proof.
  intros Hg Hs. assert (forall g', gap g' -> (exists w, all_ws w /\ strip (Some false) (g' ++ s) = w ++ strip (Some false) s /\ (w = [] -> g' = [] \/ s = [])) ->
    exists w, all_ws w /\ next_line (g' ++ s) = w ++ strip (Some false) s /\ (w = [] -> s = [])) as Hl.
  { intros g' Hg' (w & Hw & E & _). unfold next_line. destruct (g' ++ s) as [|z t] eqn:Ez.
    - apply app_eq_nil in Ez as [-> ->]. exists []. by split; [constructor|].
    - exists (32 :: w). split; [by constructor|]. by rewrite <- Ez, E in *. }
  induction Hg as [|b g Hb Hg IH|c g Hc Hg IH].
  - exists []. split; [constructor|]. split; [done|by left].
  - specialize (Hl g Hg IH). destruct IH as (w & Hw & E & He). destruct (ws_small b Hb) as [-> | [-> | [-> | ->]]].
    + exists (32 :: w). split; [by constructor|]. split; [|done]. cbn [app strip]. cbn. by rewrite E.
    + exists (9 :: w). split; [by constructor|]. split; [|done]. cbn [app strip]. cbn. by rewrite E.
    + cbn [app strip]. change (13 =? 10) with false. cbv iota. change (13 =? 13) with true. cbn [andb]. destruct (starts_with (g ++ s) [10]) eqn:E10.
      * exists w. split; [done|]. split; [done|]. intros Ew. right. destruct (He Ew) as [-> | ->]; [|done].
        destruct s as [|y s]; [done|]. cbn [app] in E10. rewrite starts_one in E10. apply Z.eqb_eq in E10 as ->. done.
      * exists (13 :: w). split; [by constructor|]. split; [|done]. cbn. by rewrite E.
    + cbn [app strip]. change (10 =? 10) with true. cbv iota. change (match g ++ s with [] => [] | _ => 32 :: strip (Some false) (g ++ s) end) with (next_line (g ++ s)).
      destruct Hl as (w' & Hw' & E' & He'). exists w'. split; [done|]. split; [done|]. intros Ew. right. by apply He'.
  - destruct (Hl g Hg IH) as (w' & Hw' & E' & He'). exists w'. split; [done|]. split; [|intros Ew; right; by apply He'].
    rewrite <- E', <- (strip_none (45 :: c) (g ++ s)) by (by apply not_elem_of_cons). cbn [app]. rewrite <- app_assoc. done.
Qed.

Lemma strip_last_gap g : last_gap g -> all_ws (strip (Some false) g).
Proof.
  intros [Hg | (g' & c & Hg & Hc & ->)].
  - destruct (strip_gap g [] Hg I) as (w & Hw & E & _). rewrite app_nil_r in E. rewrite E. cbn. by rewrite app_nil_r.
  - destruct (strip_gap g' (45 :: 45 :: c) Hg ltac:(done)) as (w & Hw & E & _). rewrite E. change (strip (Some false) (45 :: 45 :: c)) with (strip None (45 :: c)).
    rewrite strip_last by (by apply not_elem_of_cons). cbn. by rewrite app_nil_r.
Qed.

(** What [walk] accepts stays as it is. *)
Lemma strip_walk bad b s : forall q d q' d', walk bad q d b = Some (q', d') -> last b <> Some 13 -> strip (Some q) (b ++ s) = b ++ strip (Some q') s.
Proof.
  induction b as [|x b IH]; intros q d q' d'; cbn [walk]; [by intros [= -> ->]|]. cbn [app strip]. destruct (x =? 10) eqn:E10; [done|]. intros Hw Hl.
  assert ((x =? 13) && starts_with (b ++ s) [10] = false) as ->.
  { destruct (Z.eqb_spec x 13) as [-> | Hx]; [|done]. cbn [andb]. destruct b as [|y b]; [done|]. cbn [app]. rewrite starts_one.
    apply Z.eqb_neq. intros ->. revert Hw. cbn. destruct q; [done|]. by case_bool_decide. }
  assert (last b <> Some 13) as Hl' by (destruct b; [done|by rewrite last_cons_cons in Hl]). destruct (x =? 34); [by rewrite (IH _ _ _ _ Hw Hl')|].
  assert (negb q && (x =? 45) && starts_with (b ++ s) [45] = false) as ->.
  { destruct q; [done|]. cbn [negb andb]. destruct b as [|y b]; cbn [app].
    - destruct (x =? 45); [done|]. done.
    - rewrite starts_one. by destruct ((x =? 45) && (y =? 45)). }
  destruct q; [by rewrite (IH _ _ _ _ Hw Hl')|]. destruct ((x =? 45) && _); [done|]. case_bool_decide; [done|]. by rewrite (IH _ _ _ _ Hw Hl').
Qed.

(** ** Tokens *)

Section tokens.
Context {VT : ValueText} (bad : list Z) (Hbad : forall x, x ∈ bad -> x = 124 \/ x = 59).

Definition tok_depth (t : Tok) : Z := match t with TSym "{" => 1 | TSym "}" => -1 | _ => 0 end.

Definition sym_quiet (t : Tok) : Prop := match t with TSym s => walk bad false 0 (str s) = Some (false, tok_depth t) | _ => True end.

Lemma walk_step x b d : x <> 10 -> x <> 34 -> x <> 45 -> x <> 124 -> x <> 59 -> x <> 123 -> x <> 125 -> walk bad false d (x :: b) = walk bad false d b.
Proof. intros. cbn [walk]. rewrite !(proj2 (Z.eqb_neq x _)) by done. cbn [andb]. rewrite bool_decide_eq_false_2; [done|]. by intros [-> | ->]%Hbad. Qed.

Lemma walk_word b d s : Forall (fun x => ident_byte x = true) b -> walk bad false d (b ++ s) = walk bad false d s.
Proof.
  induction 1 as [|x b Hx _ IH]; [done|]. cbn [app]. assert (forall y, ident_byte y = false -> x <> y) as Hd by (intros y Hy ->; congruence).
  rewrite walk_step by (by apply Hd). exact IH.
Qed.

Lemma walk_dash d x b : ident_byte x = true -> walk bad false d (45 :: x :: b) = walk bad false d (x :: b).
Proof.
  intros Hx. assert (x =? 45 = false) as E by (apply Z.eqb_neq; by intros ->). cbn [walk]. cbn. rewrite E. rewrite bool_decide_eq_false_2; [done|]. by intros [? | ?]%Hbad.
Qed.

Lemma digits_words d : digits d -> Forall (fun x => ident_byte x = true) d.
Proof. intros [_ H]. eapply Forall_impl; [exact H|]. intros x. apply digit_word. Qed.

(** An optional sign and digits. *)
Lemma walk_number sg n d s : (sg = [] \/ sg = [43] \/ sg = [45]) -> digits n -> walk bad false d (sg ++ n ++ s) = walk bad false d s.
Proof.
  intros Hs Hd. rewrite <- (walk_word n d s) by (by apply digits_words). destruct Hs as [-> | [-> | ->]]; [done|by apply walk_step|].
  destruct (digits_head n Hd) as (x & m & -> & Hx). apply walk_dash. by apply digit_word.
Qed.

Lemma escape_char_ok c : char_ok c -> escape_char c = escape c.
Proof.
  intros (b & t & -> & Hl & Ht). unfold escape_char, escape. rewrite bind_cons. destruct ((b =? 34) || (b =? 92)) eqn:E.
  - assert (t = []) as -> by (apply orb_true_iff in E as [E%Z.eqb_eq | E%Z.eqb_eq]; subst b; by destruct t). rewrite !beqb_one, E. done.
  - apply orb_false_iff in E as [E1 E2]. assert (beqb (b :: t) [34] = false /\ beqb (b :: t) [92] = false) as [-> ->].
    { split; apply beqb_neq; intros [= -> _]; done. }
    cbn. f_equal. clear Hl. induction Ht as [|x t Hx _ IH]; [done|]. rewrite bind_cons, <- IH. unfold cont in Hx. rewrite !(proj2 (Z.eqb_neq x _)) by lia. done.
Qed.

Lemma escape_chars cs : Forall char_ok cs -> concat (escape_char <$> cs) = escape (concat cs).
Proof. induction 1 as [|c cs Hc _ IH]; [done|]. rewrite fmap_cons. cbn [concat]. unfold escape. rewrite bind_app. fold (escape c) (escape (concat cs)). by rewrite escape_char_ok, IH. Qed.

Lemma walk_quoted s b d r : is_quoted s b -> quiet_text bad s -> walk bad false d (b ++ r) = walk bad false d r.
Proof.
  intros (cs & Hcs & -> & ->) Hq. unfold quote. rewrite escape_chars by done. unfold quiet_text in Hq. apply (walk_depth _ _ _ _ d) in Hq.
  rewrite Z.add_0_l in Hq. rewrite <- !app_assoc. cbn [app walk]. change (34 =? 10) with false. change (34 =? 34) with true. cbv iota. cbn [negb].
  by rewrite (walk_app _ _ _ _ _ _ _ Hq).
Qed.

Lemma spells_walk t b : spells t b -> quiet_tok bad t -> sym_quiet t -> walk bad false 0 b = Some (false, tok_depth t).
Proof.
  assert (forall b, Forall (fun x => ident_byte x = true) b -> walk bad false 0 b = Some (false, 0)) as Hw.
  { intros w Hw. rewrite <- (app_nil_r w), walk_word by done. done. }
  assert (forall k b, spells_kw k b -> Forall (fun x => ident_byte x = true) b) as Hk.
  { intros k w (_ & _ & _ & H). eapply Forall_impl; [exact H|apply alpha_word]. }
  destruct t; cbn [spells quiet_tok sym_quiet tok_depth].
  - intros H _ _. apply Hw. by eapply Hk.
  - intros (b1 & b2 & -> & H1 & H2) _ _. rewrite walk_word by (by eapply Hk). rewrite walk_step by done. apply Hw. by eapply Hk.
  - intros [-> [_ H]] _ _. by apply Hw.
  - intros H Hq _. rewrite <- (app_nil_r b). by rewrite (walk_quoted s).
  - intros [H | [-> [_ H]]] Hq _; [rewrite <- (app_nil_r b); by rewrite (walk_quoted n)|by apply Hw].
  - intros (-> & _) _ H. exact H.
  - intros [-> _] _ _. apply Hw, digits_words, format_u64_is_digits.
  - intros [-> _] _ _. unfold display_i64. destruct (i <? 0).
    + rewrite <- (app_nil_r (45 :: _)). change ((45 :: format_u64 (- i)) ++ []) with ([45] ++ format_u64 (- i) ++ []). rewrite walk_number; [done|by right; right|apply format_u64_is_digits].
    + apply Hw, digits_words, format_u64_is_digits.
  - intros [(sign & int & frac & ex & -> & Hs & Hd & Hf & He & _) _] _ _. rewrite walk_number; [|destruct Hs; by auto|done].
    assert (walk bad false 0 ex = Some (false, 0)) as Hx.
    { destruct He as [-> | (e & sg & d & He & Hg & Hd' & ->)]; [done|]. rewrite walk_step by (by destruct He as [-> | ->]).
      rewrite <- (app_nil_r d). by rewrite walk_number. }
    destruct Hf as [-> | (d & Hd' & ->)]; [done|]. cbn [app]. rewrite walk_step by done. rewrite walk_word by (by apply digits_words). exact Hx.
  - intros (q & H & ->) Hq _. rewrite walk_step by done. rewrite <- (app_nil_r q). by rewrite (walk_quoted s).
  - intros (q & H & ->) Hq _. rewrite walk_step by done. rewrite (walk_quoted s) by done. by apply walk_step.
  - intros [-> [_ H]] _ _. rewrite walk_step by done. by apply Hw.
Qed.

Lemma glue_ws x y : is_multispace y = true -> glue x y = false.
Proof. intros [-> | [-> | [-> | ->]]]%ws_small; unfold glue; cbn; by rewrite !andb_false_r. Qed.

Lemma spells_no_lf t b s : spells t b -> no_lf (b ++ s).
Proof. intros H. destruct (spells_ends t b H) as [(x & m & -> & Hx) _]. cbn. unfold solid in Hx. lia. Qed.

Lemma spells_no_cr t b : spells t b -> last b <> Some 13.
Proof. intros H. destruct (spells_ends t b H) as [_ (m & x & -> & Hx)]. rewrite last_snoc. intros [= ->]. unfold solid in Hx. lia. Qed.

Lemma strip_token t b s : spells t b -> quiet_tok bad t -> sym_quiet t -> strip (Some false) (b ++ s) = b ++ strip (Some false) s.
Proof. intros Hb Hq Hy. exact (strip_walk _ _ _ _ _ _ _ (spells_walk t b Hb Hq Hy) (spells_no_cr t b Hb)). Qed.

(** A layout with comments becomes one without. *)
Lemma laid_lays ts s : Forall (quiet_tok bad) ts -> Forall sym_quiet ts -> laid ts s -> lays ts (strip_comments s).
Proof.
  rewrite strip_comments_bytes. revert s. induction ts as [|t ts IH]; intros s Hq Hy; [apply strip_last_gap|]. apply Forall_cons in Hq as [Ht Hq], Hy as [Hyt Hy].
  cbn [laid lays]. intros (g & b & s' & -> & Hg & Hb & Hk & Hs). destruct (strip_gap g (b ++ s') Hg (spells_no_lf t b s' Hb)) as (w & Hw & -> & _).
  rewrite (strip_token t b s') by done. exists w, b, (strip (Some false) s').
  split; [done|]. split; [done|]. split; [done|]. split; [|by apply IH]. clear IH. unfold brk in *. destruct (last b) as [x|]; [|done].
  destruct ts as [|t' ts]; cbn [laid] in Hs.
  - apply strip_last_gap in Hs. destruct (strip (Some false) s') as [|y r]; [done|]. apply Forall_cons in Hs as [Hy' _]. by apply glue_ws.
  - destruct Hs as (g' & b' & s2 & -> & Hg' & Hb' & _). destruct (strip_gap g' (b' ++ s2) Hg' (spells_no_lf t' b' s2 Hb')) as (w' & Hw' & -> & He).
    destruct w' as [|y w']; [|apply Forall_cons in Hw' as [Hy' _]; by apply glue_ws]. apply Forall_cons in Hq as [Ht' _], Hy as [Hyt' _].
    rewrite (strip_token t' b' s2) by done. destruct (spells_ends t' b' Hb') as [(y & m & -> & _) _]. by destruct (He eq_refl) as [-> | E].
Qed.
End tokens.

(** * Segments of a text

    Where a text is divided: at the bars of a pipeline and at the semicolons between
    statements. The braces of every statement are balanced and only CREATE GHOST has
    bars of its own, so the divisions find the segments that the tokens show. *)

(** ** Symbols *)

Definition symbols : list string := ["*"; ","; ":"; "="; "!="; ">="; "<="; ">"; "<"; "("; ")"; "["; "]"; "{"; "}"]%string.

(** A keyword is in upper case. *)
Definition word (k : string) : bool := negb (beqb (str k) []) && forallb (fun b => (65 <=? b) && (b <=? 90)) (str k).

Definition plain (bar : bool) (t : Tok) : Prop :=
  match t with
  | TSym s => s ∈ symbols \/ bar = true /\ s = "|"%string
  | TKw k => word k = true
  | TKw2 k1 k2 => word k1 = true /\ word k2 = true
  | _ => True
  end.

Definition depth (ts : list Tok) : Z := foldr (fun t d => tok_depth t + d) 0 ts.

(** Known symbols only, and balanced braces. *)
Definition even (bar : bool) (ts : list Tok) : Prop := Forall (plain bar) ts /\ depth ts = 0.

Lemma depth_app a b : depth (a ++ b) = depth a + depth b.
Proof. induction a as [|t a IH]; cbn; [done|]. rewrite <- Z.add_assoc. f_equal. exact IH. Qed.

Section even.
Context (bar : bool).

Lemma even_nil : even bar [].
Proof. by split. Qed.

Lemma even_app a b : even bar a -> even bar b -> even bar (a ++ b).
Proof. intros [Ha Ea] [Hb Eb]. split; [by apply Forall_app|]. rewrite depth_app. lia. Qed.

Lemma even_cons t ts : plain bar t -> tok_depth t = 0 -> even bar ts -> even bar (t :: ts).
Proof. intros Ht E [Hs Es]. split; [by constructor|]. cbn. fold (depth ts). lia. Qed.

Lemma even_braces a ts : even bar a -> even bar ts -> even bar (TSym "{" :: a ++ TSym "}" :: ts).
Proof.
  intros [Ha Ea] [Hs Es]. split.
  - constructor; [left; set_solver|]. apply Forall_app. split; [done|]. constructor; [left; set_solver|done].
  - change (depth (TSym "{" :: a ++ TSym "}" :: ts)) with (1 + depth (a ++ TSym "}" :: ts)). rewrite depth_app.
    change (depth (TSym "}" :: ts)) with (-1 + depth ts). lia.
Qed.

Lemma even_concat l : Forall (even bar) l -> even bar (concat l).
Proof. induction 1; [apply even_nil|by apply even_app]. Qed.

Lemma even_sep_toks t l : plain bar t -> tok_depth t = 0 -> Forall (even bar) l -> even bar (sep_toks t l).
Proof.
  intros Ht E H. destruct H as [|x l Hx H]; [apply even_nil|]. apply even_app; [done|]. apply even_concat, Forall_fmap. eapply Forall_impl; [exact H|].
  intros y Hy. by apply even_cons.
Qed.

Lemma even_commas l : Forall (even bar) l -> even bar (commas l).
Proof. apply (even_sep_toks (TSym ",")); [left; set_solver|done]. Qed.

Lemma even_sep k l : word k = true -> Forall (even bar) l -> even bar (sep k l).
Proof. intros Hk. by apply (even_sep_toks (TKw k)). Qed.

Lemma even_opt {A} (f : A -> list Tok) o : (forall a, even bar (f a)) -> even bar (opt_toks f o).
Proof. intros H. destruct o; [apply H|apply even_nil]. Qed.

Lemma even_map {A} (f : A -> list Tok) l : (forall a, even bar (f a)) -> Forall (even bar) (f <$> l).
Proof. intros H. apply Forall_fmap, Forall_forall. intros a _. apply H. Qed.

Lemma even_wrap b ts : even bar ts -> even bar (wrap b ts).
Proof. intros H. destruct b; [done|]. apply even_cons; [left; set_solver|done|]. apply even_app; [done|]. apply even_cons; [left; set_solver|done|apply even_nil]. Qed.
End even.

Create HintDb even.
#[export] Hint Resolve even_nil : even.

(** One token or one list of tokens at a time. *)
Ltac evens :=
  repeat first
    [ solve [auto 1 with even]
    | match goal with |- even _ (TSym "{" :: _ ++ TSym "}" :: _) => apply even_braces end
    | match goal with |- even _ (_ :: _) => apply even_cons end; [first [exact I | reflexivity | split; reflexivity | left; set_solver | right; split; reflexivity]|reflexivity|]
    | match goal with |- even _ (commas _) => apply even_commas, even_map; intros ? | |- even _ (sep _ _) => apply even_sep; [reflexivity|apply even_map; intros ?] | |- even _ (opt_toks _ _) => apply even_opt; intros ? end
    | progress (cbn [app]; rewrite <- ?app_assoc)
    | match goal with |- even _ (_ ++ _) => apply even_app end
    | match goal with |- context [if ?b then _ else _] => is_var b; destruct b end ].

Lemma lit_even bar l : even bar (lit_toks l).
Proof.
  revert l. refine (Literal_nested _ _ _ _); [intros l|intros items IH|intros pairs IH].
  - destruct l; try exact I; cbn [lit_toks]; by evens.
  - cbn [lit_toks]. apply even_cons; [left; set_solver|done|]. apply even_app; [apply even_commas; by apply Forall_fmap|by evens].
  - rewrite map_toks. apply even_braces; [|apply even_nil]. apply even_commas, Forall_fmap. eapply Forall_impl; [exact IH|]. intros [k v] Hv. unfold entry_toks. cbn in *. by evens.
Qed.

#[export] Hint Resolve lit_even : even.

Lemma filter_even bar f : even bar (filter_toks f).
Proof.
  unfold filter_toks. apply even_cons; [done..|].
  destruct (f_op f); try (cbn [op_symbol]; by evens). destruct (f_value f); by evens.
Qed.
#[export] Hint Resolve filter_even : even.

Lemma expr_even bar e : forall level, even bar (expr_toks level e).
Proof.
  revert e. refine (FilterExpr_levels _ _ _ _ _); [intros f level; apply filter_even|intros e IH level|intros es IH level|intros es IH level]; cbn [expr_toks].
  - apply even_cons; [done..|]. apply IH.
  - apply even_wrap, even_sep; [done|]. apply Forall_fmap. eapply Forall_impl; [exact IH|]. intros e He. apply He.
  - apply even_wrap, even_sep; [done|]. apply Forall_fmap. eapply Forall_impl; [exact IH|]. intros e He. apply He.
Qed.

Lemma func_even bar f : even bar (func_toks f).
Proof. destruct f; cbn [func_toks]; evens. Qed.

Lemma flat_even bar fs : even bar (flat_toks fs).
Proof. destruct fs as [|f fs]; [apply even_nil|]. cbn [flat_toks]. by evens. Qed.

Lemma target_even bar t : even bar (target_toks t).
Proof. destruct t; cbn [target_toks]; evens. Qed.

Lemma names_even bar l : even bar (names l).
Proof. unfold names. evens. Qed.
#[export] Hint Resolve expr_even func_even flat_even target_even names_even : even.

Lemma block_even bar fs : even bar (block_toks fs).
Proof. unfold block_toks. apply even_braces; [|apply even_nil]. apply even_commas, even_map. intros f. unfold field_toks. destruct (pf_gravity f); by evens. Qed.

Lemma link_even bar l : even bar (link_toks l).
Proof. unfold link_toks. evens. Qed.

Lemma where_even bar e : even bar (where_toks e).
Proof. unfold where_toks. evens. Qed.
#[export] Hint Resolve block_even link_even where_even : even.

Lemma agg_even bar a : even bar (agg_toks a).
Proof. unfold agg_toks, alias_toks. evens. Qed.

Lemma gravity_even bar g : even bar (gravity_toks g).
Proof. destruct g as [f|f []|fs]; cbn [gravity_toks]; evens. Qed.

Lemma as_names_even bar l : even bar (as_names_toks l).
Proof. unfold as_names_toks. cbn [app]. apply even_cons; [done..|]. apply even_braces; evens. Qed.

Lemma query_even bar q : even bar (query_toks q).
Proof. destruct q; cbn [query_toks]; evens. Qed.

Lemma by_even bar b : even bar (by_toks b).
Proof. unfold by_toks. destruct b; evens. Qed.
#[export] Hint Resolve agg_even gravity_even as_names_even query_even by_even : even.

Lemma order_even bar o : even bar (order_toks o).
Proof. unfold order_toks. destruct (ob_descending o); evens. Qed.
#[export] Hint Resolve order_even : even.

Lemma join2_even bar T : even bar T -> even bar (join2 T).
Proof.
  destruct T as [|t T]; [done|]. destruct t; try done. destruct T as [|t T]; [done|]. destruct t; try done. intros [H E]. split; [|exact E].
  apply Forall_cons in H as [H1 H]. apply Forall_cons in H as [H2 H]. by repeat constructor.
Qed.

Lemma ghost_even s : even true (create_ghost_toks s).
Proof.
  unfold create_ghost_toks, some_toks, order_target_toks, asc_toks, group_toks, aggregate_toks, embed_toks. destruct (cg_group_by s), (cg_aggregates s), (cg_embed s), (cg_sort_descending s); 
    (destruct (cg_order_metric s) as [[]|]); by evens.
Qed.

Definition is_ghost (st : Statement) : bool := match st with SCreateGhost _ => true | _ => false end.

Lemma stmt_even st : even (is_ghost st) (stmt_toks st).
Proof.
  destruct st; cbn [stmt_toks is_ghost]; try (apply join2_even; try apply ghost_even);
    unfold put_toks, put_batch_toks, find_toks, pull_toks, pull_params_toks, only_toks, scan_toks, scan_lobe, set_toks, assignment_toks, delete_toks, fetch_toks, link_stmt_toks, show_toks,
      scan_ghost_toks, conflict_toks, limit_toks, cursor_toks, hint_toks; try case_match; evens.
Qed.

Lemma step_even p : even false (step_toks p).
Proof.
  destruct p; cbn [step_toks]; try apply join2_even;
    unfold find_toks, pull_toks, pull_params_toks, only_toks, scan_toks, scan_lobe, set_toks, assignment_toks, delete_toks, scan_ghost_toks, aggregate_toks, group_toks, nearest_toks,
      follow_toks, top_toks, shape_toks, asc_toks, limit_toks, cursor_toks; try case_match; try solve [evens].
Qed.

(** ** Divisions *)

Section divide.
Context {N : Nom} {NL : NomLaws N} {UN : Unicode} {VT : ValueText}.

Lemma brk_prefix b s1 s2 : brk b (s1 ++ s2) -> brk b s1.
Proof. unfold brk. destruct (last b); [|done]. by destruct s1. Qed.

(** A layout divides at a symbol. *)
Lemma lays_cut T1 c T2 s : lays (T1 ++ TSym c :: T2) s -> exists a r, s = a ++ str c ++ r /\ lays T1 a /\ lays T2 r.
Proof.
  revert s. induction T1 as [|t T1 IH]; intros s; cbn [app lays].
  - intros (w & b & s' & -> & Hw & (-> & _) & _ & Hs). by exists w, s'.
  - intros (w & b & s' & -> & Hw & Hb & Hk & Hs). destruct (IH s' Hs) as (a & r & -> & Ha & Hr). exists (w ++ b ++ a), r. rewrite <- !app_assoc. split; [done|]. split; [|done].
    exists w, b, a. do 3 (split; [done|]). split; [|done]. by eapply brk_prefix.
Qed.

Lemma plain_sym_quiet bad bar t : (forall x, x ∈ bad -> x = 124 /\ bar = false \/ x = 59) -> plain bar t -> sym_quiet bad t.
Proof.
  intros Hbad. destruct t; try done. cbn [plain sym_quiet]. intros [H | [-> ->]].
  - unfold symbols in H. repeat (apply elem_of_cons in H as [-> | H]; [cbn; repeat (let E := fresh in case_bool_decide as E; [apply Hbad in E as [[] | ]; done|]); reflexivity|]). by apply elem_of_nil in H.
  - cbn. case_bool_decide as E; [|done]. by apply Hbad in E as [[_ ?] | ?].
Qed.

Lemma split_walk bad b s : 124 ∈ bad -> forall q d q' d' cur, walk bad q d b = Some (q', d') -> split_loop (b ++ s) cur d q = split_loop s (cur ++ b) d' q'.
Proof.
  intros Hbar. induction b as [|x b IH]; intros q d q' d' cur; cbn [walk app]; [intros [= -> ->]; by rewrite app_nil_r|]. cbn [split_loop].
  replace (cur ++ x :: b) with ((cur ++ [x]) ++ b) by (by rewrite <- app_assoc). destruct (x =? 10); [done|]. destruct (x =? 34) eqn:E34.
  - destruct q; cbn [negb andb]; apply IH.
  - destruct q; cbn [negb andb]; rewrite ?andb_false_r; [apply IH|]. destruct ((x =? 45) && _); [done|]. case_bool_decide as E; [done|]. rewrite !andb_true_r.
    assert (x =? 124 = false) as -> by (apply Z.eqb_neq; by intros ->). destruct (x =? 123); [apply IH|]. destruct (x =? 125); apply IH.
Qed.

Lemma split_ws w s d : all_ws w -> forall cur, split_loop (w ++ s) cur d false = split_loop s (cur ++ w) d false.
Proof.
  induction 1 as [|x w Hx _ IH]; intros cur; cbn [app]; [by rewrite app_nil_r|]. replace (cur ++ x :: w) with ((cur ++ [x]) ++ w) by (by rewrite <- app_assoc).
  destruct (ws_small x Hx) as [-> | [-> | [-> | ->]]]; apply IH.
Qed.

Context (bad : list Z) (Hbad : forall x, x ∈ bad -> x = 124 \/ x = 59).

Lemma split_lays ts a s : 124 ∈ bad -> lays ts a -> Forall (quiet_tok bad) ts -> Forall (sym_quiet bad) ts ->
  forall cur d, split_loop (a ++ s) cur d false = split_loop s (cur ++ a) (d + depth ts) false.
Proof.
  intros Hbar. revert a. induction ts as [|t ts IH]; intros a; cbn [lays].
  - intros Ha _ _ cur d. rewrite split_ws by done. by rewrite Z.add_0_r.
  - intros (w & b & s' & -> & Hw & Hb & _ & Hs) Hq Hy cur d. apply Forall_cons in Hq as [Ht Hq], Hy as [Hyt Hy].
    rewrite <- !app_assoc, split_ws by done. pose proof (spells_walk bad Hbad t b Hb Ht Hyt) as Hwk. apply (walk_depth _ _ _ _ d) in Hwk. rewrite Z.add_0_l in Hwk.
    rewrite (split_walk bad b (s' ++ s) Hbar _ _ _ _ _ Hwk), (IH s') by done. cbn [depth foldr]. fold (depth ts). rewrite <- !app_assoc. f_equal. lia.
Qed.

(** The segments of a pipeline are where its steps are. *)
Lemma split_segments T Ts s : 124 ∈ bad -> lays (sep_toks (TSym "|") (T :: Ts)) s -> Forall (Forall (quiet_tok bad)) (T :: Ts) -> Forall (even false) (T :: Ts) ->
  (forall t, plain false t -> sym_quiet bad t) -> exists segs, split_pipeline s = segs /\ Forall2 lays (T :: Ts) segs.
Proof.
  intros Hbar Hs Hq He Hp. unfold split_pipeline. eexists. split; [done|]. revert T s Hs Hq He. induction Ts as [|T' Ts IH]; intros T s Hs Hq He;
    apply Forall_cons in Hq as [HqT Hq], He as [[HpT HdT] He]; (assert (Forall (sym_quiet bad) T) as Hy by (eapply Forall_impl; [exact HpT|exact Hp])).
  - cbn [sep_toks fmap list_fmap concat] in Hs. rewrite app_nil_r in Hs. rewrite <- (app_nil_r s). rewrite (split_lays T s []) by done. cbn [split_loop app].
    constructor; [|constructor]. by apply lays_trim.
  - cbn [sep_toks fmap list_fmap concat] in Hs. apply lays_cut in Hs as (a & r & -> & Ha & Hr). rewrite (split_lays T a) by done. rewrite HdT. cbn [app].
    change (str "|" ++ r) with (124 :: r). cbn [split_loop]. cbn -[split_loop lays]. constructor; [by apply lays_trim|]. apply IH; [|done..]. exact Hr.
Qed.

(** A statement without bars of its own is one segment. *)
Lemma split_single ts s : 124 ∈ bad -> lays ts s -> Forall (quiet_tok bad) ts -> even false ts -> (forall t, plain false t -> sym_quiet bad t) -> split_pipeline s = [str_trim s].
Proof.
  intros Hbar Hs Hq [He _] Hp. unfold split_pipeline. rewrite <- (app_nil_r s) at 1. rewrite (split_lays ts s []); [done..|]. eapply Forall_impl; [exact He|exact Hp].
Qed.
End divide.
