(* ===== verification/ParseTheorems.v ===== *)
(** * Parsing

    Every statement and pipeline that the language can say is parsed from every text
    that spells its tokens, with any white space and comments between them; printed
    and parsed, it comes back. *)

From S2P Require Import Prelude ByteOrder Types Paths BTree Value Lid Filters FilterEq Record GroupKey Gravity Scan Registries Db Mutations Nom Parser.
From S2P Require Import Tokens ExprReads StatementReads ParseReads Segments.

(** A semicolon in quoted text would end the statement. *)
Definition no_semicolon (t : Tok) : Prop := match t with TStr s | TAt s | TParen s | TLobe s => 59 ∉ s | _ => True end.

(** ** Whole statements *)

Definition whole_toks (st : Statement) : list Tok :=
  match st with SPipeline ps => sep_toks (TSym "|") (step_toks <$> ps) | _ => stmt_toks st end.

(** What the language can say: a pipeline has a source and at least one more step. *)
Definition whole_ok (st : Statement) : Prop :=
  match st with
  | SPipeline (p :: ps) => source_ok p /\ ps <> [] /\ Forall step_ok ps
  | _ => stmt_ok st
  end.

Lemma even_plain bar ts : even bar ts -> Forall (plain true) ts.
Proof. intros [H _]. eapply Forall_impl; [exact H|]. intros t. destruct t; try done. cbn. intros [Hs | [_ ->]]; [by left|by right]. Qed.

Lemma plain_sep s l : plain true (TSym s) -> Forall (Forall (plain true)) l -> Forall (plain true) (sep_toks (TSym s) l).
Proof.
  intros Hs H. destruct H as [|x l Hx H]; [constructor|]. apply Forall_app. split; [done|]. apply Forall_concat, Forall_fmap. eapply Forall_impl; [exact H|]. intros y Hy. by constructor.
Qed.

Lemma whole_plain st : Forall (plain true) (whole_toks st).
Proof.
  assert (forall st, Forall (plain true) (stmt_toks st)) as Hst by (intros st'; eapply even_plain, stmt_even).
  destruct st; try apply (Hst (_ _)); try apply Hst. apply plain_sep; [by right|]. apply Forall_fmap, Forall_forall. intros p _. eapply even_plain, step_even.
Qed.

Lemma whole_some st : whole_ok st -> whole_toks st <> [].
Proof.
  destruct st as [| | | | | | | | | | | | | | | | | | | | | | | |on|[l|]| | | | |[|p ps]]; try done. intros [Hp _]. by destruct p.
Qed.

Section theorems.
Context {N : Nom} {NL : NomLaws N} {UN : Unicode} {VT : ValueText}.

Lemma steps_parse ps segs : Forall step_ok ps -> Forall2 lays (step_toks <$> ps) segs -> pipeline_steps segs = Done ps.
Proof.
  intros Hok H. remember (step_toks <$> ps) as Ts eqn:E. revert ps Hok E. induction H as [|T seg Ts segs HT _ IH]; intros [|p ps] Hok E; try done.
  injection E as -> ->. apply Forall_cons in Hok as [Hp Hok]. cbn [pipeline_steps]. rewrite (step_parses p seg Hp HT). cbn. by rewrite (IH ps Hok eq_refl).
Qed.

Lemma source_leads p T c : source_ok p -> lays (step_toks p ++ T) c -> nows c -> leads (to_uppercase c) "CREATE GHOST" = false.
Proof.
  intros Hp H Hn. destruct p; try done; cbn [step_toks] in H.
  - unfold find_toks in H. destruct (upper_first "FIND" _ _ H Hn) as (s' & -> & _). reflexivity.
  - unfold scan_toks in H. destruct (upper_first "SCAN" _ _ H Hn) as (s' & -> & _). reflexivity.
  - unfold scan_ghost_toks in H. destruct (upper_two "SCAN" "GHOST" _ _ H Hn) as (u & ->). reflexivity.
Qed.

Section divided.
Context (bad : list Z) (Hbad : forall x, x ∈ bad -> x = 124 \/ x = 59) (Hbar : 124 ∈ bad).

Lemma bars_quiet t : plain false t -> sym_quiet bad t.
Proof. apply (plain_sym_quiet bad false). naive_solver. Qed.

Lemma single_segment st c : stmt_ok st -> Forall (quiet_tok bad) (stmt_toks st) -> lays (stmt_toks st) c -> nows c -> parse_segment c = Done st.
Proof.
  intros Hok Hq H Hn. unfold parse_segment. destruct (leads (to_uppercase c) "CREATE GHOST") eqn:E; [by apply single_parses|]. destruct (is_ghost st) eqn:Eg.
  - destruct st; try done. cbn [stmt_toks] in H. unfold create_ghost_toks in H. cbn [app join2] in H. destruct (upper_two "CREATE" "GHOST" _ _ H Hn) as (u & Eu). by rewrite Eu in E.
  - pose proof (stmt_even st) as He. rewrite Eg in He. rewrite (split_single bad Hbad _ c Hbar H Hq He bars_quiet). apply single_parses; [done|]. by apply lays_trim.
Qed.

Lemma whole_segment st c : whole_ok st -> Forall (quiet_tok bad) (whole_toks st) -> lays (whole_toks st) c -> nows c -> parse_segment c = Done st.
Proof.
  intros Hok Hq H Hn. destruct st as [| | | | | | | | | | | | | | | | | | | | | | | | | | | | | |ps]; try (by apply single_segment).
  destruct ps as [|p ps]; [done|]. destruct Hok as (Hp & Hne & Hps). unfold parse_segment. cbn [whole_toks] in *. rewrite fmap_cons in *. rewrite (source_leads p _ c Hp H Hn).
  assert (Forall (Forall (quiet_tok bad)) (step_toks p :: (step_toks <$> ps))) as Hq'.
  { apply Forall_app in Hq as [Hq1 Hq2]. constructor; [done|]. apply Forall_concat in Hq2. rewrite Forall_fmap in Hq2. eapply Forall_impl; [exact Hq2|]. intros T HT. by apply Forall_cons in HT as [_ HT]. }
  destruct (split_segments bad Hbad (step_toks p) (step_toks <$> ps) c Hbar H Hq') as (segs & -> & Hs); [|exact bars_quiet|].
  { constructor; [apply step_even|]. apply Forall_fmap, Forall_forall. intros q _. apply step_even. }
  inversion Hs as [|? seg ? segs' Hseg Hsegs Ea Eb]; subst. destruct segs' as [|seg2 segs']; [destruct ps; [done|inversion Hsegs]|].
  unfold parse_pipeline. rewrite (source_parses p seg Hp Hseg). cbn -[pipeline_steps]. by rewrite (steps_parse ps _ Hps Hsegs).
Qed.

Lemma whole_quiet sym bad' ts : (forall x, x ∈ bad' -> x ∈ bad) -> Forall (quiet_tok bad) ts -> Forall (plain true) ts -> (forall t, plain true t -> sym t) ->
  Forall (quiet_tok bad') ts /\ Forall sym ts.
Proof.
  intros Hb Hq Hp Hs. split; [|eapply Forall_impl; [exact Hp|exact Hs]]. eapply Forall_impl; [exact Hq|]. intros t. destruct t; try done; cbn; unfold quiet_text; by apply walk_fewer.
Qed.

(** A text that spells the tokens, with comments between them, loses only the comments. *)
Lemma strip_lays ts s : Forall (quiet_tok bad) ts -> Forall (plain true) ts -> laid ts s -> lays ts (strip_comments s).
Proof.
  intros Hq Hp. destruct (whole_quiet (sym_quiet []) [] ts) as [Hq' Hy]; [by intros x Hx%elem_of_nil|done|done| |apply (laid_lays []); [by intros x Hx%elem_of_nil|done|done]].
  intros t Ht. apply (plain_sym_quiet [] true); [by intros x Hx%elem_of_nil|done].
Qed.
End divided.

Lemma lays_blank ts : lays ts [] -> ts = [].
Proof. intros H. apply lays_length in H. destruct ts; [done|cbn in H; lia]. Qed.

Definition bars : list Z := [124].

Lemma bars_bad x : x ∈ bars -> x = 124 \/ x = 59.
Proof. intros ->%list_elem_of_singleton. by left. Qed.

Lemma laid_parses st s : whole_ok st -> Forall (quiet_tok bars) (whole_toks st) -> laid (whole_toks st) s -> parse s = Done st.
Proof.
  intros Hok Hq Hs. pose proof (strip_lays bars _ s Hq (whole_plain st) Hs) as H. apply lays_trim in H as [H Hn]. unfold parse.
  destruct (str_trim (strip_comments s)) as [|x c] eqn:E; [by apply lays_blank, whole_some in H|].
  by apply (whole_segment bars bars_bad ltac:(left)).
Qed.

(** C13: every statement and every pipeline that the language can say ([whole_ok]) is
    parsed, whole, from every text that spells its tokens: keywords in any case, any
    white space and comments between the tokens, one space inside the two-word names
    that the code matches by prefix (SCAN GHOST and the like); for texts whose quoted
    parts hold no line feed, and no escaped quotation mark that would expose a bar, a
    brace or a comment. *)
Theorem parse_complete st s : whole_ok st -> Forall (quiet_tok bars) (whole_toks st) -> laid (whole_toks st) s -> parse s = Done st.
Proof. apply laid_parses. Qed.

(** ** Scripts *)

(** [None] is an empty statement. *)
Definition script_toks (l : list (option Statement)) : list Tok := sep_toks (TSym ";") (from_option whole_toks [] <$> l).

Ltac free := repeat first [rewrite not_elem_of_app | rewrite not_elem_of_cons]; repeat split; first [done|assumption|apply not_elem_of_nil].

Lemma word_free c b : ident_byte c = false -> Forall (fun x => ident_byte x = true) b -> c ∉ b.
Proof. intros Hc H Hin. rewrite Forall_forall in H. rewrite (H c Hin) in Hc. done. Qed.

Lemma escape_free s : 59 ∉ s -> 59 ∉ escape s.
Proof. intros H Hin. unfold escape in Hin. apply list_elem_of_bind in Hin as (b & Hin & Hb). destruct (_ || _); set_solver. Qed.

Lemma quoted_free s b : is_quoted s b -> 59 ∉ s -> 59 ∉ b.
Proof.
  intros (cs & Hcs & -> & ->) H. unfold quote. rewrite escape_chars by done. apply escape_free in H. free.
Qed.

Lemma digits_free d : digits d -> 59 ∉ d.
Proof. intros H. apply word_free; [done|]. by apply digits_words. Qed.

Lemma spells_free t b : spells t b -> no_semicolon t -> plain true t -> 59 ∉ b.
Proof.
  assert (forall k b, spells_kw k b -> 59 ∉ b) as Hk.
  { intros k w (_ & _ & _ & H). apply word_free; [done|]. eapply Forall_impl; [exact H|apply alpha_word]. }
  assert (forall n, is_ident n -> 59 ∉ n) as Hi by (intros n [_ H]; by apply word_free).
  destruct t; cbn [spells no_semicolon plain].
  - intros H _ _. by eapply Hk.
  - intros (b1 & b2 & -> & H1%Hk & H2%Hk) _ _. free.
  - intros [-> H] _ _. by apply Hi.
  - intros H Hs _. by eapply quoted_free.
  - intros [H | [-> H]] Hs _; [by eapply quoted_free|by apply Hi].
  - intros (-> & _) _ [H | [_ ->]]; [|eapply bool_decide_unpack; by vm_compute]. unfold symbols in H. repeat (apply elem_of_cons in H as [-> | H]; [eapply bool_decide_unpack; by vm_compute|]). by apply elem_of_nil in H.
  - intros [-> _] _ _. apply digits_free, format_u64_is_digits.
  - intros [-> _] _ _. unfold display_i64. pose proof (digits_free _ (format_u64_is_digits i)). pose proof (digits_free _ (format_u64_is_digits (- i))). destruct (i <? 0); free.
  - intros [(sign & int & frac & ex & -> & Hs & Hd%digits_free & Hf & He & _) _] _ _.
    assert (59 ∉ sign) by (destruct Hs as [-> | ->]; free). assert (59 ∉ frac) by (destruct Hf as [-> | (d & Hd2%digits_free & ->)]; free).
    assert (59 ∉ ex) by (destruct He as [-> | (e & sg & d & [-> | ->] & [-> | [-> | ->]] & Hd2%digits_free & ->)]; free). free.
  - intros (q & H & ->) Hs _. pose proof (quoted_free _ _ H Hs). free.
  - intros (q & H & ->) Hs _. pose proof (quoted_free _ _ H Hs). free.
  - intros [-> H] _ _. apply Hi in H. free.
Qed.

Lemma lays_free ts s : lays ts s -> Forall no_semicolon ts -> Forall (plain true) ts -> 59 ∉ s.
Proof.
  assert (forall w, all_ws w -> 59 ∉ w) as Hws by (intros w Hw Hin; unfold all_ws in Hw; rewrite Forall_forall in Hw; by apply Hw in Hin).
  revert s. induction ts as [|t ts IH]; intros s; cbn [lays]; [intros H _ _; by apply Hws|]. intros (w & b & s' & -> & Hw%Hws & Hb & _ & Hs) Hn Hp.
  apply Forall_cons in Hn as [Ht Hn], Hp as [Hpt Hp]. specialize (IH s' Hs Hn Hp). pose proof (spells_free t b Hb Ht Hpt). free.
Qed.

Lemma split_on_cut c a s : c ∉ a -> split_on c (a ++ c :: s) = a :: split_on c s.
Proof.
  induction a as [|x a IH]; intros H; cbn [app split_on]; [by rewrite Z.eqb_refl|]. apply not_elem_of_cons in H as [Hx H]. rewrite (proj2 (Z.eqb_neq x c)) by done. by rewrite IH.
Qed.

Lemma split_on_none c a : c ∉ a -> split_on c a = [a].
Proof. induction a as [|x a IH]; intros H; cbn [split_on]; [done|]. apply not_elem_of_cons in H as [Hx H]. rewrite (proj2 (Z.eqb_neq x c)) by done. by rewrite IH. Qed.

Definition script_bad : list Z := [124; 59].

Lemma script_bad_ok x : x ∈ script_bad -> x = 124 \/ x = 59.
Proof. unfold script_bad. set_solver. Qed.

Definition part_ok (o : option Statement) : Prop :=
  match o with Some st => whole_ok st /\ Forall (quiet_tok script_bad) (whole_toks st) /\ Forall no_semicolon (whole_toks st) | None => True end.

(** The statements are where the semicolons show them. *)
Lemma script_divides o l s : Forall part_ok (o :: l) -> lays (script_toks (o :: l)) s -> Forall2 (fun o seg => lays (from_option whole_toks [] o) seg) (o :: l) (split_on 59 s).
Proof.
  assert (forall o T, part_ok o -> T = from_option whole_toks [] o -> Forall no_semicolon T /\ Forall (plain true) T) as Hf.
  { intros [st|] T Ho ->; cbn; [|done]. split; [apply Ho|apply whole_plain]. }
  revert o s. induction l as [|o' l IH]; intros o s Hok Hs; apply Forall_cons in Hok as [Ho Hok]; destruct (Hf o _ Ho eq_refl) as [Hn Hp]; unfold script_toks in Hs; cbn [sep_toks fmap list_fmap concat] in Hs.
  - rewrite app_nil_r in Hs. rewrite split_on_none by (by eapply lays_free). by constructor.
  - apply lays_cut in Hs as (a & r & -> & Ha & Hr). change (str ";" ++ r) with (59 :: r). rewrite split_on_cut by (by eapply lays_free). constructor; [done|]. by apply IH.
Qed.

Lemma segments_parse l segs : Forall part_ok l -> Forall2 (fun o seg => lays (from_option whole_toks [] o) seg) l segs -> parse_segments segs = Done (omap id l).
Proof.
  intros Hok H. induction H as [|o seg l segs Ho _ IH]; [done|]. apply Forall_cons in Hok as [Hp Hok]. specialize (IH Hok). cbn [parse_segments]. apply lays_trim in Ho as [Ho Hn]. destruct o as [st|].
  - destruct Hp as (Hst & Hq & _). destruct (str_trim seg) as [|x c] eqn:E; [by apply lays_blank, whole_some in Ho|].
    rewrite (whole_segment script_bad script_bad_ok ltac:(left) st (x :: c) Hst Hq Ho Hn). cbn -[parse_segments]. by rewrite IH.
  - apply lays_end in Ho. rewrite skip_ws_nows in Ho by done. by rewrite Ho.
Qed.

(** C14: a script of statements, separated by semicolons, some of them empty, is parsed
    into its statements when no quoted text holds a semicolon. *)
Theorem script_complete l s : Forall part_ok l -> omap id l <> [] -> laid (script_toks l) s -> parse_multi s = Done (omap id l).
Proof.
  intros Hok Hne Hs. destruct l as [|o l]; [done|].
  assert (Forall (quiet_tok []) (script_toks (o :: l)) /\ Forall (sym_quiet []) (script_toks (o :: l))) as [Hq Hy].
  { assert (Forall (fun T => Forall (quiet_tok []) T /\ Forall (sym_quiet []) T) (from_option whole_toks [] <$> (o :: l))) as H.
    { apply Forall_fmap. eapply Forall_impl; [exact Hok|]. intros [st|] Ho; cbn; [|done]. destruct Ho as (_ & Hq & _).
      apply (whole_quiet script_bad (sym_quiet []) [] (whole_toks st)); [by intros x Hx%elem_of_nil|done|apply whole_plain|].
      intros t Ht. apply (plain_sym_quiet [] true); [by intros x Hx%elem_of_nil|done]. }
    unfold script_toks. revert H. generalize (from_option whole_toks [] <$> (o :: l)). intros L H. destruct H as [|T L [H1 H2] H]; [done|]. cbn [sep_toks].
    assert (Forall (Forall (quiet_tok [])) ((fun y => TSym ";" :: y) <$> L) /\ Forall (Forall (sym_quiet [])) ((fun y => TSym ";" :: y) <$> L)) as [H3 H4].
    { rewrite !Forall_fmap. split; (eapply Forall_impl; [exact H|]); intros T' []; by constructor. }
    split; (apply Forall_app; split; [done|by apply Forall_concat]). }
  pose proof (laid_lays [] ltac:(by intros x Hx%elem_of_nil) _ s Hq Hy Hs) as H. pose proof (script_divides o l _ Hok H) as Hd.
  unfold parse_multi. rewrite (segments_parse _ _ Hok Hd). cbn [mbind Out_bind]. by destruct (omap id (o :: l)).
Qed.

(** ** Printing *)

(** Names are printed as they are, texts between quotation marks. *)
Definition print_text (s : bytes) : bytes := quote (chars s).

(** A number that is not an integer. *)
Definition print_float (b : Z) : bytes := let d := display_f64 b in if existsb (Z.eqb 46) d then d else d ++ [46; 48].

Definition print_tok (t : Tok) : bytes :=
  match t with
  | TKw k => str k
  | TKw2 k1 k2 => str k1 ++ 32 :: str k2
  | TName n => n
  | TStr s => print_text s
  | TLobe n => print_text n
  | TSym s => str s
  | TNat n => format_u64 n
  | TInt i => display_i64 i
  | TFloat b => print_float b
  | TAt s => 64 :: print_text s
  | TParen s => 40 :: print_text s ++ [41]
  | TDollar n => 36 :: n
  end.

Definition print (ts : list Tok) : bytes := concat ((fun t => print_tok t ++ [32]) <$> ts).

(** UTF-8 text, as far as the parser looks. *)
Definition text_ok (s : bytes) : Prop := Forall char_ok (chars s) /\ concat (chars s) = s.

Definition data_ok (t : Tok) : Prop :=
  match t with
  | TName n | TDollar n => is_ident n
  | TStr s | TLobe s | TAt s | TParen s => text_ok s
  | TNat n => is_uint 64 n
  | TInt i => - 2 ^ 63 <= i < 2 ^ 63
  | TFloat b => float_text (print_float b) /\ parse_f64 (print_float b) = Some b
  | _ => True
  end.

Lemma word_spells k : word k = true -> spells_kw k (str k).
Proof.
  unfold word. intros [Hne Hf]%andb_true_iff. assert (Forall (fun b => 65 <= b <= 90) (str k)) as H.
  { apply Forall_forall. intros b Hb. rewrite forallb_forall in Hf. specialize (Hf b ltac:(by apply list_elem_of_In)). lia. }
  split; [eapply Forall_impl; [exact H|]; cbn; lia|]. split; [by apply negb_true_iff, beqb_neq in Hne|]. split.
  - clear -H. induction H as [|b l Hb _ IH]; [done|]. rewrite fmap_cons, IH. f_equal. unfold upper_byte. rewrite (proj2 (Z.leb_gt _ _)) by lia. done.
  - eapply Forall_impl; [exact H|]. cbn. unfold is_ascii_alpha_byte. lia.
Qed.

Lemma quoted_text s : text_ok s -> is_quoted s (print_text s).
Proof. intros [H E]. by exists (chars s). Qed.

Lemma spells_print t : plain true t -> data_ok t -> spells t (print_tok t).
Proof.
  destruct t; cbn [plain data_ok spells print_tok].
  - intros H _. by apply word_spells.
  - intros [H1 H2] _. exists (str k1), (str k2). split; [done|]. split; by apply word_spells.
  - done.
  - intros _. apply quoted_text.
  - intros _ H. left. by apply quoted_text.
  - intros H _. split; [done|].
    assert (forallb (fun c => (32 <? c) && (c <? 127) && negb (ident_byte c)) (str s) = true /\ str s <> []) as [Hf Hne].
    { destruct H as [H | [_ ->]]; [|done]. unfold symbols in H. repeat (apply elem_of_cons in H as [-> | H]; [done|]). by apply elem_of_nil in H. }
    split; [done|]. apply Forall_forall. intros c Hc. rewrite forallb_forall in Hf. specialize (Hf c ltac:(by apply list_elem_of_In)).
    apply andb_true_iff in Hf as [Hf1 Hf2%negb_true_iff]. split; [|done]. unfold solid. lia.
  - done.
  - done.
  - done.
  - intros _ H. eexists. by split; [apply quoted_text|].
  - intros _ H. eexists. by split; [apply quoted_text|].
  - done.
Qed.

Lemma print_laid ts : Forall (plain true) ts -> Forall data_ok ts -> laid ts (print ts).
Proof.
  assert (forall ts, Forall (plain true) ts -> Forall data_ok ts -> laid ts (32 :: print ts) /\ laid ts (print ts)) as H; [|by apply H].
  clear ts. intros ts Hp. induction Hp as [|t ts Ht _ IH]; intros Hd.
  - split; left; [by repeat constructor|constructor].
  - apply Forall_cons in Hd as [Hdt Hd]. destruct (IH Hd) as [H1 _]. assert (brk (print_tok t) (32 :: print ts)) as Hk.
    { unfold brk. destruct (last (print_tok t)) as [x|]; [|done]. by apply glue_ws. }
    assert (print (t :: ts) = print_tok t ++ 32 :: print ts) as E by (unfold print; rewrite fmap_cons; cbn [concat]; by rewrite <- app_assoc).
    split; rewrite E; cbn [laid].
    + exists [32], (print_tok t), (32 :: print ts). repeat split; [by repeat constructor|by apply spells_print|done|done].
    + exists [], (print_tok t), (32 :: print ts). repeat split; [constructor|by apply spells_print|done|done].
Qed.

(** What is printed from a statement or a pipeline is parsed back to it. *)
Theorem print_parse st : whole_ok st -> Forall (quiet_tok bars) (whole_toks st) -> Forall data_ok (whole_toks st) -> parse (print (whole_toks st)) = Done st.
Proof.
  intros Hok Hq Hd. apply laid_parses; [done..|]. apply print_laid; [apply whole_plain|done].
Qed.
End theorems.
