(* ===== verification/ParseSample.v ===== *)
(** * Statements, as they are parsed

    Concrete texts for the theorems on the parser, and what the parser does with texts
    beyond them: where it accepts something else than what is written. *)

From S2P Require Import Prelude ByteOrder Types Paths BTree Value Lid Filters FilterEq Record GroupKey Gravity Scan Registries Db Mutations Nom Parser.
From S2P Require Import Tokens ExprReads StatementReads ParseReads Segments ParseTheorems.

(** Letters beyond ASCII, as they are. *)
Definition sample_unicode : Unicode := {| u_alphanumeric := fun _ => true; u_upper := id |}.

#[local] Existing Instance sample_unicode.
#[local] Existing Instance sample_text.
#[local] Existing Instance nom_impl.
#[local] Existing Instance nom_impl_laws.

(** ** Witnesses *)

(** One token of a layout, after the gap before it. *)
Ltac lay_after tac g b :=
  match goal with |- laid _ ?s => let r := eval vm_compute in (drop (length g + length b) s) in
    exists g, b, r; split; [vm_compute; reflexivity|]; split; [repeat (apply gap_ws; [reflexivity|]); tac|]; split; [|split; [vm_compute; reflexivity|]] end.
Ltac lay_tok g b := lay_after ltac:(exact gap_nil) g b.

Ltac each := repeat (apply Forall_cons; split; [by vm_compute|]); apply Forall_nil; exact I.
Ltac lay_kw := split; [each|]; split; [discriminate|]; split; [reflexivity|each].
Ltac lay_name := first [split; [reflexivity|] | right; split; [reflexivity|]]; split; [discriminate|each].
Ltac lay_nat := split; [reflexivity|by vm_compute].
Ltac lay_sym := split; [reflexivity|]; split; [discriminate|each].
Ltac lay_quoted s := exists (chars s); split; [repeat (constructor; [by eexists _, _|]); constructor|]; split; vm_compute; reflexivity.

Definition three_oldest : Statement :=
  SPipeline
    [ PScan (mkScan (str "people") (Some (Or [Condition (mkFilter (str "age") Gte (LInt 18)); Not (Condition (mkFilter (str "name") Eq_ (LText (str "x|y"))))])) None None None);
      PTop (mkTop 3 (Some (Alias (str "age"))) true) ].

Definition three_oldest_text : bytes :=
  str "scan people Where age>=18 -- of age" ++ [10] ++ str "OR not name = " ++ [34] ++ str "x|y" ++ [34] ++ str "| take 3 BY age DESC".

Lemma parse_complete_witness : parse three_oldest_text = Done three_oldest.
Proof.
  apply parse_complete.
  - split; [split; [|by intros []]|split; [discriminate|repeat constructor]]. cbn [st_filter_expr opt_ok]. cbn [expr_ok length List.map foldr]. split; [lia|].
    split; [split; [unfold filter_ok; cbn [f_op f_value lit_height]; lia|by vm_compute]|]. split; [|exact I]. split; [unfold filter_ok; cbn [f_op f_value lit_height]; lia|by vm_compute].
  - repeat constructor.
  - lay_tok (@nil Z) (str "scan"); [lay_kw|]. lay_tok (str " ") (str "people"); [lay_name|]. lay_tok (str " ") (str "Where"); [lay_kw|].
    lay_tok (str " ") (str "age"); [lay_name|]. lay_tok (@nil Z) (str ">="); [lay_sym|]. lay_tok (@nil Z) (str "18"); [lay_nat|].
    lay_after ltac:(apply (gap_comment (str " of age")); [eapply bool_decide_unpack; by vm_compute|constructor]) (str " -- of age" ++ [10]) (str "OR"); [lay_kw|].
    lay_tok (str " ") (str "not"); [lay_kw|]. lay_tok (str " ") (str "name"); [lay_name|]. lay_tok (str " ") (str "="); [lay_sym|].
    lay_tok (str " ") ([34] ++ str "x|y" ++ [34]); [lay_quoted (str "x|y")|]. lay_tok (@nil Z) (str "|"); [lay_sym|]. lay_tok (str " ") (str "take"); [lay_kw|].
    lay_tok (str " ") (str "3"); [lay_nat|]. lay_tok (str " ") (str "BY"); [lay_kw|]. lay_tok (str " ") (str "age"); [lay_name|]. lay_tok (str " ") (str "DESC"); [lay_kw|].
    left. constructor.
Defined.

(** A statement, an empty one and another. *)
Definition script : list (option Statement) := [Some SCompact; None; Some (SShow ShowLobes)].

Lemma script_complete_witness : parse_multi (str "COMPACT; ; show lobes") = Done [SCompact; SShow ShowLobes].
Proof.
  apply (script_complete script); [repeat constructor|discriminate|].
  lay_tok (@nil Z) (str "COMPACT"); [lay_kw|]. lay_tok (@nil Z) (str ";"); [lay_sym|]. lay_tok (str " ") (str ";"); [lay_sym|]. lay_tok (str " ") (str "show"); [lay_kw|].
  lay_tok (str " ") (str "lobes"); [lay_kw|]. left. constructor.
Defined.

(** A text with quotation marks, a negative number and a list. *)
Definition put_named : Statement :=
  SPut (mkPut [mkPutField (str "name") (LText ([34] ++ str "a" ++ [34] ++ str "b")) true; mkPutField (str "age") (LInt (-5)) false; mkPutField (str "tags") (LList [LNull; LBool true]) false]
    (str "people") None None).

Lemma text_check s : forallb (fun b => (0 <=? b) && (b <? 128)) s = true -> text_ok s.
Proof.
  unfold text_ok, chars. intros H. induction s as [|b s IH]; [by split; [constructor|]|]. cbn [forallb] in H. apply andb_true_iff in H as [Hb H]. cbn [length chars_fuel].
  rewrite next_char_ascii by lia. destruct (IH H) as [H1 H2]. split; [|cbn; by rewrite H2]. constructor; [|done].
  exists b, []. split; [done|]. split; [|constructor]. unfold char_len. cbn. destruct (Z.ltb_spec b 128); [done|lia].
Qed.

Lemma print_parse_witness : parse (print (whole_toks put_named)) = Done put_named.
Proof.
  apply print_parse.
  - split; [repeat (constructor; [unfold field_ok, lit_ok; cbn [pf_value lit_height foldr List.map]; lia|]); constructor|exact I].
  - repeat constructor.
  - repeat (apply Forall_cons; split; [first [exact I | apply text_check; vm_compute; reflexivity | split; [discriminate|each] | cbn; lia]|]). constructor.
Defined.

(** ** Beyond the language *)

Definition quoted (s : bytes) : bytes := [34] ++ s ++ [34].

Definition put_text (s : bytes) : Statement := SPut (mkPut [mkPutField (str "n") (LText s) false] (str "lobe") None None).

(** A WHERE clause that does not parse is dropped by SET, which then has no filter;
    of the rest of a line a DELETE keeps what parses. *)
Lemma malformed_where_dropped :
  parse (str "SET lobe a = 1 WHERE b == 2") = Done (SSet (mkSet (Some (FLobe (str "lobe"))) [(str "a", LInt 1)] None)) /\
  parse (str "DELETE lobe WHERE a = 1 XOR b = 2") =
    Done (SDelete (mkDelete (Some (FLobe (str "lobe"))) (Some (Condition (mkFilter (str "a") Eq_ (LInt 1)))))).
Proof. split; vm_compute; reflexivity. Qed.

(** A limit that does not fit is dropped by SCAN. *)
Lemma large_limit_dropped : parse (str "SCAN lobe LIMIT 99999999999999999999") = Done (SScan (mkScan (str "lobe") None None None None)).
Proof. vm_compute. reflexivity. Qed.

(** A script divides inside quoted text. *)
Lemma script_divides_text :
  parse (str "PUT {n: " ++ quoted (str "a;b") ++ str "} IN lobe") = Done (put_text (str "a;b")) /\
  exists e, parse_multi (str "PUT {n: " ++ quoted (str "a;b") ++ str "} IN lobe") = Failed e.
Proof. split; [vm_compute; reflexivity|eexists; vm_compute; reflexivity]. Qed.

(** After a text with one escaped quotation mark the bar of the pipeline is not seen. *)
Lemma escaped_quote_hides_bar :
  exists e, parse (str "FIND lobe WHERE n = " ++ quoted (str "a" ++ [92; 34]) ++ str " | TAKE 1 DESC") = Failed e.
Proof. eexists. vm_compute. reflexivity. Qed.

(** A line feed in a text becomes a space. *)
Lemma line_feed_lost : parse (str "PUT {n: " ++ quoted (str "a" ++ [10] ++ str "b") ++ str "} IN lobe") = Done (put_text (str "a b")).
Proof. vm_compute. reflexivity. Qed.

(** With two spaces SCAN GHOST is a scan of a lobe named GHOST. *)
Lemma two_spaces_scan_lobe :
  parse (str "SCAN GHOST " ++ quoted (str "g")) = Done (SScanGhost (mkScanGhost (str "g") None None)) /\
  parse (str "SCAN  GHOST " ++ quoted (str "g")) = Done (SScan (mkScan (str "GHOST") None None None None)).
Proof. split; vm_compute; reflexivity. Qed.

(** A path that begins with a segment [not] is read as a negation. *)
Lemma not_segment_negates :
  parse (str "SCAN lobe WHERE not.x = 1") = Done (SScan (mkScan (str "lobe") (Some (Not (Condition (mkFilter (str ".x") Eq_ (LInt 1))))) None None None)).
Proof. vm_compute. reflexivity. Qed.
